(* ===== verification/_CoqProject ===== *)
-Q . S2P
Prelude.v
Sorted.v
WorkModel.v
CoreTranscript.v
CoreTranscriptThms.v
WorkBoard.v
WorkBoardFacts.v
WorkBoardInv.v
WorkBoardSpec.v
WorkScenario.v
WorkBoardThms.v
WorkPolicy.v
WorkCodec.v
WorkReplayThms.v
BusEnvelope.v
CoreHistory.v
BusRing.v
BusIndex.v
BusEphemeral.v
BusSink.v
BusRouter.v
BusSystem.v
BusHistory.v
BusSubs.v
BusStream.v
BusDrain.v
BusThms.v
BusForward.v
BusIdem.v
BusMesh.v
BusMatch.v
BusCounterexamples.v
ProtoSession.v
ProtoSessionThms.v
ProtoKeys.v
ProtoHandshake.v
ProtoManager.v
ProtoCross.v
StoreBase.v
TrustStore.v
TrustThms.v
StoreCustody.v
StoreCustodyRun.v
StoreCustodyThms.v
StoreTable.v
StoreSink.v
StoreTableThms.v
StoreTablePages.v
StoreSinkRows.v
StoreSinkRef.v
StoreSinkThms.v
StoreEvents.v
StoreEventRows.v
StoreEventThms.v
StoreDerive.v
StoreDeriveThms.v
StoreOpen.v
StoreOpenThms.v
StoreDrain.v
StoreDrainThms.v
StoreDrainPass.v
StoreRegisters.v
StoreRegisterThms.v
StoreRegisterLists.v
StoreRegisterCalls.v
RouteHealth.v
RouteHealthThms.v
Blobs.v
BlobsThms.v
BlobsRef.v
BlobsGc.v
WorkObserve.v
WorkStore.v
WorkStoreThms.v
WorkClient.v
WorkClientThms.v
WorkQueue.v
IpcCodec.v
Addressed.v
Relay.v
