(* ===== verification/Prelude.v ===== *)
(** * AIRC: a verification development

    AIRC is a messaging substrate for agents: a daemon keeps rooms of events,
    routes them to local subscribers and to peers, and on top of the event log a
    work board coordinates who does what.  This library models the parts that
    carry its own logic ([src/crates/...], Rust) and proves what makes them
    correct.

    ** The program's parts

    A client publishes an envelope on a channel.  The router ([airc-bus]) gives it a
    sequence number, keeps it in the channel's hot ring, fans it out to live
    subscribers, queues it for the durable sink and offers it to the forwarder,
    which sends it to the connected peers.  A peer's frame comes back in through
    [publish_if_new].  Readers page the ring and the sink as one history.  Work
    events are transcript events whose body is a [WorkEvent]; replaying them
    builds the board ([airc-work]).  Peers know each other by Ed25519 keys held in
    the trust store ([airc-trust], [airc-store]), sign what they send, and protect
    addressed streams with sessions set up by a signed handshake
    ([airc-protocol]).  The durable tier, the transcript and the daemon's registers
    are tables of one SQLite file ([airc-store]), which is opened through its
    migrations and a derivation pass, drained of dead rows, and written only under
    custody: locks that keep writers, upgrades and automatic starts apart.  Clients
    talk to the daemon in length-framed CBOR ([airc-ipc]); frames addressed to one peer go
    through bounded inboxes of the daemon ([airc-daemon]) or over a relay ([airc-relay]).
    Large bodies are blobs in a content-addressed directory ([airc-blobs]).  A node dials the
    endpoints of its peers through a quarantine of those that fail, and judges its
    routes by the acks it gets back ([airc-lib]).  An agent works through the client
    library: each call reads the board of a room, from a cached snapshot and the events
    after it, decides, and publishes work events ([airc-work-store], [airc-lib]).

    ** Files

    - [Prelude]: record updates, [u64] arithmetic, results and the state-and-error
      monad [ST], strings as code points, uuids, key orders, sorting, and programs as
      the calls they make ([Prog]).
    - [WorkModel] (airc-work ids, model, goal, event), [WorkBoard] (projection.rs,
      projection/apply.rs), [WorkPolicy] (drain_policy.rs, recipe.rs), [WorkCodec]
      (codec/, replay.rs).  Theorems: [WorkBoardFacts], [WorkBoardInv],
      [WorkBoardSpec], [WorkBoardThms], [WorkReplayThms]; the board the witnesses
      run on: [WorkScenario].
    - [CoreTranscript] (airc-core headers, transcript, cursor, filter; the frames and
      subscriptions of airc-protocol), [CoreHistory] (addressing, history_match,
      history_count, bounded_selection, with its theorems).  Theorems:
      [CoreTranscriptThms].
    - [BusEnvelope], [BusRing], [BusIndex], [BusEphemeral], [BusSink], [BusRouter],
      [BusMatch]: airc-bus, one file per source file ([BusRouter]: router.rs,
      router/subscribe.rs, router/write_behind.rs, router/history.rs; [BusMatch]:
      the filtered reads).  [BusSystem] puts router, sink and writer together as a
      transition system; [BusHistory], [BusSubs], [BusStream], [BusDrain] are the
      lemmas about its runs ([BusDrain] also the run of the witnesses), [BusThms] and
      [BusMatch] the theorems, [BusForward] and [BusMesh] the way to other nodes (route_forwarder.rs and
      router_bridge.rs of airc-lib), [BusIdem] idempotent publishing,
      [BusCounterexamples] runs in which the router does not keep what its comments
      promise.
    - [ProtoSession] (session.rs), [ProtoKeys] (signature.rs, keypair.rs, assertion.rs,
      addressed_attach.rs, trust_rotation.rs, and a writer of canonical CBOR),
      [ProtoHandshake] (handshake.rs, and the messages of every purpose an identity key
      signs or checks, those of grid_auth.rs included), [ProtoManager]
      (session_manager.rs), the last two with their theorems, and [ProtoSessionThms];
      [ProtoCross] composes two managers over two channels.
    - [TrustStore] (airc-store peer_trust.rs and sqlite/trust_ops.rs, airc-trust lib.rs),
      theorems in [TrustThms]; [trust_step] there runs the statements of rotations
      between other calls.
    - [StoreCustody] (airc-store custody.rs, airc-lib daemon_lifecycle.rs, the commands of
      airc-cli that take the locks, the daemon and the writes of its stores),
      [StoreCustodyRun], [StoreCustodyThms].
    - [StoreBase] (error.rs, integer columns, the order of text; one fallible machine
      refining another over runs of calls), [Sorted], [StoreTable] (event_table.rs, header_query.rs: queries and transactions
      on an event table, and an instance of it), [StoreTableThms],
      [StoreTablePages].  On it, [StoreSink] (bus_sink.rs; [StoreSinkRows],
      [StoreSinkRef], [StoreSinkThms]) and [StoreEvents] (the transcript in sqlite.rs,
      event_query.rs, history_count.rs, and in memory.rs; [StoreEventRows],
      [StoreEventThms]).
    - [StoreDerive] (derive.rs, migration/mod.rs, the statements of each migration),
      [StoreDeriveThms], [StoreOpen], [StoreOpenThms]: opening a store.  [StoreDrain] (retention.rs, sqlite_only.rs),
      [StoreDrainThms], [StoreDrainPass]: the drain.
    - [StoreRegisters] (the registers in sqlite.rs, sqlite/event_store.rs,
      bus_epoch_store.rs and memory.rs), [StoreRegisterThms], [StoreRegisterLists],
      [StoreRegisterCalls].
    - [RouteHealth] (airc-lib route/: dial_quarantine.rs, the walk over a peer's endpoints
      in discovery.rs, delivery_ledger.rs, health.rs), theorems in [RouteHealthThms].
    - [Blobs] (airc-blobs) and the disk under it; [BlobsThms] (integrity under
      interleavings, crashes and power loss), [BlobsRef] (the store as a map), [BlobsGc]
      (collection, reading back, the runs of the witnesses).

    - [WorkObserve] (airc-work local_git.rs, pull_requests/: snapshots of a worktree and of
      GitHub, and the events between two), [WorkStore] (airc-work-store lib.rs, airc-lib
      work_board_cache.rs, the paging of work.rs and daemon.rs), [WorkClient] (the calls of
      airc-lib work.rs on cards, claims, submissions, reviews, lanes, workspaces and
      observers), [WorkQueue] (the queue of work.rs, work_roster.rs, work_manager.rs, with its
      theorems).  A call is a [Prog] of the acts it makes, so a run may put anything the
      others do between two acts.  Theorems: [WorkStoreThms], [WorkClientThms].

    - [IpcCodec] (airc-ipc codec.rs), [Addressed] (airc-protocol addressed_deadline.rs,
      addressed.rs; airc-daemon addressed_switch.rs and addressed_connection.rs), [Relay]
      (airc-relay), each with its theorems.

    A Rust struct is a [Record] with the source's fields (behind a short prefix where
    names clash), an enum an [Inductive] with its variants, a method a function
    of the same name; [&mut self] with a [Result] is [ST]: the result together
    with the state it leaves, also when it is an error.

    ** What the theorems show

    - The board: a live lease keeps its card, accepted submissions and reviews
      come from who they must and stay, every replay gives a well-formed board, the
      board refines independent card histories, [apply] fails exactly as its error
      table says.
    - Replay: independent of the order of delivery and of rejected packets; the codec
      round-trips.
    - The bus: nothing accepted as durable is lost, a subscriber that does not lag sees
      each matching event once and in order while publishes take effect one at a time,
      bounded reads answer from the whole history, the writer alone catches up, a
      republished event is delivered once, mesh flooding ends.
    - Sessions and keys: a stream opens each frame once and never reuses a nonce,
      signatures bind every field and one purpose of eight, an accepted init acts once
      until the manager is reset, crossed handshakes settle on one session.
    - Trust: a call alone changes a stored key only by a rotation its holder signed;
      beside other calls only by one whose signer was the stored key at some moment, and
      which may then put an older key back ([interleaved_rotations_keep_the_older_key]).
    - The store: the SQLite sink, transcript and registers each refine their in-memory
      counterpart over any run of calls that fit the columns, faults included; opening a
      store ends with every row derived or loses nothing; maintenance excludes the writers
      that take its locks (the daemon's do not), and a reported stop is final for starts.
    - Routes: an endpoint that never answers is dialed a bounded number of times for its
      peer, under the conditions of [schedule].
    - The work client, in a room whose log grows only at its end and whose snapshots are
      replays of it ([world_ok]): a board read through a cached snapshot is the replay of
      the whole log; a frame a card operation sends is about a card on the board and takes
      effect in every later replay.  At rest, with the own frames last ([own_last]): a
      claim leads to exactly what its card allows; seeding a backlog twice creates nothing
      twice; what is observed of git and GitHub reaches the board.  The queue holds each
      free card once.
    - Between processes: the event codec agrees with a generic one that writes canonical
      CBOR; a stream delivers just the frames written; the daemon's addressed inboxes keep
      their budgets and take genuine frames whose deadlines come from their signed expiry;
      the relay passes frames on whole, in order, and to whom they are meant.
    - Blobs: the file at the path of a hash has that hash and is synced, whatever
      interleaves, fails or loses power, while temporary names do not collide; the store
      refines a map; collection deletes what its policy says.

    Conditions like these are in the statements, and where a run outside them goes wrong it
    is a proved example: [overlapping_publishers_lose_an_event], [late_event_hidden],
    [regrown_log_resumed], [own_claim_hidden], [daemon_writes_under_maintenance],
    [daemon_writes_after_reported_stop], [far_cursor_wraps], [late_lamport_sorts_first],
    [subscriptions_are_reordered], [same_nanosecond_truncates_a_blob] and others.

    ** Choices

    - Integers: a [u64] is an [N]; [+] wraps, [saturating_add] and [checked_add] are
      written out; the replay window is the [u64] bitmap; SQL's [i64] columns are
      [Z] with the conversions that refuse.
    - Strings are lists of code points, byte strings lists of [N].
    - A [HashMap] or [DashMap] is a [gmap]; where its iteration order is visible the
      statement is up to order or the order is an argument.  A [BTreeMap] is a
      [gmap] read in key order.
    - Locks: each section that holds a lock is one function on the shared state,
      code between sections is a function of its own, so interleavings are
      sequences of these functions.  The theorems about runs of the router take a
      publish as one step; overlapping publishers are in [BusCounterexamples].  Code that
      holds no lock runs one statement or system call at a time ([trust_step], the
      machines of [StoreCustody], [Blobs] and [WorkStore]).
    - Clocks: readings are arguments and may repeat or step back; a theorem that needs
      more says so (the wall clock of [Addressed], the window of [RouteHealth]).  An own
      frame in [WorkStore] is stamped by the own clock alone and inserted in cursor order.
    - Migrations are lists of statements naming tables, columns and defaults; types,
      constraints and the way down are left out.
    - A bounded [mpsc] channel is its buffer, capacity and whether its receiver is
      alive; random secrets are arguments.
    - Ghost state: [log] and [got] of [BusSystem] record what was delivered and
      received, [used] of [ProtoCross] the ephemeral keys drawn, [created] of [Blobs] the
      names of files made.
    - Fuel: the ring's eviction loop runs with the ring's length ([evict_done]), the
      iterator of leading mentions with the text's ([mentions_fuel_enough]), the
      deep replay leg with any number above the history's length, as the subscriber
      theorem states, the loops over pages with any number above the log's length
      ([OutOfFuel] is excluded there); [nsteps] bounds of [ProtoCross] and [BusMesh] are proved.
    - Other crates are classes of functions with the laws the code relies on:
      [WorkEnv] (SHA-256, uuid v5), [Serde], [JsonValue], [TextEnv], [DurableSink] and
      [SinkLaws], [HistorySink] and [HistoryLaws], [StreamCrypto] (ChaCha20-Poly1305,
      HKDF), [Ed25519Crypto], [HandshakeCrypto] (X25519, SHA-256), [CanonicalCbor],
      [RotationCodec], [PeerDb], [TableDb], [TwoTables], [MigrationDb], [RowIds],
      [Pragmas] and [RegisterDb] (SQLite and sea-orm), [HeadersJson], [BusCodec] and
      [EventCodec] (serde_json), [Flock] (advisory locks), [NetText] (uuid, addresses),
      [Dialer] (the network under the dialer), [Sha2] (SHA-256), [ResponseCbor] with [ResponseLaws] (ciborium),
      [FrameJson], [Platform] (the range of the system clock).  Each law class has an
      instance on which the witnesses run.  [GitCommandRunner], [GhCommandRunner], [GhJson]
      and [PullRequestSource] are what the two commands print and what is parsed from it.  The laws of signatures are the symbolic ones: a
      signature verifies for the signed message only.

    ** Not modelled

    The command line (airc-cli), the daemon's request handlers and supervision, the
    transports (sockets, TLS, processes), the editor bridge, identity files, diagnostics, connection options and pools: I/O around the modelled parts.
    wire_generated.rs is generated.  Of the client library (airc-lib) are left out the
    account registries, room and peer administration, how a frame is encrypted and
    delivered below [send_frame_to_room], and how heartbeats are read.  airc-core's names
    and display helpers only make text.
    flex computes on floats. *)

From Stdlib Require Import Lia Ascii.
From Stdlib Require DecimalN.
From stdpp Require Import base gmap strings list sorting numbers.


Abbreviation last := list.last.
Abbreviation head := list.head.

(** ** Record updates

    A record [R] whose fields are updated declares one [Eta R] instance, its
    eta expansion through its own projections; a field updater is derived from
    it by [derive_upd].  [r <| p := v |>] is the record [r] with field [p] set. *)
Class Eta (R : Type) := eta_of : R → R.
Class Upd {R T : Type} (p : R → T) := upd : (T → T) → R → R.
Arguments upd {R T} p {_} f r /.

Ltac derive_upd :=
  lazymatch goal with
  | |- @Upd ?R ?T ?p =>
      let r := fresh "r" in
      let f := fresh "f" in
      refine (fun (f : T → T) (r : R) => _);
      let i := constr:(_ : Eta R) in
      let e := match i with
               | ?x => let y := eval unfold x in x in y
               | ?x ?a => let y := eval unfold x in x in eval cbv beta in (y a)
               end in
      let t := eval cbv beta in (e r) in
      let t' := eval pattern (p r) in t in
      match t' with
      | ?g _ => let u := eval cbv beta in (g (f (p r))) in exact u
      end
  end.

#[export] Hint Extern 1 (Upd _) => derive_upd : typeclass_instances.

Create HintDb airc.

Declare Scope airc_scope.
Delimit Scope airc_scope with airc.

Notation "r <| p := v |>" := (upd p (λ _, v) r)
  (at level 1, left associativity, p at next level, v at level 200) : airc_scope.
Open Scope airc_scope.

(** ** Machine integers

    A Rust [u64] is an [N] below [u64_modulus].  The source's plain [+] is
    [wadd]: the workspace sets no [overflow-checks], so an optimised build
    wraps.  [saturating_add], [saturating_sub] and [saturating_mul] are Rust's. *)
Definition u64_modulus : N := 18446744073709551616.
Definition u64_max : N := 18446744073709551615.
Definition is_u64 (n : N) : Prop := (n < u64_modulus)%N.
Definition wadd (a b : N) : N := ((a + b) mod u64_modulus)%N.
Definition saturating_add (a b : N) : N := N.min (a + b) u64_max.
Definition saturating_sub (a b : N) : N := (a - b)%N.
Definition saturating_mul (a b : N) : N := N.min (a * b) u64_max.

Notation "a +w b" := (wadd a b) (at level 50, left associativity) : airc_scope.

(** [lia] with the width of a [u64] in view. *)
Ltac u64_lia :=
  unfold is_u64, saturating_add, saturating_sub, u64_max, u64_modulus in *; lia.

Lemma wadd_small a b : is_u64 (a + b) → a +w b = (a + b)%N.
Proof. intros H. unfold wadd. apply N.mod_small, H. Qed.

Lemma wadd_lt a b : is_u64 (a +w b).
Proof. unfold is_u64, wadd. apply N.mod_lt. unfold u64_modulus. lia. Qed.

Lemma saturating_add_le a b : is_u64 a → (a ≤ saturating_add a b)%N.
Proof. u64_lia. Qed.

Lemma saturating_add_u64 a b : is_u64 (saturating_add a b).
Proof. u64_lia. Qed.

#[export] Hint Resolve wadd_lt saturating_add_le saturating_add_u64 : airc.

(** ** Fallible computations

    [result E A] is Rust's [Result<A, E>].  [ST S E A] is a method taking
    [&mut self] and returning [Result<A, E>]: it gives the result AND the state
    it leaves behind, so that a partial mutation before an error would show. *)
Inductive result (E A : Type) : Type :=
| Ok (a : A)
| Err (e : E).
Arguments Ok {E A} a.
Arguments Err {E A} e.

#[export] Instance result_eq_dec `{EqDecision E, EqDecision A} : EqDecision (result E A).
Proof. solve_decision. Defined.

#[export] Instance result_ret {E} : MRet (result E) := λ A a, Ok a.
#[export] Instance result_bind {E} : MBind (result E) :=
  λ A B f r, match r with Ok a => f a | Err e => Err e end.

Definition ok_or {E A} (e : E) (o : option A) : result E A :=
  match o with Some a => Ok a | None => Err e end.
Definition is_ok {E A} (r : result E A) : bool :=
  match r with Ok _ => true | Err _ => false end.

Definition ST (S E A : Type) : Type := S → result E A * S.

#[export] Instance st_ret {S E} : MRet (ST S E) := λ A a s, (Ok a, s).
#[export] Instance st_bind {S E} : MBind (ST S E) :=
  λ A B f m s,
    match m s with
    | (Ok a, s') => f a s'
    | (Err e, s') => (Err e, s')
    end.

Definition st_gets {S E A} (f : S → A) : ST S E A := λ s, (Ok (f s), s).
Definition st_modify {S E} (f : S → S) : ST S E unit := λ s, (Ok tt, f s).
Definition st_throw {S E A} (e : E) : ST S E A := λ s, (Err e, s).
Definition st_lift {S E A} (r : result E A) : ST S E A := λ s, (r, s).

(** The [for x in xs { step(x)?; }] loop. *)
Fixpoint st_iter {S E X} (step : X → ST S E unit) (xs : list X) : ST S E unit :=
  match xs with
  | [] => mret tt
  | x :: xs => step x ≫= λ _, st_iter step xs
  end.

Lemma st_bind_ok {S E A B} (m : ST S E A) (f : A → ST S E B) s a s' :
  m s = (Ok a, s') → (m ≫= f) s = f a s'.
Proof. intros H. unfold mbind, st_bind. by rewrite H. Qed.

Lemma st_bind_err {S E A B} (m : ST S E A) (f : A → ST S E B) s e s' :
  m s = (Err e, s') → (m ≫= f) s = (Err e, s').
Proof. intros H. unfold mbind, st_bind. by rewrite H. Qed.

(** An invariant kept by every step is kept by the loop, whether or not it
    stops early. *)
Lemma st_iter_inv {S E X} (P : S → Prop) (step : X → ST S E unit) xs :
  (∀ x s, P s → P (step x s).2) → ∀ s, P s → P (st_iter step xs s).2.
Proof.
  intros Hstep. induction xs as [|x xs IH]; intros s Hs; [done|].
  cbn. unfold mbind, st_bind. pose proof (Hstep x s Hs) as H.
  destruct (step x s) as [[[]|e] s']; cbn in *; auto.
Qed.

(** The same, for the elements that do occur. *)
Lemma st_iter_inv_in {S E X} (P : S → Prop) (step : X → ST S E unit) xs :
  (∀ x s, In x xs → P s → P (step x s).2) → ∀ s, P s → P (st_iter step xs s).2.
Proof.
  induction xs as [|x xs IH]; intros Hstep s Hs; [done|].
  cbn. unfold mbind, st_bind. pose proof (Hstep x s (or_introl eq_refl) Hs) as H.
  destruct (step x s) as [[[]|e] s']; cbn in *; auto.
Qed.

(** Elements whose step does nothing may be left out. *)
Lemma st_iter_skip {S E X} (P : X → Prop) `{!∀ x, Decision (P x)} (step : X → ST S E unit) xs s :
  (∀ x s, ¬ P x → step x s = (Ok tt, s)) →
  st_iter step (filter P xs) s = st_iter step xs s.
Proof.
  intros Hskip. revert s. induction xs as [|x xs IH]; intros s; [done|].
  rewrite filter_cons. destruct (decide (P x)) as [|Hn]; cbn; unfold mbind, st_bind.
  - destruct (step x s) as [[[]|e] s']; auto.
  - by rewrite (Hskip x s Hn).
Qed.

Lemma st_iter_app {S E X} (step : X → ST S E unit) xs ys s :
  st_iter step (xs ++ ys) s = (st_iter step xs ≫= λ _, st_iter step ys) s.
Proof.
  revert s. induction xs as [|x xs IH]; intros s; [done|].
  cbn. unfold mbind, st_bind in *. destruct (step x s) as [[[]|e] s']; [|done].
  apply IH.
Qed.

(** ** Optional values: the [Option] methods the source uses *)
Definition is_some_and {A} (o : option A) (p : A → bool) : bool :=
  match o with Some a => p a | None => false end.
Definition is_none_or {A} (o : option A) (p : A → bool) : bool :=
  match o with Some a => p a | None => true end.
Definition is_some {A} (o : option A) : bool :=
  match o with Some _ => true | None => false end.
Definition is_none {A} (o : option A) : bool := negb (is_some o).
Definition unwrap_or {A} (o : option A) (d : A) : A :=
  match o with Some a => a | None => d end.

Lemma is_some_and_true {A} (o : option A) p :
  is_some_and o p = true ↔ ∃ a, o = Some a ∧ p a = true.
Proof. destruct o; cbn; naive_solver. Qed.
Lemma is_none_or_false {A} (o : option A) p :
  is_none_or o p = false ↔ ∃ a, o = Some a ∧ p a = false.
Proof. destruct o; cbn; naive_solver. Qed.

(** [simplify_result]: invert equations between results and pairs. *)
Ltac simplify_result :=
  repeat match goal with
  | H : Ok _ = Ok _ |- _ => injection H as H
  | H : Err _ = Err _ |- _ => injection H as H
  | H : Ok _ = Err _ |- _ => discriminate H
  | H : Err _ = Ok _ |- _ => discriminate H
  | H : (_, _) = (_, _) |- _ => injection H as ?H ?H
  | _ => progress simplify_eq
  end.

(** Case analysis on the first test a goal or a hypothesis is stuck on. *)
Ltac break_step :=
  match goal with
  | |- context [match ?x with _ => _ end] => destruct x eqn:?
  end.
Ltac break_in H :=
  match type of H with
  | context [match ?x with _ => _ end] => destruct x eqn:?
  end.

(** Boolean tests as propositions. *)
Ltac to_prop :=
  repeat match goal with
  | H : _ && _ = true |- _ => apply andb_prop in H; destruct H
  | H : _ || _ = false |- _ => apply orb_false_elim in H; destruct H
  | H : negb _ = true |- _ => apply negb_true_iff in H
  | H : negb _ = false |- _ => apply negb_false_iff in H
  | H : bool_decide _ = true |- _ => apply bool_decide_eq_true_1 in H
  | H : bool_decide _ = false |- _ => apply bool_decide_eq_false_1 in H
  | H : ¬ (_ ≠ _) |- _ => apply dec_stable in H
  | H : is_some_and _ _ = true |- _ => apply is_some_and_true in H; destruct H as (? & ? & ?)
  | H : is_none_or _ _ = false |- _ => apply is_none_or_false in H; destruct H as (? & ? & ?)
  | H : (_ <? _)%N = true |- _ => apply N.ltb_lt in H
  | H : (_ <? _)%N = false |- _ => apply N.ltb_ge in H
  | H : (_ <=? _)%N = true |- _ => apply N.leb_le in H
  | H : (_ <=? _)%N = false |- _ => apply N.leb_gt in H
  | H : (_ =? _)%N = true |- _ => apply N.eqb_eq in H
  | H : (_ =? _)%N = false |- _ => apply N.eqb_neq in H
  end.

(** ** Rust strings

    A [String] is a sequence of Unicode scalar values, written as their code
    points; [len()] counts UTF-8 bytes and the derived order (bytewise in Rust)
    is the lexicographic order of code points, which UTF-8 preserves. *)
Abbreviation rstring := (list N).

(** ASCII literals. *)
Definition str (s : string) : rstring :=
  N_of_ascii <$> String.list_ascii_of_string s.

Definition char_len_utf8 (c : N) : N :=
  if (c <? 128)%N then 1%N
  else if (c <? 2048)%N then 2%N
  else if (c <? 65536)%N then 3%N else 4%N.

(** [str::len]. *)
Definition str_len (s : rstring) : N := foldr (λ c n, char_len_utf8 c + n)%N 0%N s.

(** [str::as_bytes]. *)
Definition char_utf8 (c : N) : list N :=
  if (c <? 128)%N then [c]
  else if (c <? 2048)%N then [192 + c / 64; 128 + c mod 64]%N
  else if (c <? 65536)%N then
    [224 + c / 4096; 128 + (c / 64) mod 64; 128 + c mod 64]%N
  else
    [240 + c / 262144; 128 + (c / 4096) mod 64; 128 + (c / 64) mod 64; 128 + c mod 64]%N.
Definition as_bytes (s : rstring) : list N := s ≫= char_utf8.

(** [char::is_whitespace]: the Unicode [White_Space] property. *)
Definition is_whitespace (c : N) : bool :=
  ((9 <=? c) && (c <=? 13) || (c =? 32) || (c =? 133) || (c =? 160)
   || (c =? 5760) || ((8192 <=? c) && (c <=? 8202)) || (c =? 8232)
   || (c =? 8233) || (c =? 8239) || (c =? 8287) || (c =? 12288))%N.

Definition is_ascii_hexdigit (c : N) : bool :=
  ((48 <=? c) && (c <=? 57) || (65 <=? c) && (c <=? 70)
   || (97 <=? c) && (c <=? 102))%N.

Definition to_ascii_lowercase (s : rstring) : rstring :=
  (λ c, if ((65 <=? c) && (c <=? 90))%N then (c + 32)%N else c) <$> s.

Fixpoint drop_while {A} (p : A → bool) (l : list A) : list A :=
  match l with
  | [] => []
  | x :: l' => if p x then drop_while p l' else l
  end.

(** [str::trim]. *)
Definition trim (s : rstring) : rstring :=
  reverse (drop_while is_whitespace (reverse (drop_while is_whitespace s))).

Lemma str_len_as_bytes s : N.of_nat (length (as_bytes s)) = str_len s.
Proof.
  unfold as_bytes. induction s as [|c s IH]; [done|].
  cbn [mbind list_bind]. rewrite length_app, Nat2N.inj_add, IH. cbn. f_equal.
  unfold char_utf8, char_len_utf8. by repeat case_match.
Qed.

Lemma drop_while_suffix {A} (p : A → bool) l : drop_while p l `suffix_of` l.
Proof.
  induction l as [|x l IH]; cbn; [done|].
  destruct (p x); [by apply suffix_cons_r | done].
Qed.

Lemma drop_while_stable {A} (p : A → bool) l :
  head l = None ∨ (∃ x, head l = Some x ∧ p x = false) → drop_while p l = l.
Proof. destruct l; cbn; [done|]. intros [|(? & [= <-] & ->)]; done. Qed.

Lemma drop_while_head {A} (p : A → bool) l :
  head (drop_while p l) = None ∨ ∃ x, head (drop_while p l) = Some x ∧ p x = false.
Proof.
  induction l as [|x l IH]; cbn; [by left|].
  destruct (p x) eqn:E; [done|]. right. eauto.
Qed.

Lemma head_app_suffix {A} (l1 l2 : list A) x : head l1 = Some x → head (l1 ++ l2) = Some x.
Proof. by destruct l1. Qed.

Lemma last_suffix {A} (l1 l2 : list A) :
  l1 `suffix_of` l2 → l1 ≠ [] → last l1 = last l2.
Proof.
  intros [k ->] Hne. rewrite last_app. by destruct (last l1) eqn:E; [|apply last_None in E].
Qed.

(** A trimmed string neither starts nor ends with whitespace, so trimming is
    idempotent. *)
Lemma trim_idemp s : trim (trim s) = trim s.
Proof.
  unfold trim. set (a := drop_while is_whitespace s).
  set (b := drop_while is_whitespace (reverse a)).
  assert (Hb : b `suffix_of` reverse a) by apply drop_while_suffix.
  assert (Hhd : drop_while is_whitespace (reverse b) = reverse b).
  { apply drop_while_stable.
    destruct (decide (b = [])) as [->|Hne]; [by left|].
    rewrite head_reverse, (last_suffix b (reverse a)), last_reverse by done.
    apply drop_while_head. }
  rewrite Hhd, reverse_involutive. f_equal. apply drop_while_stable, drop_while_head.
Qed.

Lemma elem_of_trim c s : c ∈ trim s → c ∈ s.
Proof.
  unfold trim. rewrite elem_of_reverse. intros H.
  eapply elem_of_suffix in H; [|apply drop_while_suffix].
  rewrite elem_of_reverse in H. eapply elem_of_suffix in H; [done|apply drop_while_suffix].
Qed.

(** Decimal rendering ([format!] with [{n}] of an unsigned integer). *)
Fixpoint uint_chars (d : Decimal.uint) : rstring :=
  match d with
  | Decimal.Nil => []
  | Decimal.D0 d => 48%N :: uint_chars d | Decimal.D1 d => 49%N :: uint_chars d
  | Decimal.D2 d => 50%N :: uint_chars d | Decimal.D3 d => 51%N :: uint_chars d
  | Decimal.D4 d => 52%N :: uint_chars d | Decimal.D5 d => 53%N :: uint_chars d
  | Decimal.D6 d => 54%N :: uint_chars d | Decimal.D7 d => 55%N :: uint_chars d
  | Decimal.D8 d => 56%N :: uint_chars d | Decimal.D9 d => 57%N :: uint_chars d
  end.
Definition show_N (n : N) : rstring := uint_chars (N.to_uint n).

Lemma uint_chars_inj d1 d2 : uint_chars d1 = uint_chars d2 → d1 = d2.
Proof.
  revert d2. induction d1; intros []; cbn; intros H; try discriminate;
    try (injection H as H; f_equal; auto); done.
Qed.

Lemma show_N_inj n1 n2 : show_N n1 = show_N n2 → n1 = n2.
Proof.
  intros H%uint_chars_inj.
  rewrite <- (DecimalN.Unsigned.of_to n1), <- (DecimalN.Unsigned.of_to n2). by rewrite H.
Qed.

Lemma show_N_digits n c : c ∈ show_N n → (48 ≤ c ≤ 57)%N.
Proof.
  unfold show_N. induction (N.to_uint n); cbn; rewrite ?elem_of_cons;
    intros; [set_solver|..]; destruct_or!; subst; auto; lia.
Qed.

(** [str::parse::<u64>]: an optional plus sign, then at least one decimal digit,
    the value below 2^64 at every step. *)
Definition digit_value (c : N) : option N :=
  if ((48 <=? c) && (c <=? 57))%N then Some (c - 48)%N else None.
Fixpoint parse_digits (acc : N) (s : rstring) : option N :=
  match s with
  | [] => Some acc
  | c :: s =>
      d ← digit_value c;
      let acc := (acc * 10 + d)%N in
      if (acc <? u64_modulus)%N then parse_digits acc s else None
  end.
Definition parse_u64 (s : rstring) : option N :=
  match s with
  | [] => None
  | c :: s' =>
      if (c =? 43)%N then match s' with [] => None | _ => parse_digits 0 s' end
      else parse_digits 0 s
  end.

(** The value of a digit string, unbounded. *)
Definition digits_value (acc : N) (s : rstring) : N := foldl (λ a c, a * 10 + (c - 48))%N acc s.

Lemma digits_value_ge s acc : (acc ≤ digits_value acc s)%N.
Proof.
  unfold digits_value. revert acc. induction s as [|c s IH]; intros acc; cbn; [lia|].
  specialize (IH (acc * 10 + (c - 48))%N). lia.
Qed.

Lemma parse_digits_value s acc :
  Forall (λ c, 48 ≤ c ≤ 57)%N s → is_u64 (digits_value acc s) →
  parse_digits acc s = Some (digits_value acc s).
Proof.
  intros Hs. revert acc. induction Hs as [|c s [H1 H2] Hs IH]; intros acc Hv; [done|].
  cbn [parse_digits digits_value foldl]. unfold digit_value.
  rewrite (proj2 (N.leb_le 48 c) H1), (proj2 (N.leb_le c 57) H2). cbn [andb mbind option_bind].
  pose proof (digits_value_ge s (acc * 10 + (c - 48))) as Hge.
  cbn [digits_value foldl] in Hv. unfold is_u64 in Hv. fold (digits_value (acc * 10 + (c - 48)) s) in Hv.
  rewrite (proj2 (N.ltb_lt _ _)); [by apply IH|]. by eapply N.le_lt_trans.
Qed.

Lemma digits_value_pos d p :
  digits_value (Npos p) (uint_chars d) = Npos (Pos.of_uint_acc d p).
Proof.
  revert p. induction d; intros p; [done|..]; cbn [uint_chars Pos.of_uint_acc]; rewrite <- IHd;
    unfold digits_value; cbn [foldl]; f_equal; lia.
Qed.

Lemma digits_value_uint d : digits_value 0 (uint_chars d) = N.of_uint d.
Proof.
  unfold N.of_uint. induction d; [done|exact IHd|..]; cbn [uint_chars Pos.of_uint];
    rewrite <- digits_value_pos; done.
Qed.

(** Parsing undoes rendering. *)
Lemma parse_show_u64 n : is_u64 n → parse_u64 (show_N n) = Some n.
Proof.
  intros Hn. pose proof (show_N_digits n) as Hd.
  assert (digits_value 0 (show_N n) = n) as Hv.
  { unfold show_N. rewrite digits_value_uint. apply DecimalN.Unsigned.of_to. }
  assert (show_N n ≠ []) as Hne.
  { unfold show_N. destruct n as [|p]; [done|]. intros Hz. unfold show_N in Hv. by rewrite Hz in Hv. }
  destruct (show_N n) as [|c s] eqn:Hs; [done|]. unfold parse_u64.
  assert (48 ≤ c ≤ 57)%N as Hc by (apply Hd; by left).
  assert ((c =? 43)%N = false) as -> by (apply N.eqb_neq; lia).
  rewrite parse_digits_value, Hv; [done| |by rewrite Hv]. by apply list.Forall_forall.
Qed.

(** Fixed-width lower-case hexadecimal, and the hyphenated form a [Uuid]
    displays as. *)
Definition hex_char (d : N) : N := if (d <? 10)%N then (48 + d)%N else (87 + d)%N.
Fixpoint hex_fixed (w : nat) (n : N) : rstring :=
  match w with
  | O => []
  | S w' => hex_fixed w' (n / 16) ++ [hex_char (n mod 16)]
  end.
Definition show_uuid (u : N) : rstring :=
  let h := hex_fixed 32 u in
  take 8 h ++ [45%N] ++ take 4 (drop 8 h) ++ [45%N] ++ take 4 (drop 12 h)
    ++ [45%N] ++ take 4 (drop 16 h) ++ [45%N] ++ drop 20 h.

Example show_uuid_one :
  show_uuid 1 = str "00000000-0000-0000-0000-000000000001".
Proof. vm_compute. reflexivity. Qed.

Lemma hex_fixed_length w n : length (hex_fixed w n) = w.
Proof. revert n. induction w; intros; cbn; [done|]. rewrite length_app, IHw. cbn. lia. Qed.

Lemma hex_char_inj a b : (a < 16)%N → (b < 16)%N → hex_char a = hex_char b → a = b.
Proof. unfold hex_char. repeat case_match; to_prop; lia. Qed.

Lemma hex_fixed_chars w n c :
  c ∈ hex_fixed w n → (48 ≤ c ≤ 57 ∨ 97 ≤ c ≤ 102)%N.
Proof.
  revert n. induction w as [|w IH]; intros n; cbn; [set_solver|].
  rewrite elem_of_app, list_elem_of_singleton. intros [H | ->]; [eauto|].
  pose proof (N.mod_lt n 16 ltac:(done)) as Hm. clear IH. revert Hm.
  generalize (n mod 16)%N as d. intros d Hm. unfold hex_char. case_match; to_prop; lia.
Qed.

Lemma hex_fixed_inj w a b :
  (a < 16 ^ N.of_nat w)%N → (b < 16 ^ N.of_nat w)%N → hex_fixed w a = hex_fixed w b → a = b.
Proof.
  revert a b. induction w as [|w IH]; intros a b Ha Hb.
  { change (N.of_nat 0) with 0%N in *. rewrite N.pow_0_r in *. lia. }
  rewrite Nat2N.inj_succ, N.pow_succ_r' in Ha, Hb. cbn. intros [H1 H2]%app_inj_2; [|done].
  injection H2 as H2.
  apply IH in H1; [|apply N.Div0.div_lt_upper_bound; lia..].
  apply hex_char_inj in H2; [|apply N.mod_lt; lia..].
  rewrite (N.div_mod' a 16), (N.div_mod' b 16). lia.
Qed.

Lemma show_uuid_inj a b :
  (a < 2 ^ 128)%N → (b < 2 ^ 128)%N → show_uuid a = show_uuid b → a = b.
Proof.
  intros Ha Hb. unfold show_uuid. intros H.
  assert (hex_fixed 32 a = hex_fixed 32 b) as E; [|by apply hex_fixed_inj in E].
  pose proof (hex_fixed_length 32 a) as La. pose proof (hex_fixed_length 32 b) as Lb.
  revert H La Lb. generalize (hex_fixed 32 a) as x, (hex_fixed 32 b) as y. intros x y H La Lb.
  do 4 (apply app_inj_1 in H as [? H]; [|rewrite !length_take, ?length_drop; lia];
        apply app_inj_1 in H as [_ H]; [|done]).
  rewrite <- (take_drop 8 x), <- (take_drop 8 y). f_equal; [done|].
  rewrite <- (take_drop 4 (drop 8 x)), <- (take_drop 4 (drop 8 y)), !drop_drop; cbn [Nat.add]; f_equal; [done|].
  rewrite <- (take_drop 4 (drop 12 x)), <- (take_drop 4 (drop 12 y)), !drop_drop; cbn [Nat.add]; f_equal; [done|].
  rewrite <- (take_drop 4 (drop 16 x)), <- (take_drop 4 (drop 16 y)), !drop_drop; cbn [Nat.add]; by f_equal.
Qed.

Lemma elem_of_take_in {A} n (l : list A) x : x ∈ take n l → x ∈ l.
Proof. rewrite <- (take_drop n l) at 2. set_solver. Qed.
Lemma elem_of_drop_in {A} n (l : list A) x : x ∈ drop n l → x ∈ l.
Proof. rewrite <- (take_drop n l) at 2. set_solver. Qed.

(** A displayed uuid has hexadecimal digits and hyphens only. *)
Lemma show_uuid_chars u c :
  c ∈ show_uuid u → (48 ≤ c ≤ 57 ∨ 97 ≤ c ≤ 102 ∨ c = 45)%N.
Proof.
  unfold show_uuid. rewrite !elem_of_app, !list_elem_of_singleton. intros H.
  assert (c ∈ hex_fixed 32 u ∨ c = 45%N) as [Hc| ->]; [|apply hex_fixed_chars in Hc; lia|lia].
  destruct_or!; auto; left; eauto using elem_of_take_in, elem_of_drop_in.
Qed.

(** ** Ordered maps

    A [BTreeMap] is a [gmap] whose iteration is in ascending key order. *)
Class OrdKey (K : Type) := {
  key_le : relation K;
  key_le_dec :: RelDecision key_le;
  key_le_trans :: Transitive key_le;
  key_le_total :: Total key_le;
  key_le_anti :: AntiSymm (=) key_le;
}.

#[export] Instance ord_N : OrdKey N.
Proof. refine {| key_le := N.le |}. Defined.

(** Lexicographic order on strings. *)
Fixpoint lex_le (a b : list N) : bool :=
  match a, b with
  | [], _ => true
  | _ :: _, [] => false
  | x :: a', y :: b' => (x <? y)%N || ((x =? y)%N && lex_le a' b')
  end.

Lemma lex_le_trans a b c : lex_le a b = true → lex_le b c = true → lex_le a c = true.
Proof.
  revert b c. induction a as [|x a IH]; intros [|y b] [|z c]; cbn; try done.
  rewrite !orb_true_iff, !andb_true_iff, !N.ltb_lt, !N.eqb_eq.
  intros [?|[-> ?]] [?|[-> ?]]; [left; lia|left; lia|left; lia|right; eauto].
Qed.

Lemma lex_le_total a b : lex_le a b = true ∨ lex_le b a = true.
Proof.
  revert b. induction a as [|x a IH]; intros [|y b]; cbn; try auto.
  rewrite !orb_true_iff, !andb_true_iff, !N.ltb_lt, !N.eqb_eq.
  destruct (N.lt_trichotomy x y) as [?|[->|?]]; [auto| |auto].
  destruct (IH b); auto.
Qed.

Lemma lex_le_anti a b : lex_le a b = true → lex_le b a = true → a = b.
Proof.
  revert b. induction a as [|x a IH]; intros [|y b]; cbn; try done.
  rewrite !orb_true_iff, !andb_true_iff, !N.ltb_lt, !N.eqb_eq.
  intros [?|[-> ?]] [?|[? ?]]; try lia. f_equal; auto.
Qed.

#[export] Instance ord_rstring : OrdKey rstring.
Proof.
  refine {| key_le := λ a b, lex_le a b = true |}.
  - intros a b. apply _.
  - intros ???. apply lex_le_trans.
  - intros a b. apply lex_le_total.
  - intros a b. apply lex_le_anti.
Defined.

(** Tuples order lexicographically. *)
Section pair_ord.
Context {A B : Type} `{!EqDecision A} `{!OrdKey A, !OrdKey B}.
Definition pair_le (a b : A * B) : Prop :=
  a.1 ≠ b.1 ∧ key_le a.1 b.1 ∨ a.1 = b.1 ∧ key_le a.2 b.2.

#[export] Instance pair_ord : OrdKey (A * B).
Proof.
  refine {| key_le := pair_le |}; unfold pair_le.
  - intros [a x] [b y]. cbn. unfold Decision.
    destruct (decide (a = b)), (key_le_dec a b), (key_le_dec x y);
      first [left; tauto | right; tauto].
  - intros [a x] [b y] [c z]; cbn. intros [[H1 H2]|[-> H2]] [[H3 H4]|[-> H4]].
    + left. split; [|by eapply key_le_trans]. intros ->. apply H1. by apply (anti_symm key_le).
    + by left.
    + by left.
    + right. split; [done|]. by eapply key_le_trans.
  - intros [a x] [b y]; cbn. destruct (decide (a = b)) as [->|Hne].
    + destruct (key_le_total x y); auto.
    + destruct (key_le_total a b); auto.
  - intros [a x] [b y]; cbn. intros [[H1 H2]|[-> H2]] [[H3 H4]|[? H4]]; try done.
    + destruct H1. by apply (anti_symm key_le).
    + f_equal. by apply (anti_symm key_le).
Defined.
End pair_ord.

Section bt.
Context `{Countable K} `{!OrdKey K} {V : Type}.
Implicit Types m : gmap K V.

Definition entry_le (a b : K * V) : Prop := key_le a.1 b.1.
#[local] Instance entry_le_dec : RelDecision entry_le := λ a b, key_le_dec a.1 b.1.

Definition bt_entries m : list (K * V) := merge_sort entry_le (map_to_list m).
Definition bt_values m : list V := (bt_entries m).*2.
Definition bt_keys m : list K := (bt_entries m).*1.

Lemma bt_entries_perm m : bt_entries m ≡ₚ map_to_list m.
Proof. apply merge_sort_Permutation. Qed.

Lemma elem_of_bt_entries m k v : (k, v) ∈ bt_entries m ↔ m !! k = Some v.
Proof. by rewrite bt_entries_perm, elem_of_map_to_list. Qed.

Lemma elem_of_bt_values m v : v ∈ bt_values m ↔ ∃ k, m !! k = Some v.
Proof.
  unfold bt_values. rewrite list_elem_of_fmap. split.
  - intros ([k v'] & -> & Hk%elem_of_bt_entries). eauto.
  - intros [k Hk]. exists (k, v). by rewrite elem_of_bt_entries.
Qed.

Lemma elem_of_bt_keys m k : k ∈ bt_keys m ↔ is_Some (m !! k).
Proof.
  unfold bt_keys. rewrite list_elem_of_fmap. split.
  - intros ([k' v'] & -> & Hk%elem_of_bt_entries). eauto.
  - intros [v Hk]. exists (k, v). by rewrite elem_of_bt_entries.
Qed.

Lemma bt_keys_NoDup m : NoDup (bt_keys m).
Proof. unfold bt_keys. rewrite bt_entries_perm. apply NoDup_fst_map_to_list. Qed.

Lemma bt_entries_sorted m : StronglySorted entry_le (bt_entries m).
Proof.
  apply StronglySorted_merge_sort.
  - intros [][][]. apply key_le_trans.
  - intros [][]. apply key_le_total.
Qed.

Lemma bt_keys_sorted m : StronglySorted key_le (bt_keys m).
Proof.
  unfold bt_keys. induction (bt_entries_sorted m) as [|a l Hs IH Ha]; cbn; constructor; [done|].
  by apply Forall_fmap.
Qed.
End bt.

#[export] Hint Resolve bt_keys_NoDup : airc.

(** The last [n] elements. *)
Definition last_n {A} (n : nat) (l : list A) : list A := drop (length l - n) l.

(** [strip_prefix] of strings and of byte slices. *)
Fixpoint strip_prefix (p s : rstring) : option rstring :=
  match p, s with
  | [], _ => Some s
  | a :: p, b :: s => if (a =? b)%N then strip_prefix p s else None
  | _ :: _, [] => None
  end.
Lemma strip_prefix_spec p l l' : strip_prefix p l = Some l' ↔ l = p ++ l'.
Proof.
  revert l. induction p as [|x p IH]; intros l; cbn; [naive_solver|].
  destruct l as [|y l]; [naive_solver|]. destruct (N.eqb_spec x y); [|naive_solver]. rewrite IH. naive_solver.
Qed.

(** ** Stable sorting ([slice::sort_by]) *)
Section sort.
Context {A : Type} (le : relation A) `{!RelDecision le}.

Fixpoint insert_by (x : A) (l : list A) : list A :=
  match l with
  | [] => [x]
  | y :: l' => if decide (le x y) then x :: l else y :: insert_by x l'
  end.
Definition sort_by (l : list A) : list A := foldr insert_by [] l.

Lemma insert_by_perm x l : insert_by x l ≡ₚ x :: l.
Proof.
  induction l as [|y l IH]; cbn; [done|]. case_decide; [done|].
  by rewrite IH, Permutation_swap.
Qed.

Lemma sort_by_perm l : sort_by l ≡ₚ l.
Proof. induction l as [|x l IH]; cbn; [done|]. by rewrite insert_by_perm, IH. Qed.

Lemma insert_by_sorted `{!Transitive le, !Total le} x l :
  StronglySorted le l → StronglySorted le (insert_by x l).
Proof.
  induction 1 as [|y l Hs IH Hy]; cbn; [by repeat constructor|]. case_decide as Hxy.
  - constructor; [by constructor|]. constructor; [done|].
    eapply list.Forall_impl; [exact Hy|]. intros z Hz. by etrans.
  - constructor; [done|]. rewrite insert_by_perm. constructor; [|done].
    destruct (total le x y); done.
Qed.

Lemma sort_by_sorted `{!Transitive le, !Total le} l : StronglySorted le (sort_by l).
Proof. induction l; cbn; [constructor|]. by apply insert_by_sorted. Qed.

(** Two permutations of each other sort alike when the order separates their
    elements. *)
Lemma sort_by_unique `{!Transitive le, !Total le} l1 l2 :
  l1 ≡ₚ l2 → (∀ x y, x ∈ l1 → y ∈ l1 → le x y → le y x → x = y) →
  sort_by l1 = sort_by l2.
Proof.
  intros Hp Hu. apply (StronglySorted_unique_strong le).
  - intros x y. rewrite !sort_by_perm, <- Hp. auto.
  - apply sort_by_sorted.
  - apply sort_by_sorted.
  - by rewrite !sort_by_perm.
Qed.

(** Sorting is stable: it commutes with dropping elements. *)
Lemma insert_by_filter `{!Transitive le} (P : A → Prop) `{!∀ x, Decision (P x)} x l :
  StronglySorted le l →
  filter P (insert_by x l) = if decide (P x) then insert_by x (filter P l) else filter P l.
Proof.
  induction 1 as [|y l Hs IH Hy]; cbn [insert_by]; [by rewrite filter_cons|].
  destruct (decide (le x y)) as [Hxy|Hxy]; rewrite !filter_cons.
  - destruct (decide (P x)); [|done]. destruct (decide (P y)).
    + cbn. by rewrite decide_True.
    + destruct (filter P l) as [|z l'] eqn:Hf; [done|]. cbn. rewrite decide_True; [done|].
      assert (z ∈ filter P l) as [_ Hz]%list_elem_of_filter by (rewrite Hf; by left).
      rewrite list.Forall_forall in Hy. etrans; eauto.
  - rewrite IH. destruct (decide (P x)), (decide (P y)); cbn; try done. by rewrite decide_False.
Qed.

Lemma sort_by_filter `{!Transitive le, !Total le} (P : A → Prop) `{!∀ x, Decision (P x)} l :
  sort_by (filter P l) = filter P (sort_by l).
Proof.
  induction l as [|x l IH]; [done|]. cbn [sort_by foldr]. rewrite filter_cons.
  rewrite insert_by_filter by apply sort_by_sorted. fold (sort_by l).
  destruct (decide (P x)); cbn; by rewrite <- IH.
Qed.
End sort.

(** ** Lists *)
Lemma NoDup_fmap_inj_on {A B} (f : A → B) l x y :
  NoDup (f <$> l) → x ∈ l → y ∈ l → f x = f y → x = y.
Proof.
  induction l as [|a l IH]; cbn; intros Hn Hx Hy E; [by apply elem_of_nil in Hx|].
  apply list.NoDup_cons in Hn as [Ha Hn].
  apply elem_of_cons in Hx as [->|Hx], Hy as [->|Hy]; auto.
  - destruct Ha. rewrite E. by apply list_elem_of_fmap_2.
  - destruct Ha. rewrite <- E. by apply list_elem_of_fmap_2.
Qed.

Lemma StronglySorted_filter {A} (R : relation A) (P : A → Prop) `{!∀ x, Decision (P x)} l :
  StronglySorted R l → StronglySorted R (filter P l).
Proof.
  induction 1 as [|x l Hs IH Hx]; [constructor|]. rewrite filter_cons. case_decide; [|done].
  constructor; [done|]. rewrite list.Forall_forall in *.
  intros y [_ Hy]%list_elem_of_filter. auto.
Qed.

Lemma filter_none {A} (P : A → Prop) `{!∀ x, Decision (P x)} (l : list A) :
  (∀ x, x ∈ l → ¬ P x) → filter P l = [].
Proof.
  induction l as [|x l IH]; intros Hn; [done|]. rewrite filter_cons_False.
  - apply IH. intros y Hy. apply Hn. by right.
  - apply Hn. by left.
Qed.

Lemma filter_all {A} (P : A → Prop) `{!∀ x, Decision (P x)} (l : list A) :
  (∀ x, x ∈ l → P x) → filter P l = l.
Proof.
  induction l as [|x l IH]; intros Hn; [done|]. rewrite filter_cons_True.
  - f_equal. apply IH. intros y Hy. apply Hn. by right.
  - apply Hn. by left.
Qed.

Lemma filter_ext_in {A} (P Q : A → Prop) `{!∀ x, Decision (P x), !∀ x, Decision (Q x)} (l : list A) :
  (∀ x, x ∈ l → P x ↔ Q x) → filter P l = filter Q l.
Proof.
  induction l as [|x l IH]; intros Hall; [done|]. rewrite !filter_cons.
  rewrite (IH (λ y Hy, Hall y (list_elem_of_further _ _ _ Hy))).
  assert (P x ↔ Q x) as [Hpq Hqp] by (apply Hall; by left).
  destruct (decide (P x)), (decide (Q x)); tauto || done.
Qed.

Lemma fmap_filter {A B} (f : A → B) (P : B → Prop) `{!∀ x, Decision (P x)} (l : list A) :
  filter P (f <$> l) = f <$> filter (λ x, P (f x)) l.
Proof.
  induction l as [|x l IH]; [done|]. rewrite fmap_cons, !filter_cons.
  destruct (decide (P (f x))); cbn; by rewrite IH.
Qed.

Lemma fmap_sublist {A B} (f : A → B) (l1 l2 : list A) :
  l1 `sublist_of` l2 → (f <$> l1) `sublist_of` (f <$> l2).
Proof. induction 1; cbn; by constructor. Qed.

(** ** Programs: the calls a function makes, with its early returns *)
Inductive Prog (Act : Type → Type) (A : Type) : Type :=
| Ret (a : A)
| Vis {B : Type} (a : Act B) (k : B → Prog Act A).
Arguments Ret {_ _} a. Arguments Vis {_ _ _} a k.
Fixpoint prog_bind {Act A B} (p : Prog Act A) (k : A → Prog Act B) : Prog Act B :=
  match p with Ret a => k a | Vis a c => Vis a (λ b, prog_bind (c b) k) end.
(** A function that returns [Result]; [x ← p; q] is [p?]. *)
Definition IO_of (Act : Type → Type) (E A : Type) : Type := Prog Act (result E A).
#[export] Instance io_ret Act E : MRet (IO_of Act E) := λ A a, Ret (Ok a).
#[export] Instance io_bind Act E : MBind (IO_of Act E) := λ A B k p,
  prog_bind p (λ r, match r with Ok a => k a | Err e => Ret (Err e) end).
Definition io_throw {Act E A} (e : E) : IO_of Act E A := Ret (Err e).
