(* ===== verification/Sorted.v ===== *)
(** Lists in a strict order, and the first or last elements of them. *)
From stdpp Require Import base list sorting numbers.
From Stdlib Require Import Lia.
From S2P Require Import Prelude.

(** ** The first or last [n] *)
Definition bounded {A} (tail : bool) (n : nat) (l : list A) : list A := if tail then last_n n l else take n l.

Lemma last_n_reverse {A} n (l : list A) : reverse (take n (reverse l)) = last_n n l.
Proof.
  unfold last_n. rewrite <- (take_drop (length l - n) l) at 1.
  rewrite reverse_app, take_app, length_reverse, length_drop.
  destruct (decide (n ≤ length l)%nat).
  - replace (n - (length l - (length l - n)))%nat with O by lia.
    rewrite take_0, app_nil_r, take_ge by (rewrite length_reverse, length_drop; lia).
    apply reverse_involutive.
  - replace (length l - n)%nat with O by lia. rewrite take_0, drop_0, reverse_nil, take_nil, app_nil_r.
    rewrite take_ge by (rewrite length_reverse; lia). apply reverse_involutive.
Qed.
Lemma bounded_reverse {A} n (l : list A) : bounded true n l = reverse (take n (reverse l)).
Proof. symmetry. apply last_n_reverse. Qed.
Lemma bounded_elem {A} tail n (l : list A) e : e ∈ bounded tail n l → e ∈ l.
Proof. unfold bounded, last_n. destruct tail; [apply elem_of_drop_in|apply elem_of_take_in]. Qed.
Lemma fmap_bounded {A B} (f : A → B) tail n l : f <$> bounded tail n l = bounded tail n (f <$> l).
Proof. unfold bounded, last_n. destruct tail; [rewrite length_fmap; apply list.fmap_drop|apply list.fmap_take]. Qed.

Lemma filter_and {A} (P Q : A → bool) (l : list A) :
  filter (λ e, P e && Q e = true) l = filter (λ e, P e = true) (filter (λ e, Q e = true) l).
Proof.
  rewrite list_filter_filter. apply list_filter_iff. intros x. rewrite andb_true_iff. tauto.
Qed.

(** ** First elements of sublists *)
Section sublists.
Context {A : Type}.
Implicit Types l p q x : list A.

Lemma take_sublist_elem p l n a :
  p `sublist_of` l → NoDup l → a ∈ take n l → a ∈ p → a ∈ take n p.
Proof.
  intros Hs. revert n. induction Hs as [|y p l Hs IH|y p l Hs IH]; intros [|n] Hn Ht Hp;
    try (by apply elem_of_nil in Ht); cbn [take] in *.
  - apply list.NoDup_cons in Hn as [Hy Hn]. apply elem_of_cons in Ht as [->|Ht]; [by left|]. right.
    apply elem_of_cons in Hp as [->|Hp]; [by apply elem_of_take_in in Ht|]. by apply IH.
  - apply list.NoDup_cons in Hn as [Hy Hn]. apply elem_of_cons in Ht as [->|Ht].
    { by apply (elem_of_sublist _ _ _ Hp) in Hs. }
    assert (a ∈ take n p) as Ha by (by apply IH). apply (elem_of_take_in n).
    assert (take n (take (S n) p) = take n p) as Htt by (rewrite take_take; f_equal; lia).
    by rewrite Htt.
Qed.

Lemma take_sublist_eq p l n :
  p `sublist_of` l → NoDup l → (∀ a, a ∈ take n l → a ∈ p) → take n p = take n l.
Proof.
  intros Hs. revert n. induction Hs as [|y p l Hs IH|y p l Hs IH]; intros [|n] Hn Ha; try done; cbn [take] in *.
  - apply list.NoDup_cons in Hn as [Hy Hn]. f_equal. apply IH; [done|]. intros a Ht.
    destruct (elem_of_cons p a y) as [[->|?] _]; [by apply Ha; right|by apply elem_of_take_in in Ht|done].
  - apply list.NoDup_cons in Hn as [Hy Hn]. destruct Hy.
    eapply elem_of_sublist; [apply Ha; by left|done].
Qed.

Lemma reverse_sublist p l : p `sublist_of` l → reverse p `sublist_of` reverse l.
Proof.
  induction 1 as [|y p l _ IH|y p l _ IH]; [done|..]; rewrite !reverse_cons.
  - by apply sublist_app.
  - by apply sublist_inserts_r.
Qed.

(** The first [n] of a list, from a part of it that holds the first [n] of enough
    of its sublists. *)
Lemma take_cover n x l :
  NoDup l → x `sublist_of` l →
  (∀ a, a ∈ l → ∃ p, p `sublist_of` l ∧ a ∈ p ∧ ∀ b, b ∈ take n p → b ∈ x) → take n x = take n l.
Proof.
  intros Hn Hx Hc. apply take_sublist_eq; [done..|]. intros a Ha.
  destruct (Hc a (elem_of_take_in _ _ _ Ha)) as (p & Hp & Hap & Hb). apply Hb. by eapply take_sublist_elem.
Qed.
Lemma bounded_cover tail n x l :
  NoDup l → x `sublist_of` l →
  (∀ a, a ∈ l → ∃ p, p `sublist_of` l ∧ a ∈ p ∧ ∀ b, b ∈ bounded tail n p → b ∈ x) →
  bounded tail n x = bounded tail n l.
Proof.
  intros Hn Hx Hc. destruct tail; [|exact (take_cover n x l Hn Hx Hc)].
  rewrite !bounded_reverse. f_equal. apply take_cover.
  - by rewrite reverse_Permutation.
  - by apply reverse_sublist.
  - intros a Ha. rewrite elem_of_reverse in Ha. destruct (Hc a Ha) as (p & Hp & Hap & Hb). exists (reverse p). split_and!.
    + by apply reverse_sublist.
    + by apply elem_of_reverse.
    + intros b Hb'. rewrite elem_of_reverse. apply Hb. rewrite bounded_reverse. by apply elem_of_reverse.
Qed.
(** Merging the first [n] of one part with all of another. *)
Lemma bounded_merge tail n p q x l :
  NoDup l → p `sublist_of` l → x `sublist_of` l → (∀ a, a ∈ l → a ∈ p ∨ a ∈ q) →
  (∀ a, a ∈ q → a ∈ x) → (∀ a, a ∈ bounded tail n p → a ∈ x) → bounded tail n x = bounded tail n l.
Proof.
  intros Hn Hp Hx Hl Hq Ht. apply bounded_cover; [done..|]. intros a Ha. destruct (decide (n = 0)%nat) as [->|Hn0].
  - exists l. split_and!; [done..|]. unfold bounded, last_n. destruct tail; [|by intros b ?%elem_of_nil].
    rewrite Nat.sub_0_r, drop_all. by intros b ?%elem_of_nil.
  - destruct (Hl a Ha) as [Hap|Haq]; [by exists p|]. exists [a]. split_and!.
    + apply list_elem_of_split in Ha as (l1 & l2 & ->). apply sublist_inserts_l. by apply sublist_skip, sublist_nil_l.
    + by left.
    + intros b Hb%bounded_elem%list_elem_of_singleton. subst b. by apply Hq.
Qed.
End sublists.

(** ** A strict order *)
Section strict.
Context {A : Type} (lt : relation A) `{!Irreflexive lt, !Transitive lt}.
Implicit Types l : list A.

Lemma strict_NoDup l : StronglySorted lt l → NoDup l.
Proof.
  induction 1 as [|e l Hs IH He]; [apply NoDup_nil_2|]. apply list.NoDup_cons. split; [|done].
  intros Hin. rewrite list.Forall_forall in He. by apply (irreflexivity lt e), He.
Qed.
Lemma strict_ext l1 l2 : StronglySorted lt l1 → StronglySorted lt l2 → (∀ x, x ∈ l1 ↔ x ∈ l2) → l1 = l2.
Proof.
  intros H1 H2 Hx. apply (StronglySorted_unique_strong lt); try done.
  - intros x y _ _ Hxy Hyx. destruct (irreflexivity lt x). by etrans.
  - apply NoDup_Permutation; auto using strict_NoDup.
Qed.
Lemma strict_sublist y l :
  StronglySorted lt y → StronglySorted lt l → (∀ e, e ∈ y → e ∈ l) → y `sublist_of` l.
Proof.
  intros Hy Hl. revert y Hy. induction Hl as [|a l Hl IH Ha]; intros [|b y] Hy Hin;
    [done|by destruct (not_elem_of_nil b); apply Hin; left|apply sublist_nil_l|].
  inversion Hy as [|? ? Hy' Hb]; subst. rewrite list.Forall_forall in Ha, Hb.
  assert (∀ e, e ∈ y → e ∈ a :: l) as Hin' by (intros e He; apply Hin; by right).
  destruct (elem_of_cons l b a) as [[->|Hbl] _]; [by apply Hin; left| |].
  - constructor. apply IH; [done|]. intros e He. destruct (elem_of_cons l e a) as [[->|?] _]; [by auto| |done].
    destruct (irreflexivity lt a). by apply Hb.
  - apply sublist_cons. apply IH; [by constructor; [|apply list.Forall_forall]|]. intros e He.
    destruct (elem_of_cons l e a) as [[->|?] _]; [by auto| |done].
    apply elem_of_cons in He as [->|He]; [done|]. destruct (irreflexivity lt a). etrans; [by apply Ha|by apply Hb].
Qed.
Lemma sublist_strict l1 l2 : l1 `sublist_of` l2 → StronglySorted lt l2 → StronglySorted lt l1.
Proof.
  induction 1 as [|x l1 l2 Hs IH|x l1 l2 Hs IH]; intros Hp; [done|..];
    inversion Hp as [|? ? Hp' Hx]; subst; [|by apply IH].
  constructor; [by apply IH|]. rewrite list.Forall_forall in *. intros y Hy. apply Hx.
  by eapply elem_of_sublist.
Qed.
End strict.

(** ** The order of a key *)
Section keyed.
Context {T K : Type} `{!EqDecision K, !OrdKey K} (key : T → K).
Implicit Types l : list T.

Definition row_le (a b : T) : Prop := key_le (key a) (key b).
#[export] Instance row_le_dec : RelDecision row_le := λ a b, key_le_dec (key a) (key b).
#[export] Instance row_le_trans : Transitive row_le.
Proof. intros a b c. unfold row_le. apply key_le_trans. Qed.
#[export] Instance row_le_total : Total row_le.
Proof. intros a b. unfold row_le. apply key_le_total. Qed.
Definition row_lt (a b : T) : Prop := row_le a b ∧ key a ≠ key b.
#[export] Instance row_lt_irrefl : Irreflexive row_lt.
Proof. intros a [_ ?]. done. Qed.
#[export] Instance row_lt_trans : Transitive row_lt.
Proof.
  intros a b c [Hab Hn] [Hbc _]. split; [by etrans|]. intros Hk. apply Hn. apply (anti_symm key_le); [done|].
  rewrite Hk. exact Hbc.
Qed.

(** [dedup_by] of a sorted list: of neighbours with the same key, the first. *)
Fixpoint dedup_key l : list T :=
  match l with
  | x :: l' =>
      match dedup_key l' with
      | y :: l'' => if decide (key x = key y) then x :: l'' else x :: y :: l''
      | [] => [x]
      end
  | [] => []
  end.
Lemma dedup_key_sorted l :
  StronglySorted row_le l → (∀ x y, x ∈ l → y ∈ l → key x = key y → x = y) →
  StronglySorted row_lt (dedup_key l) ∧ ∀ x, x ∈ dedup_key l ↔ x ∈ l.
Proof.
  induction 1 as [|x l Hs IH Hx]; intros Hinj; [split; [constructor|done]|].
  destruct IH as [IHs IHe]; [intros; apply Hinj; by try right|]. cbn [dedup_key].
  destruct (dedup_key l) as [|y l'].
  - split; [by repeat constructor|]. intros z. rewrite !elem_of_cons, <- IHe. tauto.
  - assert (y ∈ l) as Hy by (apply IHe; by left). rewrite list.Forall_forall in Hx.
    destruct (decide (key x = key y)) as [Hk|Hk].
    + assert (x = y) as <- by (apply Hinj; [by left|by right|done]). split; [done|].
      intros z. rewrite (elem_of_cons l), <- IHe, elem_of_cons. tauto.
    + split; [|intros z; rewrite elem_of_cons, IHe, elem_of_cons; tauto].
      assert (row_lt x y) as Hxy by (split; [by apply Hx|done]).
      constructor; [done|]. inversion IHs as [|? ? _ Hyl]; subst. constructor; [done|].
      eapply list.Forall_impl; [exact Hyl|]. intros z Hz. by etrans.
Qed.
Lemma strict_of_sorted l :
  StronglySorted row_le l → NoDup (key <$> l) → StronglySorted row_lt l.
Proof.
  induction 1 as [|x l Hs IH Hx]; intros Hn; [constructor|]. rewrite fmap_cons in Hn.
  apply list.NoDup_cons in Hn as [Hni Hn]. constructor; [by apply IH|]. rewrite list.Forall_forall in *.
  intros y Hy. split; [by apply Hx|]. intros Hk. apply Hni. rewrite Hk. by apply list_elem_of_fmap_2.
Qed.
End keyed.

#[export] Instance ord_Z : OrdKey Z.
Proof. refine {| key_le := Z.le |}. Defined.
