(* ===== verification/WorkModel.v ===== *)
(** Data of the work domain: [crates/airc-work/src/{ids,model,goal,goal_event,event}.rs].

    Every Rust struct is a [Record] with the source's field names behind a
    short prefix, every enum an [Inductive] with the source's variants.  An id
    declared by [uuid_id!] (or [uuid_newtype!] in airc-core) is an [Id] at its
    own kind, holding the 128-bit value; two kinds never mix. *)
From stdpp Require Import base gmap strings list sorting numbers.
From S2P Require Import Prelude.

(** ** Identifiers *)
Inductive IdKind :=
| KWorkCard | KLane | KClaim | KSubmission | KWorkReview | KWorkspace | KGoal
| KPeer | KEvent | KRoom | KClient.
Record Id (k : IdKind) := MkId { uuid : N }.
Arguments MkId {k} _.
Arguments uuid {k} _.

#[export] Instance Id_eq_dec k : EqDecision (Id k).
Proof. solve_decision. Defined.
#[export] Instance Id_countable k : Countable (Id k).
Proof. refine (inj_countable' uuid MkId _). by intros []. Defined.

(** Orders are carried along injections (derived [Ord] of a newtype). *)
Definition ord_along {A K} `{OrdKey K} (f : A → K) (Hf : ∀ a b, f a = f b → a = b) : OrdKey A.
Proof.
  refine {| key_le := λ a b, key_le (f a) (f b) |}.
  - intros a b. apply key_le_dec.
  - intros a b c. apply key_le_trans.
  - intros a b. apply key_le_total.
  - intros a b H1 H2. apply Hf. by apply (anti_symm key_le).
Defined.

Lemma uuid_inj k (a b : Id k) : uuid a = uuid b → a = b.
Proof. destruct a, b; cbn; congruence. Qed.
#[export] Instance Id_ord k : OrdKey (Id k) := ord_along uuid (uuid_inj k).

Abbreviation WorkCardId := (Id KWorkCard).
Abbreviation LaneId := (Id KLane).
Abbreviation ClaimId := (Id KClaim).
Abbreviation SubmissionId := (Id KSubmission).
Abbreviation WorkReviewId := (Id KWorkReview).
Abbreviation WorkspaceId := (Id KWorkspace).
Abbreviation GoalId := (Id KGoal).
Abbreviation PeerId := (Id KPeer).
Abbreviation EventId := (Id KEvent).
Abbreviation RoomId := (Id KRoom).
Abbreviation ClientId := (Id KClient).

(** [impl Display]: the hyphenated uuid. *)
Definition show_id {k} (i : Id k) : rstring := show_uuid (uuid i).

(** ** Validated names *)
Record RepoId := MkRepoId { repo_str : rstring }.
Inductive RepoIdError := RepoEmpty | RepoContainsWhitespace.

(** [RepoId::new]. *)
Definition RepoId_new (value : rstring) : result RepoIdError RepoId :=
  let trimmed := trim value in
  if decide (trimmed = []) then Err RepoEmpty
  else if existsb is_whitespace trimmed then Err RepoContainsWhitespace
  else Ok (MkRepoId trimmed).

Record BranchName := MkBranchName { branch_str : rstring }.
Inductive BranchNameError := BranchEmpty | BranchContainsWhitespace.

(** [BranchName::new]. *)
Definition BranchName_new (value : rstring) : result BranchNameError BranchName :=
  let trimmed := trim value in
  if decide (trimmed = []) then Err BranchEmpty
  else if existsb is_whitespace trimmed then Err BranchContainsWhitespace
  else Ok (MkBranchName trimmed).

Record GitObjectId := MkGitObjectId { oid_str : rstring }.
Inductive GitObjectIdError := OidEmpty | OidNonHex.

(** [GitObjectId::new]. *)
Definition GitObjectId_new (value : rstring) : result GitObjectIdError GitObjectId :=
  let trimmed := trim value in
  if decide (trimmed = []) then Err OidEmpty
  else if forallb is_ascii_hexdigit trimmed
  then Ok (MkGitObjectId (to_ascii_lowercase trimmed))
  else Err OidNonHex.

#[export] Instance RepoId_eq_dec : EqDecision RepoId.
Proof. solve_decision. Defined.
#[export] Instance RepoId_countable : Countable RepoId.
Proof. refine (inj_countable' repo_str MkRepoId _). by intros []. Defined.
Lemma repo_str_inj a b : repo_str a = repo_str b → a = b.
Proof. destruct a, b; cbn; congruence. Qed.
#[export] Instance RepoId_ord : OrdKey RepoId := ord_along repo_str repo_str_inj.

#[export] Instance BranchName_eq_dec : EqDecision BranchName.
Proof. solve_decision. Defined.
#[export] Instance BranchName_countable : Countable BranchName.
Proof. refine (inj_countable' branch_str MkBranchName _). by intros []. Defined.
Lemma branch_str_inj a b : branch_str a = branch_str b → a = b.
Proof. destruct a, b; cbn; congruence. Qed.
#[export] Instance BranchName_ord : OrdKey BranchName := ord_along branch_str branch_str_inj.

#[export] Instance GitObjectId_eq_dec : EqDecision GitObjectId.
Proof. solve_decision. Defined.

(** ** Enumerations of model.rs *)
Inductive Priority := P0 | P1 | P2 | P3.
Inductive CardState :=
| CardOpen | CardClaimed | CardInProgress | CardBlocked | CardReview | CardMerged | CardClosed.
Inductive LaneState := LanePlanned | LaneActive | LaneBlocked | LaneLanding | LaneDone.
Inductive WorkspaceStatus :=
| WsRequested | WsAllocated | WsActive | WsReleased | WsOrphaned | WsFailed.
Inductive AgentAvailabilityState := AgentReady | AgentBusy | AgentAway.
Inductive DirtyState := Clean | Dirty | DirtyUnknown.
Inductive PrCheckState :=
| CheckQueued | CheckRunning | CheckPassed | CheckFailed | CheckCancelled | CheckSkipped.
Inductive PrReviewState :=
| ReviewRequested | ReviewCommented | ReviewApproved | ReviewChangesRequested | ReviewDismissed.
Inductive PrMergeState := MergeOpen | MergeDraft | MergeReady | MergeMerged | MergeClosed.
Inductive DrainCandidateCategory :=
| RebuildableCache | GeneratedArtifact | DownloadedDependency | DockerLayer
| ModelCache | TraceArtifact | UnknownCategory.
Inductive PressureLevel := Nominal | Elevated | High | Critical.

#[export] Instance CardState_eq_dec : EqDecision CardState.
Proof. solve_decision. Defined.
#[export] Instance WorkspaceStatus_eq_dec : EqDecision WorkspaceStatus.
Proof. solve_decision. Defined.

(** [CardState::is_settled]. *)
Definition is_settled (s : CardState) : bool :=
  match s with CardReview | CardMerged | CardClosed => true | _ => false end.

(** The [matches!(state, Merged | Closed)] test the handlers share. *)
Definition is_terminal (s : CardState) : bool :=
  match s with CardMerged | CardClosed => true | _ => false end.

(** [DrainCandidateCategory::safe_by_default]. *)
Definition safe_by_default (c : DrainCandidateCategory) : bool :=
  match c with RebuildableCache | DownloadedDependency => true | _ => false end.

(** ** Content-addressed blobs ([airc_blobs::{ContentHash, MediaRef}]) *)
Record ContentHash := MkContentHash { digest : list N }.
Record MediaRef := MkMediaRef {
  mr_hash : ContentHash;
  mr_size_bytes : N;
  mr_mime : option rstring;
}.
#[export] Instance ContentHash_eq_dec : EqDecision ContentHash.
Proof. solve_decision. Defined.
#[export] Instance MediaRef_eq_dec : EqDecision MediaRef.
Proof. solve_decision. Defined.

Record PullRequestRef := MkPullRequestRef {
  pr_repo : RepoId;
  pr_number : N;
  pr_head : BranchName;
  pr_base : BranchName;
}.
#[export] Instance PullRequestRef_eq_dec : EqDecision PullRequestRef.
Proof. solve_decision. Defined.

(** ** Submissions and reviews (event.rs) *)
Record WorkSubmission := MkWorkSubmission {
  ws_submission_id : SubmissionId;
  ws_card_id : WorkCardId;
  ws_claim_id : ClaimId;
  ws_instance : rstring;
  ws_base_sha : GitObjectId;
  ws_artifact : MediaRef;
  ws_publisher : PeerId;
  ws_submitted_at_ms : N;
}.
Inductive SubmissionRejectionReason :=
| PublisherMismatch | InvalidBase | InvalidInstance | InvalidArtifact
| SubmissionWrongClaim | SubmissionExpiredClaim | SettledCard | SubmissionConflictingId.
Record RejectedSubmission := MkRejectedSubmission {
  rs_submission_id : SubmissionId;
  rs_card_id : WorkCardId;
  rs_publisher : PeerId;
  rs_submitted_at_ms : N;
  rs_reason : SubmissionRejectionReason;
}.
#[export] Instance eta_RejectedSubmission : Eta RejectedSubmission := λ r,
  MkRejectedSubmission (rs_submission_id r) (rs_card_id r) (rs_publisher r)
    (rs_submitted_at_ms r) (rs_reason r).

Inductive WorkReviewOutcome := OutcomePassed | OutcomeFailed | OutcomeUnknown.
#[export] Instance WorkReviewOutcome_eq_dec : EqDecision WorkReviewOutcome.
Proof. solve_decision. Defined.
Record WorkSubmissionReview := MkWorkSubmissionReview {
  wr_review_id : WorkReviewId;
  wr_card_id : WorkCardId;
  wr_submission_id : SubmissionId;
  wr_artifact : MediaRef;
  wr_review_card_id : WorkCardId;
  wr_review_claim_id : ClaimId;
  wr_reviewer : PeerId;
  wr_outcome : WorkReviewOutcome;
  wr_evidence : MediaRef;
  wr_evidence_text : option rstring;
  wr_reviewed_at_ms : N;
}.
Inductive WorkReviewRejectionReason :=
| RequestorMismatch | ReviewerMismatch | UnknownSubmission | ArtifactMismatch
| WrongReviewCard | WrongClaim | ExpiredClaim | SettledReviewCard
| InvalidEvidence | ConflictingId.
Record RejectedWorkReview := MkRejectedWorkReview {
  rr_review_id : WorkReviewId;
  rr_card_id : WorkCardId;
  rr_reviewer : PeerId;
  rr_reviewed_at_ms : N;
  rr_reason : WorkReviewRejectionReason;
}.
#[export] Instance eta_RejectedWorkReview : Eta RejectedWorkReview := λ r,
  MkRejectedWorkReview (rr_review_id r) (rr_card_id r) (rr_reviewer r)
    (rr_reviewed_at_ms r) (rr_reason r).
#[export] Instance WorkReviewRejectionReason_eq_dec : EqDecision WorkReviewRejectionReason.
Proof. solve_decision. Defined.
#[export] Instance SubmissionRejectionReason_eq_dec : EqDecision SubmissionRejectionReason.
Proof. solve_decision. Defined.

(** ** Cards, leases, hygiene (model.rs) *)
Inductive ClaimOrigin := ClaimExplicit | ClaimAutomatic | ClaimUnknown.
#[export] Instance ClaimOrigin_eq_dec : EqDecision ClaimOrigin.
Proof. solve_decision. Defined.
(** [ClaimOrigin::is_unknown]. *)
Definition claim_origin_is_unknown (o : ClaimOrigin) : bool :=
  match o with ClaimUnknown => true | _ => false end.

Record ClaimProvenance := MkClaimProvenance {
  cp_origin : ClaimOrigin;
  cp_selected_at_ms : N;
}.

Record WorkCard := MkWorkCard {
  card_id : WorkCardId;
  repo : RepoId;
  title : rstring;
  body : option rstring;
  priority : Priority;
  lane_id : option LaneId;
  state : CardState;
  owner : option PeerId;
  claim_id : option ClaimId;
  claim_provenance : option ClaimProvenance;
  claim_expires_at_ms : option N;
  last_heartbeat_at_ms : option N;
  pull_request : option PullRequestRef;
  created_by : PeerId;
  created_at_ms : N;
  updated_at_ms : N;
  reviews : option WorkCardId;
  submissions : list WorkSubmission;
  last_submission_rejection : option RejectedSubmission;
}.
#[export] Instance eta_WorkCard : Eta WorkCard := λ c,
  MkWorkCard (card_id c) (repo c) (title c) (body c) (priority c) (lane_id c) (state c)
    (owner c) (claim_id c) (claim_provenance c) (claim_expires_at_ms c)
    (last_heartbeat_at_ms c) (pull_request c) (created_by c) (created_at_ms c)
    (updated_at_ms c) (reviews c) (submissions c) (last_submission_rejection c).

Record WorkspaceLease := MkWorkspaceLease {
  wl_workspace_id : WorkspaceId;
  wl_card_id : WorkCardId;
  wl_claim_id : ClaimId;
  wl_owner : PeerId;
  wl_repo : RepoId;
  wl_path : rstring;
  wl_branch : BranchName;
  wl_base : BranchName;
  wl_status : WorkspaceStatus;
  wl_disk_bytes : option N;
  wl_created_at_ms : N;
  wl_heartbeat_at_ms : N;
  wl_released_at_ms : option N;
}.
#[export] Instance eta_WorkspaceLease : Eta WorkspaceLease := λ l,
  MkWorkspaceLease (wl_workspace_id l) (wl_card_id l) (wl_claim_id l) (wl_owner l)
    (wl_repo l) (wl_path l) (wl_branch l) (wl_base l) (wl_status l) (wl_disk_bytes l)
    (wl_created_at_ms l) (wl_heartbeat_at_ms l) (wl_released_at_ms l).

Record HygieneReport := MkHygieneReport {
  hr_repo : RepoId;
  hr_reporter : PeerId;
  hr_total_bytes : N;
  hr_rebuildable_bytes : N;
  hr_workspace_count : N;
  hr_recorded_at_ms : N;
}.
Record DrainCandidate := MkDrainCandidate {
  dc_path : rstring;
  dc_category : DrainCandidateCategory;
  dc_est_bytes : N;
}.
Record DrainOutcome := MkDrainOutcome {
  do_bytes_reclaimed : N;
  do_paths_touched : list rstring;
  do_paths_skipped : list rstring;
  do_errors : list rstring;
}.

(** ** Goals (goal.rs, goal_event.rs) *)
Record RecipeRef := MkRecipeRef { recipe_str : rstring }.

Inductive GoalState :=
| Fresh
| InProgress (open_cards closed_cards : N)
| Achieved (at_ms : N)
| Abandoned (at_ms : N) (reason : rstring).
Inductive ExitCondition :=
| DryForTicks (n : N)
| MilestoneClosed (card_id : WorkCardId)
| AllCardsClosed
| OperatorOnly.
Record Goal := MkGoal {
  goal_id : GoalId;
  goal_title : rstring;
  goal_default_repo : RepoId;
  goal_state : GoalState;
  goal_exit_condition : ExitCondition;
  goal_created_at_ms : N;
}.

(** [Goal::fresh]. *)
Definition Goal_fresh (id : GoalId) (title : rstring) (default_repo : RepoId)
    (exit_condition : ExitCondition) (created_at_ms : N) : Goal :=
  MkGoal id title default_repo Fresh exit_condition created_at_ms.

(** [Goal::accepts_synthesis]. *)
Definition accepts_synthesis (g : Goal) : bool :=
  match goal_state g with
  | Fresh | InProgress _ _ => true
  | Achieved _ | Abandoned _ _ => false
  end.

Inductive ExternalSource := GhIssue | GhPullRequest.
Inductive CardOrigin :=
| OriginOperator (peer_id : PeerId)
| OriginSynthesized (goal_id : GoalId) (recipe_id : RecipeRef)
    (synthesizer_peer : PeerId) (dedup_key : rstring)
| OriginExternal (source : ExternalSource) (foreign_id : rstring).

Record GoalCreated := MkGoalCreated {
  gc_goal_id : GoalId;
  gc_title : rstring;
  gc_default_repo : RepoId;
  gc_exit_condition : ExitCondition;
  gc_recipe_refs : list RecipeRef;
  gc_created_by : PeerId;
  gc_created_at_ms : N;
}.
Record GoalAchieved := MkGoalAchieved {
  ga_goal_id : GoalId;
  ga_condition : ExitCondition;
  ga_achieved_by : PeerId;
  ga_achieved_at_ms : N;
}.
Record GoalAbandoned := MkGoalAbandoned {
  gb_goal_id : GoalId;
  gb_abandoned_by : PeerId;
  gb_reason : rstring;
  gb_abandoned_at_ms : N;
}.
Record GoalDryTickRecorded := MkGoalDryTickRecorded {
  gd_goal_id : GoalId;
  gd_synthesizer_peer : PeerId;
  gd_recorded_at_ms : N;
}.

(** ** Card and claim events (event.rs) *)
Record CardCreated := MkCardCreated {
  cc_card_id : WorkCardId;
  cc_repo : RepoId;
  cc_title : rstring;
  cc_body : option rstring;
  cc_priority : Priority;
  cc_lane_id : option LaneId;
  cc_created_by : PeerId;
  cc_created_at_ms : N;
  cc_reviews : option WorkCardId;
  cc_origin : option CardOrigin;
}.
Record SubmissionReviewRequested := MkSubmissionReviewRequested {
  srr_card : CardCreated;
  srr_submission_id : SubmissionId;
}.
Record ClaimSelection := MkClaimSelection {
  cs_claim_id : ClaimId;
  cs_owner : PeerId;
  cs_selected_at_ms : N;
}.
Record CardUpdated := MkCardUpdated {
  cu_claim_selection : option ClaimSelection;
  cu_card_id : WorkCardId;
  cu_title : option rstring;
  cu_body : option rstring;
  cu_priority : option Priority;
  cu_updated_by : PeerId;
  cu_updated_at_ms : N;
}.
#[export] Instance eta_CardUpdated : Eta CardUpdated := λ u,
  MkCardUpdated (cu_claim_selection u) (cu_card_id u) (cu_title u) (cu_body u)
    (cu_priority u) (cu_updated_by u) (cu_updated_at_ms u).
Record WorkCardClaimed := MkWorkCardClaimed {
  cl_selected_at_ms : option N;
  cl_card_id : WorkCardId;
  cl_claim_id : ClaimId;
  cl_owner : PeerId;
  cl_ttl_ms : N;
  cl_claimed_at_ms : N;
  cl_origin : ClaimOrigin;
}.
Record ClaimHeartbeat := MkClaimHeartbeat {
  hb_card_id : WorkCardId;
  hb_claim_id : ClaimId;
  hb_owner : PeerId;
  hb_ttl_ms : N;
  hb_heartbeat_at_ms : N;
}.
Record ClaimReleased := MkClaimReleased {
  rl_card_id : WorkCardId;
  rl_claim_id : ClaimId;
  rl_owner : PeerId;
  rl_reason : option rstring;
  rl_released_at_ms : N;
  rl_taken_over_from : option PeerId;
}.
Record CardStateChanged := MkCardStateChanged {
  sc_card_id : WorkCardId;
  sc_state : CardState;
  sc_changed_by : PeerId;
  sc_changed_at_ms : N;
}.
Record LaneCreated := MkLaneCreated {
  lc_lane_id : LaneId;
  lc_repo : RepoId;
  lc_title : rstring;
  lc_state : LaneState;
  lc_created_by : PeerId;
  lc_created_at_ms : N;
}.
Record LaneStateChanged := MkLaneStateChanged {
  ls_lane_id : LaneId;
  ls_state : LaneState;
  ls_changed_by : PeerId;
  ls_changed_at_ms : N;
}.

(** ** Workspace events *)
Record WorkspaceRequested := MkWorkspaceRequested {
  wq_workspace_id : WorkspaceId;
  wq_card_id : WorkCardId;
  wq_claim_id : ClaimId;
  wq_owner : PeerId;
  wq_repo : RepoId;
  wq_branch : BranchName;
  wq_base : BranchName;
  wq_requested_at_ms : N;
}.
Record WorkspaceAllocated := MkWorkspaceAllocated {
  wa_workspace_id : WorkspaceId;
  wa_path : rstring;
  wa_allocated_at_ms : N;
}.
Record WorkspaceHeartbeat := MkWorkspaceHeartbeat {
  wh_workspace_id : WorkspaceId;
  wh_disk_bytes : option N;
  wh_heartbeat_at_ms : N;
}.
Record WorkspaceReleased := MkWorkspaceReleased {
  wx_workspace_id : WorkspaceId;
  wx_released_at_ms : N;
}.
Record WorkspacePressureReported := MkWorkspacePressureReported {
  wp_workspace_id : WorkspaceId;
  wp_repo : RepoId;
  wp_reporter : PeerId;
  wp_total_bytes : N;
  wp_available_bytes : N;
  wp_level : PressureLevel;
  wp_reported_at_ms : N;
}.
Record WorkspaceDrainRequested := MkWorkspaceDrainRequested {
  dr_workspace_id : WorkspaceId;
  dr_repo : RepoId;
  dr_requester : PeerId;
  dr_policy_rule_id : rstring;
  dr_dry_run : bool;
  dr_candidates : list DrainCandidate;
  dr_requested_at_ms : N;
}.
Record WorkspaceDrainCompleted := MkWorkspaceDrainCompleted {
  dn_workspace_id : WorkspaceId;
  dn_repo : RepoId;
  dn_performer : PeerId;
  dn_policy_rule_id : rstring;
  dn_dry_run : bool;
  dn_outcome : DrainOutcome;
  dn_completed_at_ms : N;
}.

(** ** Git and pull-request observations *)
Record GitCommitObserved := MkGitCommitObserved {
  gco_repo : RepoId;
  gco_commit : GitObjectId;
  gco_branch : option BranchName;
  gco_summary : option rstring;
  gco_observed_by : PeerId;
  gco_observed_at_ms : N;
}.
Record GitBranchMoved := MkGitBranchMoved {
  gbm_repo : RepoId;
  gbm_branch : BranchName;
  gbm_old_head : option GitObjectId;
  gbm_new_head : GitObjectId;
  gbm_moved_by : PeerId;
  gbm_moved_at_ms : N;
}.
Record GitDirtyStateChanged := MkGitDirtyStateChanged {
  gds_repo : RepoId;
  gds_workspace_id : option WorkspaceId;
  gds_path : rstring;
  gds_state : DirtyState;
  gds_dirty_paths : N;
  gds_untracked_paths : N;
  gds_changed_by : PeerId;
  gds_changed_at_ms : N;
}.
Record PullRequestCheckSuiteChanged := MkPullRequestCheckSuiteChanged {
  pc_pull_request : PullRequestRef;
  pc_state : PrCheckState;
  pc_changed_by : PeerId;
  pc_changed_at_ms : N;
}.
Record PullRequestReviewSubmitted := MkPullRequestReviewSubmitted {
  pv_pull_request : PullRequestRef;
  pv_reviewer : PeerId;
  pv_state : PrReviewState;
  pv_submitted_at_ms : N;
}.
Record PullRequestMergeStateChanged := MkPullRequestMergeStateChanged {
  pm_pull_request : PullRequestRef;
  pm_state : PrMergeState;
  pm_changed_by : PeerId;
  pm_changed_at_ms : N;
}.
Record PullRequestLinked := MkPullRequestLinked {
  pl_card_id : WorkCardId;
  pl_pull_request : PullRequestRef;
  pl_linked_by : PeerId;
  pl_linked_at_ms : N;
}.
Record PullRequestRelinked := MkPullRequestRelinked {
  pk_card_id : WorkCardId;
  pk_old_pull_request : PullRequestRef;
  pk_new_pull_request : PullRequestRef;
  pk_relinked_by : PeerId;
  pk_relinked_at_ms : N;
}.
Record PullRequestMerged := MkPullRequestMerged {
  pg_card_id : WorkCardId;
  pg_pull_request : PullRequestRef;
  pg_merged_by : PeerId;
  pg_merged_at_ms : N;
}.

(** ** Hygiene, manager hat, availability *)
Record HygieneReportRecorded := MkHygieneReportRecorded { hg_report : HygieneReport }.
Record ManagerHatClaimed := MkManagerHatClaimed {
  mc_repo : RepoId;
  mc_manager : PeerId;
  mc_ttl_ms : N;
  mc_claimed_at_ms : N;
}.
Record ManagerHatReleased := MkManagerHatReleased {
  mx_repo : RepoId;
  mx_manager : PeerId;
  mx_released_at_ms : N;
}.
Record AgentAvailabilityReported := MkAgentAvailabilityReported {
  av_repo : RepoId;
  av_peer : PeerId;
  av_state : AgentAvailabilityState;
  av_note : option rstring;
  av_ttl_ms : N;
  av_reported_at_ms : N;
}.

(** ** The event union *)
Inductive WorkEvent :=
| EvCardCreated (e : CardCreated)
| EvCardUpdated (e : CardUpdated)
| EvCardClaimed (e : WorkCardClaimed)
| EvClaimHeartbeat (e : ClaimHeartbeat)
| EvClaimReleased (e : ClaimReleased)
| EvCardStateChanged (e : CardStateChanged)
| EvWorkSubmitted (e : WorkSubmission)
| EvWorkSubmissionReviewed (e : WorkSubmissionReview)
| EvSubmissionReviewRequested (e : SubmissionReviewRequested)
| EvSubmissionRejected (e : RejectedSubmission)
| EvReviewRejected (e : RejectedWorkReview)
| EvLaneCreated (e : LaneCreated)
| EvLaneStateChanged (e : LaneStateChanged)
| EvWorkspaceRequested (e : WorkspaceRequested)
| EvWorkspaceAllocated (e : WorkspaceAllocated)
| EvWorkspaceHeartbeat (e : WorkspaceHeartbeat)
| EvWorkspaceReleased (e : WorkspaceReleased)
| EvWorkspacePressureReported (e : WorkspacePressureReported)
| EvWorkspaceDrainRequested (e : WorkspaceDrainRequested)
| EvWorkspaceDrainCompleted (e : WorkspaceDrainCompleted)
| EvGitCommitObserved (e : GitCommitObserved)
| EvGitBranchMoved (e : GitBranchMoved)
| EvGitDirtyStateChanged (e : GitDirtyStateChanged)
| EvPullRequestCheckSuiteChanged (e : PullRequestCheckSuiteChanged)
| EvPullRequestReviewSubmitted (e : PullRequestReviewSubmitted)
| EvPullRequestMergeStateChanged (e : PullRequestMergeStateChanged)
| EvPullRequestLinked (e : PullRequestLinked)
| EvPullRequestRelinked (e : PullRequestRelinked)
| EvPullRequestMerged (e : PullRequestMerged)
| EvHygieneReportRecorded (e : HygieneReportRecorded)
| EvManagerHatClaimed (e : ManagerHatClaimed)
| EvManagerHatReleased (e : ManagerHatReleased)
| EvAgentAvailabilityReported (e : AgentAvailabilityReported)
| EvGoalCreated (e : GoalCreated)
| EvGoalAchieved (e : GoalAchieved)
| EvGoalAbandoned (e : GoalAbandoned)
| EvGoalDryTickRecorded (e : GoalDryTickRecorded).

(** [WorkEvent::occurred_at_ms]. *)
Definition occurred_at_ms (event : WorkEvent) : N :=
  match event with
  | EvCardCreated e => cc_created_at_ms e
  | EvCardUpdated e => cu_updated_at_ms e
  | EvCardClaimed e => cl_claimed_at_ms e
  | EvClaimHeartbeat e => hb_heartbeat_at_ms e
  | EvClaimReleased e => rl_released_at_ms e
  | EvCardStateChanged e => sc_changed_at_ms e
  | EvWorkSubmitted e => ws_submitted_at_ms e
  | EvWorkSubmissionReviewed e => wr_reviewed_at_ms e
  | EvSubmissionReviewRequested e => cc_created_at_ms (srr_card e)
  | EvSubmissionRejected e => rs_submitted_at_ms e
  | EvReviewRejected e => rr_reviewed_at_ms e
  | EvLaneCreated e => lc_created_at_ms e
  | EvLaneStateChanged e => ls_changed_at_ms e
  | EvWorkspaceRequested e => wq_requested_at_ms e
  | EvWorkspaceAllocated e => wa_allocated_at_ms e
  | EvWorkspaceHeartbeat e => wh_heartbeat_at_ms e
  | EvWorkspaceReleased e => wx_released_at_ms e
  | EvWorkspacePressureReported e => wp_reported_at_ms e
  | EvWorkspaceDrainRequested e => dr_requested_at_ms e
  | EvWorkspaceDrainCompleted e => dn_completed_at_ms e
  | EvGitCommitObserved e => gco_observed_at_ms e
  | EvGitBranchMoved e => gbm_moved_at_ms e
  | EvGitDirtyStateChanged e => gds_changed_at_ms e
  | EvPullRequestCheckSuiteChanged e => pc_changed_at_ms e
  | EvPullRequestReviewSubmitted e => pv_submitted_at_ms e
  | EvPullRequestMergeStateChanged e => pm_changed_at_ms e
  | EvPullRequestLinked e => pl_linked_at_ms e
  | EvPullRequestRelinked e => pk_relinked_at_ms e
  | EvPullRequestMerged e => pg_merged_at_ms e
  | EvHygieneReportRecorded e => hr_recorded_at_ms (hg_report e)
  | EvManagerHatClaimed e => mc_claimed_at_ms e
  | EvManagerHatReleased e => mx_released_at_ms e
  | EvAgentAvailabilityReported e => av_reported_at_ms e
  | EvGoalCreated e => gc_created_at_ms e
  | EvGoalAchieved e => ga_achieved_at_ms e
  | EvGoalAbandoned e => gb_abandoned_at_ms e
  | EvGoalDryTickRecorded e => gd_recorded_at_ms e
  end.
