(* ===== verification/CoreTranscript.v ===== *)
(** Transcripts and headers: [crates/airc-core/src/{headers,transcript,cursor,
    filter,body,receipt,attachment}.rs], and the frames and subscriptions of
    [crates/airc-protocol/src/{envelope,subscription,media,signature}.rs].

    [JsonValue] stands for [serde_json::Value]: the model needs its values only
    as opaque payloads, and the string under the key ["kind"] of an object. *)
From stdpp Require Import base gmap strings list sorting numbers.
From S2P Require Import Prelude WorkModel.

Class JsonValue := {
  Json : Type;
  json_kind : Json → option rstring;   (* [value.get("kind").and_then(as_str)] *)
}.

(** ** headers.rs *)
Definition HEADER_AIRC_CLIENT : rstring := str "airc.client".
Definition HEADER_FORGE_BODY_HINT : rstring := str "forge.body_hint".

Abbreviation Headers := (gmap rstring rstring).
#[export] Instance rstring_le_key : OrdKey rstring := ord_rstring.

(** [HeaderView::build] collects the iteration into a hash map. *)
Record HeaderView := MkHeaderView { view_inner : gmap rstring rstring }.
Definition HeaderView_build (headers : Headers) : HeaderView :=
  MkHeaderView (list_to_map (bt_entries headers)).
Definition HeaderView_get (key : rstring) (self : HeaderView) : option rstring :=
  view_inner self !! key.

Inductive HeaderFilter :=
| HfAny
| HfExact (key value : rstring)
| HfPrefix (key value_prefix : rstring)
| HfAll (filters : list HeaderFilter)
| HfAnyOf (filters : list HeaderFilter)
| HfHas (key : rstring)
| HfNot (inner : HeaderFilter).

Definition starts_with (value value_prefix : rstring) : bool :=
  bool_decide (value_prefix `prefix_of` value).

(** [HeaderFilter::matches]. *)
Fixpoint filter_matches (self : HeaderFilter) (headers : Headers) : bool :=
  match self with
  | HfAny => true
  | HfExact key value => bool_decide (headers !! key = Some value)
  | HfPrefix key value_prefix =>
      is_some_and (headers !! key) (λ value, starts_with value value_prefix)
  | HfAll filters => forallb (λ f, filter_matches f headers) filters
  | HfAnyOf filters => existsb (λ f, filter_matches f headers) filters
  | HfHas key => is_some (headers !! key)
  | HfNot inner => negb (filter_matches inner headers)
  end.

(** [HeaderFilter::matches_view]. *)
Fixpoint filter_matches_view (self : HeaderFilter) (view : HeaderView) : bool :=
  match self with
  | HfAny => true
  | HfExact key value => bool_decide (HeaderView_get key view = Some value)
  | HfPrefix key value_prefix =>
      is_some_and (HeaderView_get key view) (λ value, starts_with value value_prefix)
  | HfAll filters => forallb (λ f, filter_matches_view f view) filters
  | HfAnyOf filters => existsb (λ f, filter_matches_view f view) filters
  | HfHas key => is_some (HeaderView_get key view)
  | HfNot inner => negb (filter_matches_view inner view)
  end.

(** ** transcript.rs *)
Inductive TranscriptKind :=
| Message | Command | CommandResult | Attachment | ReceiptEvent | Presence | SessionControl
| System | PeerArrived | PeerDeparted | WireEstablished | WireLost | RoomJoined | RoomParted
| SubscriptionAdvanced | IdentityPublished | DoctrinePublished | WallPostPublished
| ChannelPurposePublished.
#[export] Instance TranscriptKind_eq_dec : EqDecision TranscriptKind.
Proof. solve_decision. Defined.

Definition is_lifecycle (k : TranscriptKind) : bool :=
  match k with
  | PeerArrived | PeerDeparted | WireEstablished | WireLost | RoomJoined | RoomParted
  | SubscriptionAdvanced | IdentityPublished | DoctrinePublished | WallPostPublished
  | ChannelPurposePublished => true
  | _ => false
  end.

Definition as_wire_str (k : TranscriptKind) : rstring :=
  match k with
  | Message => str "message"
  | Attachment => str "attachment"
  | ReceiptEvent => str "receipt"
  | Presence => str "presence"
  | SessionControl => str "session_control"
  | System => str "system"
  | Command => str "command"
  | CommandResult => str "command_result"
  | PeerArrived => str "peer_arrived"
  | PeerDeparted => str "peer_departed"
  | WireEstablished => str "wire_established"
  | WireLost => str "wire_lost"
  | RoomJoined => str "room_joined"
  | RoomParted => str "room_parted"
  | SubscriptionAdvanced => str "subscription_advanced"
  | IdentityPublished => str "identity_published"
  | DoctrinePublished => str "doctrine_published"
  | WallPostPublished => str "wall_post_published"
  | ChannelPurposePublished => str "channel_purpose_published"
  end.

(** [from_wire_str]: the arms in the order the source tests them. *)
Definition wire_arms : list (rstring * TranscriptKind) :=
  [(str "message", Message); (str "command", Command);
   (str "command_result", CommandResult); (str "attachment", Attachment);
   (str "receipt", ReceiptEvent); (str "presence", Presence);
   (str "session_control", SessionControl); (str "system", System);
   (str "peer_arrived", PeerArrived); (str "peer_departed", PeerDeparted);
   (str "wire_established", WireEstablished); (str "wire_lost", WireLost);
   (str "room_joined", RoomJoined); (str "room_parted", RoomParted);
   (str "subscription_advanced", SubscriptionAdvanced);
   (str "identity_published", IdentityPublished);
   (str "doctrine_published", DoctrinePublished);
   (str "wall_post_published", WallPostPublished);
   (str "channel_purpose_published", ChannelPurposePublished)].
Definition from_wire_str (s : rstring) : option TranscriptKind :=
  snd <$> List.find (λ a, bool_decide (s = a.1)) wire_arms.

Definition ALL_VARIANTS : list TranscriptKind :=
  [Message; Command; CommandResult; Attachment; ReceiptEvent; Presence; SessionControl; System;
   PeerArrived; PeerDeparted; WireEstablished; WireLost; RoomJoined; RoomParted;
   SubscriptionAdvanced; IdentityPublished; DoctrinePublished; WallPostPublished;
   ChannelPurposePublished].

Inductive MentionTarget := ToAll | ToPeer (p : PeerId) | ToRoom (r : RoomId).

(** receipt.rs and attachment.rs. *)
Inductive ReceiptKind := RcDelivered | RcRead | RcApplied.
Record Receipt := MkReceipt {
  rc_event_id : EventId;
  rc_peer_id : PeerId;
  rc_client_id : ClientId;
  rc_kind : ReceiptKind;
  rc_received_at_ms : N;
}.
Record AttachmentManifest := MkAttachmentManifest {
  at_file_id : N;
  at_name : rstring;
  at_media_type : option rstring;
  at_size_bytes : N;
  at_content_hash : rstring;
  at_local_path : option rstring;
  at_remote_ref : option rstring;
}.

(** ** airc-protocol frames *)
Record WireMediaRef := MkWireMediaRef {
  wm_file_id : N;
  wm_content_hash : rstring;
  wm_mime : option rstring;
  wm_size_bytes : option N;
  wm_caption : option rstring;
}.
Inductive Signature :=
| Ed25519 (signer : PeerId) (key_id : N) (sig : list N)
| Unsigned.
Inductive FrameKind := FkMessage | FkEvent | FkControl | FkCommand | FkCommandResult | FkAddressed.
#[export] Instance FrameKind_eq_dec : EqDecision FrameKind.
Proof. solve_decision. Defined.

(** cursor.rs. *)
Record TranscriptCursor := MkTranscriptCursor {
  cur_lamport : N;
  cur_event_id : EventId;
}.
#[export] Instance TranscriptCursor_eq_dec : EqDecision TranscriptCursor.
Proof. solve_decision. Defined.

Section json.
Context {J : JsonValue}.

Inductive Body := BodyJson (value : Json) | BodyBinary (bytes : list N).

Record TranscriptEvent := MkTranscriptEvent {
  te_event_id : EventId;
  te_room_id : RoomId;
  te_peer_id : PeerId;
  te_client_id : ClientId;
  te_kind : TranscriptKind;
  te_occurred_at_ms : N;
  te_lamport : N;
  te_target : MentionTarget;
  te_headers : Headers;
  te_body : option Body;
  te_attachment : option AttachmentManifest;
  te_receipt : option Receipt;
  te_metadata : Json;
}.

Definition te_cursor (e : TranscriptEvent) : TranscriptCursor :=
  MkTranscriptCursor (te_lamport e) (te_event_id e).

(** filter.rs: self-echo rules. *)
Inductive SelfFilter := IncludeAll | ExcludeSameClient | ExcludeSamePeer.
Definition is_self_echo (e : TranscriptEvent) (peer_id : PeerId) (client_id : ClientId)
    (filter : SelfFilter) : bool :=
  match filter with
  | IncludeAll => false
  | ExcludeSameClient => bool_decide (te_client_id e = client_id)
  | ExcludeSamePeer => bool_decide (te_peer_id e = peer_id)
  end.
Definition filter_self_echoes (events : list TranscriptEvent) (peer_id : PeerId)
    (client_id : ClientId) (f : SelfFilter) : list TranscriptEvent :=
  filter (λ e, is_self_echo e peer_id client_id f = false) events.

Record RuntimeSelf := MkRuntimeSelf {
  rself_client_id : ClientId;
  rself_runtime_client : option rstring;
}.
Definition is_self (self : RuntimeSelf) (headers : Headers) (client_id : ClientId) : bool :=
  match headers !! HEADER_AIRC_CLIENT with
  | Some tag => bool_decide (rself_runtime_client self = Some tag)
  | None => bool_decide (client_id = rself_client_id self)
  end.
Definition is_self_event (self : RuntimeSelf) (e : TranscriptEvent) : bool :=
  is_self self (te_headers e) (te_client_id e).

(** cursor.rs: order and paging. *)
Definition cursor_key (c : TranscriptCursor) : N * N := (cur_lamport c, uuid (cur_event_id c)).
Definition cursor_before (left right : TranscriptCursor) : bool :=
  (cur_lamport left <? cur_lamport right)%N
  || ((cur_lamport left =? cur_lamport right)%N
      && (uuid (cur_event_id left) <? uuid (cur_event_id right))%N).

(** [event_order] as the relation "not greater" that [sort_by] sorts with. *)
Definition event_order (left right : TranscriptEvent) : Prop :=
  key_le (cursor_key (te_cursor left)) (cursor_key (te_cursor right)).
#[export] Instance event_order_dec : RelDecision event_order :=
  λ l r, key_le_dec (cursor_key (te_cursor l)) (cursor_key (te_cursor r)).

#[export] Instance event_order_trans : Transitive event_order.
Proof. intros x y z. unfold event_order. apply key_le_trans. Qed.
#[export] Instance event_order_total : Total event_order.
Proof. intros x y. unfold event_order. apply key_le_total. Qed.

Lemma cursor_key_inj c1 c2 : cursor_key c1 = cursor_key c2 → c1 = c2.
Proof. destruct c1 as [l1 [u1]], c2 as [l2 [u2]]. unfold cursor_key. cbn. congruence. Qed.

Record TranscriptPage := MkTranscriptPage {
  tp_room_id : RoomId;
  tp_events : list TranscriptEvent;
  tp_newer : option TranscriptCursor;
  tp_older : option TranscriptCursor;
}.
Definition page_for (room_id : RoomId) (events : list TranscriptEvent) : TranscriptPage :=
  MkTranscriptPage room_id events (te_cursor <$> list.last events) (te_cursor <$> list.head events).
Definition page_recent (room_id : RoomId) (events : list TranscriptEvent) (limit : nat) :
    TranscriptPage :=
  let page_events := sort_by event_order events in
  page_for room_id
    (if (limit <? length page_events)%nat
     then drop (length page_events - limit) page_events else page_events).
Definition page_before (room_id : RoomId) (events : list TranscriptEvent)
    (before : TranscriptCursor) (limit : nat) : TranscriptPage :=
  let page_events :=
    sort_by event_order (filter (λ e, cursor_before (te_cursor e) before = true) events) in
  page_for room_id
    (if (limit <? length page_events)%nat
     then drop (length page_events - limit) page_events else page_events).

(** envelope.rs and subscription.rs. *)
Record Envelope := MkEnvelope {
  env_event_id : EventId;
  env_sender : PeerId;
  env_sender_client : ClientId;
  env_channel : RoomId;
  env_target : MentionTarget;
  env_lamport : N;
  env_occurred_at_ms : N;
  env_reply_to : option EventId;
  env_headers : Headers;
  env_body : option Body;
  env_media : list WireMediaRef;
  env_signature : Signature;
}.
Record Frame := MkFrame { fr_kind : FrameKind; fr_envelope : Envelope }.
Record Subscription := MkSubscription {
  sub_channel : option RoomId;
  sub_from_cursor : option TranscriptCursor;
  sub_kinds : list FrameKind;
  sub_headers_filter : HeaderFilter;
}.
Definition subscription_matches (self : Subscription) (frame : Frame) : bool :=
  if match sub_channel self with
     | Some channel => bool_decide (env_channel (fr_envelope frame) ≠ channel)
     | None => false
     end
  then false
  else if negb (bool_decide (sub_kinds self = []))
          && negb (bool_decide (fr_kind frame ∈ sub_kinds self))
  then false
  else if negb (filter_matches (sub_headers_filter self) (env_headers (fr_envelope frame)))
  then false
  else true.
End json.
