(* ===== verification/CoreTranscriptThms.v ===== *)
(** Correctness of airc-core's header filters, wire names and transcript paging. *)
From stdpp Require Import base gmap strings list sorting numbers.
From S2P Require Import Prelude WorkModel CoreTranscript.

(** The nested induction principle of header filters. *)
Section filter_ind.
Variable P : HeaderFilter → Prop.
Hypotheses
  (Hany : P HfAny) (Hexact : ∀ k v, P (HfExact k v)) (Hprefix : ∀ k v, P (HfPrefix k v))
  (Hall : ∀ fs, Forall P fs → P (HfAll fs)) (Hanyof : ∀ fs, Forall P fs → P (HfAnyOf fs))
  (Hhas : ∀ k, P (HfHas k)) (Hnot : ∀ f, P f → P (HfNot f)).

Fixpoint HeaderFilter_nested_ind (f : HeaderFilter) : P f :=
  let fix go (fs : list HeaderFilter) : Forall P fs :=
    match fs with
    | [] => Forall_nil_2 P
    | f :: fs => Forall_cons_2 P f fs (HeaderFilter_nested_ind f) (go fs)
    end in
  match f with
  | HfAny => Hany
  | HfExact k v => Hexact k v
  | HfPrefix k v => Hprefix k v
  | HfAll fs => Hall fs (go fs)
  | HfAnyOf fs => Hanyof fs (go fs)
  | HfHas k => Hhas k
  | HfNot f => Hnot f (HeaderFilter_nested_ind f)
  end.
End filter_ind.

Lemma HeaderView_build_get key h : HeaderView_get key (HeaderView_build h) = h !! key.
Proof.
  unfold HeaderView_get, HeaderView_build. cbn.
  rewrite (list_to_map_proper _ (map_to_list h)).
  - by rewrite list_to_map_to_list.
  - apply bt_keys_NoDup.
  - apply bt_entries_perm.
Qed.

Lemma forallb_ext_Forall {A} (p q : A → bool) l :
  Forall (λ x, p x = q x) l → forallb p l = forallb q l.
Proof. induction 1; cbn; congruence. Qed.
Lemma existsb_ext_Forall {A} (p q : A → bool) l :
  Forall (λ x, p x = q x) l → existsb p l = existsb q l.
Proof. induction 1; cbn; congruence. Qed.

(** The fan-out fast path decides like the one-shot path: every header
    filter, nested combinators included, accepts a built view if and only if it
    accepts the headers the view was built from. *)
Theorem matches_view_agrees f h :
  filter_matches_view f (HeaderView_build h) = filter_matches f h.
Proof.
  induction f using HeaderFilter_nested_ind; cbn; rewrite ?HeaderView_build_get; auto.
  - by apply forallb_ext_Forall.
  - by apply existsb_ext_Forall.
  - by f_equal.
Qed.

(** The stored discriminator of a transcript kind decodes to that kind and
    to nothing else, and [ALL_VARIANTS] lists every kind once. *)
Theorem wire_str_round_trip :
  (∀ k s, from_wire_str s = Some k ↔ s = as_wire_str k) ∧
  (∀ k, k ∈ ALL_VARIANTS) ∧ NoDup ALL_VARIANTS.
Proof.
  split_and!.
  - intros k s. split.
    + unfold from_wire_str. intros ([s' k'] & Hf & ->)%fmap_Some_1.
      apply List.find_some in Hf as [Hin Hs%bool_decide_eq_true_1]. cbn in *. subst s'.
      repeat (destruct Hin as [[= <- <-]|Hin]; [reflexivity|]). done.
    + intros ->. destruct k; vm_compute; reflexivity.
  - intros []; apply (bool_decide_unpack _); vm_compute; exact I.
  - apply (bool_decide_unpack _). vm_compute. exact I.
Qed.

(** ** Paging *)
Section paging.
Context {J : JsonValue}.
Implicit Types (e : TranscriptEvent) (events : list TranscriptEvent).

Lemma cursor_before_spec c1 c2 :
  cursor_before c1 c2 = true ↔ key_le (cursor_key c1) (cursor_key c2) ∧ c1 ≠ c2.
Proof.
  destruct c1 as [l1 [u1]], c2 as [l2 [u2]]. unfold cursor_before, cursor_key. cbn.
  unfold pair_le. cbn. rewrite orb_true_iff, andb_true_iff, !N.ltb_lt, N.eqb_eq. split.
  - intros [H|[-> H]]; (split; [|intros [=]; lia]); [left|right]; lia.
  - intros [[[? ?]|[-> ?]] Hne]; [left; lia|right; split; [done|]].
    assert (u1 ≠ u2) by congruence. lia.
Qed.

(** What precedes an element in the sorted transcript is what [cursor_before]
    selects. *)
Lemma filter_before_sorted pre e post :
  StronglySorted event_order (pre ++ e :: post) →
  NoDup (te_cursor <$> pre ++ e :: post) →
  filter (λ x, cursor_before (te_cursor x) (te_cursor e) = true) (pre ++ e :: post) = pre.
Proof.
  induction pre as [|x pre IH]; cbn [app]; intros Hs Hn.
  - rewrite fmap_cons in Hn. apply list.NoDup_cons in Hn as [He _].
    inversion Hs as [|? ? Hs' Hall]; subst. rewrite filter_cons_False.
    + apply filter_none. intros x Hx Hb.
      apply cursor_before_spec in Hb as [Hle Hne].
      rewrite list.Forall_forall in Hall. specialize (Hall x Hx).
      apply Hne, cursor_key_inj. by apply (anti_symm key_le).
    + intros Hb. by apply cursor_before_spec in Hb as [_ Hb].
  - rewrite fmap_cons in Hn. apply list.NoDup_cons in Hn as [Hx Hn].
    inversion Hs as [|? ? Hs' Hall]; subst. rewrite filter_cons_True.
    + by rewrite IH.
    + apply cursor_before_spec. rewrite list.Forall_forall in Hall. split.
      * apply Hall. set_solver.
      * intros Heq. apply Hx. rewrite Heq. apply list_elem_of_fmap_2. set_solver.
Qed.

Lemma drop_excess {A} (l : list A) limit :
  (if (limit <? length l)%nat then drop (length l - limit) l else l) = drop (length l - limit) l.
Proof.
  destruct (Nat.ltb_spec limit (length l)) as [|Hle]; [done|].
  by replace (length l - limit)%nat with 0%nat by lia.
Qed.

Lemma page_before_sorted room events pre e post limit :
  NoDup (te_cursor <$> events) → sort_by event_order events = pre ++ e :: post →
  page_before room events (te_cursor e) limit = page_for room (drop (length pre - limit) pre).
Proof.
  intros Hn Hs. unfold page_before. rewrite (sort_by_filter event_order), Hs.
  rewrite filter_before_sorted.
  - by rewrite drop_excess.
  - rewrite <- Hs. apply (sort_by_sorted event_order).
  - rewrite <- Hs. by rewrite sort_by_perm.
Qed.

(** The scrollback loop a client runs: show a page, then ask for the page before
    its oldest event, until a page has none. *)
Fixpoint scrollback (fuel : nat) (room : RoomId) (events : list TranscriptEvent) (limit : nat)
    (page : TranscriptPage) : list TranscriptEvent :=
  match fuel, tp_older page with
  | S fuel, Some cursor =>
      scrollback fuel room events limit (page_before room events cursor limit) ++ tp_events page
  | _, _ => tp_events page
  end.

Lemma scrollback_prefix fuel room events limit pre post :
  NoDup (te_cursor <$> events) → sort_by event_order events = pre ++ post →
  (0 < limit)%nat → (length pre ≤ fuel)%nat →
  scrollback fuel room events limit (page_for room (drop (length pre - limit) pre)) = pre.
Proof.
  intros Hn. revert pre post. induction fuel as [|fuel IH]; intros pre post Hs Hl Hf.
  - destruct pre; [done|]. cbn in Hf. lia.
  - cbn [scrollback tp_older page_for]. set (k := (length pre - limit)%nat).
    destruct (drop k pre) as [|e rest] eqn:Hd.
    + destruct pre as [|x pre]; [done|].
      assert (length (drop k (x :: pre)) = 0%nat) as Hz by by rewrite Hd.
      rewrite length_drop in Hz. subst k. cbn in *. lia.
    + cbn [fmap option_fmap option_map head]. change (list.head (e :: rest)) with (Some e).
      cbn [fmap option_fmap option_map tp_events page_for].
      assert (pre = take k pre ++ e :: rest) as Hp by by rewrite <- Hd, take_drop.
      assert (length (take k pre) ≤ fuel)%nat as Hf'.
      { assert (length pre = length (take k pre) + S (length rest))%nat by
          (rewrite Hp at 1; rewrite length_app; done). lia. }
      assert (sort_by event_order events = take k pre ++ (e :: rest) ++ post) as Hs'.
      { rewrite Hs. rewrite Hp at 1. by rewrite <- app_assoc. }
      rewrite (page_before_sorted _ _ (take k pre) e (rest ++ post)) by done.
      rewrite (IH (take k pre) ((e :: rest) ++ post)) by done. done.
Qed.

(** Paging never skips or repeats: starting from the most recent page and
    following each page's oldest cursor back, with any positive page size, a
    client sees the whole transcript exactly once, in transcript order. *)
Theorem scrollback_exact room events limit fuel :
  NoDup (te_cursor <$> events) → (0 < limit)%nat → (length events ≤ fuel)%nat →
  scrollback fuel room events limit (page_recent room events limit) = sort_by event_order events ∧
  sort_by event_order events ≡ₚ events ∧ StronglySorted event_order (sort_by event_order events).
Proof.
  intros Hn Hl Hf. split; [|split; [apply sort_by_perm|apply (sort_by_sorted event_order)]].
  unfold page_recent. rewrite drop_excess. eapply (scrollback_prefix _ _ _ _ _ []); auto.
  - by rewrite app_nil_r.
  - by rewrite sort_by_perm.
Qed.
End paging.

(** ** Witnesses *)
Module CoreScenario.
Definition json : JsonValue := {| Json := unit; json_kind := λ _, None |}.
#[export] Existing Instance json.
Definition event_at (lamport id : N) : TranscriptEvent :=
  MkTranscriptEvent (MkId id) (MkId 9) (MkId 1) (MkId 1) Message 0 lamport ToAll ∅ None None None tt.
Definition events : list TranscriptEvent :=
  [event_at 3 30; event_at 1 10; event_at 2 21; event_at 2 20; event_at 5 50].
End CoreScenario.

Import CoreScenario.
Lemma scrollback_exact_witness :
  scrollback 5 (MkId 9) events 2 (page_recent (MkId 9) events 2) = sort_by event_order events ∧
  sort_by event_order events ≡ₚ events ∧ StronglySorted event_order (sort_by event_order events).
Proof.
  apply (scrollback_exact (MkId 9) events 2 5).
  - apply (bool_decide_unpack _). vm_compute. exact I.
  - lia.
  - vm_compute. lia.
Defined.
