(* ===== verification/WorkBoard.v ===== *)
(** The work board: [crates/airc-work/src/projection.rs], [projection/apply.rs]
    and the validations of event.rs.

    [Board] is [WorkBoardProjection]; a handler [apply_*] takes [&mut self], so
    it is an [ST Board ProjectionError unit]: it returns its result together
    with the board it leaves.  [WorkEnv] holds the two functions the source
    takes from third-party crates: SHA-256 and [Uuid::new_v5]. *)
From stdpp Require Import base gmap strings list sorting numbers.
From S2P Require Import Prelude WorkModel.

Class WorkEnv := {
  hash_bytes : list N → ContentHash;
  uuid_new_v5 : N → list N → N;
}.

(** ** Records of the projection *)
Record LaneRecord := MkLaneRecord {
  lr_lane_id : LaneId;
  lr_repo : RepoId;
  lr_title : rstring;
  lr_state : LaneState;
  lr_card_ids : list WorkCardId;
  lr_created_by : PeerId;
  lr_created_at_ms : N;
  lr_updated_at_ms : N;
}.
#[export] Instance eta_LaneRecord : Eta LaneRecord := λ l,
  MkLaneRecord (lr_lane_id l) (lr_repo l) (lr_title l) (lr_state l) (lr_card_ids l)
    (lr_created_by l) (lr_created_at_ms l) (lr_updated_at_ms l).

Record WorkspaceRecord := MkWorkspaceRecord { wk_lease : WorkspaceLease }.
#[export] Instance eta_WorkspaceRecord : Eta WorkspaceRecord := λ w,
  MkWorkspaceRecord (wk_lease w).

Record BranchTrackingRecord := MkBranchTrackingRecord {
  bt_branch : BranchName;
  bt_head : GitObjectId;
  bt_updated_at_ms : N;
}.

Record RepoTrackingRecord := MkRepoTrackingRecord {
  rt_repo : RepoId;
  rt_branches : gmap BranchName BranchTrackingRecord;
  rt_observed_commits : list GitCommitObserved;
  rt_dirty_states : list GitDirtyStateChanged;
}.
#[export] Instance eta_RepoTrackingRecord : Eta RepoTrackingRecord := λ r,
  MkRepoTrackingRecord (rt_repo r) (rt_branches r) (rt_observed_commits r)
    (rt_dirty_states r).
(** [RepoTrackingRecord::new]. *)
Definition RepoTrackingRecord_new (r : RepoId) : RepoTrackingRecord :=
  MkRepoTrackingRecord r ∅ [] [].

Record PullRequestRecord := MkPullRequestRecord {
  pq_pull_request : PullRequestRef;
  pq_check_state : option PrCheckState;
  pq_review_state : option PrReviewState;
  pq_merge_state : option PrMergeState;
  pq_updated_at_ms : N;
}.
#[export] Instance eta_PullRequestRecord : Eta PullRequestRecord := λ p,
  MkPullRequestRecord (pq_pull_request p) (pq_check_state p) (pq_review_state p)
    (pq_merge_state p) (pq_updated_at_ms p).

Definition from_check (event : PullRequestCheckSuiteChanged) : PullRequestRecord :=
  MkPullRequestRecord (pc_pull_request event) (Some (pc_state event)) None None
    (pc_changed_at_ms event).
Definition from_review (event : PullRequestReviewSubmitted) : PullRequestRecord :=
  MkPullRequestRecord (pv_pull_request event) None (Some (pv_state event)) None
    (pv_submitted_at_ms event).
Definition from_merge (event : PullRequestMergeStateChanged) : PullRequestRecord :=
  MkPullRequestRecord (pm_pull_request event) None None (Some (pm_state event))
    (pm_changed_at_ms event).
Definition apply_check (event : PullRequestCheckSuiteChanged) (self : PullRequestRecord) :=
  self <| pq_pull_request := pc_pull_request event |>
       <| pq_check_state := Some (pc_state event) |>
       <| pq_updated_at_ms := pc_changed_at_ms event |>.
Definition apply_review (event : PullRequestReviewSubmitted) (self : PullRequestRecord) :=
  self <| pq_pull_request := pv_pull_request event |>
       <| pq_review_state := Some (pv_state event) |>
       <| pq_updated_at_ms := pv_submitted_at_ms event |>.
Definition apply_merge (event : PullRequestMergeStateChanged) (self : PullRequestRecord) :=
  self <| pq_pull_request := pm_pull_request event |>
       <| pq_merge_state := Some (pm_state event) |>
       <| pq_updated_at_ms := pm_changed_at_ms event |>.

(** [format!("{repo}#{number}")]. *)
Definition pull_request_key (r : RepoId) (number : N) : rstring :=
  repo_str r ++ str "#" ++ show_N number.

Record ManagerHat := MkManagerHat {
  mh_repo : RepoId;
  mh_manager : PeerId;
  mh_expires_at_ms : N;
  mh_claimed_at_ms : N;
}.
Record AgentAvailabilityRecord := MkAgentAvailabilityRecord {
  aa_report : AgentAvailabilityReported;
  aa_expires_at_ms : N;
}.
Record StaleClaim := MkStaleClaim {
  sl_card_id : WorkCardId;
  sl_claim_id : ClaimId;
  sl_owner : PeerId;
  sl_expired_at_ms : N;
}.

Inductive ProjectionError :=
| DuplicateCard (c : WorkCardId)
| UnknownCard (c : WorkCardId)
| DuplicateLane (l : LaneId)
| UnknownLane (l : LaneId)
| UnknownWorkspace (w : WorkspaceId).
#[export] Instance ProjectionError_eq_dec : EqDecision ProjectionError.
Proof. solve_decision. Defined.

Definition is_missing_window_anchor (self : ProjectionError) : bool :=
  match self with
  | UnknownCard _ | UnknownLane _ | UnknownWorkspace _ => true
  | DuplicateCard _ | DuplicateLane _ => false
  end.

(** [WorkBoardProjection]. *)
Record Board := MkBoard {
  cards : gmap WorkCardId WorkCard;
  lanes : gmap LaneId LaneRecord;
  workspaces : gmap WorkspaceId WorkspaceRecord;
  workspace_pressure : gmap WorkspaceId WorkspacePressureReported;
  pending_drains : gmap (WorkspaceId * rstring) WorkspaceDrainRequested;
  drain_history : list WorkspaceDrainCompleted;
  repo_tracking : gmap RepoId RepoTrackingRecord;
  pull_requests : gmap rstring PullRequestRecord;
  manager_hats : gmap RepoId ManagerHat;
  agent_availability : gmap rstring AgentAvailabilityRecord;
  hygiene_reports : list HygieneReport;
  submission_reviews : gmap WorkReviewId WorkSubmissionReview;
  review_rejections : gmap WorkCardId RejectedWorkReview;
  review_requests : gmap WorkCardId SubmissionReviewRequested;
  review_request_rejections : gmap WorkCardId WorkReviewRejectionReason;
}.
#[export] Instance eta_Board : Eta Board := λ b,
  MkBoard (cards b) (lanes b) (workspaces b) (workspace_pressure b) (pending_drains b)
    (drain_history b) (repo_tracking b) (pull_requests b) (manager_hats b)
    (agent_availability b) (hygiene_reports b) (submission_reviews b)
    (review_rejections b) (review_requests b) (review_request_rejections b).

(** [WorkBoardProjection::new]. *)
Definition Board_new : Board := MkBoard ∅ ∅ ∅ ∅ ∅ [] ∅ ∅ ∅ ∅ [] ∅ ∅ ∅ ∅.

(** ** Read accessors *)
Definition card (b : Board) (id : WorkCardId) : option WorkCard := cards b !! id.
Definition card_ids (b : Board) : list WorkCardId := bt_keys (cards b).
Definition workspace (b : Board) (id : WorkspaceId) : option WorkspaceRecord := workspaces b !! id.
Definition review_request (b : Board) (id : WorkCardId) := review_requests b !! id.
Definition review_request_rejection (b : Board) (id : WorkCardId) :=
  review_request_rejections b !! id.
Definition submission_review (b : Board) (id : WorkReviewId) := submission_reviews b !! id.
Definition last_review_rejection (b : Board) (id : WorkCardId) := review_rejections b !! id.

Definition submission_reviews_for (b : Board) (s : SubmissionId) : list WorkSubmissionReview :=
  filter (λ r, wr_submission_id r = s) (bt_values (submission_reviews b)).
Definition submission_reviews_for_card (b : Board) (c : WorkCardId) : list WorkSubmissionReview :=
  filter (λ r, wr_card_id r = c) (bt_values (submission_reviews b)).
Definition workspace_pressure_of (b : Board) (w : WorkspaceId) := workspace_pressure b !! w.

Definition pending_drains_for (b : Board) (w : WorkspaceId) : list WorkspaceDrainRequested :=
  (filter (λ kv, kv.1.1 = w) (bt_entries (pending_drains b))).*2.
Definition drain_history_for (b : Board) (w : WorkspaceId) : list WorkspaceDrainCompleted :=
  filter (λ d, dn_workspace_id d = w) (drain_history b).
Definition repo_tracking_of (b : Board) (r : RepoId) := repo_tracking b !! r.
Definition pull_request_of (b : Board) (r : RepoId) (number : N) : option PullRequestRecord :=
  pull_requests b !! pull_request_key r number.

Definition review_cards_for (b : Board) (parent_id : WorkCardId) : list WorkCard :=
  filter (λ c, reviews c = Some parent_id) (bt_values (cards b)).

(** [stale_claims]: the [?] of the closure is the option bind. *)
Definition stale_claims (b : Board) (now_ms : N) : list StaleClaim :=
  omap (λ c,
    o ← owner c; cl ← claim_id c; expires_at_ms ← claim_expires_at_ms c;
    if (expires_at_ms <=? now_ms)%N
    then Some (MkStaleClaim (card_id c) cl o expires_at_ms) else None)
  (filter (λ c, is_terminal (state c) = false) (bt_values (cards b))).

(** [candidate_for_review]. *)
Definition candidate_for_review (b : Board) (review_card : WorkCardId)
    (requested : option SubmissionId) : result WorkReviewRejectionReason WorkSubmission :=
  review ← ok_or WrongReviewCard (card b review_card);
  parent_id ← ok_or WrongReviewCard (reviews review);
  parent ← ok_or UnknownSubmission (card b parent_id);
  let bound := srr_submission_id <$> review_request b review_card in
  if match requested, bound with
     | Some asked, Some actual => bool_decide (asked ≠ actual)
     | _, _ => false
     end
  then Err WrongReviewCard
  else
    ok_or UnknownSubmission
      match requested, bound with
      | Some id, _ | None, Some id =>
          List.find (λ s, bool_decide (ws_submission_id s = id)) (submissions parent)
      | None, None => head (submissions parent)
      end.

(** [BoardSnapshot] and [snapshot]. *)
Record BoardSnapshot := MkBoardSnapshot {
  bs_cards : list WorkCard;
  bs_submission_reviews : list WorkSubmissionReview;
  bs_lanes : list LaneRecord;
  bs_workspaces : list WorkspaceRecord;
  bs_repo_tracking : list RepoTrackingRecord;
  bs_pull_requests : list PullRequestRecord;
  bs_manager_hats : list ManagerHat;
  bs_agent_availability : list AgentAvailabilityRecord;
  bs_hygiene_reports : list HygieneReport;
}.
Definition snapshot (b : Board) : BoardSnapshot :=
  MkBoardSnapshot (bt_values (cards b)) (bt_values (submission_reviews b))
    (bt_values (lanes b)) (bt_values (workspaces b)) (bt_values (repo_tracking b))
    (bt_values (pull_requests b)) (bt_values (manager_hats b))
    (bt_values (agent_availability b)) (hygiene_reports b).

(** ** Validations (event.rs) *)
(** [WorkSubmission::same_candidate]. *)
Definition same_candidate (self other : WorkSubmission) : bool :=
  bool_decide (ws_submission_id self = ws_submission_id other)
  && bool_decide (ws_card_id self = ws_card_id other)
  && bool_decide (ws_claim_id self = ws_claim_id other)
  && bool_decide (ws_instance self = ws_instance other)
  && bool_decide (ws_base_sha self = ws_base_sha other)
  && bool_decide (ws_artifact self = ws_artifact other)
  && bool_decide (ws_publisher self = ws_publisher other).

(** [WorkSubmission::validate]. *)
Definition submission_validate (self : WorkSubmission) : result SubmissionRejectionReason unit :=
  let base := oid_str (ws_base_sha self) in
  if negb ((str_len base =? 40)%N || (str_len base =? 64)%N)
     || negb (forallb is_ascii_hexdigit base)
  then Err InvalidBase
  else if bool_decide (trim (ws_instance self) = []) || (512 <? str_len (ws_instance self))%N
  then Err InvalidInstance
  else if is_some_and (mr_mime (ws_artifact self)) (λ m, (128 <? str_len m)%N)
  then Err InvalidArtifact
  else Ok tt.

(** [WorkSubmission::validate_for_card]. *)
Definition validate_for_card (self : WorkSubmission) (card : WorkCard) :
    result SubmissionRejectionReason unit :=
  match List.find (λ s, bool_decide (ws_submission_id s = ws_submission_id self))
          (submissions card) with
  | Some prior =>
      if same_candidate prior self then Ok tt else Err SubmissionConflictingId
  | None =>
      _ ← submission_validate self;
      if bool_decide (card_id card ≠ ws_card_id self)
         || bool_decide (owner card ≠ Some (ws_publisher self))
         || bool_decide (claim_id card ≠ Some (ws_claim_id self))
      then Err SubmissionWrongClaim
      else if is_terminal (state card) then Err SettledCard
      else if is_none_or (claim_expires_at_ms card)
                (λ expiry, (expiry <=? ws_submitted_at_ms self)%N)
      then Err SubmissionExpiredClaim
      else Ok tt
  end.

(** [WorkSubmission::rejected]. *)
Definition submission_rejected (self : WorkSubmission) (reason : SubmissionRejectionReason) :
    RejectedSubmission :=
  MkRejectedSubmission (ws_submission_id self) (ws_card_id self) (ws_publisher self)
    (ws_submitted_at_ms self) reason.

(** [WorkSubmissionReview::same_judgement]. *)
Definition same_judgement (self other : WorkSubmissionReview) : bool :=
  bool_decide (wr_review_id self = wr_review_id other)
  && bool_decide (wr_card_id self = wr_card_id other)
  && bool_decide (wr_submission_id self = wr_submission_id other)
  && bool_decide (wr_artifact self = wr_artifact other)
  && bool_decide (wr_review_card_id self = wr_review_card_id other)
  && bool_decide (wr_review_claim_id self = wr_review_claim_id other)
  && bool_decide (wr_reviewer self = wr_reviewer other)
  && bool_decide (wr_outcome self = wr_outcome other)
  && bool_decide (wr_evidence self = wr_evidence other)
  && bool_decide (wr_evidence_text self = wr_evidence_text other).

Section validation.
Context {ENV : WorkEnv}.

(** [WorkSubmissionReview::validate]. *)
Definition review_validate (self : WorkSubmissionReview) : result WorkReviewRejectionReason unit :=
  if (mr_size_bytes (wr_evidence self) =? 0)%N
     || is_some_and (mr_mime (wr_evidence self)) (λ m, (128 <? str_len m)%N)
  then Err InvalidEvidence
  else
    match wr_evidence_text self with
    | None => Ok tt
    | Some text =>
        if bool_decide (trim text = [])
           || (32 * 1024 <? str_len text)%N
           || negb (str_len text =? mr_size_bytes (wr_evidence self))%N
           || bool_decide (hash_bytes (as_bytes text) ≠ mr_hash (wr_evidence self))
        then Err InvalidEvidence else Ok tt
    end.

(** [WorkSubmissionReview::validate_for_board]. *)
Definition review_validate_for_board (self : WorkSubmissionReview) (board : Board) :
    result WorkReviewRejectionReason unit :=
  match submission_review board (wr_review_id self) with
  | Some prior => if same_judgement prior self then Ok tt else Err ConflictingId
  | None =>
      _ ← review_validate self;
      parent ← ok_or UnknownSubmission (card board (wr_card_id self));
      submitted ← ok_or UnknownSubmission
        (List.find (λ c, bool_decide (ws_submission_id c = wr_submission_id self))
           (submissions parent));
      if bool_decide (wr_artifact self ≠ ws_artifact submitted) then Err ArtifactMismatch
      else
        review_card ← ok_or WrongReviewCard (card board (wr_review_card_id self));
        if bool_decide (reviews review_card ≠ Some (wr_card_id self))
           || bool_decide (repo review_card ≠ repo parent)
        then Err WrongReviewCard
        else if is_some_and (review_request board (wr_review_card_id self))
                  (λ r, bool_decide (srr_submission_id r ≠ wr_submission_id self))
        then Err WrongReviewCard
        else if bool_decide (owner review_card ≠ Some (wr_reviewer self))
                || bool_decide (claim_id review_card ≠ Some (wr_review_claim_id self))
        then Err WrongClaim
        else if is_settled (state review_card) then Err SettledReviewCard
        else if is_none_or (claim_expires_at_ms review_card)
                  (λ expiry, (expiry <=? wr_reviewed_at_ms self)%N)
        then Err ExpiredClaim
        else Ok tt
  end.

(** [WorkSubmissionReview::rejected]. *)
Definition review_rejected (self : WorkSubmissionReview) (reason : WorkReviewRejectionReason) :
    RejectedWorkReview :=
  MkRejectedWorkReview (wr_review_id self) (wr_card_id self) (wr_reviewer self)
    (wr_reviewed_at_ms self) reason.

Definition submission_review_card_id (parent : WorkCardId) (submission : SubmissionId) :
    WorkCardId :=
  MkId (uuid_new_v5 (uuid parent) (as_bytes (str "submission-review:" ++ show_id submission))).

(** [SubmissionReviewRequested::validate_for_board]. *)
Definition request_validate_for_board (self : SubmissionReviewRequested) (board : Board) :
    result WorkReviewRejectionReason unit :=
  parent_id ← ok_or WrongReviewCard (cc_reviews (srr_card self));
  parent ← ok_or UnknownSubmission (card board parent_id);
  submitted ← ok_or UnknownSubmission
    (List.find (λ s, bool_decide (ws_submission_id s = srr_submission_id self))
       (submissions parent));
  if bool_decide (cc_created_by (srr_card self) ≠ ws_publisher submitted)
  then Err RequestorMismatch
  else if bool_decide (cc_repo (srr_card self) ≠ repo parent)
          || bool_decide (cc_card_id (srr_card self)
                          ≠ submission_review_card_id parent_id (srr_submission_id self))
  then Err WrongReviewCard
  else
    match card board (cc_card_id (srr_card self)) with
    | None => Ok tt
    | Some existing =>
        if bool_decide (reviews existing ≠ Some parent_id)
           || bool_decide (repo existing ≠ cc_repo (srr_card self))
           || is_none_or (review_request board (cc_card_id (srr_card self)))
                (λ r, bool_decide (srr_submission_id r ≠ srr_submission_id self))
        then Err ConflictingId else Ok tt
    end.

End validation.

(** ** Claim lifecycle helpers (apply.rs) *)
Definition TAKEOVER_ON_RECORD_SINCE_MS : N := 1791129600000.

Definition end_claim (card : WorkCard) : WorkCard :=
  card <| owner := None |> <| claim_id := None |> <| claim_provenance := None |>
       <| claim_expires_at_ms := None |>.

Definition renew_owner_lease (card : WorkCard) (actor : PeerId) (at_ms : N) : WorkCard :=
  if bool_decide (owner card ≠ Some actor) || is_none (claim_id card) then card
  else
    match claim_expires_at_ms card, last_heartbeat_at_ms card with
    | Some expires, Some beat =>
        let renewed := saturating_add at_ms (saturating_sub expires beat) in
        if (expires <? renewed)%N
        then card <| claim_expires_at_ms := Some renewed |>
                  <| last_heartbeat_at_ms := Some at_ms |>
        else card
    | _, _ => card
    end.

(** ** Handlers *)
Abbreviation BoardM := (ST Board ProjectionError).

(** [let card = self.card_mut(id)?;] followed by updates of [*card]: the body is
    a function of the card, the card in the map is replaced by its value. *)
Definition card_mut (id : WorkCardId) (body : WorkCard → WorkCard) : BoardM unit := λ b,
  match cards b !! id with
  | Some c => (Ok tt, b <| cards := <[id := body c]> (cards b) |>)
  | None => (Err (UnknownCard id), b)
  end.
Definition workspace_mut (id : WorkspaceId) (body : WorkspaceRecord → WorkspaceRecord) :
    BoardM unit := λ b,
  match workspaces b !! id with
  | Some w => (Ok tt, b <| workspaces := <[id := body w]> (workspaces b) |>)
  | None => (Err (UnknownWorkspace id), b)
  end.
(** [repo_tracking_record] with the caller's update of the entry. *)
Definition repo_tracking_record (r : RepoId) (f : RepoTrackingRecord → RepoTrackingRecord) :
    BoardM unit :=
  st_modify (λ b,
    b <| repo_tracking :=
         <[r := f (default (RepoTrackingRecord_new r) (repo_tracking b !! r))]>
           (repo_tracking b) |>).

Definition fresh_card (e : CardCreated) : WorkCard :=
  MkWorkCard (cc_card_id e) (cc_repo e) (cc_title e) (cc_body e) (cc_priority e)
    (cc_lane_id e) CardOpen None None None None None None (cc_created_by e)
    (cc_created_at_ms e) (cc_created_at_ms e) (cc_reviews e) [] None.

Definition apply_card_created (e : CardCreated) : BoardM unit :=
  b ← st_gets id;
  if is_some (cards b !! cc_card_id e) then st_throw (DuplicateCard (cc_card_id e))
  else
    _ ← st_modify (λ b, b <| cards := <[cc_card_id e := fresh_card e]> (cards b) |>);
    match cc_lane_id e with
    | None => mret tt
    | Some l =>
        match lanes b !! l with
        | None => mret tt
        | Some lane =>
            st_modify (λ b, b <| lanes :=
              <[l := lane <| lr_card_ids := lr_card_ids lane ++ [cc_card_id e] |>]> (lanes b) |>)
        end
    end.

Definition claimed_card (e : WorkCardClaimed) (card : WorkCard) : WorkCard :=
  if is_some_and (claim_expires_at_ms card) (λ expires, (cl_claimed_at_ms e <? expires)%N)
  then card
  else if (TAKEOVER_ON_RECORD_SINCE_MS <=? cl_claimed_at_ms e)%N
          && is_some (claim_id card)
          && is_some_and (owner card) (λ o, bool_decide (o ≠ cl_owner e))
          && negb (is_terminal (state card))
  then card
  else
    card <| state := CardClaimed |>
         <| owner := Some (cl_owner e) |>
         <| claim_id := Some (cl_claim_id e) |>
         <| claim_provenance := Some (MkClaimProvenance (cl_origin e)
              (unwrap_or (cl_selected_at_ms e) (cl_claimed_at_ms e))) |>
         <| claim_expires_at_ms := Some (cl_claimed_at_ms e +w cl_ttl_ms e) |>
         <| last_heartbeat_at_ms := Some (cl_claimed_at_ms e) |>
         <| updated_at_ms := cl_claimed_at_ms e |>.
Definition apply_card_claimed (e : WorkCardClaimed) : BoardM unit :=
  card_mut (cl_card_id e) (claimed_card e).

Definition submitted_card (e : WorkSubmission) (card : WorkCard) : WorkCard :=
  if existsb (λ prior, same_candidate prior e) (submissions card) then card
  else
    match validate_for_card e card with
    | Err reason =>
        card <| last_submission_rejection := Some (submission_rejected e reason) |>
    | Ok _ =>
        let card1 := card <| submissions := e :: submissions card |>
                          <| updated_at_ms := N.max (updated_at_ms card) (ws_submitted_at_ms e) |> in
        if bool_decide (claim_id card1 = Some (ws_claim_id e))
        then renew_owner_lease card1 (ws_publisher e) (ws_submitted_at_ms e)
        else card1
    end.
Definition apply_work_submitted (e : WorkSubmission) : BoardM unit :=
  card_mut (ws_card_id e) (submitted_card e).

Definition heartbeat_card (e : ClaimHeartbeat) (card : WorkCard) : WorkCard :=
  if bool_decide (claim_id card ≠ Some (hb_claim_id e)) then card
  else
    card <| claim_expires_at_ms := Some (hb_heartbeat_at_ms e +w hb_ttl_ms e) |>
         <| last_heartbeat_at_ms := Some (hb_heartbeat_at_ms e) |>
         <| updated_at_ms := hb_heartbeat_at_ms e |>.
Definition apply_claim_heartbeat (e : ClaimHeartbeat) : BoardM unit :=
  card_mut (hb_card_id e) (heartbeat_card e).

Definition released_card (e : ClaimReleased) (card : WorkCard) : WorkCard :=
  if bool_decide (claim_id card ≠ Some (rl_claim_id e)) then card
  else
    let card1 := card <| state :=
      match state card with
      | CardClaimed | CardInProgress | CardBlocked => CardOpen
      | (CardOpen | CardReview | CardMerged | CardClosed) as s => s
      end |> in
    (end_claim card1) <| updated_at_ms := rl_released_at_ms e |>.
Definition apply_claim_released (e : ClaimReleased) : BoardM unit :=
  card_mut (rl_card_id e) (released_card e).

(** Whether an amendment's claim selection applies to the card it names. *)
Definition selection_applies (e : CardUpdated) (selection : ClaimSelection) (card : WorkCard) : bool :=
  bool_decide (claim_id card = Some (cs_claim_id selection))
  && bool_decide (owner card = Some (cs_owner selection))
  && bool_decide (cu_updated_by e = cs_owner selection)
  && is_some_and (claim_expires_at_ms card) (λ stop, (cs_selected_at_ms selection <? stop)%N)
  && negb (is_settled (state card))
  && is_none_or (claim_provenance card)
       (λ p, (cp_selected_at_ms p <=? cs_selected_at_ms selection)%N).

Definition updated_card (e : CardUpdated) (card : WorkCard) : WorkCard :=
  let card1 :=
    match cu_claim_selection e with
    | Some selection =>
        if selection_applies e selection card
        then card <| claim_provenance :=
               Some (MkClaimProvenance ClaimExplicit (cs_selected_at_ms selection)) |>
        else card
    | None => card
    end in
  let card2 := match cu_title e with Some t => card1 <| title := t |> | None => card1 end in
  let card3 := match cu_body e with Some t => card2 <| body := Some t |> | None => card2 end in
  let card4 := match cu_priority e with Some p => card3 <| priority := p |> | None => card3 end in
  card4 <| updated_at_ms := cu_updated_at_ms e |>.
Definition apply_card_updated (e : CardUpdated) : BoardM unit :=
  card_mut (cu_card_id e) (updated_card e).

Definition state_changed_card (e : CardStateChanged) (card : WorkCard) : WorkCard :=
  let card1 := card <| state := sc_state e |> <| updated_at_ms := sc_changed_at_ms e |> in
  if bool_decide (sc_state e = CardOpen) then end_claim card1
  else renew_owner_lease card1 (sc_changed_by e) (sc_changed_at_ms e).
Definition apply_card_state_changed (e : CardStateChanged) : BoardM unit :=
  card_mut (sc_card_id e) (state_changed_card e).

Definition apply_lane_created (e : LaneCreated) : BoardM unit :=
  b ← st_gets id;
  if is_some (lanes b !! lc_lane_id e) then st_throw (DuplicateLane (lc_lane_id e))
  else
    st_modify (λ b, b <| lanes :=
      <[lc_lane_id e := MkLaneRecord (lc_lane_id e) (lc_repo e) (lc_title e) (lc_state e) []
          (lc_created_by e) (lc_created_at_ms e) (lc_created_at_ms e)]> (lanes b) |>).

Definition apply_lane_state_changed (e : LaneStateChanged) : BoardM unit :=
  b ← st_gets id;
  match lanes b !! ls_lane_id e with
  | None => st_throw (UnknownLane (ls_lane_id e))
  | Some lane =>
      st_modify (λ b, b <| lanes :=
        <[ls_lane_id e := lane <| lr_state := ls_state e |>
                               <| lr_updated_at_ms := ls_changed_at_ms e |>]> (lanes b) |>)
  end.

Definition apply_workspace_requested (e : WorkspaceRequested) : BoardM unit :=
  b ← st_gets id;
  if is_some (cards b !! wq_card_id e) then
    st_modify (λ b, b <| workspaces := <[wq_workspace_id e :=
      (MkWorkspaceRecord (MkWorkspaceLease (wq_workspace_id e) (wq_card_id e) (wq_claim_id e)
         (wq_owner e) (wq_repo e) [] (wq_branch e) (wq_base e) WsRequested None
         (wq_requested_at_ms e) (wq_requested_at_ms e) None))]> (workspaces b) |>)
  else st_throw (UnknownCard (wq_card_id e)).

Definition apply_workspace_allocated (e : WorkspaceAllocated) : BoardM unit :=
  workspace_mut (wa_workspace_id e) (λ w,
    w <| wk_lease := (wk_lease w) <| wl_path := wa_path e |>
                                  <| wl_status := WsAllocated |>
                                  <| wl_heartbeat_at_ms := wa_allocated_at_ms e |> |>).

Definition apply_workspace_heartbeat (e : WorkspaceHeartbeat) : BoardM unit :=
  workspace_mut (wh_workspace_id e) (λ w,
    w <| wk_lease := (wk_lease w) <| wl_status := WsActive |>
                                  <| wl_disk_bytes := wh_disk_bytes e |>
                                  <| wl_heartbeat_at_ms := wh_heartbeat_at_ms e |> |>).

Definition apply_workspace_released (e : WorkspaceReleased) : BoardM unit :=
  workspace_mut (wx_workspace_id e) (λ w,
    w <| wk_lease := (wk_lease w) <| wl_status := WsReleased |>
                                  <| wl_released_at_ms := Some (wx_released_at_ms e) |> |>).

Definition apply_workspace_pressure_reported (e : WorkspacePressureReported) : BoardM unit :=
  st_modify (λ b, b <| workspace_pressure := <[wp_workspace_id e := e]> (workspace_pressure b) |>).

Definition apply_workspace_drain_requested (e : WorkspaceDrainRequested) : BoardM unit :=
  st_modify (λ b, b <| pending_drains :=
    <[(dr_workspace_id e, dr_policy_rule_id e) := e]> (pending_drains b) |>).

Definition apply_workspace_drain_completed (e : WorkspaceDrainCompleted) : BoardM unit :=
  st_modify (λ b,
    b <| pending_drains := delete (dn_workspace_id e, dn_policy_rule_id e) (pending_drains b) |>
      <| drain_history := drain_history b ++ [e] |>).

Definition apply_git_commit_observed (e : GitCommitObserved) : BoardM unit :=
  repo_tracking_record (gco_repo e) (λ r,
    let r1 := r <| rt_observed_commits := rt_observed_commits r ++ [e] |> in
    match gco_branch e with
    | Some branch =>
        r1 <| rt_branches := <[branch := MkBranchTrackingRecord branch (gco_commit e)
                                 (gco_observed_at_ms e)]> (rt_branches r1) |>
    | None => r1
    end).

Definition apply_git_branch_moved (e : GitBranchMoved) : BoardM unit :=
  repo_tracking_record (gbm_repo e) (λ r,
    r <| rt_branches := <[gbm_branch e := MkBranchTrackingRecord (gbm_branch e)
                            (gbm_new_head e) (gbm_moved_at_ms e)]> (rt_branches r) |>).

Definition apply_git_dirty_state_changed (e : GitDirtyStateChanged) : BoardM unit :=
  repo_tracking_record (gds_repo e) (λ r,
    r <| rt_dirty_states := rt_dirty_states r ++ [e] |>).

(** [entry(key).and_modify(f).or_insert_with(g)] on the pull-request map. *)
Definition pull_request_entry (pr : PullRequestRef) (f : PullRequestRecord → PullRequestRecord)
    (fresh : PullRequestRecord) : BoardM unit :=
  let key := pull_request_key (pr_repo pr) (pr_number pr) in
  st_modify (λ b, b <| pull_requests :=
    <[key := match pull_requests b !! key with Some r => f r | None => fresh end]>
      (pull_requests b) |>).

Definition apply_pull_request_check_suite_changed (e : PullRequestCheckSuiteChanged) : BoardM unit :=
  pull_request_entry (pc_pull_request e) (apply_check e) (from_check e).
Definition apply_pull_request_review_submitted (e : PullRequestReviewSubmitted) : BoardM unit :=
  pull_request_entry (pv_pull_request e) (apply_review e) (from_review e).
Definition apply_pull_request_merge_state_changed (e : PullRequestMergeStateChanged) : BoardM unit :=
  pull_request_entry (pm_pull_request e) (apply_merge e) (from_merge e).

Definition linked_card (e : PullRequestLinked) (card : WorkCard) : WorkCard :=
  card <| pull_request := Some (pl_pull_request e) |> <| state := CardReview |>
       <| updated_at_ms := pl_linked_at_ms e |>.
Definition apply_pull_request_linked (e : PullRequestLinked) : BoardM unit :=
  card_mut (pl_card_id e) (linked_card e).

Definition relinked_card (e : PullRequestRelinked) (card : WorkCard) : WorkCard :=
  if is_terminal (state card) then card
  else card <| pull_request := Some (pk_new_pull_request e) |> <| state := CardReview |>
            <| updated_at_ms := pk_relinked_at_ms e |>.
Definition apply_pull_request_relinked (e : PullRequestRelinked) : BoardM unit :=
  card_mut (pk_card_id e) (relinked_card e).

Definition merged_card (e : PullRequestMerged) (card : WorkCard) : WorkCard :=
  card <| pull_request := Some (pg_pull_request e) |> <| state := CardMerged |>
       <| updated_at_ms := pg_merged_at_ms e |>.
Definition apply_pull_request_merged (e : PullRequestMerged) : BoardM unit :=
  card_mut (pg_card_id e) (merged_card e).

Definition apply_hygiene_report_recorded (e : HygieneReportRecorded) : BoardM unit :=
  st_modify (λ b, b <| hygiene_reports := hygiene_reports b ++ [hg_report e] |>).

Definition apply_manager_hat_claimed (e : ManagerHatClaimed) : BoardM unit :=
  st_modify (λ b, b <| manager_hats :=
    <[mc_repo e := MkManagerHat (mc_repo e) (mc_manager e)
        (mc_claimed_at_ms e +w mc_ttl_ms e) (mc_claimed_at_ms e)]> (manager_hats b) |>).

Definition apply_manager_hat_released (e : ManagerHatReleased) : BoardM unit :=
  st_modify (λ b,
    match manager_hats b !! mx_repo e with
    | Some hat =>
        if bool_decide (mh_manager hat = mx_manager e)
        then b <| manager_hats := delete (mx_repo e) (manager_hats b) |> else b
    | None => b
    end).

(** [format!("{}:{}", e.repo, e.peer)]. *)
Definition agent_key (r : RepoId) (p : PeerId) : rstring :=
  repo_str r ++ str ":" ++ show_id p.

Definition apply_agent_availability_reported (e : AgentAvailabilityReported) : BoardM unit :=
  st_modify (λ b, b <| agent_availability :=
    <[agent_key (av_repo e) (av_peer e) :=
        MkAgentAvailabilityRecord e (av_reported_at_ms e +w av_ttl_ms e)]>
      (agent_availability b) |>).

Section apply.
Context {ENV : WorkEnv}.

(** The [SubmissionReviewRequested] arm of [apply]. *)
Definition apply_submission_review_requested (e : SubmissionReviewRequested) : BoardM unit :=
  b ← st_gets id;
  match request_validate_for_board e b with
  | Ok _ =>
      _ ← (if is_some (cards b !! cc_card_id (srr_card e)) then mret tt
           else
             _ ← apply_card_created (srr_card e);
             st_modify (λ b, b <| review_requests :=
               <[cc_card_id (srr_card e) := e]> (review_requests b) |>));
      st_modify (λ b, b <| review_request_rejections :=
        delete (cc_card_id (srr_card e)) (review_request_rejections b) |>)
  | Err reason =>
      st_modify (λ b, b <| review_request_rejections :=
        <[cc_card_id (srr_card e) := reason]> (review_request_rejections b) |>)
  end.

(** The [WorkSubmissionReviewed] arm of [apply]. *)
Definition apply_work_submission_reviewed (e : WorkSubmissionReview) : BoardM unit :=
  b ← st_gets id;
  match review_validate_for_board e b with
  | Ok _ =>
      if is_some (submission_reviews b !! wr_review_id e) then mret tt
      else st_modify (λ b, b <| submission_reviews :=
             <[wr_review_id e := e]> (submission_reviews b) |>)
  | Err reason =>
      st_modify (λ b, b <| review_rejections :=
        <[wr_card_id e := review_rejected e reason]> (review_rejections b) |>)
  end.

Definition apply (event : WorkEvent) : BoardM unit :=
  match event with
  | EvCardCreated e => apply_card_created e
  | EvCardUpdated e => apply_card_updated e
  | EvCardClaimed e => apply_card_claimed e
  | EvClaimHeartbeat e => apply_claim_heartbeat e
  | EvClaimReleased e => apply_claim_released e
  | EvCardStateChanged e => apply_card_state_changed e
  | EvWorkSubmitted e => apply_work_submitted e
  | EvSubmissionReviewRequested e => apply_submission_review_requested e
  | EvWorkSubmissionReviewed e => apply_work_submission_reviewed e
  | EvReviewRejected e =>
      st_modify (λ b, b <| review_rejections := <[rr_card_id e := e]> (review_rejections b) |>)
  | EvSubmissionRejected e =>
      card_mut (rs_card_id e) (λ card, card <| last_submission_rejection := Some e |>)
  | EvLaneCreated e => apply_lane_created e
  | EvLaneStateChanged e => apply_lane_state_changed e
  | EvWorkspaceRequested e => apply_workspace_requested e
  | EvWorkspaceAllocated e => apply_workspace_allocated e
  | EvWorkspaceHeartbeat e => apply_workspace_heartbeat e
  | EvWorkspaceReleased e => apply_workspace_released e
  | EvWorkspacePressureReported e => apply_workspace_pressure_reported e
  | EvWorkspaceDrainRequested e => apply_workspace_drain_requested e
  | EvWorkspaceDrainCompleted e => apply_workspace_drain_completed e
  | EvGitCommitObserved e => apply_git_commit_observed e
  | EvGitBranchMoved e => apply_git_branch_moved e
  | EvGitDirtyStateChanged e => apply_git_dirty_state_changed e
  | EvPullRequestCheckSuiteChanged e => apply_pull_request_check_suite_changed e
  | EvPullRequestReviewSubmitted e => apply_pull_request_review_submitted e
  | EvPullRequestMergeStateChanged e => apply_pull_request_merge_state_changed e
  | EvPullRequestLinked e => apply_pull_request_linked e
  | EvPullRequestRelinked e => apply_pull_request_relinked e
  | EvPullRequestMerged e => apply_pull_request_merged e
  | EvHygieneReportRecorded e => apply_hygiene_report_recorded e
  | EvManagerHatClaimed e => apply_manager_hat_claimed e
  | EvManagerHatReleased e => apply_manager_hat_released e
  | EvAgentAvailabilityReported e => apply_agent_availability_reported e
  | EvGoalCreated _ | EvGoalAchieved _ | EvGoalAbandoned _ | EvGoalDryTickRecorded _ => mret tt
  end.

(** [replay]: the fold of [apply], stopping at the first error. *)
Definition replay (events : list WorkEvent) : result ProjectionError Board :=
  match st_iter apply events Board_new with
  | (Ok _, projection) => Ok projection
  | (Err e, _) => Err e
  end.

(** [apply_windowed]. *)
Definition apply_windowed (event : WorkEvent) : BoardM unit := λ b,
  match apply event b with
  | (Ok _, b') => (Ok tt, b')
  | (Err error, b') => if is_missing_window_anchor error then (Ok tt, b') else (Err error, b')
  end.

Definition replay_window (events : list WorkEvent) : result ProjectionError Board :=
  match st_iter apply_windowed events Board_new with
  | (Ok _, projection) => Ok projection
  | (Err e, _) => Err e
  end.

End apply.
