(* ===== verification/WorkBoardFacts.v ===== *)
(** Correctness of the work board: the card life cycle as a state machine that
    [apply] refines, the board invariant, lease safety, review evidence. *)
From stdpp Require Import base gmap strings list sorting numbers.
From S2P Require Import Prelude WorkModel WorkBoard.

(** ** The abstract board: a map of independent cards

    [card_event] names the card an event is about and how that card evolves. *)
Definition card_event (ev : WorkEvent) : option (WorkCardId * (WorkCard → WorkCard)) :=
  match ev with
  | EvCardUpdated e => Some (cu_card_id e, updated_card e)
  | EvCardClaimed e => Some (cl_card_id e, claimed_card e)
  | EvClaimHeartbeat e => Some (hb_card_id e, heartbeat_card e)
  | EvClaimReleased e => Some (rl_card_id e, released_card e)
  | EvCardStateChanged e => Some (sc_card_id e, state_changed_card e)
  | EvWorkSubmitted e => Some (ws_card_id e, submitted_card e)
  | EvSubmissionRejected e =>
      Some (rs_card_id e, λ card, card <| last_submission_rejection := Some e |>)
  | EvPullRequestLinked e => Some (pl_card_id e, linked_card e)
  | EvPullRequestRelinked e => Some (pk_card_id e, relinked_card e)
  | EvPullRequestMerged e => Some (pg_card_id e, merged_card e)
  | _ => None
  end.

Section facts.
Context {ENV : WorkEnv}.

(** The card an event creates on this board, if any. *)
Definition card_creation (ev : WorkEvent) (b : Board) : option CardCreated :=
  match ev with
  | EvCardCreated e => if is_some (cards b !! cc_card_id e) then None else Some e
  | EvSubmissionReviewRequested e =>
      if is_ok (request_validate_for_board e b) && is_none (cards b !! cc_card_id (srr_card e))
      then Some (srr_card e) else None
  | _ => None
  end.

Lemma apply_card_event ev id f b :
  card_event ev = Some (id, f) → apply ev b = card_mut id f b.
Proof. intros H. destruct ev; cbn in H; by simplify_eq. Qed.

(** Open the handlers and the monad, nothing else. *)
Ltac open_handler :=
  cbn [apply];
  unfold apply_card_created, apply_submission_review_requested,
    apply_work_submission_reviewed, apply_lane_created, apply_lane_state_changed,
    apply_workspace_requested, apply_workspace_allocated, apply_workspace_heartbeat,
    apply_workspace_released, apply_workspace_pressure_reported,
    apply_workspace_drain_requested, apply_workspace_drain_completed,
    apply_git_commit_observed, apply_git_branch_moved, apply_git_dirty_state_changed,
    apply_pull_request_check_suite_changed, apply_pull_request_review_submitted,
    apply_pull_request_merge_state_changed, apply_hygiene_report_recorded,
    apply_manager_hat_claimed, apply_manager_hat_released,
    apply_agent_availability_reported, workspace_mut, repo_tracking_record,
    pull_request_entry, is_none, is_some,
    mbind, st_bind, mret, st_ret, st_gets, st_modify, st_throw, id.

(** A creation that succeeds: the card is inserted and its lane, when the board
    knows it, lists it. *)
Definition lane_push (e : CardCreated) (b : Board) : gmap LaneId LaneRecord :=
  match cc_lane_id e with
  | Some l =>
      match lanes b !! l with
      | Some lane =>
          <[l := lane <| lr_card_ids := lr_card_ids lane ++ [cc_card_id e] |>]> (lanes b)
      | None => lanes b
      end
  | None => lanes b
  end.

Lemma apply_card_created_run e b :
  apply_card_created e b =
    match cards b !! cc_card_id e with
    | Some _ => (Err (DuplicateCard (cc_card_id e)), b)
    | None => (Ok tt, b <| cards := <[cc_card_id e := fresh_card e]> (cards b) |>
                        <| lanes := lane_push e b |>)
    end.
Proof.
  unfold lane_push. open_handler.
  destruct (cards b !! _) eqn:Hc; [done|]. by destruct (cc_lane_id e) as [l|]; [destruct (lanes b !! l)|].
Qed.

Lemma apply_review_requested_run e b :
  apply_submission_review_requested e b =
    (Ok tt,
     let i := cc_card_id (srr_card e) in
     match request_validate_for_board e b with
     | Ok _ =>
         match cards b !! i with
         | Some _ => b <| review_request_rejections := delete i (review_request_rejections b) |>
         | None =>
             b <| cards := <[i := fresh_card (srr_card e)]> (cards b) |>
               <| lanes := lane_push (srr_card e) b |>
               <| review_requests := <[i := e]> (review_requests b) |>
               <| review_request_rejections := delete i (review_request_rejections b) |>
         end
     | Err reason =>
         b <| review_request_rejections := <[i := reason]> (review_request_rejections b) |>
     end).
Proof.
  unfold apply_submission_review_requested, mbind, st_bind, st_gets, st_modify, mret, st_ret, id, is_some.
  destruct (request_validate_for_board e b); [|done].
  destruct (cards b !! _) eqn:Hc; [done|]. by rewrite apply_card_created_run, Hc.
Qed.

(** [apply] refines the abstract board: its effect on the card map is the
    creation or the single-card step of the event. *)
Lemma apply_cards ev b :
  cards (apply ev b).2 =
    match card_event ev, card_creation ev b with
    | Some (i, f), _ => alter f i (cards b)
    | None, Some e => <[cc_card_id e := fresh_card e]> (cards b)
    | None, None => cards b
    end.
Proof.
  destruct (card_event ev) as [[i f]|] eqn:E.
  - rewrite (apply_card_event _ _ _ _ E). unfold card_mut.
    destruct (cards b !! i) eqn:Hc; cbn.
    + apply map_eq. intros j. destruct (decide (i = j)) as [<-|];
        [by rewrite lookup_insert_eq, lookup_alter_eq, Hc|].
      by rewrite lookup_insert_ne, lookup_alter_ne.
    + apply map_eq. intros j. destruct (decide (i = j)) as [<-|];
        [by rewrite lookup_alter_eq, Hc|]. by rewrite lookup_alter_ne.
  - destruct ev; try discriminate E; clear E; cbn [apply card_creation];
      rewrite ?apply_card_created_run, ?apply_review_requested_run;
      open_handler; try (repeat case_match; simplify_eq; reflexivity).
Qed.

Lemma apply_err_unchanged ev b x b' : apply ev b = (Err x, b') → b' = b.
Proof.
  destruct (card_event ev) as [[i f]|] eqn:E.
  - rewrite (apply_card_event _ _ _ _ E). unfold card_mut. case_match; intros; by simplify_eq.
  - destruct ev; try discriminate E; clear E; cbn [apply];
      rewrite ?apply_card_created_run, ?apply_review_requested_run;
      open_handler; repeat case_match; intros; by simplify_eq.
Qed.

(** The card at an id after an event. *)
Lemma apply_lookup ev b i :
  cards (apply ev b).2 !! i =
    match card_event ev, card_creation ev b with
    | Some (j, f), _ => if decide (j = i) then f <$> cards b !! i else cards b !! i
    | None, Some e => if decide (cc_card_id e = i) then Some (fresh_card e) else cards b !! i
    | None, None => cards b !! i
    end.
Proof.
  rewrite apply_cards. destruct (card_event ev) as [[j f]|].
  - case_decide; subst; [by rewrite lookup_alter_eq | by rewrite lookup_alter_ne].
  - destruct (card_creation ev b); [|done].
    case_decide; subst; [by rewrite lookup_insert_eq | by rewrite lookup_insert_ne].
Qed.

Lemma card_creation_fresh ev b e :
  card_creation ev b = Some e → cards b !! cc_card_id e = None ∧ card_event ev = None.
Proof.
  unfold card_creation, is_none, is_some. intros H. destruct ev; try done;
    repeat case_match; simplify_eq; try done.
  split; [|done]. destruct (cards b !! cc_card_id (srr_card _)) eqn:?; [|done].
  by rewrite andb_false_r in *.
Qed.

(** A card keeps evolving in place: an existing card is found again, as itself
    or as the event's step of it. *)
Lemma apply_lookup_Some ev b i c :
  cards b !! i = Some c →
  cards (apply ev b).2 !! i = Some c ∨
  ∃ f, card_event ev = Some (i, f) ∧ cards (apply ev b).2 !! i = Some (f c).
Proof.
  intros Hc. rewrite apply_lookup. destruct (card_event ev) as [[j f]|] eqn:E.
  - case_decide; subst; [|by left]. right. exists f. by rewrite Hc.
  - destruct (card_creation ev b) as [e|] eqn:Ec; [|by left].
    apply card_creation_fresh in Ec as [Hf _]. case_decide; [congruence|by left].
Qed.

(** Conversely, a card found after an event is untouched, stepped or new. *)
Lemma apply_lookup_inv ev b i c' :
  cards (apply ev b).2 !! i = Some c' →
  cards b !! i = Some c' ∨
  (∃ f c, card_event ev = Some (i, f) ∧ cards b !! i = Some c ∧ c' = f c) ∨
  (∃ e, card_creation ev b = Some e ∧ i = cc_card_id e ∧ c' = fresh_card e).
Proof.
  rewrite apply_lookup. destruct (card_event ev) as [[j f]|] eqn:E.
  - case_decide; subst; [|by left]. intros (c & Hc & ->)%fmap_Some_1. right; left. eauto.
  - destruct (card_creation ev b) as [e|] eqn:Ec; [|by left].
    case_decide; subst; [|by left]. intros [= <-]. right; right. eauto.
Qed.

End facts.

(** ** One step of one card *)

(** Case analysis on the event of a card step. *)
Ltac card_step_cases E :=
  match type of E with
  | card_event ?ev = Some (_, _) => destruct ev; cbn in E; simplify_eq
  end.

Ltac open_card :=
  unfold updated_card, claimed_card, heartbeat_card, released_card, state_changed_card,
    submitted_card, linked_card, relinked_card, merged_card, end_claim in *.

(** What [renew_owner_lease] may change. *)
Lemma renew_owner_lease_cases c a t :
  renew_owner_lease c a t = c ∨
  ∃ x h, claim_expires_at_ms c = Some x ∧ last_heartbeat_at_ms c = Some h ∧
    owner c = Some a ∧ is_Some (claim_id c) ∧
    (x < saturating_add t (saturating_sub x h))%N ∧
    renew_owner_lease c a t =
      c <| claim_expires_at_ms := Some (saturating_add t (saturating_sub x h)) |>
        <| last_heartbeat_at_ms := Some t |>.
Proof.
  unfold renew_owner_lease, is_none, is_some.
  destruct (claim_expires_at_ms c) as [x|] eqn:?, (last_heartbeat_at_ms c) as [h|] eqn:?;
    repeat case_match; auto; to_prop; try discriminate; right; eexists _, _; repeat split; eauto.
Qed.

(** [renewed c a t c']: a goal about [renew_owner_lease] by its two cases. *)
Ltac renew_cases :=
  match goal with
  | |- context [renew_owner_lease ?c ?a ?t] =>
      let x := fresh "x" in let h := fresh "h" in
      destruct (renew_owner_lease_cases c a t) as [-> | (x & h & ? & ? & ? & ? & ? & ->)]
  end.

(** A field that no handler body writes. *)
Ltac solve_frame :=
  open_card; cbn; repeat (case_match; cbn); try done; renew_cases; done.

Record same_identity (c c' : WorkCard) : Prop := {
  si_card_id : card_id c' = card_id c;
  si_repo : repo c' = repo c;
  si_lane : lane_id c' = lane_id c;
  si_created_by : created_by c' = created_by c;
  si_created_at : created_at_ms c' = created_at_ms c;
  si_reviews : reviews c' = reviews c;
}.

Lemma card_step_identity ev i f c : card_event ev = Some (i, f) → same_identity c (f c).
Proof. intros E. card_step_cases E; split; solve_frame. Qed.

Lemma card_step_submissions ev i f c :
  card_event ev = Some (i, f) →
  submissions (f c) = submissions c ∨
  ∃ s, ev = EvWorkSubmitted s ∧ submissions (f c) = s :: submissions c ∧
    validate_for_card s c = Ok tt ∧
    existsb (λ prior, same_candidate prior s) (submissions c) = false.
Proof.
  intros E. card_step_cases E; try (left; solve_frame).
  unfold submitted_card. destruct (existsb _ _) eqn:Hex; [by left|].
  destruct (validate_for_card e c) as [[]|] eqn:Hv; [|by left].
  right. exists e. repeat split; auto. case_match; [|done]. cbn. renew_cases; done.
Qed.
