(* ===== verification/WorkBoardInv.v ===== *)
(** The board invariant and what follows from it: who holds a card, what a
    submission that was accepted satisfies, what redelivery does. *)
From stdpp Require Import base gmap strings list sorting numbers.
From S2P Require Import Prelude WorkModel WorkBoard WorkBoardFacts.

(** A card under key [i]: the four claim fields stand or fall together, an Open
    card is held by nobody, accepted submissions are this card's and carry
    distinct ids. *)
Record card_wf (i : WorkCardId) (c : WorkCard) : Prop := {
  cw_id : card_id c = i;
  cw_owner : is_Some (owner c) ↔ is_Some (claim_id c);
  cw_expiry : is_Some (claim_expires_at_ms c) ↔ is_Some (claim_id c);
  cw_provenance : is_Some (claim_provenance c) ↔ is_Some (claim_id c);
  cw_heartbeat : is_Some (claim_id c) → is_Some (last_heartbeat_at_ms c);
  cw_open : state c = CardOpen → claim_id c = None;
  cw_sub_ids : NoDup (ws_submission_id <$> submissions c);
  cw_sub_card : Forall (λ s, ws_card_id s = i ∧ submission_validate s = Ok tt) (submissions c);
}.

Definition cards_wf (b : Board) : Prop := ∀ i c, cards b !! i = Some c → card_wf i c.

Lemma fresh_card_wf e : card_wf (cc_card_id e) (fresh_card e).
Proof.
  split; cbn; try done; constructor.
Qed.

Lemma find_submission_None s c :
  List.find (λ p, bool_decide (ws_submission_id p = ws_submission_id s)) (submissions c) = None →
  ws_submission_id s ∉ (ws_submission_id <$> submissions c).
Proof.
  intros Hf (p & Hs & Hp)%list_elem_of_fmap.
  apply list_elem_of_In in Hp. pose proof (List.find_none _ _ Hf p Hp) as H.
  apply bool_decide_eq_false in H. congruence.
Qed.

Lemma same_candidate_refl s : same_candidate s s = true.
Proof. unfold same_candidate. by rewrite !bool_decide_true. Qed.

Lemma same_candidate_id s t : same_candidate s t = true → ws_submission_id s = ws_submission_id t.
Proof. unfold same_candidate. intros H. by to_prop. Qed.

(** What admission of a NEW submission rests on. *)
Lemma validate_for_card_new s c :
  validate_for_card s c = Ok tt →
  existsb (λ prior, same_candidate prior s) (submissions c) = false →
  ws_submission_id s ∉ (ws_submission_id <$> submissions c) ∧
  submission_validate s = Ok tt ∧ card_id c = ws_card_id s ∧
  owner c = Some (ws_publisher s) ∧ claim_id c = Some (ws_claim_id s) ∧
  is_terminal (state c) = false ∧
  ∃ x, claim_expires_at_ms c = Some x ∧ (ws_submitted_at_ms s < x)%N.
Proof.
  unfold validate_for_card. destruct (List.find _ _) as [prior|] eqn:Hf.
  - destruct (same_candidate prior s) eqn:Hs; [|done]. intros _ Hex.
    apply List.find_some in Hf as [Hin _].
    assert (existsb (λ p, same_candidate p s) (submissions c) = true); [|congruence].
    apply existsb_exists. eauto.
  - intros Hv _. split; [by apply find_submission_None|].
    destruct (submission_validate s) as [[]|]; [|done]. cbn in Hv.
    repeat case_match; simplify_eq; to_prop. unfold is_none_or in *.
    destruct (claim_expires_at_ms c); [|done]. to_prop. repeat split; eauto.
Qed.

Ltac wf_fields W := destruct W as [Wid Wown Wexp Wprov Whb Wopen Wids Wsub].

Lemma end_claim_wf i c :
  card_wf i c → card_wf i (end_claim c).
Proof.
  intros W. wf_fields W. split; cbn; auto; try done; by intros [? [=]].
Qed.

Lemma renew_owner_lease_wf i c a t : card_wf i c → card_wf i (renew_owner_lease c a t).
Proof.
  intros W. destruct (renew_owner_lease_cases c a t) as [->|(x & h & Hx & Hh & Ho & Hc & _ & ->)];
    [done|].
  wf_fields W. split; cbn; auto; naive_solver.
Qed.

(** Replacing the descriptive fields keeps the invariant. *)
Lemma card_wf_frame i c c' :
  card_wf i c → card_id c' = card_id c → owner c' = owner c → claim_id c' = claim_id c →
  claim_expires_at_ms c' = claim_expires_at_ms c →
  is_Some (claim_provenance c') ↔ is_Some (claim_provenance c) →
  last_heartbeat_at_ms c' = last_heartbeat_at_ms c → submissions c' = submissions c →
  (state c' = CardOpen → claim_id c = None) → card_wf i c'.
Proof.
  intros W ? Ho Hc He Hp Hh Hs Hst. wf_fields W.
  split; rewrite ?Ho, ?Hc, ?He, ?Hh, ?Hs, ?Hp; auto. congruence.
Qed.

Lemma claimed_card_wf i e c : card_wf i c → card_wf i (claimed_card e c).
Proof.
  intros W. unfold claimed_card. case_match; [done|]. case_match; [done|].
  wf_fields W. split; cbn; auto; try (by split; intros; eauto); done.
Qed.

Lemma heartbeat_card_wf i e c : card_wf i c → card_wf i (heartbeat_card e c).
Proof.
  intros W. unfold heartbeat_card. case_match; [done|]. to_prop.
  wf_fields W. split; cbn; auto; naive_solver.
Qed.

Lemma released_card_wf i e c : card_wf i c → card_wf i (released_card e c).
Proof.
  intros W. unfold released_card. case_match; [done|]. wf_fields W.
  split; cbn; auto; try done; by intros [? [=]].
Qed.

Lemma state_changed_card_wf i e c : card_wf i c → card_wf i (state_changed_card e c).
Proof.
  intros W. unfold state_changed_card. case_match; to_prop.
  - wf_fields W. split; cbn; auto; try done; by intros [? [=]].
  - apply renew_owner_lease_wf. eapply card_wf_frame; eauto. done.
Qed.

Lemma updated_card_wf i e c : card_wf i c → card_wf i (updated_card e c).
Proof.
  intros W. eapply card_wf_frame; eauto; unfold updated_card;
    try (repeat (case_match; cbn); done).
  - destruct (cu_claim_selection e) as [sel|]; [|by repeat (case_match; cbn)].
    destruct (selection_applies e sel c) eqn:Hs; [|by repeat (case_match; cbn)].
    unfold selection_applies in Hs. to_prop.
    assert (is_Some (claim_provenance c)) by (apply (cw_provenance i c W); eauto).
    by repeat (case_match; cbn); split; eauto.
  - intros H. apply (cw_open i c W). rewrite <- H. repeat (case_match; cbn); done.
Qed.

Lemma submitted_card_wf i e c :
  ws_card_id e = i → card_wf i c → card_wf i (submitted_card e c).
Proof.
  intros Hi W. unfold submitted_card. destruct (existsb _ _) eqn:Hex; [done|].
  destruct (validate_for_card e c) as [[]|] eqn:Hv.
  - pose proof (validate_for_card_new e c Hv Hex) as (Hn & Hval & _).
    assert (card_wf i (c <| submissions := e :: submissions c |>
                         <| updated_at_ms := N.max (updated_at_ms c) (ws_submitted_at_ms e) |>)).
    { wf_fields W. split; cbn; auto; by constructor. }
    case_match; [by apply renew_owner_lease_wf|done].
  - by eapply card_wf_frame; eauto; apply (cw_open i c W).
Qed.

#[local] Hint Resolve claimed_card_wf heartbeat_card_wf released_card_wf
  state_changed_card_wf updated_card_wf submitted_card_wf : airc.

(** Every step of a card keeps it well formed. *)
Lemma card_step_wf ev i f c : card_event ev = Some (i, f) → card_wf i c → card_wf i (f c).
Proof.
  intros E W. pose proof (cw_open i c W).
  card_step_cases E; auto with airc; eapply card_wf_frame; eauto;
    unfold linked_card, relinked_card, merged_card; by repeat (case_match; cbn).
Qed.

Section inv.
Context {ENV : WorkEnv}.

Lemma apply_cards_wf ev b : cards_wf b → cards_wf (apply ev b).2.
Proof.
  intros W i c' Hc. apply apply_lookup_inv in Hc as [Hc|[(f & c & E & Hc & ->)|(e & _ & -> & ->)]].
  - auto.
  - eapply card_step_wf; eauto.
  - apply fresh_card_wf.
Qed.

(** ** Growth: cards persist, keep their identity, and only gain submissions *)
Definition board_le (b b' : Board) : Prop :=
  ∀ i c, cards b !! i = Some c →
    ∃ c', cards b' !! i = Some c' ∧ same_identity c c' ∧ submissions c `suffix_of` submissions c'.

Lemma same_identity_refl c : same_identity c c.
Proof. by split. Qed.

Lemma same_identity_trans c1 c2 c3 :
  same_identity c1 c2 → same_identity c2 c3 → same_identity c1 c3.
Proof. intros [] []. split; congruence. Qed.

Lemma board_le_refl b : board_le b b.
Proof. intros i c Hc. exists c. auto using same_identity_refl. Qed.

Lemma board_le_trans b1 b2 b3 : board_le b1 b2 → board_le b2 b3 → board_le b1 b3.
Proof.
  intros H12 H23 i c Hc. destruct (H12 i c Hc) as (c2 & Hc2 & I12 & S12).
  destruct (H23 i c2 Hc2) as (c3 & Hc3 & I23 & S23).
  exists c3. split; [done|]. split; [by eapply same_identity_trans|]. by etrans.
Qed.

Lemma card_step_suffix ev i f c :
  card_event ev = Some (i, f) → submissions c `suffix_of` submissions (f c).
Proof.
  intros E. destruct (card_step_submissions ev i f c E) as [->|(s & _ & -> & _)]; [done|].
  by apply suffix_cons_r.
Qed.

Lemma apply_board_le ev b : board_le b (apply ev b).2.
Proof.
  intros i c Hc. destruct (apply_lookup_Some ev b i c Hc) as [H|(f & E & H)].
  - exists c. auto using same_identity_refl.
  - exists (f c). eauto using card_step_identity, card_step_suffix.
Qed.

Lemma board_le_cards b b' : cards b' = cards b → board_le b b'.
Proof. intros E i c Hc. exists c. rewrite E. auto using same_identity_refl. Qed.

(** ** Evidence the board holds *)
Definition review_accepted (b : Board) (r : WorkReviewId) (v : WorkSubmissionReview) : Prop :=
  wr_review_id v = r ∧ review_validate v = Ok tt ∧
  (∃ parent s, cards b !! wr_card_id v = Some parent ∧ s ∈ submissions parent ∧
     ws_submission_id s = wr_submission_id v ∧ ws_artifact s = wr_artifact v) ∧
  (∃ rc, cards b !! wr_review_card_id v = Some rc ∧ reviews rc = Some (wr_card_id v)).

Definition request_bound (b : Board) (i : WorkCardId) (q : SubmissionReviewRequested) : Prop :=
  ∃ parent_id rc parent s,
    cards b !! i = Some rc ∧ reviews rc = Some parent_id ∧
    cards b !! parent_id = Some parent ∧ s ∈ submissions parent ∧
    ws_submission_id s = srr_submission_id q ∧ repo rc = repo parent ∧
    created_by rc = ws_publisher s ∧
    i = submission_review_card_id parent_id (srr_submission_id q).

Lemma review_accepted_mono b b' r v :
  board_le b b' → review_accepted b r v → review_accepted b' r v.
Proof.
  intros L (? & ? & (p & s & Hp & Hs & ? & ?) & (rc & Hrc & Hr)).
  destruct (L _ _ Hp) as (p' & Hp' & _ & Suf). destruct (L _ _ Hrc) as (rc' & Hrc' & I & _).
  split_and!; auto.
  - exists p', s. split_and!; auto. by eapply elem_of_suffix.
  - exists rc'. split; [done|]. by rewrite (si_reviews _ _ I).
Qed.

Lemma request_bound_mono b b' i q :
  board_le b b' → request_bound b i q → request_bound b' i q.
Proof.
  intros L (pid & rc & p & s & Hrc & Hr & Hp & Hs & ? & ? & ? & ?).
  destruct (L _ _ Hp) as (p' & Hp' & I' & Suf). destruct (L _ _ Hrc) as (rc' & Hrc' & I & _).
  exists pid, rc', p', s. destruct I, I'. split_and!; auto; try congruence.
  by eapply elem_of_suffix.
Qed.

Lemma find_some_dec {A} (P : A → Prop) `{!∀ x, Decision (P x)} l x :
  List.find (λ y, bool_decide (P y)) l = Some x → x ∈ l ∧ P x.
Proof.
  intros Hf. apply List.find_some in Hf as [Hin Hp].
  split; [by apply list_elem_of_In | by apply bool_decide_eq_true_1 in Hp].
Qed.

(** What acceptance of a NEW review rests on. *)
Lemma review_validate_for_board_new v b :
  review_validate_for_board v b = Ok tt → submission_reviews b !! wr_review_id v = None →
  review_accepted b (wr_review_id v) v ∧
  ∃ rc x, cards b !! wr_review_card_id v = Some rc ∧
    owner rc = Some (wr_reviewer v) ∧ claim_id rc = Some (wr_review_claim_id v) ∧
    is_settled (state rc) = false ∧
    claim_expires_at_ms rc = Some x ∧ (wr_reviewed_at_ms v < x)%N.
Proof.
  unfold review_validate_for_board, submission_review, card. intros Hok Hn. rewrite Hn in Hok.
  destruct (review_validate v) as [[]|] eqn:Hv; [|done]. cbn in Hok.
  destruct (cards b !! wr_card_id v) as [parent|] eqn:Hp; [|done]. cbn in Hok.
  destruct (List.find _ _) as [s|] eqn:Hf; [|done]. cbn in Hok.
  apply find_some_dec in Hf as [Hs Hsid].
  case_match; [done|]. to_prop.
  destruct (cards b !! wr_review_card_id v) as [rc|] eqn:Hrc; [|done]. cbn in Hok.
  repeat (case_match; [done|]). unfold is_none_or in *.
  destruct (claim_expires_at_ms rc) as [x|] eqn:Hx; [|done]. to_prop.
  split; [split_and!; eauto|]. { exists parent, s. auto. }
  exists rc, x. split_and!; auto.
Qed.

Lemma request_validate_for_board_parent q b :
  request_validate_for_board q b = Ok tt →
  ∃ parent_id parent s,
    cc_reviews (srr_card q) = Some parent_id ∧ cards b !! parent_id = Some parent ∧
    s ∈ submissions parent ∧ ws_submission_id s = srr_submission_id q ∧
    cc_created_by (srr_card q) = ws_publisher s ∧ cc_repo (srr_card q) = repo parent ∧
    cc_card_id (srr_card q) = submission_review_card_id parent_id (srr_submission_id q).
Proof.
  unfold request_validate_for_board, card. intros Hok.
  destruct (cc_reviews (srr_card q)) as [pid|] eqn:Hr; [|done]. cbn in Hok.
  destruct (cards b !! pid) as [parent|] eqn:Hp; [|done]. cbn in Hok.
  destruct (List.find _ _) as [s|] eqn:Hf; [|done]. cbn in Hok.
  apply find_some_dec in Hf as [Hs Hsid].
  case_match; [done|]. case_match; [done|]. to_prop. exists pid, parent, s. split_and!; auto.
Qed.

(** ** The whole invariant *)
Record board_wf (b : Board) : Prop := {
  bw_cards : cards_wf b;
  bw_lanes l r : lanes b !! l = Some r →
    lr_lane_id r = l ∧ NoDup (lr_card_ids r) ∧
    ∀ i, i ∈ lr_card_ids r → ∃ c, cards b !! i = Some c ∧ lane_id c = Some l;
  bw_workspaces w r : workspaces b !! w = Some r →
    wl_workspace_id (wk_lease r) = w ∧ is_Some (cards b !! wl_card_id (wk_lease r));
  bw_pressure w e : workspace_pressure b !! w = Some e → wp_workspace_id e = w;
  bw_drains k e : pending_drains b !! k = Some e → k = (dr_workspace_id e, dr_policy_rule_id e);
  bw_repos r t : repo_tracking b !! r = Some t →
    rt_repo t = r ∧ ∀ br x, rt_branches t !! br = Some x → bt_branch x = br;
  bw_prs k p : pull_requests b !! k = Some p →
    k = pull_request_key (pr_repo (pq_pull_request p)) (pr_number (pq_pull_request p));
  bw_hats r h : manager_hats b !! r = Some h → mh_repo h = r;
  bw_agents k a : agent_availability b !! k = Some a →
    k = agent_key (av_repo (aa_report a)) (av_peer (aa_report a));
  bw_reviews r v : submission_reviews b !! r = Some v → review_accepted b r v;
  bw_requests i q : review_requests b !! i = Some q → request_bound b i q;
}.

Lemma Board_new_wf : board_wf Board_new.
Proof. split; try (intros ?? Hl; cbn in Hl; by rewrite lookup_empty in Hl). Qed.

(** The card map grows, everything else stands. *)
Lemma board_wf_grow b cs :
  board_wf b → cards_wf (b <| cards := cs |>) → board_le b (b <| cards := cs |>) →
  board_wf (b <| cards := cs |>).
Proof.
  intros W Hc L. split; cbn; try apply W; [done|..].
  - intros l r Hl. destruct (bw_lanes b W l r Hl) as (? & ? & Hin). split_and!; auto.
    intros i Hi. destruct (Hin i Hi) as (c & Hi1 & Hi2). destruct (L i c Hi1) as (c' & ? & I & _).
    exists c'. split; [done|]. by rewrite (si_lane _ _ I).
  - intros w r Hw. destruct (bw_workspaces b W w r Hw) as [? [c Hi]]. split; [done|].
    destruct (L _ c Hi) as (c' & ? & _). by exists c'.
  - intros r v Hv. eapply review_accepted_mono; [exact L|]. by apply W.
  - intros i q Hq. eapply request_bound_mono; [exact L|]. by apply W.
Qed.

(** A component other than the cards is replaced: every field of the invariant
    but that component's stands as it was. *)
Ltac wf_component :=
  match goal with
  | W : board_wf _ |- _ =>
      split; cbn; try exact (bw_cards _ W); try exact (bw_lanes _ W);
      try exact (bw_workspaces _ W); try exact (bw_pressure _ W); try exact (bw_drains _ W);
      try exact (bw_repos _ W); try exact (bw_prs _ W); try exact (bw_hats _ W);
      try exact (bw_agents _ W); try exact (bw_reviews _ W); try exact (bw_requests _ W)
  end.
Ltac wf_lookup :=
  match goal with
  | W : board_wf _ |- _ =>
      intros ?? Hl; rewrite ?lookup_insert_Some, ?lookup_delete_Some in Hl;
      first [destruct Hl as [[<- <-]|[_ Hl]] | destruct Hl as [_ Hl]]; [done|..];
      by apply W
  end.

Lemma card_event_board_wf ev i f b :
  card_event ev = Some (i, f) → board_wf b → board_wf (apply ev b).2.
Proof.
  intros E W. pose proof (apply_board_le ev b) as L.
  pose proof (apply_cards_wf ev b (bw_cards b W)) as Wc. revert L Wc.
  rewrite (apply_card_event _ _ _ _ E). unfold card_mut.
  destruct (cards b !! i); cbn [snd]; [|done]. intros L Wc. by apply board_wf_grow.
Qed.

Lemma created_board_wf e b :
  cards b !! cc_card_id e = None → board_wf b →
  board_wf (b <| cards := <[cc_card_id e := fresh_card e]> (cards b) |> <| lanes := lane_push e b |>).
Proof.
  intros Hn W. set (b1 := b <| cards := <[cc_card_id e := fresh_card e]> (cards b) |>).
  assert (board_wf b1) as W1.
  { apply board_wf_grow; [done|..].
    - intros i c. cbn. rewrite lookup_insert_Some. intros [[<- <-]|[_ Hc]];
        [apply fresh_card_wf | by apply W].
    - intros i c Hc. exists c. cbn. rewrite lookup_insert_ne by congruence.
      auto using same_identity_refl. }
  change (board_wf (b1 <| lanes := lane_push e b |>)).
  wf_component. unfold lane_push. intros l r Hl.
  destruct (cc_lane_id e) as [l0|] eqn:El; [|by apply (bw_lanes b1 W1)].
  destruct (lanes b !! l0) as [lane|] eqn:Hl0; [|by apply (bw_lanes b1 W1)].
  apply lookup_insert_Some in Hl as [[<- <-]|[_ Hl]]; [|by apply (bw_lanes b1 W1)].
  destruct (bw_lanes b1 W1 l0 lane Hl0) as (? & Hnd & Hin). cbn. split_and!; [done| |].
  - apply list.NoDup_app. split_and!; [done| |apply NoDup_singleton].
    intros i Hi ->%list_elem_of_singleton.
    destruct (bw_lanes b W l0 lane Hl0) as (_ & _ & Hin'). destruct (Hin' _ Hi) as (? & ? & _).
    congruence.
  - intros i [Hi| ->%list_elem_of_singleton]%elem_of_app; [by apply Hin|].
    exists (fresh_card e). by rewrite lookup_insert_eq.
Qed.

Lemma review_requested_board_wf e b : board_wf b → board_wf (apply_submission_review_requested e b).2.
Proof.
  intros W. rewrite apply_review_requested_run. cbn [snd].
  destruct (request_validate_for_board e b) as [[]|] eqn:Hv; [|wf_component].
  destruct (cards b !! _) eqn:Hc; [wf_component|].
  pose proof (created_board_wf _ b Hc W) as W1.
  set (b1 := b <| cards := _ |> <| lanes := _ |>) in *.
  assert (request_bound b1 (cc_card_id (srr_card e)) e).
  { apply request_validate_for_board_parent in Hv as (pid & p & s & ? & Hp & ? & ? & ? & ? & ?).
    exists pid, (fresh_card (srr_card e)), p, s. cbn.
    rewrite lookup_insert_eq, lookup_insert_ne by congruence. split_and!; auto. }
  wf_component. intros i q. cbn.
  rewrite lookup_insert_Some. intros [[<- <-]|[_ Hq]]; [done|]. by apply (bw_requests b1 W1).
Qed.

Lemma reviewed_board_wf e b : board_wf b → board_wf (apply_work_submission_reviewed e b).2.
Proof.
  intros W. unfold apply_work_submission_reviewed, mbind, st_bind, st_gets, st_modify, mret, st_ret, id, is_some.
  destruct (review_validate_for_board e b) as [[]|] eqn:Hv; [|wf_component].
  destruct (submission_reviews b !! _) eqn:Hr; [done|]. cbn [snd].
  apply review_validate_for_board_new in Hv as [Ha _]; [|done].
  wf_component. intros r v. rewrite lookup_insert_Some.
  intros [[<- <-]|[_ Hq]]; [done|]. by apply (bw_reviews b W).
Qed.

Lemma repo_tracking_wf r f b :
  board_wf b →
  (∀ t, rt_repo (f t) = rt_repo t) →
  (∀ t, (∀ br x, rt_branches t !! br = Some x → bt_branch x = br) →
        ∀ br x, rt_branches (f t) !! br = Some x → bt_branch x = br) →
  board_wf (repo_tracking_record r f b).2.
Proof.
  intros W Hf1 Hf2. unfold repo_tracking_record, st_modify. cbn [snd]. wf_component.
  intros r' t. rewrite lookup_insert_Some. intros [[<- <-]|[_ Ht]]; [|by apply W].
  rewrite Hf1. destruct (repo_tracking b !! r) as [t|] eqn:Ht; cbn.
  - destruct (bw_repos b W r t Ht) as [? ?]. split; [done|]. by apply Hf2.
  - split; [done|]. apply Hf2. intros br x Hx. cbn in Hx. by rewrite lookup_empty in Hx.
Qed.

Lemma pull_request_entry_wf pr f fresh b :
  board_wf b → pq_pull_request fresh = pr → (∀ r, pq_pull_request (f r) = pr) →
  board_wf (pull_request_entry pr f fresh b).2.
Proof.
  intros W Hn Hf. unfold pull_request_entry, st_modify. cbn [snd]. wf_component.
  intros k p. rewrite lookup_insert_Some. intros [[<- <-]|[_ Hp]]; [|by apply W].
  case_match; by rewrite ?Hf, ?Hn.
Qed.

Lemma workspace_mut_wf w f b :
  board_wf b →
  (∀ r, wl_workspace_id (wk_lease (f r)) = wl_workspace_id (wk_lease r) ∧
        wl_card_id (wk_lease (f r)) = wl_card_id (wk_lease r)) →
  board_wf (workspace_mut w f b).2.
Proof.
  intros W Hf. unfold workspace_mut. destruct (workspaces b !! w) as [r|] eqn:Hr; [|done].
  cbn [snd]. wf_component. intros w' r'. rewrite lookup_insert_Some.
  intros [[<- <-]|[_ Hw]]; [|by apply W]. destruct (Hf r) as [-> ->]. by apply (bw_workspaces b W).
Qed.

Lemma lane_state_wf l s t lane b :
  board_wf b → lanes b !! l = Some lane →
  board_wf (b <| lanes := <[l := lane <| lr_state := s |> <| lr_updated_at_ms := t |>]> (lanes b) |>).
Proof.
  intros W Hl. wf_component. intros l' r. rewrite lookup_insert_Some.
  intros [[<- <-]|[_ Hr]]; [|by apply W]. by apply (bw_lanes b W l lane Hl).
Qed.

#[local] Hint Resolve review_requested_board_wf reviewed_board_wf : airc.

Lemma apply_board_wf ev b : board_wf b → board_wf (apply ev b).2.
Proof.
  intros W. destruct (card_event ev) as [[i f]|] eqn:E; [by eapply card_event_board_wf|].
  destruct ev; try discriminate E; clear E; cbn [apply]; auto with airc;
    try (apply repo_tracking_wf; [done|..]; intros t;
         [by repeat (case_match; cbn) | intros Hb br x; repeat (case_match; cbn); try done;
          cbn; rewrite ?lookup_insert_Some; naive_solver]);
    try (apply pull_request_entry_wf; done);
    try (apply workspace_mut_wf; [done|]; by intros []);
    unfold apply_lane_created, apply_lane_state_changed, apply_workspace_requested,
      apply_workspace_pressure_reported, apply_workspace_drain_requested,
      apply_workspace_drain_completed, apply_hygiene_report_recorded,
      apply_manager_hat_claimed, apply_manager_hat_released,
      apply_agent_availability_reported, mbind, st_bind, st_gets, st_modify, st_throw, mret,
      st_ret, id, is_some; cbn [snd]; try done; try (wf_component; wf_lookup).
  - rewrite apply_card_created_run. destruct (cards b !! _) eqn:Hc; [done|]. by apply created_board_wf.
  - destruct (lanes b !! _) eqn:Hl; [done|]. cbn [snd]. wf_component.
    intros l r. rewrite lookup_insert_Some. intros [[<- <-]|[_ Hr]]; [|by apply W].
    cbn. split_and!; [done|apply NoDup_nil_2|]. intros i Hi. by apply elem_of_nil in Hi.
  - destruct (lanes b !! _) eqn:Hl; [|done]. by apply lane_state_wf.
  - destruct (cards b !! wq_card_id e) eqn:Hc; [|done]. cbn [snd]. wf_component.
    intros w0 r. rewrite lookup_insert_Some. intros [[<- <-]|[_ Hr]]; [|by apply W].
    cbn. split; [done|]. by eexists.
  - wf_component. intros k q. rewrite lookup_delete_Some. intros [_ Hq]. by apply (bw_drains b W).
  - repeat case_match; auto. wf_component.
    intros r h Hr. apply lookup_delete_Some in Hr as [_ Hr]. by apply (bw_hats b W).
Qed.

End inv.
