(* ===== verification/WorkBoardSpec.v ===== *)
(** Specifications of the work board against which [WorkBoardThms] judges it —
    the history of a card, the error table of [apply], the redeliverable events,
    what a lease may rely on — and the lemmas that connect them to [apply]. *)
From stdpp Require Import base gmap strings list sorting numbers.
From S2P Require Import Prelude WorkModel WorkBoard WorkBoardFacts WorkBoardInv.

(** ** Abstract specifications *)

(** The history of one card: the steps of the events that name it, in order. *)
Definition card_history (i : WorkCardId) (events : list WorkEvent) (c : WorkCard) : WorkCard :=
  foldl (λ c ev, match card_event ev with
                 | Some (j, f) => if decide (j = i) then f c else c
                 | None => c
                 end) c events.

(** The error an event raises on a board, if any. *)
Definition apply_error (ev : WorkEvent) (b : Board) : option ProjectionError :=
  match card_event ev, ev with
  | Some (i, _), _ => if cards b !! i then None else Some (UnknownCard i)
  | None, EvCardCreated e =>
      if cards b !! cc_card_id e then Some (DuplicateCard (cc_card_id e)) else None
  | None, EvLaneCreated e =>
      if lanes b !! lc_lane_id e then Some (DuplicateLane (lc_lane_id e)) else None
  | None, EvLaneStateChanged e =>
      if lanes b !! ls_lane_id e then None else Some (UnknownLane (ls_lane_id e))
  | None, EvWorkspaceRequested e =>
      if cards b !! wq_card_id e then None else Some (UnknownCard (wq_card_id e))
  | None, EvWorkspaceAllocated e =>
      if workspaces b !! wa_workspace_id e then None else Some (UnknownWorkspace (wa_workspace_id e))
  | None, EvWorkspaceHeartbeat e =>
      if workspaces b !! wh_workspace_id e then None else Some (UnknownWorkspace (wh_workspace_id e))
  | None, EvWorkspaceReleased e =>
      if workspaces b !! wx_workspace_id e then None else Some (UnknownWorkspace (wx_workspace_id e))
  | _, _ => None
  end.

(** Events the log may deliver twice without effect: all but the four that
    append to a history list. *)
Definition redeliverable (ev : WorkEvent) : bool :=
  match ev with
  | EvWorkspaceDrainCompleted _ | EvGitCommitObserved _ | EvGitDirtyStateChanged _
  | EvHygieneReportRecorded _ => false
  | _ => true
  end.

(** Events under which a lease on card [i], claim [cl], good until [x], must
    hold: they happen before [x], none ends the claim, and a heartbeat of the
    claim asks for no less time. *)
Definition respects_lease (i : WorkCardId) (cl : ClaimId) (x : N) (ev : WorkEvent) : Prop :=
  (occurred_at_ms ev < x)%N ∧
  match ev with
  | EvClaimReleased e => ¬ (rl_card_id e = i ∧ rl_claim_id e = cl)
  | EvCardStateChanged e => ¬ (sc_card_id e = i ∧ sc_state e = CardOpen)
  | EvClaimHeartbeat e =>
      hb_card_id e = i → hb_claim_id e = cl → (x ≤ hb_heartbeat_at_ms e +w hb_ttl_ms e)%N
  | _ => True
  end.

(** ** Lemmas *)
Section lemmas.
Context {ENV : WorkEnv}.
Implicit Types (b : Board) (ev : WorkEvent) (c : WorkCard).

Lemma apply_windowed_board ev b : (apply_windowed ev b).2 = (apply ev b).2.
Proof. unfold apply_windowed. by destruct (apply ev b) as [[[]|e] b']; [|destruct e]. Qed.

Lemma apply_windowed_ok ev b b' : apply ev b = (Ok tt, b') → apply_windowed ev b = (Ok tt, b').
Proof. unfold apply_windowed. by intros ->. Qed.

(** An invariant of [apply] is one of both replays. *)
Lemma run_inv (P : Board → Prop) events b :
  (∀ ev b, P b → P (apply ev b).2) → P b →
  P (st_iter apply events b).2 ∧ P (st_iter apply_windowed events b).2.
Proof.
  intros Hs Hb. split; apply st_iter_inv; auto.
  intros ev b0 Hb0. rewrite apply_windowed_board. auto.
Qed.

(** A property of what replay ends with, from one of what the loop leaves. *)
Lemma replay_result (P : Board → Prop) events :
  P (st_iter apply events Board_new).2 ∧ P (st_iter apply_windowed events Board_new).2 →
  (∀ b, replay events = Ok b → P b) ∧ (∀ b, replay_window events = Ok b → P b).
Proof.
  unfold replay, replay_window. intros [H1 H2].
  split; intros b Hb; repeat case_match; simplify_result; done.
Qed.

Lemma apply_error_run ev b :
  (apply ev b).1 = match apply_error ev b with Some e => Err e | None => Ok tt end.
Proof.
  unfold apply_error. destruct (card_event ev) as [[i f]|] eqn:E.
  - rewrite (apply_card_event _ _ _ _ E). unfold card_mut. by case_match.
  - destruct ev; try discriminate E; clear E; cbn [apply];
      rewrite ?apply_card_created_run, ?apply_review_requested_run; try done;
      unfold apply_work_submission_reviewed, apply_lane_created, apply_lane_state_changed,
        apply_workspace_requested, apply_workspace_allocated, apply_workspace_heartbeat,
        apply_workspace_released, workspace_mut, is_some,
        mbind, st_bind, mret, st_ret, st_gets, st_modify, st_throw, id;
      by repeat case_match.
Qed.

Lemma apply_history ev b i c :
  cards b !! i = Some c → cards (apply ev b).2 !! i = Some (card_history i [ev] c).
Proof.
  intros Hc. rewrite apply_lookup. cbn. destruct (card_event ev) as [[j f]|] eqn:E.
  - case_decide; subst; by rewrite ?Hc.
  - destruct (card_creation ev b) as [e|] eqn:Ec; [|done].
    apply card_creation_fresh in Ec as [Hf _]. case_decide; [congruence|done].
Qed.

Lemma run_history (step : WorkEvent → BoardM unit) events b i c :
  (∀ ev b, (step ev b).2 = (apply ev b).2) → (st_iter step events b).1 = Ok tt →
  cards b !! i = Some c →
  cards (st_iter step events b).2 !! i = Some (card_history i events c).
Proof.
  intros Hstep. revert b c. induction events as [|ev events IH]; intros b c; [done|].
  cbn [st_iter]. unfold mbind, st_bind. pose proof (Hstep ev b) as Hb.
  destruct (step ev b) as [[[]|e] b'] eqn:Hs; cbn in *; [|done]. subst b'. intros Hok Hc.
  apply (apply_history ev) in Hc. apply (IH _ _ Hok Hc).
Qed.

(** How the holder of a card changes in one step. *)
Lemma card_step_holder ev i f c :
  card_event ev = Some (i, f) →
  (owner (f c) = owner c ∧ claim_id (f c) = claim_id c) ∨
  (∃ e, ev = EvCardClaimed e ∧ owner (f c) = Some (cl_owner e) ∧
     claim_id (f c) = Some (cl_claim_id e) ∧
     (∀ x, claim_expires_at_ms c = Some x → (x ≤ cl_claimed_at_ms e)%N) ∧
     (claim_id c = None ∨ owner c = None ∨ owner c = Some (cl_owner e) ∨
      is_terminal (state c) = true ∨ (cl_claimed_at_ms e < TAKEOVER_ON_RECORD_SINCE_MS)%N)) ∨
  (∃ e, ev = EvClaimReleased e ∧ claim_id c = Some (rl_claim_id e) ∧
     owner (f c) = None ∧ claim_id (f c) = None) ∨
  (∃ e, ev = EvCardStateChanged e ∧ sc_state e = CardOpen ∧
     owner (f c) = None ∧ claim_id (f c) = None).
Proof.
  intros E. card_step_cases E; try (left; split; solve_frame).
  - unfold claimed_card. destruct (is_some_and (claim_expires_at_ms c) _) eqn:H1; [by left|].
    destruct (_ && _ && _ && _) eqn:H2; [by left|]. right; left. exists e. cbn.
    split_and!; auto.
    + intros x Hx. rewrite Hx in H1. cbn in H1. by to_prop.
    + destruct (claim_id c); [|by left]. destruct (owner c) as [o|]; [|by right; left].
      rewrite !andb_false_iff in H2. cbn in H2. destruct H2 as [[[H2|H2]|H2]|H2]; to_prop; naive_solver.
  - unfold released_card. case_bool_decide; [by left|]. right; right; left. exists e. cbn.
    split_and!; auto.
  - unfold state_changed_card. case_bool_decide; [by right; right; right; exists e|].
    left. renew_cases; done.
Qed.

(** A live lease survives one respectful event. *)
Lemma card_step_lease ev i f c cl x y o :
  card_event ev = Some (i, f) → respects_lease i cl x ev →
  owner c = Some o → claim_id c = Some cl → claim_expires_at_ms c = Some y → (x ≤ y)%N →
  ∃ y', owner (f c) = Some o ∧ claim_id (f c) = Some cl ∧
        claim_expires_at_ms (f c) = Some y' ∧ (x ≤ y')%N.
Proof.
  intros E [Ht Hr] Ho Hc Hy Hxy. card_step_cases E; cbn in Ht;
    try (exists y; split_and!; auto; open_card; cbn; repeat (case_match; cbn); done).
  - exists y. unfold claimed_card. rewrite Hy. cbn.
    rewrite (proj2 (N.ltb_lt _ _)) by lia. done.
  - unfold heartbeat_card. case_bool_decide as Hn; [by exists y|].
    simplify_eq. eexists. cbn. split_and!; eauto.
  - unfold released_card. case_bool_decide as Hn; [by exists y|].
    destruct Hr. split; congruence.
  - unfold state_changed_card. case_bool_decide as Hn; [by destruct Hr|].
    renew_cases; cbn in *; eexists; split_and!; eauto. simplify_eq; lia.
  - unfold submitted_card. case_match; [by exists y|]. case_match; [|by exists y].
    case_bool_decide; [|by exists y]. renew_cases; cbn in *; eexists; split_and!; eauto.
    simplify_eq; lia.
Qed.

Lemma saturating_renew_stable t d :
  (saturating_add t d <? saturating_add t (saturating_sub (saturating_add t d) t))%N = false.
Proof. apply N.ltb_ge. u64_lia. Qed.

Lemma renew_owner_lease_idemp c a t :
  renew_owner_lease (renew_owner_lease c a t) a t = renew_owner_lease c a t.
Proof.
  destruct (renew_owner_lease_cases c a t) as [E|(x & h & Hx & Hh & Ho & [cl Hc] & Hlt & E)];
    [by rewrite !E|].
  rewrite E. generalize (saturating_renew_stable t (saturating_sub x h)).
  generalize (saturating_add t (saturating_sub x h)) as z. intros z Hz.
  unfold renew_owner_lease. cbn [owner claim_id claim_expires_at_ms last_heartbeat_at_ms upd].
  rewrite Ho, Hc, bool_decide_false, Hz by (intros H; congruence). done.
Qed.

(** Steps of a card are idempotent. *)
Lemma claimed_card_idemp e c : claimed_card e (claimed_card e c) = claimed_card e c.
Proof.
  unfold claimed_card at 2 3. destruct (is_some_and (claim_expires_at_ms c) _) eqn:H1;
    [unfold claimed_card; by rewrite H1|].
  destruct (_ && _ && _ && _) eqn:H2; [unfold claimed_card; by rewrite H1, H2|].
  unfold claimed_card. cbn -[wadd N.ltb N.leb TAKEOVER_ON_RECORD_SINCE_MS].
  case_match; [done|].
  rewrite (bool_decide_false (cl_owner e ≠ cl_owner e)) by naive_solver.
  rewrite andb_false_r, andb_false_l. done.
Qed.

Lemma existsb_self s l :
  existsb (λ prior, same_candidate prior s) (s :: l) = true.
Proof. cbn. by rewrite same_candidate_refl. Qed.

Lemma renew_submissions c a t : submissions (renew_owner_lease c a t) = submissions c.
Proof. renew_cases; done. Qed.

Lemma submitted_card_idemp e c : submitted_card e (submitted_card e c) = submitted_card e c.
Proof.
  unfold submitted_card at 2 3. destruct (existsb _ _) eqn:Hex;
    [unfold submitted_card; by rewrite Hex|].
  destruct (validate_for_card e c) eqn:Hv.
  - cbn zeta. match goal with |- submitted_card e ?x = _ => set (c' := x) end.
    assert (submissions c' = e :: submissions c) as Hs
      by (subst c'; case_match; rewrite ?renew_submissions; done).
    unfold submitted_card. by rewrite Hs, existsb_self.
  - match goal with |- submitted_card e ?x = _ => set (c' := x) end.
    assert (submissions c' = submissions c) as Hs by done.
    assert (validate_for_card e c' = validate_for_card e c) as Hv' by done.
    unfold submitted_card. by rewrite Hs, Hex, Hv', Hv.
Qed.

Lemma state_changed_card_idemp e c :
  state_changed_card e (state_changed_card e c) = state_changed_card e c.
Proof.
  unfold state_changed_card. case_bool_decide as Ho; [done|].
  pose proof (renew_owner_lease_idemp (c <| state := sc_state e |> <| updated_at_ms := sc_changed_at_ms e |>)
    (sc_changed_by e) (sc_changed_at_ms e)) as Hi.
  assert (∀ c', state c' = sc_state e → updated_at_ms c' = sc_changed_at_ms e →
    c' <| state := sc_state e |> <| updated_at_ms := sc_changed_at_ms e |> = c') as Hid.
  { intros [] ??; cbn in *; congruence. }
  rewrite Hid; [done|renew_cases; done..].
Qed.

Lemma updated_card_idemp e c : updated_card e (updated_card e c) = updated_card e c.
Proof.
  destruct c, e as [[sel|] ? [t|] [bd|] [pr|] ? ?]; try reflexivity;
    unfold updated_card, selection_applies; cbn -[N.leb];
    match goal with |- context [if ?t then _ else _] =>
      lazymatch t with context [MkWorkCard] => fail | _ => destruct t eqn:Ht end end; cbn -[N.leb];
    cbn -[N.leb] in Ht; rewrite ?Ht; try done;
    rewrite !andb_true_iff in Ht; destruct Ht as [[[[[-> ->] ->] ->] ->] _];
    cbn -[N.leb]; by rewrite N.leb_refl.
Qed.

Lemma card_step_idemp ev i f c : card_event ev = Some (i, f) → f (f c) = f c.
Proof.
  intros E. card_step_cases E;
    auto using claimed_card_idemp, submitted_card_idemp, state_changed_card_idemp, updated_card_idemp.
  - unfold heartbeat_card. case_bool_decide as H; [by repeat case_bool_decide|].
    case_bool_decide as H2; [by destruct H2|done].
  - unfold released_card. case_bool_decide as H; [by repeat case_bool_decide|].
    case_bool_decide as H2; [done|by cbn in H2].
  - unfold relinked_card. destruct (is_terminal (state c)) eqn:H; [by rewrite H|done].
Qed.

(** An accepted request, delivered again, is still valid: the card it created is
    the one it names. *)
Lemma request_again e b :
  request_validate_for_board e b = Ok tt → cards b !! cc_card_id (srr_card e) = None →
  request_validate_for_board e
    (b <| cards := <[cc_card_id (srr_card e) := fresh_card (srr_card e)]> (cards b) |>
       <| lanes := lane_push (srr_card e) b |>
       <| review_requests := <[cc_card_id (srr_card e) := e]> (review_requests b) |>
       <| review_request_rejections := delete (cc_card_id (srr_card e)) (review_request_rejections b) |>)
  = Ok tt.
Proof.
  unfold request_validate_for_board, card, review_request. cbn [cards review_requests upd eta_of].
  intros Hv Hc. revert Hv. rewrite lookup_insert_eq.
  destruct (cc_reviews (srr_card e)) as [pid|] eqn:Hr; [|done]. cbn.
  destruct (decide (cc_card_id (srr_card e) = pid)) as [<-|Hne]; [by rewrite Hc|].
  rewrite (lookup_insert_ne (cards b) _ pid) by done. destruct (cards b !! pid) as [p|]; [|done]. cbn.
  destruct (List.find _ _) as [s|]; [|done]. cbn. case_match; [done|]. case_match; [done|].
  intros _. rewrite !lookup_insert_eq. cbn. rewrite ?Hr. repeat (rewrite bool_decide_false by (intros Hn; by apply Hn)). done.
Qed.

Lemma request_rejections_irrelevant e b m :
  request_validate_for_board e (b <| review_request_rejections := m |>) =
  request_validate_for_board e b.
Proof. done. Qed.

Lemma review_rejections_irrelevant e b m :
  review_validate_for_board e (b <| review_rejections := m |>) = review_validate_for_board e b.
Proof. done. Qed.

Lemma same_judgement_refl v : same_judgement v v = true.
Proof. unfold same_judgement. by rewrite !bool_decide_true. Qed.

Lemma card_mut_idemp i f b :
  (∀ c, f (f c) = f c) → (card_mut i f (card_mut i f b).2).2 = (card_mut i f b).2.
Proof.
  intros Hf. unfold card_mut at 2 3. destruct (cards b !! i) as [c|] eqn:Hc; cbn [snd].
  - unfold card_mut. cbn. rewrite lookup_insert_eq. cbn. by rewrite insert_insert_eq, Hf.
  - unfold card_mut. by rewrite Hc.
Qed.

Lemma workspace_mut_idemp i f b :
  (∀ w, f (f w) = f w) → (workspace_mut i f (workspace_mut i f b).2).2 = (workspace_mut i f b).2.
Proof.
  intros Hf. unfold workspace_mut at 2 3. destruct (workspaces b !! i) as [c|] eqn:Hc; cbn [snd].
  - unfold workspace_mut. cbn. rewrite lookup_insert_eq. cbn. by rewrite insert_insert_eq, Hf.
  - unfold workspace_mut. by rewrite Hc.
Qed.

Lemma pull_request_entry_idemp pr f fresh b :
  (∀ r, f (f r) = f r) → f fresh = fresh →
  (pull_request_entry pr f fresh (pull_request_entry pr f fresh b).2).2 =
  (pull_request_entry pr f fresh b).2.
Proof.
  intros Hf Hn. unfold pull_request_entry, st_modify. cbn. rewrite lookup_insert_eq.
  rewrite insert_insert_eq. case_match; by rewrite ?Hf, ?Hn.
Qed.

Lemma created_idemp e b :
  (apply_card_created e (apply_card_created e b).2).2 = (apply_card_created e b).2.
Proof.
  rewrite (apply_card_created_run e b). destruct (cards b !! _) eqn:Hc; cbn [snd].
  - by rewrite apply_card_created_run, Hc.
  - rewrite apply_card_created_run. cbn. by rewrite lookup_insert_eq.
Qed.

Lemma review_requested_idemp e b :
  (apply_submission_review_requested e (apply_submission_review_requested e b).2).2 =
  (apply_submission_review_requested e b).2.
Proof.
  rewrite (apply_review_requested_run e b). cbn [snd].
  destruct (request_validate_for_board e b) as [[]|r] eqn:Hv;
    [destruct (cards b !! cc_card_id (srr_card e)) eqn:Hc|]; rewrite apply_review_requested_run; cbn [snd].
  - rewrite request_rejections_irrelevant, Hv. cbn. rewrite Hc. by rewrite delete_delete_eq.
  - rewrite request_again by done. cbn. rewrite lookup_insert_eq. by rewrite delete_delete_eq.
  - rewrite request_rejections_irrelevant, Hv. cbn. by rewrite insert_insert_eq.
Qed.

Lemma reviewed_idemp e b :
  (apply_work_submission_reviewed e (apply_work_submission_reviewed e b).2).2 =
  (apply_work_submission_reviewed e b).2.
Proof.
  unfold apply_work_submission_reviewed, mbind, st_bind, st_gets, st_modify, mret, st_ret, id, is_some.
  destruct (review_validate_for_board e b) as [[]|r] eqn:Hv;
    [destruct (submission_reviews b !! wr_review_id e) eqn:Hr|]; cbn [snd].
  - by rewrite Hv, Hr.
  - unfold review_validate_for_board, submission_review. cbn.
    by rewrite lookup_insert_eq, same_judgement_refl.
  - rewrite review_rejections_irrelevant, Hv. cbn. by rewrite insert_insert_eq.
Qed.

Lemma lane_created_idemp e b :
  (apply_lane_created e (apply_lane_created e b).2).2 = (apply_lane_created e b).2.
Proof.
  unfold apply_lane_created, mbind, st_bind, st_gets, st_modify, st_throw, id, is_some.
  destruct (lanes b !! _) eqn:Hl; cbn [snd]; [by rewrite Hl|]. cbn. by rewrite lookup_insert_eq.
Qed.

Lemma lane_state_changed_idemp e b :
  (apply_lane_state_changed e (apply_lane_state_changed e b).2).2 =
  (apply_lane_state_changed e b).2.
Proof.
  unfold apply_lane_state_changed, mbind, st_bind, st_gets, st_modify, st_throw, id.
  destruct (lanes b !! _) eqn:Hl; cbn [snd]; [|by rewrite Hl]. cbn.
  by rewrite lookup_insert_eq; cbn; rewrite insert_insert_eq.
Qed.

Lemma workspace_requested_idemp e b :
  (apply_workspace_requested e (apply_workspace_requested e b).2).2 =
  (apply_workspace_requested e b).2.
Proof.
  unfold apply_workspace_requested, mbind, st_bind, st_gets, st_modify, st_throw, id, is_some.
  destruct (cards b !! _) eqn:Hl; cbn [snd]; cbn; rewrite Hl; [|done]. cbn.
  by rewrite insert_insert_eq.
Qed.

Lemma branch_moved_idemp e b :
  (apply_git_branch_moved e (apply_git_branch_moved e b).2).2 = (apply_git_branch_moved e b).2.
Proof.
  unfold apply_git_branch_moved, repo_tracking_record, st_modify. cbn.
  rewrite lookup_insert_eq. cbn. by rewrite !insert_insert_eq.
Qed.

Lemma hat_released_idemp e b :
  (apply_manager_hat_released e (apply_manager_hat_released e b).2).2 =
  (apply_manager_hat_released e b).2.
Proof.
  unfold apply_manager_hat_released, st_modify. cbn.
  destruct (manager_hats b !! mx_repo e) as [h|] eqn:Hh; [|by rewrite Hh].
  case_bool_decide as Hm; [by cbn; rewrite lookup_delete_eq|].
  rewrite Hh. by rewrite bool_decide_false.
Qed.

(** The accepted evidence after an event. *)
Ltac open_rest :=
  cbn [apply]; rewrite ?apply_card_created_run, ?apply_review_requested_run;
  unfold apply_work_submission_reviewed, apply_lane_created, apply_lane_state_changed,
    apply_workspace_requested, apply_workspace_allocated, apply_workspace_heartbeat,
    apply_workspace_released, apply_workspace_pressure_reported,
    apply_workspace_drain_requested, apply_workspace_drain_completed,
    apply_git_commit_observed, apply_git_branch_moved, apply_git_dirty_state_changed,
    apply_pull_request_check_suite_changed, apply_pull_request_review_submitted,
    apply_pull_request_merge_state_changed, apply_hygiene_report_recorded,
    apply_manager_hat_claimed, apply_manager_hat_released,
    apply_agent_availability_reported, workspace_mut, repo_tracking_record,
    pull_request_entry, is_none, is_some,
    mbind, st_bind, mret, st_ret, st_gets, st_modify, st_throw, id.

Lemma apply_reviews ev b :
  submission_reviews (apply ev b).2 =
    match ev with
    | EvWorkSubmissionReviewed v =>
        if is_ok (review_validate_for_board v b) && is_none (submission_reviews b !! wr_review_id v)
        then <[wr_review_id v := v]> (submission_reviews b) else submission_reviews b
    | _ => submission_reviews b
    end.
Proof.
  destruct (card_event ev) as [[i f]|] eqn:E.
  - rewrite (apply_card_event _ _ _ _ E). unfold card_mut. case_match; destruct ev; done.
  - destruct ev; try discriminate E; clear E; open_rest; repeat case_match; done.
Qed.

Lemma apply_requests ev b :
  review_requests (apply ev b).2 =
    match ev with
    | EvSubmissionReviewRequested q =>
        if is_ok (request_validate_for_board q b) && is_none (cards b !! cc_card_id (srr_card q))
        then <[cc_card_id (srr_card q) := q]> (review_requests b) else review_requests b
    | _ => review_requests b
    end.
Proof.
  destruct (card_event ev) as [[i f]|] eqn:E.
  - rewrite (apply_card_event _ _ _ _ E). unfold card_mut. case_match; destruct ev; done.
  - destruct ev; try discriminate E; clear E; open_rest; repeat case_match; done.
Qed.

Lemma apply_reviews_inv ev b r v :
  submission_reviews (apply ev b).2 !! r = Some v →
  submission_reviews b !! r = Some v ∨
  (ev = EvWorkSubmissionReviewed v ∧ r = wr_review_id v ∧ review_validate_for_board v b = Ok tt).
Proof.
  rewrite apply_reviews. destruct ev; auto.
  destruct (review_validate_for_board e b) as [[]|] eqn:Hv; cbn; [|auto].
  case_match; [|auto]. rewrite lookup_insert_Some. naive_solver.
Qed.

Lemma apply_reviews_grow ev b : submission_reviews b ⊆ submission_reviews (apply ev b).2.
Proof.
  rewrite apply_reviews. destruct ev; try done. case_match; [|done].
  apply insert_subseteq. unfold is_none, is_some in *. to_prop. by repeat case_match.
Qed.

(** A request is bound once: its card exists ever after. *)
Lemma apply_requests_grow ev b :
  board_wf b → review_requests b ⊆ review_requests (apply ev b).2.
Proof.
  intros W. rewrite apply_requests. destruct ev; try done. case_match; [|done].
  apply insert_subseteq. unfold is_none, is_some in *. to_prop.
  destruct (review_requests b !! _) as [q|] eqn:Hq; [|done].
  destruct (bw_requests b W _ q Hq) as (? & ? & ? & ? & Hc & _). by case_match.
Qed.

Lemma review_validate_for_board_bound v b q :
  review_validate_for_board v b = Ok tt → submission_reviews b !! wr_review_id v = None →
  review_requests b !! wr_review_card_id v = Some q → srr_submission_id q = wr_submission_id v.
Proof.
  unfold review_validate_for_board, submission_review, card, review_request.
  intros Hok Hn Hq. rewrite Hn in Hok. rewrite Hq in Hok.
  destruct (review_validate v); [|done]. cbn in Hok.
  destruct (cards b !! wr_card_id v); [|done]. cbn in Hok.
  destruct (List.find _ _); [|done]. cbn in Hok. case_match; [done|].
  destruct (cards b !! wr_review_card_id v); [|done]. cbn in Hok.
  case_match; [done|]. case_match; [done|]. by to_prop.
Qed.

Lemma find_submission_None_id sid l :
  List.find (λ p, bool_decide (ws_submission_id p = sid)) l = None →
  sid ∉ (ws_submission_id <$> l).
Proof.
  intros Hf (p & -> & Hp)%list_elem_of_fmap.
  apply list_elem_of_In in Hp. pose proof (List.find_none _ _ Hf p Hp) as H.
  by apply bool_decide_eq_false in H.
Qed.
End lemmas.
