(* ===== verification/WorkScenario.v ===== *)
(** A concrete work board on which the witnesses of the board and replay
    theorems run. *)
From stdpp Require Import base gmap strings list sorting numbers.
From S2P Require Import Prelude WorkModel WorkBoard WorkBoardFacts WorkBoardInv.

(** ** A concrete board: a lane, a card that is claimed and submitted, the
    review card bound to the submission, its claim and the review. *)
Module Scenario.
Definition env : WorkEnv := {|
  hash_bytes := MkContentHash;
  uuid_new_v5 := λ ns _, (ns + 1000)%N;
|}.
#[export] Existing Instance env.

Definition alice : PeerId := MkId 1.
Definition bob : PeerId := MkId 2.
Definition card10 : WorkCardId := MkId 10.
Definition card1010 : WorkCardId := MkId 1010.
Definition lane5 : LaneId := MkId 5.
Definition claim100 : ClaimId := MkId 100.
Definition claim101 : ClaimId := MkId 101.
Definition sub200 : SubmissionId := MkId 200.
Definition review300 : WorkReviewId := MkId 300.
Definition airc : RepoId := MkRepoId (str "o/airc").
Definition artifact : MediaRef := MkMediaRef (MkContentHash [7%N]) 4 None.
Definition base : GitObjectId :=
  MkGitObjectId (str "aaaaaaaaaabbbbbbbbbbccccccccccdddddddddd").

Definition created : CardCreated :=
  MkCardCreated card10 airc (str "fix it") None P1 (Some lane5) alice 1 None None.
Definition claimed : WorkCardClaimed :=
  MkWorkCardClaimed None card10 claim100 alice 1000 10 ClaimExplicit.
Definition submitted : WorkSubmission :=
  MkWorkSubmission sub200 card10 claim100 (str "alice/1") base artifact alice 20.
Definition review_card : CardCreated :=
  MkCardCreated card1010 airc (str "review") None P1 None alice 30 (Some card10) None.
Definition requested : SubmissionReviewRequested :=
  MkSubmissionReviewRequested review_card sub200.
Definition review_claimed : WorkCardClaimed :=
  MkWorkCardClaimed None card1010 claim101 bob 1000 40 ClaimExplicit.
Definition reviewed : WorkSubmissionReview :=
  MkWorkSubmissionReview review300 card10 sub200 artifact card1010 claim101 bob OutcomePassed
    (MkMediaRef (MkContentHash (str "ok")) 2 None) (Some (str "ok")) 50.

Definition upto_claim : list WorkEvent :=
  [ EvLaneCreated (MkLaneCreated lane5 airc (str "main") LaneActive alice 0);
    EvCardCreated created; EvCardClaimed claimed ].
Definition upto_request : list WorkEvent :=
  upto_claim ++ [ EvWorkSubmitted submitted; EvSubmissionReviewRequested requested ].
Definition upto_review : list WorkEvent :=
  upto_request ++ [ EvCardClaimed review_claimed; EvWorkSubmissionReviewed reviewed ].

Definition board_of (events : list WorkEvent) : Board := (st_iter apply events Board_new).2.
Definition claimed_board : Board := board_of upto_claim.
Definition request_board : Board := board_of upto_request.
Definition review_board : Board := board_of upto_review.

(** The card as it stands, for the statements that need one. *)
Definition card_at (b : Board) (i : WorkCardId) : WorkCard :=
  default (fresh_card created) (cards b !! i).

Lemma replay_review_board : replay upto_review = Ok review_board.
Proof. vm_compute. reflexivity. Defined.
Lemma board_of_wf events : board_wf (board_of events).
Proof.
  unfold board_of. apply st_iter_inv; [intros; by apply apply_board_wf | apply Board_new_wf].
Qed.
End Scenario.
