(* ===== verification/WorkBoardThms.v ===== *)
(** Correctness of the work board, each theorem with a run of the
    concrete board of [WorkScenario] where it has hypotheses. *)
From stdpp Require Import base gmap strings list sorting numbers.
From S2P Require Import Prelude.
From S2P Require Import WorkModel.
From S2P Require Import WorkBoard.
From S2P Require Import WorkBoardFacts.
From S2P Require Import WorkBoardInv.
From S2P Require Import WorkBoardSpec.
From S2P Require Import WorkScenario.

Section theorems.
Context {ENV : WorkEnv}.
Implicit Types (b : Board) (ev : WorkEvent) (c : WorkCard).

(** C7: every board a replay ends with satisfies the board invariant: claim
    fields stand or fall together, Open cards are unheld, lanes list existing
    cards once, every index agrees with its record, and every accepted review
    and review request is backed by the submission and cards it names. *)
Theorem replay_board_wf events b :
  replay events = Ok b ∨ replay_window events = Ok b → board_wf b.
Proof.
  destruct (replay_result board_wf events) as [H1 H2]; [|intros []; auto].
  apply run_inv; [apply apply_board_wf | apply Board_new_wf].
Qed.

(** C34: the board refines a map of independent cards: when a run succeeds, a
    card it started with has evolved exactly by the steps of the events that
    name it, in their order, whatever else the run did. *)
Theorem board_refines_card_histories events b b' i c :
  st_iter apply events b = (Ok tt, b') ∨ st_iter apply_windowed events b = (Ok tt, b') →
  cards b !! i = Some c → cards b' !! i = Some (card_history i events c).
Proof.
  intros Hrun Hc. destruct Hrun as [Hrun|Hrun].
  - pose proof (run_history apply events b i c (λ _ _, eq_refl)) as H.
    rewrite Hrun in H. by apply H.
  - pose proof (run_history apply_windowed events b i c apply_windowed_board) as H.
    rewrite Hrun in H. by apply H.
Qed.

(** C39: [apply] fails exactly in the cases of the error table, with the error it
    names, and a failed [apply] leaves the board as it was. *)
Theorem apply_error_exact ev b :
  match apply_error ev b with
  | Some e => apply ev b = (Err e, b)
  | None => (apply ev b).1 = Ok tt
  end.
Proof.
  pose proof (apply_error_run ev b) as H. destruct (apply_error ev b) as [e|]; [|done].
  destruct (apply ev b) as [r b'] eqn:E. cbn in H. subst r.
  by rewrite (apply_err_unchanged _ _ _ _ E).
Qed.

(** A window replay tolerates exactly the missing anchors: it agrees with
    [replay] whenever that succeeds, and it can only fail on a duplicate card or
    lane. *)
Theorem replay_window_lenient events :
  (∀ b, replay events = Ok b → replay_window events = Ok b) ∧
  (∀ e, replay_window events = Err e → is_missing_window_anchor e = false).
Proof.
  unfold replay, replay_window. generalize Board_new as b0.
  induction events as [|ev events IH]; intros b0; [split; [done|discriminate]|].
  cbn [st_iter]. unfold mbind, st_bind. unfold apply_windowed at 1 3.
  destruct (apply ev b0) as [[[]|e] b1]; [apply IH|].
  split; [discriminate|]. destruct (is_missing_window_anchor e) eqn:He; [apply IH|].
  intros e' [= <-]. done.
Qed.

(** The only ways the holder of a card changes: a claim by the new holder
    after the previous lease lapsed (from the takeover date on, a claim over
    somebody else's non-terminal claim is refused), a release naming the claim,
    or a return to Open. *)
Theorem holder_changes_only_by ev b i c c' :
  cards b !! i = Some c → cards (apply ev b).2 !! i = Some c' →
  owner c' ≠ owner c ∨ claim_id c' ≠ claim_id c →
  (∃ e, ev = EvCardClaimed e ∧ cl_card_id e = i ∧
     owner c' = Some (cl_owner e) ∧ claim_id c' = Some (cl_claim_id e) ∧
     (∀ x, claim_expires_at_ms c = Some x → (x ≤ cl_claimed_at_ms e)%N) ∧
     (claim_id c = None ∨ owner c = None ∨ owner c = Some (cl_owner e) ∨
      is_terminal (state c) = true ∨ (cl_claimed_at_ms e < TAKEOVER_ON_RECORD_SINCE_MS)%N)) ∨
  (∃ e, ev = EvClaimReleased e ∧ rl_card_id e = i ∧ claim_id c = Some (rl_claim_id e) ∧
     owner c' = None ∧ claim_id c' = None) ∨
  (∃ e, ev = EvCardStateChanged e ∧ sc_card_id e = i ∧ sc_state e = CardOpen ∧
     owner c' = None ∧ claim_id c' = None).
Proof.
  intros Hc Hc' Hne. destruct (apply_lookup_Some ev b i c Hc) as [H|(f & E & H)].
  { rewrite H in Hc'. simplify_eq. naive_solver. }
  rewrite H in Hc'. simplify_eq.
  destruct (card_step_holder ev i f c E) as [[? ?]|[(e & -> & ?)|[(e & -> & ?)|(e & -> & ?)]]];
    [by destruct Hne|cbn in E; simplify_eq..]; [left|right; left|right; right]; by exists e.
Qed.

(** C1: a live lease cannot be taken: while every event happens before the lease
    ends, none releases or reopens it and no heartbeat shortens it, the holder
    and the claim stay and the lease never gets shorter than promised. *)
Theorem live_lease_holds events b i c o cl x y :
  cards b !! i = Some c → owner c = Some o → claim_id c = Some cl →
  claim_expires_at_ms c = Some y → (x ≤ y)%N →
  Forall (respects_lease i cl x) events →
  ∃ c' y', cards (st_iter apply_windowed events b).2 !! i = Some c' ∧
    owner c' = Some o ∧ claim_id c' = Some cl ∧ claim_expires_at_ms c' = Some y' ∧ (x ≤ y')%N.
Proof.
  intros Hc Ho Hcl Hy Hxy Hev. revert b c y Hc Ho Hcl Hy Hxy.
  induction Hev as [|ev events Hr Hev IH]; intros b c y Hc Ho Hcl Hy Hxy; [naive_solver|].
  cbn [st_iter]. unfold mbind, st_bind. pose proof (apply_windowed_board ev b) as Hb.
  assert (∃ c1 y1, cards (apply ev b).2 !! i = Some c1 ∧ owner c1 = Some o ∧
    claim_id c1 = Some cl ∧ claim_expires_at_ms c1 = Some y1 ∧ (x ≤ y1)%N)
    as (c1 & y1 & Hc1 & ? & ? & ? & ?).
  { destruct (apply_lookup_Some ev b i c Hc) as [H|(f & E & H)]; [naive_solver|].
    destruct (card_step_lease ev i f c cl x y o) as (y' & ?); naive_solver. }
  destruct (apply_windowed ev b) as [[[]|e] b1]; cbn in Hb; subst b1; eauto 10.
Qed.

(** Nothing accepted is ever lost: over any run, cards keep their identity
    (id, repo, lane, creator, creation time, reviewed card), their submissions
    only grow at the front, and accepted reviews and review requests stand as
    they were accepted. *)
Theorem accepted_work_is_permanent events b :
  board_wf b →
  let b' := (st_iter apply_windowed events b).2 in
  board_le b b' ∧ submission_reviews b ⊆ submission_reviews b' ∧
  review_requests b ⊆ review_requests b'.
Proof.
  intros W. cbn zeta.
  destruct (run_inv (λ b', board_wf b' ∧ board_le b b' ∧
    submission_reviews b ⊆ submission_reviews b' ∧ review_requests b ⊆ review_requests b')
    events b) as [_ H]; [|by auto using board_le_refl|apply H].
  clear events. intros ev b1 (W1 & L1 & R1 & Q1).
  split; [by apply apply_board_wf|]. split; [|split].
  - eapply board_le_trans; [done|apply apply_board_le].
  - etrans; [done|]. by apply apply_reviews_grow.
  - etrans; [done|]. by apply apply_requests_grow.
Qed.

(** C33: a submission is accepted only from the holder of a live claim on a card
    that is not finished: a submission a card has after an event and had not
    before is that event, well formed, published by the owner under the current
    claim before its lease ended, with an id the card had never seen. *)
Theorem submission_acceptance_sound ev b i c c' s :
  cards b !! i = Some c → cards (apply ev b).2 !! i = Some c' →
  s ∈ submissions c' → s ∉ submissions c →
  ev = EvWorkSubmitted s ∧ submission_validate s = Ok tt ∧
  owner c = Some (ws_publisher s) ∧ claim_id c = Some (ws_claim_id s) ∧
  is_terminal (state c) = false ∧ submissions c' = s :: submissions c ∧
  ws_submission_id s ∉ (ws_submission_id <$> submissions c) ∧
  ∃ x, claim_expires_at_ms c = Some x ∧ (ws_submitted_at_ms s < x)%N.
Proof.
  intros Hc Hc' Hs Hn. destruct (apply_lookup_Some ev b i c Hc) as [H|(f & E & H)];
    rewrite H in Hc'; simplify_eq; [done|].
  destruct (card_step_submissions ev i f c E) as [Eq|(s' & -> & Eq & Hv & Hex)];
    rewrite Eq in Hs; [done|]. apply elem_of_cons in Hs as [->|]; [|done].
  destruct (validate_for_card_new s' c Hv Hex) as (? & ? & ? & ? & ? & ? & ?).
  split_and!; auto.
Qed.

(** C32: a review is accepted only from the holder of a live claim on an unsettled
    review card of the submission's card, for an artifact the parent card really
    has, and for the bound submission when the review card was requested for
    one. *)
Theorem review_acceptance_sound ev b r v :
  submission_reviews b !! r = None → submission_reviews (apply ev b).2 !! r = Some v →
  ev = EvWorkSubmissionReviewed v ∧ review_accepted b r v ∧
  (∀ q, review_requests b !! wr_review_card_id v = Some q →
        srr_submission_id q = wr_submission_id v) ∧
  ∃ rc x, cards b !! wr_review_card_id v = Some rc ∧
    owner rc = Some (wr_reviewer v) ∧ claim_id rc = Some (wr_review_claim_id v) ∧
    is_settled (state rc) = false ∧
    claim_expires_at_ms rc = Some x ∧ (wr_reviewed_at_ms v < x)%N.
Proof.
  intros Hn Hr. destruct (apply_reviews_inv ev b r v) as [?|(-> & -> & Hv)]; [done|congruence|].
  destruct (review_validate_for_board_new v b Hv Hn) as [? ?].
  eauto using review_validate_for_board_bound.
Qed.

(** A review card bound to a submission is reviewed as that submission: the
    candidate is the bound one whether the reviewer names it or not, and naming
    another is refused. *)
Theorem bound_review_candidate b i q :
  board_wf b → review_requests b !! i = Some q →
  ∃ s, ws_submission_id s = srr_submission_id q ∧
    candidate_for_review b i None = Ok s ∧
    candidate_for_review b i (Some (srr_submission_id q)) = Ok s ∧
    ∀ other, other ≠ srr_submission_id q →
      candidate_for_review b i (Some other) = Err WrongReviewCard.
Proof.
  intros W Hq. destruct (bw_requests b W i q Hq) as (pid & rc & p & s & Hrc & Hr & Hp & Hs & Hid & _).
  destruct (List.find (λ s, bool_decide (ws_submission_id s = srr_submission_id q)) (submissions p))
    as [t|] eqn:Hf.
  - exists t. apply find_some_dec in Hf as Ht. destruct Ht as [_ Ht].
    unfold candidate_for_review, review_request, card. rewrite Hrc; cbn. rewrite Hr; cbn.
    rewrite Hp; cbn. rewrite Hq; cbn. rewrite Hf, bool_decide_false by naive_solver; cbn.
    split_and!; auto. intros o Ho. by rewrite bool_decide_true.
  - apply find_submission_None_id in Hf. destruct Hf. rewrite <- Hid.
    by apply list_elem_of_fmap_2.
Qed.

(** At-least-once delivery is safe: delivering an event a second time
    leaves the board of the first delivery, for every event but the four that
    append to a history list. *)
Theorem redelivery_idempotent ev b :
  redeliverable ev = true → (apply ev (apply ev b).2).2 = (apply ev b).2.
Proof.
  intros Hr. destruct (card_event ev) as [[i f]|] eqn:E.
  { rewrite (apply_card_event _ _ _ _ E), (apply_card_event ev i f) by done.
    apply card_mut_idemp. intros c. by eapply card_step_idemp. }
  destruct ev; try discriminate E; try discriminate Hr; cbn [apply];
    auto using created_idemp, review_requested_idemp, reviewed_idemp, lane_created_idemp,
      lane_state_changed_idemp, workspace_requested_idemp, branch_moved_idemp, hat_released_idemp;
    try (apply workspace_mut_idemp; by intros [[]]);
    try (apply pull_request_entry_idemp; done);
    unfold apply_workspace_pressure_reported, apply_workspace_drain_requested,
      apply_manager_hat_claimed, apply_agent_availability_reported, st_modify; cbn -[wadd];
    by rewrite insert_insert_eq.
Qed.
End theorems.

(** ** Read accessors, leases and names *)

Lemma split_at_last (x : N) l1 l2 t1 t2 :
  x ∉ t1 → x ∉ t2 → l1 ++ x :: t1 = l2 ++ x :: t2 → l1 = l2 ∧ t1 = t2.
Proof.
  revert l2. induction l1 as [|y l1 IH]; intros [|z l2] H1 H2; cbn; intros H; simplify_eq.
  - done.
  - destruct H1. set_solver.
  - destruct H2. set_solver.
  - destruct (IH l2) as [-> ->]; auto.
Qed.

Lemma show_uuid_length u : length (show_uuid u) = 36%nat.
Proof.
  unfold show_uuid. pose proof (hex_fixed_length 32 u).
  rewrite !length_app, !length_take, !length_drop. cbn. lia.
Qed.

Lemma bt_values_NoDup_key (b : Board) :
  cards_wf b → card_id <$> bt_values (cards b) = bt_keys (cards b).
Proof.
  intros W. unfold bt_values, bt_keys. rewrite <- list_fmap_compose.
  apply list_fmap_ext. intros n [i c] Hn. cbn.
  apply (cw_id i c), W. apply elem_of_bt_entries. by eapply list_elem_of_lookup_2.
Qed.

Lemma omap_sublist {A B C} (f : A → option B) (g : A → C) (h : B → C) l :
  (∀ x y, f x = Some y → h y = g x) → h <$> omap f l `sublist_of` g <$> l.
Proof.
  intros Hf. induction l as [|x l IH]; cbn; [done|].
  destruct (f x) as [y|] eqn:E; cbn; [|by apply sublist_cons].
  rewrite (Hf x y E). by apply sublist_skip.
Qed.

Lemma elem_of_stale_claims b now_ms sc :
  sc ∈ stale_claims b now_ms ↔
  ∃ i c, cards b !! i = Some c ∧ is_terminal (state c) = false ∧ card_id c = sl_card_id sc ∧
    claim_id c = Some (sl_claim_id sc) ∧ owner c = Some (sl_owner sc) ∧
    claim_expires_at_ms c = Some (sl_expired_at_ms sc) ∧ (sl_expired_at_ms sc ≤ now_ms)%N.
Proof.
  unfold stale_claims. rewrite list_elem_of_omap. split.
  - intros (c & Hc & Hf). apply list_elem_of_filter in Hc as [Ht [i Hi]%elem_of_bt_values].
    destruct (owner c) eqn:?; [|done]. cbn in Hf. destruct (claim_id c) eqn:?; [|done]. cbn in Hf.
    destruct (claim_expires_at_ms c) eqn:?; [|done]. cbn in Hf. case_match; [|done].
    simplify_eq. to_prop. cbn. eauto 10.
  - intros (i & c & Hi & Ht & Hid & Hcl & Ho & Hx & Hle). exists c. split.
    + apply list_elem_of_filter. split; [done|]. apply elem_of_bt_values. eauto.
    + rewrite Ho, Hcl, Hx. cbn. rewrite (proj2 (N.leb_le _ _)) by done. rewrite Hid.
      by destruct sc.
Qed.

Section reads.
Context {ENV : WorkEnv}.

(** [stale_claims] is exactly the lapsed claims: an entry is listed if and
    only if an unfinished card is held under that claim by that owner with a
    lease that ended by then, and no card is listed twice. *)
Theorem stale_claims_exact b now_ms :
  board_wf b →
  (∀ sc, sc ∈ stale_claims b now_ms ↔
     ∃ c, cards b !! sl_card_id sc = Some c ∧ is_terminal (state c) = false ∧
       claim_id c = Some (sl_claim_id sc) ∧ owner c = Some (sl_owner sc) ∧
       claim_expires_at_ms c = Some (sl_expired_at_ms sc) ∧ (sl_expired_at_ms sc ≤ now_ms)%N) ∧
  NoDup (sl_card_id <$> stale_claims b now_ms).
Proof.
  intros W. split.
  - intros sc. rewrite elem_of_stale_claims. split.
    + intros (i & c & Hi & ? & Hid & ?). exists c. rewrite <- Hid, (cw_id i c) by by apply W. auto.
    + intros (c & Hc & ? & ? & ? & ? & ?). exists (sl_card_id sc), c.
      split_and!; auto. by apply (bw_cards b W).
  - eapply sublist_NoDup; [apply (bt_keys_NoDup (cards b))|].
    rewrite <- bt_values_NoDup_key by apply W. etrans.
    + apply (omap_sublist _ card_id). intros c sc Hs.
      destruct (owner c); [|done]. cbn in Hs. destruct (claim_id c); [|done]. cbn in Hs.
      destruct (claim_expires_at_ms c); [|done]. cbn in Hs. by case_match; simplify_eq.
    + apply fmap_sublist, sublist_filter.
Qed.

(** Progress renews a lease and never shortens it: a state change other
    than a return to Open, made by the owner, moves the end of the lease to the
    later of its old end and one full lease length from now, inside 64 bits. *)
Theorem owner_progress_renews e c cl x h :
  owner c = Some (sc_changed_by e) → claim_id c = Some cl →
  claim_expires_at_ms c = Some x → last_heartbeat_at_ms c = Some h → sc_state e ≠ CardOpen →
  is_u64 x →
  ∃ y, claim_expires_at_ms (state_changed_card e c) = Some y ∧
    y = N.max x (saturating_add (sc_changed_at_ms e) (saturating_sub x h)) ∧ is_u64 y ∧
    owner (state_changed_card e c) = owner c ∧ claim_id (state_changed_card e c) = claim_id c.
Proof.
  intros Ho Hc Hx Hh Hs Hu. unfold state_changed_card. rewrite bool_decide_false by done.
  set (c1 := c <| state := _ |> <| updated_at_ms := _ |>).
  assert (owner c1 = owner c ∧ claim_id c1 = claim_id c ∧ claim_expires_at_ms c1 = Some x ∧
    last_heartbeat_at_ms c1 = Some h) as (E1 & E2 & E3 & E4) by done. clearbody c1.
  unfold renew_owner_lease. rewrite E1, E2, E3, E4, Ho, Hc, bool_decide_false by auto.
  pose proof (saturating_add_u64 (sc_changed_at_ms e) (saturating_sub x h)) as Hz. revert Hz.
  generalize (saturating_add (sc_changed_at_ms e) (saturating_sub x h)) as z. intros z Hz.
  cbn [is_none is_some negb orb]. destruct (N.ltb_spec x z) as [Hlt|Hge].
  - exists z. split; [reflexivity|]. rewrite N.max_r by lia.
    split_and!; cbn; rewrite ?E1, ?E2, ?Ho, ?Hc; auto.
  - exists x. rewrite N.max_l by lia. split_and!; rewrite ?E1, ?E2, ?Ho, ?Hc; auto.
Qed.

(** A claim's lease end is computed with a wrapping addition: the longest
    time-to-live a client can ask for, on a free card, gives a lease that is
    stale the moment it is granted. *)
Theorem claim_ttl_wraps_to_stale e b c :
  cards b !! cl_card_id e = Some c → card_id c = cl_card_id e →
  claim_id c = None → claim_expires_at_ms c = None →
  cl_ttl_ms e = u64_max → (0 < cl_claimed_at_ms e)%N → is_u64 (cl_claimed_at_ms e) →
  MkStaleClaim (cl_card_id e) (cl_claim_id e) (cl_owner e) (cl_claimed_at_ms e - 1)
    ∈ stale_claims (apply (EvCardClaimed e) b).2 (cl_claimed_at_ms e).
Proof.
  intros Hc Hid Hcl Hx Httl Hpos Hu. apply elem_of_stale_claims.
  cbn [apply]. unfold apply_card_claimed, card_mut. rewrite Hc. cbn [snd cards upd].
  exists (cl_card_id e), (claimed_card e c). rewrite lookup_insert_eq. split; [done|].
  unfold claimed_card. rewrite Hx, Hcl. cbn [is_some_and is_some]. rewrite andb_false_r, !andb_false_l.
  match goal with |- context [upd updated_at_ms ?f ?r] => set (c' := upd updated_at_ms f r) end.
  assert (state c' = CardClaimed ∧ card_id c' = card_id c ∧ claim_id c' = Some (cl_claim_id e) ∧
    owner c' = Some (cl_owner e) ∧
    claim_expires_at_ms c' = Some (cl_claimed_at_ms e +w cl_ttl_ms e)) as (-> & -> & -> & -> & ->)
    by done.
  cbn [is_terminal]. split_and!; try done; cbn; [|lia]. f_equal. rewrite Httl. unfold wadd.
  replace (cl_claimed_at_ms e + u64_max)%N with (cl_claimed_at_ms e - 1 + 1 * u64_modulus)%N by u64_lia.
  rewrite N.Div0.mod_add. apply N.mod_small. u64_lia.
Qed.

Lemma pull_request_key_inj r1 r2 n1 n2 : pull_request_key r1 n1 = pull_request_key r2 n2 → r1 = r2 ∧ n1 = n2.
Proof.
  unfold pull_request_key. intros H. apply (split_at_last 35%N) in H as [Hr Hn].
  - split; [by apply repo_str_inj | by apply show_N_inj].
  - intros Hin%show_N_digits. lia.
  - intros Hin%show_N_digits. lia.
Qed.

(** The string keys of the projection do not collide: a pull-request key
    determines repository and number, an availability key repository and peer
    (for 128-bit peer ids). *)
Theorem projection_keys_injective r1 r2 n1 n2 p1 p2 :
  (pull_request_key r1 n1 = pull_request_key r2 n2 → r1 = r2 ∧ n1 = n2) ∧
  (agent_key r1 p1 = agent_key r2 p2 → (uuid p1 < 2 ^ 128)%N → (uuid p2 < 2 ^ 128)%N →
   r1 = r2 ∧ p1 = p2).
Proof.
  split.
  - apply pull_request_key_inj.
  - unfold agent_key. intros H H1 H2. apply app_inj_2 in H as [Hr Hp].
    + split; [by apply repo_str_inj|]. apply app_inv_head in Hp.
      by apply uuid_inj, show_uuid_inj.
    + unfold show_id. by rewrite !length_app, !show_uuid_length.
Qed.

(** A snapshot is the whole board: each list holds exactly the values of
    its map, the cards once each in ascending id order. *)
Theorem snapshot_complete b :
  board_wf b →
  (∀ c, c ∈ bs_cards (snapshot b) ↔ cards b !! card_id c = Some c) ∧
  NoDup (card_id <$> bs_cards (snapshot b)) ∧
  StronglySorted key_le (card_id <$> bs_cards (snapshot b)) ∧
  (∀ r, r ∈ bs_lanes (snapshot b) ↔ lanes b !! lr_lane_id r = Some r) ∧
  (∀ v, v ∈ bs_submission_reviews (snapshot b) ↔
        submission_reviews b !! wr_review_id v = Some v) ∧
  (∀ h, h ∈ bs_manager_hats (snapshot b) ↔ manager_hats b !! mh_repo h = Some h) ∧
  (∀ w, w ∈ bs_workspaces (snapshot b) ↔
        workspaces b !! wl_workspace_id (wk_lease w) = Some w).
Proof.
  intros W. unfold snapshot.
  cbn [bs_cards bs_lanes bs_submission_reviews bs_manager_hats bs_workspaces]. split_and!.
  - intros c. rewrite elem_of_bt_values. split; [|eauto].
    intros [i Hi]. by rewrite (cw_id i c (bw_cards b W i c Hi)).
  - rewrite bt_values_NoDup_key by apply W. apply bt_keys_NoDup.
  - rewrite bt_values_NoDup_key by apply W. apply (bt_keys_sorted (cards b)).
  - intros r. rewrite elem_of_bt_values. split; [|eauto].
    intros [i Hi]. by destruct (bw_lanes b W i r Hi) as [-> _].
  - intros v. rewrite elem_of_bt_values. split; [|eauto].
    intros [i Hi]. by destruct (bw_reviews b W i v Hi) as [-> _].
  - intros h. rewrite elem_of_bt_values. split; [|eauto].
    intros [i Hi]. by rewrite (bw_hats b W i h Hi).
  - intros w. rewrite elem_of_bt_values. split; [|eauto].
    intros [i Hi]. by destruct (bw_workspaces b W i w Hi) as [-> _].
Qed.
End reads.

Lemma trim_solid s : Forall (λ c, is_whitespace c = false) s → trim s = s.
Proof.
  intros H. unfold trim. rewrite (drop_while_stable _ s).
  - rewrite drop_while_stable, reverse_involutive; [done|]. rewrite head_reverse.
    destruct (last s) as [x|] eqn:E; [|by left]. right. exists x. split; [done|].
    rewrite Forall_forall in H. apply H, list_elem_of_In. by apply last_Some_elem_of.
  - destruct s as [|x s]; [by left|]. right. exists x. split; [done|]. by inversion H.
Qed.

Lemma existsb_Forall {A} (p : A → bool) l : existsb p l = false ↔ Forall (λ x, p x = false) l.
Proof.
  induction l as [|x l IH]; cbn; [split; auto|].
  rewrite orb_false_iff, IH, list.Forall_cons. done.
Qed.

Lemma to_ascii_lowercase_idemp s : to_ascii_lowercase (to_ascii_lowercase s) = to_ascii_lowercase s.
Proof.
  unfold to_ascii_lowercase. rewrite <- list_fmap_compose. apply list_fmap_ext.
  intros _ c _. cbn. destruct ((65 <=? c) && (c <=? 90))%N eqn:E; [|by rewrite E].
  to_prop. rewrite (proj2 (N.leb_gt (c + 32) 90)) by lia. by rewrite andb_false_r.
Qed.

Lemma lowercase_hexdigit s :
  forallb is_ascii_hexdigit s = true →
  Forall (λ c, is_ascii_hexdigit c = true ∧ is_whitespace c = false ∧ ¬ (65 ≤ c ≤ 90)%N)
    (to_ascii_lowercase s).
Proof.
  rewrite forallb_forall. intros H. apply Forall_fmap, Forall_forall.
  intros c Hc%H. unfold is_ascii_hexdigit, is_whitespace in *.
  rewrite !orb_true_iff, !andb_true_iff, !N.leb_le in Hc.
  cbn. destruct ((65 <=? c) && (c <=? 90))%N eqn:E; rewrite ?orb_true_iff, ?orb_false_iff,
    ?andb_true_iff, ?andb_false_iff, ?N.leb_le, ?N.leb_gt, ?N.eqb_neq in *; lia.
Qed.

(** Validated names are canonical: what [new] accepts is non-empty, has no
    whitespace (and for an object id only lower-case hexadecimal digits), and
    [new] accepts it again unchanged. *)
Theorem names_canonical s :
  (∀ r, RepoId_new s = Ok r →
     RepoId_new (repo_str r) = Ok r ∧ repo_str r ≠ [] ∧
     Forall (λ c, is_whitespace c = false) (repo_str r)) ∧
  (∀ r, BranchName_new s = Ok r →
     BranchName_new (branch_str r) = Ok r ∧ branch_str r ≠ [] ∧
     Forall (λ c, is_whitespace c = false) (branch_str r)) ∧
  (∀ o, GitObjectId_new s = Ok o →
     GitObjectId_new (oid_str o) = Ok o ∧ oid_str o ≠ [] ∧
     Forall (λ c, is_ascii_hexdigit c = true ∧ is_whitespace c = false ∧ ¬ (65 ≤ c ≤ 90)%N)
       (oid_str o)).
Proof.
  unfold RepoId_new, BranchName_new, GitObjectId_new. split_and!; intros r.
  - destruct (decide _) as [|Hne]; [done|]. destruct (existsb _ _) eqn:He; [done|].
    intros [= <-]. cbn [repo_str branch_str]. rewrite trim_idemp, He, decide_False by done.
    split_and!; auto. by apply existsb_Forall.
  - destruct (decide _) as [|Hne]; [done|]. destruct (existsb _ _) eqn:He; [done|].
    intros [= <-]. cbn [repo_str branch_str]. rewrite trim_idemp, He, decide_False by done.
    split_and!; auto. by apply existsb_Forall.
  - destruct (decide _) as [|Hne]; [done|]. destruct (forallb _ _) eqn:He; [|done].
    intros [= <-]. cbn [oid_str]. pose proof (lowercase_hexdigit _ He) as Hl.
    rewrite trim_solid by (eapply list.Forall_impl; [exact Hl|]; naive_solver).
    assert (to_ascii_lowercase (trim s) ≠ []) as Hn by (by destruct (trim s)).
    rewrite decide_False by done. split_and!; auto.
    rewrite (proj2 (forallb_forall _ _)), to_ascii_lowercase_idemp; [done|].
    intros c Hc. rewrite Forall_forall in Hl. by apply Hl.
Qed.

(** ** Witnesses *)
Import Scenario.

Lemma replay_board_wf_witness : board_wf review_board.
Proof. apply (replay_board_wf upto_review). left. vm_compute. reflexivity. Defined.

Lemma board_refines_card_histories_witness :
  cards review_board !! card10 =
    Some (card_history card10 (drop 3 upto_review) (card_at claimed_board card10)).
Proof.
  apply (board_refines_card_histories (drop 3 upto_review) claimed_board).
  - left. vm_compute. reflexivity.
  - vm_compute. reflexivity.
Defined.

Lemma holder_changes_only_by_witness :
  owner (card_at claimed_board card10) = Some alice ∧
  ((∃ e, EvCardClaimed claimed = EvCardClaimed e ∧ cl_card_id e = card10 ∧
     owner (card_at claimed_board card10) = Some (cl_owner e) ∧
     claim_id (card_at claimed_board card10) = Some (cl_claim_id e) ∧
     (∀ x, None = Some x → (x ≤ cl_claimed_at_ms e)%N) ∧
     (@None ClaimId = None ∨ @None PeerId = None ∨ None = Some (cl_owner e) ∨
      is_terminal CardOpen = true ∨ (cl_claimed_at_ms e < TAKEOVER_ON_RECORD_SINCE_MS)%N)) ∨
   (∃ e, EvCardClaimed claimed = EvClaimReleased e ∧ rl_card_id e = card10 ∧
     None = Some (rl_claim_id e) ∧ owner (card_at claimed_board card10) = None ∧
     claim_id (card_at claimed_board card10) = None) ∨
   (∃ e, EvCardClaimed claimed = EvCardStateChanged e ∧ sc_card_id e = card10 ∧
     sc_state e = CardOpen ∧ owner (card_at claimed_board card10) = None ∧
     claim_id (card_at claimed_board card10) = None)).
Proof.
  split; [vm_compute; reflexivity|].
  apply (holder_changes_only_by (EvCardClaimed claimed) (board_of (take 2 upto_claim)) card10
           (fresh_card created)).
  - vm_compute. reflexivity.
  - vm_compute. reflexivity.
  - left. vm_compute. discriminate.
Defined.

Lemma live_lease_holds_witness :
  ∃ c' y', cards (st_iter apply_windowed
      [EvCardClaimed (MkWorkCardClaimed None card10 claim101 bob 9000 900 ClaimExplicit);
       EvClaimHeartbeat (MkClaimHeartbeat card10 claim100 alice 1000 950)] claimed_board).2
      !! card10 = Some c' ∧
    owner c' = Some alice ∧ claim_id c' = Some claim100 ∧
    claim_expires_at_ms c' = Some y' ∧ (1010 ≤ y')%N.
Proof.
  apply (live_lease_holds _ _ _ (card_at claimed_board card10) alice claim100 1010 1010);
    try (vm_compute; reflexivity); [done|].
  repeat constructor. intros _ _. vm_compute. discriminate.
Defined.

Lemma accepted_work_is_permanent_witness :
  let b' := (st_iter apply_windowed (drop 5 upto_review) request_board).2 in
  board_le request_board b' ∧ submission_reviews request_board ⊆ submission_reviews b' ∧
  review_requests request_board ⊆ review_requests b'.
Proof. apply (accepted_work_is_permanent (drop 5 upto_review) request_board (board_of_wf _)). Defined.

Lemma submission_acceptance_sound_witness :
  let c := card_at claimed_board card10 in
  let c' := card_at request_board card10 in
  EvWorkSubmitted submitted = EvWorkSubmitted submitted ∧ submission_validate submitted = Ok tt ∧
  owner c = Some (ws_publisher submitted) ∧ claim_id c = Some (ws_claim_id submitted) ∧
  is_terminal (state c) = false ∧ submissions c' = submitted :: submissions c ∧
  ws_submission_id submitted ∉ (ws_submission_id <$> submissions c) ∧
  ∃ x, claim_expires_at_ms c = Some x ∧ (ws_submitted_at_ms submitted < x)%N.
Proof.
  apply (submission_acceptance_sound (EvWorkSubmitted submitted) claimed_board card10).
  - vm_compute. reflexivity.
  - vm_compute. reflexivity.
  - vm_compute. left.
  - vm_compute. inversion 1.
Defined.

Lemma review_acceptance_sound_witness :
  let b := board_of (take 6 upto_review) in
  EvWorkSubmissionReviewed reviewed = EvWorkSubmissionReviewed reviewed ∧
  review_accepted b review300 reviewed ∧
  (∀ q, review_requests b !! wr_review_card_id reviewed = Some q →
        srr_submission_id q = wr_submission_id reviewed) ∧
  ∃ rc x, cards b !! wr_review_card_id reviewed = Some rc ∧
    owner rc = Some (wr_reviewer reviewed) ∧ claim_id rc = Some (wr_review_claim_id reviewed) ∧
    is_settled (state rc) = false ∧
    claim_expires_at_ms rc = Some x ∧ (wr_reviewed_at_ms reviewed < x)%N.
Proof.
  apply (review_acceptance_sound (EvWorkSubmissionReviewed reviewed)); vm_compute; reflexivity.
Defined.

Lemma bound_review_candidate_witness :
  ∃ s, ws_submission_id s = sub200 ∧
    candidate_for_review review_board card1010 None = Ok s ∧
    candidate_for_review review_board card1010 (Some sub200) = Ok s ∧
    ∀ other, other ≠ sub200 →
      candidate_for_review review_board card1010 (Some other) = Err WrongReviewCard.
Proof.
  apply (bound_review_candidate review_board card1010 requested (board_of_wf _)).
  vm_compute. reflexivity.
Defined.

Lemma redelivery_idempotent_witness :
  (apply (EvCardClaimed review_claimed) (apply (EvCardClaimed review_claimed) request_board).2).2
  = (apply (EvCardClaimed review_claimed) request_board).2.
Proof. apply (redelivery_idempotent (EvCardClaimed review_claimed)). reflexivity. Defined.

Lemma stale_claims_exact_witness :
  length (stale_claims review_board 1039) = 1%nat ∧ length (stale_claims review_board 1040) = 2%nat ∧
  NoDup (sl_card_id <$> stale_claims review_board 1040).
Proof.
  split; [vm_compute; reflexivity|]. split; [vm_compute; reflexivity|].
  apply (stale_claims_exact review_board 1040 (board_of_wf _)).
Defined.

Lemma owner_progress_renews_witness :
  let e := MkCardStateChanged card10 CardInProgress alice 500 in
  let c := card_at claimed_board card10 in
  ∃ y, claim_expires_at_ms (state_changed_card e c) = Some y ∧
    y = N.max 1010 (saturating_add 500 (saturating_sub 1010 10)) ∧ is_u64 y ∧
    owner (state_changed_card e c) = owner c ∧ claim_id (state_changed_card e c) = claim_id c.
Proof.
  apply (owner_progress_renews (MkCardStateChanged card10 CardInProgress alice 500)
           (card_at claimed_board card10) claim100 1010 10); try (vm_compute; reflexivity).
  discriminate.
Defined.

Lemma claim_ttl_wraps_to_stale_witness :
  MkStaleClaim card10 claim100 alice 9
    ∈ stale_claims
        (apply (EvCardClaimed (MkWorkCardClaimed None card10 claim100 alice u64_max 10 ClaimExplicit))
           (board_of (take 2 upto_claim))).2 10.
Proof.
  apply (claim_ttl_wraps_to_stale
           (MkWorkCardClaimed None card10 claim100 alice u64_max 10 ClaimExplicit)
           _ (fresh_card created)); vm_compute; reflexivity.
Defined.

Lemma projection_keys_injective_witness : airc = airc ∧ 7%N = 7%N.
Proof. apply (projection_keys_injective airc airc 7 7 alice bob). reflexivity. Defined.

Lemma snapshot_complete_witness :
  length (bs_cards (snapshot review_board)) = 2%nat ∧
  NoDup (card_id <$> bs_cards (snapshot review_board)).
Proof.
  split; [vm_compute; reflexivity|]. apply (snapshot_complete review_board (board_of_wf _)).
Defined.
