(* ===== verification/WorkPolicy.v ===== *)
(** Workspace drains and recipes: [crates/airc-work/src/drain_policy.rs] (which
    leased worktrees may be deleted) and the registry of [recipe.rs]. *)
From stdpp Require Import base gmap strings list sorting numbers.
From S2P Require Import Prelude WorkModel WorkBoard.

(** ** drain_policy.rs *)
Definition DEFAULT_HEARTBEAT_STALE_MS : N := 24 * 60 * 60 * 1000.

Inductive PrTerminalState := TerminalMerged | TerminalClosed.
Inductive AdmitReason :=
| Released
| Orphaned
| HeartbeatExpired (age_ms threshold_ms : N)
| PrTerminal (state : PrTerminalState)
| BranchLandedClean.
Inductive ReportOnlyReason :=
| Failed
| DirtyWorkingTree (dirty_paths : N)
| PrOpen (number : N)
| BranchNotLanded
| NoAdmitRule.
Inductive DrainDecision :=
| Admit (reason : AdmitReason)
| ReportOnly (reason : ReportOnlyReason)
| Keep.

Record GitStatusSummary := MkGitStatusSummary {
  dirty_paths : N;
  branch_merged_to_base : bool;
}.
Inductive PrStatus :=
| PrIsOpen (number : N)
| PrIsMerged (number : N)
| PrIsClosed (number : N)
| PrNotFound.
Record PolicyConfig := MkPolicyConfig { heartbeat_stale_ms : N }.
Definition PolicyConfig_default : PolicyConfig := MkPolicyConfig DEFAULT_HEARTBEAT_STALE_MS.
Record PolicyInputs := MkPolicyInputs {
  now_ms : N;
  git : option GitStatusSummary;
  pr : option PrStatus;
  config : PolicyConfig;
}.

(** The tail of [evaluate], after the pull-request block fell through. *)
Definition evaluate_git (inputs : PolicyInputs) : DrainDecision :=
  match git inputs with
  | Some git =>
      if (0 <? dirty_paths git)%N then ReportOnly (DirtyWorkingTree (dirty_paths git))
      else if branch_merged_to_base git then Admit BranchLandedClean
      else ReportOnly BranchNotLanded
  | None => ReportOnly NoAdmitRule
  end.

Definition evaluate (lease : WorkspaceLease) (inputs : PolicyInputs) : DrainDecision :=
  match wl_status lease with
  | WsReleased => Admit Released
  | WsOrphaned => Admit Orphaned
  | WsFailed => ReportOnly Failed
  | WsRequested => Keep
  | WsAllocated | WsActive =>
      let age := saturating_sub (now_ms inputs) (wl_heartbeat_at_ms lease) in
      if (heartbeat_stale_ms (config inputs) <? age)%N
      then Admit (HeartbeatExpired age (heartbeat_stale_ms (config inputs)))
      else
        match pr inputs with
        | Some (PrIsMerged _) => Admit (PrTerminal TerminalMerged)
        | Some (PrIsClosed _) => Admit (PrTerminal TerminalClosed)
        | Some (PrIsOpen number) => ReportOnly (PrOpen number)
        | Some PrNotFound | None => evaluate_git inputs
        end
  end.

(** ** recipe.rs

    A recipe is its id, its name and its [propose] function; [HashMap] order is
    unspecified, so the registry is a [gmap] and [propose_all] is stated up to
    permutation. *)
Record RecipeContext := MkRecipeContext {
  rx_goal : Goal;
  rx_board : BoardSnapshot;
  rx_my_peer_id : PeerId;
  rx_now_ms : N;
}.
Record NextStepProposal := MkNextStepProposal {
  np_title : rstring;
  np_body : option rstring;
  np_priority : Priority;
  np_repo : RepoId;
  np_lane_id : option LaneId;
  np_depends_on : list WorkCardId;
  np_dedup_key : rstring;
}.
Record Recipe := MkRecipe {
  recipe_id : RecipeRef;
  recipe_name : rstring;
  propose : RecipeContext → list NextStepProposal;
}.
#[export] Instance RecipeRef_eq_dec : EqDecision RecipeRef.
Proof. solve_decision. Defined.
#[export] Instance RecipeRef_countable : Countable RecipeRef.
Proof. refine (inj_countable' recipe_str MkRecipeRef _). by intros []. Defined.

Record RecipeRegistry := MkRecipeRegistry { registered : gmap RecipeRef Recipe }.
Definition RecipeRegistry_new : RecipeRegistry := MkRecipeRegistry ∅.

(** [register]: the displaced recipe, and the registry left behind. *)
Definition register (recipe : Recipe) (self : RecipeRegistry) : option Recipe * RecipeRegistry :=
  (registered self !! recipe_id recipe,
   MkRecipeRegistry (<[recipe_id recipe := recipe]> (registered self))).
Definition recipe_len (self : RecipeRegistry) : nat := size (registered self).
Definition recipe_get (id : RecipeRef) (self : RecipeRegistry) : option Recipe :=
  registered self !! id.
Definition propose_all (ctx : RecipeContext) (self : RecipeRegistry) :
    list (RecipeRef * NextStepProposal) :=
  (map_to_list (registered self)).*2 ≫= λ r, (λ p, (recipe_id r, p)) <$> propose r ctx.

(** ** Theorems *)

(** When a worktree of this lease may be deleted for this reason. *)
Definition admissible (lease : WorkspaceLease) (inputs : PolicyInputs) (r : AdmitReason) : Prop :=
  let live := wl_status lease = WsAllocated ∨ wl_status lease = WsActive in
  let fresh := (now_ms inputs ≤ wl_heartbeat_at_ms lease + heartbeat_stale_ms (config inputs))%N in
  match r with
  | Released => wl_status lease = WsReleased
  | Orphaned => wl_status lease = WsOrphaned
  | HeartbeatExpired age t =>
      live ∧ t = heartbeat_stale_ms (config inputs) ∧ ¬ fresh ∧
      (wl_heartbeat_at_ms lease + age = now_ms inputs)%N
  | PrTerminal TerminalMerged => live ∧ fresh ∧ ∃ n, pr inputs = Some (PrIsMerged n)
  | PrTerminal TerminalClosed => live ∧ fresh ∧ ∃ n, pr inputs = Some (PrIsClosed n)
  | BranchLandedClean =>
      live ∧ fresh ∧ (pr inputs = None ∨ pr inputs = Some PrNotFound) ∧
      ∃ g, git inputs = Some g ∧ dirty_paths g = 0%N ∧ branch_merged_to_base g = true
  end.

(** A worktree is admitted for deletion exactly for its stated reason:
    [evaluate] admits with a reason if and only if that reason's facts hold —
    released, orphaned, heartbeat past the threshold (never under clock skew),
    pull request merged or closed, or clean and landed. *)
Theorem drain_admits_iff lease inputs r :
  evaluate lease inputs = Admit r ↔ admissible lease inputs r.
Proof.
  unfold evaluate, evaluate_git, admissible, saturating_sub.
  assert (∀ q : Prop, ¬ q → Keep = Admit r ↔ q) as Hk by naive_solver.
  assert (∀ x (q : Prop), ¬ q → ReportOnly x = Admit r ↔ q) as Hro by naive_solver.
  destruct (wl_status lease);
    try (apply Hk || apply Hro; destruct r as [| | |[]|]; naive_solver);
    try (destruct r as [| | |[]|]; naive_solver).
  all: destruct (N.ltb_spec (heartbeat_stale_ms (config inputs))
                   (now_ms inputs - wl_heartbeat_at_ms lease)) as [Hage|Hage].
  all: try (destruct r as [|?|age t|[]|]; (split; [intros [=]|]; intros; destruct_and?; simplify_eq;
         split_and?; auto; try lia; do 2 f_equal; lia)).
  all: destruct (pr inputs) as [[n|n|n|]|]; [apply Hro; destruct r as [| | |[]|]; naive_solver lia|..].
  all: destruct (git inputs) as [[d [|]]|]; cbn [dirty_paths branch_merged_to_base];
    try destruct (N.ltb_spec 0 d).
  all: first
    [ apply Hro; destruct r as [| | |[]|]; naive_solver lia
    | destruct r as [|?|?|[]|]; (split; [intros [=]|]; intros; destruct_and?; try done;
        split_and?; auto; try lia; try (eexists; split_and!; eauto; cbn; lia); naive_solver lia) ].
Qed.


(** The registry a sequence of registrations leaves. *)
Definition register_all (recipes : list Recipe) : RecipeRegistry :=
  foldl (λ reg r, (register r reg).2) RecipeRegistry_new recipes.

Lemma register_all_get recipes id :
  recipe_get id (register_all recipes) = list.last (filter (λ r, recipe_id r = id) recipes).
Proof.
  unfold register_all. induction recipes as [|r recipes IH] using rev_ind; [done|].
  rewrite foldl_app, list.filter_app, last_app, filter_cons. cbn [foldl].
  revert IH. generalize (foldl (λ reg r, (register r reg).2) RecipeRegistry_new recipes) as reg.
  intros reg IH. unfold recipe_get in *. cbn [registered register snd].
  destruct (decide (recipe_id r = id)) as [<-|Hne].
  - by rewrite lookup_insert_eq.
  - by rewrite lookup_insert_ne, IH.
Qed.

(** The registry is last-registration-wins: a lookup finds the latest recipe
    registered under that id, [register] returns the one it displaces, and a
    dispatch yields exactly the proposals of the current recipes, each tagged
    with the id it was found under. *)
Theorem registry_last_wins recipes r ctx :
  let reg := register_all recipes in
  (∀ id, recipe_get id reg = list.last (filter (λ r, recipe_id r = id) recipes)) ∧
  (register r reg).1 = recipe_get (recipe_id r) reg ∧
  (∀ i p, (i, p) ∈ propose_all ctx reg ↔
     ∃ q, recipe_get i reg = Some q ∧ p ∈ propose q ctx).
Proof.
  cbn zeta. split; [intros; apply register_all_get|]. split; [done|].
  intros i p. unfold propose_all. rewrite list_elem_of_bind. split.
  - intros (q & Hp & Hq). apply list_elem_of_fmap in Hp as (p' & [= -> ->] & Hp).
    apply list_elem_of_fmap in Hq as ([k q'] & -> & Hk%elem_of_map_to_list).
    exists q'. split; [|done]. cbn in *. fold (recipe_get k (register_all recipes)) in Hk.
    rewrite register_all_get in Hk. rewrite register_all_get.
    pose proof (last_Some_elem_of _ _ Hk) as Hin. apply list_elem_of_filter in Hin as [-> _]. done.
  - intros (q & Hq & Hp). exists q. rewrite register_all_get in Hq.
    pose proof (last_Some_elem_of _ _ Hq) as Hin. apply list_elem_of_filter in Hin as [<- _].
    split; [apply list_elem_of_fmap; eauto|]. apply list_elem_of_fmap. exists (recipe_id q, q).
    split; [done|]. apply elem_of_map_to_list. fold (recipe_get (recipe_id q) (register_all recipes)).
    by rewrite register_all_get.
Qed.
