(* ===== verification/WorkCodec.v ===== *)
(** The work-event codec, [crates/airc-work/src/codec/{mod,headers}.rs], and the
    transcript replay, [replay.rs].

    Serde's derived code for [WorkEvent] is a parameter ([Serde]); what the
    codec relies on is [SerdeLaws]: an event whose variant is not marked
    [#[serde(skip)]] serializes and comes back as itself, and deserialization
    never yields a skipped variant. *)
From stdpp Require Import base gmap strings list sorting numbers.
From S2P Require Import Prelude WorkModel WorkBoard CoreTranscript.

(** The variants of [WorkEvent] that are not [#[serde(skip)]]. *)
Definition wire_event (event : WorkEvent) : bool :=
  match event with
  | EvSubmissionRejected _ | EvReviewRejected _ => false
  | _ => true
  end.

Class Serde {J : JsonValue} := {
  SerdeError : Type;
  to_value : WorkEvent → result SerdeError Json;
  from_value : Json → result SerdeError WorkEvent;
}.
Class SerdeLaws {J : JsonValue} (S : Serde) : Prop := {
  serde_round_trip e :
    wire_event e = true → ∃ v, to_value e = Ok v ∧ from_value v = Ok e;
  serde_skip v e : from_value v = Ok e → wire_event e = true;
}.

(** ** headers.rs and mod.rs *)
Definition HEADER_FORGE_WORK_EVENT_KIND : rstring := str "forge.work.kind".
Definition HEADER_FORGE_WORK_REPO : rstring := str "forge.work.repo".
Definition HEADER_FORGE_WORK_CARD_ID : rstring := str "forge.work.card_id".
Definition HEADER_FORGE_WORK_LANE_ID : rstring := str "forge.work.lane_id".
Definition HEADER_FORGE_WORK_CLAIM_ID : rstring := str "forge.work.claim_id".
Definition HEADER_FORGE_WORK_WORKSPACE_ID : rstring := str "forge.work.workspace_id".
Definition HEADER_FORGE_WORK_POLICY_RULE_ID : rstring := str "forge.work.policy_rule_id".
Definition HEADER_FORGE_WORK_GIT_BRANCH : rstring := str "forge.work.git_branch".
Definition HEADER_FORGE_WORK_GIT_COMMIT : rstring := str "forge.work.git_commit".
Definition HEADER_FORGE_WORK_PR_NUMBER : rstring := str "forge.work.pr_number".
Definition HEADER_FORGE_WORK_STATE : rstring := str "forge.work.state".
Definition HEADER_FORGE_WORK_GOAL_ID : rstring := str "forge.work.goal_id".

Definition BODY_HINT_FORGE_WORK_EVENT : rstring := str "forge.work.event.v1".
Definition BODY_HINT_FORGE_WORK_REVIEW : rstring := str "forge.work.review.v1".

Definition is_work_event_hint (hint : rstring) : bool :=
  bool_decide (hint = BODY_HINT_FORGE_WORK_EVENT)
  || bool_decide (hint = BODY_HINT_FORGE_WORK_REVIEW).

Definition work_event_body_hint (event : WorkEvent) : rstring :=
  match event with
  | EvWorkSubmissionReviewed _ | EvSubmissionReviewRequested _ | EvReviewRejected _ =>
      BODY_HINT_FORGE_WORK_REVIEW
  | _ => BODY_HINT_FORGE_WORK_EVENT
  end.

Definition event_kind (event : WorkEvent) : rstring :=
  match event with
  | EvCardCreated _ => str "card_created"
  | EvCardUpdated _ => str "card_updated"
  | EvCardClaimed _ => str "card_claimed"
  | EvClaimHeartbeat _ => str "claim_heartbeat"
  | EvClaimReleased _ => str "claim_released"
  | EvCardStateChanged _ => str "card_state_changed"
  | EvWorkSubmitted _ => str "work_submitted"
  | EvWorkSubmissionReviewed _ => str "work_submission_reviewed"
  | EvSubmissionReviewRequested _ => str "submission_review_requested"
  | EvSubmissionRejected _ => str "submission_rejected"
  | EvReviewRejected _ => str "review_rejected"
  | EvLaneCreated _ => str "lane_created"
  | EvLaneStateChanged _ => str "lane_state_changed"
  | EvWorkspaceRequested _ => str "workspace_requested"
  | EvWorkspaceAllocated _ => str "workspace_allocated"
  | EvWorkspaceHeartbeat _ => str "workspace_heartbeat"
  | EvWorkspaceReleased _ => str "workspace_released"
  | EvWorkspacePressureReported _ => str "workspace_pressure_reported"
  | EvWorkspaceDrainRequested _ => str "workspace_drain_requested"
  | EvWorkspaceDrainCompleted _ => str "workspace_drain_completed"
  | EvGitCommitObserved _ => str "git_commit_observed"
  | EvGitBranchMoved _ => str "git_branch_moved"
  | EvGitDirtyStateChanged _ => str "git_dirty_state_changed"
  | EvPullRequestCheckSuiteChanged _ => str "pull_request_check_suite_changed"
  | EvPullRequestReviewSubmitted _ => str "pull_request_review_submitted"
  | EvPullRequestMergeStateChanged _ => str "pull_request_merge_state_changed"
  | EvPullRequestLinked _ => str "pull_request_linked"
  | EvPullRequestRelinked _ => str "pull_request_relinked"
  | EvPullRequestMerged _ => str "pull_request_merged"
  | EvHygieneReportRecorded _ => str "hygiene_report_recorded"
  | EvManagerHatClaimed _ => str "manager_hat_claimed"
  | EvManagerHatReleased _ => str "manager_hat_released"
  | EvAgentAvailabilityReported _ => str "agent_availability_reported"
  | EvGoalCreated _ => str "goal_created"
  | EvGoalAchieved _ => str "goal_achieved"
  | EvGoalAbandoned _ => str "goal_abandoned"
  | EvGoalDryTickRecorded _ => str "goal_dry_tick_recorded"
  end.

Definition insert_display_header (headers : Headers) (key value : rstring) : Headers :=
  <[key := value]> headers.
Definition project_claim (headers : Headers) (card_id : WorkCardId) (claim_id : ClaimId) : Headers :=
  let headers := insert_display_header headers HEADER_FORGE_WORK_CARD_ID (show_id card_id) in
  insert_display_header headers HEADER_FORGE_WORK_CLAIM_ID (show_id claim_id).
Definition project_pull_request (headers : Headers) (pull_request : PullRequestRef) : Headers :=
  let headers := <[HEADER_FORGE_WORK_REPO := repo_str (pr_repo pull_request)]> headers in
  let headers :=
    insert_display_header headers HEADER_FORGE_WORK_PR_NUMBER (show_N (pr_number pull_request)) in
  insert_display_header headers HEADER_FORGE_WORK_GIT_BRANCH (branch_str (pr_head pull_request)).

(** [format!("{:?}", state)] of an availability state. *)
Definition debug_availability (s : AgentAvailabilityState) : rstring :=
  match s with
  | AgentReady => str "Ready"
  | AgentBusy => str "Busy"
  | AgentAway => str "Away"
  end.

(** The header keys by short names, for the projection below. *)
Definition card_header (id : WorkCardId) (h : Headers) : Headers :=
  insert_display_header h HEADER_FORGE_WORK_CARD_ID (show_id id).
Definition lane_header (id : LaneId) (h : Headers) : Headers :=
  insert_display_header h HEADER_FORGE_WORK_LANE_ID (show_id id).
Definition workspace_header (id : WorkspaceId) (h : Headers) : Headers :=
  insert_display_header h HEADER_FORGE_WORK_WORKSPACE_ID (show_id id).
Definition goal_header (id : GoalId) (h : Headers) : Headers :=
  insert_display_header h HEADER_FORGE_WORK_GOAL_ID (show_id id).
Definition repo_header (r : RepoId) (h : Headers) : Headers :=
  <[HEADER_FORGE_WORK_REPO := repo_str r]> h.

Definition project_domain_headers (event : WorkEvent) (headers : Headers) : Headers :=
  match event with
  | EvWorkSubmitted e =>
      insert_display_header
        (insert_display_header (card_header (ws_card_id e) headers)
           HEADER_FORGE_WORK_CLAIM_ID (show_id (ws_claim_id e)))
        HEADER_FORGE_WORK_GIT_COMMIT (oid_str (ws_base_sha e))
  | EvWorkSubmissionReviewed e =>
      insert_display_header (card_header (wr_card_id e) headers)
        HEADER_FORGE_WORK_CLAIM_ID (show_id (wr_review_claim_id e))
  | EvSubmissionReviewRequested e =>
      repo_header (cc_repo (srr_card e)) (card_header (cc_card_id (srr_card e)) headers)
  | EvSubmissionRejected _ | EvReviewRejected _ => headers
  | EvCardCreated e =>
      let headers := repo_header (cc_repo e) (card_header (cc_card_id e) headers) in
      match cc_lane_id e with
      | Some lane_id => lane_header lane_id headers
      | None => headers
      end
  | EvCardUpdated e => card_header (cu_card_id e) headers
  | EvCardClaimed e => project_claim headers (cl_card_id e) (cl_claim_id e)
  | EvClaimHeartbeat e => project_claim headers (hb_card_id e) (hb_claim_id e)
  | EvClaimReleased e => project_claim headers (rl_card_id e) (rl_claim_id e)
  | EvCardStateChanged e => card_header (sc_card_id e) headers
  | EvLaneCreated e => repo_header (lc_repo e) (lane_header (lc_lane_id e) headers)
  | EvLaneStateChanged e => lane_header (ls_lane_id e) headers
  | EvWorkspaceRequested e =>
      repo_header (wq_repo e)
        (project_claim (workspace_header (wq_workspace_id e) headers)
           (wq_card_id e) (wq_claim_id e))
  | EvWorkspaceAllocated e => workspace_header (wa_workspace_id e) headers
  | EvWorkspaceHeartbeat e => workspace_header (wh_workspace_id e) headers
  | EvWorkspaceReleased e => workspace_header (wx_workspace_id e) headers
  | EvWorkspacePressureReported e =>
      repo_header (wp_repo e) (workspace_header (wp_workspace_id e) headers)
  | EvWorkspaceDrainRequested e =>
      <[HEADER_FORGE_WORK_POLICY_RULE_ID := dr_policy_rule_id e]>
        (repo_header (dr_repo e) (workspace_header (dr_workspace_id e) headers))
  | EvWorkspaceDrainCompleted e =>
      <[HEADER_FORGE_WORK_POLICY_RULE_ID := dn_policy_rule_id e]>
        (repo_header (dn_repo e) (workspace_header (dn_workspace_id e) headers))
  | EvGitCommitObserved e =>
      let headers :=
        insert_display_header (repo_header (gco_repo e) headers)
          HEADER_FORGE_WORK_GIT_COMMIT (oid_str (gco_commit e)) in
      match gco_branch e with
      | Some branch =>
          insert_display_header headers HEADER_FORGE_WORK_GIT_BRANCH (branch_str branch)
      | None => headers
      end
  | EvGitBranchMoved e =>
      insert_display_header
        (insert_display_header (repo_header (gbm_repo e) headers)
           HEADER_FORGE_WORK_GIT_BRANCH (branch_str (gbm_branch e)))
        HEADER_FORGE_WORK_GIT_COMMIT (oid_str (gbm_new_head e))
  | EvGitDirtyStateChanged e =>
      let headers := repo_header (gds_repo e) headers in
      match gds_workspace_id e with
      | Some workspace_id => workspace_header workspace_id headers
      | None => headers
      end
  | EvPullRequestCheckSuiteChanged e => project_pull_request headers (pc_pull_request e)
  | EvPullRequestReviewSubmitted e => project_pull_request headers (pv_pull_request e)
  | EvPullRequestMergeStateChanged e => project_pull_request headers (pm_pull_request e)
  | EvPullRequestLinked e =>
      project_pull_request (card_header (pl_card_id e) headers) (pl_pull_request e)
  | EvPullRequestRelinked e =>
      project_pull_request (card_header (pk_card_id e) headers) (pk_new_pull_request e)
  | EvPullRequestMerged e =>
      project_pull_request (card_header (pg_card_id e) headers) (pg_pull_request e)
  | EvHygieneReportRecorded e => repo_header (hr_repo (hg_report e)) headers
  | EvManagerHatClaimed e => repo_header (mc_repo e) headers
  | EvManagerHatReleased e => repo_header (mx_repo e) headers
  | EvAgentAvailabilityReported e =>
      <[HEADER_FORGE_WORK_STATE := to_ascii_lowercase (debug_availability (av_state e))]>
        (repo_header (av_repo e) headers)
  | EvGoalCreated e => repo_header (gc_default_repo e) (goal_header (gc_goal_id e) headers)
  | EvGoalAchieved e => goal_header (ga_goal_id e) headers
  | EvGoalAbandoned e => goal_header (gb_goal_id e) headers
  | EvGoalDryTickRecorded e => goal_header (gd_goal_id e) headers
  end.

Definition work_event_headers (event : WorkEvent) : Headers :=
  let headers : Headers := ∅ in
  let headers := <[HEADER_FORGE_BODY_HINT := work_event_body_hint event]> headers in
  let headers := <[HEADER_FORGE_WORK_EVENT_KIND := event_kind event]> headers in
  project_domain_headers event headers.

Definition work_event_subscription : Subscription :=
  MkSubscription None None [FkEvent]
    (HfAnyOf ((λ value, HfExact HEADER_FORGE_BODY_HINT value)
                <$> [BODY_HINT_FORGE_WORK_EVENT; BODY_HINT_FORGE_WORK_REVIEW])).

Section codec.
Context {J : JsonValue} {S : Serde}.

Inductive WorkEventCodecError :=
| ReviewRequestAuthorMismatch
| MissingBody
| NonJsonBody
| BodyHintMismatch (actual : option rstring) (expected : rstring)
| VariantHintMismatch (actual : option rstring) (expected : rstring)
| JsonError (e : SerdeError).

Definition map_err {E E' A} (f : E → E') (r : result E A) : result E' A :=
  match r with Ok a => Ok a | Err e => Err (f e) end.

Definition encode_work_event (event : WorkEvent) : result WorkEventCodecError (Headers * Body) :=
  value ← map_err JsonError (to_value event);
  Ok (work_event_headers event, BodyJson value).

Definition require_work_event_hint (headers : Headers) : result WorkEventCodecError unit :=
  match headers !! HEADER_FORGE_BODY_HINT with
  | Some value =>
      if is_work_event_hint value then Ok tt
      else Err (BodyHintMismatch (Some value) BODY_HINT_FORGE_WORK_EVENT)
  | None => Err (BodyHintMismatch None BODY_HINT_FORGE_WORK_EVENT)
  end.

Definition decode_work_event (headers : Headers) (body : option Body) :
    result WorkEventCodecError WorkEvent :=
  _ ← require_work_event_hint headers;
  match body with
  | None => Err MissingBody
  | Some (BodyBinary _) => Err NonJsonBody
  | Some (BodyJson value) =>
      event ← map_err JsonError (from_value value);
      let expected := work_event_body_hint event in
      if bool_decide (headers !! HEADER_FORGE_BODY_HINT ≠ Some expected)
      then Err (VariantHintMismatch (headers !! HEADER_FORGE_BODY_HINT) expected)
      else Ok event
  end.

(** ** replay.rs *)
Record WorkReplayItem := MkWorkReplayItem {
  ri_cursor : TranscriptCursor;
  ri_event : WorkEvent;
}.
Inductive WorkReplayError :=
| RejectedReview (event_id : EventId) (source : WorkEventCodecError)
| RejectedSubmissionErr (event_id : EventId) (source : WorkEventCodecError)
| NotWorkEvent (event_id : EventId)
| Codec (event_id : EventId) (source : WorkEventCodecError)
| Projection (event_id : EventId) (source : ProjectionError).

Definition transcript_is_work_event (event : TranscriptEvent) : bool :=
  is_some_and (te_headers event !! HEADER_FORGE_BODY_HINT) is_work_event_hint.

(** The classification of a codec failure: the body's discriminator wins over
    the routing header. *)
Definition classify_codec_error (event : TranscriptEvent) (source : WorkEventCodecError) :
    WorkReplayError :=
  let body_kind :=
    match te_body event with Some (BodyJson value) => json_kind value | _ => None end in
  let kind :=
    match body_kind with
    | Some k => Some k
    | None => te_headers event !! HEADER_FORGE_WORK_EVENT_KIND
    end in
  if is_some_and (te_headers event !! HEADER_FORGE_BODY_HINT)
       (λ hint, bool_decide (hint = BODY_HINT_FORGE_WORK_REVIEW))
     || bool_decide (kind = Some (str "work_submission_reviewed"))
  then RejectedReview (te_event_id event) source
  else if bool_decide (kind = Some (str "work_submitted"))
  then RejectedSubmissionErr (te_event_id event) source
  else Codec (te_event_id event) source.

Context {ENV : WorkEnv}.

Definition err {E A} (r : result E A) : option E :=
  match r with Ok _ => None | Err e => Some e end.

(** The three rewrites that bind an event to its signed author. *)
Definition authenticate_selection (peer : PeerId) (work_event : WorkEvent) : WorkEvent :=
  match work_event with
  | EvCardUpdated update =>
      if is_some_and (cu_claim_selection update)
           (λ choice, bool_decide (cs_owner choice ≠ peer) || bool_decide (cu_updated_by update ≠ peer))
      then EvCardUpdated (update <| cu_claim_selection := None |>)
      else work_event
  | _ => work_event
  end.
Definition authenticate_submission (peer : PeerId) (work_event : WorkEvent) : WorkEvent :=
  match work_event with
  | EvWorkSubmitted submission =>
      let reason :=
        if bool_decide (ws_publisher submission ≠ peer) then Some PublisherMismatch
        else err (submission_validate submission) in
      match reason with
      | Some reason =>
          EvSubmissionRejected ((submission_rejected submission reason) <| rs_publisher := peer |>)
      | None => work_event
      end
  | _ => work_event
  end.
Definition authenticate_review (peer : PeerId) (work_event : WorkEvent) : WorkEvent :=
  match work_event with
  | EvWorkSubmissionReviewed review =>
      let reason :=
        if bool_decide (wr_reviewer review ≠ peer) then Some ReviewerMismatch
        else err (review_validate review) in
      match reason with
      | Some reason => EvReviewRejected ((review_rejected review reason) <| rr_reviewer := peer |>)
      | None => work_event
      end
  | _ => work_event
  end.

Definition decode_transcript_work_event (event : TranscriptEvent) :
    result WorkReplayError WorkReplayItem :=
  if negb (transcript_is_work_event event) then Err (NotWorkEvent (te_event_id event))
  else
    work_event ← map_err (classify_codec_error event)
      (decode_work_event (te_headers event) (te_body event));
    let peer := te_peer_id event in
    let work_event :=
      authenticate_review peer
        (authenticate_submission peer (authenticate_selection peer work_event)) in
    if match work_event with
       | EvSubmissionReviewRequested request =>
           bool_decide (cc_created_by (srr_card request) ≠ peer)
       | _ => false
       end
    then Err (RejectedReview (te_event_id event) ReviewRequestAuthorMismatch)
    else Ok (MkWorkReplayItem (te_cursor event) work_event).

(** [transcript_order] is lamport, then event id: airc-core's [event_order]. *)
Definition transcript_order : relation TranscriptEvent := event_order.
#[export] Instance transcript_order_dec : RelDecision transcript_order := event_order_dec.
#[export] Instance transcript_order_trans : Transitive transcript_order := event_order_trans.
#[export] Instance transcript_order_total : Total transcript_order := event_order_total.

(** The body of the replay loop; [continue] on a rejected packet. *)
Definition project_step (transcript_event : TranscriptEvent) : ST Board WorkReplayError unit :=
  λ projection,
    match decode_transcript_work_event transcript_event with
    | Ok item =>
        match apply (ri_event item) projection with
        | (Ok _, projection') => (Ok tt, projection')
        | (Err source, projection') => (Err (Projection (te_event_id transcript_event) source), projection')
        end
    | Err (RejectedSubmissionErr _ _ | RejectedReview _ _) => (Ok tt, projection)
    | Err error => (Err error, projection)
    end.

Definition project_transcript_work_events (events : list TranscriptEvent) :
    result WorkReplayError Board :=
  match st_iter project_step (sort_by transcript_order events) Board_new with
  | (Ok _, projection) => Ok projection
  | (Err error, _) => Err error
  end.
End codec.
