(* ===== verification/WorkReplayThms.v ===== *)
(** Correctness of the work-event codec and of transcript replay: routing,
    round trips, authenticity of what reaches the board, determinism. *)
From stdpp Require Import base gmap strings list sorting numbers.
From S2P Require Import Prelude.
From S2P Require Import WorkModel.
From S2P Require Import WorkBoard.
From S2P Require Import WorkBoardFacts.
From S2P Require Import WorkBoardInv.
From S2P Require Import WorkBoardSpec.
From S2P Require Import CoreTranscript.
From S2P Require Import WorkCodec.
From S2P Require Import WorkScenario.

(** Distinct header keys, by computation. *)
Ltac key_ne := apply (bool_decide_unpack _); vm_compute; exact I.
Ltac skip_header := rewrite lookup_insert_ne by key_ne.

Lemma project_domain_headers_get event h key :
  key ∈ [HEADER_FORGE_BODY_HINT; HEADER_FORGE_WORK_EVENT_KIND] →
  project_domain_headers event h !! key = h !! key.
Proof.
  assert (∀ k v h, k ∉ [HEADER_FORGE_BODY_HINT; HEADER_FORGE_WORK_EVENT_KIND] →
    key ∈ [HEADER_FORGE_BODY_HINT; HEADER_FORGE_WORK_EVENT_KIND] →
    (<[k := v]> h : Headers) !! key = h !! key) as Hi.
  { intros k v h' Hk Hkey. apply lookup_insert_ne. by intros ->. }
  intros Hkey. destruct event; cbn [project_domain_headers];
    unfold project_pull_request, project_claim, repo_header, card_header, lane_header,
      workspace_header, goal_header, insert_display_header;
    repeat case_match; repeat (rewrite Hi by (done || key_ne)); done.
Qed.

Lemma work_event_headers_hint event :
  work_event_headers event !! HEADER_FORGE_BODY_HINT = Some (work_event_body_hint event).
Proof.
  unfold work_event_headers. rewrite project_domain_headers_get by by left.
  skip_header. by rewrite lookup_insert_eq.
Qed.

Lemma work_event_headers_kind event :
  work_event_headers event !! HEADER_FORGE_WORK_EVENT_KIND = Some (event_kind event).
Proof.
  unfold work_event_headers. rewrite project_domain_headers_get by (right; by left).
  by rewrite lookup_insert_eq.
Qed.

Lemma body_hint_is_work event : is_work_event_hint (work_event_body_hint event) = true.
Proof. by destruct event. Qed.

Section replay.
Context {J : JsonValue} {S : Serde} {ENV : WorkEnv}.
Implicit Types (t : TranscriptEvent) (events : list TranscriptEvent).

(** C40: what is encoded is decoded as itself and is routed to the work
    subscribers: an event of the wire encodes to headers that carry its body
    hint and kind, decoding them with the body yields the event, and every
    event-kind frame with those headers matches the work subscription. *)
Theorem codec_round_trip event :
  SerdeLaws S → wire_event event = true →
  ∃ headers body, encode_work_event event = Ok (headers, body) ∧
    decode_work_event headers (Some body) = Ok event ∧
    headers !! HEADER_FORGE_WORK_EVENT_KIND = Some (event_kind event) ∧
    ∀ env, env_headers env = headers →
      subscription_matches work_event_subscription (MkFrame FkEvent env) = true.
Proof.
  intros L He. destruct (serde_round_trip event He) as (v & Hto & Hfrom).
  exists (work_event_headers event), (BodyJson v). split_and!.
  - unfold encode_work_event. by rewrite Hto.
  - unfold decode_work_event, require_work_event_hint.
    rewrite work_event_headers_hint, body_hint_is_work. cbn. rewrite Hfrom. cbn.
    by rewrite bool_decide_false by naive_solver.
  - apply work_event_headers_kind.
  - intros env Henv. unfold subscription_matches. cbn. rewrite Henv, work_event_headers_hint.
    pose proof (body_hint_is_work event) as Hh. unfold is_work_event_hint in Hh.
    rewrite orb_true_iff, !bool_decide_eq_true in Hh.
    destruct Hh as [->| ->]; vm_compute; reflexivity.
Qed.

Lemma decode_work_event_inv headers body event :
  decode_work_event headers body = Ok event →
  headers !! HEADER_FORGE_BODY_HINT = Some (work_event_body_hint event) ∧
  ∃ v, body = Some (BodyJson v) ∧ from_value v = Ok event.
Proof.
  unfold decode_work_event. destruct (require_work_event_hint headers); [|done]. cbn.
  destruct body as [[v|]|]; [|done..]. destruct (from_value v) as [e|] eqn:Hv; [|done]. cbn.
  case_bool_decide as Hb; [done|]. intros [= ->]. eauto.
Qed.

(** What an accepted packet is, by the event it becomes. *)
Lemma decode_transcript_inv t item :
  decode_transcript_work_event t = Ok item →
  ri_cursor item = te_cursor t ∧
  ∃ e0, decode_work_event (te_headers t) (te_body t) = Ok e0 ∧
    ri_event item =
      authenticate_review (te_peer_id t)
        (authenticate_submission (te_peer_id t) (authenticate_selection (te_peer_id t) e0)) ∧
    (∀ q, ri_event item = EvSubmissionReviewRequested q →
          cc_created_by (srr_card q) = te_peer_id t).
Proof.
  unfold decode_transcript_work_event. destruct (negb _); [done|].
  destruct (decode_work_event _ _) as [e0|]; [|done]. cbn.
  match goal with |- (if ?c then _ else _) = _ → _ => destruct c eqn:Hr end; [done|]. intros [= <-].
  split; [done|]. exists e0. split; [done|]. split; [done|]. cbn. intros q Hq.
  rewrite Hq in Hr. by to_prop.
Qed.

Lemma err_None {E} (r : result E unit) : err r = None → r = Ok tt.
Proof. by destruct r as [[]|]. Qed.

(** The authenticity conditions on an event taken from a packet signed by
    [peer]. *)
Definition authentic (peer : PeerId) (event : WorkEvent) : Prop :=
  match event with
  | EvWorkSubmitted s => ws_publisher s = peer ∧ submission_validate s = Ok tt
  | EvWorkSubmissionReviewed v => wr_reviewer v = peer ∧ review_validate v = Ok tt
  | EvSubmissionRejected r => rs_publisher r = peer
  | EvReviewRejected r => rr_reviewer r = peer
  | EvSubmissionReviewRequested q => cc_created_by (srr_card q) = peer
  | EvCardUpdated u =>
      ∀ choice, cu_claim_selection u = Some choice →
        cs_owner choice = peer ∧ cu_updated_by u = peer
  | _ => True
  end.

Lemma decode_transcript_authentic t item :
  SerdeLaws S → decode_transcript_work_event t = Ok item →
  authentic (te_peer_id t) (ri_event item).
Proof.
  intros L Hd. apply decode_transcript_inv in Hd as (_ & e0 & He0 & Heq & Hq).
  apply decode_work_event_inv in He0 as (_ & v & _ & Hv%serde_skip). rewrite Heq in Hq |- *.
  destruct e0; try done; cbn [authenticate_selection authenticate_submission authenticate_review] in *.
  - destruct (cu_claim_selection e) as [ch|] eqn:Hs; cbn; [|intros ? Hc; congruence].
    destruct (bool_decide _ || bool_decide _) eqn:Hb; cbn; [done|].
    to_prop. rewrite Hs. intros choice [= <-]. done.
  - case_bool_decide as Hp; cbn; [done|].
    destruct (err (submission_validate e)) as [r|] eqn:Hr; cbn; [done|].
    split; [done|]. by apply err_None.
  - case_bool_decide as Hp; cbn; [done|].
    destruct (err (review_validate e)) as [r|] eqn:Hr; cbn; [done|].
    split; [done|]. by apply err_None.
  - by apply Hq.
Qed.

(** Replay binds every event to its signed author: an accepted packet keeps
    its cursor and carries the body hint of its event, its submission or review
    is by the packet's peer and well formed, a rejection, a review request and a
    claim selection name that peer; anything else was rewritten or refused. *)
Theorem replay_authentic t e0 item :
  SerdeLaws S → decode_work_event (te_headers t) (te_body t) = Ok e0 →
  decode_transcript_work_event t = Ok item →
  authentic (te_peer_id t) (ri_event item) ∧ ri_cursor item = te_cursor t ∧
  wire_event e0 = true ∧
  te_headers t !! HEADER_FORGE_BODY_HINT = Some (work_event_body_hint e0).
Proof.
  intros L He0 Hd. apply decode_work_event_inv in He0 as (Hh & v & _ & Hv%serde_skip).
  pose proof (decode_transcript_inv t item Hd) as (Hc & _).
  eauto using decode_transcript_authentic.
Qed.

Lemma project_step_cases t b :
  (∃ item, decode_transcript_work_event t = Ok item ∧
     (project_step t b).2 = (apply (ri_event item) b).2) ∨
  (project_step t b).2 = b.
Proof.
  unfold project_step. destruct (decode_transcript_work_event t) as [item|[]] eqn:Hd; auto.
  left. exists item. split; [done|]. by destruct (apply _ b) as [[[]|e] b'].
Qed.

(** The evidence on a board that replay built is signed by its authors. *)
Definition signed_board (events : list TranscriptEvent) (b : Board) : Prop :=
  board_wf b ∧
  (∀ r v, submission_reviews b !! r = Some v →
     ∃ t, In t events ∧ te_peer_id t = wr_reviewer v) ∧
  (∀ i c s, cards b !! i = Some c → s ∈ submissions c →
     ∃ t, In t events ∧ te_peer_id t = ws_publisher s) ∧
  (∀ i q, review_requests b !! i = Some q →
     ∃ t, In t events ∧ te_peer_id t = cc_created_by (srr_card q)).

Lemma project_step_signed events t b :
  SerdeLaws S → In t events → signed_board events b → signed_board events (project_step t b).2.
Proof.
  intros L Ht Hb. destruct (project_step_cases t b) as [(item & Hd & ->)| ->]; [|done].
  pose proof (decode_transcript_authentic t item L Hd) as Ha. revert Ha.
  generalize (ri_event item) as ev. intros ev Ha.
  destruct Hb as (W & Hr & Hs & Hq). split; [by apply apply_board_wf|]. split_and!.
  - intros r v [Hv|(-> & _ & _)]%apply_reviews_inv; [by eapply Hr|].
    exists t. split; [done|]. by destruct Ha.
  - intros i c' s Hc Hin. apply apply_lookup_inv in Hc as [Hc|[(f & c & E & Hc & ->)|(e & _ & _ & ->)]].
    + by eapply Hs.
    + destruct (card_step_submissions ev i f c E) as [Eq|(s' & -> & Eq & _)]; rewrite Eq in Hin.
      * by eapply Hs.
      * apply elem_of_cons in Hin as [->|Hin]; [|by eapply Hs].
        exists t. split; [done|]. by destruct Ha.
    + by apply elem_of_nil in Hin.
  - intros i q Hi. rewrite apply_requests in Hi. destruct ev; eauto.
    destruct (_ && _); [|by eapply Hq].
    apply lookup_insert_Some in Hi as [[_ <-]|[_ Hi]]; [|by eapply Hq]. by exists t.
Qed.

Lemma Board_new_signed events : signed_board events Board_new.
Proof.
  split; [apply Board_new_wf|]. split_and!; intros ??; cbn; rewrite ?lookup_empty; try done.
Qed.

(** End to end, the evidence on the board is signed: after a successful
    replay of a transcript the board satisfies its invariant, and every accepted
    review, submission and review request was carried by a packet of that
    transcript signed by its reviewer, publisher or requester. *)
Theorem replayed_board_signed events b :
  SerdeLaws S → project_transcript_work_events events = Ok b → signed_board events b.
Proof.
  intros L. unfold project_transcript_work_events.
  pose proof (st_iter_inv_in (signed_board events) project_step (sort_by transcript_order events))
    as Hinv.
  destruct (st_iter _ _ _) as [[[]|e] b'] eqn:Hrun; [|done]. intros [= ->].
  specialize (Hinv (λ t s Ht, project_step_signed events t s L
    (proj1 (list_elem_of_In _ _) (proj1 (elem_of_Permutation_proper _ _ _ (sort_by_perm _ _))
      (proj2 (list_elem_of_In _ _) Ht)))) Board_new (Board_new_signed events)).
  by rewrite Hrun in Hinv.
Qed.

(** A packet replay logs and skips. *)
Definition rejected_packet (t : TranscriptEvent) : bool :=
  match decode_transcript_work_event t with
  | Err (RejectedSubmissionErr _ _ | RejectedReview _ _) => true
  | _ => false
  end.

Lemma project_run_error xs b e b' :
  st_iter project_step xs b = (Err e, b') →
  (∃ t, In t xs ∧ ∃ src, e = Projection (te_event_id t) src) ∨
  (∃ t, In t xs ∧ decode_transcript_work_event t = Err e ∧ rejected_packet t = false).
Proof.
  revert b. induction xs as [|t xs IH]; intros b; [done|].
  cbn [st_iter]. unfold mbind, st_bind. destruct (project_step t b) as [[[]|e'] b1] eqn:Hs.
  - intros [(t' & ? & ?)|(t' & ? & ?)]%IH; [left|right]; exists t'; cbn; auto.
  - intros [= -> _]. unfold project_step in Hs. unfold rejected_packet.
    destruct (decode_transcript_work_event t) as [item|[]] eqn:Hd; simplify_eq;
      try (right; exists t; rewrite Hd; cbn; auto; fail).
    destruct (apply (ri_event item) b) as [[[]|src] b2]; simplify_eq.
    left. exists t. cbn. eauto.
Qed.

(** A rejected review or submission never stops the stream: replay gives
    what it gives without the packets it rejects, and it fails only for a packet
    that is no work event, a corrupt packet outside those families, or an event
    the projection refuses. *)
Theorem replay_skips_rejected events :
  project_transcript_work_events events =
    project_transcript_work_events (filter (λ t, rejected_packet t = false) events) ∧
  ∀ e, project_transcript_work_events events = Err e →
    ∃ t, In t events ∧
      ((∃ src, e = Projection (te_event_id t) src) ∨
       (decode_transcript_work_event t = Err e ∧ rejected_packet t = false)).
Proof.
  unfold project_transcript_work_events. split.
  - rewrite (sort_by_filter transcript_order). rewrite st_iter_skip; [done|].
    intros t s Hn. apply not_false_is_true in Hn. unfold rejected_packet in Hn.
    unfold project_step. by destruct (decode_transcript_work_event t) as [|[]].
  - intros e. destruct (st_iter _ _ _) as [[[]|e'] b'] eqn:Hrun; [done|]. intros [= ->].
    assert (∀ t, In t (sort_by transcript_order events) → In t events) as Hin.
    { intros t. rewrite <- !list_elem_of_In. by rewrite sort_by_perm. }
    apply project_run_error in Hrun as [(t & ? & ?)|(t & ? & ?)]; exists t; auto.
Qed.
(** C35: replay depends on neither the order of delivery nor rejected packets.  Two deliveries
    whose packets, short of those replay logs and skips (a malformed or rejected review or
    submission), are the same as multisets project to the same board, or to the same
    error, wherever the skipped ones stand and however many there are.  Packets that agree
    on lamport and event id are taken to be one packet delivered twice. *)
Theorem replay_order_independent events1 events2 :
  let kept l := filter (λ t, rejected_packet t = false) l in
  kept events1 ≡ₚ kept events2 →
  (∀ x y, x ∈ kept events1 → y ∈ kept events1 → te_cursor x = te_cursor y → x = y) →
  project_transcript_work_events events1 = project_transcript_work_events events2.
Proof.
  intros kept Hp Hn. rewrite (proj1 (replay_skips_rejected events1)), (proj1 (replay_skips_rejected events2)).
  fold (kept events1) (kept events2). unfold project_transcript_work_events.
  rewrite (sort_by_unique transcript_order (kept events1) (kept events2) Hp); [done|].
  intros x y Hx Hy H1 H2. apply Hn; [done..|]. by apply cursor_key_inj, (anti_symm key_le).
Qed.
End replay.

(** ** Witnesses: packets that carry the scenario's events *)
Module ReplayScenario.
Definition json : JsonValue := {| Json := WorkEvent; json_kind := λ v, Some (event_kind v) |}.
#[export] Existing Instance json.
Definition serde : Serde := {|
  SerdeError := unit;
  to_value := λ e, if wire_event e then Ok e else Err tt;
  from_value := λ v, if wire_event v then Ok v else Err tt;
|}.
#[export] Existing Instance serde.
Lemma serde_laws : SerdeLaws serde.
Proof.
  split.
  - intros e He. exists e. cbn. by rewrite He.
  - intros v e. cbn. destruct (wire_event v) eqn:Hv; [|done]. by intros [= <-].
Qed.

Definition packet (n : N) (peer : PeerId) (e : WorkEvent) : TranscriptEvent :=
  MkTranscriptEvent (MkId n) (MkId 9) peer (MkId 1) Message n n ToAll (work_event_headers e)
    (Some (BodyJson e)) None None e.
Definition packets : list TranscriptEvent :=
  imap (λ n e, packet (N.of_nat n)
    match e with
    | EvCardClaimed c => cl_owner c
    | EvWorkSubmissionReviewed v => wr_reviewer v
    | _ => Scenario.alice
    end e) Scenario.upto_review.
(** A review forged in bob's name by alice. *)
Definition forged : TranscriptEvent :=
  packet 60 Scenario.alice (EvWorkSubmissionReviewed Scenario.reviewed).
End ReplayScenario.

Import Scenario ReplayScenario.

Lemma codec_round_trip_witness :
  ∃ headers body, encode_work_event (EvCardClaimed claimed) = Ok (headers, body) ∧
    decode_work_event headers (Some body) = Ok (EvCardClaimed claimed) ∧
    headers !! HEADER_FORGE_WORK_EVENT_KIND = Some (event_kind (EvCardClaimed claimed)) ∧
    ∀ env, env_headers env = headers →
      subscription_matches work_event_subscription (MkFrame FkEvent env) = true.
Proof. apply (codec_round_trip (EvCardClaimed claimed)); [apply serde_laws|reflexivity]. Defined.

Lemma replay_authentic_witness :
  let rejected :=
    EvReviewRejected ((review_rejected reviewed ReviewerMismatch) <| rr_reviewer := alice |>) in
  authentic alice rejected ∧ te_cursor forged = te_cursor forged ∧
  wire_event (EvWorkSubmissionReviewed reviewed) = true ∧
  te_headers forged !! HEADER_FORGE_BODY_HINT = Some BODY_HINT_FORGE_WORK_REVIEW.
Proof.
  apply (replay_authentic forged (EvWorkSubmissionReviewed reviewed)
    (MkWorkReplayItem (te_cursor forged)
      (EvReviewRejected ((review_rejected reviewed ReviewerMismatch) <| rr_reviewer := alice |>)))).
  - apply serde_laws.
  - vm_compute. reflexivity.
  - vm_compute. reflexivity.
Defined.

Lemma replayed_board_signed_witness : signed_board packets review_board.
Proof.
  apply (replayed_board_signed packets review_board serde_laws). vm_compute. reflexivity.
Defined.

(** The packets in the reverse order, with a review that has lost its body in front. *)
Definition bodyless : TranscriptEvent :=
  MkTranscriptEvent (MkId 77) (MkId 9) Scenario.alice (MkId 1) Message 0 0 ToAll
    (work_event_headers (EvWorkSubmissionReviewed Scenario.reviewed)) None None None
    (EvWorkSubmissionReviewed Scenario.reviewed).
Lemma replay_order_independent_witness :
  project_transcript_work_events packets = project_transcript_work_events (bodyless :: reverse packets).
Proof.
  apply (replay_order_independent packets (bodyless :: reverse packets)).
  - replace (filter (λ t, rejected_packet t = false) (bodyless :: reverse packets))
      with (reverse (filter (λ t, rejected_packet t = false) packets)) by (vm_compute; reflexivity).
    symmetry. apply reverse_Permutation.
  - intros x y Hx Hy Hc. refine (NoDup_fmap_inj_on te_cursor _ x y _ Hx Hy Hc). apply (bool_decide_unpack _). vm_compute. exact I.
Defined.
