(* ===== verification/BusEnvelope.v ===== *)
(** The bus envelope, its total order, sequence assignment and subscription
    filters: [crates/airc-bus/src/{envelope,seq,clock,filter}.rs].

    A payload is its byte list, a [usize] length is an [N]. *)
From stdpp Require Import base gmap strings list sorting numbers.
From S2P Require Import Prelude WorkModel CoreTranscript.

(** ** envelope.rs *)
Record Seq := MkSeq { epoch : N; counter : N }.
#[export] Instance Seq_eq_dec : EqDecision Seq.
Proof. solve_decision. Defined.

(** The derived [Ord]: epoch, then counter. *)
Definition seq_cmp (a b : Seq) : comparison :=
  match (epoch a ?= epoch b)%N with
  | Eq => (counter a ?= counter b)%N
  | c => c
  end.

Inductive Target :=
| TargetAll
| TargetEndpoint (name : rstring)
| TargetPeer (p : PeerId)
| TargetReply (id : N)
| TargetCapability (query : rstring).
Inductive Kind := KMessage | KEvent | KCommand | KCommandResult | KSignal | KStreamChunk | KControl.
#[export] Instance Kind_eq_dec : EqDecision Kind.
Proof. solve_decision. Defined.
Inductive DeliveryClass :=
| Durable | EphemeralLatest | EphemeralWindow | RequestResponse | StreamChunk.
#[export] Instance DeliveryClass_eq_dec : EqDecision DeliveryClass.
Proof. solve_decision. Defined.

Definition is_durable (c : DeliveryClass) : bool :=
  match c with Durable => true | _ => false end.
Definition is_ephemeral_latest (c : DeliveryClass) : bool :=
  match c with EphemeralLatest => true | _ => false end.

Record Envelope := MkEnvelope {
  event_id : EventId;
  channel : RoomId;
  from : PeerId * ClientId;
  target : Target;
  kind : Kind;
  delivery : DeliveryClass;
  seq : Seq;
  occurred_at_ms : N;
  correlation_id : option N;
  coalesce_key : option rstring;
  headers : Headers;
  payload : list N;
}.
#[export] Instance eta_Envelope : Eta Envelope := λ e,
  MkEnvelope (event_id e) (channel e) (from e) (target e) (kind e) (delivery e) (seq e)
    (occurred_at_ms e) (correlation_id e) (coalesce_key e) (headers e) (payload e).

(** [Envelope::new], with the event id the constructor mints. *)
Definition Envelope_new (id : EventId) (c : RoomId) (f : PeerId * ClientId) (k : Kind)
    (d : DeliveryClass) (p : list N) : Envelope :=
  MkEnvelope id c f TargetAll k d (MkSeq 0 0) 0 None None ∅ p.
Definition with_target (t : Target) (e : Envelope) : Envelope := e <| target := t |>.
Definition with_coalesce_key (k : rstring) (e : Envelope) : Envelope := e <| coalesce_key := Some k |>.
Definition with_correlation_id (i : N) (e : Envelope) : Envelope := e <| correlation_id := Some i |>.
Definition with_header (k v : rstring) (e : Envelope) : Envelope :=
  e <| headers := <[k := v]> (headers e) |>.
Definition with_event_id (i : EventId) (e : Envelope) : Envelope := e <| event_id := i |>.

Record Cursor := MkCursor { c_seq : Seq; c_event_id : EventId }.
#[export] Instance Cursor_eq_dec : EqDecision Cursor.
Proof. solve_decision. Defined.
Definition cursor (e : Envelope) : Cursor := MkCursor (seq e) (event_id e).

Definition is_before (self other : Cursor) : bool :=
  match seq_cmp (c_seq self) (c_seq other) with
  | Lt => true
  | Gt => false
  | Eq => (uuid (c_event_id self) <? uuid (c_event_id other))%N
  end.
Definition is_after (self gate : Cursor) : bool := is_before gate self.

(** ** filter.rs *)
Record Filter := MkFilter {
  f_channel : RoomId;
  f_kinds : option (list Kind);
  f_delivery : option (list DeliveryClass);
  f_headers : HeaderFilter;
}.
Definition Filter_channel (c : RoomId) : Filter := MkFilter c None None HfAny.
Definition matches (self : Filter) (env : Envelope) : bool :=
  if bool_decide (channel env ≠ f_channel self) then false
  else if is_some_and (f_kinds self) (λ kinds, negb (bool_decide (kind env ∈ kinds))) then false
  else if is_some_and (f_delivery self) (λ ds, negb (bool_decide (delivery env ∈ ds))) then false
  else filter_matches (f_headers self) (headers env).

(** ** seq.rs

    [InMemoryEpochStore] is a shared atomic cell; a daemon start bumps it.  The
    counters are [u64] and [fetch_add] wraps. *)
Record SeqSource := MkSeqSource { ss_epoch : N; ss_counter : N }.
(** [bump_and_load]: the new epoch, and the cell it leaves. *)
Definition bump_and_load (cell : N) : N * N := (cell +w 1, cell +w 1).
(** [start_at_counter] against the persisted cell. *)
Definition start_at_counter (cell start_counter : N) : SeqSource * N :=
  let '(e, cell') := bump_and_load cell in (MkSeqSource e start_counter, cell').
Definition start (cell : N) : SeqSource * N := start_at_counter cell 0.
(** [next]. *)
Definition next (s : SeqSource) : Seq * SeqSource :=
  (MkSeq (ss_epoch s) (ss_counter s), MkSeqSource (ss_epoch s) (ss_counter s +w 1)).

(** ** clock.rs: a manual clock is its reading. *)
Definition ManualClock_advance (now delta_ms : N) : N := now +w delta_ms.

(** ** The cursor order *)
Definition cursor_lt (a b : Cursor) : Prop := is_before a b = true.

Lemma is_before_spec a b :
  cursor_lt a b ↔
  (epoch (c_seq a) < epoch (c_seq b))%N ∨
  (epoch (c_seq a) = epoch (c_seq b) ∧
   ((counter (c_seq a) < counter (c_seq b))%N ∨
    (counter (c_seq a) = counter (c_seq b) ∧ (uuid (c_event_id a) < uuid (c_event_id b))%N))).
Proof.
  unfold cursor_lt, is_before, seq_cmp.
  destruct (N.compare_spec (epoch (c_seq a)) (epoch (c_seq b))) as [He|He|He];
    [destruct (N.compare_spec (counter (c_seq a)) (counter (c_seq b)))|..];
    rewrite ?N.ltb_lt; split; intros; try done; try lia.
Qed.

Lemma cursor_eq a b :
  epoch (c_seq a) = epoch (c_seq b) → counter (c_seq a) = counter (c_seq b) →
  uuid (c_event_id a) = uuid (c_event_id b) → a = b.
Proof. destruct a as [[] []], b as [[] []]. cbn. congruence. Qed.

#[export] Instance cursor_lt_trans : Transitive cursor_lt.
Proof. intros a b c. rewrite !is_before_spec. lia. Qed.
#[export] Instance cursor_lt_irrefl : Irreflexive cursor_lt.
Proof. intros a. unfold complement. rewrite is_before_spec. lia. Qed.

Lemma cursor_lt_total a b : cursor_lt a b ∨ a = b ∨ cursor_lt b a.
Proof.
  rewrite !is_before_spec.
  destruct (N.lt_trichotomy (epoch (c_seq a)) (epoch (c_seq b))) as [?|[?|?]]; [lia| |lia].
  destruct (N.lt_trichotomy (counter (c_seq a)) (counter (c_seq b))) as [?|[?|?]]; [lia| |lia].
  destruct (N.lt_trichotomy (uuid (c_event_id a)) (uuid (c_event_id b))) as [?|[?|?]]; [lia| |lia].
  right; left. by apply cursor_eq.
Qed.

Lemma is_before_false a b : is_before a b = false ↔ a = b ∨ cursor_lt b a.
Proof.
  split.
  - intros H. destruct (cursor_lt_total a b) as [?|?]; [unfold cursor_lt in *; congruence|done].
  - intros [->|H]; apply not_true_is_false; intros H'.
    + by apply (irreflexivity cursor_lt b).
    + apply (irreflexivity cursor_lt b). by etrans.
Qed.

(** The run of sequence numbers one daemon start hands out. *)
Fixpoint take_seqs (n : nat) (s : SeqSource) : list Seq * SeqSource :=
  match n with
  | O => ([], s)
  | S n => let '(x, s') := next s in let '(xs, s'') := take_seqs n s' in (x :: xs, s'')
  end.

(** Daemon lives: each starts from the persisted cell with any counter seed and
    hands out some sequence numbers. *)
Fixpoint daemon_lives (cell : N) (lives : list (N * nat)) : list Seq :=
  match lives with
  | [] => []
  | (seed, n) :: lives =>
      let '(s, cell') := start_at_counter cell seed in
      (take_seqs n s).1 ++ daemon_lives cell' lives
  end.

Definition seq_lt (a b : Seq) : Prop := seq_cmp a b = Lt.

Lemma seq_lt_spec a b :
  seq_lt a b ↔ (epoch a < epoch b)%N ∨ (epoch a = epoch b ∧ (counter a < counter b)%N).
Proof.
  unfold seq_lt, seq_cmp.
  destruct (N.compare_spec (epoch a) (epoch b)); rewrite ?N.compare_lt_iff; split; intros; try done; lia.
Qed.

Lemma take_seqs_elem n s x :
  (ss_counter s + N.of_nat n < u64_modulus)%N → In x (take_seqs n s).1 →
  epoch x = ss_epoch s ∧ (ss_counter s ≤ counter x < ss_counter s + N.of_nat n)%N.
Proof.
  revert s. induction n as [|n IH]; intros s Hb; [done|]. cbn [take_seqs next].
  destruct (take_seqs n _) as [xs s''] eqn:Ht. cbn.
  assert (ss_counter s +w 1 = ss_counter s + 1)%N as Hw by (apply wadd_small; u64_lia).
  intros [<-|Hin]; [cbn; split; [done|lia]|].
  specialize (IH (MkSeqSource (ss_epoch s) (ss_counter s +w 1))). rewrite Ht in IH. cbn in IH.
  rewrite Hw in IH. destruct IH as [? ?]; [lia|done|]. split; [done|lia].
Qed.

Lemma take_seqs_sorted n s :
  (ss_counter s + N.of_nat n < u64_modulus)%N → StronglySorted seq_lt (take_seqs n s).1.
Proof.
  revert s. induction n as [|n IH]; intros s Hb; [constructor|]. cbn [take_seqs next].
  assert (ss_counter s +w 1 = ss_counter s + 1)%N as Hw by (apply wadd_small; u64_lia).
  set (s' := MkSeqSource (ss_epoch s) (ss_counter s +w 1)).
  assert (ss_counter s' + N.of_nat n < u64_modulus)%N as Hb' by (cbn; lia).
  pose proof (IH s' Hb') as Hs. pose proof (λ x, take_seqs_elem n s' x Hb') as He.
  destruct (take_seqs n s') as [xs s'']. cbn in *. constructor; [done|].
  apply List.Forall_forall. intros x Hx. apply seq_lt_spec. cbn.
  destruct (He x Hx) as [-> ?]. lia.
Qed.

(** The owner's order never goes back: over any number of daemon starts,
    with any counter seeds, all sequence numbers handed out are strictly
    increasing, within a life and across restarts, as long as neither 64-bit
    cell wraps. *)
Theorem seq_monotone_across_restarts cell lives :
  (cell + N.of_nat (length lives) < u64_modulus)%N →
  Forall (λ l, (l.1 + N.of_nat l.2 < u64_modulus)%N) lives →
  StronglySorted seq_lt (daemon_lives cell lives).
Proof.
  assert (∀ lives cell x, (cell + N.of_nat (length lives) < u64_modulus)%N →
    Forall (λ l, (l.1 + N.of_nat l.2 < u64_modulus)%N) lives →
    In x (daemon_lives cell lives) → (cell < epoch x)%N) as Hlow.
  { clear. induction lives as [|[seed n] lives IH]; intros cell x Hc Hl; [done|].
    inversion Hl as [|? ? Hn Hl']; subst. cbn [length] in Hc. cbn [daemon_lives start_at_counter bump_and_load].
    assert (cell +w 1 = cell + 1)%N as -> by (apply wadd_small; u64_lia).
    intros [Hx|Hx]%in_app_or.
    - apply take_seqs_elem in Hx as [-> _]; cbn in *; lia.
    - apply IH in Hx; [lia|lia|done]. }
  revert cell. induction lives as [|[seed n] lives IH]; intros cell Hc Hl; [constructor|].
  inversion Hl as [|? ? Hn Hl']; subst. cbn [length] in Hc.
  cbn [daemon_lives start_at_counter bump_and_load].
  assert (cell +w 1 = cell + 1)%N as -> by (apply wadd_small; u64_lia).
  apply StronglySorted_app_2.
  - intros x y Hx Hy. apply seq_lt_spec. left.
    apply list_elem_of_In, take_seqs_elem in Hx as [-> _]; [|done].
    apply list_elem_of_In, Hlow in Hy; cbn in *; [lia|lia|done].
  - by apply take_seqs_sorted.
  - apply IH; [lia|done].
Qed.

Lemma seq_monotone_across_restarts_witness :
  StronglySorted seq_lt (daemon_lives 0 [(1000, 3%nat); (0, 4%nat); (2, 1%nat)]%N).
Proof.
  apply (seq_monotone_across_restarts 0 [(1000, 3%nat); (0, 4%nat); (2, 1%nat)]%N).
  - reflexivity.
  - repeat constructor.
Defined.
