(* ===== verification/CoreHistory.v ===== *)
(** Bounded history scans: what matches, how many match, and the bounded
    selection the memory stores answer with.
    [airc-core/src/{addressing,history_match,history_count,bounded_selection}.rs]
    and [airc-bus/src/addressing.rs].

    JSON bodies are the parameter of [CoreTranscript]; here it also gives the text
    of a body and decodes payloads ([serde_json]).  The Unicode table of
    alphanumeric characters is a parameter too.  The theorems: the bounded selection answers what the
    whole scan would. *)
From stdpp Require Import base gmap strings list sorting numbers.
From S2P Require Import Prelude.
From S2P Require Import Sorted.
From S2P Require Import WorkModel.
From S2P Require Import CoreTranscript.
From S2P Require BusEnvelope.

(** ** addressing.rs *)
(** [str::find] of the first character that fails a test, as the split it makes. *)
Fixpoint take_while {A} (p : A → bool) (l : list A) : list A :=
  match l with
  | [] => []
  | x :: l => if p x then x :: take_while p l else []
  end.

Class TextEnv `{!JsonValue} := {
  is_alphanumeric : N → bool;
  json_text : Json → option rstring;          (* the two string shapes of [Body::as_text] *)
  body_from_payload : list N → option Body;   (* [serde_json::from_slice] *)
}.

Section addressing.
Context `{!JsonValue, !TextEnv}.

Definition is_separator (c : N) : bool := is_whitespace c || (c =? 44)%N.
Definition is_name_char (c : N) : bool := is_alphanumeric c || (c =? 45)%N || (c =? 95)%N.

(** One call of the iterator's closure: the name, and the text that is left. *)
Definition next_mention (rest : rstring) : option (rstring * rstring) :=
  match drop_while is_separator rest with
  | 64%N :: after =>
      let name := take_while is_name_char after in
      let remainder := drop_while is_name_char after in
      match name with
      | [] => None
      | _ :: _ =>
          Some (name, if is_some_and (list.head remainder) is_separator then remainder else [])
      end
  | _ => None
  end.
(** [leading_mentions]: each name takes at least two characters off the text. *)
Fixpoint mentions_fuel (fuel : nat) (rest : rstring) : list rstring :=
  match fuel with
  | O => []
  | S fuel =>
      match next_mention rest with
      | Some (name, rest) => name :: mentions_fuel fuel rest
      | None => []
      end
  end.
Definition leading_mentions (text : rstring) : list rstring := mentions_fuel (length text) text.

Record Addressing := MkAddressing { ad_peer : option PeerId; leading_mention : bool }.
Record AddresseeFilter := MkAddresseeFilter { af_peer : PeerId }.

Definition as_text (b : Body) : option rstring :=
  match b with BodyJson v => json_text v | BodyBinary _ => None end.
Definition addressing_of_parts (peer : option PeerId) (body : option Body) : Addressing :=
  MkAddressing peer
    (is_some_and (body ≫= as_text) (λ text, is_some (list.head (leading_mentions text)))).
Definition of_target (target : MentionTarget) (body : option Body) : Addressing :=
  addressing_of_parts (match target with ToPeer p => Some p | ToAll | ToRoom _ => None end) body.
Definition of_event (e : TranscriptEvent) : Addressing := of_target (te_target e) (te_body e).
Definition admitted_by (self : Addressing) (filter : AddresseeFilter) : bool :=
  bool_decide (ad_peer self = Some (af_peer filter)) || leading_mention self.

(** airc-bus/src/addressing.rs. *)
Definition addressing_of (target : BusEnvelope.Target) (payload : list N) : Addressing :=
  addressing_of_parts
    (match target with BusEnvelope.TargetPeer p => Some p | _ => None end)
    (body_from_payload payload).
Definition addressing (e : BusEnvelope.Envelope) : Addressing :=
  addressing_of (BusEnvelope.target e) (BusEnvelope.payload e).

(** ** history_match.rs *)
Record HistoryMatch := MkHistoryMatch { hm_headers : HeaderFilter; addressed_to : option AddresseeFilter }.
Definition matches_with (self : HistoryMatch) (headers : Headers) (ad : Addressing) : bool :=
  filter_matches (hm_headers self) headers
  && is_none_or (addressed_to self) (λ filter, admitted_by ad filter).
Definition matches_event (self : HistoryMatch) (e : TranscriptEvent) : bool :=
  matches_with self (te_headers e) (of_event e).
Definition matches_history (e : BusEnvelope.Envelope) (rule : HistoryMatch) : bool :=
  matches_with rule (BusEnvelope.headers e) (addressing e).
End addressing.

(** ** history_count.rs *)
Definition HISTORY_COUNT_CAP : N := 999.
Record HistoryCount := MkHistoryCount {
  hc_count : N;
  oldest_ms : option N;
  newest_ms : option N;
  more : bool;
}.
Definition HistoryCount_default : HistoryCount := MkHistoryCount 0 None None false.
Definition pick (a b : option N) (f : N → N → N) : option N :=
  match a, b with
  | Some a, Some b => Some (f a b)
  | a, None => a
  | None, b => b
  end.
Definition hc_merge (self other : HistoryCount) : HistoryCount :=
  MkHistoryCount (hc_count self +w hc_count other)
    (pick (oldest_ms self) (oldest_ms other) N.min)
    (pick (newest_ms self) (newest_ms other) N.max)
    (more self || more other).
Definition with_event (self : HistoryCount) (occurred_at_ms : N) : HistoryCount :=
  hc_merge self (MkHistoryCount 1 (Some occurred_at_ms) (Some occurred_at_ms) false).
(** The loop of [of_newest] from its [i]-th element. *)
Fixpoint of_newest_from (i : N) (times : list N) (count : HistoryCount) : HistoryCount :=
  match times with
  | [] => count
  | ms :: times =>
      if (i =? HISTORY_COUNT_CAP)%N
      then MkHistoryCount (hc_count count) (oldest_ms count) (newest_ms count) true
      else of_newest_from (i + 1) times (with_event count ms)
  end.
Definition of_newest (times : list N) : HistoryCount := of_newest_from 0 times HistoryCount_default.

(** ** bounded_selection.rs

    The [BTreeMap] keyed by key and ordinal is its entries in key order. *)
Section select.
Context {T K : Type} `{!EqDecision K, !OrdKey K}.
Variable key : T → K.
#[local] Abbreviation entry := (K * N * T)%type.

Definition sel_le (a b : entry) : Prop := key_le a.1 b.1.
#[export] Instance sel_le_dec : RelDecision sel_le := λ a b, key_le_dec a.1 b.1.

Fixpoint enumerate (i : N) (rows : list T) : list entry :=
  match rows with
  | [] => []
  | row :: rows => (key row, i, row) :: enumerate (i + 1) rows
  end.
Definition select_step (limit : nat) (tail : bool) (selected : list entry) (row : entry) : list entry :=
  if (length selected =? limit)%nat then
    let boundary := if tail then list.head selected else list.last selected in
    if is_some_and boundary (λ b, if tail then bool_decide (sel_le row b) else bool_decide (sel_le b row))
    then selected
    else insert_by sel_le row (if tail then list.tail selected else removelast selected)
  else insert_by sel_le row selected.
Definition select (rows : list T) (limit : nat) (tail : bool) : list T :=
  if (limit =? 0)%nat then []
  else (λ e : entry, e.2) <$> foldl (select_step limit tail) [] (enumerate 0 rows).
End select.

(** ** Inserting into a sorted list *)
Section insertion.
Context {A : Type} (le : relation A) `{!RelDecision le, !Transitive le}.

Lemma insert_by_split x l :
  StronglySorted le l →
  ∃ pre post, l = pre ++ post ∧ insert_by le x l = pre ++ x :: post ∧
    (∀ y, y ∈ pre → ¬ le x y) ∧ (∀ y, y ∈ post → le x y).
Proof.
  induction 1 as [|y l Hs (pre & post & -> & Hi & Hpre & Hpost) Hy]; cbn [insert_by].
  - exists [], []. split_and!; [done|done| |]; by intros y ?%elem_of_nil.
  - destruct (decide (le x y)) as [Hxy|Hxy].
    + exists [], (y :: pre ++ post). split_and!; [done|done|by intros z ?%elem_of_nil|].
      intros z [->|Hz]%elem_of_cons; [done|]. rewrite list.Forall_forall in Hy. etrans; eauto.
    + exists (y :: pre), post. rewrite Hi. split_and!; [done|done| |done].
      intros z [->|Hz]%elem_of_cons; auto.
Qed.

Lemma insert_by_app x pre post :
  (∀ y, y ∈ pre → ¬ le x y) → (∀ y, y ∈ post → le x y) →
  insert_by le x (pre ++ post) = pre ++ x :: post.
Proof.
  intros Hpre Hpost. induction pre as [|y pre IH]; cbn.
  - destruct post as [|z post]; [done|]. cbn. rewrite decide_True; [done|]. apply Hpost. by left.
  - rewrite decide_False by (apply Hpre; by left). f_equal. apply IH. intros z Hz. apply Hpre. by right.
Qed.
End insertion.

Lemma removelast_take {A} n (l : list A) : (S n ≤ length l)%nat → removelast (take (S n) l) = take n l.
Proof. apply removelast_firstn. Qed.

Lemma list_last_take {A} n (l : list A) : (S n ≤ length l)%nat → list.last (take (S n) l) = l !! n.
Proof.
  intros Hl. rewrite last_lookup, length_take, Nat.min_l by done. cbn [Nat.pred].
  apply lookup_take_lt. lia.
Qed.

Lemma head_drop {A} n (l : list A) : list.head (drop n l) = l !! n.
Proof. by rewrite head_lookup, lookup_drop, Nat.add_0_r. Qed.

Lemma tail_drop {A} n (l : list A) : list.tail (drop n l) = drop (S n) l.
Proof. revert n. induction l as [|x l IH]; intros [|n]; try done. apply IH. Qed.

(** ** The selection keeps the best so far *)
Section select.
Context {T K : Type} `{!EqDecision K, !OrdKey K}.
Variable key : T → K.
#[local] Abbreviation entry := (K * N * T)%type.
#[local] Abbreviation le := (sel_le (T:=T) (K:=K)).

#[export] Instance sel_le_trans : Transitive le.
Proof. intros a b c. unfold sel_le. apply key_le_trans. Qed.
#[export] Instance sel_le_total : Total le.
Proof. intros a b. unfold sel_le. apply key_le_total. Qed.

(** What is kept of the sorted entries. *)
Definition kept (limit : nat) (tail : bool) (l : list entry) : list entry :=
  if tail then last_n limit l else take limit l.

Lemma kept_all limit tail l : (length l ≤ limit)%nat → kept limit tail l = l.
Proof.
  unfold kept, last_n. intros Hl. destruct tail; [|by apply take_ge].
  by replace (length l - limit)%nat with 0%nat by lia.
Qed.

Lemma select_step_kept limit tail l x :
  (0 < limit)%nat → StronglySorted le l → (∀ y, y ∈ l → y.1 ≠ x.1) →
  select_step limit tail (kept limit tail l) x = kept limit tail (insert_by le x l).
Proof.
  intros Hlim Hs Hx. destruct (insert_by_split le x l Hs) as (pre & post & Hl & Hi & Hpre & Hpost).
  assert (length (insert_by le x l) = S (length l)) as Hlen by (by rewrite insert_by_perm).
  unfold select_step. destruct (decide (length l < limit)%nat) as [Hlt|Hge].
  { rewrite (kept_all limit tail l) by lia. rewrite (proj2 (Nat.eqb_neq _ _)) by lia.
    by rewrite kept_all by lia. }
  assert (length (kept limit tail l) = limit) as Hk.
  { unfold kept, last_n. destruct tail; [rewrite length_drop|rewrite length_take]; lia. }
  rewrite (proj2 (Nat.eqb_eq _ _) Hk). unfold kept, last_n in *. destruct tail.
  - clear Hk. rewrite head_drop, Hlen, Hi, Hl. subst l. rewrite length_app in *.
    set (n := (length pre + length post - limit)%nat).
    replace (S (length pre + length post) - limit)%nat with (S n) by lia.
    destruct (lookup_lt_is_Some_2 (pre ++ post) n) as [b Hb]; [rewrite length_app; lia|].
    rewrite Hb. cbn [is_some_and]. apply lookup_app_Some in Hb as [Hb|[Hn Hb]].
    + assert (n < length pre)%nat as Hnp by (by eapply lookup_lt_Some).
      rewrite bool_decide_false by (apply Hpre; by eapply list_elem_of_lookup_2).
      rewrite tail_drop.
      rewrite !(drop_app_le _ _ (S n)) by lia. apply insert_by_app; [|done].
      intros y Hy. apply Hpre. by eapply elem_of_drop_in.
    + rewrite bool_decide_true by (apply Hpost; by eapply list_elem_of_lookup_2).
      rewrite !drop_app_ge by lia. replace (S n - length pre)%nat with (S (n - length pre)) by lia. done.
  - clear Hk. destruct limit as [|k]; [lia|]. rewrite list_last_take by lia.
    destruct (lookup_lt_is_Some_2 l k) as [b Hb]; [lia|]. rewrite Hb. cbn [is_some_and].
    assert (b ∈ l) as Hbl by (by eapply list_elem_of_lookup_2). subst l.
    rewrite length_app in *. rewrite Hi.
    apply lookup_app_Some in Hb as [Hb|[Hn Hb]].
    + assert (k < length pre)%nat as Hkp by (by eapply lookup_lt_Some).
      rewrite bool_decide_true.
      2:{ destruct (sel_le_total x b) as [Hle|Hle]; [|done]. destruct (Hpre b); [by eapply list_elem_of_lookup_2|done]. }
      by rewrite !take_app_le by lia.
    + rewrite bool_decide_false.
      2:{ intros Hle. apply (Hx b Hbl). apply (anti_symm key_le); [exact Hle|].
          apply Hpost. by eapply list_elem_of_lookup_2. }
      rewrite removelast_take by (rewrite length_app; lia).
      rewrite (take_app_ge _ _ k), (take_app_ge _ _ (S k)) by lia.
      replace (S k - length pre)%nat with (S (k - length pre)) by lia. cbn [take].
      apply insert_by_app; [done|]. intros y Hy. apply Hpost. by eapply elem_of_take_in.
Qed.

(** ** The entries *)
Lemma enumerate_bound i rows e : e ∈ enumerate key i rows → (i ≤ e.1.2)%N.
Proof.
  revert i. induction rows as [|r rows IH]; intros i; cbn; [by intros ?%elem_of_nil|].
  intros [->|He]%elem_of_cons; cbn; [lia|]. apply IH in He. lia.
Qed.

Lemma enumerate_keys i rows : NoDup (fst <$> enumerate key i rows).
Proof.
  revert i. induction rows as [|r rows IH]; intros i; cbn; [apply NoDup_nil_2|].
  apply list.NoDup_cons. split; [|apply IH]. intros (e & He & Hin)%list_elem_of_fmap.
  apply enumerate_bound in Hin. rewrite <- He in Hin. cbn in Hin. lia.
Qed.

#[local] Abbreviation row_le := (row_le key).

(** Sorting entries is sorting rows, stably. *)
Lemma sort_enumerate i rows :
  (λ e : entry, e.2) <$> sort_by le (enumerate key i rows) = sort_by row_le rows ∧
  Forall (λ e : entry, e.1.1 = key e.2) (sort_by le (enumerate key i rows)).
Proof.
  revert i. induction rows as [|r rows IH]; intros i; [by split|].
  destruct (IH (i + 1)%N) as [IH1 IH2]. cbn [enumerate sort_by foldr].
  fold (sort_by le (enumerate key (i + 1) rows)). fold (sort_by row_le rows). rewrite <- IH1.
  assert (∀ e, e ∈ sort_by le (enumerate key (i + 1) rows) → (i < e.1.2)%N) as Hb.
  { intros e. rewrite sort_by_perm. intros He%enumerate_bound. lia. }
  revert IH2 Hb. generalize (sort_by le (enumerate key (i + 1) rows)) as L. clear.
  intros L HL Hb. split.
  - induction L as [|e L IH]; [done|]. apply list.Forall_cons in HL as [He HL]. cbn [insert_by fmap list_fmap].
    assert (le (key r, i, r) e ↔ row_le r e.2) as Hiff.
    { unfold sel_le, Sorted.row_le. destruct e as [[k j] t]. cbn in *. subst k.
      assert (i < j)%N by (apply (Hb _ ltac:(by left))). unfold pair_le. cbn. split.
      - intros [[_ ?]|[-> _]]; [done|]. destruct (key_le_total (key t) (key t)); done.
      - intros Hle. destruct (decide (key r = key t)); [right; split; [done|lia]|by left]. }
    destruct (decide (le (key r, i, r) e)) as [Hd|Hd], (decide (row_le r e.2)) as [Hd'|Hd']; try tauto.
    cbn [fmap list_fmap]. f_equal. apply IH; [done|]. intros x Hx. apply Hb. by right.
  - rewrite insert_by_perm. by constructor.
Qed.

Lemma foldl_kept limit tail rest done_ :
  (0 < limit)%nat → NoDup (fst <$> (done_ ++ rest)) →
  foldl (select_step limit tail) (kept limit tail (sort_by le done_)) rest =
    kept limit tail (sort_by le (done_ ++ rest)).
Proof.
  intros Hlim. revert done_. induction rest as [|x rest IH]; intros done_ Hn; [by rewrite app_nil_r|].
  cbn [foldl]. assert (sort_by le (done_ ++ [x]) = insert_by le x (sort_by le done_)) as Hsort.
  { change (insert_by le x (sort_by le done_)) with (sort_by le (x :: done_)).
    pose proof (sort_by_unique le (done_ ++ [x]) (x :: done_)) as Hu. apply Hu.
    - apply Permutation_sym, Permutation_cons_append.
    - assert (NoDup (fst <$> (done_ ++ [x]))) as Hn'.
      { change (x :: rest) with ([x] ++ rest) in Hn. rewrite app_assoc, fmap_app in Hn.
        by apply list.NoDup_app in Hn as (? & _ & _). }
      intros a b Ha Hb Hab Hba. assert (a.1 = b.1) as He by (by apply (anti_symm key_le)).
      apply list_elem_of_lookup in Ha as [ia Ha]. apply list_elem_of_lookup in Hb as [ib Hb].
      assert (ia = ib) as <-; [|congruence].
      eapply NoDup_lookup; [exact Hn'| |]; rewrite list_lookup_fmap; [by rewrite Ha|by rewrite Hb, He]. }
  rewrite select_step_kept; [|done|by apply sort_by_sorted; apply _|].
  - rewrite <- Hsort, IH; [|by rewrite <- app_assoc]. by rewrite <- app_assoc.
  - intros y Hy He. rewrite sort_by_perm in Hy. rewrite fmap_app in Hn. apply list.NoDup_app in Hn as (_ & Hn & _).
    apply (Hn y.1); [by apply list_elem_of_fmap_2|]. rewrite He. cbn. by left.
Qed.

(** The bounded selection answers as if the whole history were sorted: for
    rows in any order it is the first (or, from the tail, the last) [limit] of
    the stable sort by key, in order. *)
Theorem select_exact rows limit tail :
  select key rows limit tail =
    (if tail then last_n limit (sort_by row_le rows) else take limit (sort_by row_le rows)).
Proof.
  unfold select. destruct (Nat.eqb_spec limit 0) as [->|Hlim].
  { destruct tail; [|done]. unfold last_n. rewrite Nat.sub_0_r. symmetry. apply drop_all. }
  assert (kept limit tail (sort_by le []) = []) as <- by (unfold kept, last_n; destruct tail, limit; done).
  rewrite foldl_kept; [|lia|apply enumerate_keys]. cbn [app].
  destruct (sort_enumerate 0 rows) as [<- _]. unfold kept, last_n.
  destruct tail; [by rewrite fmap_drop, length_fmap|by rewrite fmap_take].
Qed.
End select.

(** ** Counting *)
Definition times_min (l : list N) : option N := foldl (λ o x, pick o (Some x) N.min) None l.
Definition times_max (l : list N) : option N := foldl (λ o x, pick o (Some x) N.max) None l.

Lemma of_newest_from_spec l i c :
  (i ≤ HISTORY_COUNT_CAP)%N → is_u64 (hc_count c + (HISTORY_COUNT_CAP - i)) →
  let t := take (N.to_nat (HISTORY_COUNT_CAP - i)) l in
  of_newest_from i l c =
    MkHistoryCount (hc_count c + N.of_nat (length t))
      (foldl (λ o x, pick o (Some x) N.min) (oldest_ms c) t)
      (foldl (λ o x, pick o (Some x) N.max) (newest_ms c) t)
      (more c || (HISTORY_COUNT_CAP - i <? N.of_nat (length l))%N).
Proof.
  revert i c. induction l as [|x l IH]; intros i c Hi Hu.
  - rewrite take_nil. cbn. rewrite N.add_0_r. rewrite (proj2 (N.ltb_ge _ _)) by lia. rewrite orb_false_r. by destruct c.
  - cbn [of_newest_from]. destruct (N.eqb_spec i HISTORY_COUNT_CAP) as [->|Hne].
    + rewrite N.sub_diag. cbn [N.to_nat take length foldl]. rewrite N.add_0_r.
      rewrite (proj2 (N.ltb_lt _ _)) by (cbn; lia). by rewrite orb_true_r.
    + assert (hc_count (with_event c x) = hc_count c + 1)%N as Hc.
      { unfold with_event, hc_merge. cbn. apply wadd_small. unfold is_u64 in *. lia. }
      cbn zeta. rewrite IH; [|lia|rewrite Hc; unfold is_u64 in *; lia].
      replace (N.to_nat (HISTORY_COUNT_CAP - i)) with (S (N.to_nat (HISTORY_COUNT_CAP - (i + 1)))) by lia.
      cbn [take length foldl]. rewrite Hc. unfold with_event, hc_merge. cbn [oldest_ms newest_ms more].
      rewrite orb_false_r. f_equal; [lia|]. f_equal.
      destruct (N.ltb_spec (HISTORY_COUNT_CAP - (i + 1)) (N.of_nat (length l)));
        destruct (N.ltb_spec (HISTORY_COUNT_CAP - i) (N.of_nat (S (length l)))); lia || done.
Qed.

(** A count of times read newest first: the newest [HISTORY_COUNT_CAP] of them,
    their extremes, and whether there were more. *)
Lemma of_newest_spec l :
  let t := take (N.to_nat HISTORY_COUNT_CAP) l in
  of_newest l = MkHistoryCount (N.of_nat (length t)) (times_min t) (times_max t)
    (HISTORY_COUNT_CAP <? N.of_nat (length l))%N.
Proof.
  unfold of_newest. rewrite (of_newest_from_spec l 0 HistoryCount_default).
  - rewrite N.sub_0_r. reflexivity.
  - unfold HISTORY_COUNT_CAP. lia.
  - unfold HISTORY_COUNT_CAP, is_u64, u64_modulus. cbn. lia.
Qed.

(** Reading one time past the cap is enough. *)
Lemma of_newest_take l :
  of_newest (take (N.to_nat HISTORY_COUNT_CAP + 1) l) = of_newest l.
Proof.
  rewrite !of_newest_spec. cbv zeta. rewrite take_take, Nat.min_l by lia. f_equal.
  rewrite length_take. destruct (N.ltb_spec HISTORY_COUNT_CAP (N.of_nat (length l)));
    [rewrite (proj2 (N.ltb_lt _ _)) by lia|rewrite (proj2 (N.ltb_ge _ _)) by lia]; done.
Qed.

Lemma fold_pick (f : N → N → N) `{!Comm (=) f, !Assoc (=) f} o l :
  foldl (λ o x, pick o (Some x) f) o l = pick o (foldl (λ o x, pick o (Some x) f) None l) f.
Proof.
  revert o. induction l as [|x l IH]; intros o; [by destruct o|]. cbn [foldl].
  rewrite IH, (IH (pick None (Some x) f)). cbn [pick].
  destruct o as [a|], (foldl _ None l) as [b|]; cbn; try done. f_equal. symmetry. apply assoc, _.
Qed.
#[export] Instance Nmin_comm : Comm (=) N.min. Proof. intros a b. lia. Qed.
#[export] Instance Nmin_assoc : Assoc (=) N.min. Proof. intros a b c. lia. Qed.
#[export] Instance Nmax_comm : Comm (=) N.max. Proof. intros a b. lia. Qed.
#[export] Instance Nmax_assoc : Assoc (=) N.max. Proof. intros a b c. lia. Qed.

Lemma times_min_app l1 l2 : times_min (l1 ++ l2) = pick (times_min l1) (times_min l2) N.min.
Proof. unfold times_min. by rewrite foldl_app, fold_pick by apply _. Qed.
Lemma times_max_app l1 l2 : times_max (l1 ++ l2) = pick (times_max l1) (times_max l2) N.max.
Proof. unfold times_max. by rewrite foldl_app, fold_pick by apply _. Qed.

(** Extremes do not depend on the order. *)
Lemma times_perm l1 l2 : l1 ≡ₚ l2 → times_min l1 = times_min l2 ∧ times_max l1 = times_max l2.
Proof.
  assert (∀ x l, times_min (x :: l) = pick (Some x) (times_min l) N.min) as Hmin
    by (intros x l; apply (times_min_app [x] l)).
  assert (∀ x l, times_max (x :: l) = pick (Some x) (times_max l) N.max) as Hmax
    by (intros x l; apply (times_max_app [x] l)).
  induction 1 as [|x l1 l2 _ [IH1 IH2]|x y l|l1 l2 l3 _ [IH1 IH2] _ [IH3 IH4]]; [done|..].
  - by rewrite !Hmin, !Hmax, IH1, IH2.
  - rewrite !Hmin, !Hmax. destruct (times_min l), (times_max l); cbn; split; f_equal; lia.
  - split; congruence.
Qed.

Lemma with_events_spec l c :
  is_u64 (hc_count c + N.of_nat (length l)) →
  foldl with_event c l =
    MkHistoryCount (hc_count c + N.of_nat (length l)) (pick (oldest_ms c) (times_min l) N.min)
      (pick (newest_ms c) (times_max l) N.max) (more c).
Proof.
  intros Hu. unfold times_min, times_max. rewrite <- !fold_pick by apply _. revert c Hu.
  induction l as [|x l IH]; intros c Hu; cbn [foldl length].
  - rewrite N.add_0_r. by destruct c.
  - cbn [length] in Hu. assert (hc_count (with_event c x) = hc_count c + 1)%N as Hc.
    { unfold with_event, hc_merge. cbn. apply wadd_small. unfold is_u64 in *. lia. }
    rewrite IH by (rewrite Hc; unfold is_u64 in *; lia). rewrite Hc.
    unfold with_event, hc_merge. cbn [oldest_ms newest_ms more]. rewrite orb_false_r. f_equal. lia.
Qed.

(** ** The iterator of leading mentions ends *)
Section mentions.
Context `{!JsonValue, !TextEnv}.
Lemma drop_while_length {A} (p : A → bool) l : length (drop_while p l) ≤ length l.
Proof. pose proof (suffix_length _ _ (drop_while_suffix p l)). lia. Qed.
Lemma next_mention_shorter rest name rest' : next_mention rest = Some (name, rest') → S (length rest') < length rest.
Proof.
  unfold next_mention. destruct (drop_while is_separator rest) as [|c after] eqn:Hd; [done|].
  pose proof (drop_while_length is_separator rest) as Hl. rewrite Hd in Hl. cbn in Hl.
  case_match; [done|]. repeat (case_match; try done). subst.
  all: intros [= <- <-]; pose proof (drop_while_length is_name_char after) as Hr.
  all: destruct after as [|d after]; [done|]; cbn [take_while drop_while] in *; destruct (is_name_char d); try done.
  all: cbn in *; pose proof (drop_while_length is_name_char after); lia.
Qed.
(** The text's length is fuel enough: more changes nothing. *)
Lemma mentions_fuel_enough n rest : length rest ≤ n → mentions_fuel n rest = leading_mentions rest.
Proof.
  unfold leading_mentions. assert (∀ n m rest, length rest ≤ n → length rest ≤ m → mentions_fuel n rest = mentions_fuel m rest)
    as Hall; [|by intros; apply Hall].
  clear. induction n as [|n IH]; intros m rest Hn Hm.
  - destruct rest; [|cbn in Hn; lia]. by destruct m.
  - destruct m as [|m]; [destruct rest; [done|cbn in Hm; lia]|]. cbn.
    destruct (next_mention rest) as [[name rest']|] eqn:E; [|done].
    apply next_mention_shorter in E. f_equal. apply IH; lia.
Qed.
End mentions.
