(* ===== verification/BusRing.v ===== *)
(** The per-channel hot ring, [crates/airc-bus/src/ring.rs]: a bounded cache of
    recent envelopes that must not lose a durable one before it is persisted.

    [slots] is the deque, oldest first.  Envelopes are immutable behind [Arc],
    so a handle is the envelope.  The eviction loop is [evict_step] iterated
    with the ring's length as fuel; [evict_done] shows that this is enough. *)
From stdpp Require Import base gmap strings list sorting numbers.
From S2P Require Import Prelude WorkModel CoreTranscript BusEnvelope.

Record Slot := MkSlot { env : Envelope; pinned : bool }.
#[export] Instance eta_Slot : Eta Slot := λ s, MkSlot (env s) (pinned s).

Record HotRing := MkHotRing {
  slots : list Slot;
  capacity : nat;
  byte_budget : N;
  bytes : N;
}.
#[export] Instance eta_HotRing : Eta HotRing := λ r,
  MkHotRing (slots r) (capacity r) (byte_budget r) (bytes r).

Definition sum_N (l : list N) : N := foldr N.add 0%N l.

Definition retained_bytes (e : Envelope) : N :=
  (N.of_nat (length (payload e))
   + sum_N ((λ kv, str_len kv.1 + str_len kv.2) <$> bt_entries (headers e))
   + match coalesce_key e with Some k => str_len k | None => 0 end)%N.

(** [HotRing::new]. *)
Definition HotRing_new (cap : nat) (budget : N) : HotRing :=
  MkHotRing [] (Nat.max cap 1) budget 0.

Definition over_bounds (r : HotRing) : bool :=
  (capacity r <? length (slots r))%nat
  || ((1 <? length (slots r))%nat && (byte_budget r <? bytes r)%N).

Definition remove_at (index : nat) (r : HotRing) : HotRing :=
  match slots r !! index with
  | Some slot =>
      r <| slots := take index (slots r) ++ drop (S index) (slots r) |>
        <| bytes := (bytes r - retained_bytes (env slot))%N |>
  | None => r
  end.

(** [Iterator::position]. *)
Fixpoint position {A} (p : A → bool) (l : list A) : option nat :=
  match l with
  | [] => None
  | x :: l => if p x then Some O else S <$> position p l
  end.

(** One turn of the [evict_to_capacity] loop; [None] leaves it. *)
Definition evict_step (r : HotRing) : option HotRing :=
  if over_bounds r then
    match slots r with
    | slot :: _ =>
        if negb (pinned slot) then Some (remove_at 0 r)
        else
          match position (λ s, negb (is_durable (delivery (env s)))) (slots r) with
          | Some index =>
              if (index + 1 <? length (slots r))%nat || (capacity r <? length (slots r))%nat
              then Some (remove_at index r) else None
          | None => None
          end
    | [] => None
    end
  else None.

Fixpoint evict_loop (fuel : nat) (r : HotRing) : HotRing :=
  match fuel with
  | O => r
  | S fuel => match evict_step r with Some r' => evict_loop fuel r' | None => r end
  end.
Definition evict_to_capacity (r : HotRing) : HotRing := evict_loop (length (slots r)) r.

Definition push (e : Envelope) (r : HotRing) : HotRing :=
  evict_to_capacity
    (r <| bytes := (bytes r + retained_bytes e)%N |>
       <| slots := slots r ++ [MkSlot e (is_durable (delivery e))] |>).

(** Unpin the first slot with this event id. *)
Fixpoint unpin (id : EventId) (l : list Slot) : list Slot :=
  match l with
  | [] => []
  | s :: l => if bool_decide (event_id (env s) = id) then (s <| pinned := false |>) :: l
              else s :: unpin id l
  end.
Definition mark_persisted (id : EventId) (r : HotRing) : HotRing :=
  evict_to_capacity (r <| slots := unpin id (slots r) |>).

Definition replay_after (from : option Cursor) (r : HotRing) : list Envelope :=
  env <$> filter (λ s, match from with
                       | None => true
                       | Some c => is_after (cursor (env s)) c
                       end = true) (slots r).
Definition newest_cursor (r : HotRing) : option Cursor :=
  (λ s, cursor (env s)) <$> list.last (slots r).
Definition newest_durable_cursor (r : HotRing) : option Cursor :=
  (λ s, cursor (env s)) <$>
    List.find (λ s, is_durable (delivery (env s))) (reverse (slots r)).
Definition oldest_cursor (r : HotRing) : option Cursor :=
  (λ s, cursor (env s)) <$> list.head (slots r).
Definition ring_len (r : HotRing) : nat := length (slots r).
Definition pinned_count (r : HotRing) : nat := length (filter (λ s, pinned s = true) (slots r)).

(** ** Specification *)

(** The envelopes a ring holds, and the durable ones among a list. *)
Definition ring_envs (r : HotRing) : list Envelope := env <$> slots r.
Definition durables (l : list Envelope) : list Envelope :=
  filter (λ e, is_durable (delivery e) = true) l.

Record ring_wf (r : HotRing) : Prop := {
  rw_bytes : bytes r = sum_N (retained_bytes <$> ring_envs r);
  rw_pinned : Forall (λ s, pinned s = true → is_durable (delivery (env s)) = true) (slots r);
  rw_capacity : (1 ≤ capacity r)%nat;
}.

(** Removing a slot the eviction rules allow: an unpinned head or a non-durable
    entry. *)
Inductive evictable : list Slot → list Slot → Prop :=
| evict_head s l : pinned s = false → evictable (s :: l) l
| evict_lossy l1 s l2 :
    is_durable (delivery (env s)) = false → evictable (l1 ++ s :: l2) (l1 ++ l2).

Lemma sum_N_app l1 l2 : sum_N (l1 ++ l2) = (sum_N l1 + sum_N l2)%N.
Proof. induction l1 as [|x l IH]; cbn; [done|]. unfold sum_N in *. lia. Qed.

Lemma sum_N_cons x l : sum_N (x :: l) = (x + sum_N l)%N.
Proof. done. Qed.

Lemma position_Some {A} (p : A → bool) l i :
  position p l = Some i →
  ∃ l1 x l2, l = l1 ++ x :: l2 ∧ length l1 = i ∧ p x = true ∧ Forall (λ y, p y = false) l1.
Proof.
  revert i. induction l as [|x l IH]; intros i; cbn; [done|]. destruct (p x) eqn:Hp.
  - intros [= <-]. by exists [], x, l.
  - intros (j & Hj & ->)%fmap_Some_1. destruct (IH j Hj) as (l1 & y & l2 & -> & <- & ? & ?).
    exists (x :: l1), y, l2. split_and!; auto.
Qed.

Lemma position_None {A} (p : A → bool) l : position p l = None → Forall (λ y, p y = false) l.
Proof.
  induction l as [|x l IH]; cbn; [constructor|]. destruct (p x) eqn:Hp; [done|].
  intros H. apply fmap_None in H. auto.
Qed.

Lemma remove_at_split r l1 s l2 :
  slots r = l1 ++ s :: l2 →
  remove_at (length l1) r =
    r <| slots := l1 ++ l2 |> <| bytes := (bytes r - retained_bytes (env s))%N |>.
Proof.
  intros Hs. unfold remove_at. rewrite Hs, list_lookup_middle by done.
  rewrite take_app_length, drop_app_ge by lia.
  replace (S (length l1) - length l1)%nat with 1%nat by lia. done.
Qed.

(** What a turn of the loop does. *)
Lemma evict_step_Some r r' :
  evict_step r = Some r' →
  ∃ l1 s l2, slots r = l1 ++ s :: l2 ∧
    r' = r <| slots := l1 ++ l2 |> <| bytes := (bytes r - retained_bytes (env s))%N |> ∧
    over_bounds r = true ∧
    ((l1 = [] ∧ pinned s = false) ∨
     (is_durable (delivery (env s)) = false ∧ (l2 = [] → (capacity r < length (slots r))%nat) ∧
      Forall (λ y, is_durable (delivery (env y)) = true) l1 ∧
      ∃ s0 l, slots r = s0 :: l ∧ pinned s0 = true)).
Proof.
  unfold evict_step. destruct (over_bounds r) eqn:Hob; [|done].
  destruct (slots r) as [|s0 rest] eqn:Hs; [done|].
  destruct (pinned s0) eqn:Hp; cbn [negb].
  - destruct (position _ _) as [i|] eqn:Hi; [|done].
    apply position_Some in Hi as (l1 & s & l2 & Hl & <- & Hd & Hall).
    destruct ((length l1 + 1 <? length (s0 :: rest))%nat || _) eqn:Hb; [|done]. intros [= <-].
    exists l1, s, l2. split_and!; [done|..].
    + apply remove_at_split. congruence.
    + done.
    + right. split_and!.
      * by apply negb_true_iff.
      * intros ->. apply orb_true_iff in Hb. rewrite !Nat.ltb_lt, Hl, length_app in Hb.
        rewrite Hl, length_app. cbn in *. lia.
      * eapply list.Forall_impl; [exact Hall|]. intros y. cbn. by rewrite negb_false_iff.
      * by exists s0, rest.
  - intros [= <-]. exists [], s0, rest. split_and!; auto. by apply (remove_at_split r []).
Qed.

Lemma evict_step_None r :
  evict_step r = None →
  over_bounds r = false ∨
  (∃ s l, slots r = s :: l ∧ pinned s = true ∧
     (Forall (λ y, is_durable (delivery (env y)) = true) (slots r) ∨
      ∃ l1 y, slots r = l1 ++ [y] ∧ Forall (λ y, is_durable (delivery (env y)) = true) l1 ∧
        is_durable (delivery (env y)) = false ∧ (length (slots r) ≤ capacity r)%nat)).
Proof.
  unfold evict_step. destruct (over_bounds r) eqn:Hob; [|by left].
  destruct (slots r) as [|s0 rest] eqn:Hs.
  { unfold over_bounds in Hob. rewrite Hs in Hob.
    apply orb_true_iff in Hob as [H|H]; [apply Nat.ltb_lt in H; cbn in H; lia|done]. }
  destruct (pinned s0) eqn:Hp; cbn [negb]; [|done]. intros H. right. exists s0, rest.
  split_and!; [done|done|]. destruct (position _ _) as [i|] eqn:Hi.
  - right. apply position_Some in Hi as (l1 & s & l2 & Hl & <- & Hd & Hall).
    destruct ((length l1 + 1 <? length (s0 :: rest))%nat || _) eqn:Hb; [done|].
    apply orb_false_elim in Hb as [Hb1 Hb2]. apply Nat.ltb_ge in Hb1, Hb2.
    assert (l2 = []) as ->. { destruct l2; [done|]. rewrite Hl, length_app in Hb1. cbn in Hb1. lia. }
    exists l1, s. split_and!; auto.
    + eapply list.Forall_impl; [exact Hall|]. intros y. cbn. by rewrite negb_false_iff.
    + by apply negb_true_iff.
  - left. apply position_None in Hi. eapply list.Forall_impl; [exact Hi|].
    intros y. cbn. by rewrite negb_false_iff.
Qed.

Lemma evict_step_length r r' : evict_step r = Some r' → (length (slots r') < length (slots r))%nat.
Proof.
  intros (l1 & s & l2 & Hs & -> & _)%evict_step_Some. rewrite Hs. cbn. rewrite !length_app. cbn. lia.
Qed.

(** The loop ends: its fuel, the ring's length, is enough. *)
Lemma evict_done r : evict_step (evict_to_capacity r) = None.
Proof.
  unfold evict_to_capacity.
  assert (∀ fuel r, (length (slots r) ≤ fuel)%nat → evict_step (evict_loop fuel r) = None) as H; [|by apply H].
  clear r. induction fuel as [|fuel IH]; intros r Hf; cbn.
  - destruct (evict_step r) eqn:He; [|done]. apply evict_step_length in He. lia.
  - destruct (evict_step r) as [r'|] eqn:He; [|done]. apply IH.
    apply evict_step_length in He. lia.
Qed.

Lemma evict_loop_fuel fuel1 fuel2 r :
  (length (slots r) ≤ fuel1)%nat → (length (slots r) ≤ fuel2)%nat →
  evict_loop fuel1 r = evict_loop fuel2 r.
Proof.
  assert (∀ fuel r, length (slots r) = 0%nat → evict_loop fuel r = r) as H0.
  { intros [|fuel] r' Hr; cbn; [done|]. destruct (evict_step r') eqn:He; [|done].
    apply evict_step_length in He. lia. }
  revert fuel2 r. induction fuel1 as [|f1 IH]; intros [|f2] r H1 H2; cbn [evict_loop]; try done.
  - symmetry. apply (H0 (S f2)). lia.
  - apply (H0 (S f1)). lia.
  - destruct (evict_step r) eqn:He; [|done]. apply evict_step_length in He. apply IH; lia.
Qed.

(** The loop, unfolded. *)
Lemma evict_unfold r :
  evict_to_capacity r =
    match evict_step r with Some r' => evict_to_capacity r' | None => r end.
Proof.
  unfold evict_to_capacity. destruct (length (slots r)) as [|n] eqn:Hl; cbn [evict_loop].
  - destruct (evict_step r) eqn:He; [|done]. apply evict_step_length in He. lia.
  - destruct (evict_step r) as [r'|] eqn:He; [|done]. apply evict_step_length in He.
    apply evict_loop_fuel; lia.
Qed.

(** Induction along the loop. *)
Lemma evict_ind (P : HotRing → HotRing → Prop) :
  (∀ r, evict_step r = None → P r r) →
  (∀ r r', evict_step r = Some r' → P r' (evict_to_capacity r') → P r (evict_to_capacity r')) →
  ∀ r, P r (evict_to_capacity r).
Proof.
  intros Hn Hs r. remember (length (slots r)) as n eqn:Hl. revert r Hl.
  induction n as [n IH] using lt_wf_ind. intros r ->. rewrite evict_unfold.
  destruct (evict_step r) as [r'|] eqn:He; [|auto]. apply (Hs r r' He), (IH (length (slots r'))); [|done].
  by apply evict_step_length.
Qed.

(** ** What every sequence of ring operations keeps *)
Inductive ring_op := OpPush (e : Envelope) | OpConfirm (id : EventId).

Definition ring_step (r : HotRing) (op : ring_op) : HotRing :=
  match op with OpPush e => push e r | OpConfirm id => mark_persisted id r end.
Definition ring_run (cap : nat) (budget : N) (ops : list ring_op) : HotRing :=
  foldl ring_step (HotRing_new cap budget) ops.

Definition pushed (ops : list ring_op) : list Envelope :=
  omap (λ op, match op with OpPush e => Some e | _ => None end) ops.
Definition confirmed (ops : list ring_op) : list EventId :=
  omap (λ op, match op with OpConfirm id => Some id | _ => None end) ops.

(** The ring holds the tail [d] of durables was pushed with, at least those not
    in [ids]. *)
Record ring_inv (d : list Envelope) (ids : list EventId) (r : HotRing) : Prop := {
  ri_wf : ring_wf r;
  ri_suffix : durables (ring_envs r) `suffix_of` d;
  ri_pinned : ∀ e, In e d → event_id e ∉ ids → In (MkSlot e true) (slots r);
}.

Lemma durables_app l1 l2 : durables (l1 ++ l2) = durables l1 ++ durables l2.
Proof. apply list.filter_app. Qed.

Lemma ring_inv_evict_step d ids r r' :
  evict_step r = Some r' → ring_inv d ids r → ring_inv d ids r'.
Proof.
  intros (l1 & s & l2 & Hs & -> & _ & Hev)%evict_step_Some [[Hb Hp Hc] Hsuf Hpin].
  unfold ring_envs in *. rewrite Hs in *. split; cbn.
  - split; cbn; [|by apply list.Forall_app in Hp as [? [_ ?]%list.Forall_cons]; apply list.Forall_app|done].
    unfold ring_envs. cbn. rewrite Hb, !fmap_app, !fmap_cons, !sum_N_app, sum_N_cons. lia.
  - etrans; [|exact Hsuf]. rewrite !fmap_app, fmap_cons, !durables_app.
    change (env s :: (env <$> l2)) with ([env s] ++ (env <$> l2)). rewrite durables_app.
    destruct Hev as [[-> _]|[Hnd _]].
    + cbn. by apply suffix_app_r.
    + assert (durables [env s] = []) as ->; [|done].
      unfold durables. rewrite filter_cons_False; [done|]. by rewrite Hnd.
  - intros e He Hn. specialize (Hpin e He Hn). apply in_app_or in Hpin as [?|[->|?]];
      [apply in_or_app; auto| |apply in_or_app; auto].
    destruct Hev as [[_ Hev]|[Hnd _]]; [discriminate Hev|].
    apply list.Forall_app in Hp as [_ [Hp _]%list.Forall_cons]. cbn in *.
    rewrite Hp in Hnd by done. done.
Qed.

Lemma ring_inv_evict d ids r : ring_inv d ids r → ring_inv d ids (evict_to_capacity r).
Proof.
  apply (evict_ind (λ r r', ring_inv d ids r → ring_inv d ids r')); [done|].
  eauto using ring_inv_evict_step.
Qed.

Lemma ring_inv_push d ids e r :
  ring_inv d ids r → ring_inv (d ++ durables [e]) ids (push e r).
Proof.
  intros [[Hb Hp Hc] Hsuf Hpin]. unfold push. apply ring_inv_evict. split; cbn.
  - split; cbn; [|apply list.Forall_app; split; [done|by repeat constructor]|done].
    unfold ring_envs in *. cbn. rewrite Hb, !fmap_app, sum_N_app. cbn. lia.
  - unfold ring_envs in *. cbn. rewrite fmap_app, durables_app. by apply suffix_app.
  - intros e' [He|He]%in_app_or Hn; apply in_or_app; [left; auto|right].
    unfold durables in He. cbn in He. destruct (decide _) as [Hd|]; [|done].
    destruct He as [<-|[]]. rewrite Hd. by left.
Qed.

Lemma unpin_env id l : env <$> unpin id l = env <$> l.
Proof. induction l as [|s l IH]; cbn; [done|]. case_bool_decide; cbn; congruence. Qed.

Lemma unpin_Forall id l :
  Forall (λ s, pinned s = true → is_durable (delivery (env s)) = true) l →
  Forall (λ s, pinned s = true → is_durable (delivery (env s)) = true) (unpin id l).
Proof. induction 1; cbn; [constructor|]. case_bool_decide; by constructor. Qed.

Lemma unpin_In id l e : In (MkSlot e true) l → event_id e ≠ id → In (MkSlot e true) (unpin id l).
Proof.
  induction l as [|s l IH]; cbn; [done|]. intros [->|Hin] Hne.
  - rewrite bool_decide_false by done. by left.
  - case_bool_decide; [by right|]. right. auto.
Qed.

Lemma ring_inv_confirm d ids id r : ring_inv d ids r → ring_inv d (id :: ids) (mark_persisted id r).
Proof.
  intros [[Hb Hp Hc] Hsuf Hpin]. unfold mark_persisted. apply ring_inv_evict.
  split; cbn; unfold ring_envs in *; cbn; rewrite ?unpin_env; [|done|].
  - split; cbn; unfold ring_envs; cbn; rewrite ?unpin_env; auto using unpin_Forall.
  - intros e He Hn. apply not_elem_of_cons in Hn as [? ?]. apply unpin_In; auto.
Qed.

Lemma ring_run_inv cap budget ops :
  ∃ ids, (∀ id, id ∈ ids ↔ id ∈ confirmed ops) ∧
    ring_inv (durables (pushed ops)) ids (ring_run cap budget ops).
Proof.
  induction ops as [|op ops (ids & Hids & Hinv)] using rev_ind.
  - exists []. split; [done|]. split; [|done|done]. split; cbn; [done|constructor|lia].
  - unfold ring_run in *. unfold pushed, confirmed in *. rewrite foldl_app, !omap_app, durables_app.
    destruct op as [e|id]; cbn.
    + exists ids. rewrite app_nil_r. split; [done|]. by apply ring_inv_push.
    + exists (id :: ids). rewrite durables_app || rewrite app_nil_r. split.
      * intros i. rewrite elem_of_cons, elem_of_app, list_elem_of_singleton, Hids. tauto.
      * by apply ring_inv_confirm.
Qed.

(** ** Theorems *)

(** No durable event is lost from RAM before it is persisted: after any
    pushes and confirmations, the durable events the ring holds are a suffix of
    those pushed (no hole in the middle), and every pushed durable whose
    persistence has not been confirmed is still there, pinned. *)
Theorem ring_keeps_unpersisted cap budget ops :
  let r := ring_run cap budget ops in
  durables (ring_envs r) `suffix_of` durables (pushed ops) ∧
  ∀ e, e ∈ durables (pushed ops) → event_id e ∉ confirmed ops → MkSlot e true ∈ slots r.
Proof.
  destruct (ring_run_inv cap budget ops) as (ids & Hids & [_ Hs Hp]). split; [done|].
  intros e He Hn. apply list_elem_of_In, Hp; [by apply list_elem_of_In|]. by rewrite Hids.
Qed.

Lemma durables_Forall l :
  Forall (λ y, is_durable (delivery (env y)) = true) l → durables (env <$> l) = env <$> l.
Proof.
  intros H. apply filter_all. intros e (s & -> & Hs)%list_elem_of_fmap.
  rewrite list.Forall_forall in H. auto.
Qed.

Lemma evicted_bounds r :
  evict_step r = None → ring_wf r →
  (length (slots r) ≤ Nat.max (capacity r) (length (durables (ring_envs r))))%nat ∧
  (pinned_count r = 0%nat →
     (length (slots r) ≤ capacity r)%nat ∧
     ((length (slots r) ≤ 1)%nat ∨ (bytes r ≤ byte_budget r)%N)).
Proof.
  intros [Hob|(s & l & Hs & Hp & Hcase)]%evict_step_None W.
  - unfold over_bounds in Hob. apply orb_false_elim in Hob as [Ho1 Ho2].
    apply Nat.ltb_ge in Ho1. split; [lia|]. intros _. split; [done|].
    apply andb_false_iff in Ho2 as [H|H]; [apply Nat.ltb_ge in H|apply N.ltb_ge in H]; auto.
  - split.
    + destruct Hcase as [Hall|(l1 & y & Hl & _ & _ & Hle)]; [|lia].
      unfold ring_envs. rewrite durables_Forall, length_fmap by done. lia.
    + unfold pinned_count. rewrite Hs, filter_cons_True by done. cbn. lia.
Qed.

Lemma evict_config r :
  capacity (evict_to_capacity r) = capacity r ∧ byte_budget (evict_to_capacity r) = byte_budget r.
Proof.
  apply (evict_ind (λ r r', capacity r' = capacity r ∧ byte_budget r' = byte_budget r)); [done|].
  intros r1 r2 (? & ? & ? & _ & -> & _)%evict_step_Some [-> ->]. done.
Qed.

(** The last operation of a run left the ring fully evicted. *)
Lemma ring_run_evicted cap budget ops : evict_step (ring_run cap budget ops) = None.
Proof.
  destruct ops as [|op ops _] using rev_ind.
  - unfold ring_run, evict_step, over_bounds. cbn. done.
  - unfold ring_run. rewrite foldl_app. cbn. destruct op; apply evict_done.
Qed.

Lemma ring_step_config r op :
  capacity (ring_step r op) = capacity r ∧ byte_budget (ring_step r op) = byte_budget r.
Proof. destruct op; cbn [ring_step]; split; (etrans; [apply evict_config|done]). Qed.

Lemma ring_run_config cap budget ops :
  capacity (ring_run cap budget ops) = Nat.max cap 1 ∧
  byte_budget (ring_run cap budget ops) = budget.
Proof.
  unfold ring_run. induction ops as [|op ops [IH1 IH2]] using rev_ind; [done|].
  rewrite foldl_app. cbn [foldl]. split; (etrans; [apply ring_step_config|done]).
Qed.

(** The ring is bounded and its byte count exact: after any operations the
    byte total is the sum over what it holds, the entries exceed the capacity
    only by durable events, and once nothing is pinned both the entry and the
    byte bound hold (one oversized entry excepted). *)
Theorem ring_bounded cap budget ops :
  let r := ring_run cap budget ops in
  bytes r = sum_N (retained_bytes <$> ring_envs r) ∧
  (ring_len r ≤ Nat.max (Nat.max cap 1) (length (durables (ring_envs r))))%nat ∧
  (pinned_count r = 0%nat →
     (ring_len r ≤ Nat.max cap 1)%nat ∧ ((ring_len r ≤ 1)%nat ∨ (bytes r ≤ budget)%N)).
Proof.
  destruct (ring_run_inv cap budget ops) as (ids & _ & [W _ _]).
  destruct (ring_run_config cap budget ops) as [Hc Hb].
  destruct (evicted_bounds _ (ring_run_evicted cap budget ops) W) as [H1 H2].
  rewrite Hc in H1, H2. rewrite Hb in H2. split; [apply W|]. by split.
Qed.

(** The newest entry survives eviction unless the durable floor alone fills the
    ring. *)
Lemma evict_keeps_last r e p :
  Forall (λ s, pinned s = true → is_durable (delivery (env s)) = true) (slots r) →
  list.last (slots r) = Some (MkSlot e p) → (1 ≤ capacity r)%nat →
  list.last (slots (evict_to_capacity r)) = Some (MkSlot e p) ∨
  (is_durable (delivery e) = false ∧ (capacity r ≤ length (slots (evict_to_capacity r)))%nat ∧
   durables (ring_envs (evict_to_capacity r)) = ring_envs (evict_to_capacity r)).
Proof.
  apply (evict_ind (λ r r',
    Forall (λ s, pinned s = true → is_durable (delivery (env s)) = true) (slots r) →
    list.last (slots r) = Some (MkSlot e p) → (1 ≤ capacity r)%nat →
    list.last (slots r') = Some (MkSlot e p) ∨
    (is_durable (delivery e) = false ∧ (capacity r ≤ length (slots r'))%nat ∧
     durables (ring_envs r') = ring_envs r'))); [by left|].
  clear r. intros r r' Hstep IH Hp Hl Hc.
  apply evict_step_Some in Hstep as (l1 & s & l2 & Hs & Hr' & Hob & Hev).
  assert (slots r' = l1 ++ l2) as Hs' by by rewrite Hr'.
  assert (capacity r' = capacity r) as Hc' by by rewrite Hr'. rewrite Hs' in IH. rewrite Hs in Hp, Hl.
  assert (Forall (λ s, pinned s = true → is_durable (delivery (env s)) = true) (l1 ++ l2)) as Hp'
    by (apply list.Forall_app in Hp as [? [_ ?]%list.Forall_cons]; by apply list.Forall_app).
  destruct l2 as [|s2 l2].
  - rewrite last_snoc in Hl. injection Hl as ->. destruct Hev as [[-> Hpin]|(Hnd & Hlen & Hall & Hhd)].
    + unfold over_bounds in Hob. rewrite Hs in Hob. cbn [length app] in Hob.
      apply orb_true_iff in Hob as [Hob|Hob]; [apply Nat.ltb_lt in Hob; lia|done].
    + right. split; [done|]. specialize (Hlen eq_refl). rewrite Hs, length_app in Hlen. cbn in Hlen.
      rewrite app_nil_r in Hs'. destruct Hhd as (s0 & l & Hhd & Hpin).
      assert (evict_step r' = None) as Hnone.
      { destruct (evict_step r') as [r2|] eqn:He; [|done].
        apply evict_step_Some in He as (a1 & x & a2 & Hx & _ & _ & Hx2).
        rewrite Hs' in Hx. rewrite Hx in Hs, Hall.
        destruct Hx2 as [[-> Hx2]|[Hx2 _]].
        - cbn in Hs. assert (x = s0) as -> by congruence. congruence.
        - apply list.Forall_app in Hall as [_ [Hxd _]%list.Forall_cons]. congruence. }
      rewrite evict_unfold, Hnone. unfold ring_envs. rewrite Hs'. split; [lia|].
      by apply durables_Forall.
  - rewrite Hc' in IH. apply IH; [done| |done].
    rewrite last_app_cons in Hl |- *. rewrite last_cons_cons in Hl. done.
Qed.

(** the live edge: a pushed event is the newest entry of the ring, unless it
    is lossy and the ring is filled to capacity by durable events that may not
    be dropped. *)
Theorem push_live_edge cap budget ops e :
  let r := ring_run cap budget ops in
  newest_cursor (push e r) = Some (cursor e) ∨
  (is_durable (delivery e) = false ∧ (Nat.max cap 1 ≤ ring_len (push e r))%nat ∧
   durables (ring_envs (push e r)) = ring_envs (push e r)).
Proof.
  cbn zeta. destruct (ring_run_inv cap budget ops) as (ids & _ & [[_ Hp Hc] _ _]).
  destruct (ring_run_config cap budget ops) as [Hcap _]. revert Hp Hc Hcap.
  generalize (ring_run cap budget ops) as r. intros r Hp Hc Hcap. unfold push, newest_cursor, ring_len.
  match goal with |- context [evict_to_capacity ?x] => set (r1 := x) end.
  destruct (evict_keeps_last r1 e (is_durable (delivery e))) as [Hl|(Hd & Hlen & Hall)].
  - subst r1. cbn. apply list.Forall_app. split; [done|]. by repeat constructor.
  - subst r1. cbn. by rewrite last_snoc.
  - done.
  - left. by rewrite Hl.
  - right. split; [done|]. split; [|done]. rewrite <- Hcap. done.
Qed.

(** ** The ring as a window on what was pushed

    From its oldest entry on, the ring misses only non-durable events: the
    pushed events split in two, everything the ring holds lies in the second
    part, which starts at its oldest entry, and all durables of that part are
    still there. *)
Definition ring_shape (p : list Envelope) (r : HotRing) : Prop :=
  ∃ p1 p2, p = p1 ++ p2 ∧ ring_envs r `sublist_of` p2 ∧ durables p2 = durables (ring_envs r) ∧
    head p2 = head (ring_envs r).

Lemma sublist_durables l1 l2 : l1 `sublist_of` l2 → durables l1 `sublist_of` durables l2.
Proof.
  induction 1 as [|x l1 l2 _ IH|x l1 l2 _ IH]; [done|..]; unfold durables in *; rewrite !filter_cons;
    destruct (decide _); [by apply sublist_skip|done|by apply sublist_cons|done].
Qed.

Lemma sublist_length_inv {A} (l1 l2 : list A) :
  l1 `sublist_of` l2 → (length l2 ≤ length l1)%nat → l1 = l2.
Proof.
  induction 1 as [|x l1 l2 _ IH|x l1 l2 Hs _]; cbn; intros Hl; [done|f_equal; apply IH; lia|].
  apply sublist_length in Hs. lia.
Qed.

(** A sublist with all the durables: everything before its first element is not
    durable. *)
Lemma shape_tail l p :
  l `sublist_of` p → durables p = durables l →
  ∃ q p', p = q ++ p' ∧ l `sublist_of` p' ∧ durables p' = durables l ∧ head p' = head l.
Proof.
  intros Hsub Hd. destruct l as [|y l].
  - exists p, []. rewrite app_nil_r. split_and!; done.
  - apply sublist_cons_l in Hsub as (q & p' & -> & Hsub). exists q, (y :: p').
    split_and!; [done|by apply sublist_skip| |done].
    assert (durables (y :: l) `sublist_of` durables (y :: p')) as Hs
      by (apply sublist_durables; by apply sublist_skip).
    rewrite durables_app in Hd. apply (f_equal length) in Hd. rewrite length_app in Hd.
    pose proof (sublist_length _ _ Hs). symmetry. apply sublist_length_inv; [done|lia].
Qed.

Lemma ring_shape_evict p r : ring_wf r → ring_shape p r → ring_shape p (evict_to_capacity r).
Proof.
  apply (evict_ind (λ r r', ring_wf r → ring_shape p r → ring_shape p r')); [done|].
  clear r. intros r r' Hstep IH Hwf (p1 & p2 & -> & Hsub & Hd & Hh). apply IH.
  { apply (ring_inv_evict_step (durables (ring_envs r)) (event_id <$> ring_envs r)
      r r' Hstep). split; [done|done|]. intros e He Hn. destruct Hn.
    apply list_elem_of_fmap_2. unfold durables in He. apply list_elem_of_In, list_elem_of_filter in He.
    apply He. }
  clear IH. apply evict_step_Some in Hstep as (l1 & s & l2 & Hs & -> & _ & Hev).
  unfold ring_shape, ring_envs in *. cbn. rewrite Hs in *. rewrite !fmap_app, fmap_cons in *. destruct Hev as [[-> _]|(Hnd & _ & _ & s0 & l & Hhd & Hp)].
  - cbn [app fmap list_fmap] in *. destruct p2 as [|x p2]; [done|]. injection Hh as ->.
    assert ((env <$> l2) `sublist_of` p2) as Hsub'.
    { apply sublist_cons_l in Hsub as (q & p' & Hq & Hsub). destruct q as [|y q].
      - by injection Hq as ->.
      - injection Hq as -> ->. apply sublist_inserts_l, sublist_cons, Hsub. }
    assert (durables p2 = durables (env <$> l2)) as Hd'.
    { unfold durables in *. rewrite !filter_cons in Hd. destruct (decide _); [by injection Hd|done]. }
    destruct (shape_tail _ _ Hsub' Hd') as (q & p' & -> & ? & ? & ?).
    exists (p1 ++ env s :: q), p'. split_and!; [by rewrite <- app_assoc|done..].
  - exists p1, p2. split_and!; [done|..].
    + etrans; [|exact Hsub]. apply sublist_app; [done|]. by apply sublist_cons.
    + rewrite Hd, !durables_app. f_equal. unfold durables. rewrite filter_cons_False; [done|]. by rewrite Hnd.
    + rewrite Hh. destruct l1 as [|s1 l1]; [|done]. cbn in Hhd. injection Hhd as -> _.
      destruct Hwf as [_ Hpin _]. rewrite Hs in Hpin. cbn in Hpin.
      apply list.Forall_cons in Hpin as [Hpin _]. rewrite Hpin in Hnd by done. done.
Qed.

Lemma ring_wf_of_inv d ids r : ring_inv d ids r → ring_wf r.
Proof. apply ri_wf. Qed.

Lemma ring_shape_push p r e : ring_wf r → ring_shape p r → ring_shape (p ++ [e]) (push e r).
Proof.
  intros [Hb Hp Hc] (p1 & p2 & -> & Hsub & Hd & Hh). unfold push. apply ring_shape_evict.
  - split; cbn; [|apply list.Forall_app; split; [done|by repeat constructor]|done].
    unfold ring_envs in *. cbn. rewrite Hb, !fmap_app, sum_N_app. cbn. lia.
  - exists p1, (p2 ++ [e]). unfold ring_envs in *. cbn. rewrite fmap_app. split_and!.
    + by rewrite app_assoc.
    + apply sublist_app; [done|reflexivity].
    + by rewrite !durables_app, Hd.
    + destruct (env <$> slots r), p2; cbn in *; congruence.
Qed.

Lemma ring_shape_confirm p r id : ring_wf r → ring_shape p r → ring_shape p (mark_persisted id r).
Proof.
  intros [Hb Hp Hc] H. unfold mark_persisted. apply ring_shape_evict.
  - split; cbn; unfold ring_envs; cbn; rewrite ?unpin_env; auto using unpin_Forall.
  - unfold ring_shape, ring_envs in *. cbn. by rewrite unpin_env.
Qed.

Lemma ring_shape_new cap budget : ring_shape [] (HotRing_new cap budget).
Proof. by exists [], []. Qed.

(** A ring filled by one unpersisted durable drops the newest (lossy) event at
    once, against the module's own description. *)
Module RingScenario.
Definition env_at (n : N) (d : DeliveryClass) : Envelope :=
  (Envelope_new (MkId n) (MkId 1) (MkId 1, MkId 1) KMessage d [0%N]) <| seq := MkSeq 1 n |>.
Lemma newest_lossy_dropped :
  let r := ring_run 1 1000 [OpPush (env_at 1 Durable)] in
  newest_cursor (push (env_at 2 EphemeralWindow) r) = Some (cursor (env_at 1 Durable)).
Proof. vm_compute. reflexivity. Qed.
End RingScenario.
