(* ===== verification/BusIndex.v ===== *)
(** The channel's subscriber index, [crates/airc-bus/src/subscriber_index.rs]:
    registrations whose filter demands one exact header are bucketed by that
    header, so that a publish only looks at the buckets its headers name.

    A [HashMap] is a [gmap]; its iteration order is the map's, and every theorem
    is up to that order.  Values carry their own filter ([filt]), as the router's
    handles do. *)
From stdpp Require Import base gmap strings list sorting numbers.
From S2P Require Import Prelude WorkModel CoreTranscript.

(** [exact_key]. *)
Fixpoint exact_key (filter : HeaderFilter) : option (rstring * rstring) :=
  match filter with
  | HfExact key value => Some (key, value)
  | HfAll filters =>
      (fix find_map (fs : list HeaderFilter) : option (rstring * rstring) :=
         match fs with
         | [] => None
         | f :: fs => match exact_key f with Some k => Some k | None => find_map fs end
         end) filters
  | HfAny | HfPrefix _ _ | HfAnyOf _ | HfHas _ | HfNot _ => None
  end.

Definition hash_values {K V} `{Countable K} (m : gmap K V) : list V := (map_to_list m).*2.

Section index.
Context {T : Type}.

Record SubscriberIndex := MkIndex {
  general : gmap N T;
  exact : gmap rstring (gmap rstring (gmap N T));
  idx_len : N;
}.

(** [SubscriberIndex::new]. *)
Definition index_new : SubscriberIndex := MkIndex ∅ ∅ 0.

(** [insert]: [entry(..).or_default()] twice, then the bucket. *)
Definition index_insert (id : N) (headers : HeaderFilter) (value : T) (self : SubscriberIndex)
    : SubscriberIndex :=
  match exact_key headers with
  | Some (key, expected) =>
      let values := unwrap_or (exact self !! key) ∅ in
      let bucket := unwrap_or (values !! expected) ∅ in
      MkIndex (general self) (<[key := <[expected := <[id := value]> bucket]> values]> (exact self))
        (idx_len self + 1)
  | None => MkIndex (<[id := value]> (general self)) (exact self) (idx_len self + 1)
  end.

(** [remove]. *)
Definition index_remove (id : N) (headers : HeaderFilter) (self : SubscriberIndex)
    : SubscriberIndex :=
  let finish (removed : bool) g x :=
    MkIndex g x (if removed then (idx_len self - 1)%N else idx_len self) in
  match exact_key headers with
  | None => finish (is_some (general self !! id)) (delete id (general self)) (exact self)
  | Some (key, expected) =>
      match exact self !! key with
      | None => self
      | Some values =>
          let '(removed, values) :=
            match values !! expected with
            | Some bucket =>
                let bucket' := delete id bucket in
                (is_some (bucket !! id),
                 if decide (bucket' = ∅) then delete expected values
                 else <[expected := bucket']> values)
            | None => (false, values)
            end in
          finish removed (general self)
            (if decide (values = ∅) then delete key (exact self) else <[key := values]> (exact self))
      end
  end.

(** [values]. *)
Definition index_values (self : SubscriberIndex) : list T :=
  hash_values (general self)
  ++ (hash_values (exact self) ≫= λ values, hash_values values ≫= hash_values).

(** [visit]: the entries handed to the callback, in order. *)
Definition visit (headers : Headers) (self : SubscriberIndex) : list T :=
  hash_values (general self)
  ++ (bt_entries headers ≫= λ kv,
        match exact self !! kv.1 ≫= λ values, values !! kv.2 with
        | Some bucket => hash_values bucket
        | None => []
        end).
End index.
Arguments SubscriberIndex T : clear implicits.

(** ** Registrations and their guards

    [EventRouter::subscribe_mode] takes an id from the router's
    [next_subscription], inserts the handle under its filter into the channel's
    index, and gives the stream a [SubscriptionGuard] with the same id and filter;
    dropping the guard removes the entry.  Only guards that exist can be dropped,
    and only once.  [RegisterElsewhere] is a subscription to another channel,
    which takes an id too. *)
Section registrations.
Context {T : Type} (filt : T → HeaderFilter).

Record SubTable := MkSubTable {
  next_subscription : N;
  sub_index : SubscriberIndex T;
  guards : gmap N HeaderFilter;
}.

Inductive sub_op := Register (v : T) | RegisterElsewhere | DropGuard (id : N).

Definition register_sub (v : T) (t : SubTable) : SubTable :=
  let id := next_subscription t in
  MkSubTable (id +w 1) (index_insert id (filt v) v (sub_index t)) (<[id := filt v]> (guards t)).
Definition drop_guard (id : N) (t : SubTable) : SubTable :=
  match guards t !! id with
  | Some headers =>
      MkSubTable (next_subscription t) (index_remove id headers (sub_index t)) (delete id (guards t))
  | None => t
  end.
Definition sub_step (t : SubTable) (op : sub_op) : SubTable :=
  match op with
  | Register v => register_sub v t
  | RegisterElsewhere => MkSubTable (next_subscription t +w 1) (sub_index t) (guards t)
  | DropGuard id => drop_guard id t
  end.
Definition sub_run (ops : list sub_op) : SubTable :=
  foldl sub_step (MkSubTable 1 index_new ∅) ops.

(** *** Specification: the live registrations, by id *)
Definition live_step (s : N * gmap N T) (op : sub_op) : N * gmap N T :=
  match op with
  | Register v => ((s.1 + 1)%N, <[s.1 := v]> s.2)
  | RegisterElsewhere => ((s.1 + 1)%N, s.2)
  | DropGuard id => (s.1, delete id s.2)
  end.
Definition live_subs (ops : list sub_op) : gmap N T := (foldl live_step (1%N, ∅) ops).2.

Definition bucket_at (idx : SubscriberIndex T) (k e : rstring) : gmap N T :=
  unwrap_or (exact idx !! k ≫= λ values, values !! e) ∅.

Record index_rep (regs : gmap N T) (idx : SubscriberIndex T) : Prop := {
  ir_general id v : general idx !! id = Some v ↔ regs !! id = Some v ∧ exact_key (filt v) = None;
  ir_exact k e id v :
    bucket_at idx k e !! id = Some v ↔ regs !! id = Some v ∧ exact_key (filt v) = Some (k, e);
  ir_nonempty k values : exact idx !! k = Some values →
    values ≠ ∅ ∧ ∀ e b, values !! e = Some b → b ≠ ∅;
  ir_len : idx_len idx = N.of_nat (size regs);
}.

Lemma index_rep_new : index_rep ∅ index_new.
Proof.
  split; unfold index_new, bucket_at; cbn.
  - intros. rewrite !lookup_empty. naive_solver.
  - intros. rewrite !lookup_empty. cbn. rewrite lookup_empty. naive_solver.
  - intros k values. by rewrite lookup_empty.
  - by rewrite map_size_empty.
Qed.

Lemma index_rep_insert regs idx id v :
  regs !! id = None → index_rep regs idx →
  index_rep (<[id := v]> regs) (index_insert id (filt v) v idx).
Proof.
  intros Hid [Hg He Hn Hl]. unfold index_insert.
  assert (∀ i w, <[id := v]> regs !! i = Some w ↔ (i = id ∧ w = v) ∨ regs !! i = Some w) as Hreg.
  { intros i w. rewrite lookup_insert_Some. split; [naive_solver|].
    intros [[-> ->]|Hw]; [by left|]. right. split; [congruence|done]. }
  assert (idx_len idx + 1 = N.of_nat (size (<[id := v]> regs)))%N as Hlen.
  { rewrite map_size_insert_None, Hl by done. lia. }
  destruct (exact_key (filt v)) as [[key expected]|] eqn:Hkey; split; cbn; try done.
  - intros i w. rewrite Hg, Hreg. naive_solver congruence.
  - intros k e i w. rewrite Hreg.
    assert (bucket_at (MkIndex (general idx) (<[key := <[expected := <[id := v]>
      (unwrap_or (unwrap_or (exact idx !! key) ∅ !! expected) ∅)]>
      (unwrap_or (exact idx !! key) ∅)]> (exact idx)) (idx_len idx + 1)) k e =
      if decide (k = key ∧ e = expected) then <[id := v]> (bucket_at idx k e)
      else bucket_at idx k e) as ->.
    { unfold bucket_at. cbn. destruct (decide (k = key)) as [->|Hk].
      - rewrite lookup_insert_eq. cbn. destruct (decide (e = expected)) as [->|Hne].
        + rewrite lookup_insert_eq, decide_True by done. cbn.
          destruct (exact idx !! key); cbn; [done|by rewrite lookup_empty].
        + rewrite lookup_insert_ne, decide_False by naive_solver. 
          destruct (exact idx !! key); cbn; [done|by rewrite lookup_empty].
      - rewrite lookup_insert_ne, decide_False by naive_solver. done. }
    case_decide as Hc.
    + destruct Hc as [-> ->]. rewrite lookup_insert_Some, He.
      split; [naive_solver|]. intros [[[-> ->]|Hw] Hx]; [by left|]. right. split; [congruence|done].
    + rewrite He. naive_solver congruence.
  - intros k values. rewrite lookup_insert_Some. intros [[<- <-]|[Hk Hv]]; [|by eapply Hn].
    split; [apply insert_non_empty|]. intros e b. rewrite lookup_insert_Some.
    intros [[<- <-]|[Hne Hb]]; [apply insert_non_empty|].
    destruct (exact idx !! key) as [values|] eqn:Hk; cbn in Hb; [by eapply Hn|done].
  - intros i w. rewrite lookup_insert_Some, Hg, Hreg. split; [naive_solver|].
    intros [[[-> ->]|Hw] Hx]; [by left|]. right. split; [congruence|done].
  - intros k e i w. unfold bucket_at in *. cbn. rewrite He, Hreg. naive_solver congruence.
Qed.

Lemma index_rep_remove regs idx id v :
  regs !! id = Some v → index_rep regs idx →
  index_rep (delete id regs) (index_remove id (filt v) idx).
Proof.
  intros Hid [Hg He Hn Hl]. unfold index_remove.
  assert (idx_len idx - 1 = N.of_nat (size (delete id regs)))%N as Hlen.
  { rewrite Hl, map_size_delete_Some by eauto. lia. }
  destruct (exact_key (filt v)) as [[key expected]|] eqn:Hkey.
  - pose proof (proj2 (He key expected id v) (conj Hid Hkey)) as Hin. unfold bucket_at in Hin.
    destruct (exact idx !! key) as [values|] eqn:Hvs; cbn in Hin; [|done].
    destruct (values !! expected) as [bucket|] eqn:Hb; cbn in Hin; [|done].
    set (values' := if decide (delete id bucket = ∅) then _ else _).
    set (exact' := if decide (values' = ∅) then _ else _). rewrite Hin. cbn [is_some].
    assert (∀ e, unwrap_or (values' !! e) ∅ =
      if decide (e = expected) then delete id bucket else unwrap_or (values !! e) ∅) as Hv'.
    { intros e. subst values'. destruct (decide (e = expected)) as [->|Hne].
      - case_decide as Hz; [rewrite lookup_delete_eq; cbn; done|by rewrite lookup_insert_eq].
      - case_decide; [by rewrite lookup_delete_ne|by rewrite lookup_insert_ne]. }
    split; cbn; [|intros k e i w|intros k vs|done].
    + intros i w. rewrite Hg, lookup_delete_Some. naive_solver congruence.
    + assert (bucket_at (MkIndex (general idx) exact' (idx_len idx - 1)) k e =
        if decide (k = key ∧ e = expected) then delete id (bucket_at idx k e) else bucket_at idx k e) as ->.
      { unfold bucket_at. cbn. subst exact'. destruct (decide (k = key)) as [->|Hk].
        - assert ((if decide (values' = ∅) then delete key (exact idx)
                   else <[key := values']> (exact idx)) !! key ≫= (λ values, values !! e) = values' !! e) as ->.
          { case_decide as Hz; [|by rewrite lookup_insert_eq].
            rewrite Hz, lookup_delete_eq, lookup_empty. done. }
          rewrite Hv', Hvs. cbn. destruct (decide (e = expected)) as [->|Hne].
          + rewrite decide_True by (split; reflexivity). rewrite Hb. reflexivity.
          + rewrite decide_False by (intros [_ ?]; by apply Hne). reflexivity.
        - destruct (decide (k = key ∧ e = expected)) as [[? _]|_]; [done|].
          case_decide; [by rewrite lookup_delete_ne|by rewrite lookup_insert_ne]. }
      rewrite lookup_delete_Some. case_decide as Hc.
      * destruct Hc as [-> ->]. rewrite lookup_delete_Some, He. naive_solver.
      * rewrite He. naive_solver congruence.
    + subst exact'. intros Hk.
      assert ((k ≠ key ∧ exact idx !! k = Some vs) ∨ (k = key ∧ vs = values' ∧ values' ≠ ∅))
        as [[? ?]|(-> & -> & Hne)]; [|by eapply Hn|].
      { destruct (decide (values' = ∅)).
        - apply lookup_delete_Some in Hk as [? ?]. auto.
        - apply lookup_insert_Some in Hk as [[<- <-]|[? ?]]; auto. }
      split; [done|]. intros e b Hbe. specialize (Hv' e). rewrite Hbe in Hv'. cbn in Hv'. subst values'.
      destruct (decide (delete id bucket = ∅)) as [Hz|Hz].
      * apply lookup_delete_Some in Hbe as [_ Hbe]. by eapply Hn.
      * apply lookup_insert_Some in Hbe as [[<- <-]|[_ Hbe]]; [done|by eapply Hn].
  - pose proof (proj2 (Hg id v) (conj Hid Hkey)) as Hin. rewrite Hin. cbn [is_some].
    split; cbn; [|intros k e i w|done|done].
    + intros i w. rewrite !lookup_delete_Some, Hg. naive_solver.
    + unfold bucket_at in *. cbn. rewrite He, lookup_delete_Some. naive_solver congruence.
Qed.

Lemma sub_run_inv ops :
  (N.of_nat (length ops) + 1 < u64_modulus)%N →
  let t := sub_run ops in
  next_subscription t = (foldl live_step (1%N, ∅) ops).1 ∧
  (next_subscription t ≤ N.of_nat (length ops) + 1)%N ∧
  index_rep (live_subs ops) (sub_index t) ∧
  guards t = filt <$> live_subs ops ∧
  ∀ id, is_Some (live_subs ops !! id) → (id < next_subscription t)%N.
Proof.
  unfold sub_run, live_subs. induction ops as [|op ops IH] using rev_ind; intros Hn; cbn zeta.
  { cbn. split_and!; [done|done|apply index_rep_new|by rewrite fmap_empty|].
    intros id [x Hx]. by rewrite lookup_empty in Hx. }
  rewrite length_app in Hn. cbn [length] in Hn.
  destruct IH as (Hnext & Hle & Hrep & Hgu & Hid); [lia|].
  rewrite !foldl_app, length_app. cbn [foldl length]. revert Hnext Hle Hrep Hgu Hid.
  generalize (foldl sub_step (MkSubTable 1 index_new ∅) ops) as t.
  generalize (foldl live_step (1%N, ∅) ops) as s. intros [next live] t. cbn.
  intros Hnext Hle Hrep Hgu Hid.
  assert (next_subscription t +w 1 = next_subscription t + 1)%N as Hw by (apply wadd_small; u64_lia).
  destruct op as [v| |id]; cbn; rewrite ?Hw.
  - assert (live !! next_subscription t = None) as Hfresh.
    { destruct (live !! next_subscription t) eqn:Hx; [|done]. specialize (Hid _ (mk_is_Some _ _ Hx)). lia. }
    rewrite <- Hnext. split_and!; [done|lia|by apply index_rep_insert|by rewrite fmap_insert, Hgu|].
    intros id [x Hx]. apply lookup_insert_Some in Hx as [[<- _]|[_ Hx]]; [lia|].
    specialize (Hid _ (mk_is_Some _ _ Hx)). lia.
  - rewrite <- Hnext. split_and!; [done|lia|done|done|]. intros i Hi. specialize (Hid i Hi). lia.
  - unfold drop_guard. rewrite Hgu, lookup_fmap. destruct (live !! id) as [v|] eqn:Hv; cbn.
    + split_and!; [done|lia|by apply index_rep_remove|by rewrite fmap_delete|].
      intros i [x [_ Hx]%lookup_delete_Some]. eauto.
    + rewrite delete_id by done. split_and!; [done|lia|done|done|done].
Qed.

(** A filter that matches finds its exact header in the event. *)
Lemma exact_key_sound f headers k v :
  exact_key f = Some (k, v) → filter_matches f headers = true → headers !! k = Some v.
Proof.
  revert f. fix IH 1. intros [|key value| |fs| | |]; cbn; try done.
  - intros H Hm. apply bool_decide_eq_true_1 in Hm. clear IH. congruence.
  - induction fs as [|f fs IHfs]; [done|]. cbn. intros Hk [Hf Hfs]%andb_prop.
    destruct (exact_key f) as [[k' v']|] eqn:Hf'; [|by apply IHfs].
    apply (IH f); [congruence|done].
Qed.

(** The entries behind [visit] and [values], with their ids. *)
Definition visit_ids (headers : Headers) (idx : SubscriberIndex T) : list (N * T) :=
  map_to_list (general idx)
  ++ (bt_entries headers ≫= λ kv, map_to_list (bucket_at idx kv.1 kv.2)).
Definition value_ids (idx : SubscriberIndex T) : list (N * T) :=
  map_to_list (general idx)
  ++ (map_to_list (exact idx) ≫= λ kv, map_to_list kv.2 ≫= λ eb, map_to_list eb.2).

Lemma bind_snd {A B C} (f : A → list (B * C)) (g : A → list C) l :
  (∀ x, g x = (f x).*2) → (l ≫= g) = (l ≫= f).*2.
Proof. intros H. induction l as [|x l IH]; [done|]. by rewrite !bind_cons, fmap_app, IH, H. Qed.

Lemma visit_ids_snd headers idx : visit headers idx = (visit_ids headers idx).*2.
Proof.
  unfold visit, visit_ids. rewrite fmap_app. f_equal. apply bind_snd. intros [k e]. unfold bucket_at.
  destruct (exact idx !! _ ≫= _); cbn; [done|by rewrite map_to_list_empty].
Qed.

Lemma value_ids_snd idx : index_values idx = (value_ids idx).*2.
Proof.
  unfold index_values, value_ids, hash_values. rewrite fmap_app. f_equal.
  transitivity (map_to_list (exact idx) ≫= λ kv, (map_to_list kv.2).*2 ≫= λ b, (map_to_list b).*2).
  - induction (map_to_list (exact idx)) as [|x l IH]; [done|]. by rewrite fmap_cons, !bind_cons, IH.
  - apply bind_snd. intros [k vs]. cbn.
    induction (map_to_list vs) as [|x l IH]; [done|]. by rewrite fmap_cons, !bind_cons, fmap_app, IH.
Qed.

Lemma visit_ids_elem regs idx headers id v :
  index_rep regs idx →
  (id, v) ∈ visit_ids headers idx ↔
  regs !! id = Some v ∧
  (exact_key (filt v) = None ∨ ∃ k e, exact_key (filt v) = Some (k, e) ∧ headers !! k = Some e).
Proof.
  intros [Hg He _ _]. unfold visit_ids. rewrite elem_of_app, elem_of_map_to_list, list_elem_of_bind, Hg.
  split.
  - intros [?|([k e] & Hin & Hk)]; [naive_solver|].
    apply elem_of_map_to_list, He in Hin. apply elem_of_bt_entries in Hk. naive_solver.
  - intros [Hr [Hn|(k & e & Hk & Hh)]]; [by left|right].
    exists (k, e). rewrite elem_of_map_to_list, elem_of_bt_entries. split; [by apply He|done].
Qed.

Lemma visit_ids_NoDup regs idx headers : index_rep regs idx → NoDup (visit_ids headers idx).
Proof.
  intros [Hg He _ _]. apply list.NoDup_app. split_and!.
  - apply NoDup_map_to_list.
  - intros [id v] Hin (kv & Hin' & _)%list_elem_of_bind.
    apply elem_of_map_to_list, Hg in Hin. apply elem_of_map_to_list, He in Hin'. destruct Hin, Hin'. congruence.
  - apply list.NoDup_bind.
    + intros [k1 e1] [k2 e2] [id v] _ _ H1 H2.
      apply elem_of_map_to_list, He in H1, H2. cbn in *. destruct H1, H2. congruence.
    + intros x _. apply NoDup_map_to_list.
    + rewrite bt_entries_perm. apply NoDup_map_to_list.
Qed.

Lemma value_ids_elem regs idx id v :
  index_rep regs idx → (id, v) ∈ value_ids idx ↔ regs !! id = Some v.
Proof.
  intros [Hg He _ _]. unfold value_ids. rewrite elem_of_app, elem_of_map_to_list, list_elem_of_bind, Hg.
  split.
  - intros [?|([k vs] & ([e b] & Hin & Hb)%list_elem_of_bind & Hk)]; [naive_solver|].
    apply elem_of_map_to_list in Hin, Hb, Hk. cbn in *. apply (He k e). unfold bucket_at.
    by rewrite Hk; cbn; rewrite Hb.
  - intros Hr. destruct (exact_key (filt v)) as [[k e]|] eqn:Hk; [right|by left].
    pose proof (proj2 (He k e id v) (conj Hr Hk)) as Hin. unfold bucket_at in Hin.
    destruct (exact idx !! k) as [vs|] eqn:Hvs; cbn in Hin; [|done].
    destruct (vs !! e) as [b|] eqn:Hb; cbn in Hin; [|done].
    exists (k, vs). rewrite list_elem_of_bind, elem_of_map_to_list. split; [|done].
    exists (e, b). by rewrite !elem_of_map_to_list.
Qed.

Lemma value_ids_NoDup regs idx : index_rep regs idx → NoDup (value_ids idx).
Proof.
  intros [Hg He _ _]. assert (∀ k vs e b id v, exact idx !! k = Some vs → vs !! e = Some b →
    b !! id = Some v → exact_key (filt v) = Some (k, e)) as Hkey.
  { intros k vs e b id v Hk Hb Hv. apply (He k e id v). unfold bucket_at. rewrite Hk. cbn. by rewrite Hb. }
  apply list.NoDup_app. split_and!.
  - apply NoDup_map_to_list.
  - intros [id v] Hin ([k vs] & ([e b] & Hv & Hb)%list_elem_of_bind & Hk)%list_elem_of_bind.
    apply elem_of_map_to_list in Hin, Hv, Hb, Hk. apply Hg in Hin as [_ Hin].
    specialize (Hkey _ _ _ _ _ _ Hk Hb Hv). congruence.
  - apply list.NoDup_bind; [| |apply NoDup_map_to_list].
    + intros [k1 vs1] [k2 vs2] [id v] Hk1 Hk2 ([e1 b1] & Hv1 & Hb1)%list_elem_of_bind
        ([e2 b2] & Hv2 & Hb2)%list_elem_of_bind.
      apply elem_of_map_to_list in Hk1, Hk2, Hv1, Hv2, Hb1, Hb2. cbn in *.
      pose proof (Hkey _ _ _ _ _ _ Hk1 Hb1 Hv1). pose proof (Hkey _ _ _ _ _ _ Hk2 Hb2 Hv2). congruence.
    + intros [k vs] Hk%elem_of_map_to_list. apply list.NoDup_bind; [| |apply NoDup_map_to_list].
      * intros [e1 b1] [e2 b2] [id v] Hb1 Hb2 Hv1 Hv2.
        apply elem_of_map_to_list in Hv1, Hv2, Hb1, Hb2. cbn in *.
        pose proof (Hkey _ _ _ _ _ _ Hk Hb1 Hv1). pose proof (Hkey _ _ _ _ _ _ Hk Hb2 Hv2). congruence.
      * intros [e b] _. apply NoDup_map_to_list.
Qed.

Lemma filter_fmap_snd (P : T → Prop) `{!∀ x, Decision (P x)} (l : list (N * T)) :
  filter P l.*2 = (filter (λ x, P x.2) l).*2.
Proof.
  induction l as [|x l IH]; [done|]. rewrite fmap_cons, !filter_cons.
  destruct (decide (P x.2)); cbn; by rewrite IH.
Qed.

(** The exact-header index loses nobody and duplicates nobody: whatever
    registrations were made and guards dropped, evaluating the full filter on
    the entries a publish visits selects exactly the live registrations that
    match its headers, each once; [values] is exactly the live registrations and
    [len] counts them; and every entry visited either has no exact key or its
    key is among the headers. *)
Theorem subscriber_index_exact (ops : list sub_op) (headers : Headers) :
  (N.of_nat (length ops) + 1 < u64_modulus)%N →
  let idx := sub_index (sub_run ops) in
  let live := hash_values (live_subs ops) in
  let hit v := filter_matches (filt v) headers = true in
  filter hit (visit headers idx) ≡ₚ filter hit live ∧
  index_values idx ≡ₚ live ∧ idx_len idx = N.of_nat (length live) ∧
  Forall (λ v, is_none_or (exact_key (filt v)) (λ kv, bool_decide (headers !! kv.1 = Some kv.2)) = true)
    (visit headers idx).
Proof.
  intros Hn idx live hit. destruct (sub_run_inv ops Hn) as (_ & _ & Hrep & _). fold idx in Hrep.
  unfold live, hash_values. split_and!.
  - rewrite visit_ids_snd, !filter_fmap_snd. apply fmap_Permutation, NoDup_Permutation.
    + by apply list.NoDup_filter, (visit_ids_NoDup (live_subs ops)).
    + apply list.NoDup_filter, NoDup_map_to_list.
    + intros [id v]. rewrite !list_elem_of_filter, (visit_ids_elem (live_subs ops)) by done.
      rewrite elem_of_map_to_list. split; [tauto|]. intros [Hm Hr]. split; [done|]. split; [done|].
      destruct (exact_key (filt v)) as [[k e]|] eqn:Hk; [right|by left].
      exists k, e. split; [done|]. by eapply exact_key_sound.
  - rewrite value_ids_snd. apply fmap_Permutation, NoDup_Permutation.
    + by eapply value_ids_NoDup.
    + apply NoDup_map_to_list.
    + intros [id v]. by rewrite (value_ids_elem (live_subs ops)), elem_of_map_to_list.
  - rewrite length_fmap, length_map_to_list. apply Hrep.
  - rewrite visit_ids_snd. apply list.Forall_forall. intros v ([id v'] & -> & Hin)%list_elem_of_fmap.
    apply (visit_ids_elem (live_subs ops)) in Hin as [_ Hin]; [|done]. cbn.
    destruct Hin as [->|(k & e & -> & Hh)]; [done|]. cbn. by apply bool_decide_eq_true_2.
Qed.
End registrations.

Lemma subscriber_index_exact_witness :
  let f := HfAll [HfHas (str "reply"); HfExact (str "id") (str "one")] in
  let ops := [Register f; Register HfAny; Register (HfNot f); DropGuard 2] in
  let h : Headers := <[str "id" := str "one"]> (<[str "reply" := str "yes"]> ∅) in
  filter (λ v, filter_matches v h = true) (visit h (sub_index (sub_run id ops))) ≡ₚ [f].
Proof.
  cbn zeta. set (f := HfAll _).
  rewrite (proj1 (subscriber_index_exact id [Register f; Register HfAny; Register (HfNot f); DropGuard 2]
    (<[str "id" := str "one"]> (<[str "reply" := str "yes"]> ∅)) ltac:(reflexivity))).
  vm_compute. reflexivity.
Defined.
