(* ===== verification/BusEphemeral.v ===== *)
(** The coalesced ephemeral cache, [crates/airc-bus/src/ephemeral.rs]: one
    channel's latest value per coalesce key, each with its own time to live. *)
From stdpp Require Import base gmap strings list sorting numbers.
From S2P Require Import Prelude WorkModel CoreTranscript BusEnvelope.

Definition HEADER_EPHEMERAL_TTL_MS : rstring := str "airc.ephemeral_ttl_ms".

Record Entry := MkEntry { ee_env : Envelope; stored_at_ms : N; entry_ttl_ms : N }.
Record EphemeralCache := MkCache { latest : gmap rstring Entry; ttl_ms : N }.

Definition EphemeralCache_new (ttl : N) : EphemeralCache := MkCache ∅ ttl.

(** The slot and the time to live [coalesce] gives an envelope. *)
Definition slot_key (env : Envelope) : rstring :=
  unwrap_or (coalesce_key env) (show_id (event_id env)).
Definition envelope_ttl (default : N) (env : Envelope) : N :=
  unwrap_or (headers env !! HEADER_EPHEMERAL_TTL_MS ≫= parse_u64) default.

Definition coalesce (env : Envelope) (now_ms : N) (self : EphemeralCache) : EphemeralCache :=
  MkCache (<[slot_key env := MkEntry env now_ms (envelope_ttl (ttl_ms self) env)]> (latest self))
    (ttl_ms self).

Definition is_expired (ttl stored now_ms : N) : bool :=
  negb (ttl =? 0)%N && (ttl <=? saturating_sub now_ms stored)%N.
Definition expired (e : Entry) (now_ms : N) : bool :=
  is_expired (entry_ttl_ms e) (stored_at_ms e) now_ms.

Definition cache_get (key : rstring) (now_ms : N) (self : EphemeralCache) : option Envelope :=
  e ← latest self !! key; if expired e now_ms then None else Some (ee_env e).

Definition sweep (now_ms : N) (self : EphemeralCache) : nat * EphemeralCache :=
  let before := size (latest self) in
  let kept := filter (λ kv, expired kv.2 now_ms = false) (latest self) in
  ((before - size kept)%nat, MkCache kept (ttl_ms self)).

Definition live_entries (now_ms : N) (self : EphemeralCache) : list Entry :=
  filter (λ e, expired e now_ms = false) (map_to_list (latest self)).*2.
Definition snapshot (now_ms : N) (self : EphemeralCache) : list Envelope :=
  ee_env <$> live_entries now_ms self.
Definition live_len (now_ms : N) (self : EphemeralCache) : nat := length (live_entries now_ms self).

(** ** What the cache means: the last offer for a key, while it lives *)
Inductive cache_op := OpCoalesce (env : Envelope) (at_ms : N) | OpSweep (at_ms : N).

Definition op_time (op : cache_op) : N :=
  match op with OpCoalesce _ t | OpSweep t => t end.
Definition cache_step (c : EphemeralCache) (op : cache_op) : EphemeralCache :=
  match op with
  | OpCoalesce env t => coalesce env t c
  | OpSweep t => (sweep t c).2
  end.
Definition cache_run (ttl : N) (ops : list cache_op) : EphemeralCache :=
  foldl cache_step (EphemeralCache_new ttl) ops.

(** The last envelope offered for [key], and when. *)
Definition offer_for (key : rstring) (op : cache_op) : option (Envelope * N) :=
  match op with
  | OpCoalesce env t => if decide (slot_key env = key) then Some (env, t) else None
  | OpSweep _ => None
  end.
Definition last_offer (key : rstring) (ops : list cache_op) : option (Envelope * N) :=
  last (omap (offer_for key) ops).
Definition offer_at (ttl now_ms : N) (o : Envelope * N) : option Envelope :=
  if is_expired (envelope_ttl ttl o.1) o.2 now_ms then None else Some o.1.

(** An expired entry stays expired. *)
Lemma is_expired_mono ttl stored t1 t2 :
  (t1 ≤ t2)%N → is_expired ttl stored t1 = true → is_expired ttl stored t2 = true.
Proof.
  unfold is_expired, saturating_sub. rewrite !andb_true_iff, !N.leb_le. intros ? [? ?]. split; [done|lia].
Qed.

(** What the map holds for a key, as long as the clock does not go back: the
    last offer, unless a sweep found it expired. *)
Definition slot_ok (ttl : N) (now : N) (o : option (Envelope * N)) (e : option Entry) : Prop :=
  e = (λ o, MkEntry o.1 o.2 (envelope_ttl ttl o.1)) <$> o ∨
  (e = None ∧ ∃ p, o = Some p ∧ is_expired (envelope_ttl ttl p.1) p.2 now = true).

Lemma last_offer_snoc key ops op :
  last_offer key (ops ++ [op]) =
    match offer_for key op with Some o => Some o | None => last_offer key ops end.
Proof.
  unfold last_offer. rewrite omap_app. cbn. destruct (offer_for key op); [by rewrite last_snoc|].
  by rewrite app_nil_r.
Qed.

Lemma cache_run_slots ttl ops now key :
  StronglySorted N.le (op_time <$> ops) → Forall (λ op, op_time op ≤ now)%N ops →
  ttl_ms (cache_run ttl ops) = ttl ∧
  slot_ok ttl now (last_offer key ops) (latest (cache_run ttl ops) !! key).
Proof.
  revert now. induction ops as [|op ops IH] using rev_ind; intros now Hs Hn.
  { split; [done|]. left. cbn. apply lookup_empty. }
  rewrite fmap_app in Hs. apply StronglySorted_app in Hs as (Hle & Hs & _).
  apply list.Forall_app in Hn as [Hn [Hnow _]%list.Forall_cons].
  assert (Forall (λ o, op_time o ≤ op_time op)%N ops) as Hbefore.
  { apply list.Forall_forall. intros o Ho. apply Hle; [by apply list_elem_of_fmap_2|by left]. }
  destruct (IH (op_time op) Hs Hbefore) as [Httl Hslot].
  unfold cache_run. rewrite foldl_app. fold (cache_run ttl ops). cbn [foldl].
  rewrite last_offer_snoc. revert Httl Hslot. generalize (cache_run ttl ops) as c. intros c Httl Hslot.
  destruct op as [env t|t]; cbn in *; (split; [done|]).
  - case_decide as Hk.
    + left. rewrite Hk, lookup_insert_eq. cbn. by rewrite Httl.
    + rewrite lookup_insert_ne by done. destruct Hslot as [?|(? & p & ? & ?)]; [by left|right].
      eauto using is_expired_mono.
  - destruct (latest c !! key) as [e|] eqn:He.
    + destruct Hslot as [Ho|[? _]]; [|done]. destruct (last_offer key ops) as [p|]; [|done].
      injection Ho as ->. destruct (is_expired (envelope_ttl ttl p.1) p.2 t) eqn:Hx.
      * right. split; [|eauto using is_expired_mono].
        apply map_lookup_filter_None. right. rewrite He. intros ? [= <-]. unfold expired. cbn. by rewrite Hx.
      * left. apply map_lookup_filter_Some. by rewrite He.
    + assert (filter (λ kv, expired kv.2 t = false) (latest c) !! key = None) as ->.
      { apply map_lookup_filter_None. by left. }
      destruct Hslot as [?|(? & p & ? & ?)]; [by left|right]. eauto using is_expired_mono.
Qed.

(** The cache is the channel's current state and sweeping is never
    observable: with a clock that does not go back, reading a key gives the last
    envelope offered for it unless that envelope's own time to live (its header,
    else the default) has run out; the snapshot is exactly the values readable
    by key, one per key, and [live_len] counts them. *)
Theorem ephemeral_latest_wins ttl ops now :
  StronglySorted N.le (op_time <$> ops) → Forall (λ op, op_time op ≤ now)%N ops →
  let c := cache_run ttl ops in
  (∀ key, cache_get key now c = last_offer key ops ≫= offer_at ttl now) ∧
  (∀ e, e ∈ snapshot now c ↔ ∃ key, cache_get key now c = Some e) ∧
  live_len now c = length (snapshot now c) ∧
  NoDup (slot_key <$> snapshot now c).
Proof.
  intros Hs Hn. set (c := cache_run ttl ops). cbn zeta.
  assert (∀ key, slot_ok ttl now (last_offer key ops) (latest c !! key)) as Hslot
    by (intros key; by apply cache_run_slots).
  assert (∀ key e, latest c !! key = Some e → slot_key (ee_env e) = key) as Hkey.
  { intros key e He. specialize (Hslot key). rewrite He in Hslot. destruct Hslot as [Ho|[? _]]; [|done].
    unfold last_offer in Ho. destruct (last _) as [p|] eqn:Hl; [|done]. injection Ho as ->. cbn.
    apply last_Some_elem_of, list_elem_of_omap in Hl as ([env t|t] & _ & Hp); [|done]. cbn in Hp.
    case_decide; [|done]. by injection Hp as <-. }
  split_and!.
  - intros key. unfold cache_get, offer_at. destruct (Hslot key) as [->|(-> & p & -> & Hx)].
    + destruct (last_offer key ops) as [p|]; cbn; [|done]. done.
    + cbn. by rewrite Hx.
  - intros e. unfold snapshot, live_entries, cache_get. rewrite list_elem_of_fmap. split.
    + intros (en & -> & [Hx ([k en'] & -> & Hin%elem_of_map_to_list)%list_elem_of_fmap]%list_elem_of_filter).
      exists k. rewrite Hin. cbn in *. by rewrite Hx.
    + intros [key Hg]. destruct (latest c !! key) as [en|] eqn:He; [|done]. cbn in Hg.
      destruct (expired en now) eqn:Hx; [done|]. injection Hg as <-. exists en. split; [done|].
      rewrite list_elem_of_filter. split; [done|]. apply list_elem_of_fmap. exists (key, en).
      by rewrite elem_of_map_to_list.
  - unfold live_len, snapshot. by rewrite length_fmap.
  - assert (∀ l : list (rstring * Entry), (∀ kv, kv ∈ l → slot_key (ee_env kv.2) = kv.1) → NoDup l.*1 →
      NoDup (slot_key <$> (ee_env <$> filter (λ e, expired e now = false) l.*2))) as Hl.
    { induction l as [|[k e] l IHl]; intros Hk Hd; [constructor|]. cbn [fmap list_fmap] in Hd |- *.
      apply list.NoDup_cons in Hd as [Hnin Hd]. rewrite filter_cons.
      assert (∀ kv, kv ∈ l → slot_key (ee_env kv.2) = kv.1) as Hk' by (intros; apply Hk; by right).
      case_decide; [|by apply IHl]. rewrite !fmap_cons. apply list.NoDup_cons. split; [|by apply IHl].
      intros (ev & Hev & (e' & -> & [_ (kv & -> & Hkv)%list_elem_of_fmap]%list_elem_of_filter)%list_elem_of_fmap)
        %list_elem_of_fmap.
      rewrite (Hk' kv Hkv), (Hk (k, e) ltac:(by left)) in Hev. cbn in *. subst k.
      apply Hnin, list_elem_of_fmap. eauto. }
    apply Hl; [|apply NoDup_fst_map_to_list]. intros [k e] Hin%elem_of_map_to_list. by apply Hkey.
Qed.

(** A presence beat that states its own time to live, and a neighbour that does
    not. *)
Module EphemeralScenario.
Definition beat (id : N) (key : rstring) : Envelope :=
  with_coalesce_key key
    (Envelope_new (MkId id) (MkId 1) (MkId 1, MkId 1) KSignal EphemeralLatest [0%N]).
Definition ops : list cache_op :=
  [OpCoalesce (with_header HEADER_EPHEMERAL_TTL_MS (show_N 180000) (beat 1 (str "presence:alice"))) 0;
   OpCoalesce (beat 2 (str "typing:bob")) 0;
   OpSweep 60000].

Lemma ephemeral_latest_wins_witness :
  cache_get (str "typing:bob") 60000 (cache_run 30000 ops) = None ∧
  is_some (cache_get (str "presence:alice") 60000 (cache_run 30000 ops)) = true.
Proof.
  destruct (ephemeral_latest_wins 30000 ops 60000) as [H _].
  - repeat constructor; cbn; lia.
  - repeat constructor; cbn; lia.
  - rewrite !H. split; vm_compute; reflexivity.
Defined.
End EphemeralScenario.
