(* ===== verification/BusSink.v ===== *)
(** The durable tier behind the router, [crates/airc-bus/src/{sink,error}.rs].

    [DurableSink] is the source's trait as a type class over the sink's state;
    [SinkLaws] is what the trait's documentation promises its caller, stated over
    the rows a channel has ([rows]).  The in-memory sink of the same file is an
    instance, and its laws are proved.  [page_matching] and [count_matching] are in
    [BusMatch]. *)
From stdpp Require Import base gmap strings list sorting numbers.
From S2P Require Import Prelude.
From S2P Require Import Sorted.
From S2P Require Import WorkModel.
From S2P Require Import CoreTranscript.
From S2P Require Import BusEnvelope.

(** error.rs; a boxed cause is its text. *)
Inductive BusError :=
| WriteBehindSaturated
| SinkError (message : rstring)
| SinkSource (source : rstring)
| Lagged.

Class DurableSink (S : Type) := {
  append_batch : list Envelope → ST S BusError unit;
  sink_page : RoomId → option Cursor → nat → ST S BusError (list Envelope);
  sink_head_cursor : RoomId → ST S BusError (option Cursor);
  page_tail : RoomId → option Cursor → nat → ST S BusError (list Envelope);
  page_tail_of_kinds : RoomId → option Cursor → list Kind → nat → ST S BusError (list Envelope);
  contains : EventId → ST S BusError bool;
}.

Definition env_lt (a b : Envelope) : Prop := cursor_lt (cursor a) (cursor b).
#[export] Instance env_lt_trans : Transitive env_lt.
Proof. intros a b c. unfold env_lt. apply cursor_lt_trans. Qed.

#[export] Instance env_lt_irreflexive : Irreflexive env_lt.
Proof. intros a. apply (irreflexivity cursor_lt). Qed.

Definition after_gate (gate : option Cursor) (e : Envelope) : bool :=
  match gate with None => true | Some c => is_after (cursor e) c end.
Definition before_gate (gate : option Cursor) (e : Envelope) : bool :=
  match gate with None => true | Some c => is_before (cursor e) c end.

Class SinkLaws (S : Type) `{!DurableSink S} := {
  sink_ok : S → Prop;
  rows : S → RoomId → list Envelope;
  rows_sorted s c : sink_ok s → StronglySorted env_lt (rows s c);
  rows_ids s c : sink_ok s → NoDup (event_id <$> rows s c);
  rows_channel s c e : sink_ok s → e ∈ rows s c → channel e = c;
  law_append_ok s l : sink_ok s → sink_ok (append_batch l s).2;
  law_append_keeps s l c e : sink_ok s → e ∈ rows s c → e ∈ rows (append_batch l s).2 c;
  law_append_only s l c e : sink_ok s → e ∈ rows (append_batch l s).2 c →
    e ∈ rows s c ∨ e ∈ l ∧ channel e = c;
  law_append_done s l e : sink_ok s → (append_batch l s).1 = Ok tt → e ∈ l →
    ∃ e', e' ∈ rows (append_batch l s).2 (channel e) ∧ event_id e' = event_id e;
  law_page s c from n x : sink_ok s → (sink_page c from n s).1 = Ok x →
    x = take n (filter (λ e, after_gate from e = true) (rows s c));
  law_head s c x : sink_ok s → (sink_head_cursor c s).1 = Ok x → x = cursor <$> last (rows s c);
  law_tail s c before n x : sink_ok s → (page_tail c before n s).1 = Ok x →
    x = last_n n (filter (λ e, before_gate before e = true) (rows s c));
  law_tail_kinds s c before ks n x : sink_ok s → (page_tail_of_kinds c before ks n s).1 = Ok x →
    x = last_n n (filter (λ e, kind e ∈ ks) (filter (λ e, before_gate before e = true) (rows s c)));
  law_contains s id b : sink_ok s → (contains id s).1 = Ok b →
    (b = true ↔ ∃ c e, e ∈ rows s c ∧ event_id e = id);
}.

(** ** The in-memory sink *)
Record SinkInner := MkSinkInner {
  events : gmap N (list Envelope);
  append_count : N;
  page_count : N;
}.
#[export] Instance eta_SinkInner : Eta SinkInner := λ s,
  MkSinkInner (events s) (append_count s) (page_count s).
Definition InMemoryDurableSink_new : SinkInner := MkSinkInner ∅ 0 0.

(** The order [sort_by] is given: seq, then event id. *)
Definition env_le (a b : Envelope) : Prop := is_before (cursor b) (cursor a) = false.
#[export] Instance env_le_dec : RelDecision env_le := λ a b, decide (_ = _).

Definition mem_append (e : Envelope) : ST SinkInner BusError unit := λ s,
  let bucket := unwrap_or (events s !! uuid (channel e)) [] in
  if existsb (λ x, bool_decide (event_id x = event_id e)) bucket
  then (Ok tt, s <| events := <[uuid (channel e) := bucket]> (events s) |>)
  else
    (Ok tt,
     s <| events := <[uuid (channel e) := sort_by env_le (bucket ++ [e])]> (events s) |>
       <| append_count := append_count s +w 1 |>).

(** The trait's default [append_batch]. *)
Definition mem_append_batch (l : list Envelope) : ST SinkInner BusError unit := st_iter mem_append l.

Definition bucket_of (s : SinkInner) (c : RoomId) : list Envelope :=
  unwrap_or (events s !! uuid c) [].

(** [slice::partition_point] of a partitioned slice: the length of its prefix. *)
Fixpoint partition_point {A} (p : A → bool) (l : list A) : nat :=
  match l with
  | [] => O
  | x :: l => if p x then S (partition_point p l) else O
  end.

Definition mem_head_cursor (c : RoomId) : ST SinkInner BusError (option Cursor) := λ s,
  (Ok (cursor <$> last (bucket_of s c)), s).
Definition mem_page (c : RoomId) (from : option Cursor) (limit : nat)
    : ST SinkInner BusError (list Envelope) := λ s,
  let s := s <| page_count := page_count s +w 1 |> in
  (Ok (take limit (filter (λ e, match from with None => true | Some g => is_after (cursor e) g end = true)
         (bucket_of s c))), s).
Definition tail_end (s : SinkInner) (c : RoomId) (before : option Cursor) : nat :=
  match before with
  | None => length (bucket_of s c)
  | Some b => partition_point (λ e, is_before (cursor e) b) (bucket_of s c)
  end.
Definition mem_page_tail (c : RoomId) (before : option Cursor) (limit : nat)
    : ST SinkInner BusError (list Envelope) := λ s,
  let end_ := tail_end s c before in
  let start := (end_ - limit)%nat in
  (Ok (take (end_ - start) (drop start (bucket_of s c))), s).
Definition mem_page_tail_of_kinds (c : RoomId) (before : option Cursor) (kinds : list Kind)
    (limit : nat) : ST SinkInner BusError (list Envelope) := λ s,
  let end_ := tail_end s c before in
  (Ok (reverse (take limit (filter (λ e, kind e ∈ kinds) (reverse (take end_ (bucket_of s c)))))), s).
Definition mem_contains (id : EventId) : ST SinkInner BusError bool := λ s,
  (Ok (existsb (λ kv, existsb (λ e, bool_decide (event_id e = id)) kv.2) (map_to_list (events s))), s).

#[export] Instance mem_sink : DurableSink SinkInner := {|
  append_batch := mem_append_batch;
  sink_page := mem_page;
  sink_head_cursor := mem_head_cursor;
  page_tail := mem_page_tail;
  page_tail_of_kinds := mem_page_tail_of_kinds;
  contains := mem_contains;
|}.

(** [max_counter], for seeding the next life's counter. *)
Definition max_counter (s : SinkInner) : N :=
  foldr N.max 0%N ((λ e, counter (seq e)) <$> (map_to_list (events s) ≫= snd)).

(** ** The laws of the in-memory sink *)
Lemma env_le_spec a b : env_le a b ↔ cursor a = cursor b ∨ env_lt a b.
Proof. unfold env_le. rewrite is_before_false. unfold env_lt. split; intros [?|?]; auto. Qed.

#[export] Instance env_le_trans : Transitive env_le.
Proof.
  intros a b c. rewrite !env_le_spec. unfold env_lt. intros [H1|H1] [H2|H2]; rewrite ?H1, <- ?H2; auto.
  right. by etrans.
Qed.
#[export] Instance env_le_total : Total env_le.
Proof.
  intros a b. rewrite !env_le_spec. unfold env_lt.
  destruct (cursor_lt_total (cursor a) (cursor b)) as [|[|]]; auto.
Qed.

(** A bucket is sorted, and its events are distinct and of its channel. *)
Record bucket_ok (k : N) (l : list Envelope) : Prop := {
  bo_sorted : StronglySorted env_le l;
  bo_ids : NoDup (event_id <$> l);
  bo_channel : Forall (λ e, uuid (channel e) = k) l;
}.
Definition mem_ok (s : SinkInner) : Prop := ∀ k l, events s !! k = Some l → bucket_ok k l.

Lemma bucket_of_ok s c : mem_ok s → bucket_ok (uuid c) (bucket_of s c).
Proof.
  intros Hs. unfold bucket_of. destruct (events s !! uuid c) eqn:He; cbn; [by apply Hs|].
  split; [constructor|apply NoDup_nil_2|constructor].
Qed.

Lemma bucket_strict k l : bucket_ok k l → StronglySorted env_lt l.
Proof.
  intros [Hs Hn _]. induction Hs as [|e l Hs IH He]; constructor.
  - apply IH. by apply list.NoDup_cons in Hn as [_ ?].
  - rewrite list.Forall_forall in *. intros x Hx. specialize (He x Hx).
    apply env_le_spec in He as [He|He]; [|done]. rewrite fmap_cons in Hn.
    apply list.NoDup_cons in Hn as [Hn _]. destruct Hn.
    assert (event_id e = event_id x) as -> by (unfold cursor in He; congruence).
    by apply list_elem_of_fmap_2.
Qed.

Lemma bucket_ok_insert k l e :
  bucket_ok k l → uuid (channel e) = k →
  existsb (λ x, bool_decide (event_id x = event_id e)) l = false →
  bucket_ok k (sort_by env_le (l ++ [e])).
Proof.
  intros [Hs Hn Hc] He Hex. split.
  - apply sort_by_sorted; apply _.
  - rewrite sort_by_perm, fmap_app. apply list.NoDup_app. split_and!; [done| |apply NoDup_singleton].
    intros id (x & -> & Hx)%list_elem_of_fmap Hid. apply list_elem_of_singleton in Hid.
    assert (existsb (λ x, bool_decide (event_id x = event_id e)) l = true); [|congruence].
    apply existsb_exists. exists x. rewrite <- list_elem_of_In. split; [done|]. by apply bool_decide_eq_true_2.
  - rewrite sort_by_perm. apply list.Forall_app. split; [done|]. by repeat constructor.
Qed.

(** One append: its effect on every bucket. *)
Lemma mem_append_spec s e :
  mem_ok s →
  (mem_append e s).1 = Ok tt ∧ mem_ok (mem_append e s).2 ∧
  (∀ c x, x ∈ bucket_of (mem_append e s).2 c ↔
     x ∈ bucket_of s c ∨
     (x = e ∧ uuid c = uuid (channel e) ∧ event_id e ∉ event_id <$> bucket_of s (channel e))) ∧
  event_id e ∈ event_id <$> bucket_of (mem_append e s).2 (channel e).
Proof.
  intros Hs. unfold mem_append. fold (bucket_of s (channel e)).
  pose proof (bucket_of_ok s (channel e) Hs) as Hb.
  destruct (existsb _ _) eqn:Hex; cbn; split_and!; try done.
  - intros k l. cbn. rewrite lookup_insert_Some. intros [[<- <-]|[_ ?]]; [done|by apply Hs].
  - assert (event_id e ∈ event_id <$> bucket_of s (channel e)) as Hin.
    { apply existsb_exists in Hex as (x & Hx%list_elem_of_In & Hid%bool_decide_eq_true_1).
      rewrite <- Hid. by apply list_elem_of_fmap_2. }
    intros c x. unfold bucket_of at 1. cbn. destruct (decide (uuid c = uuid (channel e))) as [Hc|Hc].
    + rewrite Hc, lookup_insert_eq. cbn. unfold bucket_of at 2. rewrite Hc. fold (bucket_of s (channel e)).
      naive_solver.
    + rewrite lookup_insert_ne by done. fold (bucket_of s c). naive_solver.
  - unfold bucket_of at 1. cbn. rewrite lookup_insert_eq. cbn.
    apply existsb_exists in Hex as (x & Hx%list_elem_of_In & Hid%bool_decide_eq_true_1).
    rewrite <- Hid. by apply list_elem_of_fmap_2.
  - intros k l. cbn. rewrite lookup_insert_Some. intros [[<- <-]|[_ ?]]; [|by apply Hs].
    by apply bucket_ok_insert.
  - assert (event_id e ∉ event_id <$> bucket_of s (channel e)) as Hnin.
    { intros (x & Hid & Hx)%list_elem_of_fmap.
      assert (existsb (λ x, bool_decide (event_id x = event_id e)) (bucket_of s (channel e)) = true); [|congruence].
      apply existsb_exists. exists x. rewrite <- list_elem_of_In. split; [done|]. by apply bool_decide_eq_true_2. }
    intros c x. unfold bucket_of at 1. cbn. destruct (decide (uuid c = uuid (channel e))) as [Hc|Hc].
    + rewrite Hc, lookup_insert_eq. cbn. rewrite sort_by_perm, elem_of_app, list_elem_of_singleton.
      unfold bucket_of at 2. rewrite Hc. fold (bucket_of s (channel e)). naive_solver.
    + rewrite lookup_insert_ne by done. fold (bucket_of s c). naive_solver.
  - unfold bucket_of at 1. cbn. rewrite lookup_insert_eq. cbn.
    rewrite sort_by_perm, fmap_app, elem_of_app. right. by left.
Qed.

Lemma mem_append_batch_spec s l :
  mem_ok s →
  (mem_append_batch l s).1 = Ok tt ∧ mem_ok (mem_append_batch l s).2 ∧
  (∀ c x, x ∈ bucket_of s c → x ∈ bucket_of (mem_append_batch l s).2 c) ∧
  (∀ c x, x ∈ bucket_of (mem_append_batch l s).2 c →
     x ∈ bucket_of s c ∨ x ∈ l ∧ uuid c = uuid (channel x)) ∧
  (∀ e, e ∈ l → event_id e ∈ event_id <$> bucket_of (mem_append_batch l s).2 (channel e)).
Proof.
  unfold mem_append_batch. revert s. induction l as [|e l IH]; intros s Hs; cbn.
  { split_and!; [done|done|auto|auto|]. intros e He. by apply elem_of_nil in He. }
  unfold mbind, st_bind. destruct (mem_append_spec s e Hs) as (Hok & Hs' & Hin & Hid).
  destruct (mem_append e s) as [res s']. cbn in *. subst res.
  destruct (IH s' Hs') as (Hok' & Hs'' & Hk & Ho & Hd). split_and!; [done|done| | |].
  - intros c x Hx. apply Hk, Hin. by left.
  - intros c x [Hx|[Hx ?]]%Ho.
    + apply Hin in Hx as [?|(-> & ? & _)]; [by left|right]. split; [by left|done].
    + right. split; [by right|done].
  - intros x [->|Hx]%elem_of_cons; [|by apply Hd].
    apply list_elem_of_fmap in Hid as (y & Hy & Hin'). rewrite Hy. apply list_elem_of_fmap_2, Hk, Hin'.
Qed.

Lemma partition_point_le {A} (p : A → bool) l : (partition_point p l ≤ length l)%nat.
Proof. induction l as [|x l IH]; cbn; [lia|]. destruct (p x); lia. Qed.

(** On a sorted bucket the events before a cursor are a prefix. *)
Lemma before_prefix b l :
  StronglySorted env_lt l →
  take (partition_point (λ e, is_before (cursor e) b) l) l =
  filter (λ e, before_gate (Some b) e = true) l.
Proof.
  induction 1 as [|e l Hs IH He]; [done|]. cbn [partition_point]. rewrite filter_cons. cbn [before_gate].
  destruct (is_before (cursor e) b) eqn:Hb; cbn [take]; [by rewrite IH, decide_True|].
  rewrite decide_False by done. symmetry. apply filter_none. intros x Hx. cbn.
  rewrite list.Forall_forall in He. specialize (He x Hx).
  apply not_true_iff_false, is_before_false. apply is_before_false in Hb as [<-|Hb]; right; [done|].
  unfold env_lt in He. by etrans.
Qed.

Lemma tail_end_spec s c before :
  mem_ok s →
  take (tail_end s c before) (bucket_of s c) =
    filter (λ e, before_gate before e = true) (bucket_of s c) ∧
  (tail_end s c before ≤ length (bucket_of s c))%nat.
Proof.
  intros Hs. unfold tail_end. destruct before as [b|].
  - split; [|apply partition_point_le]. by eapply before_prefix, bucket_strict, bucket_of_ok.
  - split; [|done]. rewrite firstn_all. symmetry. by apply filter_all.
Qed.

#[export] Instance mem_laws : SinkLaws SinkInner.
Proof.
  refine {| sink_ok := mem_ok; rows := bucket_of |}.
  - intros s c Hs. by eapply bucket_strict, bucket_of_ok.
  - intros s c Hs. by apply (bucket_of_ok s c Hs).
  - intros s c e Hs He. destruct (bucket_of_ok s c Hs) as [_ _ Hc].
    rewrite list.Forall_forall in Hc. by apply uuid_inj, Hc.
  - intros s l Hs. apply (mem_append_batch_spec s l Hs).
  - intros s l c e Hs. apply (mem_append_batch_spec s l Hs).
  - intros s l c e Hs He. destruct (mem_append_batch_spec s l Hs) as (_ & _ & _ & Ho & _).
    destruct (Ho c e He) as [?|[? Hc]]; [by left|right]. split; [done|]. by apply uuid_inj.
  - intros s l e Hs _ He. destruct (mem_append_batch_spec s l Hs) as (_ & _ & _ & _ & Hd).
    destruct (proj1 (list_elem_of_fmap _ _ _) (Hd e He)) as (e' & ? & ?). eauto.
  - intros s c from n x _ [= <-]. done.
  - intros s c x _ [= <-]. done.
  - intros s c before n x Hs [= <-]. destruct (tail_end_spec s c before Hs) as [Ht Hl].
    rewrite <- Ht. unfold last_n. rewrite length_take_le by done.
    rewrite take_drop_commute. f_equal. f_equal. lia.
  - intros s c before ks n x Hs [= <-]. destruct (tail_end_spec s c before Hs) as [Ht Hl].
    rewrite <- Ht, filter_reverse. apply last_n_reverse.
  - intros s id b Hs [= <-]. rewrite existsb_exists. split.
    + intros ([k l] & Hin%list_elem_of_In%elem_of_map_to_list & (e & He%list_elem_of_In & Hid)%existsb_exists).
      exists (MkId k), e. unfold bucket_of. cbn in *. rewrite Hin. split; [done|].
      by apply bool_decide_eq_true_1 in Hid.
    + intros (c & e & He & <-). unfold bucket_of in He. destruct (events s !! uuid c) as [l|] eqn:Hc; [|by apply elem_of_nil in He].
      exists (uuid c, l). rewrite <- list_elem_of_In, elem_of_map_to_list. split; [done|].
      apply existsb_exists. exists e. rewrite <- list_elem_of_In. split; [done|]. by apply bool_decide_eq_true_2.
Defined.
