(* ===== verification/BusRouter.v ===== *)
(** The event router, [crates/airc-bus/src/router.rs] and
    [router/{subscribe,write_behind,history}.rs]: definitions.

    The router's shared objects are one state.  Every lock section is one
    function on it; code between lock sections is a function of its own, so that
    interleavings are sequences of these functions.  A bounded [mpsc] channel is
    its buffer, capacity and whether the receiver is alive.  A subscriber's
    channel and lag flag are shared by the handle in the index and by the stream:
    they live in [sub_chans], at the subscription's id.  The clock's reading is an
    argument.  Tracing and diagnostics are left out. *)
From stdpp Require Import base gmap strings list sorting numbers.
From S2P Require Import Prelude.
From S2P Require Import WorkModel.
From S2P Require Import CoreTranscript.
From S2P Require Import BusEnvelope.
From S2P Require Import BusRing.
From S2P Require Import BusIndex.
From S2P Require Import BusEphemeral.
From S2P Require Import BusSink.

Record RouterConfig := MkRouterConfig {
  cfg_shards : nat;
  cfg_ring_capacity : nat;
  cfg_ring_byte_budget : N;
  cfg_subscriber_buffer : nat;
  cfg_write_behind_buffer : nat;
  cfg_ephemeral_ttl_ms : N;
}.
Definition RouterConfig_default : RouterConfig := MkRouterConfig 16 256 1048576 1024 1024 30000.

(** [tx] and [lagged] of the source's handle are the pointer [sh_tx]. *)
Record SubscriberHandle := MkHandle { sh_tx : N; sh_filter : Filter }.
Definition handle_headers (h : SubscriberHandle) : HeaderFilter := f_headers (sh_filter h).

Record ChannelState := MkChannelState {
  ring : HotRing;
  ephemeral : EphemeralCache;
  subscribers : SubscriberIndex SubscriberHandle;
}.
#[export] Instance eta_ChannelState : Eta ChannelState := λ c,
  MkChannelState (ring c) (ephemeral c) (subscribers c).
Definition ChannelState_new (cfg : RouterConfig) : ChannelState :=
  MkChannelState (HotRing_new (cfg_ring_capacity cfg) (cfg_ring_byte_budget cfg))
    (EphemeralCache_new (cfg_ephemeral_ttl_ms cfg)) index_new.

(** ** Recently published event ids *)
Definition RECENT_PUBLISH_IDS_CAPACITY : N := 4096.
Record RecentEventIds := MkRecent { order : list EventId; seen : gset EventId }.
Definition RecentEventIds_with_capacity : RecentEventIds := MkRecent [] ∅.

Definition recent_insert (id : EventId) (self : RecentEventIds) : bool * RecentEventIds :=
  if decide (id ∈ seen self) then (false, self)
  else
    let seen' := {[id]} ∪ seen self in
    let '(order', seen') :=
      if (N.of_nat (length (order self)) =? RECENT_PUBLISH_IDS_CAPACITY)%N then
        match order self with
        | evicted :: rest => (rest, seen' ∖ {[evicted]})
        | [] => (order self, seen')
        end
      else (order self, seen') in
    (true, MkRecent (order' ++ [id]) seen').
Definition recent_remove (id : EventId) (self : RecentEventIds) : RecentEventIds :=
  if decide (id ∈ seen self)
  then MkRecent (filter (λ other, other ≠ id) (order self)) (seen self ∖ {[id]})
  else self.

(** ** The forward path *)
Record ForwardItem := MkForwardItem { fi_env : Envelope; fi_origin : option PeerId }.
Definition ForwardKey : Type := RoomId * PeerId * rstring.
Definition forward_key (e : Envelope) : option ForwardKey :=
  if is_ephemeral_latest (delivery e)
  then (λ k, (channel e, (from e).1, k)) <$> coalesce_key e else None.

(** [ForwardLatest]. *)
Definition ForwardLatest : Type := gmap ForwardKey ForwardItem.
Definition fl_put (key : ForwardKey) (item : ForwardItem) (l : ForwardLatest) : ForwardLatest :=
  <[key := item]> l.
Definition resolve (queued : ForwardItem) (l : ForwardLatest) : option ForwardItem * ForwardLatest :=
  match forward_key (fi_env queued) with
  | None => (Some queued, l)
  | Some key => (l !! key, delete key l)
  end.
Definition pending (l : ForwardLatest) : nat := size l.

(** A bounded [mpsc] channel of [A]. *)
Record Mpsc (A : Type) := MkMpsc { mq_buf : list A; mq_cap : nat; mq_open : bool }.
Arguments MkMpsc {A} _ _ _.
Arguments mq_buf {A} _.
Arguments mq_cap {A} _.
Arguments mq_open {A} _.
Inductive TrySend := SendOk | SendFull | SendClosed.
Definition try_send {A} (x : A) (q : Mpsc A) : TrySend * Mpsc A :=
  if negb (mq_open q) then (SendClosed, q)
  else if (length (mq_buf q) <? mq_cap q)%nat
  then (SendOk, MkMpsc (mq_buf q ++ [x]) (mq_cap q) (mq_open q))
  else (SendFull, q).

(** ** RouterInner *)
Record RouterInner := MkRouter {
  shards : list (gmap RoomId ChannelState);
  config : RouterConfig;
  seq_source : SeqSource;
  write_behind : Mpsc Envelope;
  reserved : nat;                     (* permits taken and not yet sent *)
  recent_ids : RecentEventIds;
  forward_tx : option (Mpsc ForwardItem);
  forward_drop_count : N;
  ephemeral_superseded_count : N;
  forward_latest : ForwardLatest;
  shed_count : N;
  channels_created : N;
  next_sub : N;
  sub_chans : gmap N (Mpsc Envelope);
  lag_flags : gmap N bool;
  sub_guards : gmap N (RoomId * HeaderFilter);
}.
#[export] Instance eta_RouterInner : Eta RouterInner := λ r,
  MkRouter (shards r) (config r) (seq_source r) (write_behind r) (reserved r) (recent_ids r)
    (forward_tx r) (forward_drop_count r) (ephemeral_superseded_count r) (forward_latest r)
    (shed_count r) (channels_created r) (next_sub r) (sub_chans r) (lag_flags r) (sub_guards r).

(** [EventRouter::new]. *)
Definition EventRouter_new (cfg : RouterConfig) (s : SeqSource) : RouterInner := {|
  shards := replicate (Nat.max (cfg_shards cfg) 1) ∅;
  config := cfg;
  seq_source := s;
  write_behind := MkMpsc [] (Nat.max (cfg_write_behind_buffer cfg) 1) true;
  reserved := 0;
  recent_ids := RecentEventIds_with_capacity;
  forward_tx := None;
  forward_drop_count := 0;
  ephemeral_superseded_count := 0;
  forward_latest := ∅;
  shed_count := 0;
  channels_created := 0;
  next_sub := 1;
  sub_chans := ∅;
  lag_flags := ∅;
  sub_guards := ∅;
|}.

(** [shard_for] and the channel's state in its shard. *)
Definition shard_idx (c : RoomId) (r : RouterInner) : nat :=
  N.to_nat (uuid c mod N.of_nat (length (shards r))).
Definition channel_state (c : RoomId) (r : RouterInner) : option ChannelState :=
  shards r !! shard_idx c r ≫= λ m, m !! c.
Definition set_channel_state (c : RoomId) (cs : ChannelState) (r : RouterInner) : RouterInner :=
  r <| shards := alter <[c := cs]> (shard_idx c r) (shards r) |>.
(** [entry(key).or_insert_with(..)], counting a creation. *)
Definition entry_state (c : RoomId) (r : RouterInner) : ChannelState * RouterInner :=
  match channel_state c r with
  | Some cs => (cs, r)
  | None => (ChannelState_new (config r), r <| channels_created := channels_created r +w 1 |>)
  end.

(** ** Publishing *)

(** [write_behind_tx.try_reserve()] of a durable publish. *)
Definition reserve (e : Envelope) : ST RouterInner BusError bool := λ r,
  if is_durable (delivery e) then
    if negb (mq_open (write_behind r)) then (Err (SinkError (str "write-behind task gone")), r)
    else if (length (mq_buf (write_behind r)) + reserved r <? mq_cap (write_behind r))%nat
    then (Ok true, r <| reserved := S (reserved r) |>)
    else (Err WriteBehindSaturated, r <| shed_count := shed_count r +w 1 |>)
  else (Ok false, r).

(** Stamping with the next sequence number and the clock, off every lock. *)
Definition stamp (now_ms : N) (e : Envelope) (r : RouterInner) : Envelope * RouterInner :=
  let '(s, src) := next (seq_source r) in
  (e <| seq := s |> <| occurred_at_ms := now_ms |>, r <| seq_source := src |>).

Definition record_recent (id : EventId) (r : RouterInner) : RouterInner :=
  r <| recent_ids := (recent_insert id (recent_ids r)).2 |>.

(** One subscriber of the fan-out. *)
Definition push_to (e : Envelope) (h : SubscriberHandle)
    (chans : gmap N (Mpsc Envelope) * gmap N bool) : gmap N (Mpsc Envelope) * gmap N bool :=
  if negb (matches (sh_filter h) e) then chans
  else
    match chans.1 !! sh_tx h with
    | Some q =>
        match try_send e q with
        | (SendOk, q') => (<[sh_tx h := q']> chans.1, chans.2)
        | (SendFull, _) => (chans.1, <[sh_tx h := true]> chans.2)
        | (SendClosed, _) => chans
        end
    | None => chans
    end.
Definition fan_out (e : Envelope) (idx : SubscriberIndex SubscriberHandle)
    (chans : gmap N (Mpsc Envelope) * gmap N bool) : gmap N (Mpsc Envelope) * gmap N bool :=
  foldl (λ chans h, push_to e h chans) chans (visit (headers e) idx).

(** The section under the shard lock. *)
Definition deliver (e : Envelope) (r : RouterInner) : RouterInner :=
  let '(cs, r) := entry_state (channel e) r in
  let cs :=
    if is_ephemeral_latest (delivery e)
    then cs <| ephemeral := coalesce e (occurred_at_ms e) (ephemeral cs) |>
    else cs <| ring := push e (ring cs) |> in
  let r := set_channel_state (channel e) cs r in
  let chans := fan_out e (subscribers cs) (sub_chans r, lag_flags r) in
  r <| sub_chans := chans.1 |> <| lag_flags := chans.2 |>.

(** [permit.send]. *)
Definition send_permit (permit : bool) (e : Envelope) (r : RouterInner) : RouterInner :=
  if permit then
    let q := write_behind r in
    r <| reserved := pred (reserved r) |>
      <| write_behind := MkMpsc (mq_buf q ++ [e]) (mq_cap q) (mq_open q) |>
  else r.

(** [set_forward_sink], given a fresh channel of capacity [cap]. *)
Definition set_forward_sink (cap : nat) (r : RouterInner) : RouterInner :=
  r <| forward_tx := Some (MkMpsc [] cap true) |>.
Definition offer_to_forward_sink (e : Envelope) (origin : option PeerId) (r : RouterInner)
    : RouterInner :=
  match forward_tx r with
  | None => r
  | Some tx =>
      let item := MkForwardItem e origin in
      let coalesced := forward_key e in
      let r :=
        match coalesced with
        | Some key => r <| forward_latest := fl_put key item (forward_latest r) |>
        | None => r
        end in
      match try_send item tx with
      | (SendOk, tx') => r <| forward_tx := Some tx' |>
      | (SendFull, _) =>
          if is_some coalesced
          then r <| ephemeral_superseded_count := ephemeral_superseded_count r +w 1 |>
          else r <| forward_drop_count := forward_drop_count r +w 1 |>
      | (SendClosed, _) => r <| forward_drop_count := forward_drop_count r +w 1 |>
      end
  end.
Definition finish_publish (permit : bool) (origin : option PeerId) (e : Envelope)
    (r : RouterInner) : RouterInner :=
  let r := send_permit permit e r in
  if is_durable (delivery e) || is_ephemeral_latest (delivery e)
  then offer_to_forward_sink e origin r else r.

(** [publish_from], uninterrupted. *)
Definition publish_from (now_ms : N) (e : Envelope) (origin : option PeerId)
    : ST RouterInner BusError Seq := λ r,
  match reserve e r with
  | (Err error, r) => (Err error, r)
  | (Ok permit, r) =>
      let '(e, r) := stamp now_ms e r in
      let r := record_recent (event_id e) r in
      let r := deliver e r in
      (Ok (seq e), finish_publish permit origin e r)
  end.
Definition publish (now_ms : N) (e : Envelope) : ST RouterInner BusError Seq :=
  publish_from now_ms e None.

Inductive PublishIfNew := Published (s : Seq) | Duplicate.

(** ** Reading the ephemeral state *)
Definition ephemeral_latest (now_ms : N) (c : RoomId) (key : rstring) (r : RouterInner) : option Envelope :=
  channel_state c r ≫= λ s, cache_get key now_ms (ephemeral s).
Definition ephemeral_snapshot (now_ms : N) (c : RoomId) (r : RouterInner) : list Envelope :=
  match channel_state c r with Some s => snapshot now_ms (ephemeral s) | None => [] end.
Definition pinned_in_ring (c : RoomId) (r : RouterInner) : nat :=
  match channel_state c r with Some s => pinned_count (ring s) | None => O end.
Definition router_ring_len (c : RoomId) (r : RouterInner) : nat :=
  match channel_state c r with Some s => ring_len (ring s) | None => O end.

Section sink.
Context {S : Type} `{!DurableSink S}.

(** A sink operation, seen from router and sink together. *)
Definition on_sink {A} (op : ST S BusError A) : ST (RouterInner * S) BusError A := λ s,
  let '(res, sk) := op s.2 in (res, (s.1, sk)).
Definition on_router {A} (op : ST RouterInner BusError A) : ST (RouterInner * S) BusError A := λ s,
  let '(res, r) := op s.1 in (res, (r, s.2)).

(** [publish_if_new_from]: the mark, the durable probe, the publish, and the
    unmarking of a failed attempt. *)
Definition mark_id (id : EventId) (r : RouterInner) : bool * RouterInner :=
  let '(fresh, recent) := recent_insert id (recent_ids r) in (fresh, r <| recent_ids := recent |>).
Definition unmark (id : EventId) (r : RouterInner) : RouterInner :=
  r <| recent_ids := recent_remove id (recent_ids r) |>.
Definition publish_if_new_from (now_ms : N) (e : Envelope) (origin : option PeerId)
    : ST (RouterInner * S) BusError PublishIfNew := λ s,
  let '(fresh, r) := mark_id (event_id e) s.1 in
  if negb fresh then (Ok Duplicate, (r, s.2))
  else
    match on_sink (contains (event_id e)) (r, s.2) with
    | (Ok true, s) => (Ok Duplicate, s)
    | (Ok false, s) =>
        match on_router (publish_from now_ms e origin) s with
        | (Ok q, s) => (Ok (Published q), s)
        | (Err error, (r, sk)) => (Err error, (unmark (event_id e) r, sk))
        end
    | (Err error, (r, sk)) => (Err error, (unmark (event_id e) r, sk))
    end.
Definition publish_if_new (now_ms : N) (e : Envelope) : ST (RouterInner * S) BusError PublishIfNew :=
  publish_if_new_from now_ms e None.

(** ** Durable reads, history.rs *)
Definition head_cursor (c : RoomId) (r : RouterInner) : option Cursor :=
  channel_state c r ≫= λ s, newest_cursor (ring s).
Definition sink_head (c : RoomId) (sk : S) : option Cursor :=
  match (sink_head_cursor c sk).1 with Ok o => o | Err _ => None end.

Definition durable_tip (c : RoomId) : ST (RouterInner * S) BusError (option Cursor) := λ s,
  let ring_tip := channel_state c s.1 ≫= λ cs, newest_durable_cursor (ring cs) in
  if is_some ring_tip then (Ok ring_tip, s) else on_sink (sink_head_cursor c) s.

Definition durable_tail_filtered (c : RoomId) (before : option Cursor) (kinds : option (list Kind))
    (limit : nat) : ST (RouterInner * S) BusError (list Envelope) := λ s,
  if (limit =? 0)%nat then (Ok [], s)
  else
    let matches_kind e := is_none_or kinds (λ ks, bool_decide (kind e ∈ ks)) in
    let '(tail, ring_oldest) :=
      match channel_state c s.1 with
      | Some state =>
          (filter (λ e, is_durable (delivery e) && matches_kind e
                        && is_none_or before (λ gate, is_before (cursor e) gate) = true)
             (replay_after None (ring state)),
           oldest_cursor (ring state))
      | None => ([], None)
      end in
    if (limit <=? length tail)%nat then (Ok (drop (length tail - limit) tail), s)
    else
      let remainder := (limit - length tail)%nat in
      let sink_before :=
        match before, ring_oldest with
        | Some b, Some oldest => if is_before b oldest then Some b else Some oldest
        | None, Some oldest => Some oldest
        | before, None => before
        end in
      match on_sink (match kinds with
                     | None => page_tail c sink_before remainder
                     | Some ks => page_tail_of_kinds c sink_before ks remainder
                     end) s with
      | (Ok older, s) => (Ok (older ++ tail), s)
      | (Err e, s) => (Err e, s)
      end.
Definition durable_tail (c : RoomId) (limit : nat) := durable_tail_filtered c None None limit.
Definition durable_tail_before (c : RoomId) (before : option Cursor) (limit : nat) :=
  durable_tail_filtered c before None limit.
Definition durable_tail_of_kinds (c : RoomId) (kinds : list Kind) (limit : nat) :=
  durable_tail_filtered c None (Some kinds) limit.
Definition durable_tail_before_of_kinds (c : RoomId) (before : option Cursor) (kinds : list Kind)
    (limit : nat) := durable_tail_filtered c before (Some kinds) limit.

(** [Vec::dedup_by] on event ids: drop an element equal to its predecessor. *)
Fixpoint dedup_ids (l : list Envelope) : list Envelope :=
  match l with
  | x :: l' =>
      match dedup_ids l' with
      | y :: l'' => if decide (event_id x = event_id y) then x :: l'' else x :: y :: l''
      | [] => [x]
      end
  | [] => []
  end.
Definition resume_from_cursor (c : RoomId) (from_cursor : option Cursor) (limit : nat)
    : ST (RouterInner * S) BusError (list Envelope) := λ s,
  let limit := Nat.max limit 1 in
  let '(ring_events, ring_oldest) :=
    match channel_state c s.1 with
    | Some state => (replay_after from_cursor (ring state), oldest_cursor (ring state))
    | None => ([], None)
    end in
  match on_sink (sink_page c from_cursor limit) s with
  | (Ok deep, s) =>
      let out := filter (λ e, is_none_or ring_oldest (λ o, is_before (cursor e) o)
                              && is_none_or from_cursor (λ h, is_after (cursor e) h) = true) deep in
      (Ok (take limit (dedup_ids (sort_by env_le (out ++ ring_events)))), s)
  | (Err e, s) => (Err e, s)
  end.

(** ** Write-behind, write_behind.rs *)
Definition MAX_BATCH : nat := 64.
(** [recv] then [try_recv] up to [MAX_BATCH]: the batch, and the queue it leaves. *)
Definition drain_batch (r : RouterInner) : list Envelope * RouterInner :=
  let q := write_behind r in
  (take MAX_BATCH (mq_buf q), r <| write_behind := MkMpsc (drop MAX_BATCH (mq_buf q)) (mq_cap q) (mq_open q) |>).
(** Unpinning one confirmed item. *)
Definition confirm_item (e : Envelope) (r : RouterInner) : RouterInner :=
  match channel_state (channel e) r with
  | Some cs => set_channel_state (channel e) (cs <| ring := mark_persisted (event_id e) (ring cs) |>) r
  | None => r
  end.
(** ** Subscribing, subscribe.rs *)
Definition DEEP_REPLAY_PAGE : N := 1024.

(** What the stream holds after registration. *)
Record SubStream := MkStream {
  ss_id : N;
  ss_filter : Filter;
  ss_from : option Cursor;
  ss_live_only : bool;
  ss_ring : list Envelope;
  ss_oldest : option Cursor;
}.

(** Step 1: registration and ring snapshot under one lock. *)
Definition subscribe_mode (f : Filter) (from_cursor : option Cursor) (live_only : bool)
    (r : RouterInner) : SubStream * RouterInner :=
  let id := next_sub r in
  let r := r <| next_sub := id +w 1 |> in
  let '(cs, r) := entry_state (f_channel f) r in
  let cs := cs <| subscribers := index_insert id (f_headers f) (MkHandle id f) (subscribers cs) |> in
  let r := set_channel_state (f_channel f) cs r in
  let r := r <| sub_chans := <[id := MkMpsc [] (Nat.max (cfg_subscriber_buffer (config r)) 1) true]> (sub_chans r) |>
             <| lag_flags := <[id := false]> (lag_flags r) |>
             <| sub_guards := <[id := (f_channel f, f_headers f)]> (sub_guards r) |> in
  (MkStream id f from_cursor live_only
     (if live_only then [] else replay_after from_cursor (ring cs)) (oldest_cursor (ring cs)), r).
Definition subscribe (f : Filter) (from_cursor : option Cursor) := subscribe_mode f from_cursor false.
Definition subscribe_live (f : Filter) := subscribe_mode f None true.

(** [SubscriptionGuard::drop], with the receiver of the dropped stream. *)
Definition drop_stream (id : N) (r : RouterInner) : RouterInner :=
  match sub_guards r !! id with
  | Some (c, hs) =>
      let r := r <| sub_guards := delete id (sub_guards r) |>
                 <| sub_chans := alter (λ q, MkMpsc [] (mq_cap q) false) id (sub_chans r) |> in
      match channel_state c r with
      | Some cs => set_channel_state c (cs <| subscribers := index_remove id hs (subscribers cs) |>) r
      | None => r
      end
  | None => r
  end.
(** [rx.recv()] of a non-empty channel. *)
Definition recv (id : N) (r : RouterInner) : option Envelope * RouterInner :=
  match sub_chans r !! id with
  | Some (MkMpsc (e :: buf) cap open) =>
      (Some e, r <| sub_chans := <[id := MkMpsc buf cap open]> (sub_chans r) |>)
  | _ => (None, r)
  end.

(** Step 2: the rows of one page; the flag is the ['deep] break. *)
Fixpoint deep_rows (f : Filter) (oldest : option Cursor) (deep : list Envelope) (high : option Cursor)
    : list Envelope * option Cursor * bool :=
  match deep with
  | [] => ([], high, false)
  | e :: deep =>
      if is_some_and oldest (λ o, negb (is_before (cursor e) o)) then ([], high, true)
      else if after_gate high e && matches f e then
        let '(out, high', stop) := deep_rows f oldest deep (Some (cursor e)) in
        (e :: out, high', stop)
      else deep_rows f oldest deep high
  end.
(** The page loop; [page i from] is the sink's answer to the [i]-th query, and a
    failed query is an empty page.  [None]: [fuel] pages were not enough. *)
Fixpoint deep_leg (fuel : nat) (f : Filter) (oldest : option Cursor)
    (page : nat → option Cursor → result BusError (list Envelope)) (i : nat)
    (page_from high : option Cursor) : option (list Envelope * option Cursor) :=
  match fuel with
  | O => None
  | Datatypes.S fuel =>
      let deep := match page i page_from with Ok l => l | Err _ => [] end in
      let full_page := (DEEP_REPLAY_PAGE <=? N.of_nat (length deep))%N in
      let last_cursor := cursor <$> last deep in
      let '(out, high, stop) := deep_rows f oldest deep high in
      if stop || negb full_page then Some (out, high)
      else
        match last_cursor with
        | None => Some (out, high)
        | Some next_from =>
            (λ p, (out ++ p.1, p.2)) <$> deep_leg fuel f oldest page (Datatypes.S i) (Some next_from) high
        end
  end.
(** Steps 3 and 4: yields past the watermark. *)
Fixpoint yield_ring (f : Filter) (l : list Envelope) (high : option Cursor)
    : list Envelope * option Cursor :=
  match l with
  | [] => ([], high)
  | e :: l =>
      if after_gate high e && matches f e
      then let '(out, h) := yield_ring f l (Some (cursor e)) in (e :: out, h)
      else yield_ring f l high
  end.
Fixpoint yield_live (l : list Envelope) (high : option Cursor) : list Envelope :=
  match l with
  | [] => []
  | e :: l => if after_gate high e then e :: yield_live l (Some (cursor e)) else yield_live l high
  end.
(** Everything the stream yields, when its live channel has given [received]. *)
Definition stream_yield (fuel : nat) (st : SubStream)
    (page : nat → option Cursor → result BusError (list Envelope)) (received : list Envelope)
    : option (list Envelope) :=
  (λ p : list Envelope * option Cursor,
     let '(ring_out, high) := yield_ring (ss_filter st) (ss_ring st) p.2 in
     p.1 ++ ring_out ++ yield_live received high)
  <$> (if ss_live_only st then Some ([], ss_from st)
       else deep_leg fuel (ss_filter st) (ss_oldest st) page 0 (ss_from st) (ss_from st)).
End sink.
