(* ===== verification/BusSystem.v ===== *)
(** The router with its durable sink as one transition system, and what every
    reachable state keeps.

    A publish, a subscription, a batch drain, an append attempt, one unpinning
    and one receive are each a step; between them anything may happen.  A publish
    is one step here: publishers do not overlap ([BusCounterexamples] shows what
    overlapping publishers do).  [log] and [got] are ghosts: the envelopes
    delivered so far in order, and what each subscriber has received. *)
From stdpp Require Import base gmap strings list sorting numbers.
From S2P Require Import Prelude.
From S2P Require Import WorkModel.
From S2P Require Import CoreTranscript.
From S2P Require Import BusEnvelope.
From S2P Require Import BusRing.
From S2P Require Import BusIndex.
From S2P Require Import BusEphemeral.
From S2P Require Import BusSink.
From S2P Require Import BusRouter.

(** Nothing is in the empty list. *)
Ltac by_nil := intros; match goal with H : _ ∈ [] |- _ => by apply elem_of_nil in H end.

(** ** Channel states behind the shards *)
Definition shards_ok (r : RouterInner) : Prop := shards r ≠ [].

Lemma shard_idx_lt c r : shards_ok r → (shard_idx c r < length (shards r))%nat.
Proof.
  unfold shards_ok, shard_idx. destruct (shards r) as [|m ms]; [done|]. intros _.
  pose proof (N.mod_lt (uuid c) (N.of_nat (length (m :: ms)))) as H. cbn [length] in *. lia.
Qed.

(** Sharding is invisible: the channels are one map. *)
Lemma channel_state_set c c' cs r :
  shards_ok r →
  channel_state c' (set_channel_state c cs r) = if decide (c = c') then Some cs else channel_state c' r.
Proof.
  intros Hs. unfold channel_state, set_channel_state, shard_idx. cbn. rewrite length_alter.
  fold (shard_idx c r). fold (shard_idx c' r).
  destruct (decide (c = c')) as [<-|Hne].
  - destruct (lookup_lt_is_Some_2 (shards r) (shard_idx c r)) as [m Hm]; [by apply shard_idx_lt|].
    rewrite list_lookup_alter_eq, Hm. cbn. apply lookup_insert_eq.
  - destruct (decide (shard_idx c r = shard_idx c' r)) as [E|E].
    + rewrite E, list_lookup_alter_eq. destruct (shards r !! shard_idx c' r); cbn; [|done].
      by apply lookup_insert_ne.
    + by rewrite list_lookup_alter_ne.
Qed.

Lemma shards_ok_set c cs r : shards_ok r → shards_ok (set_channel_state c cs r).
Proof.
  unfold shards_ok, set_channel_state. cbn. intros H E. apply H. apply (f_equal length) in E.
  rewrite length_alter in E. by apply nil_length_inv.
Qed.

Lemma channel_state_shards c r r' : shards r' = shards r → channel_state c r' = channel_state c r.
Proof. unfold channel_state, shard_idx. by intros ->. Qed.

Lemma entry_state_fst c r :
  (entry_state c r).1 = unwrap_or (channel_state c r) (ChannelState_new (config r)).
Proof. unfold entry_state. by destruct (channel_state c r). Qed.
Lemma entry_state_shards c r : shards (entry_state c r).2 = shards r.
Proof. unfold entry_state. by destruct (channel_state c r). Qed.

(** The channel's ring and index, as the next operation will find them. *)
Definition chan (c : RoomId) (r : RouterInner) : ChannelState :=
  unwrap_or (channel_state c r) (ChannelState_new (config r)).

(** ** What a publish changes *)
Definition router_stable (r r' : RouterInner) : Prop :=
  config r' = config r ∧ next_sub r' = next_sub r ∧ sub_guards r' = sub_guards r.

Definition deliver_state (e : Envelope) (cs : ChannelState) : ChannelState :=
  if is_ephemeral_latest (delivery e)
  then cs <| ephemeral := coalesce e (occurred_at_ms e) (ephemeral cs) |>
  else cs <| ring := push e (ring cs) |>.

Lemma deliver_spec e r :
  shards_ok r →
  shards_ok (deliver e r) ∧ router_stable r (deliver e r) ∧
  seq_source (deliver e r) = seq_source r ∧ write_behind (deliver e r) = write_behind r ∧
  reserved (deliver e r) = reserved r ∧ recent_ids (deliver e r) = recent_ids r ∧
  (∀ c, channel_state c (deliver e r) =
     if decide (channel e = c) then Some (deliver_state e (chan c r)) else channel_state c r) ∧
  (sub_chans (deliver e r), lag_flags (deliver e r)) =
    fan_out e (subscribers (chan (channel e) r)) (sub_chans r, lag_flags r).
Proof.
  intros Hs. unfold deliver, chan. pose proof (entry_state_fst (channel e) r) as Hf.
  pose proof (entry_state_shards (channel e) r) as Hsh.
  assert (∃ n, (entry_state (channel e) r).2 = r <| channels_created := n |>) as [n Hn].
  { unfold entry_state. destruct (channel_state _ _); cbn; [exists (channels_created r); by destruct r|eauto]. }
  destruct (entry_state (channel e) r) as [cs r1]. cbn in Hf, Hsh, Hn. subst r1.
  fold (deliver_state e cs). set (cs' := deliver_state e cs).
  assert (subscribers cs' = subscribers cs) as Hsub
    by (subst cs'; unfold deliver_state; by destruct (is_ephemeral_latest _)).
  assert (shards_ok (r <| channels_created := n |>)) as Hs1 by done.
  unfold router_stable. cbn zeta. split_and!; try reflexivity.
  - exact (shards_ok_set (channel e) cs' _ Hs1).
  - intros c.
    transitivity (channel_state c (set_channel_state (channel e) cs' (r <| channels_created := n |>)));
      [by apply channel_state_shards|]. rewrite channel_state_set by done.
    destruct (decide (channel e = c)) as [<-|]; [by rewrite <- Hf|done].
  - rewrite Hsub, <- Hf. cbn. by destruct (fan_out _ _ _).
Qed.

Lemma finish_spec p o e r :
  ∃ tx fd es fl, finish_publish p o e r =
    (send_permit p e r) <| forward_tx := tx |> <| forward_drop_count := fd |>
      <| ephemeral_superseded_count := es |> <| forward_latest := fl |>.
Proof.
  unfold finish_publish. generalize (send_permit p e r) as r1. intros r1.
  assert (∃ tx fd es fl, r1 = r1 <| forward_tx := tx |> <| forward_drop_count := fd |>
    <| ephemeral_superseded_count := es |> <| forward_latest := fl |>) as Hid.
  { exists (forward_tx r1), (forward_drop_count r1), (ephemeral_superseded_count r1), (forward_latest r1).
    by destruct r1. }
  destruct (_ || _); [|done]. unfold offer_to_forward_sink. destruct (forward_tx r1) as [tx|] eqn:Htx; [|done].
  destruct (forward_key e); destruct (try_send _ _) as [[] tx']; cbn; repeat eexists.
Qed.

(** The stamped envelope. *)
Definition stamped (now : N) (e : Envelope) (r : RouterInner) : Envelope := (stamp now e r).1.

(** A publish, as its caller and the rest of the system see it: refused, with
    only the shed counter touched, or accepted. *)
Record publish_ok (now : N) (e : Envelope) (r r' : RouterInner) : Prop := {
  po_shards : shards_ok r';
  po_stable : router_stable r r';
  po_seq : seq_source r' = (next (seq_source r)).2;
  po_reserved : reserved r' = reserved r;
  po_cap : mq_cap (write_behind r') = mq_cap (write_behind r);
  po_open : mq_open (write_behind r') = mq_open (write_behind r);
  po_queue : mq_buf (write_behind r') =
    mq_buf (write_behind r) ++ (if is_durable (delivery e) then [stamped now e r] else []);
  po_room : is_durable (delivery e) = true →
    (length (mq_buf (write_behind r)) + reserved r < mq_cap (write_behind r))%nat;
  po_recent : recent_ids r' = (recent_insert (event_id e) (recent_ids r)).2;
  po_state c : channel_state c r' =
    if decide (channel e = c) then Some (deliver_state (stamped now e r) (chan c r))
    else channel_state c r;
  po_fan : (sub_chans r', lag_flags r') =
    fan_out (stamped now e r) (subscribers (chan (channel e) r)) (sub_chans r, lag_flags r);
}.

Lemma publish_finish now e o r (p : bool) r0 :
  shards_ok r →
  r0 = r <| reserved := reserved r0 |> →
  reserved r0 = (if p then S (reserved r) else reserved r) →
  (is_durable (delivery e) = true →
    (length (mq_buf (write_behind r)) + reserved r < mq_cap (write_behind r))%nat) →
  p = is_durable (delivery e) →
  publish_ok now e r
    (finish_publish p o (stamped now e r)
       (deliver (stamped now e r) (record_recent (event_id e) (stamp now e r0).2))).
Proof.
  intros Hs Hr0 Hres Hroom Hp.
  set (r1 := record_recent _ _).
  assert (shards r1 = shards r ∧ config r1 = config r ∧ next_sub r1 = next_sub r ∧
    sub_guards r1 = sub_guards r ∧ seq_source r1 = (next (seq_source r)).2 ∧
    write_behind r1 = write_behind r ∧ reserved r1 = reserved r0 ∧
    recent_ids r1 = (recent_insert (event_id e) (recent_ids r)).2 ∧
    sub_chans r1 = sub_chans r ∧ lag_flags r1 = lag_flags r)
    as (E1 & E2 & E3 & E4 & E5 & E6 & E7 & E8 & E9 & E10) by (subst r1; rewrite Hr0; done).
  clearbody r1. set (e' := stamped now e r). assert (channel e' = channel e) as Hc by done.
  assert (delivery e' = delivery e) as Hd by done.
  destruct (deliver_spec e' r1) as (Hok & (Hs1 & Hs2 & Hs3) & Hq & Hw & Hre & Hrec & Hcs & Hf).
  { unfold shards_ok. by rewrite E1. }
  revert Hok Hs1 Hs2 Hs3 Hq Hw Hre Hrec Hcs Hf. generalize (deliver e' r1) as r2.
  intros r2 Hok Hs1 Hs2 Hs3 Hq Hw Hre Hrec Hcs Hf.
  destruct (finish_spec p o e' r2) as (tx & fd & es & fl & ->).
  assert (∀ c, channel_state c r1 = channel_state c r) as Ecs by (intros c; by apply channel_state_shards).
  assert (∀ c, chan c r1 = chan c r) as Ech by (intros c; unfold chan; by rewrite Ecs, E2).
  assert (∀ r3, shards r3 = shards r2 → ∀ c, channel_state c r3 =
     if decide (channel e = c) then Some (deliver_state e' (chan c r)) else channel_state c r) as Hcs'.
  { intros r3 H3 c. rewrite (channel_state_shards c r2 r3 H3), Hcs, Hc, Ech, Ecs. done. }
  assert (seq_source r2 = (next (seq_source r)).2) as Hseq by congruence.
  assert (router_stable r r2) as Hst by (unfold router_stable; split_and!; congruence).
  assert (recent_ids r2 = (recent_insert (event_id e) (recent_ids r)).2) as Hrec' by congruence.
  assert ((sub_chans r2, lag_flags r2) =
    fan_out e' (subscribers (chan (channel e) r)) (sub_chans r, lag_flags r)) as Hfan
    by (rewrite Hf, E9, E10, Hc, Ech; reflexivity).
  assert (write_behind r2 = write_behind r) as Hwb by congruence.
  assert (reserved r2 = reserved r0) as Hrv by congruence.
  clear Hcs Hf E1 E2 E3 E4 E5 E6 E7 E8 E9 E10 Ecs Ech. rewrite Hres in Hrv. rewrite <- Hp in Hroom.
  unfold send_permit. rewrite Hwb, Hrv.
  destruct p; split; try assumption; try (rewrite <- Hp); try assumption; try reflexivity;
    try (apply Hcs'; reflexivity);
    first [exact (f_equal mq_cap Hwb)|exact (f_equal mq_open Hwb)
          |etrans; [exact (f_equal mq_buf Hwb)|symmetry; apply app_nil_r]].
Qed.

Lemma publish_from_spec now e o r :
  shards_ok r →
  match publish_from now e o r with
  | (Err err, r') =>
      is_durable (delivery e) = true ∧
      ((err = WriteBehindSaturated ∧ r' = r <| shed_count := shed_count r +w 1 |>) ∨ r' = r)
  | (Ok q, r') => q = seq (stamped now e r) ∧ publish_ok now e r r'
  end.
Proof.
  intros Hs. unfold publish_from, reserve.
  destruct (is_durable (delivery e)) eqn:Hd.
  - destruct (negb (mq_open (write_behind r))) eqn:Ho; [by split; [|right]|].
    destruct (_ <? _)%nat eqn:Hb; [|split; [done|by left]]. apply Nat.ltb_lt in Hb.
    split; [done|]. by apply (publish_finish now e o r true (r <| reserved := S (reserved r) |>)).
  - split; [done|]. apply (publish_finish now e o r false r); try done; [by destruct r|congruence].
Qed.

Lemma chan_publish c now e r r' :
  publish_ok now e r r' →
  chan c r' = if decide (channel e = c) then deliver_state (stamped now e r) (chan c r) else chan c r.
Proof.
  intros [_ (Hcfg & _ & _) _ _ _ _ _ _ _ Hcs _]. unfold chan at 1. rewrite Hcs, Hcfg.
  by destruct (decide (channel e = c)).
Qed.

Definition confirm_state (id : EventId) (cs : ChannelState) : ChannelState :=
  cs <| ring := mark_persisted id (ring cs) |>.

Lemma confirm_spec e r :
  shards_ok r →
  shards_ok (confirm_item e r) ∧ router_stable r (confirm_item e r) ∧
  seq_source (confirm_item e r) = seq_source r ∧ write_behind (confirm_item e r) = write_behind r ∧
  sub_chans (confirm_item e r) = sub_chans r ∧ lag_flags (confirm_item e r) = lag_flags r ∧
  ∀ c, chan c (confirm_item e r) =
    if decide (channel e = c) then confirm_state (event_id e) (chan c r) else chan c r.
Proof.
  intros Hs. unfold confirm_item, router_stable. destruct (channel_state (channel e) r) as [cs|] eqn:Hcs.
  - split_and!; try reflexivity; [by apply shards_ok_set|]. intros c. unfold chan.
    rewrite channel_state_set by done. destruct (decide (channel e = c)) as [<-|]; [by rewrite Hcs|done].
  - split_and!; try reflexivity; [done|]. intros c. destruct (decide (channel e = c)) as [<-|]; [|done].
    unfold chan. by rewrite Hcs.
Qed.

Lemma subscribe_spec f fr live r :
  shards_ok r →
  let id := next_sub r in
  let r' := (subscribe_mode f fr live r).2 in
  let st := (subscribe_mode f fr live r).1 in
  shards_ok r' ∧ config r' = config r ∧ next_sub r' = id +w 1 ∧
  seq_source r' = seq_source r ∧ write_behind r' = write_behind r ∧
  sub_guards r' = <[id := (f_channel f, f_headers f)]> (sub_guards r) ∧
  sub_chans r' = <[id := MkMpsc [] (Nat.max (cfg_subscriber_buffer (config r)) 1) true]> (sub_chans r) ∧
  lag_flags r' = <[id := false]> (lag_flags r) ∧
  (∀ c, chan c r' =
    if decide (f_channel f = c)
    then (chan c r) <| subscribers := index_insert id (f_headers f) (MkHandle id f) (subscribers (chan c r)) |>
    else chan c r) ∧
  st = MkStream id f fr live (if live then [] else replay_after fr (ring (chan (f_channel f) r)))
         (oldest_cursor (ring (chan (f_channel f) r))).
Proof.
  intros Hs. unfold subscribe_mode. set (r0 := r <| next_sub := next_sub r +w 1 |>).
  assert (shards_ok r0) as Hs0 by done.
  pose proof (entry_state_fst (f_channel f) r0) as Hf.
  assert (∃ n, (entry_state (f_channel f) r0).2 = r0 <| channels_created := n |>) as [n Hn].
  { unfold entry_state. destruct (channel_state _ _); cbn; [exists (channels_created r); by destruct r|eauto]. }
  destruct (entry_state (f_channel f) r0) as [cs r1]. cbn in Hf, Hn. subst r1.
  fold (chan (f_channel f) r) in Hf. cbn zeta.
  set (cs' := cs <| subscribers := _ |>). set (r2 := r0 <| channels_created := n |>).
  assert (shards_ok r2) as Hs2 by done.
  split_and!; try reflexivity.
  - exact (shards_ok_set (f_channel f) cs' r2 Hs2).
  - intros c. unfold chan. 
    match goal with |- unwrap_or (channel_state c ?x) _ = _ =>
      transitivity (unwrap_or (channel_state c (set_channel_state (f_channel f) cs' r2)) (ChannelState_new (config r)));
        [by rewrite (channel_state_shards c (set_channel_state (f_channel f) cs' r2) x)|] end.
    rewrite channel_state_set by done. fold (chan c r). destruct (decide (f_channel f = c)) as [<-|]; [|done].
    cbn. subst cs'. by rewrite Hf.
  - cbn [fst]. subst cs'. cbn. by rewrite Hf.
Qed.

Lemma drop_spec id r :
  shards_ok r →
  let r' := drop_stream id r in
  shards_ok r' ∧ config r' = config r ∧ next_sub r' = next_sub r ∧ seq_source r' = seq_source r ∧
  write_behind r' = write_behind r ∧ lag_flags r' = lag_flags r ∧
  sub_guards r' = delete id (sub_guards r) ∧
  (∀ i, i ≠ id → sub_chans r' !! i = sub_chans r !! i) ∧
  (∀ c, chan c r' =
    match sub_guards r !! id with
    | Some (c', hs) =>
        if decide (c' = c) then
          match channel_state c r with
          | Some cs => cs <| subscribers := index_remove id hs (subscribers cs) |>
          | None => chan c r
          end
        else chan c r
    | None => chan c r
    end).
Proof.
  intros Hs. cbn zeta. unfold drop_stream. destruct (sub_guards r !! id) as [[c' hs]|] eqn:Hg.
  2:{ split_and!; try reflexivity; [done|]. by rewrite delete_id. }
  set (r1 := _ <| sub_chans := _ |>). assert (shards_ok r1) as Hs1 by done.
  assert (∀ c, channel_state c r1 = channel_state c r) as Hcs by done. rewrite Hcs.
  assert (∀ i, i ≠ id → sub_chans r1 !! i = sub_chans r !! i) as Hch.
  { intros i Hi. subst r1. cbn. by apply lookup_alter_ne. }
  destruct (channel_state c' r) as [cs|] eqn:Hc'.
  - split_and!; try reflexivity; [by apply shards_ok_set|exact Hch|]. intros c. unfold chan.
    rewrite channel_state_set by done. destruct (decide (c' = c)) as [<-|]; [by rewrite Hc'|by rewrite Hcs].
  - split_and!; try reflexivity; [done|exact Hch|]. intros c. destruct (decide (c' = c)) as [<-|]; [by rewrite Hc'|done].
Qed.

(** ** The transition system *)
Section system.
Context {S : Type} `{!DurableSink S, !SinkLaws S}.

Record Sys := MkSys {
  rt : RouterInner;
  sk : S;
  batch : list Envelope;        (* drained, its append not yet confirmed *)
  to_confirm : list Envelope;   (* appended, still to be unpinned *)
  log : list Envelope;
  got : gmap N (list Envelope);
}.

Definition initial (cfg : RouterConfig) (src : SeqSource) (s : S) : Sys :=
  MkSys (EventRouter_new cfg src) s [] [] [] ∅.

(** A minted event id: not used before. *)
Definition fresh_id (e : Envelope) (σ : Sys) : Prop :=
  event_id e ∉ event_id <$> log σ ∧ ∀ c x, x ∈ rows (sk σ) c → event_id x ≠ event_id e.

Definition do_publish (now : N) (e : Envelope) (o : option PeerId) (σ : Sys)
    : result BusError Seq * Sys :=
  let '(res, r') := publish_from now e o (rt σ) in
  (res, MkSys r' (sk σ) (batch σ) (to_confirm σ)
    (match res with Ok _ => log σ ++ [stamped now e (rt σ)] | Err _ => log σ end) (got σ)).
Definition do_append (σ : Sys) : Sys :=
  match append_batch (batch σ) (sk σ) with
  | (Ok _, s') => MkSys (rt σ) s' [] (batch σ) (log σ) (got σ)
  | (Err _, s') => MkSys (rt σ) s' (batch σ) (to_confirm σ) (log σ) (got σ)
  end.
Definition do_subscribe (f : Filter) (fr : option Cursor) (live : bool) (σ : Sys) : SubStream * Sys :=
  let '(st, r') := subscribe_mode f fr live (rt σ) in
  (st, MkSys r' (sk σ) (batch σ) (to_confirm σ) (log σ) (<[ss_id st := []]> (got σ))).

Inductive sys_step (σ : Sys) : Sys → Prop :=
| step_publish now e o :
    fresh_id e σ → is_u64 (ss_counter (seq_source (rt σ)) + 1) →
    sys_step σ (do_publish now e o σ).2
| step_drain b r' :
    batch σ = [] → to_confirm σ = [] → drain_batch (rt σ) = (b, r') →
    sys_step σ (MkSys r' (sk σ) b [] (log σ) (got σ))
| step_append :
    to_confirm σ = [] → sys_step σ (do_append σ)
| step_confirm e l :
    to_confirm σ = e :: l →
    sys_step σ (MkSys (confirm_item e (rt σ)) (sk σ) (batch σ) l (log σ) (got σ))
| step_subscribe f fr live :
    is_u64 (next_sub (rt σ) + 1) →
    sys_step σ (do_subscribe f fr live σ).2
| step_recv id e r' :
    recv id (rt σ) = (Some e, r') →
    sys_step σ (MkSys r' (sk σ) (batch σ) (to_confirm σ) (log σ)
      (<[id := unwrap_or (got σ !! id) [] ++ [e]]> (got σ)))
| step_drop id :
    sys_step σ (MkSys (drop_stream id (rt σ)) (sk σ) (batch σ) (to_confirm σ) (log σ) (got σ))
| step_forward cap :
    sys_step σ (MkSys (set_forward_sink cap (rt σ)) (sk σ) (batch σ) (to_confirm σ) (log σ) (got σ)).

Definition reach : Sys → Sys → Prop := rtc sys_step.

(** ** The invariant *)
Definition queue (σ : Sys) : list Envelope := mq_buf (write_behind (rt σ)).

(** What a channel's ring was pushed: everything but coalesced ephemerals. *)
Definition chan_log (c : RoomId) (l : list Envelope) : list Envelope :=
  filter (λ e, channel e = c ∧ is_ephemeral_latest (delivery e) = false) l.

Definition initial_ok (src : SeqSource) (s : S) : Prop :=
  sink_ok s ∧
  ∀ c e, e ∈ rows s c → is_durable (delivery e) = true ∧ (epoch (seq e) < ss_epoch src)%N.

Section invariant.
Context (s0 : S) (ep : N).

Record log_inv (σ : Sys) : Prop := {
  li_shards : shards_ok (rt σ);
  li_sink : sink_ok (sk σ);
  li_epoch : ss_epoch (seq_source (rt σ)) = ep;
  li_sorted : StronglySorted env_lt (log σ);
  li_seq e : e ∈ log σ → epoch (seq e) = ep ∧ (counter (seq e) < ss_counter (seq_source (rt σ)))%N;
  li_ids : NoDup (event_id <$> log σ);
  li_rows c e : e ∈ rows (sk σ) c → e ∈ rows s0 c ∨ e ∈ log σ ∧ is_durable (delivery e) = true;
  li_base c e : e ∈ rows s0 c → e ∈ rows (sk σ) c;
  li_fresh c e x : e ∈ rows s0 c → x ∈ log σ → event_id x ≠ event_id e;
}.
Record pipe_inv (σ : Sys) : Prop := {
  pi_work e : e ∈ queue σ ++ batch σ ++ to_confirm σ → e ∈ log σ ∧ is_durable (delivery e) = true;
  pi_confirm e : e ∈ to_confirm σ → e ∈ rows (sk σ) (channel e);
  pi_all e : e ∈ log σ → is_durable (delivery e) = true →
    e ∈ rows (sk σ) (channel e) ∨ e ∈ queue σ ++ batch σ;
}.
Definition stored_id (c : RoomId) (id : EventId) (σ : Sys) : Prop :=
  ∃ x, x ∈ rows (sk σ) c ∧ event_id x = id.
Record rings_inv (σ : Sys) : Prop := {
  ni_shape c : ring_shape (chan_log c (log σ)) (ring (chan c (rt σ)));
  ni_inv c : ∃ ids, ring_inv (durables (chan_log c (log σ))) ids (ring (chan c (rt σ))) ∧
    ∀ id, id ∈ ids → stored_id c id σ;
}.
Record sys_inv (σ : Sys) : Prop := {
  si_log : log_inv σ;
  si_pipe : pipe_inv σ;
  si_rings : rings_inv σ;
}.

Lemma env_lt_seq a b : seq_lt (seq a) (seq b) → env_lt a b.
Proof.
  unfold env_lt. rewrite seq_lt_spec, is_before_spec. cbn. intros [?|[? ?]]; auto.
Qed.

Lemma env_lt_irrefl a : ¬ env_lt a a.
Proof. apply (irreflexivity cursor_lt). Qed.

Lemma stamped_seq now e r :
  seq (stamped now e r) = MkSeq (ss_epoch (seq_source r)) (ss_counter (seq_source r)).
Proof. done. Qed.

(** Steps that leave log and sink alone. *)
Lemma log_inv_frame σ σ' :
  log σ' = log σ → sk σ' = sk σ → shards_ok (rt σ') → seq_source (rt σ') = seq_source (rt σ) →
  log_inv σ → log_inv σ'.
Proof. intros Hl Hs Ho Hq []. split; rewrite ?Hl, ?Hs, ?Hq; auto. Qed.

Lemma pipe_inv_frame σ σ' :
  log σ' = log σ → sk σ' = sk σ → write_behind (rt σ') = write_behind (rt σ) →
  batch σ' = batch σ → to_confirm σ' = to_confirm σ → pipe_inv σ → pipe_inv σ'.
Proof.
  intros Hl Hs Hw Hb Hc []. assert (queue σ' = queue σ) as Hq by (unfold queue; by rewrite Hw).
  split; rewrite ?Hl, ?Hs, ?Hq, ?Hb, ?Hc; auto.
Qed.

Lemma rings_inv_frame σ σ' :
  log σ' = log σ → sk σ' = sk σ → (∀ c, ring (chan c (rt σ')) = ring (chan c (rt σ))) →
  rings_inv σ → rings_inv σ'.
Proof.
  intros Hl Hs Hr [Ha Hb]. split; intros c; rewrite Hl, Hr; [done|].
  destruct (Hb c) as (ids & ? & Hid). exists ids. split; [done|]. unfold stored_id. rewrite Hs. apply Hid.
Qed.

(** *** Publishing *)
Lemma chan_log_snoc c l e :
  chan_log c (l ++ [e]) = chan_log c l ++
    (if decide (channel e = c ∧ is_ephemeral_latest (delivery e) = false) then [e] else []).
Proof. unfold chan_log. rewrite list.filter_app, filter_cons, filter_nil. by case_decide. Qed.

Lemma log_inv_publish σ σ' now e :
  let e' := stamped now e (rt σ) in
  log σ' = log σ ++ [e'] → sk σ' = sk σ → shards_ok (rt σ') →
  seq_source (rt σ') = (next (seq_source (rt σ))).2 →
  fresh_id e σ → is_u64 (ss_counter (seq_source (rt σ)) + 1) →
  log_inv σ → log_inv σ'.
Proof.
  intros e' Hl Hs Ho Hq [Hf1 Hf2] Hu [A B C D E F G H I].
  assert (ss_counter (seq_source (rt σ)) +w 1 = ss_counter (seq_source (rt σ)) + 1)%N as Hw
    by (by apply wadd_small).
  assert (seq e' = MkSeq ep (ss_counter (seq_source (rt σ)))) as He'
    by (unfold e'; rewrite stamped_seq; by rewrite C).
  assert (event_id e' = event_id e) as Hid by done. clearbody e'.
  split; rewrite ?Hl, ?Hs, ?Hq; cbn; rewrite ?Hw; try done.
  - apply StronglySorted_app_2; [|done|by repeat constructor].
    intros x y Hx Hy%list_elem_of_singleton. subst y. apply env_lt_seq, seq_lt_spec. right.
    destruct (E x Hx) as [-> ?]. by rewrite He'.
  - intros x [Hx| ->%list_elem_of_singleton]%elem_of_app.
    + destruct (E x Hx). split; [done|lia].
    + rewrite He'. cbn. split; [done|lia].
  - rewrite fmap_app. apply list.NoDup_app. split_and!; [done| |apply NoDup_singleton].
    intros id Hx ->%list_elem_of_singleton. by rewrite Hid in Hx.
  - intros c x Hx. destruct (G c x Hx) as [?|[? ?]]; [by left|right]. split; [|done].
    apply elem_of_app. by left.
  - intros c x y Hx [Hy| ->%list_elem_of_singleton]%elem_of_app; [by eauto|].
    rewrite Hid. intros Heq. by apply (Hf2 c x (H c x Hx)).
Qed.

Lemma pipe_inv_publish σ σ' e' :
  log σ' = log σ ++ [e'] → sk σ' = sk σ → batch σ' = batch σ → to_confirm σ' = to_confirm σ →
  queue σ' = queue σ ++ (if is_durable (delivery e') then [e'] else []) →
  pipe_inv σ → pipe_inv σ'.
Proof.
  intros Hl Hs Hb Hc Hq [A B C]. split; rewrite ?Hl, ?Hs, ?Hb, ?Hc, ?Hq; [|done|].
  - intros x. rewrite !elem_of_app. destruct (is_durable (delivery e')) eqn:Hd.
    + rewrite list_elem_of_singleton. intros [[Hx|Hx]|Hx]; [| |].
      * destruct (A x) as [? ?]; [by rewrite !elem_of_app; left|]. auto.
      * subst x. auto.
      * destruct (A x) as [? ?]; [by rewrite !elem_of_app; right|]. auto.
    + intros [[Hx|Hx%elem_of_nil]|Hx]; [|done|]; (destruct (A x) as [? ?]; [by rewrite !elem_of_app; tauto|auto]).
  - intros x [Hx|Hx%list_elem_of_singleton]%elem_of_app Hd; rewrite !elem_of_app.
    + destruct (C x Hx Hd) as [?|Hin]; [by left|]. apply elem_of_app in Hin. tauto.
    + subst x. rewrite Hd, list_elem_of_singleton. tauto.
Qed.

Lemma rings_inv_publish σ σ' e' :
  log σ' = log σ ++ [e'] → sk σ' = sk σ →
  (∀ c, ring (chan c (rt σ')) =
     if decide (channel e' = c ∧ is_ephemeral_latest (delivery e') = false)
     then push e' (ring (chan c (rt σ))) else ring (chan c (rt σ))) →
  rings_inv σ → rings_inv σ'.
Proof.
  intros Hl Hs Hr [A B]. split; intros c; rewrite Hl, Hr, chan_log_snoc; destruct (B c) as (ids & Hi & Hids);
    destruct (decide _); rewrite ?app_nil_r; try done.
  - apply ring_shape_push; [apply Hi|done].
  - exists ids. rewrite durables_app. split; [by apply ring_inv_push|].
    unfold stored_id. by rewrite Hs.
  - exists ids. split; [done|]. unfold stored_id. by rewrite Hs.
Qed.

Lemma deliver_state_ring e cs :
  ring (deliver_state e cs) =
    if is_ephemeral_latest (delivery e) then ring cs else push e (ring cs).
Proof. unfold deliver_state. by destruct (is_ephemeral_latest _). Qed.

Lemma sys_inv_publish now e o σ :
  fresh_id e σ → is_u64 (ss_counter (seq_source (rt σ)) + 1) →
  sys_inv σ → sys_inv (do_publish now e o σ).2.
Proof.
  intros Hf Hu [HL HP HR]. unfold do_publish.
  pose proof (publish_from_spec now e o (rt σ) (li_shards _ HL)) as Hspec.
  destruct (publish_from now e o (rt σ)) as [[q|err] r'].
  - destruct Hspec as [_ Hok]. split.
    + eapply (log_inv_publish σ _ now e); try done; [apply Hok|apply Hok].
    + eapply (pipe_inv_publish σ _ (stamped now e (rt σ))); try done. apply Hok.
    + eapply (rings_inv_publish σ _ (stamped now e (rt σ))); try done. intros c. cbn.
      rewrite (chan_publish c now e (rt σ) r' Hok). change (channel (stamped now e (rt σ))) with (channel e).
      change (delivery (stamped now e (rt σ))) with (delivery e).
      destruct (decide (channel e = c)) as [Hc|Hc].
      * rewrite deliver_state_ring. change (delivery (stamped now e (rt σ))) with (delivery e).
        destruct (is_ephemeral_latest (delivery e)); [rewrite decide_False by naive_solver|rewrite decide_True by done]; done.
      * rewrite decide_False by naive_solver. done.
  - destruct Hspec as [_ [[_ ->]| ->]]; (split;
      [eapply log_inv_frame; [..|exact HL]|eapply pipe_inv_frame; [..|exact HP]
      |eapply rings_inv_frame; [..|exact HR]]; try reflexivity; apply (li_shards _ HL)).
Qed.

(** *** Write-behind *)
Lemma rows_log_unique σ c x e :
  log_inv σ → x ∈ rows (sk σ) c → e ∈ log σ → event_id x = event_id e → x = e.
Proof.
  intros HL Hx He Hid. destruct (li_rows _ HL c x Hx) as [Hx'|[Hx' _]].
  - destruct (li_fresh _ HL c x e Hx' He). done.
  - by apply (NoDup_fmap_inj_on event_id (log σ)); [apply HL|..].
Qed.

Lemma sys_inv_append σ : to_confirm σ = [] → sys_inv σ → sys_inv (do_append σ).
Proof.
  intros Hc [HL HP HR]. unfold do_append.
  pose proof (law_append_ok (sk σ) (batch σ) (li_sink _ HL)) as Hok.
  pose proof (λ c e, law_append_keeps (sk σ) (batch σ) c e (li_sink _ HL)) as Hkeep.
  pose proof (λ c e, law_append_only (sk σ) (batch σ) c e (li_sink _ HL)) as Honly.
  pose proof (λ e, law_append_done (sk σ) (batch σ) e (li_sink _ HL)) as Hdone.
  destruct (append_batch (batch σ) (sk σ)) as [res s']. cbn in *.
  assert (∀ e, e ∈ batch σ → e ∈ log σ ∧ is_durable (delivery e) = true) as Hb.
  { intros e He. apply (pi_work _ HP). rewrite !elem_of_app. auto. }
  assert (∀ b tc, log_inv (MkSys (rt σ) s' b tc (log σ) (got σ))) as HL'.
  { intros b tc. destruct HL as [A B C D E F G H I]. split; cbn; try done; [|by eauto].
    intros c e [He|[He Hce]]%Honly; [by apply G|right]. by apply Hb. }
  assert (∀ b tc, rings_inv (MkSys (rt σ) s' b tc (log σ) (got σ))) as HR'.
  { intros b tc. destruct HR as [A B]. split; cbn; [done|]. intros c. destruct (B c) as (ids & ? & Hids).
    exists ids. split; [done|]. intros id (x & Hx & <-)%Hids. exists x. split; [|done]. by apply Hkeep. }
  destruct HP as [A B C]. destruct res as [[]|err].
  - assert (∀ e, e ∈ batch σ → e ∈ rows s' (channel e)) as Hst.
    { intros e He. destruct (Hdone e eq_refl He) as (x & Hx & Hid).
      destruct (Hb e He) as [Hlog _].
      assert (x = e) as ->; [|done].
      by apply (rows_log_unique _ (channel e) x e (HL' [] [])). }
    split; [done| |done]. split; unfold queue in *; cbn.
    + intros e. rewrite !elem_of_app. intros [He|He]; [|by apply Hb].
      apply A. rewrite !elem_of_app. auto.
    + done.
    + intros e He Hd. rewrite app_nil_r. destruct (C e He Hd) as [Hr|Hr]; [left; by apply Hkeep|].
      apply elem_of_app in Hr as [Hr|Hr]; [by right|left; by apply Hst].
  - split; [done| |done]. split; unfold queue in *; cbn; [done|rewrite Hc; by_nil|].
    intros e He Hd. destruct (C e He Hd) as [Hr|Hr]; [left; by apply Hkeep|by right].
Qed.

Lemma sys_inv_drain b r' σ :
  batch σ = [] → to_confirm σ = [] → drain_batch (rt σ) = (b, r') →
  sys_inv σ → sys_inv (MkSys r' (sk σ) b [] (log σ) (got σ)).
Proof.
  intros Hb Hc Hd [HL HP HR]. injection Hd as <- <-. split.
  - by eapply log_inv_frame; [..|exact HL]; try done; apply HL.
  - destruct HP as [A B C].
    assert (∀ e, e ∈ take MAX_BATCH (queue σ) ∨ e ∈ drop MAX_BATCH (queue σ) ↔ e ∈ queue σ) as Hq.
    { intros e. rewrite <- elem_of_app, take_drop. done. }
    split; unfold queue in *; cbn.
    + intros e He. apply A. rewrite app_nil_r, !elem_of_app in He. rewrite !elem_of_app, <- Hq. tauto.
    + by_nil.
    + intros e He Hd. destruct (C e He Hd) as [?|Hin]; [by left|right].
      rewrite Hb, app_nil_r, <- Hq in Hin. rewrite elem_of_app. tauto.
  - by eapply rings_inv_frame; [..|exact HR].
Qed.

Lemma sys_inv_confirm e l σ :
  to_confirm σ = e :: l → sys_inv σ →
  sys_inv (MkSys (confirm_item e (rt σ)) (sk σ) (batch σ) l (log σ) (got σ)).
Proof.
  intros Hc [HL HP HR].
  destruct (confirm_spec e (rt σ) (li_shards _ HL)) as (Ho & (Hcf & Hn & Hg) & Hq & Hw & _ & _ & Hch). split.
  - by eapply log_inv_frame; [..|exact HL].
  - destruct HP as [A B C]. unfold queue in *. split; unfold queue; cbn; rewrite ?Hw; [|..].
    + intros x Hx. apply A. rewrite Hc, !elem_of_app in *. rewrite elem_of_cons. tauto.
    + intros x Hx. apply B. rewrite Hc. by right.
    + done.
  - destruct HR as [A B]. split; cbn; intros c; rewrite Hch; destruct (decide (channel e = c)) as [He|He]; [|apply A| |apply B].
    + destruct (B c) as (ids & Hi & _). apply ring_shape_confirm; [apply Hi|apply A].
    + destruct (B c) as (ids & Hi & Hids). exists (event_id e :: ids). split; [by apply ring_inv_confirm|].
      intros id [->|Hid]%elem_of_cons; [|by apply Hids]. exists e. split; [|done]. rewrite <- He.
      apply (pi_confirm _ HP). rewrite Hc. by left.
Qed.

(** *** The other steps *)
Lemma ring_chan_shards c r r' : shards r' = shards r → config r' = config r → chan c r' = chan c r.
Proof. intros Hs Hc. unfold chan. by rewrite (channel_state_shards c r r' Hs), Hc. Qed.

Lemma recv_spec id r e r' :
  recv id r = (Some e, r') →
  ∃ buf cap open, sub_chans r !! id = Some (MkMpsc (e :: buf) cap open) ∧
    r' = r <| sub_chans := <[id := MkMpsc buf cap open]> (sub_chans r) |>.
Proof.
  unfold recv. destruct (sub_chans r !! id) as [[[|x buf] cap open]|]; try done.
  intros [= -> <-]. eauto.
Qed.

Lemma sys_inv_step σ σ' : sys_step σ σ' → sys_inv σ → sys_inv σ'.
Proof.
  intros Hstep HI. pose proof HI as [HL HP HR].
  destruct Hstep as [now e o Hf Hu|b r' Hb Hc Hd|Hc|e l Hc|f fr live Hu|id e r' Hr|id|cap].
  - by apply sys_inv_publish.
  - by eapply sys_inv_drain.
  - by apply sys_inv_append.
  - by apply sys_inv_confirm.
  - unfold do_subscribe.
    destruct (subscribe_spec f fr live (rt σ) (li_shards _ HL)) as (A & B & C & D & E & F & G & H & I & J).
    destruct (subscribe_mode f fr live (rt σ)) as [st r']. cbn in *. split.
    + by eapply log_inv_frame; [..|exact HL].
    + by eapply pipe_inv_frame; [..|exact HP].
    + eapply rings_inv_frame; [..|exact HR]; try done. intros c. cbn. rewrite I. by destruct (decide _).
  - apply recv_spec in Hr as (buf & cap & open & _ & ->). split.
    + by eapply log_inv_frame; [..|exact HL]; try done; apply HL.
    + by eapply pipe_inv_frame; [..|exact HP].
    + by eapply rings_inv_frame; [..|exact HR].
  - destruct (drop_spec id (rt σ) (li_shards _ HL)) as (A & B & C & D & E & F & G & H & I). split.
    + by eapply log_inv_frame; [..|exact HL].
    + by eapply pipe_inv_frame; [..|exact HP].
    + eapply rings_inv_frame; [..|exact HR]; try done. intros c. cbn. rewrite I. unfold chan.
      destruct (sub_guards (rt σ) !! id) as [[c' hs]|]; [|done]. destruct (decide (c' = c)); [|done].
      by destruct (channel_state c (rt σ)).
  - split.
    + by eapply log_inv_frame; [..|exact HL]; try done; apply HL.
    + by eapply pipe_inv_frame; [..|exact HP].
    + by eapply rings_inv_frame; [..|exact HR].
Qed.

Lemma sys_inv_reach σ σ' : reach σ σ' → sys_inv σ → sys_inv σ'.
Proof. induction 1; eauto using sys_inv_step. Qed.
End invariant.

Lemma chan_new c cfg src : chan c (EventRouter_new cfg src) = ChannelState_new cfg.
Proof.
  unfold chan, channel_state. cbn [shards EventRouter_new].
  destruct (replicate _ _ !! _) as [m|] eqn:Hm; [|done]. apply lookup_replicate in Hm as [-> _].
  cbn. by rewrite lookup_empty.
Qed.

Lemma sys_inv_initial cfg src s :
  initial_ok src s → sys_inv s (ss_epoch src) (initial cfg src s).
Proof.
  intros [Hok Hrows]. split; split; cbn; try done; try by_nil.
  - unfold shards_ok. cbn. destruct (Nat.max (cfg_shards cfg) 1) eqn:E; [lia|done].
  - constructor.
  - apply NoDup_nil_2.
  - intros c e ?. by left.
  - intros c. rewrite chan_new. apply ring_shape_new.
  - intros c. rewrite chan_new. exists []. split; [|by_nil].
    split; [|done|done]. split; cbn; [done|constructor|lia].
Qed.
End system.
