(* ===== verification/BusHistory.v ===== *)
(** What the router's durable reads answer, [router/history.rs], and that no
    accepted durable event is lost.

    [history] is the specification: everything durable ever accepted on a
    channel, in order.  The ring holds its newest part and the sink the rest;
    the lemmas of this file say so ([hist_split]) and the reads are shown to
    answer from the whole. *)
From stdpp Require Import base gmap strings list sorting numbers.
From S2P Require Import Prelude.
From S2P Require Import Sorted.
From S2P Require Import WorkModel.
From S2P Require Import CoreTranscript.
From S2P Require Import BusEnvelope.
From S2P Require Import BusRing.
From S2P Require Import BusIndex.
From S2P Require Import BusEphemeral.
From S2P Require Import BusSink.
From S2P Require Import BusRouter.
From S2P Require Import BusSystem.

(** ** Sorted lists *)
Lemma sorted_NoDup (l : list Envelope) : StronglySorted env_lt l → NoDup l.
Proof. apply (strict_NoDup env_lt). Qed.
Lemma sorted_ext (l1 l2 : list Envelope) :
  StronglySorted env_lt l1 → StronglySorted env_lt l2 → (∀ x, x ∈ l1 ↔ x ∈ l2) → l1 = l2.
Proof. apply (strict_ext env_lt). Qed.

Lemma sorted_app_lt (l1 l2 : list Envelope) x y :
  StronglySorted env_lt (l1 ++ l2) → x ∈ l1 → y ∈ l2 → env_lt x y.
Proof. intros (H & _ & _)%StronglySorted_app Hx Hy. by apply H. Qed.

Lemma last_n_app {A} n (l1 l2 : list A) :
  last_n n (l1 ++ l2) =
    if (n <=? length l2)%nat then last_n n l2 else last_n (n - length l2) l1 ++ l2.
Proof.
  unfold last_n. rewrite length_app. destruct (Nat.leb_spec n (length l2)).
  - rewrite drop_app_ge by lia. f_equal. lia.
  - rewrite drop_app_le by lia. f_equal. f_equal. lia.
Qed.

Lemma before_not_after a b : is_before a b = true → is_before b a = false.
Proof. intros H. apply is_before_false. by right. Qed.

Lemma before_gate_trans (e : Envelope) b o :
  is_before (cursor e) b = true → is_before b o = true → is_before (cursor e) o = true.
Proof. apply cursor_lt_trans. Qed.

Section history.
Context {S : Type} `{!DurableSink S, !SinkLaws S}.
Context (s0 : S) (src : SeqSource) (Hinit : initial_ok src s0).
#[local] Abbreviation inv := (sys_inv s0 (ss_epoch src)).

(** All durable events of a channel: those the sink began with, then those
    accepted since. *)
Definition history (c : RoomId) (σ : Sys (S:=S)) : list Envelope :=
  rows s0 c ++ durables (chan_log c (log σ)).
Definition ring_of (c : RoomId) (σ : Sys (S:=S)) : HotRing := ring (chan c (rt σ)).

Lemma chan_log_elem c l e :
  e ∈ chan_log c l ↔ channel e = c ∧ is_ephemeral_latest (delivery e) = false ∧ e ∈ l.
Proof. unfold chan_log. rewrite list_elem_of_filter. tauto. Qed.

Lemma durables_elem l e : e ∈ durables l ↔ is_durable (delivery e) = true ∧ e ∈ l.
Proof. unfold durables. by rewrite list_elem_of_filter. Qed.

Lemma durable_not_latest e : is_durable (delivery e) = true → is_ephemeral_latest (delivery e) = false.
Proof. by destruct (delivery e). Qed.

(** The history is everything durable on the channel. *)
Lemma history_elem c σ e :
  e ∈ history c σ ↔
  e ∈ rows s0 c ∨ channel e = c ∧ is_durable (delivery e) = true ∧ e ∈ log σ.
Proof.
  unfold history. rewrite elem_of_app, durables_elem, chan_log_elem.
  split; [naive_solver|]. intros [?|(? & Hd & ?)]; [by left|right].
  split_and!; auto using durable_not_latest.
Qed.

Lemma chan_log_sorted c σ : inv σ → StronglySorted env_lt (chan_log c (log σ)).
Proof. intros HI. apply StronglySorted_filter, HI. Qed.

Lemma base_before_log c σ x y : inv σ → x ∈ rows s0 c → y ∈ log σ → env_lt x y.
Proof.
  intros HI Hx Hy. apply env_lt_seq, seq_lt_spec. left. destruct Hinit as [_ Hrows].
  destruct (Hrows c x Hx) as [_ He]. by destruct (li_seq _ _ _ (si_log _ _ _ HI) y Hy) as [-> _].
Qed.

Lemma history_sorted c σ : inv σ → StronglySorted env_lt (history c σ).
Proof.
  intros HI. apply StronglySorted_app_2.
  - intros x y Hx Hy%durables_elem. apply (base_before_log c σ); [done..|].
    destruct Hy as [_ Hy]. by apply chan_log_elem in Hy as (_ & _ & ?).
  - apply rows_sorted, Hinit.
  - apply StronglySorted_filter, chan_log_sorted, HI.
Qed.

Lemma rows_history c σ e : inv σ → e ∈ rows (sk σ) c → e ∈ history c σ.
Proof.
  intros HI He. apply history_elem. destruct (li_rows _ _ _ (si_log _ _ _ HI) c e He) as [?|[? ?]]; [by left|right].
  split_and!; [|done..]. eapply rows_channel; [apply HI|done].
Qed.

Lemma stored_log c σ e :
  inv σ → stored_id c (event_id e) σ → e ∈ log σ → e ∈ rows (sk σ) c.
Proof.
  intros HI (x & Hx & Hid) He.
  by rewrite <- (rows_log_unique s0 (ss_epoch src) σ c x e (si_log _ _ _ HI) Hx He Hid).
Qed.

(** The ring has the newest durables, the sink everything before the ring's
    oldest entry. *)
Lemma hist_split c σ :
  inv σ →
  ∃ A, history c σ = A ++ durables (ring_envs (ring_of c σ)) ∧
    (∀ e, e ∈ A → e ∈ rows (sk σ) c) ∧
    (∀ e, e ∈ A → before_gate (oldest_cursor (ring_of c σ)) e = true) ∧
    StronglySorted env_lt (A ++ ring_envs (ring_of c σ)) ∧
    (∀ e, e ∈ ring_envs (ring_of c σ) →
       before_gate (oldest_cursor (ring_of c σ)) e = false ∧ e ∈ chan_log c (log σ)).
Proof.
  intros HI. pose proof (chan_log_sorted c σ HI) as Hsorted.
  destruct (ni_shape _ (si_rings _ _ _ HI) c) as (p1 & p2 & Hp & Hsub & Hd & Hh).
  destruct (ni_inv _ (si_rings _ _ _ HI) c) as (ids & Hri & Hids).
  fold (ring_of c σ) in *. rewrite Hp in Hsorted.
  assert (oldest_cursor (ring_of c σ) = cursor <$> head p2) as Ho.
  { rewrite Hh. unfold oldest_cursor, ring_envs. by destruct (slots (ring_of c σ)). }
  assert (StronglySorted env_lt (rows s0 c ++ p1 ++ p2)) as Hall.
  { apply StronglySorted_app_2; [|apply rows_sorted, Hinit|done].
    intros x y Hx Hy. apply (base_before_log c σ); [done..|]. rewrite <- Hp in Hy.
    by apply chan_log_elem in Hy as (_ & _ & ?). }
  exists (rows s0 c ++ durables p1). split_and!.
  - unfold history. by rewrite Hp, durables_app, Hd, app_assoc.
  - intros e [He|[Hdur He]%durables_elem]%elem_of_app; [by apply (li_base _ _ _ (si_log _ _ _ HI))|].
    assert (e ∈ chan_log c (log σ)) as Hlog by (rewrite Hp; apply elem_of_app; by left).
    assert (e ∈ log σ) as Hel by (by apply chan_log_elem in Hlog as (_ & _ & ?)).
    destruct (decide (event_id e ∈ ids)) as [Hin|Hnin]; [by apply stored_log; [..|apply Hids|]|].
    assert (e ∈ ring_envs (ring_of c σ)) as Hring.
    { apply (ri_pinned _ _ _ Hri) in Hnin; [|by apply list_elem_of_In, durables_elem].
      apply list_elem_of_In in Hnin. unfold ring_envs. by apply (list_elem_of_fmap_2 env) in Hnin. }
    destruct (env_lt_irrefl e). eapply sorted_app_lt; [exact Hsorted|done|]. by eapply elem_of_sublist.
  - intros e He. rewrite Ho. destruct p2 as [|y p2]; [done|]. cbn.
    rewrite app_assoc in Hall. apply (sorted_app_lt _ _ e y Hall); [|by left].
    apply elem_of_app in He as [?|[_ ?]%durables_elem]; apply elem_of_app; auto.
  - rewrite app_assoc in Hall. apply StronglySorted_app in Hall as (Hlt & HA & Hp2).
    apply StronglySorted_app_2.
    + intros x y Hx Hy. apply Hlt; [|by eapply elem_of_sublist].
      apply elem_of_app in Hx as [?|[_ ?]%durables_elem]; apply elem_of_app; auto.
    + apply StronglySorted_app in HA as (Hlt' & ? & ?). apply StronglySorted_app_2; [|done|by apply StronglySorted_filter].
      intros x y Hx [_ Hy]%durables_elem. by apply Hlt'.
    + revert Hp2. clear -Hsub. induction Hsub as [|x l1 l2 Hs IH|x l1 l2 Hs IH]; intros Hp; [done|..];
        inversion Hp as [|? ? Hp' Hx]; subst; [|by apply IH].
      constructor; [by apply IH|]. rewrite list.Forall_forall in *. intros y Hy. apply Hx. by eapply elem_of_sublist.
  - intros e He. pose proof (elem_of_sublist _ _ _ He Hsub) as Hp2. split.
    + rewrite Ho. destruct p2 as [|y p2]; [by apply elem_of_nil in Hp2|]. cbn. apply is_before_false.
      apply elem_of_cons in Hp2 as [->|Hp2]; [by left|right].
      apply StronglySorted_app in Hsorted as (_ & _ & Hs2). inversion Hs2 as [|? ? _ Hy]; subst.
      rewrite list.Forall_forall in Hy. by apply Hy.
    + rewrite Hp. apply elem_of_app. by right.
Qed.

(** The sink's rows before the ring's oldest entry are that first part. *)
Lemma rows_before_oldest c σ A :
  inv σ → history c σ = A ++ durables (ring_envs (ring_of c σ)) →
  (∀ e, e ∈ A → e ∈ rows (sk σ) c) →
  (∀ e, e ∈ A → before_gate (oldest_cursor (ring_of c σ)) e = true) →
  (∀ e, e ∈ ring_envs (ring_of c σ) → before_gate (oldest_cursor (ring_of c σ)) e = false) →
  filter (λ e, before_gate (oldest_cursor (ring_of c σ)) e = true) (rows (sk σ) c) = A.
Proof.
  intros HI Hh HA Hb Hr. pose proof (history_sorted c σ HI) as Hs. rewrite Hh in Hs.
  apply StronglySorted_app in Hs as (_ & HsA & _). apply sorted_ext; [|done|].
  - apply StronglySorted_filter, rows_sorted, HI.
  - intros x. rewrite list_elem_of_filter. split; [|by auto].
    intros [Hx Hrow]. apply rows_history in Hrow; [|done]. rewrite Hh in Hrow.
    apply elem_of_app in Hrow as [?|[_ Hin]%durables_elem]; [done|]. apply Hr in Hin. congruence.
Qed.

(** Without ring durables the sink has the whole history. *)
Lemma rows_all c σ :
  inv σ → durables (ring_envs (ring_of c σ)) = [] → rows (sk σ) c = history c σ.
Proof.
  intros HI Hd. destruct (hist_split c σ HI) as (A & Hh & HA & _). rewrite Hd, app_nil_r in Hh.
  apply sorted_ext; [apply rows_sorted, HI|by apply history_sorted|].
  intros x. split; [by apply rows_history|]. rewrite Hh. apply HA.
Qed.

(** ** The reads *)

Lemma filter_before_all gate (l : list Envelope) :
  (∀ e, e ∈ l → before_gate gate e = true) → filter (λ e, before_gate gate e = true) l = l.
Proof. apply filter_all. Qed.

(** The bound [durable_tail_filtered] gives the sink. *)
Lemma sink_bound c σ A before :
  inv σ → history c σ = A ++ durables (ring_envs (ring_of c σ)) →
  (∀ e, e ∈ A → e ∈ rows (sk σ) c) →
  (∀ e, e ∈ A → before_gate (oldest_cursor (ring_of c σ)) e = true) →
  (∀ e, e ∈ ring_envs (ring_of c σ) → before_gate (oldest_cursor (ring_of c σ)) e = false) →
  let sb := match before, oldest_cursor (ring_of c σ) with
            | Some b, Some oldest => if is_before b oldest then Some b else Some oldest
            | None, Some oldest => Some oldest
            | before, None => before
            end in
  filter (λ e, before_gate sb e = true) (rows (sk σ) c) =
  filter (λ e, before_gate before e = true) A.
Proof.
  intros HI Hh HA Hb Hr. cbn zeta.
  pose proof (rows_before_oldest c σ A HI Hh HA Hb Hr) as Hrows. revert Hb Hrows.
  destruct (oldest_cursor (ring_of c σ)) as [o|]; intros Hb Hrows.
  - destruct before as [b|]; [|rewrite Hrows; symmetry; by apply filter_before_all].
    destruct (is_before b o) eqn:Hbo.
    + rewrite <- Hrows, list_filter_filter. apply list_filter_iff. intros e. cbn. split; [|tauto].
      intros He. split; [done|]. by eapply before_gate_trans.
    + rewrite Hrows. symmetry. apply filter_before_all. intros e He. cbn.
      apply is_before_false in Hbo as [->|Hbo]; [by apply Hb|]. specialize (Hb e He). cbn in Hb.
      by eapply before_gate_trans.
  - rewrite <- Hrows, list_filter_filter. destruct before; apply list_filter_iff; intros e; cbn; tauto.
Qed.

Lemma replay_none r : replay_after None r = ring_envs r.
Proof. unfold replay_after, ring_envs. f_equal. by apply filter_all. Qed.

(** The predicate of a tail query. *)
Definition tail_match (before : option Cursor) (kinds : option (list Kind)) (e : Envelope) : bool :=
  is_none_or kinds (λ ks, bool_decide (kind e ∈ ks)) && before_gate before e.

Lemma ring_tail before kinds r :
  filter (λ e, is_durable (delivery e) && is_none_or kinds (λ ks, bool_decide (kind e ∈ ks))
               && is_none_or before (λ gate, is_before (cursor e) gate) = true) (replay_after None r) =
  filter (λ e, tail_match before kinds e = true) (durables (ring_envs r)).
Proof.
  rewrite replay_none. unfold durables, tail_match. rewrite list_filter_filter.
  apply list_filter_iff. intros e. rewrite !andb_true_iff. destruct before; cbn; tauto.
Qed.

(** What the state lookup of a read finds. *)
Lemma channel_state_ring {A} (f : HotRing → A) (d : A) c σ :
  f (ring (ChannelState_new (config (rt σ)))) = d →
  match channel_state c (rt σ) with Some s => f (ring s) | None => d end = f (ring_of c σ).
Proof. intros <-. unfold ring_of, chan. by destruct (channel_state c (rt σ)). Qed.

Lemma durable_tail_inv c before kinds limit σ l :
  inv σ → (durable_tail_filtered c before kinds limit (rt σ, sk σ)).1 = Ok l →
  l = last_n limit (filter (λ e, tail_match before kinds e = true) (history c σ)).
Proof.
  intros HI. unfold durable_tail_filtered. cbn [fst snd].
  destruct (Nat.eqb_spec limit 0) as [->|Hlim].
  { intros [= <-]. unfold last_n. rewrite Nat.sub_0_r. symmetry. apply drop_all. }
  rewrite (channel_state_ring (λ r, (filter (λ e, is_durable (delivery e)
      && is_none_or kinds (λ ks, bool_decide (kind e ∈ ks))
      && is_none_or before (λ gate, is_before (cursor e) gate) = true) (replay_after None r),
    oldest_cursor r)) ([], None) c σ) by done.
  rewrite ring_tail. destruct (hist_split c σ HI) as (A & Hh & HA & Hb & _ & Hr).
  rewrite Hh, list.filter_app, last_n_app.
  set (B := filter (λ e, tail_match before kinds e = true) (durables (ring_envs (ring_of c σ)))).
  destruct (limit <=? length B)%nat eqn:Hle; [by intros [= <-]|].
  pose proof (sink_bound c σ A before HI Hh HA Hb (λ e He, proj1 (Hr e He))) as Hsb. cbn zeta in Hsb.
  set (sb := match before with Some _ => _ | None => _ end) in *. clearbody sb.
  assert (∀ x, (match kinds with None => page_tail c sb (limit - length B)
               | Some ks => page_tail_of_kinds c sb ks (limit - length B) end (sk σ)).1 = Ok x →
    x = last_n (limit - length B) (filter (λ e, tail_match before kinds e = true) A)) as Hx.
  { intros x. unfold tail_match. destruct kinds as [ks|]; cbn [is_none_or].
    - intros Hx%law_tail_kinds; [|apply HI]. rewrite Hx, Hsb, filter_and. f_equal.
      apply list_filter_iff. intros e. by rewrite bool_decide_eq_true.
    - intros Hx%law_tail; [|apply HI]. by rewrite Hx, Hsb. }
  unfold on_sink. cbn [fst snd].
  destruct (match kinds with None => page_tail c sb (limit - length B)
    | Some ks => page_tail_of_kinds c sb ks (limit - length B) end (sk σ)) as [[x|err] s']; [|done].
  cbn in *. intros [= <-]. by rewrite (Hx x eq_refl).
Qed.

Lemma newest_durable_spec r : newest_durable_cursor r = cursor <$> last (durables (ring_envs r)).
Proof.
  unfold newest_durable_cursor, ring_envs, durables.
  rewrite <- (reverse_involutive (slots r)) at 2. generalize (reverse (slots r)) as l. intros l.
  induction l as [|s l IH]; [done|]. rewrite reverse_cons, fmap_app, list.filter_app. cbn [List.find].
  destruct (is_durable (delivery (env s))) eqn:Hd.
  - cbn. rewrite decide_True by done. by rewrite last_snoc.
  - cbn. rewrite decide_False by congruence. by rewrite app_nil_r.
Qed.

Lemma durable_tip_inv c σ o :
  inv σ → (durable_tip c (rt σ, sk σ)).1 = Ok o → o = cursor <$> last (history c σ).
Proof.
  intros HI. unfold durable_tip. cbn [fst snd].
  assert (channel_state c (rt σ) ≫= (λ cs, newest_durable_cursor (ring cs)) =
    cursor <$> last (durables (ring_envs (ring_of c σ)))) as ->.
  { rewrite <- newest_durable_spec.
    exact (channel_state_ring newest_durable_cursor None c σ eq_refl). }
  destruct (last (durables (ring_envs (ring_of c σ)))) as [e|] eqn:Hl; cbn [is_some fmap option_fmap option_map].
  - intros [= <-]. destruct (hist_split c σ HI) as (A & Hh & _). rewrite Hh, last_app, Hl. done.
  - apply last_None in Hl. unfold on_sink. cbn [fst snd].
    pose proof (law_head (sk σ) c) as Hlaw. destruct (sink_head_cursor c (sk σ)) as [res s']. cbn in *.
    intros ->. rewrite (Hlaw o); [|apply HI|done]. by rewrite (rows_all c σ HI Hl).
Qed.

(** *** Resuming *)

(** What a reader catching up can still be shown: the durable history up to the
    ring, then everything the ring retains. *)
Definition channel_view (c : RoomId) (σ : Sys (S:=S)) : list Envelope :=
  filter (λ e, before_gate (oldest_cursor (ring_of c σ)) e = true) (history c σ)
  ++ ring_envs (ring_of c σ).

Lemma channel_view_split c σ :
  inv σ →
  ∃ A, channel_view c σ = A ++ ring_envs (ring_of c σ) ∧
    history c σ = A ++ durables (ring_envs (ring_of c σ)) ∧
    (∀ e, e ∈ A → e ∈ rows (sk σ) c) ∧
    filter (λ e, before_gate (oldest_cursor (ring_of c σ)) e = true) (rows (sk σ) c) = A.
Proof.
  intros HI. destruct (hist_split c σ HI) as (A & Hh & HA & Hb & _ & Hr). exists A.
  split_and!; [|done|done|].
  - unfold channel_view. f_equal. rewrite Hh, list.filter_app, filter_before_all by done.
    rewrite filter_none; [by rewrite app_nil_r|]. intros e [_ He]%durables_elem.
    destruct (Hr e He). congruence.
  - apply rows_before_oldest; try done. intros e He. by apply Hr.
Qed.

Lemma channel_view_sorted c σ : inv σ → StronglySorted env_lt (channel_view c σ).
Proof.
  intros HI. destruct (channel_view_split c σ HI) as (A & -> & Hh & HA & _).
  destruct (hist_split c σ HI) as (A' & Hh' & _ & _ & Hs & _).
  assert (A = A') as -> by (apply (app_inj_2 _ _ (durables (ring_envs (ring_of c σ))) (durables (ring_envs (ring_of c σ)))); congruence).
  done.
Qed.

(** The view has every durable of the history. *)
Lemma channel_view_durables c σ : inv σ → durables (channel_view c σ) = history c σ.
Proof.
  intros HI. destruct (channel_view_split c σ HI) as (A & -> & -> & HA & _). rewrite durables_app. f_equal.
  apply filter_all. intros e He. apply HA, rows_history, history_elem in He; [|done].
  destruct He as [He|(_ & ? & _)]; [|done]. by apply Hinit in He as [? _].
Qed.

Lemma channel_view_ids c σ : inv σ → NoDup (event_id <$> channel_view c σ).
Proof.
  intros HI. destruct (channel_view_split c σ HI) as (A & Hv & Hh & HA & _).
  destruct (hist_split c σ HI) as (_ & _ & _ & _ & _ & Hr).
  pose proof (channel_view_sorted c σ HI) as Hs. rewrite Hv in *.
  apply list.NoDup_fmap_2_strong; [|by apply sorted_NoDup].
  assert (∀ x, x ∈ A ++ ring_envs (ring_of c σ) → x ∈ rows s0 c ∨ x ∈ log σ) as Hcase.
  { intros x [Hx|Hx]%elem_of_app.
    - apply HA, rows_history, history_elem in Hx; [|done]. naive_solver.
    - right. apply Hr in Hx as [_ Hx]. by apply chan_log_elem in Hx as (_ & _ & ?). }
  intros x y Hx%Hcase Hy%Hcase Hid. pose proof (si_log _ _ _ HI) as HL. destruct Hx as [Hx|Hx], Hy as [Hy|Hy].
  - by apply (NoDup_fmap_inj_on event_id (rows s0 c)); [apply rows_ids, Hinit|..].
  - by destruct (li_fresh _ _ _ HL c x y Hx Hy).
  - by destruct (li_fresh _ _ _ HL c y x Hy Hx).
  - by apply (NoDup_fmap_inj_on event_id (log σ)); [apply HL|..].
Qed.

Lemma dedup_NoDup l : NoDup (event_id <$> l) → dedup_ids l = l.
Proof.
  induction l as [|x l IH]; [done|]. rewrite fmap_cons. intros [Hn Hd]%list.NoDup_cons. cbn [dedup_ids].
  rewrite (IH Hd). destruct l as [|y l]; [done|]. rewrite decide_False; [done|].
  intros Hxy. apply Hn. rewrite Hxy. by left.
Qed.

Lemma sort_sorted l : StronglySorted env_lt l → sort_by env_le l = l.
Proof.
  induction 1 as [|x l Hs IH Hx]; [done|]. cbn [sort_by foldr]. fold (sort_by env_le l). rewrite IH.
  destruct l as [|y l]; [done|]. cbn [insert_by]. rewrite decide_True; [done|].
  apply env_le_spec. right. by inversion Hx.
Qed.

Lemma filter_before_take gate n (l : list Envelope) :
  StronglySorted env_lt l →
  filter (λ e, before_gate gate e = true) (take n l) =
  take n (filter (λ e, before_gate gate e = true) l).
Proof.
  intros Hs. revert n. induction Hs as [|e l Hs IH He]; intros [|n]; [done..|].
  cbn [take]. rewrite !filter_cons. destruct (decide (before_gate gate e = true)) as [Hb|Hb].
  - cbn [take]. by rewrite IH.
  - assert (∀ x, x ∈ l → before_gate gate x ≠ true) as Hl.
    { intros x Hx Hbx. apply Hb. destruct gate as [g|]; [|done]. cbn in *.
      rewrite list.Forall_forall in He. specialize (He x Hx). unfold env_lt, cursor_lt in He.
      by eapply before_gate_trans. }
    rewrite !filter_none; [by rewrite take_nil|done|]. intros x Hx. apply Hl.
    rewrite <- (take_drop n l). apply elem_of_app. by left.
Qed.

Lemma take_take_app {A} n (l1 l2 : list A) : take n (take n l1 ++ l2) = take n (l1 ++ l2).
Proof.
  destruct (decide (n ≤ length l1)%nat).
  - rewrite (take_app_le l1 l2) by done. rewrite take_app_le by (rewrite length_take; lia).
    rewrite take_take. f_equal. lia.
  - by rewrite (take_ge l1) by lia.
Qed.

Lemma sorted_sublist (l1 l2 : list Envelope) :
  l1 `sublist_of` l2 → StronglySorted env_lt l2 → StronglySorted env_lt l1.
Proof. apply sublist_strict. Qed.

Lemma resume_inv c gate limit σ l :
  inv σ → (resume_from_cursor c gate limit (rt σ, sk σ)).1 = Ok l →
  l = take (Nat.max limit 1) (filter (λ e, after_gate gate e = true) (channel_view c σ)).
Proof.
  intros HI. unfold resume_from_cursor. set (L := Nat.max limit 1). cbn [fst snd].
  rewrite (channel_state_ring (λ r, (replay_after gate r, oldest_cursor r)) ([], None) c σ) by done.
  pose proof (law_page (sk σ) c gate L) as Hlaw. unfold on_sink. cbn [fst snd].
  destruct (sink_page c gate L (sk σ)) as [[deep|err] s']; [|done]. cbn in *.
  rewrite (Hlaw deep) by (done || apply HI). intros [= <-]. clear Hlaw deep s'.
  destruct (channel_view_split c σ HI) as (A & Hv & Hh & HA & Hrows).
  set (o := oldest_cursor (ring_of c σ)) in *.
  assert (replay_after gate (ring_of c σ) =
    filter (λ e, after_gate gate e = true) (ring_envs (ring_of c σ))) as ->.
  { unfold ring_envs. rewrite fmap_filter. done. }
  assert (filter (λ e, is_none_or o (λ g, is_before (cursor e) g)
      && is_none_or gate (λ h, is_after (cursor e) h) = true)
      (take L (filter (λ e, after_gate gate e = true) (rows (sk σ) c))) =
    take L (filter (λ e, after_gate gate e = true) A)) as ->.
  { transitivity (filter (λ e, before_gate o e = true)
      (take L (filter (λ e, after_gate gate e = true) (rows (sk σ) c)))).
    - apply filter_ext_in. intros e He. rewrite andb_true_iff.
      assert (after_gate gate e = true) as Hag.
      { apply (elem_of_take_in L) in He. by apply list_elem_of_filter in He as [? _]. }
      revert Hag. unfold after_gate, before_gate. destruct o, gate; cbn; tauto.
    - rewrite filter_before_take by (apply StronglySorted_filter, rows_sorted, HI).
      f_equal. rewrite list_filter_filter, <- Hrows, list_filter_filter. apply list_filter_iff.
      intros e. tauto. }
  rewrite Hv, list.filter_app, <- take_take_app. 
  set (X := take L _ ++ _).
  assert (X `sublist_of` channel_view c σ) as Hsub.
  { rewrite Hv. apply sublist_app; [|apply sublist_filter].
    etrans; [apply sublist_take|apply sublist_filter]. }
  rewrite sort_sorted by (eapply sorted_sublist; [exact Hsub|by apply channel_view_sorted]).
  rewrite dedup_NoDup; [done|].
  eapply sublist_NoDup; [by apply channel_view_ids|by apply fmap_sublist].
Qed.
End history.
