(* ===== verification/BusSubs.v ===== *)
(** Live delivery: what a registered subscriber's channel receives, and what its
    stream yields, [router.rs] fan-out and [router/subscribe.rs]. *)
From stdpp Require Import base gmap strings list sorting numbers.
From S2P Require Import Prelude.
From S2P Require Import WorkModel.
From S2P Require Import CoreTranscript.
From S2P Require Import BusEnvelope.
From S2P Require Import BusRing.
From S2P Require Import BusIndex.
From S2P Require Import BusEphemeral.
From S2P Require Import BusSink.
From S2P Require Import BusRouter.
From S2P Require Import BusSystem.
From S2P Require Import BusHistory.

(** ** The fan-out, one subscription at a time *)

(** What one publish does to the channel and flag at [id]. *)
Definition offered (e : Envelope) (id : N) (chans : gmap N (Mpsc Envelope) * gmap N bool)
    : gmap N (Mpsc Envelope) * gmap N bool :=
  match chans.1 !! id with
  | Some q =>
      match try_send e q with
      | (SendOk, q') => (<[id := q']> chans.1, chans.2)
      | (SendFull, _) => (chans.1, <[id := true]> chans.2)
      | (SendClosed, _) => chans
      end
  | None => chans
  end.

Lemma push_to_offered e h chans :
  push_to e h chans = if matches (sh_filter h) e then offered e (sh_tx h) chans else chans.
Proof. unfold push_to, offered. by destruct (matches _ _). Qed.

Lemma offered_other e id i chans :
  i ≠ id → (offered e id chans).1 !! i = chans.1 !! i ∧ (offered e id chans).2 !! i = chans.2 !! i.
Proof.
  intros Hi. unfold offered. destruct (chans.1 !! id) as [q|]; [|done].
  destruct (try_send e q) as [[] q']; cbn; rewrite ?lookup_insert_ne by done; done.
Qed.

Lemma offered_same e id chans1 chans2 :
  chans1.1 !! id = chans2.1 !! id → chans1.2 !! id = chans2.2 !! id →
  (offered e id chans1).1 !! id = (offered e id chans2).1 !! id ∧
  (offered e id chans1).2 !! id = (offered e id chans2).2 !! id.
Proof.
  intros H1 H2. unfold offered. rewrite H1. destruct (chans2.1 !! id) as [q|] eqn:Hq; [|by rewrite H1, Hq].
  destruct (try_send e q) as [[] q']; cbn; rewrite ?lookup_insert_eq, ?H1, ?Hq, ?H2; done.
Qed.

(** A subscription not among the matching handles is left alone; one among them
    is offered the envelope once. *)
Lemma fan_list_absent e id hs chans :
  (∀ h, h ∈ hs → sh_tx h = id → matches (sh_filter h) e = false) →
  let chans' := foldl (λ chans h, push_to e h chans) chans hs in
  chans'.1 !! id = chans.1 !! id ∧ chans'.2 !! id = chans.2 !! id.
Proof.
  revert chans. induction hs as [|h hs IH]; intros chans Hm; [done|]. cbn [foldl].
  destruct (IH (push_to e h chans)) as [-> ->]; [intros; apply Hm; [by right|done]|].
  rewrite push_to_offered. destruct (matches (sh_filter h) e) eqn:Hmatch; [|done].
  apply offered_other. intros ->. rewrite Hm in Hmatch; [done|by left|done].
Qed.

Lemma fan_list_present e id h hs chans :
  NoDup (sh_tx <$> hs) → h ∈ hs → sh_tx h = id → matches (sh_filter h) e = true →
  let chans' := foldl (λ chans h, push_to e h chans) chans hs in
  chans'.1 !! id = (offered e id chans).1 !! id ∧ chans'.2 !! id = (offered e id chans).2 !! id.
Proof.
  revert chans. induction hs as [|h' hs IH]; intros chans Hn Hin Hid Hm; [by apply elem_of_nil in Hin|].
  rewrite fmap_cons in Hn. apply list.NoDup_cons in Hn as [Hnin Hn]. cbn [foldl].
  apply elem_of_cons in Hin as [<-|Hin].
  - destruct (fan_list_absent e id hs (push_to e h chans)) as [-> ->].
    + intros h2 Hh2 Hid2. destruct Hnin. rewrite Hid, <- Hid2. by apply list_elem_of_fmap_2.
    + by rewrite push_to_offered, Hm, Hid.
  - destruct (IH (push_to e h' chans) Hn Hin Hid Hm) as [-> ->]. apply offered_same;
      (rewrite push_to_offered; destruct (matches (sh_filter h') e); [|done];
       apply offered_other; intros ->; apply Hnin; rewrite <- Hid; by apply list_elem_of_fmap_2).
Qed.

(** ** What the registrations are *)
Section subs.
Context {S : Type} `{!DurableSink S, !SinkLaws S}.
#[local] Abbreviation sys := (Sys (S:=S)).

(** Channel [c]'s index holds exactly the live guards of [c]. *)
Definition regs_of (c : RoomId) (r : RouterInner) (regs : gmap N SubscriberHandle) : Prop :=
  index_rep handle_headers regs (subscribers (chan c r)) ∧
  (∀ id h, regs !! id = Some h →
     sh_tx h = id ∧ f_channel (sh_filter h) = c ∧ sub_guards r !! id = Some (c, handle_headers h)) ∧
  (∀ id hs, sub_guards r !! id = Some (c, hs) → is_Some (regs !! id)).

Record subs_inv (r : RouterInner) : Prop := {
  su_regs c : ∃ regs, regs_of c r regs;
  su_next id g : sub_guards r !! id = Some g → (id < next_sub r)%N;
}.

Lemma matches_headers f e : matches f e = true → channel e = f_channel f ∧ filter_matches (f_headers f) (headers e) = true.
Proof.
  unfold matches. case_bool_decide as Hc; [done|].
  repeat case_match; try done.
Qed.

Lemma NoDup_visit_tx c r regs hs :
  regs_of c r regs → NoDup (sh_tx <$> visit hs (subscribers (chan c r))).
Proof.
  intros (Hrep & Hreg & _). rewrite visit_ids_snd, <- list_fmap_compose.
  apply list.NoDup_fmap_2_strong; [|by eapply visit_ids_NoDup].
  intros [i1 h1] [i2 h2] H1 H2 Heq. cbn in Heq.
  apply (visit_ids_elem _ _ _ _ _ _ Hrep) in H1 as [H1 _], H2 as [H2 _].
  destruct (Hreg _ _ H1) as [E1 _], (Hreg _ _ H2) as [E2 _].
  assert (i1 = i2) as -> by congruence. congruence.
Qed.

(** One publish, for the subscription with handle [h]. *)
Lemma fan_out_reg e r regs id h :
  regs_of (channel e) r regs → regs !! id = Some h →
  let chans' := fan_out e (subscribers (chan (channel e) r)) (sub_chans r, lag_flags r) in
  let expect := if matches (sh_filter h) e then offered e id (sub_chans r, lag_flags r)
                else (sub_chans r, lag_flags r) in
  chans'.1 !! id = expect.1 !! id ∧ chans'.2 !! id = expect.2 !! id.
Proof.
  intros Hr Hid. pose proof Hr as (Hrep & Hreg & _). destruct (Hreg id h Hid) as (Htx & Hch & _).
  unfold fan_out. cbn zeta. destruct (matches (sh_filter h) e) eqn:Hm.
  - apply (fan_list_present e id h); [by eapply NoDup_visit_tx| |done|done].
    rewrite visit_ids_snd. apply list_elem_of_fmap. exists (id, h). split; [done|].
    apply (visit_ids_elem _ _ _ _ _ _ Hrep). split; [done|].
    destruct (exact_key (handle_headers h)) as [[k v]|] eqn:Hk; [right|by left].
    exists k, v. split; [done|]. apply matches_headers in Hm as [_ Hm]. by eapply exact_key_sound.
  - apply fan_list_absent. intros h' Hin Htx'. rewrite visit_ids_snd in Hin.
    apply list_elem_of_fmap in Hin as ([i h2] & -> & Hin). cbn in *.
    apply (visit_ids_elem _ _ _ _ _ _ Hrep) in Hin as [Hin _].
    destruct (Hreg i h2 Hin) as (Hi & _). assert (i = id) as -> by congruence. congruence.
Qed.

(** A subscription on another channel, or none, is not touched. *)
Lemma fan_out_other e r regs id :
  regs_of (channel e) r regs → regs !! id = None →
  let chans' := fan_out e (subscribers (chan (channel e) r)) (sub_chans r, lag_flags r) in
  chans'.1 !! id = sub_chans r !! id ∧ chans'.2 !! id = lag_flags r !! id.
Proof.
  intros (Hrep & Hreg & _) Hid. unfold fan_out. cbn zeta.
  apply (fan_list_absent e id _ (sub_chans r, lag_flags r)). intros h' Hin Htx'.
  rewrite visit_ids_snd in Hin. apply list_elem_of_fmap in Hin as ([i h2] & -> & Hin). cbn in *.
  apply (visit_ids_elem _ _ _ _ _ _ Hrep) in Hin as [Hin _].
  destruct (Hreg i h2 Hin) as (Hi & _). congruence.
Qed.

(** *** Preservation *)
Lemma subs_inv_frame r r' :
  (∀ c, subscribers (chan c r') = subscribers (chan c r)) → sub_guards r' = sub_guards r →
  next_sub r' = next_sub r → subs_inv r → subs_inv r'.
Proof.
  intros Hs Hg Hn [A B]. split; [|by rewrite Hg, Hn].
  intros c. destruct (A c) as (regs & ? & ? & ?). exists regs. unfold regs_of. by rewrite Hs, Hg.
Qed.

Lemma subscribers_deliver e cs : subscribers (deliver_state e cs) = subscribers cs.
Proof. unfold deliver_state. by destruct (is_ephemeral_latest _). Qed.

Lemma subs_inv_publish now e o r r' :
  publish_from now e o r = (Ok (seq (stamped now e r)), r') → publish_ok now e r r' → subs_inv r → subs_inv r'.
Proof.
  intros _ Hok. pose proof (po_stable _ _ _ _ Hok) as (Hc & Hn & Hg).
  apply subs_inv_frame; [|done|done]. intros c. rewrite (chan_publish c now e r r' Hok).
  destruct (decide _); [by apply subscribers_deliver|done].
Qed.

Lemma regs_of_subscribe f fr live r c regs :
  shards_ok r → subs_inv r → regs_of c r regs →
  regs_of c (subscribe_mode f fr live r).2
    (if decide (f_channel f = c) then <[next_sub r := MkHandle (next_sub r) f]> regs else regs).
Proof.
  intros Hs [_ B] (Hrep & Hreg & Hex).
  destruct (subscribe_spec f fr live r Hs) as (_ & _ & _ & _ & _ & Hg & _ & _ & Hch & _).
  set (id := next_sub r) in *. assert (sub_guards r !! id = None) as Hfresh.
  { destruct (sub_guards r !! id) eqn:E; [|done]. specialize (B _ _ E). subst id. lia. }
  unfold regs_of. rewrite Hch, Hg.
  assert (regs !! id = None) as Hnone.
  { destruct (regs !! id) as [h|] eqn:E; [|done]. destruct (Hreg _ _ E) as (_ & _ & ?). congruence. }
  destruct (decide (f_channel f = c)) as [<-|Hne]; cbn; split_and!.
  - by apply (index_rep_insert handle_headers regs _ id (MkHandle id f)).
  - intros i h [[<- <-]|[Hi Hh]]%lookup_insert_Some; [by rewrite lookup_insert_eq|].
    rewrite lookup_insert_ne by done. by apply Hreg.
  - intros i hs [[<- _]|[Hi Hh]]%lookup_insert_Some; [by rewrite lookup_insert_eq|].
    rewrite lookup_insert_ne by done. by eapply Hex.
  - done.
  - intros i h Hh. rewrite lookup_insert_ne; [by apply Hreg|]. congruence.
  - intros i hs [[_ [= ? _]]|[Hi Hh]]%lookup_insert_Some; [done|]. by eapply Hex.
Qed.

Lemma subs_inv_subscribe f fr live r :
  shards_ok r → is_u64 (next_sub r + 1) → subs_inv r → subs_inv (subscribe_mode f fr live r).2.
Proof.
  intros Hs Hu HI. pose proof HI as [A B].
  destruct (subscribe_spec f fr live r Hs) as (_ & _ & Hn & _ & _ & Hg & _).
  assert (next_sub r +w 1 = next_sub r + 1)%N as Hw by (by apply wadd_small). split.
  - intros c. destruct (A c) as [regs Hr]. eexists. by apply regs_of_subscribe.
  - intros i g. rewrite Hg, Hn, Hw. intros [[<- _]|[_ Hi]]%lookup_insert_Some; [lia|].
    specialize (B _ _ Hi). lia.
Qed.

Lemma regs_of_drop id r c regs :
  shards_ok r → regs_of c r regs → regs_of c (drop_stream id r) (delete id regs).
Proof.
  intros Hs (Hrep & Hreg & Hex).
  destruct (drop_spec id r Hs) as (_ & _ & _ & _ & _ & _ & Hg & _ & Hch). unfold regs_of. rewrite Hch, Hg.
  assert (∀ i h, delete id regs !! i = Some h →
    sh_tx h = i ∧ f_channel (sh_filter h) = c ∧ delete id (sub_guards r) !! i = Some (c, handle_headers h)) as H1.
  { intros i h [Hi Hh]%lookup_delete_Some. rewrite lookup_delete_ne by done. by apply Hreg. }
  assert (∀ i hs, delete id (sub_guards r) !! i = Some (c, hs) → is_Some (delete id regs !! i)) as H2.
  { intros i hs [Hi Hh]%lookup_delete_Some. rewrite lookup_delete_ne by done. by eapply Hex. }
  split_and!; [|done|done]. destruct (regs !! id) as [h|] eqn:Hh.
  - destruct (Hreg id h Hh) as (Htx & Hfc & Hgu). rewrite Hgu, decide_True by done.
    unfold chan in *. destruct (channel_state c r) as [cs|]; cbn in *.
    + by apply (index_rep_remove handle_headers).
    + destruct Hrep as [_ _ _ Hlen]. cbn in Hlen.
      assert (size regs = 0%nat) as Hz by lia. apply map_size_empty_inv in Hz.
      subst regs. by rewrite lookup_empty in Hh.
  - rewrite delete_id by done. destruct (sub_guards r !! id) as [[c' hs]|] eqn:Hgu; [|done].
    destruct (decide (c' = c)) as [->|]; [|done]. destruct (Hex id hs Hgu). congruence.
Qed.

Lemma subs_inv_drop id r : shards_ok r → subs_inv r → subs_inv (drop_stream id r).
Proof.
  intros Hs [A B]. destruct (drop_spec id r Hs) as (_ & _ & Hn & _ & _ & _ & Hg & _ & _). split.
  - intros c. destruct (A c) as [regs Hr]. eexists. by apply regs_of_drop.
  - intros i g. rewrite Hg, Hn. intros [_ Hi]%lookup_delete_Some. by eapply B.
Qed.

Lemma subs_inv_step (σ σ' : sys) : shards_ok (rt σ) → sys_step σ σ' → subs_inv (rt σ) → subs_inv (rt σ').
Proof.
  intros Hs Hstep HI.
  destruct Hstep as [now e o Hf Hu|b r' Hb Hc Hd|Hc|e l Hc|f fr live Hu|id e r' Hr|id|cap].
  - unfold do_publish. pose proof (publish_from_spec now e o (rt σ) Hs) as Hspec.
    destruct (publish_from now e o (rt σ)) as [[q|err] r'] eqn:Hp.
    + destruct Hspec as [-> Hok]. cbn. by eapply subs_inv_publish.
    + destruct Hspec as [_ [[_ ->]| ->]]; by apply (subs_inv_frame (rt σ)).
  - injection Hd as _ <-. by apply (subs_inv_frame (rt σ)).
  - unfold do_append. by destruct (append_batch _ _) as [[]].
  - destruct (confirm_spec e (rt σ) Hs) as (_ & (? & ? & ?) & _ & _ & _ & _ & Hch).
    apply (subs_inv_frame (rt σ)); try done. intros c. cbn. rewrite Hch. by destruct (decide _).
  - unfold do_subscribe. pose proof (subs_inv_subscribe f fr live (rt σ) Hs Hu HI) as H.
    by destruct (subscribe_mode f fr live (rt σ)).
  - apply recv_spec in Hr as (buf & cap & open & _ & ->). by apply (subs_inv_frame (rt σ)).
  - by apply subs_inv_drop.
  - by apply (subs_inv_frame (rt σ)).
Qed.

(** ** One subscription through time *)
Section one.
Context (id : N) (f : Filter) (k : nat).
#[local] Abbreviation c := (f_channel f).

(** While its guard lives, the subscription is indexed under its filter, and
    either it was flagged or what it received and what waits in its channel is
    everything matching that was delivered since. *)
Definition live_data (σ : sys) : Prop :=
  lag_flags (rt σ) !! id = Some true ∨
  ∃ q gl, sub_chans (rt σ) !! id = Some q ∧ mq_open q = true ∧ got σ !! id = Some gl ∧
    gl ++ mq_buf q = filter (λ e, matches f e = true) (drop k (log σ)).
Record live_inv (σ : sys) : Prop := {
  lv_id : (id < next_sub (rt σ))%N;
  lv_log : (k ≤ length (log σ))%nat;
  lv_live : is_Some (sub_guards (rt σ) !! id) →
    (∃ regs, regs_of c (rt σ) regs ∧ regs !! id = Some (MkHandle id f)) ∧ live_data σ;
}.

Lemma live_data_frame (σ σ' : sys) :
  sub_chans (rt σ') !! id = sub_chans (rt σ) !! id → lag_flags (rt σ') !! id = lag_flags (rt σ) !! id →
  got σ' !! id = got σ !! id → log σ' = log σ → live_data σ → live_data σ'.
Proof. unfold live_data. by intros -> -> -> ->. Qed.

Lemma regs_frame r r' regs :
  subscribers (chan c r') = subscribers (chan c r) → sub_guards r' = sub_guards r →
  regs_of c r regs → regs_of c r' regs.
Proof. unfold regs_of. by intros -> ->. Qed.

(** Steps that leave the registrations, the channels and the log alone. *)
Lemma live_inv_frame (σ σ' : sys) :
  subscribers (chan c (rt σ')) = subscribers (chan c (rt σ)) → sub_guards (rt σ') = sub_guards (rt σ) →
  next_sub (rt σ') = next_sub (rt σ) → sub_chans (rt σ') = sub_chans (rt σ) →
  lag_flags (rt σ') = lag_flags (rt σ) → got σ' = got σ → log σ' = log σ →
  live_inv σ → live_inv σ'.
Proof.
  intros Hs Hg Hn Hc Hf Hgot Hl [A B C]. split; rewrite ?Hn, ?Hl; try done. rewrite Hg. intros Hlive.
  destruct (C Hlive) as [(regs & ? & ?) Hd]. split.
  - exists regs. split; [by eapply regs_frame|done].
  - eapply live_data_frame; [..|exact Hd]; by rewrite ?Hc, ?Hf, ?Hgot.
Qed.

Lemma live_data_publish (σ σ' : sys) e :
  (if matches f e then
     sub_chans (rt σ') !! id = (offered e id (sub_chans (rt σ), lag_flags (rt σ))).1 !! id ∧
     lag_flags (rt σ') !! id = (offered e id (sub_chans (rt σ), lag_flags (rt σ))).2 !! id
   else sub_chans (rt σ') !! id = sub_chans (rt σ) !! id ∧
        lag_flags (rt σ') !! id = lag_flags (rt σ) !! id) →
  got σ' = got σ → log σ' = log σ ++ [e] → (k ≤ length (log σ))%nat →
  live_data σ → live_data σ'.
Proof.
  intros Hoff Hg Hl Hk Hd. unfold live_data. rewrite Hg, Hl, drop_app_le, list.filter_app, filter_cons, filter_nil by done.
  destruct (matches f e); cbn in Hoff.
  - rewrite decide_True by done. destruct Hoff as [-> ->]. unfold offered. cbn.
    destruct Hd as [Hlag|(q & gl & Hq & Hopen & Hgl & Hdata)].
    + left. destruct (sub_chans (rt σ) !! id) as [q|]; [|done].
      destruct (try_send e q) as [[] q']; cbn; rewrite ?lookup_insert_eq; done.
    + rewrite Hq. unfold try_send. rewrite Hopen. cbn [negb].
      destruct (length (mq_buf q) <? mq_cap q)%nat; cbn.
      * right. rewrite lookup_insert_eq. do 2 eexists. split; [done|]. split; [done|]. split; [done|].
        cbn. by rewrite app_assoc, Hdata.
      * left. by rewrite lookup_insert_eq.
  - rewrite decide_False, app_nil_r by done. destruct Hoff as [-> ->]. exact Hd.
Qed.

Lemma live_inv_step (σ σ' : sys) :
  shards_ok (rt σ) → subs_inv (rt σ) → sys_step σ σ' → live_inv σ → live_inv σ'.
Proof.
  intros Hs HI Hstep HL. pose proof HL as [A B C].
  destruct Hstep as [now e o Hf Hu|b r' Hb Hc Hd|Hc|e l Hc|f' fr live Hu|i e r' Hr|i|cap].
  - unfold do_publish. pose proof (publish_from_spec now e o (rt σ) Hs) as Hspec.
    destruct (publish_from now e o (rt σ)) as [[q|err] r'].
    2:{ destruct Hspec as [_ [[_ ->]| ->]]; by apply (live_inv_frame σ). }
    destruct Hspec as [_ Hok]. pose proof (po_stable _ _ _ _ Hok) as (_ & Hn & Hg).
    set (e' := stamped now e (rt σ)). assert (channel e' = channel e) as Hche by done.
    pose proof (po_fan _ _ _ _ Hok) as Hfan. pose proof (chan_publish c now e (rt σ) r' Hok) as Hcp.
    fold e' in Hfan, Hcp. cbn [snd]. clearbody e'. split; cbn; rewrite ?Hn.
    + done.
    + rewrite length_app. lia.
    + rewrite Hg. intros Hlive. destruct (C Hlive) as [(regs & Hr & Hh) Hdata]. split.
      { exists regs. split; [|done]. apply (regs_frame (rt σ)); [|done|done].
        rewrite Hcp. destruct (decide _); [by apply subscribers_deliver|done]. }
      apply (live_data_publish σ _ e'); try done. cbn.
      destruct (decide (channel e = c)) as [Hce|Hce].
      * rewrite Hce in Hfan. rewrite <- Hce, <- Hche in Hr. pose proof (fan_out_reg e' (rt σ) regs id _ Hr Hh) as Hreg.
        cbn zeta in Hreg. rewrite Hche, Hce, <- Hfan in Hreg. cbn in Hreg. destruct (matches f e'); exact Hreg.
      * destruct (matches f e') eqn:Hm; [apply matches_headers in Hm as [? _]; congruence|].
        destruct (su_regs _ HI (channel e)) as [regs2 Hr2].
        rewrite <- Hche in Hr2. pose proof (fan_out_other e' (rt σ) regs2 id Hr2) as Hoth. cbn zeta in Hoth.
        rewrite Hche, <- Hfan in Hoth. cbn in Hoth. apply Hoth.
        destruct (regs2 !! id) as [h2|] eqn:E; [|done].
        destruct Hr as (_ & Hreg & _), Hr2 as (_ & Hreg2 & _).
        destruct (Hreg _ _ Hh) as (_ & _ & Hg1), (Hreg2 _ _ E) as (_ & _ & Hg2). congruence.
  - injection Hd as _ <-. by apply (live_inv_frame σ).
  - unfold do_append. destruct (append_batch _ _) as [[]]; by apply (live_inv_frame σ).
  - destruct (confirm_spec e (rt σ) Hs) as (_ & (? & ? & ?) & _ & _ & ? & ? & Hch).
    apply (live_inv_frame σ); try done. cbn. rewrite Hch. by destruct (decide _).
  - unfold do_subscribe. pose proof (λ regs, regs_of_subscribe f' fr live (rt σ) c regs Hs HI) as Hr'.
    destruct (subscribe_spec f' fr live (rt σ) Hs) as (_ & _ & Hn & _ & _ & Hg & Hsc & Hlf & _ & Hst).
    destruct (subscribe_mode f' fr live (rt σ)) as [st r']. cbn in *.
    assert (next_sub (rt σ) +w 1 = next_sub (rt σ) + 1)%N as Hw by (by apply wadd_small).
    assert (next_sub (rt σ) ≠ id) as Hne by lia. split; cbn.
    + rewrite Hn, Hw. lia.
    + done.
    + rewrite Hg, lookup_insert_ne by done. intros Hlive. destruct (C Hlive) as [(regs & Hr & Hh) Hdata]. split.
      * eexists. split; [by apply Hr'|]. destruct (decide _); [by rewrite lookup_insert_ne|done].
      * eapply live_data_frame; [..|exact Hdata]; cbn; rewrite ?Hsc, ?Hlf, ?Hst; cbn;
          rewrite ?lookup_insert_ne by done; done.
  - apply recv_spec in Hr as (buf & cap & open & Hq & ->). split; cbn; [done|done|].
    intros Hlive. destruct (C Hlive) as [Hr Hdata]. split; [exact Hr|].
    destruct Hdata as [?|(q & gl & Hq' & Ho & Hgl & Hd)]; [by left|]. right.
    unfold live_data. cbn. destruct (decide (i = id)) as [->|Hne].
    + rewrite !lookup_insert_eq, Hgl. cbn. rewrite Hq in Hq'. injection Hq' as <-.
      do 2 eexists. split; [done|]. split; [done|]. split; [done|]. cbn in *. by rewrite <- app_assoc.
    + rewrite !lookup_insert_ne by done. by exists q, gl.
  - destruct (drop_spec i (rt σ) Hs) as (_ & _ & Hn & _ & _ & Hlf & Hg & Hsc & _). split; cbn; rewrite ?Hn; try done.
    rewrite Hg. intros Hlive. destruct (decide (i = id)) as [->|Hne].
    { rewrite lookup_delete_eq in Hlive. by destruct Hlive. }
    rewrite lookup_delete_ne in Hlive by done. destruct (C Hlive) as [(regs & Hr & Hh) Hdata]. split.
    + exists (delete i regs). rewrite lookup_delete_ne by done. split; [by apply regs_of_drop|done].
    + eapply live_data_frame; [..|exact Hdata]; cbn; rewrite ?Hlf; auto.
  - by apply (live_inv_frame σ).
Qed.
End one.

Lemma live_inv_subscribe f fr live (σ : sys) :
  shards_ok (rt σ) → subs_inv (rt σ) → is_u64 (next_sub (rt σ) + 1) →
  live_inv (next_sub (rt σ)) f (length (log σ)) (do_subscribe f fr live σ).2.
Proof.
  intros Hs HI Hu. unfold do_subscribe.
  destruct (su_regs _ HI (f_channel f)) as [regs Hr].
  pose proof (regs_of_subscribe f fr live (rt σ) (f_channel f) regs Hs HI Hr) as Hr'.
  destruct (subscribe_spec f fr live (rt σ) Hs) as (_ & _ & Hn & _ & _ & Hg & Hsc & Hlf & _ & Hst).
  destruct (subscribe_mode f fr live (rt σ)) as [st r']. cbn in *.
  assert (next_sub (rt σ) +w 1 = next_sub (rt σ) + 1)%N as Hw by (by apply wadd_small).
  split; cbn; [rewrite Hn, Hw; lia|done|]. intros _. split.
  - eexists. split; [exact Hr'|]. rewrite decide_True by done. apply lookup_insert_eq.
  - right. cbn. rewrite Hsc, Hst. cbn. rewrite !lookup_insert_eq. do 2 eexists. split; [done|]. split; [done|].
    split; [done|]. cbn. by rewrite drop_all.
Qed.
End subs.
