(* ===== verification/BusStream.v ===== *)
(** What a subscriber's stream yields, [router/subscribe.rs]: deep replay, the
    ring snapshot and the live channel are one sequence without gap or repeat. *)
From stdpp Require Import base gmap strings list sorting numbers.
From S2P Require Import Prelude.
From S2P Require Import WorkModel.
From S2P Require Import CoreTranscript.
From S2P Require Import BusEnvelope.
From S2P Require Import BusRing.
From S2P Require Import BusIndex.
From S2P Require Import BusEphemeral.
From S2P Require Import BusSink.
From S2P Require Import BusRouter.
From S2P Require Import BusSystem.
From S2P Require Import BusHistory.
From S2P Require Import BusSubs.

(** ** Growth along the system's runs *)
Section growth.
Context {S : Type} `{!DurableSink S, !SinkLaws S}.
Context (s0 : S) (src : SeqSource) (Hinit : initial_ok src s0).
#[local] Abbreviation inv := (sys_inv s0 (ss_epoch src)).
#[local] Abbreviation sys := (Sys (S:=S)).

Lemma step_grows (σ σ' : sys) :
  inv σ → sys_step σ σ' →
  (∃ new, log σ' = log σ ++ new) ∧ (∀ c e, e ∈ rows (sk σ) c → e ∈ rows (sk σ') c).
Proof.
  intros HI Hstep.
  destruct Hstep as [now e o Hf Hu|b r' Hb Hc Hd|Hc|e l Hc|f' fr live Hu|i e r' Hr|i|cap];
    try (split; [exists []; by rewrite app_nil_r|done]).
  - unfold do_publish. destruct (publish_from _ _ _ _) as [[] r']; (split; [|done]); cbn;
      [by eexists|exists []; by rewrite app_nil_r].
  - unfold do_append. pose proof (λ c e, law_append_keeps (sk σ) (batch σ) c e (li_sink _ _ _ (si_log _ _ _ HI))) as Hk.
    destruct (append_batch _ _) as [[] s']; (split; [exists []; by rewrite app_nil_r|exact Hk]).
  - unfold do_subscribe. destruct (subscribe_mode _ _ _ _).
    split; [exists []; by rewrite app_nil_r|done].
Qed.

Lemma reach_grows (σ σ' : sys) :
  inv σ → reach σ σ' →
  (∃ new, log σ' = log σ ++ new) ∧ (∀ c e, e ∈ rows (sk σ) c → e ∈ rows (sk σ') c).
Proof.
  intros HI Hr. revert HI. induction Hr as [σ|σ σ1 σ2 Hstep Hr IH]; intros HI.
  - split; [exists []; by rewrite app_nil_r|done].
  - destruct (step_grows σ σ1 HI Hstep) as [[n1 H1] Hk1].
    destruct (IH (sys_inv_step _ _ σ σ1 Hstep HI)) as [[n2 H2] Hk2]. split; [|auto].
    exists (n1 ++ n2). by rewrite H2, H1, app_assoc.
Qed.

Lemma reach_subs (σ σ' : sys) : inv σ → subs_inv (rt σ) → reach σ σ' → subs_inv (rt σ').
Proof.
  intros HI HS Hr. revert HI HS. induction Hr as [σ|σ σ1 σ2 Hstep Hr IH]; intros HI HS; [done|].
  apply IH; [by eapply sys_inv_step|by eapply subs_inv_step; [apply HI|..]].
Qed.

Lemma reach_live id f k (σ σ' : sys) :
  inv σ → subs_inv (rt σ) → reach σ σ' → live_inv id f k σ → live_inv id f k σ'.
Proof.
  intros HI HS Hr. revert HI HS. induction Hr as [σ|σ σ1 σ2 Hstep Hr IH]; intros HI HS HL; [done|].
  apply IH; [by eapply sys_inv_step|by eapply subs_inv_step; [apply HI|..]|].
  by eapply live_inv_step; [apply HI|..].
Qed.

Lemma subs_inv_initial cfg : subs_inv (EventRouter_new cfg src).
Proof.
  split.
  - intros c. exists ∅. unfold regs_of. rewrite chan_new. split_and!.
    + apply index_rep_new.
    + intros id h. by rewrite lookup_empty.
    + intros id hs. cbn. by rewrite lookup_empty.
  - intros id g. cbn. by rewrite lookup_empty.
Qed.

(** What is delivered later is after everything a reader could see before. *)
Lemma view_before_new c (σ σ' : sys) new x y :
  inv σ → inv σ' → log σ' = log σ ++ new → x ∈ channel_view s0 c σ → y ∈ new → env_lt x y.
Proof.
  intros HI HI' Hl Hx Hy. assert (y ∈ log σ') as Hy' by (rewrite Hl; apply elem_of_app; by right).
  destruct (channel_view_split s0 src Hinit c σ HI) as (A & Hv & Hh & HA & _). rewrite Hv in Hx.
  assert (x ∈ rows s0 c ∨ x ∈ log σ) as [Hx'|Hx'].
  { apply elem_of_app in Hx as [Hx|Hx].
    - apply HA, (rows_history s0 src), history_elem in Hx; naive_solver.
    - destruct (hist_split s0 src Hinit c σ HI) as (_ & _ & _ & _ & _ & Hr).
      apply Hr in Hx as [_ Hx]. apply chan_log_elem in Hx. naive_solver. }
  - by eapply (base_before_log s0 src Hinit c σ').
  - pose proof (li_sorted _ _ _ (si_log _ _ _ HI')) as Hs. rewrite Hl in Hs. by eapply sorted_app_lt.
Qed.

(** The sink's rows before the ring's oldest entry do not change any more. *)
Lemma rows_before_stable c (σ σ' : sys) o :
  inv σ → reach σ σ' → oldest_cursor (ring_of c σ) = Some o →
  filter (λ e, before_gate (Some o) e = true) (rows (sk σ') c) =
  filter (λ e, before_gate (Some o) e = true) (history s0 c σ).
Proof.
  intros HI Hr Ho. pose proof (sys_inv_reach _ _ _ _ Hr HI) as HI'.
  destruct (reach_grows σ σ' HI Hr) as [[new Hl] Hk].
  destruct (channel_view_split s0 src Hinit c σ HI) as (A & Hv & Hh & HA & _).
  destruct (hist_split s0 src Hinit c σ HI) as (A' & Hh' & _ & Hb & _ & Hring).
  assert (A = A') as <- by (apply (app_inj_2 _ _ (durables (ring_envs (ring_of c σ)))
    (durables (ring_envs (ring_of c σ)))); congruence).
  rewrite Ho in Hb, Hring. apply sorted_ext.
  - apply StronglySorted_filter, rows_sorted, HI'.
  - by apply StronglySorted_filter, (history_sorted s0 src Hinit).
  - intros x. rewrite !list_elem_of_filter. split; intros [Hx Hin]; (split; [done|]).
    + apply (rows_history s0 src), history_elem in Hin; [|done]. apply history_elem.
      destruct Hin as [?|(Hc & Hd & Hin)]; [by left|]. right. split_and!; [done..|].
      rewrite Hl in Hin. apply elem_of_app in Hin as [?|Hin]; [done|].
      exfalso. unfold oldest_cursor in Ho. destruct (slots (ring_of c σ)) as [|s ss] eqn:Hss; [done|].
      injection Ho as Ho.
      assert (env s ∈ channel_view s0 c σ) as Hs.
      { unfold channel_view. apply elem_of_app. right. unfold ring_envs. rewrite Hss. by left. }
      pose proof (view_before_new c σ σ' new (env s) x HI HI' Hl Hs Hin) as Hlt.
      unfold env_lt in Hlt. rewrite Ho in Hlt. cbn in Hx. apply before_not_after in Hx.
      unfold cursor_lt in Hlt. congruence.
    + apply Hk, HA. rewrite Hh in Hin. apply elem_of_app in Hin as [?|[_ Hin]%durables_elem]; [done|].
      apply Hring in Hin as [? _]. congruence.
Qed.
End growth.

(** What precedes a cursor is a prefix of a sorted list. *)
Lemma before_split g (l : list Envelope) :
  StronglySorted env_lt l →
  filter (λ e, before_gate g e = true) l ++ filter (λ e, before_gate g e = false) l = l.
Proof.
  induction 1 as [|e l Hs IH He]; [done|]. rewrite !filter_cons.
  destruct (before_gate g e) eqn:Hb; [by rewrite decide_True, decide_False, <- app_comm_cons, IH|].
  rewrite decide_False, decide_True by done. rewrite filter_none, filter_all; [done|..]; intros x Hx; rewrite list.Forall_forall in He; specialize (He x Hx);
    destruct g as [g|]; try done; cbn in *; unfold env_lt, cursor_lt in He.
  - destruct (is_before (cursor x) g) eqn:E; [|done]. by rewrite (before_gate_trans e (cursor x) g He E) in Hb.
  - intros E. by rewrite (before_gate_trans e (cursor x) g He E) in Hb.
Qed.

(** ** The three legs on sorted input *)
Definition yields (f : Filter) (gate : option Cursor) (e : Envelope) : bool :=
  after_gate gate e && matches f e.
Definition out_of (f : Filter) (gate : option Cursor) (l : list Envelope) : list Envelope :=
  filter (λ e, yields f gate e = true) l.
(** The watermark after yielding [out]. *)
Definition mark (out : list Envelope) (high : option Cursor) : option Cursor :=
  match last out with Some e => Some (cursor e) | None => high end.

Lemma mark_app o1 o2 h : mark (o1 ++ o2) h = mark o2 (mark o1 h).
Proof. unfold mark. rewrite last_app. by destruct (last o2). Qed.

Lemma out_of_app f g l1 l2 : out_of f g (l1 ++ l2) = out_of f g l1 ++ out_of f g l2.
Proof. apply list.filter_app. Qed.

(** The watermark filters exactly what the first gate does on what follows. *)
Lemma out_of_mark f high l1 l2 :
  StronglySorted env_lt (l1 ++ l2) → out_of f (mark (out_of f high l1) high) l2 = out_of f high l2.
Proof.
  intros Hs. unfold mark. destruct (last (out_of f high l1)) as [e|] eqn:Hl; [|done].
  apply last_Some_elem_of, list_elem_of_filter in Hl as [Hy Hin].
  apply filter_ext_in. intros x Hx. unfold yields in *. rewrite !andb_true_iff in *. destruct Hy as [Hg _].
  pose proof (sorted_app_lt _ _ e x Hs Hin Hx) as Hlt. split; intros [_ ?]; (split; [|done]).
  - unfold after_gate in *. destruct high as [h|]; [|done]. unfold is_after in *.
    change (cursor_lt h (cursor x)). by trans (cursor e).
  - exact Hlt.
Qed.

Lemma yield_live_sorted l high :
  StronglySorted env_lt l → yield_live l high = filter (λ e, after_gate high e = true) l.
Proof.
  intros Hs. revert high. induction Hs as [|e l Hs IH He]; intros high; [done|]. cbn [yield_live].
  rewrite filter_cons. destruct (after_gate high e) eqn:Hg; [|by rewrite decide_False].
  rewrite decide_True by done. f_equal. rewrite IH. apply filter_ext_in. intros x Hx.
  rewrite list.Forall_forall in He. specialize (He x Hx). split; intros _; [|exact He].
  unfold after_gate in *. destruct high as [h|]; [|done]. unfold is_after in *.
  change (cursor_lt h (cursor x)). by trans (cursor e).
Qed.

(** One element in front. *)
Lemma out_of_cons f high e l :
  out_of f high (e :: l) = if yields f high e then e :: out_of f high l else out_of f high l.
Proof. unfold out_of. rewrite filter_cons. by destruct (yields f high e). Qed.

Lemma out_of_head f high e l :
  StronglySorted env_lt (e :: l) → yields f high e = true →
  out_of f (Some (cursor e)) l = out_of f high l.
Proof.
  intros Hs Hy. pose proof (out_of_mark f high [e] l Hs) as Hm.
  by rewrite out_of_cons, Hy in Hm.
Qed.

Lemma mark_cons e l high : mark (e :: l) high = mark l (Some (cursor e)).
Proof. unfold mark. by destruct l as [|x l]; [|rewrite last_cons_cons; destruct (last (x :: l)) eqn:E; [|apply last_None in E]]. Qed.

Lemma yield_ring_sorted f l high :
  StronglySorted env_lt l → yield_ring f l high = (out_of f high l, mark (out_of f high l) high).
Proof.
  revert high. induction l as [|e l IH]; intros high Hs; [done|]. cbn [yield_ring].
  rewrite out_of_cons. fold (yields f high e). assert (StronglySorted env_lt l) as Hl by (by inversion Hs).
  destruct (yields f high e) eqn:Hy; [|by apply IH].
  rewrite IH, (out_of_head f high e l) by done. by rewrite mark_cons.
Qed.

(** A page up to the ring's oldest entry, then the break. *)
Lemma deep_rows_sorted f o l1 l2 high :
  StronglySorted env_lt l1 →
  (∀ e, e ∈ l1 → before_gate o e = true) →
  (∀ e, e ∈ l2 → before_gate o e = false) →
  deep_rows f o (l1 ++ l2) high =
    (out_of f high l1, mark (out_of f high l1) high, bool_decide (l2 ≠ [])).
Proof.
  intros Hs H1 H2. revert high. induction l1 as [|e l1 IH]; intros high.
  - destruct l2 as [|e l2]; [done|]. cbn [app deep_rows]. specialize (H2 e ltac:(by left)).
    destruct o as [g|]; cbn in *; [|done]. by rewrite H2.
  - cbn [app deep_rows]. pose proof (H1 e ltac:(by left)) as He.
    assert (is_some_and o (λ g, negb (is_before (cursor e) g)) = false) as ->.
    { destruct o as [g|]; cbn in *; [by rewrite He|done]. }
    assert (StronglySorted env_lt l1) as Hl by (by inversion Hs).
    assert (∀ x, x ∈ l1 → before_gate o x = true) as H1' by (intros; apply H1; by right).
    rewrite out_of_cons. fold (yields f high e). destruct (yields f high e) eqn:Hy; [|by apply IH].
    rewrite IH, (out_of_head f high e l1) by done. by rewrite mark_cons.
Qed.

(** ** The page loop *)
Definition page_size : nat := N.to_nat DEEP_REPLAY_PAGE.

Lemma filter_after_split (l1 l2 : list Envelope) e :
  StronglySorted env_lt (l1 ++ l2) → last l1 = Some e →
  filter (λ x, after_gate (Some (cursor e)) x = true) (l1 ++ l2) = l2.
Proof.
  intros Hs Hl. rewrite list.filter_app, filter_none, filter_all; [done|..].
  - intros x Hx. apply last_Some_elem_of in Hl. exact (sorted_app_lt _ _ e x Hs Hl Hx).
  - intros x Hx Hbad. apply last_Some in Hl as [l ->]. apply elem_of_app in Hx as [Hx|Hx].
    + apply StronglySorted_app in Hs as (_ & Hs & _).
      pose proof (sorted_app_lt _ _ x e Hs Hx ltac:(by left)) as Hlt. cbn in Hbad.
      apply before_not_after in Hbad. unfold env_lt, cursor_lt in Hlt. congruence.
    + apply list_elem_of_singleton in Hx. subst x. by apply (env_lt_irrefl e).
Qed.

(** [page] answers from rows that agree on [A], the part before [o]. *)
Definition answers (o : option Cursor) (A : list Envelope)
    (page : nat → option Cursor → result BusError (list Envelope)) : Prop :=
  ∀ i from, ∃ rows,
    page i from = Ok (take page_size (filter (λ e, after_gate from e = true) (A ++ rows))) ∧
    StronglySorted env_lt (A ++ rows) ∧ (∀ e, e ∈ rows → before_gate o e = false).

Lemma page_size_pos : (0 < page_size)%nat.
Proof. unfold page_size, DEEP_REPLAY_PAGE. lia. Qed.

Lemma full_page_iff (l : list Envelope) :
  (DEEP_REPLAY_PAGE <=? N.of_nat (length l))%N = (page_size <=? length l)%nat.
Proof.
  unfold page_size. destruct (N.leb_spec DEEP_REPLAY_PAGE (N.of_nat (length l))),
    (Nat.leb_spec (N.to_nat DEEP_REPLAY_PAGE) (length l)); lia || done.
Qed.

(** A full page of [A] moves the page cursor past it. *)
Lemma next_page A from z n :
  StronglySorted env_lt A →
  last (take n (filter (λ e, after_gate from e = true) A)) = Some z →
  filter (λ e, after_gate (Some (cursor z)) e = true) A =
  drop n (filter (λ e, after_gate from e = true) A).
Proof.
  intros Hs Hz. set (R := filter _ A) in *.
  assert (StronglySorted env_lt R) as HR by (by apply StronglySorted_filter).
  rewrite <- (filter_after_split (take n R) (drop n R) z) by (rewrite ?take_drop; done).
  rewrite take_drop. unfold R. rewrite list_filter_filter. apply filter_ext_in.
  intros x _. split; [|tauto]. intros Hx. split; [done|].
  assert (after_gate from z = true) as Hzg.
  { apply last_Some_elem_of, elem_of_take_in in Hz. unfold R in Hz. by apply list_elem_of_filter in Hz as [? _]. }
  unfold after_gate in *. destruct from as [g|]; [|done]. unfold is_after in *.
  change (cursor_lt g (cursor x)). by trans (cursor z).
Qed.

Lemma deep_leg_spec f o A page :
  answers o A page → (∀ e, e ∈ A → before_gate o e = true) →
  ∀ fuel i from high, let R := filter (λ e, after_gate from e = true) A in
  (length R < fuel)%nat →
  deep_leg fuel f o page i from high = Some (out_of f high R, mark (out_of f high R) high).
Proof.
  intros Hp HA. induction fuel as [|fuel IH]; intros i from high R Hf; [lia|].
  destruct (Hp i from) as (rows & Hpage & Hs & Hrows). cbn [deep_leg]. rewrite Hpage, list.filter_app. cbv beta zeta iota.
  fold R. set (R2 := filter _ rows).
  assert (StronglySorted env_lt A) as HsA by (by apply StronglySorted_app in Hs as (_ & ? & _)).
  assert (StronglySorted env_lt R) as HsR by (by apply StronglySorted_filter).
  assert (∀ e, e ∈ R → before_gate o e = true) as HR.
  { intros e He. apply HA. by apply list_elem_of_filter in He as [_ ?]. }
  assert (∀ e, e ∈ R2 → before_gate o e = false) as HR2.
  { intros e He. apply Hrows. by apply list_elem_of_filter in He as [_ ?]. }
  clearbody R2. rewrite full_page_iff. destruct (decide (page_size ≤ length R)%nat) as [Hle|Hle].
  - rewrite take_app_le by done.
    assert (deep_rows f o (take page_size R) high =
      (out_of f high (take page_size R), mark (out_of f high (take page_size R)) high, false)) as ->.
    { rewrite <- (app_nil_r (take page_size R)) at 1. apply (deep_rows_sorted f o _ []).
      - rewrite <- (take_drop page_size R) in HsR. by apply StronglySorted_app in HsR as (_ & ? & _).
      - intros e He. apply HR. by apply elem_of_take_in in He.
      - by_nil. }
    assert (page_size <=? length (take page_size R) = true)%nat as ->
      by (apply Nat.leb_le; rewrite length_take; lia).
    cbn [orb negb].
    destruct (last (take page_size R)) as [z|] eqn:Hz.
    2:{ apply last_None, (f_equal length) in Hz. rewrite length_take in Hz. cbn in Hz.
        pose proof page_size_pos. lia. }
    cbn [fmap option_fmap option_map].
    pose proof (next_page A from z page_size HsA Hz) as Hnext. fold R in Hnext.
    rewrite IH; rewrite Hnext; [|rewrite length_drop; pose proof page_size_pos; lia].
    cbn [fmap option_fmap option_map fst snd].
    rewrite (out_of_mark f high (take page_size R) (drop page_size R)) by (by rewrite take_drop).
    by rewrite <- mark_app, <- out_of_app, take_drop.
  - rewrite take_app_ge by lia.
    rewrite (deep_rows_sorted f o R (take (page_size - length R) R2)); [|done|done|
      intros e He; apply HR2; by apply elem_of_take_in in He].
    case_bool_decide as Hne; cbn [orb]; [done|].
    assert (take (page_size - length R) R2 = []) as -> by (by destruct (take _ _)).
    rewrite app_nil_r. assert (page_size <=? length R = false)%nat as -> by (apply Nat.leb_gt; lia). done.
Qed.
