(* ===== verification/BusDrain.v ===== *)
(** Write-behind catches up, [router/write_behind.rs]: from any state the writer
    task alone reaches one where everything accepted is stored and nothing is
    pinned, once the sink accepts appends.  [BusScenario] is the concrete run of the router on
    which the witnesses of the router's theorems run. *)
From stdpp Require Import base gmap strings list sorting numbers.
From S2P Require Import Prelude.
From S2P Require Import WorkModel.
From S2P Require Import CoreTranscript.
From S2P Require Import BusEnvelope.
From S2P Require Import BusRing.
From S2P Require Import BusIndex.
From S2P Require Import BusEphemeral.
From S2P Require Import BusSink.
From S2P Require Import BusRouter.
From S2P Require Import BusSystem.
From S2P Require Import BusHistory.
From S2P Require Import BusSubs.
From S2P Require Import BusStream.

(** ** Pins and the ring operations *)
Lemma unpin_pinned id l s :
  NoDup (event_id <$> (env <$> l)) → s ∈ unpin id l → pinned s = true → s ∈ l ∧ event_id (env s) ≠ id.
Proof.
  induction l as [|x l IH]; cbn [unpin]; intros Hn Hs Hp; [by apply elem_of_nil in Hs|].
  cbn in Hn. apply list.NoDup_cons in Hn as [Hx Hn]. case_bool_decide as Hid.
  - apply elem_of_cons in Hs as [->|Hs]; [done|]. split; [by right|]. intros Heq. apply Hx.
    rewrite Hid, <- Heq. by apply list_elem_of_fmap_2, list_elem_of_fmap_2.
  - apply elem_of_cons in Hs as [->|Hs]; [split; [by left|done]|].
    destruct (IH Hn Hs Hp) as [? ?]. split; [by right|done].
Qed.

Lemma evict_slots r s : s ∈ slots (evict_to_capacity r) → s ∈ slots r.
Proof.
  apply (evict_ind (λ r r', s ∈ slots r' → s ∈ slots r)); [done|].
  intros r1 r2 (l1 & x & l2 & Hs & -> & _)%evict_step_Some IH Hin. apply IH in Hin. rewrite Hs. cbn in Hin.
  rewrite !elem_of_app, elem_of_cons in *. tauto.
Qed.

Lemma push_slots e r s : s ∈ slots (push e r) → s ∈ slots r ∨ s = MkSlot e (is_durable (delivery e)).
Proof. intros Hs%evict_slots. cbn in Hs. by rewrite elem_of_app, list_elem_of_singleton in Hs. Qed.

Section drain.
Context {S : Type} `{!DurableSink S, !SinkLaws S}.
Context (s0 : S) (src : SeqSource) (Hinit : initial_ok src s0).
#[local] Abbreviation inv := (sys_inv s0 (ss_epoch src)).
#[local] Abbreviation sys := (Sys (S:=S)).

(** Everything pinned is on its way to the sink. *)
Definition pins_inv (σ : sys) : Prop :=
  ∀ c s, s ∈ slots (ring_of c σ) → pinned s = true →
    env s ∈ queue σ ++ batch σ ++ to_confirm σ.

Lemma ring_ids c σ : inv σ → NoDup (event_id <$> ring_envs (ring_of c σ)).
Proof.
  intros HI. eapply sublist_NoDup; [by apply (channel_view_ids s0 src Hinit c σ HI)|].
  apply fmap_sublist. unfold channel_view. by apply sublist_inserts_l.
Qed.

Lemma pins_frame (σ σ' : sys) :
  (∀ c, ring (chan c (rt σ')) = ring (chan c (rt σ))) →
  (∀ e, e ∈ queue σ ++ batch σ ++ to_confirm σ → e ∈ queue σ' ++ batch σ' ++ to_confirm σ') →
  pins_inv σ → pins_inv σ'.
Proof. unfold pins_inv, ring_of. intros Hr Hq HP c s. rewrite Hr. intros Hs Hp. apply Hq. by eapply HP. Qed.

Lemma pins_step (σ σ' : sys) : inv σ → sys_step σ σ' → pins_inv σ → pins_inv σ'.
Proof.
  intros HI Hstep HP. pose proof (li_shards _ _ _ (si_log _ _ _ HI)) as Hsh.
  destruct Hstep as [now e o Hf Hu|b r' Hb Hc Hd|Hc|e l Hc|f fr live Hu|id e r' Hr|id|cap].
  - unfold do_publish. pose proof (publish_from_spec now e o (rt σ) Hsh) as Hspec.
    destruct (publish_from now e o (rt σ)) as [[q|err] r'].
    2:{ destruct Hspec as [_ [[_ ->]| ->]]; by apply (pins_frame σ). }
    destruct Hspec as [_ Hok]. intros c s. unfold ring_of, queue. cbn.
    rewrite (chan_publish c now e (rt σ) r' Hok), (po_queue _ _ _ _ Hok).
    assert (delivery (stamped now e (rt σ)) = delivery e) as Hde by done.
    clear Hok. revert Hde. generalize (stamped now e (rt σ)) as e'. intros e' Hde Hs Hp.
    assert (env s ∈ queue σ ++ batch σ ++ to_confirm σ ∨ (env s = e' ∧ is_durable (delivery e) = true))
      as [Hold|[-> ->]].
    { destruct (decide (channel e = c)); [|left; by eapply HP]. rewrite deliver_state_ring, Hde in Hs.
      destruct (is_ephemeral_latest (delivery e)); [left; by eapply HP|].
      apply push_slots in Hs as [Hs| ->]; [left; by eapply HP|right]. cbn in *. by rewrite Hde in Hp. }
    + unfold queue in Hold. rewrite !elem_of_app in *. tauto.
    + rewrite !elem_of_app. left. right. by left.
  - injection Hd as <- <-. apply (pins_frame σ); [done| |done]. unfold queue. cbn. intros e.
    rewrite Hb, Hc. cbn. rewrite app_nil_r. intros He. rewrite app_nil_r, elem_of_app.
    rewrite <- (take_drop MAX_BATCH (mq_buf (write_behind (rt σ)))), elem_of_app in He. tauto.
  - unfold do_append. destruct (append_batch _ _) as [[]]; apply (pins_frame σ); try done.
    unfold queue. cbn. rewrite Hc. intros x. by rewrite app_nil_r.
  - destruct (confirm_spec e (rt σ) Hsh) as (_ & _ & _ & Hw & _ & _ & Hch).
    intros c s. unfold ring_of, queue. cbn. rewrite Hch, Hw. intros Hs Hp.
    assert (env s ∈ queue σ ++ batch σ ++ e :: l ∧ (channel e = c → env s ≠ e)) as [Hin Hne].
    { rewrite <- Hc. destruct (decide (channel e = c)) as [He|He].
      - apply evict_slots in Hs. cbn in Hs. apply unpin_pinned in Hs as [Hs Hne]; [|by apply (ring_ids c σ HI)|done].
        split; [by eapply HP|]. intros _ Heq. apply Hne. by rewrite Heq.
      - split; [by eapply HP|]. done. }
    unfold queue in Hin. rewrite !elem_of_app, elem_of_cons in Hin. rewrite !elem_of_app.
    assert (env s ≠ e) as Hse.
    { intros Hse. destruct (decide (channel e = c)) as [He|He]; [by apply Hne|].
      destruct (hist_split s0 src Hinit c σ HI) as (_ & _ & _ & _ & _ & Hring).
      destruct (Hring (env s)) as [_ Hlog]; [by apply (list_elem_of_fmap_2 env) in Hs|].
      apply chan_log_elem in Hlog as [Hlog _]. congruence. }
    tauto.
  - unfold do_subscribe. destruct (subscribe_spec f fr live (rt σ) Hsh) as (_ & _ & _ & _ & Hw & _ & _ & _ & Hch & _).
    destruct (subscribe_mode f fr live (rt σ)) as [st r']. cbn in *.
    apply (pins_frame σ); [|unfold queue; cbn; by rewrite Hw|done]. intros c. cbn. rewrite Hch. by destruct (decide _).
  - apply recv_spec in Hr as (buf & cap & open & _ & ->). by apply (pins_frame σ).
  - destruct (drop_spec id (rt σ) Hsh) as (_ & _ & _ & _ & Hw & _ & _ & _ & Hch).
    apply (pins_frame σ); [|unfold queue; cbn; by rewrite Hw|done]. intros c. cbn. rewrite Hch. unfold chan.
    destruct (sub_guards (rt σ) !! id) as [[c' hs]|]; [|done]. destruct (decide (c' = c)); [|done].
    by destruct (channel_state c (rt σ)).
  - by apply (pins_frame σ).
Qed.

Lemma reach_pins (σ σ' : sys) : inv σ → reach σ σ' → pins_inv σ → pins_inv σ'.
Proof.
  intros HI Hr. revert HI. induction Hr as [σ|σ σ1 σ2 Hstep Hr IH]; intros HI HP; [done|].
  apply IH; [by eapply sys_inv_step|by eapply pins_step].
Qed.

Lemma pins_initial cfg : pins_inv (initial cfg src s0).
Proof. intros c s. unfold ring_of. cbn. rewrite chan_new. cbn. by_nil. Qed.

(** ** The writer's schedule *)
Definition sink_accepts : Prop := ∀ (s : S) l, sink_ok s → (append_batch l s).1 = Ok tt.

(** The steps of the writer task alone: it takes a batch, appends it, confirms an event. *)
Inductive writer_step : sys → sys → Prop :=
| writer_drain σ b r' :
    batch σ = [] → to_confirm σ = [] → drain_batch (rt σ) = (b, r') →
    writer_step σ (MkSys r' (sk σ) b [] (log σ) (got σ))
| writer_append σ : to_confirm σ = [] → writer_step σ (do_append σ)
| writer_confirm σ e l :
    to_confirm σ = e :: l → writer_step σ (MkSys (confirm_item e (rt σ)) (sk σ) (batch σ) l (log σ) (got σ)).
Definition writer_run : sys → sys → Prop := rtc writer_step.
Lemma writer_step_sys σ σ' : writer_step σ σ' → sys_step σ σ'.
Proof. destruct 1; [by eapply step_drain|by apply step_append|by apply step_confirm]. Qed.
Lemma wr_reach σ σ' : writer_run σ σ' → reach σ σ'.
Proof. induction 1; [done|]. eapply rtc_l; [by apply writer_step_sys|done]. Qed.
Lemma wr_log σ σ' : writer_run σ σ' → log σ' = log σ.
Proof.
  induction 1 as [|σ σ1 σ2 Hstep _ ->]; [done|]. destruct Hstep; try done. unfold do_append. by destruct (append_batch _ _) as [[]].
Qed.

Lemma confirm_all (σ : sys) :
  inv σ → ∃ σ', writer_run σ σ' ∧ to_confirm σ' = [] ∧ batch σ' = batch σ ∧ queue σ' = queue σ.
Proof.
  remember (to_confirm σ) as l eqn:Hl. revert σ Hl. induction l as [|e l IH]; intros σ Hl HI.
  - exists σ. split_and!; try done.
  - pose proof (writer_confirm σ e l (eq_sym Hl)) as Hw0. pose proof (writer_step_sys _ _ Hw0) as Hstep.
    destruct (confirm_spec e (rt σ) (li_shards _ _ _ (si_log _ _ _ HI))) as (_ & _ & _ & Hw & _).
    destruct (IH (MkSys (confirm_item e (rt σ)) (sk σ) (batch σ) l (log σ) (got σ)) eq_refl
      (sys_inv_step _ _ _ _ Hstep HI)) as (σ' & Hrun & ? & ? & Hq).
    exists σ'. split_and!; [|done|done|].
    + by eapply rtc_l.
    + rewrite Hq. unfold queue. cbn. by rewrite Hw.
Qed.

Lemma append_all (σ : sys) :
  sink_accepts → inv σ → to_confirm σ = [] →
  ∃ σ', writer_run σ σ' ∧ to_confirm σ' = [] ∧ batch σ' = [] ∧ queue σ' = queue σ.
Proof.
  intros Hsink HI Hc. pose proof (writer_append σ Hc) as Hw0. pose proof (writer_step_sys _ _ Hw0) as Hstep.
  pose proof (sys_inv_step _ _ _ _ Hstep HI) as HI'.
  pose proof (Hsink (sk σ) (batch σ) (li_sink _ _ _ (si_log _ _ _ HI))) as Hok.
  unfold do_append in *. destruct (append_batch (batch σ) (sk σ)) as [res s']. cbn in Hok. subst res.
  destruct (confirm_all _ HI') as (σ' & Hrun & ? & ? & ?). exists σ'. split_and!; try done. by eapply rtc_l.
Qed.

Lemma drain_queue (σ : sys) :
  sink_accepts → inv σ → to_confirm σ = [] → batch σ = [] →
  ∃ σ', writer_run σ σ' ∧ to_confirm σ' = [] ∧ batch σ' = [] ∧ queue σ' = [].
Proof.
  intros Hsink. remember (length (queue σ)) as n eqn:Hn. revert σ Hn.
  induction n as [n IH] using lt_wf_ind. intros σ -> HI Hc Hb.
  destruct (decide (queue σ = [])) as [Hq|Hq]; [exists σ; split_and!; done|].
  pose proof (writer_drain σ _ _ Hb Hc eq_refl) as Hw0. pose proof (writer_step_sys _ _ Hw0) as Hstep. pose proof (sys_inv_step _ _ _ _ Hstep HI) as HI1.
  destruct (append_all _ Hsink HI1 eq_refl) as (σ1 & Hrun1 & Hc1 & Hb1 & Hq1).
  pose proof (sys_inv_reach _ _ _ _ (wr_reach _ _ Hrun1) HI1) as HI2.
  destruct (IH (length (queue σ1))) with (σ := σ1) as (σ' & Hrun & ? & ? & ?); try done.
  - rewrite Hq1. unfold queue at 1. cbn. rewrite length_drop. fold (queue σ).
    destruct (queue σ); [done|]. unfold MAX_BATCH. cbn [length]. lia.
  - exists σ'. split_and!; try done. eapply rtc_l; [exact Hw0|]. unfold writer_run in *. by etrans.
Qed.

Lemma drain_all (σ : sys) :
  sink_accepts → inv σ → pins_inv σ →
  ∃ σ', writer_run σ σ' ∧ queue σ' = [] ∧ batch σ' = [] ∧ to_confirm σ' = [] ∧
    (∀ e, e ∈ log σ → is_durable (delivery e) = true → e ∈ rows (sk σ') (channel e)) ∧
    (∀ c, pinned_count (ring_of c σ') = 0%nat).
Proof.
  intros Hsink HI HP.
  destruct (confirm_all σ HI) as (σ1 & Hr1 & Hc1 & _ & _).
  pose proof (sys_inv_reach _ _ _ _ (wr_reach _ _ Hr1) HI) as HI1.
  destruct (append_all σ1 Hsink HI1 Hc1) as (σ2 & Hr2 & Hc2 & Hb2 & _).
  pose proof (sys_inv_reach _ _ _ _ (wr_reach _ _ Hr2) HI1) as HI2.
  destruct (drain_queue σ2 Hsink HI2 Hc2 Hb2) as (σ3 & Hr3 & Hc3 & Hb3 & Hq3).
  assert (writer_run σ σ3) as Hr by (unfold writer_run in *; etrans; [exact Hr1|]; etrans; [exact Hr2|exact Hr3]).
  pose proof (sys_inv_reach _ _ _ _ (wr_reach _ _ Hr) HI) as HI3.
  exists σ3. split_and!; try done.
  - intros e He Hd. rewrite <- (wr_log _ _ Hr) in He.
    destruct (pi_all _ (si_pipe _ _ _ HI3) e He Hd) as [?|Hin]; [done|]. rewrite Hq3, Hb3 in Hin.
    by apply elem_of_nil in Hin.
  - intros c. unfold pinned_count. rewrite filter_none; [done|]. intros s Hs Hp.
    apply (reach_pins σ σ3 HI (wr_reach _ _ Hr) HP c s Hs) in Hp. rewrite Hq3, Hb3, Hc3 in Hp.
    by apply elem_of_nil in Hp.
Qed.
End drain.

(** Freshness of an id is decidable on the in-memory sink. *)
Definition fresh_idb (e : Envelope) (σ : Sys (S:=SinkInner)) : bool :=
  bool_decide (event_id e ∉ event_id <$> log σ) &&
  forallb (λ kv, forallb (λ x, bool_decide (event_id x ≠ event_id e)) kv.2) (map_to_list (events (sk σ))).
Lemma fresh_idb_spec e σ : fresh_idb e σ = true → fresh_id e σ.
Proof.
  unfold fresh_idb. rewrite andb_true_iff, bool_decide_eq_true, forallb_forall.
  intros [Hl Hs]. split; [done|]. intros c x Hx. change (rows (sk σ) c) with (bucket_of (sk σ) c) in Hx.
  unfold bucket_of in Hx. destruct (events (sk σ) !! uuid c) as [l|] eqn:He; [|by apply elem_of_nil in Hx].
  specialize (Hs (uuid c, l)). cbn in Hs, Hx. rewrite forallb_forall in Hs.
  specialize (Hs ltac:(by apply list_elem_of_In, elem_of_map_to_list) x ltac:(by apply list_elem_of_In)).
  by apply bool_decide_eq_true in Hs.
Qed.

Lemma mem_sink_accepts : sink_accepts (S:=SinkInner).
Proof. intros s l Hs. by apply mem_append_batch_spec. Qed.
Lemma mem_initial_ok src : initial_ok src InMemoryDurableSink_new.
Proof. split; [by intros k l Hk|]. intros c e He. change (e ∈ bucket_of InMemoryDurableSink_new c) in He.
  by apply elem_of_nil in He. Qed.

Module BusScenario.
Definition cfg : RouterConfig := MkRouterConfig 4 1 1048576 8 4 30000.
Definition src : SeqSource := MkSeqSource 7 0.
Definition room : RoomId := MkId 1.
Definition said (id : N) : Envelope :=
  Envelope_new (MkId id) room (MkId 1, MkId 1) KMessage Durable [id].
Definition tick : Envelope :=
  Envelope_new (MkId 50) room (MkId 1, MkId 1) KSignal EphemeralWindow [0%N].

Definition σ0 : Sys (S:=SinkInner) := initial cfg src InMemoryDurableSink_new.
Definition σ1 : Sys := (do_publish 10 (said 11) None σ0).2.
Definition drained : Sys :=
  MkSys (drain_batch (rt σ1)).2 (sk σ1) (drain_batch (rt σ1)).1 [] (log σ1) (got σ1).
Definition appended : Sys := do_append drained.
(** [said 11] is stored and unpinned. *)
Definition σ2 : Sys :=
  MkSys (confirm_item (stamped 10 (said 11) (rt σ0)) (rt appended)) (sk appended) (batch appended) []
    (log appended) (got appended).
(** [said 12] takes its slot and stays pinned. *)
Definition σ3 : Sys := (do_publish 20 (said 12) None σ2).2.
Definition sub : SubStream * Sys := do_subscribe (Filter_channel room) None false σ3.
Definition σ4 : Sys := sub.2.
Lemma sub_eq : do_subscribe (Filter_channel room) None false σ3 = (sub.1, σ4).
Proof. unfold σ4, sub. generalize (do_subscribe (Filter_channel room) None false σ3). by intros []. Qed.
Definition σ5 : Sys := (do_publish 30 tick None σ4).2.
Definition σ6 : Sys := (do_publish 40 (said 13) None σ5).2.

Lemma publish_step now e o (σ : Sys (S:=SinkInner)) :
  fresh_idb e σ = true → bool_decide (is_u64 (ss_counter (seq_source (rt σ)) + 1)) = true →
  reach σ (do_publish now e o σ).2.
Proof.
  intros Hf Hu. apply rtc_once, step_publish; [by apply fresh_idb_spec|by apply bool_decide_eq_true in Hu].
Qed.
Ltac published := apply publish_step; vm_compute; reflexivity.

Lemma reach_01 : reach σ0 σ1. Proof. published. Qed.
Lemma reach_12 : reach σ1 σ2.
Proof.
  eapply (rtc_l _ _ drained); [by apply step_drain; [..|apply surjective_pairing]; vm_compute|].
  eapply (rtc_l _ _ appended); [by apply step_append|].
  apply rtc_once, (step_confirm appended). vm_compute. reflexivity.
Qed.
Lemma reach_23 : reach σ2 σ3. Proof. published. Qed.
Lemma reach_34 : reach σ3 σ4.
Proof. apply rtc_once, step_subscribe. apply (bool_decide_unpack _). vm_compute. exact I. Qed.
Lemma reach_45 : reach σ4 σ5. Proof. published. Qed.
Lemma reach_56 : reach σ5 σ6. Proof. published. Qed.
Lemma reach_03 : reach σ0 σ3.
Proof. etrans; [apply reach_01|]. etrans; [apply reach_12|apply reach_23]. Qed.
Lemma reach_46 : reach σ4 σ6. Proof. etrans; [apply reach_45|apply reach_56]. Qed.
Lemma reach_06 : reach σ0 σ6.
Proof. etrans; [apply reach_03|]. etrans; [apply reach_34|apply reach_46]. Qed.
End BusScenario.
