(* ===== verification/BusThms.v ===== *)
(** The router's theorems, over every run of the system of [BusSystem]: nothing
    accepted is lost, reads answer from the whole durable history, a subscriber
    that does not lag sees each event once.  A publish is one step. *)
From stdpp Require Import base gmap strings list sorting numbers.
From S2P Require Import Prelude.
From S2P Require Import WorkModel.
From S2P Require Import CoreTranscript.
From S2P Require Import BusEnvelope.
From S2P Require Import BusRing.
From S2P Require Import BusIndex.
From S2P Require Import BusEphemeral.
From S2P Require Import BusSink.
From S2P Require Import BusRouter.
From S2P Require Import BusSystem.
From S2P Require Import BusHistory.
From S2P Require Import BusSubs.
From S2P Require Import BusStream.
From S2P Require Import BusDrain.

Section thms.
Context {S : Type} `{!DurableSink S, !SinkLaws S}.

(** A reachable state, with the invariants at hand. *)
Lemma reach_inv cfg src s0 (σ : Sys (S:=S)) :
  initial_ok src s0 → reach (initial cfg src s0) σ →
  sys_inv s0 (ss_epoch src) σ ∧ subs_inv (rt σ).
Proof.
  intros Hi Hr. pose proof (sys_inv_initial cfg src s0 Hi) as HI.
  split; [by eapply sys_inv_reach|]. eapply reach_subs; [exact HI| |exact Hr]. apply subs_inv_initial.
Qed.

Lemma do_publish_step now e o (σ : Sys (S:=S)) :
  fresh_id e σ → is_u64 (ss_counter (seq_source (rt σ)) + 1) → reach σ (do_publish now e o σ).2.
Proof. intros. by apply rtc_once, step_publish. Qed.

Lemma accepted_logged now e o (σ : Sys (S:=S)) q :
  (do_publish now e o σ).1 = Ok q → log (do_publish now e o σ).2 = log σ ++ [stamped now e (rt σ)].
Proof. unfold do_publish. destruct (publish_from now e o (rt σ)) as [[] r']; [done|by intros [=]]. Qed.

(** C3: an accepted durable event is never lost: from the moment [publish]
    returns, in every later state, it is a row of the sink, or it is both on its
    way there (queued or in the batch being written) and pinned in its channel's
    ring, whatever is published, fails or is retried in between. *)
Theorem durable_never_lost cfg src s0 σ1 now e o q σ2 :
  initial_ok src s0 → reach (initial cfg src s0) σ1 →
  fresh_id e σ1 → is_u64 (ss_counter (seq_source (rt σ1)) + 1) → is_durable (delivery e) = true →
  (do_publish now e o σ1).1 = Ok q → reach (do_publish now e o σ1).2 σ2 →
  let e' := stamped now e (rt σ1) in
  e' ∈ rows (sk σ2) (channel e) ∨
  (e' ∈ queue σ2 ++ batch σ2 ∧ MkSlot e' true ∈ slots (ring_of (channel e) σ2)).
Proof.
  intros Hi Hr Hf Hu Hd Hok Hr2 e'. destruct (reach_inv cfg src s0 σ1 Hi Hr) as [HI _].
  pose proof (sys_inv_publish s0 _ now e o σ1 Hf Hu HI) as HI1.
  pose proof (sys_inv_reach _ _ _ _ Hr2 HI1) as HI2.
  destruct (reach_grows s0 src _ _ HI1 Hr2) as [[new Hl] _].
  rewrite (accepted_logged _ _ _ _ _ Hok) in Hl.
  assert (e' ∈ log σ2) as Hin by (rewrite Hl, !elem_of_app; left; right; by left).
  assert (channel e' = channel e ∧ delivery e' = delivery e) as [Hc Hde] by done. clearbody e'.
  rewrite <- Hc. rewrite <- Hde in Hd.
  destruct (pi_all _ (si_pipe _ _ _ HI2) e' Hin Hd) as [?|Hq]; [by left|].
  destruct (ni_inv _ (si_rings _ _ _ HI2) (channel e')) as (ids & Hri & Hids).
  destruct (decide (event_id e' ∈ ids)) as [Hid|Hid].
  - left. by eapply stored_log; [..|apply Hids|].
  - right. split; [done|]. apply list_elem_of_In, (ri_pinned _ _ _ Hri); [|done].
    apply list_elem_of_In, durables_elem. split; [done|]. apply chan_log_elem.
    split_and!; [done|by apply durable_not_latest|done].
Qed.


(** the constant-cost tip probe is the cursor of the newest durable event
    ever accepted on the channel. *)
Theorem durable_tip_exact cfg src s0 σ c o :
  initial_ok src s0 → reach (initial cfg src s0) σ →
  (durable_tip c (rt σ, sk σ)).1 = Ok o → o = cursor <$> last (history s0 c σ).
Proof.
  intros Hi Hr. destruct (reach_inv cfg src s0 σ Hi Hr) as [HI _]. by eapply durable_tip_inv.
Qed.

(** Resuming after a lag loses nothing: a page is the first [limit] events
    after the cursor of the channel's view, which is in order, repeats no event
    id and contains the whole durable history. *)
Theorem resume_exact cfg src s0 σ c gate limit l :
  initial_ok src s0 → reach (initial cfg src s0) σ →
  (resume_from_cursor c gate limit (rt σ, sk σ)).1 = Ok l →
  l = take (Nat.max limit 1) (filter (λ e, after_gate gate e = true) (channel_view s0 c σ)) ∧
  StronglySorted env_lt (channel_view s0 c σ) ∧ NoDup (event_id <$> channel_view s0 c σ) ∧
  durables (channel_view s0 c σ) = history s0 c σ.
Proof.
  intros Hi Hr Hl. destruct (reach_inv cfg src s0 σ Hi Hr) as [HI _]. split_and!.
  - by eapply resume_inv.
  - by eapply channel_view_sorted.
  - by eapply channel_view_ids.
  - by eapply channel_view_durables.
Qed.

(** C19: write-behind catches up: from every reachable state some run of the writer task
    alone, once the sink accepts appends, with no step of anybody else, empties the queue, stores every durable event
    ever accepted and leaves nothing pinned in any ring. *)
Theorem write_behind_catches_up cfg src s0 σ :
  initial_ok src s0 → reach (initial cfg src s0) σ → sink_accepts (S:=S) →
  ∃ σ', rtc writer_step σ σ' ∧ log σ' = log σ ∧ queue σ' = [] ∧ batch σ' = [] ∧ to_confirm σ' = [] ∧
    (∀ e, e ∈ log σ → is_durable (delivery e) = true → e ∈ rows (sk σ') (channel e)) ∧
    (∀ c, pinned_count (ring_of c σ') = 0%nat).
Proof.
  intros Hi Hr Hs. destruct (reach_inv cfg src s0 σ Hi Hr) as [HI _].
  assert (pins_inv σ) as HP.
  { eapply (reach_pins s0 src Hi (initial cfg src s0)); [by apply sys_inv_initial|done|apply pins_initial]. }
  destruct (drain_all s0 src Hi σ Hs HI HP) as (σ' & Hrun & Hrest). exists σ'. split; [exact Hrun|]. split; [by apply wr_log|done].
Qed.

(** *** Subscribing *)
Lemma do_subscribe_stream f fr live (σ : Sys (S:=S)) :
  shards_ok (rt σ) →
  (do_subscribe f fr live σ).1 =
    MkStream (next_sub (rt σ)) f fr live
      (if live then [] else replay_after fr (ring_of (f_channel f) σ))
      (oldest_cursor (ring_of (f_channel f) σ)).
Proof.
  intros Hs. unfold do_subscribe.
  destruct (subscribe_spec f fr live (rt σ) Hs) as (_ & _ & _ & _ & _ & _ & _ & _ & _ & Hst).
  by destruct (subscribe_mode f fr live (rt σ)).
Qed.

(** Pages read at states after the subscription. *)
Definition pages_of (c : RoomId) (σ : Sys (S:=S))
    (page : nat → option Cursor → result BusError (list Envelope)) : Prop :=
  ∀ i from, ∃ τ, reach σ τ ∧ page i from = (sink_page c from page_size (sk τ)).1 ∧ is_ok (page i from) = true.

Lemma pages_answer cfg src s0 σ1 (σ2 : Sys (S:=S)) c o page :
  initial_ok src s0 → reach (initial cfg src s0) σ1 → reach σ1 σ2 →
  oldest_cursor (ring_of c σ1) = Some o → pages_of c σ2 page →
  answers (Some o) (filter (λ e, before_gate (Some o) e = true) (history s0 c σ1)) page.
Proof.
  intros Hi Hr1 Hr2 Ho Hp i from. destruct (Hp i from) as (τ & Hτ & Hpage & Hok).
  destruct (reach_inv cfg src s0 σ1 Hi Hr1) as [HI _].
  assert (reach σ1 τ) as Hr by (by etrans).
  pose proof (sys_inv_reach _ _ _ _ Hr HI) as HIτ.
  pose proof (rows_before_stable s0 src Hi c σ1 τ o HI Hr Ho) as Hst.
  pose proof (rows_sorted (sk τ) c (li_sink _ _ _ (si_log _ _ _ HIτ))) as Hs.
  exists (filter (λ e, before_gate (Some o) e = false) (rows (sk τ) c)).
  assert (filter (λ e, before_gate (Some o) e = true) (rows (sk τ) c)
    ++ filter (λ e, before_gate (Some o) e = false) (rows (sk τ) c) = rows (sk τ) c) as Hsplit.
  { apply before_split, Hs. }
  rewrite <- Hst, Hsplit. split_and!; [|done|].
  - pose proof (law_page (sk τ) c from page_size) as Hlaw. rewrite Hpage in Hok |- *.
    destruct (sink_page c from page_size (sk τ)) as [[x|err] s']; [|done]. cbn in *.
    f_equal. apply Hlaw; [apply HIτ|done].
  - by intros e [? _]%list_elem_of_filter.
Qed.

Lemma out_of_gate f gate l :
  out_of f gate (filter (λ e, after_gate gate e = true) l) = out_of f gate l.
Proof.
  unfold out_of. rewrite list_filter_filter. apply list_filter_iff. intros e. unfold yields.
  rewrite andb_true_iff. tauto.
Qed.

(** The three legs, glued. *)
Lemma legs_glue f from A ring_part new received fuel page o :
  StronglySorted env_lt (A ++ ring_part ++ new) →
  received = filter (λ e, matches f e = true) new →
  answers o A page → (∀ e, e ∈ A → before_gate o e = true) → (length A < fuel)%nat →
  ∀ id, stream_yield fuel
      (MkStream id f from false (filter (λ e, after_gate from e = true) ring_part) o) page received =
    Some (out_of f from (A ++ ring_part ++ new)).
Proof.
  intros Hs Hrec Hans HA Hfuel id. unfold stream_yield. cbn [ss_live_only ss_filter ss_oldest ss_from ss_ring].
  set (R := filter (λ e, after_gate from e = true) A).
  assert (length R ≤ length A)%nat as HR by (unfold R; apply length_filter).
  rewrite (deep_leg_spec f o A page Hans HA fuel 0 from from) by (fold R; lia).
  fold R. cbn [fmap option_fmap option_map fst snd].
  set (RS := filter (λ e, after_gate from e = true) ring_part).
  assert (StronglySorted env_lt ((R ++ RS) ++ new)) as Hs2.
  { eapply sorted_sublist; [|exact Hs]. rewrite <- app_assoc.
    apply sublist_app; [apply sublist_filter|]. apply sublist_app; [apply sublist_filter|reflexivity]. }
  assert (StronglySorted env_lt (R ++ RS)) as Hs3 by (by apply StronglySorted_app in Hs2 as (_ & ? & _)).
  assert (StronglySorted env_lt RS) as Hs4 by (by apply StronglySorted_app in Hs3 as (_ & _ & ?)).
  assert (StronglySorted env_lt new) as Hs5 by (by apply StronglySorted_app in Hs2 as (_ & _ & ?)).
  rewrite yield_ring_sorted by done. rewrite (out_of_mark f from R RS) by done.
  rewrite <- mark_app, <- out_of_app, yield_live_sorted by (rewrite Hrec; by apply StronglySorted_filter).
  assert (filter (λ e, after_gate (mark (out_of f from (R ++ RS)) from) e = true) received =
    out_of f from new) as ->.
  { rewrite <- (out_of_mark f from (R ++ RS) new Hs2), Hrec.
    generalize (mark (out_of f from (R ++ RS)) from) as g. intros g. unfold out_of, yields.
    rewrite list_filter_filter. apply list_filter_iff. intros e. rewrite andb_true_iff. tauto. }
  rewrite !out_of_app. unfold R, RS. by rewrite !out_of_gate.
Qed.

(** C2: the seam admits no miss and no repeat, when publishes take effect one at a time.
    Publishes, drains, other subscribers and the pages of this one may interleave in any
    order, but a publish assigns its sequence and delivers in one step, every page read
    of the sink succeeds, the channel's ring is not empty at registration, and the
    subscriber has not lagged and is still subscribed.  It is then given exactly the
    matching events after its cursor of the channel's view at registration (the whole
    durable history and what the ring retained) followed by everything delivered since,
    strictly in order.  Two publishes that overlap within the call can lose an event: see
    [overlapping_publishers_lose_an_event] in BusCounterexamples. *)
Theorem subscribe_exactly_once cfg src s0 σ1 f from σ2 st σ page :
  initial_ok src s0 → reach (initial cfg src s0) σ1 → is_u64 (next_sub (rt σ1) + 1) →
  do_subscribe f from false σ1 = (st, σ2) → reach σ2 σ →
  is_Some (oldest_cursor (ring_of (f_channel f) σ1)) → pages_of (f_channel f) σ2 page →
  is_Some (sub_guards (rt σ) !! ss_id st) → lag_flags (rt σ) !! ss_id st ≠ Some true →
  let all := channel_view s0 (f_channel f) σ1 ++ drop (length (log σ1)) (log σ) in
  StronglySorted env_lt all ∧
  ∃ q gl, sub_chans (rt σ) !! ss_id st = Some q ∧ got σ !! ss_id st = Some gl ∧
    ∀ fuel, (length (history s0 (f_channel f) σ1) < fuel)%nat →
    stream_yield fuel st page (gl ++ mq_buf q) =
      Some (filter (λ e, yields f from e = true) all).
Proof.
  intros Hi Hr1 Hu Hsub Hr2 [o Ho] Hpages Hguard Hlag all.
  destruct (reach_inv cfg src s0 σ1 Hi Hr1) as [HI HS]. pose proof (li_shards _ _ _ (si_log _ _ _ HI)) as Hsh.
  assert (σ2 = (do_subscribe f from false σ1).2) as E2 by (by rewrite Hsub).
  assert (reach σ1 σ2) as Hr12 by (rewrite E2; by apply rtc_once, step_subscribe).
  pose proof (sys_inv_reach _ _ _ _ Hr12 HI) as HI2. pose proof (reach_subs s0 src _ _ HI HS Hr12) as HS2.
  assert (reach σ1 σ) as Hr by (by etrans). pose proof (sys_inv_reach _ _ _ _ Hr HI) as HIσ.
  pose proof (do_subscribe_stream f from false σ1 Hsh) as Hst. rewrite Hsub in Hst. cbn in Hst.
  pose proof (live_inv_subscribe f from false σ1 Hsh HS Hu) as HL. rewrite <- E2 in HL.
  apply (reach_live s0 src _ _ _ _ _ HI2 HS2 Hr2) in HL.
  assert (ss_id st = next_sub (rt σ1)) as Hid by (by rewrite Hst). rewrite Hid in *.
  destruct (lv_live _ _ _ _ HL Hguard) as [_ [?|(q & gl & Hq & _ & Hgl & Hdata)]]; [done|].
  destruct (reach_grows s0 src _ _ HI Hr) as [[new Hl] _].
  assert (drop (length (log σ1)) (log σ) = new) as Hnew by (rewrite Hl; apply drop_app_length).
  destruct (channel_view_split s0 src Hi (f_channel f) σ1 HI) as (A & Hv & Hh & HA & Hrows).
  assert (filter (λ e, before_gate (Some o) e = true) (history s0 (f_channel f) σ1) = A) as HAeq.
  { apply (app_inv_tail (ring_envs (ring_of (f_channel f) σ1))). rewrite <- Hv. unfold channel_view. by rewrite Ho. }
  assert (StronglySorted env_lt all) as Hsorted.
  { unfold all. rewrite Hnew. apply StronglySorted_app_2.
    - intros x y Hx Hy. by eapply (view_before_new s0 src Hi (f_channel f) σ1 σ).
    - by eapply channel_view_sorted.
    - pose proof (li_sorted _ _ _ (si_log _ _ _ HIσ)) as Hs. rewrite Hl in Hs.
      by apply StronglySorted_app in Hs as (_ & _ & ?). }
  split; [done|]. exists q, gl. split_and!; [done|done|]. intros fuel Hfuel. rewrite Hst, Ho, Hdata, Hnew.
  assert (replay_after from (ring_of (f_channel f) σ1) =
    filter (λ e, after_gate from e = true) (ring_envs (ring_of (f_channel f) σ1))) as ->.
  { unfold ring_envs. by rewrite fmap_filter. }
  assert (all = A ++ ring_envs (ring_of (f_channel f) σ1) ++ new) as Hall.
  { unfold all. by rewrite Hv, Hnew, app_assoc. }
  rewrite Hall in Hsorted |- *. apply legs_glue; try done.
  - rewrite <- HAeq. by eapply (pages_answer cfg src s0 σ1 σ2).
  - rewrite <- HAeq. by intros e [? _]%list_elem_of_filter.
  - rewrite Hh, length_app in Hfuel. lia.
Qed.
End thms.

(** ** Witnesses *)
Module BusWitnesses.
Import BusScenario.

Lemma durable_never_lost_witness :
  let e' := stamped 10 (said 11) (rt σ0) in
  e' ∈ rows (sk σ6) room ∨ (e' ∈ queue σ6 ++ batch σ6 ∧ MkSlot e' true ∈ slots (ring_of room σ6)).
Proof.
  apply (durable_never_lost cfg src InMemoryDurableSink_new σ0 10 (said 11) None (MkSeq 7 0) σ6).
  - apply mem_initial_ok.
  - reflexivity.
  - apply fresh_idb_spec. vm_compute. reflexivity.
  - apply (bool_decide_unpack _). vm_compute. exact I.
  - reflexivity.
  - vm_compute. reflexivity.
  - etrans; [apply reach_12|]. etrans; [apply reach_23|]. etrans; [apply reach_34|apply reach_46].
Defined.


Lemma durable_tip_exact_witness :
  c_event_id <$> (cursor <$> last (history InMemoryDurableSink_new room σ6)) = Some (MkId 13).
Proof.
  destruct (durable_tip room (rt σ6, sk σ6)).1 as [o|] eqn:E; [|by vm_compute in E].
  rewrite <- (durable_tip_exact cfg src InMemoryDurableSink_new σ6 room o (mem_initial_ok src) reach_06 E).
  revert E. vm_compute. intros [= <-]. reflexivity.
Defined.

Lemma resume_exact_witness :
  event_id <$> take (Nat.max 2 1) (filter (λ e, after_gate None e = true)
    (channel_view InMemoryDurableSink_new room σ6)) = [MkId 11; MkId 12].
Proof.
  destruct (resume_from_cursor room None 2 (rt σ6, sk σ6)).1 as [l|] eqn:E; [|by vm_compute in E].
  destruct (resume_exact cfg src InMemoryDurableSink_new σ6 room None 2 l (mem_initial_ok src) reach_06 E)
    as [<- _].
  revert E. vm_compute. intros [= <-]. reflexivity.
Defined.

Lemma write_behind_catches_up_witness :
  ∃ σ', rtc writer_step σ6 σ' ∧ log σ' = log σ6 ∧ stamped 40 (said 13) (rt σ5) ∈ rows (sk σ') room.
Proof.
  destruct (write_behind_catches_up cfg src InMemoryDurableSink_new σ6 (mem_initial_ok src) reach_06
    mem_sink_accepts) as (σ' & Hr & Hl & _ & _ & _ & Hall & _).
  exists σ'. split; [exact Hr|]. split; [exact Hl|]. apply (Hall (stamped 40 (said 13) (rt σ5))).
  - change (stamped 40 (said 13) (rt σ5) ∈ log σ5 ++ [stamped 40 (said 13) (rt σ5)]).
    apply elem_of_app. right. by apply list_elem_of_singleton.
  - reflexivity.
Defined.

(** The subscriber is given both past events, one from the sink and one from the
    ring, then the tick and the event published after it subscribed. *)
Definition ids (l : list Envelope) : list EventId := event_id <$> l.
Definition page_at (i : nat) (g : option Cursor) : result BusError (list Envelope) :=
  (sink_page room g page_size (sk σ4)).1.
Lemma subscribe_exactly_once_witness :
  ids (filter (λ e, yields (Filter_channel room) None e = true)
      (channel_view InMemoryDurableSink_new room σ3 ++ drop (length (log σ3)) (log σ6)))
    = [MkId 11; MkId 12; MkId 50; MkId 13] ∧
  ∃ q gl fuel, sub_chans (rt σ6) !! ss_id sub.1 = Some q ∧ got σ6 !! ss_id sub.1 = Some gl ∧
    ids <$> stream_yield fuel sub.1 page_at (gl ++ mq_buf q) =
      Some [MkId 11; MkId 12; MkId 50; MkId 13].
Proof.
  destruct (subscribe_exactly_once cfg src InMemoryDurableSink_new σ3 (Filter_channel room) None σ4
    sub.1 σ6 page_at) as (_ & q & gl & Hq & Hg & Hy).
  - apply mem_initial_ok.
  - apply reach_03.
  - apply (bool_decide_unpack _). vm_compute. exact I.
  - exact sub_eq.
  - apply reach_46.
  - eexists. vm_compute. reflexivity.
  - intros i from. exists σ4. split; [reflexivity|]. split; reflexivity.
  - eexists. vm_compute. reflexivity.
  - vm_compute. discriminate.
  - match goal with |- ?A ∧ _ => assert A as Hids by (vm_compute; reflexivity) end.
    split; [exact Hids|]. exists q, gl, 10%nat. split; [exact Hq|]. split; [exact Hg|].
    rewrite Hy by (vm_compute; lia). rewrite <- Hids. reflexivity.
Defined.
End BusWitnesses.
