(* ===== verification/BusForward.v ===== *)
(** The outbound forward path: [offer_to_forward_sink] and [ForwardLatest] of
    [airc-bus/src/router.rs] with the forwarder that drains them,
    [drain_loop] of [airc-lib/src/route_forwarder.rs].

    The router replaces the pending value of a coalescable key on every offer and
    queues a wake; the forwarder resolves a wake when it takes it.  Here: what the
    forwarder puts on the wire for any interleaving of offers and takes. *)
From stdpp Require Import base gmap strings list sorting numbers.
From S2P Require Import Prelude.
From S2P Require Import WorkModel.
From S2P Require Import CoreTranscript.
From S2P Require Import BusEnvelope.
From S2P Require Import BusRing.
From S2P Require Import BusIndex.
From S2P Require Import BusEphemeral.
From S2P Require Import BusSink.
From S2P Require Import BusRouter.
From S2P Require Import BusSystem.
From S2P Require Import BusHistory.
From S2P Require Import BusSubs.
From S2P Require Import BusStream.
From S2P Require Import BusDrain.

(** ** The forwarder's side *)

(** One turn of [drain_loop]: [rx.recv()] of a non-empty queue, then [resolve];
    [None] is the wake whose value is gone, or nothing to take. *)
Definition forward_take (r : RouterInner) : option ForwardItem * RouterInner :=
  match forward_tx r with
  | Some (MkMpsc (item :: buf) cap open) =>
      let '(out, l) := resolve item (forward_latest r) in
      (out, r <| forward_tx := Some (MkMpsc buf cap open) |> <| forward_latest := l |>)
  | _ => (None, r)
  end.
(** Loop prevention: the peers one item is queued for. *)
Definition forward_peers (item : ForwardItem) (connected : list PeerId) : list PeerId :=
  filter (λ peer, Some peer ≠ fi_origin item) connected.

Inductive fwd_op := FwdOffer (item : ForwardItem) | FwdTake.
Definition fwd_step (s : list ForwardItem * RouterInner) (op : fwd_op) : list ForwardItem * RouterInner :=
  match op with
  | FwdOffer it => (s.1, offer_to_forward_sink (fi_env it) (fi_origin it) s.2)
  | FwdTake => let '(o, r) := forward_take s.2 in (s.1 ++ option_list o, r)
  end.
(** Everything emitted by a sequence of offers and takes, and the router left. *)
Definition fwd_run (ops : list fwd_op) (r : RouterInner) : list ForwardItem * RouterInner :=
  foldl fwd_step ([], r) ops.

Definition offers (ops : list fwd_op) : list ForwardItem :=
  omap (λ op, match op with FwdOffer it => Some it | FwdTake => None end) ops.
Definition item_key (it : ForwardItem) : option ForwardKey := forward_key (fi_env it).
(** The newest offer for a key. *)
Definition newest (k : ForwardKey) (l : list ForwardItem) : option ForwardItem :=
  last (filter (λ it, item_key it = Some k) l).
(** The items that are never coalesced. *)
Definition plain (l : list ForwardItem) : list ForwardItem := filter (λ it, item_key it = None) l.
Definition waiting (r : RouterInner) : list ForwardItem :=
  match forward_tx r with Some q => mq_buf q | None => [] end.

Lemma waiting_tx r r' : forward_tx r' = forward_tx r → waiting r' = waiting r.
Proof. unfold waiting. by intros ->. Qed.

Lemma newest_snoc k l it :
  newest k (l ++ [it]) = if decide (item_key it = Some k) then Some it else newest k l.
Proof.
  unfold newest. rewrite list.filter_app, filter_cons, filter_nil.
  case_decide; [by rewrite last_snoc|by rewrite app_nil_r].
Qed.
Lemma newest_elem k l it : newest k l = Some it → it ∈ l ∧ item_key it = Some k.
Proof. intros [? ?]%last_Some_elem_of%list_elem_of_filter. done. Qed.
Lemma plain_snoc l it :
  plain (l ++ [it]) = plain l ++ (if decide (item_key it = None) then [it] else []).
Proof. unfold plain. by rewrite list.filter_app, filter_cons, filter_nil. Qed.

Lemma latest_insert k k0 it (l : ForwardLatest) :
  (<[k0 := it]> l : ForwardLatest) !! k = if decide (k0 = k) then Some it else l !! k.
Proof. apply (lookup_insert (M:=gmap ForwardKey)). Qed.
Lemma latest_delete k k0 (l : ForwardLatest) :
  (delete k0 l : ForwardLatest) !! k = if decide (k0 = k) then None else l !! k.
Proof. apply (lookup_delete (M:=gmap ForwardKey)). Qed.

(** ** What every run keeps *)
Record fwd_inv (os out : list ForwardItem) (r : RouterInner) : Prop := {
  fv_open : ∃ q, forward_tx r = Some q ∧ mq_open q = true;
  fv_latest k it : forward_latest r !! k = Some it → newest k os = Some it ∧ it ∉ out;
  fv_taken k it : forward_latest r !! k = None → newest k os = Some it → it ∈ out;
  fv_out it : it ∈ out → it ∈ os;
  fv_nodup k : NoDup (filter (λ it, item_key it = Some k) out);
  fv_plain : plain out ++ plain (waiting r) `sublist_of` plain os;
  fv_count : (N.of_nat (length (plain os)) =
    N.of_nat (length (plain out ++ plain (waiting r))) + forward_drop_count r)%N;
  fv_wakes k : is_Some (forward_latest r !! k) → ephemeral_superseded_count r = 0%N →
    ∃ w, w ∈ waiting r ∧ item_key w = Some k;
  fv_bound : (ephemeral_superseded_count r ≤ N.of_nat (length os))%N;
}.

(** An offer, by its three outcomes. *)
Lemma offer_spec it q r :
  forward_tx r = Some q → mq_open q = true →
  let r' := offer_to_forward_sink (fi_env it) (fi_origin it) r in
  forward_latest r' =
    match item_key it with Some k => <[k := it]> (forward_latest r) | None => forward_latest r end ∧
  ((waiting r' = waiting r ++ [it] ∧ (∃ q', forward_tx r' = Some q' ∧ mq_open q' = true) ∧
    forward_drop_count r' = forward_drop_count r ∧
    ephemeral_superseded_count r' = ephemeral_superseded_count r) ∨
   (forward_tx r' = forward_tx r ∧ is_Some (item_key it) ∧ forward_drop_count r' = forward_drop_count r ∧
    ephemeral_superseded_count r' = ephemeral_superseded_count r +w 1) ∨
   (forward_tx r' = forward_tx r ∧ item_key it = None ∧
    forward_drop_count r' = forward_drop_count r +w 1 ∧
    ephemeral_superseded_count r' = ephemeral_superseded_count r)).
Proof.
  intros Hq Ho. unfold offer_to_forward_sink, waiting. rewrite Hq. destruct it as [e o].
  unfold item_key, try_send. cbn [fi_env fi_origin]. rewrite Ho. cbn [negb].
  destruct (length (mq_buf q) <? mq_cap q)%nat; destruct (forward_key e); cbn; split; try done; try (left; split_and!; by eauto).
  - right. left. by rewrite Hq.
  - right. right. by rewrite Hq.
Qed.

Lemma take_spec q r :
  forward_tx r = Some q →
  let '(o, r') := forward_take r in
  (waiting r = [] ∧ o = None ∧ r' = r) ∨
  ∃ it buf, waiting r = it :: buf ∧ waiting r' = buf ∧
    (∃ q', forward_tx r' = Some q' ∧ mq_open q' = mq_open q) ∧
    forward_drop_count r' = forward_drop_count r ∧
    ephemeral_superseded_count r' = ephemeral_superseded_count r ∧
    match item_key it with
    | None => o = Some it ∧ forward_latest r' = forward_latest r
    | Some k => o = forward_latest r !! k ∧ forward_latest r' = delete k (forward_latest r)
    end.
Proof.
  intros Hq. unfold forward_take, waiting. rewrite Hq. destruct q as [[|it buf] cap op]; [by left|].
  unfold resolve, item_key. destruct (forward_key (fi_env it)) eqn:E; cbn; right; exists it, buf; rewrite E;
    split_and!; eauto.
Qed.

Lemma fwd_inv_offer os out r it :
  fwd_inv os out r → it ∉ os → is_u64 (N.of_nat (length os) + 1) →
  fwd_inv (os ++ [it]) out (offer_to_forward_sink (fi_env it) (fi_origin it) r).
Proof.
  intros HI Hf Hu. destruct (fv_open _ _ _ HI) as (q & Hq & Ho).
  destruct (offer_spec it q r Hq Ho) as [Hl Hcases]. cbn zeta in Hl, Hcases.
  revert Hl Hcases. generalize (offer_to_forward_sink (fi_env it) (fi_origin it) r) as r'. intros r' Hl Hcases.
  assert (length (plain os) ≤ length os)%nat as Hpl by apply length_filter.
  pose proof (fv_count _ _ _ HI) as Hcount. pose proof (fv_bound _ _ _ HI) as Hb.
  assert (forward_drop_count r +w 1 = forward_drop_count r + 1)%N as Hd
    by (apply wadd_small; unfold is_u64 in *; lia).
  assert (ephemeral_superseded_count r +w 1 = ephemeral_superseded_count r + 1)%N as Hs
    by (apply wadd_small; unfold is_u64 in *; lia).
  assert (it ∉ out) as Hout by (intros ?%(fv_out _ _ _ HI); done).
  split.
  - destruct Hcases as [(_ & ? & _)|[(-> & _)|(-> & _)]]; eauto.
  - intros k x. rewrite Hl, newest_snoc. destruct (item_key it) as [k0|] eqn:Hk; [|by apply HI].
    rewrite latest_insert. case_decide as Hkk; [|rewrite decide_False by congruence; by apply HI].
    subst k0. rewrite decide_True by done. by intros [= <-].
  - intros k x. rewrite Hl, newest_snoc. destruct (item_key it) as [k0|] eqn:Hk; [|by apply HI].
    rewrite latest_insert. case_decide as Hkk; [done|]. rewrite decide_False by congruence. by apply HI.
  - intros x Hx. apply elem_of_app. left. by apply HI.
  - apply HI.
  - rewrite plain_snoc. destruct Hcases as [(-> & _)|[(Ht & _)|(Ht & _)]].
    + rewrite plain_snoc, app_assoc. by apply sublist_app; [apply HI|].
    + rewrite (waiting_tx r r' Ht). apply sublist_inserts_r, HI.
    + rewrite (waiting_tx r r' Ht). apply sublist_inserts_r, HI.
  - rewrite plain_snoc, length_app. destruct Hcases as [(-> & _ & -> & _)|[(Ht & [k Hk] & -> & _)|(Ht & Hk & -> & _)]].
    + rewrite plain_snoc, !length_app in *. lia.
    + rewrite (waiting_tx r r' Ht), decide_False by congruence. cbn [length]. lia.
    + rewrite (waiting_tx r r' Ht), Hd, decide_True by done. cbn [length]. lia.
  - intros k Hk Hz. rewrite Hl in Hk. destruct Hcases as [(-> & _ & _ & He)|[(_ & _ & _ & He)|(Ht & Hn & _ & He)]].
    + destruct (decide (item_key it = Some k)) as [Hik|Hik].
      * exists it. split; [|done]. apply elem_of_app. right. by left.
      * destruct (fv_wakes _ _ _ HI k) as (w & ? & ?); [|congruence|].
        { destruct (item_key it); [|done]. rewrite latest_insert in Hk. by rewrite decide_False in Hk by congruence. }
        exists w. split; [|done]. apply elem_of_app. by left.
    + rewrite Hs in He. lia.
    + rewrite (waiting_tx r r' Ht). rewrite Hn in Hk. apply (fv_wakes _ _ _ HI k Hk). congruence.
  - rewrite length_app. cbn. destruct Hcases as [(_ & _ & _ & ->)|[(_ & _ & _ & ->)|(_ & _ & _ & ->)]]; lia.
Qed.

Lemma plain_key l it : plain (it :: l) = (if decide (item_key it = None) then [it] else []) ++ plain l.
Proof. unfold plain. rewrite filter_cons. by case_decide. Qed.

Lemma fwd_inv_take os out r o r' :
  forward_take r = (o, r') → fwd_inv os out r → fwd_inv os (out ++ option_list o) r'.
Proof.
  intros Ht HI. destruct (fv_open _ _ _ HI) as (q & Hq & Ho).
  pose proof (take_spec q r Hq) as Hspec. rewrite Ht in Hspec.
  destruct Hspec as [(_ & -> & ->)|(it & buf & Hw & Hw' & Hq' & Hd & He & Hk)]; [by rewrite app_nil_r|].
  rewrite Ho in Hq'. pose proof (fv_plain _ _ _ HI) as Hp. pose proof (fv_count _ _ _ HI) as Hc.
  rewrite Hw, plain_key in Hp, Hc. destruct (item_key it) as [k|] eqn:Hik.
  2:{ destruct Hk as [-> Hl]. change (option_list (Some it)) with [it]. cbn in Hp, Hc.
    assert (plain (out ++ [it]) = plain out ++ [it]) as Hpo by (rewrite plain_snoc, decide_True; done).
    assert (it ∈ os) as Hos.
    { assert (it ∈ plain os) as [_ ?]%list_elem_of_filter; [|done].
      eapply elem_of_submseteq; [|by apply sublist_submseteq, Hp]. apply elem_of_app. right. by left. }
    split; rewrite ?Hl, ?Hw', ?Hd, ?He, ?Hpo, <- ?app_assoc; try done; try apply HI.
    - intros k x Hx. destruct (fv_latest _ _ _ HI k x Hx) as [Hnew Hnx]. split; [done|].
      apply newest_elem in Hnew as [_ Hkx]. rewrite not_elem_of_app, list_elem_of_singleton. split; [done|]. congruence.
    - intros k x Hx Hnew. apply elem_of_app. left. by eapply HI.
    - intros x [Hx| ->%list_elem_of_singleton]%elem_of_app; [by apply HI|done].
    - intros k. rewrite list.filter_app, filter_cons_False, app_nil_r by congruence. apply HI.
    - intros k Hx Hz. destruct (fv_wakes _ _ _ HI k Hx Hz) as (w & Hin & Hkw). exists w. split; [|done].
      rewrite Hw in Hin. apply elem_of_cons in Hin as [->|?]; [congruence|done]. }
  destruct Hk as [-> Hl]. rewrite decide_False in Hp, Hc by done. cbn [app] in Hp, Hc.
  assert (∀ x, x ∈ option_list (forward_latest r !! k) → forward_latest r !! k = Some x) as Hol.
  { intros x. destruct (forward_latest r !! k) as [y|]; cbn; [|by intros ?%elem_of_nil].
    by intros ->%list_elem_of_singleton. }
  assert (∀ x, x ∈ option_list (forward_latest r !! k) → newest k os = Some x ∧ x ∉ out) as Hol2.
  { intros x Hx%Hol. by apply HI. }
  assert (plain (out ++ option_list (forward_latest r !! k)) = plain out) as Hpo.
  { unfold plain. rewrite list.filter_app. destruct (forward_latest r !! k) as [y|] eqn:Hy; [|apply app_nil_r].
    change (option_list (Some y)) with [y].
    destruct (fv_latest _ _ _ HI k y Hy) as [[_ Hyk]%newest_elem _].
    rewrite filter_cons_False, filter_nil by congruence. by rewrite app_nil_r. }
  split; rewrite ?Hl, ?Hw', ?Hd, ?He, ?Hpo; try done; try apply HI.
  - intros j x. rewrite latest_delete. case_decide as Hjk; [done|]. intros Hx.
    destruct (fv_latest _ _ _ HI j x Hx) as [Hnew Hnx]. split; [done|]. rewrite not_elem_of_app. split; [done|].
    intros [Hkx _]%Hol2. apply newest_elem in Hnew as [_ ?]. apply newest_elem in Hkx as [_ ?]. congruence.
  - intros j x. rewrite latest_delete. case_decide as Hjk.
    + subst j. intros _ Hnew. apply elem_of_app. destruct (forward_latest r !! k) as [y|] eqn:Hy.
      * right. destruct (fv_latest _ _ _ HI k y Hy) as [Hny _]. rewrite Hny in Hnew. injection Hnew as ->. cbn. by left.
      * left. by eapply HI.
    + intros Hj Hnew. apply elem_of_app. left. by eapply HI.
  - intros x [Hx|[[? _]%newest_elem _]%Hol2]%elem_of_app; [by apply HI|done].
  - intros j. rewrite list.filter_app. apply list.NoDup_app. split_and!; [apply HI| |].
    + intros x [_ Hx]%list_elem_of_filter [_ [_ Hnx]%Hol2]%list_elem_of_filter. done.
    + apply list.NoDup_filter. destruct (forward_latest r !! k); [apply NoDup_singleton|apply NoDup_nil_2].
  - intros j. rewrite latest_delete. case_decide as Hjk; [by intros []|]. intros Hx Hz.
    destruct (fv_wakes _ _ _ HI j Hx Hz) as (w & Hin & Hkw). exists w. split; [|done].
    rewrite Hw in Hin. apply elem_of_cons in Hin as [->|?]; [congruence|done].
Qed.

(** ** Runs *)
Lemma fwd_run_inv ops os out r out' r' :
  NoDup (os ++ offers ops) → is_u64 (N.of_nat (length (os ++ offers ops))) →
  fwd_inv os out r → foldl fwd_step (out, r) ops = (out', r') → fwd_inv (os ++ offers ops) out' r'.
Proof.
  revert os out r. induction ops as [|op ops IH]; intros os out r Hn Hu HI Hrun.
  - injection Hrun as <- <-. by rewrite app_nil_r.
  - destruct op as [it|]; cbn [foldl fwd_step fst snd] in Hrun.
    + change (offers (FwdOffer it :: ops)) with ([it] ++ offers ops) in *. rewrite app_assoc in *.
      eapply IH; [done|done| |exact Hrun]. apply fwd_inv_offer; [done| |].
      * apply list.NoDup_app in Hn as (Hn & _ & _). apply list.NoDup_app in Hn as (_ & Hn & _).
        intros Hin. apply (Hn it Hin). by left.
      * rewrite !length_app in Hu. cbn in Hu. unfold is_u64 in *. lia.
    + destruct (forward_take r) as [o r1] eqn:Ht. cbn [fst snd] in Hrun.
      eapply IH; [done|done| |exact Hrun]. by eapply fwd_inv_take.
Qed.

Lemma fwd_inv_new cfg src cap : fwd_inv [] [] (set_forward_sink cap (EventRouter_new cfg src)).
Proof.
  assert (∀ k, (∅ : ForwardLatest) !! k = None) as He by (intros k; apply (lookup_empty (M:=gmap ForwardKey))).
  split; unfold waiting; cbn [forward_tx forward_latest set_forward_sink mq_buf app plain].
  - by eexists.
  - intros k it Hk. change ((∅ : ForwardLatest) !! k = Some it) in Hk. by rewrite He in Hk.
  - done.
  - intros it Hit. by apply elem_of_nil in Hit.
  - intros k. apply NoDup_nil_2.
  - done.
  - done.
  - intros k [it Hk]. change ((∅ : ForwardLatest) !! k = Some it) in Hk. by rewrite He in Hk.
  - done.
Qed.

(** Taking as often as there are wakes leaves none. *)
Lemma takes_drain n out r q :
  forward_tx r = Some q → length (waiting r) = n →
  waiting (foldl fwd_step (out, r) (replicate n FwdTake)).2 = [].
Proof.
  revert out r q. induction n as [|n IH]; intros out r q Hq Hn; [by apply nil_length_inv|].
  cbn [replicate foldl fwd_step fst snd]. pose proof (take_spec q r Hq) as Hspec.
  destruct (forward_take r) as [o r1]. destruct Hspec as [(Hw & _)|(it & buf & Hw & Hw' & (q' & Hq' & _) & _)].
  - by rewrite Hw in Hn.
  - eapply IH; [exact Hq'|]. rewrite Hw in Hn. injection Hn as <-. by rewrite Hw'.
Qed.

Lemma takes_count n out r q :
  forward_tx r = Some q →
  ephemeral_superseded_count (foldl fwd_step (out, r) (replicate n FwdTake)).2 = ephemeral_superseded_count r.
Proof.
  revert out r q. induction n as [|n IH]; intros out r q Hq; [done|].
  cbn [replicate foldl fwd_step fst snd]. pose proof (take_spec q r Hq) as Hspec.
  destruct (forward_take r) as [o r1]. destruct Hspec as [(_ & _ & ->)|(it & buf & _ & _ & (q' & Hq' & _) & _ & He & _)].
  - by eapply IH.
  - rewrite <- He. by eapply IH.
Qed.

Lemma take_emits_newest os out r it r' k :
  fwd_inv os out r → forward_take r = (Some it, r') → item_key it = Some k → newest k os = Some it ∧ it ∉ out.
Proof.
  intros HI Ht Hk. destruct (fv_open _ _ _ HI) as (q & Hq & _). pose proof (take_spec q r Hq) as Hspec.
  rewrite Ht in Hspec. destruct Hspec as [(_ & ? & _)|(w & buf & _ & _ & _ & _ & _ & Hw)]; [done|].
  destruct (item_key w) as [kw|] eqn:Hkw; [|destruct Hw as [[= ->] _]; congruence].
  destruct Hw as [Hl _]. symmetry in Hl. destruct (fv_latest _ _ _ HI kw it Hl) as [Hn Hout].
  destruct (newest_elem kw os it Hn). by simplify_eq.
Qed.

Lemma NoDup_by_key (l : list ForwardItem) :
  NoDup (plain l) → (∀ k, NoDup (filter (λ it, item_key it = Some k) l)) → NoDup l.
Proof.
  intros Hp Hk. assert (∀ o, NoDup (filter (λ it, item_key it = o) l)) as Ho 
    by (intros [k|]; [apply Hk|by rewrite (list_filter_iff _ (λ it, item_key it = None))]).
  clear Hp Hk. induction l as [|x l IH]; [apply NoDup_nil_2|]. apply list.NoDup_cons. split.
  - intros Hin. specialize (Ho (item_key x)). rewrite filter_cons_True in Ho by done.
    apply list.NoDup_cons in Ho as [Hnin _]. apply Hnin. by apply list_elem_of_filter.
  - apply IH. intros o. specialize (Ho o). rewrite filter_cons in Ho. case_decide; [|done].
    by apply list.NoDup_cons in Ho as [_ ?].
Qed.

(** The forward path is latest-wins and never repeats: for any interleaving
    of offers and takes, what goes out is each item at most once; a coalescable
    item that goes out is the newest offer of its key at that moment; the items
    that are not coalescable go out unchanged and in order, each one that does
    not is counted as dropped; and while no wake was refused, draining the queue
    puts the newest offer of every key on the wire. *)
Theorem forward_latest_wins cfg src cap ops out r :
  NoDup (offers ops) → is_u64 (N.of_nat (length (offers ops))) →
  fwd_run ops (set_forward_sink cap (EventRouter_new cfg src)) = (out, r) →
  NoDup out ∧
  (∀ it r' k, forward_take r = (Some it, r') → item_key it = Some k →
     newest k (offers ops) = Some it ∧ it ∉ out) ∧
  plain out ++ plain (waiting r) `sublist_of` plain (offers ops) ∧
  (N.of_nat (length (plain (offers ops))) =
     N.of_nat (length (plain out ++ plain (waiting r))) + forward_drop_count r)%N ∧
  (ephemeral_superseded_count r = 0%N →
     let drained := (foldl fwd_step (out, r) (replicate (length (waiting r)) FwdTake)).1 in
     ∀ k it, newest k (offers ops) = Some it → it ∈ drained).
Proof.
  intros Hn Hu Hrun.
  pose proof (fwd_run_inv ops [] [] _ out r Hn Hu (fwd_inv_new cfg src cap) Hrun) as HI. cbn [app] in HI.
  split_and!; try apply HI.
  - apply NoDup_by_key; [|apply HI]. eapply (sublist_NoDup _ (plain (offers ops))); [by apply list.NoDup_filter|].
    etrans; [|apply (fv_plain _ _ _ HI)]. by apply sublist_inserts_r.
  - intros it r' k. by apply take_emits_newest.
  - intros Hz drained k it Hnew. subst drained. destruct (fv_open _ _ _ HI) as (q & Hq & _).
    pose proof (takes_drain _ out r q Hq eq_refl) as Hw.
    pose proof (takes_count (length (waiting r)) out r q Hq) as Hc.
    destruct (foldl fwd_step (out, r) (replicate (length (waiting r)) FwdTake)) as [out' r'] eqn:Hd.
    assert (∀ n, offers (replicate n FwdTake) = []) as Ho by (intros n; by induction n).
    assert (fwd_inv (offers ops) out' r') as HI'.
    { rewrite <- (app_nil_r (offers ops)), <- (Ho (length (waiting r))).
      eapply fwd_run_inv; [| |exact HI|exact Hd]; by rewrite Ho, app_nil_r. }
    cbn in *. destruct (forward_latest r' !! k) as [x|] eqn:Hx; [|by apply (fv_taken _ _ _ HI' k)].
    destruct (fv_wakes _ _ _ HI' k) as (w & Hin & _); [by eexists|congruence|].
    rewrite Hw in Hin. by apply elem_of_nil in Hin.
Qed.

(** Two presence beats of one key behind a durable event: the newer one goes out,
    once, and the second wake carries nothing. *)
Module ForwardScenario.
Import BusScenario.
Definition beat (id : N) : Envelope :=
  with_coalesce_key (str "presence:alice")
    (Envelope_new (MkId id) room (MkId 1, MkId 1) KSignal EphemeralLatest [id]).
Definition item (e : Envelope) : ForwardItem := MkForwardItem e None.
Definition ops : list fwd_op :=
  [FwdOffer (item (said 11)); FwdOffer (item (beat 60)); FwdOffer (item (beat 61)); FwdTake; FwdTake; FwdTake].
Definition result : list ForwardItem * RouterInner :=
  fwd_run ops (set_forward_sink 4 (EventRouter_new cfg src)).

Lemma forward_latest_wins_witness :
  result.1 = [item (said 11); item (beat 61)] ∧ NoDup result.1 ∧
  plain result.1 ++ plain (waiting result.2) `sublist_of` plain (offers ops).
Proof.
  assert (fwd_run ops (set_forward_sink 4 (EventRouter_new cfg src)) = (result.1, result.2)) as Hrun
    by (unfold result; generalize (fwd_run ops (set_forward_sink 4 (EventRouter_new cfg src))); intros []; reflexivity).
  destruct (forward_latest_wins cfg src 4 ops result.1 result.2) as (Hn & _ & Hs & _).
  - apply (NoDup_fmap_1 (λ it, event_id (fi_env it))). apply (bool_decide_unpack _). vm_compute. exact I.
  - vm_compute. reflexivity.
  - exact Hrun.
  - split; [vm_compute; reflexivity|]. split; [exact Hn|exact Hs].
Defined.
End ForwardScenario.
