(* ===== verification/BusIdem.v ===== *)
(** Idempotent publishing: the recent-ids window and [publish_if_new_from] of
    [airc-bus/src/router.rs]. *)
From stdpp Require Import base gmap strings list sorting numbers.
From S2P Require Import Prelude.
From S2P Require Import WorkModel.
From S2P Require Import CoreTranscript.
From S2P Require Import BusEnvelope.
From S2P Require Import BusRing.
From S2P Require Import BusIndex.
From S2P Require Import BusEphemeral.
From S2P Require Import BusSink.
From S2P Require Import BusRouter.
From S2P Require Import BusSystem.
From S2P Require Import BusHistory.
From S2P Require Import BusSubs.
From S2P Require Import BusStream.
From S2P Require Import BusDrain.

(** ** The window *)
Definition window : nat := N.to_nat RECENT_PUBLISH_IDS_CAPACITY.

(** The set is the deque's elements, each once, at most the window's size. *)
Record recent_ok (w : RecentEventIds) : Prop := {
  rc_nodup : NoDup (order w);
  rc_seen : seen w = list_to_set (order w);
  rc_size : (length (order w) ≤ window)%nat;
}.

Lemma recent_ok_new : recent_ok RecentEventIds_with_capacity.
Proof. split; cbn; [apply NoDup_nil_2|done|lia]. Qed.

Lemma seen_order w id : recent_ok w → id ∈ seen w ↔ id ∈ order w.
Proof. intros [_ -> _]. apply elem_of_list_to_set. Qed.

Lemma window_pos : (0 < window)%nat.
Proof. unfold window, RECENT_PUBLISH_IDS_CAPACITY. lia. Qed.
Lemma window_N : N.of_nat window = RECENT_PUBLISH_IDS_CAPACITY.
Proof. apply N2Nat.id. Qed.
#[local] Opaque window.

(** An insertion: refused and without effect if present, else appended, the
    oldest rolling off a full window. *)
Lemma recent_insert_spec id w :
  recent_ok w →
  (recent_insert id w).1 = bool_decide (id ∉ order w) ∧
  order (recent_insert id w).2 =
    (if decide (id ∈ order w) then order w else last_n window (order w ++ [id])) ∧
  recent_ok (recent_insert id w).2.
Proof.
  intros Hok. pose proof (seen_order w id Hok) as Hin. destruct Hok as [Hn Hs Hl]. unfold recent_insert.
  destruct (decide (id ∈ seen w)) as [Hd|Hd].
  - rewrite decide_True by tauto. rewrite bool_decide_false by tauto. split_and!; [done..|by split].
  - assert (id ∉ order w) as Ho by tauto. rewrite (decide_False (P:=id ∈ order w)) by done.
    rewrite bool_decide_true by done. pose proof window_pos as Hw.
    rewrite <- window_N. unfold last_n. rewrite length_app. cbn [length].
    destruct (N.eqb_spec (N.of_nat (length (order w))) (N.of_nat window)) as [Hf|Hf].
    + destruct (order w) as [|old rest] eqn:Eo; [cbn in *; lia|].
      cbn [fst snd order]. apply list.NoDup_cons in Hn as [Hold Hn].
      assert (length rest + 1 = window)%nat as Hr by (cbn in Hf; lia).
      replace (length (old :: rest) + 1 - window)%nat with 1%nat by (cbn [length]; lia).
      split_and!; [done|done|]. split; cbn.
      * apply list.NoDup_app. split_and!; [done| |apply NoDup_singleton].
        intros x Hx ->%list_elem_of_singleton. apply Ho. by right.
      * rewrite Hs, list_to_set_app_L. cbn. rewrite not_elem_of_cons in Ho. set_solver.
      * rewrite length_app. cbn. lia.
    + cbn [fst snd order]. replace (length (order w) + 1 - window)%nat with 0%nat by lia.
      split_and!; [done|done|]. split; cbn.
      * apply list.NoDup_app. split_and!; [done| |apply NoDup_singleton].
        by intros x Hx ->%list_elem_of_singleton.
      * rewrite Hs, list_to_set_app_L. set_solver.
      * rewrite length_app. cbn. lia.
Qed.

Lemma recent_insert_seen id w : recent_ok w → id ∈ seen (recent_insert id w).2.
Proof.
  intros Hok. destruct (recent_insert_spec id w Hok) as (_ & Ho & Hok'). apply (seen_order _ _ Hok').
  rewrite Ho. destruct (decide (id ∈ order w)) as [Hd|Hd]; [done|].
  unfold last_n. rewrite drop_app_le; [apply elem_of_app; right; by left|].
  rewrite length_app. cbn. pose proof window_pos. lia.
Qed.

Lemma recent_remove_spec id w :
  recent_ok w → recent_ok (recent_remove id w) ∧
  order (recent_remove id w) = filter (λ other, other ≠ id) (order w) ∧
  seen (recent_remove id w) = seen w ∖ {[id]}.
Proof.
  intros Hok. pose proof (seen_order w id Hok) as Hin. destruct Hok as [Hn Hs Hl]. unfold recent_remove.
  destruct (decide (id ∈ seen w)) as [Hd|Hd]; cbn.
  - split_and!; [split; cbn|done|done].
    + by apply list.NoDup_filter.
    + rewrite Hs. apply set_eq. intros x. rewrite elem_of_difference, !elem_of_list_to_set, list_elem_of_filter.
      set_solver.
    + pose proof (length_filter (λ other, other ≠ id) (order w)). lia.
  - split_and!; [by split| |set_solver]. symmetry. apply filter_all. set_solver.
Qed.

(** Undoing a mark that was new restores the set. *)
Lemma unmark_mark id w :
  recent_ok w → id ∉ seen w → (length (order w) < window)%nat →
  recent_remove id (recent_insert id w).2 = w.
Proof.
  intros Hok Hid Hl. pose proof (seen_order w id Hok) as Hin.
  unfold recent_insert. rewrite decide_False by done.
  rewrite <- window_N.
  destruct (N.eqb_spec (N.of_nat (length (order w))) (N.of_nat window)) as [Hf|_]; [lia|].
  cbn [snd]. unfold recent_remove. cbn [seen order]. rewrite decide_True by set_solver.
  rewrite list.filter_app, filter_cons_False, filter_nil, app_nil_r by tauto.
  rewrite (filter_all) by (intros x Hx ->; tauto). destruct w as [o s]. cbn in *. f_equal. set_solver.
Qed.

(** ** How long an id stays *)
Definition recent_within (n : nat) (id : EventId) (w : RecentEventIds) : Prop :=
  recent_ok w ∧ ∃ pre post, order w = pre ++ id :: post ∧ (length post ≤ n)%nat.

Lemma recent_within_seen n id w : recent_within n id w → id ∈ seen w.
Proof.
  intros [Hok (pre & post & Ho & _)]. apply (seen_order _ _ Hok). rewrite Ho. apply elem_of_app. right. by left.
Qed.

Lemma recent_within_insert n id w : recent_ok w → recent_within n id (recent_insert id w).2 ∨ id ∈ seen w.
Proof.
  intros Hok. destruct (decide (id ∈ seen w)) as [?|Hd]; [by right|left].
  destruct (recent_insert_spec id w Hok) as (_ & Ho & Hok'). split; [done|].
  rewrite decide_False in Ho by (by rewrite <- seen_order). rewrite Ho. unfold last_n. rewrite length_app. cbn [length].
  exists (drop (length (order w) + 1 - window) (order w)), []. split; [|cbn; lia].
  apply drop_app_le. pose proof window_pos. lia.
Qed.

Lemma recent_within_other n id x w :
  recent_within n id w → (S n < window)%nat → recent_within (S n) id (recent_insert x w).2.
Proof.
  intros [Hok (pre & post & Ho & Hl)] Hn. destruct (recent_insert_spec x w Hok) as (_ & Ho' & Hok').
  split; [done|]. rewrite Ho'. destruct (decide (x ∈ order w)); [exists pre, post; split; [done|lia]|].
  unfold last_n. rewrite Ho, <- app_assoc. cbn [app]. rewrite length_app. cbn [length]. rewrite length_app. cbn [length].
  set (k := (length pre + S (length post + 1) - window)%nat).
  exists (drop k pre), (post ++ [x]). rewrite length_app. cbn [length]. split; [|lia].
  apply drop_app_le. lia.
Qed.

(** ** Publishing once *)
Section idempotent.
Context {S : Type} `{!DurableSink S, !SinkLaws S}.

(** Publishes one after another, refused ones included. *)
Definition publish_all (l : list (N * Envelope * option PeerId)) (r : RouterInner) : RouterInner :=
  foldl (λ r x, (publish_from x.1.1 x.1.2 x.2 r).2) r l.

Lemma publish_from_within now e o n id r :
  shards_ok r → recent_within n id (recent_ids r) → (Datatypes.S n < window)%nat →
  shards_ok (publish_from now e o r).2 ∧ recent_within (Datatypes.S n) id (recent_ids (publish_from now e o r).2).
Proof.
  intros Hs Hw Hn. assert (recent_within (Datatypes.S n) id (recent_ids r)) as Hw'.
  { destruct Hw as [Hok (pre & post & Ho & Hl)]. split; [done|]. exists pre, post. split; [done|lia]. }
  pose proof (publish_from_spec now e o r Hs) as Hp.
  destruct (publish_from now e o r) as [[q|err] r']; cbn.
  - destruct Hp as [_ Hp]. split; [apply Hp|]. rewrite (po_recent _ _ _ _ Hp). by apply recent_within_other.
  - destruct Hp as [_ [[_ ->]| ->]]; done.
Qed.

Lemma publish_all_within l n id r :
  shards_ok r → recent_within n id (recent_ids r) → (n + length l < window)%nat →
  id ∈ seen (recent_ids (publish_all l r)).
Proof.
  revert n r. induction l as [|[[now e] o] l IH]; intros n r Hs Hw Hn; [by eapply recent_within_seen|].
  cbn [length] in Hn. destruct (publish_from_within now e o n id r Hs Hw) as [Hs' Hw']; [lia|].
  cbn. eapply IH; [done|exact Hw'|lia].
Qed.

Lemma seen_refused now e o (r : RouterInner) (s : S) :
  event_id e ∈ seen (recent_ids r) → publish_if_new_from now e o (r, s) = (Ok Duplicate, (r, s)).
Proof.
  intros Hin. unfold publish_if_new_from, mark_id, recent_insert. cbn [fst snd]. rewrite decide_True by done.
  cbn. by destruct r.
Qed.

(** an echo of an accepted publish is a duplicate: after fewer than 4096
    further publishes, of any events and whatever their outcome, the same event
    arriving from any link changes neither router nor sink. *)
Theorem echo_is_duplicate now e o r q r1 l now' o' (s : S) :
  shards_ok r → recent_ok (recent_ids r) → event_id e ∉ seen (recent_ids r) →
  publish_from now e o r = (Ok q, r1) → (N.of_nat (length l) < RECENT_PUBLISH_IDS_CAPACITY)%N →
  publish_if_new_from now' e o' (publish_all l r1, s) = (Ok Duplicate, (publish_all l r1, s)).
Proof.
  intros Hs Hok Hf Hp Hl. apply seen_refused. pose proof (publish_from_spec now e o r Hs) as Hspec.
  rewrite Hp in Hspec. destruct Hspec as [_ Hspec]. rewrite <- window_N in Hl.
  apply (publish_all_within l 0); [apply Hspec| |lia]. rewrite (po_recent _ _ _ _ Hspec).
  destruct (recent_within_insert 0 (event_id e) _ Hok); done.
Qed.

(** C20: [publish_if_new] delivers exactly the events that are neither in the
    window nor stored: a duplicate changes only the window, an accepted event is
    published as [publish] would and is then in the window, a failure delivers
    nothing and leaves the id unmarked for the retry. *)
Theorem publish_if_new_exact now e o r (s : S) res r' s' :
  shards_ok r → recent_ok (recent_ids r) → sink_ok s →
  publish_if_new_from now e o (r, s) = (res, (r', s')) →
  let marked := (mark_id (event_id e) r).2 in
  let known := event_id e ∈ seen (recent_ids r) ∨ ∃ c x, x ∈ rows s c ∧ event_id x = event_id e in
  recent_ok (recent_ids r') ∧
  match res with
  | Ok Duplicate => known ∧ event_id e ∈ seen (recent_ids r') ∧ r' = r <| recent_ids := recent_ids r' |>
  | Ok (Published q) =>
      ¬ known ∧ event_id e ∈ seen (recent_ids r') ∧ q = seq (stamped now e r) ∧ publish_ok now e marked r'
  | Err _ =>
      event_id e ∉ seen (recent_ids r') ∧
      r' = r <| recent_ids := recent_ids r' |> <| shed_count := shed_count r' |>
  end.
Proof.
  intros Hs Hok Hsk Hrun marked known.
  destruct (recent_insert_spec (event_id e) (recent_ids r) Hok) as (Hb & _ & Hok').
  destruct (decide (event_id e ∈ seen (recent_ids r))) as [Hin|Hin].
  { rewrite seen_refused in Hrun by done. injection Hrun as <- <- <-. split; [done|]. split_and!; [by left|done|by destruct r]. }
  rewrite bool_decide_true in Hb by (by rewrite <- seen_order).
  pose proof (recent_insert_seen (event_id e) (recent_ids r) Hok) as Hseen.
  assert (marked = r <| recent_ids := (recent_insert (event_id e) (recent_ids r)).2 |>) as Hm.
  { unfold marked, mark_id. by destruct (recent_insert _ _). }
  assert (mark_id (event_id e) r = (true, marked)) as Hmark.
  { rewrite (surjective_pairing (mark_id _ r)). fold marked. f_equal. unfold mark_id.
    by destruct (recent_insert _ _) as [[] ?]. }
  unfold publish_if_new_from in Hrun. cbn [fst snd] in Hrun. rewrite Hmark in Hrun. cbn [negb] in Hrun.
  clearbody marked. assert (shards_ok marked) as Hsm by (by subst marked).
  assert (recent_ids marked = (recent_insert (event_id e) (recent_ids r)).2) as Hrm by (by subst marked).
  destruct (recent_remove_spec (event_id e) (recent_ids marked)) as (Hok2 & _ & Hrem); [by rewrite Hrm|].
  assert (event_id e ∉ seen (recent_remove (event_id e) (recent_ids marked))) as Hnot by (rewrite Hrem; set_solver).
  unfold on_sink, on_router in Hrun. cbn [fst snd] in Hrun.
  pose proof (law_contains s (event_id e)) as Hlaw.
  destruct (contains (event_id e) s) as [[[]|err] sk1].
  - injection Hrun as <- <- <-. rewrite Hrm. split; [done|]. split_and!; [right; by apply (Hlaw true)|done|].
    by subst marked.
  - pose proof (publish_from_spec now e o marked Hsm) as Hp. cbn [fst snd] in Hrun.
    destruct (publish_from now e o marked) as [[q|err] r2]; cbn [fst snd] in Hrun; injection Hrun as <- <- <-.
    + destruct Hp as [-> Hp]. assert (recent_ids r2 = recent_ids marked) as Hr2.
      { rewrite (po_recent _ _ _ _ Hp). unfold recent_insert at 1. rewrite decide_True; [done|by rewrite Hrm]. }
      rewrite Hr2, Hrm. split; [done|]. split_and!; [|done| |done].
      * intros [?|Hx]; [done|]. by apply (Hlaw false Hsk eq_refl) in Hx.
      * by subst marked.
    + unfold unmark. destruct Hp as [_ [[_ ->]| ->]]; cbn; (split; [done|]; split; [done|]); by subst marked.
  - injection Hrun as <- <- <-. unfold unmark. cbn. split; [done|]. split; [done|]. by subst marked.
Qed.
End idempotent.

Module IdemScenario.
Import BusScenario.
Definition fresh_router : RouterInner := EventRouter_new cfg src.
Definition published : RouterInner := (publish_from 10 (said 11) None fresh_router).2.
Lemma published_eq : publish_from 10 (said 11) None fresh_router = (Ok (MkSeq 7 0), published).
Proof. vm_compute. reflexivity. Qed.

Lemma echo_is_duplicate_witness :
  publish_if_new_from 30 (said 11) (Some (MkId 2))
    (publish_all [(20, tick, None)]%N published, InMemoryDurableSink_new) =
  (Ok Duplicate, (publish_all [(20, tick, None)]%N published, InMemoryDurableSink_new)).
Proof.
  apply (echo_is_duplicate 10 (said 11) None fresh_router (MkSeq 7 0) published).
  - discriminate.
  - apply recent_ok_new.
  - vm_compute. intros [=].
  - exact published_eq.
  - vm_compute. reflexivity.
Defined.

Lemma publish_if_new_exact_witness :
  event_id (said 11) ∈ seen (recent_ids published) ∧
  publish_ok 10 (said 11) (mark_id (MkId 11) fresh_router).2
    (publish_if_new_from 10 (said 11) None (fresh_router, InMemoryDurableSink_new)).2.1.
Proof.
  destruct (publish_if_new_from 10 (said 11) None (fresh_router, InMemoryDurableSink_new)) as [res [r' s']] eqn:E.
  destruct (publish_if_new_exact 10 (said 11) None fresh_router InMemoryDurableSink_new res r' s') as [_ Hres].
  - discriminate.
  - apply recent_ok_new.
  - apply (proj1 (mem_initial_ok src)).
  - exact E.
  - assert (res = Ok (Published (MkSeq 7 0)) ∧ seen (recent_ids r') = seen (recent_ids published)) as [-> Hr].
    { revert E. vm_compute. intros [= <- <- _]. split; reflexivity. }
    destruct Hres as (_ & Hs & _ & Hp). rewrite <- Hr. split; [exact Hs|exact Hp].
Defined.
End IdemScenario.
