(* ===== verification/BusMesh.v ===== *)
(** Mesh forwarding: nodes that publish what their links bring
    ([ingest] of [airc-lib/src/router_bridge.rs] calling [publish_if_new_from]) and
    forward what they publish ([drain_loop] of [airc-lib/src/route_forwarder.rs]).

    A frame floods the mesh once per node and stops: here as a transition system
    over any topology, cycles included, with frames that may be reordered or lost,
    and a bound on its runs. *)
From stdpp Require Import base gmap strings list sorting numbers list_numbers.
From S2P Require Import Prelude.
From S2P Require Import WorkModel.
From S2P Require Import CoreTranscript.
From S2P Require Import BusEnvelope.
From S2P Require Import BusRing.
From S2P Require Import BusIndex.
From S2P Require Import BusEphemeral.
From S2P Require Import BusSink.
From S2P Require Import BusRouter.
From S2P Require Import BusSystem.
From S2P Require Import BusForward.
From S2P Require Import BusIdem.
From S2P Require Import BusDrain.

(** ** What a publish does to the forward path *)
Lemma deliver_forward e r :
  forward_tx (deliver e r) = forward_tx r ∧ forward_latest (deliver e r) = forward_latest r.
Proof. unfold deliver, entry_state. by destruct (channel_state _ _). Qed.

(** At most one more wake, at most one more value, both of this event. *)
Definition forward_grows (id : EventId) (r r' : RouterInner) : Prop :=
  (waiting r' = waiting r ∨ ∃ it, waiting r' = waiting r ++ [it] ∧ event_id (fi_env it) = id) ∧
  (∀ k it, forward_latest r' !! k = Some it → forward_latest r !! k = Some it ∨ event_id (fi_env it) = id).

Lemma offer_grows e o r : forward_grows (event_id e) r (offer_to_forward_sink e o r).
Proof.
  unfold offer_to_forward_sink, forward_grows, waiting. destruct (forward_tx r) as [tx|] eqn:Htx.
  2:{ rewrite Htx. split; [by left|by left]. }
  assert (∀ key k it, (fl_put key (MkForwardItem e o) (forward_latest r)) !! k = Some it →
    forward_latest r !! k = Some it ∨ event_id (fi_env it) = event_id e) as Hput.
  { intros key k it. unfold fl_put. rewrite latest_insert. case_decide; [intros [= <-]; by right|by left]. }
  unfold try_send. destruct (negb (mq_open tx)); [|destruct (length (mq_buf tx) <? mq_cap tx)%nat];
    destruct (forward_key e) as [key|]; cbn; rewrite ?Htx; split; try (by left); try (by apply Hput);
    right; by eexists.
Qed.

Lemma publish_from_grows now e o r :
  match publish_from now e o r with
  | (Ok _, r') => forward_grows (event_id e) r r'
  | (Err _, r') => forward_tx r' = forward_tx r ∧ forward_latest r' = forward_latest r
  end.
Proof.
  unfold publish_from, reserve.
  assert (∀ p r0, forward_tx r0 = forward_tx r → forward_latest r0 = forward_latest r →
    forward_grows (event_id e) r
      (finish_publish p o (stamped now e r0) (deliver (stamped now e r0) (record_recent (event_id e) (stamp now e r0).2)))) as H.
  { intros p r0 H1 H2. unfold finish_publish.
    set (d := deliver _ _).
    assert (forward_tx d = forward_tx r ∧ forward_latest d = forward_latest r) as [E1 E2].
    { destruct (deliver_forward (stamped now e r0) (record_recent (event_id e) (stamp now e r0).2)) as [D1 D2].
      split; [etrans; [exact D1|exact H1]|etrans; [exact D2|exact H2]]. }
    clearbody d. set (r1 := send_permit p (stamped now e r0) d).
    assert (forward_tx r1 = forward_tx d ∧ forward_latest r1 = forward_latest d) as [F1 F2]
      by (subst r1; unfold send_permit; by destruct p).
    rewrite <- F1 in E1. rewrite <- F2 in E2. clear F1 F2.
    clearbody r1. assert (event_id (stamped now e r0) = event_id e) as <- by done.
    pose proof (offer_grows (stamped now e r0) o r1) as Hg. unfold forward_grows in *.
    rewrite (waiting_tx r r1 E1), E2 in Hg. destruct (_ || _); [exact Hg|].
    rewrite (waiting_tx r r1 E1), E2. split; [by left|by left]. }
  destruct (is_durable (delivery e)).
  - destruct (negb _); [done|]. destruct (_ <? _)%nat; [|done]. by apply (H true).
  - by apply (H false).
Qed.

(** An arrival, for the window and the forward path: known and quiet, or new,
    recorded and offered. *)
Lemma publish_if_new_grows {S} `{!DurableSink S} now e o r (s : S) res r' s' :
  shards_ok r → recent_ok (recent_ids r) →
  (event_id e ∈ seen (recent_ids r) ∨ (length (order (recent_ids r)) < window)%nat) →
  publish_if_new_from now e o (r, s) = (res, (r', s')) →
  shards_ok r' ∧ recent_ok (recent_ids r') ∧
  ((forward_tx r' = forward_tx r ∧ forward_latest r' = forward_latest r ∧
    (seen (recent_ids r') = seen (recent_ids r) ∨ seen (recent_ids r') = {[event_id e]} ∪ seen (recent_ids r))) ∨
   (event_id e ∉ seen (recent_ids r) ∧ seen (recent_ids r') = {[event_id e]} ∪ seen (recent_ids r) ∧
    forward_grows (event_id e) r r')).
Proof.
  intros Hs Hok Hroom Hrun.
  destruct (decide (event_id e ∈ seen (recent_ids r))) as [Hin|Hin].
  { unfold publish_if_new_from, mark_id, recent_insert in Hrun. cbn [fst snd] in Hrun.
    rewrite decide_True in Hrun by done. cbn in Hrun. injection Hrun as _ <- _.
    split; [done|]. split; [done|]. left. split_and!; [done|done|by left]. }
  destruct Hroom as [?|Hroom]; [done|].
  destruct (recent_insert_spec (event_id e) (recent_ids r) Hok) as (Hb & Ho & Hok').
  assert (event_id e ∉ order (recent_ids r)) as Hno by (by rewrite <- seen_order).
  rewrite bool_decide_true in Hb by done. rewrite decide_False in Ho by done.
  assert (seen (recent_insert (event_id e) (recent_ids r)).2 = {[event_id e]} ∪ seen (recent_ids r)) as Hseen.
  { rewrite (rc_seen _ Hok'), (rc_seen _ Hok), Ho. unfold last_n. rewrite length_app. cbn [length].
    replace (length (order (recent_ids r)) + 1 - window)%nat with 0%nat by lia. rewrite drop_0.
    rewrite list_to_set_app_L. set_solver. }
  pose proof (unmark_mark (event_id e) (recent_ids r) Hok Hin Hroom) as Hun.
  set (marked := (mark_id (event_id e) r).2).
  assert (marked = r <| recent_ids := (recent_insert (event_id e) (recent_ids r)).2 |>) as Hm.
  { unfold marked, mark_id. by destruct (recent_insert _ _). }
  assert (mark_id (event_id e) r = (true, marked)) as Hmark.
  { rewrite (surjective_pairing (mark_id _ r)). fold marked. f_equal. unfold mark_id.
    by destruct (recent_insert _ _) as [[] ?]. }
  unfold publish_if_new_from in Hrun. cbn [fst snd] in Hrun. rewrite Hmark in Hrun. cbn [negb] in Hrun.
  unfold on_sink, on_router in Hrun. cbn [fst snd] in Hrun. clearbody marked.
  assert (shards_ok marked) as Hsm by (by subst marked).
  assert (recent_ids marked = (recent_insert (event_id e) (recent_ids r)).2) as Hrm by (by subst marked).
  assert (forward_tx marked = forward_tx r ∧ forward_latest marked = forward_latest r) as [F1 F2] by (by subst marked).
  destruct (contains (event_id e) s) as [[[]|err] sk1]; cbn [fst snd] in Hrun.
  - injection Hrun as _ <- _. rewrite Hrm. split_and!; [done|done|]. left. split_and!; [done|done|by right].
  - pose proof (publish_from_spec now e o marked Hsm) as Hp.
    pose proof (publish_from_grows now e o marked) as Hg.
    destruct (publish_from now e o marked) as [[q|err] r2]; cbn [fst snd] in Hrun; injection Hrun as _ <- _.
    + destruct Hp as [_ Hp]. assert (recent_ids r2 = recent_ids marked) as Hr2.
      { rewrite (po_recent _ _ _ _ Hp). unfold recent_insert at 1. rewrite decide_True; [done|].
        rewrite Hrm. by apply recent_insert_seen. }
      rewrite Hr2, Hrm. split_and!; [apply Hp|done|]. right. split_and!; [done|done|].
      unfold forward_grows in *. by rewrite (waiting_tx r marked F1), F2 in Hg.
    + assert (shards_ok r2 ∧ recent_ids r2 = recent_ids marked) as [? Hr2] by (by destruct Hp as [_ [[_ ->]| ->]]).
      destruct Hg as [G1 G2]. unfold unmark. cbn. rewrite Hr2, Hrm, Hun.
      split_and!; [done|done|]. left. split_and!; [by rewrite G1|by rewrite G2|by left].
  - injection Hrun as _ <- _. unfold unmark. cbn. rewrite Hrm, Hun.
    split_and!; [done|done|]. left. split_and!; [done|done|by left].
Qed.

(** ** The mesh *)
Section mesh.
Context {S : Type} `{!DurableSink S}.

Record Node := MkNode { nd_router : RouterInner; nd_sink : S; nd_links : list PeerId }.
(** An envelope on a link: to whom, over which peer's link, and what. *)
Record MeshFrame := MkMeshFrame { mf_dst : PeerId; mf_link : PeerId; mf_env : Envelope }.
Record Net := MkNet { nodes : gmap PeerId Node; frames : list MeshFrame }.

(** [ingest]: publish with the link as origin. *)
Definition node_ingest (now : N) (f : MeshFrame) (n : Node) : Node :=
  let '(_, (r, s)) := publish_if_new_from now (mf_env f) (Some (mf_link f)) (nd_router n, nd_sink n) in
  MkNode r s (nd_links n).
(** One turn of [drain_loop] and the frames it queues for the links. *)
Definition node_forward (self : PeerId) (n : Node) : Node * list MeshFrame :=
  let '(o, r) := forward_take (nd_router n) in
  (MkNode r (nd_sink n) (nd_links n),
   match o with
   | Some item => (λ p, MkMeshFrame p self (fi_env item)) <$> forward_peers item (nd_links n)
   | None => []
   end).

Inductive net_step (σ : Net) : Net → Prop :=
| net_receive pre f post n now :
    frames σ = pre ++ f :: post → nodes σ !! mf_dst f = Some n →
    net_step σ (MkNet (<[mf_dst f := node_ingest now f n]> (nodes σ)) (pre ++ post))
| net_lose pre f post :
    frames σ = pre ++ f :: post → net_step σ (MkNet (nodes σ) (pre ++ post))
| net_forward d n :
    nodes σ !! d = Some n → waiting (nd_router n) ≠ [] →
    net_step σ (MkNet (<[d := (node_forward d n).1]> (nodes σ)) (frames σ ++ (node_forward d n).2)).

(** Every event about is one of [I], few enough for the windows. *)
Definition item_in (I : gset EventId) (it : ForwardItem) : Prop := event_id (fi_env it) ∈ I.
Record node_ok (I : gset EventId) (D : nat) (n : Node) : Prop := {
  no_shards : shards_ok (nd_router n);
  no_recent : recent_ok (recent_ids (nd_router n));
  no_seen : seen (recent_ids (nd_router n)) ⊆ I;
  no_waiting : Forall (item_in I) (waiting (nd_router n));
  no_latest k it : forward_latest (nd_router n) !! k = Some it → item_in I it;
  no_links : (length (nd_links n) ≤ D)%nat;
}.
Record net_ok (I : gset EventId) (D : nat) (σ : Net) : Prop := {
  nk_nodes d n : nodes σ !! d = Some n → node_ok I D n;
  nk_frames : Forall (λ f, event_id (mf_env f) ∈ I) (frames σ);
  nk_window : (size I ≤ window)%nat;
}.

(** What is left to do: frames in flight, wakes, events not yet seen. *)
Definition node_work (I : gset EventId) (D : nat) (n : Node) : nat :=
  (D + 1) * length (waiting (nd_router n)) + (D + 2) * size (I ∖ seen (recent_ids (nd_router n))).
Definition net_work (I : gset EventId) (D : nat) (σ : Net) : nat :=
  length (frames σ) + sum_list_with (node_work I D) (map_to_list (nodes σ)).*2.

Lemma sum_insert (f : Node → nat) (m : gmap PeerId Node) d n n' :
  m !! d = Some n →
  (sum_list_with f (map_to_list (<[d := n']> m)).*2 + f n = sum_list_with f (map_to_list m).*2 + f n')%nat.
Proof.
  intros Hd. rewrite <- (insert_id m d n Hd) at 2. rewrite <- !(insert_delete_eq m).
  rewrite !map_to_list_insert by apply lookup_delete_eq. cbn. lia.
Qed.

Lemma ingest_ok I D now f n :
  (size I ≤ window)%nat → event_id (mf_env f) ∈ I → node_ok I D n →
  node_ok I D (node_ingest now f n) ∧ (node_work I D (node_ingest now f n) ≤ node_work I D n)%nat.
Proof.
  intros HI Hf [A B C E F G]. unfold node_ingest. set (e := mf_env f) in *.
  destruct (publish_if_new_from now e _ _) as [res [r' s']] eqn:Hrun.
  assert (event_id e ∈ seen (recent_ids (nd_router n)) ∨ (length (order (recent_ids (nd_router n))) < window)%nat) as Hroom.
  { destruct (decide (event_id e ∈ seen (recent_ids (nd_router n)))) as [?|Hn]; [by left|right].
    rewrite (rc_seen _ B) in C, Hn. rewrite <- (size_list_to_set (C:=gset EventId)) by apply B.
    assert (list_to_set (order (recent_ids (nd_router n))) ⊂ I) as ?%subset_size by set_solver. lia. }
  destruct (publish_if_new_grows now e _ _ _ _ _ _ A B Hroom Hrun) as (A' & B' & Hcases).
  assert (∀ X : gset EventId, size (I ∖ ({[event_id e]} ∪ X)) ≤ size (I ∖ X))%nat as Hle
    by (intros X; apply subseteq_size; set_solver).
  split.
  - split; cbn; [done|done| | | |done].
    + destruct Hcases as [(_ & _ & [-> | ->])|(_ & -> & _)]; [done|set_solver|set_solver].
    + destruct Hcases as [(Ht & _)|(_ & _ & [Hw|(it & Hw & Hid)] & _)].
      * by rewrite (waiting_tx _ _ Ht).
      * by rewrite Hw.
      * rewrite Hw. apply Forall_app. split; [done|]. apply Forall_singleton. unfold item_in. by rewrite Hid.
    + intros k it Hk. destruct Hcases as [(_ & Hl & _)|(_ & _ & _ & Hl)].
      * rewrite Hl in Hk. by eapply F.
      * destruct (Hl k it Hk) as [?|Hid]; [by eapply F|]. unfold item_in. by rewrite Hid.
  - unfold node_work. cbn. destruct Hcases as [(Ht & _ & Hseen)|(Hn & -> & Hw & _)].
    + rewrite (waiting_tx _ _ Ht). destruct Hseen as [-> | ->]; [done|].
      pose proof (Hle (seen (recent_ids (nd_router n)))). nia.
    + assert (I ∖ ({[event_id e]} ∪ seen (recent_ids (nd_router n))) ⊂ I ∖ seen (recent_ids (nd_router n)))
        as Hlt%subset_size by set_solver.
      assert (length (waiting r') ≤ length (waiting (nd_router n)) + 1)%nat.
      { destruct Hw as [-> |(it & -> & _)]; rewrite ?length_app; cbn; lia. }
      nia.
Qed.

Lemma forward_ok I D d n :
  waiting (nd_router n) ≠ [] → node_ok I D n →
  node_ok I D (node_forward d n).1 ∧ Forall (λ f, event_id (mf_env f) ∈ I) (node_forward d n).2 ∧
  (length (node_forward d n).2 + node_work I D (node_forward d n).1 < node_work I D n)%nat.
Proof.
  intros Hw [A B C E F G]. unfold node_forward. unfold forward_take in *. unfold waiting in Hw.
  destruct (forward_tx (nd_router n)) as [[[|it buf] cap op]|] eqn:Htx; [done| |done].
  assert (waiting (nd_router n) = it :: buf) as Hwn by (unfold waiting; by rewrite Htx). rewrite Hwn in E.
  apply list.Forall_cons in E as [Eit Ebuf].
  assert (∃ o l, resolve it (forward_latest (nd_router n)) = (o, l) ∧
    (∀ x, o = Some x → item_in I x) ∧ (∀ k x, l !! k = Some x → item_in I x)) as (o & l & Hres & Ho & Hl).
  { unfold resolve. destruct (forward_key (fi_env it)) as [k|].
    - do 2 eexists. split; [done|]. split; [intros x; apply F|]. intros j x. rewrite latest_delete.
      case_decide; [done|]. apply F.
    - do 2 eexists. split; [done|]. split; [by intros x [= <-]|apply F]. }
  rewrite Hres. cbn [fst snd]. split_and!.
  - split; cbn; try done.
  - destruct o as [x|]; [|by constructor]. apply Forall_fmap, list.Forall_forall. intros p _. cbn. by apply Ho.
  - unfold node_work. cbn. rewrite Hwn. cbn [length].
    assert (length match o with Some item => (λ p, MkMeshFrame p d (fi_env item)) <$> forward_peers item (nd_links n)
      | None => [] end ≤ D)%nat as HD.
    { destruct o as [x|]; [|cbn; lia]. rewrite length_fmap. etrans; [apply length_filter|exact G]. }
    nia.
Qed.

Lemma net_step_work I D σ σ' :
  net_ok I D σ → net_step σ σ' → net_ok I D σ' ∧ (net_work I D σ' < net_work I D σ)%nat.
Proof.
  intros [HN HF HW] [pre f post n now Hfr Hn|pre f post Hfr|d n Hn Hw]; unfold net_work; cbn.
  - rewrite Hfr in HF |- *. apply Forall_app in HF as [HF1 [Hf HF2]%list.Forall_cons].
    destruct (ingest_ok I D now f n HW Hf (HN _ _ Hn)) as [Hok Hle].
    pose proof (sum_insert (node_work I D) (nodes σ) _ _ (node_ingest now f n) Hn) as Hsum.
    rewrite !length_app. cbn [length]. split; [|lia]. split; cbn; [|by apply Forall_app|done].
    intros d x. rewrite lookup_insert. case_decide; [by intros [= <-]|apply HN].
  - rewrite Hfr in HF |- *. apply Forall_app in HF as [HF1 [Hf HF2]%list.Forall_cons].
    rewrite !length_app. cbn [length]. split; [|lia]. split; [done|by apply Forall_app|done].
  - destruct (forward_ok I D d n Hw (HN _ _ Hn)) as (Hok & Hfs & Hlt).
    pose proof (sum_insert (node_work I D) (nodes σ) _ _ (node_forward d n).1 Hn) as Hsum.
    rewrite length_app. split; [|lia]. split; cbn; [|by apply Forall_app|done].
    intros d' x. rewrite lookup_insert. case_decide; [by intros [= <-]|apply HN].
Qed.

(** C28: mesh forwarding terminates: whatever the topology and whatever order
    frames arrive in or are lost, as long as the events about fit the recent-ids
    window, every run of receipts and forwards is at most [net_work] steps long.
    [I] is the events about and [D] bounds a node's links. *)
Theorem flood_terminates I D σ σ' n :
  net_ok I D σ → nsteps net_step n σ σ' → (n ≤ net_work I D σ)%nat.
Proof.
  intros Hok Hn. induction Hn as [σ|n σ1 σ2 σ3 Hstep Hn IH]; [lia|].
  destruct (net_step_work I D σ1 σ2 Hok Hstep) as [Hok' Hlt]. specialize (IH Hok'). lia.
Qed.
End mesh.

(** Three nodes in a ring, a frame arriving at the first. *)
Module MeshScenario.
Import BusScenario.
Definition peer (i : N) : PeerId := MkId i.
Definition node (links : list PeerId) : Node (S:=SinkInner) :=
  MkNode (set_forward_sink 4 (EventRouter_new cfg src)) InMemoryDurableSink_new links.
Definition net0 : Net (S:=SinkInner) :=
  MkNet {[peer 1 := node [peer 2; peer 3]; peer 2 := node [peer 1; peer 3]; peer 3 := node [peer 1; peer 2]]}
    [MkMeshFrame (peer 1) (peer 3) (said 11)].
Definition about : gset EventId := {[MkId 11]}.

Lemma node_fine links : (length links ≤ 2)%nat → node_ok about 2 (node links).
Proof.
  intros Hl. split; [discriminate|apply recent_ok_new|apply empty_subseteq|constructor| |exact Hl].
  intros k it Hk. change ((∅ : ForwardLatest) !! k = Some it) in Hk.
  assert ((∅ : ForwardLatest) !! k = None) as He by apply (lookup_empty (M:=gmap ForwardKey)). by rewrite He in Hk.
Qed.

(** The frame is published by the first node and forwarded to its other link. *)
Lemma flood_terminates_witness :
  net_work about 2 net0 = 13%nat ∧
  ∃ σ', nsteps net_step 2 net0 σ' ∧ (2 ≤ net_work about 2 net0)%nat ∧
    (λ f, (mf_dst f, mf_link f)) <$> frames σ' = [(peer 2, peer 1)].
Proof.
  split; [vm_compute; reflexivity|].
  set (σ1 := MkNet (<[peer 1 := node_ingest 10 (MkMeshFrame (peer 1) (peer 3) (said 11)) (node [peer 2; peer 3])]>
    (nodes net0)) []).
  set (n1 := node_ingest 10 (MkMeshFrame (peer 1) (peer 3) (said 11)) (node [peer 2; peer 3])).
  set (σ2 := MkNet (<[peer 1 := (node_forward (peer 1) n1).1]> (nodes σ1)) ([] ++ (node_forward (peer 1) n1).2)).
  assert (nsteps net_step 2 net0 σ2) as Hn.
  { eapply (nsteps_l _ _ _ σ1).
    - apply (net_receive net0 [] (MkMeshFrame (peer 1) (peer 3) (said 11)) [] (node [peer 2; peer 3]) 10); reflexivity.
    - eapply (nsteps_l _ _ _ σ2); [|constructor].
      apply (net_forward σ1 (peer 1) n1); [reflexivity|]. vm_compute. discriminate. }
  exists σ2. split; [exact Hn|]. split.
  - apply (flood_terminates about 2 net0 σ2 2); [|exact Hn]. split.
    + intros d n Hd. unfold net0 in Hd. cbn [nodes] in Hd. apply lookup_insert_Some in Hd as [[_ <-]|[_ Hd]]; [apply node_fine; reflexivity|].
      apply lookup_insert_Some in Hd as [[_ <-]|[_ Hd]]; [apply node_fine; reflexivity|].
      apply lookup_singleton_Some in Hd as [_ <-]. apply node_fine. reflexivity.
    + apply Forall_singleton. by apply elem_of_singleton.
    + unfold about. rewrite size_singleton. apply window_pos.
  - vm_compute. reflexivity.
Defined.
End MeshScenario.
