(* ===== verification/BusMatch.v ===== *)
(** Filtered history: [page_matching] and [count_matching] of the durable sink
    and of the router, [airc-bus/src/{sink,router/history}.rs].

    [count_matching] awaits the sink between reading its head and reading the
    ring; its three sections are functions of their own, composed by
    [count_matching].  The theorems: a page holds the latest matches of the log. *)
From stdpp Require Import base gmap strings list sorting numbers.
From S2P Require Import Prelude.
From S2P Require Import Sorted.
From S2P Require Import WorkModel.
From S2P Require Import CoreTranscript.
From S2P Require Import BusEnvelope.
From S2P Require Import CoreHistory.
From S2P Require Import BusRing.
From S2P Require Import BusSink.
From S2P Require Import BusRouter.
From S2P Require Import BusSystem.
From S2P Require Import BusHistory.
From S2P Require Import BusDrain.

Section scan.
Context `{!JsonValue, !TextEnv}.

(** In the range (after, through], durable. *)
Definition in_range (after through : Cursor) (e : Envelope) : bool :=
  is_durable (delivery e) && is_after (cursor e) after && negb (is_after (cursor e) through).
Definition page_rule (after through : Cursor) (rule : HistoryMatch) (e : Envelope) : bool :=
  in_range after through e && matches_history e rule.
Definition count_rule (after through : Cursor) (hs : HeaderFilter) (exclude : option RuntimeSelf)
    (e : Envelope) : bool :=
  in_range after through e && filter_matches hs (headers e)
  && negb (is_some_and exclude (λ rule, is_self rule (headers e) (from e).2)).

(** The two methods a sink may refuse. *)
Class HistorySink (S : Type) := {
  page_matching : Cursor * Cursor → HistoryMatch → nat → bool → RoomId → ST S BusError (list Envelope);
  sink_count_matching : Cursor * Cursor → HeaderFilter → option RuntimeSelf → RoomId →
    ST S BusError HistoryCount;
}.
(** The trait's defaults. *)
Definition refusing_sink (S : Type) : HistorySink S := {|
  page_matching _ _ _ _ _ := st_throw (SinkError (str "filtered history unsupported by sink"));
  sink_count_matching _ _ _ _ := st_throw (SinkError (str "history count unsupported by sink"));
|}.

Class HistoryLaws (S : Type) `{!DurableSink S, !SinkLaws S, !HistorySink S} := {
  law_page_matching s c r rule n tail x : sink_ok s → (page_matching r rule n tail c s).1 = Ok x →
    x = bounded tail n (filter (λ e, page_rule r.1 r.2 rule e = true) (rows s c));
  law_count_matching s c r hs ex x : sink_ok s → (sink_count_matching r hs ex c s).1 = Ok x →
    x = of_newest (occurred_at_ms <$> reverse (filter (λ e, count_rule r.1 r.2 hs ex e = true) (rows s c)));
  law_head_reads s c : sink_ok s →
    sink_ok (sink_head_cursor c s).2 ∧ ∀ c', rows (sink_head_cursor c s).2 c' = rows s c';
}.

(** ** The in-memory sink *)
Definition row_key (e : Envelope) : N * N * N := (epoch (seq e), counter (seq e), uuid (event_id e)).
Definition mem_page_matching (r : Cursor * Cursor) (rule : HistoryMatch) (limit : nat) (tail : bool)
    (c : RoomId) : ST SinkInner BusError (list Envelope) := λ s,
  (Ok (select row_key (filter (λ e, page_rule r.1 r.2 rule e = true) (bucket_of s c)) limit tail), s).
Definition mem_count_matching (r : Cursor * Cursor) (hs : HeaderFilter) (exclude : option RuntimeSelf)
    (c : RoomId) : ST SinkInner BusError HistoryCount := λ s,
  (Ok (of_newest (take (N.to_nat HISTORY_COUNT_CAP + 1)
     (occurred_at_ms <$> filter (λ e, count_rule r.1 r.2 hs exclude e = true) (reverse (bucket_of s c))))), s).
#[export] Instance mem_history : HistorySink SinkInner := {|
  page_matching := mem_page_matching;
  sink_count_matching := mem_count_matching;
|}.

Lemma row_key_lt a b : env_lt a b → row_le row_key a b.
Proof.
  unfold env_lt. rewrite is_before_spec. unfold row_le, row_key. destruct a as [[ia] ? ? ? ? ? [ea ca] ? ? ? ? ?].
  destruct b as [[ib] ? ? ? ? ? [eb cb] ? ? ? ? ?]. cbn. unfold pair_le. cbn.
  intros Hlt. destruct (decide ((ea, ca) = (eb, cb))) as [[= -> ->]|Hne]; [right; split; [done|lia]|].
  left. split; [done|]. cbn. unfold pair_le. cbn. destruct (decide (ea = eb)) as [->|]; [right|left]; (split; [done|]).
  - assert (ca ≠ cb) by congruence. lia.
  - lia.
Qed.

Lemma sort_rows_sorted l : StronglySorted env_lt l → sort_by (row_le row_key) l = l.
Proof.
  induction 1 as [|x l Hs IH Hx]; [done|]. cbn [sort_by foldr]. fold (sort_by (row_le row_key) l). rewrite IH.
  destruct l as [|y l]; [done|]. cbn [insert_by]. rewrite decide_True; [done|]. apply row_key_lt.
  by inversion Hx.
Qed.

#[export] Instance mem_history_laws : HistoryLaws SinkInner.
Proof.
  split.
  - intros s c r rule n tail x Hs [= <-]. rewrite select_exact, sort_rows_sorted; [done|].
    apply StronglySorted_filter. by eapply bucket_strict, bucket_of_ok.
  - intros s c r hs ex x _ [= <-]. by rewrite of_newest_take, filter_reverse.
  - by intros s c Hs.
Qed.

(** ** The router's reads *)
Section router.
Context {S : Type} `{!DurableSink S, !HistorySink S}.

(** The ring entries of a channel that pass a test. *)
Definition ring_matching (c : RoomId) (p : Envelope → bool) (r : RouterInner) : list Envelope :=
  match channel_state c r with
  | Some state => filter (λ e, p e = true) (replay_after None (ring state))
  | None => []
  end.

Definition matching_history (c : RoomId) (after through : Cursor) (rule : HistoryMatch) (limit : nat)
    (tail : bool) : ST (RouterInner * S) BusError (list Envelope) := λ s,
  if (limit =? 0)%nat then (Ok [], s)
  else
    let rows := ring_matching c (page_rule after through rule) s.1 in
    match on_sink (page_matching (after, through) rule limit tail c) s with
    | (Ok page, s) =>
        let rows := dedup_ids (sort_by env_le (rows ++ page)) in
        (Ok (if tail then reverse (take limit (reverse rows)) else take limit rows), s)
    | (Err e, s) => (Err e, s)
    end.

(** [count_matching] up to its second await: the range the sink counts. *)
Definition durable_through (after through : Cursor) (sink_head : option Cursor) : Cursor :=
  match sink_head with
  | Some head => if is_after through head then head else through
  | None => after
  end.
(** Its last section, under the shard lock. *)
Definition count_pending (c : RoomId) (after through through' : Cursor) (hs : HeaderFilter)
    (exclude : option RuntimeSelf) (r : RouterInner) : HistoryCount :=
  let pending_after := if is_after through' after then through' else after in
  foldl with_event HistoryCount_default
    (occurred_at_ms <$> ring_matching c (count_rule pending_after through hs exclude) r).
Definition count_matching (c : RoomId) (after through : Cursor) (hs : HeaderFilter)
    (exclude : option RuntimeSelf) : ST (RouterInner * S) BusError HistoryCount := λ s,
  match on_sink (sink_head_cursor c) s with
  | (Ok sink_head, s) =>
      let through' := durable_through after through sink_head in
      match (if is_after through' after
             then on_sink (sink_count_matching (after, through') hs exclude c) s
             else (Ok HistoryCount_default, s)) with
      | (Ok durable, s) => (Ok (hc_merge durable (count_pending c after through through' hs exclude s.1)), s)
      | (Err e, s) => (Err e, s)
      end
  | (Err e, s) => (Err e, s)
  end.
End router.
End scan.

(** ** Sorting and deduplicating copies *)
Lemma dedup_sort l :
  StronglySorted env_le l → (∀ x y, x ∈ l → y ∈ l → event_id x = event_id y → x = y) →
  StronglySorted env_lt (dedup_ids l) ∧ ∀ x, x ∈ dedup_ids l ↔ x ∈ l.
Proof.
  induction 1 as [|x l Hs IH Hx]; intros Hinj; [split; [constructor|done]|].
  destruct IH as [IHs IHe]; [intros; apply Hinj; by try right|]. cbn [dedup_ids].
  destruct (dedup_ids l) as [|y l'].
  - split; [by repeat constructor|]. intros z. rewrite !elem_of_cons, <- IHe. tauto.
  - assert (y ∈ l) as Hy by (apply IHe; by left). rewrite list.Forall_forall in Hx.
    destruct (decide (event_id x = event_id y)) as [Hid|Hid].
    + assert (x = y) as <- by (apply Hinj; [by left|by right|done]). split; [done|].
      intros z. rewrite (elem_of_cons l), <- IHe, elem_of_cons. tauto.
    + split; [|intros z; rewrite elem_of_cons, IHe, elem_of_cons; tauto].
      constructor; [done|]. assert (env_lt x y) as Hxy.
      { destruct (proj1 (env_le_spec x y) (Hx y Hy)) as [Heq|?]; [|done]. destruct Hid.
        exact (f_equal c_event_id Heq). }
      inversion IHs as [|? ? _ Hyl]; subst. constructor; [done|].
      eapply list.Forall_impl; [exact Hyl|]. intros z Hz. by etrans.
Qed.

Section matching.
Context `{!JsonValue, !TextEnv} {S : Type} `{!DurableSink S, !SinkLaws S, !HistorySink S, !HistoryLaws S}.
Context (s0 : S) (src : SeqSource) (Hinit : initial_ok src s0).
#[local] Abbreviation inv := (sys_inv s0 (ss_epoch src)).

Lemma ring_matching_spec c p (σ : Sys (S:=S)) :
  ring_matching c p (rt σ) = filter (λ e, p e = true) (ring_envs (ring_of c σ)).
Proof.
  unfold ring_matching. 
  assert (match channel_state c (rt σ) with Some state => replay_after None (BusRouter.ring state) | None => [] end =
    ring_envs (ring_of c σ)) as Hr.
  { rewrite (channel_state_ring (λ r, replay_after None r) [] c σ eq_refl). apply replay_none. }
  rewrite <- Hr. by destruct (channel_state c (rt σ)).
Qed.

(** A channel's history is the sink's rows and the ring's durable entries. *)
Lemma history_covered c σ e :
  inv σ → e ∈ history s0 c σ ↔
    e ∈ rows (sk σ) c ∨ (e ∈ ring_envs (ring_of c σ) ∧ is_durable (delivery e) = true).
Proof.
  intros HI. destruct (hist_split s0 src Hinit c σ HI) as (A & Hh & HA & _ & _ & _). split.
  - rewrite Hh. intros [He|[? ?]%durables_elem]%elem_of_app; [left; by apply HA|by right].
  - intros [He|[He Hd]]; [by eapply rows_history|]. rewrite Hh. apply elem_of_app. right.
    by apply durables_elem.
Qed.

Lemma history_ids c σ x y :
  inv σ → x ∈ history s0 c σ → y ∈ history s0 c σ → event_id x = event_id y → x = y.
Proof.
  intros HI Hx Hy. apply (NoDup_fmap_inj_on event_id (history s0 c σ)); [|done|done].
  rewrite <- (channel_view_durables s0 src Hinit c σ HI). eapply sublist_NoDup.
  - by apply (channel_view_ids s0 src Hinit c σ HI).
  - apply fmap_sublist, sublist_filter.
Qed.

Lemma matching_history_inv c after through rule limit tail σ l :
  inv σ → (matching_history c after through rule limit tail (rt σ, sk σ)).1 = Ok l →
  l = bounded tail limit (filter (λ e, page_rule after through rule e = true) (history s0 c σ)).
Proof.
  intros HI. unfold matching_history. cbn [fst snd].
  destruct (Nat.eqb_spec limit 0) as [->|Hlim].
  { intros [= <-]. unfold bounded, last_n. destruct tail; [|done]. rewrite Nat.sub_0_r. symmetry. apply drop_all. }
  rewrite ring_matching_spec. set (P := page_rule after through rule).
  pose proof (law_page_matching (sk σ) c (after, through) rule limit tail) as Hlaw.
  unfold on_sink. cbn [fst snd].
  destruct (page_matching (after, through) rule limit tail c (sk σ)) as [[page|err] s']; [|done]. cbn [fst snd] in *.
  intros [= Hl]. rewrite (Hlaw page) in Hl by (done || apply HI). clear Hlaw page. fold P in Hl.
  set (Hist := history s0 c σ). set (MH := filter (λ e, P e = true) Hist).
  set (MP := filter (λ e, P e = true) (rows (sk σ) c)) in *.
  set (MQ := filter (λ e, P e = true) (ring_envs (ring_of c σ))) in *.
  assert (∀ e, P e = true → is_durable (delivery e) = true) as Hd.
  { intros e. unfold P, page_rule, in_range. rewrite !andb_true_iff. tauto. }
  assert (∀ e, e ∈ MH ↔ e ∈ MP ∨ e ∈ MQ) as Hcov.
  { intros e. unfold MH, MP, MQ, Hist. rewrite !list_elem_of_filter, (history_covered c σ e HI). naive_solver. }
  pose proof (history_sorted s0 src Hinit c σ HI) as HsH.
  assert (StronglySorted env_lt MH) as HsMH by (by apply StronglySorted_filter).
  assert (StronglySorted env_lt MP) as HsMP by (apply StronglySorted_filter, rows_sorted, HI).
  assert (∀ e, e ∈ bounded tail limit MP → e ∈ MP) as Hbnd.
  { intros e. unfold bounded, last_n. destruct tail; [apply elem_of_drop_in|apply elem_of_take_in]. }
  assert (∀ e, e ∈ MQ ++ bounded tail limit MP → e ∈ Hist) as HU.
  { intros e He. assert (e ∈ MH) as [_ ?]%list_elem_of_filter; [|done]. apply Hcov.
    apply elem_of_app in He as [?|?]; auto. }
  destruct (dedup_sort (sort_by env_le (MQ ++ bounded tail limit MP))) as [HsX HX].
  { apply sort_by_sorted; apply _. }
  { intros x y. rewrite !sort_by_perm. intros Hx%HU Hy%HU. by eapply history_ids. }
  set (X := dedup_ids (sort_by env_le (MQ ++ bounded tail limit MP))) in *.
  assert (∀ e, e ∈ X ↔ e ∈ MQ ∨ e ∈ bounded tail limit MP) as HX'.
  { intros e. by rewrite HX, sort_by_perm, elem_of_app. }
  assert (∀ Y, StronglySorted env_lt Y → (∀ e, e ∈ Y → e ∈ MH) → Y `sublist_of` MH) as Hsub.
  { intros Y HsY HY. by apply (strict_sublist env_lt). }
  assert (l = bounded tail limit X) as ->.
  { destruct tail; [rewrite bounded_reverse|]; by symmetry. }
  apply (bounded_merge tail limit MP MQ).
  - by apply sorted_NoDup.
  - apply Hsub; [done|]. intros e He. apply Hcov. by left.
  - apply Hsub; [done|]. intros e [He|He]%HX'; apply Hcov; auto.
  - intros e. by rewrite Hcov.
  - intros e He. apply HX'. by left.
  - intros e He. apply HX'. by right.
Qed.
End matching.

(** A filtered history page answers from the whole durable history: the
    first (or, from the tail, the last) [limit] events of the channel's history in
    the range and matching the rule, whether the sink has them, the ring, or both. *)
Theorem matching_history_exact `{!JsonValue, !TextEnv} {S : Type}
    `{!DurableSink S, !SinkLaws S, !HistorySink S, !HistoryLaws S}
    cfg src (s0 : S) σ c after through rule limit tail l :
  initial_ok src s0 → reach (initial cfg src s0) σ →
  (matching_history c after through rule limit tail (rt σ, sk σ)).1 = Ok l →
  l = bounded tail limit (filter (λ e, page_rule after through rule e = true) (history s0 c σ)).
Proof.
  intros Hi Hr. apply (matching_history_inv s0 src Hi). eapply sys_inv_reach; [exact Hr|]. by apply sys_inv_initial.
Qed.

Module MatchScenario.
Import BusScenario.
#[export] Instance json : JsonValue := {| Json := unit; json_kind := λ _, None |}.
#[export] Instance text : TextEnv := {|
  is_alphanumeric := λ c, ((48 <=? c) && (c <=? 57) || (97 <=? c) && (c <=? 122))%N;
  json_text := λ _, None;
  body_from_payload := λ _, None;
|}.
Definition start_cursor : Cursor := MkCursor (MkSeq 0 0) (MkId 0).
Definition end_cursor : Cursor := MkCursor (MkSeq 99 0) (MkId 0).
Definition any : HistoryMatch := MkHistoryMatch HfAny None.

Lemma matching_history_exact_witness :
  event_id <$> bounded true 2 (filter (λ e, page_rule start_cursor end_cursor any e = true)
    (history InMemoryDurableSink_new room σ6)) = [MkId 12; MkId 13].
Proof.
  destruct (matching_history room start_cursor end_cursor any 2 true (rt σ6, sk σ6)).1 as [l|] eqn:E;
    [|by vm_compute in E].
  rewrite <- (matching_history_exact cfg src InMemoryDurableSink_new σ6 room start_cursor end_cursor any 2 true l
    (mem_initial_ok src) reach_06 E).
  revert E. vm_compute. intros [= <-]. reflexivity.
Defined.
End MatchScenario.

(** * Counting
    The router's [count_matching] is the number of matching durable events, stored or
    pending.  It splits the range at the sink's head, so it relies on the sink being filled
    in order: the writer keeps one batch until it is confirmed, and a sink that fails
    part-way has stored a prefix of the batch ([sink_in_order]). *)
Lemma elem_of_take_max {A} n m (l : list A) x : x ∈ take (Nat.max n m) l → x ∈ take n l ∨ x ∈ take m l.
Proof. destruct (Nat.max_dec n m) as [-> | ->]; auto. Qed.
Lemma elem_of_take_le {A} n m (l : list A) x : (n ≤ m)%nat → x ∈ take n l → x ∈ take m l.
Proof.
  intros Hnm Hx. replace n with (Nat.min n m) in Hx by lia. rewrite <- take_take in Hx.
  by apply elem_of_take_in in Hx.
Qed.

(** ** The sink is filled in order *)
Section order.
Context {S : Type} `{!DurableSink S, !SinkLaws S}.
Context (s0 : S) (src : SeqSource) (Hinit : initial_ok src s0).
#[local] Abbreviation inv := (sys_inv s0 (ss_epoch src)).
#[local] Abbreviation sys := (Sys (S:=S)).

(** A failed append has stored a prefix of its batch. *)
Definition sink_in_order : Prop := ∀ (s : S) l, sink_ok s → ∃ n,
  (∀ c e, e ∈ rows (append_batch l s).2 c → e ∈ rows s c ∨ e ∈ take n l ∧ channel e = c) ∧
  (∀ e, e ∈ take n l → ∃ e', e' ∈ rows (append_batch l s).2 (channel e) ∧ event_id e' = event_id e).

(** The accepted durables are those handed over, the batch and the queue; the
    sink's rows are the first [n] of them, and its own. *)
Definition order_inv (σ : sys) : Prop := ∃ X n,
  durables (log σ) = X ++ batch σ ++ queue σ ∧ (length X ≤ n ≤ length (durables (log σ)))%nat ∧
  ∀ c e, e ∈ rows (sk σ) c ↔ e ∈ rows s0 c ∨ e ∈ take n (durables (log σ)) ∧ channel e = c.

Lemma order_frame (σ σ' : sys) :
  log σ' = log σ → sk σ' = sk σ → batch σ' ++ queue σ' = batch σ ++ queue σ → order_inv σ → order_inv σ'.
Proof. intros Hl Hs Hb (X & n & HD & Hn & Hr). exists X, n. rewrite Hl, Hs, Hb. done. Qed.

Lemma durables_log (σ : sys) e : e ∈ durables (log σ) → e ∈ log σ ∧ is_durable (delivery e) = true.
Proof. rewrite durables_elem. tauto. Qed.

(** An append that stored the first [m] of the batch. *)
Lemma order_append (σ σ' : sys) m X n :
  inv σ' → log σ' = log σ → durables (log σ) = X ++ batch σ ++ queue σ → (length X ≤ n ≤ length (durables (log σ)))%nat →
  (∀ c e, e ∈ rows (sk σ) c ↔ e ∈ rows s0 c ∨ e ∈ take n (durables (log σ)) ∧ channel e = c) →
  (∀ c e, e ∈ rows (sk σ) c → e ∈ rows (sk σ') c) →
  (∀ c e, e ∈ rows (sk σ') c → e ∈ rows (sk σ) c ∨ e ∈ take m (batch σ) ∧ channel e = c) →
  (∀ e, e ∈ take m (batch σ) → ∃ e', e' ∈ rows (sk σ') (channel e) ∧ event_id e' = event_id e) →
  (m ≤ length (batch σ))%nat →
  let n' := Nat.max n (length X + m) in
  (length X + m ≤ n' ≤ length (durables (log σ')))%nat ∧
  ∀ c e, e ∈ rows (sk σ') c ↔ e ∈ rows s0 c ∨ e ∈ take n' (durables (log σ')) ∧ channel e = c.
Proof.
  intros HI' Hl HD Hn Hr Hkeep Honly Hdone Hm n'. rewrite Hl.
  assert (take (length X + m) (durables (log σ)) = X ++ take m (batch σ)) as Htake.
  { rewrite HD, take_app_add. f_equal. apply take_app_le. done. }
  split.
  { subst n'. assert (length (durables (log σ)) = length X + (length (batch σ) + length (queue σ)))%nat
      by (by rewrite HD, !length_app). lia. }
  intros c e. split.
  - intros [He|[He Hc]]%Honly.
    + apply Hr in He as [?|[? ?]]; [by left|right]. split; [|done]. eapply elem_of_take_le; [|done]. lia.
    + right. split; [|done]. apply (elem_of_take_le (length X + m)); [lia|]. rewrite Htake. apply elem_of_app. by right.
  - intros [He|[He Hc]]; [apply Hkeep, Hr; by left|]. apply elem_of_take_max in He as [He|He].
    { apply Hkeep, Hr. by right. }
    rewrite Htake in He. apply elem_of_app in He as [He|He].
    + apply Hkeep, Hr. right. split; [|done]. apply (elem_of_take_le (length X)); [lia|].
      rewrite HD, take_app_length. done.
    + destruct (Hdone e He) as (e' & Hin & Hid). rewrite Hc in Hin.
      assert (e ∈ log σ') as Hlog.
      { rewrite Hl. apply durables_log. rewrite HD, !elem_of_app. right. left. by apply elem_of_take_in in He. }
      by rewrite <- (rows_log_unique s0 (ss_epoch src) σ' c e' e (si_log _ _ _ HI') Hin Hlog Hid).
Qed.

Lemma order_step (σ σ' : sys) : sink_in_order → inv σ → sys_step σ σ' → order_inv σ → order_inv σ'.
Proof.
  intros Hord HI Hstep HO. pose proof (sys_inv_step _ _ _ _ Hstep HI) as HI'.
  pose proof (li_shards _ _ _ (si_log _ _ _ HI)) as Hsh. pose proof (li_sink _ _ _ (si_log _ _ _ HI)) as Hsk.
  destruct Hstep as [now e o Hf Hu|b r' Hb Hc Hd|Hc|e l Hc|f fr live Hu|id e r' Hr|id|cap].
  - unfold do_publish in *. pose proof (publish_from_spec now e o (rt σ) Hsh) as Hspec.
    destruct (publish_from now e o (rt σ)) as [[q|err] r']; cbn [snd] in *.
    2:{ destruct Hspec as [_ [[_ ->]| ->]]; by apply (order_frame σ). }
    destruct Hspec as [_ Hok]. destruct HO as (X & n & HD & Hn & Hrows). exists X, n.
    assert (durables (log σ ++ [stamped now e (rt σ)]) =
      durables (log σ) ++ (if is_durable (delivery e) then [stamped now e (rt σ)] else [])) as HD'.
    { rewrite durables_app. f_equal. unfold durables. rewrite filter_cons, filter_nil.
      change (delivery (stamped now e (rt σ))) with (delivery e). by destruct (is_durable (delivery e)). }
    cbn [log sk batch]. unfold queue. cbn [rt]. rewrite (po_queue _ _ _ _ Hok), HD'. split_and!.
    + rewrite HD. unfold queue. by rewrite <- !app_assoc.
    + lia.
    + rewrite length_app. lia.
    + intros c x. by rewrite take_app_le by lia.
  - injection Hd as <- <-. apply (order_frame σ); [done..| |done]. unfold queue. cbn. rewrite Hb. apply take_drop.
  - destruct HO as (X & n & HD & Hn & Hrows). unfold do_append in *.
    pose proof (λ c e, law_append_keeps (sk σ) (batch σ) c e Hsk) as Hkeep.
    pose proof (λ c e, law_append_only (sk σ) (batch σ) c e Hsk) as Honly.
    pose proof (law_append_done (sk σ) (batch σ)) as Hdone.
    destruct (Hord (sk σ) (batch σ) Hsk) as (m & Ho1 & Ho2).
    destruct (append_batch (batch σ) (sk σ)) as [[[]|err] s']; cbn [fst snd] in *.
    + match goal with |- order_inv ?s => destruct (order_append σ s (length (batch σ)) X n) as [Hn' Hrows'] end;
        try done; cbn [sk]; [by rewrite firstn_all|intros x Hx; rewrite firstn_all in Hx; by apply Hdone|].
      exists (X ++ batch σ), (Nat.max n (length X + length (batch σ))). split_and!; try done.
      * change (durables (log σ) = (X ++ batch σ) ++ [] ++ queue σ). by rewrite HD, <- app_assoc.
      * rewrite length_app. apply Hn'.
      * apply Hn'.
    + assert (take (Nat.min m (length (batch σ))) (batch σ) = take m (batch σ)) as Htm.
      { rewrite <- take_take. by rewrite firstn_all. }
      match goal with |- order_inv ?s => destruct (order_append σ s (Nat.min m (length (batch σ))) X n) as [Hn' Hrows'] end;
        try done; cbn [sk]; [by rewrite Htm|by rewrite Htm|lia|].
      exists X, (Nat.max n (length X + Nat.min m (length (batch σ)))). split_and!; try done; [lia|apply Hn'].
  - destruct (confirm_spec e (rt σ) Hsh) as (_ & _ & _ & Hw & _). apply (order_frame σ); [done..| |done].
    unfold queue. cbn. by rewrite Hw.
  - unfold do_subscribe. destruct (subscribe_spec f fr live (rt σ) Hsh) as (_ & _ & _ & _ & Hw & _).
    destruct (subscribe_mode f fr live (rt σ)) as [st r']. cbn in *. apply (order_frame σ); [done..| |done].
    unfold queue. cbn. by rewrite Hw.
  - apply recv_spec in Hr as (buf & cap & open & _ & ->). by apply (order_frame σ).
  - destruct (drop_spec id (rt σ) Hsh) as (_ & _ & _ & _ & Hw & _). apply (order_frame σ); [done..| |done].
    unfold queue. cbn. by rewrite Hw.
  - by apply (order_frame σ).
Qed.

Lemma order_reach (σ σ' : sys) : sink_in_order → inv σ → reach σ σ' → order_inv σ → order_inv σ'.
Proof.
  intros Hord HI Hr. revert HI. induction Hr as [σ|σ σ1 σ2 Hstep Hr IH]; intros HI HO; [done|].
  apply IH; [by eapply sys_inv_step|by eapply order_step].
Qed.

Lemma order_initial cfg : order_inv (initial cfg src s0).
Proof.
  exists [], 0%nat. cbn. split_and!; [done|lia|lia|]. intros c e. split; [by left|].
  intros [?|[He _]]; [done|by apply elem_of_nil in He].
Qed.

(** What is not stored yet comes after everything that is. *)
Lemma pending_after_rows c (σ : sys) x e :
  inv σ → order_inv σ → x ∈ rows (sk σ) c → e ∈ history s0 c σ → e ∉ rows (sk σ) c → env_lt x e.
Proof.
  intros HI (X & n & HD & Hn & Hrows) Hx He Hne.
  apply history_elem in He as [He|(He & Hd & Hc)]; [destruct Hne; by apply (li_base _ _ _ (si_log _ _ _ HI))|].
  apply Hrows in Hx as [Hx|[Hx _]].
  { by apply (base_before_log s0 src Hinit c σ). }
  pose proof (li_sorted _ _ _ (si_log _ _ _ HI)) as Hs. apply (StronglySorted_filter _ (λ e, is_durable (delivery e) = true)) in Hs.
  fold (durables (log σ)) in Hs. rewrite <- (take_drop n (durables (log σ))) in Hs.
  apply (sorted_app_lt _ _ x e Hs); [done|].
  assert (e ∈ durables (log σ)) as Hin by (by apply durables_elem).
  rewrite <- (take_drop n (durables (log σ))) in Hin. apply elem_of_app in Hin as [Hin|?]; [|done].
  destruct Hne. apply Hrows. by right.
Qed.
End order.

(** ** The count *)
Section count.
Context `{!JsonValue, !TextEnv} {S : Type} `{!DurableSink S, !SinkLaws S, !HistorySink S, !HistoryLaws S}.
Context (s0 : S) (src : SeqSource) (Hinit : initial_ok src s0).
#[local] Abbreviation inv := (sys_inv s0 (ss_epoch src)).
Context (c : RoomId) (after through : Cursor) (hs : HeaderFilter) (exclude : option RuntimeSelf).

(** The two parts a count adds up, for a given head of the sink. *)
Definition stored_part (through' : Cursor) (σ : Sys (S:=S)) : list Envelope :=
  if is_after through' after then filter (λ e, count_rule after through' hs exclude e = true) (rows (sk σ) c) else [].
Definition pending_part (through' : Cursor) (σ : Sys (S:=S)) : list Envelope :=
  filter (λ e, count_rule (if is_after through' after then through' else after) through hs exclude e = true)
    (ring_envs (ring_of c σ)).

Lemma count_rule_elem a t e :
  count_rule a t hs exclude e = true ↔
    cursor_lt a (cursor e) ∧ ¬ cursor_lt t (cursor e) ∧ is_durable (delivery e) = true ∧
    filter_matches hs (headers e) && negb (is_some_and exclude (λ rule, is_self rule (headers e) (from e).2)) = true.
Proof.
  unfold count_rule, in_range, is_after, cursor_lt.
  rewrite !andb_true_iff, !negb_true_iff, not_true_iff_false. tauto.
Qed.

Lemma cursor_not_lt a b : ¬ cursor_lt a b → a = b ∨ cursor_lt b a.
Proof. intros Hn. destruct (cursor_lt_total a b) as [?|[?|?]]; [done|auto|auto]. Qed.

#[local] Instance cursor_lt_dec a b : Decision (cursor_lt a b) := decide (is_before a b = true).

Lemma stored_or_not σ e : inv σ → e ∈ history s0 c σ → e ∈ rows (sk σ) c ∨ e ∉ rows (sk σ) c.
Proof.
  intros HI He. destruct (decide (event_id e ∈ event_id <$> rows (sk σ) c)) as [Hin|Hn].
  - apply list_elem_of_fmap in Hin as (x & Hid & Hx). left.
    assert (x ∈ history s0 c σ) as Hx' by (by eapply rows_history).
    by rewrite (history_ids s0 src Hinit c σ e x HI He Hx' Hid).
  - right. intros Hx. apply Hn. by apply list_elem_of_fmap_2.
Qed.

Lemma count_split σ through' :
  inv σ → order_inv s0 σ →
  through' = durable_through after through (cursor <$> last (rows (sk σ) c)) →
  filter (λ e, count_rule after through hs exclude e = true) (history s0 c σ) =
    stored_part through' σ ++ pending_part through' σ.
Proof.
  intros HI HO Ht. pose proof (rows_sorted (sk σ) c (li_sink _ _ _ (si_log _ _ _ HI))) as Hsr.
  pose proof (history_sorted s0 src Hinit c σ HI) as Hsh.
  assert (StronglySorted env_lt (ring_envs (ring_of c σ))) as Hsg.
  { destruct (hist_split s0 src Hinit c σ HI) as (A & _ & _ & _ & Hs & _).
    by apply StronglySorted_app in Hs as (_ & _ & ?). }
  (* The sink's rows end at the head, what is not stored lies beyond it. *)
  assert (∀ e, e ∈ rows (sk σ) c → ∀ h, last (rows (sk σ) c) = Some h → e = h ∨ env_lt e h) as Hhead.
  { intros e He h Hh. apply last_Some in Hh as [l Hl]. rewrite Hl in Hsr, He.
    apply elem_of_app in He as [He|He%list_elem_of_singleton]; [right|by left].
    eapply sorted_app_lt; [exact Hsr|done|by left]. }
  assert (∀ e, e ∈ history s0 c σ → e ∉ rows (sk σ) c → ∀ h, last (rows (sk σ) c) = Some h → env_lt h e) as Hpend.
  { intros e He Hne h Hh. eapply pending_after_rows; try done. by apply last_Some_elem_of. }
  assert (∀ e, cursor_lt after (cursor e) → ¬ cursor_lt through (cursor e) → e ∈ rows (sk σ) c →
    ¬ cursor_lt through' (cursor e)) as Hrow.
  { intros e Ha Htn He Hlt. destruct (last (rows (sk σ) c)) as [h|] eqn:Hh.
    - cbn in Ht. destruct (is_after through (cursor h)); subst through'; [|done].
      destruct (Hhead e He h eq_refl) as [->|Heh]; [by apply (irreflexivity cursor_lt (cursor h))|].
      apply (irreflexivity cursor_lt (cursor h)). by etrans.
    - apply last_None in Hh. rewrite Hh in He. by apply elem_of_nil in He. }
  assert (∀ e, e ∈ history s0 c σ → e ∉ rows (sk σ) c → ¬ cursor_lt through (cursor e) →
    cursor_lt through' after ∨ through' = after ∨ cursor_lt through' (cursor e)) as Hbeyond.
  { intros e He Hne Htn. destruct (last (rows (sk σ) c)) as [h|] eqn:Hh; [|cbn in Ht; auto].
    specialize (Hpend e He Hne h eq_refl). cbn in Ht.
    destruct (is_after through (cursor h)) eqn:Hth; subst through'; [by right; right|].
    destruct (cursor_not_lt _ _ Htn) as [Heq|Hlt].
    - exfalso. unfold is_after in Hth. rewrite Heq in Hth. unfold env_lt, cursor_lt in Hpend. congruence.
    - exfalso. assert (cursor_lt (cursor h) through) as Hlt' by (by etrans). unfold is_after in Hth.
      unfold cursor_lt in Hlt'. congruence. }
  assert (is_after through' after = true → ¬ cursor_lt through through') as Hle.
  { intros Haf Hlt. destruct (last (rows (sk σ) c)) as [h|]; cbn in Ht.
    - destruct (is_after through (cursor h)) eqn:Hth; subst through'; [|by apply (irreflexivity cursor_lt through)].
      apply (irreflexivity cursor_lt through). by etrans.
    - subst through'. by apply (irreflexivity cursor_lt after). }
  clear Ht. apply sorted_ext.
  - by apply StronglySorted_filter.
  - unfold stored_part, pending_part. destruct (is_after through' after) eqn:Haf; [|by apply StronglySorted_filter].
    apply StronglySorted_app_2; [|by apply StronglySorted_filter..].
    intros x y [Hx _]%list_elem_of_filter [Hy _]%list_elem_of_filter.
    apply count_rule_elem in Hx as (_ & Hx & _). apply count_rule_elem in Hy as (Hy & _).
    unfold env_lt. destruct (cursor_not_lt _ _ Hx) as [<-|Hlt]; [done|by etrans].
  - intros e. rewrite elem_of_app, list_elem_of_filter, (history_covered s0 src Hinit c σ e HI). split.
    + intros [Hc Hin]. apply count_rule_elem in Hc as (Ha & Htn & Hd & Hm).
      destruct Hin as [Hin|[Hin _]].
      * left. pose proof (Hrow e Ha Htn Hin) as Hn. unfold stored_part.
        assert (is_after through' after = true) as ->.
        { unfold is_after. fold (cursor_lt after through'). destruct (cursor_not_lt _ _ Hn) as [->|?]; [done|].
          by etrans. }
        apply list_elem_of_filter. split; [|done]. by apply count_rule_elem.
      * (* it may be stored and still in the ring *)
        destruct (decide (cursor_lt through' (cursor e) ∨ is_after through' after ≠ true)) as [Hcase|Hcase].
        -- right. apply list_elem_of_filter. split; [|done]. apply count_rule_elem. split_and!; try done.
           destruct (is_after through' after); [|done]. destruct Hcase; done.
        -- assert (¬ cursor_lt through' (cursor e) ∧ is_after through' after = true) as [Hnlt Haf].
           { split; [tauto|]. destruct (is_after through' after); [done|]. destruct Hcase. by right. }
           left. unfold stored_part. rewrite Haf. apply list_elem_of_filter. split; [by apply count_rule_elem|].
           assert (e ∈ history s0 c σ) as Hh by (apply (history_covered s0 src Hinit c σ e HI); by right).
           destruct (stored_or_not σ e HI Hh) as [?|Hne]; [done|]. exfalso. destruct (Hbeyond e Hh Hne Htn) as [Hlt|[Heq|?]]; [| |by apply Hnlt].
           ++ unfold is_after in Haf. fold (cursor_lt after through') in Haf.
              apply (irreflexivity cursor_lt after). by etrans.
           ++ subst through'. by apply (irreflexivity cursor_lt after).
    + unfold stored_part, pending_part. intros [Hin|Hin].
      * destruct (is_after through' after) eqn:Haf; [|by apply elem_of_nil in Hin].
        apply list_elem_of_filter in Hin as [(Ha & Hn & Hd & Hm)%count_rule_elem Hin]. split; [|by left].
        apply count_rule_elem. split_and!; try done. intros Hlt. apply (Hle eq_refl).
        destruct (cursor_not_lt _ _ Hn) as [->|?]; [done|]. by etrans.
      * apply list_elem_of_filter in Hin as [(Ha & Hn & Hd & Hm)%count_rule_elem Hin]. split; [|by right].
        apply count_rule_elem. split_and!; try done.
        destruct (is_after through' after) eqn:Haf; [|done].
        unfold is_after in Haf. fold (cursor_lt after through') in Haf. by etrans.
Qed.
End count.

(** A filtered count is exact: over a sink that is filled in order, it is
    the number of the channel's durable events in the range that match and are
    not the reader's own, stored or pending, with their true oldest and newest
    times; past the cap it says [more], and there are more. *)
Theorem count_matching_exact `{!JsonValue, !TextEnv} {S : Type}
    `{!DurableSink S, !SinkLaws S, !HistorySink S, !HistoryLaws S}
    cfg src (s0 : S) σ c after through hs exclude n :
  initial_ok src s0 → sink_in_order (S:=S) → reach (initial cfg src s0) σ →
  (count_matching c after through hs exclude (rt σ, sk σ)).1 = Ok n →
  let M := filter (λ e, count_rule after through hs exclude e = true) (history s0 c σ) in
  is_u64 (N.of_nat (length M)) →
  if more n then (HISTORY_COUNT_CAP ≤ hc_count n < N.of_nat (length M))%N
  else n = MkHistoryCount (N.of_nat (length M)) (times_min (occurred_at_ms <$> M))
             (times_max (occurred_at_ms <$> M)) false.
Proof.
  intros Hi Hord Hr. assert (sys_inv s0 (ss_epoch src) σ) as HI.
  { eapply sys_inv_reach; [exact Hr|]. by apply sys_inv_initial. }
  assert (order_inv s0 σ) as HO.
  { eapply (order_reach s0 src); [done| |exact Hr|apply order_initial]. by apply sys_inv_initial. }
  unfold count_matching, on_sink. cbn [fst snd].
  pose proof (law_head (sk σ) c) as Hhead. pose proof (law_head_reads (sk σ) c) as [Hok' Hrows']; [apply HI|].
  destruct (sink_head_cursor c (sk σ)) as [[head|err] s1]; [|done]. cbn [fst snd] in *.
  rewrite (Hhead head) by (done || apply HI). clear Hhead head.
  set (t' := durable_through after through (cursor <$> last (rows (sk σ) c))).
  pose proof (count_split s0 src Hi c after through hs exclude σ t' HI HO eq_refl) as Hsplit.
  set (D := stored_part c after hs exclude t' σ) in *. set (P := pending_part c after through hs exclude t' σ) in *.
  assert (count_pending c after through t' hs exclude (rt σ) =
    foldl with_event HistoryCount_default (occurred_at_ms <$> P)) as Hpend.
  { unfold count_pending. by rewrite ring_matching_spec. }
  assert (∀ d s2, (if is_after t' after then
      (let '(res, sk0) := sink_count_matching (after, t') hs exclude c s1 in (res, (rt σ, sk0)))
      else (Ok HistoryCount_default, (rt σ, s1))) = (Ok d, s2) →
    d = of_newest (occurred_at_ms <$> reverse D) ∧ s2.1 = rt σ) as Hd.
  { intros d s2. subst D. unfold stored_part. destruct (is_after t' after); [|by intros [= <- <-]].
    pose proof (law_count_matching s1 c (after, t') hs exclude) as Hlaw.
    destruct (sink_count_matching (after, t') hs exclude c s1) as [res s3]. intros [= -> <-].
    split; [|done]. rewrite <- Hrows'. by apply Hlaw. }
  match goal with |- context [match ?x with _ => _ end] => destruct x as [[d|err] s2] end; [|done].
  destruct (Hd d s2 eq_refl) as [-> ->]. intros [= <-]. rewrite Hpend. clear Hd Hpend. rewrite Hsplit.
  generalize D P. clear. intros D P Hu. rewrite length_app in Hu. rewrite of_newest_spec.
  rewrite fmap_reverse. set (DT := occurred_at_ms <$> D). set (PT := occurred_at_ms <$> P).
  assert (length DT = length D) as HD by apply length_fmap. assert (length PT = length P) as HP by apply length_fmap.
  rewrite with_events_spec by (cbn; rewrite HP; unfold is_u64 in *; lia).
  assert (∀ x f, pick None x f = x) as Hpick by (by intros []). cbn [hc_count oldest_ms newest_ms more HistoryCount_default].
  rewrite !Hpick, N.add_0_l. unfold hc_merge. cbn [hc_count oldest_ms newest_ms more]. rewrite orb_false_r.
  rewrite length_take, length_reverse, wadd_small by (rewrite HP; unfold is_u64 in *; lia). rewrite HD, HP, length_app.
  destruct (N.ltb_spec HISTORY_COUNT_CAP (N.of_nat (length D))) as [Hc|Hc].
  - lia.
  - rewrite take_ge by (rewrite length_reverse; lia).
    destruct (times_perm (reverse DT) DT (reverse_Permutation DT)) as [-> ->].
    rewrite fmap_app, times_min_app, times_max_app. f_equal. lia.
Qed.

Module CountScenario.
Import BusScenario MatchScenario.

Lemma mem_in_order : sink_in_order (S:=SinkInner).
Proof.
  intros s l Hs. exists (length l). rewrite firstn_all. split.
  - intros c e. by apply law_append_only.
  - intros e. apply law_append_done; [done|]. by apply mem_append_batch_spec.
Qed.

Lemma count_inj a b c d a' b' c' d' :
  MkHistoryCount a b c d = MkHistoryCount a' b' c' d' → a' = a ∧ b' = b ∧ c' = c.
Proof. by intros [= -> -> -> _]. Qed.

(** Two stored or pending events after the first: counted without the signal. *)
Lemma count_matching_exact_witness :
  let M := filter (λ e, count_rule (cursor (stamped 10 (said 11) (rt σ0))) end_cursor HfAny None e = true)
    (history InMemoryDurableSink_new room σ6) in
  N.of_nat (length M) = 2%N ∧ times_min (occurred_at_ms <$> M) = Some 20%N ∧
  times_max (occurred_at_ms <$> M) = Some 40%N.
Proof.
  destruct (count_matching room (cursor (stamped 10 (said 11) (rt σ0))) end_cursor HfAny None (rt σ6, sk σ6)).1
    as [n|] eqn:E; [|by vm_compute in E].
  pose proof (count_matching_exact cfg src InMemoryDurableSink_new σ6 room
    (cursor (stamped 10 (said 11) (rt σ0))) end_cursor HfAny None n (mem_initial_ok src) mem_in_order reach_06 E) as H.
  cbv zeta in H |- *. assert (n = MkHistoryCount 2 (Some 20%N) (Some 40%N) false) as Hn
    by (revert E; vm_compute; intros [= <-]; reflexivity).
  rewrite Hn in H. cbn [more] in H.
  exact (count_inj _ _ _ _ _ _ _ _ (H ltac:(vm_compute; reflexivity))).
Defined.
End CountScenario.
