(* ===== verification/BusCounterexamples.v ===== *)
(** Runs of the router in which it does not do what its comments promise: each
    is a concrete sequence of the router's own sections, evaluated. *)
From stdpp Require Import base gmap strings list sorting numbers.
From S2P Require Import Prelude.
From S2P Require Import WorkModel.
From S2P Require Import CoreTranscript.
From S2P Require Import BusEnvelope.
From S2P Require Import BusRing.
From S2P Require Import BusIndex.
From S2P Require Import BusEphemeral.
From S2P Require Import BusSink.
From S2P Require Import BusRouter.
From S2P Require Import BusSystem.
From S2P Require Import BusHistory.
From S2P Require Import BusSubs.
From S2P Require Import BusStream.
From S2P Require Import BusDrain.
From S2P Require Import BusForward.
From S2P Require Import BusIdem.
From S2P Require Import CoreHistory.
From S2P Require Import BusMatch.
Import BusScenario.

Definition ids (l : list Envelope) : list EventId := event_id <$> l.
Definition router0 : RouterInner := EventRouter_new cfg src.
Definition durable1 : Envelope := said 11.
Definition durable2 : Envelope := said 12.

(** ** Overlapping publishers

    Two publishers have stamped and the second enters the channel's lock first.
    The stream's watermark then hides the first event: the subscriber neither
    receives it nor is told it lagged. *)
Definition overlapped : RouterInner * SubStream :=
  let '(st, r) := subscribe_live (Filter_channel room) router0 in
  let '(a, r) := stamp 10 durable1 r in
  let '(b, r) := stamp 10 durable2 r in
  (deliver a (deliver b r), st).
Lemma overlapping_publishers_lose_an_event :
  (ids ∘ mq_buf) <$> (sub_chans overlapped.1 !! ss_id overlapped.2) = Some [MkId 12; MkId 11] ∧
  lag_flags overlapped.1 !! ss_id overlapped.2 = Some false ∧
  option_map ids (stream_yield 1 overlapped.2 (λ _ _, Ok [])
    (from_option mq_buf [] (sub_chans overlapped.1 !! ss_id overlapped.2))) = Some [MkId 12].
Proof. vm_compute. split_and!; reflexivity. Qed.

(** ** Subscribing to a channel whose ring is empty

    No oldest ring entry bounds the deep leg; an event persisted between the
    registration and the page read raises the watermark past an earlier live one. *)
Definition race : SubStream * Sys (S:=SinkInner) :=
  let '(st, σ) := do_subscribe (Filter_channel room) None false σ0 in
  let σ := (do_publish 10 tick None σ).2 in
  let σ := (do_publish 20 durable1 None σ).2 in
  let '(b, r) := drain_batch (rt σ) in
  (st, do_append (MkSys r (sk σ) b [] (log σ) (got σ))).
Lemma empty_ring_subscriber_loses_an_event :
  let received := from_option mq_buf [] (sub_chans (rt race.2) !! ss_id race.1) in
  ids received = [MkId 50; MkId 11] ∧
  option_map ids (stream_yield 2 race.1 (λ _ g, (sink_page room g page_size (sk race.2)).1) received)
    = Some [MkId 11].
Proof. vm_compute. split; reflexivity. Qed.

(** ** Two arrivals of one frame, the first of which fails

    The first arrival has marked the id and probed the sink; the second is told
    [Duplicate]; the first then finds the write-behind queue full and unmarks.
    The event is in no ring and no sink. *)
Definition full_cfg : RouterConfig := MkRouterConfig 4 1 1048576 8 1 30000.
Definition full_router : RouterInner := (publish_from 5 durable2 None (EventRouter_new full_cfg src)).2.
Definition first_marked : RouterInner := (mark_id (event_id durable1) full_router).2.
Lemma duplicate_of_a_failed_arrival :
  (mark_id (event_id durable1) full_router).1 = true ∧
  publish_if_new 10 durable1 (first_marked, InMemoryDurableSink_new) =
    (Ok Duplicate, (first_marked, InMemoryDurableSink_new)) ∧
  (publish_from 10 durable1 None first_marked).1 = Err WriteBehindSaturated ∧
  ids (ring_envs (BusRouter.ring (chan room (publish_from 10 durable1 None first_marked).2))) = [MkId 12].
Proof. vm_compute. split_and!; reflexivity. Qed.

(** ** The window is shorter than a stalled sink

    A durable event is still queued for the sink when 4096 other publishes have
    rolled its id off the window; the same frame arriving again is published, and
    delivered to subscribers, a second time. *)
Definition fillers : list (N * Envelope * option PeerId) :=
  (λ i, (20%N, with_event_id (MkId (N.of_nat i)) tick, None)) <$> List.seq 1000 window.
Definition pending_router : RouterInner := (publish_from 10 durable1 None router0).2.
Definition stalled : RouterInner := publish_all fillers pending_router.

(** Publishing non-durable events with new ids: each is accepted. *)
Lemma publish_all_fresh l r :
  shards_ok r → recent_ok (recent_ids r) →
  Forall (λ x, is_durable (delivery x.1.2) = false) l →
  NoDup (order (recent_ids r) ++ ((λ x, event_id x.1.2) <$> l)) →
  let r' := publish_all l r in
  shards_ok r' ∧ recent_ok (recent_ids r') ∧ write_behind r' = write_behind r ∧ reserved r' = reserved r ∧
  order (recent_ids r') = last_n window (order (recent_ids r) ++ ((λ x, event_id x.1.2) <$> l)).
Proof.
  revert r. induction l as [|[[now e] o] l IH]; intros r Hs Hok Hl Hn.
  - cbn. split_and!; [done..|]. rewrite app_nil_r. unfold last_n. pose proof (rc_size _ Hok).
    by replace (length (order (recent_ids r)) - window)%nat with 0%nat by lia.
  - apply list.Forall_cons in Hl as [He Hl]. cbn in He. pose proof (publish_from_spec now e o r Hs) as Hp.
    unfold publish_all. cbn [foldl fst snd]. fold (publish_all l (publish_from now e o r).2).
    destruct (publish_from now e o r) as [[q|err] r1]; [|destruct Hp; congruence]. destruct Hp as [_ Hp].
    destruct (recent_insert_spec (event_id e) (recent_ids r) Hok) as (_ & Ho & Hok1).
    cbn [fmap list_fmap fst snd] in *. apply list.NoDup_app in Hn as (Hn1 & Hdis & Hn2).
    assert (event_id e ∉ order (recent_ids r)) as Hnin by (intros Hin; apply (Hdis _ Hin); by left).
    rewrite decide_False in Ho by done. rewrite <- (po_recent _ _ _ _ Hp) in Ho, Hok1.
    assert (length (order (recent_ids r)) ≤ window)%nat as Hlen by apply Hok.
    assert (write_behind r1 = write_behind r) as Hwb.
    { pose proof (po_queue _ _ _ _ Hp) as Hq. rewrite He, app_nil_r in Hq.
      pose proof (po_cap _ _ _ _ Hp). pose proof (po_open _ _ _ _ Hp).
      destruct (write_behind r1), (write_behind r). cbn in *. congruence. }
    destruct (IH r1) as (A & B & C & D & E); [apply Hp|done|done| |].
    + rewrite Ho. change (event_id e :: ?x) with ([event_id e] ++ x) in *.
      eapply sublist_NoDup; [|apply sublist_app; [apply sublist_drop|reflexivity]].
      rewrite <- app_assoc. apply list.NoDup_app. done.
    + split_and!; [done|done|by rewrite C|by rewrite D, (po_reserved _ _ _ _ Hp)|].
      rewrite E, Ho. set (Y := _ <$> l).
      rewrite (cons_middle (event_id e) (order (recent_ids r)) Y), app_assoc.
      set (X := order (recent_ids r) ++ [event_id e]). unfold last_n.
      rewrite !length_app, length_drop.
      assert (length X ≤ Datatypes.S window)%nat as HX by (unfold X; rewrite length_app; cbn; lia).
      destruct (decide (length X ≤ window)%nat).
      * replace (length X - window)%nat with 0%nat by lia. cbn [drop]. f_equal. lia.
      * replace (length X - window)%nat with 1%nat by lia.
        replace (length X + length Y - window)%nat with (Datatypes.S (length Y))%nat by lia.
        destruct X as [|x X']; [cbn in *; lia|]. cbn [drop app]. f_equal. cbn in *. lia.
Qed.

Lemma unpersisted_event_published_twice :
  ids (mq_buf (write_behind stalled)) = [MkId 11] ∧
  ∃ q, (publish_if_new 30 durable1 (stalled, InMemoryDurableSink_new)).1 = Ok (Published q).
Proof.
  assert (order (recent_ids pending_router) = [MkId 11]) as Hord by (vm_compute; reflexivity).
  assert (length fillers = window) as Hlen by (unfold fillers; by rewrite length_fmap, List.length_seq).
  assert (((λ x : N * Envelope * option PeerId, event_id x.1.2) <$> fillers) =
    (λ i, MkId (N.of_nat i)) <$> List.seq 1000 window) as Hids by (unfold fillers; by rewrite <- list_fmap_compose).
  unfold stalled. destruct (publish_all_fresh fillers pending_router) as (Hs & Hok & Hw & Hr & Ho).
  - by vm_compute.
  - split; [rewrite Hord; apply NoDup_singleton|vm_compute; reflexivity|rewrite Hord; cbn; pose proof window_pos; lia].
  - unfold fillers. apply Forall_fmap, list.Forall_true. done.
  - rewrite Hord, Hids. apply list.NoDup_app. split_and!; [apply NoDup_singleton| |].
    + intros x ->%list_elem_of_singleton (i & Hi & Hin)%list_elem_of_fmap. injection Hi as Hi.
      apply list_elem_of_In, in_seq in Hin. lia.
    + apply NoDup_fmap_2; [|apply NoDup_ListNoDup, seq_NoDup]. intros i j [= ?]. lia.
  - revert Hs Hok Hw Hr Ho. generalize (publish_all fillers pending_router) as r. intros r Hs Hok Hw Hr Ho.
    split; [rewrite Hw; vm_compute; reflexivity|].
    assert (event_id durable1 ∉ order (recent_ids r)) as Hnin.
    { rewrite Ho, Hord, Hids. unfold last_n. rewrite length_app, length_fmap, List.length_seq. cbn [length app].
      replace (1 + window - window)%nat with 1%nat by lia. cbn [drop].
      intros (i & Hi & Hin)%list_elem_of_fmap. injection Hi as Hi. apply list_elem_of_In, in_seq in Hin. lia. }
    assert (reserved r = 0%nat) as Hr0 by (rewrite Hr; by vm_compute).
    clear Ho Hlen Hids Hr Hord.
    destruct (publish_if_new 30 durable1 (r, InMemoryDurableSink_new)) as [res [r' s']] eqn:E.
    pose proof (publish_if_new_exact 30 durable1 None r InMemoryDurableSink_new res r' s' Hs Hok
      (proj1 (mem_initial_ok src)) E) as [_ Hres]. cbn [fst].
    destruct res as [[q|]|err]; [by eexists| |].
    + destruct Hres as [[Hin|(c & x & Hx & _)] _].
      * destruct (Hnin (proj1 (seen_order _ _ Hok) Hin)).
      * change (x ∈ bucket_of InMemoryDurableSink_new c) in Hx. by apply elem_of_nil in Hx.
    + exfalso. revert E. unfold publish_if_new, publish_if_new_from, mark_id. cbn [fst snd].
      destruct (recent_insert_spec (event_id durable1) (recent_ids r) Hok) as (Hb & _).
      rewrite bool_decide_true in Hb by done. destruct (recent_insert _ _) as [b w]. cbn in Hb. subst b.
      cbn [negb]. unfold on_sink, on_router. cbn [fst snd].
      change (contains (event_id durable1) InMemoryDurableSink_new) with
        (Ok (E:=BusError) false, InMemoryDurableSink_new). cbn [fst snd].
      unfold publish_from, reserve. cbn [write_behind reserved]. change (is_durable (delivery durable1)) with true.
      cbv beta iota. 
      match goal with |- context [mq_open ?q] => change q with (write_behind r) end.
      rewrite Hw. 
      match goal with |- context [(_ + ?x)%nat] => change x with (reserved r) end. rewrite Hr0.
      change (negb (mq_open (write_behind pending_router))) with false.
      change (length (mq_buf (write_behind pending_router)) + 0 <? mq_cap (write_behind pending_router))%nat with true.
      cbv beta iota. by destruct (stamp _ _ _).
Qed.

(** ** A coalesced offer with no wake

    The wake queue is full of other items; the offer's value goes to the map and
    is counted as superseded, but no wake of its key is queued: draining the queue
    never sends it. *)
Definition wake (e : Envelope) : ForwardItem := MkForwardItem e None.
Definition beat : Envelope :=
  with_coalesce_key (str "presence:alice")
    (Envelope_new (MkId 60) room (MkId 1, MkId 1) KSignal EphemeralLatest [0%N]).
Definition stranded_ops : list fwd_op :=
  [FwdOffer (wake durable1); FwdOffer (wake beat); FwdTake; FwdTake].
Lemma coalesced_offer_stranded :
  let '(out, r) := fwd_run stranded_ops (set_forward_sink 1 router0) in
  out = [wake durable1] ∧ waiting r = [] ∧ pending (forward_latest r) = 1%nat ∧
  forward_drop_count r = 0%N ∧ ephemeral_superseded_count r = 1%N.
Proof. vm_compute. split_and!; reflexivity. Qed.

(** ** A count that loses a stored event

    [count_matching] reads the sink's head before the writer stores the event, and
    the ring after the writer has unpinned it and a newer event has evicted it:
    the event, accepted before the count began, is in neither part.  Uninterrupted
    the count is one. *)
Import MatchScenario.
Definition counted_through : Cursor := cursor (stamped 10 (said 11) (rt σ0)).
Definition early_range : Cursor := durable_through start_cursor counted_through (cursor <$> last (bucket_of (sk σ1) room)).
Lemma interleaved_count_misses_an_event :
  (count_matching room start_cursor counted_through HfAny None (rt σ1, sk σ1)).1
    = Ok (MkHistoryCount 1 (Some 10%N) (Some 10%N) false) ∧
  is_after early_range start_cursor = false ∧
  count_pending room start_cursor counted_through early_range HfAny None (rt σ3) = HistoryCount_default.
Proof. vm_compute. split_and!; reflexivity. Qed.
