(* ===== verification/ProtoSession.v ===== *)
(** The symmetric half of the stream plane, [airc-protocol/src/session.rs]:
    directional keys, the sealing counter that is the nonce, and the sliding
    replay window.

    ChaCha20-Poly1305 and HKDF-SHA256 are other crates: the class [StreamCrypto]
    gives their functions, [StreamCryptoLaws] what this code relies on. *)
From stdpp Require Import base strings list numbers.
From Stdlib Require Import Lia.
From S2P Require Import Prelude.

(** Big-endian bytes, [to_be_bytes] of a [w]-byte integer. *)
Fixpoint be_bytes (w : nat) (n : N) : list N :=
  match w with
  | O => []
  | S w => ((n / 256 ^ N.of_nat w) mod 256)%N :: be_bytes w n
  end.
(** [a << n] of a [u64], [n < 64]. *)
Definition shl64 (a n : N) : N := (N.shiftl a n mod u64_modulus)%N.

Class StreamCrypto := {
  hkdf_sha256 : list N → list N → list N → nat → option (list N);    (* salt, secret, info, length *)
  aead_encrypt : list N → list N → list N → list N → option (list N); (* key, nonce, aad, message *)
  aead_decrypt : list N → list N → list N → list N → option (list N); (* key, nonce, aad, ciphertext *)
}.
Class StreamCryptoLaws `{!StreamCrypto} := {
  (** HKDF-Expand fails only past 255 blocks. *)
  hkdf_total salt ikm info n : n ≤ 255 * 32 → is_Some (hkdf_sha256 salt ikm info n);
  aead_correct key nonce aad msg c :
    aead_encrypt key nonce aad msg = Some c → aead_decrypt key nonce aad c = Some msg;
}.

Inductive SessionRole := Initiator | Responder.
Inductive SessionError := AeadFailed | Replay | CounterExhausted | KeyDerivation.
#[export] Instance SessionRole_eq : EqDecision SessionRole. Proof. solve_decision. Defined.
#[export] Instance SessionError_eq : EqDecision SessionError. Proof. solve_decision. Defined.
Record SealedFrame := MkSealedFrame { fr_counter : N; ciphertext : list N }.
#[export] Instance SealedFrame_eq : EqDecision SealedFrame. Proof. solve_decision. Defined.

(** ** The replay window *)
Definition WINDOW_BITS : N := 64.
Record ReplayWindow := MkWindow { highest : N; seen : N; armed : bool }.
#[export] Instance ReplayWindow_eq : EqDecision ReplayWindow. Proof. solve_decision. Defined.
Definition ReplayWindow_default : ReplayWindow := MkWindow 0 0 false.

Definition would_accept (self : ReplayWindow) (ctr : N) : bool :=
  if negb (armed self) || (highest self <? ctr)%N then true
  else
    let diff := (highest self - ctr)%N in
    if (WINDOW_BITS <=? diff)%N then false
    else (N.land (seen self) (shl64 1 diff) =? 0)%N.

Definition record (self : ReplayWindow) (ctr : N) : ReplayWindow :=
  if negb (armed self) then MkWindow ctr 1 true
  else if (highest self <? ctr)%N then
    let shift := (ctr - highest self)%N in
    let shifted := if (WINDOW_BITS <=? shift)%N then 0%N else shl64 (seen self) shift in
    MkWindow ctr (N.lor shifted 1) (armed self)
  else
    let diff := (highest self - ctr)%N in
    if (diff <? WINDOW_BITS)%N
    then MkWindow (highest self) (N.lor (seen self) (shl64 1 diff)) (armed self)
    else self.

(** ** The session *)
Record StreamSession := MkSession {
  seal_key : list N;
  open_key : list N;
  seal_ctr : N;
  window : ReplayWindow;
}.
#[export] Instance eta_StreamSession : Eta StreamSession :=
  λ s, MkSession (seal_key s) (open_key s) (seal_ctr s) (window s).
#[export] Instance StreamSession_eq : EqDecision StreamSession. Proof. solve_decision. Defined.

Definition nonce_from_counter (counter : N) : list N := replicate 4 0%N ++ be_bytes 8 counter.

Section session.
Context `{!StreamCrypto}.

Definition expand_key (salt ikm info : list N) : result SessionError (list N) :=
  ok_or KeyDerivation (hkdf_sha256 salt ikm info 32).

Definition info_i2r : list N := str "airc stream v1 i2r".
Definition info_r2i : list N := str "airc stream v1 r2i".
Definition derive (shared transcript : list N) (role : SessionRole) : result SessionError StreamSession :=
  key_i2r ← expand_key transcript shared info_i2r;
  key_r2i ← expand_key transcript shared info_r2i;
  let '(seal_bytes, open_bytes) :=
    match role with Initiator => (key_i2r, key_r2i) | Responder => (key_r2i, key_i2r) end in
  Ok (MkSession seal_bytes open_bytes 0 ReplayWindow_default).

Definition seal (aad plaintext : list N) : ST StreamSession SessionError SealedFrame := λ s,
  let counter := seal_ctr s in
  if (counter + 1 <? u64_modulus)%N then
    let s := s <| seal_ctr := (counter + 1)%N |> in
    match aead_encrypt (seal_key s) (nonce_from_counter counter) aad plaintext with
    | Some ciphertext => (Ok (MkSealedFrame counter ciphertext), s)
    | None => (Err AeadFailed, s)
    end
  else (Err CounterExhausted, s).

Definition open (frame : SealedFrame) (aad : list N) : ST StreamSession SessionError (list N) := λ s,
  match aead_decrypt (open_key s) (nonce_from_counter (fr_counter frame)) aad (ciphertext frame) with
  | None => (Err AeadFailed, s)
  | Some plaintext =>
      if would_accept (window s) (fr_counter frame)
      then (Ok plaintext, s <| window := record (window s) (fr_counter frame) |>)
      else (Err Replay, s)
  end.
End session.

(** A caller that makes the calls [ops] one after another, whatever each returns. *)
Fixpoint run_all {S E A} (ops : list (ST S E A)) (s : S) : list (result E A) * S :=
  match ops with
  | [] => ([], s)
  | op :: ops =>
      let '(r, s) := op s in
      let '(rs, s) := run_all ops s in
      (r :: rs, s)
  end.
