(* ===== verification/ProtoSessionThms.v ===== *)
(** Correctness of the stream session: the replay window accepts exactly the
    unseen counters within reach, no nonce is used twice, and a stream of sealed
    frames delivered in any order opens each frame once. *)
From stdpp Require Import base strings list numbers sets sorting.
From Stdlib Require Import Lia.
From S2P Require Import Prelude.
From S2P Require Import ProtoSession.

(** ** Bytes and bits *)
Lemma be_bytes_length w n : length (be_bytes w n) = w.
Proof. induction w; cbn; lia. Qed.

Lemma be_bytes_inj w a b :
  be_bytes w a = be_bytes w b → (a mod 256 ^ N.of_nat w = b mod 256 ^ N.of_nat w)%N.
Proof.
  induction w as [|w IH]; intros H; [by rewrite !N.mod_1_r|].
  cbn [be_bytes] in H. injection H as H1 H2. apply IH in H2.
  rewrite Nat2N.inj_succ, N.pow_succ_r', (N.mul_comm 256).
  by rewrite !N.Div0.mod_mul_r, H2, H1.
Qed.

Lemma be_bytes_inj_small w a b :
  (a < 256 ^ N.of_nat w)%N → (b < 256 ^ N.of_nat w)%N → be_bytes w a = be_bytes w b → a = b.
Proof. intros Ha Hb H%be_bytes_inj. by rewrite !N.mod_small in H. Qed.

Lemma nonce_inj a b : is_u64 a → is_u64 b → nonce_from_counter a = nonce_from_counter b → a = b.
Proof. intros Ha Hb [_ H]%app_inj_1; [|done]. by apply be_bytes_inj_small in H. Qed.

Lemma shl64_testbit a n i :
  N.testbit (shl64 a n) i = (bool_decide (i < 64)%N && bool_decide (n ≤ i)%N && N.testbit a (i - n)).
Proof.
  unfold shl64. change u64_modulus with (2 ^ 64)%N. case_bool_decide.
  - rewrite N.mod_pow2_bits_low by done. case_bool_decide; cbn.
    + by rewrite N.shiftl_spec_high'.
    + by rewrite N.shiftl_spec_low by lia.
  - by rewrite N.mod_pow2_bits_high by lia.
Qed.

Lemma land_bit s d : (d < 64)%N → (N.land s (shl64 1 d) =? 0)%N = negb (N.testbit s d).
Proof.
  intros Hd. destruct (N.testbit s d) eqn:E; cbn.
  - apply N.eqb_neq. intros H0. assert (N.testbit (N.land s (shl64 1 d)) d = false) as Hf by by rewrite H0.
    rewrite N.land_spec, E, shl64_testbit, !bool_decide_true, N.sub_diag in Hf by lia. done.
  - apply N.eqb_eq, N.bits_inj_0. intros i. rewrite N.land_spec, shl64_testbit.
    destruct (decide (i = d)) as [->|Hne]; [by rewrite E|].
    rewrite andb_false_iff. right. rewrite !andb_false_iff.
    destruct (decide (d ≤ i)%N); [right|left; right; by apply bool_decide_eq_false].
    destruct (i - d)%N eqn:E'; [lia|]. done.
Qed.

(** ** The replay window *)
(** A run of the window over offered counters: those accepted, newest first. *)
Definition accept_step (s : list N * ReplayWindow) (c : N) : list N * ReplayWindow :=
  if would_accept s.2 c then (c :: s.1, record s.2 c) else s.
Definition window_run (cs : list N) : list N * ReplayWindow :=
  foldl accept_step ([], ReplayWindow_default) cs.

(** What the window means: a counter is fresh when it was not accepted before
    and no accepted counter is 64 or more above it. *)
Definition fresh_counter (acc : list N) (c : N) : Prop := c ∉ acc ∧ ∀ a, a ∈ acc → (a < c + 64)%N.
#[export] Instance fresh_counter_dec acc c : Decision (fresh_counter acc c).
Proof.
  refine (cast_if (decide (c ∉ acc ∧ Forall (λ a, (a < c + 64)%N) acc)));
    abstract (unfold fresh_counter; rewrite list.Forall_forall in *; done).
Defined.

Definition window_inv (acc : list N) (w : ReplayWindow) : Prop :=
  if armed w then
    highest w ∈ acc ∧ (∀ a, a ∈ acc → (a ≤ highest w)%N) ∧
    ∀ d, N.testbit (seen w) d = true ↔ ((d < 64)%N ∧ (d ≤ highest w)%N ∧ (highest w - d)%N ∈ acc)
  else acc = [].

Lemma would_accept_iff acc w c : window_inv acc w → would_accept w c = true ↔ fresh_counter acc c.
Proof.
  unfold window_inv, would_accept, fresh_counter. destruct (armed w); cbn; [|intros ->; set_solver].
  intros (Hin & Hmax & Hbits). destruct (N.ltb_spec (highest w) c) as [Hlt|Hge]; cbn.
  { split; [|done]. intros _. split; [intros Hc; apply Hmax in Hc; lia|]. intros a Ha. apply Hmax in Ha. lia. }
  unfold WINDOW_BITS. destruct (N.leb_spec 64 (highest w - c)) as [Hold|Hnew].
  { split; [done|]. intros [_ H]. apply H in Hin. lia. }
  rewrite land_bit by done. specialize (Hbits (highest w - c)%N).
  replace (highest w - (highest w - c))%N with c in Hbits by lia.
  destruct (N.testbit (seen w) (highest w - c)); cbn.
  - split; [done|]. intros [Hc _]. by destruct Hc; apply Hbits.
  - split; [|done]. intros _. split.
    + intros Hc. assert (false = true) by (apply Hbits; split_and!; [done|lia|done]). done.
    + intros a Ha. apply Hmax in Ha. lia.
Qed.

Lemma record_inv acc w c : window_inv acc w → fresh_counter acc c → window_inv (c :: acc) (record w c).
Proof.
  unfold window_inv, record, fresh_counter. destruct (armed w) eqn:Ea; cbn.
  2:{ intros -> _. split_and!; [by left|set_solver|]. intros d. rewrite list_elem_of_singleton.
      destruct d as [|p]; cbn; [|destruct p]; (split; [try done|intros (_ & ? & ?); try done; lia]).
      intros _. split_and!; lia. }
  intros (Hin & Hmax & Hbits) [Hc Hfar]. destruct (N.ltb_spec (highest w) c) as [Hlt|Hge]; cbn.
  - split_and!; [by left| |].
    { intros a [->|Ha]%elem_of_cons; [done|]. apply Hmax in Ha. lia. }
    intros d. rewrite N.lor_spec, orb_true_iff, elem_of_cons.
    assert (N.testbit 1 d = true ↔ d = 0%N) as -> by (destruct d as [|[]]; cbn; split; done || lia).
    assert (N.testbit (if (WINDOW_BITS <=? c - highest w)%N then 0 else shl64 (seen w) (c - highest w)) d = true
      ↔ (d < 64)%N ∧ (d ≤ c)%N ∧ (c - d)%N ∈ acc) as ->.
    { unfold WINDOW_BITS. destruct (N.leb_spec 64 (c - highest w)).
      - rewrite N.bits_0. split; [done|]. intros (? & ? & Ha). apply Hmax in Ha. lia.
      - rewrite shl64_testbit, !andb_true_iff, !bool_decide_eq_true, Hbits.
        split; intros; destruct_and?.
        + split_and!; [done|lia|]. by replace (c - d)%N with (highest w - (d - (c - highest w)))%N by lia.
        + pose proof (Hmax (c - d)%N ltac:(done)). split_and!; [done|lia|lia|lia|].
          by replace (highest w - (d - (c - highest w)))%N with (c - d)%N by lia. }
    split.
    + intros [(?&?&?)| ->]; [by split_and!; auto|]. split_and!; [lia|lia|left; lia].
    + intros (?&?&[?|?]); [right; lia|by left].
  - assert (highest w - c < 64)%N as Hd by (apply Hfar in Hin; lia).
    unfold WINDOW_BITS. destruct (N.ltb_spec (highest w - c) 64); [|lia]. cbn. split_and!.
    { by right. } { intros a [->|Ha]%elem_of_cons; [done|]. by apply Hmax. }
    intros d. rewrite N.lor_spec, orb_true_iff, Hbits, shl64_testbit, !andb_true_iff, !bool_decide_eq_true, elem_of_cons.
    assert (N.testbit 1 (d - (highest w - c)) = true ↔ (d ≤ highest w - c)%N) as ->.
    { destruct (d - (highest w - c))%N as [|[]] eqn:?; cbn; split; done || lia. }
    split.
    + intros [(?&?&?)|[[? ?] ?]]; [by split_and!; auto|]. split_and!; [done|lia|left; lia].
    + intros (?&?&[?|?]); [right; split_and!; lia|by left].
Qed.

Lemma window_run_inv cs : window_inv (window_run cs).1 (window_run cs).2.
Proof.
  unfold window_run. assert (window_inv [] ReplayWindow_default) as H by done. revert H.
  generalize (@nil N) ReplayWindow_default. induction cs as [|c cs IH]; intros acc w H; [done|]. cbn.
  unfold accept_step. cbn. destruct (would_accept w c) eqn:E; [|by apply IH].
  apply IH, record_inv; [done|]. by rewrite <- would_accept_iff.
Qed.

Lemma accepted_NoDup acc c : NoDup acc → fresh_counter acc c → NoDup (c :: acc).
Proof. intros Hn [Hc _]. by constructor. Qed.

(** ** Runs *)
Lemma run_all_sim {S1 S2 E A} (R : S1 → S2 → Prop) (ops1 : list (ST S1 E A)) (ops2 : list (ST S2 E A)) s1 s2 :
  Forall2 (λ op1 op2, ∀ s1 s2, R s1 s2 → (op1 s1).1 = (op2 s2).1 ∧ R (op1 s1).2 (op2 s2).2) ops1 ops2 →
  R s1 s2 → (run_all ops1 s1).1 = (run_all ops2 s2).1 ∧ R (run_all ops1 s1).2 (run_all ops2 s2).2.
Proof.
  intros H. revert s1 s2. induction H as [|op1 op2 ops1 ops2 Hop Hops IH]; intros s1 s2 HR; [done|]. cbn.
  specialize (Hop s1 s2 HR). destruct (op1 s1) as [r1 s1'], (op2 s2) as [r2 s2']. cbn in Hop.
  destruct Hop as [-> HR']. specialize (IH _ _ HR').
  destruct (run_all ops1 s1') as [rs1 t1], (run_all ops2 s2') as [rs2 t2]. cbn in *. by destruct IH as [-> ?].
Qed.

Section session.
Context `{!StreamCrypto}.

(** The specification of [open]: the state is the list of accepted counters. *)
Definition spec_open (key : list N) (frame : SealedFrame) (aad : list N) : ST (list N) SessionError (list N) :=
  λ acc,
    match aead_decrypt key (nonce_from_counter (fr_counter frame)) aad (ciphertext frame) with
    | None => (Err AeadFailed, acc)
    | Some plaintext =>
        if decide (fresh_counter acc (fr_counter frame))
        then (Ok plaintext, fr_counter frame :: acc)
        else (Err Replay, acc)
    end.

Definition opens_as (key : list N) (s : StreamSession) (acc : list N) : Prop :=
  open_key s = key ∧ window_inv acc (window s) ∧ NoDup acc.

Lemma open_spec key frame aad s acc : opens_as key s acc →
  (open frame aad s).1 = (spec_open key frame aad acc).1 ∧
  opens_as key (open frame aad s).2 (spec_open key frame aad acc).2.
Proof.
  intros (Hk & Hw & Hn). unfold open, spec_open. rewrite Hk.
  destruct (aead_decrypt _ _ _ _) as [p|]; [|done].
  pose proof (would_accept_iff acc (window s) (fr_counter frame) Hw) as Hiff.
  destruct (would_accept _ _); case_decide; cbn.
  - split; [done|]. split_and!; [done|by apply record_inv|by apply accepted_NoDup].
  - by pose proof (proj1 Hiff eq_refl).
  - by pose proof (proj2 Hiff ltac:(done)).
  - done.
Qed.

Definition open_frames (frames : list (SealedFrame * list N)) : list (ST StreamSession SessionError (list N)) :=
  (λ f, open f.1 f.2) <$> frames.

(** C36: [open] implements the accepted-set specification: over any sequence of
    frames, forged, replayed or reordered, it answers as a receiver that
    remembers every counter it accepted and takes one that is new and less than
    64 below every accepted one.  Each counter is accepted at most once, and a
    frame that does not authenticate changes nothing. *)
Theorem open_refines_accepted_set s frames :
  window s = ReplayWindow_default →
  let spec := run_all ((λ f, spec_open (open_key s) f.1 f.2) <$> frames) [] in
  (run_all (open_frames frames) s).1 = spec.1 ∧ NoDup spec.2 ∧
  ∀ frame aad, aead_decrypt (open_key s) (nonce_from_counter (fr_counter frame)) aad (ciphertext frame) = None →
    let s' := (run_all (open_frames frames) s).2 in open frame aad s' = (Err AeadFailed, s').
Proof.
  intros Hw spec. assert (opens_as (open_key s) s []) as H0 by (split_and!; [done|by rewrite Hw|constructor]).
  edestruct (run_all_sim (opens_as (open_key s)) (open_frames frames)
    ((λ f, spec_open (open_key s) f.1 f.2) <$> frames)) as [Hres Hrel]; [|exact H0|].
  { unfold open_frames. apply Forall2_fmap, Forall_Forall2_diag, Forall_true. intros f s1 acc. apply open_spec. }
  split_and!; [exact Hres|apply Hrel|].
  intros frame aad Hnone. cbn. unfold open. destruct Hrel as [-> _]. by rewrite Hnone.
Qed.

(** ** Sealing *)
Definition seal_messages (msgs : list (list N * list N)) : list (ST StreamSession SessionError SealedFrame) :=
  (λ m, seal m.1 m.2) <$> msgs.
Definition oks {E A} (rs : list (result E A)) : list A :=
  rs ≫= λ r, match r with Ok a => [a] | Err _ => [] end.

Lemma seal_ctr_step aad msg s : is_u64 (seal_ctr s) →
  let '(r, s') := seal aad msg s in
  is_u64 (seal_ctr s') ∧ seal_key s' = seal_key s ∧ (seal_ctr s ≤ seal_ctr s')%N ∧
  match r with
  | Ok f => fr_counter f = seal_ctr s ∧ (seal_ctr s < seal_ctr s')%N
  | Err CounterExhausted => seal_ctr s = u64_max ∧ s' = s
  | Err e => e = AeadFailed ∧ aead_encrypt (seal_key s) (nonce_from_counter (seal_ctr s)) aad msg = None
  end.
Proof.
  unfold seal, is_u64, u64_max. intros Hu. destruct (N.ltb_spec (seal_ctr s + 1) u64_modulus) as [Hlt|Hge].
  - destruct (aead_encrypt _ _ _ _) eqn:E; cbn; split_and!; done || lia.
  - cbn. split_and!; try done. unfold u64_modulus in *. lia.
Qed.

Lemma sealed_counters msgs s : is_u64 (seal_ctr s) →
  let '(rs, s') := run_all (seal_messages msgs) s in
  (seal_ctr s ≤ seal_ctr s')%N ∧ is_u64 (seal_ctr s') ∧
  StronglySorted N.lt (fr_counter <$> oks rs) ∧
  Forall (λ c, seal_ctr s ≤ c < seal_ctr s')%N (fr_counter <$> oks rs).
Proof.
  revert s. induction msgs as [|[aad msg] msgs IH]; intros s Hs; [cbn; split_and!; [lia|done|constructor..]|].
  cbn. pose proof (seal_ctr_step aad msg s Hs) as Hstep. destruct (seal aad msg s) as [r s1].
  destruct Hstep as (H1 & _ & Hle & Hr). specialize (IH s1 H1). unfold seal_messages in IH.
  destruct (run_all _ s1) as [rs s2]. destruct IH as (Hle2 & H2 & Hs2 & Hf2).
  assert (Forall (λ c, seal_ctr s ≤ c < seal_ctr s2)%N (fr_counter <$> oks rs)) as Hf.
  { eapply Forall_impl; [exact Hf2|]. cbn. intros. lia. }
  split_and!; [lia|done|..]; destruct r as [f|e]; cbn; try done.
  - destruct Hr as [Hc Hlt]. constructor; [done|]. eapply Forall_impl; [exact Hf2|]. cbn. rewrite Hc. intros. lia.
  - constructor; [|done]. lia.
Qed.

(** C38: a session never seals two frames under one nonce: over any sequence of
    calls, failing ones included, the frames carry strictly increasing counters
    and pairwise different nonces; at the last counter sealing is refused, and
    refused for ever, instead of wrapping. *)
Theorem nonce_never_reused s msgs :
  is_u64 (seal_ctr s) →
  let '(rs, s') := run_all (seal_messages msgs) s in
  StronglySorted N.lt (fr_counter <$> oks rs) ∧ NoDup (nonce_from_counter ∘ fr_counter <$> oks rs) ∧
  (seal_ctr s' = u64_max → ∀ aad msg, seal aad msg s' = (Err CounterExhausted, s')).
Proof.
  intros Hs. pose proof (sealed_counters msgs s Hs) as Hct. destruct (run_all _ s) as [rs s'].
  destruct Hct as (_ & Hs' & Hsort & Hbound). split_and!; [done| |].
  - rewrite list_fmap_compose. assert (Forall is_u64 (fr_counter <$> oks rs)) as Hu.
    { eapply Forall_impl; [exact Hbound|]. cbn. unfold is_u64 in *. intros. lia. }
    clear Hbound. induction Hsort as [|c cs Hcs IH Hc]; cbn; [constructor|].
    apply list.Forall_cons in Hu as [Hu1 Hu2]. constructor; [|by apply IH].
    intros (c' & He & Hin)%list_elem_of_fmap. rewrite list.Forall_forall in *.
    apply nonce_inj in He; [|done|by apply Hu2]. apply Hc in Hin. lia.
  - intros Hmax aad msg. unfold seal. by rewrite Hmax.
Qed.
End session.

(** ** A stream from end to end *)
Definition other_role (r : SessionRole) : SessionRole :=
  match r with Initiator => Responder | Responder => Initiator end.

Section stream.
Context `{!StreamCrypto, !StreamCryptoLaws}.

(** The two ends of a session: each seals under the key the other opens with. *)
Definition mirrored (s r : StreamSession) : Prop := seal_key s = open_key r ∧ open_key s = seal_key r.

Lemma derive_ok shared transcript role : ∃ s, derive shared transcript role = Ok s.
Proof.
  unfold derive, expand_key.
  destruct (hkdf_total transcript shared info_i2r 32) as [k1 ->]; [lia|].
  destruct (hkdf_total transcript shared info_r2i 32) as [k2 ->]; [lia|]. cbn.
  destruct role; eauto.
Qed.

Lemma derive_mirrored shared transcript role s r :
  derive shared transcript role = Ok s → derive shared transcript (other_role role) = Ok r →
  mirrored s r ∧ seal_ctr s = 0%N ∧ window r = ReplayWindow_default.
Proof.
  unfold derive, expand_key. destruct (hkdf_sha256 transcript shared info_i2r 32) as [k1|]; [|done].
  destruct (hkdf_sha256 transcript shared info_r2i 32) as [k2|]; [|done].
  by destruct role; intros [= <-] [= <-].
Qed.

Lemma sealed_under msgs s frames :
  (run_all (seal_messages msgs) s).1 = Ok <$> frames →
  Forall2 (λ f m, aead_encrypt (seal_key s) (nonce_from_counter (fr_counter f)) m.1 m.2 = Some (ciphertext f))
    frames msgs.
Proof.
  revert s frames. induction msgs as [|[aad msg] msgs IH]; intros s frames; cbn.
  { intros Hnil. symmetry in Hnil. apply fmap_nil_inv in Hnil as ->. constructor. }
  destruct (seal aad msg s) as [r s1] eqn:E. specialize (IH s1).
  unfold seal_messages in IH. destruct (run_all _ s1) as [rs s2]. cbn in *. intros Hf.
  destruct frames as [|f frames]; [done|]. cbn in Hf. injection Hf as -> Hrs.
  apply IH in Hrs. unfold seal in E. case_match; [|done].
  destruct (aead_encrypt _ _ _ _) eqn:Ee; [|done]. injection E as <- <-. by constructor.
Qed.

(** What a delivery of a sealed message must give. *)
Definition verdict (d : SealedFrame * (list N * list N)) : ST (list N) SessionError (list N) := λ acc,
  if decide (fresh_counter acc (fr_counter d.1)) then (Ok d.2.2, fr_counter d.1 :: acc) else (Err Replay, acc).

(** The two ends of a derived session carry a stream: whatever the sender
    seals, delivered in any order, any number of times or not at all, each frame
    opens to the message sealed in it the first time it arrives, unless a frame
    64 or more ahead came first; every other arrival is refused as a replay. *)
Theorem sealed_stream_opens_once shared transcript role sender receiver msgs frames ds :
  derive shared transcript role = Ok sender →
  derive shared transcript (other_role role) = Ok receiver →
  (run_all (seal_messages msgs) sender).1 = Ok <$> frames →
  Forall (λ d, d ∈ zip frames msgs) ds →
  (run_all (open_frames ((λ d, (d.1, d.2.1)) <$> ds)) receiver).1 = (run_all (verdict <$> ds) []).1.
Proof.
  intros Hs Hr Hseal Hds. destruct (derive_mirrored _ _ _ _ _ Hs Hr) as ([Hkey _] & _ & Hw).
  apply sealed_under in Hseal. rewrite Hkey in Hseal.
  edestruct (run_all_sim (opens_as (open_key receiver)) (open_frames ((λ d, (d.1, d.2.1)) <$> ds)) (verdict <$> ds)
    receiver []) as [Hres _]; [| |exact Hres].
  2:{ split_and!; [done|by rewrite Hw|constructor]. }
  unfold open_frames. rewrite <- list_fmap_compose. apply Forall2_fmap, Forall_Forall2_diag.
  eapply Forall_impl; [exact Hds|]. cbn. intros [f [aad msg]] Hin s acc Ho.
  pose proof (open_spec (open_key receiver) f aad s acc Ho) as Hopen. unfold spec_open in Hopen.
  apply list_elem_of_lookup in Hin as [i Hi]. apply lookup_zip_with_Some in Hi as (? & ? & [= <- <-] & Hf & Hm).
  eapply Forall2_lookup_lr in Hseal; [|done..]. cbn [fst snd] in Hseal. apply aead_correct in Hseal. by rewrite Hseal in Hopen.
Qed.
End stream.

(** A toy cipher that satisfies the laws, to run the model with. *)
Module ToyStream.
Definition toy_decrypt (key nonce aad c : list N) : option (list N) :=
  let tag := key ++ nonce ++ aad in
  if decide (take (length tag) c = tag) then Some (drop (length tag) c) else None.
#[export] Instance crypto : StreamCrypto := {|
  hkdf_sha256 salt ikm info n := Some (info ++ salt ++ ikm);
  aead_encrypt key nonce aad msg := Some ((key ++ nonce ++ aad) ++ msg);
  aead_decrypt := toy_decrypt;
|}.
#[export] Instance laws : StreamCryptoLaws.
Proof.
  split; [cbn; eauto|]. intros key nonce aad msg c [= <-]. cbn. unfold toy_decrypt.
  rewrite take_app_length, decide_True by done. by rewrite drop_app_length.
Defined.

Definition session (role : SessionRole) : StreamSession :=
  match derive [7%N] [1%N] role with Ok s => s | Err _ => MkSession [] [] 0 ReplayWindow_default end.
Definition msgs : list (list N * list N) := [([1], [10; 11]); ([2], [20]); ([3], [30])]%N.
Definition frames : list SealedFrame := oks (run_all (seal_messages msgs) (session Initiator)).1.

Lemma open_refines_accepted_set_witness :
  let fs := (λ f, (f, [2%N])) <$> (frames ++ frames) in
  (run_all (open_frames fs) (session Responder)).1
  = [Err AeadFailed; Ok [20%N]; Err AeadFailed; Err AeadFailed; Err Replay; Err AeadFailed].
Proof.
  intros fs. destruct (open_refines_accepted_set (session Responder) fs eq_refl) as [H _].
  etrans; [exact H|]. vm_compute. reflexivity.
Defined.

Lemma nonce_never_reused_witness :
  let s := MkSession [1%N] [2%N] (u64_max - 1) ReplayWindow_default in
  let '(rs, s') := run_all (seal_messages msgs) s in
  length (oks rs) = 1 ∧ seal_ctr s' = u64_max ∧ seal [] [] s' = (Err CounterExhausted, s').
Proof.
  intros s. pose proof (nonce_never_reused s msgs ltac:(done)) as H. cbn in H.
  destruct H as (_ & _ & H). split_and!; [done..|by apply H].
Defined.

Lemma sealed_stream_opens_once_witness :
  let ds := (λ i, zip frames msgs !! i) <$> [2; 0; 0; 1] in
  (run_all (open_frames ((λ d, (d.1, d.2.1)) <$> omap id ds)) (session Responder)).1
  = [Ok [30%N]; Ok [10; 11]%N; Err Replay; Ok [20%N]].
Proof.
  intros ds. rewrite (sealed_stream_opens_once [7%N] [1%N] Initiator (session Initiator) _ msgs frames).
  - vm_compute. reflexivity.
  - reflexivity.
  - reflexivity.
  - vm_compute. reflexivity.
  - apply (bool_decide_unpack _). vm_compute. exact I.
Defined.
End ToyStream.
