(* ===== verification/ProtoKeys.v ===== *)
(** Identity keys: the peer key registry, frame verification, identity
    assertions, attach proofs and trust rotations,
    [airc-protocol/src/{signature,keypair,assertion,addressed_attach,trust_rotation}.rs].

    Ed25519 and the serializer are other crates: the classes [Ed25519Crypto] and
    [CanonicalCbor] (the CBOR of an envelope) give their functions; a rotation's CBOR is
    written out, after RFC 8949.  [Ed25519Laws] says that a signature made
    verifies, and verifies for the signed message only. *)
From stdpp Require Import base gmap strings list numbers.
From S2P Require Import Prelude.
From S2P Require Import WorkModel.
From S2P Require Import CoreTranscript.
From S2P Require Import ProtoSession.

(** A parsed [VerifyingKey] is its 32 bytes; [ed_valid] is [from_bytes]. *)
Class Ed25519Crypto := {
  ed_valid : list N → bool;
  ed_public : list N → list N;
  ed_sign : list N → list N → list N;
  ed_verify : list N → list N → list N → bool;
  ed_verify_strict : list N → list N → list N → bool;
}.
Class Ed25519Laws `{!Ed25519Crypto} := {
  ed_public_valid k : ed_valid (ed_public k) = true;
  ed_sign_verifies k m : ed_verify_strict (ed_public k) m (ed_sign k m) = true;
  ed_strict_verifies key m s : ed_verify_strict key m s = true → ed_verify key m s = true;
  ed_sign_binds k m m' : ed_verify (ed_public k) m (ed_sign k m') = true → m = m';
}.

Definition uuid_bytes {k} (i : Id k) : list N := be_bytes 16 (uuid i).
(** [to_le_bytes]. *)
Definition le_bytes (w : nat) (n : N) : list N := reverse (be_bytes w n).

(** ** Canonical CBOR *)
Definition is_byte (b : N) : Prop := (b < 256)%N.
(** RFC 8949, section 3, with the shortest arguments, as ciborium's serializer writes it: an
    item is headed by its major type and an argument. *)
Inductive Item := Positive (n : N) | ByteString (l : list N) | Text (t : list N) | ArrayOf (n : N) | MapOf (n : N).
Definition cbor_head (major n : N) : list N :=
  let initial info := N.lor (N.shiftl major 5) info in
  if (n <? 24)%N then [initial n]
  else if (n <? 2 ^ 8)%N then initial 24%N :: be_bytes 1 n
  else if (n <? 2 ^ 16)%N then initial 25%N :: be_bytes 2 n
  else if (n <? 2 ^ 32)%N then initial 26%N :: be_bytes 4 n
  else initial 27%N :: be_bytes 8 n.
Definition cbor_item (i : Item) : list N :=
  match i with
  | Positive n => cbor_head 0 n
  | ByteString l => cbor_head 2 (N.of_nat (length l)) ++ l
  | Text t => cbor_head 3 (N.of_nat (length t)) ++ t
  | ArrayOf n => cbor_head 4 n
  | MapOf n => cbor_head 5 n
  end.
(** ** PeerKeyRegistry *)
Inductive KeyError := InvalidPublicKey.
Definition PeerKeyRegistry : Type := gmap (PeerId * N) (list N).

(** ** The body of a trust rotation *)
Record TrustRotation := MkTrustRotation {
  ro_peer_id : PeerId;
  ro_prev_pubkey : list N;
  ro_next_pubkey : list N;
  ro_sequence : N;
  ro_rotated_at_ms : N;
  ro_signature : list N;
}.
#[export] Instance eta_TrustRotation : Eta TrustRotation :=
  λ r, MkTrustRotation (ro_peer_id r) (ro_prev_pubkey r) (ro_next_pubkey r) (ro_sequence r) (ro_rotated_at_ms r)
         (ro_signature r).
Inductive RotationVerificationError :=
| InvalidPrevPubkey | RotationBadSignature | NoOpRotation | RotationEncodingFailed.

(** The payload of every field but the signature: a peer id is a UUID's sixteen bytes, a
    [[u8; 32]] a sequence of integers; writing to a [Vec] does not fail. *)
Definition rotation_items (r : TrustRotation) : list Item :=
  let key l := ArrayOf (N.of_nat (length l)) :: (Positive <$> l) in
  [MapOf 5; Text (str "peer_id"); ByteString (uuid_bytes (ro_peer_id r)); Text (str "prev_pubkey")] ++ key (ro_prev_pubkey r)
  ++ [Text (str "next_pubkey")] ++ key (ro_next_pubkey r)
  ++ [Text (str "sequence"); Positive (ro_sequence r); Text (str "rotated_at_ms"); Positive (ro_rotated_at_ms r)].
Definition canonical_rotation_bytes (r : TrustRotation) : result rstring (list N) := Ok (rotation_items r ≫= cbor_item).

(** ** Trust tiers, [airc-store/src/peer_trust.rs] *)
Inductive TrustTier := OwnMachine | OwnAccount | Friend | Untrusted.
#[export] Instance TrustTier_eq : EqDecision TrustTier. Proof. solve_decision. Defined.

(** ** Keys *)
Section keys.
Context `{!Ed25519Crypto}.

Definition enrol (peer : PeerId) (key_id : N) (pubkey : list N) : ST PeerKeyRegistry KeyError unit := λ r,
  if ed_valid pubkey then (Ok tt, <[(peer, key_id) := pubkey]> r) else (Err InvalidPublicKey, r).
Definition registry_lookup (r : PeerKeyRegistry) (peer : PeerId) (key_id : N) : option (list N) :=
  r !! (peer, key_id).
Definition remove_peer (peer : PeerId) (r : PeerKeyRegistry) : nat * PeerKeyRegistry :=
  let kept := filter (λ e, e.1.1 ≠ peer) r in
  (size r - size kept, kept).
Definition has_peer (r : PeerKeyRegistry) (peer : PeerId) : bool :=
  existsb (λ e, bool_decide (e.1.1 = peer)) (map_to_list r).
Definition has_key (r : PeerKeyRegistry) (peer : PeerId) (pubkey : list N) : bool :=
  existsb (λ e, bool_decide (e.1.1 = peer ∧ e.2 = pubkey)) (map_to_list r).
(** [find_peer] meets the entries in the map's own order, [entries]. *)
Definition find_peer (entries : list (PeerId * N * list N)) (pubkey : list N) : option (PeerId * N) :=
  head (omap (λ e, if decide (e.2 = pubkey) then Some e.1 else None) entries).

(** ** Frame verification *)
Inductive VerificationPolicy := Strict | AllowUnsigned.
Inductive VerificationError :=
| MissingSignature
| UnknownSigner (peer : PeerId)
| FrameBadSignature
| ReplyToMismatch (structured : EventId) (header : rstring)
| CanonicalEncodingFailed.

Definition HEADER_AIRC_REPLY_TO : rstring := str "airc.reply_to".

Section frames.
Context `{!JsonValue}.
(** [canonical_signed_bytes]: the CBOR bytes of every field but the signature. *)
Class CanonicalCbor := { canonical_signed_bytes : Envelope → option (list N) }.
Context `{!CanonicalCbor}.

Definition check_reply_to_consistency (e : Envelope) : result VerificationError unit :=
  match env_reply_to e, env_headers e !! HEADER_AIRC_REPLY_TO with
  | Some structured, Some header_value =>
      if decide (show_id structured = header_value) then Ok tt
      else Err (ReplyToMismatch structured header_value)
  | _, _ => Ok tt
  end.
Definition verify_ed25519 (e : Envelope) (signer : PeerId) (key_id : N) (sig : list N)
    (r : PeerKeyRegistry) : result VerificationError unit :=
  verifying_key ← ok_or (UnknownSigner signer) (registry_lookup r signer key_id);
  canonical ← ok_or CanonicalEncodingFailed (canonical_signed_bytes e);
  if ed_verify verifying_key canonical sig then Ok tt else Err FrameBadSignature.
Definition verify_frame (frame : Frame) (policy : VerificationPolicy) (r : PeerKeyRegistry)
    : result VerificationError unit :=
  let e := fr_envelope frame in
  _ ← check_reply_to_consistency e;
  match env_signature e with
  | Unsigned => match policy with Strict => Err MissingSignature | AllowUnsigned => Ok tt end
  | Ed25519 signer key_id sig => verify_ed25519 e signer key_id sig r
  end.
(** [PeerKeypair::sign_envelope]. *)
Definition sign_envelope (keypair : list N) (e : Envelope) (signer : PeerId) (key_id : N)
    : result VerificationError Signature :=
  bytes ← ok_or CanonicalEncodingFailed (canonical_signed_bytes e);
  Ok (Ed25519 signer key_id (ed_sign keypair bytes)).
End frames.

(** ** Identity assertions *)
Definition ASSERTION_DOMAIN : list N := str "airc-identity-assertion:v1".
(** [as u32] keeps the low 32 bits of a length, as [le_bytes 4] does. *)
Definition assertion_signing_bytes (context : rstring) (challenge : list N) : list N :=
  let ctx := as_bytes context in
  ASSERTION_DOMAIN ++ le_bytes 4 (N.of_nat (length ctx)) ++ ctx
    ++ le_bytes 4 (N.of_nat (length challenge)) ++ challenge.
Record IdentityAssertion := MkIdentityAssertion {
  ia_peer_id : PeerId;
  ia_key_id : N;
  ia_context : rstring;
  ia_challenge : list N;
  ia_signature : list N;
}.
Inductive AssertionError := AssertionUnknownSigner (peer : PeerId) | AssertionInvalidPublicKey | AssertionBadSignature.
Definition sign_assertion (keypair : list N) (signer : PeerId) (key_id : N) (context : rstring)
    (challenge : list N) : IdentityAssertion :=
  MkIdentityAssertion signer key_id context challenge
    (ed_sign keypair (assertion_signing_bytes context challenge)).
Definition verify_with_key (self : IdentityAssertion) (key : list N) : result AssertionError unit :=
  if ed_verify key (assertion_signing_bytes (ia_context self) (ia_challenge self)) (ia_signature self)
  then Ok tt else Err AssertionBadSignature.
Definition assertion_verify (self : IdentityAssertion) (r : PeerKeyRegistry) : result AssertionError unit :=
  key ← ok_or (AssertionUnknownSigner (ia_peer_id self)) (registry_lookup r (ia_peer_id self) (ia_key_id self));
  verify_with_key self key.
Definition verify_with_pubkey (self : IdentityAssertion) (pubkey : list N) : result AssertionError unit :=
  if ed_valid pubkey then verify_with_key self pubkey else Err AssertionInvalidPublicKey.

(** ** Attach proofs *)
Definition ATTACH_DOMAIN : list N := str "airc/addressed-attach/v1" ++ [0%N].
Record AttachChallenge := MkAttachChallenge { ac_daemon : PeerId; ac_peer : PeerId; ac_nonce : N }.
Record AttachProof := MkAttachProof { ap_key_id : N; ap_signature : list N }.
Inductive AttachAuthError := UnknownKey | InvalidSignature.
Definition attach_signed_bytes (self : AttachChallenge) (key_id : N) : list N :=
  ATTACH_DOMAIN ++ uuid_bytes (ac_daemon self) ++ uuid_bytes (ac_peer self)
    ++ be_bytes 16 (ac_nonce self) ++ be_bytes 4 key_id.
Definition attach_sign (self : AttachChallenge) (keypair : list N) (key_id : N) : AttachProof :=
  MkAttachProof key_id (ed_sign keypair (attach_signed_bytes self key_id)).
(** [Signature::from_slice] takes exactly 64 bytes. *)
Definition attach_verify (self : AttachChallenge) (proof : AttachProof) (r : PeerKeyRegistry)
    : result AttachAuthError unit :=
  key ← ok_or UnknownKey (registry_lookup r (ac_peer self) (ap_key_id proof));
  if negb (length (ap_signature proof) =? 64)%nat then Err InvalidSignature
  else if ed_verify_strict key (attach_signed_bytes self (ap_key_id proof)) (ap_signature proof)
  then Ok tt else Err InvalidSignature.

(** ** Trust rotations *)
Definition verify_rotation (r : TrustRotation) : result RotationVerificationError unit :=
  if decide (ro_prev_pubkey r = ro_next_pubkey r) then Err NoOpRotation
  else if negb (ed_valid (ro_prev_pubkey r)) then Err InvalidPrevPubkey
  else
    match canonical_rotation_bytes r with
    | Err _ => Err RotationEncodingFailed
    | Ok bytes => if ed_verify (ro_prev_pubkey r) bytes (ro_signature r) then Ok tt else Err RotationBadSignature
    end.
Definition sign_rotation (prev_keypair : list N) (peer_id : PeerId) (next_pubkey : list N) (sequence : N)
    (rotated_at_ms : N) : result rstring TrustRotation :=
  let rotation :=
    MkTrustRotation peer_id (ed_public prev_keypair) next_pubkey sequence rotated_at_ms (replicate 64 0%N) in
  bytes ← canonical_rotation_bytes rotation;
  Ok (rotation <| ro_signature := ed_sign prev_keypair bytes |>).
End keys.
