(* ===== verification/ProtoHandshake.v ===== *)
(** The handshake that signs the stream-plane session,
    [airc-protocol/src/handshake.rs].

    X25519 and SHA-256 are other crates, the class [HandshakeCrypto]; the random
    ephemeral secret of each call is an argument.  The theorems: what a signature binds,
    and the session both ends derive. *)
From stdpp Require Import base gmap strings list numbers.
From Stdlib Require Import Lia.
From S2P Require Import Prelude.
From S2P Require Import WorkModel.
From S2P Require Import CoreTranscript.
From S2P Require Import ProtoSession.
From S2P Require Import ProtoSessionThms.
From S2P Require Import ProtoKeys.

Class HandshakeCrypto := {
  x_public : list N → list N;                 (* [PublicKey::from(&secret)] *)
  x_shared : list N → list N → list N;        (* [secret.diffie_hellman(their)] *)
  was_contributory : list N → bool;
  sha256 : list N → list N;
}.
Class HandshakeLaws `{!HandshakeCrypto} := {
  x_shared_comm a b : x_shared a (x_public b) = x_shared b (x_public a);
  x_shared_contributory a b : was_contributory (x_shared a (x_public b)) = true;
  x_public_length a : length (x_public a) = 32;
}.

Definition DOMAIN_INIT : list N := str "airc-stream-handshake-v2-init".
Definition DOMAIN_RESP : list N := str "airc-stream-handshake-v1-resp".
Definition DOMAIN_TRANSCRIPT : list N := str "airc-stream-handshake-v1-transcript".

Inductive HandshakeError := HsUnknownPeer | HsBadSignature | WeakEphemeral | HsKeyDerivation | NotAddressedToMe.
#[export] Instance HandshakeError_eq : EqDecision HandshakeError. Proof. solve_decision. Defined.

Record HandshakeInit := MkInit {
  hi_peer_id : PeerId;
  hi_key_id : N;
  hi_eph_pub : list N;
  hi_to : PeerId;
  hi_issued_at_ms : N;
  hi_sig : list N;
}.
Record HandshakeResp := MkResp {
  hr_peer_id : PeerId;
  hr_key_id : N;
  hr_eph_pub : list N;
  hr_sig : list N;
}.
Record PendingHandshake := MkPending { ph_secret : list N; ph_eph_pub : list N; my_peer_id : PeerId }.
#[export] Instance HandshakeInit_eq : EqDecision HandshakeInit. Proof. solve_decision. Defined.
#[export] Instance HandshakeResp_eq : EqDecision HandshakeResp. Proof. solve_decision. Defined.

Definition init_signed_bytes (eph_pub : list N) (peer : PeerId) (key_id : N) (to : PeerId) (issued_at_ms : N) : list N :=
  DOMAIN_INIT ++ be_bytes 4 key_id ++ eph_pub ++ uuid_bytes peer ++ uuid_bytes to ++ be_bytes 8 issued_at_ms.
Definition resp_signed_bytes (resp_eph init_eph : list N) (peer : PeerId) (key_id : N) : list N :=
  DOMAIN_RESP ++ be_bytes 4 key_id ++ resp_eph ++ init_eph ++ uuid_bytes peer.

Section handshake.
Context `{!Ed25519Crypto, !HandshakeCrypto, !StreamCrypto}.

Definition transcript (init_eph resp_eph : list N) (init resp : PeerId) : list N :=
  sha256 (DOMAIN_TRANSCRIPT ++ init_eph ++ resp_eph ++ uuid_bytes init ++ uuid_bytes resp).

Definition verify_sig (r : PeerKeyRegistry) (peer : PeerId) (key_id : N) (message sig : list N)
    : result HandshakeError unit :=
  key ← ok_or HsUnknownPeer (registry_lookup r peer key_id);
  if ed_verify_strict key message sig then Ok tt else Err HsBadSignature.

Definition checked_shared (secret their_eph : list N) : result HandshakeError (list N) :=
  let shared := x_shared secret their_eph in
  if was_contributory shared then Ok shared else Err WeakEphemeral.

Definition derive_session (shared tr : list N) (role : SessionRole) : result HandshakeError StreamSession :=
  match derive shared tr role with Ok s => Ok s | Err _ => Err HsKeyDerivation end.

Definition initiate (secret keypair : list N) (me : PeerId) (key_id : N) (to : PeerId) (issued_at_ms : N)
    : PendingHandshake * HandshakeInit :=
  let eph_pub := x_public secret in
  let sig := ed_sign keypair (init_signed_bytes eph_pub me key_id to issued_at_ms) in
  (MkPending secret eph_pub me, MkInit me key_id eph_pub to issued_at_ms sig).

Definition respond (secret keypair : list N) (me : PeerId) (key_id : N) (init : HandshakeInit)
    (r : PeerKeyRegistry) : result HandshakeError (StreamSession * HandshakeResp) :=
  _ ← verify_sig r (hi_peer_id init) (hi_key_id init)
        (init_signed_bytes (hi_eph_pub init) (hi_peer_id init) (hi_key_id init) (hi_to init) (hi_issued_at_ms init))
        (hi_sig init);
  if decide (hi_to init ≠ me) then Err NotAddressedToMe else
  let eph_pub := x_public secret in
  shared ← checked_shared secret (hi_eph_pub init);
  session ← derive_session shared (transcript (hi_eph_pub init) eph_pub (hi_peer_id init) me) Responder;
  let sig := ed_sign keypair (resp_signed_bytes eph_pub (hi_eph_pub init) me key_id) in
  Ok (session, MkResp me key_id eph_pub sig).

Definition pending_verify (self : PendingHandshake) (resp : HandshakeResp) (r : PeerKeyRegistry)
    : result HandshakeError unit :=
  verify_sig r (hr_peer_id resp) (hr_key_id resp)
    (resp_signed_bytes (hr_eph_pub resp) (ph_eph_pub self) (hr_peer_id resp) (hr_key_id resp)) (hr_sig resp).

Definition complete (self : PendingHandshake) (resp : HandshakeResp) (r : PeerKeyRegistry)
    : result HandshakeError StreamSession :=
  _ ← pending_verify self resp r;
  shared ← checked_shared (ph_secret self) (hr_eph_pub resp);
  derive_session shared (transcript (ph_eph_pub self) (hr_eph_pub resp) (my_peer_id self) (hr_peer_id resp)) Initiator.
End handshake.

(** ** Bytes *)
Definition is_u32 (n : N) : Prop := (n < 2 ^ 32)%N.
Definition is_u128 (n : N) : Prop := (n < 2 ^ 128)%N.

Lemma be_app_inj w a b x y :
  be_bytes w a ++ x = be_bytes w b ++ y → (a < 256 ^ N.of_nat w)%N → (b < 256 ^ N.of_nat w)%N → a = b ∧ x = y.
Proof.
  intros [H ->]%app_inj_1 Ha Hb; [|by rewrite !be_bytes_length]. by apply be_bytes_inj_small in H.
Qed.
Lemma le_app_inj w a b x y :
  le_bytes w a ++ x = le_bytes w b ++ y → (a < 256 ^ N.of_nat w)%N → (b < 256 ^ N.of_nat w)%N → a = b ∧ x = y.
Proof.
  unfold le_bytes. intros [H ->]%app_inj_1 Ha Hb; [|by rewrite !length_reverse, !be_bytes_length].
  apply (inj reverse) in H. by apply be_bytes_inj_small in H.
Qed.
Lemma uuid_app_inj {k} (a b : Id k) x y :
  is_u128 (uuid a) → is_u128 (uuid b) → uuid_bytes a ++ x = uuid_bytes b ++ y → a = b ∧ x = y.
Proof. intros Ha Hb H. apply be_app_inj in H as [H ->]; [|done..]. by apply uuid_inj in H. Qed.
Lemma uuid_bytes_length {k} (a : Id k) : length (uuid_bytes a) = 16.
Proof. apply be_bytes_length. Qed.

(** The head of a CBOR item is a prefix code, and so are the integers of a sequence. *)
Lemma initial_byte major info : (major < 8)%N → (info < 32)%N →
  N.shiftr (N.lor (N.shiftl major 5) info) 5 = major ∧ N.land (N.lor (N.shiftl major 5) info) 31 = info.
Proof.
  intros Hm Hi. assert (forallb (λ m, forallb (λ i, let b := N.lor (N.shiftl (N.of_nat m) 5) (N.of_nat i) in
    (N.shiftr b 5 =? N.of_nat m)%N && (N.land b 31 =? N.of_nat i)%N) (seq 0 32)) (seq 0 8) = true) as H by by vm_compute.
  rewrite forallb_forall in H. specialize (H (N.to_nat major)). rewrite forallb_forall in H.
  specialize (H ltac:(apply in_seq; lia) (N.to_nat info) ltac:(apply in_seq; lia)). cbn zeta in H. rewrite !N2Nat.id in H.
  by apply andb_prop in H as [?%N.eqb_eq ?%N.eqb_eq].
Qed.
Lemma cbor_head_app_inj major a b x y : (major < 8)%N → is_u64 a → is_u64 b →
  cbor_head major a ++ x = cbor_head major b ++ y → a = b ∧ x = y.
Proof.
  unfold is_u64, u64_modulus. intros Hm Ha Hb. unfold cbor_head.
  assert (∀ i j, (i < 32)%N → (j < 32)%N → N.lor (N.shiftl major 5) i = N.lor (N.shiftl major 5) j → i = j) as Hinj.
  { intros i j Hi Hj E%(f_equal (λ b, N.land b 31)). by rewrite (proj2 (initial_byte _ i Hm Hi)), (proj2 (initial_byte _ j Hm Hj)) in E. }
  repeat match goal with |- context [(?p <? ?q)%N] => destruct (N.ltb_spec p q) end; cbn [app]; intros Heq;
    pose proof (f_equal (hd 0%N) Heq) as Hh; apply (f_equal tl) in Heq as Ht; cbn [hd tl] in Hh, Ht; apply Hinj in Hh; try lia; try done.
  all: apply be_app_inj in Ht; [done|cbn; lia..].
Qed.
Lemma ints_app_inj l l' x y : Forall is_byte l → Forall is_byte l' → length l = length l' →
  ((Positive <$> l) ≫= cbor_item) ++ x = ((Positive <$> l') ≫= cbor_item) ++ y → l = l' ∧ x = y.
Proof.
  intros Hl. revert l'. induction Hl as [|b l Hb _ IH]; intros [|b' l'] Hl' Hlen H; try done.
  apply list.Forall_cons in Hl' as [Hb' Hl']. rewrite !fmap_cons in H. cbn [mbind list_bind] in H. rewrite <- !app_assoc in H.
  apply cbor_head_app_inj in H as [-> H]; [|unfold is_byte, is_u64, u64_modulus in *; lia..].
  apply IH in H as [-> ->]; [done|done|]. by injection Hlen.
Qed.

(** UTF-8 is a prefix code. *)
Definition is_char (c : N) : Prop := (c < 1114112)%N.
(** The base-64 digits of a character, as linear facts. *)
Lemma char_digits c :
  (c = 64 * (c / 64) + c mod 64 ∧ c / 64 = 64 * (c / 4096) + (c / 64) mod 64 ∧
   c / 4096 = 64 * (c / 262144) + (c / 4096) mod 64 ∧
   c mod 64 < 64 ∧ (c / 64) mod 64 < 64 ∧ (c / 4096) mod 64 < 64)%N.
Proof.
  split_and!; try (by apply N.mod_lt); [by apply N.div_mod'|..].
  - replace 4096%N with (64 * 64)%N at 1 by done. rewrite <- N.Div0.div_div. apply N.div_mod'.
  - replace 262144%N with (4096 * 64)%N at 1 by done. rewrite <- N.Div0.div_div. apply N.div_mod'.
Qed.
Lemma char_utf8_inj a b x y :
  is_char a → is_char b → char_utf8 a ++ x = char_utf8 b ++ y → a = b ∧ x = y.
Proof.
  unfold is_char, char_utf8. intros Ha Hb H. pose proof (char_digits a). pose proof (char_digits b).
  destruct_and?. repeat (case_match; to_prop); cbn in H; simplify_eq;
    first [split; [lia | done] | exfalso; lia].
Qed.
Lemma as_bytes_inj s t : Forall is_char s → Forall is_char t → as_bytes s = as_bytes t → s = t.
Proof.
  revert t. induction s as [|c s IH]; intros t Hs Ht H.
  { destruct t as [|d t]; [done|]. cbn in H. unfold char_utf8 in H. by repeat case_match. }
  destruct t as [|d t]; [cbn in H; unfold char_utf8 in H; by repeat case_match|].
  apply list.Forall_cons in Hs as [Hc Hs]. apply list.Forall_cons in Ht as [Hd Ht].
  apply char_utf8_inj in H as [-> H]; [|done..]. f_equal. by apply IH.
Qed.

(** ** Taking signed bytes apart *)
Lemma resp_signed_bytes_eph re e e' p k :
  length e = 32 → length e' = 32 → resp_signed_bytes re e p k = resp_signed_bytes re e' p k → e = e'.
Proof.
  unfold resp_signed_bytes. intros He He' H. do 3 apply app_inj_1 in H as [_ H]; try done.
  apply app_inj_1 in H as [H _]; congruence.
Qed.

Ltac drop_same H := repeat match type of H with ?d ++ _ = ?d ++ _ => apply app_inj_1 in H as [_ H]; [|reflexivity] end.
Ltac peel :=
  repeat match goal with
  | H : be_bytes _ _ ++ _ = be_bytes _ _ ++ _ |- _ => apply be_app_inj in H as [? H]; [|assumption..]
  | H : le_bytes _ _ ++ _ = le_bytes _ _ ++ _ |- _ => apply le_app_inj in H as [? H]; [|assumption..]
  | H : uuid_bytes _ ++ _ = uuid_bytes _ ++ _ |- _ => apply uuid_app_inj in H as [? H]; [|assumption..]
  | H : ?d ++ _ = ?d ++ _ |- _ => apply app_inj_1 in H as [_ H]; [|reflexivity]
  | H : _ ++ _ = _ ++ _ |- _ => apply app_inj_1 in H as [? H]; [|lia]
  end.

(** ** Signed frames *)
Section frames.
Context `{!Ed25519Crypto, !Ed25519Laws, !JsonValue, !CanonicalCbor}.

Definition with_signature (s : Signature) (e : Envelope) : Envelope :=
  MkEnvelope (env_event_id e) (env_sender e) (env_sender_client e) (env_channel e) (env_target e)
    (env_lamport e) (env_occurred_at_ms e) (env_reply_to e) (env_headers e) (env_body e) (env_media e) s.
(** CBOR writes every field of the payload, a map of eleven, and the payload leaves out the
    signature. *)
Class CanonicalLaws := {
  canonical_unsigned e s : canonical_signed_bytes (with_signature s e) = canonical_signed_bytes e;
  canonical_head e b : canonical_signed_bytes e = Some b → ∃ r, b = cbor_item (MapOf 11) ++ r;
  canonical_binds e e' b : canonical_signed_bytes e = Some b → canonical_signed_bytes e' = Some b →
    e' = with_signature (env_signature e') e;
}.
Context `{!CanonicalLaws}.

(** Under either policy a frame that carries a signature made by the enrolled
    key verifies exactly when its envelope is the signed one, field for field,
    and its reply header agrees with its reply field; changing any other field
    of the envelope is always noticed. *)
Theorem signed_frame_exact k signer key_id e s r frame policy :
  registry_lookup r signer key_id = Some (ed_public k) →
  sign_envelope k e signer key_id = Ok s →
  env_signature (fr_envelope frame) = s →
  verify_frame frame policy r = Ok tt ↔
    check_reply_to_consistency e = Ok tt ∧ fr_envelope frame = with_signature s e.
Proof.
  intros Hr Hs Hsig. unfold sign_envelope in Hs. destruct (canonical_signed_bytes e) as [b|] eqn:Hb; [|done].
  injection Hs as <-. unfold verify_frame. cbn zeta. rewrite Hsig. destruct frame as [kind e']. cbn [fr_envelope] in *.
  unfold verify_ed25519. rewrite Hr. split.
  - destruct (check_reply_to_consistency e') as [[]|] eqn:Hc; [|done]. cbn.
    destruct (canonical_signed_bytes e') as [b'|] eqn:Hb'; [|done]. cbn. case_match eqn:Hv; [|done].
    intros _. apply ed_sign_binds in Hv as ->. pose proof (canonical_binds e e' b Hb Hb') as He.
    rewrite Hsig in He. split; [|done]. by rewrite He in Hc.
  - intros [Hc ->]. cbn in Hc |- *.
    change (check_reply_to_consistency (with_signature (Ed25519 signer key_id (ed_sign k b)) e))
      with (check_reply_to_consistency e).
    rewrite Hc. cbn. rewrite canonical_unsigned, Hb. cbn.
    by rewrite ed_strict_verifies by apply ed_sign_verifies.
Qed.
End frames.

(** ** Grants, [airc-lib/src/grid_auth.rs] *)
Record MeshMembershipAttestation := MkMembership {
  mm_subject : PeerId;
  mm_subject_pubkey : list N;
  mm_mesh_identity : rstring;
  mm_default_tier : TrustTier;
  mm_issued_at_ms : N;
  mm_expires_at_ms : option N;
}.
Record CapabilityGrant := MkGrant {
  cg_grantee : PeerId;
  cg_grantee_pubkey : list N;
  cg_capabilities : list rstring;
  cg_granted_in : rstring;
  cg_issued_at_ms : N;
  cg_expires_at_ms : option N;
  cg_epoch : N;
}.
(** [signing_bytes]: [serde_json::to_vec] of the bodies, which writes every field in the
    order of the declaration. *)
Class GrantJson := {
  membership_bytes : MeshMembershipAttestation → option (list N);
  grant_bytes : CapabilityGrant → option (list N);
}.
Class GrantJsonLaws `{!GrantJson} := {
  membership_head m b : membership_bytes m = Some b → ∃ r, b = str "{" ++ [34%N] ++ str "subject" ++ r;
  membership_binds m m' b : membership_bytes m = Some b → membership_bytes m' = Some b → m = m';
  grant_head g b : grant_bytes g = Some b → ∃ r, b = str "{" ++ [34%N] ++ str "grantee" ++ r;
  grant_binds g g' b : grant_bytes g = Some b → grant_bytes g' = Some b → g = g';
}.

(** ** What an identity key signs *)
Section signed.
Context `{JV : !JsonValue, CC : !CanonicalCbor, CL : !CanonicalLaws, GJ : !GrantJson, GL : !GrantJsonLaws}.

(** One value per purpose, with the fields its signature is meant to bind. *)
Inductive SignedMessage :=
| SignInit (eph : list N) (peer : PeerId) (key_id : N) (to : PeerId) (issued : N)
| SignResp (resp_eph init_eph : list N) (peer : PeerId) (key_id : N)
| SignAssertion (context : rstring) (challenge : list N)
| SignAttach (challenge : AttachChallenge) (key_id : N)
| SignEnvelope (e : Envelope)
| SignRotation (r : TrustRotation)
| SignGrant (g : CapabilityGrant)
| SignMembership (m : MeshMembershipAttestation).
Definition signed_bytes (m : SignedMessage) : option (list N) :=
  match m with
  | SignInit eph peer key_id to issued => Some (init_signed_bytes eph peer key_id to issued)
  | SignResp re ie peer key_id => Some (resp_signed_bytes re ie peer key_id)
  | SignAssertion ctx ch => Some (assertion_signing_bytes ctx ch)
  | SignAttach ch key_id => Some (attach_signed_bytes ch key_id)
  | SignEnvelope e => canonical_signed_bytes e
  | SignRotation r => match canonical_rotation_bytes r with Ok b => Some b | Err _ => None end
  | SignGrant g => grant_bytes g
  | SignMembership m => membership_bytes m
  end.
(** The Rust types of the fields; an assertion's lengths fit their prefix; an envelope and a
    rotation carry no signature yet. *)
Definition well_typed (m : SignedMessage) : Prop :=
  match m with
  | SignInit eph peer key_id to issued =>
      length eph = 32 ∧ is_u128 (uuid peer) ∧ is_u32 key_id ∧ is_u128 (uuid to) ∧ is_u64 issued
  | SignResp re ie peer key_id =>
      length re = 32 ∧ length ie = 32 ∧ is_u128 (uuid peer) ∧ is_u32 key_id
  | SignAssertion ctx ch =>
      Forall is_char ctx ∧ is_u32 (N.of_nat (length (as_bytes ctx))) ∧ is_u32 (N.of_nat (length ch))
  | SignAttach ch key_id =>
      is_u128 (uuid (ac_daemon ch)) ∧ is_u128 (uuid (ac_peer ch)) ∧ is_u128 (ac_nonce ch) ∧ is_u32 key_id
  | SignEnvelope e => env_signature e = Unsigned
  | SignRotation r =>
      is_u128 (uuid (ro_peer_id r)) ∧ length (ro_prev_pubkey r) = 32 ∧ Forall is_byte (ro_prev_pubkey r) ∧
      length (ro_next_pubkey r) = 32 ∧ Forall is_byte (ro_next_pubkey r) ∧
      is_u64 (ro_sequence r) ∧ is_u64 (ro_rotated_at_ms r) ∧ ro_signature r = replicate 64 0%N
  | SignGrant _ | SignMembership _ => True
  end.

(** The first bytes of each purpose, no two of which begin alike. *)
Definition purpose (m : SignedMessage) : list N :=
  match m with
  | SignInit _ _ _ _ _ => DOMAIN_INIT
  | SignResp _ _ _ _ => DOMAIN_RESP
  | SignAssertion _ _ => ASSERTION_DOMAIN
  | SignAttach _ _ => ATTACH_DOMAIN
  | SignEnvelope _ => cbor_item (MapOf 11)
  | SignRotation _ => cbor_item (MapOf 5)
  | SignGrant _ => str "{" ++ [34%N] ++ str "grantee"
  | SignMembership _ => str "{" ++ [34%N] ++ str "subject"
  end.
Lemma signed_bytes_purpose m b : signed_bytes m = Some b → ∃ r, b = purpose m ++ r.
Proof.
  destruct m; cbn [signed_bytes purpose]; intros H; try (injection H as <-; by eexists).
  - by apply canonical_head in H.
  - apply grant_head in H as [r' ->]. exists r'. by rewrite <- !app_assoc.
  - apply membership_head in H as [r' ->]. exists r'. by rewrite <- !app_assoc.
Qed.
Lemma own_formats_bind :
  (∀ e p k t i e' p' k' t' i', well_typed (SignInit e p k t i) → well_typed (SignInit e' p' k' t' i') →
    init_signed_bytes e p k t i = init_signed_bytes e' p' k' t' i' → SignInit e p k t i = SignInit e' p' k' t' i') ∧
  (∀ re ie p k re' ie' p' k', well_typed (SignResp re ie p k) → well_typed (SignResp re' ie' p' k') →
    resp_signed_bytes re ie p k = resp_signed_bytes re' ie' p' k' → SignResp re ie p k = SignResp re' ie' p' k') ∧
  (∀ c h c' h', well_typed (SignAssertion c h) → well_typed (SignAssertion c' h') →
    assertion_signing_bytes c h = assertion_signing_bytes c' h' → SignAssertion c h = SignAssertion c' h') ∧
  ∀ c k c' k', well_typed (SignAttach c k) → well_typed (SignAttach c' k') →
    attach_signed_bytes c k = attach_signed_bytes c' k' → SignAttach c k = SignAttach c' k'.
Proof.
  split_and!; cbn [well_typed].
  - intros e p k t i e' p' k' t' i' ? ? H. destruct_and?. unfold init_signed_bytes in H.
    rewrite <- (app_nil_r (be_bytes 8 i)), <- (app_nil_r (be_bytes 8 i')) in H. peel. congruence.
  - intros re ie p k re' ie' p' k' ? ? H. destruct_and?. unfold resp_signed_bytes in H.
    rewrite <- (app_nil_r (uuid_bytes p)), <- (app_nil_r (uuid_bytes p')) in H. peel. congruence.
  - intros c h c' h' ? ? H. destruct_and?. unfold assertion_signing_bytes in H. peel.
    match goal with He : as_bytes c = as_bytes c' |- _ => apply as_bytes_inj in He; [|done..] end. congruence.
  - intros [cd cp cn] k [cd' cp' cn'] k' ? ? H. cbn [ac_daemon ac_peer ac_nonce] in *. destruct_and?.
    unfold attach_signed_bytes in H. cbn [ac_daemon ac_peer ac_nonce] in H.
    rewrite <- (app_nil_r (be_bytes 4 k)), <- (app_nil_r (be_bytes 4 k')) in H. peel. congruence.
Qed.
Lemma rotation_binds r r' : well_typed (SignRotation r) → well_typed (SignRotation r') →
  canonical_rotation_bytes r = canonical_rotation_bytes r' → r = r'.
Proof.
  intros (H1 & H2 & H3 & H4 & H5 & H6 & H7 & H8) (H1' & H2' & H3' & H4' & H5' & H6' & H7' & H8') Heq.
  assert (rotation_items r ≫= cbor_item = rotation_items r' ≫= cbor_item) as H by (unfold canonical_rotation_bytes in Heq; congruence). clear Heq.
  destruct r as [p k n q t g], r' as [p' k' n' q' t' g']. cbn [ro_peer_id ro_prev_pubkey ro_next_pubkey ro_sequence ro_rotated_at_ms ro_signature] in *.
  unfold rotation_items in H. cbn beta zeta in H. cbn [ro_peer_id ro_prev_pubkey ro_next_pubkey ro_sequence ro_rotated_at_ms] in H.
  rewrite !bind_app in H. cbn [mbind list_bind] in H. rewrite H2, H2', H4, H4', !app_nil_r, <- !app_assoc in H.
  cbn [cbor_item] in H. rewrite !uuid_bytes_length, <- !app_assoc in H.
  drop_same H. apply uuid_app_inj in H as [-> H]; [|done..].
  drop_same H. apply ints_app_inj in H as [-> H]; [|done|done|congruence].
  drop_same H. apply ints_app_inj in H as [-> H]; [|done|done|congruence].
  drop_same H. apply cbor_head_app_inj in H as [-> H]; [|done..].
  drop_same H. rewrite <- (app_nil_r (cbor_head 0 t)), <- (app_nil_r (cbor_head 0 t')) in H.
  apply cbor_head_app_inj in H as [-> H]; [|done..]. congruence.
Qed.

(** C37: a signature of an identity key means one thing.  The library signs with it, or checks
    signatures by it of, handshakes and responses, identity assertions, attach proofs,
    frames, trust rotations, capability grants and mesh memberships; two well-typed
    messages of any of these purposes with the same signed bytes are the same message,
    field for field and purpose for purpose, so no signature made for one can be
    presented as another.  (TLS uses the key too, outside this code.) *)
Theorem signed_messages_bind m1 m2 b :
  well_typed m1 → well_typed m2 → signed_bytes m1 = Some b → signed_bytes m2 = Some b → m1 = m2.
Proof.
  intros H1 H2 S1 S2. pose proof (signed_bytes_purpose m1 b S1) as [r1 E1]. pose proof (signed_bytes_purpose m2 b S2) as [r2 E2].
  rewrite E1 in E2. destruct m1, m2; try (exfalso; revert E2; clear; cbn; discriminate); clear E1 E2 r1 r2;
    cbn [signed_bytes] in S1, S2.
  5: { pose proof (canonical_binds e e0 b S1 S2) as He. cbn [well_typed] in H1, H2. rewrite H2 in He.
       rewrite He. destruct e. cbn in H1. by subst. }
  6: { f_equal. by eapply grant_binds. }
  6: { f_equal. by eapply membership_binds. }
  5: { f_equal. apply rotation_binds; [done..|]. unfold canonical_rotation_bytes in *. congruence. }
  all: destruct own_formats_bind as (B1 & B2 & B3 & B4); first [apply B1|apply B2|apply B3|apply B4]; [done|done|congruence].
Qed.
End signed.

(** ** Honest handshakes *)
Section handshake.
Context `{!Ed25519Crypto, !Ed25519Laws, !HandshakeCrypto, !HandshakeLaws, !StreamCrypto, !StreamCryptoLaws}.

Lemma verify_sig_honest r peer key_id k m : registry_lookup r peer key_id = Some (ed_public k) →
  verify_sig r peer key_id m (ed_sign k m) = Ok tt.
Proof. intros Hr. unfold verify_sig. rewrite Hr. cbn. by rewrite ed_sign_verifies. Qed.
Lemma verify_sig_binds r peer key_id k m m' : registry_lookup r peer key_id = Some (ed_public k) →
  verify_sig r peer key_id m (ed_sign k m') = Ok tt → m = m'.
Proof.
  intros Hr. unfold verify_sig. rewrite Hr. cbn. case_match eqn:Hv; [|done]. intros _.
  by apply ed_strict_verifies, ed_sign_binds in Hv.
Qed.

(** The session two ephemeral secrets make, from either end. *)
Definition session_of (a b : list N) (init resp : PeerId) (role : SessionRole) : result HandshakeError StreamSession :=
  derive_session (x_shared a (x_public b)) (transcript (x_public a) (x_public b) init resp) role.
Lemma session_of_ok a b init resp role : ∃ s, session_of a b init resp role = Ok s.
Proof.
  unfold session_of, derive_session.
  destruct (derive_ok (x_shared a (x_public b)) (transcript (x_public a) (x_public b) init resp) role) as [s ->]. eauto.
Qed.
Lemma session_of_mirrored a b init resp s1 s2 :
  session_of a b init resp Initiator = Ok s1 → session_of a b init resp Responder = Ok s2 → mirrored s1 s2.
Proof.
  unfold session_of, derive_session. intros Hs1 Hs2.
  destruct (derive _ _ Initiator) as [|] eqn:E1; [|done]. destruct (derive _ _ Responder) as [|] eqn:E2; [|done].
  injection Hs1 as <-. injection Hs2 as <-. by destruct (derive_mirrored _ _ Initiator _ _ E1 E2) as [? _].
Qed.

(** An init made by [initiate] of the owner of [k]. *)
Definition honest_init (k : list N) (me : PeerId) (key_id : N) (to : PeerId) (a : list N) (i : HandshakeInit) : Prop :=
  hi_peer_id i = me ∧ hi_key_id i = key_id ∧ hi_to i = to ∧ hi_eph_pub i = x_public a ∧
  hi_sig i = ed_sign k (init_signed_bytes (hi_eph_pub i) me key_id to (hi_issued_at_ms i)).
(** A response to the ephemeral [e] by the owner of [k]. *)
Definition honest_resp (k : list N) (me : PeerId) (key_id : N) (b e : list N) (p : HandshakeResp) : Prop :=
  hr_peer_id p = me ∧ hr_key_id p = key_id ∧ hr_eph_pub p = x_public b ∧ length e = 32 ∧
  hr_sig p = ed_sign k (resp_signed_bytes (hr_eph_pub p) e me key_id).

Lemma initiate_honest a k me key_id to t :
  let '(p, i) := initiate a k me key_id to t in
  honest_init k me key_id to a i ∧ hi_issued_at_ms i = t ∧
  p = MkPending a (x_public a) me ∧ hi_eph_pub i = x_public a.
Proof. cbn. unfold honest_init. by split_and!. Qed.

Lemma respond_honest r k me key_id kp peer peer_key a b i :
  registry_lookup r peer peer_key = Some (ed_public kp) → honest_init kp peer peer_key me a i →
  ∃ s p, respond b k me key_id i r = Ok (s, p) ∧
    session_of a b peer me Responder = Ok s ∧ honest_resp k me key_id b (x_public a) p.
Proof.
  intros Hr (Hp & Hk & Hto & He & Hs). unfold respond. rewrite Hp, Hk, Hto, Hs.
  rewrite (verify_sig_honest r peer peer_key kp) by done. cbn. rewrite decide_False by auto.
  unfold checked_shared. rewrite He, x_shared_contributory. cbn.
  destruct (session_of_ok a b peer me Responder) as [s Hsess]. unfold session_of in Hsess.
  rewrite x_shared_comm, Hsess. cbn. eexists _, _. split_and!; [done|exact Hsess|].
  unfold honest_resp. cbn. by rewrite x_public_length.
Qed.

Lemma pending_verify_honest r me kp peer peer_key a b e p :
  registry_lookup r peer peer_key = Some (ed_public kp) → honest_resp kp peer peer_key b e p →
  pending_verify (MkPending a (x_public a) me) p r = Ok tt ↔ x_public a = e.
Proof.
  intros Hr (Hp & Hk & He & Hl & Hs). unfold pending_verify. rewrite Hp, Hk, Hs. cbn [ph_eph_pub]. split.
  - intros Hv. apply verify_sig_binds in Hv; [|done]. symmetry.
    eapply eq_sym, resp_signed_bytes_eph; [apply x_public_length|done|exact Hv].
  - intros ->. by apply verify_sig_honest.
Qed.

Lemma complete_honest r me kp peer peer_key a b p :
  registry_lookup r peer peer_key = Some (ed_public kp) → honest_resp kp peer peer_key b (x_public a) p →
  complete (MkPending a (x_public a) me) p r = session_of a b me peer Initiator.
Proof.
  intros Hr Hp. unfold complete.
  rewrite (proj2 (pending_verify_honest r me kp peer peer_key a b _ p Hr Hp) eq_refl).
  destruct Hp as (Hp & _ & He & _). unfold checked_shared. cbn. rewrite He, x_shared_contributory. cbn.
  unfold session_of. by rewrite Hp.
Qed.
End handshake.

(** Toy keys that satisfy the laws, to run the model with. *)
Module ToyKeys.
#[export] Instance ed : Ed25519Crypto := {|
  ed_valid _ := true;
  ed_public k := k;
  ed_sign k m := k ++ m;
  ed_verify key m s := bool_decide (s = key ++ m);
  ed_verify_strict key m s := bool_decide (s = key ++ m);
|}.
#[export] Instance ed_laws : Ed25519Laws.
Proof.
  split; cbn; [done|..].
  - intros k m. by apply bool_decide_eq_true.
  - done.
  - intros k m m' H%bool_decide_eq_true. by apply app_inv_head in H.
Defined.
Definition low (a : list N) : N := (default 0 (last a) mod 256)%N.
#[export] Instance dh : HandshakeCrypto := {|
  x_public a := replicate 31 0%N ++ [low a];
  x_shared a b := [low a + low b]%N;
  was_contributory _ := true;
  sha256 x := x;
|}.
#[export] Instance dh_laws : HandshakeLaws.
Proof.
  split; cbn; [|done..]. intros a b. unfold low. cbn. rewrite !N.Div0.mod_mod. f_equal. lia.
Defined.

#[export] Instance json : JsonValue := {| Json := unit; json_kind := λ _, None |}.
#[export] Instance target_eq : EqDecision MentionTarget. Proof. solve_decision. Defined.
#[export] Instance body_eq : EqDecision Body. Proof. solve_decision. Defined.
#[export] Instance media_eq : EqDecision WireMediaRef. Proof. solve_decision. Defined.
#[export] Instance target_countable : Countable MentionTarget.
Proof.
  refine (inj_countable' (λ t, match t with ToAll => inl tt | ToPeer p => inr (inl p) | ToRoom r => inr (inr r) end)
    (λ x, match x with inl _ => ToAll | inr (inl p) => ToPeer p | inr (inr r) => ToRoom r end) _). by intros [].
Defined.
#[export] Instance body_countable : Countable Body.
Proof.
  refine (inj_countable' (λ b, match b with BodyJson v => inl v | BodyBinary l => inr l end)
    (λ x, match x with inl v => BodyJson v | inr l => BodyBinary l end) _). by intros [].
Defined.
#[export] Instance media_countable : Countable WireMediaRef.
Proof.
  refine (inj_countable' (λ m, (wm_file_id m, wm_content_hash m, wm_mime m, wm_size_bytes m, wm_caption m))
    (λ '(a, b, c, d, e), MkWireMediaRef a b c d e) _). by intros [].
Defined.
Definition payload (e : Envelope) :=
  (env_event_id e, env_sender e, env_sender_client e, env_channel e, env_target e,
   env_lamport e, env_occurred_at_ms e, env_reply_to e, env_headers e, env_body e, env_media e).
#[export] Instance cbor : CanonicalCbor := {| canonical_signed_bytes e := Some [171; Npos (encode (payload e))]%N |}.
#[export] Instance cbor_laws : CanonicalLaws.
Proof.
  split; [done| |]; [intros e b [= <-]; by eexists|]. intros e e' b [= <-] [= H].
  apply (inj encode) in H. destruct e, e'. unfold payload in H. cbn in *. by simplify_eq.
Defined.

Definition envelope : Envelope :=
  MkEnvelope (MkId 5) (MkId 1) (MkId 2) (MkId 3) ToAll 1 100 None ∅ None [] Unsigned.
Definition keys : PeerKeyRegistry := {[ (MkId 1, 0%N) := [9%N] ]}.
Lemma signed_frame_exact_witness :
  let s := Ed25519 (MkId 1) 0 [9; 171; Npos (encode (payload envelope))]%N in
  verify_frame (MkFrame FkMessage (with_signature s envelope)) Strict keys = Ok tt ∧
  verify_frame (MkFrame FkMessage (with_signature s
    (MkEnvelope (MkId 5) (MkId 1) (MkId 2) (MkId 3) ToAll 1 101 None ∅ None [] Unsigned))) Strict keys ≠ Ok tt.
Proof.
  intros s. split.
  - apply (signed_frame_exact [9%N] (MkId 1) 0 envelope s keys); [reflexivity..|]. by split.
  - intros H. apply (signed_frame_exact [9%N] (MkId 1) 0 envelope s keys) in H; [|reflexivity..].
    destruct H as [_ H]. discriminate (f_equal env_occurred_at_ms H).
Defined.

#[export] Instance tier_eq : EqDecision TrustTier. Proof. solve_decision. Defined.
#[export] Instance tier_countable : Countable TrustTier.
Proof.
  refine (inj_countable' (λ t, match t with OwnMachine => 0 | OwnAccount => 1 | Friend => 2 | Untrusted => 3 end)
    (λ n, match n with 0 => OwnMachine | 1 => OwnAccount | 2 => Friend | _ => Untrusted end) _). by intros [].
Defined.
Definition membership (m : MeshMembershipAttestation) :=
  (mm_subject m, mm_subject_pubkey m, mm_mesh_identity m, mm_default_tier m, mm_issued_at_ms m, mm_expires_at_ms m).
Definition grant (g : CapabilityGrant) :=
  (cg_grantee g, cg_grantee_pubkey g, cg_capabilities g, cg_granted_in g, cg_issued_at_ms g, cg_expires_at_ms g, cg_epoch g).
#[export] Instance grant_json : GrantJson := {|
  membership_bytes m := Some ((str "{" ++ [34%N] ++ str "subject") ++ [Npos (encode (membership m))]);
  grant_bytes g := Some ((str "{" ++ [34%N] ++ str "grantee") ++ [Npos (encode (grant g))]);
|}.
#[export] Instance grant_json_laws : GrantJsonLaws.
Proof.
  split.
  - intros m b [= <-]. by eexists.
  - intros m m' b [= <-] [= H]. apply (inj encode) in H. destruct m, m'. unfold membership in H. cbn in *. by simplify_eq.
  - intros g b [= <-]. by eexists.
  - intros g g' b [= <-] [= H]. apply (inj encode) in H. destruct g, g'. unfold grant in H. cbn in *. by simplify_eq.
Defined.
Lemma signed_messages_bind_witness :
  let m := SignRotation (MkTrustRotation (MkId 7) (replicate 32 1%N) (replicate 32 200%N) 3 150 (replicate 64 0%N)) in
  let e := SignEnvelope envelope in
  ∃ b b', signed_bytes m = Some b ∧ signed_bytes e = Some b' ∧ b ≠ b'.
Proof.
  intros m e. eexists _, _. split; [reflexivity|]. split; [reflexivity|]. intros H.
  assert (m = e) as Hme; [|discriminate Hme].
  eapply (signed_messages_bind m e); [..|reflexivity|rewrite H; reflexivity].
  - split_and!; try reflexivity; apply Forall_replicate; reflexivity.
  - reflexivity.
Defined.
End ToyKeys.
