(* ===== verification/ProtoManager.v ===== *)
(** The lifecycle of the sessions with every peer,
    [airc-protocol/src/session_manager.rs].

    Every method holds the lock of the peer's entry from its first read to its
    last write, so each is one step on the manager's state.  The random secret a
    call draws is an argument; [last_issued_ms] is advanced by a
    compare-exchange loop, whose effect is the one of its final exchange.  The theorems: epochs and sessions are
    monotone, and a replayed or foreign message changes nothing until a reset. *)
From stdpp Require Import base gmap strings list numbers.
From Stdlib Require Import Lia.
From S2P Require Import Prelude.
From S2P Require Import WorkModel.
From S2P Require Import ProtoSession.
From S2P Require Import ProtoKeys.
From S2P Require Import ProtoHandshake.

Inductive SessionManagerError :=
| SmHandshake (e : HandshakeError)
| SmSession (e : SessionError)
| NoSession
| NoPendingHandshake
| Crossed
| StaleInit.
#[export] Instance SessionManagerError_eq : EqDecision SessionManagerError. Proof. solve_decision. Defined.

Record AcceptedInit := MkAccepted { ai_issued_at_ms : N; ai_eph_pub : list N; ai_resp : HandshakeResp }.
Record PeerSessionState := MkPeerState {
  session : option StreamSession;
  pending_hs : option (PendingHandshake * HandshakeInit);
  accepted : option AcceptedInit;
}.
#[export] Instance eta_PeerSessionState : Eta PeerSessionState :=
  λ s, MkPeerState (session s) (pending_hs s) (accepted s).
Definition PeerSessionState_default : PeerSessionState := MkPeerState None None None.

Record SessionManager := MkManager {
  sm_keypair : list N;
  sm_peer_id : PeerId;
  sm_key_id : N;
  registry : PeerKeyRegistry;
  peers : gmap PeerId PeerSessionState;
  last_issued_ms : N;
}.
#[export] Instance eta_SessionManager : Eta SessionManager :=
  λ s, MkManager (sm_keypair s) (sm_peer_id s) (sm_key_id s) (registry s) (peers s) (last_issued_ms s).

Definition SessionManager_new (keypair : list N) (peer_id : PeerId) (r : PeerKeyRegistry) : SessionManager :=
  MkManager keypair peer_id 0 r ∅ 0.
Definition with_key_id (key_id : N) (m : SessionManager) : SessionManager := m <| sm_key_id := key_id |>.

(** [entry(peer).or_default()]. *)
Definition peer_state (peer : PeerId) (m : SessionManager) : PeerSessionState :=
  default PeerSessionState_default (peers m !! peer).
Definition set_peer (peer : PeerId) (s : PeerSessionState) (m : SessionManager) : SessionManager :=
  m <| peers := <[peer := s]> (peers m) |>.

Definition has_session (m : SessionManager) (peer : PeerId) : bool :=
  is_some_and (peers m !! peer) (λ s, is_some (session s)).
Definition has_pending (m : SessionManager) (peer : PeerId) : bool :=
  is_some_and (peers m !! peer) (λ s, is_some (pending_hs s)).
Definition reset (m : SessionManager) : SessionManager := m <| peers := ∅ |>.
Definition pending_init (m : SessionManager) (peer : PeerId) : option HandshakeInit :=
  peers m !! peer ≫= λ s, snd <$> pending_hs s.

Section manager.
Context `{!Ed25519Crypto, !HandshakeCrypto, !StreamCrypto}.

Definition begin_handshake_inner (secret : list N) (peer : PeerId) (now_ms : N) (reuse : bool)
    (m : SessionManager) : HandshakeInit * SessionManager :=
  let state := peer_state peer m in
  match (if reuse then pending_hs state else None) with
  | Some (_, init) => (init, set_peer peer state m)
  | None =>
      let issued_at_ms := N.max now_ms (saturating_add (last_issued_ms m) 1) in
      let '(pending, init) := initiate secret (sm_keypair m) (sm_peer_id m) (sm_key_id m) peer issued_at_ms in
      (init, set_peer peer (state <| pending_hs := Some (pending, init) |>)
               (m <| last_issued_ms := issued_at_ms |>))
  end.
Definition begin_handshake (secret : list N) (peer : PeerId) (now_ms : N) (m : SessionManager)
    : HandshakeInit * SessionManager :=
  begin_handshake_inner secret peer now_ms false m.
Definition ensure_handshake (secret : list N) (peer : PeerId) (now_ms : N) (m : SessionManager)
    : HandshakeInit * SessionManager :=
  begin_handshake_inner secret peer now_ms true m.

(** The answer to an init that is not newer than the last accepted one. *)
Definition answer_old_init (state : PeerSessionState) (init : HandshakeInit)
    : option (result SessionManagerError HandshakeResp) :=
  match accepted state with
  | Some last =>
      if (hi_issued_at_ms init =? ai_issued_at_ms last)%N && bool_decide (hi_eph_pub init = ai_eph_pub last)
      then Some (Ok (ai_resp last))
      else if (hi_issued_at_ms init <=? ai_issued_at_ms last)%N then Some (Err StaleInit)
      else None
  | None => None
  end.
(** [remove_if] of an entry that holds nothing. *)
Definition drop_empty (peer : PeerId) (m : SessionManager) : SessionManager :=
  let state := peer_state peer m in
  if is_none (session state) && is_none (pending_hs state) && is_none (accepted state)
  then m <| peers := delete peer (peers m) |> else m.

Definition on_init (secret : list N) (init : HandshakeInit) : ST SessionManager SessionManagerError HandshakeResp :=
  λ m,
    let peer := hi_peer_id init in
    let state := peer_state peer m in
    let m := set_peer peer state m in
    if is_some (pending_hs state) && (uuid (sm_peer_id m) <? uuid peer)%N then (Err Crossed, m)
    else
      match answer_old_init state init with
      | Some answer => (answer, m)
      | None =>
          match respond secret (sm_keypair m) (sm_peer_id m) (sm_key_id m) init (registry m) with
          | Err error => (Err (SmHandshake error), drop_empty peer m)
          | Ok (session, resp) =>
              (Ok resp,
               set_peer peer (MkPeerState (Some session) None
                 (Some (MkAccepted (hi_issued_at_ms init) (hi_eph_pub init) resp))) m)
          end
      end.

Definition on_resp (resp : HandshakeResp) : ST SessionManager SessionManagerError unit := λ m,
  let peer := hr_peer_id resp in
  match peers m !! peer with
  | None => (Err NoPendingHandshake, m)
  | Some state =>
      match pending_hs state with
      | None => (Err NoPendingHandshake, m)
      | Some (pending, _) =>
          match pending_verify pending resp (registry m) with
          | Err e => (Err (SmHandshake e), m)
          | Ok _ =>
              let state := state <| pending_hs := None |> in
              match complete pending resp (registry m) with
              | Err e => (Err (SmHandshake e), set_peer peer state m)
              | Ok s => (Ok tt, set_peer peer (state <| session := Some s |>) m)
              end
          end
      end
  end.

(** A call on the live session of a peer. *)
Definition on_session {A} (peer : PeerId) (op : ST StreamSession SessionError A)
    : ST SessionManager SessionManagerError A := λ m,
  match peers m !! peer with
  | None => (Err NoSession, m)
  | Some state =>
      match session state with
      | None => (Err NoSession, m)
      | Some s =>
          let '(r, s) := op s in
          (match r with Ok a => Ok a | Err e => Err (SmSession e) end,
           set_peer peer (state <| session := Some s |>) m)
      end
  end.
Definition seal_for (peer : PeerId) (aad plaintext : list N) : ST SessionManager SessionManagerError SealedFrame :=
  on_session peer (seal aad plaintext).
Definition open_from (peer : PeerId) (aad : list N) (frame : SealedFrame)
    : ST SessionManager SessionManagerError (list N) :=
  on_session peer (open frame aad).
End manager.

Lemma peer_state_set p q s m :
  peer_state p (set_peer q s m) = if decide (p = q) then s else peer_state p m.
Proof.
  unfold peer_state, set_peer. cbn. case_decide as Hpq; [subst; by rewrite lookup_insert_eq|].
  by rewrite lookup_insert_ne by congruence.
Qed.
Lemma peer_state_drop p q m : peer_state p (drop_empty q m) = peer_state p m.
Proof.
  unfold drop_empty. case_match eqn:E; [|done]. rewrite !andb_true_iff in E. destruct E as [[E1 E2] E3].
  unfold peer_state at 1. cbn. destruct (decide (p = q)) as [->|Hne].
  - rewrite lookup_delete_eq. cbn. revert E1 E2 E3. destruct (peer_state q m) as [[] [] []]; done.
  - by rewrite lookup_delete_ne by congruence.
Qed.
Lemma set_peer_id p m : is_Some (peers m !! p) → set_peer p (peer_state p m) m = m.
Proof.
  intros [s Hs]. unfold set_peer, peer_state. rewrite Hs. cbn. rewrite insert_id by done. by destruct m.
Qed.
Lemma accepted_present p m a : accepted (peer_state p m) = Some a → is_Some (peers m !! p).
Proof. unfold peer_state. destruct (peers m !! p); [eauto|done]. Qed.

Section manager.
Context `{!Ed25519Crypto, !HandshakeCrypto, !StreamCrypto}.

(** The calls a transport makes on a manager, with the messages it was handed; [OReset] is
    what a restart loses, and [OKeys] a change another holder makes to the shared registry. *)
Inductive MOp :=
| OBegin (secret : list N) (peer : PeerId) (now_ms : N) (reuse : bool)
| OInit (secret : list N) (init : HandshakeInit)
| OResp (resp : HandshakeResp)
| OSeal (peer : PeerId) (aad msg : list N)
| OOpen (peer : PeerId) (aad : list N) (frame : SealedFrame)
| OReset
| OKeys (r : PeerKeyRegistry).
Definition run_op (m : SessionManager) (o : MOp) : SessionManager :=
  match o with
  | OBegin secret peer now reuse => (begin_handshake_inner secret peer now reuse m).2
  | OInit secret init => (on_init secret init m).2
  | OResp resp => (on_resp resp m).2
  | OSeal peer aad msg => (seal_for peer aad msg m).2
  | OOpen peer aad frame => (open_from peer aad frame m).2
  | OReset => reset m
  | OKeys r => m <| registry := r |>
  end.

Definition session_keys (s : PeerSessionState) : option (list N * list N) :=
  (λ x, (seal_key x, open_key x)) <$> session s.

Lemma seal_keys aad msg s : seal_key (seal aad msg s).2 = seal_key s ∧ open_key (seal aad msg s).2 = open_key s.
Proof. unfold seal. by repeat case_match. Qed.
Lemma open_keys aad f s : seal_key (open f aad s).2 = seal_key s ∧ open_key (open f aad s).2 = open_key s.
Proof. unfold open. by repeat case_match. Qed.

(** A call on the live session changes neither keys nor handshakes. *)
Lemma on_session_state {A} q (op : ST StreamSession SessionError A) p m :
  (∀ s, seal_key (op s).2 = seal_key s ∧ open_key (op s).2 = open_key s) →
  let s' := peer_state p (on_session q op m).2 in
  session_keys s' = session_keys (peer_state p m) ∧ accepted s' = accepted (peer_state p m) ∧
  pending_hs s' = pending_hs (peer_state p m).
Proof.
  intros Hop. unfold on_session. destruct (peers m !! q) as [st|] eqn:Hq; [|done].
  destruct (session st) as [s|] eqn:Hs; [|done]. specialize (Hop s). destruct (op s) as [r s']. cbn in Hop |- *.
  rewrite peer_state_set. case_decide as Hpq; [subst p|done].
  unfold peer_state. rewrite Hq. unfold session_keys. cbn. rewrite Hs. cbn. by destruct Hop as [-> ->].
Qed.

Lemma on_init_state secret init p m :
  let s := peer_state p m in
  let s' := peer_state p (on_init secret init m).2 in
  s' = s ∧ (∀ r, p = hi_peer_id init → (on_init secret init m).1 = Ok r → answer_old_init s init = Some (Ok r)) ∨
  p = hi_peer_id init ∧ answer_old_init s init = None ∧
  ∃ x resp, respond secret (sm_keypair m) (sm_peer_id m) (sm_key_id m) init (registry m) = Ok (x, resp) ∧
    (on_init secret init m).1 = Ok resp ∧
    s' = MkPeerState (Some x) None (Some (MkAccepted (hi_issued_at_ms init) (hi_eph_pub init) resp)).
Proof.
  assert (peer_state p (set_peer (hi_peer_id init) (peer_state (hi_peer_id init) m) m) = peer_state p m) as Hset.
  { rewrite peer_state_set. by case_decide; subst. }
  cbn zeta. unfold on_init. cbn [sm_peer_id sm_keypair sm_key_id registry].
  case_match; [by left|].
  destruct (answer_old_init _ init) as [ans|] eqn:Ha.
  { left. split; [done|]. intros r -> Hans. cbn in Hans. by rewrite Ha, Hans. }
  change (sm_keypair (set_peer _ _ m)) with (sm_keypair m).
  change (sm_peer_id (set_peer _ _ m)) with (sm_peer_id m).
  change (sm_key_id (set_peer _ _ m)) with (sm_key_id m). change (registry (set_peer _ _ m)) with (registry m).
  destruct (respond _ _ _ _ _ _) as [[x resp]|e] eqn:Hr; cbn [fst snd].
  - rewrite peer_state_set. case_decide as Hp; [subst p|by left]. right. split_and!; eauto.
  - left. by rewrite peer_state_drop.
Qed.

Lemma on_resp_state resp p m :
  let s := peer_state p m in
  let s' := peer_state p (on_resp resp m).2 in
  s' = s ∨
  p = hr_peer_id resp ∧ accepted s' = accepted s ∧ pending_hs s' = None ∧
  ∃ pd i, pending_hs s = Some (pd, i) ∧ pending_verify pd resp (registry m) = Ok tt ∧
    match complete pd resp (registry m) with
    | Ok x => session s' = Some x
    | Err _ => session s' = session s
    end.
Proof.
  cbn zeta. unfold on_resp. destruct (peers m !! hr_peer_id resp) as [st|] eqn:Hst; [|by left].
  assert (peer_state (hr_peer_id resp) m = st) as Hp by (unfold peer_state; by rewrite Hst).
  destruct (pending_hs st) as [[pd i]|] eqn:Hpd; [|by left].
  destruct (pending_verify pd resp _) as [[]|e] eqn:Hv; [|by left].
  destruct (decide (p = hr_peer_id resp)) as [->|Hne].
  - right. rewrite Hp. destruct (complete pd resp _) as [x|e] eqn:Hc; cbn [snd];
      rewrite peer_state_set, decide_True by done; cbn; split_and!; eauto;
      exists pd, i; rewrite Hc; done.
  - left. destruct (complete pd resp _); cbn [snd]; by rewrite peer_state_set, decide_False by done.
Qed.

Lemma begin_state secret q now reuse p m :
  let s' := peer_state p (begin_handshake_inner secret q now reuse m).2 in
  session s' = session (peer_state p m) ∧ accepted s' = accepted (peer_state p m).
Proof.
  cbn zeta. unfold begin_handshake_inner. destruct (if reuse then _ else _) as [[pd i]|]; cbn [initiate snd];
    rewrite peer_state_set; case_decide; subst; done.
Qed.

(** Whatever messages arrive, a call other than a reset, which drops all keys, installs new
    session keys for a peer only if it is an init signed by an enrolled key of that peer, addressed to
    this side and newer than every init accepted from it before, or a response
    signed by an enrolled key over the ephemeral of the handshake this side has
    pending with that peer. *)
Theorem new_session_needs_fresh_signature m o p :
  let s := peer_state p m in
  session_keys (peer_state p (run_op m o)) = session_keys s ∨
  (o = OReset ∧ session_keys (peer_state p (run_op m o)) = None) ∨
  (∃ secret i key, o = OInit secret i ∧ hi_peer_id i = p ∧ hi_to i = sm_peer_id m ∧
     registry_lookup (registry m) p (hi_key_id i) = Some key ∧
     ed_verify_strict key (init_signed_bytes (hi_eph_pub i) p (hi_key_id i) (sm_peer_id m) (hi_issued_at_ms i))
       (hi_sig i) = true ∧
     ∀ a, accepted s = Some a → (ai_issued_at_ms a < hi_issued_at_ms i)%N) ∨
  (∃ resp pd i key, o = OResp resp ∧ hr_peer_id resp = p ∧ pending_hs s = Some (pd, i) ∧
     registry_lookup (registry m) p (hr_key_id resp) = Some key ∧
     ed_verify_strict key (resp_signed_bytes (hr_eph_pub resp) (ph_eph_pub pd) p (hr_key_id resp))
       (hr_sig resp) = true).
Proof.
  cbn zeta. destruct o as [secret q now reuse|secret i|resp|q aad msg|q aad f| |r]; cbn [run_op]; [..|right; by left|by left].
  - left. unfold session_keys. by rewrite (proj1 (begin_state secret q now reuse p m)).
  - destruct (on_init_state secret i p m) as [[-> _]|(-> & Hold & x & resp & Hr & _ & _)]; [by left|].
    right; right; left. unfold respond, verify_sig in Hr.
    destruct (registry_lookup _ _ _) as [key|] eqn:Hk; [|done]. cbn in Hr.
    destruct (ed_verify_strict _ _ _) eqn:Hv; [|done]. cbn in Hr. case_decide as Hto; [done|].
    exists secret, i, key. rewrite <- Hto. split_and!; [done..|]. intros a Ha. unfold answer_old_init in Hold.
    rewrite Ha in Hold. repeat case_match; try done; to_prop; lia.
  - destruct (on_resp_state resp p m) as [->|(-> & _ & _ & pd & i & Hpd & Hv & _)]; [by left|].
    right; right; right. unfold pending_verify, verify_sig in Hv.
    destruct (registry_lookup _ _ _) as [key|] eqn:Hk; [|done]. cbn in Hv.
    destruct (ed_verify_strict _ _ _) eqn:He; [|done]. by exists resp, pd, i, key.
  - left. apply on_session_state, seal_keys.
  - left. apply on_session_state, open_keys.
Qed.

(** ** Replayed inits *)
(** The accepted init of the peer is [i], answered with [resp], or newer. *)
Definition covers (i : HandshakeInit) (resp : HandshakeResp) (s : PeerSessionState) : Prop :=
  ∃ a, accepted s = Some a ∧
    (a = MkAccepted (hi_issued_at_ms i) (hi_eph_pub i) resp ∨ (hi_issued_at_ms i < ai_issued_at_ms a)%N).

Lemma covers_step i resp m o p : o ≠ OReset → covers i resp (peer_state p m) → covers i resp (peer_state p (run_op m o)).
Proof.
  intros Ho (a & Ha & Hcov). destruct o as [secret q now reuse|secret i'|resp'|q aad msg|q aad f| |r]; cbn [run_op]; [..|done|by exists a].
  - exists a. by rewrite (proj2 (begin_state secret q now reuse p m)).
  - destruct (on_init_state secret i' p m) as [[-> _]|(_ & Hold & x & resp' & _ & _ & ->)]; [by exists a|].
    eexists. split; [done|]. right. cbn. unfold answer_old_init in Hold. rewrite Ha in Hold.
    repeat case_match; try done; to_prop. destruct Hcov as [->|?]; cbn in *; lia.
  - exists a. split; [|done]. destruct (on_resp_state resp' p m) as [->|(_ & -> & _)]; done.
  - exists a. unfold seal_for. by rewrite (proj1 (proj2 (on_session_state q (seal aad msg) p m (seal_keys aad msg)))).
  - exists a. unfold open_from. by rewrite (proj1 (proj2 (on_session_state q (open f aad) p m (open_keys aad f)))).
Qed.

Lemma on_init_covers secret i m resp m1 :
  on_init secret i m = (Ok resp, m1) → covers i resp (peer_state (hi_peer_id i) m1).
Proof.
  intros Hon. assert ((on_init secret i m).2 = m1) as <- by by rewrite Hon.
  assert ((on_init secret i m).1 = Ok resp) as Hres by by rewrite Hon.
  destruct (on_init_state secret i (hi_peer_id i) m) as [[-> Hold]|(_ & _ & x & resp' & _ & Hres' & ->)].
  - specialize (Hold resp eq_refl Hres). unfold answer_old_init in Hold.
    destruct (accepted _) as [a|] eqn:Hacc; [|done]. case_match eqn:E; [|by case_match].
    injection Hold as <-. exists a. split; [done|]. left. to_prop. destruct_and?. destruct a; cbn in *. congruence.
  - eexists. split; [done|]. left. congruence.
Qed.

Lemma covers_run i resp ops m p :
  OReset ∉ ops → covers i resp (peer_state p m) → covers i resp (peer_state p (foldl run_op m ops)).
Proof.
  revert m. induction ops as [|o ops IH]; intros m Hops Hc; [done|]. apply not_elem_of_cons in Hops as [Ho Hops].
  apply IH; [done|]. apply covers_step; [congruence|done].
Qed.

(** C29: an init acts once: after it was accepted, and whatever calls follow it on this
    manager short of a reset, presenting it again changes nothing at all and is answered
    with the response it got the first time or refused as crossed or stale.  A reset, as
    a restart, forgets it: what is presented then is answered afresh, and acts again just
    when it still verifies. *)
Theorem accepted_init_acts_once secret i m0 resp m1 ops secret' :
  on_init secret i m0 = (Ok resp, m1) →
  let m2 := foldl run_op m1 ops in
  (OReset ∉ ops → (on_init secret' i m2).2 = m2 ∧
    ((on_init secret' i m2).1 = Ok resp ∨ (on_init secret' i m2).1 = Err Crossed ∨
     (on_init secret' i m2).1 = Err StaleInit)) ∧
  (on_init secret' i (reset m2)).1 =
    match respond secret' (sm_keypair m2) (sm_peer_id m2) (sm_key_id m2) i (registry m2) with
    | Ok (_, resp') => Ok resp'
    | Err e => Err (SmHandshake e)
    end.
Proof.
  intros Hi%on_init_covers m2. split.
  - intros Hops. apply (covers_run i resp ops) in Hi as (a & Ha & Hcov); [|done]. fold m2 in Ha.
    unfold on_init. rewrite set_peer_id by by eapply accepted_present. unfold answer_old_init. rewrite Ha.
    case_match; [by auto|]. destruct Hcov as [->|Hlt]; cbn.
    + rewrite N.eqb_refl, bool_decide_true by done. by auto.
    + destruct (N.eqb_spec (hi_issued_at_ms i) (ai_issued_at_ms a)); [lia|]. cbn.
      destruct (N.leb_spec (hi_issued_at_ms i) (ai_issued_at_ms a)); [|lia]. by auto.
  - unfold on_init, peer_state, reset. cbn -[respond]. by destruct (respond _ _ _ _ _ _) as [[x r]|e].
Qed.
End manager.
