(* ===== verification/ProtoCross.v ===== *)
(** Two managers that may start handshakes with each other at any moment, over
    two in-order channels: once everything sent was delivered, both hold the same
    session.

    The steps are the manager's methods; the rest of this file is the invariant.
    A channel delivers in order and loses nothing; what a reordering
    channel does is at the end. *)
From stdpp Require Import base gmap strings list sorting numbers sets relations.
From Stdlib Require Import Lia.
From S2P Require Import Prelude.
From S2P Require Import WorkModel.
From S2P Require Import ProtoSession.
From S2P Require Import ProtoSessionThms.
From S2P Require Import ProtoKeys.
From S2P Require Import ProtoHandshake.
From S2P Require Import ProtoManager.

Inductive Msg := MInit (i : HandshakeInit) | MResp (r : HandshakeResp).
Definition inits (q : list Msg) : list HandshakeInit := omap (λ m, match m with MInit i => Some i | _ => None end) q.
Definition resps (q : list Msg) : list HandshakeResp := omap (λ m, match m with MResp r => Some r | _ => None end) q.
Record Party := MkParty { pt_keypair : list N; pt_id : PeerId; pt_key_id : N }.

Section net.
Context `{!Ed25519Crypto, !Ed25519Laws, !HandshakeCrypto, !HandshakeLaws, !StreamCrypto, !StreamCryptoLaws}.

(** ** The system *)
(** A message handed to a manager: its reply goes back on the other channel. *)
Definition receive (b : list N) (msg : Msg) (m : SessionManager) : list Msg * SessionManager :=
  match msg with
  | MInit i => match on_init b i m with (Ok r, m) => ([MResp r], m) | (Err _, m) => ([], m) end
  | MResp r => ([], (on_resp r m).2)
  end.

(** [used]: the ephemeral keys drawn so far; a new one never repeats. *)
Record Net := MkNet { nx : SessionManager; ny : SessionManager; qxy : list Msg; qyx : list Msg; used : list (list N) }.
Variables X Y : Party.

Inductive data_op (peer : PeerId) : MOp → Prop :=
| data_seal aad msg : data_op peer (OSeal peer aad msg)
| data_open aad f : data_op peer (OOpen peer aad f).

Inductive delivery : Net → Net → Prop :=
| deliver_y σ msg q b : qxy σ = msg :: q →
    delivery σ (MkNet (nx σ) (receive b msg (ny σ)).2 q (qyx σ ++ (receive b msg (ny σ)).1) (used σ))
| deliver_x σ msg q b : qyx σ = msg :: q →
    delivery σ (MkNet (receive b msg (nx σ)).2 (ny σ) (qxy σ ++ (receive b msg (nx σ)).1) q (used σ)).
Inductive step : Net → Net → Prop :=
| step_deliver σ σ' : delivery σ σ' → step σ σ'
| begin_x σ a now : x_public a ∉ used σ → (last_issued_ms (nx σ) < u64_max)%N →
    let r := begin_handshake a (pt_id Y) now (nx σ) in
    step σ (MkNet r.2 (ny σ) (qxy σ ++ [MInit r.1]) (qyx σ) (x_public a :: used σ))
| begin_y σ a now : x_public a ∉ used σ → (last_issued_ms (ny σ) < u64_max)%N →
    let r := begin_handshake a (pt_id X) now (ny σ) in
    step σ (MkNet (nx σ) r.2 (qxy σ) (qyx σ ++ [MInit r.1]) (x_public a :: used σ))
| data_x σ o : data_op (pt_id Y) o → step σ (MkNet (run_op (nx σ) o) (ny σ) (qxy σ) (qyx σ) (used σ))
| data_y σ o : data_op (pt_id X) o → step σ (MkNet (nx σ) (run_op (ny σ) o) (qxy σ) (qyx σ) (used σ)).

(** ** One manager *)
(** [m] is the manager of [P], and trusts [Q]'s key. *)
Definition ident (P Q : Party) (m : SessionManager) : Prop :=
  sm_keypair m = pt_keypair P ∧ sm_peer_id m = pt_id P ∧ sm_key_id m = pt_key_id P ∧
  registry_lookup (registry m) (pt_id Q) (pt_key_id Q) = Some (ed_public (pt_keypair Q)).

(** What the handshakes of one peer depend on. *)
Record View := MkView {
  v_pending : option (PendingHandshake * HandshakeInit);
  v_accepted : option AcceptedInit;
  v_keys : option (list N * list N);
  v_last : N;
}.
Definition view (Q : Party) (m : SessionManager) : View :=
  let s := peer_state (pt_id Q) m in MkView (pending_hs s) (accepted s) (session_keys s) (last_issued_ms m).

Definition sent_init (P Q : Party) (a : list N) (i : HandshakeInit) : Prop :=
  honest_init (pt_keypair P) (pt_id P) (pt_key_id P) (pt_id Q) a i.
Definition sent_resp (P : Party) (b e : list N) (r : HandshakeResp) : Prop :=
  honest_resp (pt_keypair P) (pt_id P) (pt_key_id P) b e r.
Definition pending_of (P : Party) (a : list N) : PendingHandshake := MkPending a (x_public a) (pt_id P).
Definition keys_of (s : StreamSession) : list N * list N := (seal_key s, open_key s).

Lemma begin_view P Q m a now : ident P Q m → (last_issued_ms m < u64_max)%N →
  let '(i, m') := begin_handshake a (pt_id Q) now m in
  sent_init P Q a i ∧ ident P Q m' ∧ (last_issued_ms m < hi_issued_at_ms i)%N ∧
  view Q m' = MkView (Some (pending_of P a, i)) (v_accepted (view Q m)) (v_keys (view Q m)) (hi_issued_at_ms i).
Proof.
  intros (Hk & Hp & Hkid & Hr) Hlt. unfold begin_handshake, begin_handshake_inner, initiate.
  rewrite Hk, Hp, Hkid. unfold view. rewrite !peer_state_set, !decide_True by done. cbn.
  split_and!; try done. unfold saturating_add, u64_max in *. lia.
Qed.

Lemma run_data P Q m o : ident P Q m → data_op (pt_id Q) o → ident P Q (run_op m o) ∧ view Q (run_op m o) = view Q m.
Proof.
  intros Hid Ho. assert (∃ A (op : ST StreamSession SessionError A),
    run_op m o = (on_session (pt_id Q) op m).2 ∧
    ∀ s, seal_key (op s).2 = seal_key s ∧ open_key (op s).2 = open_key s) as (A & op & -> & Hop).
  { destruct Ho; eexists _, _; (split; [done|]); [apply seal_keys|apply open_keys]. }
  destruct (on_session_state (pt_id Q) op (pt_id Q) m Hop) as (Hks & Hac & Hpe). unfold view. rewrite Hks, Hac, Hpe.
  clear Hks Hac Hpe Hop Ho. unfold on_session. destruct (peers m !! _) as [st|]; [|done].
  destruct (session st); [|done]. destruct (op _) as [r s']. by destruct Hid as (? & ? & ? & ?).
Qed.

Lemma receive_crossed P Q m b i a pd : ident P Q m → (uuid (pt_id P) < uuid (pt_id Q))%N → sent_init Q P a i →
  v_pending (view Q m) = Some pd → receive b (MInit i) m = ([], m).
Proof.
  intros (Hk & Hp & Hkid & Hr) Hlt (Hpeer & _) Hpd. unfold receive, on_init. rewrite Hpeer.
  cbn in Hpd. rewrite Hpd. change (sm_peer_id (set_peer _ _ m)) with (sm_peer_id m).
  rewrite Hp. cbn. destruct (N.ltb_spec (uuid (pt_id P)) (uuid (pt_id Q))); [|lia].
  by rewrite set_peer_id by (unfold peer_state in Hpd; destruct (peers m !! _); [eauto|done]).
Qed.

Lemma receive_init P Q m b i a : ident P Q m → sent_init Q P a i →
  v_pending (view Q m) = None ∨ (uuid (pt_id Q) < uuid (pt_id P))%N →
  (∀ x, v_accepted (view Q m) = Some x → (ai_issued_at_ms x < hi_issued_at_ms i)%N) →
  ∃ r s m', receive b (MInit i) m = ([MResp r], m') ∧ ident P Q m' ∧ sent_resp P b (x_public a) r ∧
    session_of a b (pt_id Q) (pt_id P) Responder = Ok s ∧
    view Q m' = MkView None (Some (MkAccepted (hi_issued_at_ms i) (hi_eph_pub i) r)) (Some (keys_of s)) (v_last (view Q m)).
Proof.
  intros Hid Hi Hnc Hnew. pose proof Hid as (Hk & Hp & Hkid & Hr). pose proof Hi as (Hpeer & _).
  unfold receive, on_init. rewrite Hpeer. change (sm_peer_id (set_peer _ _ m)) with (sm_peer_id m).
  change (sm_keypair (set_peer _ _ m)) with (sm_keypair m). change (sm_key_id (set_peer _ _ m)) with (sm_key_id m).
  change (registry (set_peer _ _ m)) with (registry m). rewrite Hk, Hp, Hkid.
  assert (is_some (pending_hs (peer_state (pt_id Q) m)) && (uuid (pt_id P) <? uuid (pt_id Q))%N = false) as ->.
  { destruct Hnc as [Hn|Hn]; cbn in Hn; [by rewrite Hn|]. apply andb_false_iff. right. apply N.ltb_ge. lia. }
  assert (answer_old_init (peer_state (pt_id Q) m) i = None) as ->.
  { unfold answer_old_init. cbn in Hnew. destruct (accepted _) as [x|]; [|done]. specialize (Hnew x eq_refl).
    destruct (N.eqb_spec (hi_issued_at_ms i) (ai_issued_at_ms x)); [lia|].
    destruct (N.leb_spec (hi_issued_at_ms i) (ai_issued_at_ms x)); [lia|done]. }
  destruct (respond_honest (registry m) (pt_keypair P) (pt_id P) (pt_key_id P) _ _ _ a b i Hr Hi)
    as (s & r & -> & Hs & Hresp).
  eexists r, s, _. split; [done|]. split_and!; [done..|]. unfold view. by rewrite peer_state_set, decide_True by done.
Qed.

(** A response that answers no handshake pending here changes nothing. *)
Lemma receive_resp_ignored P Q m b b' e r : ident P Q m → sent_resp Q b' e r →
  (∀ pd i, v_pending (view Q m) = Some (pd, i) → ∃ a, pd = pending_of P a ∧ x_public a ≠ e) →
  receive b (MResp r) m = ([], m).
Proof.
  intros (_ & _ & _ & Hr) Hresp Hne. pose proof Hresp as (Hpeer & _). unfold receive, on_resp. rewrite Hpeer.
  destruct (peers m !! pt_id Q) as [st|] eqn:Hst; [|done].
  destruct (pending_hs st) as [[pd i]|] eqn:Hpd; [|done].
  destruct (Hne pd i) as (a & -> & Hae); [cbn; unfold peer_state; by rewrite Hst|].
  destruct (pending_verify _ r _) as [[]|] eqn:Hv; [|done].
  destruct Hae. by apply (pending_verify_honest (registry m) (pt_id P) (pt_keypair Q) (pt_id Q) (pt_key_id Q) a b' e r Hr Hresp).
Qed.

Lemma receive_resp_done P Q m b b' a i r : ident P Q m → sent_resp Q b' (x_public a) r →
  v_pending (view Q m) = Some (pending_of P a, i) →
  ∃ s m', receive b (MResp r) m = ([], m') ∧ ident P Q m' ∧
    session_of a b' (pt_id P) (pt_id Q) Initiator = Ok s ∧
    view Q m' = MkView None (v_accepted (view Q m)) (Some (keys_of s)) (v_last (view Q m)).
Proof.
  intros Hid Hresp Hpd. pose proof Hid as (_ & _ & _ & Hr). pose proof Hresp as (Hpeer & _).
  unfold receive, on_resp. rewrite Hpeer. cbn in Hpd. revert Hpd.
  assert (∀ st, peers m !! pt_id Q = Some st → peer_state (pt_id Q) m = st) as Hps
    by (intros st Hst; unfold peer_state; by rewrite Hst).
  destruct (peers m !! pt_id Q) as [st|] eqn:Hst; [|unfold peer_state; by rewrite Hst].
  specialize (Hps st eq_refl). rewrite Hps. intros Hpd. rewrite Hpd.
  unfold pending_of. rewrite (proj2 (pending_verify_honest (registry m) (pt_id P) (pt_keypair Q) (pt_id Q) (pt_key_id Q) a b' _ r Hr Hresp) eq_refl).
  pose proof (complete_honest (registry m) (pt_id P) (pt_keypair Q) (pt_id Q) (pt_key_id Q) a b' r Hr Hresp) as Hc. rewrite Hc.
  destruct (session_of_ok a b' (pt_id P) (pt_id Q) Initiator) as [s Hs]. rewrite Hs.
  exists s, (set_peer (pt_id Q) (MkPeerState (Some s) None (accepted st)) m). split_and!; [done..|].
  unfold view. by rewrite peer_state_set, decide_True, Hps by done.
Qed.

(** ** The invariant *)
(** One direction: what [P] has in flight to [Q], and how it relates to the two. *)
Record dir_ok (P Q : Party) (vp vq : View) (q : list Msg) (us : list (list N)) : Prop := {
  d_inits i : i ∈ inits q → ∃ a, sent_init P Q a i ∧ x_public a ∈ us;
  d_distinct : NoDup (hi_eph_pub <$> inits q);
  d_sorted : StronglySorted N.lt (hi_issued_at_ms <$> inits q);
  d_issued i : i ∈ inits q → (hi_issued_at_ms i ≤ v_last vp)%N;
  d_fresh i x : i ∈ inits q → v_accepted vq = Some x → (ai_issued_at_ms x < hi_issued_at_ms i)%N;
  d_accepted x : v_accepted vq = Some x → (ai_issued_at_ms x ≤ v_last vp)%N;
  d_resps r : r ∈ resps q → ∃ b e, sent_resp P b e r ∧ e ∈ us;
  d_pending pd i : v_pending vp = Some (pd, i) →
    ∃ a, pd = pending_of P a ∧ hi_eph_pub i = x_public a ∧ x_public a ∈ us;
}.

(** No response in flight from [P] answers the ephemeral [e]. *)
Definition no_answer (P : Party) (e : list N) (q : list Msg) : Prop :=
  ∀ r, r ∈ resps q → ∃ b e', sent_resp P b e' r ∧ e' ≠ e.

(** The init [P] has pending is still in flight to [Q], its last. *)
Definition init_in_flight (P Q : Party) (vp : View) (qpq qqp : list Msg) : Prop :=
  ∃ pd i, v_pending vp = Some (pd, i) ∧ last (inits qpq) = Some i ∧ no_answer Q (hi_eph_pub i) qqp.
(** [Q] has answered it: the response is in flight, [post] behind it. *)
Definition answer_in_flight (P Q : Party) (vp vq : View) (qpq qqp post : list Msg) : Prop :=
  ∃ a i pre r b s,
    v_pending vp = Some (pending_of P a, i) ∧ inits qpq = [] ∧ qqp = pre ++ MResp r :: post ∧
    no_answer Q (x_public a) pre ∧ sent_resp Q b (x_public a) r ∧
    session_of a b (pt_id P) (pt_id Q) Responder = Ok s ∧ v_keys vq = Some (keys_of s).
(** Nothing pending, nothing in flight from [P]. *)
Definition idle (vp : View) (qpq : list Msg) : Prop := v_pending vp = None ∧ inits qpq = [].
Definition agree (vp vq : View) : Prop :=
  match v_keys vp, v_keys vq with
  | None, None => True
  | Some (s, o), Some (s', o') => s = o' ∧ o = s'
  | _, _ => False
  end.

Inductive status (vx vy : View) (qx qy : list Msg) : Prop :=
| x_in_flight : init_in_flight X Y vx qx qy → status vx vy qx qy
| x_answered post : answer_in_flight X Y vx vy qx qy post →
    idle vy post ∨ init_in_flight Y X vy post qx → status vx vy qx qy
| y_in_flight : idle vx qx → init_in_flight Y X vy qy qx → status vx vy qx qy
| y_answered post : idle vx qx → answer_in_flight Y X vy vx qy qx post → status vx vy qx qy
| settled : idle vx qx → idle vy qy → agree vx vy → status vx vy qx qy.

Record net_ok (σ : Net) : Prop := {
  ok_x : ident X Y (nx σ);
  ok_y : ident Y X (ny σ);
  ok_xy : dir_ok X Y (view Y (nx σ)) (view X (ny σ)) (qxy σ) (used σ);
  ok_yx : dir_ok Y X (view X (ny σ)) (view Y (nx σ)) (qyx σ) (used σ);
  ok_status : status (view Y (nx σ)) (view X (ny σ)) (qxy σ) (qyx σ);
}.

(** *** Directions *)
Lemma inits_app q1 q2 : inits (q1 ++ q2) = inits q1 ++ inits q2. Proof. apply omap_app. Qed.
Lemma resps_app q1 q2 : resps (q1 ++ q2) = resps q1 ++ resps q2. Proof. apply omap_app. Qed.

(** [P] sends a new init. *)
Lemma dir_begin P Q vp vq q us a i k :
  dir_ok P Q vp vq q us → x_public a ∉ us → sent_init P Q a i → (v_last vp < hi_issued_at_ms i)%N →
  dir_ok P Q (MkView (Some (pending_of P a, i)) (v_accepted vp) k (hi_issued_at_ms i)) vq (q ++ [MInit i]) (x_public a :: us).
Proof.
  intros [] Hus Hi Hlt. pose proof Hi as (_ & _ & _ & He & _). split; rewrite ?inits_app, ?resps_app; cbn [v_last v_pending].
  - intros j [Hj|Hj]%elem_of_app; [destruct (d_inits0 j Hj) as (a' & ? & ?)|apply list_elem_of_singleton in Hj as ->];
      eexists; (split; [done|]); [by right|by left].
  - rewrite fmap_app. apply list.NoDup_app. split_and!; [done| |apply NoDup_singleton].
    intros e (j & -> & Hj)%list_elem_of_fmap Hin. cbn in Hin. apply list_elem_of_singleton in Hin.
    destruct (d_inits0 j Hj) as (a' & (_ & _ & _ & He' & _) & Hin'). congruence.
  - rewrite fmap_app. apply StronglySorted_app_2; [|done|repeat constructor].
    intros t1 t2 (j & -> & Hj)%list_elem_of_fmap Hin. cbn in Hin. apply list_elem_of_singleton in Hin as ->.
    apply d_issued0 in Hj. lia.
  - intros j [Hj|Hj]%elem_of_app; [apply d_issued0 in Hj; lia|]. by apply list_elem_of_singleton in Hj as ->.
  - intros j x [Hj|Hj]%elem_of_app Hx; [by eapply d_fresh0|]. apply list_elem_of_singleton in Hj as ->.
    apply d_accepted0 in Hx. lia.
  - intros x Hx. apply d_accepted0 in Hx. lia.
  - intros r [Hr|Hr]%elem_of_app; [|by inversion Hr]. destruct (d_resps0 r Hr) as (b & e & ? & ?).
    exists b, e. split; [done|by right].
  - intros pd j [= <- <-]. exists a. split_and!; [done..|by left].
Qed.

(** The other end sends a new init, or its sessions move: nothing here changes. *)
Lemma dir_other P Q vp vp' vq vq' q us us' :
  dir_ok P Q vp vq q us → us ⊆ us' → v_accepted vq' = v_accepted vq → v_last vp' = v_last vp →
  (v_pending vp' = None ∨ v_pending vp' = v_pending vp) → dir_ok P Q vp' vq' q us'.
Proof.
  intros [] Hus Hacc Hlast Hpend. split; rewrite ?Hacc, ?Hlast; try done.
  - intros i Hi. destruct (d_inits0 i Hi) as (a & ? & ?). exists a. auto.
  - intros r Hr. destruct (d_resps0 r Hr) as (b & e & ? & ?). exists b, e. auto.
  - intros pd i Hp. destruct Hpend as [Hn|He]; [congruence|]. rewrite He in Hp.
    destruct (d_pending0 pd i Hp) as (a & ? & ? & ?). exists a. auto.
Qed.

(** [P] answers, with its pending handshake dropped or not. *)
Lemma dir_reply P Q vp vq q us b e r :
  dir_ok P Q vp vq q us → sent_resp P b e r → e ∈ us → dir_ok P Q vp vq (q ++ [MResp r]) us.
Proof.
  intros [] Hr He. split; rewrite ?inits_app, ?resps_app, ?app_nil_r; try done.
  intros r' [Hr'|Hr']%elem_of_app; [by apply d_resps0|]. apply list_elem_of_singleton in Hr' as ->. by exists b, e.
Qed.

(** [Q] takes the head of the queue. *)
Lemma dir_take_resp P Q vp vq q us r : dir_ok P Q vp vq (MResp r :: q) us → dir_ok P Q vp vq q us.
Proof. intros []. split; try done. intros r' Hr. apply d_resps0. by right. Qed.
Lemma dir_take_init P Q vp vq vq' q us i :
  dir_ok P Q vp vq (MInit i :: q) us →
  (v_accepted vq' = v_accepted vq ∨ ∃ x, v_accepted vq' = Some x ∧ ai_issued_at_ms x = hi_issued_at_ms i) →
  dir_ok P Q vp vq' q us.
Proof.
  intros [] Hacc. cbn in *. apply list.NoDup_cons in d_distinct0 as [? ?].
  apply StronglySorted_inv in d_sorted0 as [? Hlt]. rewrite list.Forall_forall in Hlt. split; try done.
  - intros j Hj. apply d_inits0. by right.
  - intros j Hj. apply d_issued0. by right.
  - intros j x Hj Hx. destruct Hacc as [He|(y & Hy & Ht)].
    + eapply d_fresh0; [by right|congruence].
    + assert (x = y) as -> by congruence. rewrite Ht. apply Hlt. by apply list_elem_of_fmap_2.
  - intros x Hx. destruct Hacc as [He|(y & Hy & Ht)]; [apply d_accepted0; congruence|].
    assert (x = y) as -> by congruence. rewrite Ht. apply d_issued0. by left.
Qed.

(** *** Answers *)
Lemma sent_resp_eph P b b' e e' r : sent_resp P b e r → sent_resp P b' e' r → e = e'.
Proof.
  intros (_ & _ & _ & Hl & Hs) (_ & _ & _ & Hl' & Hs'). rewrite Hs in Hs'.
  eapply (resp_signed_bytes_eph (hr_eph_pub r)); [done..|].
  apply (ed_sign_binds (pt_keypair P)). rewrite <- Hs'. apply ed_strict_verifies, ed_sign_verifies.
Qed.
Lemma no_answer_fresh P Q vp vq q us a :
  dir_ok P Q vp vq q us → x_public a ∉ us → no_answer P (x_public a) q.
Proof.
  intros Hd Ha r Hr. destruct (d_resps _ _ _ _ _ _ Hd r Hr) as (b & e & ? & ?). exists b, e.
  split; [done|]. intros ->. done.
Qed.
Lemma no_answer_tail P e msg q : no_answer P e (msg :: q) → no_answer P e q.
Proof. intros Hn r Hr. apply Hn. destruct msg; cbn; [done|by right]. Qed.
Lemma no_answer_head P b e q r : no_answer P e (MResp r :: q) → ¬ sent_resp P b e r.
Proof.
  intros Hn Hr. destruct (Hn r) as (b' & e' & Hr' & Hne); [by left|].
  by destruct Hne; eapply sent_resp_eph.
Qed.
Lemma no_answer_snoc P b e e' q r : no_answer P e q → sent_resp P b e' r → e' ≠ e → no_answer P e (q ++ [MResp r]).
Proof.
  intros Hn Hr Hne r'. rewrite resps_app. intros [Hr'|Hr']%elem_of_app; [by apply Hn|].
  apply list_elem_of_singleton in Hr' as ->. by exists b, e'.
Qed.
Lemma no_answer_init P e q i : no_answer P e q → no_answer P e (q ++ [MInit i]).
Proof. intros Hn r. rewrite resps_app, app_nil_r. apply Hn. Qed.

(** A session depends on the initiator's ephemeral only through its public half. *)
Lemma session_of_public a a' b P Q role : x_public a = x_public a' → session_of a b P Q role = session_of a' b P Q role.
Proof. intros He. unfold session_of. by rewrite !(x_shared_comm _ b), He. Qed.
Lemma agree_sessions a b P Q s1 s2 :
  session_of a b P Q Initiator = Ok s1 → session_of a b P Q Responder = Ok s2 →
  seal_key s1 = open_key s2 ∧ open_key s1 = seal_key s2.
Proof. apply session_of_mirrored. Qed.

(** *** Status *)
Lemma begin_in_flight P Q vp vq vq' qpq qqp us a i k :
  dir_ok Q P vq' vq qqp us → x_public a ∉ us → sent_init P Q a i →
  init_in_flight P Q (MkView (Some (pending_of P a, i)) k (v_keys vp) (hi_issued_at_ms i)) (qpq ++ [MInit i]) qqp.
Proof.
  intros Hd Ha (_ & _ & _ & He & _). exists (pending_of P a), i. split_and!; [done| |].
  - rewrite inits_app. apply last_snoc.
  - rewrite He. by eapply no_answer_fresh.
Qed.

(** [Q] receives [P]'s init while [P] has one in flight. *)
Lemma in_flight_received P Q vp vq vq' q qqp us i a b r s :
  dir_ok P Q vp vq (MInit i :: q) us → init_in_flight P Q vp (MInit i :: q) qqp →
  sent_init P Q a i → sent_resp Q b (x_public a) r →
  session_of a b (pt_id P) (pt_id Q) Responder = Ok s → v_keys vq' = Some (keys_of s) →
  init_in_flight P Q vp q (qqp ++ [MResp r]) ∨ answer_in_flight P Q vp vq' q (qqp ++ [MResp r]) [].
Proof.
  intros Hd (pd & i0 & Hpd & Hlast & Hno) Hi Hr Hs Hk. pose proof Hi as (_ & _ & _ & He & _).
  change (last (i :: inits q) = Some i0) in Hlast.
  destruct (d_pending _ _ _ _ _ _ Hd pd i0 Hpd) as (a0 & -> & He0 & _).
  destruct (inits q) as [|j js] eqn:Hq.
  - right. assert (i = i0) as -> by (cbn in Hlast; congruence). rewrite He in He0, Hno. exists a0, i0, qqp, r, b, s.
    rewrite <- He0. split_and!; try done. by rewrite <- Hs; apply session_of_public.
  - left. exists (pending_of P a0), i0. split_and!; [done|by rewrite Hq|].
    eapply no_answer_snoc; [done|done|]. rewrite <- He.
    pose proof (d_distinct _ _ _ _ _ _ Hd) as Hnd.
    change (NoDup (hi_eph_pub i :: (hi_eph_pub <$> inits q))) in Hnd. rewrite Hq in Hnd.
    apply list.NoDup_cons in Hnd as [Hn _]. intros Heq. apply Hn. rewrite Heq. apply list_elem_of_fmap_2.
    change (last (j :: js) = Some i0) in Hlast. by apply last_Some_elem_of in Hlast.
Qed.

(** [P] receives a message that is not the awaited answer. *)
Lemma answer_skip P Q vp vq qpq msg q post :
  answer_in_flight P Q vp vq qpq (msg :: q) post →
  (∀ a i b r, v_pending vp = Some (pending_of P a, i) → msg = MResp r → ¬ sent_resp Q b (x_public a) r) →
  answer_in_flight P Q vp vq qpq q post.
Proof.
  intros (a & i & pre & r & b & s & Hp & Hq & Heq & Hno & Hr & Hs & Hk) Hne.
  destruct pre as [|m pre]; cbn in Heq; simplify_eq; [by destruct (Hne a i b r)|].
  exists a, i, pre, r, b, s. split_and!; try done. by eapply no_answer_tail.
Qed.
(** [P] receives the awaited answer. *)
Lemma answer_take P Q vp vq qpq r q post a i b :
  answer_in_flight P Q vp vq qpq (MResp r :: q) post →
  v_pending vp = Some (pending_of P a, i) → sent_resp Q b (x_public a) r →
  q = post ∧ inits qpq = [] ∧
  ∃ s, session_of a b (pt_id P) (pt_id Q) Responder = Ok s ∧ v_keys vq = Some (keys_of s).
Proof.
  intros (a0 & i0 & pre & r0 & b0 & s & Hp & Hq & Heq & Hno & Hr & Hs & Hk) Hpd Hr'.
  rewrite Hp in Hpd. injection Hpd as Ha _. destruct pre as [|m pre]; cbn in Heq; simplify_eq.
  - split_and!; [done..|]. exists s. split; [|done]. rewrite <- Hs.
    destruct Hr as (_ & _ & Hb & _). destruct Hr' as (_ & _ & Hb' & _). unfold session_of.
    by rewrite <- Hb, Hb'.
  - by apply no_answer_head with (b := b) in Hno.
Qed.

Lemma agree_of a b P Q s1 s2 vp vq :
  session_of a b P Q Initiator = Ok s1 → session_of a b P Q Responder = Ok s2 →
  v_keys vp = Some (keys_of s1) → v_keys vq = Some (keys_of s2) → agree vp vq ∧ agree vq vp.
Proof.
  intros Hs1 Hs2 Hp Hq. destruct (session_of_mirrored _ _ _ _ _ _ Hs1 Hs2) as [He1 He2].
  unfold agree. rewrite Hp, Hq. by cbn.
Qed.

(** A response [P] ignores leaves every condition on the rest of the queue. *)
Lemma status_skip_y vx vy r q qy :
  status vx vy (MResp r :: q) qy →
  (∀ a i b, v_pending vy = Some (pending_of Y a, i) → ¬ sent_resp X b (x_public a) r) → status vx vy q qy.
Proof.
  intros [Hx|post Hx Hy|Hx Hy|post Hx Hy|Hx Hy Ha] Hne.
  - by apply x_in_flight.
  - apply x_answered with post.
    + exact Hx.
    + destruct Hy as [Hy|(pd & i & Hp & Hl & Hno)]; [by left|right]. exists pd, i. split_and!; try done.
      by eapply no_answer_tail.
  - destruct Hy as (pd & i & Hp & Hl & Hno). apply y_in_flight; [done|]. exists pd, i. split_and!; try done.
    by eapply no_answer_tail.
  - apply y_answered with post; [done|]. eapply answer_skip; [done|]. intros a i b r' Hp [= <-]. by eapply Hne.
  - by apply settled.
Qed.
Lemma status_skip_x vx vy r qx q :
  status vx vy qx (MResp r :: q) →
  (∀ a i b, v_pending vx = Some (pending_of X a, i) → ¬ sent_resp Y b (x_public a) r) → status vx vy qx q.
Proof.
  intros [Hx|post Hx Hy|Hx Hy|post Hx Hy|Hx Hy Ha] Hne.
  - destruct Hx as (pd & i & Hp & Hl & Hno). apply x_in_flight. exists pd, i. split_and!; try done.
    by eapply no_answer_tail.
  - apply x_answered with post; [|done]. eapply answer_skip; [done|]. intros a i b r' Hp [= <-]. by eapply Hne.
  - by apply y_in_flight.
  - by apply y_answered with post.
  - by apply settled.
Qed.

(** The pending handshake of [P] is answered by [r], or [P] ignores [r]. *)
Lemma receive_resp P Q m vq q qqp us b r :
  ident P Q m → dir_ok P Q (view Q m) vq q us → dir_ok Q P vq (view Q m) (MResp r :: qqp) us →
  (receive b (MResp r) m = ([], m) ∧
   ∀ a i b, v_pending (view Q m) = Some (pending_of P a, i) → ¬ sent_resp Q b (x_public a) r) ∨
  ∃ a i b' s m', v_pending (view Q m) = Some (pending_of P a, i) ∧ hi_eph_pub i = x_public a ∧
    sent_resp Q b' (x_public a) r ∧
    receive b (MResp r) m = ([], m') ∧ ident P Q m' ∧ session_of a b' (pt_id P) (pt_id Q) Initiator = Ok s ∧
    view Q m' = MkView None (v_accepted (view Q m)) (Some (keys_of s)) (v_last (view Q m)).
Proof.
  intros Hid Hd Hd'. destruct (d_resps _ _ _ _ _ _ Hd' r) as (b' & e & Hr & _); [by left|].
  destruct (v_pending (view Q m)) as [[pd i]|] eqn:Hp.
  2:{ left. split; [|done]. eapply receive_resp_ignored; [done|exact Hr|]. by rewrite Hp. }
  destruct (d_pending _ _ _ _ _ _ Hd pd i Hp) as (a & -> & He & _).
  destruct (decide (x_public a = e)) as [<-|Hne].
  - right. destruct (receive_resp_done P Q m b b' a i r Hid Hr Hp) as (s & m' & ? & ? & ? & ?).
    by exists a, i, b', s, m'.
  - left. split.
    + eapply receive_resp_ignored; [done|exact Hr|]. intros pd' i'. rewrite Hp. intros [= <- <-]. eauto.
    + intros a' i' b'' Hpe Hr'. unfold pending_of in Hpe. simplify_eq. destruct Hne. exact (sent_resp_eph _ _ _ _ _ _ Hr' Hr).
Qed.

Hypothesis lower : (uuid (pt_id X) < uuid (pt_id Y))%N.

Lemma deliver_y_ok σ msg q b : qxy σ = msg :: q → net_ok σ →
  net_ok (MkNet (nx σ) (receive b msg (ny σ)).2 q (qyx σ ++ (receive b msg (ny σ)).1) (used σ)).
Proof.
  intros Hq [Hx Hy Hxy Hyx Hst]. rewrite Hq in Hxy, Hst. destruct msg as [i|r].
  - destruct (d_inits _ _ _ _ _ _ Hxy i) as (a & Hi & Ha); [by left|].
    destruct (receive_init Y X (ny σ) b i a Hy Hi) as (r & s & m' & -> & Hid & Hr & Hs & Hv).
    { by right. } { intros x Hacc. eapply (d_fresh _ _ _ _ _ _ Hxy); [by left|done]. }
    cbn [fst snd]. split; cbn [nx ny qxy qyx used]; rewrite ?Hv; try done.
    + eapply dir_take_init; [done|]. right. by eexists.
    + eapply dir_reply; [|done|done]. eapply dir_other; [exact Hyx|done|done|done|by left].
    + destruct Hst as [Hfl|post Han _|[_ Hn] _|post [_ Hn] _|[_ Hn] _ _]; try discriminate Hn.
      * destruct (in_flight_received X Y _ _ (MkView None (Some (MkAccepted (hi_issued_at_ms i) (hi_eph_pub i) r))
          (Some (keys_of s)) (v_last (view X (ny σ)))) q (qyx σ) (used σ) i a b r s Hxy Hfl Hi Hr Hs eq_refl) as [Hf|Hf].
        -- by apply x_in_flight.
        -- eapply x_answered; [exact Hf|]. by left.
      * destruct Han as (? & ? & ? & ? & ? & ? & _ & Hn & _). discriminate Hn.
  - destruct (receive_resp Y X (ny σ) (view Y (nx σ)) (qyx σ) q (used σ) b r Hy Hyx Hxy)
      as [[-> Hne]|(a & i & b' & s & m' & Hp & He & Hr & -> & Hid & Hs & Hv)]; cbn [fst snd]; rewrite app_nil_r.
    + split; try done; cbn; [by eapply dir_take_resp|by eapply status_skip_y].
    + split; cbn [nx ny qxy qyx used]; rewrite ?Hv; try done.
      * eapply dir_other; [by eapply dir_take_resp|done|done|done|by right].
      * eapply dir_other; [exact Hyx|done|done|done|by left].
      * destruct Hst as [Hfl|post Han [[Hn _]|(pd & i' & Hp' & _ & Hno)]|_ (pd & i' & Hp' & _ & Hno)|post Hid' Han|_ [Hn _] _];
          try congruence.
        -- apply x_in_flight. exact Hfl.
        -- rewrite Hp in Hp'. injection Hp' as <- <-. rewrite He in Hno. by apply no_answer_head with (b := b') in Hno.
        -- rewrite Hp in Hp'. injection Hp' as <- <-. rewrite He in Hno. by apply no_answer_head with (b := b') in Hno.
        -- destruct (answer_take _ _ _ _ _ _ _ _ _ _ _ Han Hp Hr) as (-> & Hn & s' & Hs' & Hk).
           apply settled; [done|done|]. refine (proj2 (agree_of _ _ _ _ _ _ _ _ Hs Hs' _ Hk)). done.
Qed.

Lemma deliver_x_ok σ msg q b : qyx σ = msg :: q → net_ok σ →
  net_ok (MkNet (receive b msg (nx σ)).2 (ny σ) (qxy σ ++ (receive b msg (nx σ)).1) q (used σ)).
Proof.
  intros Hq [Hx Hy Hxy Hyx Hst]. rewrite Hq in Hyx, Hst. destruct msg as [i|r].
  - destruct (d_inits _ _ _ _ _ _ Hyx i) as (a & Hi & Ha); [by left|].
    destruct (v_pending (view Y (nx σ))) as [pd|] eqn:Hp.
    + rewrite (receive_crossed X Y (nx σ) b i a pd Hx lower Hi Hp). cbn [fst snd]. rewrite app_nil_r.
      split; try done; cbn [nx ny qxy qyx used].
      * eapply dir_take_init; [done|]. by left.
      * destruct Hst as [(pd' & i' & Hp' & Hl & Hno)|post Han Hy'|[Hn _] _|post [Hn _] _|[Hn _] _ _]; try congruence.
        -- apply x_in_flight. by exists pd', i'.
        -- apply x_answered with post; [|exact Hy']. by eapply answer_skip.
    + destruct (receive_init X Y (nx σ) b i a Hx Hi) as (r & s & m' & -> & Hid & Hr & Hs & Hv).
      { by left. } { intros x Hacc. eapply (d_fresh _ _ _ _ _ _ Hyx); [by left|done]. }
      cbn [fst snd]. split; cbn [nx ny qxy qyx used]; rewrite ?Hv; try done.
      * eapply dir_reply; [|done|done]. eapply dir_other; [exact Hxy|done|done|done|by left].
      * eapply dir_take_init; [done|]. right. by eexists.
      * destruct Hst as [(pd' & i' & Hp' & _)|post (? & ? & ? & ? & ? & ? & Hp' & _) _|Hidle Hfl|
          post _ (? & ? & ? & ? & ? & ? & _ & Hn & _)|_ [_ Hn] _]; try congruence; try discriminate Hn.
        assert (idle (MkView None (Some (MkAccepted (hi_issued_at_ms i) (hi_eph_pub i) r)) (Some (keys_of s))
          (v_last (view Y (nx σ)))) (qxy σ ++ [MResp r])) as Hidle'.
        { split; [done|]. rewrite inits_app, app_nil_r. by destruct Hidle. }
        destruct (in_flight_received Y X _ _ (MkView None (Some (MkAccepted (hi_issued_at_ms i) (hi_eph_pub i) r))
          (Some (keys_of s)) (v_last (view Y (nx σ)))) q (qxy σ) (used σ) i a b r s Hyx Hfl Hi Hr Hs eq_refl) as [Hf|Hf].
        -- by apply y_in_flight.
        -- by eapply y_answered.
  - destruct (receive_resp X Y (nx σ) (view X (ny σ)) (qxy σ) q (used σ) b r Hx Hxy Hyx)
      as [[-> Hne]|(a & i & b' & s & m' & Hp & He & Hr & -> & Hid & Hs & Hv)]; cbn [fst snd]; rewrite app_nil_r.
    + split; try done; cbn; [by eapply dir_take_resp|by eapply status_skip_x].
    + split; cbn [nx ny qxy qyx used]; rewrite ?Hv; try done.
      * eapply dir_other; [exact Hxy|done|done|done|by left].
      * eapply dir_other; [by eapply dir_take_resp|done|done|done|by right].
      * destruct Hst as [(pd & i' & Hp' & _ & Hno)|post Han Hy'|[Hn _] _|post [Hn _] _|[Hn _] _ _]; try congruence.
        -- rewrite Hp in Hp'. injection Hp' as <- <-. rewrite He in Hno. by apply no_answer_head with (b := b') in Hno.
        -- destruct (answer_take _ _ _ _ _ _ _ _ _ _ _ Han Hp Hr) as (-> & Hn & s' & Hs' & Hk).
           assert (idle (MkView None (v_accepted (view Y (nx σ))) (Some (keys_of s)) (v_last (view Y (nx σ)))) (qxy σ))
             as Hidle by done.
           destruct Hy' as [Hy'|Hy']; [|by apply y_in_flight].
           apply settled; [done..|]. refine (proj1 (agree_of _ _ _ _ _ _ _ _ Hs Hs' _ Hk)). done.
Qed.

Lemma step_ok σ σ' : step σ σ' → net_ok σ → net_ok σ'.
Proof.
  intros [? ? []|? a now Ha Hlt r|? a now Ha Hlt r|? o Ho|? o Ho] Hok.
  - by eapply deliver_y_ok.
  - by eapply deliver_x_ok.
  - destruct Hok as [Hx Hy Hxy Hyx Hst]. pose proof (begin_view X Y (nx σ0) a now Hx Hlt) as Hb.
    subst r. destruct (begin_handshake _ _ _ _) as [i m']. destruct Hb as (Hi & Hid & Hgt & Hv).
    split; cbn [nx ny qxy qyx used fst snd]; rewrite ?Hv; try done.
    + by apply dir_begin.
    + eapply dir_other; [exact Hyx|set_solver|done|done|by right].
    + apply x_in_flight. by eapply begin_in_flight.
  - destruct Hok as [Hx Hy Hxy Hyx Hst]. pose proof (begin_view Y X (ny σ0) a now Hy Hlt) as Hb.
    subst r. destruct (begin_handshake _ _ _ _) as [i m']. destruct Hb as (Hi & Hid & Hgt & Hv).
    split; cbn [nx ny qxy qyx used fst snd]; rewrite ?Hv; try done.
    + eapply dir_other; [exact Hxy|set_solver|done|done|by right].
    + by apply dir_begin.
    + assert (∀ q', init_in_flight Y X (MkView (Some (pending_of Y a, i)) (v_accepted (view X (ny σ0)))
        (v_keys (view X (ny σ0))) (hi_issued_at_ms i)) (q' ++ [MInit i]) (qxy σ0)) as Hfl
        by (intros q'; by eapply begin_in_flight).
      destruct Hst as [(pd & i' & Hp & Hl & Hno)|post Han _|Hidle _|post Hidle _|Hidle _ _]; [| |by apply y_in_flight..].
      * apply x_in_flight. exists pd, i'. split_and!; [done..|by apply no_answer_init].
      * apply x_answered with (post ++ [MInit i]); [|by right].
        destruct Han as (a' & i' & pre & r & b & s & Hp & Hn & -> & Hno & Hr & Hs & Hk).
        exists a', i', pre, r, b, s. split_and!; try done. by rewrite <- app_assoc.
  - destruct Hok as [Hx Hy Hxy Hyx Hst]. destruct (run_data X Y (nx σ0) o Hx Ho) as [? Hv].
    by split; cbn; rewrite ?Hv.
  - destruct Hok as [Hx Hy Hxy Hyx Hst]. destruct (run_data Y X (ny σ0) o Hy Ho) as [? Hv].
    by split; cbn; rewrite ?Hv.
Qed.

(** ** Delivery ends, and then the two agree *)
Definition backlog (σ : Net) : nat :=
  2 * length (inits (qxy σ) ++ inits (qyx σ)) + length (resps (qxy σ) ++ resps (qyx σ)).
Lemma receive_reply b msg m :
  match msg with MInit _ => length (receive b msg m).1 ≤ 1 | MResp _ => (receive b msg m).1 = [] end ∧
  inits (receive b msg m).1 = [].
Proof. destruct msg as [i|r]; cbn; [|done]. destruct (on_init b i m) as [[]]; cbn; split; done || lia. Qed.
Lemma resps_length q : length (resps q) ≤ length q.
Proof.
  induction q as [|[i|r] q IH]; [done|change (resps (MInit i :: q)) with (resps q)
    |change (resps (MResp r :: q)) with (r :: resps q)]; cbn [length]; lia.
Qed.
Lemma deliver_backlog σ σ' : delivery σ σ' → backlog σ' < backlog σ.
Proof.
  intros [σ0 msg q b Hq|σ0 msg q b Hq]; unfold backlog; cbn [qxy qyx]; rewrite Hq;
    rewrite ?inits_app, ?resps_app, !length_app;
    [destruct (receive_reply b msg (ny σ0)) as [Hlen ->]; revert Hlen; generalize (receive b msg (ny σ0)).1
    |destruct (receive_reply b msg (nx σ0)) as [Hlen ->]; revert Hlen; generalize (receive b msg (nx σ0)).1];
    intros l Hlen; pose proof (resps_length l); destruct msg as [i|r]; subst;
    [change (inits (MInit i :: q)) with (i :: inits q); change (resps (MInit i :: q)) with (resps q)
    |change (inits (MResp r :: q)) with (inits q); change (resps (MResp r :: q)) with (r :: resps q); cbn [resps omap list_omap]
    |change (inits (MInit i :: q)) with (i :: inits q); change (resps (MInit i :: q)) with (resps q)
    |change (inits (MResp r :: q)) with (inits q); change (resps (MResp r :: q)) with (r :: resps q); cbn [resps omap list_omap]];
    cbn [length]; lia.
Qed.

(** Two managers that know each other's keys and have not spoken yet. *)
Definition net_start (σ : Net) : Prop :=
  ident X Y (nx σ) ∧ ident Y X (ny σ) ∧ peers (nx σ) = ∅ ∧ peers (ny σ) = ∅ ∧ qxy σ = [] ∧ qyx σ = [].
Lemma net_start_ok σ : net_start σ → net_ok σ.
Proof.
  intros (Hx & Hy & Hpx & Hpy & Hqx & Hqy).
  assert (view Y (nx σ) = MkView None None None (last_issued_ms (nx σ))) as Hvx
    by (unfold view, peer_state; by rewrite Hpx, lookup_empty).
  assert (view X (ny σ) = MkView None None None (last_issued_ms (ny σ))) as Hvy
    by (unfold view, peer_state; by rewrite Hpy, lookup_empty).
  split; [done..| | |]; rewrite Hvx, Hvy, ?Hqx, ?Hqy.
  1,2: split; cbn; try done; try (by intros ? ?%elem_of_nil); try (by intros ? ? ?%elem_of_nil); constructor.
  by apply settled.
Qed.

(** Both ends hold one session, or neither holds any, and neither waits. *)
Definition agreed (σ : Net) : Prop :=
  has_pending (nx σ) (pt_id Y) = false ∧ has_pending (ny σ) (pt_id X) = false ∧
  match session (peer_state (pt_id Y) (nx σ)), session (peer_state (pt_id X) (ny σ)) with
  | None, None => True
  | Some sx, Some sy => mirrored sx sy
  | _, _ => False
  end.

Lemma no_pending q m : pending_hs (peer_state q m) = None → has_pending m q = false.
Proof. unfold peer_state, has_pending. destruct (peers m !! q) as [s|]; cbn; [|done]. by intros ->. Qed.
Lemma quiet_agreed σ : net_ok σ → qxy σ = [] → qyx σ = [] → agreed σ.
Proof.
  intros [_ _ _ _ Hst] Hqx Hqy. rewrite Hqx, Hqy in Hst.
  destruct Hst as [(? & ? & _ & [=] & _)|? (? & ? & pre & ? & ? & ? & _ & _ & Heq & _) _
    |_ (? & ? & _ & [=] & _)|? _ (? & ? & pre & ? & ? & ? & _ & _ & Heq & _)|[Hpx _] [Hpy _] Ha];
    try (by destruct pre).
  split_and!; [by apply no_pending..|]. unfold agree in Ha. cbn in Ha. unfold session_keys in Ha.
  by destruct (session _), (session _).
Qed.

(** C5: crossed handshakes settle: two managers that begin handshakes with each
    other at any moments, again and again, over channels that deliver in order,
    with frames sealed and opened meanwhile, come to one session.  However the
    deliveries interleave, at most [backlog] of them are left, and when nothing
    is in flight neither side waits and both hold the mirrored keys of the same
    session (or neither has one). *)
Theorem crossed_handshakes_settle σ0 σ :
  net_start σ0 → rtc step σ0 σ →
  (∀ n σ', nsteps delivery n σ σ' → n ≤ backlog σ) ∧
  (∀ σ', rtc delivery σ σ' → (∀ σ'', ¬ delivery σ' σ'') → agreed σ').
Proof.
  intros Hs Hr. assert (∀ σ1 σ2, rtc step σ1 σ2 → net_ok σ1 → net_ok σ2) as Hinv.
  { induction 1 as [|σ1 σ2 σ3 Hst _ IH]; [done|]. intros Hok. by eapply IH, step_ok. }
  split.
  - intros n. clear Hr. revert σ. induction n as [|n IH]; intros σ σ' Hn; [lia|].
    inversion Hn as [|? ? σ1 ? Hd Hn']; subst. apply IH in Hn'. apply deliver_backlog in Hd. lia.
  - intros σ' Hd Hstuck. assert (net_ok σ') as Hok.
    { apply (Hinv σ); [|by apply (Hinv σ0 σ Hr), net_start_ok]. clear Hstuck Hr. induction Hd as [|? ? ? Hd _ IH]; [done|].
      eapply rtc_l; [by apply step_deliver|done]. }
    apply quiet_agreed; [done|..].
    + destruct (qxy σ') as [|msg q] eqn:Hq; [done|]. destruct (Hstuck _ (deliver_y σ' msg q [] Hq)).
    + destruct (qyx σ') as [|msg q] eqn:Hq; [done|]. destruct (Hstuck _ (deliver_x σ' msg q [] Hq)).
Qed.
End net.

(** ** Runs *)
Section runs.
Context `{!Ed25519Crypto, !HandshakeCrypto, !StreamCrypto}.
Definition take_y (b : list N) (σ : Net) : Net :=
  match qxy σ with
  | [] => σ
  | msg :: q => MkNet (nx σ) (receive b msg (ny σ)).2 q (qyx σ ++ (receive b msg (ny σ)).1) (used σ)
  end.
Definition take_x (b : list N) (σ : Net) : Net :=
  match qyx σ with
  | [] => σ
  | msg :: q => MkNet (receive b msg (nx σ)).2 (ny σ) (qxy σ ++ (receive b msg (nx σ)).1) q (used σ)
  end.
Definition start_x (Y : Party) (a : list N) (now : N) (σ : Net) : Net :=
  let r := begin_handshake a (pt_id Y) now (nx σ) in
  MkNet r.2 (ny σ) (qxy σ ++ [MInit r.1]) (qyx σ) (x_public a :: used σ).
Definition start_y (X : Party) (a : list N) (now : N) (σ : Net) : Net :=
  let r := begin_handshake a (pt_id X) now (ny σ) in
  MkNet (nx σ) r.2 (qxy σ) (qyx σ ++ [MInit r.1]) (x_public a :: used σ).
Lemma take_y_deliver b σ msg q : qxy σ = msg :: q → delivery σ (take_y b σ).
Proof. intros Hq. unfold take_y. rewrite Hq. by constructor. Qed.
Lemma take_x_deliver b σ msg q : qyx σ = msg :: q → delivery σ (take_x b σ).
Proof. intros Hq. unfold take_x. rewrite Hq. by constructor. Qed.
End runs.

Module ToyNet.
Import ToyStream.
Import ToyKeys.
Definition X : Party := MkParty [1%N] (MkId 1) 0.
Definition Y : Party := MkParty [2%N] (MkId 2) 0.
Definition reg : PeerKeyRegistry := {[ (MkId 1, 0%N) := [1%N]; (MkId 2, 0%N) := [2%N] ]}.
Definition σ0 : Net :=
  MkNet (SessionManager_new [1%N] (MkId 1) reg) (SessionManager_new [2%N] (MkId 2) reg) [] [] [].
(** Both begin at once; X refuses Y's init, Y yields. *)
Definition σ2 : Net := start_y X [20%N] 1000 (start_x Y [10%N] 1000 σ0).
Definition σ5 : Net := take_x [] (take_y [21%N] (take_x [] σ2)).

Lemma σ2_reached : rtc (step X Y) σ0 σ2.
Proof.
  eapply rtc_l.
  { apply (begin_x X Y σ0 [10%N] 1000); [by intros ?%elem_of_nil|done]. }
  apply rtc_once. apply (begin_y X Y (start_x Y [10%N] 1000 σ0) [20%N] 1000); [|done].
  apply (bool_decide_unpack _). vm_compute. exact I.
Qed.
Lemma σ5_delivered : rtc delivery σ2 σ5.
Proof.
  eapply rtc_l; [eapply (take_x_deliver []); reflexivity|].
  eapply rtc_l; [eapply (take_y_deliver [21%N]); reflexivity|].
  apply rtc_once. eapply take_x_deliver; reflexivity.
Qed.

Lemma crossed_handshakes_settle_witness :
  agreed X Y σ5 ∧ has_session (nx σ5) (pt_id Y) = true ∧ has_session (ny σ5) (pt_id X) = true.
Proof.
  split; [|by vm_compute].
  apply (crossed_handshakes_settle X Y ltac:(done) σ0 σ2) with (σ' := σ5).
  - by split_and!.
  - apply σ2_reached.
  - apply σ5_delivered.
  - intros σ' Hd. inversion Hd as [? ? ? ? Hq|? ? ? ? Hq]; subst; vm_compute in Hq; discriminate.
Defined.

(** The answered init of [ToyNet.X], presented again after a data frame, and after a reset. *)
Lemma accepted_init_acts_once_witness :
  let init := (begin_handshake [10%N] (MkId 2) 1000 (nx σ0)).1 in
  match on_init [21%N] init (ny σ0) with
  | (Ok resp, m1) =>
      let m2 := run_op m1 (OSeal (MkId 1) [] [5%N]) in
      (on_init [22%N] init m2).2 = m2 ∧
      match (on_init [22%N] init (reset m2)).1 with Ok resp' => resp' ≠ resp | Err _ => False end
  | _ => False
  end.
Proof.
  intros init. destruct (on_init [21%N] init (ny σ0)) as [[resp|e] m1] eqn:H; [|by vm_compute in H].
  destruct (accepted_init_acts_once [21%N] init (ny σ0) resp m1 [OSeal (MkId 1) [] [5%N]] [22%N] H) as [Hagain Hreset].
  split; [apply Hagain; intros Hin%list_elem_of_singleton; discriminate|].
  cbn [foldl] in Hreset. rewrite Hreset. vm_compute in H. injection H as <- <-. vm_compute. discriminate.
Defined.

(** A channel that reorders: X takes Y's answer before Y's earlier init. X, no
    longer waiting, accepts the init and replaces its session; Y has
    yielded and ignores the answer.  The two hold different sessions, and a
    frame of one does not open at the other. *)
Definition x1 := begin_handshake [10%N] (MkId 2) 1000 (nx σ0).
Definition y1 := begin_handshake [20%N] (MkId 1) 1000 (ny σ0).
Definition y2 := receive [21%N] (MInit x1.1) y1.2.
Definition x2 := receive [] (default (MInit y1.1) (head y2.1)) x1.2.
Definition x3 := receive [11%N] (MInit y1.1) x2.2.
Definition y3 := receive [] (default (MInit y1.1) (head x3.1)) y2.2.
Example reordered_cross_splits_the_session :
  has_session x3.2 (MkId 2) = true ∧ has_session y3.2 (MkId 1) = true ∧
  has_pending x3.2 (MkId 2) = false ∧ has_pending y3.2 (MkId 1) = false ∧
  match seal_for (MkId 2) [] [7%N] x3.2 with
  | (Ok frame, _) => (open_from (MkId 1) [] frame y3.2).1 = Err (SmSession AeadFailed)
  | _ => False
  end.
Proof. split_and!; vm_compute; reflexivity. Qed.
End ToyNet.
