(* ===== verification/StoreBase.v ===== *)
(** What the parts of the store share: its errors ([airc-store/src/error.rs]), the
    integer columns, and the mapping of rows; and the refinement of one fallible machine
    by another, over runs of calls, an error the specification does not make being a
    [fault]; and the order of text ([header_query.rs]). *)
From stdpp Require Import base gmap strings list numbers.
From Stdlib Require Import Lia ZifyN.
From S2P Require Import Prelude.
From S2P Require Import WorkModel.
From S2P Require Import CoreTranscript.

(** A database error: an insert that inserted nothing, or another with its text. *)
Inductive DbErr := RecordNotInserted | DbError (message : rstring).

Inductive StoreError :=
| Io (message : rstring)
| Database (error : DbErr)
| LockPoisoned
| NotAdmitted
| Migration (message : rstring)
| AheadOfBinary (versions : list rstring)
| DuplicateEventId (id : N)
| UnknownTranscriptKind (kind : rstring)
| InvalidStoredValue (field : rstring) (value : Z)
| InvalidStoredEnumString (column value : rstring)
| NotFound (what : rstring)
| PeerPubkeyConflict (peer_id : PeerId) (stored attempted : rstring)
| WrongPubkeyLength (got : N)
| Base64 (message : rstring)
| Codec (message : rstring).

(** ** Integer columns *)
Definition i64_max : Z := 9223372036854775807.
(** [n as i64] and [n as u64]. *)
Definition as_i64 (n : N) : Z :=
  if (n <? 9223372036854775808)%N then Z.of_N n else (Z.of_N n - 18446744073709551616)%Z.
Definition as_u64 (n : Z) : N := Z.to_N (n mod 18446744073709551616).
Definition u64_to_i64 (field : rstring) (value : N) : result StoreError Z :=
  if (Z.of_N value <=? i64_max)%Z then Ok (Z.of_N value) else Err (InvalidStoredValue field (Z.of_N value)).
Definition i64_to_u64 (field : rstring) (value : Z) : result StoreError N :=
  if (0 <=? value)%Z then Ok (Z.to_N value) else Err (InvalidStoredValue field value).

Lemma as_i64_small n : (Z.of_N n ≤ i64_max)%Z → as_i64 n = Z.of_N n.
Proof. unfold as_i64, i64_max. destruct (N.ltb_spec n 9223372036854775808); [done|lia]. Qed.
Lemma as_u64_small n : (Z.of_N n ≤ i64_max)%Z → as_u64 (Z.of_N n) = n.
Proof. unfold as_u64, i64_max. intros. rewrite Z.mod_small by lia. apply N2Z.id. Qed.
(** The cast to the column and back is the identity on every u64. *)
Lemma as_u64_i64 n : is_u64 n → as_u64 (as_i64 n) = n.
Proof.
  unfold is_u64, u64_modulus, as_u64, as_i64. intros Hn. destruct (N.ltb_spec n 9223372036854775808).
  - rewrite Z.mod_small by lia. apply N2Z.id.
  - rewrite <- (Z.mod_unique _ _ (-1) (Z.of_N n)); [apply N2Z.id|left; lia|lia].
Qed.

(** ** Rows *)
(** [rows.into_iter().map(f).collect()]: every row, or the first error. *)
Fixpoint collect {E A B} (f : A → result E B) (rows : list A) : result E (list B) :=
  match rows with
  | [] => Ok []
  | r :: rows => b ← f r; l ← collect f rows; Ok (b :: l)
  end.
(** [Option::map(f).transpose()]. *)
Definition optional {A B E} (f : A → result E B) (o : option A) : result E (option B) :=
  match o with Some a => b ← f a; Ok (Some b) | None => Ok None end.
Lemma collect_ok {E A B} (f : A → result E B) (g : A → B) l :
  (∀ x, x ∈ l → f x = Ok (g x)) → collect f l = Ok (g <$> l).
Proof.
  induction l as [|x l IH]; intros Hf; [done|]. cbn. rewrite Hf by (by left). cbn.
  rewrite IH by (intros; apply Hf; by right). done.
Qed.
Lemma collect_Forall2 {E A B} (f : A → result E B) rows l :
  collect f rows = Ok l → Forall2 (λ r b, f r = Ok b) rows l.
Proof.
  revert l. induction rows as [|r rows IH]; intros l; cbn; [intros [= <-]; constructor|].
  unfold mbind, result_bind. destruct (f r) eqn:E1; [|done]. destruct (collect f rows); [|done].
  intros [= <-]. constructor; [done|]. by apply IH.
Qed.

(** The error of a statement, as the store's and the sink's callers see it. *)
Definition map_db {S E A} (f : DbErr → E) (m : ST S DbErr A) : ST S E A := λ s,
  match m s with (Ok a, s) => (Ok a, s) | (Err e, s) => (Err (f e), s) end.

Section runs.
Context {Call Answer Error S : Type}.
Variable run : Call → ST S Error Answer.
(** A run, with what each call answered. *)
Fixpoint run_calls (ks : list Call) (s : S) : list (Call * result Error Answer) * S :=
  match ks with
  | [] => ([], s)
  | k :: ks =>
      let (r, s) := run k s in
      let (trace, s) := run_calls ks s in
      ((k, r) :: trace, s)
  end.
End runs.

Section refines.
Context {Call Answer Error C M : Type}.
Variables (run : Call → ST C Error Answer) (spec : Call → ST M Error Answer).
Variable fault : Error → Prop.
Variable agree : Answer → Answer → Prop.

(** The specification gives the answers of a trace, up to [agree], and its errors;
    a call that faulted did nothing, or did its work and failed to report it. *)
Inductive explains : M → list (Call * result Error Answer) → M → Prop :=
| explains_nil m : explains m [] m
| explains_ok k a a' m trace m' :
    (spec k m).1 = Ok a' → agree a a' → explains (spec k m).2 trace m' → explains m ((k, Ok a) :: trace) m'
| explains_err k e m trace m' :
    (spec k m).1 = Err e → explains (spec k m).2 trace m' → explains m ((k, Err e) :: trace) m'
| explains_nothing k e m trace m' : fault e → explains m trace m' → explains m ((k, Err e) :: trace) m'
| explains_unreported k e m trace m' :
    fault e → explains (spec k m).2 trace m' → explains m ((k, Err e) :: trace) m'.

(** One call, from related states. *)
Definition call_refines (R : C → M → Prop) (k : Call) (s : C) (m : M) : Prop :=
  match (run k s).1 with
  | Ok a => ∃ a', (spec k m).1 = Ok a' ∧ agree a a' ∧ R (run k s).2 (spec k m).2
  | Err e =>
      (spec k m).1 = Err e ∧ R (run k s).2 (spec k m).2 ∨
      fault e ∧ (R (run k s).2 m ∨ R (run k s).2 (spec k m).2)
  end.
Lemma run_refines (R : C → M → Prop) (fits : Call → Prop) ks s m :
  (∀ k s m, fits k → R s m → call_refines R k s m) → R s m → Forall fits ks →
  ∃ m', explains m (run_calls run ks s).1 m' ∧ R (run_calls run ks s).2 m'.
Proof.
  intros Hcall Hs Hk. revert s m Hs. induction Hk as [|k ks Hk _ IH]; intros s m Hs;
    [by exists m; split; [constructor|]|].
  cbn [run_calls]. pose proof (Hcall k s m Hk Hs) as Ha. unfold call_refines in Ha.
  destruct (run k s) as [r s1]. cbn [fst snd] in Ha.
  assert (∃ m1, R s1 m1 ∧ ∀ trace m', explains m1 trace m' → explains m ((k, r) :: trace) m') as (m1 & Hs1 & Hex).
  { destruct r as [a|e].
    - destruct Ha as (a' & ? & ? & ?). eexists. split; [done|]. intros. by eapply explains_ok.
    - destruct Ha as [[? ?]|[? [?|?]]]; eexists; (split; [done|]); intros;
        [by eapply explains_err|by apply explains_nothing|by apply explains_unreported]. }
  destruct (IH s1 m1 Hs1) as (m' & Hm' & Hs'). destruct (run_calls run ks s1) as [trace s2].
  exists m'. split; [by apply Hex|done].
Qed.
End refines.

(** * Text order in the store: header_query.rs *)
#[local] Ltac Zify.zify_post_hook ::= Z.to_euclidean_division_equations.

(** ** Lexicographic order *)
Fixpoint lex_lt (a b : list N) : bool :=
  match a, b with
  | _, [] => false
  | [], _ :: _ => true
  | x :: a, y :: b => (x <? y)%N || ((x =? y)%N && lex_lt a b)
  end.
Definition text_lt (a b : rstring) : bool := lex_lt (as_bytes a) (as_bytes b).
Definition text_ge (a b : rstring) : bool := negb (text_lt a b).

(** [char::from_u32]. *)
Definition char_from_u32 (code : N) : option N :=
  if (code <? 55296)%N || ((57343 <? code)%N && (code <? 1114112)%N) then Some code else None.
Fixpoint successor_loop (chars : list N) : option rstring :=   (* the characters, last first *)
  match chars with
  | [] => None
  | last :: chars =>
      let next := if (last + 1 =? 55296)%N then char_from_u32 57344 else char_from_u32 (last + 1) in
      match next with
      | Some next => Some (reverse (next :: chars))
      | None => successor_loop chars
      end
  end.
Definition successor (prefix : rstring) : option rstring := successor_loop (reverse prefix).

(** The strings of Rust: sequences of Unicode scalar values. *)
Definition is_scalar (c : N) : Prop := (c < 55296 ∨ 57343 < c < 1114112)%N.
Definition is_str (s : rstring) : Prop := Forall is_scalar s.

(** ** UTF-8 keeps the order *)
Lemma lex_cons x a y b : lex_lt (x :: a) (y :: b) = true ↔ (x < y)%N ∨ x = y ∧ lex_lt a b = true.
Proof. cbn. rewrite orb_true_iff, andb_true_iff, N.ltb_lt, N.eqb_eq. done. Qed.
Lemma lex_app q a b : lex_lt (q ++ a) (q ++ b) = lex_lt a b.
Proof. induction q as [|x q IH]; [done|]. cbn. by rewrite N.ltb_irrefl, N.eqb_refl. Qed.

Lemma char_utf8_lt c d u v : (c < 1114112)%N → (d < 1114112)%N → (c < d)%N →
  lex_lt (char_utf8 c ++ u) (char_utf8 d ++ v) = true.
Proof.
  intros Hc Hd Hlt. unfold char_utf8.
  destruct (N.ltb_spec c 128), (N.ltb_spec d 128), (N.ltb_spec c 2048), (N.ltb_spec d 2048),
    (N.ltb_spec c 65536), (N.ltb_spec d 65536); try lia; cbn [app]; rewrite !lex_cons; lia.
Qed.
Lemma lex_asym a b : lex_lt a b = true → lex_lt b a = false.
Proof.
  revert b. induction a as [|x a IH]; intros [|y b]; [done..|]. rewrite lex_cons. intros H.
  apply not_true_iff_false. rewrite lex_cons. intros [?|[-> Hb]]; [lia|]. destruct H as [?|[_ Ha]]; [lia|].
  apply IH in Ha. congruence.
Qed.
Definition below_max (c : N) : Prop := (c < 1114112)%N.
Lemma utf8_order a b : Forall below_max a → Forall below_max b → text_lt a b = lex_lt a b.
Proof.
  unfold text_lt, as_bytes. intros Ha. revert b. induction Ha as [|x a Hx Ha IH]; intros b Hb.
  - destruct b as [|y b]; [done|]. cbn. unfold char_utf8. by repeat case_match.
  - destruct Hb as [|y b Hy Hb]; [cbn; unfold char_utf8; by repeat case_match|]. cbn [mbind list_bind].
    destruct (N.lt_trichotomy x y) as [Hlt|[->|Hlt]].
    + rewrite char_utf8_lt by done. symmetry. apply lex_cons. by left.
    + rewrite lex_app, IH by done. cbn. by rewrite N.ltb_irrefl, N.eqb_refl.
    + rewrite (lex_asym _ _ (char_utf8_lt y x _ _ Hy Hx Hlt)). symmetry. apply lex_asym, lex_cons. by left.
Qed.
Lemma scalar_bound s : is_str s → Forall below_max s.
Proof. intros Hs. eapply list.Forall_impl; [exact Hs|]. unfold is_scalar, below_max. intros c ?. lia. Qed.

(** ** The range of a prefix *)
Definition char_max : N := 1114111.

Lemma lex_prefix_ge p w : lex_lt (p ++ w) p = false.
Proof. rewrite <- (app_nil_r p) at 2. rewrite lex_app. by destruct w. Qed.
(** Between two strings with a common prefix, everything has that prefix. *)
Lemma lex_between q a b v : lex_lt v (q ++ a) = false → lex_lt v (q ++ b) = true →
  ∃ w, v = q ++ w ∧ lex_lt w a = false ∧ lex_lt w b = true.
Proof.
  revert v. induction q as [|x q IH]; intros v Ha Hb; [by exists v|]. destruct v as [|y v]; [done|].
  cbn [app] in *. apply not_true_iff_false in Ha. rewrite lex_cons in Ha, Hb.
  assert (y = x) as -> by (destruct (N.lt_trichotomy y x) as [|[|]]; [tauto|done|lia]).
  destruct (IH v) as (w & -> & ? & ?); [apply not_true_iff_false; tauto|naive_solver lia|]. by exists w.
Qed.
Lemma lex_max_prefix k w : is_str w → lex_lt w (replicate k char_max) = false → replicate k char_max `prefix_of` w.
Proof.
  revert w. induction k as [|k IH]; intros w Hw Hl; [apply prefix_nil|]. destruct w as [|y w]; [done|].
  cbn [replicate] in *. apply list.Forall_cons in Hw as [Hy Hw]. apply not_true_iff_false in Hl. rewrite lex_cons in Hl.
  assert (y = char_max) as -> by (unfold is_scalar, char_max in *; lia). apply prefix_cons, IH; [done|].
  apply not_true_iff_false. tauto.
Qed.

(** What [successor] does: it drops a run of the last character and steps what
    remains. *)
Definition next_char (c : N) : N := if (c + 1 =? 55296)%N then 57344%N else (c + 1)%N.
Lemma successor_spec p : is_str p →
  (∃ q c k, p = q ++ c :: replicate k char_max ∧ c ≠ char_max ∧ is_scalar c ∧ successor p = Some (q ++ [next_char c])) ∨
  (∃ k, p = replicate k char_max ∧ successor p = None).
Proof.
  intros Hp%Forall_reverse. unfold successor. remember (reverse p) as r eqn:Hr.
  apply (f_equal reverse) in Hr. rewrite reverse_involutive in Hr. subst p.
  induction Hp as [|c r Hc Hr IH].
  { right. by exists O. }
  cbn [successor_loop]. destruct (decide (c = char_max)) as [->|Hne].
  - change (if (char_max + 1 =? 55296)%N then char_from_u32 57344 else char_from_u32 (char_max + 1)) with (@None N).
    cbv zeta iota.
    destruct IH as [(q & d & k & Hq & Hd & Hs & He)|(k & Hk & He)]; rewrite He, reverse_cons.
    + left. exists q, d, (S k). rewrite Hq, <- app_assoc, replicate_S_end. by split_and!.
    + right. exists (S k). by rewrite Hk, replicate_S_end.
  - left. exists (reverse r), c, O. rewrite reverse_cons. split_and!; [done..|].
    unfold next_char. destruct (N.eqb_spec (c + 1) 55296).
    { change (char_from_u32 57344) with (Some 57344%N). cbv iota. by rewrite reverse_cons. }
    unfold char_from_u32. unfold is_scalar, char_max in *.
    destruct (N.ltb_spec (c + 1) 55296); cbn [orb andb]; [by rewrite reverse_cons|].
    destruct (N.ltb_spec 57343 (c + 1)); [|lia]. destruct (N.ltb_spec (c + 1) 1114112); [|lia]. cbn [orb andb]. by rewrite reverse_cons.
Qed.
Lemma next_char_step c d : is_scalar c → is_scalar d → c ≠ char_max → (c ≤ d)%N → (d < next_char c)%N → d = c.
Proof. unfold is_scalar, next_char, char_max. destruct (N.eqb_spec (c + 1) 55296); lia. Qed.
Lemma next_char_scalar c : is_scalar c → c ≠ char_max → is_scalar (next_char c) ∧ (c < next_char c)%N.
Proof. unfold is_scalar, next_char, char_max. destruct (N.eqb_spec (c + 1) 55296); lia. Qed.

(** The range test of the store: at least the prefix, below its successor. *)
Definition in_prefix_range (value value_prefix : rstring) : bool :=
  match successor value_prefix with
  | Some upper => text_ge value value_prefix && text_lt value upper
  | None => if (length value_prefix =? 0)%nat then true else text_ge value value_prefix
  end.

(** The store's prefix test is exact: for Rust strings, a value lies between a
    prefix and the prefix's [successor] in SQLite's byte order exactly when it
    starts with the prefix, whatever the last characters of the prefix, the
    surrogate gap and [char::MAX] included. *)
Theorem prefix_range_exact p v : is_str p → is_str v → in_prefix_range v p = starts_with v p.
Proof.
  intros Hp Hv. apply eq_true_iff_eq. unfold in_prefix_range, starts_with, text_ge. rewrite bool_decide_eq_true.
  destruct (successor_spec p Hp) as [(q & c & k & -> & Hne & Hc & ->)|(k & -> & ->)].
  - destruct (next_char_scalar c Hc Hne) as [Hn Hlt].
    assert (is_str (q ++ [next_char c])) as Hu.
    { apply list.Forall_app in Hp as [Hq _]. apply list.Forall_app. split; [done|]. by constructor. }
    rewrite !utf8_order by (by apply scalar_bound). rewrite andb_true_iff, negb_true_iff. split.
    + intros [Hge Hup]. destruct (lex_between q _ _ v Hge Hup) as (w & -> & Hw1 & Hw2). apply prefix_app.
      destruct w as [|d w]; [done|]. apply not_true_iff_false in Hw1. rewrite lex_cons in Hw1, Hw2.
      apply list.Forall_app in Hv as [_ Hv]. apply list.Forall_cons in Hv as [Hd Hw].
      assert (d = c) as ->.
      { apply next_char_step; [done..|lia|]. destruct Hw2 as [?|[_ Hw2]]; [done|]. by destruct w. }
      apply prefix_cons, lex_max_prefix; [done|]. apply not_true_iff_false. tauto.
    + intros [w ->]. split; [apply lex_prefix_ge|]. rewrite <- app_assoc, lex_app. cbn [app].
      apply lex_cons. by left.
  - destruct k as [|k]; [split; [intros _; apply prefix_nil|done]|]. cbn [length replicate Nat.eqb].
    change (char_max :: replicate k char_max) with (replicate (S k) char_max) in *.
    rewrite utf8_order by (by apply scalar_bound). rewrite negb_true_iff. split.
    + by apply lex_max_prefix.
    + intros [w ->]. apply lex_prefix_ge.
Qed.

Lemma prefix_range_exact_witness :
  in_prefix_range (str "ab" ++ [55295; 1114111; 7])%N (str "ab" ++ [55295; 1114111])%N =
  starts_with (str "ab" ++ [55295; 1114111; 7])%N (str "ab" ++ [55295; 1114111])%N.
Proof.
  apply prefix_range_exact.
  - unfold is_str, is_scalar, str. cbn. repeat constructor; lia.
  - unfold is_str, is_scalar, str. cbn. repeat constructor; lia.
Defined.
