(* ===== verification/TrustStore.v ===== *)
(** The peer trust store: [airc-store/src/{peer_trust,sqlite/trust_ops}.rs] and the
    trust registry over it, [airc-trust/src/lib.rs].

    SQLite is a parameter, the class [PeerDb]: one method per statement the code
    runs, each of which may fail.  [PeerDbLaws] gives their documented effect on the
    two tables, keyed by their primary keys; a statement that fails changes
    neither.  A transaction that only reads and then writes one row is that
    write.  Base64 is a parameter too. *)
From stdpp Require Import base gmap strings list numbers.
From S2P Require Import Prelude.
From S2P Require Import WorkModel.
From S2P Require Import StoreBase.
From S2P Require Import ProtoSession.
From S2P Require Import ProtoKeys.

(** ** peer_trust.rs *)
Definition tier_wire_str (t : TrustTier) : rstring :=
  match t with
  | OwnMachine => str "own_machine" | OwnAccount => str "own_account"
  | Friend => str "friend" | Untrusted => str "untrusted"
  end.
Definition tier_from_wire_str (s : rstring) : option TrustTier :=
  if decide (s = str "own_machine") then Some OwnMachine
  else if decide (s = str "own_account") then Some OwnAccount
  else if decide (s = str "friend") then Some Friend
  else if decide (s = str "untrusted") then Some Untrusted
  else None.
Definition default_for_new_peer : TrustTier := Untrusted.

Record StoredPeer := MkStoredPeer {
  sp_peer_id : PeerId;
  sp_pubkey_b64 : rstring;
  sp_added_at_ms : N;
  sp_tier : TrustTier;
  sp_endpoints_json : option rstring;
  sp_last_seen_ms : N;
  sp_endpoints_advertised_at_ms : N;
  sp_endpoints_peer_id : option PeerId;
}.
Record RotationAuditEntry := MkAuditEntry {
  ra_peer_id : PeerId;
  ra_prev_pubkey_b64 : rstring;
  ra_next_pubkey_b64 : rstring;
  ra_sequence : N;
  ra_rotated_at_ms : N;
  ra_applied_at_ms : N;
}.

(** ** Rows, with their [i64] columns *)
Record TrustRow := MkTrustRow {
  tr_pubkey_b64 : rstring;
  tr_added_at_ms : Z;
  tr_tier : rstring;
  tr_endpoints_json : option rstring;
  tr_last_seen_ms : option Z;
  tr_endpoints_advertised_at_ms : option Z;
  tr_endpoints_peer_id : option PeerId;
}.
#[export] Instance eta_TrustRow : Eta TrustRow :=
  λ r, MkTrustRow (tr_pubkey_b64 r) (tr_added_at_ms r) (tr_tier r) (tr_endpoints_json r) (tr_last_seen_ms r)
         (tr_endpoints_advertised_at_ms r) (tr_endpoints_peer_id r).
Record AuditRow := MkAuditRow {
  au_prev_pubkey_b64 : rstring;
  au_next_pubkey_b64 : rstring;
  au_rotated_at_ms : Z;
  au_applied_at_ms : Z;
}.

Definition stored_last_seen_ms (column : option Z) (added_at_ms : N) : result StoreError N :=
  match column with
  | Some value => i64_to_u64 (str "peer_trust.last_seen_ms") value
  | None => Ok added_at_ms
  end.
Definition stored_endpoints_stamp_ms (column : option Z) : result StoreError N :=
  match column with
  | Some value => i64_to_u64 (str "peer_trust.endpoints_advertised_at_ms") value
  | None => Ok 0%N
  end.
Definition parse_tier (s : rstring) : result StoreError TrustTier :=
  ok_or (InvalidStoredEnumString (str "peer_trust.tier") s) (tier_from_wire_str s).

(** The peer a row reads as. *)
Definition read_row (peer_id : PeerId) (row : TrustRow) : result StoreError StoredPeer :=
  tier ← parse_tier (tr_tier row);
  added_at_ms ← i64_to_u64 (str "peer_trust.added_at_ms") (tr_added_at_ms row);
  last_seen ← stored_last_seen_ms (tr_last_seen_ms row) added_at_ms;
  stamp ← stored_endpoints_stamp_ms (tr_endpoints_advertised_at_ms row);
  Ok (MkStoredPeer peer_id (tr_pubkey_b64 row) added_at_ms tier (tr_endpoints_json row) last_seen stamp
        (tr_endpoints_peer_id row)).

(** ** The database *)
Class PeerDb (S : Type) := {
  admit_write : ST S StoreError unit;
  open_store : ST S StoreError unit;
  db_peers : ST S StoreError (list (PeerId * TrustRow));
  db_find : PeerId → ST S StoreError (option TrustRow);
  db_insert_ignore : PeerId → TrustRow → ST S StoreError unit;   (* ON CONFLICT DO NOTHING *)
  db_upsert_key : PeerId → TrustRow → ST S StoreError unit;      (* ON CONFLICT UPDATE key, added_at *)
  db_update : PeerId → TrustRow → ST S StoreError unit;
  db_delete : PeerId → ST S StoreError unit;
  db_audit_insert : PeerId → Z → AuditRow → ST S StoreError unit;
  db_audit : PeerId → ST S StoreError (list (Z * AuditRow));     (* ORDER BY sequence *)
}.

Section store.
Context {S : Type} `{!PeerDb S}.

Definition load_peers : ST S StoreError (list StoredPeer) :=
  rows ← db_peers;
  st_lift (collect (λ r, read_row r.1 r.2) rows).

Definition add_peer_trust_with_tier (peer_id : PeerId) (pubkey_b64 : rstring) (added_at_ms : N) (tier : TrustTier)
    : ST S StoreError StoredPeer :=
  _ ← admit_write;
  added ← st_lift (u64_to_i64 (str "peer_trust.added_at_ms") added_at_ms);
  seen ← st_lift (u64_to_i64 (str "peer_trust.last_seen_ms") added_at_ms);
  _ ← db_insert_ignore peer_id (MkTrustRow pubkey_b64 added (tier_wire_str tier) None (Some seen) None None);
  stored ← db_find peer_id;
  match stored with
  | None => st_throw (Database (DbError (str "peer_trust insert returned no stored row")))
  | Some row =>
      if decide (tr_pubkey_b64 row ≠ pubkey_b64)
      then st_throw (PeerPubkeyConflict peer_id (tr_pubkey_b64 row) pubkey_b64)
      else st_lift (read_row peer_id row)
  end.
Definition add_peer_trust (peer_id : PeerId) (pubkey_b64 : rstring) (added_at_ms : N) : ST S StoreError StoredPeer :=
  _ ← admit_write;
  add_peer_trust_with_tier peer_id pubkey_b64 added_at_ms default_for_new_peer.

Definition replace_peer_trust (peer_id : PeerId) (pubkey_b64 : rstring) (added_at_ms : N) : ST S StoreError StoredPeer :=
  _ ← admit_write;
  existing ← db_find peer_id;
  let tier := default default_for_new_peer (existing ≫= λ row, tier_from_wire_str (tr_tier row)) in
  let endpoints := existing ≫= tr_endpoints_json in
  let last_seen := existing ≫= tr_last_seen_ms in
  let stamp := existing ≫= tr_endpoints_advertised_at_ms in
  let host := existing ≫= tr_endpoints_peer_id in
  added ← st_lift (u64_to_i64 (str "peer_trust.added_at_ms") added_at_ms);
  seen ← st_lift (match last_seen with
                  | Some value => Ok value
                  | None => u64_to_i64 (str "peer_trust.last_seen_ms") added_at_ms
                  end);
  _ ← db_upsert_key peer_id (MkTrustRow pubkey_b64 added (tier_wire_str tier) endpoints (Some seen) stamp host);
  seen ← st_lift (stored_last_seen_ms last_seen added_at_ms);
  stamp ← st_lift (stored_endpoints_stamp_ms stamp);
  mret (MkStoredPeer peer_id pubkey_b64 added_at_ms tier endpoints seen stamp host).

Definition remove_peer_trust (peer_id : PeerId) : ST S StoreError (option StoredPeer) :=
  _ ← admit_write;
  stored ← db_find peer_id;
  match stored with
  | None => mret None
  | Some row =>
      _ ← db_delete peer_id;
      p ← st_lift (read_row peer_id row);
      mret (Some p)
  end.

Definition set_peer_trust_tier (peer_id : PeerId) (tier : TrustTier) : ST S StoreError (option StoredPeer) :=
  _ ← admit_write;
  existing ← db_find peer_id;
  match existing with
  | None => mret None
  | Some row =>
      let row := row <| tr_tier := tier_wire_str tier |> in
      _ ← db_update peer_id row;
      p ← st_lift (read_row peer_id row);
      mret (Some p)
  end.

Definition set_peer_trust_endpoints (peer_id : PeerId) (endpoints_json : option rstring) (advertised_at_ms : N)
    (endpoints_peer_id : option PeerId) : ST S StoreError (option StoredPeer) :=
  _ ← admit_write;
  existing ← db_find peer_id;
  match existing with
  | None => mret None
  | Some row =>
      tier ← st_lift (parse_tier (tr_tier row));
      added_at_ms ← st_lift (i64_to_u64 (str "peer_trust.added_at_ms") (tr_added_at_ms row));
      stored_stamp ← st_lift (stored_endpoints_stamp_ms (tr_endpoints_advertised_at_ms row));
      if (advertised_at_ms <? stored_stamp)%N then
        seen ← st_lift (stored_last_seen_ms (tr_last_seen_ms row) added_at_ms);
        mret (Some (MkStoredPeer peer_id (tr_pubkey_b64 row) added_at_ms tier (tr_endpoints_json row) seen
                      stored_stamp (tr_endpoints_peer_id row)))
      else
        stamp ← st_lift (u64_to_i64 (str "peer_trust.endpoints_advertised_at_ms") advertised_at_ms);
        _ ← db_update peer_id
              (row <| tr_endpoints_json := endpoints_json |> <| tr_endpoints_advertised_at_ms := Some stamp |>
                   <| tr_endpoints_peer_id := endpoints_peer_id |>);
        seen ← st_lift (stored_last_seen_ms (tr_last_seen_ms row) added_at_ms);
        mret (Some (MkStoredPeer peer_id (tr_pubkey_b64 row) added_at_ms tier endpoints_json seen
                      advertised_at_ms endpoints_peer_id))
  end.

Definition touch_peer_last_seen (peer_id : PeerId) (seen_at_ms : N) : ST S StoreError (option StoredPeer) :=
  _ ← admit_write;
  existing ← db_find peer_id;
  match existing with
  | None => mret None
  | Some row =>
      tier ← st_lift (parse_tier (tr_tier row));
      added_at_ms ← st_lift (i64_to_u64 (str "peer_trust.added_at_ms") (tr_added_at_ms row));
      current ← st_lift (stored_last_seen_ms (tr_last_seen_ms row) added_at_ms);
      let next := N.max current seen_at_ms in
      _ ← (if (next =? current)%N then mret tt
           else
             value ← st_lift (u64_to_i64 (str "peer_trust.last_seen_ms") next);
             db_update peer_id (row <| tr_last_seen_ms := Some value |>));
      stamp ← st_lift (stored_endpoints_stamp_ms (tr_endpoints_advertised_at_ms row));
      mret (Some (MkStoredPeer peer_id (tr_pubkey_b64 row) added_at_ms tier (tr_endpoints_json row) next
                    stamp (tr_endpoints_peer_id row)))
  end.

Definition append_peer_rotation_audit (e : RotationAuditEntry) : ST S StoreError unit :=
  _ ← admit_write;
  sequence ← st_lift (u64_to_i64 (str "peer_rotation_audit.sequence") (ra_sequence e));
  rotated ← st_lift (u64_to_i64 (str "peer_rotation_audit.rotated_at_ms") (ra_rotated_at_ms e));
  applied ← st_lift (u64_to_i64 (str "peer_rotation_audit.applied_at_ms") (ra_applied_at_ms e));
  db_audit_insert (ra_peer_id e) sequence
    (MkAuditRow (ra_prev_pubkey_b64 e) (ra_next_pubkey_b64 e) rotated applied).

Definition read_audit (peer_id : PeerId) (r : Z * AuditRow) : result StoreError RotationAuditEntry :=
  sequence ← i64_to_u64 (str "peer_rotation_audit.sequence") r.1;
  rotated ← i64_to_u64 (str "peer_rotation_audit.rotated_at_ms") (au_rotated_at_ms r.2);
  applied ← i64_to_u64 (str "peer_rotation_audit.applied_at_ms") (au_applied_at_ms r.2);
  Ok (MkAuditEntry peer_id (au_prev_pubkey_b64 r.2) (au_next_pubkey_b64 r.2) sequence rotated applied).
Definition peer_rotation_audit (peer_id : PeerId) : ST S StoreError (list RotationAuditEntry) :=
  rows ← db_audit peer_id;
  st_lift (collect (read_audit peer_id) rows).
End store.

(** ** The registry's errors and codec *)
(** Unpadded URL-safe base64. *)
Class RotationCodec := { b64 : list N → rstring }.

(** The variants these operations return. *)
Inductive PeersStoreError :=
| PeersBase64 (message : rstring)
| PeersWrongPubkeyLength (got : N)
| Clock
| Store (e : StoreError)
| PubkeyConflict (peer_id : PeerId) (stored attempted : rstring)
| RotationVerification (e : RotationVerificationError)
| PrevPubkeyMismatch (peer_id : PeerId) (stored rotation_prev : rstring)
| SequenceNotMonotonic (peer_id : PeerId) (last_applied attempted : N)
| UnknownPeer (peer_id : PeerId).
Definition from_store_error (e : StoreError) : PeersStoreError :=
  match e with
  | PeerPubkeyConflict p stored attempted => PubkeyConflict p stored attempted
  | WrongPubkeyLength got => PeersWrongPubkeyLength got
  | Base64 message => PeersBase64 message
  | e => Store e
  end.
Definition on_store {S A} (m : ST S StoreError A) : ST S PeersStoreError A := λ s,
  match m s with
  | (Ok a, s) => (Ok a, s)
  | (Err e, s) => (Err (from_store_error e), s)
  end.

(** ** airc-trust/src/lib.rs *)
Definition detect_tier (self_peer_id : PeerId) (self_mesh : option rstring) (peer_id : PeerId)
    (peer_mesh : option rstring) (peer_is_on_this_machine : bool) : TrustTier :=
  if decide (peer_id = self_peer_id) then OwnMachine
  else if peer_is_on_this_machine then OwnMachine
  else
    match self_mesh, peer_mesh with
    | Some self_mesh, Some peer_mesh =>
        if negb (bool_decide (self_mesh = [])) && bool_decide (self_mesh = peer_mesh) then OwnAccount else Untrusted
    | _, _ => Untrusted
    end.

Section trust.
Context {S : Type} `{!PeerDb S, !Ed25519Crypto, !RotationCodec}.

(** [now] is the reading of the clock, [None] when it is before the epoch. *)
Definition now_ms (now : option N) : ST S PeersStoreError N := st_lift (ok_or Clock now).
Definition add (now : option N) (peer_id : PeerId) (pubkey : list N) : ST S PeersStoreError StoredPeer :=
  _ ← on_store open_store;
  now ← now_ms now;
  on_store (add_peer_trust peer_id (b64 pubkey) now).
Definition set_tier (peer_id : PeerId) (tier : TrustTier) : ST S PeersStoreError (option StoredPeer) :=
  on_store (_ ← open_store; set_peer_trust_tier peer_id tier).
Definition set_endpoints_json (peer_id : PeerId) (endpoints_json : option rstring) (advertised_at_ms : N)
    (endpoints_peer_id : option PeerId) : ST S PeersStoreError (option StoredPeer) :=
  on_store (_ ← open_store; set_peer_trust_endpoints peer_id endpoints_json advertised_at_ms endpoints_peer_id).
Definition touch_last_seen (peer_id : PeerId) (seen_at_ms : N) : ST S PeersStoreError (option StoredPeer) :=
  on_store (_ ← open_store; touch_peer_last_seen peer_id seen_at_ms).
Definition remove (peer_id : PeerId) : ST S PeersStoreError (option StoredPeer) :=
  on_store (_ ← open_store; remove_peer_trust peer_id).

Definition last_applied_sequence (peer_id : PeerId) : ST S PeersStoreError N :=
  entries ← on_store (peer_rotation_audit peer_id);
  mret (foldr N.max 0%N (ra_sequence <$> entries)).

(** The statements of [rotate], each of which other calls may come between: the signature and
    the stored key; the sequence, and the audit row to write; the audit row; the key. *)
Definition rotate_key (r : TrustRotation) : ST S PeersStoreError unit :=
  _ ← st_lift (match verify_rotation r with Ok _ => Ok tt | Err e => Err (RotationVerification e) end);
  _ ← on_store open_store;
  peers ← on_store load_peers;
  stored ← st_lift (ok_or (UnknownPeer (ro_peer_id r))
                      (head (filter (λ p, sp_peer_id p = ro_peer_id r) peers)));
  let stored_b64 := sp_pubkey_b64 stored in
  let prev_b64 := b64 (ro_prev_pubkey r) in
  if decide (stored_b64 ≠ prev_b64) then st_throw (PrevPubkeyMismatch (ro_peer_id r) stored_b64 prev_b64) else mret tt.
Definition rotate_sequence (now : option N) (r : TrustRotation) : ST S PeersStoreError RotationAuditEntry :=
  last_seq ← last_applied_sequence (ro_peer_id r);
  if (ro_sequence r <=? last_seq)%N
  then st_throw (SequenceNotMonotonic (ro_peer_id r) last_seq (ro_sequence r))
  else
    applied_at_ms ← now_ms now;
    mret (MkAuditEntry (ro_peer_id r) (b64 (ro_prev_pubkey r)) (b64 (ro_next_pubkey r)) (ro_sequence r) (ro_rotated_at_ms r)
            applied_at_ms).
Definition rotate_append (e : RotationAuditEntry) : ST S PeersStoreError unit := on_store (append_peer_rotation_audit e).
Definition rotate_replace (r : TrustRotation) (e : RotationAuditEntry) : ST S PeersStoreError StoredPeer :=
  on_store (replace_peer_trust (ro_peer_id r) (b64 (ro_next_pubkey r)) (ra_applied_at_ms e)).
(** [rotate] up to its last read, and its writes. *)
Definition rotate_checks (now : option N) (r : TrustRotation) : ST S PeersStoreError RotationAuditEntry :=
  _ ← rotate_key r; rotate_sequence now r.
Definition rotate_writes (r : TrustRotation) (e : RotationAuditEntry) : ST S PeersStoreError StoredPeer :=
  _ ← rotate_append e; rotate_replace r e.
Definition rotate (now : option N) (r : TrustRotation) : ST S PeersStoreError StoredPeer :=
  e ← rotate_checks now r;
  rotate_writes r e.
End trust.
