(* ===== verification/TrustThms.v ===== *)
(** What the trust store promises.  Calls one at a time: a stored key changes only by a
    rotation the old key signed, each rotation acts at most once, and every other field of
    a row moves only forward and only by its own operation, whatever statements the
    database fails.  Rotations beside other calls, statement by statement: what is left
    of that. *)
From stdpp Require Import base gmap strings list numbers.
From Stdlib Require Import Lia.
From S2P Require Import Prelude.
From S2P Require Import WorkModel.
From S2P Require Import ProtoSession.
From S2P Require Import ProtoKeys.
From S2P Require Import ProtoHandshake.
From S2P Require Import StoreBase.
From S2P Require Import TrustStore.

(** ** The database's promise *)
(** The two tables, by primary key; what each statement does to them. *)
Class PeerDbLaws (S : Type) `{!PeerDb S} := {
  trust_of : S → gmap PeerId TrustRow;
  audit_of : S → gmap (PeerId * Z) AuditRow;
  same_tables s s' := trust_of s' = trust_of s ∧ audit_of s' = audit_of s;
  law_admit s r s' : admit_write s = (r, s') → same_tables s s';
  law_open s r s' : open_store s = (r, s') → same_tables s s';
  law_peers s r s' : db_peers s = (r, s') →
    same_tables s s' ∧ ∀ l, r = Ok l → l ≡ₚ map_to_list (trust_of s);
  law_find p s r s' : db_find p s = (r, s') → same_tables s s' ∧ ∀ o, r = Ok o → o = trust_of s !! p;
  law_insert_ignore p row s r s' : db_insert_ignore p row s = (r, s') →
    audit_of s' = audit_of s ∧
    trust_of s' = if is_ok r && is_none (trust_of s !! p) then <[p := row]> (trust_of s) else trust_of s;
  law_upsert_key p row s r s' : db_upsert_key p row s = (r, s') →
    audit_of s' = audit_of s ∧
    trust_of s' = if is_ok r then
      <[p := match trust_of s !! p with
             | Some old => old <| tr_pubkey_b64 := tr_pubkey_b64 row |> <| tr_added_at_ms := tr_added_at_ms row |>
             | None => row
             end]> (trust_of s) else trust_of s;
  law_update p row s r s' : db_update p row s = (r, s') →
    audit_of s' = audit_of s ∧ trust_of s' = if is_ok r then <[p := row]> (trust_of s) else trust_of s;
  law_delete p s r s' : db_delete p s = (r, s') →
    audit_of s' = audit_of s ∧ trust_of s' = if is_ok r then delete p (trust_of s) else trust_of s;
  law_audit_insert p n row s r s' : db_audit_insert p n row s = (r, s') →
    trust_of s' = trust_of s ∧
    if is_ok r then audit_of s !! (p, n) = None ∧ audit_of s' = <[(p, n) := row]> (audit_of s)
    else audit_of s' = audit_of s;
  law_audit p s r s' : db_audit p s = (r, s') →
    same_tables s s' ∧ ∀ l, r = Ok l → ∀ n row, (n, row) ∈ l ↔ audit_of s !! (p, n) = Some row;
}.

Section trust.
Context {S : Type} `{!PeerDb S, !PeerDbLaws S, !Ed25519Crypto, !RotationCodec}.

(** Runs a monadic program in the goal: one case per outcome of each statement,
    with the statement's law. *)
Ltac db_law :=
  repeat match goal with
  | H : admit_write _ = _ |- _ => apply law_admit in H as [? ?]
  | H : open_store _ = _ |- _ => apply law_open in H as [? ?]
  | H : db_peers _ = _ |- _ => apply law_peers in H as [[? ?] ?]
  | H : db_find _ _ = _ |- _ => apply law_find in H as [[? ?] ?]
  | H : db_insert_ignore _ _ _ = _ |- _ => apply law_insert_ignore in H as [? ?]
  | H : db_upsert_key _ _ _ = _ |- _ => apply law_upsert_key in H as [? ?]
  | H : db_update _ _ _ = _ |- _ => apply law_update in H as [? ?]
  | H : db_delete _ _ = _ |- _ => apply law_delete in H as [? ?]
  | H : db_audit_insert _ _ _ _ = _ |- _ => apply law_audit_insert in H as [? ?]
  | H : db_audit _ _ = _ |- _ => apply law_audit in H as [[? ?] ?]
  | H : ∀ o, Ok ?x = Ok o → _ |- _ => specialize (H x eq_refl)
  | H : ∀ o, Err _ = Ok o → _ |- _ => clear H
  end.
(** Every table of the goal in terms of the first state's. *)
Ltac tables :=
  repeat match goal with
  | H : trust_of _ = _ |- _ => try rewrite !H in *; clear H
  | H : audit_of _ = _ |- _ => try rewrite !H in *; clear H
  end.
Ltac db_steps :=
  unfold same_tables in *; repeat first
    [ progress unfold mbind, mret, st_bind, st_ret, st_lift, st_throw in *
    | progress cbn beta iota delta [fst snd] in *
    | case_match ]; simplify_eq; db_law; cbn [is_ok is_none is_some negb andb] in *; simplify_eq.
Ltac db_run := db_steps; tables.

(** One row replaced by [f] of itself, or nothing. *)
Definition updates (p : PeerId) (f : TrustRow → TrustRow → Prop) (s s' : S) : Prop :=
  audit_of s' = audit_of s ∧
  (trust_of s' = trust_of s ∨
   ∃ row row', trust_of s !! p = Some row ∧ f row row' ∧ trust_of s' = <[p := row']> (trust_of s)).

Lemma add_effect p key t tier s :
  let s' := (add_peer_trust_with_tier p key t tier s).2 in
  audit_of s' = audit_of s ∧
  (trust_of s' = trust_of s ∨ trust_of s !! p = None ∧ ∃ row, trust_of s' = <[p := row]> (trust_of s)).
Proof.
  cbn zeta. unfold add_peer_trust_with_tier. db_run; (split; [done|]); try (by left);
    destruct (trust_of s !! p); cbn [is_none is_some negb andb] in *; try (by left); right; eauto.
Qed.

Lemma set_tier_effect p tier s :
  updates p (λ row row', row' = row <| tr_tier := tier_wire_str tier |>) s (set_peer_trust_tier p tier s).2.
Proof.
  unfold set_peer_trust_tier, updates. db_run; (split; [done|]); try (by left);
    right; eexists _, _; (split; [by symmetry; eassumption|]; by split).
Qed.

(** The stamp a row's column stands for. *)
Definition row_stamp (row : TrustRow) : Z := default 0%Z (tr_endpoints_advertised_at_ms row).
Definition fresher_endpoints (e : option rstring) (adv : N) (h : option PeerId) (row row' : TrustRow) : Prop :=
  (row_stamp row ≤ Z.of_N adv)%Z ∧
  row' = row <| tr_endpoints_json := e |> <| tr_endpoints_advertised_at_ms := Some (Z.of_N adv) |>
             <| tr_endpoints_peer_id := h |>.
Lemma stamp_read row n : stored_endpoints_stamp_ms (tr_endpoints_advertised_at_ms row) = Ok n → row_stamp row = Z.of_N n.
Proof.
  unfold stored_endpoints_stamp_ms, row_stamp, i64_to_u64. destruct (tr_endpoints_advertised_at_ms row); cbn.
  - case_match; [|done]. intros [= <-]. to_prop. lia.
  - by intros [= <-].
Qed.
Lemma u64_to_i64_ok f n z : u64_to_i64 f n = Ok z → z = Z.of_N n.
Proof. unfold u64_to_i64. case_match; [|done]. by intros [= <-]. Qed.
Lemma set_endpoints_effect p e adv h s :
  updates p (fresher_endpoints e adv h) s (set_peer_trust_endpoints p e adv h s).2.
Proof.
  unfold set_peer_trust_endpoints, updates. db_run; (split; [done|]); try (by left);
    right; eexists _, _; (split; [by symmetry; eassumption|]; split; [|reflexivity]); unfold fresher_endpoints; split;
    try (match goal with H : u64_to_i64 _ adv = Ok _ |- _ => by rewrite (u64_to_i64_ok _ _ _ H) end);
    match goal with H : stored_endpoints_stamp_ms _ = Ok _ |- _ => rewrite (stamp_read _ _ H) end; to_prop; lia.
Qed.

(** The last contact a row stands for. *)
Definition row_seen (row : TrustRow) : Z := default (tr_added_at_ms row) (tr_last_seen_ms row).
Definition later_contact (seen : N) (row row' : TrustRow) : Prop :=
  row' = row <| tr_last_seen_ms := Some (Z.max (row_seen row) (Z.of_N seen)) |>.
Lemma seen_read row a n : i64_to_u64 (str "peer_trust.added_at_ms") (tr_added_at_ms row) = Ok a →
  stored_last_seen_ms (tr_last_seen_ms row) a = Ok n → row_seen row = Z.of_N n.
Proof.
  unfold stored_last_seen_ms, row_seen, i64_to_u64. case_match; [|done]. intros [= <-].
  destruct (tr_last_seen_ms row); cbn; [case_match; [|done]|]; intros [= <-]; to_prop; lia.
Qed.
Lemma touch_effect p seen s : updates p (later_contact seen) s (touch_peer_last_seen p seen s).2.
Proof.
  unfold touch_peer_last_seen, updates. db_run; (split; [done|]); try (by left);
    right; eexists _, _; (split; [by symmetry; eassumption|]; split; [|reflexivity]); unfold later_contact;
    match goal with Hl : stored_last_seen_ms _ _ = Ok _, Ha : i64_to_u64 _ _ = Ok _, Hm : u64_to_i64 _ (N.max _ _) = Ok _ |- _ =>
      by rewrite (seen_read _ _ _ Ha Hl), <- N2Z.inj_max, (u64_to_i64_ok _ _ _ Hm) end.
Qed.

Lemma remove_effect p s :
  let s' := (remove_peer_trust p s).2 in
  audit_of s' = audit_of s ∧ (trust_of s' = trust_of s ∨ trust_of s' = delete p (trust_of s)).
Proof.
  cbn zeta. unfold remove_peer_trust. db_run; (split; [done|]); by auto.
Qed.

(** ** Rotations *)
Lemma load_peers_effect s r s' : load_peers s = (r, s') →
  same_tables s s' ∧ ∀ l p, r = Ok l → p ∈ l → ∃ row, trust_of s !! sp_peer_id p = Some row ∧
    tr_pubkey_b64 row = sp_pubkey_b64 p.
Proof.
  intros Hrun. unfold load_peers in Hrun. db_run; (split; [done|]); intros l p; [|done]. intros Hl Hp. apply collect_Forall2 in Hl. apply list_elem_of_lookup in Hp as [i Hi].
  eapply Forall2_lookup_r in Hl as ([q row] & Hrow & Hread); [|exact Hi]. cbn in Hread.
  assert ((q, row) ∈ map_to_list (trust_of s)) as Hin.
  { match goal with H : _ ≡ₚ _ |- _ => rewrite <- H end. by eapply list_elem_of_lookup_2. }
  apply elem_of_map_to_list in Hin. exists row.
  unfold read_row, mbind, result_bind in Hread. repeat (case_match; try done). injection Hread as <-. by cbn.
Qed.
Lemma audit_effect p s r s' : peer_rotation_audit p s = (r, s') →
  same_tables s s' ∧ ∀ l, r = Ok l → ∀ n row, audit_of s !! (p, n) = Some row →
    ∃ e, e ∈ l ∧ n = Z.of_N (ra_sequence e).
Proof.
  intros Hrun. unfold peer_rotation_audit in Hrun. db_run; (split; [done|]); intros l; [|done]. intros Hl n row Hn. apply collect_Forall2 in Hl.
  match goal with Hlaw : _ |- _ => apply Hlaw in Hn end.
  apply list_elem_of_lookup in Hn as [i Hi]. eapply Forall2_lookup_l in Hl as (e & He & Hread); [|exact Hi].
  exists e. split; [by eapply list_elem_of_lookup_2|]. unfold read_audit, mbind, result_bind in Hread.
  cbn [fst snd] in Hread.
  repeat (case_match; try done). injection Hread as <-. cbn.
  match goal with H : i64_to_u64 _ n = Ok _ |- _ => unfold i64_to_u64 in H; revert H end. case_match; [|done].
  intros [= <-]. to_prop. lia.
Qed.

(** What the checks of [rotate] establish, on the tables they read. *)
Definition rotation_allowed (r : TrustRotation) (s : S) : Prop :=
  verify_rotation r = Ok tt ∧
  (∃ row, trust_of s !! ro_peer_id r = Some row ∧ tr_pubkey_b64 row = b64 (ro_prev_pubkey r)) ∧
  ∀ n row, audit_of s !! (ro_peer_id r, n) = Some row → (n < Z.of_N (ro_sequence r))%Z.

Lemma foldr_max_ge (l : list N) x : x ∈ l → (x ≤ foldr N.max 0 l)%N.
Proof. induction l as [|y l IH]; cbn; intros Hx; [by apply elem_of_nil in Hx|]. apply elem_of_cons in Hx as [->|Hx]; [lia|]. apply IH in Hx. lia. Qed.

Lemma rotate_key_effect r s res s' : rotate_key r s = (res, s') →
  same_tables s s' ∧ (is_ok res = true → verify_rotation r = Ok tt ∧
    ∃ row, trust_of s !! ro_peer_id r = Some row ∧ tr_pubkey_b64 row = b64 (ro_prev_pubkey r)).
Proof.
  intros Hrun. unfold rotate_key, on_store in Hrun. db_steps;
    repeat match goal with H : load_peers _ = _ |- _ => apply load_peers_effect in H as [[? ?] ?] end;
    tables; (split; [done|]); try discriminate. intros _.
  match goal with H : ok_or _ (head (filter ?P ?l)) = Ok ?st |- _ =>
    assert (st ∈ filter P l) as Hst by (destruct (filter P l); [done|]; injection H as <-; by left) end.
  apply list_elem_of_filter in Hst as [Hpeer Hst]. rewrite <- Hpeer. split.
  - by match goal with H : verify_rotation r = Ok ?u |- _ => destruct u end.
  - match goal with H : ∀ l p, Ok _ = Ok l → p ∈ l → _ |- _ => destruct (H _ _ eq_refl Hst) as (row & Hrow & Hk) end.
    exists row. split; [done|]. rewrite Hk. by apply dec_stable.
Qed.
Lemma rotate_sequence_effect now r s res s' : rotate_sequence now r s = (res, s') →
  same_tables s s' ∧ ∀ e, res = Ok e →
    (∀ n row, audit_of s !! (ro_peer_id r, n) = Some row → (n < Z.of_N (ro_sequence r))%Z) ∧
    ra_peer_id e = ro_peer_id r ∧ ra_sequence e = ro_sequence r.
Proof.
  intros Hrun. unfold rotate_sequence, last_applied_sequence, on_store, now_ms in Hrun. db_steps;
    repeat match goal with H : peer_rotation_audit _ _ = _ |- _ => apply audit_effect in H as [[? ?] ?] end;
    tables; (split; [done|]); try discriminate.
  intros e [= <-]. cbn [ra_peer_id ra_sequence]. split; [|done]. intros n' row Hn.
  match goal with H : ∀ l, Ok _ = Ok l → _ |- _ => destruct (H _ eq_refl _ _ Hn) as (e & He & ->) end.
  apply (list_elem_of_fmap_2 ra_sequence), foldr_max_ge in He. to_prop. lia.
Qed.
Lemma rotate_checks_effect now r s res s' : rotate_checks now r s = (res, s') →
  same_tables s s' ∧ ∀ e, res = Ok e → rotation_allowed r s ∧
    ra_peer_id e = ro_peer_id r ∧ ra_sequence e = ro_sequence r.
Proof.
  unfold rotate_checks, mbind, st_bind. destruct (rotate_key r s) as [[u|e] s1] eqn:Hk; apply rotate_key_effect in Hk as [[Ht Ha] Hk].
  - intros [[Ht' Ha'] Hs]%rotate_sequence_effect. split; [split; congruence|]. intros e He.
    destruct (Hk eq_refl) as [? ?], (Hs e He) as (Hseq & ? & ?). rewrite Ha in Hseq. done.
  - intros [= <- <-]. split; [split|]; done.
Qed.

(** The writes: nothing; or the audit row; or the audit row and the key. *)
Definition key_replaced (r : TrustRotation) (s s' : S) : Prop :=
  ∃ row added, trust_of s' = <[ro_peer_id r := match trust_of s !! ro_peer_id r with
    | Some old => old <| tr_pubkey_b64 := b64 (ro_next_pubkey r) |> <| tr_added_at_ms := added |>
    | None => row
    end]> (trust_of s).
Definition audit_row_added (r : TrustRotation) (s s' : S) : Prop :=
  audit_of s !! (ro_peer_id r, Z.of_N (ro_sequence r)) = None ∧
  ∃ a, audit_of s' = <[(ro_peer_id r, Z.of_N (ro_sequence r)) := a]> (audit_of s).
Definition rotated (r : TrustRotation) (s s' : S) : Prop :=
  audit_row_added r s s' ∧ (trust_of s' = trust_of s ∨ key_replaced r s s').
Lemma rotate_append_effect r e s res s' : rotate_append e s = (res, s') →
  ra_peer_id e = ro_peer_id r → ra_sequence e = ro_sequence r →
  trust_of s' = trust_of s ∧ if is_ok res then audit_row_added r s s' else audit_of s' = audit_of s.
Proof.
  intros Hrun Hp Hn. unfold rotate_append, on_store, append_peer_rotation_audit in Hrun. rewrite Hp, Hn in Hrun. db_steps;
    repeat match goal with H : _ ∧ _ |- _ => destruct H end; try (split; congruence);
    match goal with H : u64_to_i64 _ (ro_sequence r) = Ok _ |- _ => apply u64_to_i64_ok in H as -> end;
    unfold audit_row_added; tables; (split; [done|]); (split; [done|]); by eexists.
Qed.
Lemma rotate_replace_effect r e s res s' : rotate_replace r e s = (res, s') →
  audit_of s' = audit_of s ∧ (trust_of s' = trust_of s ∨ key_replaced r s s').
Proof.
  intros Hrun. unfold rotate_replace, on_store, replace_peer_trust in Hrun. db_steps;
    repeat match goal with H : _ ∧ _ |- _ => destruct H end; (split; [congruence|]); unfold key_replaced; tables; try (by left); right; by eexists _, _.
Qed.
Lemma rotate_writes_effect r e s res s' : rotate_writes r e s = (res, s') →
  ra_peer_id e = ro_peer_id r → ra_sequence e = ro_sequence r →
  same_tables s s' ∧ is_ok res = false ∨ rotated r s s'.
Proof.
  intros Hrun Hp Hn. unfold rotate_writes, mbind, st_bind in Hrun.
  destruct (rotate_append e s) as [[u|err] s1] eqn:Ha; apply (rotate_append_effect r) in Ha as [Ht Ha]; try done; cbn [is_ok] in Ha.
  - right. apply rotate_replace_effect in Hrun as [Ha' Hk]. unfold rotated, audit_row_added, key_replaced in *.
    by rewrite Ha', <- Ht.
  - injection Hrun as <- <-. by left.
Qed.

Lemma rotate_effect now r s res s' : rotate now r s = (res, s') →
  same_tables s s' ∧ is_ok res = false ∨ rotation_allowed r s ∧ rotated r s s'.
Proof.
  intros Hrun. unfold rotate, mbind, st_bind in Hrun. destruct (rotate_checks now r s) as [[e|e] s1] eqn:Hc.
  - apply rotate_checks_effect in Hc as [[Ht Ha] Hok]. destruct (Hok e eq_refl) as (Hallow & Hp & Hn).
    apply rotate_writes_effect in Hrun as [[[Ht' Ha'] ?]|Hrot]; [|right|done|done].
    + left. split; [split; congruence|done].
    + split; [done|]. unfold rotated, audit_row_added, key_replaced in *. by rewrite <- Ht, <- Ha.
  - apply rotate_checks_effect in Hc as [? _]. injection Hrun as <- <-. by left.
Qed.

(** ** Runs of the registry *)
Inductive TrustOp :=
| TAdd (now : option N) (p : PeerId) (key : list N)
| TSetTier (p : PeerId) (tier : TrustTier)
| TEndpoints (p : PeerId) (e : option rstring) (advertised : N) (host : option PeerId)
| TTouch (p : PeerId) (seen : N)
| TRemove (p : PeerId)
| TRotate (now : option N) (r : TrustRotation).
Definition run_trust (s : S) (o : TrustOp) : S :=
  match o with
  | TAdd now p key => (add now p key s).2
  | TSetTier p tier => (set_tier p tier s).2
  | TEndpoints p e t h => (set_endpoints_json p e t h s).2
  | TTouch p seen => (touch_last_seen p seen s).2
  | TRemove p => (remove p s).2
  | TRotate now r => (rotate now r s).2
  end.

(** The row [row] of [p] became [row'] by the call [o]. *)
Inductive row_step (s : S) (p : PeerId) (row : TrustRow) : TrustOp → TrustRow → Prop :=
| step_same o : row_step s p row o row
| step_tier tier : row_step s p row (TSetTier p tier) (row <| tr_tier := tier_wire_str tier |>)
| step_endpoints e t h row' : fresher_endpoints e t h row row' → row_step s p row (TEndpoints p e t h) row'
| step_touch seen row' : later_contact seen row row' → row_step s p row (TTouch p seen) row'
| step_rotate now r added : ro_peer_id r = p → rotation_allowed r s →
    row_step s p row (TRotate now r)
      (row <| tr_pubkey_b64 := b64 (ro_next_pubkey r) |> <| tr_added_at_ms := added |>).

Lemma opened {A} (m : ST S StoreError A) s :
  ∃ s1, same_tables s s1 ∧
    ((on_store (_ ← open_store; m) s).2 = s1 ∨ (on_store (_ ← open_store; m) s).2 = (m s1).2).
Proof.
  unfold on_store, mbind, st_bind. destruct (open_store s) as [[u|e] s1] eqn:Ho; apply law_open in Ho; exists s1; (split; [done|]).
  - right. by destruct (m s1) as [[] ].
  - by left.
Qed.

(** The effect of each call on the tables. *)
Definition op_effect (o : TrustOp) (s s' : S) : Prop :=
  match o with
  | TAdd _ p _ => audit_of s' = audit_of s ∧
      (trust_of s' = trust_of s ∨ trust_of s !! p = None ∧ ∃ row, trust_of s' = <[p := row]> (trust_of s))
  | TSetTier p tier => updates p (λ row row', row' = row <| tr_tier := tier_wire_str tier |>) s s'
  | TEndpoints p e t h => updates p (fresher_endpoints e t h) s s'
  | TTouch p seen => updates p (later_contact seen) s s'
  | TRemove p => audit_of s' = audit_of s ∧ (trust_of s' = trust_of s ∨ trust_of s' = delete p (trust_of s))
  | TRotate _ r => same_tables s s' ∨ rotation_allowed r s ∧ rotated r s s'
  end.
Lemma op_effect_same o s s' : same_tables s s' → op_effect o s s'.
Proof. intros [? ?]. destruct o; cbn; unfold updates; auto. by left. Qed.
Lemma op_effect_from o s s1 s' : same_tables s s1 → op_effect o s1 s' → op_effect o s s'.
Proof.
  intros [Ht Ha]. destruct o; cbn; unfold updates, same_tables, rotation_allowed, rotated, audit_row_added, key_replaced; by rewrite Ht, Ha.
Qed.

Lemma run_trust_effect o s : op_effect o s (run_trust s o).
Proof.
  destruct o as [now p key|p tier|p e t h|p seen|p|now r]; cbn [run_trust].
  - unfold add, on_store, mbind, st_bind, now_ms, st_lift, add_peer_trust.
    destruct (open_store s) as [[u|e] s1] eqn:Ho; apply law_open in Ho; [|by apply op_effect_same].
    destruct (ok_or Clock now) as [t|e]; [|by apply op_effect_same].
    eapply op_effect_from; [exact Ho|]. unfold mbind, st_bind.
    destruct (admit_write s1) as [[u'|e] s2] eqn:Had; apply law_admit in Had; [|by apply op_effect_same].
    eapply op_effect_from; [exact Had|].
    pose proof (add_effect p (b64 key) t default_for_new_peer s2) as Heff.
    destruct (add_peer_trust_with_tier _ _ _ _ s2) as [[]]; exact Heff.
  - destruct (opened (set_peer_trust_tier p tier) s) as (s1 & Hs & [Ho|Ho]); unfold set_tier; rewrite Ho;
      [by apply op_effect_same|]. eapply op_effect_from; [exact Hs|]. apply set_tier_effect.
  - destruct (opened (set_peer_trust_endpoints p e t h) s) as (s1 & Hs & [Ho|Ho]); unfold set_endpoints_json; rewrite Ho;
      [by apply op_effect_same|]. eapply op_effect_from; [exact Hs|]. apply set_endpoints_effect.
  - destruct (opened (touch_peer_last_seen p seen) s) as (s1 & Hs & [Ho|Ho]); unfold touch_last_seen; rewrite Ho;
      [by apply op_effect_same|]. eapply op_effect_from; [exact Hs|]. apply touch_effect.
  - destruct (opened (remove_peer_trust p) s) as (s1 & Hs & [Ho|Ho]); unfold remove; rewrite Ho;
      [by apply op_effect_same|]. eapply op_effect_from; [exact Hs|]. apply remove_effect.
  - destruct (rotate now r s) as [res s'] eqn:Hr. apply rotate_effect in Hr. cbn. destruct Hr as [[? _]|?]; auto.
Qed.

(** One call alone: nothing runs between its statements. *)
Lemma row_changes s o p row row' :
  trust_of s !! p = Some row → trust_of (run_trust s o) !! p = Some row' → row_step s p row o row'.
Proof.
  intros Hrow Hrow'. pose proof (run_trust_effect o s) as Heff.
  assert (trust_of (run_trust s o) = trust_of s → row_step s p row o row') as Hsame.
  { intros He. rewrite He, Hrow in Hrow'. injection Hrow' as <-. constructor. }
  assert (∀ q x, trust_of (run_trust s o) = <[q := x]> (trust_of s) → q ≠ p → row_step s p row o row') as Hother.
  { intros q x He Hq. rewrite He, lookup_insert_ne, Hrow in Hrow' by done. injection Hrow' as <-. constructor. }
  assert (∀ x, trust_of (run_trust s o) = <[p := x]> (trust_of s) → row' = x) as Hthis.
  { intros x He. rewrite He, lookup_insert_eq in Hrow'. congruence. }
  destruct o as [now q key|q tier|q e t h|q seen|q|now r]; cbn [op_effect] in Heff; unfold updates in Heff.
  1: destruct Heff as [_ [?|(Hn & x & Hx)]]; [auto|]; eapply Hother; [exact Hx|congruence].
  1-3: destruct Heff as [_ [?|(r0 & r1 & Hr0 & Hf & Hx)]]; [by auto|]; destruct (decide (q = p)) as [->|Hne];
       [|by eapply Hother]; assert (r0 = row) as -> by congruence; apply Hthis in Hx as ->; subst; by constructor.
  - destruct Heff as [_ [?|Hx]]; [by auto|]. rewrite Hx in Hrow'. apply lookup_delete_Some in Hrow' as [_ Hr].
    assert (row = row') as -> by congruence. constructor.
  - destruct Heff as [[? _]|(Hal & _ & [?|(x & added & Hx)])]; [by auto..|].
    destruct (decide (ro_peer_id r = p)) as [Hp|Hne]; [|by eapply Hother]. rewrite Hp, Hrow in Hx.
    apply Hthis in Hx as ->. by constructor.
Qed.

(** ** A rotation acts once *)
Lemma audit_grows o s k : is_Some (audit_of s !! k) → is_Some (audit_of (run_trust s o) !! k).
Proof.
  intros Hk. pose proof (run_trust_effect o s) as Heff. destruct o; cbn [op_effect] in Heff; unfold updates in Heff;
    try (destruct Heff as [-> _]; done).
  destruct Heff as [[_ ->]|(_ & (_ & a & ->) & _)]; [done|].
  apply lookup_insert_is_Some. destruct (decide (k = (ro_peer_id r, Z.of_N (ro_sequence r)))); auto.
Qed.

(** A rotation acts at most once: when it was applied, or only recorded
    because the database failed before the key was written, then whatever calls
    follow, applying it again is refused and changes nothing. *)
Theorem rotation_applies_once now r s ops now' :
  ¬ same_tables s (run_trust s (TRotate now r)) →
  let s2 := foldl run_trust (run_trust s (TRotate now r)) ops in
  is_ok (rotate now' r s2).1 = false ∧ same_tables s2 (rotate now' r s2).2.
Proof.
  intros Hdid. pose proof (run_trust_effect (TRotate now r) s) as [Hs|(_ & (_ & a & Ha) & _)]; [done|].
  assert (is_Some (audit_of (run_trust s (TRotate now r)) !! (ro_peer_id r, Z.of_N (ro_sequence r)))) as Hin
    by (rewrite Ha, lookup_insert_eq; eauto).
  cbn zeta. revert Hin. generalize (run_trust s (TRotate now r)). clear Hdid Ha s a.
  induction ops as [|o ops IH]; intros s Hin; cbn [foldl]; [|by apply IH, audit_grows].
  destruct (rotate now' r s) as [res s'] eqn:Hr. cbn [fst snd].
  apply rotate_effect in Hr as [[? ?]|[(_ & _ & Hseq) _]]; [done|].
  destruct Hin as [a Ha]. apply Hseq in Ha. lia.
Qed.

(** ** Rotations that run beside other calls *)
(** How far a rotation has come.  The other calls are one transaction each. *)
Inductive Stage := Begun | KeyChecked | Checked (e : RotationAuditEntry) | Recorded (e : RotationAuditEntry).
Record Shared := MkShared { db_state : S; in_flight : gmap N (TrustRotation * Stage) }.
Definition advance (now : option N) (r : TrustRotation) (st : Stage) (s : S) : option Stage * S :=
  match st with
  | Begun => match rotate_key r s with (Ok _, s) => (Some KeyChecked, s) | (Err _, s) => (None, s) end
  | KeyChecked => match rotate_sequence now r s with (Ok e, s) => (Some (Checked e), s) | (Err _, s) => (None, s) end
  | Checked e => match rotate_append e s with (Ok _, s) => (Some (Recorded e), s) | (Err _, s) => (None, s) end
  | Recorded e => (None, (rotate_replace r e s).2)
  end.
Inductive trust_step (σ : Shared) : Shared → Prop :=
| ts_call o : (∀ now r, o ≠ TRotate now r) → trust_step σ (MkShared (run_trust (db_state σ) o) (in_flight σ))
| ts_rotate id r : in_flight σ !! id = None → trust_step σ (MkShared (db_state σ) (<[id := (r, Begun)]> (in_flight σ)))
| ts_advance id now r st st' s' : in_flight σ !! id = Some (r, st) → advance now r st (db_state σ) = (st', s') →
    trust_step σ (MkShared s' (match st' with Some st' => <[id := (r, st')]> (in_flight σ) | None => delete id (in_flight σ) end))
| ts_die id : trust_step σ (MkShared (db_state σ) (delete id (in_flight σ))).

(** What the checks of [r] found at moments of the run up to [σ]. *)
Definition key_was_stored (σ0 σ : Shared) (r : TrustRotation) : Prop :=
  verify_rotation r = Ok tt ∧ ∃ τ row, rtc trust_step σ0 τ ∧ rtc trust_step τ σ ∧
    trust_of (db_state τ) !! ro_peer_id r = Some row ∧ tr_pubkey_b64 row = b64 (ro_prev_pubkey r).
Definition sequence_was_new (σ0 σ : Shared) (r : TrustRotation) : Prop :=
  ∃ τ, rtc trust_step σ0 τ ∧ rtc trust_step τ σ ∧
    ∀ n row, audit_of (db_state τ) !! (ro_peer_id r, n) = Some row → (n < Z.of_N (ro_sequence r))%Z.
Definition recorded (σ : Shared) (r : TrustRotation) : Prop :=
  is_Some (audit_of (db_state σ) !! (ro_peer_id r, Z.of_N (ro_sequence r))).
Definition stage_ok (σ0 σ : Shared) (r : TrustRotation) (st : Stage) : Prop :=
  match st with
  | Begun => True
  | KeyChecked => key_was_stored σ0 σ r
  | Checked e => key_was_stored σ0 σ r ∧ sequence_was_new σ0 σ r ∧ ra_peer_id e = ro_peer_id r ∧ ra_sequence e = ro_sequence r
  | Recorded e => key_was_stored σ0 σ r ∧ sequence_was_new σ0 σ r ∧ recorded σ r
  end.
Lemma advance_effect now r st s st' s' : advance now r st s = (st', s') →
  (∀ e, st = Checked e → ra_peer_id e = ro_peer_id r ∧ ra_sequence e = ro_sequence r) →
  (∀ k, is_Some (audit_of s !! k) → is_Some (audit_of s' !! k)) ∧
  (trust_of s' = trust_of s ∨ ∃ e, st = Recorded e ∧ key_replaced r s s').
Proof.
  intros Hadv Hc. destruct st as [| |e|e]; cbn in Hadv.
  - destruct (rotate_key r s) as [[u|err] s1] eqn:E; apply rotate_key_effect in E as [[Ht Ha] _]; injection Hadv as <- <-;
      (split; [by rewrite Ha|by left]).
  - destruct (rotate_sequence now r s) as [[u|err] s1] eqn:E; apply rotate_sequence_effect in E as [[Ht Ha] _]; injection Hadv as <- <-;
      (split; [by rewrite Ha|by left]).
  - destruct (Hc e eq_refl) as [Hp Hn]. destruct (rotate_append e s) as [[u|err] s1] eqn:E;
      apply (rotate_append_effect r) in E as [Ht Ha]; try done; cbn [is_ok] in Ha; injection Hadv as <- <-; (split; [|by left]).
    + destruct Ha as (_ & a & ->). intros k Hk. apply lookup_insert_is_Some. destruct (decide (k = (ro_peer_id r, Z.of_N (ro_sequence r)))); auto.
    + by rewrite Ha.
  - injection Hadv as <- <-. destruct (rotate_replace r e s) as [res s1] eqn:E. cbn.
    apply rotate_replace_effect in E as [Ha Hk]. split; [by rewrite Ha|]. destruct Hk as [|Hk]; [by left|right]. by exists e.
Qed.
(** The audit rows of the run are never lost. *)
Lemma step_recorded (σ0 σ σ' : Shared) r : (∀ id r st, in_flight σ !! id = Some (r, st) → stage_ok σ0 σ r st) →
  trust_step σ σ' → recorded σ r → recorded σ' r.
Proof.
  intros Hok Hs Hr. destruct Hs as [o Ho|id r' Hid|id now r' st st' s' Hid Hadv|id]; unfold recorded in *; cbn; try done.
  - by apply audit_grows.
  - apply advance_effect in Hadv as [Ha _]; [by apply Ha|]. intros e ->. by apply Hok in Hid as (_ & _ & ?).
Qed.
Lemma stage_ok_step (σ0 σ σ' : Shared) r st : trust_step σ σ' → (recorded σ r → recorded σ' r) →
  stage_ok σ0 σ r st → stage_ok σ0 σ' r st.
Proof.
  intros Hs Hrec. assert (key_was_stored σ0 σ r → key_was_stored σ0 σ' r) as Hk.
  { intros (Hv & τ & row & H1 & H2 & H3 & H4). split; [done|]. exists τ, row. split_and!; [done|by eapply rtc_r|done..]. }
  assert (sequence_was_new σ0 σ r → sequence_was_new σ0 σ' r) as Hn.
  { intros (τ & H1 & H2 & H3). exists τ. split_and!; [done|by eapply rtc_r|done]. }
  destruct st; cbn; naive_solver.
Qed.
Lemma stages_reachable σ0 σ : in_flight σ0 = ∅ → rtc trust_step σ0 σ →
  ∀ id r st, in_flight σ !! id = Some (r, st) → stage_ok σ0 σ r st.
Proof.
  intros Hempty. apply (rtc_ind_r (λ σ, ∀ id r st, in_flight σ !! id = Some (r, st) → stage_ok σ0 σ r st)).
  { intros id r st. by rewrite Hempty, lookup_empty. }
  intros σ1 σ2 Hr1 Hs IH. assert (∀ r st, stage_ok σ0 σ1 r st → stage_ok σ0 σ2 r st) as Hkeep.
  { intros r st. apply stage_ok_step; [done|]. by eapply step_recorded. }
  intros id r st Hid. pose proof Hs as Hstep. destruct Hs as [o Ho|id' r' Hid'|id' now r' st1 st2 s' Hid' Hadv|id']; cbn in Hid.
  - by apply Hkeep, (IH id).
  - destruct (decide (id = id')) as [->|Hne]; [rewrite lookup_insert_eq in Hid; by injection Hid as <- <-|].
    rewrite lookup_insert_ne in Hid by done. by apply Hkeep, (IH id).
  - assert (in_flight σ1 !! id = Some (r, st) ∨ (r = r' ∧ st2 = Some st)) as [Hold|[-> ->]].
    { destruct st2 as [st2|]; [|by apply lookup_delete_Some in Hid as [_ ?]; left].
      apply lookup_insert_Some in Hid as [[_ [= <- <-]]|[_ ?]]; [by right|by left]. }
    { by apply Hkeep, (IH id). }
    pose proof (IH _ _ _ Hid') as Hst1. destruct st1 as [| |e|e]; cbn in Hadv.
    + destruct (rotate_key r' (db_state σ1)) as [[u|err] s1] eqn:E; [|done]. injection Hadv as <- <-.
      apply rotate_key_effect in E as [_ Hk]. destruct (Hk eq_refl) as (Hv & row & Hrow & Hb). split; [done|].
      exists σ1, row. split_and!; [done|by apply rtc_once|done|done].
    + destruct (rotate_sequence now r' (db_state σ1)) as [[e|err] s1] eqn:E; [|done]. injection Hadv as <- <-.
      apply rotate_sequence_effect in E as [_ Hq]. destruct (Hq e eq_refl) as (Hq' & Hp & Hn).
      split; [by apply (Hkeep r' KeyChecked)|]. split; [|done]. exists σ1. split_and!; [done|by apply rtc_once|done].
    + destruct (rotate_append e (db_state σ1)) as [[u|err] s1] eqn:E; [|done]. injection Hadv as <- <-.
      pose proof (Hkeep r' (Checked e) Hst1) as (Hk & Hq & _). destruct Hst1 as (_ & _ & Hp & Hn).
      apply (rotate_append_effect r') in E as [_ Ha]; [|done..]. cbn [is_ok] in Ha. destruct Ha as (_ & a & Ha).
      split_and!; [done|done|]. unfold recorded. cbn. rewrite Ha, lookup_insert_eq. by eexists.
    + done.
  - apply lookup_delete_Some in Hid as [_ Hid]. by apply Hkeep, (IH id).
Qed.

(** C30: what may change the row of an enrolled peer.  A call that runs alone changes the
    key only by a rotation that names the peer, is validly signed by the stored key,
    changes it to something else and has a sequence above every rotation recorded for the
    peer; tier, endpoints and last contact change only by their own calls, endpoints only
    to a set at least as fresh and the last contact only forward; whatever statements
    the database fails.  Beside other calls, where each statement of a rotation is a step
    of its own: the key is still written only by a rotation for the peer that is recorded
    in the audit table, whose signer was the stored key at some moment of the run, and
    whose sequence was above all recorded at some moment. *)
Theorem trusted_row_changes_only_by :
  (∀ s o p row row', trust_of s !! p = Some row → trust_of (run_trust s o) !! p = Some row' → row_step s p row o row') ∧
  ∀ s0 σ σ' p row row', rtc trust_step (MkShared s0 ∅) σ → trust_step σ σ' →
    trust_of (db_state σ) !! p = Some row → trust_of (db_state σ') !! p = Some row' →
    (∃ o, (∀ now r, o ≠ TRotate now r) ∧ row_step (db_state σ) p row o row') ∨
    ∃ r added, row' = row <| tr_pubkey_b64 := b64 (ro_next_pubkey r) |> <| tr_added_at_ms := added |> ∧
      ro_peer_id r = p ∧ recorded σ r ∧ key_was_stored (MkShared s0 ∅) σ r ∧ sequence_was_new (MkShared s0 ∅) σ r.
Proof.
  split; [apply row_changes|]. intros s0 σ σ' p row row' Hr Hs Hrow Hrow'.
  pose proof (stages_reachable (MkShared s0 ∅) σ eq_refl Hr) as Hst.
  assert (row' = row → ∃ o, (∀ now r, o ≠ TRotate now r) ∧ row_step (db_state σ) p row o row') as Hsame.
  { intros ->. exists (TRemove p). split; [done|constructor]. }
  destruct Hs as [o Ho|id r Hid|id now r st st' s' Hid Hadv|id]; cbn in Hrow'.
  - left. exists o. split; [done|]. by apply row_changes.
  - left. apply Hsame. congruence.
  - pose proof (Hst _ _ _ Hid) as Hok. apply advance_effect in Hadv as [_ [Ht|(e & -> & x & added & Ht)]].
    + left. apply Hsame. congruence.
    + rewrite Ht in Hrow'. destruct (decide (ro_peer_id r = p)) as [Hp|Hne].
      * rewrite Hp, lookup_insert_eq, Hrow in Hrow'. injection Hrow' as <-. destruct Hok as (? & ? & ?).
        right. exists r, added. by split_and!.
      * left. apply Hsame. rewrite lookup_insert_ne in Hrow' by done. congruence.
    + intros e ->. by apply Hok.
  - left. apply Hsame. congruence.
Qed.
End trust.

(** ** A database in memory *)
(** Tables, and the outcome of the statements to come: [true] fails. *)
Module MemDb.
Record Mem := MkMem { trust : gmap PeerId TrustRow; audit : gmap (PeerId * Z) AuditRow; faults : list bool }.
#[export] Instance eta_Mem : Eta Mem := λ m, MkMem (trust m) (audit m) (faults m).
Definition stmt {A} (f : Mem → A * Mem) : ST Mem StoreError A := λ m,
  match faults m with
  | true :: fs => (Err (Database (DbError (str "disk I/O error"))), m <| faults := fs |>)
  | false :: fs => let '(a, m) := f m in (Ok a, m <| faults := fs |>)
  | [] => let '(a, m) := f m in (Ok a, m)
  end.
Definition on_trust (f : gmap PeerId TrustRow → gmap PeerId TrustRow) : ST Mem StoreError unit :=
  stmt (λ m, (tt, m <| trust := f (trust m) |>)).
#[export] Instance db : PeerDb Mem := {|
  admit_write := stmt (λ m, (tt, m));
  open_store := stmt (λ m, (tt, m));
  db_peers := stmt (λ m, (map_to_list (trust m), m));
  db_find p := stmt (λ m, (trust m !! p, m));
  db_insert_ignore p row := on_trust (λ t, if t !! p then t else <[p := row]> t);
  db_upsert_key p row := on_trust (λ t, <[p := match t !! p with
    | Some old => old <| tr_pubkey_b64 := tr_pubkey_b64 row |> <| tr_added_at_ms := tr_added_at_ms row |>
    | None => row
    end]> t);
  db_update p row := on_trust <[p := row]>;
  db_delete p := on_trust (delete p);
  db_audit_insert p n row := λ m,
    if audit m !! (p, n) then (Err (Database (DbError (str "disk I/O error"))), m)
    else stmt (λ m, (tt, m <| audit := <[(p, n) := row]> (audit m) |>)) m;
  db_audit p := stmt (λ m, ((λ x : PeerId * Z * AuditRow, (x.1.2, x.2)) <$>
    filter (λ x : PeerId * Z * AuditRow, x.1.1 = p) (map_to_list (audit m)), m));
|}.

Lemma stmt_inv {A} (f : Mem → A * Mem) m r m' : stmt f m = (r, m') →
  match r with
  | Ok a => a = (f m).1 ∧ trust m' = trust (f m).2 ∧ audit m' = audit (f m).2
  | Err _ => trust m' = trust m ∧ audit m' = audit m
  end.
Proof. unfold stmt. destruct (faults m) as [|[] fs], (f m) as [a m1]; by intros [= <- <-]. Qed.

#[export] Instance laws : PeerDbLaws Mem.
Proof.
  refine {| trust_of := trust; audit_of := audit |}; cbn; unfold on_trust.
  - intros m r m' H%stmt_inv. by destruct r; destruct_and?.
  - intros m r m' H%stmt_inv. by destruct r; destruct_and?.
  - intros m r m' H%stmt_inv. destruct r; destruct_and?; split; try done. intros l [= <-]. by subst.
  - intros p m r m' H%stmt_inv. destruct r; destruct_and?; split; try done. intros o [= <-]. by subst.
  - intros p row m r m' H%stmt_inv. destruct r; destruct_and?; cbn in *; [|by split].
    split; [done|]. by destruct (trust m !! p).
  - intros p row m r m' H%stmt_inv. by destruct r; destruct_and?.
  - intros p row m r m' H%stmt_inv. by destruct r; destruct_and?.
  - intros p m r m' H%stmt_inv. by destruct r; destruct_and?.
  - intros p n row m r m'. destruct (audit m !! (p, n)) eqn:E; [by intros [= <- <-]|].
    intros H%stmt_inv. by destruct r; destruct_and?.
  - intros p m r m' H%stmt_inv. destruct r; destruct_and?; split; try done. intros l [= <-] n row. subst. cbn.
    rewrite list_elem_of_fmap. split.
    + intros ([[q k] row'] & [= -> ->] & [Hq Hin%elem_of_map_to_list]%list_elem_of_filter). cbn in *. by subst.
    + intros Hin. exists (p, n, row). split; [done|]. apply list_elem_of_filter. split; [done|].
      by apply elem_of_map_to_list.
Defined.
End MemDb.

Module TrustScenario.
Import MemDb.
Import ToyKeys.
#[export] Instance codec : RotationCodec := {|
  b64 l := l;
|}.
Definition p : PeerId := MkId 1.
Definition empty : Mem := MkMem ∅ ∅ [].
Definition enrolled : Mem := run_trust empty (TAdd (Some 100%N) p [1%N]).
Definition rotation (n : N) (next : list N) : TrustRotation :=
  match sign_rotation [1%N] p next n 150 with Ok r => r | Err _ => MkTrustRotation p [] [] 0 0 [] end.
Definition key_of (m : Mem) : option rstring := tr_pubkey_b64 <$> trust m !! p.

(** The first statements of a rotation, then a change of tier, then the rest. *)
Definition beside : Shared (S:=Mem) :=
  let r := rotation 1 [2%N] in
  match rotate_key r enrolled with
  | (Ok _, m1) =>
      match rotate_sequence (Some 200%N) r m1 with
      | (Ok e, m2) =>
          match rotate_append e (run_trust m2 (TSetTier p Friend)) with
          | (Ok _, m3) => MkShared m3 (<[0%N := (r, Recorded e)]> (<[0%N := (r, Checked e)]> (<[0%N := (r, KeyChecked)]> (<[0%N := (r, Begun)]> ∅))))
          | _ => MkShared m2 ∅
          end
      | _ => MkShared m1 ∅
      end
  | (_, m1) => MkShared m1 ∅
  end.
Lemma beside_reachable : rtc trust_step (MkShared enrolled ∅) beside.
Proof.
  unfold beside. set (r := rotation 1 [2%N]).
  destruct (rotate_key r enrolled) as [[u|] m1] eqn:E1; [|by vm_compute in E1].
  destruct (rotate_sequence (Some 200%N) r m1) as [[e|] m2] eqn:E2; [|by vm_compute in E1; injection E1 as <- <-; vm_compute in E2].
  destruct (rotate_append e (run_trust m2 (TSetTier p Friend))) as [[v|] m3] eqn:E3;
    [|vm_compute in E1; injection E1 as <- <-; vm_compute in E2; injection E2 as <- <-; by vm_compute in E3].
  assert (∀ now st st' s s' m, advance now r st s = (Some st', s') →
    trust_step (MkShared s (<[0%N := (r, st)]> m)) (MkShared s' (<[0%N := (r, st')]> (<[0%N := (r, st)]> m)))) as Hadvance.
  { intros now st st' s s' m Hadv. refine (ts_advance (MkShared s _) 0%N now r st (Some st') s' _ Hadv). apply lookup_insert_eq. }
  eapply rtc_l; [by apply (ts_rotate (MkShared enrolled ∅) 0%N r)|].
  eapply rtc_l; [apply (Hadvance None Begun KeyChecked enrolled m1); unfold advance; by rewrite E1|].
  eapply rtc_l; [apply (Hadvance (Some 200%N) KeyChecked (Checked e) m1 m2); unfold advance; by rewrite E2|].
  eapply rtc_l; [by apply (ts_call (MkShared m2 _) (TSetTier p Friend))|].
  apply rtc_once, (Hadvance None (Checked e) (Recorded e)). unfold advance. cbn [db_state]. by rewrite E3.
Qed.
Lemma trusted_row_changes_only_by_witness :
  (∃ row row', trust enrolled !! p = Some row ∧
    trust (run_trust enrolled (TRotate (Some 200%N) (rotation 1 [2%N]))) !! p = Some row' ∧
    tr_pubkey_b64 row = [1%N] ∧ tr_pubkey_b64 row' = [2%N] ∧
    row_step enrolled p row (TRotate (Some 200%N) (rotation 1 [2%N])) row') ∧
  ∃ σ' row row', trust_step beside σ' ∧ trust (db_state beside) !! p = Some row ∧ trust (db_state σ') !! p = Some row' ∧
    tr_tier row' = tier_wire_str Friend ∧ tr_pubkey_b64 row' = [2%N] ∧
    ((∃ o, (∀ now r, o ≠ TRotate now r) ∧ row_step (db_state beside) p row o row') ∨
     ∃ r added, row' = row <| tr_pubkey_b64 := b64 (ro_next_pubkey r) |> <| tr_added_at_ms := added |> ∧
      ro_peer_id r = p ∧ recorded beside r ∧ key_was_stored (MkShared enrolled ∅) beside r ∧ sequence_was_new (MkShared enrolled ∅) beside r).
Proof.
  destruct trusted_row_changes_only_by as [Halone Hbeside]. split.
  - eexists _, _. split; [by vm_compute|]. split; [by vm_compute|]. split; [done|]. split; [done|]. by apply (Halone enrolled).
  - destruct (in_flight beside !! 0%N) as [[r st]|] eqn:Hid; [|by vm_compute in Hid].
    destruct (advance None r st (db_state beside)) as [st' s'] eqn:Hadv.
    pose proof (ts_advance beside 0%N None r st st' s' Hid Hadv) as Hs.
    assert (∃ row row', trust (db_state beside) !! p = Some row ∧ trust s' !! p = Some row' ∧
      tr_tier row' = tier_wire_str Friend ∧ tr_pubkey_b64 row' = [2%N]) as (row & row' & H1 & H2 & H3 & H4).
    { vm_compute in Hid. injection Hid as <- <-. vm_compute in Hadv. injection Hadv as <- <-.
      eexists _, _. split; [by vm_compute|]. split; [by vm_compute|]. by split; vm_compute. }
    eexists _, row, row'. split; [exact Hs|]. split; [exact H1|]. split; [exact H2|]. split; [exact H3|]. split; [exact H4|].
    by apply (Hbeside enrolled beside _ p row row' beside_reachable Hs).
Defined.

Lemma rotation_applies_once_witness :
  let r := rotation 1 [2%N] in
  let s2 := run_trust (run_trust enrolled (TRotate (Some 200%N) r)) (TSetTier p Friend) in
  is_ok (rotate (Some 300%N) r s2).1 = false ∧ key_of s2 = Some [2%N].
Proof.
  intros r s2. split; [|by vm_compute].
  apply (rotation_applies_once (Some 200%N) r enrolled [TSetTier p Friend] (Some 300%N)).
  intros [_ H]. apply (f_equal (λ m, is_some (m !! (p, 1%Z)))) in H. vm_compute in H. discriminate.
Defined.

(** The database fails after the audit row and before the key: the rotation is
    recorded as applied, the old key stays trusted, and the retry is refused. *)
Definition failing : Mem := MkMem (trust enrolled) (audit enrolled) (replicate 7 false ++ [true]).
Example rotation_half_applied :
  let r := rotation 1 [2%N] in
  let m := rotate (Some 200%N) r failing in
  m.1 = Err (Store (Database (DbError (str "disk I/O error")))) ∧ key_of m.2 = Some [1%N] ∧ is_some (audit m.2 !! (p, 1%Z)) = true ∧
  (rotate (Some 300%N) r m.2).1 = Err (SequenceNotMonotonic p 1 1).
Proof. vm_compute. by split_and!. Qed.

(** [remove] between the checks and the writes of a rotation: the revoked peer is
    enrolled again. *)
Example revoked_peer_comes_back :
  let r := rotation 1 [2%N] in
  match rotate_checks (Some 200%N) r enrolled with
  | (Ok e, m) =>
      let m := run_trust m (TRemove p) in
      key_of m = None ∧ key_of (rotate_writes r e m).2 = Some [2%N]
  | _ => False
  end.
Proof. vm_compute. by split. Qed.

(** Two rotations signed by the stored key, both checked before either writes:
    the writes of the later sequence first, then the earlier one's, leave the
    older key in force although the audit says the newer one was applied. *)
Example interleaved_rotations_keep_the_older_key :
  let r1 := rotation 1 [2%N] in
  let r2 := rotation 2 [3%N] in
  match rotate_checks (Some 200%N) r1 enrolled, rotate_checks (Some 200%N) r2 enrolled with
  | (Ok e1, _), (Ok e2, _) =>
      let m := (rotate_writes r1 e1 (rotate_writes r2 e2 enrolled).2).2 in
      key_of m = Some [2%N] ∧ is_some (audit m !! (p, 2%Z)) = true
  | _, _ => False
  end.
Proof. vm_compute. by split. Qed.

Example detect_tier_cases (a b : PeerId) (mesh : rstring) :
  mesh ≠ [] → a ≠ b →
  detect_tier a None a None false = OwnMachine ∧ detect_tier a (Some mesh) b (Some mesh) false = OwnAccount ∧
  detect_tier a (Some []) b (Some []) false = Untrusted ∧ detect_tier a None b (Some mesh) true = OwnMachine.
Proof.
  intros Hm Hab. unfold detect_tier. rewrite !decide_True by done. rewrite !decide_False by congruence.
  rewrite !(bool_decide_false (mesh = [])), !bool_decide_true by done. done.
Qed.
End TrustScenario.
