(* ===== verification/StoreCustody.v ===== *)
(** Who may write the machine's stores, and who may start its daemon: the write
    gate of [airc-store/src/custody.rs], the lifecycle guards of
    [airc-lib/src/daemon_lifecycle.rs] and the commands of [airc-cli] that take
    them.

    Each operation is the sequence of system calls its function makes ([Prog]),
    written call by call with its early returns; a file that goes out of scope is a
    [Close].  Processes run their operations one system call at a time, in any
    interleaving ([step]); any call may fail, and a process may die at any moment.
    Advisory locks ([fs2]) are the interface [Flock]. *)
From stdpp Require Import base gmap list relations.
From S2P Require Import Prelude.

(** ** Locks and errors *)
Inductive LockFile := MAINTENANCE_LOCK | LIFECYCLE_LOCK | STARTUP_LOCK.
#[export] Instance LockFile_eq : EqDecision LockFile. Proof. solve_decision. Defined.
Inductive LockMode := Shared | Exclusive.
#[export] Instance LockMode_eq : EqDecision LockMode. Proof. solve_decision. Defined.

(** [io::Error]: the typed refusals and messages of these functions; [Contended]
    is [fs2::lock_contended_error], [Io] any other. *)
Inductive IoError :=
| Contended
| MaintenanceInProgress (lock : IoError)
| StartupInProgress
| LifecycleBusy (error : IoError)
| IntentionallyStopped
| NeedsExclusive
| StopIntentRequired
| StartupStillActive (error : IoError)
| AlreadyExists
| NotFound
| Disconnected
| StopDeadline
| Io (code : N).
#[export] Instance IoError_eq : EqDecision IoError. Proof. solve_decision. Defined.

(** Advisory locks on one file, by the process that opened it.  The laws are
    those of [flock]: a shared lock excludes exclusive ones, an exclusive one all;
    a failed attempt means that another process holds a conflicting lock. *)
Class Flock (L : Type) := {
  lk_free : L;
  lk_try : LockMode → N → L → option L;
  lk_unlock : N → L → L;
}.
Definition conflicts (m : LockMode) (held : option LockMode) : Prop :=
  match m with Shared => held = Some Exclusive | Exclusive => held ≠ None end.
Class FlockLaws (L : Type) `{!Flock L} := {
  lk_held : L → N → option LockMode;
  law_free h : lk_held lk_free h = None;
  law_try_some m h l l' : lk_try m h l = Some l' →
    (∀ h', lk_held l' h' = if decide (h' = h) then Some m else lk_held l h') ∧
    (∀ h', h' ≠ h → ¬ conflicts m (lk_held l h'));
  law_try_none m h l : lk_try m h l = None → ∃ h', h' ≠ h ∧ conflicts m (lk_held l h');
  law_unlock h l h' : lk_held (lk_unlock h l) h' = if decide (h' = h) then None else lk_held l h';
}.

(** ** System calls and programs *)
(** What a process does at a point where this matters to others. *)
Inductive Activity :=
| Attached        (* holds an autostart or attach guard *)
| Maintaining     (* holds the maintenance guard *)
| Initializing    (* an admitted daemon, before it is bound *)
| Serving         (* a daemon that answers requests *)
| DaemonWriting   (* a store of the daemon has a write in flight *)
| ReportStopped.  (* `airc stop` prints that the daemon is stopped *)
#[export] Instance Activity_eq : EqDecision Activity. Proof. solve_decision. Defined.

Inductive Act : Type → Type :=
| Open (f : LockFile) : Act (result IoError unit)
| TryLock (f : LockFile) (m : LockMode) : Act (result IoError unit)
| LockExclusive (f : LockFile) : Act (result IoError unit)     (* waits *)
| Unlock (f : LockFile) : Act (result IoError unit)
| Close (f : LockFile) : Act unit
| StopExists : Act (result IoError bool)                       (* [daemon-operator-stop] *)
| CreateStop : Act (result IoError unit)
| RemoveStop : Act (result IoError unit)
| Sync : Act (result IoError unit)
| Bind : Act (result IoError unit)                             (* the daemon's endpoint *)
| Cleanup : Act unit
| ObserveStatus : Act (result IoError bool)                    (* does anything answer there? *)
| RequestStop : Act (result IoError unit)
| Work (a : Activity) : Act unit.

Notation Prog := (Prelude.Prog Act).
Notation IO := (IO_of Act IoError).
Definition call {A} (a : Act (result IoError A)) : IO A := Vis a Ret.
Definition map_err {A} (f : IoError → IoError) (p : IO A) : IO A :=
  prog_bind p (λ r, Ret (match r with Ok a => Ok a | Err e => Err (f e) end)).
(** The result as a value, where the code keeps it for later. *)
Definition attempt {A} (p : IO A) : IO (result IoError A) := prog_bind p (λ r, Ret (Ok r)).
(** A file local to [p]: closed when [p] returns. *)
Definition scoped {A} (f : LockFile) (p : IO A) : IO A := prog_bind p (λ r, Vis (Close f) (λ _, Ret r)).
(** A file that [p]'s value owns: closed when [p] fails. *)
Definition owned {A} (f : LockFile) (p : IO A) : IO A :=
  prog_bind p (λ r, match r with Ok a => Ret (Ok a) | Err e => Vis (Close f) (λ _, Ret (Err e)) end).

(** ** airc-store/src/custody.rs *)
Definition lock_file (f : LockFile) : IO unit := call (Open f).
Definition try_shared (f : LockFile) : IO unit := map_err MaintenanceInProgress (call (TryLock f Shared)).

(** [Writer]: the lock files of the machine account. *)
Inductive Admission := Writer | Daemon | Unmanaged.
(** [WriteGate]: [Some n] for a writer, with [n] writes in flight. *)
Definition WriteGate : Type := option nat.
Definition WriteGate_new (admission : Admission) : IO WriteGate :=
  match admission with
  | Writer =>
      _ ← lock_file MAINTENANCE_LOCK;
      _ ← owned MAINTENANCE_LOCK (lock_file LIFECYCLE_LOCK);
      mret (Some O)
  | Daemon | Unmanaged => mret None
  end.
Definition WriteGate_admit (gate : WriteGate) : IO WriteGate :=
  match gate with
  | None => mret None
  | Some in_flight =>
      _ ← try_shared MAINTENANCE_LOCK;
      taken ← attempt (if (in_flight =? 0)%nat then try_shared LIFECYCLE_LOCK else mret tt);
      _ ← call (Unlock MAINTENANCE_LOCK);
      _ ← Ret taken;
      mret (Some (S in_flight))
  end.
(** [WriteTicket::drop]: the count it leaves, and the call it then makes. *)
Definition ticket_drop (gate : WriteGate) : WriteGate * IO unit :=
  match gate with
  | None => (None, mret tt)
  | Some in_flight =>
      let in_flight := (in_flight - 1)%nat in
      (Some in_flight,
       if (in_flight =? 0)%nat then _ ← attempt (call (Unlock LIFECYCLE_LOCK)); mret tt else mret tt)
  end.

(** ** airc-lib/src/daemon_lifecycle.rs *)
(** [DaemonLifecycleGuard]: whether it owns [_maintenance_intent]. *)
Record Guard := MkGuard { maintenance_intent : bool }.

Definition operator_stopped : IO bool :=
  r ← attempt (call StopExists);
  match r with
  | Ok b => mret b
  | Err error => if decide (error = NotFound) then mret false else io_throw error
  end.
Definition require_running : IO unit :=
  stopped ← operator_stopped;
  if stopped : bool then io_throw IntentionallyStopped else mret tt.

Definition startup_lock_error (error : IoError) : IoError :=
  if decide (error = Contended) then StartupInProgress else error.
Definition acquire_startup : IO unit := map_err startup_lock_error (call (TryLock STARTUP_LOCK Exclusive)).

(** [DaemonLifecycleGuard::drop]: its files.  A guard's [drop] also unlocks its
    lock file just before it is closed; the [Close] stands for both, here and
    for the startup guard. *)
Definition guard_drop (g : Guard) : IO unit :=
  Vis (Close LIFECYCLE_LOCK) (λ _,
    if maintenance_intent g then Vis (Close MAINTENANCE_LOCK) (λ _, Ret (Ok tt)) else Ret (Ok tt)).

Definition attach : IO Guard :=
  _ ← lock_file MAINTENANCE_LOCK;
  scoped MAINTENANCE_LOCK
    (_ ← try_shared MAINTENANCE_LOCK;
     _ ← lock_file LIFECYCLE_LOCK;
     owned LIFECYCLE_LOCK
       (_ ← try_shared LIFECYCLE_LOCK;
        _ ← require_running;
        mret (MkGuard false))).

Definition startup_in_progress : IO bool :=
  _ ← lock_file STARTUP_LOCK;
  scoped STARTUP_LOCK
    (r ← attempt (call (TryLock STARTUP_LOCK Shared));
     match r with
     | Err error => if decide (error = Contended) then mret true else io_throw error
     | Ok _ => _ ← call (Unlock STARTUP_LOCK); mret false
     end).
Definition autostart : IO Guard :=
  g ← attach;
  owned LIFECYCLE_LOCK
    (b ← startup_in_progress;
     if b : bool then io_throw StartupInProgress else mret g).

Definition maintenance : IO Guard :=
  _ ← lock_file MAINTENANCE_LOCK;
  owned MAINTENANCE_LOCK
    (_ ← call (LockExclusive MAINTENANCE_LOCK);
     _ ← lock_file LIFECYCLE_LOCK;
     owned LIFECYCLE_LOCK
       (_ ← map_err LifecycleBusy (call (LockExclusive LIFECYCLE_LOCK));
        mret (MkGuard true))).

Definition require_exclusive (g : Guard) : IO unit :=
  if maintenance_intent g then mret tt else io_throw NeedsExclusive.
Definition sync_owner_directory : IO unit := call Sync.
Definition record_operator_stop (g : Guard) : IO unit :=
  _ ← require_exclusive g;
  r ← attempt (call CreateStop);
  _ ← match r with
      | Ok _ => call Sync
      | Err error => if decide (error = AlreadyExists) then mret tt else io_throw error
      end;
  sync_owner_directory.
Definition clear_operator_stop (g : Guard) : IO unit :=
  _ ← require_exclusive g;
  r ← attempt (call RemoveStop);
  match r with
  | Ok _ => sync_owner_directory
  | Err error => if decide (error = NotFound) then mret tt else io_throw error
  end.
Definition confirm_no_startup (g : Guard) : IO unit :=
  _ ← require_exclusive g;
  stopped ← operator_stopped;
  if stopped : bool then
    _ ← lock_file STARTUP_LOCK;
    scoped STARTUP_LOCK
      (_ ← map_err StartupStillActive (call (TryLock STARTUP_LOCK Exclusive));
       call (Unlock STARTUP_LOCK))
  else io_throw StopIntentRequired.

(** [DaemonStartupGuard::acquire] and [bound]. *)
Definition startup_acquire : IO unit :=
  _ ← lock_file STARTUP_LOCK;
  owned STARTUP_LOCK (_ ← acquire_startup; require_running).
Definition startup_bound : IO unit :=
  scoped STARTUP_LOCK (_ ← call (Unlock STARTUP_LOCK); require_running).

(** ** airc-cli *)
(** [update_shutdown::stop], with [polls] observations before its deadline.  An
    observation is [status]'s: an absent endpoint is [Ok false]. *)
Fixpoint await_absent (polls : nat) : IO unit :=
  match polls with
  | O => io_throw StopDeadline
  | S polls =>
      r ← attempt (call ObserveStatus);
      match r with
      | Ok false => mret tt
      | Ok true => await_absent polls
      | Err error => if decide (error = Disconnected) then await_absent polls else io_throw error
      end
  end.
Definition stop_daemon (polls : nat) : IO unit :=
  running ← call ObserveStatus;
  if running : bool then
    r ← attempt (call RequestStop);
    match r with
    | Ok _ => await_absent polls
    | Err error =>
        if decide (error = Disconnected ∨ error = NotFound) then await_absent polls else io_throw error
    end
  else mret tt.

Definition work (a : Activity) : IO unit := Vis (Work a) (λ _, Ret (Ok tt)).
(** [p] with the guard in scope. *)
Definition with_guard {A} (acquire : IO Guard) (p : Guard → IO A) : IO A :=
  g ← acquire;
  prog_bind (p g) (λ r, _ ← guard_drop g; Ret r).

Definition run_stop (polls : nat) : IO unit :=
  with_guard maintenance (λ g,
    _ ← work Maintaining;
    _ ← record_operator_stop g;
    _ ← stop_daemon polls;
    _ ← confirm_no_startup g;
    work ReportStopped).
(** [run_join]'s prelude, and [adopt_installed]'s. *)
Definition resume : IO unit :=
  with_guard maintenance (λ g, _ ← work Maintaining; _ ← clear_operator_stop g; work Maintaining).
(** An update or a reconciliation: maintenance held across its work, which may
    stop the daemon and start another, but leaves the operator's intent. *)
Definition update (polls : nat) : IO unit :=
  with_guard maintenance (λ _,
    _ ← work Maintaining; _ ← operator_stopped; _ ← stop_daemon polls; work Maintaining).
(** The guards of [ensure_daemon_running] and of an automatic start. *)
Definition attached : IO unit :=
  with_guard attach (λ _, _ ← work Attached; _ ← startup_in_progress; work Attached).
Definition autostarted : IO unit := with_guard autostart (λ _, work Attached).
(** [n] writes through the daemon's own gate, which takes no lock; [then_] after each. *)
Fixpoint daemon_writes (n : nat) (then_ : IO unit) : IO unit :=
  match n with
  | O => mret tt
  | S n =>
      gate ← WriteGate_new Daemon;
      gate ← WriteGate_admit gate;
      _ ← work DaemonWriting;
      _ ← (ticket_drop gate).2;
      _ ← then_;
      daemon_writes n then_
  end.
(** The daemon, from its admission to the end of its process: [run_daemon] around
    [run_with_startup_check].  Its stores write while it initializes, while it serves, and
    until the tasks of its connections end, after the endpoint is gone. *)
Definition after_admission (serving leaving : nat) : IO unit :=
  _ ← owned STARTUP_LOCK (call Bind);
  r ← attempt startup_bound;
  match r with
  | Err error => Vis Cleanup (λ _, io_throw error)
  | Ok _ =>
      _ ← work Serving; _ ← daemon_writes serving (work Serving);
      Vis Cleanup (λ _, daemon_writes leaving (mret tt))
  end.
Definition daemon (opening serving leaving : nat) : IO unit :=
  _ ← startup_acquire;
  _ ← work Initializing; _ ← daemon_writes opening (work Initializing);
  after_admission serving leaving.

Inductive Command :=
| CStop (polls : nat) | CResume | CUpdate (polls : nat) | CAttach | CAutostart | CDaemon (opening serving leaving : nat).
Definition command_prog (c : Command) : IO unit :=
  match c with
  | CStop polls => run_stop polls
  | CResume => resume
  | CUpdate polls => update polls
  | CAttach => attached
  | CAutostart => autostarted
  | CDaemon opening serving leaving => daemon opening serving leaving
  end.

(** ** The machine *)
Section machine.
Context {L : Type} `{!Flock L}.

Record World := MkWorld {
  lock : LockFile → L;
  stop : bool;              (* the operator's stop is recorded *)
  endpoint : gset N;        (* the daemons bound *)
}.
Definition set_lock (f : LockFile) (l : L) (w : World) : World :=
  MkWorld (λ g, if decide (g = f) then l else lock w g) (stop w) (endpoint w).
Definition set_stop (b : bool) (w : World) : World := MkWorld (lock w) b (endpoint w).
Definition set_endpoint (e : gset N) (w : World) : World := MkWorld (lock w) (stop w) e.

(** A call that fails changes nothing. *)
Definition failed {A} (P : IoError → Prop) (w : World) (r : result IoError A) (w' : World) : Prop :=
  ∃ e, r = Err e ∧ P e ∧ w' = w.
(** What process [h]'s call may return, and the world it leaves. *)
Definition act_step (h : N) {B} (a : Act B) (w : World) : B → World → Prop :=
  match a in Act B return B → World → Prop with
  | Open _ | Sync | RequestStop => λ r w', r = Ok tt ∧ w' = w ∨ failed (λ _, True) w r w'
  | TryLock f m => λ r w',
      match lk_try m h (lock w f) with
      | Some l => r = Ok tt ∧ w' = set_lock f l w ∨ failed (.≠ Contended) w r w'
      | None => failed (λ _, True) w r w'
      end
  | LockExclusive f => λ r w',
      match lk_try Exclusive h (lock w f) with
      | Some l => r = Ok tt ∧ w' = set_lock f l w
      | None => False
      end ∨ failed (λ _, True) w r w'
  | Unlock f => λ r w', r = Ok tt ∧ w' = set_lock f (lk_unlock h (lock w f)) w ∨ failed (λ _, True) w r w'
  | Close f => λ _ w', w' = set_lock f (lk_unlock h (lock w f)) w
  | StopExists => λ r w',
      w' = w ∧ (r = Ok true ∧ stop w = true ∨ r = Err NotFound ∧ stop w = false ∨ ∃ e, r = Err e ∧ e ≠ NotFound)
  | CreateStop => λ r w',
      if stop w then failed (λ _, True) w r w'
      else r = Ok tt ∧ w' = set_stop true w ∨ failed (.≠ AlreadyExists) w r w'
  | RemoveStop => λ r w',
      if stop w then r = Ok tt ∧ w' = set_stop false w ∨ failed (.≠ NotFound) w r w'
      else failed (λ _, True) w r w'
  | Bind => λ r w', r = Ok tt ∧ w' = set_endpoint ({[h]} ∪ endpoint w) w ∨ failed (λ _, True) w r w'
  | Cleanup => λ _ w', w' = set_endpoint (endpoint w ∖ {[h]}) w
  | ObserveStatus => λ r w',
      w' = w ∧ (r = Ok false ∧ endpoint w = ∅ ∨ r = Ok true ∧ endpoint w ≠ ∅ ∨ ∃ e, r = Err e)
  | Work _ => λ _ w', w' = w
  end.

(** A store of a process that is not the daemon, with its write gate and what the gate's
    mutex lets run on it; a command.  The stores of the daemon are in [daemon]. *)
Inductive Process :=
| Store (in_flight : nat) (op : option (IO WriteGate))
| Running (p : IO unit).
Record Machine := MkMachine { procs : gmap N Process; world : World }.
Definition Machine_init : Machine := MkMachine ∅ (MkWorld (λ _, lk_free) false ∅).

(** One call of a program. *)
Definition prog_step (h : N) {A} (p : Prog A) (w : World) (p' : Prog A) (w' : World) : Prop :=
  match p with
  | Ret _ => False
  | Vis a k => ∃ b, act_step h a w b w' ∧ p' = k b
  end.
(** The process's calls, and what it does between them. *)
Inductive proc_step (h : N) : Process → World → Process → World → Prop :=
| store_admit n w : proc_step h (Store n None) w (Store n (Some (WriteGate_admit (Some n)))) w
| store_drop n w n' op : ticket_drop (Some (S n)) = (Some n', op) →
    proc_step h (Store (S n) None) w (Store n' (Some (_ ← op; mret (Some n')))) w
| store_call n p w p' w' : prog_step h p w p' w' → proc_step h (Store n (Some p)) w (Store n (Some p')) w'
| store_admitted n n' w : proc_step h (Store n (Some (Ret (Ok (Some n'))))) w (Store n' None) w
| store_refused n e w : proc_step h (Store n (Some (Ret (Err e)))) w (Store n None) w
| running_call p w p' w' : prog_step h p w p' w' → proc_step h (Running p) w (Running p') w'.

(** The end of a process, in whatever state: its files are closed. *)
Definition close_all (h : N) (w : World) : World :=
  MkWorld (λ f, lk_unlock h (lock w f)) (stop w) (endpoint w ∖ {[h]}).

Definition run_step (h : N) (σ σ' : Machine) : Prop :=
  ∃ p p' w', procs σ !! h = Some p ∧ proc_step h p (world σ) p' w' ∧
    σ' = MkMachine (<[h := p']> (procs σ)) w'.
Definition exit_step (h : N) (σ σ' : Machine) : Prop :=
  is_Some (procs σ !! h) ∧ σ' = MkMachine (delete h (procs σ)) (close_all h (world σ)).
Inductive step (σ : Machine) : Machine → Prop :=
| step_run h σ' : run_step h σ σ' → step σ σ'
| step_exit h σ' : exit_step h σ σ' → step σ σ'
| step_command h c : procs σ !! h = None →
    step σ (MkMachine (<[h := Running (command_prog c)]> (procs σ)) (world σ))
| step_store h : procs σ !! h = None →
    step σ (MkMachine (<[h := Store 0 None]> (procs σ)) (world σ)).

(** What a process is at, and the writes it has in flight under the lock. *)
Definition doing (p : Process) (a : Activity) : Prop :=
  match p with Running (Vis (Work a') _) => a' = a | _ => False end.
Definition writes (p : Process) : nat := match p with Store n _ => n | Running _ => 0 end.
End machine.
Arguments World : clear implicits.
Arguments Machine : clear implicits.
