(* ===== verification/StoreCustodyRun.v ===== *)
(** Running the commands of [StoreCustody]: a table of lock holders as the
    advisory lock, and the executable run in which every call that can succeed
    does.  Then what one process knows, as it runs any of the programs. *)
From stdpp Require Import base gmap list relations.
From Stdlib Require Import Lia.
From S2P Require Import Prelude.
From S2P Require Import StoreCustody.

(** ** A lock as the table of its holders *)
Abbreviation Holders := (gmap N LockMode).
Definition compatible (m : LockMode) (h : N) (l : Holders) : Prop :=
  map_Forall (λ h' m', h' = h ∨ m = Shared ∧ m' = Shared) l.
#[export] Instance holders_flock : Flock Holders := {|
  lk_free := ∅;
  lk_try m h l := if decide (compatible m h l) then Some (<[h := m]> l) else None;
  lk_unlock h l := delete h l;
|}.
Lemma holders_try m h (l l' : Holders) : lk_try m h l = Some l' →
  (∀ h', l' !! h' = if decide (h' = h) then Some m else l !! h') ∧ (∀ h', h' ≠ h → ¬ conflicts m (l !! h')).
Proof.
  cbn. case_decide as Hc; [|done]. intros [= <-]. split.
  - intros h'. case_decide; [subst; by rewrite lookup_insert_eq|by rewrite lookup_insert_ne].
  - intros h' Hne Hx. destruct (l !! h') as [m'|] eqn:Hl; [|by destruct m].
    by destruct (Hc h' m' Hl) as [?|[-> ->]].
Qed.
Lemma holders_busy m h (l : Holders) : lk_try m h l = None → ∃ h', h' ≠ h ∧ conflicts m (l !! h').
Proof.
  cbn. case_decide as Hc; [done|]. intros _. apply map_not_Forall in Hc; [|apply _].
  destruct Hc as (h' & m' & Hl & Hn). exists h'. split; [naive_solver|]. rewrite Hl.
  destruct m, m'; cbn; naive_solver.
Qed.
Lemma holders_unlock h (l : Holders) h' : (lk_unlock h l : Holders) !! h' = if decide (h' = h) then None else l !! h'.
Proof. cbn. case_decide; [subst; by rewrite lookup_delete_eq|by rewrite lookup_delete_ne]. Qed.
#[export] Instance holders_laws : FlockLaws Holders := {|
  lk_held l h := l !! h;
  law_free h := lookup_empty h;
  law_try_some := holders_try;
  law_try_none := holders_busy;
  law_unlock := holders_unlock;
|}.

(** ** The run *)
Section run.
Context {L : Type} `{!Flock L}.
Definition exec_act (h : N) {B} (x : Act B) (w : World L) : option (B * World L) :=
  match x in Act B return option (B * World L) with
  | Open _ | Sync | RequestStop => Some (Ok tt, w)
  | TryLock f m =>
      match lk_try m h (lock w f) with Some l => Some (Ok tt, set_lock f l w) | None => Some (Err Contended, w) end
  | LockExclusive f =>
      match lk_try Exclusive h (lock w f) with Some l => Some (Ok tt, set_lock f l w) | None => None end
  | Unlock f => Some (Ok tt, set_lock f (lk_unlock h (lock w f)) w)
  | Close f => Some (tt, set_lock f (lk_unlock h (lock w f)) w)
  | StopExists => Some (if stop w then Ok true else Err NotFound, w)
  | CreateStop => Some (if stop w then (Err AlreadyExists, w) else (Ok tt, set_stop true w))
  | RemoveStop => Some (if stop w then (Ok tt, set_stop false w) else (Err NotFound, w))
  | Bind => Some (Ok tt, set_endpoint ({[h]} ∪ endpoint w) w)
  | Cleanup => Some (tt, set_endpoint (endpoint w ∖ {[h]}) w)
  | ObserveStatus => Some (Ok (bool_decide (endpoint w ≠ ∅)), w)
  | Work _ => Some (tt, w)
  end.
Lemma exec_act_step h {B} (x : Act B) w b w' : exec_act h x w = Some (b, w') → act_step h x w b w'.
Proof.
  destruct x; cbn; unfold failed; intros Hx.
  all: try (injection Hx as <- <-; eauto; fail).
  - destruct (lk_try _ _ _); injection Hx as <- <-; eauto.
  - destruct (lk_try _ _ _); [injection Hx as <- <-; eauto|done].
  - injection Hx as <- <-. destruct (stop w); eauto 6.
  - destruct (stop w); injection Hx as <- <-; eauto.
  - destruct (stop w); injection Hx as <- <-; eauto.
  - injection Hx as <- <-. split; [done|]. case_bool_decide as Hc; [auto|]. left. split; [done|].
    destruct (decide (endpoint w = ∅)); [done|]. by destruct Hc.
Qed.

(** [n] calls of process [h]. *)
Definition exec_proc (h : N) (p : Process) (w : World L) : option (Process * World L) :=
  match p with
  | Running (Vis x k) => '(b, w') ← exec_act h x w; Some (Running (k b), w')
  | Store n (Some (Vis x k)) => '(b, w') ← exec_act h x w; Some (Store n (Some (k b)), w')
  | Store n (Some (Ret (Ok (Some n')))) => Some (Store n' None, w)
  | Store n (Some (Ret (Err _))) => Some (Store n None, w)
  | Store n None => Some (Store n (Some (WriteGate_admit (Some n))), w)
  | _ => None
  end.
Fixpoint advance (n : nat) (h : N) (σ : Machine L) : option (Machine L) :=
  match n with
  | O => Some σ
  | S n =>
      p ← procs σ !! h;
      '(p', w') ← exec_proc h p (world σ);
      advance n h (MkMachine (<[h := p']> (procs σ)) w')
  end.
Definition launch (h : N) (c : Command) (σ : Machine L) : Machine L :=
  MkMachine (<[h := Running (command_prog c)]> (procs σ)) (world σ).

Lemma exec_proc_step h p w p' w' : exec_proc h p w = Some (p', w') → proc_step h p w p' w'.
Proof.
  destruct p as [n [[[[n'|]|e]|B x k]|]|[r|B x k]]; cbn; try done; intros Hx.
  1,2,4: injection Hx as <- <-; constructor.
  - destruct (exec_act h x w) as [[b w1]|] eqn:Ha; [|done]. injection Hx as <- <-. constructor.
    exists b. eauto using exec_act_step.
  - destruct (exec_act h x w) as [[b w1]|] eqn:Ha; [|done]. injection Hx as <- <-. constructor.
    exists b. eauto using exec_act_step.
Qed.
Lemma advance_steps n h σ σ' : advance n h σ = Some σ' → rtc step σ σ'.
Proof.
  revert σ. induction n as [|n IH]; intros σ; cbn; [by intros [= ->]|]. intros Hx.
  destruct (procs σ !! h) as [p|] eqn:Hp; [|done]. cbn in Hx.
  destruct (exec_proc h p (world σ)) as [[p' w']|] eqn:He; [|done]. cbn in Hx.
  eapply rtc_l; [|by apply IH]. apply (step_run _ h). eexists _, _, _. split_and!; [done|by apply exec_proc_step|done].
Qed.
Lemma launch_step h c σ : procs σ !! h = None → step σ (launch h c σ).
Proof. apply step_command. Qed.
End run.

(** ** Runs *)
Definition idle_store (h : N) (σ : Machine Holders) : Machine Holders :=
  MkMachine (<[h := Store 0 None]> (procs σ)) (world σ).
Definition or_init (σ : option (Machine Holders)) : Machine Holders := default Machine_init σ.

(** A store with a write in flight (process 2), and a maintenance that waits for it. *)
Definition run_writer : Machine Holders := or_init (advance 5 2 (idle_store 2 Machine_init)).
Definition run_draining : Machine Holders := or_init (advance 3 1 (launch 1 (CUpdate 3) run_writer)).
(** The store then tries a second write. *)
Definition run_second : Machine Holders := or_init (advance 1 2 run_draining).
(** A maintenance at work, beside an idle store. *)
Definition run_maintaining : Machine Holders := or_init (advance 4 1 (launch 1 (CUpdate 3) (idle_store 2 Machine_init))).
(** [airc stop] about to report. *)
Definition run_stopped : Machine Holders := or_init (advance 14 1 (launch 1 (CStop 3) Machine_init)).

(** ** What one process knows *)
Record Local := MkLocal {
  lk_m : option LockMode; lk_l : option LockMode; lk_s : option LockMode;
  bnd : bool;
  rec : bool;     (* the stop is recorded, and cannot be cleared *)
  abs : bool;     (* since then, the endpoint was seen absent *)
  conf : bool;    (* since then, nobody held the startup lock *)
}.
Definition Local_init : Local := MkLocal None None None false false false false.
Definition lk (l : Local) (f : LockFile) : option LockMode :=
  match f with MAINTENANCE_LOCK => lk_m l | LIFECYCLE_LOCK => lk_l l | STARTUP_LOCK => lk_s l end.
Definition excl (l : Local) : Prop := lk_m l = Some Exclusive ∧ lk_l l = Some Exclusive.
Definition taken (f : LockFile) (m : LockMode) (l : Local) : Local :=
  match f with
  | MAINTENANCE_LOCK => MkLocal (Some m) (lk_l l) (lk_s l) (bnd l) false false false
  | LIFECYCLE_LOCK => MkLocal (lk_m l) (Some m) (lk_s l) (bnd l) false false false
  | STARTUP_LOCK =>
      MkLocal (lk_m l) (lk_l l) (Some m) (bnd l) (rec l) (abs l) (if decide (m = Exclusive) then rec l else conf l)
  end.
Definition released (f : LockFile) (l : Local) : Local :=
  match f with
  | MAINTENANCE_LOCK => MkLocal None (lk_l l) (lk_s l) (bnd l) false false false
  | LIFECYCLE_LOCK => MkLocal (lk_m l) None (lk_s l) (bnd l) false false false
  | STARTUP_LOCK => MkLocal (lk_m l) (lk_l l) None (bnd l) (rec l) (abs l) (conf l)
  end.
Definition recorded (b : bool) (l : Local) : Local :=
  MkLocal (lk_m l) (lk_l l) (lk_s l) (bnd l) b (b && abs l) (b && conf l).
Definition bound_to (b : bool) (l : Local) : Local :=
  MkLocal (lk_m l) (lk_l l) (lk_s l) b (rec l) (abs l) (conf l).
Definition seen_absent (l : Local) : Local :=
  MkLocal (lk_m l) (lk_l l) (lk_s l) (bnd l) (rec l) (rec l) (conf l).

(** [p] never gets to [a] while the stop is recorded. *)
Definition never_act (a : Activity) {B} (x : Act B) : (B → Prop) → Prop :=
  match x in Act B return (B → Prop) → Prop with
  | StopExists => λ K, ∀ r, r = Ok true ∨ (∃ e, r = Err e ∧ e ≠ NotFound) → K r
  | Work a' => λ K, a' ≠ a ∧ K tt
  | _ => λ K, ∀ r, K r
  end.
Fixpoint never (a : Activity) {A} (p : Prog A) : Prop :=
  match p with
  | Ret _ => True
  | Vis x k => never_act a x (λ b, never a (k b))
  end.

Definition work_ok (a : Activity) (l : Local) : Prop :=
  match a with
  | Attached => lk_l l = Some Shared
  | Maintaining => excl l
  | Initializing => lk_s l = Some Exclusive
  | Serving => bnd l = true
  | DaemonWriting => True
  | ReportStopped => excl l ∧ rec l = true ∧ abs l = true ∧ conf l = true
  end.
(** A call is allowed, and [K] holds of what follows it. *)
Definition act_ok {B} (x : Act B) (l : Local) : (B → Local → Prop) → Prop :=
  match x in Act B return (B → Local → Prop) → Prop with
  | Open _ | Sync | RequestStop => λ K, ∀ r, K r l
  | StopExists => λ K, ∀ r, K r l
  | TryLock f m => λ K, (f = LIFECYCLE_LOCK → lk_m l ≠ None) ∧ K (Ok tt) (taken f m l) ∧ ∀ e, K (Err e) l
  | LockExclusive f => λ K,
      lk_l l = None ∧ (f = LIFECYCLE_LOCK → lk_m l = Some Exclusive) ∧
      K (Ok tt) (taken f Exclusive l) ∧ ∀ e, K (Err e) l
  | Unlock f => λ K, K (Ok tt) (released f l) ∧ ∀ e, K (Err e) l
  | Close f => λ K, K tt (released f l)
  | CreateStop => λ K,
      excl l ∧ K (Ok tt) (recorded true l) ∧ K (Err AlreadyExists) (recorded true l) ∧
      ∀ e, e ≠ AlreadyExists → K (Err e) l
  | RemoveStop => λ K, excl l ∧ ∀ r, K r (recorded false l)
  | Bind => λ K, K (Ok tt) (bound_to true l) ∧ ∀ e, K (Err e) l
  | Cleanup => λ K, K tt (bound_to false l)
  | ObserveStatus => λ K, K (Ok false) (seen_absent l) ∧ K (Ok true) l ∧ ∀ e, K (Err e) l
  | Work a => λ K, work_ok a l ∧ K tt l
  end.
(** What every program of a process in state [l] satisfies. *)
Definition good {A} (p : Prog A) (l : Local) : Prop :=
  (bnd l = false ∨ rec l = true → never Serving p) ∧
  (lk_s l ≠ Some Exclusive ∨ rec l = true → never Initializing p).
(** [G] holds at each call of [p], each call is allowed, and [Q] holds of the result. *)
Fixpoint wp {A} (G : Prog A → Local → Prop) (Q : A → Local → Prop) (p : Prog A) (l : Local) : Prop :=
  G p l ∧
  match p with
  | Ret a => Q a l
  | Vis x k => act_ok x l (λ b l', wp G Q (k b) l')
  end.
Definition any {A} (_ : Prog A) (_ : Local) : Prop := True.
Definition done_ {A} (_ : A) (_ : Local) : Prop := True.

(** What a store knows while [n] writes are in flight; it never takes the startup
    lock or the endpoint. *)
Definition holds_for (n : nat) (l : Local) : Prop := (0 < n)%nat → lk_l l = Some Shared.
Definition plain (l : Local) : Prop := lk_s l = None ∧ bnd l = false ∧ rec l = false.
Definition store_ok (n : nat) (l : Local) : Prop := plain l ∧ holds_for n l.
Definition store_good (n : nat) {A} (p : Prog A) (l : Local) : Prop := good p l ∧ store_ok n l.
Definition store_post (n : nat) (r : result IoError WriteGate) (l : Local) : Prop :=
  match r with
  | Ok (Some n') => store_ok n' l
  | Ok None => False
  | Err _ => store_ok n l
  end.

Lemma act_ok_mono {B} (x : Act B) l (K K' : B → Local → Prop) :
  (∀ b l', K b l' → K' b l') → act_ok x l K → act_ok x l K'.
Proof. intros HK. destruct x; cbn; naive_solver. Qed.
Lemma wp_mono {A} (G G' : Prog A → Local → Prop) (Q Q' : A → Local → Prop) p l :
  (∀ p l, G p l → G' p l) → (∀ r l, Q r l → Q' r l) → wp G Q p l → wp G' Q' p l.
Proof.
  intros HG HQ. revert l. induction p as [r|C x c IH]; intros l [Hg Hp]; (split; [by apply HG|]); [by apply HQ|].
  eapply act_ok_mono, Hp. cbn. auto.
Qed.
Lemma wp_bind {A B} (Q : B → Local → Prop) (p : Prog A) (k : A → Prog B) l :
  wp any (λ r, wp any Q (k r)) p l → wp any Q (prog_bind p k) l.
Proof.
  revert l. induction p as [r|C x c IH]; intros l [Hg Hp]; [done|]. split; [done|].
  eapply act_ok_mono, Hp. cbn. auto.
Qed.

(** A program that is not a daemon's. *)
Fixpoint quiet {A} (p : Prog A) : Prop :=
  match p with
  | Ret _ => True
  | Vis x k => match x with Work Serving | Work Initializing => False | _ => True end ∧ ∀ b, quiet (k b)
  end.
Lemma quiet_bind {A B} (p : Prog A) (k : A → Prog B) : quiet p → (∀ r, quiet (k r)) → quiet (prog_bind p k).
Proof. intros Hp Hk. induction p as [r|C x c IH]; [apply Hk|]. destruct Hp as [? Hp]. split; [done|]. auto. Qed.
Lemma quiet_io {A B} (p : IO A) (k : A → IO B) : quiet p → (∀ a, quiet (k a)) → quiet (p ≫= k).
Proof. intros Hp Hk. apply quiet_bind; [done|]. by intros []. Qed.
Lemma quiet_never {A} (p : Prog A) : quiet p → never Serving p ∧ never Initializing p.
Proof.
  induction p as [r|C x c IH]; [done|]. intros [Hx Hp].
  assert (∀ b, never Serving (c b)) by (intros; by apply IH).
  assert (∀ b, never Initializing (c b)) by (intros; by apply IH).
  cbn. destruct x; cbn; auto. by destruct a.
Qed.
Lemma quiet_good {A} (p : Prog A) l : quiet p → good p l.
Proof. intros [? ?]%quiet_never. by split. Qed.
Lemma wp_quiet {A} (Q : A → Local → Prop) p l : quiet p → wp any Q p l → wp good Q p l.
Proof.
  revert l. induction p as [r|C x c IH]; intros l Hq [_ Hp]; (split; [by apply quiet_good|]); [done|].
  eapply act_ok_mono, Hp. destruct Hq as [_ Hq]. cbn. auto.
Qed.

Ltac head_of t := match t with ?f _ => head_of f | _ => t end.
Ltac wp_step :=
  first
    [ progress intros
    | match goal with
      | |- _ ∧ _ => split
      | |- True => exact I
      | |- any _ _ => exact I
      | |- done_ _ _ => exact I
      | r : result _ _ |- _ => destruct r
      | b : bool |- _ => destruct b
      | u : unit |- _ => destruct u
      | H : _ ∨ _ |- _ => destruct H
      | H : ∃ _, _ |- _ => destruct H
      | H : _ ∧ _ |- _ => destruct H
      end
    | progress unfold good, mret, io_ret, io_throw, plain, holds_for, store_ok, store_good, store_post in *
    | progress cbn in *
    | done | congruence | lia
    | match goal with
      | |- context [decide ?P] => destruct (decide P)
      end ].
Ltac wp_auto := cbn; repeat first [by eauto | wp_step].

(** ** The programs *)
Ltac solve_quiet :=
  repeat (intros; match goal with
    | |- quiet (call _) => by repeat split
    | |- quiet (work _) => by repeat split
    | |- quiet (io_throw _) => exact I
    | |- quiet (mret _) => exact I
    | |- quiet (Ret _) => exact I
    | |- quiet (Vis _ _) => split; [exact I|]
    | |- quiet (_ ≫= _) => apply quiet_io
    | |- quiet (prog_bind _ _) => apply quiet_bind
    | |- quiet (map_err _ _) => apply quiet_bind
    | |- quiet (attempt _) => apply quiet_bind
    | |- quiet (scoped _ _) => apply quiet_bind
    | |- quiet (owned _ _) => apply quiet_bind
    | |- quiet (match ?x with _ => _ end) => destruct x
    | H : quiet ?p |- quiet ?p => exact H
    | |- quiet ?p => let f := head_of p in progress unfold f
    end).
Lemma quiet_await n : quiet (await_absent n).
Proof. induction n; cbn [await_absent]; solve_quiet. Qed.
Lemma quiet_command c : match c with CDaemon _ _ _ => False | _ => True end → quiet (command_prog c).
Proof.
  pose proof quiet_await. intros Hc.
  destruct c; [..|done]; cbn [command_prog]; solve_quiet; auto.
Qed.

Definition seen (l : Local) (r : result IoError unit) (l' : Local) : Prop :=
  match r with Ok _ => l' = seen_absent l | Err _ => l' = l end.
Lemma await_wp n l : wp any (seen l) (await_absent n) l.
Proof. induction n as [|n IH]; wp_auto. Qed.
Lemma stop_daemon_wp n l : wp any (seen l) (stop_daemon n) l.
Proof. pose proof (await_wp n l). wp_auto. Qed.
#[local] Arguments stop_daemon : simpl never.

(** What follows [stop_daemon] in a command. *)
Lemma after_stop {A} (n : nat) (Q : result IoError A → Local → Prop) (k : unit → IO A) l :
  wp any Q (k tt) (seen_absent l) → (∀ e, Q (Err e) l) → wp any Q (stop_daemon n ≫= k) l.
Proof.
  intros Hok Herr. apply wp_bind. eapply wp_mono, stop_daemon_wp; [done|].
  intros [[]|e] l' ->; [done|]. by repeat split.
Qed.

Definition Local_excl : Local := MkLocal (Some Exclusive) (Some Exclusive) None false false false false.
Lemma maintenance_wp :
  wp any (λ r l, match r with Ok g => g = MkGuard true ∧ l = Local_excl | Err _ => True end) maintenance Local_init.
Proof. wp_auto. Qed.
Lemma with_maintenance_wp (p : Guard → IO unit) :
  wp any done_ (p (MkGuard true)) Local_excl → wp any done_ (with_guard maintenance p) Local_init.
Proof.
  intros Hp. apply wp_bind. eapply wp_mono, maintenance_wp; [done|]. intros [g|e] l; [intros [-> ->]|by repeat split].
  apply wp_bind. eapply wp_mono, Hp; [done|]. intros r l _. by repeat split.
Qed.
Lemma update_wp n : wp any done_ (update n) Local_init.
Proof. apply with_maintenance_wp. (cbn; repeat first [apply after_stop | wp_step]). Qed.
Lemma run_stop_wp n : wp any done_ (run_stop n) Local_init.
Proof. apply with_maintenance_wp. (cbn; repeat first [apply after_stop | wp_step]). Qed.

Definition good_at (l : Local) (a : Activity) : Prop :=
  (a = Serving → bnd l = true ∧ rec l = false) ∧ (a = Initializing → lk_s l = Some Exclusive ∧ rec l = false).
Lemma good_work {A} a (k : unit → Prog A) l : good_at l a → good (k tt) l → good (Vis (Work a) k) l.
Proof.
  intros [Hs Hi] [H1 H2]. split; intros Hc; (split; [|auto]); intros ->.
  - destruct (Hs eq_refl). by destruct Hc; congruence.
  - destruct (Hi eq_refl). by destruct Hc; congruence.
Qed.
Lemma wp_work {A} a (k : unit → Prog A) l : good_at l a → work_ok a l → wp good done_ (k tt) l → wp good done_ (Vis (Work a) k) l.
Proof. intros Ha Hok Hk. split; [|by split]. apply good_work; [done|]. by destruct (k tt); apply Hk. Qed.
(** Writes of the daemon between two moments of the same activity. *)
Lemma daemon_writes_wp n (then_ : IO unit) (k : result IoError unit → IO unit) l :
  then_ = mret tt ∨ (∃ a, then_ = work a ∧ good_at l a ∧ work_ok a l) → wp good done_ (k (Ok tt)) l →
  wp good done_ (prog_bind (daemon_writes n then_) k) l.
Proof.
  intros Hthen Hk. induction n as [|n IH]; [exact Hk|]. cbn. apply wp_work; [by split|done|].
  destruct Hthen as [->|(a & -> & Ha & Hok)]; [exact IH|]. cbn. by apply wp_work.
Qed.
Lemma daemon_writes_never a n (then_ : IO unit) (k : result IoError unit → IO unit) :
  a ≠ DaemonWriting → then_ = mret tt ∨ (∃ b, then_ = work b ∧ b ≠ a) → never a (k (Ok tt)) →
  never a (prog_bind (daemon_writes n then_) k).
Proof.
  intros Ha Hthen Hk. induction n as [|n IH]; [exact Hk|]. cbn. split; [congruence|].
  destruct Hthen as [->|(b & -> & Hb)]; [exact IH|]. by split.
Qed.
Lemma writes_end_never a n : a ≠ DaemonWriting → never a (daemon_writes n (mret tt)).
Proof. intros Ha. induction n as [|n IH]; [done|]. cbn. split; [congruence|exact IH]. Qed.
Lemma writes_end_wp n l : wp good done_ (daemon_writes n (mret tt)) l.
Proof. induction n as [|n IH]; [done|]. cbn. by apply wp_work. Qed.
Ltac daemon_step :=
  first
    [ apply writes_end_wp | apply writes_end_never; discriminate
    | apply daemon_writes_wp; [right; eexists; split; [reflexivity|]|]
    | apply daemon_writes_never; [discriminate|right; eexists; split; [reflexivity|discriminate]|]
    | wp_step ].
#[local] Arguments daemon_writes : simpl never.
Lemma daemon_wp opening serving leaving : wp good done_ (daemon opening serving leaving) Local_init.
Proof. cbn. repeat daemon_step. Qed.
Lemma command_wp c : wp good done_ (command_prog c) Local_init.
Proof.
  destruct c; try (apply wp_quiet; [by apply quiet_command|]); cbn [command_prog].
  - apply run_stop_wp. - apply with_maintenance_wp. wp_auto. - apply update_wp.
  - wp_auto. - wp_auto. - apply daemon_wp.
Qed.

Lemma admit_wp n l : store_ok n l → wp (store_good n) (store_post n) (WriteGate_admit (Some n)) l.
Proof. intros [(Hs & Hb & Hr) Hh]. destruct n; wp_auto; apply Hh; lia. Qed.
Lemma drop_wp n n' op l : store_ok (S n) l → ticket_drop (Some (S n)) = (Some n', op) →
  wp (store_good n') (store_post n') (_ ← op; mret (Some n')) l.
Proof.
  intros [(Hs & Hb & Hr) Hh] [= <- <-]. rewrite Nat.sub_0_r. destruct n; wp_auto; apply Hh; lia.
Qed.
