(* ===== verification/StoreCustodyThms.v ===== *)
(** Custody of the stores and of the daemon: maintenance excludes the writers
    that take its locks and automatic starts, drains them, and a reported stop is final;
    the daemon's own writes it does not exclude. *)
From stdpp Require Import base gmap list relations.
From Stdlib Require Import Lia.
From S2P Require Import Prelude.
From S2P Require Import StoreCustody.
From S2P Require Import StoreCustodyRun.

(** ** The invariant of the machine *)
Section machine.
Context {L : Type} `{!Flock L, !FlockLaws L}.
Implicit Types (w : World L) (σ : Machine L) (l : Local) (h : N).

Definition held w (f : LockFile) h : option LockMode := lk_held (lock w f) h.
Definition exclusive_ok w : Prop :=
  ∀ f h1 h2, held w f h1 = Some Exclusive → held w f h2 ≠ None → h1 = h2.
Definition agrees h l w : Prop := (∀ f, held w f h = lk l f) ∧ (bnd l = true ↔ h ∈ endpoint w).
Definition pnever (a : Activity) (p : Process) : Prop := match p with Running q => never a q | Store _ _ => True end.
Definition all_never (a : Activity) σ : Prop := ∀ h p, procs σ !! h = Some p → pnever a p.
Record know l σ : Prop := {
  k_rec : rec l = true → stop (world σ) = true ∧ excl l;
  k_abs : abs l = true → rec l = true ∧ all_never Serving σ;
  k_conf : conf l = true → rec l = true ∧ all_never Initializing σ;
}.
Definition proc_ok (p : Process) l : Prop :=
  match p with
  | Running q => wp good done_ q l
  | Store n None => store_ok n l
  | Store n (Some q) => wp (store_good n) (store_post n) q l
  end.
Record machine_ok σ : Prop := {
  m_excl : exclusive_ok (world σ);
  m_free h : procs σ !! h = None → (∀ f, held (world σ) f h = None) ∧ h ∉ endpoint (world σ);
  m_proc h p : procs σ !! h = Some p → ∃ l, agrees h l (world σ) ∧ proc_ok p l ∧ know l σ;
}.

(** What one call of process [h] does to what it knows and to the world. *)
Record effect h l w l' w' : Prop := {
  e_agrees : agrees h l' w';
  e_excl : exclusive_ok w';
  e_locks f h' : h' ≠ h → held w' f h' = held w f h';
  e_endpoint h' : h' ≠ h → h' ∈ endpoint w' ↔ h' ∈ endpoint w;
  e_rec : rec l' = true → stop w' = true ∧ excl l';
  e_stop : stop w = true → stop w' = true ∨ excl l;
  e_abs : abs l' = true → rec l' = true ∧ (abs l = true ∨ endpoint w = ∅);
  e_conf : conf l' = true →
    rec l' = true ∧ (conf l = true ∨ ∀ h', h' ≠ h → held w STARTUP_LOCK h' = None);
}.

Lemma held_set f g lo w h : held (set_lock f lo w) g h = if decide (g = f) then lk_held lo h else held w g h.
Proof. unfold held, set_lock. cbn. by destruct (decide (g = f)). Qed.
Lemma held_taken f m lo w h h' : lk_try m h (lock w f) = Some lo →
  held (set_lock f lo w) f h' = if decide (h' = h) then Some m else held w f h'.
Proof. intros Hl. rewrite held_set, decide_True by done. by apply law_try_some. Qed.
Lemma held_released f w h h' :
  held (set_lock f (lk_unlock h (lock w f)) w) f h' = if decide (h' = h) then None else held w f h'.
Proof. rewrite held_set, decide_True by done. apply law_unlock. Qed.

(** The world after a call on one lock file. *)
Definition moves h (f : LockFile) (m : option LockMode) w w' : Prop :=
  stop w' = stop w ∧ endpoint w' = endpoint w ∧
  ∀ g h', held w' g h' = if decide (g = f ∧ h' = h) then m else held w g h'.
Lemma moves_taken h f m lo w : lk_try m h (lock w f) = Some lo → moves h f (Some m) w (set_lock f lo w).
Proof.
  intros Hl. split_and!; [done|done|]. intros g h'. destruct (decide (g = f)) as [->|Hg].
  - rewrite (held_taken _ _ _ _ _ _ Hl). destruct (decide (h' = h)) as [->|]; [by rewrite decide_True|].
    rewrite decide_False; [done|]. by intros [].
  - rewrite held_set, !decide_False; [done| |done]. by intros [].
Qed.
Lemma moves_released h f w : moves h f None w (set_lock f (lk_unlock h (lock w f)) w).
Proof.
  split_and!; [done|done|]. intros g h'. destruct (decide (g = f)) as [->|Hg].
  - rewrite held_released. destruct (decide (h' = h)) as [->|]; [by rewrite decide_True|].
    rewrite decide_False; [done|]. by intros [].
  - rewrite held_set, !decide_False; [done| |done]. by intros [].
Qed.
Lemma moves_self h f m w w' : moves h f m w w' → held w' f h = m.
Proof. intros (_ & _ & Hm). by rewrite Hm, decide_True. Qed.
Lemma moves_file h f m w w' g h' : moves h f m w w' → g ≠ f → held w' g h' = held w g h'.
Proof. intros (_ & _ & Hm) Hg. rewrite Hm, decide_False; [done|]. by intros []. Qed.
Lemma moves_other h f m w w' g h' : moves h f m w w' → h' ≠ h → held w' g h' = held w g h'.
Proof. intros (_ & _ & Hm) Hg. rewrite Hm, decide_False; [done|]. by intros []. Qed.

Lemma moves_exclusive h f m w w' : exclusive_ok w → moves h f m w w' →
  (∀ m' h', m = Some m' → h' ≠ h → ¬ conflicts m' (held w f h')) → exclusive_ok w'.
Proof.
  intros Hx Hm Hc g h1 h2. destruct (decide (g = f)) as [->|Hg]; [|rewrite !(moves_file _ _ _ _ _ _ _ Hm Hg); apply Hx].
  destruct (decide (h1 = h)) as [->|H1], (decide (h2 = h)) as [->|H2]; [done|..].
  - rewrite (moves_self _ _ _ _ _ Hm), (moves_other _ _ _ _ _ _ _ Hm H2). intros -> H. by destruct (Hc Exclusive h2).
  - rewrite (moves_self _ _ _ _ _ Hm), (moves_other _ _ _ _ _ _ _ Hm H1). intros He Hn. destruct m as [m|]; [|done].
    destruct (Hc m h1 eq_refl H1). rewrite He. by destruct m.
  - rewrite (moves_other _ _ _ _ _ _ _ Hm H1), (moves_other _ _ _ _ _ _ _ Hm H2). apply Hx.
Qed.
Lemma moves_agrees h f m w w' l l' : agrees h l w → moves h f m w w' →
  lk l' f = m → (∀ g, g ≠ f → lk l' g = lk l g) → bnd l' = bnd l → agrees h l' w'.
Proof.
  intros [Ha Hb] Hm Hf Hg He. pose proof Hm as (_ & Hep & _). split; [|by rewrite He, Hep].
  intros g. destruct (decide (g = f)) as [->|Hne]; [by rewrite (moves_self _ _ _ _ _ Hm)|].
  by rewrite (moves_file _ _ _ _ _ _ _ Hm Hne), Hg.
Qed.

(** What [h] established is still so. *)
Definition sound l w : Prop :=
  (rec l = true → stop w = true ∧ excl l) ∧ (abs l = true → rec l = true) ∧ (conf l = true → rec l = true).

Lemma taken_effect h l w f m lo : exclusive_ok w → agrees h l w → sound l w →
  lk_try m h (lock w f) = Some lo → effect h l w (taken f m l) (set_lock f lo w).
Proof.
  intros Hx Ha (Hrec & Habs & Hconf) Hl. pose proof (law_try_some _ _ _ _ Hl) as [_ Hc].
  pose proof (moves_taken _ _ _ _ _ Hl) as Hm. split.
  - apply (moves_agrees _ _ _ _ _ _ _ Ha Hm); [by destruct f| |by destruct f]. intros g. by destruct f, g.
  - apply (moves_exclusive _ _ _ _ _ Hx Hm). intros m' h' [= <-]. apply Hc.
  - intros g h'. apply (moves_other _ _ _ _ _ g h' Hm).
  - done.
  - destruct f; cbn; [done..|]. apply Hrec.
  - by left.
  - destruct f; cbn; [done..|]. auto.
  - destruct f; cbn; [done..|]. destruct (decide (m = Exclusive)) as [->|]; [|auto]. intros Hr. split; [done|]. right.
    intros h' Hne. destruct (held w STARTUP_LOCK h') eqn:Hn; [|done]. destruct (Hc h' Hne). cbn.
    unfold held in Hn. by rewrite Hn.
Qed.
Lemma released_effect h l w f : exclusive_ok w → agrees h l w → sound l w →
  effect h l w (released f l) (set_lock f (lk_unlock h (lock w f)) w).
Proof.
  intros Hx Ha (Hrec & Habs & Hconf). pose proof (moves_released h f w) as Hm. split.
  - apply (moves_agrees _ _ _ _ _ _ _ Ha Hm); [by destruct f| |by destruct f]. intros g. by destruct f, g.
  - by apply (moves_exclusive _ _ _ _ _ Hx Hm).
  - intros g h'. apply (moves_other _ _ _ _ _ g h' Hm).
  - done.
  - destruct f; cbn; [done..|]. apply Hrec.
  - by left.
  - destruct f; cbn; [done..|]. auto.
  - destruct f; cbn; [done..|]. auto.
Qed.
Lemma no_effect h l w : exclusive_ok w → agrees h l w → sound l w → effect h l w l w.
Proof. intros Hx Ha (Hrec & Habs & Hconf). split; auto. Qed.

(** Every call leads to a state in which what follows it is checked. *)
Lemma act_sound h {B} (x : Act B) l (K : B → Local → Prop) w b w' :
  exclusive_ok w → agrees h l w → sound l w → act_ok x l K → act_step h x w b w' →
  ∃ l', K b l' ∧ effect h l w l' w'.
Proof.
  intros Hx Ha Hs HK Hstep. pose proof (no_effect h l w Hx Ha Hs) as He.
  pose proof Hs as (Hrec & Habs & Hconf). pose proof Ha as [Hlk Hb].
  destruct x; cbn in HK, Hstep.
  - destruct Hstep as [[-> ->]|(e & -> & _ & ->)]; eauto.
  - destruct HK as (_ & Hok & Herr). destruct (lk_try _ _ _) as [lo|] eqn:Hl.
    + destruct Hstep as [[-> ->]|(e & -> & _ & ->)]; eauto using taken_effect.
    + destruct Hstep as (e & -> & _ & ->). eauto.
  - destruct HK as (_ & _ & Hok & Herr). destruct Hstep as [Hstep|(e & -> & _ & ->)]; [|eauto].
    destruct (lk_try _ _ _) as [lo|] eqn:Hl; [|done]. destruct Hstep as [-> ->]. eauto using taken_effect.
  - destruct HK as (Hok & Herr). destruct Hstep as [[-> ->]|(e & -> & _ & ->)]; eauto using released_effect.
  - subst w'. destruct b. eauto using released_effect.
  - destruct Hstep as [-> _]. eauto.
  - destruct HK as (Hexcl & Hok & Hex & Herr).
    assert (∀ w', lock w' = lock w → endpoint w' = endpoint w → stop w' = true →
      effect h l w (recorded true l) w') as Hr.
    { intros w1 Hl1 He1 Hs1. split; try done; unfold agrees, exclusive_ok, held; rewrite ?Hl1, ?He1; auto; try done.
      all: cbn; auto. }
    destruct (stop w) eqn:Hst.
    + destruct Hstep as (e & -> & _ & ->). destruct (decide (e = AlreadyExists)) as [->|]; eauto.
    + destruct Hstep as [[-> ->]|(e & -> & ? & ->)]; eauto.
  - destruct HK as [Hexcl HK].
    assert (∀ w', lock w' = lock w → endpoint w' = endpoint w → effect h l w (recorded false l) w') as Hr.
    { intros w1 Hl1 He1. split; try done; unfold agrees, exclusive_ok, held; rewrite ?Hl1, ?He1; auto; done. }
    destruct (stop w) eqn:Hst.
    + destruct Hstep as [[-> ->]|(e & -> & ? & ->)]; eauto.
    + destruct Hstep as (e & -> & _ & ->); eauto.
  - destruct Hstep as [[-> ->]|(e & -> & _ & ->)]; eauto.
  - destruct HK as [Hok Herr]. destruct Hstep as [[-> ->]|(e & -> & _ & ->)]; [|eauto]. eexists. split; [done|].
    split; auto; cbn.
    + split; [done|]. cbn. set_solver.
    + intros h' Hne. set_solver.
  - subst w'. destruct b. eexists. split; [done|]. split; auto; cbn.
    + split; [done|]. cbn. set_solver.
    + intros h' Hne. set_solver.
  - destruct Hstep as [-> [[-> Hem]|[[-> Hne]|[e ->]]]]; destruct HK as (Hno & Hyes & Herr); [|eauto..].
    eexists. split; [done|]. split; auto; cbn; auto.
  - destruct Hstep as [[-> ->]|(e & -> & _ & ->)]; eauto.
  - destruct HK as [_ HK]. subst w'. destruct b. eauto.
Qed.

Lemma proc_sound h p l w p' w' :
  exclusive_ok w → agrees h l w → sound l w → proc_ok p l → proc_step h p w p' w' →
  ∃ l', proc_ok p' l' ∧ effect h l w l' w'.
Proof.
  intros Hx Ha Hs Hp Hstep. pose proof (no_effect h l w Hx Ha Hs) as He. destruct Hstep; cbn in Hp.
  - exists l. split; [by apply admit_wp|done].
  - exists l. split; [by eapply drop_wp|done].
  - destruct p as [r|B x k]; [done|]. destruct H as (b & Hact & ->). destruct Hp as [_ Hp].
    by destruct (act_sound h x l _ w b w' Hx Ha Hs Hp Hact) as (l' & ? & ?); eauto.
  - exists l. split; [apply Hp|done].
  - exists l. split; [apply Hp|done].
  - destruct p as [r|B x k]; [done|]. destruct H as (b & Hact & ->). destruct Hp as [_ Hp].
    by destruct (act_sound h x l _ w b w' Hx Ha Hs Hp Hact) as (l' & ? & ?); eauto.
Qed.

(** What a process never does stays so while the stop is recorded. *)
Lemma never_step a h p w p' w' : stop w = true → pnever a p → proc_step h p w p' w' → pnever a p'.
Proof.
  intros Hst Hp Hstep. destruct Hstep; try done. cbn in *. destruct p as [r|B x k]; [done|].
  destruct H as (b & Hact & ->). destruct x; cbn in *; try apply Hp; [|destruct b; by apply Hp].
  destruct Hact as [_ [[-> _]|[[_ ?]|(e & -> & ?)]]]; [by left|congruence|right; eauto].
Qed.
Lemma never_command a c : a = Serving ∨ a = Initializing → never a (command_prog c).
Proof. pose proof (command_wp c) as Hc. destruct (command_prog c); [done|]. destruct Hc as [[H1 H2] _].
  intros [-> | ->]; [apply H1; by left|apply H2; left; discriminate]. Qed.

Lemma know_sound h l σ : know l σ → sound l (world σ).
Proof. intros Hk. split_and!; [apply Hk|intros H; by apply (k_abs _ _ Hk)|intros H; by apply (k_conf _ _ Hk)]. Qed.

Lemma machine_init : machine_ok Machine_init.
Proof.
  split.
  - intros f h1 h2. unfold held. cbn. by rewrite law_free.
  - intros h _. split; [intros f; apply law_free|]. cbn. set_solver.
  - intros h p. cbn. by rewrite lookup_empty.
Qed.

(** Another process's call leaves what a process established. *)
Lemma know_other σ procs' w' l' l h h' :
  machine_ok σ → h' ≠ h → agrees h l (world σ) → agrees h' l' (world σ) → know l' σ →
  (stop (world σ) = true → stop w' = true ∨ excl l) →
  (stop (world σ) = true → ∀ a, a = Serving ∨ a = Initializing → all_never a σ → all_never a (MkMachine procs' w')) →
  know l' (MkMachine procs' w').
Proof.
  intros Hok Hne [Ha _] [Ha' _] [Hr Hab Hc] Hst Hnev.
  assert (rec l' = true → stop w' = true ∧ excl l') as Hrec.
  { intros Hr'. destruct (Hr Hr') as [Hs Hex]. split; [|done]. destruct (Hst Hs) as [?|[Hm _]]; [done|].
    destruct Hne. apply (m_excl _ Hok MAINTENANCE_LOCK); rewrite ?Ha, ?Ha'; cbn; [apply Hex|by rewrite Hm]. }
  split; [done|..].
  - intros H. destruct (Hab H) as [Hr' Hn]. split; [done|]. apply Hnev; auto. by apply Hr.
  - intros H. destruct (Hc H) as [Hr' Hn]. split; [done|]. apply Hnev; auto. by apply Hr.
Qed.

(** Where nobody can be bound, or initializing, nobody will be. *)
Lemma all_never_unbound σ : machine_ok σ → endpoint (world σ) = ∅ → all_never Serving σ.
Proof.
  intros Hok He h p Hp. destruct (m_proc _ Hok h p Hp) as (l & [_ Hb] & Hpo & _). destruct p as [|q]; [done|].
  cbn in *. assert (good q l) as [Hg _] by (destruct q; apply Hpo). apply Hg. left.
  destruct (bnd l); [|done]. rewrite He in Hb. set_solver.
Qed.
Lemma all_never_unlocked σ h : machine_ok σ → (∀ h', h' ≠ h → held (world σ) STARTUP_LOCK h' = None) →
  ∀ h' p, h' ≠ h → procs σ !! h' = Some p → pnever Initializing p.
Proof.
  intros Hok Hf h' p Hne Hp. destruct (m_proc _ Hok h' p Hp) as (l & [Ha _] & Hpo & _). destruct p as [|q]; [done|].
  cbn in *. assert (good q l) as [_ Hg] by (destruct q; apply Hpo). apply Hg. left.
  specialize (Ha STARTUP_LOCK). rewrite Hf in Ha by done. cbn in Ha. by rewrite <- Ha.
Qed.
Lemma proc_never p l : proc_ok p l → rec l = true → pnever Serving p ∧ pnever Initializing p.
Proof.
  destruct p as [|q]; [done|]. intros Hq Hr. assert (good q l) as [H1 H2] by (destruct q; apply Hq).
  cbn. split; [apply H1|apply H2]; by right.
Qed.

Lemma run_ok h σ σ' : machine_ok σ → run_step h σ σ' → machine_ok σ'.
Proof.
  intros Hok (p & p' & w' & Hp & Hstep & ->). destruct (m_proc _ Hok h p Hp) as (l & Ha & Hpo & Hk).
  destruct (proc_sound h p l (world σ) p' w' (m_excl _ Hok) Ha (know_sound h _ _ Hk) Hpo Hstep) as (l' & Hpo' & He).
  assert (stop (world σ) = true → ∀ a, a = Serving ∨ a = Initializing →
    all_never a σ → all_never a (MkMachine (<[h:=p']> (procs σ)) w')) as Hn.
  { intros Hst a _ Hall h' q. cbn. rewrite lookup_insert_Some. intros [[<- <-]|[_ Hq]]; [|by apply (Hall h')].
    by eapply never_step; [..|by apply (Hall h)|]. }
  split; cbn.
  - apply He.
  - intros h' Hf. apply lookup_insert_None in Hf as [Hf Hne]. destruct (m_free _ Hok h' Hf) as [H1 H2].
    split; [|by rewrite (e_endpoint _ _ _ _ _ He) by done]. intros f. by rewrite (e_locks _ _ _ _ _ He).
  - intros h' q. rewrite lookup_insert_Some. intros [[<- <-]|[Hne Hq]].
    + exists l'. split_and!; [apply He|done|]. split; [apply He|..]; cbn.
      * intros Hab. destruct (e_abs _ _ _ _ _ He Hab) as [Hr Hor]. split; [done|].
        destruct (proc_never p' l' Hpo' Hr) as [Hn1 _].
        assert (stop (world σ) = true → all_never Serving σ → all_never Serving (MkMachine (<[h:=p']> (procs σ)) w')) as Hn' by auto.
        destruct Hor as [Hab'|Hem].
        -- destruct (k_abs _ _ Hk Hab') as [Hr' Hall]. apply Hn'; [by apply Hk|done].
        -- intros h' q. cbn. rewrite lookup_insert_Some. intros [[<- <-]|[_ Hq]]; [done|].
           by eapply (all_never_unbound σ).
      * intros Hc. destruct (e_conf _ _ _ _ _ He Hc) as [Hr Hor]. split; [done|].
        destruct (proc_never p' l' Hpo' Hr) as [_ Hn2]. destruct Hor as [Hc'|Hf].
        -- destruct (k_conf _ _ Hk Hc') as [Hr' Hall]. apply Hn; auto. by apply Hk.
        -- intros h' q. cbn. rewrite lookup_insert_Some. intros [[<- <-]|[Hne Hq]]; [done|].
           by eapply (all_never_unlocked σ h).
    + destruct (m_proc _ Hok h' q Hq) as (lq & Haq & Hpq & Hkq). exists lq. split_and!; [|done|].
      * destruct Haq as [Haq Hbq]. split; [intros f; rewrite (e_locks _ _ _ _ _ He) by done; apply Haq|].
        by rewrite (e_endpoint _ _ _ _ _ He).
      * apply (know_other σ _ _ _ l h h'); auto. apply He.
Qed.

Lemma held_closed h w f h' : held (close_all h w) f h' = if decide (h' = h) then None else held w f h'.
Proof. apply law_unlock. Qed.

Lemma exit_ok h σ σ' : machine_ok σ → exit_step h σ σ' → machine_ok σ'.
Proof.
  intros Hok [_ ->]. split; cbn.
  - intros f h1 h2. rewrite !held_closed. repeat case_decide; [done..|]. apply (m_excl _ Hok).
  - intros h' Hf. destruct (decide (h' = h)) as [->|Hne]; (split; [intros f; rewrite held_closed|cbn]).
    + by rewrite decide_True.
    + set_solver.
    + rewrite lookup_delete_ne in Hf by done. rewrite decide_False by done. by apply (m_free _ Hok).
    + rewrite lookup_delete_ne in Hf by done. apply (m_free _ Hok) in Hf. set_solver.
  - intros h' p [Hne Hp]%lookup_delete_Some. destruct (m_proc _ Hok h' p Hp) as (l & [Ha Hb] & Hpo & Hk).
    exists l. split_and!; [split|done|].
    + intros f. by rewrite held_closed, decide_False.
    + cbn. set_solver.
    + assert (∀ a, all_never a σ → all_never a (MkMachine (delete h (procs σ)) (close_all h (world σ)))) as Hn.
      { intros a Hall h0 q Hq. cbn in Hq. apply lookup_delete_Some in Hq as [_ Hq]. by apply (Hall h0). }
      destruct Hk as [Hr Hab Hc]. split; [done|intros H; specialize (Hab H)|intros H; specialize (Hc H)]; naive_solver.
Qed.
Lemma new_ok h p σ : machine_ok σ → procs σ !! h = None → proc_ok p Local_init →
  (∀ a, a = Serving ∨ a = Initializing → pnever a p) → machine_ok (MkMachine (<[h := p]> (procs σ)) (world σ)).
Proof.
  intros Hok Hf Hpo Hpn. split; cbn; [apply Hok|..].
  - intros h' [Hf' _]%lookup_insert_None. by apply (m_free _ Hok).
  - intros h' q. rewrite lookup_insert_Some. intros [[<- <-]|[Hne Hq]].
    + exists Local_init. destruct (m_free _ Hok h Hf) as [H1 H2]. split_and!; [split; cbn|done|done].
      * intros f. rewrite H1. by destruct f.
      * done.
    + destruct (m_proc _ Hok h' q Hq) as (l & Ha & Hql & [Hr Hab Hc]). exists l. split_and!; [done..|].
      assert (∀ a, a = Serving ∨ a = Initializing → all_never a σ →
        all_never a (MkMachine (<[h := p]> (procs σ)) (world σ))) as Hn.
      { intros a Ha' Hall h0 q0. cbn. rewrite lookup_insert_Some. intros [[<- <-]|[_ ?]]; [auto|by apply (Hall h0)]. }
      split; [done|..]; intros H.
      * destruct (Hab H). split; auto.
      * destruct (Hc H). split; auto.
Qed.

Lemma machine_step_ok σ σ' : machine_ok σ → step σ σ' → machine_ok σ'.
Proof.
  intros Hok []; [by eapply run_ok|by eapply exit_ok|..]; apply new_ok; auto.
  - cbn. apply command_wp.
  - intros a Ha. by apply never_command.
  - split; [done|]. intros ?. lia.
  - by intros.
Qed.
Definition reachable σ : Prop := rtc step Machine_init σ.
Lemma reachable_ok σ : reachable σ → machine_ok σ.
Proof.
  intros Hr. pattern σ. eapply rtc_ind_r; [apply machine_init| |exact Hr]. intros. by eapply machine_step_ok.
Qed.

(** ** Exclusion *)
Lemma doing_ok p l a : proc_ok p l → doing p a → work_ok a l.
Proof. destruct p as [|[|B x k]]; [done..|]. intros [_ Hp] Hd. destruct x; try done. cbn in *. subst. apply Hp. Qed.
Lemma doing_never p a : doing p a → ¬ pnever a p.
Proof. destruct p as [|[|B x k]]; [done..|]. intros Hd Hp. destruct x; try done. cbn in *. by destruct Hp. Qed.
Lemma writes_hold p l : proc_ok p l → (0 < writes p)%nat → lk_l l = Some Shared.
Proof.
  destruct p as [n [q|]|]; cbn; [|intros Hs; apply Hs|lia].
  intros Hq. assert (store_ok n l) as Hs by (destruct q; apply Hq). apply Hs.
Qed.

(** C9: maintenance excludes the writers that take its locks: while a process works under
    the maintenance guard ([airc update], [airc stop], a resume) or reports the stop, no
    store of a process other than the daemon (the CLI, a join feed, an agent) has a write
    in flight, and no other process holds an attach or autostart guard or is in
    maintenance; and at most one daemon initializes at a time.  The stores of the daemon
    take no lock, and are not excluded: see [daemon_writes_under_maintenance]. *)
Theorem maintenance_excludes σ h p h' p' :
  reachable σ → procs σ !! h = Some p → procs σ !! h' = Some p' → h' ≠ h →
  (doing p Maintaining ∨ doing p ReportStopped →
     writes p' = 0%nat ∧ ¬ doing p' Attached ∧ ¬ doing p' Maintaining ∧ ¬ doing p' ReportStopped) ∧
  (doing p Initializing → ¬ doing p' Initializing).
Proof.
  intros Hok%reachable_ok Hp Hp' Hne. destruct (m_proc _ Hok h p Hp) as (l & [Ha _] & Hpo & _).
  destruct (m_proc _ Hok h' p' Hp') as (l' & [Ha' _] & Hpo' & _).
  assert (∀ f, lk l f = Some Exclusive → lk l' f = None) as Hx.
  { intros f Hf. destruct (lk l' f) eqn:Hl'; [|done]. destruct Hne. symmetry. apply (m_excl _ Hok f); rewrite ?Ha, ?Ha'; congruence. }
  split.
  - intros Hd. assert (lk l LIFECYCLE_LOCK = Some Exclusive) as Hl.
    { destruct Hd as [[_ Hl]%(doing_ok _ _ _ Hpo)|[[_ Hl] _]%(doing_ok _ _ _ Hpo)]; exact Hl. }
    apply Hx in Hl. cbn in Hl. split_and!.
    + destruct (decide (0 < writes p')%nat) as [Hw|]; [|lia]. apply (writes_hold _ _ Hpo') in Hw. congruence.
    + intros Hw%(doing_ok _ _ _ Hpo'). cbn in Hw. congruence.
    + intros [_ Hw]%(doing_ok _ _ _ Hpo'). congruence.
    + intros [[_ Hw] _]%(doing_ok _ _ _ Hpo'). congruence.
  - intros Hs%(doing_ok _ _ _ Hpo) Hd%(doing_ok _ _ _ Hpo'). apply (Hx STARTUP_LOCK) in Hs. cbn in Hs, Hd. congruence.
Qed.

(** ** The operator's stop *)
Definition kept_stopped σ σ' : Prop := step σ σ' ∧ stop (world σ') = true.
Lemma all_never_kept a σ σ' : a = Serving ∨ a = Initializing →
  stop (world σ) = true → all_never a σ → rtc kept_stopped σ σ' → all_never a σ'.
Proof.
  intros Ha Hst Hall Hr. revert Hst Hall. induction Hr as [|σ σ1 σ2 [Hstep Hst1] _ IH]; [done|]. intros Hst Hall.
  apply IH; [done|]. destruct Hstep as [h ? (p & p' & w' & Hp & Hps & ->)|h ? [_ ->]|h c Hf|h Hf].
  - intros h' q. cbn. rewrite lookup_insert_Some. intros [[<- <-]|[_ Hq]]; [|by apply (Hall h')].
    by eapply never_step; [..|by apply (Hall h)|].
  - intros h' q Hq. cbn in Hq. apply lookup_delete_Some in Hq as [_ Hq]. by apply (Hall h').
  - intros h' q. cbn. rewrite lookup_insert_Some. intros [[<- <-]|[_ Hq]]; [by apply never_command|by apply (Hall h')].
  - intros h' q. cbn. rewrite lookup_insert_Some. intros [[<- <-]|[_ Hq]]; [done|by apply (Hall h')].
Qed.


(** ** Draining *)
Lemma run_other h σ σ' : machine_ok σ → run_step h σ σ' →
  ∀ h', h' ≠ h → procs σ' !! h' = procs σ !! h' ∧ ∀ f, held (world σ') f h' = held (world σ) f h'.
Proof.
  intros Hok (p & p' & w' & Hp & Hstep & ->) h' Hne. destruct (m_proc _ Hok h p Hp) as (l & Ha & Hpo & Hk).
  destruct (proc_sound h p l (world σ) p' w' (m_excl _ Hok) Ha (know_sound h _ _ Hk) Hpo Hstep) as (l' & _ & He).
  split; [by cbn; rewrite lookup_insert_ne|]. intros f. by apply (e_locks _ _ _ _ _ He).
Qed.

(** A call that takes the lifecycle lock is made holding the maintenance lock. *)
Lemma act_lifecycle h {B} (x : Act B) l K w b w' : agrees h l w → act_ok x l K → act_step h x w b w' →
  held w LIFECYCLE_LOCK h = None → held w' LIFECYCLE_LOCK h ≠ None → lk_m l ≠ None.
Proof.
  intros _ HK Hstep Hn Hh.
  assert (w' = w → False) as Hsame by (intros ->; congruence).
  assert (lock w' = lock w → False) as Hlock by (intros Hl; apply Hh; unfold held in *; by rewrite Hl).
  destruct x as [|f m|f|f|f| | | | | | | | |]; cbn in HK, Hstep.
  - exfalso. destruct Hstep as [[_ ?]|(_ & _ & _ & ?)]; auto.
  - destruct HK as [Hf _]. destruct (lk_try _ _ _) as [lo|] eqn:Hl.
    + destruct Hstep as [[_ ->]|(e & _ & _ & ?)]; [|exfalso; auto]. destruct (decide (f = LIFECYCLE_LOCK)) as [->|Hne]; [auto|].
      by rewrite (moves_file _ _ _ _ _ LIFECYCLE_LOCK h (moves_taken _ _ _ _ _ Hl)) in Hh.
    + destruct Hstep as (e & _ & _ & ?). exfalso; auto.
  - destruct HK as (_ & Hf & _). destruct Hstep as [Hs|(e & _ & _ & ?)]; [|exfalso; auto].
    destruct (lk_try _ _ _) as [lo|] eqn:Hl; [|done]. destruct Hs as [_ ->].
    destruct (decide (f = LIFECYCLE_LOCK)) as [->|Hne]; [rewrite Hf; done|].
    by rewrite (moves_file _ _ _ _ _ LIFECYCLE_LOCK h (moves_taken _ _ _ _ _ Hl)) in Hh.
  - destruct Hstep as [[_ ->]|(e & _ & _ & ?)]; [|exfalso; auto]. destruct (moves_released h f w) as (_ & _ & Hm).
    rewrite Hm in Hh. by destruct (decide _).
  - subst w'. destruct (moves_released h f w) as (_ & _ & Hm). rewrite Hm in Hh. by destruct (decide _).
  - exfalso. destruct Hstep as [? _]. auto.
  - exfalso. destruct (stop w); [destruct Hstep as (_ & _ & _ & ?); auto|].
    destruct Hstep as [[_ ->]|(_ & _ & _ & ?)]; auto.
  - exfalso. destruct (stop w); [destruct Hstep as [[_ ->]|(_ & _ & _ & ?)]; auto|]. destruct Hstep as (_ & _ & _ & ?); auto.
  - exfalso. destruct Hstep as [[_ ?]|(_ & _ & _ & ?)]; auto.
  - exfalso. destruct Hstep as [[_ ->]|(_ & _ & _ & ?)]; auto.
  - exfalso. subst w'. auto.
  - exfalso. destruct Hstep as [? _]. auto.
  - exfalso. destruct Hstep as [[_ ?]|(_ & _ & _ & ?)]; auto.
  - exfalso. auto.
Qed.
Lemma proc_lifecycle h p l w p' w' : agrees h l w → proc_ok p l → proc_step h p w p' w' →
  held w LIFECYCLE_LOCK h = None → held w' LIFECYCLE_LOCK h ≠ None → lk_m l ≠ None.
Proof.
  intros Ha Hp Hstep Hn Hh. destruct Hstep; try done; destruct p as [r|B x k]; try done;
    destruct H as (b & Hact & _); destruct Hp as [_ Hp]; by eapply act_lifecycle.
Qed.

Lemma no_new_holder m σ σ' h : machine_ok σ → step σ σ' →
  held (world σ) MAINTENANCE_LOCK m = Some Exclusive → h ≠ m →
  held (world σ') LIFECYCLE_LOCK h ≠ None → held (world σ) LIFECYCLE_LOCK h ≠ None.
Proof.
  intros Hok Hstep Hm Hne Hh Hn. destruct Hstep as [h0 σ' Hr|h0 σ' [_ ->]|h0 c Hf|h0 Hf]; [|cbn in Hh; rewrite held_closed in Hh; by case_decide|done..].
  destruct (decide (h0 = h)) as [->|Hne0].
  - destruct Hr as (p & p' & w' & Hp & Hps & ->). destruct (m_proc _ Hok h p Hp) as (l & Ha & Hpo & _).
    pose proof (proc_lifecycle h p l _ p' w' Ha Hpo Hps Hn Hh) as Hl. destruct Hne. symmetry.
    apply (m_excl _ Hok MAINTENANCE_LOCK); [done|]. destruct Ha as [Ha _]. by rewrite Ha.
  - destruct (run_other h0 _ _ Hok Hr h) as [_ Hf]; [done|]. by rewrite Hf in Hh.
Qed.

(** The steps of a process that holds the lifecycle lock, to its end. *)
Definition at_rest (p : Process) : Prop :=
  match p with Running (Ret _) | Store O None => True | _ => False end.
Definition finish (m : N) σ σ' : Prop :=
  ∃ h p, h ≠ m ∧ procs σ !! h = Some p ∧ held (world σ) LIFECYCLE_LOCK h ≠ None ∧
    (run_step h σ σ' ∨ at_rest p ∧ exit_step h σ σ').
(** [h] let go of the lifecycle lock; nobody else moved. *)
Definition let_go h σ σ' : Prop :=
  machine_ok σ' ∧ held (world σ') LIFECYCLE_LOCK h = None ∧
  ∀ h', h' ≠ h → procs σ' !! h' = procs σ !! h' ∧ ∀ f, held (world σ') f h' = held (world σ) f h'.

(** A call of a process that holds the lifecycle lock does not wait. *)
Lemma act_progress h {B} (x : Act B) l K w : act_ok x l K → lk_l l ≠ None → ∃ b w', act_step h x w b w'.
Proof.
  intros HK Hl. destruct x as [|f m|f|f|f| | | | | | | | |]; cbn in *; unfold failed.
  - exists (Ok tt). eauto.
  - destruct (lk_try _ _ _); [exists (Ok tt); eauto|]. exists (Err Contended). eauto 6.
  - by destruct HK.
  - exists (Ok tt). eauto.
  - exists tt. eauto.
  - destruct (stop w); [exists (Ok true)|exists (Err NotFound)]; eauto 6.
  - destruct (stop w); [exists (Err AlreadyExists); eauto 6|exists (Ok tt); eauto].
  - destruct (stop w); [exists (Ok tt); eauto|exists (Err NotFound); eauto 6].
  - exists (Ok tt). eauto.
  - exists (Ok tt). eauto.
  - exists tt. eauto.
  - exists (Err Contended). eauto 6.
  - exists (Ok tt). eauto.
  - exists tt. eauto.
Qed.

Definition drains m h σ : Prop := ∃ σ', rtc (finish m) σ σ' ∧ let_go h σ σ'.
Lemma drains_step m h p σ σ1 : machine_ok σ → h ≠ m → procs σ !! h = Some p →
  held (world σ) LIFECYCLE_LOCK h ≠ None → run_step h σ σ1 →
  (machine_ok σ1 → held (world σ1) LIFECYCLE_LOCK h ≠ None → drains m h σ1) → drains m h σ.
Proof.
  intros Hok Hne Hp Hh Hr Hnext. pose proof (run_ok _ _ _ Hok Hr) as Hok1. pose proof (run_other _ _ _ Hok Hr) as Ho.
  assert (finish m σ σ1) as Hf by (exists h, p; auto).
  destruct (held (world σ1) LIFECYCLE_LOCK h) eqn:Hh1.
  - destruct (Hnext Hok1 ltac:(done)) as (σ' & Hs & Hok' & Hn & Ho'). exists σ'. split; [by econstructor|]. split_and!; [done..|].
    intros h' Hne'. destruct (Ho' h' Hne') as [-> Hf2], (Ho h' Hne') as [-> Hf1]. split; [done|]. intros f. by rewrite Hf2.
  - exists σ1. split; [by apply rtc_once|]. by split_and!.
Qed.
Lemma drains_exit m h p σ : machine_ok σ → h ≠ m → procs σ !! h = Some p → at_rest p →
  held (world σ) LIFECYCLE_LOCK h ≠ None → drains m h σ.
Proof.
  intros Hok Hne Hp Hrest Hh. set (σ' := MkMachine (delete h (procs σ)) (close_all h (world σ))).
  assert (exit_step h σ σ') as Hx by (split; [eauto|done]). exists σ'. split.
  - apply rtc_once. exists h, p. split_and!; [done..|]. by right.
  - split_and!; [by eapply exit_ok|cbn; by rewrite held_closed, decide_True|]. intros h' Hne'. cbn.
    split; [by rewrite lookup_delete_ne|]. intros f. by rewrite held_closed, decide_False.
Qed.

Lemma drains_running m h q σ : machine_ok σ → h ≠ m → procs σ !! h = Some (Running q) →
  held (world σ) LIFECYCLE_LOCK h ≠ None → drains m h σ.
Proof.
  revert σ. induction q as [r|B x k IH]; intros σ Hok Hne Hp Hh; [by eapply drains_exit|].
  destruct (m_proc _ Hok h _ Hp) as (l & [Ha _] & [_ Hw] & _). rewrite Ha in Hh. cbn in Hh.
  destruct (act_progress h x l _ (world σ) Hw Hh) as (b & w' & Hact).
  apply (drains_step m h _ σ (MkMachine (<[h := Running (k b)]> (procs σ)) w') Hok Hne Hp); [by rewrite Ha| |].
  - eexists _, _, _. split_and!; [done| |done]. apply running_call. cbn. eauto.
  - intros Hok1 Hh1. apply (IH b); [done|done| |done]. apply lookup_insert_eq.
Qed.
Lemma drains_op m h n q σ : machine_ok σ → h ≠ m → procs σ !! h = Some (Store n (Some q)) →
  held (world σ) LIFECYCLE_LOCK h ≠ None →
  (∀ n' σ', machine_ok σ' → procs σ' !! h = Some (Store n' None) →
     held (world σ') LIFECYCLE_LOCK h ≠ None → drains m h σ') → drains m h σ.
Proof.
  intros Hok Hne Hp Hh Hidle. revert σ Hok Hp Hh. induction q as [r|B x k IH]; intros σ Hok Hp Hh.
  - destruct (m_proc _ Hok h _ Hp) as (l & _ & [_ Hw] & _).
    assert (∃ n', proc_step h (Store n (Some (Ret r))) (world σ) (Store n' None) (world σ)) as [n' Hs].
    { destruct r as [[n'|]|e]; [exists n'|done|exists n]; constructor. }
    apply (drains_step m h _ σ (MkMachine (<[h := Store n' None]> (procs σ)) (world σ)) Hok Hne Hp Hh).
    + eexists _, _, _. by split_and!.
    + intros Hok1 Hh1. apply (Hidle n'); [done| |done]. apply lookup_insert_eq.
  - destruct (m_proc _ Hok h _ Hp) as (l & [Ha _] & [_ Hw] & _). rewrite Ha in Hh. cbn in Hh.
    destruct (act_progress h x l _ (world σ) Hw Hh) as (b & w' & Hact).
    apply (drains_step m h _ σ (MkMachine (<[h := Store n (Some (k b))]> (procs σ)) w') Hok Hne Hp); [by rewrite Ha| |].
    + eexists _, _, _. split_and!; [done| |done]. apply store_call. cbn. eauto.
    + intros Hok1 Hh1. apply (IH b); [done| |done]. apply lookup_insert_eq.
Qed.
Lemma drains_idle m h n σ : machine_ok σ → h ≠ m → procs σ !! h = Some (Store n None) →
  held (world σ) LIFECYCLE_LOCK h ≠ None → drains m h σ.
Proof.
  revert σ. induction n as [|n IH]; intros σ Hok Hne Hp Hh; [by eapply drains_exit|].
  set (op := _ ← (ticket_drop (Some (S n))).2; mret (Some n)).
  apply (drains_step m h _ σ (MkMachine (<[h := Store n (Some op)]> (procs σ)) (world σ)) Hok Hne Hp Hh).
  { eexists _, _, _. split_and!; [done| |done]. apply store_drop. cbn. by rewrite Nat.sub_0_r. }
  intros Hok1 Hh1. set (σ1 := MkMachine _ _) in *.
  assert (procs σ1 !! h = Some (Store n (Some op))) as Hp1 by apply lookup_insert_eq.
  destruct n as [|n].
  - set (w' := set_lock LIFECYCLE_LOCK (lk_unlock h (lock (world σ1) LIFECYCLE_LOCK)) (world σ1)).
    eapply (drains_step m h _ σ1 (MkMachine (<[h := Store O (Some _)]> (procs σ1)) w') Hok1 Hne Hp1 Hh1).
    + eexists _, _, _. split_and!; [done| |done]. apply store_call. exists (Ok tt). split; [by left|done].
    + intros _ []. unfold w'. cbn [world]. by rewrite held_released, decide_True.
  - apply (drains_step m h _ σ1 (MkMachine (<[h := Store (S n) None]> (procs σ1)) (world σ1)) Hok1 Hne Hp1 Hh1).
    + eexists _, _, _. split_and!; [done| |done]. constructor.
    + intros Hok2 Hh2. apply IH; [done|done| |done]. apply lookup_insert_eq.
Qed.
Lemma drains_one m h σ : machine_ok σ → h ≠ m → held (world σ) LIFECYCLE_LOCK h ≠ None → drains m h σ.
Proof.
  intros Hok Hne Hh. destruct (procs σ !! h) as [[n [q|]|q]|] eqn:Hp.
  - eapply drains_op; [done..|]. intros. by eapply drains_idle.
  - by eapply drains_idle.
  - by eapply drains_running.
  - destruct Hh. by apply (m_free _ Hok h Hp).
Qed.

Lemma drains_all m (hs : list N) σ : machine_ok σ →
  (∀ h, h ≠ m → held (world σ) LIFECYCLE_LOCK h ≠ None → h ∈ hs) →
  ∃ σ', rtc (finish m) σ σ' ∧ procs σ' !! m = procs σ !! m ∧
    ∀ h, h ≠ m → held (world σ') LIFECYCLE_LOCK h = None.
Proof.
  revert σ. induction hs as [|h hs IH]; intros σ Hok Hin.
  - exists σ. split_and!; [done|done|]. intros h Hne. destruct (held _ _ h) eqn:Hh; [|done].
    destruct (proj1 (elem_of_nil h)). apply Hin; [done|congruence].
  - destruct (decide (h = m)) as [->|Hne].
    { apply IH; [done|]. intros h' Hne' Hh'. apply (Hin h') in Hh'; [|done]. by apply elem_of_cons in Hh' as [?|?]. }
    destruct (held (world σ) LIFECYCLE_LOCK h) eqn:Hh.
    + destruct (drains_one m h σ Hok Hne) as (σ1 & Hs & Hok1 & Hn & Ho); [congruence|].
      destruct (IH σ1 Hok1) as (σ' & Hs' & Hm & Hall).
      { intros h' Hne' Hh'. destruct (decide (h' = h)) as [->|Hh0]; [congruence|].
        destruct (Ho h' Hh0) as [_ Hf]. rewrite Hf in Hh'. apply (Hin h') in Hh'; [|done]. by apply elem_of_cons in Hh' as [?|?]. }
      exists σ'. split_and!; [by etrans| |done]. rewrite Hm. by apply Ho.
    + apply IH; [done|]. intros h' Hne' Hh'. pose proof (Hin h' Hne' Hh') as [->|?]%elem_of_cons; [congruence|done].
Qed.

(** Maintenance drains what it found and admits nobody new: from the moment it
    holds the maintenance lock, no process comes to hold the lifecycle lock that
    did not; and the processes that do can finish their calls and writes, none of
    them waiting for anything, after which the lifecycle lock is there for the taking. *)
Theorem maintenance_drains σ m :
  reachable σ → held (world σ) MAINTENANCE_LOCK m = Some Exclusive →
  (∀ σ' h, step σ σ' → h ≠ m → held (world σ') LIFECYCLE_LOCK h ≠ None →
     held (world σ) LIFECYCLE_LOCK h ≠ None) ∧
  ∃ σ', rtc (finish m) σ σ' ∧ procs σ' !! m = procs σ !! m ∧
    is_Some (lk_try Exclusive m (lock (world σ') LIFECYCLE_LOCK)).
Proof.
  intros Hok%reachable_ok Hm. split; [intros σ' h Hs Hne; by eapply no_new_holder|].
  destruct (drains_all m (elements (dom (procs σ))) σ Hok) as (σ' & Hs & Hp & Hall).
  { intros h _ Hh. apply elem_of_elements, elem_of_dom. destruct (procs σ !! h) eqn:Hp; [eauto|].
    destruct Hh. by apply (m_free _ Hok h Hp). }
  exists σ'. split_and!; [done|done|]. destruct (lk_try _ _ _) eqn:Hl; [eauto|].
  apply law_try_none in Hl as (h & Hne & Hc). destruct Hc. by apply (Hall h).
Qed.

(** A write attempted while maintenance drains or works is refused with the
    typed error at its first call, and leaves no trace: not behind other writes of
    the same store, and without waiting. *)
Theorem write_refused_in_maintenance σ m h n σ' :
  held (world σ) MAINTENANCE_LOCK m = Some Exclusive → h ≠ m →
  procs σ !! h = Some (Store n (Some (WriteGate_admit (Some n)))) → run_step h σ σ' →
  world σ' = world σ ∧
  ∃ e, procs σ' !! h = Some (Store n (Some (Ret (Err (MaintenanceInProgress e))))).
Proof.
  intros Hm Hne Hp (p & p' & w' & Hp' & Hstep & ->). rewrite Hp in Hp'. injection Hp' as <-.
  inversion Hstep as [| |n0 q w q' w0 Hs| | |]; subst. destruct Hs as (b & Hact & ->). cbn in Hact.
  destruct (lk_try Shared h (lock (world σ) MAINTENANCE_LOCK)) eqn:Hl.
  { apply law_try_some in Hl as [_ Hc]. by destruct (Hc m); [|apply Hm]. }
  destruct Hact as (e & -> & _ & ->). cbn. split; [done|]. exists e. apply lookup_insert_eq.
Qed.
End machine.

(** ** Runs *)
Lemma advance_reachable n h σ : reachable σ → reachable (or_init (advance n h σ)).
Proof.
  intros Hr. destruct (advance n h σ) eqn:He; cbn; [|constructor].
  unfold reachable in *. etrans; [exact Hr|]. by eapply advance_steps.
Qed.
Lemma launch_reachable h c σ : procs σ !! h = None → reachable σ → reachable (launch h c σ).
Proof. intros Hf Hr. eapply rtc_r; [done|]. by apply launch_step. Qed.
Lemma store_reachable h σ : procs σ !! h = None → reachable σ → reachable (idle_store h σ).
Proof. intros Hf Hr. eapply rtc_r; [done|]. by apply step_store. Qed.
Lemma init_reachable : reachable (L := Holders) Machine_init. Proof. constructor. Qed.
Ltac solve_reachable :=
  repeat first [apply advance_reachable | apply launch_reachable; [reflexivity|] |
    apply store_reachable; [reflexivity|] | apply init_reachable].
Definition process (h : N) (σ : Machine Holders) : Process := default (Store 0 None) (procs σ !! h).

(** [doing], as a test. *)
Definition at_work (p : Process) (a : Activity) : bool :=
  match p with Running (Vis (Work a') _) => bool_decide (a' = a) | _ => false end.
Lemma at_work_doing p a : at_work p a = true → doing p a.
Proof. destruct p as [|[|B x k]]; [done..|]. destruct x; try done. apply bool_decide_eq_true_1. Qed.

Lemma maintenance_excludes_witness :
  writes (process 2 run_maintaining) = 0%nat ∧ ¬ doing (process 2 run_maintaining) Attached ∧
  ¬ doing (process 2 run_maintaining) Maintaining ∧ ¬ doing (process 2 run_maintaining) ReportStopped.
Proof.
  apply (maintenance_excludes run_maintaining 1 (process 1 run_maintaining) 2 (process 2 run_maintaining)).
  - unfold run_maintaining. solve_reachable.
  - reflexivity.
  - reflexivity.
  - discriminate.
  - left. apply at_work_doing. vm_compute. reflexivity.
Defined.


Lemma maintenance_drains_witness :
  ∃ σ', rtc (finish 1) run_draining σ' ∧ procs σ' !! 1%N = procs run_draining !! 1%N ∧
    is_Some (lk_try Exclusive 1 (lock (world σ') LIFECYCLE_LOCK)).
Proof.
  apply (maintenance_drains run_draining 1).
  - unfold run_draining, run_writer. solve_reachable.
  - reflexivity.
Defined.

Lemma write_refused_in_maintenance_witness :
  ∃ e, process 2 (or_init (advance 1 2 run_second)) = Store 1 (Some (Ret (Err (MaintenanceInProgress e)))).
Proof.
  destruct (write_refused_in_maintenance run_second 1 2 1 (or_init (advance 1 2 run_second))) as [_ [e He]].
  - reflexivity.
  - discriminate.
  - reflexivity.
  - eexists _, _, _. split; [reflexivity|]. split; [|reflexivity].
    apply (exec_proc_step 2 (process 2 run_second) (world run_second)). reflexivity.
  - exists e. unfold process. rewrite He. reflexivity.
Defined.

(** A daemon's store writes while another process works under the maintenance guard, before
    it has stopped the daemon; and a connection of a daemon that has closed its endpoint
    still writes when [airc stop] reports that the daemon is stopped. *)
Definition run_daemon_leaving : Machine Holders := or_init (advance 12 2 (launch 2 (CDaemon 0 1 1) Machine_init)).
Lemma daemon_writes_under_maintenance :
  let σ := or_init (advance 4 1 (launch 1 (CStop 3) (or_init (advance 9 2 (launch 2 (CDaemon 0 1 1) Machine_init))))) in
  reachable σ ∧ at_work (process 1 σ) Maintaining = true ∧ at_work (process 2 σ) DaemonWriting = true.
Proof. cbv zeta. split; [solve_reachable|]. by split; vm_compute. Qed.
Lemma daemon_writes_after_reported_stop :
  let σ := or_init (advance 14 1 (launch 1 (CStop 3) run_daemon_leaving)) in
  reachable σ ∧ at_work (process 1 σ) ReportStopped = true ∧ at_work (process 2 σ) DaemonWriting = true.
Proof. cbv zeta. unfold run_daemon_leaving. split; [solve_reachable|]. by split; vm_compute. Qed.
