(* ===== verification/StoreTable.v ===== *)
(** The two event tables as one abstraction:
    [airc-store/src/{event_table,header_query}.rs], and the database under them.

    A query is what the code builds of it: its conditions on a row and on the
    header table, its direction and its limit ([Select]).  The database that runs
    queries and transactions is the class [TableDb]; [TableDbLaws] is its documented
    behaviour over the two tables ([Tables]): the rows, and their header rows. *)
From stdpp Require Import base gmap strings list sorting numbers.
From Stdlib Require Import Lia.
From S2P Require Import Prelude.
From S2P Require Import Sorted.
From S2P Require Import WorkModel.
From S2P Require Import CoreTranscript.
From S2P Require Import CoreHistory.
From S2P Require Import StoreBase.

(** The version of the derived columns this binary writes (derive.rs). *)
Definition DERIVED_VERSION : Z := 1.

(** The header rows of a table, by their primary key. *)
Abbreviation HeaderTable := (gmap (N * rstring) rstring).

(** [serde_json] at the headers, which both tables store as JSON; an error is its
    text. *)
Class HeadersJson `{!JsonValue} := {
  headers_to_json : Headers → result rstring Json;
  headers_from_json : Json → result rstring Headers;
}.
Class HeadersJsonLaws `{!JsonValue, !HeadersJson} := {
  law_headers x j : headers_to_json x = Ok j → headers_from_json j = Ok x;
}.
(** [decode]. *)
Definition decode (what : rstring) {A} (r : result rstring A) : result StoreError A :=
  match r with Ok a => Ok a | Err e => Err (Migration (str "decoding " ++ what ++ str ": " ++ e)) end.

Class EventTable (R : Type) `{!JsonValue} := {
  Content : Type;
  t_event_id : R → N;
  t_client_id : R → N;
  t_target : R → Json;
  t_headers : R → Json;
  t_content : R → Content;
  t_addressed_peer : R → option N;
  t_leading_mention : R → bool;
  t_derived_version : R → Z;
  set_derived : option N → bool → Z → R → R;
  (* the addressing of a stored row, from its target and content *)
  table_addressing : Json → Content → result StoreError Addressing;
  (* the cursor order of the table's selects, which ends with the event id *)
  TableKey : Type;
  TableKey_eq :: EqDecision TableKey;
  TableKey_ord :: OrdKey TableKey;
  t_key : R → TableKey;
}.

Section table.
Context {R : Type} `{!JsonValue} `{!EventTable R}.

(** ** Queries *)
Definition Expr : Type := R → HeaderTable → bool.
Definition expr_and (a b : Expr) : Expr := λ r h, a r h && b r h.
Definition expr_or (a b : Expr) : Expr := λ r h, a r h || b r h.
Definition expr_not (a : Expr) : Expr := λ r h, negb (a r h).
Definition expr_value (b : bool) : Expr := λ _ _, b.
(** Conditions; the direction on the cursor order, when there is one; the limit. *)
Record Select := MkSelect { sel_where : Expr; sel_order : option bool; sel_limit : option N }.
Definition find : Select := MkSelect (expr_value true) None None.
Definition q_filter (p : Expr) (q : Select) : Select := MkSelect (expr_and (sel_where q) p) (sel_order q) (sel_limit q).
Definition q_order (desc : bool) (q : Select) : Select := MkSelect (sel_where q) (Some desc) (sel_limit q).
Definition q_limit (n : N) (q : Select) : Select := MkSelect (sel_where q) (sel_order q) (Some n).

(** ** header_query.rs *)
(** The ids holding header [key], with [cond] on the value. *)
Definition rows_with (key : rstring) (cond : option (rstring → bool)) (h : HeaderTable) : list N :=
  (λ kv, kv.1.1) <$> filter (λ kv, kv.1.2 = key ∧ is_none_or cond (λ p, p kv.2) = true) (map_to_list h).
Definition holding (ids : HeaderTable → list N) : Expr := λ r h, bool_decide (t_event_id r ∈ ids h).
Fixpoint predicate (filter : HeaderFilter) : Expr :=
  match filter with
  | HfAny => expr_value true
  | HfHas key => holding (rows_with key None)
  | HfExact key wanted => holding (rows_with key (Some (λ v, bool_decide (v = wanted))))
  | HfPrefix key value_prefix => holding (rows_with key (Some (λ v, in_prefix_range v value_prefix)))
  | HfNot inner => expr_not (predicate inner)
  | HfAll items => fold_left (λ acc f, expr_and acc (predicate f)) items (expr_value true)
  | HfAnyOf items => fold_left (λ acc f, expr_or acc (predicate f)) items (expr_value false)
  end.
Definition not_runtime_self (rule : RuntimeSelf) : Expr :=
  let stamped := HfHas HEADER_AIRC_CLIENT in
  let unstamped_self :=
    expr_and (predicate (HfNot stamped)) (λ r _, (t_client_id r =? uuid (rself_client_id rule))%N) in
  let is_self :=
    match rself_runtime_client rule with
    | Some tag => expr_or (predicate (HfExact HEADER_AIRC_CLIENT tag)) unstamped_self
    | None => unstamped_self
    end in
  expr_not is_self.

(** ** event_table.rs *)
Definition addressee_branches (query : Select) (addressed_to : option AddresseeFilter) : list Select :=
  match addressed_to with
  | None => [query]
  | Some addressee =>
      [q_filter (λ r _, bool_decide (t_addressed_peer r = Some (uuid (af_peer addressee)))) query;
       q_filter (λ r _, t_leading_mention r) query]
  end.
Definition merge_branches (branches : list (list R)) (limit : nat) (tail : bool) : list R :=
  let rows := dedup_key t_key (sort_by (row_le t_key) (concat branches)) in
  if tail then drop (length rows - limit) rows else take limit rows.

(** ** Writes *)
(** The statements of the write transactions.  [InsertRows] and [InsertHeaders]
    skip what is there already (by primary key); [InsertRow] fails on it. *)
Inductive Stmt :=
| InsertRow (row : R)
| InsertRows (rows : list R)
| InsertHeaders (rows : list (N * rstring * rstring))
| DeleteHeaders (ids : list N)
| UpdateRows (f : R → R) (ids : list N)
| DeleteRows (ids : list N).

(** [write_header_rows]: the rows of [events] (id and headers), in inserts of at
    most so many. *)
Definition HEADER_ROWS_PER_INSERT : nat := 5000.
Definition header_rows (events : list (N * Headers)) : list (N * rstring * rstring) :=
  events ≫= λ e, (λ kv, (e.1, kv.1, kv.2)) <$> bt_entries e.2.
Fixpoint chunks_fuel {A} (fuel size : nat) (l : list A) : list (list A) :=
  match fuel, l with
  | O, _ | _, [] => []
  | S fuel, _ => take size l :: chunks_fuel fuel size (drop size l)
  end.
Definition chunks {A} (size : nat) (l : list A) : list (list A) := chunks_fuel (length l) size l.
Definition write_header_rows (events : list (N * Headers)) : list Stmt :=
  InsertHeaders <$> chunks HEADER_ROWS_PER_INSERT (header_rows events).

(** ** The database *)
(** A transaction answers how many rows each statement affected. *)
Class TableDb (S : Type) := {
  db_admit : ST S StoreError unit;              (* custody, and [refuse_if_ahead] *)
  db_transaction : list Stmt → ST S DbErr (list N);
  db_all : Select → ST S DbErr (list R);
  db_one : Select → ST S DbErr (option R);
}.

(** The branches of a page, one query after another. *)
Fixpoint all_queries {S Error} `{!TableDb S} (f : DbErr → Error) (queries : list Select) : ST S Error (list (list R)) :=
  match queries with
  | [] => mret []
  | q :: queries =>
      rows ← map_db f (db_all q);
      branches ← all_queries f queries;
      mret (rows :: branches)
  end.

Record Tables := MkTables { tb_rows : gmap N R; tb_headers : HeaderTable }.
Definition insert_new {K A} `{Countable K} (m : gmap K A) (kv : K * A) : gmap K A :=
  match m !! kv.1 with Some _ => m | None => <[kv.1 := kv.2]> m end.
(** One statement: the tables after it, and the rows it affected. *)
Definition run_stmt (t : Tables) (s : Stmt) : option (Tables * N) :=
  match s with
  | InsertRow r =>
      match tb_rows t !! t_event_id r with
      | Some _ => None
      | None => Some (MkTables (<[t_event_id r := r]> (tb_rows t)) (tb_headers t), 1%N)
      end
  | InsertRows rows =>
      let events := foldl insert_new (tb_rows t) ((λ r, (t_event_id r, r)) <$> rows) in
      Some (MkTables events (tb_headers t), N.of_nat (size events - size (tb_rows t)))
  | InsertHeaders rows =>
      let headers := foldl insert_new (tb_headers t) ((λ r, (r.1, r.2)) <$> rows) in
      Some (MkTables (tb_rows t) headers, N.of_nat (size headers - size (tb_headers t)))
  | DeleteHeaders ids =>
      let headers := filter (λ kv, kv.1.1 ∉ ids) (tb_headers t) in
      Some (MkTables (tb_rows t) headers, N.of_nat (size (tb_headers t) - size headers))
  | UpdateRows f ids =>
      Some (MkTables (map_imap (λ id r, Some (if decide (id ∈ ids) then f r else r)) (tb_rows t)) (tb_headers t),
            N.of_nat (size (filter (λ kv, kv.1 ∈ ids) (tb_rows t))))
  | DeleteRows ids =>
      let events := filter (λ kv, kv.1 ∉ ids) (tb_rows t) in
      Some (MkTables events (tb_headers t), N.of_nat (size (tb_rows t) - size events))
  end.
Fixpoint run_stmts (t : Tables) (l : list Stmt) : option (Tables * list N) :=
  match l with
  | [] => Some (t, [])
  | s :: l =>
      '(t, n) ← run_stmt t s;
      '(t, ns) ← run_stmts t l;
      Some (t, n :: ns)
  end.

Definition table_rows (t : Tables) : list R := sort_by (row_le t_key) (map_to_list (tb_rows t)).*2.
Definition limited {A} (n : option N) (l : list A) : list A :=
  match n with Some n => take (N.to_nat n) l | None => l end.
Definition selected (q : Select) (t : Tables) : list R :=
  filter (λ r, sel_where q r (tb_headers t) = true) (table_rows t).
(** The answers a query can have: without an order, any arrangement of the rows. *)
Definition answers (q : Select) (t : Tables) (l : list R) : Prop :=
  match sel_order q with
  | Some desc => l = limited (sel_limit q) ((if desc then reverse else id) (selected q t))
  | None => ∃ rows, rows ≡ₚ selected q t ∧ l = limited (sel_limit q) rows
  end.

(** What [admit_write] can fail with. *)
Definition admission_error (e : StoreError) : bool :=
  match e with Io _ | Database _ | NotAdmitted | Migration _ | AheadOfBinary _ => true | _ => false end.

(** The documented behaviour: a query reads, a failed transaction changes nothing
    (or its commit happened and only the report failed), an insert reports a
    duplicate, and a table has fewer rows than an [i64] counts. *)
Class TableDbLaws (S : Type) `{!TableDb S} := {
  db_tables : S → Tables;
  law_admit s : db_tables (db_admit s).2 = db_tables s;
  law_admit_err s e : (db_admit s).1 = Err e → admission_error e = true;
  law_all s q : db_tables (db_all q s).2 = db_tables s;
  law_all_ok s q l : (db_all q s).1 = Ok l → answers q (db_tables s) l;
  law_one s q : db_tables (db_one q s).2 = db_tables s;
  law_one_ok s q o : (db_one q s).1 = Ok o → ∃ l, answers q (db_tables s) l ∧ o = list.head l;
  law_transaction_ok s l ns : (db_transaction l s).1 = Ok ns →
    run_stmts (db_tables s) l = Some (db_tables (db_transaction l s).2, ns);
  law_transaction_duplicate s l : (db_transaction l s).1 = Err RecordNotInserted →
    db_tables (db_transaction l s).2 = db_tables s ∧ run_stmts (db_tables s) l = None;
  law_transaction_err s l e : (db_transaction l s).1 = Err e →
    db_tables (db_transaction l s).2 = db_tables s ∨
    ∃ ns, run_stmts (db_tables s) l = Some (db_tables (db_transaction l s).2, ns);
  law_size s : (Z.of_nat (size (tb_rows (db_tables s))) ≤ i64_max)%Z;
}.
End table.
Arguments Expr R : clear implicits.
Arguments Select R : clear implicits.
Arguments Stmt R : clear implicits.
Arguments TableDb R S : clear implicits.
Arguments Tables R : clear implicits.

Section db.
Context {R : Type} `{!JsonValue} `{!EventTable R}.
Definition small (t : Tables R) : bool := (Z.of_nat (size (tb_rows t)) <=? i64_max)%Z.
Record Db := MkDb { db_content : Tables R; db_small : small db_content = true }.
Definition answer (q : Select R) (t : Tables R) : list R :=
  limited (sel_limit q) (match sel_order q with Some true => reverse | _ => id end (selected q t)).
Lemma answer_answers q t : answers q t (answer q t).
Proof. unfold answers, answer. destruct (sel_order q) as [[]|]; [done..|]. by eexists. Qed.
Definition table_db : TableDb R Db := {|
  db_admit := mret tt;
  db_transaction l s :=
    match run_stmts (db_content s) l with
    | None => (Err RecordNotInserted, s)
    | Some (t, ns) =>
        match decide (small t = true) with
        | left Hs => (Ok ns, MkDb t Hs)
        | right _ => (Err (DbError (str "database or disk is full")), s)
        end
    end;
  db_all q s := (Ok (answer q (db_content s)), s);
  db_one q s := (Ok (list.head (answer q (db_content s))), s);
|}.
#[local] Existing Instance table_db.
Definition table_db_laws : TableDbLaws Db.
Proof.
  refine {| db_tables := db_content |}; try done.
  - intros s q l [= <-]. apply answer_answers.
  - intros s q o [= <-]. eexists. split; [apply answer_answers|done].
  - intros s l ns. cbn. destruct (run_stmts _ _) as [[t ns']|]; [|done]. destruct (decide _); [|done]. by intros [= <-].
  - intros s l. cbn. destruct (run_stmts _ _) as [[t ns']|] eqn:Hr; [|done]. by destruct (decide _).
  - intros s l e. cbn. destruct (run_stmts _ _) as [[t ns']|]; [|by left]. destruct (decide _); [done|by left].
  - intros [t Ht]. cbn. by apply (proj1 (Z.leb_le _ _)) in Ht.
Defined.
Definition empty_db : Db := MkDb (MkTables ∅ ∅) eq_refl.
End db.
Arguments Db R : clear implicits.

(** A table of a larger database. *)
Section lift.
Context {R S T : Type} `{!JsonValue} `{!EventTable R} {DB : TableDb R S} {DL : TableDbLaws (R:=R) S}.
Variables (get : T → S) (put : S → T → T).
Definition on {A} (m : ST S DbErr A) : ST T DbErr A := λ t, let (r, s) := m (get t) in (r, put s t).
Definition lift_db : TableDb R T := {|
  db_admit := mret tt;
  db_transaction l := on (db_transaction l);
  db_all q := on (db_all q);
  db_one q := on (db_one q);
|}.
Lemma on_ret {A} (m : ST S DbErr A) t : (on m t).1 = (m (get t)).1.
Proof. unfold on. by destruct (m (get t)). Qed.
Hypothesis get_put : ∀ s t, get (put s t) = s.
Lemma on_get {A} (m : ST S DbErr A) t : get (on m t).2 = (m (get t)).2.
Proof. unfold on. destruct (m (get t)). apply get_put. Qed.
Definition lift_db_laws : @TableDbLaws R _ _ T lift_db.
Proof.
  refine {| db_tables (t : T) := db_tables (get t) : Tables R |}; cbn [db_admit db_transaction db_all db_one lift_db].
  - done.
  - done.
  - intros t q. rewrite on_get. apply law_all.
  - intros t q l. rewrite on_ret. apply law_all_ok.
  - intros t q. rewrite on_get. apply law_one.
  - intros t q o. rewrite on_ret. apply law_one_ok.
  - intros t l ns. rewrite on_ret, on_get. apply law_transaction_ok.
  - intros t l. rewrite on_ret, on_get. apply law_transaction_duplicate.
  - intros t l e. rewrite on_ret, on_get. apply law_transaction_err.
  - intros t. apply law_size.
Defined.
(** What [put] leaves alone, the lifted calls leave alone. *)
Lemma on_keeps {A B} (f : T → B) (m : ST S DbErr A) t : (∀ s, f (put s t) = f t) → f (on m t).2 = f t.
Proof. intros Hf. unfold on. destruct (m (get t)). apply Hf. Qed.
End lift.
