(* ===== verification/StoreSink.v ===== *)
(** The SQLite durable tier: [airc-store/src/bus_sink.rs] over the event table
    [bus_events].  JSON encodings are [BusCodec].  An [i64] column is a [Z]; a
    cursor is cast to it with the wrap-around of [as]. *)
From stdpp Require Import base gmap strings list sorting numbers.
From S2P Require Import Prelude.
From S2P Require Import Sorted.
From S2P Require Import WorkModel.
From S2P Require Import CoreTranscript.
From S2P Require Import BusEnvelope.
From S2P Require Import BusSink.
From S2P Require Import CoreHistory.
From S2P Require Import BusMatch.
From S2P Require Import StoreBase.
From S2P Require Import StoreTable.

Definition u64_to_i64 (field : rstring) (value : N) : result BusError Z :=
  if (Z.of_N value <=? i64_max)%Z then Ok (Z.of_N value)
  else Err (SinkError (field ++ str " out of i64 range: " ++ show_N value)).
Definition i64_to_u64 (field : rstring) (value : Z) : result BusError N :=
  if (0 <=? value)%Z then Ok (Z.to_N value)
  else Err (SinkError (field ++ str " out of u64 range: -" ++ show_N (Z.to_N (- value)))).

Definition kind_to_text (k : Kind) : rstring :=
  match k with
  | KMessage => str "message"
  | KEvent => str "event"
  | KCommand => str "command"
  | KCommandResult => str "command_result"
  | KSignal => str "signal"
  | KStreamChunk => str "stream_chunk"
  | KControl => str "control"
  end.
Definition kind_from_text (text : rstring) : result BusError Kind :=
  if decide (text = str "message") then Ok KMessage
  else if decide (text = str "event") then Ok KEvent
  else if decide (text = str "command") then Ok KCommand
  else if decide (text = str "command_result") then Ok KCommandResult
  else if decide (text = str "signal") then Ok KSignal
  else if decide (text = str "stream_chunk") then Ok KStreamChunk
  else if decide (text = str "control") then Ok KControl
  else Err (SinkError (str "unknown bus_events.kind: " ++ text)).
Definition delivery_to_text (d : DeliveryClass) : rstring :=
  match d with
  | Durable => str "durable"
  | EphemeralLatest => str "ephemeral_latest"
  | EphemeralWindow => str "ephemeral_window"
  | RequestResponse => str "request_response"
  | StreamChunk => str "stream_chunk"
  end.
Definition delivery_from_text (text : rstring) : result BusError DeliveryClass :=
  if decide (text = str "durable") then Ok Durable
  else if decide (text = str "ephemeral_latest") then Ok EphemeralLatest
  else if decide (text = str "ephemeral_window") then Ok EphemeralWindow
  else if decide (text = str "request_response") then Ok RequestResponse
  else if decide (text = str "stream_chunk") then Ok StreamChunk
  else Err (SinkError (str "unknown bus_events.delivery: " ++ text)).

(** [serde_json] at the target, an error being its text; and the texts of errors
    ([Display]). *)
Class BusCodec `{!JsonValue} := {
  target_to_json : Target → result rstring Json;
  target_from_json : Json → result rstring Target;
  db_error_text : DbErr → rstring;
  store_error_text : StoreError → rstring;
}.
Class BusCodecLaws `{!JsonValue, !BusCodec} := {
  law_target x j : target_to_json x = Ok j → target_from_json j = Ok x;
}.
(** [codec]. *)
Definition codec {A} (r : result rstring A) : result BusError A :=
  match r with Ok a => Ok a | Err e => Err (SinkError (str "envelope codec error: " ++ e)) end.

Section sink.
Context `{!JsonValue, !TextEnv, !HeadersJson, !BusCodec}.

(** ** Rows *)
Record BusRow := MkBusRow {
  br_event_id : N;
  br_room_id : N;
  br_epoch : Z;
  br_counter : Z;
  br_kind : rstring;
  br_delivery : rstring;
  br_target : Json;
  br_correlation_id : option N;
  br_coalesce_key : option rstring;
  br_headers : Json;
  br_payload : list N;
  br_peer_id : N;
  br_client_id : N;
  br_occurred_at_ms : Z;
  br_addressed_peer : option N;
  br_leading_mention : bool;
  br_derived_version : Z;
}.
Definition to_active_model (e : Envelope) : result BusError BusRow :=
  let ad := addressing e in
  ep ← u64_to_i64 (str "bus_events.epoch") (epoch (seq e));
  ct ← u64_to_i64 (str "bus_events.counter") (counter (seq e));
  tg ← codec (target_to_json (target e));
  hd ← codec (headers_to_json (headers e));
  oc ← u64_to_i64 (str "bus_events.occurred_at_ms") (occurred_at_ms e);
  Ok (MkBusRow (uuid (event_id e)) (uuid (channel e)) ep ct (kind_to_text (kind e))
        (delivery_to_text (delivery e)) tg (correlation_id e) (coalesce_key e) hd (payload e)
        (uuid (from e).1) (uuid (from e).2) oc (uuid <$> ad_peer ad) (leading_mention ad) DERIVED_VERSION).
Definition from_model (m : BusRow) : result BusError Envelope :=
  tg ← codec (target_from_json (br_target m));
  hd ← codec (headers_from_json (br_headers m));
  kd ← kind_from_text (br_kind m);
  dl ← delivery_from_text (br_delivery m);
  ep ← i64_to_u64 (str "bus_events.epoch") (br_epoch m);
  ct ← i64_to_u64 (str "bus_events.counter") (br_counter m);
  oc ← i64_to_u64 (str "bus_events.occurred_at_ms") (br_occurred_at_ms m);
  Ok (MkEnvelope (MkId (br_event_id m)) (MkId (br_room_id m)) (MkId (br_peer_id m), MkId (br_client_id m))
        tg kd dl (MkSeq ep ct) oc (br_correlation_id m) (br_coalesce_key m) hd (br_payload m)).

(** event_table.rs: [bus_event::Entity]. *)
#[export] Instance bus_events : EventTable BusRow := {|
  Content := list N;
  t_event_id := br_event_id;
  t_client_id := br_client_id;
  t_target := br_target;
  t_headers := br_headers;
  t_content := br_payload;
  t_addressed_peer := br_addressed_peer;
  t_leading_mention := br_leading_mention;
  t_derived_version := br_derived_version;
  set_derived peer leading version r :=
    MkBusRow (br_event_id r) (br_room_id r) (br_epoch r) (br_counter r) (br_kind r) (br_delivery r) (br_target r)
      (br_correlation_id r) (br_coalesce_key r) (br_headers r) (br_payload r) (br_peer_id r) (br_client_id r)
      (br_occurred_at_ms r) peer leading version;
  table_addressing target payload :=
    t ← decode (str "bus_events.target") (target_from_json target);
    Ok (addressing_of t payload);
  TableKey := Z * Z * N;
  t_key r := (br_epoch r, br_counter r, br_event_id r);
|}.

(** ** Queries *)
Definition room_is (c : RoomId) : Expr BusRow := λ r _, (br_room_id r =? uuid c)%N.
Definition strictly_after (c : Cursor) : Expr BusRow := λ r _,
  let ep := as_i64 (epoch (c_seq c)) in
  let ct := as_i64 (counter (c_seq c)) in
  (ep <? br_epoch r)%Z
  || (br_epoch r =? ep)%Z && (ct <? br_counter r)%Z
  || (br_epoch r =? ep)%Z && (br_counter r =? ct)%Z && (uuid (c_event_id c) <? br_event_id r)%N.
Definition strictly_before (c : Cursor) : Expr BusRow := λ r _,
  let ep := as_i64 (epoch (c_seq c)) in
  let ct := as_i64 (counter (c_seq c)) in
  (br_epoch r <? ep)%Z
  || (br_epoch r =? ep)%Z && (br_counter r <? ct)%Z
  || (br_epoch r =? ep)%Z && (br_counter r =? ct)%Z && (br_event_id r <? uuid (c_event_id c))%N.

Definition bounded_limit (limit : nat) : N := N.min (N.of_nat limit) (Z.to_N i64_max).
Definition matching_rows (c : RoomId) (after through : Cursor) (hs : HeaderFilter) : Select BusRow :=
  q_filter (λ r _, bool_decide (br_delivery r = str "durable"))
  (q_filter (predicate hs)
  (q_filter (expr_or (strictly_before through) (λ r _, (br_event_id r =? uuid (c_event_id through))%N))
  (q_filter (strictly_after after)
  (q_filter (room_is c) find)))).
Definition page_rows (c : RoomId) (after through : Cursor) (rule : HistoryMatch) (limit : N) (tail : bool)
    : list (Select BusRow) :=
  addressee_branches (q_limit limit (q_order tail (matching_rows c after through (hm_headers rule)))) (addressed_to rule).

Section ops.
Context {S : Type} `{!TableDb BusRow S}.
(** [BusError::sink_source], and the errors of admission. *)
Definition sink_fault (e : DbErr) : BusError := SinkSource (db_error_text e).
Definition sink_source {A} (m : ST S DbErr A) : ST S BusError A := map_db sink_fault m.
Definition admit_write : ST S BusError unit := λ s,
  match db_admit s with (Ok a, s) => (Ok a, s) | (Err e, s) => (Err (SinkSource (store_error_text e)), s) end.

Definition sq_append_batch (events : list Envelope) : ST S BusError unit :=
  match events with
  | [] => mret tt
  | _ =>
      _ ← admit_write;
      actives ← st_lift (collect to_active_model events);
      _ ← map_db (λ e, SinkError (db_error_text e)) (db_transaction
        (InsertRows actives :: write_header_rows ((λ e, (uuid (event_id e), headers e)) <$> events)));
      mret tt
  end.
Definition sq_page (c : RoomId) (from_cursor : option Cursor) (limit : nat) : ST S BusError (list Envelope) :=
  let query := q_filter (room_is c) find in
  let query := match from_cursor with Some g => q_filter (strictly_after g) query | None => query end in
  rows ← sink_source (db_all (q_limit (bounded_limit limit) (q_order false query)));
  st_lift (collect from_model rows).
Definition sq_page_tail (c : RoomId) (before : option Cursor) (limit : nat) : ST S BusError (list Envelope) :=
  let query := q_filter (room_is c) find in
  let query := match before with Some b => q_filter (strictly_before b) query | None => query end in
  rows ← sink_source (db_all (q_limit (bounded_limit limit) (q_order true query)));
  st_lift (collect from_model (reverse rows)).
Definition sq_page_tail_of_kinds (c : RoomId) (before : option Cursor) (kinds : list Kind) (limit : nat)
    : ST S BusError (list Envelope) :=
  let query := q_filter (λ r _, bool_decide (br_kind r ∈ kind_to_text <$> kinds)) (q_filter (room_is c) find) in
  let query := match before with Some b => q_filter (strictly_before b) query | None => query end in
  rows ← sink_source (db_all (q_limit (bounded_limit limit) (q_order true query)));
  st_lift (collect from_model (reverse rows)).
Definition sq_head_cursor (c : RoomId) : ST S BusError (option Cursor) :=
  row ← sink_source (db_one (q_order true (q_filter (room_is c) find)));
  mret ((λ r, MkCursor (MkSeq (as_u64 (br_epoch r)) (as_u64 (br_counter r))) (MkId (br_event_id r))) <$> row).
Definition sq_contains (id : EventId) : ST S BusError bool :=
  row ← sink_source (db_one (q_filter (λ r _, (br_event_id r =? uuid id)%N) find));
  mret (is_some row).

Definition sq_page_matching (r : Cursor * Cursor) (rule : HistoryMatch) (limit : nat) (tail : bool) (c : RoomId)
    : ST S BusError (list Envelope) :=
  branches ← all_queries sink_fault (page_rows c r.1 r.2 rule (bounded_limit limit) tail);
  st_lift (collect from_model (merge_branches branches limit tail)).
Definition sq_count_matching (r : Cursor * Cursor) (hs : HeaderFilter) (exclude : option RuntimeSelf) (c : RoomId)
    : ST S BusError HistoryCount :=
  let rows := matching_rows c r.1 r.2 hs in
  let rows := match exclude with Some rule => q_filter (not_runtime_self rule) rows | None => rows end in
  times ← sink_source (db_all (q_limit (HISTORY_COUNT_CAP + 1) (q_order true rows)));
  times ← st_lift (collect (λ m, i64_to_u64 (str "occurred_at_ms") (br_occurred_at_ms m)) times);
  mret (of_newest times).

Definition sqlite_sink : DurableSink S := {|
  append_batch := sq_append_batch;
  sink_page := sq_page;
  sink_head_cursor := sq_head_cursor;
  page_tail := sq_page_tail;
  page_tail_of_kinds := sq_page_tail_of_kinds;
  contains := sq_contains;
|}.
Definition sqlite_history : HistorySink S := {|
  page_matching := sq_page_matching;
  sink_count_matching := sq_count_matching;
|}.
End ops.

End sink.
