(* ===== verification/StoreTableThms.v ===== *)
(** The event tables: what a condition on rows says of the events they store, and
    what a page of a table holds.

    [RowModel] says how a table's rows stand for events; the rest is proved once,
    for any table with one. *)
From stdpp Require Import base gmap strings list sorting numbers.
From Stdlib Require Import Lia.
From S2P Require Import Prelude.
From S2P Require Import Sorted.
From S2P Require Import WorkModel.
From S2P Require Import CoreTranscript.
From S2P Require Import CoreTranscriptThms.
From S2P Require Import CoreHistory.
From S2P Require Import StoreBase.
From S2P Require Import StoreTable.

(** How rows stand for events: which rows this program writes, the event of one,
    and the columns a query reads. *)
Class RowModel (R E : Type) `{!JsonValue, !EventTable R} := {
  row_ok : R → Prop;
  event_of : R → E;
  ev_id : E → EventId;
  ev_client : E → ClientId;
  ev_headers : E → Headers;
  ev_addressing : E → Addressing;
  rm_id r : row_ok r → t_event_id r = uuid (ev_id (event_of r));
  rm_client r : row_ok r → t_client_id r = uuid (ev_client (event_of r));
  rm_peer r : row_ok r → t_addressed_peer r = uuid <$> ad_peer (ev_addressing (event_of r));
  rm_leading r : row_ok r → t_leading_mention r = leading_mention (ev_addressing (event_of r));
  rm_key a b : t_key a = t_key b → t_event_id a = t_event_id b;
}.

(** ** Inserting what is not there *)
Section inserts.
Context {K A : Type} `{Countable K}.
Implicit Types (m : gmap K A) (l : list (K * A)).
Lemma insert_new_lookup m k a j :
  insert_new m (k, a) !! j = match m !! j with Some x => Some x | None => if decide (k = j) then Some a else None end.
Proof.
  unfold insert_new. cbn. destruct (m !! k) as [x|] eqn:Hk.
  - destruct (m !! j) eqn:Hj; [done|]. rewrite decide_False; [done|congruence].
  - destruct (decide (k = j)) as [<-|Hne]; [by rewrite lookup_insert_eq, Hk|].
    rewrite lookup_insert_ne by done. by destruct (m !! j).
Qed.
Lemma inserts_lookup m l j x : NoDup l.*1 →
  foldl insert_new m l !! j = Some x ↔ m !! j = Some x ∨ m !! j = None ∧ (j, x) ∈ l.
Proof.
  revert m. induction l as [|[k a] l IH]; intros m Hn; cbn [foldl].
  { rewrite elem_of_nil. tauto. }
  rewrite fmap_cons in Hn. apply list.NoDup_cons in Hn as [Hk Hn]. cbn in Hk.
  rewrite IH, insert_new_lookup, elem_of_cons by done.
  destruct (m !! j) as [y|] eqn:Hj; [naive_solver|]. destruct (decide (k = j)) as [<-|Hne]; [|naive_solver].
  split; [intros [[= <-]|[? _]]; [by right; split; [|left]|done]|].
  intros [?|[_ [[= ->]|Hin]]]; [done|by left|]. destruct Hk. by apply (list_elem_of_fmap_2 fst) in Hin.
Qed.
Lemma inserts_present m l : (∀ k a, (k, a) ∈ l → is_Some (m !! k)) → foldl insert_new m l = m.
Proof.
  induction l as [|[k a] l IH]; intros Hl; [done|]. cbn [foldl].
  assert (insert_new m (k, a) = m) as ->.
  { unfold insert_new. cbn. by destruct (Hl k a ltac:(by left)) as [x ->]. }
  apply IH. intros. eapply Hl. by right.
Qed.
End inserts.

Lemma concat_chunks_fuel {A} n (l : list A) fuel : (0 < n)%nat → (length l ≤ fuel)%nat → concat (chunks_fuel fuel n l) = l.
Proof.
  intros Hn. revert l. induction fuel as [|fuel IH]; intros [|x l] Hl; cbn [length] in Hl; try done; [lia|].
  cbn [chunks_fuel concat]. rewrite IH; [apply take_drop|]. rewrite length_drop. cbn [length]. lia.
Qed.
Lemma concat_chunks {A} n (l : list A) : (0 < n)%nat → concat (chunks n l) = l.
Proof. intros. by apply concat_chunks_fuel. Qed.

Lemma filter_fmap_ext {A B} (f : A → B) (P : A → Prop) (Q : B → Prop)
    `{!∀ x, Decision (P x), !∀ x, Decision (Q x)} (l : list A) :
  (∀ x, x ∈ l → P x ↔ Q (f x)) → f <$> filter P l = filter Q (f <$> l).
Proof.
  induction l as [|x l IH]; intros Hpq; [done|]. rewrite fmap_cons, !filter_cons.
  assert (f <$> filter P l = filter Q (f <$> l)) as Hl by (apply IH; intros; apply Hpq; by right).
  pose proof (Hpq x ltac:(by left)) as Hx. destruct (decide (P x)), (decide (Q (f x))); try tauto; cbn; by rewrite Hl.
Qed.

(** ** Headers as rows *)
Lemma header_keys_NoDup (i : N) (hs : Headers) : NoDup (header_rows [(i, hs)]).*1.
Proof.
  unfold header_rows. cbn. rewrite app_nil_r, <- list_fmap_compose.
  assert (fst ∘ (λ kv : rstring * rstring, (i, kv.1, kv.2)) <$> bt_entries hs = pair i <$> bt_keys hs) as ->.
  { unfold bt_keys. by rewrite <- list_fmap_compose. }
  apply NoDup_fmap_2; [by intros ?? [=]|apply bt_keys_NoDup].
Qed.
Lemma elem_header_rows (i j : N) (hs : Headers) k v : ((i, k), v) ∈ header_rows [(j, hs)] ↔ i = j ∧ hs !! k = Some v.
Proof.
  unfold header_rows. cbn. rewrite app_nil_r, list_elem_of_fmap. split.
  - intros ([k' v'] & [= -> -> ->] & Hin%elem_of_bt_entries). done.
  - intros [-> Hv]. exists (k, v). by rewrite elem_of_bt_entries.
Qed.
Lemma header_rows_app a b : header_rows (a ++ b) = header_rows a ++ header_rows b.
Proof. unfold header_rows. apply bind_app. Qed.

Section table.
Context {R E : Type} `{!JsonValue} {ET : EventTable R} {RM : RowModel R E}.
Implicit Types (t : Tables R) (r : R).

(** The header rows of a batch, one statement after another. *)
Lemma run_headers t events :
  ∃ ns, run_stmts t (write_header_rows events) =
    Some (MkTables (tb_rows t) (foldl insert_new (tb_headers t) (header_rows events)), ns).
Proof.
  assert (header_rows events = concat (chunks HEADER_ROWS_PER_INSERT (header_rows events))) as Hc
    by (symmetry; apply concat_chunks; unfold HEADER_ROWS_PER_INSERT; lia).
  unfold write_header_rows.
  replace (foldl insert_new (tb_headers t) (header_rows events)) with
    (foldl insert_new (tb_headers t) (concat (chunks HEADER_ROWS_PER_INSERT (header_rows events)))) by (by rewrite <- Hc).
  clear Hc. generalize (chunks HEADER_ROWS_PER_INSERT (header_rows events)) as cs. intros cs. revert t.
  induction cs as [|rows cs IH]; intros t; [exists []; by destruct t|]. cbn [fmap list_fmap run_stmts run_stmt mbind option_bind].
  destruct (IH (MkTables (tb_rows t) (foldl insert_new (tb_headers t) ((λ x, (x.1, x.2)) <$> rows)))) as [ns ->].
  cbn. eexists. do 3 f_equal. rewrite foldl_app. do 3 f_equal. rewrite <- (list_fmap_id rows) at 2. apply list_fmap_ext. by intros i [].
Qed.

(** ** Well-formed tables *)
(** Every row is one this program writes, under its id; the header rows are the
    headers of the events; the values are strings. *)
Record tables_ok t : Prop := {
  t_rows_ok id r : tb_rows t !! id = Some r → row_ok r ∧ t_event_id r = id;
  t_headers_ok id k : tb_headers t !! (id, k) = tb_rows t !! id ≫= λ r, ev_headers (event_of r) !! k;
  t_str id r k v : tb_rows t !! id = Some r → ev_headers (event_of r) !! k = Some v → is_str v;
}.
Definition table_events t : list E := event_of <$> table_rows t.

Lemma elem_table_rows t r : r ∈ table_rows t ↔ ∃ id, tb_rows t !! id = Some r.
Proof.
  unfold table_rows. rewrite sort_by_perm, list_elem_of_fmap. split.
  - intros ([id r'] & -> & Hin%elem_of_map_to_list). eauto.
  - intros [id Hr]. exists (id, r). by rewrite elem_of_map_to_list.
Qed.
Lemma table_row_ok t r : tables_ok t → r ∈ table_rows t → row_ok r ∧ tb_rows t !! t_event_id r = Some r.
Proof. intros Hok [id Hr]%elem_table_rows. destruct (t_rows_ok _ Hok _ _ Hr) as [? <-]. done. Qed.
Lemma table_row_key t a b : tables_ok t → a ∈ table_rows t → b ∈ table_rows t → t_key a = t_key b → a = b.
Proof.
  intros Hok [_ Ha]%table_row_ok [_ Hb]%table_row_ok Hk%rm_key; [|done..]. rewrite Hk in Ha. congruence.
Qed.
Lemma table_rows_sorted t : tables_ok t → StronglySorted (row_lt t_key) (table_rows t).
Proof.
  intros Hok. apply strict_of_sorted; [apply sort_by_sorted; apply _|].
  assert (NoDup (t_event_id <$> table_rows t)) as Hn.
  { unfold table_rows. rewrite (sort_by_perm (row_le t_key)), <- list_fmap_compose.
    rewrite (list_fmap_ext _ fst); [apply NoDup_fst_map_to_list|]. intros i [id r] Hl%list_elem_of_lookup_2.
    apply elem_of_map_to_list in Hl. cbn. by apply (t_rows_ok _ Hok) in Hl as [_ ?]. }
  revert Hn. generalize (table_rows t) as rs. induction rs as [|r rs IH]; rewrite ?fmap_cons; [intros _; apply NoDup_nil_2|].
  rewrite !list.NoDup_cons. intros [Hni Hn]. split; [|by apply IH]. intros (x & Hk & Hx)%list_elem_of_fmap.
  apply Hni. apply list_elem_of_fmap. exists x. split; [by apply rm_key|done].
Qed.
Lemma table_size t : length (table_rows t) = size (tb_rows t).
Proof. unfold table_rows. rewrite (sort_by_perm (row_le t_key)), length_fmap. apply length_map_to_list. Qed.

(** ** Queries *)
Lemma limited_elem {A} n (l : list A) x : x ∈ limited n l → x ∈ l.
Proof. destruct n; [|done]. apply elem_of_take_in. Qed.
Lemma fmap_limited {A B} (f : A → B) n (l : list A) : f <$> limited n l = limited n (f <$> l).
Proof. destruct n; [|done]. apply list.fmap_take. Qed.
Lemma elem_selected t q r : r ∈ selected q t ↔ sel_where q r (tb_headers t) = true ∧ r ∈ table_rows t.
Proof. unfold selected. by rewrite list_elem_of_filter. Qed.

(** A condition on rows that is a condition on their events. *)
Definition means t (x : Expr R) (p : E → bool) : Prop :=
  ∀ r, tb_rows t !! t_event_id r = Some r → row_ok r → x r (tb_headers t) = p (event_of r).
Lemma selected_means t q p : tables_ok t → means t (sel_where q) p →
  event_of <$> selected q t = filter (λ e, p e = true) (table_events t).
Proof.
  intros Hok Hm. apply filter_fmap_ext. intros r [Hr Hl]%table_row_ok; [|done]. by rewrite (Hm r Hl Hr).
Qed.

Section means.
Variable t : Tables R.
#[local] Abbreviation means := (means t).

Lemma means_ext x p q : means x p → (∀ r, row_ok r → p (event_of r) = q (event_of r)) → means x q.
Proof. intros Hx Hpq r Hl Hr. by rewrite (Hx r Hl Hr), Hpq. Qed.
Lemma means_and x y p q : means x p → means y q → means (expr_and x y) (λ e, p e && q e).
Proof. intros Hx Hy r Hl Hr. unfold expr_and. by rewrite (Hx r Hl Hr), (Hy r Hl Hr). Qed.
Lemma means_or x y p q : means x p → means y q → means (expr_or x y) (λ e, p e || q e).
Proof. intros Hx Hy r Hl Hr. unfold expr_or. by rewrite (Hx r Hl Hr), (Hy r Hl Hr). Qed.
Lemma means_not x p : means x p → means (expr_not x) (λ e, negb (p e)).
Proof. intros Hx r Hl Hr. unfold expr_not. by rewrite (Hx r Hl Hr). Qed.
Lemma means_value b : means (expr_value b) (λ _, b). Proof. by intros r. Qed.
Lemma means_id i : means (λ r _, (t_event_id r =? uuid i)%N) (λ e, bool_decide (ev_id e = i)).
Proof.
  intros r _ Hr. rewrite (rm_id _ Hr). apply eq_true_iff_eq.
  rewrite N.eqb_eq, bool_decide_eq_true. split; [apply uuid_inj|congruence].
Qed.
Lemma means_peer p :
  means (λ r _, bool_decide (t_addressed_peer r = Some (uuid p))) (λ e, bool_decide (ad_peer (ev_addressing e) = Some p)).
Proof.
  intros r _ Hr. rewrite (rm_peer _ Hr). apply bool_decide_ext. destruct (ad_peer _) as [x|]; cbn; [|done].
  split; [|congruence]. intros [= Hx]. f_equal. by apply uuid_inj.
Qed.
Lemma means_leading : means (λ r _, t_leading_mention r) (λ e, leading_mention (ev_addressing e)).
Proof. intros r _ Hr. exact (rm_leading _ Hr). Qed.

(** The header subqueries. *)
Hypothesis Hok : tables_ok t.
Lemma means_holding key cond :
  means (holding (rows_with key cond)) (λ e, is_some_and (ev_headers e !! key) (λ v, is_none_or cond (λ p, p v))).
Proof.
  intros r Hl Hr. unfold holding, rows_with. apply eq_true_iff_eq.
  rewrite bool_decide_eq_true, list_elem_of_fmap, is_some_and_true. split.
  - intros ([[id k] v] & Hid & [[Hk Hv] Hin%elem_of_map_to_list]%list_elem_of_filter). cbn in *. subst.
    rewrite (t_headers_ok _ Hok), Hl in Hin. eauto.
  - intros (v & Hv & Hc). exists ((t_event_id r, key), v). split; [done|].
    apply list_elem_of_filter. split; [done|]. apply elem_of_map_to_list. by rewrite (t_headers_ok _ Hok), Hl.
Qed.

(** A filter over Rust strings. *)
Fixpoint str_filter (f : HeaderFilter) : Prop :=
  match f with
  | HfPrefix _ value_prefix => is_str value_prefix
  | HfNot inner => str_filter inner
  | HfAll items | HfAnyOf items => fold_right (λ f acc, str_filter f ∧ acc) True items
  | HfAny | HfExact _ _ | HfHas _ => True
  end.
Lemma str_filter_items items : fold_right (λ f acc, str_filter f ∧ acc) True items ↔ Forall str_filter items.
Proof. induction items as [|f items IH]; cbn; [by split|]. by rewrite list.Forall_cons, IH. Qed.

Lemma means_all items x p :
  Forall (λ f, means (predicate f) (λ e, filter_matches f (ev_headers e))) items → means x p →
  means (fold_left (λ acc f, expr_and acc (predicate f)) items x)
    (λ e, p e && forallb (λ f, filter_matches f (ev_headers e)) items).
Proof.
  intros Hi. revert x p. induction Hi as [|f items Hf _ IH]; intros x p Hx; cbn.
  - apply (means_ext _ _ _ Hx). intros. by rewrite andb_true_r.
  - eapply means_ext; [apply (IH _ _ (means_and _ _ _ _ Hx Hf))|]. intros. by rewrite andb_assoc.
Qed.
Lemma means_any items x p :
  Forall (λ f, means (predicate f) (λ e, filter_matches f (ev_headers e))) items → means x p →
  means (fold_left (λ acc f, expr_or acc (predicate f)) items x)
    (λ e, p e || existsb (λ f, filter_matches f (ev_headers e)) items).
Proof.
  intros Hi. revert x p. induction Hi as [|f items Hf _ IH]; intros x p Hx; cbn.
  - apply (means_ext _ _ _ Hx). intros. by rewrite orb_false_r.
  - eapply means_ext; [apply (IH _ _ (means_or _ _ _ _ Hx Hf))|]. intros. by rewrite orb_assoc.
Qed.
Lemma means_predicate f : str_filter f → means (predicate f) (λ e, filter_matches f (ev_headers e)).
Proof.
  induction f as [|key value|key value_prefix|items IH|items IH|key|f IH] using HeaderFilter_nested_ind;
    cbn [predicate filter_matches str_filter]; intros Hs.
  - apply means_value.
  - eapply means_ext; [apply means_holding|]. intros r _. cbn. destruct (ev_headers (event_of r) !! key) as [v|]; cbn.
    + apply bool_decide_ext. split; congruence.
    + symmetry. by apply bool_decide_eq_false_2.
  - intros r Hl Hr. rewrite (means_holding _ _ r Hl Hr). cbn.
    destruct (ev_headers (event_of r) !! key) as [v|] eqn:Hv; [|done]. cbn. apply prefix_range_exact; [done|].
    by eapply (t_str _ Hok).
  - eapply means_ext; [apply means_all; [|apply means_value]|done]. apply str_filter_items in Hs.
    rewrite list.Forall_forall in *. auto.
  - eapply means_ext; [apply means_any; [|apply means_value]|done]. apply str_filter_items in Hs.
    rewrite list.Forall_forall in *. auto.
  - eapply means_ext; [apply means_holding|]. intros r _. cbn. by destruct (ev_headers (event_of r) !! key).
  - by apply means_not, IH.
Qed.
Lemma means_not_self rule : means (not_runtime_self rule) (λ e, negb (is_self rule (ev_headers e) (ev_client e))).
Proof.
  unfold not_runtime_self. apply means_not.
  assert (means (expr_and (predicate (HfNot (HfHas HEADER_AIRC_CLIENT)))
      (λ r _, (t_client_id r =? uuid (rself_client_id rule))%N))
    (λ e, is_none (ev_headers e !! HEADER_AIRC_CLIENT) && bool_decide (ev_client e = rself_client_id rule))) as Hun.
  { apply means_and; [by apply (means_predicate (HfNot (HfHas HEADER_AIRC_CLIENT)))|].
    intros r _ Hr. rewrite (rm_client _ Hr). apply eq_true_iff_eq.
    rewrite N.eqb_eq, bool_decide_eq_true. split; [apply uuid_inj|congruence]. }
  destruct (rself_runtime_client rule) as [tag|] eqn:Ht.
  - eapply means_ext; [apply means_or; [by apply (means_predicate (HfExact HEADER_AIRC_CLIENT tag))|exact Hun]|].
    intros r _. unfold is_self. rewrite Ht. cbn. destruct (ev_headers (event_of r) !! _) as [v|]; cbn.
    + rewrite orb_false_r. apply bool_decide_ext. split; congruence.
    + by rewrite bool_decide_eq_false_2.
  - eapply means_ext; [exact Hun|]. intros r _. unfold is_self. rewrite Ht.
    destruct (ev_headers (event_of r) !! _); cbn; [|done]. by rewrite bool_decide_eq_false_2.
Qed.
End means.
End table.
