(* ===== verification/StoreTablePages.v ===== *)
(** The reads of an event table: a page in either direction, a page over several
    branches, one row; and its one write, an inserted row. *)
From stdpp Require Import base gmap strings list sorting numbers.
From Stdlib Require Import Lia.
From S2P Require Import Prelude.
From S2P Require Import Sorted.
From S2P Require Import WorkModel.
From S2P Require Import CoreTranscript.
From S2P Require Import CoreHistory.
From S2P Require Import StoreBase.
From S2P Require Import StoreTable.
From S2P Require Import StoreTableThms.

Section pages.
Context {R E : Type} `{!JsonValue} {ET : EventTable R} {RM : RowModel R E}.
Implicit Types (t : Tables R) (q : Select R) (r : R).

(** A limit that takes the first [n] of any rows of the table. *)
Definition limits t (lim : N) (n : nat) : Prop :=
  ∀ l : list R, (length l ≤ size (tb_rows t))%nat → take (N.to_nat lim) l = take n l.
Lemma limits_nat t n : limits t (N.of_nat n) n.
Proof. intros l _. by rewrite Nat2N.id. Qed.
Lemma selected_length t q : (length (selected q t) ≤ size (tb_rows t))%nat.
Proof. rewrite <- table_size. apply sublist_length, sublist_filter. Qed.

(** An ordered page, ascending. *)
Lemma answers_page t q lim n (desc : bool) l :
  limits t lim n → answers (q_limit lim (q_order desc q)) t l →
  (if desc then reverse l else l) = bounded desc n (selected q t).
Proof.
  intros Hlim Hl. pose proof (selected_length t q) as Hlen. unfold answers in Hl.
  cbn [sel_order sel_limit q_limit q_order limited] in Hl.
  change (selected (q_limit lim (q_order desc q)) t) with (selected q t) in Hl. subst l.
  destruct desc; cbn [id]; [|by apply Hlim]. rewrite Hlim by (by rewrite length_reverse). apply last_n_reverse.
Qed.
Lemma page_events t q p n (desc : bool) (l : list R) :
  tables_ok t → means t (sel_where q) p → l = bounded desc n (selected q t) →
  (∀ r, r ∈ l → row_ok r) ∧ event_of <$> l = bounded desc n (filter (λ e, p e = true) (table_events t)).
Proof.
  intros Hok Hm ->. split; [|by rewrite fmap_bounded, (selected_means t q p)].
  intros r [_ Hr]%bounded_elem%elem_selected. by apply (table_row_ok t r Hok).
Qed.

(** ** Branches *)
Lemma branches_elem t lim n (tail : bool) qs branches r :
  limits t lim n → Forall2 (λ q l, answers (q_limit lim (q_order tail q)) t l) qs branches →
  r ∈ concat branches ↔ ∃ q, q ∈ qs ∧ r ∈ bounded tail n (selected q t).
Proof.
  intros Hlim Hb. induction Hb as [|q l qs branches Hl _ IH].
  { cbn. split; [by intros ?%elem_of_nil|by intros (q & ?%elem_of_nil & _)]. }
  assert (r ∈ l ↔ r ∈ bounded tail n (selected q t)) as Hrl.
  { rewrite <- (answers_page t q lim n tail l Hlim Hl). destruct tail; [by rewrite elem_of_reverse|done]. }
  cbn [concat]. rewrite elem_of_app, IH, Hrl. set_solver.
Qed.
(** What the branches select, merged, is the bounded selection of their union. *)
Lemma merge_rows t lim n (tail : bool) qs branches :
  tables_ok t → limits t lim n →
  Forall2 (λ q l, answers (q_limit lim (q_order tail q)) t l) qs branches →
  merge_branches branches n tail =
    bounded tail n (filter (λ r, existsb (λ q, sel_where q r (tb_headers t)) qs = true) (table_rows t)).
Proof.
  intros Hok Hlim Hb. set (M := filter _ (table_rows t)).
  pose proof (λ r, branches_elem t lim n tail qs branches r Hlim Hb) as Hbr.
  pose proof (table_rows_sorted t Hok) as Hsorted.
  assert (∀ q r, q ∈ qs → r ∈ selected q t → r ∈ M) as HM.
  { intros q r Hq [Hw Hr]%elem_selected. apply list_elem_of_filter. split; [|done]. apply existsb_exists.
    exists q. by rewrite <- list_elem_of_In. }
  assert (∀ r, r ∈ concat branches → r ∈ M) as HbM.
  { intros r (q & Hq & Hr%bounded_elem)%Hbr. eauto. }
  destruct (dedup_key_sorted t_key (sort_by (row_le t_key) (concat branches))) as [HsX HX].
  { apply sort_by_sorted; apply _. }
  { intros x y. rewrite !sort_by_perm. intros [_ Hx]%HbM%list_elem_of_filter [_ Hy]%HbM%list_elem_of_filter.
    by apply (table_row_key t). }
  unfold merge_branches. set (X := dedup_key _ _) in *.
  assert (StronglySorted (row_lt t_key) M) as HsM by (by apply StronglySorted_filter).
  change (bounded tail n X = bounded tail n M). apply bounded_cover.
  - by apply (strict_NoDup (row_lt t_key)).
  - apply (strict_sublist (row_lt t_key)); [done..|]. intros r. rewrite HX, sort_by_perm. apply HbM.
  - intros r [(q & Hq%list_elem_of_In & Hw)%existsb_exists Hr]%list_elem_of_filter. exists (selected q t). split_and!.
    + apply (strict_sublist (row_lt t_key)); [by apply StronglySorted_filter|done|]. intros x. by apply HM.
    + by apply elem_selected.
    + intros b Hb'. apply HX. rewrite sort_by_perm. apply Hbr. eauto.
Qed.
Lemma merge_events t lim n (tail : bool) qs ps branches :
  tables_ok t → limits t lim n → Forall2 (λ q p, means t (sel_where q) p) qs ps →
  Forall2 (λ q l, answers (q_limit lim (q_order tail q)) t l) qs branches →
  (∀ r, r ∈ merge_branches branches n tail → row_ok r) ∧
  event_of <$> merge_branches branches n tail =
    bounded tail n (filter (λ e, existsb (λ p : E → bool, p e) ps = true) (table_events t)).
Proof.
  intros Hok Hlim Hqs Hb. rewrite (merge_rows t lim n tail qs branches Hok Hlim Hb). split.
  - intros r [_ Hr]%bounded_elem%list_elem_of_filter. by apply (table_row_ok t r Hok).
  - rewrite fmap_bounded. f_equal. apply filter_fmap_ext. intros r [Hr Hl]%table_row_ok; [|done].
    clear Hb. induction Hqs as [|q p qs ps Hm _ IH]; [done|]. cbn. by rewrite !orb_true_iff, IH, (Hm r Hl Hr).
Qed.

(** The two branches of an addressee scan, or the query itself. *)
Lemma addressee_means t q p ad :
  means t (sel_where q) p →
  ∃ ps, Forall2 (λ q p, means t (sel_where q) p) (addressee_branches q ad) ps ∧
    ∀ e, existsb (λ p : E → bool, p e) ps = p e && is_none_or ad (λ a, admitted_by (ev_addressing e) a).
Proof.
  intros Hm. destruct ad as [a|]; cbn [addressee_branches].
  - exists [λ e, p e && bool_decide (ad_peer (ev_addressing e) = Some (af_peer a)); λ e, p e && leading_mention (ev_addressing e)].
    split.
    + constructor; [|constructor; [|constructor]]; (apply means_and; [exact Hm|]); [apply means_peer|apply means_leading].
    + intros e. cbn [existsb is_none_or]. unfold admitted_by.
      by destruct (p e), (bool_decide _), (leading_mention _).
  - exists [p]. split; [by constructor|]. intros e. cbn. by destruct (p e).
Qed.

(** ** Calls that read *)
Context {S Error : Type} {DB : TableDb R S} {DL : TableDbLaws S}.
Implicit Types (s : S).

(** [m] only reads, what it answers is [x], and its errors are the database's. *)
Definition reads {A} (f : DbErr → Error) (m : ST S Error A) (s : S) (x : A) : Prop :=
  db_tables (m s).2 = db_tables s ∧
  match (m s).1 with Ok y => y = x | Err e => ∃ d, e = f d end.

Lemma all_spec {A} (f : DbErr → Error) q (k : list R → ST S Error A) x s :
  (∀ l s', answers q (db_tables s) l → k l s' = (Ok x, s')) →
  reads f (rows ← map_db f (db_all q); k rows) s x.
Proof.
  intros Hk. unfold reads, mbind, st_bind, map_db. pose proof (law_all s q) as Ht. pose proof (law_all_ok s q) as Hl.
  destruct (db_all q s) as [[l|e] s']; cbn [fst snd] in *; [|eauto]. by rewrite (Hk l s' (Hl l eq_refl)).
Qed.
Lemma one_spec {A} (f : DbErr → Error) q (k : option R → A) x s :
  (∀ l, answers q (db_tables s) l → k (list.head l) = x) →
  reads f (row ← map_db f (db_one q); mret (k row)) s x.
Proof.
  intros Hk. unfold reads, mbind, st_bind, map_db. pose proof (law_one s q) as Ht. pose proof (law_one_ok s q) as Hl.
  destruct (db_one q s) as [[o|e] s']; cbn [fst snd] in *; [|eauto]. split; [done|].
  destruct (Hl o eq_refl) as (l & Ha & ->). by apply Hk.
Qed.
Lemma all_queries_spec (f : DbErr → Error) qs s :
  db_tables (all_queries f qs s).2 = db_tables s ∧
  match (all_queries f qs s).1 with
  | Ok bs => Forall2 (λ q l, answers q (db_tables s) l) qs bs
  | Err e => ∃ d, e = f d
  end.
Proof.
  revert s. induction qs as [|q qs IH]; intros s; [split; [done|constructor]|].
  cbn [all_queries]. unfold mbind at 1 3, st_bind at 1 3, map_db.
  pose proof (law_all s q) as Ht. pose proof (law_all_ok s q) as Hl.
  destruct (db_all q s) as [[l|e] s']; cbn [fst snd] in Ht, Hl |- *; [|by split; [|eexists]].
  destruct (IH s') as [Ht' Hl']. unfold mbind, st_bind. rewrite Ht in *.
  destruct (all_queries f qs s') as [[b|e] s'']; cbn [fst snd mret st_ret] in *; (split; [done|]); [|done].
  constructor; [by apply Hl|done].
Qed.
(** A page of decoded rows, in either direction. *)
Lemma page_reads (f : DbErr → Error) (of_row : R → result Error E) q p lim n (desc : bool) s :
  tables_ok (db_tables s) → (∀ r, row_ok r → of_row r = Ok (event_of r)) → limits (db_tables s) lim n →
  means (db_tables s) (sel_where q) p →
  reads f (rows ← map_db f (db_all (q_limit lim (q_order desc q)));
         st_lift (collect of_row (if desc then reverse rows else rows))) s
    (bounded desc n (filter (λ e, p e = true) (table_events (db_tables s)))).
Proof.
  intros Hok Hof Hlim Hm. apply all_spec. intros l s' Hl%(answers_page _ q lim n desc l Hlim). unfold st_lift. f_equal.
  destruct (page_events _ q p n desc _ Hok Hm Hl) as [Hr <-]. apply collect_ok. auto.
Qed.
(** A page over the branches of an addressee scan. *)
Lemma merged_reads (f : DbErr → Error) (of_row : R → result Error E) q p ad lim n (tail : bool) s :
  tables_ok (db_tables s) → (∀ r, row_ok r → of_row r = Ok (event_of r)) → limits (db_tables s) lim n →
  means (db_tables s) (sel_where q) p →
  reads f (branches ← all_queries f ((λ q, q_limit lim (q_order tail q)) <$> addressee_branches q ad);
           st_lift (collect of_row (merge_branches branches n tail))) s
    (bounded tail n (filter (λ e, p e && is_none_or ad (λ a, admitted_by (ev_addressing e) a) = true)
      (table_events (db_tables s)))).
Proof.
  intros Hok Hof Hlim Hm. destruct (addressee_means _ q p ad Hm) as (ps & Hqs & Hps).
  set (qs := _ <$> _). destruct (all_queries_spec f qs s) as [Hst Hl].
  unfold reads, mbind, st_bind, st_lift. destruct (all_queries f qs s) as [[bs|e] s']; cbn [fst snd] in *; [|done].
  split; [done|]. unfold qs in Hl. rewrite Forall2_fmap_l in Hl.
  destruct (merge_events _ lim n tail _ ps bs Hok Hlim Hqs Hl) as [Hin Hmerge].
  rewrite (collect_ok _ event_of) by (intros b Hb; by apply Hof, Hin). rewrite Hmerge. f_equal.
  apply filter_ext_in. intros e _. by rewrite Hps.
Qed.
(** The newest row, in cursor order. *)
Lemma newest_reads {A} (f : DbErr → Error) q p (k : R → A) (g : E → A) s :
  tables_ok (db_tables s) → (sel_limit q = None ∨ sel_limit q = Some 1%N) →
  (∀ r, row_ok r → k r = g (event_of r)) → means (db_tables s) (sel_where q) p →
  reads f (row ← map_db f (db_one (q_order true q)); mret (k <$> row)) s
    (g <$> last (filter (λ e, p e = true) (table_events (db_tables s)))).
Proof.
  intros Hok Hlim Hk Hm. apply (one_spec f (q_order true q) (fmap k)). intros l Hl.
  assert (list.head l = last (selected q (db_tables s))) as ->.
  { unfold answers in Hl. cbn [sel_order sel_limit q_order] in Hl. subst l.
    change (selected (q_order true q) (db_tables s)) with (selected q (db_tables s)).
    rewrite <- head_reverse. destruct Hlim as [-> | ->]; [done|]. by destruct (reverse _). }
  rewrite <- (selected_means _ q p Hok Hm).
  assert (∀ r, r ∈ selected q (db_tables s) → k r = g (event_of r)) as Hsel.
  { intros r [_ Hr]%elem_selected. by apply Hk, (table_row_ok (db_tables s) r Hok). }
  rewrite list.fmap_last, <- option_fmap_compose. destruct (last _) as [r|] eqn:Hr; [|done]. cbn. f_equal.
  by apply Hsel, last_Some_elem_of.
Qed.
Lemma exists_reads (f : DbErr → Error) q p s :
  tables_ok (db_tables s) → sel_order q = None → sel_limit q = None → means (db_tables s) (sel_where q) p →
  reads f (row ← map_db f (db_one q); mret (is_some row)) s (existsb p (table_events (db_tables s))).
Proof.
  intros Hok Ho Hlim Hm. apply (one_spec f q is_some). intros l Hl. unfold answers in Hl. rewrite Ho in Hl.
  destruct Hl as (rows & Hp & ->). rewrite Hlim. cbn [limited].
  apply eq_true_iff_eq. rewrite existsb_exists.
  pose proof (selected_means _ q p Hok Hm) as Hsel. split.
  - destruct rows as [|r rows]; [done|]. intros _. exists (event_of r).
    assert (event_of r ∈ filter (λ e, p e = true) (table_events (db_tables s))) as Hin.
    { rewrite <- Hsel. apply list_elem_of_fmap_2. rewrite <- Hp. by left. }
    apply list_elem_of_filter in Hin as [Hpr Hin]. by rewrite <- list_elem_of_In.
  - intros (e & He%list_elem_of_In & Hpe).
    assert (e ∈ event_of <$> selected q (db_tables s)) as (r & _ & Hr)%list_elem_of_fmap
      by (rewrite Hsel; by apply list_elem_of_filter).
    rewrite <- Hp in Hr. destruct rows; [by apply elem_of_nil in Hr|done].
Qed.

(** A capped count of decoded times, newest first. *)
Lemma count_reads (f : DbErr → Error) (time_of : R → result Error N) (time : E → N) q p s :
  tables_ok (db_tables s) → (∀ r, row_ok r → time_of r = Ok (time (event_of r))) →
  means (db_tables s) (sel_where q) p →
  reads f (times ← map_db f (db_all (q_limit (HISTORY_COUNT_CAP + 1) (q_order true q)));
           times ← st_lift (collect time_of times);
           mret (of_newest times)) s
    (of_newest (time <$> reverse (filter (λ e, p e = true) (table_events (db_tables s))))).
Proof.
  intros Hok Ht Hm. set (lim := (HISTORY_COUNT_CAP + 1)%N).
  assert (limits (db_tables s) lim (N.to_nat lim)) as Hlim by (by intros l _).
  apply all_spec. intros rows s' Hl. apply (answers_page _ q lim (N.to_nat lim) true rows Hlim) in Hl.
  destruct (page_events _ q _ _ true _ Hok Hm Hl) as [Hrow Hev].
  unfold mbind, st_bind, st_lift. rewrite (collect_ok _ (time ∘ event_of)).
  - apply (f_equal reverse) in Hev.
    rewrite <- fmap_reverse, reverse_involutive, bounded_reverse, reverse_involutive in Hev.
    rewrite list_fmap_compose, Hev, list.fmap_take.
    replace (N.to_nat lim) with (N.to_nat HISTORY_COUNT_CAP + 1)%nat by (unfold lim; lia).
    unfold mret, st_ret. do 2 f_equal. apply of_newest_take.
  - intros b Hb. apply Ht, Hrow. by rewrite elem_of_reverse.
Qed.

(** A call that reads, against a specification that reads the same. *)
Lemma read_refines {Call Answer M A B} (run : Call → ST S Error Answer) (spec : Call → ST M Error Answer)
    (fault : Error → Prop) (agree : Answer → Answer → Prop) (Rel : S → M → Prop)
    (f : DbErr → Error) (g : A → Answer) (h : B → Answer) k (ms : ST S Error A) (mm : ST M Error B) s m x y :
  run k s = (a ← ms; mret (g a)) s → spec k m = (a ← mm; mret (h a)) m →
  reads f ms s x → (mm m).1 = Ok y → agree (g x) (h y) → (∀ d, fault (f d)) →
  (∀ s', db_tables s' = db_tables s → Rel s' m ∧ Rel s' (mm m).2) →
  call_refines run spec fault agree Rel k s m.
Proof.
  intros Hks Hkm [Hst Hx] Hy Hg Hf HR. unfold call_refines. rewrite Hks, Hkm. unfold mbind, st_bind.
  destruct (mm m) as [rm m']. cbn [fst snd] in Hy, HR. subst rm.
  destruct (ms s) as [[a|e] s']; cbn [fst snd] in *; destruct (HR s' Hst).
  - subst a. eexists. by split_and!.
  - destruct Hx as [d ->]. right. auto.
Qed.
End pages.

Section writes.
Context {R E : Type} `{!JsonValue} {ET : EventTable R} {RM : RowModel R E}.
Implicit Types (t : Tables R) (r : R).

(** A row and the id and headers its header rows are written from. *)
Definition row_headers r : N * Headers := (t_event_id r, ev_headers (event_of r)).
(** One row stored, unless its id is there. *)
Definition put t r : Tables R :=
  MkTables (insert_new (tb_rows t) (t_event_id r, r)) (foldl insert_new (tb_headers t) (header_rows [row_headers r])).

Lemma batch_puts t rs :
  ∃ ns, run_stmts t (InsertRows rs :: write_header_rows (row_headers <$> rs)) = Some (foldl put t rs, ns).
Proof.
  assert (∀ t, MkTables (foldl insert_new (tb_rows t) ((λ r, (t_event_id r, r)) <$> rs))
      (foldl insert_new (tb_headers t) (header_rows (row_headers <$> rs))) = foldl put t rs) as Hp.
  { clear t. induction rs as [|r rs IH]; intros t; [by destruct t|]. cbn [fmap list_fmap foldl]. rewrite <- IH.
    cbn [put tb_rows tb_headers].
    f_equal. change (header_rows (row_headers r :: (row_headers <$> rs))) with
      (header_rows ([row_headers r] ++ (row_headers <$> rs))).
    by rewrite header_rows_app, foldl_app. }
  rewrite <- Hp. cbn [run_stmts run_stmt mbind option_bind].
  destruct (run_headers (MkTables (foldl insert_new (tb_rows t) ((λ r, (t_event_id r, r)) <$> rs)) (tb_headers t))
    (row_headers <$> rs)) as [ns ->]. by eexists.
Qed.

(** One row inserted: it is stored when its id is new, and the transaction fails when
    it is not. *)
Lemma insert_put t r :
  tb_rows t !! t_event_id r = None →
  ∃ ns, run_stmts t (InsertRow r :: write_header_rows [row_headers r]) = Some (put t r, ns).
Proof.
  intros Hl. cbn [run_stmts run_stmt]. rewrite Hl. cbn [mbind option_bind].
  destruct (run_headers (MkTables (<[t_event_id r := r]> (tb_rows t)) (tb_headers t)) [row_headers r]) as [ns ->].
  cbn. eexists. do 3 f_equal. unfold put, insert_new. cbn. by rewrite Hl.
Qed.
Lemma insert_present t r l : is_Some (tb_rows t !! t_event_id r) → run_stmts t (InsertRow r :: l) = None.
Proof. intros [r' Hl]. cbn [run_stmts run_stmt]. by rewrite Hl. Qed.

(** The id is there, with the same headers: nothing changes. *)
Lemma put_present t r r' :
  tables_ok t → tb_rows t !! t_event_id r = Some r' → ev_headers (event_of r') = ev_headers (event_of r) → put t r = t.
Proof.
  intros Ht Hl Hhd. unfold put, row_headers. rewrite inserts_present.
  - assert (insert_new (tb_rows t) (t_event_id r, r) = tb_rows t) as ->; [|by destruct t].
    unfold insert_new. cbn. by rewrite Hl.
  - intros [i k] v [-> Hv]%elem_header_rows. rewrite (t_headers_ok _ Ht), Hl. cbn. rewrite Hhd. eauto.
Qed.

(** The id is new. *)
Section fresh.
Context (t : Tables R) (r : R) (Ht : tables_ok t) (Hr : row_ok r) (Hl : tb_rows t !! t_event_id r = None).
Hypothesis Hstr : ∀ k v, ev_headers (event_of r) !! k = Some v → is_str v.

Lemma put_fresh_rows i : tb_rows (put t r) !! i = if decide (i = t_event_id r) then Some r else tb_rows t !! i.
Proof using Hl.
  cbn. rewrite insert_new_lookup. destruct (decide (i = t_event_id r)) as [->|Hne]; [by rewrite Hl, decide_True|].
  rewrite (decide_False (P := t_event_id r = i)) by done. by destruct (tb_rows t !! i).
Qed.
Lemma put_fresh_ok : tables_ok (put t r).
Proof using Hl Hr Hstr Ht.
  split.
  - intros i x. rewrite put_fresh_rows. destruct (decide _) as [->|]; [|apply (t_rows_ok _ Ht)]. by intros [= <-].
  - intros i k. rewrite put_fresh_rows. cbn [put tb_headers]. apply option_eq. intros v. unfold row_headers.
    rewrite inserts_lookup, elem_header_rows by apply header_keys_NoDup. rewrite (t_headers_ok _ Ht).
    destruct (decide (i = t_event_id r)) as [->|Hne]; [|naive_solver]. rewrite Hl. cbn. naive_solver.
  - intros i x k v. rewrite put_fresh_rows. destruct (decide _) as [->|]; [|apply (t_str _ Ht)].
    intros [= <-]. apply Hstr.
Qed.
Lemma put_fresh_events x : x ∈ table_events (put t r) ↔ x = event_of r ∨ x ∈ table_events t.
Proof using Hl.
  unfold table_events. rewrite !list_elem_of_fmap. setoid_rewrite elem_table_rows. setoid_rewrite put_fresh_rows. split.
  - intros (y & -> & i & Hy). destruct (decide _) as [->|]; [left; congruence|right; eauto].
  - intros [->|(y & -> & i & Hy)].
    + exists r. split; [done|]. exists (t_event_id r). by rewrite decide_True.
    + exists y. split; [done|]. exists i. rewrite decide_False; [done|]. intros ->. congruence.
Qed.
End fresh.
End writes.
