(* ===== verification/StoreSinkRows.v ===== *)
(** The SQLite durable tier: the row of an envelope decodes to it, and what the
    conditions of the sink's queries say of envelopes; the sink's reads and its append. *)
From stdpp Require Import base gmap strings list sorting numbers.
From Stdlib Require Import Lia.
From S2P Require Import Prelude.
From S2P Require Import Sorted.
From S2P Require Import WorkModel.
From S2P Require Import CoreTranscript.
From S2P Require Import BusEnvelope.
From S2P Require Import CoreHistory.
From S2P Require Import BusSink.
From S2P Require Import BusSystem.
From S2P Require Import BusHistory.
From S2P Require Import BusMatch.
From S2P Require Import StoreBase.
From S2P Require Import StoreTable.
From S2P Require Import StoreSink.
From S2P Require Import StoreTableThms.
From S2P Require Import StoreTablePages.

Section sink.
Context {JV : JsonValue} {TE : TextEnv} {HJ : HeadersJson} {HL : HeadersJsonLaws} {BC : BusCodec} {BL : BusCodecLaws}.

(** ** Rows and envelopes *)
Lemma kind_round k : kind_from_text (kind_to_text k) = Ok k. Proof. by destruct k. Qed.
Lemma delivery_round d : delivery_from_text (delivery_to_text d) = Ok d. Proof. by destruct d. Qed.
Lemma kind_to_text_inj k k' : kind_to_text k = kind_to_text k' → k = k'.
Proof. intros H. pose proof (kind_round k) as H1. rewrite H, kind_round in H1. congruence. Qed.

Lemma u64_i64 f n z : u64_to_i64 f n = Ok z → z = Z.of_N n ∧ (z ≤ i64_max)%Z.
Proof. unfold u64_to_i64. destruct (Z.leb_spec (Z.of_N n) i64_max); [|done]. intros [= <-]. done. Qed.
Lemma i64_u64 f n : i64_to_u64 f (Z.of_N n) = Ok n.
Proof. unfold i64_to_u64. destruct (Z.leb_spec 0 (Z.of_N n)); [|lia]. by rewrite N2Z.id. Qed.

(** The fields of the row an envelope is stored as. *)
Record encodes (e : Envelope) (r : BusRow) : Prop := {
  en_id : br_event_id r = uuid (event_id e);
  en_room : br_room_id r = uuid (channel e);
  en_epoch : br_epoch r = Z.of_N (epoch (seq e)) ∧ (br_epoch r ≤ i64_max)%Z;
  en_counter : br_counter r = Z.of_N (counter (seq e)) ∧ (br_counter r ≤ i64_max)%Z;
  en_kind : br_kind r = kind_to_text (kind e);
  en_delivery : br_delivery r = delivery_to_text (delivery e);
  en_client : br_client_id r = uuid (from e).2;
  en_time : br_occurred_at_ms r = Z.of_N (occurred_at_ms e);
  en_peer : br_addressed_peer r = uuid <$> ad_peer (addressing e);
  en_leading : br_leading_mention r = leading_mention (addressing e);
  en_decodes : from_model r = Ok e;
}.
Lemma to_active_encodes e r : to_active_model e = Ok r → encodes e r.
Proof.
  unfold to_active_model. destruct (u64_to_i64 _ (epoch _)) as [ep|] eqn:He; [|done]. cbn.
  destruct (u64_to_i64 _ (counter _)) as [ct|] eqn:Hc; [|done]. cbn.
  destruct (target_to_json _) as [tg|] eqn:Ht; [|done]. cbn.
  destruct (headers_to_json _) as [hd|] eqn:Hh; [|done]. cbn.
  destruct (u64_to_i64 _ (occurred_at_ms _)) as [oc|] eqn:Ho; [|done]. cbn. intros [= <-].
  apply u64_i64 in He as [-> He], Hc as [-> Hc], Ho as [-> Ho]. split; cbn; try done.
  unfold from_model. cbn. rewrite (law_target _ _ Ht), (law_headers _ _ Hh). cbn.
  rewrite kind_round. cbn. rewrite delivery_round. cbn. rewrite !i64_u64. cbn.
  by destruct e as [[] [] [[] []] ? ? ? [] ? ? ? ? ?].
Qed.

(** The envelope a row stands for. *)
Definition blank : Envelope := Envelope_new (MkId 0) (MkId 0) (MkId 0, MkId 0) KMessage Durable [].
Definition env_of (r : BusRow) : Envelope := match from_model r with Ok e => e | Err _ => blank end.
Definition bus_row_ok (r : BusRow) : Prop := ∃ e, to_active_model e = Ok r.
Lemma row_encodes r : bus_row_ok r → encodes (env_of r) r.
Proof.
  intros [e He%to_active_encodes]. unfold env_of. by rewrite (en_decodes _ _ He).
Qed.
Lemma env_of_encoded e r : to_active_model e = Ok r → env_of r = e.
Proof. intros He%to_active_encodes. unfold env_of. by rewrite (en_decodes _ _ He). Qed.
Lemma row_stored r : bus_row_ok r → to_active_model (env_of r) = Ok r.
Proof. intros [e He]. by rewrite (env_of_encoded e r He). Qed.
#[export] Instance bus_model : RowModel BusRow Envelope.
Proof.
  refine {|
    row_ok := bus_row_ok;
    event_of := env_of;
    ev_id := event_id;
    ev_client e := (from e).2;
    ev_headers := headers;
    ev_addressing := addressing;
  |}.
  - intros r Hr. apply en_id, row_encodes, Hr.
  - intros r Hr. apply en_client, row_encodes, Hr.
  - intros r Hr. apply en_peer, row_encodes, Hr.
  - intros r Hr. apply en_leading, row_encodes, Hr.
  - by intros a b [= _ _ Hid].
Defined.

(** ** Order *)
Lemma row_lt_env (a b : BusRow) : row_ok a → row_ok b → row_lt t_key a b → env_lt (env_of a) (env_of b).
Proof.
  intros Ha%row_encodes Hb%row_encodes [Hle Hne]. unfold env_lt. rewrite is_before_spec.
  destruct (en_epoch _ _ Ha) as [He _], (en_epoch _ _ Hb) as [He' _], (en_counter _ _ Ha) as [Hc _],
    (en_counter _ _ Hb) as [Hc' _]. pose proof (en_id _ _ Ha) as Hi. pose proof (en_id _ _ Hb) as Hi'.
  unfold row_le in Hle. cbn in Hle, Hne. rewrite He, Hc, Hi, He', Hc', Hi' in Hle, Hne. cbn.
  assert (epoch (seq (env_of a)) = epoch (seq (env_of b)) → counter (seq (env_of a)) = counter (seq (env_of b)) →
    uuid (event_id (env_of a)) = uuid (event_id (env_of b)) → False) as Hne' by congruence.
  unfold pair_le in Hle. cbn in Hle. destruct Hle as [[Hpn Hp]|[[= Hep Hct] Hid]]; [|lia].
  unfold pair_le in Hp. cbn in Hp. destruct Hp as [[Hn Hp]|[Hep Hp]]; [lia|].
  assert (counter (seq (env_of a)) ≠ counter (seq (env_of b))) by (intros Hcc; apply Hpn; by rewrite Hep, Hcc). lia.
Qed.

(** ** The events of a channel *)
Implicit Types t : Tables BusRow.
Definition stored t (c : RoomId) : list Envelope := filter (λ e, channel e = c) (table_events t).
Lemma table_envs_sorted t : tables_ok t → StronglySorted env_lt (table_events t).
Proof.
  intros Hok. unfold table_events. pose proof (table_rows_sorted t Hok) as Hs.
  assert (∀ r, r ∈ table_rows t → row_ok r) as Hrow by (intros r Hr; by apply (table_row_ok t r)).
  induction Hs as [|r l Hs IH Hr]; [constructor|]. rewrite fmap_cons. constructor; [apply IH; intros; apply Hrow; by right|].
  rewrite list.Forall_forall. rewrite list.Forall_forall in Hr. intros e (x & -> & Hx)%list_elem_of_fmap.
  apply row_lt_env; [apply Hrow; by left|apply Hrow; by right|by apply Hr].
Qed.
Lemma stored_sorted t c : tables_ok t → StronglySorted env_lt (stored t c).
Proof. intros. by apply StronglySorted_filter, table_envs_sorted. Qed.
Lemma elem_stored t c e : e ∈ stored t c ↔ channel e = c ∧ e ∈ table_events t.
Proof. unfold stored. by rewrite list_elem_of_filter. Qed.
Lemma elem_table_envs t e : tables_ok t →
  e ∈ table_events t ↔ ∃ r, tb_rows t !! uuid (event_id e) = Some r ∧ to_active_model e = Ok r.
Proof.
  intros Hok. unfold table_events. rewrite list_elem_of_fmap. split.
  - intros (r & -> & [Hr Hl]%table_row_ok); [|done]. exists r. cbn. rewrite <- (en_id _ _ (row_encodes _ Hr)).
    by rewrite row_stored.
  - intros (r & Hl & He). exists r. cbn. rewrite (env_of_encoded e r He). split; [done|]. apply elem_table_rows. eauto.
Qed.

(** ** What the conditions of the sink mean *)
Section means.
Variable t : Tables BusRow.
#[local] Abbreviation means := (means t).

Lemma means_room c : means (room_is c) (λ e, bool_decide (channel e = c)).
Proof.
  intros r _ Hr%row_encodes. change (event_of r) with (env_of r). unfold room_is. rewrite (en_room _ _ Hr). apply eq_true_iff_eq.
  rewrite N.eqb_eq, bool_decide_eq_true. split; [apply uuid_inj|congruence].
Qed.
Lemma means_durable : means (λ r _, bool_decide (br_delivery r = str "durable")) (λ e, is_durable (delivery e)).
Proof. intros r _ Hr%row_encodes. change (event_of r) with (env_of r). rewrite (en_delivery _ _ Hr). by destruct (delivery (env_of r)). Qed.
Lemma means_kinds (ks : list Kind) :
  means (λ r _, bool_decide (br_kind r ∈ kind_to_text <$> ks)) (λ e, bool_decide (kind e ∈ ks)).
Proof.
  intros r _ Hr%row_encodes. change (event_of r) with (env_of r). rewrite (en_kind _ _ Hr). apply bool_decide_ext.
  rewrite list_elem_of_fmap. split; [intros (k & Hk%kind_to_text_inj & ?); congruence|eauto].
Qed.
(** A cursor that fits the columns. *)
Definition fits (c : Cursor) : Prop := (Z.of_N (epoch (c_seq c)) ≤ i64_max ∧ Z.of_N (counter (c_seq c)) ≤ i64_max)%Z.
Lemma means_after c : fits c → means (strictly_after c) (λ e, is_after (cursor e) c).
Proof.
  intros [He Hc] r _ Hr%row_encodes. change (event_of r) with (env_of r). unfold strictly_after. rewrite !as_i64_small by done. apply eq_true_iff_eq.
  change (is_after (cursor (env_of r)) c = true) with (cursor_lt c (cursor (env_of r))). rewrite is_before_spec.
  destruct (en_epoch _ _ Hr) as [-> _], (en_counter _ _ Hr) as [-> _]. rewrite (en_id _ _ Hr). rewrite !orb_true_iff, !andb_true_iff, !Z.ltb_lt, !Z.eqb_eq, !N.ltb_lt. cbn. lia.
Qed.
Lemma means_before c : fits c → means (strictly_before c) (λ e, is_before (cursor e) c).
Proof.
  intros [He Hc] r _ Hr%row_encodes. change (event_of r) with (env_of r). unfold strictly_before. rewrite !as_i64_small by done. apply eq_true_iff_eq.
  change (is_before (cursor (env_of r)) c = true) with (cursor_lt (cursor (env_of r)) c). rewrite is_before_spec.
  destruct (en_epoch _ _ Hr) as [-> _], (en_counter _ _ Hr) as [-> _]. rewrite (en_id _ _ Hr). rewrite !orb_true_iff, !andb_true_iff, !Z.ltb_lt, !Z.eqb_eq, !N.ltb_lt. cbn. lia.
Qed.
(** The shared range of [page_matching] and [count_matching]. *)
Definition bound_known (through : Cursor) : Prop :=
  ∀ e, e ∈ table_events t → event_id e = c_event_id through → is_after (cursor e) through = false.
Lemma means_matching c after through hs : tables_ok t → fits after → fits through → bound_known through → str_filter hs →
  means (sel_where (matching_rows c after through hs))
    (λ e, bool_decide (channel e = c) && (in_range after through e && filter_matches hs (headers e))).
Proof.
  intros Hok Ha Ht Hb Hs.
  intros r Hl Hr. transitivity ((λ e, true && bool_decide (channel e = c) && is_after (cursor e) after &&
    (is_before (cursor e) through || bool_decide (event_id e = c_event_id through)) && filter_matches hs (headers e) &&
    is_durable (delivery e)) (env_of r)).
  { revert Hr. revert Hl. revert r. change (means (sel_where (matching_rows c after through hs)) (λ e, true && bool_decide (channel e = c) && is_after (cursor e) after &&
    (is_before (cursor e) through || bool_decide (event_id e = c_event_id through)) && filter_matches hs (headers e) &&
    is_durable (delivery e))). apply means_and; [|apply means_durable]. apply means_and; [|exact (means_predicate t Hok hs Hs)].
    apply means_and; [|apply means_or; [by apply means_before|exact (means_id t (c_event_id through))]].
    apply means_and; [|by apply means_after]. apply means_and; [apply means_value|apply means_room]. }
  change (event_of r) with (env_of r). cbn. unfold in_range.
  assert (is_before (cursor (env_of r)) through || bool_decide (event_id (env_of r) = c_event_id through) =
          negb (is_after (cursor (env_of r)) through)) as ->.
  { apply eq_true_iff_eq. rewrite orb_true_iff, negb_true_iff, bool_decide_eq_true. split.
    - intros [Hlt|Hid].
      + apply is_before_false. by right.
      + apply Hb; [|done]. unfold table_events. apply list_elem_of_fmap. exists r. split; [done|]. apply elem_table_rows. eauto.
    - intros Hn. apply is_before_false in Hn as [->|?]; [by right|by left]. }
  destruct (bool_decide _), (is_after _ after), (is_after _ through), (is_durable _), (filter_matches _ _); done.
Qed.
End means.
End sink.

Section sink.
Context {JV : JsonValue} {TE : TextEnv} {HJ : HeadersJson} {HL : HeadersJsonLaws} {BC : BusCodec} {BL : BusCodecLaws}.
Context {S : Type} {DB : TableDb BusRow S} {DL : TableDbLaws S}.
Implicit Types (s : S) (c : RoomId) (e : Envelope) (t : Tables BusRow).

#[local] Abbreviation sink_reads := (reads sink_fault).
Lemma limits_bounded s n : limits (db_tables s) (bounded_limit n) n.
Proof.
  intros l Hl. pose proof (law_size s) as Hs. unfold bounded_limit.
  destruct (N.min_spec (N.of_nat n) (Z.to_N i64_max)) as [[? ->]|[? ->]]; [by rewrite Nat2N.id|].
  rewrite !take_ge by lia. done.
Qed.
Lemma row_decodes r : row_ok r → from_model r = Ok (event_of r).
Proof. intros Hr%row_encodes. apply (en_decodes _ _ Hr). Qed.
Lemma bus_page_reads q p n (desc : bool) s :
  tables_ok (db_tables s) → means (db_tables s) (sel_where q) p →
  sink_reads (rows ← sink_source (db_all (q_limit (bounded_limit n) (q_order desc q)));
         st_lift (collect from_model (if desc then reverse rows else rows))) s
    (bounded desc n (filter (λ e, p e = true) (table_events (db_tables s)))).
Proof. intros Hok Hm. apply page_reads; [done|apply row_decodes|apply limits_bounded|done]. Qed.
Lemma stored_filter t c (P : Envelope → bool) :
  filter (λ e, P e && bool_decide (channel e = c) = true) (table_events t) = filter (λ e, P e = true) (stored t c).
Proof.
  rewrite filter_and. f_equal. apply list_filter_iff. intros e. by rewrite bool_decide_eq_true.
Qed.
Definition gate_fits (gate : option Cursor) : Prop := ∀ g, gate = Some g → fits g.
Lemma means_channel t c :
  means t (sel_where (q_filter (room_is c) find)) (λ e, bool_decide (channel e = c)).
Proof.
  eapply means_ext; [apply means_and; [apply means_value|apply means_room]|done].
Qed.

Lemma sq_page_reads s c from n : tables_ok (db_tables s) → gate_fits from →
  sink_reads (sq_page c from n) s (take n (filter (λ e, after_gate from e = true) (stored (db_tables s) c))).
Proof.
  intros Hok Hf. rewrite <- stored_filter. apply (bus_page_reads _ _ n false s Hok).
  destruct from as [g|].
  - eapply means_ext; [apply means_and; [apply means_channel|by apply means_after, Hf]|].
    intros r _. cbn. apply andb_comm.
  - eapply means_ext; [apply means_channel|done].
Qed.
Lemma sq_page_tail_reads s c before n : tables_ok (db_tables s) → gate_fits before →
  sink_reads (sq_page_tail c before n) s (last_n n (filter (λ e, before_gate before e = true) (stored (db_tables s) c))).
Proof.
  intros Hok Hf. rewrite <- stored_filter. apply (bus_page_reads _ _ n true s Hok).
  destruct before as [g|].
  - eapply means_ext; [apply means_and; [apply means_channel|by apply means_before, Hf]|].
    intros r _. cbn. apply andb_comm.
  - eapply means_ext; [apply means_channel|done].
Qed.
Lemma sq_page_tail_of_kinds_reads s c before kinds n : tables_ok (db_tables s) → gate_fits before →
  sink_reads (sq_page_tail_of_kinds c before kinds n) s
    (last_n n (filter (λ e, kind e ∈ kinds) (filter (λ e, before_gate before e = true) (stored (db_tables s) c)))).
Proof.
  intros Hok Hf. rewrite <- (filter_ext_in (λ e, bool_decide (kind e ∈ kinds) = true) (λ e, kind e ∈ kinds))
    by (intros; apply bool_decide_eq_true).
  rewrite <- filter_and, <- stored_filter. apply (bus_page_reads _ _ n true s Hok).
  assert (means (db_tables s) (sel_where (q_filter (λ r _, bool_decide (br_kind r ∈ kind_to_text <$> kinds))
      (q_filter (room_is c) find))) (λ e, bool_decide (channel e = c) && bool_decide (kind e ∈ kinds))) as Hk.
  { apply means_and; [apply means_channel|apply means_kinds]. }
  destruct before as [g|].
  - eapply means_ext; [apply means_and; [exact Hk|by apply means_before, Hf]|].
    intros r _. cbn. destruct (is_before _ g), (bool_decide _), (bool_decide _); done.
  - eapply means_ext; [exact Hk|]. intros r _. cbn. by rewrite andb_true_r, andb_comm.
Qed.

(** ** One row *)
Lemma sq_head_reads s c : tables_ok (db_tables s) →
  sink_reads (sq_head_cursor c) s (cursor <$> last (stored (db_tables s) c)).
Proof.
  intros Hok. unfold stored.
  rewrite <- (filter_ext_in (λ e, bool_decide (channel e = c) = true) (λ e, channel e = c))
    by (intros; apply bool_decide_eq_true).
  apply (newest_reads _ (q_filter (room_is c) find)); [done|by left| |apply means_channel].
  intros r He%row_encodes. change (event_of r) with (env_of r). unfold cursor.
  destruct (en_epoch _ _ He) as [He1 He2], (en_counter _ _ He) as [Hc1 Hc2]. rewrite He1 in He2 |- *. rewrite Hc1 in Hc2 |- *.
  rewrite !as_u64_small, (en_id _ _ He) by done. by destruct (seq (env_of r)), (event_id (env_of r)).
Qed.
Lemma sq_contains_reads s i : tables_ok (db_tables s) →
  sink_reads (sq_contains i) s (existsb (λ e, bool_decide (event_id e = i)) (table_events (db_tables s))).
Proof.
  intros Hok. apply exists_reads; [done..|].
  eapply means_ext; [apply means_and; [apply means_value|exact (means_id (db_tables s) i)]|done].
Qed.

(** ** Filtered history *)
(** What a range and a filter must be for the conditions to be exact. *)
Record range_fits (t : Tables BusRow) (r : Cursor * Cursor) (hs : HeaderFilter) : Prop := {
  rf_after : fits r.1;
  rf_through : fits r.2;
  rf_known : bound_known t r.2;
  rf_str : str_filter hs;
}.
Lemma matching_means t c r hs : tables_ok t → range_fits t r hs →
  means t (sel_where (matching_rows c r.1 r.2 hs))
    (λ e, bool_decide (channel e = c) && (in_range r.1 r.2 e && filter_matches hs (headers e))).
Proof. intros Hok [Ha Ht Hk Hs]. by apply means_matching. Qed.
Lemma sq_page_matching_reads s c r rule n tail :
  tables_ok (db_tables s) → range_fits (db_tables s) r (hm_headers rule) →
  sink_reads (sq_page_matching r rule n tail c) s
    (bounded tail n (filter (λ e, page_rule r.1 r.2 rule e = true) (stored (db_tables s) c))).
Proof.
  intros Hok Hr. set (q0 := matching_rows c r.1 r.2 (hm_headers rule)).
  assert (page_rows c r.1 r.2 rule (bounded_limit n) tail =
    (λ q, q_limit (bounded_limit n) (q_order tail q)) <$> addressee_branches q0 (addressed_to rule)) as Hq.
  { unfold page_rows. by destruct (addressed_to rule). }
  unfold sq_page_matching. rewrite Hq, <- stored_filter.
  pose proof (merged_reads sink_fault from_model q0 _ (addressed_to rule) (bounded_limit n) n tail s Hok row_decodes
    (limits_bounded s n) (matching_means _ c r (hm_headers rule) Hok Hr)) as Hp.
  erewrite filter_ext_in; [exact Hp|]. intros e _. unfold page_rule, matches_history, matches_with.
  change (ev_addressing e) with (addressing e).
  by destruct (bool_decide _), (in_range _ _ _), (filter_matches _ _), (is_none_or _ _).
Qed.
Lemma means_counted t c r hs exclude : tables_ok t → range_fits t r hs →
  means t (sel_where (match exclude with
                      | Some rule => q_filter (not_runtime_self rule) (matching_rows c r.1 r.2 hs)
                      | None => matching_rows c r.1 r.2 hs
                      end))
    (λ e, count_rule r.1 r.2 hs exclude e && bool_decide (channel e = c)).
Proof.
  intros Hok Hr. pose proof (matching_means t c r hs Hok Hr) as Hm.
  destruct exclude as [rule|].
  - eapply means_ext; [apply means_and; [exact Hm|exact (means_not_self t Hok rule)]|]. intros b _. unfold count_rule.
    cbn [is_some_and]. destruct (bool_decide _), (in_range _ _ _), (filter_matches _ _), (negb _); done.
  - eapply means_ext; [exact Hm|]. intros b _. unfold count_rule. cbn [is_some_and negb].
    destruct (bool_decide _), (in_range _ _ _), (filter_matches _ _); done.
Qed.
Lemma sq_count_matching_reads s c r hs exclude :
  tables_ok (db_tables s) → range_fits (db_tables s) r hs →
  sink_reads (sq_count_matching r hs exclude c) s
    (of_newest (occurred_at_ms <$>
       reverse (filter (λ e, count_rule r.1 r.2 hs exclude e = true) (stored (db_tables s) c)))).
Proof.
  intros Hok Hr. pose proof (means_counted _ c r hs exclude Hok Hr) as Hm. unfold sq_count_matching.
  set (q := match exclude with Some _ => _ | None => _ end) in *. cbv zeta. rewrite <- stored_filter.
  apply count_reads; [done| |done]. intros b Hb%row_encodes. by rewrite (en_time _ _ Hb), i64_u64.
Qed.
End sink.
