(* ===== verification/StoreSinkRef.v ===== *)
(** The SQLite durable tier refines the in-memory sink: over any run of calls it
    answers what the in-memory sink answers. *)
From stdpp Require Import base gmap strings list sorting numbers.
From Stdlib Require Import Lia.
From S2P Require Import Prelude.
From S2P Require Import Sorted.
From S2P Require Import WorkModel.
From S2P Require Import CoreTranscript.
From S2P Require Import BusEnvelope.
From S2P Require Import BusSink.
From S2P Require Import BusSystem.
From S2P Require Import BusHistory.
From S2P Require Import CoreHistory.
From S2P Require Import BusMatch.
From S2P Require Import StoreBase.
From S2P Require Import StoreTable.
From S2P Require Import StoreTableThms.
From S2P Require Import StoreTablePages.
From S2P Require Import StoreSink.
From S2P Require Import StoreSinkRows.

(** ** The calls of a durable sink *)
Inductive Call :=
| AppendBatch (events : list Envelope)
| Page (c : RoomId) (from : option Cursor) (limit : nat)
| HeadCursor (c : RoomId)
| PageTail (c : RoomId) (before : option Cursor) (limit : nat)
| PageTailOfKinds (c : RoomId) (before : option Cursor) (kinds : list Kind) (limit : nat)
| Contains (id : EventId)
| PageMatching (c : RoomId) (range : Cursor * Cursor) (rule : HistoryMatch) (limit : nat) (tail : bool)
| CountMatching (c : RoomId) (range : Cursor * Cursor) (hs : HeaderFilter) (exclude : option RuntimeSelf).
Inductive Answer :=
| Appended
| Rows (rows : list Envelope)
| Head (cursor : option Cursor)
| Held (held : bool)
| Counted (count : HistoryCount).
Definition run_call `{!JsonValue, !TextEnv} {S} `{!DurableSink S, !HistorySink S} (k : Call) : ST S BusError Answer :=
  match k with
  | AppendBatch events => _ ← append_batch events; mret Appended
  | Page c from limit => l ← sink_page c from limit; mret (Rows l)
  | HeadCursor c => o ← sink_head_cursor c; mret (Head o)
  | PageTail c before limit => l ← page_tail c before limit; mret (Rows l)
  | PageTailOfKinds c before kinds limit => l ← page_tail_of_kinds c before kinds limit; mret (Rows l)
  | Contains id => b ← contains id; mret (Held b)
  | PageMatching c range rule limit tail => l ← page_matching range rule limit tail c; mret (Rows l)
  | CountMatching c range hs exclude => n ← sink_count_matching range hs exclude c; mret (Counted n)
  end.
Definition appended (ks : list Call) : list Envelope :=
  ks ≫= λ k, match k with AppendBatch events => events | _ => [] end.

Section sink.
Context {JV : JsonValue} {TE : TextEnv} {HJ : HeadersJson} {HL : HeadersJsonLaws} {BC : BusCodec} {BL : BusCodecLaws}.
Implicit Types (t : Tables BusRow) (m : SinkInner) (c : RoomId) (e : Envelope) (r : BusRow).

Lemma row_headers_encoded e r : to_active_model e = Ok r → row_headers r = (uuid (event_id e), headers e).
Proof.
  intros He. unfold row_headers. cbn. by rewrite (env_of_encoded e r He), (en_id _ _ (to_active_encodes e r He)).
Qed.
Lemma row_headers_batch es rs : collect to_active_model es = Ok rs →
  row_headers <$> rs = (λ e, (uuid (event_id e), headers e)) <$> es.
Proof.
  intros Hc%collect_Forall2. induction Hc as [|e r es rs He _ IH]; [done|].
  by rewrite !fmap_cons, IH, (row_headers_encoded e r He).
Qed.

(** ** The simulation *)
(** [U]: the events there are; an id names one of them. *)
Section run.
Variable U : Envelope → Prop.
Definition one_per_id : Prop :=
  ∀ e e', U e → U e' → event_id e = event_id e' → channel e = channel e' ∧ headers e = headers e'.
Definition text_headers : Prop := ∀ e k v, U e → headers e !! k = Some v → is_str v.
Hypothesis Hone : one_per_id.
Hypothesis Htext : text_headers.

Record sim t m : Prop := {
  sim_tables : tables_ok t;
  sim_mem : mem_ok m;
  sim_known e : e ∈ table_events t → U e;
  sim_rows c e : e ∈ stored t c ↔ e ∈ bucket_of m c;
}.
Lemma sim_stored t m c : sim t m → stored t c = bucket_of m c.
Proof.
  intros [Ht Hm _ Hr]. apply sorted_ext; [by apply stored_sorted|by eapply bucket_strict, bucket_of_ok|apply Hr].
Qed.
(** One event stored on both sides. *)
Lemma put_sim t m e r : sim t m → U e → to_active_model e = Ok r → sim (put t r) (mem_append e m).2.
Proof.
  intros [Ht Hm Hk Hr] Hu He. pose proof (to_active_encodes e r He) as Hen. pose proof (env_of_encoded e r He) as Hof.
  destruct (mem_append_spec m e Hm) as (_ & Hm' & Hb & _).
  destruct (tb_rows t !! t_event_id r) as [r'|] eqn:Hl.
  - destruct (t_rows_ok _ Ht _ _ Hl) as [Hro Hid]. cbn in Hid.
    rewrite (en_id _ _ (row_encodes _ Hro)), (en_id _ _ Hen) in Hid. apply uuid_inj in Hid.
    assert (env_of r' ∈ table_events t) as Hin.
    { apply list_elem_of_fmap. exists r'. split; [done|]. apply elem_table_rows. eauto. }
    destruct (Hone (env_of r') e (Hk _ Hin) Hu Hid) as [Hch Hhd].
    rewrite (put_present t r r' Ht Hl) by (cbn; by rewrite Hof). split; [done..|].
    intros c x. rewrite Hb, Hr. split; [by left|]. intros [?|(-> & _ & Hnin)]; [done|]. destruct Hnin.
    apply list_elem_of_fmap. exists (env_of r'). split; [done|]. apply Hr, elem_stored. done.
  - assert (row_ok r) as Hro by (by exists e).
    assert (∀ k v, ev_headers (event_of r) !! k = Some v → is_str v) as Hstr.
    { intros k v. cbn. rewrite Hof. by apply Htext. }
    pose proof (λ x, put_fresh_events t r Hl x) as Hev. cbn in Hev. rewrite Hof in Hev.
    split; [by apply put_fresh_ok|done| |].
    + intros x [->|?]%Hev; auto.
    + intros c x. rewrite Hb, elem_stored, Hev, <- Hr, elem_stored.
      assert (event_id e ∉ event_id <$> bucket_of m (channel e)) as Hnin.
      { intros (y & Hid & (_ & (ry & Hy & _)%elem_table_envs)%Hr%elem_stored)%list_elem_of_fmap; [|done].
        cbn in Hl. rewrite (en_id _ _ Hen) in Hl. congruence. }
      split.
      * intros [Hc [Hx|Hx]]; [right; by subst|by left].
      * intros [[Hc Hx]|(Hx & Hc%uuid_inj & _)]; [by split; [|right]|subst; by split; [|left]].
Qed.
Lemma puts_sim t m es rs :
  sim t m → (∀ e, e ∈ es → U e) → collect to_active_model es = Ok rs →
  sim (foldl put t rs) (mem_append_batch es m).2.
Proof.
  unfold mem_append_batch. revert t m rs. induction es as [|e es IH]; intros t m rs Hs Hu Hc; cbn in Hc.
  { by injection Hc as <-. }
  destruct (to_active_model e) as [r|] eqn:He; [|done]. cbn in Hc.
  destruct (collect to_active_model es) as [rs'|]; [|done]. cbn in Hc. injection Hc as <-.
  cbn [foldl st_iter]. unfold mbind, st_bind.
  destruct (mem_append_spec m e (sim_mem _ _ Hs)) as [Hok _].
  pose proof (put_sim t m e r Hs (Hu e ltac:(by left)) He) as Hp.
  destruct (mem_append e m) as [res m']. cbn in Hok, Hp. subst res.
  apply IH; [done| |done]. intros; apply Hu; by right.
Qed.

(** ** One call *)
Definition through_known (through : Cursor) : Prop :=
  ∀ e, U e → event_id e = c_event_id through → is_after (cursor e) through = false.
Definition call_fits (k : Call) : Prop :=
  match k with
  | AppendBatch events => ∀ e, e ∈ events → U e
  | Page _ gate _ | PageTail _ gate _ | PageTailOfKinds _ gate _ _ => gate_fits gate
  | HeadCursor _ | Contains _ => True
  | PageMatching _ range rule _ _ =>
      fits range.1 ∧ fits range.2 ∧ through_known range.2 ∧ str_filter (hm_headers rule)
  | CountMatching _ range hs _ => fits range.1 ∧ fits range.2 ∧ through_known range.2 ∧ str_filter hs
  end.

Context {S : Type} {DB : TableDb BusRow S} {DL : TableDbLaws S}.
Implicit Types (s : S).
#[local] Existing Instance sqlite_sink.
#[local] Existing Instance sqlite_history.

Lemma sim_events t m m' : events m' = events m → sim t m → sim t m'.
Proof.
  intros He [Ht Hm Hk Hr]. split; [done|unfold mem_ok; by rewrite He|done|].
  intros c e. rewrite Hr. unfold bucket_of. by rewrite He.
Qed.
Definition related s m : Prop := sim (db_tables s) m.
#[local] Abbreviation refines k s m :=
  (call_refines (run_call (S:=S)) (run_call (S:=SinkInner)) (λ _, True) eq related k s m).
Lemma read_agrees {A} (f : A → Answer) k (ms : ST S BusError A) (mm : ST SinkInner BusError A) s m x :
  run_call k s = (a ← ms; mret (f a)) s → run_call k m = (a ← mm; mret (f a)) m →
  related s m → reads sink_fault ms s x → (mm m).1 = Ok x → events (mm m).2 = events m → refines k s m.
Proof.
  intros Hks Hkm Hs Hr Hm He. eapply read_refines; [exact Hks|exact Hkm|exact Hr|exact Hm|done|done|].
  intros s' Hs'. unfold related. rewrite Hs'. split; [done|by eapply sim_events].
Qed.
Lemma append_agrees es s m :
  sim (db_tables s) m → (∀ e, e ∈ es → U e) → refines (AppendBatch es) s m.
Proof.
  intros Hs Hu. unfold call_refines, related, run_call, mbind, st_bind. cbn [append_batch sqlite_sink mem_sink].
  destruct (mem_append_batch_spec m es (sim_mem _ _ Hs)) as [Hok _].
  pose proof (puts_sim (db_tables s) m es) as Hputs.
  destruct (mem_append_batch es m) as [rm m'] eqn:Hmem. cbn in Hok, Hputs. subst rm.
  destruct es as [|e es]; [injection Hmem as <-; by eexists|].
  unfold sq_append_batch, admit_write, map_db, mbind, st_bind, st_lift.
  pose proof (law_admit s) as Hadm. destruct (db_admit s) as [[[]|err] s1]; cbn [fst snd] in *; [|cbn; rewrite Hadm; right; split; [done|by left]].
  destruct (collect to_active_model (e :: es)) as [rs|err] eqn:Hc; [|cbn; rewrite Hadm; right; split; [done|by left]].
  specialize (Hputs rs Hs Hu eq_refl). destruct (batch_puts (db_tables s) rs) as [ns Hb].
  rewrite (row_headers_batch _ _ Hc), <- Hadm in Hb. rewrite <- Hadm in Hputs.
  set (stmts := InsertRows rs :: _) in *. pose proof (law_transaction_ok s1 stmts) as Hto. pose proof (law_transaction_err s1 stmts) as Hte.
  destruct (db_transaction stmts s1) as [[ns'|err] s2]; cbn [fst snd] in *.
  - cbn. eexists. split_and!; [done..|]. specialize (Hto ns' eq_refl). rewrite Hto in Hb. by injection Hb as -> _.
  - cbn. right. split; [done|]. destruct (Hte err eq_refl) as [-> |[ns' Hrun]]; [left; by rewrite Hadm|right].
    rewrite Hrun in Hb. by injection Hb as -> _.
Qed.
Lemma call_agrees k s m : sim (db_tables s) m → call_fits k → refines k s m.
Proof.
  intros Hs Hk. pose proof (sim_mem _ _ Hs) as Hm.
  pose proof (sim_tables _ _ Hs) as Ht. pose proof (λ c, sim_stored _ _ c Hs) as Hrows.
  assert (∀ r : Cursor * Cursor, through_known r.2 → bound_known (db_tables s) r.2) as Hbk.
  { intros r Hr e He. apply Hr. by apply (sim_known _ _ Hs). }
  destruct k as [es|c from n|c|c before n|c before kinds n|i|c r rule n tail|c r hs exclude]; cbn in Hk.
  - by apply append_agrees.
  - eapply (read_agrees Rows); [reflexivity|reflexivity|exact Hs|exact (sq_page_reads s c from n Ht Hk)| |done]. by rewrite Hrows.
  - eapply (read_agrees Head); [reflexivity|reflexivity|exact Hs|exact (sq_head_reads s c Ht)| |done]. by rewrite Hrows.
  - eapply (read_agrees Rows); [reflexivity|reflexivity|exact Hs|exact (sq_page_tail_reads s c before n Ht Hk)| |done].
    rewrite Hrows. cbn. f_equal. exact (law_tail m c before n _ Hm eq_refl).
  - eapply (read_agrees Rows); [reflexivity|reflexivity|exact Hs|exact (sq_page_tail_of_kinds_reads s c before kinds n Ht Hk)| |done].
    rewrite Hrows. cbn. f_equal. exact (law_tail_kinds m c before kinds n _ Hm eq_refl).
  - eapply (read_agrees Held); [reflexivity|reflexivity|exact Hs|exact (sq_contains_reads s i Ht)| |done]. cbn. f_equal. apply eq_true_iff_eq.
    etrans; [exact (law_contains m i _ Hm eq_refl)|]. rewrite existsb_exists. cbn [rows mem_laws]. split.
    + intros (c & e & He & Hi). rewrite <- Hrows, elem_stored in He. exists e. rewrite <- list_elem_of_In.
      split; [tauto|by apply bool_decide_eq_true_2].
    + intros (e & He%list_elem_of_In & Hi%bool_decide_eq_true_1). exists (channel e), e.
      rewrite <- Hrows, elem_stored. done.
  - destruct Hk as (Ha & Hth & Hkn & Hf).
    eapply (read_agrees Rows); [reflexivity|reflexivity|exact Hs|exact (sq_page_matching_reads s c r rule n tail Ht (Build_range_fits _ _ _ Ha Hth (Hbk r Hkn) Hf))| |done].
    rewrite Hrows. cbn. f_equal. exact (law_page_matching m c r rule n tail _ Hm eq_refl).
  - destruct Hk as (Ha & Hth & Hkn & Hf).
    eapply (read_agrees Counted); [reflexivity|reflexivity|exact Hs|exact (sq_count_matching_reads s c r hs exclude Ht (Build_range_fits _ _ _ Ha Hth (Hbk r Hkn) Hf))| |done].
    rewrite Hrows. cbn. f_equal. exact (law_count_matching m c r hs exclude _ Hm eq_refl).
Qed.
End run.
End sink.
