(* ===== verification/StoreSinkThms.v ===== *)
(** The SQLite durable tier against the in-memory sink: the refinement theorem,
    and what happens outside its hypotheses. *)
From stdpp Require Import base gmap strings list sorting numbers.
From Stdlib Require Import Lia.
From S2P Require Import Prelude.
From S2P Require Import WorkModel.
From S2P Require Import CoreTranscript.
From S2P Require Import BusEnvelope.
From S2P Require Import BusSink.
From S2P Require Import CoreHistory.
From S2P Require Import BusMatch.
From S2P Require Import StoreBase.
From S2P Require Import StoreTable.
From S2P Require Import StoreTableThms.
From S2P Require Import StoreSink.
From S2P Require Import StoreSinkRows.
From S2P Require Import StoreSinkRef.

(** C11: The SQLite sink refines the in-memory sink.  Run any calls of the sink on
    SQLite, any of which the database may fail, from tables that hold what the
    in-memory sink holds.  Then the in-memory sink gives the same answers, a failed
    call having done nothing or all of its work, and the tables still hold what it
    holds.  The events have one channel and one set of headers per id; the cursors
    asked for fit the columns, and a page's upper bound is not below the event it
    names; header values and prefixes are Rust strings. *)
Theorem sqlite_refines_memory
    {JV : JsonValue} {TE : TextEnv} {HJ : HeadersJson} {HL : HeadersJsonLaws} {BC : BusCodec} {BL : BusCodecLaws}
    {S : Type} {DB : TableDb BusRow S} {DL : TableDbLaws S}
    (ks : list Call) (s : S) (m : SinkInner) :
  let U e := e ∈ table_events (db_tables s) ∨ e ∈ appended ks in
  tables_ok (db_tables s) → mem_ok m → (∀ c, stored (db_tables s) c = bucket_of m c) →
  one_per_id U → text_headers U → Forall (call_fits U) ks →
  let run := run_calls (@run_call _ _ S sqlite_sink sqlite_history) ks s in
  ∃ m', explains run_call (λ _, True) eq m run.1 m' ∧ tables_ok (db_tables run.2) ∧ ∀ c, stored (db_tables run.2) c = bucket_of m' c.
Proof.
  intros U Ht Hm Hrows Hone Htext Hk.
  assert (sim U (db_tables s) m) as Hs by (split; [done|done|by left|intros; by rewrite Hrows]).
  destruct (run_refines _ run_call (λ _, True) eq (related U) _ ks s m
    (λ k s m Hk Hs, call_agrees U Hone Htext k s m Hs Hk) Hs Hk) as (m' & Hans & Hs').
  exists m'. split; [done|]. split; [by apply sim_tables in Hs'|]. intros c. by eapply sim_stored.
Qed.

Module SinkScenario.
(** JSON that keeps the value; a database that fails what would overflow it. *)
#[export] Instance json : JsonValue := {| Json := Target + Headers; json_kind := λ _, None |}.
#[export] Instance text : TextEnv := {|
  is_alphanumeric := λ c, ((48 <=? c) && (c <=? 57) || (97 <=? c) && (c <=? 122))%N;
  json_text := λ _, None;
  body_from_payload := λ _, None;
|}.
Definition wrong : rstring := str "invalid type".
#[export] Instance headers_json : HeadersJson := {|
  headers_to_json x := Ok (inr x);
  headers_from_json j := match j with inr x => Ok x | inl _ => Err wrong end;
|}.
#[export] Instance headers_json_laws : HeadersJsonLaws.
Proof. split; by intros x j [= <-]. Qed.
#[export] Instance bus_codec : BusCodec := {|
  target_to_json x := Ok (inl x);
  target_from_json j := match j with inl x => Ok x | inr _ => Err wrong end;
  db_error_text _ := str "database error";
  store_error_text _ := str "store error";
|}.
#[export] Instance bus_codec_laws : BusCodecLaws.
Proof. split; by intros x j [= <-]. Qed.

#[local] Existing Instance table_db.
#[local] Existing Instance table_db_laws.
#[local] Abbreviation empty_db := (@empty_db BusRow).
#[local] Existing Instance sqlite_sink.
#[local] Existing Instance sqlite_history.

Definition room : RoomId := MkId 1.
Definition me : PeerId := MkId 7.
Definition said (i at_ : N) (to : Target) (hs : Headers) : Envelope :=
  MkEnvelope (MkId i) room (MkId 2, MkId 3) to KMessage Durable (MkSeq 1 at_) (10 * at_) None None hs [104%N].
Definition key : rstring := str "forge.kind".
Definition e1 : Envelope := said 11 1 TargetAll {[ key := str "ab" ]}.
Definition e2 : Envelope := said 12 2 (TargetPeer me) {[ key := str "ac" ]}.
Definition e3 : Envelope := said 13 3 (TargetPeer me) ∅.
Definition from0 : Cursor := MkCursor (MkSeq 0 0) (MkId 0).
Definition calls : list Call :=
  [AppendBatch [e2; e1]; AppendBatch [e1; e3];
   Page room (Some (cursor e1)) 10; HeadCursor room; PageTail room None 2; Contains (MkId 12);
   PageMatching room (from0, cursor e3) (MkHistoryMatch HfAny (Some (MkAddresseeFilter me))) 1 true;
   PageMatching room (from0, cursor e3) (MkHistoryMatch (HfPrefix key (str "a")) None) 9 false;
   CountMatching room (from0, cursor e3) (HfNot (HfHas key)) None].
Definition answers : list (result BusError Answer) :=
  [Ok Appended; Ok Appended; Ok (Rows [e2; e3]); Ok (Head (Some (cursor e3))); Ok (Rows [e2; e3]); Ok (Held true);
   Ok (Rows [e3]); Ok (Rows [e1; e2]); Ok (Counted (MkHistoryCount 1 (Some 30%N) (Some 30%N) false))].
Lemma answers_eq : (run_calls run_call calls empty_db).1.*2 = answers.
Proof. vm_compute. reflexivity. Qed.

Definition U (e : Envelope) : Prop := e ∈ table_events (db_tables empty_db) ∨ e ∈ appended calls.
Lemma U_elem e : U e → e = e1 ∨ e = e2 ∨ e = e3.
Proof.
  intros [Hin|Hin]; [by apply elem_of_nil in Hin|]. cbn in Hin. rewrite !elem_of_cons, elem_of_nil in Hin. tauto.
Qed.
Lemma U_text : text_headers U.
Proof.
  intros e k v He Hv. assert (v = str "ab" ∨ v = str "ac") as [-> | ->].
  { destruct (U_elem e He) as [-> |[-> | ->]]; cbn [headers e1 e2 e3 said] in Hv.
    - apply lookup_singleton_Some in Hv as [_ <-]. by left.
    - apply lookup_singleton_Some in Hv as [_ <-]. by right.
    - done. }
  all: unfold is_str, is_scalar, str; cbn; repeat constructor; lia.
Qed.
Lemma U_one : one_per_id U.
Proof. intros a b Ha%U_elem Hb%U_elem. destruct Ha as [-> |[-> | ->]], Hb as [-> |[-> | ->]]; done. Qed.
Lemma U_through : through_known U (cursor e3).
Proof. intros e He. destruct (U_elem e He) as [-> |[-> | ->]]; vm_compute; done. Qed.

Lemma sqlite_refines_memory_witness :
  (run_calls run_call calls empty_db).1.*2 = answers ∧
  ∃ m', explains run_call (λ _, True) eq InMemoryDurableSink_new (run_calls run_call calls empty_db).1 m' ∧
    tables_ok (db_tables (run_calls run_call calls empty_db).2) ∧
    ∀ c, stored (db_tables (run_calls run_call calls empty_db).2) c = bucket_of m' c.
Proof.
  split; [exact answers_eq|].
  apply (sqlite_refines_memory calls empty_db InMemoryDurableSink_new).
  - by split.
  - by intros k l.
  - done.
  - exact U_one.
  - exact U_text.
  - assert (∀ q : Cursor, (epoch (c_seq q) <? 99)%N && (counter (c_seq q) <? 99)%N = true → fits q) as Hf.
    { intros q [?%N.ltb_lt ?%N.ltb_lt]%andb_true_iff. unfold fits, i64_max. lia. }
    assert (fits (cursor e3)) by (by apply Hf). assert (fits from0) by (by apply Hf).
    assert (is_str (str "a")) by (unfold is_str, is_scalar, str; cbn; repeat constructor; lia).
    unfold calls. repeat (apply list.Forall_cons; split); [..|constructor]; cbn [call_fits fst snd hm_headers str_filter];
      try done.
    + intros e He. right. apply elem_of_app. by left.
    + intros e He. right. cbn in He |- *. set_solver.
    + intros g [= <-]. by apply Hf.
    + split_and!; [done..|exact U_through|done].
    + split_and!; [done..|exact U_through|done].
    + split_and!; [done..|exact U_through|done].
Defined.

(** ** Outside the hypotheses *)
(** A cursor past the columns is cast to a negative number: the page strictly
    after it holds what lies before it. *)
Definition far : Cursor := MkCursor (MkSeq 1 9223372036854775808) (MkId 0).
Example far_cursor_wraps :
  let s := (run_calls run_call [AppendBatch [e1]] empty_db).2 in
  is_after (cursor e1) far = false ∧ (sq_page room (Some far) 10 s).1 = Ok [e1].
Proof. split; vm_compute; reflexivity. Qed.

(** A second envelope under a stored id is skipped, its header rows are not: the
    stored event then matches a header it does not have. *)
Definition e1' : Envelope := said 11 9 TargetAll {[ str "other" := str "x" ]}.
Example headers_of_a_skipped_event :
  let s := (run_calls run_call [AppendBatch [e1]; AppendBatch [e1']] empty_db).2 in
  filter_matches (HfHas (str "other")) (headers e1) = false ∧
  (run_call (PageMatching room (from0, cursor e3) (MkHistoryMatch (HfHas (str "other")) None) 9 false) s).1 = Ok (Rows [e1]).
Proof. split; vm_compute; reflexivity. Qed.

(** An id stored on one channel is taken on every channel: the append answers
    [Ok], the event is not on its channel; the in-memory sink stores it. *)
Definition elsewhere : Envelope := e1 <| channel := MkId 2 |>.
Example id_taken_on_every_channel :
  let ks := [AppendBatch [e1]; AppendBatch [elsewhere]; Page (MkId 2) None 9] in
  (run_calls run_call ks empty_db).1.*2 = [Ok Appended; Ok Appended; Ok (Rows [])] ∧
  (run_calls run_call ks InMemoryDurableSink_new).1.*2 = [Ok Appended; Ok Appended; Ok (Rows [elsewhere])].
Proof. split; vm_compute; reflexivity. Qed.
End SinkScenario.
