(* ===== verification/StoreEvents.v ===== *)
(** The transcript store: the [events] half of [airc-store/src/sqlite.rs],
    [sqlite/event_store.rs], [event_query.rs] and [history_count.rs] over the table
    [events], and of [airc-store/src/memory.rs].  JSON encodings are [EventCodec].
    The lamport and the time are cast to [i64] columns with the wrap-around of [as]. *)
From stdpp Require Import base gmap strings list sorting numbers.
From S2P Require Import Prelude.
From S2P Require Import Sorted.
From S2P Require Import WorkModel.
From S2P Require Import CoreTranscript.
From S2P Require Import CoreHistory.
From S2P Require Import StoreBase.
From S2P Require Import StoreTable.

(** [serde_json] at the types the columns hold, an error being its text. *)
Class EventCodec `{!JsonValue} := {
  mention_to_json : MentionTarget → result rstring Json;
  mention_from_json : Json → result rstring MentionTarget;
  body_to_json : Body → result rstring Json;
  body_from_json : Json → result rstring Body;
  attachment_to_json : AttachmentManifest → result rstring Json;
  attachment_from_json : Json → result rstring AttachmentManifest;
  receipt_to_json : Receipt → result rstring Json;
  receipt_from_json : Json → result rstring Receipt;
}.
Class EventCodecLaws `{!JsonValue, !EventCodec} := {
  law_mention x j : mention_to_json x = Ok j → mention_from_json j = Ok x;
  law_body x j : body_to_json x = Ok j → body_from_json j = Ok x;
  law_attachment x j : attachment_to_json x = Ok j → attachment_from_json j = Ok x;
  law_receipt x j : receipt_to_json x = Ok j → receipt_from_json j = Ok x;
}.
(** [?] on a [serde_json::Error]. *)
Definition json {A} (r : result rstring A) : result StoreError A :=
  match r with Ok a => Ok a | Err e => Err (Codec e) end.

Section events.
Context `{!JsonValue, !TextEnv, !HeadersJson, !EventCodec}.

(** ** Rows *)
Record EventRow := MkEventRow {
  er_event_id : N;
  er_room_id : N;
  er_peer_id : N;
  er_client_id : N;
  er_kind : rstring;
  er_occurred_at_ms : Z;
  er_lamport : Z;
  er_target : Json;
  er_headers : Json;
  er_body : option Json;
  er_attachment : option Json;
  er_receipt : option Json;
  er_metadata : Json;
  er_addressed_peer : option N;
  er_leading_mention : bool;
  er_derived_version : Z;
}.
Definition event_to_active_model (ev : TranscriptEvent) : result StoreError EventRow :=
  let ad := of_event ev in
  target ← json (mention_to_json (te_target ev));
  headers ← json (headers_to_json (te_headers ev));
  body ← optional (json ∘ body_to_json) (te_body ev);
  attachment ← optional (json ∘ attachment_to_json) (te_attachment ev);
  receipt ← optional (json ∘ receipt_to_json) (te_receipt ev);
  Ok (MkEventRow (uuid (te_event_id ev)) (uuid (te_room_id ev)) (uuid (te_peer_id ev)) (uuid (te_client_id ev))
        (as_wire_str (te_kind ev)) (as_i64 (te_occurred_at_ms ev)) (as_i64 (te_lamport ev)) target headers body
        attachment receipt (te_metadata ev) (uuid <$> ad_peer ad) (leading_mention ad) DERIVED_VERSION).
Definition event_from_model (m : EventRow) : result StoreError TranscriptEvent :=
  kind ← match from_wire_str (er_kind m) with Some k => Ok k | None => Err (UnknownTranscriptKind (er_kind m)) end;
  target ← json (mention_from_json (er_target m));
  headers ← json (headers_from_json (er_headers m));
  body ← optional (json ∘ body_from_json) (er_body m);
  attachment ← optional (json ∘ attachment_from_json) (er_attachment m);
  receipt ← optional (json ∘ receipt_from_json) (er_receipt m);
  Ok (MkTranscriptEvent (MkId (er_event_id m)) (MkId (er_room_id m)) (MkId (er_peer_id m)) (MkId (er_client_id m)) kind
        (as_u64 (er_occurred_at_ms m)) (as_u64 (er_lamport m)) target headers body attachment receipt (er_metadata m)).

(** event_table.rs: [event::Entity]. *)
#[export] Instance events : EventTable EventRow := {|
  Content := option Json;
  t_event_id := er_event_id;
  t_client_id := er_client_id;
  t_target := er_target;
  t_headers := er_headers;
  t_content := er_body;
  t_addressed_peer := er_addressed_peer;
  t_leading_mention := er_leading_mention;
  t_derived_version := er_derived_version;
  set_derived peer leading version r :=
    MkEventRow (er_event_id r) (er_room_id r) (er_peer_id r) (er_client_id r) (er_kind r) (er_occurred_at_ms r)
      (er_lamport r) (er_target r) (er_headers r) (er_body r) (er_attachment r) (er_receipt r) (er_metadata r)
      peer leading version;
  table_addressing target body :=
    target ← decode (str "events.target") (mention_from_json target);
    body ← optional (decode (str "events.body") ∘ body_from_json) body;
    Ok (of_target target body);
  TableKey := Z * N;
  t_key r := (er_lamport r, er_event_id r);
|}.

(** ** Queries *)
Definition in_room (room : RoomId) : Expr EventRow := λ r _, (er_room_id r =? uuid room)%N.
Definition in_channels (channels : list RoomId) : Expr EventRow :=
  λ r _, bool_decide (er_room_id r ∈ uuid <$> channels).
Definition after_position (c : TranscriptCursor) : Expr EventRow := λ r _,
  let lamport := as_i64 (cur_lamport c) in
  (lamport <? er_lamport r)%Z || (er_lamport r =? lamport)%Z && (uuid (cur_event_id c) <? er_event_id r)%N.
Definition through_position (c : TranscriptCursor) : Expr EventRow := λ r _,
  let lamport := as_i64 (cur_lamport c) in
  (er_lamport r <? lamport)%Z || (er_lamport r =? lamport)%Z && (er_event_id r <=? uuid (cur_event_id c))%N.
Definition transcript_range (after through : TranscriptCursor) : Expr EventRow :=
  expr_and (after_position after) (through_position through).

(** event_query.rs. *)
Definition matching (cursor through : TranscriptCursor) (channels : list RoomId) (rule : HistoryMatch)
    (limit : nat) (tail : bool) : list (Select EventRow) :=
  let query :=
    q_filter (through_position through)
    (q_filter (predicate (hm_headers rule))
    (q_filter (in_channels channels)
    (q_limit (N.of_nat limit)
    (q_order tail
    (q_filter (after_position cursor) find))))) in
  addressee_branches query (addressed_to rule).

Section ops.
Context {S : Type} `{!TableDb EventRow S}.
(** The [?] on a database error, and the one the append tells apart. *)
Definition append_error (id : N) (e : DbErr) : StoreError :=
  match e with RecordNotInserted => DuplicateEventId id | e => Database e end.

Definition sql_append (ev : TranscriptEvent) : ST S StoreError unit :=
  _ ← db_admit;
  active ← st_lift (event_to_active_model ev);
  _ ← map_db (append_error (uuid (te_event_id ev))) (db_transaction
    (InsertRow active :: write_header_rows [(uuid (te_event_id ev), te_headers ev)]));
  mret tt.
Definition in_channel (channel : option RoomId) (query : Select EventRow) : Select EventRow :=
  match channel with Some room => q_filter (in_room room) query | None => query end.
Definition sql_page_recent (channel : option RoomId) (limit : nat) : ST S StoreError (list TranscriptEvent) :=
  rows ← map_db Database (db_all (in_channel channel (q_limit (N.of_nat limit) (q_order true find))));
  st_lift (collect event_from_model (reverse rows)).
Definition sql_matching_history (cursor through : TranscriptCursor) (channels : list RoomId) (rule : HistoryMatch)
    (limit : nat) (tail : bool) : ST S StoreError (list TranscriptEvent) :=
  branches ← all_queries Database (matching cursor through channels rule limit tail);
  st_lift (collect event_from_model (merge_branches branches limit tail)).
Definition sql_resume_from (cursor : TranscriptCursor) (channel : option RoomId) (limit : nat)
    : ST S StoreError (list TranscriptEvent) :=
  rows ← map_db Database (db_all
    (in_channel channel (q_limit (N.of_nat limit) (q_order false (q_filter (after_position cursor) find)))));
  st_lift (collect event_from_model rows).
Definition sql_latest_cursor (channel : option RoomId) : ST S StoreError (option TranscriptCursor) :=
  row ← map_db Database (db_one (in_channel channel (q_limit 1 (q_order true find))));
  mret ((λ m, MkTranscriptCursor (as_u64 (er_lamport m)) (MkId (er_event_id m))) <$> row).
Definition sql_count_history (after through : TranscriptCursor) (channels : list RoomId) (hs : HeaderFilter)
    (exclude : option RuntimeSelf) : ST S StoreError HistoryCount :=
  let query :=
    q_filter (predicate hs)
    (q_filter (transcript_range after through)
    (q_filter (in_channels channels) find)) in
  let query := match exclude with Some rule => q_filter (not_runtime_self rule) query | None => query end in
  times ← map_db Database (db_all (q_limit (HISTORY_COUNT_CAP + 1) (q_order true query)));
  times ← st_lift (collect (λ m, i64_to_u64 (str "occurred_at_ms") (er_occurred_at_ms m)) times);
  mret (of_newest times).
End ops.

(** ** memory.rs

    The events, in the order they were appended. *)
Definition MemEvents : Type := list TranscriptEvent.
Definition strictly_after_cursor (e : TranscriptEvent) (c : TranscriptCursor) : bool :=
  if (cur_lamport c <? te_lamport e)%N then true
  else if (te_lamport e =? cur_lamport c)%N then (uuid (cur_event_id c) <? uuid (te_event_id e))%N
  else false.
Definition on_channel (channel : option RoomId) (e : TranscriptEvent) : bool :=
  is_none_or channel (λ room, bool_decide (te_room_id e = room)).
Definition mem_append_event (ev : TranscriptEvent) : ST MemEvents StoreError unit := λ m,
  if existsb (λ e, bool_decide (te_event_id e = te_event_id ev)) m
  then (Err (DuplicateEventId (uuid (te_event_id ev))), m)
  else (Ok tt, m ++ [ev]).
Definition mem_page_recent (channel : option RoomId) (limit : nat) (m : MemEvents) : list TranscriptEvent :=
  let filtered := sort_by event_order (filter (λ e, on_channel channel e = true) m) in
  if (limit <? length filtered)%nat then drop (length filtered - limit) filtered else filtered.
Definition mem_matching_history (after through : TranscriptCursor) (channels : list RoomId) (rule : HistoryMatch)
    (limit : nat) (tail : bool) (m : MemEvents) : list TranscriptEvent :=
  select (λ e, cursor_key (te_cursor e))
    (filter (λ e, bool_decide (te_room_id e ∈ channels) && strictly_after_cursor e after
                  && negb (strictly_after_cursor e through) && matches_event rule e = true) m) limit tail.
Definition mem_resume_from (cursor : TranscriptCursor) (channel : option RoomId) (limit : nat) (m : MemEvents)
    : list TranscriptEvent :=
  take limit (sort_by event_order
    (filter (λ e, strictly_after_cursor e cursor = true) (filter (λ e, on_channel channel e = true) m))).
(** [max_by]: of equal elements, the last. *)
Definition max_event (l : list TranscriptEvent) : option TranscriptEvent :=
  foldl (λ best e, match best with
                   | Some b => if decide (event_order b e) then Some e else Some b
                   | None => Some e
                   end) None l.
Definition mem_latest_cursor (channel : option RoomId) (m : MemEvents) : option TranscriptCursor :=
  te_cursor <$> max_event (filter (λ e, on_channel channel e = true) m).
Definition mem_count_history (after through : TranscriptCursor) (channels : list RoomId) (hs : HeaderFilter)
    (exclude : option RuntimeSelf) (m : MemEvents) : HistoryCount :=
  foldl (λ count e, with_event count (te_occurred_at_ms e)) HistoryCount_default
    (filter (λ e, bool_decide (te_room_id e ∈ channels) && strictly_after_cursor e after
                  && negb (strictly_after_cursor e through) && filter_matches hs (te_headers e)
                  && negb (is_some_and exclude (λ rule, is_self_event rule e)) = true) m).
End events.
