(* ===== verification/StoreEventRows.v ===== *)
(** The transcript store: the row of an event decodes to it, what the conditions of
    the queries say of events, and what each read answers; and the
    simulation of the in-memory store, call by call. *)
From stdpp Require Import base gmap strings list sorting numbers.
From Stdlib Require Import Lia.
From S2P Require Import Prelude.
From S2P Require Import Sorted.
From S2P Require Import WorkModel.
From S2P Require Import CoreTranscript.
From S2P Require Import CoreTranscriptThms.
From S2P Require Import CoreHistory.
From S2P Require Import StoreBase.
From S2P Require Import StoreTable.
From S2P Require Import StoreTableThms.
From S2P Require Import StoreTablePages.
From S2P Require Import StoreEvents.

Section rows.
Context {JV : JsonValue} {TE : TextEnv} {HJ : HeadersJson} {HL : HeadersJsonLaws} {EC : EventCodec} {EL : EventCodecLaws}.

(** ** Rows and events *)
(** A lamport and a time an [i64] column holds without wrapping. *)
Definition event_fits (e : TranscriptEvent) : Prop :=
  (Z.of_N (te_lamport e) ≤ i64_max ∧ Z.of_N (te_occurred_at_ms e) ≤ i64_max)%Z.
Record row_of (e : TranscriptEvent) (r : EventRow) : Prop := {
  ro_id : er_event_id r = uuid (te_event_id e);
  ro_room : er_room_id r = uuid (te_room_id e);
  ro_client : er_client_id r = uuid (te_client_id e);
  ro_lamport : er_lamport r = Z.of_N (te_lamport e);
  ro_time : er_occurred_at_ms r = Z.of_N (te_occurred_at_ms e);
  ro_peer : er_addressed_peer r = uuid <$> ad_peer (of_event e);
  ro_leading : er_leading_mention r = leading_mention (of_event e);
  ro_decodes : event_from_model r = Ok e;
}.
Lemma from_as_wire_str k : from_wire_str (as_wire_str k) = Some k.
Proof. by destruct k. Qed.
Lemma json_ok {A} (r : result rstring A) a : json r = Ok a → r = Ok a.
Proof. destruct r; cbn; congruence. Qed.
Lemma optional_round {A} (f : A → result rstring Json) (g : Json → result rstring A) o j :
  (∀ x j, f x = Ok j → g j = Ok x) → optional (json ∘ f) o = Ok j → optional (json ∘ g) j = Ok o.
Proof.
  intros Hfg. destruct o as [a|]; cbn; [|by intros [= <-]].
  destruct (json (f a)) as [x|] eqn:Hx; [|done]. apply json_ok, Hfg in Hx. intros [= <-]. cbn. by rewrite Hx.
Qed.
Lemma event_encodes e r : event_fits e → event_to_active_model e = Ok r → row_of e r.
Proof.
  intros [Hl Ho]. unfold event_to_active_model.
  destruct (json (mention_to_json _)) as [target|] eqn:Ht; [|done]. cbn.
  destruct (json (headers_to_json _)) as [headers|] eqn:Hh; [|done]. cbn.
  destruct (optional _ (te_body e)) as [body|] eqn:Hb; [|done]. cbn.
  destruct (optional _ (te_attachment e)) as [attachment|] eqn:Ha; [|done]. cbn.
  destruct (optional _ (te_receipt e)) as [receipt|] eqn:Hr; [|done]. cbn -[as_wire_str]. intros Heq. injection Heq as <-.
  split; cbn -[from_wire_str as_wire_str]; rewrite ?as_i64_small by done; try done.
  apply json_ok in Ht, Hh. unfold event_from_model. cbn -[from_wire_str as_wire_str]. rewrite from_as_wire_str. cbn.
  rewrite (law_mention _ _ Ht). cbn. rewrite (law_headers _ _ Hh). cbn.
  rewrite (optional_round _ _ _ _ law_body Hb). cbn.
  rewrite (optional_round _ _ _ _ law_attachment Ha). cbn.
  rewrite (optional_round _ _ _ _ law_receipt Hr). cbn.
  rewrite !as_u64_small by done. by destruct e as [[] [] [] [] ? ? ? ? ? ? ? ? ?].
Qed.

Definition blank_event (metadata : Json) : TranscriptEvent :=
  MkTranscriptEvent (MkId 0) (MkId 0) (MkId 0) (MkId 0) Message 0 0 ToAll ∅ None None None metadata.
Definition event_of_row (r : EventRow) : TranscriptEvent :=
  match event_from_model r with Ok e => e | Err _ => blank_event (er_metadata r) end.
Definition event_row_ok (r : EventRow) : Prop := ∃ e, event_fits e ∧ event_to_active_model e = Ok r.
Lemma event_of_encoded e r : event_fits e → event_to_active_model e = Ok r → event_of_row r = e.
Proof. intros Hf He%event_encodes; [|done]. unfold event_of_row. by rewrite (ro_decodes _ _ He). Qed.
Lemma row_event r : event_row_ok r → row_of (event_of_row r) r.
Proof. intros (e & Hf & He). rewrite (event_of_encoded e r) by done. by apply event_encodes. Qed.
Lemma row_fits r : event_row_ok r → event_fits (event_of_row r).
Proof. intros (e & Hf & He). by rewrite (event_of_encoded e r). Qed.
#[export] Instance event_model : RowModel EventRow TranscriptEvent.
Proof.
  refine {|
    row_ok := event_row_ok;
    event_of := event_of_row;
    ev_id := te_event_id;
    ev_client := te_client_id;
    ev_headers := te_headers;
    ev_addressing := of_event;
  |}.
  - intros r Hr. apply ro_id, row_event, Hr.
  - intros r Hr. apply ro_client, row_event, Hr.
  - intros r Hr. apply ro_peer, row_event, Hr.
  - intros r Hr. apply ro_leading, row_event, Hr.
  - by intros a b [= _ Hid].
Defined.

(** ** Order *)
Definition event_key (e : TranscriptEvent) : N * N := cursor_key (te_cursor e).
#[local] Abbreviation event_lt := (row_lt event_key).
Lemma row_lt_event (a b : EventRow) : row_ok a → row_ok b → row_lt t_key a b → event_lt (event_of_row a) (event_of_row b).
Proof.
  intros Ha%row_event Hb%row_event [Hle Hne]. unfold row_lt, row_le, event_key, cursor_key in *. cbn in *.
  unfold pair_le in *. cbn in *. rewrite (ro_id _ _ Ha), (ro_id _ _ Hb), (ro_lamport _ _ Ha), (ro_lamport _ _ Hb) in *.
  split.
  - destruct Hle as [[Hn Hle]|[Heq%N2Z.inj Hle]]; [left|right; done]. split; [|lia]. intros Heq. by rewrite Heq in Hn.
  - intros [= Hl Hid]. apply Hne. congruence.
Qed.
Lemma table_events_sorted (t : Tables EventRow) : tables_ok t → StronglySorted event_lt (table_events t).
Proof.
  intros Hok. unfold table_events. pose proof (table_rows_sorted t Hok) as Hs.
  assert (∀ r, r ∈ table_rows t → row_ok r) as Hrow by (intros r Hr; by apply (table_row_ok t r)).
  induction Hs as [|r l Hs IH Hr]; [constructor|]. rewrite fmap_cons. constructor; [apply IH; intros; apply Hrow; by right|].
  rewrite list.Forall_forall. rewrite list.Forall_forall in Hr. intros e (x & -> & Hx)%list_elem_of_fmap.
  apply row_lt_event; [apply Hrow; by left|apply Hrow; by right|by apply Hr].
Qed.

(** ** What the conditions mean *)
Section means.
Variable t : Tables EventRow.
#[local] Abbreviation means := (means t).
Definition position_fits (c : TranscriptCursor) : Prop := (Z.of_N (cur_lamport c) ≤ i64_max)%Z.

Lemma means_in_room room : means (in_room room) (λ e, bool_decide (te_room_id e = room)).
Proof.
  intros r _ Hr%row_event. change (event_of r) with (event_of_row r). unfold in_room. rewrite (ro_room _ _ Hr).
  apply eq_true_iff_eq. rewrite N.eqb_eq, bool_decide_eq_true. split; [apply uuid_inj|congruence].
Qed.
Lemma means_in_channels channels : means (in_channels channels) (λ e, bool_decide (te_room_id e ∈ channels)).
Proof.
  intros r _ Hr%row_event. change (event_of r) with (event_of_row r). unfold in_channels. rewrite (ro_room _ _ Hr).
  apply bool_decide_ext. rewrite list_elem_of_fmap. split; [intros (x & Hx%uuid_inj & ?); congruence|eauto].
Qed.
Lemma means_after_position c : position_fits c → means (after_position c) (λ e, strictly_after_cursor e c).
Proof.
  intros Hc r _ Hr%row_event. change (event_of r) with (event_of_row r). unfold after_position, strictly_after_cursor.
  rewrite as_i64_small, (ro_lamport _ _ Hr), (ro_id _ _ Hr) by done. apply eq_true_iff_eq.
  rewrite orb_true_iff, andb_true_iff, Z.ltb_lt, Z.eqb_eq, N.ltb_lt.
  destruct (N.ltb_spec (cur_lamport c) (te_lamport (event_of_row r))); [split; [done|lia]|].
  destruct (N.eqb_spec (te_lamport (event_of_row r)) (cur_lamport c)); [rewrite N.ltb_lt; lia|split; [lia|done]].
Qed.
Lemma means_through_position c :
  position_fits c → means (through_position c) (λ e, negb (strictly_after_cursor e c)).
Proof.
  intros Hc r _ Hr%row_event. change (event_of r) with (event_of_row r). unfold through_position, strictly_after_cursor.
  rewrite as_i64_small, (ro_lamport _ _ Hr), (ro_id _ _ Hr) by done. apply eq_true_iff_eq.
  rewrite orb_true_iff, andb_true_iff, negb_true_iff, Z.ltb_lt, Z.eqb_eq, N.leb_le.
  destruct (N.ltb_spec (cur_lamport c) (te_lamport (event_of_row r))); [split; [lia|done]|].
  destruct (N.eqb_spec (te_lamport (event_of_row r)) (cur_lamport c)); [rewrite N.ltb_ge; lia|split; [done|lia]].
Qed.
Lemma means_in_channel channel q p :
  means (sel_where q) p → means (sel_where (in_channel channel q)) (λ e, p e && on_channel channel e).
Proof.
  intros Hq. destruct channel as [room|]; [by apply means_and; [|apply means_in_room]|].
  eapply means_ext; [exact Hq|]. intros. by rewrite andb_true_r.
Qed.
End means.

(** ** Reads *)
Context {S : Type} {DB : TableDb EventRow S} {DL : TableDbLaws S}.
Implicit Types s : S.
#[local] Abbreviation store_reads := (reads Database).
#[local] Abbreviation held s := (table_events (db_tables s)).
Lemma event_row_decodes r : row_ok r → event_from_model r = Ok (event_of r).
Proof. intros Hr%row_event. apply (ro_decodes _ _ Hr). Qed.

Lemma sql_page_recent_reads s channel limit : tables_ok (db_tables s) →
  store_reads (sql_page_recent channel limit) s (last_n limit (filter (λ e, on_channel channel e = true) (held s))).
Proof.
  intros Hok. pose proof (means_in_channel (db_tables s) channel find (λ _, true) (means_value _ true)) as Hm.
  pose proof (page_reads Database event_from_model _ _ _ limit true s Hok event_row_decodes (limits_nat _ limit) Hm) as Hp.
  unfold sql_page_recent. by destruct channel.
Qed.
Lemma sql_resume_from_reads s cursor channel limit : tables_ok (db_tables s) → position_fits cursor →
  store_reads (sql_resume_from cursor channel limit) s
    (take limit (filter (λ e, strictly_after_cursor e cursor && on_channel channel e = true) (held s))).
Proof.
  intros Hok Hc.
  assert (means (db_tables s) (sel_where (in_channel channel (q_filter (after_position cursor) find)))
    (λ e, true && strictly_after_cursor e cursor && on_channel channel e)) as Hm.
  { apply means_in_channel, means_and; [apply means_value|by apply means_after_position]. }
  pose proof (page_reads Database event_from_model _ _ _ limit false s Hok event_row_decodes (limits_nat _ limit) Hm) as Hp.
  unfold sql_resume_from. by destruct channel.
Qed.
Lemma sql_latest_cursor_reads s channel : tables_ok (db_tables s) →
  store_reads (sql_latest_cursor channel) s (te_cursor <$> last (filter (λ e, on_channel channel e = true) (held s))).
Proof.
  intros Hok. pose proof (means_in_channel (db_tables s) channel (q_limit 1 find) (λ _, true) (means_value _ true)) as Hm.
  assert (store_reads (row ← map_db Database (db_one (q_order true (in_channel channel (q_limit 1 find))));
    mret ((λ m, MkTranscriptCursor (as_u64 (er_lamport m)) (MkId (er_event_id m))) <$> row)) s
    (te_cursor <$> last (filter (λ e, true && on_channel channel e = true) (held s)))) as Hp.
  { apply newest_reads; [done|by right; destruct channel| |exact Hm]. intros r Hr.
    pose proof (row_fits r Hr) as [Hf _]. apply row_event in Hr. change (event_of r) with (event_of_row r).
    rewrite (ro_lamport _ _ Hr), (ro_id _ _ Hr), as_u64_small by done. unfold te_cursor. by destruct (te_event_id _). }
  unfold sql_latest_cursor. by destruct channel.
Qed.
(** The shared range of a filtered page and a count. *)
Definition in_transcript_range (after through : TranscriptCursor) (channels : list RoomId) (e : TranscriptEvent) : bool :=
  bool_decide (te_room_id e ∈ channels) && strictly_after_cursor e after && negb (strictly_after_cursor e through).
Record window_fits (after through : TranscriptCursor) (hs : HeaderFilter) : Prop := {
  wf_after : position_fits after;
  wf_through : position_fits through;
  wf_str : str_filter hs;
}.
Lemma sql_matching_history_reads s after through channels rule limit (tail : bool) :
  tables_ok (db_tables s) → window_fits after through (hm_headers rule) →
  store_reads (sql_matching_history after through channels rule limit tail) s
    (bounded tail limit
      (filter (λ e, in_transcript_range after through channels e && matches_event rule e = true) (held s))).
Proof.
  intros Hok [Ha Ht Hs]. set (q0 := q_filter (through_position through) (q_filter (predicate (hm_headers rule))
    (q_filter (in_channels channels) (q_filter (after_position after) find)))).
  assert (means (db_tables s) (sel_where q0) (λ e, true && strictly_after_cursor e after &&
    bool_decide (te_room_id e ∈ channels) && filter_matches (hm_headers rule) (te_headers e) &&
    negb (strictly_after_cursor e through))) as Hm.
  { apply means_and; [|by apply means_through_position].
    apply means_and; [|exact (means_predicate (db_tables s) Hok (hm_headers rule) Hs)].
    apply means_and; [|apply means_in_channels]. apply means_and; [apply means_value|by apply means_after_position]. }
  assert (matching after through channels rule limit tail =
    (λ q, q_limit (N.of_nat limit) (q_order tail q)) <$> addressee_branches q0 (addressed_to rule)) as Hq.
  { unfold matching. by destruct (addressed_to rule). }
  unfold sql_matching_history. rewrite Hq.
  pose proof (merged_reads Database event_from_model q0 _ (addressed_to rule) _ limit tail s Hok event_row_decodes
    (limits_nat _ limit) Hm) as Hp.
  erewrite filter_ext_in; [exact Hp|]. intros e _. unfold in_transcript_range, matches_event, matches_with.
  change (ev_addressing e) with (of_event e).
  by destruct (bool_decide _), (strictly_after_cursor _ after), (strictly_after_cursor _ through), (filter_matches _ _),
    (is_none_or _ _).
Qed.
Definition counted_event (after through : TranscriptCursor) (channels : list RoomId) (hs : HeaderFilter)
    (exclude : option RuntimeSelf) (e : TranscriptEvent) : bool :=
  in_transcript_range after through channels e && filter_matches hs (te_headers e)
  && negb (is_some_and exclude (λ rule, is_self_event rule e)).
Lemma sql_count_history_reads s after through channels hs exclude :
  tables_ok (db_tables s) → window_fits after through hs →
  store_reads (sql_count_history after through channels hs exclude) s
    (of_newest (te_occurred_at_ms <$>
      reverse (filter (λ e, counted_event after through channels hs exclude e = true) (held s)))).
Proof.
  intros Hok [Ha Ht Hs]. set (q0 := q_filter (predicate hs) (q_filter (transcript_range after through)
    (q_filter (in_channels channels) find))).
  assert (means (db_tables s) (sel_where q0)
    (λ e, in_transcript_range after through channels e && filter_matches hs (te_headers e))) as Hm.
  { apply means_and; [|exact (means_predicate (db_tables s) Hok hs Hs)]. eapply means_ext.
    - apply means_and; [apply means_and; [apply means_value|apply means_in_channels]|].
      apply means_and; [by apply means_after_position|by apply means_through_position].
    - intros r _. unfold in_transcript_range. by rewrite andb_true_l, andb_assoc. }
  unfold sql_count_history. fold q0. cbv zeta.
  apply count_reads; [done| |].
  { intros r Hr%row_event. rewrite (ro_time _ _ Hr). unfold i64_to_u64.
    rewrite (proj2 (Z.leb_le _ _)) by lia. by rewrite N2Z.id. }
  unfold counted_event. destruct exclude as [rule|]; cbn [is_some_and].
  - apply means_and; [exact Hm|exact (means_not_self (db_tables s) Hok rule)].
  - eapply means_ext; [exact Hm|]. intros r _. cbn. by rewrite andb_true_r.
Qed.
End rows.

(** ** The calls of a transcript store *)
Section calls.
Context `{!JsonValue, !TextEnv}.
Inductive EventCall :=
| Append (ev : TranscriptEvent)
| PageRecent (channel : option RoomId) (limit : nat)
| MatchingHistory (after through : TranscriptCursor) (channels : list RoomId) (rule : HistoryMatch) (limit : nat) (tail : bool)
| ResumeFrom (cursor : TranscriptCursor) (channel : option RoomId) (limit : nat)
| LatestCursor (channel : option RoomId)
| CountHistory (after through : TranscriptCursor) (channels : list RoomId) (hs : HeaderFilter) (exclude : option RuntimeSelf).
Inductive EventAnswer :=
| EvAppended
| EvRows (rows : list TranscriptEvent)
| EvCursor (cursor : option TranscriptCursor)
| EvCounted (count : HistoryCount).
Definition sql_call `{!HeadersJson, !EventCodec} {S} `{!TableDb EventRow S} (k : EventCall) : ST S StoreError EventAnswer :=
  match k with
  | Append ev => _ ← sql_append ev; mret EvAppended
  | PageRecent channel limit => l ← sql_page_recent channel limit; mret (EvRows l)
  | MatchingHistory after through channels rule limit tail =>
      l ← sql_matching_history after through channels rule limit tail; mret (EvRows l)
  | ResumeFrom cursor channel limit => l ← sql_resume_from cursor channel limit; mret (EvRows l)
  | LatestCursor channel => o ← sql_latest_cursor channel; mret (EvCursor o)
  | CountHistory after through channels hs exclude =>
      n ← sql_count_history after through channels hs exclude; mret (EvCounted n)
  end.
Definition mem_call (k : EventCall) : ST MemEvents StoreError EventAnswer :=
  match k with
  | Append ev => _ ← mem_append_event ev; mret EvAppended
  | PageRecent channel limit => l ← st_gets (mem_page_recent channel limit); mret (EvRows l)
  | MatchingHistory after through channels rule limit tail =>
      l ← st_gets (mem_matching_history after through channels rule limit tail); mret (EvRows l)
  | ResumeFrom cursor channel limit => l ← st_gets (mem_resume_from cursor channel limit); mret (EvRows l)
  | LatestCursor channel => o ← st_gets (mem_latest_cursor channel); mret (EvCursor o)
  | CountHistory after through channels hs exclude =>
      n ← st_gets (mem_count_history after through channels hs exclude); mret (EvCounted n)
  end.

(** Equal answers, but for a count: past the cap it says only that there are more. *)
Definition counts_agree (sql mem : HistoryCount) : Prop :=
  if (hc_count mem <=? HISTORY_COUNT_CAP)%N then sql = mem
  else hc_count sql = HISTORY_COUNT_CAP ∧ more sql = true.
Definition answers_agree (sql mem : EventAnswer) : Prop :=
  match sql, mem with
  | EvCounted c, EvCounted c' => counts_agree c c'
  | a, a' => a = a'
  end.
(** Every error but a duplicate is the database's or the codec's. *)
Definition store_fault (e : StoreError) : Prop := match e with DuplicateEventId _ => False | _ => True end.
End calls.

(** ** The memory store, over its sorted events *)
Section memory.
Context `{!JsonValue, !TextEnv}.
Implicit Types (l m : list TranscriptEvent) (e : TranscriptEvent).

Lemma drop_last_n {A} n (l : list A) : (if (n <? length l)%nat then drop (length l - n) l else l) = last_n n l.
Proof.
  unfold last_n. destruct (Nat.ltb_spec n (length l)); [done|]. by replace (length l - n)%nat with O by lia.
Qed.
Lemma event_key_inj e e' : event_key e = event_key e' → te_event_id e = te_event_id e'.
Proof. unfold event_key, cursor_key. cbn. intros [= _ Hid]. by apply uuid_inj. Qed.
Lemma max_event_spec l : match max_event l with
  | Some b => b ∈ l ∧ ∀ e, e ∈ l → event_order e b
  | None => l = []
  end.
Proof.
  unfold max_event. induction l as [|x l IH] using rev_ind; [done|]. rewrite foldl_app. cbn [foldl].
  destruct (foldl _ None l) as [b|].
  - destruct IH as [Hb Hall]. destruct (decide (event_order b x)) as [Hbx|Hbx].
    + split; [set_solver|]. intros e [?| ->%list_elem_of_singleton]%elem_of_app; [etrans; [by apply Hall|done]|].
      destruct (event_order_total x x); done.
    + split; [set_solver|]. intros e [?| ->%list_elem_of_singleton]%elem_of_app; [by apply Hall|].
      by destruct (event_order_total x b).
  - subst l. split; [set_solver|]. intros e ->%list_elem_of_singleton. by destruct (event_order_total x x).
Qed.
Lemma last_sorted l b : StronglySorted event_order l → last l = Some b → ∀ e, e ∈ l → event_order e b.
Proof.
  intros Hs (l' & ->)%last_Some e [He| ->%list_elem_of_singleton]%elem_of_app; [|by destruct (event_order_total b b)].
  eapply StronglySorted_app_1_elem_of; [exact Hs|done|]. by left.
Qed.
Lemma max_event_last l : NoDup (te_event_id <$> l) → max_event l = last (sort_by event_order l).
Proof.
  intros Hn. pose proof (max_event_spec l) as Hm. destruct (max_event l) as [b|]; [|by subst].
  destruct Hm as [Hb Hall]. destruct (last (sort_by event_order l)) as [b'|] eqn:Hl.
  - assert (b' ∈ l) as Hb'. { rewrite <- (sort_by_perm event_order l). by apply last_Some_elem_of. }
    assert (event_order b b') as H1.
    { eapply last_sorted; [apply sort_by_sorted; apply _|exact Hl|]. by rewrite sort_by_perm. }
    f_equal. assert (te_event_id b = te_event_id b') as Hid.
    { apply event_key_inj. apply (anti_symm key_le); [exact H1|by apply Hall]. }
    apply list_elem_of_lookup in Hb as [i Hi], Hb' as [j Hj].
    assert (i = j) as <-; [|congruence].
    eapply NoDup_lookup; [exact Hn|rewrite list_lookup_fmap, Hi; reflexivity|by rewrite list_lookup_fmap, Hj, Hid].
  - apply last_None in Hl. pose proof (sort_by_perm event_order l) as Hp. rewrite Hl in Hp.
    apply Permutation_nil_l in Hp. subst l. by apply elem_of_nil in Hb.
Qed.
Lemma counts_of_newest (l l' : list N) : is_u64 (N.of_nat (length l)) → l ≡ₚ l' →
  counts_agree (of_newest l') (foldl with_event HistoryCount_default l).
Proof.
  intros Hu Hp. rewrite with_events_spec by exact Hu. rewrite of_newest_spec. cbv zeta. unfold counts_agree. cbn [hc_count HistoryCount_default N.add].
  rewrite N.add_0_l. rewrite <- (Permutation_length Hp).
  destruct (N.leb_spec (N.of_nat (length l)) HISTORY_COUNT_CAP) as [Hle|Hgt].
  - rewrite (proj2 (N.ltb_ge _ _) Hle). pose proof (Permutation_length Hp) as Hlen. assert (take (N.to_nat HISTORY_COUNT_CAP) l' = l') as -> by (apply take_ge; lia).
    destruct (times_perm l l' Hp) as [-> ->]. cbn [oldest_ms newest_ms more HistoryCount_default].
    rewrite <- Hlen. by destruct (times_min l'), (times_max l').
  - cbn [hc_count more]. rewrite length_take. pose proof (Permutation_length Hp) as Hlen. split; [lia|by apply N.ltb_lt].
Qed.
End memory.

(** ** The simulation *)
Section run.
Context {JV : JsonValue} {TE : TextEnv} {HJ : HeadersJson} {HL : HeadersJsonLaws} {EC : EventCodec} {EL : EventCodecLaws}.
Context {S : Type} {DB : TableDb EventRow S} {DL : TableDbLaws S}.
Implicit Types (s : S) (m : MemEvents) (e : TranscriptEvent) (t : Tables EventRow).

Definition text_event e : Prop := ∀ k v, te_headers e !! k = Some v → is_str v.
Record same_events t m : Prop := {
  se_tables : tables_ok t;
  se_ids : NoDup (te_event_id <$> m);
  se_events e : e ∈ table_events t ↔ e ∈ m;
}.
Lemma same_sorted t m : same_events t m → table_events t = sort_by event_order m.
Proof.
  intros [Ht Hn He]. apply (strict_ext (row_lt event_key)).
  - by apply table_events_sorted.
  - apply (strict_of_sorted event_key (sort_by event_order m)); [apply (sort_by_sorted event_order); apply _|].
    assert (NoDup (te_event_id <$> sort_by event_order m)) as Hs by (by rewrite (sort_by_perm event_order m)).
    revert Hs. generalize (sort_by event_order m) as l. induction l as [|x l IH]; rewrite ?fmap_cons; [intros _; apply NoDup_nil_2|].
    rewrite !list.NoDup_cons. intros [Hni Hl]. split; [|by apply IH]. intros (y & Hk & Hy)%list_elem_of_fmap.
    apply Hni, list_elem_of_fmap. exists y. split; [by apply event_key_inj|done].
  - intros e. rewrite He. by rewrite (sort_by_perm event_order m).
Qed.
Lemma sorted_filter t m (p : TranscriptEvent → bool) : same_events t m →
  filter (λ e, p e = true) (table_events t) = sort_by event_order (filter (λ e, p e = true) m).
Proof. intros Hs. rewrite (same_sorted t m Hs). symmetry. apply sort_by_filter; apply _. Qed.
Lemma same_length s m : same_events (db_tables s) m → is_u64 (N.of_nat (length m)).
Proof.
  intros Hs. pose proof (law_size s) as Hl. rewrite <- (sort_by_perm event_order m), <- (same_sorted _ _ Hs).
  unfold table_events. rewrite length_fmap, table_size. unfold is_u64, u64_modulus, i64_max in *. lia.
Qed.

(** *** Appends *)
Lemma append_same t m e r : same_events t m → event_fits e → text_event e → event_to_active_model e = Ok r →
  match tb_rows t !! t_event_id r with
  | Some _ => mem_append_event e m = (Err (DuplicateEventId (uuid (te_event_id e))), m)
  | None => (mem_append_event e m).1 = Ok tt ∧ same_events (put t r) (mem_append_event e m).2
  end.
Proof.
  intros [Ht Hn He] Hf Htext Hr. pose proof (event_encodes e r Hf Hr) as Hen. pose proof (event_of_encoded e r Hf Hr) as Hof.
  assert (t_event_id r = uuid (te_event_id e)) as Hid by exact (ro_id _ _ Hen).
  unfold mem_append_event. destruct (tb_rows t !! t_event_id r) as [r'|] eqn:Hl.
  - assert (existsb (λ x, bool_decide (te_event_id x = te_event_id e)) m = true) as ->; [|done].
    destruct (t_rows_ok _ Ht _ _ Hl) as [Hro Hid']. apply existsb_exists. exists (event_of_row r'). split.
    + apply list_elem_of_In, He, list_elem_of_fmap. exists r'. split; [done|]. apply elem_table_rows. eauto.
    + apply bool_decide_eq_true_2, uuid_inj. rewrite <- (ro_id _ _ (row_event _ Hro)), <- Hid, <- Hid'. done.
  - assert (∀ x, x ∈ m → te_event_id x ≠ te_event_id e) as Hnew.
    { intros x Hin Heq. apply He, list_elem_of_fmap in Hin as (rx & -> & Hrx). destruct (table_row_ok t rx Ht Hrx) as [Hx Hlx].
      pose proof (ro_id _ _ (row_event _ Hx)) as Hix. change (event_of rx) with (event_of_row rx) in Heq.
      change (t_event_id rx) with (er_event_id rx) in Hlx. rewrite Hix, Heq, <- Hid, Hl in Hlx. done. }
    assert (existsb (λ x, bool_decide (te_event_id x = te_event_id e)) m = false) as ->.
    { apply not_true_iff_false. intros (x & Hx%list_elem_of_In & Hb%bool_decide_eq_true_1)%existsb_exists. by apply (Hnew x). }
    cbn [fst snd]. split; [done|]. assert (row_ok r) as Hro by (by exists e).
    assert (∀ k v, ev_headers (event_of r) !! k = Some v → is_str v) as Hstr.
    { intros k v. change (event_of r) with (event_of_row r). rewrite Hof. apply Htext. }
    pose proof (λ x, put_fresh_events t r Hl x) as Hev. change (event_of r) with (event_of_row r) in Hev. rewrite Hof in Hev.
    split; [by apply put_fresh_ok| |].
    + rewrite fmap_app. apply list.NoDup_app. split_and!; [done| |apply NoDup_singleton].
      intros i (x & -> & Hx)%list_elem_of_fmap Hi%list_elem_of_singleton. by apply (Hnew x).
    + intros x. rewrite Hev, elem_of_app, list_elem_of_singleton, He. tauto.
Qed.

(** *** One call *)
Definition call_fits (k : EventCall) : Prop :=
  match k with
  | Append ev => event_fits ev ∧ text_event ev
  | PageRecent _ _ | LatestCursor _ => True
  | ResumeFrom cursor _ _ => position_fits cursor
  | MatchingHistory after through _ rule _ _ => window_fits after through (hm_headers rule)
  | CountHistory after through _ hs _ => window_fits after through hs
  end.
Definition stores_same s m : Prop := same_events (db_tables s) m.
#[local] Abbreviation refines k s m := (call_refines sql_call mem_call store_fault answers_agree stores_same k s m).

Lemma encode_fault ev err : event_to_active_model ev = Err err → store_fault err.
Proof.
  assert (∀ A (r : result rstring A) (e : StoreError), json r = Err e → store_fault e) as Hj by (intros A [a|x] e; cbn; [done|by intros [= <-]]).
  assert (∀ A (f : A → result rstring Json) o (e : StoreError), optional (json ∘ f) o = Err e → store_fault e) as Ho.
  { intros A f [a|] e; cbn; [|done]. destruct (json (f a)) eqn:Ha; [done|]. cbn. intros [= <-]. by eapply Hj. }
  unfold event_to_active_model.
  destruct (json (mention_to_json _)) eqn:H1; [cbn|intros [= <-]; by eapply Hj].
  destruct (json (headers_to_json _)) eqn:H2; [cbn|intros [= <-]; by eapply Hj].
  destruct (optional _ (te_body ev)) eqn:H3; [cbn|intros [= <-]; by eapply Ho].
  destruct (optional _ (te_attachment ev)) eqn:H4; [cbn|intros [= <-]; by eapply Ho].
  destruct (optional _ (te_receipt ev)) eqn:H5; [done|intros [= <-]; by eapply Ho].
Qed.
Lemma append_refines ev s m : stores_same s m → event_fits ev → text_event ev → refines (Append ev) s m.
Proof.
  intros Hs Hf Ht. unfold call_refines, sql_call, mem_call, sql_append, map_db, mbind, st_bind, st_lift, stores_same in *.
  pose proof (law_admit s) as Hadm. pose proof (law_admit_err s) as Haerr.
  destruct (db_admit s) as [[[]|err] s1]; cbn [fst snd] in *.
  2:{ rewrite Hadm. right. split; [|by left]. specialize (Haerr err eq_refl). by destruct err. }
  destruct (event_to_active_model ev) as [r|err] eqn:Hr.
  2:{ cbn [fst snd]. rewrite Hadm. right. split; [|by left]. by apply encode_fault in Hr. }
  pose proof (append_same _ m ev r Hs Hf Ht Hr) as Happ.
  pose proof (event_of_encoded ev r Hf Hr) as Hof. pose proof (ro_id _ _ (event_encodes ev r Hf Hr)) as Hid.
  assert ([(uuid (te_event_id ev), te_headers ev)] = [row_headers r]) as ->.
  { unfold row_headers. change (event_of r) with (event_of_row r). rewrite Hof. change (t_event_id r) with (er_event_id r). by rewrite Hid. }
  set (l := InsertRow r :: _). pose proof (law_transaction_ok s1 l) as Hok.
  pose proof (law_transaction_duplicate s1 l) as Hdup. pose proof (law_transaction_err s1 l) as Herr.
  rewrite Hadm in Hok, Hdup, Herr.
  destruct (tb_rows (db_tables s) !! t_event_id r) eqn:Hl.
  - assert (run_stmts (db_tables s) l = None) as Hrun by (apply insert_present; by rewrite Hl). rewrite Hrun in Hok, Herr. rewrite Happ.
    destruct (db_transaction l s1) as [[ns|d] s2]; cbn [fst snd mret st_ret] in *; [by specialize (Hok ns eq_refl)|].
    destruct (Herr d eq_refl) as [Hs2|[ns [=]]]. rewrite Hs2. destruct d; [by left|right; by split; [|left]].
  - destruct (insert_put _ r Hl) as [ns Hrun]. fold l in Hrun. rewrite Hrun in Hok, Hdup, Herr.
    destruct (mem_append_event ev m) as [rm m']. cbn [fst snd] in Happ. destruct Happ as [-> Hput].
    destruct (db_transaction l s1) as [[ns'|d] s2]; cbn [fst snd mret st_ret] in *.
    + specialize (Hok ns' eq_refl). injection Hok as <- _. eexists. by split_and!.
    + destruct d as [|msg]; [by destruct (Hdup eq_refl) as [_ [=]]|]. right. split; [done|].
      destruct (Herr _ eq_refl) as [-> |[ns' Heq]]; [by left|right]. by injection Heq as <- _.
Qed.

Lemma event_call_agrees k s m : stores_same s m → call_fits k → refines k s m.
Proof.
  intros Hs Hk. pose proof (se_tables _ _ Hs) as Ht. pose proof (λ p, sorted_filter _ _ p Hs) as Hsort.
  assert (∀ s', db_tables s' = db_tables s → stores_same s' m ∧ stores_same s' m) as Hsame.
  { intros s' Hs'. unfold stores_same. by rewrite Hs'. }
  destruct k as [ev|channel limit|after through channels rule limit tail|cursor channel limit|channel|after through channels hs exclude];
    cbn in Hk.
  - destruct Hk. by apply append_refines.
  - eapply (read_refines _ _ _ _ _ Database EvRows EvRows); [reflexivity|reflexivity|by apply sql_page_recent_reads|reflexivity| |done|exact Hsame].
    cbn. f_equal. unfold mem_page_recent. rewrite drop_last_n. by rewrite Hsort.
  - eapply (read_refines _ _ _ _ _ Database EvRows EvRows); [reflexivity|reflexivity|by apply sql_matching_history_reads|reflexivity| |done|exact Hsame].
    cbn. f_equal. unfold mem_matching_history. rewrite select_exact. rewrite Hsort. done.
  - eapply (read_refines _ _ _ _ _ Database EvRows EvRows); [reflexivity|reflexivity|by apply sql_resume_from_reads|reflexivity| |done|exact Hsame].
    cbn. f_equal. unfold mem_resume_from. rewrite (Hsort (λ e, strictly_after_cursor e cursor && on_channel channel e)).
    do 2 f_equal. apply (filter_and (λ e, strictly_after_cursor e cursor) (on_channel channel)).
  - eapply (read_refines _ _ _ _ _ Database EvCursor EvCursor); [reflexivity|reflexivity|by apply sql_latest_cursor_reads|reflexivity| |done|exact Hsame].
    cbn. f_equal. unfold mem_latest_cursor. rewrite Hsort, max_event_last; [done|].
    eapply sublist_NoDup; [exact (se_ids _ _ Hs)|apply fmap_sublist, sublist_filter].
  - eapply (read_refines _ _ _ _ _ Database EvCounted EvCounted); [reflexivity|reflexivity|by apply sql_count_history_reads|reflexivity| |done|exact Hsame].
    cbn [answers_agree]. unfold mem_count_history. set (p := counted_event after through channels hs exclude).
    change (counts_agree (of_newest (te_occurred_at_ms <$> reverse (filter (λ e, p e = true) (table_events (db_tables s)))))
      (foldl (λ count e, with_event count (te_occurred_at_ms e)) HistoryCount_default (filter (λ e, p e = true) m))).
    rewrite Hsort. rewrite <- foldl_fmap. apply counts_of_newest.
    + rewrite length_fmap. eapply N.le_lt_trans; [|exact (same_length s m Hs)].
      assert (∀ a b, (a ≤ b)%nat → (N.of_nat a ≤ N.of_nat b)%N) as Hle by lia. apply Hle, sublist_length, sublist_filter.
    + apply fmap_Permutation. by rewrite reverse_Permutation, (sort_by_perm event_order).
Qed.
End run.
