(* ===== verification/StoreEventThms.v ===== *)
(** The SQLite transcript store against the in-memory one: the refinement theorem,
    and what happens outside its hypotheses. *)
From stdpp Require Import base gmap strings list sorting numbers.
From Stdlib Require Import Lia.
From S2P Require Import Prelude.
From S2P Require Import WorkModel.
From S2P Require Import CoreTranscript.
From S2P Require Import CoreHistory.
From S2P Require BusEnvelope.
From S2P Require Import StoreBase.
From S2P Require Import StoreTable.
From S2P Require Import StoreTableThms.
From S2P Require Import StoreEvents.
From S2P Require Import StoreEventRows.

(** C31: The SQLite transcript store refines the in-memory one.  Run any calls of the
    store on SQLite, any of which the database may fail, from tables that hold the
    events the in-memory store holds.  Then the in-memory store gives the same
    answers, a duplicate id refused by both, a faulted call having done nothing or all
    of its work; past the cap a count says only that there are more.  The tables still
    hold what the in-memory store holds.  Lamports, times and the cursors asked for
    fit an [i64]; header values and prefixes are Rust strings. *)
Theorem transcript_store_refines_memory
    {JV : JsonValue} {TE : TextEnv} {HJ : HeadersJson} {HL : HeadersJsonLaws} {EC : EventCodec} {EL : EventCodecLaws}
    {S : Type} {DB : TableDb EventRow S} {DL : TableDbLaws S} (ks : list EventCall) (s : S) (m : MemEvents) :
  tables_ok (db_tables s) → NoDup (te_event_id <$> m) → (∀ e, e ∈ table_events (db_tables s) ↔ e ∈ m) →
  Forall call_fits ks →
  let run := run_calls sql_call ks s in
  ∃ m', explains mem_call store_fault answers_agree m run.1 m' ∧
    tables_ok (db_tables run.2) ∧ ∀ e, e ∈ table_events (db_tables run.2) ↔ e ∈ m'.
Proof.
  intros Ht Hm Hrows Hk. assert (stores_same s m) as Hs by (by split).
  destruct (run_refines sql_call mem_call store_fault answers_agree stores_same call_fits ks s m
    (λ k s m Hk Hs, event_call_agrees k s m Hs Hk) Hs Hk) as (m' & Hans & [Ht' _ He]).
  by exists m'.
Qed.

Module StoreScenario.
(** JSON as the values it encodes. *)
Inductive Tree :=
| JTarget (x : MentionTarget)
| JHeaders (x : Headers)
| JText (x : rstring)
| JBodyJson (x : Tree)
| JBodyBinary (x : list N)
| JAttachment (x : AttachmentManifest)
| JReceipt (x : Receipt)
| JBusTarget (x : BusEnvelope.Target).
#[export] Instance json_tree : JsonValue := {| Json := Tree; json_kind := λ _, None |}.
#[export] Instance text : TextEnv := {|
  is_alphanumeric := λ c, ((48 <=? c) && (c <=? 57) || (97 <=? c) && (c <=? 122))%N;
  json_text := λ j, match j with JText x => Some x | _ => None end;
  body_from_payload := λ _, None;
|}.
Definition wrong : rstring := str "invalid type".
#[export] Instance headers_json : HeadersJson := {|
  headers_to_json x := Ok (JHeaders x);
  headers_from_json j := match j with JHeaders x => Ok x | _ => Err wrong end;
|}.
#[export] Instance headers_json_laws : HeadersJsonLaws.
Proof. split; by intros x j [= <-]. Qed.
#[export] Instance event_codec : EventCodec := {|
  mention_to_json x := Ok (JTarget x);
  mention_from_json j := match j with JTarget x => Ok x | _ => Err wrong end;
  body_to_json x := Ok (match x with BodyJson v => JBodyJson v | BodyBinary b => JBodyBinary b end);
  body_from_json j :=
    match j with JBodyJson v => Ok (BodyJson v) | JBodyBinary b => Ok (BodyBinary b) | _ => Err wrong end;
  attachment_to_json x := Ok (JAttachment x);
  attachment_from_json j := match j with JAttachment x => Ok x | _ => Err wrong end;
  receipt_to_json x := Ok (JReceipt x);
  receipt_from_json j := match j with JReceipt x => Ok x | _ => Err wrong end;
|}.
#[export] Instance event_codec_laws : EventCodecLaws.
Proof. split; [..|]; try by intros x j [= <-]. by intros [] j [= <-]. Qed.
#[local] Existing Instance table_db.
#[local] Existing Instance table_db_laws.

Definition room : RoomId := MkId 1.
Definition me : PeerId := MkId 7.
Definition key : rstring := str "forge.kind".
Definition said (i lamport : N) (to : MentionTarget) (text_ : string) (hs : Headers) : TranscriptEvent :=
  MkTranscriptEvent (MkId i) room (MkId 2) (MkId 3) Message (10 * lamport) lamport to hs
    (Some (BodyJson (JText (str text_)))) None None (JText []).
Definition e1 : TranscriptEvent := said 11 1 ToAll "hi" {[ key := str "ab" ]}.
Definition e2 : TranscriptEvent := said 12 1 (ToPeer me) "hi" {[ key := str "ac" ]}.
Definition e3 : TranscriptEvent := said 13 2 ToAll "@bob hi" ∅.
Definition from0 : TranscriptCursor := MkTranscriptCursor 0 (MkId 0).
Definition calls : list EventCall :=
  [Append e3; Append e2; Append e1; Append e2; PageRecent (Some room) 2; ResumeFrom (te_cursor e1) None 9;
   LatestCursor (Some room);
   MatchingHistory from0 (te_cursor e3) [room] (MkHistoryMatch HfAny (Some (MkAddresseeFilter me))) 1 true;
   MatchingHistory from0 (te_cursor e3) [room] (MkHistoryMatch (HfPrefix key (str "a")) None) 9 false;
   CountHistory from0 (te_cursor e3) [room] (HfNot (HfHas key)) None].
Definition answers_given : list (result StoreError EventAnswer) :=
  [Ok EvAppended; Ok EvAppended; Ok EvAppended; Err (DuplicateEventId 12); Ok (EvRows [e2; e3]); Ok (EvRows [e2; e3]);
   Ok (EvCursor (Some (te_cursor e3))); Ok (EvRows [e3]); Ok (EvRows [e1; e2]);
   Ok (EvCounted (MkHistoryCount 1 (Some 20%N) (Some 20%N) false))].
Lemma answers_given_eq : (run_calls sql_call calls (@empty_db EventRow)).1.*2 = answers_given.
Proof. vm_compute. reflexivity. Qed.

Lemma transcript_store_refines_memory_witness :
  (run_calls sql_call calls (@empty_db EventRow)).1.*2 = answers_given ∧
  ∃ m', explains mem_call store_fault answers_agree [] (run_calls sql_call calls (@empty_db EventRow)).1 m' ∧
    tables_ok (db_tables (run_calls sql_call calls (@empty_db EventRow)).2) ∧
    ∀ e, e ∈ table_events (db_tables (run_calls sql_call calls (@empty_db EventRow)).2) ↔ e ∈ m'.
Proof.
  split; [exact answers_given_eq|]. apply (transcript_store_refines_memory calls (@empty_db EventRow) []).
  - by split.
  - apply NoDup_nil_2.
  - done.
  - assert (text_event e1 ∧ text_event e2) as [? ?].
    { split; intros k v Hv; cbn [te_headers e1 e2 said] in Hv; apply lookup_singleton_Some in Hv as [_ <-];
        unfold is_str, is_scalar, str; cbn; repeat constructor; lia. }
    assert (text_event e3) by (by intros k v).
    assert (event_fits e1 ∧ event_fits e2 ∧ event_fits e3) as (? & ? & ?) by (by vm_compute).
    assert (∀ hs, str_filter hs → window_fits from0 (te_cursor e3) hs) as Hw by (by split).
    assert (str_filter (HfPrefix key (str "a"))) by (cbn; unfold is_str, is_scalar, str; cbn; repeat constructor; lia).
    unfold calls. repeat (apply list.Forall_cons; split); [..|constructor]; cbn [call_fits hm_headers]; auto.
    + by vm_compute.
    + by apply Hw.
    + by apply Hw.
Defined.

(** ** Outside the hypotheses *)
(** A lamport past the column is stored as a negative number: the newest event is
    then the oldest to the store, and not what the latest cursor names. *)
Definition late : TranscriptEvent := said 14 9223372036854775808 ToAll "hi" ∅.
Example late_lamport_sorts_first :
  let ks := [Append e1; Append late; PageRecent (Some room) 1; LatestCursor (Some room)] in
  (run_calls sql_call ks (@empty_db EventRow)).1.*2 =
    [Ok EvAppended; Ok EvAppended; Ok (EvRows [e1]); Ok (EvCursor (Some (te_cursor e1)))] ∧
  (run_calls mem_call ks []).1.*2 =
    [Ok EvAppended; Ok EvAppended; Ok (EvRows [late]); Ok (EvCursor (Some (te_cursor late)))].
Proof. split; vm_compute; reflexivity. Qed.

(** The in-memory count has no cap. *)
Definition many : list TranscriptEvent := (λ i, said (N.of_nat i) (N.of_nat i) ToAll "hi" ∅) <$> seq 1 1000.
Example memory_count_has_no_cap :
  let k := CountHistory from0 (MkTranscriptCursor 5000 (MkId 0)) [room] HfAny None in
  let counted trace := (λ r : result StoreError EventAnswer, match r with
    | Ok (EvCounted c) => Some (hc_count c, more c) | _ => None end) <$> last trace.*2 in
  counted (run_calls sql_call ((Append <$> many) ++ [k]) (@empty_db EventRow)).1 = Some (Some (999%N, true)) ∧
  counted (run_calls mem_call ((Append <$> many) ++ [k]) []).1 = Some (Some (1000%N, false)).
Proof. split; vm_compute; reflexivity. Qed.
End StoreScenario.
