(* ===== verification/StoreDerive.v ===== *)
(** The derived data of the event tables and the opening of a store:
    [airc-store/src/derive.rs] and [airc-store/src/migration/].

    Both event tables are in one database; [TwoTables] says an operation on one
    leaves the other as it is.  The migrations are lists of statements ([Schema]);
    [MigrationDb] is SQLite's data definition and the version table of sea-orm. *)
From stdpp Require Import base gmap strings list sorting numbers.
From S2P Require Import Prelude.
From S2P Require Import Sorted.
From S2P Require Import WorkModel.
From S2P Require Import CoreTranscript.
From S2P Require Import CoreHistory.
From S2P Require Import StoreBase.
From S2P Require Import StoreTable.
From S2P Require Import StoreSink.
From S2P Require Import StoreEvents.

Definition BATCH : N := 1000.

(** ** One batch *)
Record Grouped := MkGrouped { peers : gmap N (list N); leading : list N }.
Definition Grouped_default : Grouped := MkGrouped ∅ [].
Definition grouped_add (self : Grouped) (id : N) (ad : Addressing) : Grouped :=
  MkGrouped
    (match ad_peer ad with
     | Some peer => <[uuid peer := unwrap_or (peers self !! uuid peer) [] ++ [id]]> (peers self)
     | None => peers self
     end)
    (if leading_mention ad then leading self ++ [id] else leading self).

Section batch.
Context {R : Type} `{!JsonValue, !HeadersJson} `{!EventTable R}.

(** Rows that are not current. *)
Definition owed_row : Expr R := λ r _, (t_derived_version r <? DERIVED_VERSION)%Z.
Definition owed_query : Select R := q_limit BATCH (q_filter owed_row find).

(** The loop over a batch: the ids, the addressing by group, the headers. *)
Record Batch := MkBatch { b_ids : list N; b_grouped : Grouped; b_headers : list (N * Headers) }.
Fixpoint decode_batch (b : Batch) (rows : list R) : result StoreError Batch :=
  match rows with
  | [] => Ok b
  | r :: rows =>
      held ← match headers_from_json (t_headers r) with
             | Ok held => Ok held
             | Err e => Err (Migration (str "decoding headers: " ++ e))
             end;
      ad ← table_addressing (t_target r) (t_content r);
      decode_batch (MkBatch (b_ids b ++ [t_event_id r]) (grouped_add (b_grouped b) (t_event_id r) ad)
                            (b_headers b ++ [(t_event_id r, held)])) rows
  end.
(** The three updates. *)
Definition clear_derived (r : R) : R := set_derived None false DERIVED_VERSION r.
Definition set_addressed_peer (peer : N) (r : R) : R := set_derived (Some peer) (t_leading_mention r) (t_derived_version r) r.
Definition set_leading (r : R) : R := set_derived (t_addressed_peer r) true (t_derived_version r) r.
Definition batch_statements (b : Batch) : list (Stmt R) :=
  [DeleteHeaders (b_ids b)]
  ++ write_header_rows (b_headers b)
  ++ [UpdateRows clear_derived (b_ids b)]
  ++ ((λ g, UpdateRows (set_addressed_peer g.1) g.2) <$> bt_entries (peers (b_grouped b)))
  ++ (if bool_decide (leading (b_grouped b) = []) then [] else [UpdateRows set_leading (leading (b_grouped b))]).
Definition derive_batch {S : Type} `{!TableDb R S} : ST S StoreError nat :=
  rows ← map_db Database (db_all owed_query);
  match rows with
  | [] => mret O
  | _ =>
      b ← st_lift (decode_batch (MkBatch [] Grouped_default []) rows);
      _ ← map_db Database (db_transaction (batch_statements b));
      mret (length rows)
  end.
End batch.

(** ** The pass over both tables *)
Section pending.
Context `{!JsonValue, !TextEnv, !HeadersJson, !BusCodec, !EventCodec}.
Context {S : Type} `{!TableDb EventRow S, !TableDb BusRow S}.

(** [derive_pending]; the answer says whether the fuel sufficed. *)
Fixpoint derive_pending (fuel : nat) : ST S StoreError bool :=
  match fuel with
  | O => mret false
  | Datatypes.S fuel =>
      events ← derive_batch (R:=EventRow);
      bus_events ← derive_batch (R:=BusRow);
      if (events =? 0)%nat && (bus_events =? 0)%nat then mret true
      else derive_pending fuel
  end.
End pending.

(** Two tables of one database. *)
Class TwoTables (R R' S : Type) `{!JsonValue, !EventTable R, !EventTable R', !TableDb R S, !TableDb R' S,
    !TableDbLaws (R:=R) S, !TableDbLaws (R:=R') S} := {
  other_all s (q : Select R) : db_tables (R:=R') (db_all q s).2 = db_tables (R:=R') s;
  other_transaction s (l : list (Stmt R)) : db_tables (R:=R') (db_transaction l s).2 = db_tables (R:=R') s;
}.

(** ** migration/*.rs *)
(** The statements of the migrations: the tables and columns they name, and the value
    that a new column gets in the rows that are there.  Types and constraints are left out. *)
Module Schema.
Inductive TableName :=
| Events | RuntimeCursors | PeerTrust | PeerRotationAudit | Subscriptions | LocalIdentity | LocalIdentityLegacy
| MeshIdentity | AccountRegistry | AccountRegistryGistSentinel | Beacons | BeaconChannels | RefreshLocks | BusEvents
| BusEpoch | ScopedState | EventHeaders | BusEventHeaders.
#[export] Instance TableName_eq : EqDecision TableName. Proof. solve_decision. Defined.
Inductive Default := Null | False_ | Zero | Text (s : string).
#[export] Instance Default_eq : EqDecision Default. Proof. solve_decision. Defined.
Inductive Ddl :=
| CreateTable (table : TableName) (if_not_exists : bool) (columns : list string)
| CreateIndex (name : string) (table : TableName) (columns : list string)
| AddColumn (table : TableName) (column : string) (value : Default)
| RenameTable (table to : TableName)
| CopyRows (from to : TableName) (columns : list string)
| DropTable (table : TableName).
#[local] Open Scope string_scope.

Definition m20260519_000001_create_events : list Ddl :=
  [ CreateTable Events true ["event_id"; "room_id"; "peer_id"; "client_id"; "kind"; "occurred_at_ms"; "lamport"; "target";
      "headers"; "body"; "attachment"; "receipt"; "metadata"];
    CreateIndex "idx_events_lamport_event_id" Events ["lamport"; "event_id"];
    CreateIndex "idx_events_room_lamport_event_id" Events ["room_id"; "lamport"; "event_id"] ].
Definition m20260522_000002_create_runtime_cursors : list Ddl :=
  [ CreateTable RuntimeCursors true ["consumer_id"; "lamport"; "event_id"; "updated_at_ms"] ].
Definition m20260522_000003_create_peer_trust : list Ddl :=
  [ CreateTable PeerTrust true ["peer_id"; "pubkey_b64"; "added_at_ms"];
    CreateTable PeerRotationAudit true ["peer_id"; "sequence"; "prev_pubkey_b64"; "next_pubkey_b64"; "rotated_at_ms"; "applied_at_ms"];
    CreateIndex "idx_peer_rotation_audit_peer_sequence" PeerRotationAudit ["peer_id"; "sequence"] ].
Definition m20260522_000004_create_subscriptions : list Ddl :=
  [ CreateTable Subscriptions true ["channel_name"; "room_id"; "wire"; "joined_at_ms"; "is_default"; "parted"];
    CreateIndex "idx_subscriptions_default" Subscriptions ["is_default"] ].
Definition m20260522_000005_create_local_identity : list Ddl :=
  [ CreateTable LocalIdentity true ["id"; "peer_id"; "client_id"; "version"; "created_at_ms"] ].
Definition m20260522_000006_create_mesh_identity : list Ddl :=
  [ CreateTable MeshIdentity true ["scope"; "identity"; "source"; "resolved_at_ms"; "ttl_ms"] ].
Definition m20260522_000007_create_account_registry : list Ddl :=
  [ CreateTable AccountRegistry true ["mesh_identity"; "schema_version"; "generated_at_ms"; "document_json"; "updated_at_ms"];
    CreateTable AccountRegistryGistSentinel true ["mesh_identity"; "gist_id"; "updated_at_ms"] ].
Definition m20260522_000008_create_beacons : list Ddl :=
  [ CreateTable Beacons true ["mesh_identity"; "peer_id"; "scope_home"; "pid"; "published_at_ms"; "heartbeat_at_ms"];
    CreateTable BeaconChannels true ["mesh_identity"; "peer_id"; "channel_name"];
    CreateIndex "idx_beacons_mesh_heartbeat" Beacons ["mesh_identity"; "heartbeat_at_ms"] ].
Definition m20260522_000009_add_local_identity_card : list Ddl :=
  ((λ column, AddColumn LocalIdentity column (Text "")) <$> ["name"; "pronouns"; "role"; "bio"; "status"; "fingerprint"]) ++
  [ AddColumn LocalIdentity "integrations_json" (Text "{}") ].
Definition m20260523_000010_create_refresh_locks : list Ddl :=
  [ CreateTable RefreshLocks true ["mesh_identity"; "held_at_ms"; "holder_pid"] ].
Definition m20260526_000011_create_bus_events : list Ddl :=
  [ CreateTable BusEvents true ["event_id"; "room_id"; "epoch"; "counter"; "kind"; "delivery"; "target"; "correlation_id";
      "coalesce_key"; "headers"; "payload"; "peer_id"; "client_id"; "occurred_at_ms"];
    CreateIndex "idx_bus_events_room_epoch_counter_event_id" BusEvents ["room_id"; "epoch"; "counter"; "event_id"] ].
Definition m20260527_000012_create_bus_epoch : list Ddl :=
  [ CreateTable BusEpoch true ["id"; "epoch"] ].
Definition m20260528_000013_add_local_identity_agent_name : list Ddl :=
  [ AddColumn LocalIdentity "agent_name" (Text "default") ].
Definition COPY_COLUMNS : list string :=
  ["id"; "peer_id"; "client_id"; "version"; "created_at_ms"; "name"; "pronouns"; "role"; "bio"; "status"; "fingerprint";
   "integrations_json"; "agent_name"].
Definition m20260528_000014_drop_local_identity_singleton_check : list Ddl :=
  [ RenameTable LocalIdentity LocalIdentityLegacy;
    CreateTable LocalIdentity false COPY_COLUMNS;
    CopyRows LocalIdentityLegacy LocalIdentity COPY_COLUMNS;
    DropTable LocalIdentityLegacy;
    CreateIndex "idx_local_identity_agent_name" LocalIdentity ["agent_name"] ].
Definition m20260529_000015_add_peer_trust_tier : list Ddl := [ AddColumn PeerTrust "tier" (Text "untrusted") ].
Definition m20260610_000016_add_peer_trust_endpoints : list Ddl := [ AddColumn PeerTrust "endpoints_json" Null ].
Definition m20260614_000017_add_peer_trust_last_seen : list Ddl := [ AddColumn PeerTrust "last_seen_ms" Null ].
Definition m20260629_000018_create_scoped_state : list Ddl :=
  [ CreateTable ScopedState true ["scope_key"; "key"; "value_json"; "version"; "updated_at_ms"; "updated_by"] ].
Definition m20260723_000019_add_peer_trust_endpoints_stamp : list Ddl :=
  [ AddColumn PeerTrust "endpoints_advertised_at_ms" Null ].
Definition m20260723_000020_add_peer_trust_endpoints_peer : list Ddl := [ AddColumn PeerTrust "endpoints_peer_id" Null ].
Definition m20261029_000021_add_event_addressing : list Ddl :=
  ([Events; BusEvents] ≫= λ table,
    [ AddColumn table "addressed_peer" Null; AddColumn table "leading_mention" False_; AddColumn table "derived_version" Zero ]) ++
  [ CreateIndex "idx_events_room_addressed_peer" Events ["room_id"; "addressed_peer"; "lamport"; "event_id"];
    CreateIndex "idx_events_room_leading_mention" Events ["room_id"; "leading_mention"; "lamport"; "event_id"];
    CreateIndex "idx_bus_events_room_addressed_peer" BusEvents ["room_id"; "addressed_peer"; "epoch"; "counter"; "event_id"];
    CreateIndex "idx_bus_events_room_leading_mention" BusEvents ["room_id"; "leading_mention"; "epoch"; "counter"; "event_id"];
    CreateIndex "idx_events_derived_version" Events ["derived_version"];
    CreateIndex "idx_bus_events_derived_version" BusEvents ["derived_version"] ].
Definition m20261029_000022_create_event_headers : list Ddl :=
  [(EventHeaders, "idx_event_headers_key_value"); (BusEventHeaders, "idx_bus_event_headers_key_value")] ≫= λ '(table, index),
    [ CreateTable table true ["event_id"; "key"; "value"]; CreateIndex index table ["key"; "value"; "event_id"] ].

(** [Migrator::migrations], in order, by name. *)
Definition all : list (string * list Ddl) :=
  [ ("m20260519_000001_create_events", m20260519_000001_create_events);
    ("m20260522_000002_create_runtime_cursors", m20260522_000002_create_runtime_cursors);
    ("m20260522_000003_create_peer_trust", m20260522_000003_create_peer_trust);
    ("m20260522_000004_create_subscriptions", m20260522_000004_create_subscriptions);
    ("m20260522_000005_create_local_identity", m20260522_000005_create_local_identity);
    ("m20260522_000006_create_mesh_identity", m20260522_000006_create_mesh_identity);
    ("m20260522_000007_create_account_registry", m20260522_000007_create_account_registry);
    ("m20260522_000008_create_beacons", m20260522_000008_create_beacons);
    ("m20260522_000009_add_local_identity_card", m20260522_000009_add_local_identity_card);
    ("m20260523_000010_create_refresh_locks", m20260523_000010_create_refresh_locks);
    ("m20260526_000011_create_bus_events", m20260526_000011_create_bus_events);
    ("m20260527_000012_create_bus_epoch", m20260527_000012_create_bus_epoch);
    ("m20260528_000013_add_local_identity_agent_name", m20260528_000013_add_local_identity_agent_name);
    ("m20260528_000014_drop_local_identity_singleton_check", m20260528_000014_drop_local_identity_singleton_check);
    ("m20260529_000015_add_peer_trust_tier", m20260529_000015_add_peer_trust_tier);
    ("m20260610_000016_add_peer_trust_endpoints", m20260610_000016_add_peer_trust_endpoints);
    ("m20260614_000017_add_peer_trust_last_seen", m20260614_000017_add_peer_trust_last_seen);
    ("m20260629_000018_create_scoped_state", m20260629_000018_create_scoped_state);
    ("m20260723_000019_add_peer_trust_endpoints_stamp", m20260723_000019_add_peer_trust_endpoints_stamp);
    ("m20260723_000020_add_peer_trust_endpoints_peer", m20260723_000020_add_peer_trust_endpoints_peer);
    ("m20261029_000021_add_event_addressing", m20261029_000021_add_event_addressing);
    ("m20261029_000022_create_event_headers", m20261029_000022_create_event_headers) ].
(** The columns of the event tables that came after the tables, and what a row from before
    them holds: it was not derived. *)
Definition underived_column (column : string) : option Default :=
  if decide (column = "addressed_peer") then Some Null
  else if decide (column = "leading_mention") then Some False_
  else if decide (column = "derived_version") then Some Zero
  else None.
Definition event_table (t : TableName) : bool :=
  bool_decide (t ∈ [Events; EventHeaders; BusEvents; BusEventHeaders]).
(** The statement leaves the rows of the event tables as they are, read with
    [underived_column] where the column is not there yet. *)
Definition keeps_events (d : Ddl) : bool :=
  match d with
  | CreateTable _ if_not_exists _ => true
  | CreateIndex _ _ _ => true
  | AddColumn t column value => negb (event_table t) || bool_decide (underived_column column = Some value)
  | RenameTable t to => negb (event_table t || event_table to)
  | CopyRows _ to _ => negb (event_table to)
  | DropTable t => negb (event_table t)
  end.
End Schema.
Definition migrations : list rstring := str ∘ fst <$> Schema.all.
Definition ups (version : rstring) : list Schema.Ddl :=
  match List.find (λ m, bool_decide (str m.1 = version)) Schema.all with Some m => m.2 | None => [] end.

(** The version table of sea-orm-migration, one statement at a time, and transactions:
    [db_rollback s t] is the database after the transaction that began at [s] and got to
    [t] is abandoned. *)
Class MigrationDb (S : Type) := {
  applied_count : ST S DbErr N;
  install : ST S DbErr unit;
  applied_versions : ST S DbErr (list rstring);
  pending_migrations : ST S DbErr (list rstring);
  db_ddl : Schema.Ddl → ST S DbErr unit;
  record_version : rstring → ST S DbErr unit;
  db_begin : ST S DbErr unit;
  db_commit : ST S DbErr unit;
  db_rollback : S → S → S;
}.
Section migrate.
Context {S : Type} `{!MigrationDb S}.
Definition unknown_applied : ST S StoreError (list rstring) :=
  _ ← map_db Database install;
  versions ← map_db Database applied_versions;
  mret (filter (λ version, version ∉ migrations) versions).
Definition refuse_if_ahead : ST S StoreError unit :=
  applied ← map_db Database applied_count;
  if (applied <=? N.of_nat (length migrations))%N then mret tt
  else (versions ← unknown_applied; st_throw (AheadOfBinary versions)).
(** [Migrator::up]: each pending migration, then its version row. *)
Definition migrator_up : ST S DbErr unit :=
  _ ← install;
  pending ← pending_migrations;
  st_iter (λ version, _ ← st_iter db_ddl (ups version); record_version version) pending.
(** [up] in a transaction, committed. *)
Definition migrate_up : ST S DbErr unit := λ s,
  match db_begin s with
  | (Err e, s) => (Err e, s)
  | (Ok _, s) =>
      match (_ ← migrator_up; db_commit) s with
      | (Ok _, s') => (Ok tt, s')
      | (Err e, s') => (Err e, db_rollback s s')
      end
  end.
Definition apply_migrations `{!JsonValue, !TextEnv, !HeadersJson, !BusCodec, !EventCodec}
    `{!TableDb EventRow S, !TableDb BusRow S} (fuel : nat) : ST S StoreError bool :=
  ahead ← unknown_applied;
  match ahead with
  | _ :: _ => st_throw (AheadOfBinary ahead)
  | [] =>
      pending ← map_db Database pending_migrations;
      _ ← match pending with [] => mret tt | _ => map_db Database migrate_up end;
      derive_pending fuel
  end.
End migrate.

(** The documented behaviour of the version table and of SQLite's transactions and data
    definition: the table names each applied migration once; a read changes neither it nor
    the events; a data definition changes no rows but those of the tables it renames,
    fills or drops, and adds a column with its default; a transaction that is abandoned
    leaves what there was at its beginning; a query or write of events does not touch the
    versions. *)
Class MigrationLaws (S : Type) `{!MigrationDb S} `{!JsonValue, !TextEnv, !HeadersJson, !BusCodec, !EventCodec}
    `{!TableDb EventRow S, !TableDb BusRow S, !TableDbLaws (R:=EventRow) S, !TableDbLaws (R:=BusRow) S} := {
  db_versions : S → list rstring;
  versions_NoDup s : NoDup (db_versions s);
  law_count_ok s n : (applied_count s).1 = Ok n → n = N.of_nat (length (db_versions s));
  law_versions_ok s l : (applied_versions s).1 = Ok l → l ≡ₚ db_versions s;
  law_pending_ok s l : (pending_migrations s).1 = Ok l → l = filter (λ m, m ∉ db_versions s) migrations;
  law_record s v : db_versions (record_version v s).2 = db_versions s ∨
    ∀ w, w ∈ db_versions (record_version v s).2 ↔ w ∈ db_versions s ∨ w = v;
  law_record_ok s v : (record_version v s).1 = Ok tt →
    ∀ w, w ∈ db_versions (record_version v s).2 ↔ w ∈ db_versions s ∨ w = v;
  law_ddl_versions s d : db_versions (db_ddl d s).2 = db_versions s;
  law_read_versions s s' :
    s' ∈ [(applied_count s).2; (install s).2; (applied_versions s).2; (pending_migrations s).2; (db_begin s).2; (db_commit s).2] →
    db_versions s' = db_versions s;
  law_read_tables s s' :
    s' ∈ [(applied_count s).2; (install s).2; (applied_versions s).2; (pending_migrations s).2; (db_begin s).2; (db_commit s).2] →
    db_tables (R:=EventRow) s' = db_tables (R:=EventRow) s ∧ db_tables (R:=BusRow) s' = db_tables (R:=BusRow) s;
  law_record_tables s v :
    db_tables (R:=EventRow) (record_version v s).2 = db_tables (R:=EventRow) s ∧
    db_tables (R:=BusRow) (record_version v s).2 = db_tables (R:=BusRow) s;
  law_ddl_tables s d : Schema.keeps_events d = true →
    db_tables (R:=EventRow) (db_ddl d s).2 = db_tables (R:=EventRow) s ∧
    db_tables (R:=BusRow) (db_ddl d s).2 = db_tables (R:=BusRow) s;
  law_rollback s t :
    db_versions (db_rollback s t) = db_versions s ∧
    db_tables (R:=EventRow) (db_rollback s t) = db_tables (R:=EventRow) s ∧
    db_tables (R:=BusRow) (db_rollback s t) = db_tables (R:=BusRow) s;
  versions_all_events s (q : Select EventRow) : db_versions (db_all q s).2 = db_versions s;
  versions_all_bus s (q : Select BusRow) : db_versions (db_all q s).2 = db_versions s;
  versions_write_events s (l : list (Stmt EventRow)) : db_versions (db_transaction l s).2 = db_versions s;
  versions_write_bus s (l : list (Stmt BusRow)) : db_versions (db_transaction l s).2 = db_versions s;
}.
