(* ===== verification/StoreDeriveThms.v ===== *)
(** The derivation pass: it ends, a batch leaves every row of it current and the
    others as they were, and an interrupted pass is resumed by the next; then
    a whole batch, and the pass over both event tables. *)
From stdpp Require Import base gmap strings list sorting numbers.
From Stdlib Require Import Lia.
From S2P Require Import Prelude.
From S2P Require Import Sorted.
From S2P Require Import WorkModel.
From S2P Require Import CoreTranscript.
From S2P Require Import CoreHistory.
From S2P Require Import StoreBase.
From S2P Require Import StoreTable.
From S2P Require Import StoreTableThms.
From S2P Require Import StoreTablePages.
From S2P Require Import StoreDerive.

(** What the derivation relies on of a table: a row's target, content and headers
    decode to those of its event, and [set_derived] writes the three columns. *)
Class DerivedModel (R E : Type) `{!JsonValue, !HeadersJson, !EventTable R, !RowModel R E} := {
  dm_version r : row_ok r → t_derived_version r = DERIVED_VERSION;
  dm_headers r : row_ok r → headers_from_json (t_headers r) = Ok (ev_headers (event_of r));
  dm_addressing r : row_ok r → table_addressing (t_target r) (t_content r) = Ok (ev_addressing (event_of r));
  sd_id p l v r : t_event_id (set_derived p l v r) = t_event_id r;
  sd_target p l v r : t_target (set_derived p l v r) = t_target r;
  sd_headers p l v r : t_headers (set_derived p l v r) = t_headers r;
  sd_content p l v r : t_content (set_derived p l v r) = t_content r;
  sd_peer p l v r : t_addressed_peer (set_derived p l v r) = p;
  sd_leading p l v r : t_leading_mention (set_derived p l v r) = l;
  sd_version p l v r : t_derived_version (set_derived p l v r) = v;
  sd_twice p l v p' l' v' r : set_derived p l v (set_derived p' l' v' r) = set_derived p l v r;
  sd_self r : set_derived (t_addressed_peer r) (t_leading_mention r) (t_derived_version r) r = r;
  sd_event p l v r : event_of (set_derived p l v r) = event_of r;
}.

Lemma run_stmts_app {R} `{!JsonValue, !EventTable R} (t t1 t2 : Tables R) l1 l2 ns1 ns2 :
  run_stmts t l1 = Some (t1, ns1) → run_stmts t1 l2 = Some (t2, ns2) → run_stmts t (l1 ++ l2) = Some (t2, ns1 ++ ns2).
Proof.
  revert t ns1. induction l1 as [|s l1 IH]; intros t ns1; cbn [run_stmts app].
  { by intros [= -> <-]. }
  destruct (run_stmt t s) as [[t' n]|]; [|done]. cbn [mbind option_bind].
  destruct (run_stmts t' l1) as [[t'' ns]|] eqn:Hr; [|done]. cbn. intros [= -> <-] H2. by rewrite (IH t' ns Hr H2).
Qed.

Section derive.
Context {R E : Type} {JV : JsonValue} {HJ : HeadersJson} {ET : EventTable R} {RM : RowModel R E} {DM : DerivedModel R E}.
Implicit Types (t : Tables R) (r : R).

(** ** Rows *)
(** A row some binary wrote: right but for its derived columns. *)
Definition written r : Prop := ∃ p l v, row_ok (set_derived p l v r).
Definition derived r : R :=
  set_derived (uuid <$> ad_peer (ev_addressing (event_of r))) (leading_mention (ev_addressing (event_of r))) DERIVED_VERSION r.
Lemma written_spec r : written r →
  row_ok (derived r) ∧ headers_from_json (t_headers r) = Ok (ev_headers (event_of r)) ∧
  table_addressing (t_target r) (t_content r) = Ok (ev_addressing (event_of r)).
Proof.
  intros (p & l & v & Hr). pose proof (dm_headers _ Hr) as Hh. pose proof (dm_addressing _ Hr) as Ha.
  rewrite sd_headers, sd_event in Hh. rewrite sd_target, sd_content, sd_event in Ha. split_and!; [|done..].
  assert (derived r = set_derived p l v r) as ->; [|done]. unfold derived.
  pose proof (rm_peer _ Hr) as Hp. pose proof (rm_leading _ Hr) as Hl. pose proof (dm_version _ Hr) as Hv.
  rewrite sd_peer, sd_event in Hp. rewrite sd_leading, sd_event in Hl. rewrite sd_version in Hv. by rewrite Hp, Hl, Hv.
Qed.
Lemma row_ok_written r : row_ok r → written r.
Proof. intros Hr. exists (t_addressed_peer r), (t_leading_mention r), (t_derived_version r). by rewrite sd_self. Qed.
Lemma derived_event r : event_of (derived r) = event_of r.
Proof. apply sd_event. Qed.
Definition owes r : bool := (t_derived_version r <? DERIVED_VERSION)%Z.
Lemma derived_current r : owes (derived r) = false.
Proof. unfold owes, derived. by rewrite sd_version, Z.ltb_irrefl. Qed.

(** ** Tables *)
(** Every row is one some binary wrote; one that is current is exact, with its header
    rows.  This is what holds between the batches of a pass. *)
Record tables_written t : Prop := {
  tw_id id r : tb_rows t !! id = Some r → t_event_id r = id;
  tw_written id r : tb_rows t !! id = Some r → written r;
  tw_current id r : tb_rows t !! id = Some r → owes r = false →
    row_ok r ∧ ∀ k, tb_headers t !! (id, k) = ev_headers (event_of r) !! k;
  tw_headers id k : is_Some (tb_headers t !! (id, k)) → is_Some (tb_rows t !! id);
  tw_str id r k v : tb_rows t !! id = Some r → ev_headers (event_of r) !! k = Some v → is_str v;
}.
Definition owed t : nat := size (filter (λ kv, owes kv.2 = true) (tb_rows t)).
Lemma owed_none t : owed t = 0%nat ↔ ∀ id r, tb_rows t !! id = Some r → owes r = false.
Proof.
  unfold owed. rewrite map_size_empty_iff, map_empty_filter. split.
  - intros Hf id r Hr. apply not_true_iff_false. by apply (Hf id r Hr).
  - intros Hf id r Hr. cbn. apply not_true_iff_false. by eapply Hf.
Qed.
Lemma written_ok t : tables_written t → owed t = 0%nat → tables_ok t.
Proof.
  intros [Hid Hw Hc Hh Hs] Ho. pose proof (proj1 (owed_none t) Ho) as Hn. split.
  - intros id r Hr. split; [|by apply Hid]. by apply (Hc id r Hr), (Hn id).
  - intros id k. destruct (tb_rows t !! id) as [r|] eqn:Hr; [by apply (Hc id r Hr), (Hn id)|].
    apply eq_None_not_Some. intros Hk%Hh. rewrite Hr in Hk. by destruct Hk.
  - exact Hs.
Qed.
Lemma ok_written t : tables_ok t → tables_written t.
Proof.
  intros Hok. split.
  - intros id r Hr. by apply (t_rows_ok _ Hok).
  - intros id r Hr. by apply row_ok_written, (t_rows_ok _ Hok id).
  - intros id r Hr _. split; [by apply (t_rows_ok _ Hok id)|]. intros k. by rewrite (t_headers_ok _ Hok), Hr.
  - intros id k [v Hv]. rewrite (t_headers_ok _ Hok) in Hv. by destruct (tb_rows t !! id).
  - apply (t_str _ Hok).
Qed.

(** The table of a writer that knew nothing of the derived data. *)
Definition underived (rows : list R) : Tables R :=
  MkTables (list_to_map ((λ r, (t_event_id r, set_derived None false 0 r)) <$> rows)) ∅.
Lemma underived_written (rows : list R) :
  (∀ r, r ∈ rows → row_ok r ∧ ∀ k v, ev_headers (event_of r) !! k = Some v → is_str v) → tables_written (underived rows).
Proof.
  intros Hr.
  assert (∀ id x, tb_rows (underived rows) !! id = Some x →
    ∃ r, r ∈ rows ∧ id = t_event_id r ∧ x = set_derived None false 0 r) as Hl.
  { intros id x Hx%elem_of_list_to_map_2. apply list_elem_of_fmap in Hx as (r & [= -> ->] & Hin). eauto. }
  split.
  - intros id x (r & _ & -> & ->)%Hl. apply sd_id.
  - intros id x (r & Hin & _ & ->)%Hl. exists (t_addressed_peer r), (t_leading_mention r), (t_derived_version r).
    rewrite sd_twice, sd_self. by apply Hr.
  - intros id x (r & _ & _ & ->)%Hl. unfold owes. by rewrite sd_version.
  - intros id k [v Hv]. cbn in Hv. by rewrite lookup_empty in Hv.
  - intros id x k v (r & Hin & _ & ->)%Hl. rewrite sd_event. by apply Hr.
Qed.

(** ** The groups of a batch *)
Definition batch_add (b : Batch) r : Batch :=
  MkBatch (b_ids b ++ [t_event_id r]) (grouped_add (b_grouped b) (t_event_id r) (ev_addressing (event_of r)))
    (b_headers b ++ [row_headers r]).
Lemma decode_batch_ok (rows : list R) b :
  (∀ r, r ∈ rows → written r) → decode_batch b rows = Ok (foldl batch_add b rows).
Proof.
  revert b. induction rows as [|r rows IH]; intros b Hw; [done|]. cbn [decode_batch foldl].
  destruct (written_spec r (Hw r ltac:(by left))) as (_ & -> & ->). cbn. apply IH. intros. apply Hw. by right.
Qed.
Definition batch_of (rows : list R) : Batch := foldl batch_add (MkBatch [] Grouped_default []) rows.
Definition grouped_of (g : Grouped) (id : N) (p : N) : Prop := ∃ ids, peers g !! p = Some ids ∧ id ∈ ids.
Lemma grouped_add_peers g i ad id p :
  grouped_of (grouped_add g i ad) id p ↔ grouped_of g id p ∨ (id = i ∧ uuid <$> ad_peer ad = Some p).
Proof.
  unfold grouped_of, grouped_add. cbn. destruct (ad_peer ad) as [q|]; cbn; [|naive_solver].
  destruct (decide (uuid q = p)) as [<-|Hne].
  - rewrite lookup_insert_eq. split.
    + intros (ids & [= <-] & Hin). rewrite elem_of_app, list_elem_of_singleton in Hin.
      destruct Hin as [Hin|Hin]; [left|by right]. destruct (peers g !! uuid q) as [l|]; cbn in Hin; [by exists l|].
      by apply elem_of_nil in Hin.
    + intros [(ids & -> & Hin)|[-> _]]; cbn; (eexists; split; [reflexivity|]); rewrite elem_of_app, list_elem_of_singleton;
        [by left|by right].
  - rewrite lookup_insert_ne by done. naive_solver.
Qed.
Lemma grouped_add_leading g i ad id :
  id ∈ leading (grouped_add g i ad) ↔ id ∈ leading g ∨ (id = i ∧ leading_mention ad = true).
Proof.
  unfold grouped_add. cbn. destruct (leading_mention ad); rewrite ?elem_of_app, ?list_elem_of_singleton; naive_solver.
Qed.
Lemma batch_of_spec (rows : list R) :
  b_ids (batch_of rows) = t_event_id <$> rows ∧
  b_headers (batch_of rows) = row_headers <$> rows ∧
  (∀ id p, grouped_of (b_grouped (batch_of rows)) id p ↔
    ∃ r, r ∈ rows ∧ t_event_id r = id ∧ uuid <$> ad_peer (ev_addressing (event_of r)) = Some p) ∧
  (∀ id, id ∈ leading (b_grouped (batch_of rows)) ↔
    ∃ r, r ∈ rows ∧ t_event_id r = id ∧ leading_mention (ev_addressing (event_of r)) = true).
Proof.
  unfold batch_of. induction rows as [|r rows (IHi & IHh & IHp & IHl)] using rev_ind.
  { split_and!; [done..| |]; intros id; [intros p|]; split; [intros (? & [=] & _)|set_solver|set_solver|set_solver]. }
  rewrite foldl_app. cbn [foldl batch_add b_ids b_headers b_grouped]. rewrite IHi, IHh, !fmap_app. split_and!; [done..| |].
  - intros id p. rewrite grouped_add_peers, IHp. set_solver.
  - intros id. rewrite grouped_add_leading, IHl. set_solver.
Qed.

(** ** The statements of a batch *)
Definition update_all (us : list ((R → R) * list N)) (id : N) r : R :=
  foldl (λ r u, if decide (id ∈ u.2) then u.1 r else r) r us.
Lemma run_updates us t :
  ∃ ns, run_stmts t ((λ u, UpdateRows u.1 u.2) <$> us) =
    Some (MkTables (map_imap (λ id r, Some (update_all us id r)) (tb_rows t)) (tb_headers t), ns).
Proof.
  revert t. induction us as [|u us IH]; intros t.
  { exists []. cbn. destruct t as [rows hs]. cbn. do 3 f_equal. symmetry. apply map_eq. intros i.
    rewrite map_lookup_imap. by destruct (rows !! i). }
  cbn [fmap list_fmap run_stmts run_stmt mbind option_bind].
  destruct (IH (MkTables (map_imap (λ id r, Some (if decide (id ∈ u.2) then u.1 r else r)) (tb_rows t)) (tb_headers t)))
    as [ns ->]. cbn. eexists. do 3 f_equal. apply map_eq. intros i. rewrite !map_lookup_imap.
  by destruct (tb_rows t !! i).
Qed.
Lemma update_peers (gs : list (N * list N)) id r q :
  (∀ g, g ∈ gs → id ∈ g.2 → q = Some g.1) → (∀ p, q = Some p → ∃ ids, (p, ids) ∈ gs ∧ id ∈ ids) →
  update_all ((λ g, (set_addressed_peer g.1, g.2)) <$> gs) id r = match q with Some p => set_addressed_peer p r | None => r end.
Proof.
  intros Hq Hp. unfold update_all.
  assert (∀ r, (∀ g, g ∈ gs → id ∉ g.2) → foldl (λ r u, if decide (id ∈ u.2) then u.1 r else r) r
    ((λ g, (set_addressed_peer g.1, g.2)) <$> gs) = r) as Hnone.
  { clear. induction gs as [|g gs IH]; intros r Hn; [done|]. cbn [fmap list_fmap foldl fst snd].
    rewrite decide_False by (apply Hn; by left). apply IH. intros. apply Hn. by right. }
  destruct q as [p|]; [|apply Hnone; by intros g Hg ?%(Hq g Hg)].
  destruct (Hp p eq_refl) as (ids & Hin & Hid). clear Hp Hnone. revert r. induction gs as [|g gs IH]; intros r.
  { by apply elem_of_nil in Hin. }
  assert (∀ x, foldl (λ r u, if decide (id ∈ u.2) then u.1 r else r) (set_addressed_peer p x) ((λ g, (set_addressed_peer g.1, g.2)) <$> gs) = set_addressed_peer p x)
    as Hstay.
  { assert (∀ g, g ∈ gs → id ∈ g.2 → Some p = Some g.1) as Hq' by (intros; apply Hq; [by right|done]).
    clear -Hq' DM. induction gs as [|g gs IH]; intros x; [done|]. cbn [fmap list_fmap foldl fst snd].
    destruct (decide _) as [Hg|]; [|apply IH; intros; apply Hq'; [by right|done]].
    assert (p = g.1) as <- by (assert (Some p = Some g.1) as [=] by (apply Hq'; [by left|done]); done).
    assert (set_addressed_peer p (set_addressed_peer p x) = set_addressed_peer p x) as ->.
    { unfold set_addressed_peer. by rewrite sd_twice, sd_leading, sd_version. }
    apply IH. intros; apply Hq'; [by right|done]. }
  cbn [fmap list_fmap foldl fst snd]. destruct (decide (id ∈ g.2)) as [Hg|Hg].
  - assert (Some p = Some g.1) as [= <-] by (apply Hq; [by left|done]). apply Hstay.
  - apply IH; [intros; apply Hq; [by right|done]|]. apply elem_of_cons in Hin as [<-|?]; [done|done].
Qed.
End derive.

(** ** The header rows of many events *)
Lemma elem_header_rows_all (evs : list (N * Headers)) i k v :
  ((i, k), v) ∈ header_rows evs ↔ ∃ hs, (i, hs) ∈ evs ∧ hs !! k = Some v.
Proof.
  induction evs as [|[j hs] evs IH].
  - split; [by intros ?%elem_of_nil|by intros (? & ?%elem_of_nil & _)].
  - change ((j, hs) :: evs) with ([(j, hs)] ++ evs). rewrite header_rows_app, elem_of_app, elem_header_rows, IH.
    split; [intros [[-> ?]|(x & ? & ?)]; set_solver|].
    intros (x & [[= -> ->]|?]%elem_of_cons & ?); [by left|right; eauto].
Qed.
Lemma header_rows_NoDup (evs : list (N * Headers)) : NoDup evs.*1 → NoDup (header_rows evs).*1.
Proof.
  induction evs as [|[j hs] evs IH]; intros Hn; [apply NoDup_nil_2|]. rewrite fmap_cons in Hn.
  apply list.NoDup_cons in Hn as [Hj Hn]. change ((j, hs) :: evs) with ([(j, hs)] ++ evs).
  rewrite header_rows_app, fmap_app. apply list.NoDup_app. split_and!; [apply header_keys_NoDup| |by apply IH].
  intros [i k] ([[i1 k1] v1] & [= <- <-] & [-> _]%elem_header_rows)%list_elem_of_fmap
    ([[i2 k2] v2] & [= <- <-] & (hs' & Hin & _)%elem_header_rows_all)%list_elem_of_fmap.
  apply Hj. by apply (list_elem_of_fmap_2 fst) in Hin.
Qed.

Section batch.
Context {R E : Type} {JV : JsonValue} {HJ : HeadersJson} {ET : EventTable R} {RM : RowModel R E} {DM : DerivedModel R E}.
Implicit Types (t : Tables R) (r : R).

(** ** The tables after a batch *)
Section effect.
Context (t : Tables R) (rows : list R).
Hypothesis Ht : tables_written t.
Hypothesis Hrows : ∀ r, r ∈ rows → tb_rows t !! t_event_id r = Some r.
Hypothesis Hnodup : NoDup (t_event_id <$> rows).
#[local] Abbreviation ids := (t_event_id <$> rows).

Lemma row_in_batch id r : tb_rows t !! id = Some r → id ∈ ids ↔ r ∈ rows.
Proof using Hrows Ht DM.
  intros Hr. rewrite list_elem_of_fmap. split.
  - intros (x & -> & Hx). pose proof (Hrows x Hx) as Hl. rewrite Hr in Hl. by injection Hl as <-.
  - intros Hx. exists r. split; [|done]. symmetry. by apply (tw_id _ Ht).
Qed.
Lemma batch_peer id r p : tb_rows t !! id = Some r →
  grouped_of (b_grouped (batch_of rows)) id p ↔ r ∈ rows ∧ uuid <$> ad_peer (ev_addressing (event_of r)) = Some p.
Proof using Hrows Ht DM.
  intros Hr. destruct (batch_of_spec rows) as (_ & _ & -> & _). split.
  - intros (x & Hx & <- & Hp). pose proof (Hrows x Hx) as Hl. rewrite Hr in Hl. by injection Hl as <-.
  - intros [Hx Hp]. exists r. split_and!; [done|by apply (tw_id _ Ht)|done].
Qed.
Lemma batch_leading id r : tb_rows t !! id = Some r →
  id ∈ leading (b_grouped (batch_of rows)) ↔ r ∈ rows ∧ leading_mention (ev_addressing (event_of r)) = true.
Proof using Hrows Ht DM.
  intros Hr. destruct (batch_of_spec rows) as (_ & _ & _ & ->). split.
  - intros (x & Hx & <- & Hp). pose proof (Hrows x Hx) as Hl. rewrite Hr in Hl. by injection Hl as <-.
  - intros [Hx Hp]. exists r. split_and!; [done|by apply (tw_id _ Ht)|done].
Qed.

(** The updates, as one function of a row. *)
Definition batch_updates (b : Batch) : list ((R → R) * list N) :=
  [(clear_derived, b_ids b)]
  ++ ((λ g, (set_addressed_peer g.1, g.2)) <$> bt_entries (peers (b_grouped b)))
  ++ (if bool_decide (leading (b_grouped b) = []) then [] else [(set_leading, leading (b_grouped b))]).
Lemma batch_statements_updates b :
  batch_statements b = [DeleteHeaders (b_ids b)] ++ write_header_rows (b_headers b) ++
    ((λ u, UpdateRows u.1 u.2) <$> batch_updates b).
Proof.
  unfold batch_statements, batch_updates. rewrite !fmap_app, <- list_fmap_compose.
  by destruct (bool_decide _).
Qed.
Lemma update_leading (l : list N) id r :
  update_all (if bool_decide (l = []) then [] else [(set_leading, l)]) id r = if decide (id ∈ l) then set_leading r else r.
Proof.
  case_bool_decide as Hl; [|done]. subst l. by rewrite decide_False by apply not_elem_of_nil.
Qed.
Lemma update_all_app (a b : list ((R → R) * list N)) id r : update_all (a ++ b) id r = update_all b id (update_all a id r).
Proof. unfold update_all. apply foldl_app. Qed.
Lemma batch_update id r : tb_rows t !! id = Some r →
  update_all (batch_updates (batch_of rows)) id r = if decide (id ∈ ids) then derived r else r.
Proof using Hrows Ht DM.
  intros Hr. pose proof (row_in_batch id r Hr) as Hin. destruct (batch_of_spec rows) as (Hids & _).
  unfold batch_updates. rewrite !update_all_app, update_leading, Hids. cbn [update_all foldl fst snd].
  set (q := if decide (id ∈ ids) then uuid <$> ad_peer (ev_addressing (event_of r)) else None).
  rewrite (update_peers _ id _ q); [| |].
  - pose proof (batch_leading id r Hr) as Hlead. unfold q. destruct (decide (id ∈ ids)) as [Hi|Hi].
    + unfold derived, clear_derived, set_addressed_peer, set_leading.
      destruct (leading_mention (ev_addressing (event_of r))), (decide (id ∈ leading _));
        [|by exfalso; tauto|by exfalso; naive_solver|];
        destruct (ad_peer (ev_addressing (event_of r))) as [p|]; cbn;
        by rewrite ?sd_peer, ?sd_leading, ?sd_version, ?sd_twice, ?sd_leading, ?sd_version, ?sd_twice.
    + rewrite decide_False; [done|]. tauto.
  - intros [p l] Hg%elem_of_bt_entries Hid. cbn in Hid |- *.
    assert (grouped_of (b_grouped (batch_of rows)) id p) as [Hx Hp]%(batch_peer id r p Hr) by (by exists l).
    unfold q. by rewrite decide_True by (by apply Hin).
  - intros p Hp. unfold q in Hp. destruct (decide (id ∈ ids)) as [Hi|]; [|done].
    destruct (proj2 (batch_peer id r p Hr)) as (l & Hl & Hid); [by split; [apply Hin|]|].
    exists l. by rewrite elem_of_bt_entries.
Qed.

Definition derive_tables : Tables R :=
  MkTables (map_imap (λ id r, Some (if decide (id ∈ ids) then derived r else r)) (tb_rows t))
    (foldl insert_new (filter (λ kv, kv.1.1 ∉ ids) (tb_headers t)) (header_rows (row_headers <$> rows))).
Lemma run_batch : ∃ ns, run_stmts t (batch_statements (batch_of rows)) = Some (derive_tables, ns).
Proof using Hrows Ht DM.
  destruct (batch_of_spec rows) as (Hids & Hhd & _). rewrite batch_statements_updates.
  set (t1 := MkTables (tb_rows t) (filter (λ kv, kv.1.1 ∉ ids) (tb_headers t))).
  destruct (run_headers t1 (b_headers (batch_of rows))) as [ns2 H2].
  destruct (run_updates (batch_updates (batch_of rows))
    (MkTables (tb_rows t1) (foldl insert_new (tb_headers t1) (header_rows (b_headers (batch_of rows)))))) as [ns3 H3].
  eexists. eapply (run_stmts_app _ t1).
  - cbn [run_stmts run_stmt mbind option_bind]. rewrite Hids. reflexivity.
  - eapply run_stmts_app; [exact H2|]. rewrite H3. do 2 f_equal. unfold derive_tables. rewrite Hhd. f_equal.
    apply map_eq. intros id. rewrite !map_lookup_imap. unfold t1. cbn [tb_rows]. destruct (tb_rows t !! id) as [r|] eqn:Hr; [|done].
    cbn [mbind option_bind]. by rewrite (batch_update id r Hr).
Qed.

(** ** What the batch does *)
Lemma derive_rows id : tb_rows derive_tables !! id = (λ r, if decide (id ∈ ids) then derived r else r) <$> tb_rows t !! id.
Proof. cbn. rewrite map_lookup_imap. by destruct (tb_rows t !! id). Qed.
Lemma derive_headers id k :
  tb_headers derive_tables !! (id, k) =
    if decide (id ∈ ids) then tb_rows t !! id ≫= λ r, ev_headers (event_of r) !! k else tb_headers t !! (id, k).
Proof using Hrows Ht Hnodup.
  apply option_eq. intros v. cbn [derive_tables tb_headers].
  assert (NoDup (header_rows (row_headers <$> rows)).*1) as Hn.
  { apply header_rows_NoDup. by rewrite <- list_fmap_compose. }
  rewrite inserts_lookup, elem_header_rows_all, map_lookup_filter_Some, map_lookup_filter_None by exact Hn. cbn.
  destruct (decide (id ∈ ids)) as [Hi|Hi].
  - apply list_elem_of_fmap in Hi as (r & -> & Hr). rewrite (Hrows r Hr). cbn. split.
    + intros [[_ []]|[_ (hs & (x & [= Hid ->] & Hx)%list_elem_of_fmap & Hv)]].
      { by apply list_elem_of_fmap_2. }
      pose proof (Hrows x Hx) as Hl. rewrite <- Hid, (Hrows r Hr) in Hl. by injection Hl as <-.
    + intros Hv. right. split.
      * right. intros x _ Hn'. apply Hn'. by apply list_elem_of_fmap_2.
      * exists (ev_headers (event_of r)). split; [|done]. apply list_elem_of_fmap. by exists r.
  - split; [|by left]. intros [[? _]|[_ (hs & (x & [= -> _] & Hx)%list_elem_of_fmap & _)]]; [done|].
    destruct Hi. by apply list_elem_of_fmap_2.
Qed.
Lemma derive_written : tables_written derive_tables.
Proof using Hrows Ht Hnodup DM.
  assert (∀ id r, tb_rows derive_tables !! id = Some r → ∃ r0, tb_rows t !! id = Some r0 ∧ event_of r = event_of r0 ∧
    r = if decide (id ∈ ids) then derived r0 else r0) as Hd.
  { intros id r. rewrite derive_rows. destruct (tb_rows t !! id) as [r0|]; [|done]. cbn. intros [= <-]. exists r0.
    split_and!; [done| |done]. destruct (decide _); [apply derived_event|done]. }
  split.
  - intros id r (r0 & Hr & _ & ->)%Hd. pose proof (tw_id _ Ht _ _ Hr) as Hid.
    destruct (decide _); [by unfold derived; rewrite sd_id|done].
  - intros id r (r0 & Hr & _ & ->)%Hd. destruct (decide _); [|by apply (tw_written _ Ht id)].
    by apply row_ok_written, written_spec, (tw_written _ Ht id).
  - intros id r (r0 & Hr & He & ->)%Hd Ho. rewrite He. setoid_rewrite derive_headers. destruct (decide (id ∈ ids)) as [Hi|Hi].
    + split; [by apply written_spec, (tw_written _ Ht id)|]. intros k. by rewrite Hr.
    + by apply (tw_current _ Ht id).
  - intros id k. rewrite derive_headers, derive_rows. rewrite fmap_is_Some. destruct (decide (id ∈ ids)).
    + intros [v Hv]. destruct (tb_rows t !! id); [by eexists|done].
    + apply (tw_headers _ Ht).
  - intros id r k v (r0 & Hr & -> & _)%Hd. by apply (tw_str _ Ht id).
Qed.
Lemma derive_events e : e ∈ table_events derive_tables ↔ e ∈ table_events t.
Proof using DM.
  unfold table_events. rewrite !list_elem_of_fmap. setoid_rewrite elem_table_rows. setoid_rewrite derive_rows. split.
  - intros (x & -> & id & (r & Hr & ->)%fmap_Some_1). exists r. split; [|eauto]. destruct (decide _); [apply derived_event|done].
  - intros (r & -> & id & Hr). exists (if decide (id ∈ ids) then derived r else r).
    split; [symmetry; destruct (decide _); [apply derived_event|done]|]. exists id. by rewrite Hr.
Qed.
Lemma derive_owed : (∀ r, r ∈ rows → owes r = true) → rows ≠ [] → (owed derive_tables < owed t)%nat.
Proof using Hrows Ht DM.
  intros Ho Hne. apply map_subset_size. apply map_subset_alt. split.
  - apply map_subseteq_spec. intros id r. rewrite !map_lookup_filter_Some, derive_rows. cbn.
    intros [(r0 & Hr & ->)%fmap_Some_1 Hx]. destruct (decide _); [by rewrite (derived_current (R:=R) (E:=E)) in Hx|done].
  - assert (∃ r, r ∈ rows) as [r Hin] by (clear -Hne; destruct rows as [|r l]; [done|exists r; by left]).
    exists (t_event_id r). split.
    + apply map_lookup_filter_None. right. intros x. rewrite derive_rows, (Hrows r Hin). cbn.
      intros [= <-].
      destruct (decide _) as [_|Hni]; [by rewrite (derived_current (R:=R) (E:=E))|]. destruct Hni. by apply (list_elem_of_fmap_2 t_event_id).
    + exists r. apply map_lookup_filter_Some. split; [by apply Hrows|]. by apply Ho.
Qed.
End effect.
End batch.

Section run.
Context {R E S : Type} {JV : JsonValue} {HJ : HeadersJson} {ET : EventTable R} {RM : RowModel R E} {DM : DerivedModel R E}.
Context {DB : TableDb R S} {DL : TableDbLaws (R:=R) S}.
Implicit Types s : S.
#[local] Abbreviation tables s := (db_tables (R:=R) s).

(** What a pass keeps of a table, and what it works off. *)
Record derives (t t' : Tables R) : Prop := {
  dv_written : tables_written t';
  dv_events e : e ∈ table_events t' ↔ e ∈ table_events t;
  dv_owed : (owed t' ≤ owed t)%nat;
}.
Lemma derives_refl t : tables_written t → derives t t.
Proof. by split. Qed.
Lemma derives_trans t1 t2 t3 : derives t1 t2 → derives t2 t3 → derives t1 t3.
Proof. intros [? H1 ?] [? H2 ?]. split; [done| |lia]. intros e. by rewrite H2, H1. Qed.

Lemma owed_selected s rows : tables_written (tables s) → answers owed_query (tables s) rows →
  (∀ r, r ∈ rows → tb_rows (tables s) !! t_event_id r = Some r ∧ owes r = true) ∧ NoDup (t_event_id <$> rows) ∧
  (rows = [] → owed (tables s) = 0%nat).
Proof.
  intros Ht (all & Hp & Hl). cbn [limited sel_limit owed_query q_limit] in Hl.
  assert (∀ r, r ∈ all → tb_rows (tables s) !! t_event_id r = Some r ∧ owes r = true) as Hall.
  { intros r. rewrite Hp, elem_selected, elem_table_rows. intros [Ho [id Hr]]. split; [|exact Ho].
    by rewrite (tw_id _ Ht _ _ Hr). }
  assert (NoDup (t_event_id <$> all)) as Hn.
  { rewrite Hp. unfold selected. eapply sublist_NoDup; [|apply fmap_sublist, sublist_filter].
    unfold table_rows. rewrite (sort_by_perm (row_le t_key)), <- list_fmap_compose.
    rewrite (list_fmap_ext _ fst); [apply NoDup_fst_map_to_list|]. intros i [id r] Hl'%list_elem_of_lookup_2.
    apply elem_of_map_to_list in Hl'. by apply (tw_id _ Ht). }
  subst rows. split_and!.
  - intros r Hr%elem_of_take_in. by apply Hall.
  - rewrite list.fmap_take. eapply sublist_NoDup; [exact Hn|apply sublist_take].
  - intros Hnil. apply owed_none. intros id r Hr. apply not_true_iff_false. intros Ho.
    assert (r ∈ all) as Hin by (rewrite Hp, elem_selected, elem_table_rows; eauto).
    destruct all as [|x all]; [by apply elem_of_nil in Hin|]. unfold BATCH in Hnil. by cbn in Hnil.
Qed.
Lemma derive_batch_spec s : tables_written (tables s) →
  derives (tables s) (tables (derive_batch s).2) ∧
  match (derive_batch s).1 with
  | Ok n => if (n =? 0)%nat then owed (tables (derive_batch s).2) = 0%nat
            else (owed (tables (derive_batch s).2) < owed (tables s))%nat
  | Err e => ∃ d, e = Database d
  end.
Proof.
  intros Ht. unfold derive_batch, mbind, st_bind, map_db.
  pose proof (law_all s owed_query) as Hs. pose proof (law_all_ok s owed_query) as Ha.
  destruct (db_all owed_query s) as [[rows|d] s1]; cbn [fst snd] in *;
    [|rewrite Hs; split; [by apply derives_refl|by exists d]].
  destruct (owed_selected s rows Ht (Ha rows eq_refl)) as (Hrows & Hn & Hnone).
  destruct rows as [|r rows]; [cbn; rewrite Hs; split; [by apply derives_refl|by apply Hnone]|].
  set (all := r :: rows) in *. unfold st_lift.
  rewrite decode_batch_ok by (intros x Hx; by apply (tw_written _ Ht (t_event_id x)), Hrows). cbn [fst snd].
  fold (batch_of all). destruct (run_batch (tables s) all Ht (λ r Hr, proj1 (Hrows r Hr))) as [ns Hrun].
  assert (derives (tables s) (derive_tables (tables s) all) ∧ (owed (derive_tables (tables s) all) < owed (tables s))%nat)
    as [Hd Hlt].
  { assert (owed (derive_tables (tables s) all) < owed (tables s))%nat as Hlt
      by (apply derive_owed; [done|intros; by apply Hrows|intros; by apply Hrows|done]).
    split; [split|exact Hlt].
    - apply derive_written; [done|intros; by apply Hrows|done].
    - intros e. by apply derive_events.
    - lia. }
  pose proof (law_transaction_ok s1 (batch_statements (batch_of all))) as Hok.
  pose proof (law_transaction_err s1 (batch_statements (batch_of all))) as Herr. rewrite Hs in Hok, Herr.
  destruct (db_transaction (batch_statements (batch_of all)) s1) as [[ns'|d] s2]; cbn [fst snd mret st_ret] in *.
  - specialize (Hok ns' eq_refl). rewrite Hok in Hrun. injection Hrun as -> _. by split.
  - split; [|by exists d]. destruct (Herr d eq_refl) as [-> |[ns' Hr2]]; [by apply derives_refl|].
    rewrite Hr2 in Hrun. by injection Hrun as -> _.
Qed.
(** What queries and writes of the table keep, the batch keeps. *)
Lemma derive_batch_keeps {A} (f : S → A) s :
  (∀ s (q : Select R), f (db_all q s).2 = f s) → (∀ s (l : list (Stmt R)), f (db_transaction l s).2 = f s) →
  f (derive_batch (R:=R) s).2 = f s.
Proof.
  intros Hq Hw. unfold derive_batch, mbind, st_bind, map_db. pose proof (Hq s owed_query) as Hs.
  destruct (db_all owed_query s) as [[rows|d] s1]; cbn [fst snd] in *; [|done].
  destruct rows as [|r rows]; [done|]. unfold st_lift. destruct (decode_batch _ _) as [b|e]; cbn [fst snd]; [|done].
  pose proof (Hw s1 (batch_statements b)) as Ht.
  destruct (db_transaction (batch_statements b) s1) as [[ns|d] s2]; cbn in *; congruence.
Qed.
End run.
