(* ===== verification/StoreOpen.v ===== *)
(** Opening a store: what a derivation pass and the migration check establish, and
    what they keep of a database they fail on; what the migrations keep. *)
From stdpp Require Import base gmap strings list sorting numbers.
From Stdlib Require Import Lia.
From S2P Require Import Prelude.
From S2P Require Import Sorted.
From S2P Require Import WorkModel.
From S2P Require Import CoreTranscript.
From S2P Require Import CoreHistory.
From S2P Require BusEnvelope.
From S2P Require Import StoreBase.
From S2P Require Import StoreTable.
From S2P Require Import StoreTableThms.
From S2P Require Import StoreTablePages.
From S2P Require Import StoreSink.
From S2P Require Import StoreSinkRows.
From S2P Require Import StoreEvents.
From S2P Require Import StoreEventRows.
From S2P Require Import StoreDerive.
From S2P Require Import StoreDeriveThms.

Section open.
Context {JV : JsonValue} {TE : TextEnv} {HJ : HeadersJson} {HL : HeadersJsonLaws}.
Context {BC : BusCodec} {BL : BusCodecLaws} {EC : EventCodec} {EL : EventCodecLaws}.

(** ** The two tables *)
#[export] Instance bus_derived : DerivedModel BusRow BusEnvelope.Envelope.
Proof.
  assert (∀ r, bus_row_ok r → br_derived_version r = DERIVED_VERSION ∧
    headers_from_json (br_headers r) = Ok (BusEnvelope.headers (env_of r)) ∧
    table_addressing (R:=BusRow) (br_target r) (br_payload r) = Ok (addressing (env_of r))) as Hdec.
  { intros r [e He]. rewrite (env_of_encoded e r He). revert He. unfold to_active_model.
    destruct (StoreSink.u64_to_i64 _ (BusEnvelope.epoch _)) as [ep|]; [|done]. cbn. destruct (StoreSink.u64_to_i64 _ (BusEnvelope.counter _)) as [ct|]; [|done]. cbn.
    destruct (target_to_json _) as [tg|] eqn:Ht; [|done]. cbn.
    destruct (headers_to_json _) as [hd|] eqn:Hh; [|done]. cbn.
    destruct (StoreSink.u64_to_i64 _ (BusEnvelope.occurred_at_ms _)) as [oc|]; [|done]. cbn. intros [= <-]. cbn.
    by rewrite (law_target _ _ Ht), (law_headers _ _ Hh). }
  refine {| dm_version r Hr := proj1 (Hdec r Hr); dm_headers r Hr := proj1 (proj2 (Hdec r Hr));
            dm_addressing r Hr := proj2 (proj2 (Hdec r Hr)) |}; done || by intros [].
Qed.
#[export] Instance event_derived : DerivedModel EventRow TranscriptEvent.
Proof.
  assert (∀ r, event_row_ok r → er_derived_version r = DERIVED_VERSION ∧
    headers_from_json (er_headers r) = Ok (te_headers (event_of_row r)) ∧
    table_addressing (R:=EventRow) (er_target r) (er_body r) = Ok (of_event (event_of_row r))) as Hdec.
  { intros r (e & Hf & He). rewrite (event_of_encoded e r Hf He). revert He. unfold event_to_active_model.
    destruct (mention_to_json _) as [tg|] eqn:Ht; [|done]. cbn.
    destruct (headers_to_json _) as [hd|] eqn:Hh; [|done]. cbn.
    destruct (optional _ (te_body e)) as [body|] eqn:Hb; [|done]. cbn.
    destruct (optional _ (te_attachment e)) as [att|]; [|done]. cbn.
    destruct (optional _ (te_receipt e)) as [rc|]; [|done]. cbn -[as_wire_str]. intros Heq. injection Heq as <-.
    cbn -[as_wire_str]. rewrite (law_mention _ _ Ht), (law_headers _ _ Hh). cbn. split_and!; [done..|].
    unfold of_event.
    destruct (te_body e) as [b|]; cbn in Hb; [|by injection Hb as <-].
    destruct (body_to_json b) as [j|] eqn:Hj; [|done]. cbn in Hb. injection Hb as <-. cbn. by rewrite (law_body _ _ Hj). }
  refine {| dm_version r Hr := proj1 (Hdec r Hr); dm_headers r Hr := proj1 (proj2 (Hdec r Hr));
            dm_addressing r Hr := proj2 (proj2 (Hdec r Hr)) |}; done || by intros [].
Qed.

Context {S : Type} {DBE : TableDb EventRow S} {DBB : TableDb BusRow S}.
Context {DLE : TableDbLaws (R:=EventRow) S} {DLB : TableDbLaws (R:=BusRow) S}.
Context {EB : TwoTables EventRow BusRow S} {BE : TwoTables BusRow EventRow S}.
Implicit Types s : S.
#[local] Abbreviation events_in s := (db_tables (R:=EventRow) s).
#[local] Abbreviation bus s := (db_tables (R:=BusRow) s).

(** ** The pass *)
Lemma derive_pending_spec fuel s :
  tables_written (events_in s) → tables_written (bus s) → (owed (events_in s) + owed (bus s) < fuel)%nat →
  let r := derive_pending fuel s in
  derives (events_in s) (events_in r.2) ∧ derives (bus s) (bus r.2) ∧
  match r.1 with
  | Ok b => b = true ∧ owed (events_in r.2) = 0%nat ∧ owed (bus r.2) = 0%nat
  | Err e => ∃ d, e = Database d
  end.
Proof.
  revert s. induction fuel as [|fuel IH]; intros s Hte Htb Hf; [lia|]. cbn [derive_pending].
  destruct (derive_batch_spec (R:=EventRow) s Hte) as [Hd1 Hr1].
  pose proof (derive_batch_keeps (R:=EventRow) (λ s, bus s) s other_all other_transaction) as Ho1.
  destruct (derive_batch (R:=EventRow) s) as [[n1|e] s1] eqn:E1; cbn [fst snd] in Hd1, Hr1, Ho1.
  2:{ rewrite (st_bind_err _ _ _ _ _ E1). cbn zeta. cbn [fst snd]. rewrite Ho1. by split_and!; [|apply derives_refl|]. }
  rewrite (st_bind_ok _ _ _ _ _ E1). assert (tables_written (bus s1)) as Htb1 by (by rewrite Ho1).
  destruct (derive_batch_spec (R:=BusRow) s1 Htb1) as [Hd2 Hr2].
  pose proof (derive_batch_keeps (R:=BusRow) (λ s, events_in s) s1 other_all other_transaction) as Ho2.
  destruct (derive_batch (R:=BusRow) s1) as [[n2|e] s2] eqn:E2; cbn [fst snd] in Hd2, Hr2, Ho2; rewrite Ho1 in Hd2; try rewrite Ho1 in Hr2.
  2:{ rewrite (st_bind_err _ _ _ _ _ E2). cbn zeta. cbn [fst snd]. by rewrite Ho2. }
  rewrite (st_bind_ok _ _ _ _ _ E2). destruct ((n1 =? 0)%nat && (n2 =? 0)%nat) eqn:Hz.
  - apply andb_true_iff in Hz as [Hz1 Hz2]. rewrite Hz1 in Hr1. rewrite Hz2 in Hr2. cbn. by rewrite Ho2.
  - assert (derives (events_in s) (events_in s2)) as Hd1' by (by rewrite Ho2).
    destruct (IH s2) as (He & Hb & Hr); [apply Hd1'|apply Hd2| |].
    + rewrite Ho2. pose proof (dv_owed _ _ Hd1). pose proof (dv_owed _ _ Hd2).
      destruct (n1 =? 0)%nat, (n2 =? 0)%nat; cbn in Hz; try done; lia.
    + split_and!; [by eapply derives_trans|by eapply derives_trans|exact Hr].
Qed.

(** ** Versions *)
Context {MD : MigrationDb S} {ML : MigrationLaws S}.
Definition ahead_of s (vs : list rstring) : Prop := vs ≠ [] ∧ ∀ v, v ∈ vs ↔ v ∈ db_versions s ∧ v ∉ migrations.
(** [m] leaves the tables and the versions as they are. *)
Definition reads_versions {A} (m : ST S StoreError A) s : Prop :=
  events_in (m s).2 = events_in s ∧ bus (m s).2 = bus s ∧ db_versions (m s).2 = db_versions s.

(** [s'] holds the rows of [s]. *)
Definition same_rows s s' : Prop := events_in s' = events_in s ∧ bus s' = bus s.
Lemma same_rows_trans s1 s2 s3 : same_rows s1 s2 → same_rows s2 s3 → same_rows s1 s3.
Proof. intros [] []. split; congruence. Qed.
Ltac reads := first [apply law_read_tables | apply law_read_versions]; set_solver.

(** ** The migrations of the binary *)
Lemma ups_keep v : forallb Schema.keeps_events (ups v) = true.
Proof.
  unfold ups. destruct (List.find _ _) as [[n l]|] eqn:Hf; [|done]. apply List.find_some in Hf as [Hin _].
  assert (forallb (λ m, forallb Schema.keeps_events m.2) Schema.all = true) as Hall by (vm_compute; reflexivity).
  by apply (proj1 (List.forallb_forall _ _) Hall (n, l)).
Qed.
Lemma ddl_rows l s : forallb Schema.keeps_events l = true →
  same_rows s (st_iter db_ddl l s).2 ∧ db_versions (st_iter db_ddl l s).2 = db_versions s.
Proof.
  revert s. induction l as [|d l IH]; intros s; [done|]. cbn. intros [Hd Hl]%andb_true_iff. unfold mbind, st_bind.
  pose proof (law_ddl_tables s d Hd) as Ht. pose proof (law_ddl_versions s d) as Hv.
  destruct (db_ddl d s) as [[[]|e] s1]; cbn in Ht, Hv; [|done]. destruct (IH s1 Hl) as [Ht' Hv'].
  split; [by eapply same_rows_trans|congruence].
Qed.
(** One migration and its row. *)
Definition step_up (version : rstring) : ST S DbErr unit := _ ← st_iter db_ddl (ups version); record_version version.
Lemma step_up_spec v s : same_rows s (step_up v s).2 ∧
  ((step_up v s).1 = Ok tt → ∀ w, w ∈ db_versions (step_up v s).2 ↔ w ∈ db_versions s ∨ w = v).
Proof.
  unfold step_up, mbind, st_bind. destruct (ddl_rows (ups v) s (ups_keep v)) as [Ht Hv].
  destruct (st_iter db_ddl (ups v) s) as [[[]|e] s1]; cbn [fst snd] in *; [|done].
  split; [by eapply same_rows_trans, law_record_tables|]. intros Hok w. rewrite (law_record_ok s1 v Hok), Hv. done.
Qed.
Lemma steps_up_spec l s : same_rows s (st_iter step_up l s).2 ∧
  ((st_iter step_up l s).1 = Ok tt → ∀ w, w ∈ db_versions (st_iter step_up l s).2 ↔ w ∈ db_versions s ∨ w ∈ l).
Proof.
  revert s. induction l as [|v l IH]; intros s; [split; [done|]; intros _ w; set_solver|]. cbn. unfold mbind, st_bind.
  destruct (step_up_spec v s) as [Ht Hv]. destruct (step_up v s) as [[[]|e] s1]; cbn [fst snd] in *; [|done].
  destruct (IH s1) as [Ht' Hv']. split; [by eapply same_rows_trans|]. intros Hok w.
  rewrite (Hv' Hok), (Hv eq_refl), elem_of_cons. tauto.
Qed.
Lemma migrator_up_spec s : same_rows s (migrator_up s).2 ∧
  ((migrator_up s).1 = Ok tt → ∀ v, v ∈ db_versions (migrator_up s).2 ↔ v ∈ db_versions s ∨ v ∈ migrations).
Proof.
  unfold migrator_up, mbind, st_bind. assert (same_rows s (install s).2) as Ht by reads.
  assert (db_versions (install s).2 = db_versions s) as Hv by reads.
  destruct (install s) as [[[]|e] s1]; cbn [fst snd] in *; [|done].
  assert (same_rows s1 (pending_migrations s1).2) as Ht1 by reads.
  assert (db_versions (pending_migrations s1).2 = db_versions s1) as Hv1 by reads.
  pose proof (law_pending_ok s1) as Hp. destruct (pending_migrations s1) as [[l|e] s2]; cbn [fst snd] in *; [|split; [by eapply same_rows_trans|done]].
  specialize (Hp l eq_refl). destruct (steps_up_spec l s2) as [Ht2 Hv2]. unfold step_up, mbind, st_bind in Ht2, Hv2.
  split; [eapply same_rows_trans; [exact Ht|by eapply same_rows_trans]|]. intros Hok v. rewrite (Hv2 Hok), Hv1, Hv, Hp, list_elem_of_filter, Hv.
  destruct (decide (v ∈ db_versions s)); tauto.
Qed.
Lemma migrate_up_spec s : same_rows s (migrate_up s).2 ∧
  match (migrate_up s).1 with
  | Ok _ => ∀ v, v ∈ db_versions (migrate_up s).2 ↔ v ∈ db_versions s ∨ v ∈ migrations
  | Err _ => db_versions (migrate_up s).2 = db_versions s
  end.
Proof.
  unfold migrate_up. assert (same_rows s (db_begin s).2) as Ht by reads. assert (db_versions (db_begin s).2 = db_versions s) as Hv by reads.
  destruct (db_begin s) as [[[]|e] s1]; cbn [fst snd] in *; [|done]. unfold mbind, st_bind.
  destruct (migrator_up_spec s1) as [Ht1 Hv1]. destruct (migrator_up s1) as [[[]|e] s2]; cbn [fst snd] in *.
  - assert (same_rows s2 (db_commit s2).2) as Ht2 by reads. assert (db_versions (db_commit s2).2 = db_versions s2) as Hv2 by reads.
    destruct (db_commit s2) as [[[]|e] s3]; cbn [fst snd] in *.
    + split; [eapply same_rows_trans; [exact Ht|by eapply same_rows_trans]|]. intros v. by rewrite Hv2, (Hv1 eq_refl), Hv.
    + destruct (law_rollback s1 s3) as [Hr Hrt]. split; [by eapply same_rows_trans|congruence].
  - destruct (law_rollback s1 s2) as [Hr Hrt]. split; [by eapply same_rows_trans|congruence].
Qed.

Lemma unknown_applied_spec s :
  reads_versions unknown_applied s ∧
  match (unknown_applied s).1 with
  | Ok vs => ∀ v, v ∈ vs ↔ v ∈ db_versions s ∧ v ∉ migrations
  | Err e => ∃ d, e = Database d
  end.
Proof.
  unfold reads_versions, unknown_applied, map_db, mbind, st_bind.
  assert (same_rows s (install s).2) as [He Hb] by reads. assert (db_versions (install s).2 = db_versions s) as Hv by reads.
  destruct (install s) as [[[]|d] s1]; cbn [fst snd] in *; [|split; [done|by eexists]].
  assert (same_rows s1 (applied_versions s1).2) as [He' Hb'] by reads.
  assert (db_versions (applied_versions s1).2 = db_versions s1) as Hv' by reads. pose proof (law_versions_ok s1) as Hok.
  destruct (applied_versions s1) as [[l|d] s2]; cbn [fst snd mret st_ret] in *; (split; [split_and!; congruence|]); [|by eexists].
  intros v. rewrite list_elem_of_filter, (Hok l eq_refl), Hv. tauto.
Qed.
Lemma refuse_if_ahead_spec s : migrations ⊆ db_versions s →
  reads_versions refuse_if_ahead s ∧
  match (refuse_if_ahead s).1 with
  | Ok _ => db_versions s ≡ₚ migrations
  | Err (AheadOfBinary vs) => ahead_of s vs
  | Err e => ∃ d, e = Database d
  end.
Proof.
  intros Hin. assert (NoDup migrations) as Hnm by (apply (bool_decide_unpack _); vm_compute; exact I).
  pose proof (NoDup_submseteq _ _ Hnm Hin) as Hsub.
  unfold refuse_if_ahead, reads_versions. assert (same_rows s (applied_count s).2) as [He Hb] by reads.
  assert (db_versions (applied_count s).2 = db_versions s) as Hv by reads. pose proof (law_count_ok s) as Hn.
  destruct (applied_count s) as [[n|d] s1] eqn:Ec; cbn [fst snd] in *.
  2:{ rewrite (st_bind_err _ _ s (Database d) s1) by (unfold map_db; by rewrite Ec). by split; [|eexists]. }
  rewrite (st_bind_ok _ _ s n s1) by (unfold map_db; by rewrite Ec). rewrite (Hn n eq_refl).
  destruct (N.leb_spec (N.of_nat (length (db_versions s))) (N.of_nat (length migrations))) as [Hle|Hgt].
  { cbn [fst snd mret st_ret]. split; [done|]. symmetry. apply submseteq_length_Permutation; [done|lia]. }
  destruct (unknown_applied_spec s1) as [(He1 & Hb1 & Hv1) Hu].
  destruct (unknown_applied s1) as [[vs|e] s2] eqn:Eu; cbn [fst snd] in *.
  - rewrite (st_bind_ok _ _ s1 vs s2) by done. cbn [fst snd st_throw]. split; [split_and!; congruence|]. rewrite Hv in Hu. split; [|done].
    intros ->. assert (db_versions s ⊆+ migrations) as Hs%submseteq_length.
    { apply NoDup_submseteq; [apply versions_NoDup|]. intros v Hvs. apply dec_stable. intros Hni.
      by apply (not_elem_of_nil v), Hu. }
    lia.
  - rewrite (st_bind_err _ _ s1 e s2) by done. destruct Hu as [d ->]. cbn. by split; [split_and!; congruence|eexists].
Qed.

(** ** Opening *)
Lemma derive_pending_versions fuel s : db_versions (derive_pending fuel s).2 = db_versions s.
Proof.
  revert s. induction fuel as [|fuel IH]; intros s; [done|]. cbn [derive_pending]. unfold mbind, st_bind.
  pose proof (derive_batch_keeps (R:=EventRow) db_versions s versions_all_events versions_write_events) as H1.
  destruct (derive_batch (R:=EventRow) s) as [[n1|e] s1]; cbn [fst snd] in *; [|done].
  pose proof (derive_batch_keeps (R:=BusRow) db_versions s1 versions_all_bus versions_write_bus) as H2.
  destruct (derive_batch (R:=BusRow) s1) as [[n2|e] s2]; cbn [fst snd] in *; [|congruence].
  destruct (_ && _); [cbn; congruence|]. rewrite IH. congruence.
Qed.
Lemma apply_migrations_spec fuel s :
  tables_written (events_in s) → tables_written (bus s) → (owed (events_in s) + owed (bus s) < fuel)%nat →
  let r := apply_migrations fuel s in
  derives (events_in s) (events_in r.2) ∧ derives (bus s) (bus r.2) ∧
  match r.1 with
  | Ok b => b = true ∧ owed (events_in r.2) = 0%nat ∧ owed (bus r.2) = 0%nat ∧ (∀ v, v ∈ db_versions r.2 ↔ v ∈ migrations)
  | Err (AheadOfBinary vs) => ahead_of s vs ∧ db_versions r.2 = db_versions s
  | Err e => ∃ d, e = Database d
  end.
Proof.
  intros Hte Htb Hf. unfold apply_migrations. destruct (unknown_applied_spec s) as [(He & Hb & Hv) Hu].
  destruct (unknown_applied s) as [[ahead|e] s1] eqn:Eu; cbn [fst snd] in *.
  2:{ rewrite (st_bind_err _ _ s e s1) by done. destruct Hu as [d ->]. cbn. rewrite He, Hb.
      split_and!; [by apply derives_refl|by apply derives_refl|by eexists]. }
  rewrite (st_bind_ok _ _ s ahead s1) by done. destruct ahead as [|v vs].
  2:{ cbn. rewrite He, Hb. split_and!; [by apply derives_refl|by apply derives_refl|done..]. }
  assert (same_rows s1 (pending_migrations s1).2) as [He1 Hb1] by reads.
  assert (db_versions (pending_migrations s1).2 = db_versions s1) as Hv1 by reads. pose proof (law_pending_ok s1) as Hp.
  destruct (pending_migrations s1) as [[pending|d] s2] eqn:Ep; cbn [fst snd] in *.
  2:{ rewrite (st_bind_err _ _ s1 (Database d) s2) by (unfold map_db; by rewrite Ep). cbn. rewrite He1, Hb1, He, Hb.
      split_and!; [by apply derives_refl|by apply derives_refl|by eexists]. }
  rewrite (st_bind_ok _ _ s1 pending s2) by (unfold map_db; by rewrite Ep).
  assert (∀ v, v ∈ db_versions s2 → v ∈ migrations) as Hknown.
  { intros v. rewrite Hv1, Hv. intros Hin. apply dec_stable. intros Hni. by apply (not_elem_of_nil v), Hu. }
  set (up := match pending with [] => mret tt | _ => map_db Database migrate_up end).
  assert (events_in (up s2).2 = events_in s ∧ bus (up s2).2 = bus s ∧
    match (up s2).1 with Ok _ => ∀ v, v ∈ db_versions (up s2).2 ↔ v ∈ migrations | Err e => ∃ d, e = Database d end) as (He2 & Hb2 & Hup).
  { unfold up. destruct pending as [|p pending].
    - cbn. split_and!; [congruence|congruence|]. intros v. split; [apply Hknown|]. rewrite Hv1. intros Hin. apply dec_stable. intros Hni.
      by apply (filter_nil_not_elem_of _ _ v (eq_sym (Hp _ eq_refl)) Hni).
    - destruct (migrate_up_spec s2) as [[He2 Hb2] Hok]. unfold map_db.
      destruct (migrate_up s2) as [[[]|d] s3]; cbn [fst snd] in *;
        (split_and!; [congruence|congruence|]); [|by eexists].
      intros v. rewrite Hok. split; [intros [?%Hknown|?]; done|by right]. }
  destruct (up s2) as [[[]|e] s3] eqn:E3; cbn [fst snd] in *.
  2:{ rewrite (st_bind_err _ _ s2 e s3) by done. cbn. rewrite He2, Hb2. destruct Hup as [d ->].
      split_and!; [by apply derives_refl|by apply derives_refl|by eexists]. }
  rewrite (st_bind_ok _ _ s2 tt s3) by done.
  destruct (derive_pending_spec fuel s3) as (Hd1 & Hd2 & Hr); [by rewrite He2|by rewrite Hb2|by rewrite He2, Hb2|].
  rewrite He2 in Hd1. rewrite Hb2 in Hd2. pose proof (derive_pending_versions fuel s3) as Hv3. split_and!; [done..|].
  destruct (derive_pending fuel s3) as [[b|e] s4]; cbn [fst snd] in *.
  - destruct Hr as (-> & ? & ?). split_and!; [done..|]. intros v. by rewrite Hv3.
  - destruct Hr as [d ->]. by eexists.
Qed.
End open.
