(* ===== verification/StoreOpenThms.v ===== *)
(** Opening a store: the theorems, and a database both event tables are in. *)
From stdpp Require Import base gmap strings list sorting numbers.
From Stdlib Require Import Lia.
From S2P Require Import Prelude.
From S2P Require Import WorkModel.
From S2P Require Import CoreTranscript.
From S2P Require Import CoreHistory.
From S2P Require BusEnvelope.
From S2P Require Import StoreBase.
From S2P Require Import StoreTable.
From S2P Require Import StoreTableThms.
From S2P Require Import StoreSink.
From S2P Require Import StoreSinkRows.
From S2P Require Import StoreEvents.
From S2P Require Import StoreEventRows.
From S2P Require Import StoreEventThms.
From S2P Require Import StoreDerive.
From S2P Require Import StoreDeriveThms.
From S2P Require Import StoreOpen.

Section thms.
Context {JV : JsonValue} {TE : TextEnv} {HJ : HeadersJson} {HL : HeadersJsonLaws}.
Context {BC : BusCodec} {BL : BusCodecLaws} {EC : EventCodec} {EL : EventCodecLaws}.
Context {S : Type} {DBE : TableDb EventRow S} {DBB : TableDb BusRow S}.
Context {DLE : TableDbLaws (R:=EventRow) S} {DLB : TableDbLaws (R:=BusRow) S}.
Context {EB : TwoTables EventRow BusRow S} {BE : TwoTables BusRow EventRow S}.
Context {MD : MigrationDb S} {ML : MigrationLaws S}.
#[local] Abbreviation events_in s := (db_tables (R:=EventRow) s).
#[local] Abbreviation bus s := (db_tables (R:=BusRow) s).

(** C12: Opening a store ends, and brings it up to date.  From any rows some binary
    wrote, current or not, in both event tables: the migrations of this binary leave
    every event row as it was; an open that succeeds leaves every row current, with the
    addressing and the header rows of its event, and the version table naming exactly
    this binary's migrations.  An open that fails does so because a newer binary migrated
    the database, and then names its migrations, or because the database failed.  Either
    way no event is gained or lost, what was current stays exact, and no more is owed
    than before, so a later open resumes. *)
Theorem open_store_exact (fuel : nat) (s : S) :
  tables_written (events_in s) → tables_written (bus s) → (owed (events_in s) + owed (bus s) < fuel)%nat →
  let r := apply_migrations fuel s in
  derives (events_in s) (events_in r.2) ∧ derives (bus s) (bus r.2) ∧
  match r.1 with
  | Ok ended => ended = true ∧ tables_ok (events_in r.2) ∧ tables_ok (bus r.2) ∧
      ∀ v, v ∈ db_versions r.2 ↔ v ∈ migrations
  | Err (AheadOfBinary vs) => vs ≠ [] ∧ ∀ v, v ∈ vs ↔ v ∈ db_versions s ∧ v ∉ migrations
  | Err e => ∃ d, e = Database d
  end.
Proof.
  intros Hte Htb Hf. pose proof (apply_migrations_spec fuel s Hte Htb Hf) as H. cbv zeta in H |- *.
  destruct H as (Hd1 & Hd2 & Hr). split_and!; [done..|].
  destruct (apply_migrations fuel s).1 as [b|e].
  - destruct Hr as (-> & H1 & H2 & Hv). split_and!; [done| | |done]; apply written_ok; [apply Hd1|done|apply Hd2|done].
  - destruct e; try exact Hr. by destruct Hr.
Qed.

(** A store opened by this binary is refused every write once a newer binary has
    migrated the database, naming its migrations: a write is let through only while
    the version table names exactly this binary's migrations.  The check changes
    nothing.  Between the open and the write, migrations are only added. *)
Theorem stale_writer_refused (fuel : nat) (opened now : S) :
  tables_written (events_in opened) → tables_written (bus opened) →
  (owed (events_in opened) + owed (bus opened) < fuel)%nat →
  is_ok (apply_migrations fuel opened).1 = true →
  (∀ v, v ∈ db_versions (apply_migrations fuel opened).2 → v ∈ db_versions now) →
  let r := refuse_if_ahead now in
  events_in r.2 = events_in now ∧ bus r.2 = bus now ∧ db_versions r.2 = db_versions now ∧
  match r.1 with
  | Ok _ => ∀ v, v ∈ db_versions now ↔ v ∈ migrations
  | Err (AheadOfBinary vs) => vs ≠ [] ∧ ∀ v, v ∈ vs ↔ v ∈ db_versions now ∧ v ∉ migrations
  | Err e => ∃ d, e = Database d
  end.
Proof.
  intros Hte Htb Hf Hok Hgrow. pose proof (apply_migrations_spec fuel opened Hte Htb Hf) as (_ & _ & Hr).
  destruct (apply_migrations fuel opened) as [[b|e] s1]; [|done]. cbn [fst snd] in *. destruct Hr as (_ & _ & _ & Hv).
  destruct (refuse_if_ahead_spec now) as [(H1 & H2 & H3) Hres]; [intros v Hin; by apply Hgrow, Hv|].
  cbv zeta. split_and!; [done..|]. destruct (refuse_if_ahead now).1 as [|e]; [|exact Hres].
  intros v. by rewrite Hres.
Qed.
End thms.

Module OpenScenario.
#[local] Existing Instance StoreScenario.json_tree.
#[local] Existing Instance StoreScenario.text.
#[local] Existing Instance StoreScenario.headers_json.
#[local] Existing Instance StoreScenario.headers_json_laws.
#[local] Existing Instance StoreScenario.event_codec.
#[local] Existing Instance StoreScenario.event_codec_laws.
#[local] Existing Instance table_db.
#[local] Existing Instance table_db_laws.
#[export] Instance bus_codec : BusCodec := {|
  target_to_json x := Ok (StoreScenario.JBusTarget x);
  target_from_json j := match j with StoreScenario.JBusTarget x => Ok x | _ => Err StoreScenario.wrong end;
  db_error_text _ := str "database error";
  store_error_text _ := str "store error";
|}.
#[export] Instance bus_codec_laws : BusCodecLaws.
Proof. split. by intros x j [= <-]. Qed.

(** Both tables and the version table. *)
Record File := MkFile { f_events : Db EventRow; f_bus : Db BusRow; f_versions : list rstring }.
#[export] Instance file_events : TableDb EventRow File := lift_db f_events (λ t s, MkFile t (f_bus s) (f_versions s)).
#[export] Instance file_bus : TableDb BusRow File := lift_db f_bus (λ t s, MkFile (f_events s) t (f_versions s)).
#[export] Instance file_events_laws : TableDbLaws (R:=EventRow) File :=
  lift_db_laws f_events (λ t s, MkFile t (f_bus s) (f_versions s)) (λ _ _, eq_refl).
#[export] Instance file_bus_laws : TableDbLaws (R:=BusRow) File :=
  lift_db_laws f_bus (λ t s, MkFile (f_events s) t (f_versions s)) (λ _ _, eq_refl).
#[export] Instance file_two : TwoTables EventRow BusRow File.
Proof. split; intros s x; by apply (on_keeps f_events _ (λ s, db_tables (R:=BusRow) (f_bus s))). Qed.
#[export] Instance file_two' : TwoTables BusRow EventRow File.
Proof. split; intros s x; by apply (on_keeps f_bus _ (λ s, db_tables (R:=EventRow) (f_events s))). Qed.
#[export] Instance file_migrations : MigrationDb File := {|
  applied_count := st_gets (λ s, N.of_nat (length (remove_dups (f_versions s))));
  install := mret tt;
  applied_versions := st_gets (λ s, remove_dups (f_versions s));
  pending_migrations := st_gets (λ s, filter (λ m, m ∉ f_versions s) migrations);
  db_ddl d := st_modify (λ s, if Schema.keeps_events d then s else MkFile empty_db empty_db (f_versions s));
  record_version v := λ s,
    if decide (v ∈ f_versions s) then (Err (DbError (str "UNIQUE constraint failed: seaql_migrations.version")), s)
    else (Ok tt, MkFile (f_events s) (f_bus s) (f_versions s ++ [v]));
  db_begin := mret tt;
  db_commit := mret tt;
  db_rollback s _ := s;
|}.
#[export] Instance file_migration_laws : MigrationLaws File.
Proof.
  refine {| db_versions s := remove_dups (f_versions s) |}; try done.
  - intros s. apply NoDup_remove_dups.
  - by intros s n [= <-].
  - by intros s l [= <-].
  - intros s l [= <-]. apply list_filter_iff. intros v. by rewrite elem_of_remove_dups.
  - intros s v. cbn. case_decide; [by left|right]. intros w. cbn. rewrite !elem_of_remove_dups, elem_of_app, list_elem_of_singleton. done.
  - intros s v. cbn. case_decide; [done|]. intros _ w. cbn. rewrite !elem_of_remove_dups, elem_of_app, list_elem_of_singleton. done.
  - intros s d. cbn. by case_match.
  - intros s s' Hs'. cbn -[migrations] in Hs'. rewrite !elem_of_cons, elem_of_nil in Hs'. by destruct_or! Hs'; subst.
  - intros s s' Hs'. cbn -[migrations] in Hs'. rewrite !elem_of_cons, elem_of_nil in Hs'. by destruct_or! Hs'; subst.
  - intros s v. cbn. by case_decide.
  - intros s d Hd. cbn. by rewrite Hd.
  - intros s x. by apply (on_keeps f_events _ (λ s, remove_dups (f_versions s))).
  - intros s x. by apply (on_keeps f_bus _ (λ s, remove_dups (f_versions s))).
Defined.

(** A file an older binary wrote: rows without derived data, two migrations behind. *)
Definition event_rows (l : list TranscriptEvent) : list EventRow :=
  match collect event_to_active_model l with Ok rows => rows | Err _ => [] end.
Definition bus_rows (l : list BusEnvelope.Envelope) : list BusRow :=
  match collect to_active_model l with Ok rows => rows | Err _ => [] end.
Definition me : PeerId := MkId 7.
Definition b1 : BusEnvelope.Envelope :=
  BusEnvelope.MkEnvelope (MkId 21) (MkId 1) (MkId 2, MkId 3) (BusEnvelope.TargetPeer me) BusEnvelope.KMessage
    BusEnvelope.Durable (BusEnvelope.MkSeq 1 1) 10 None None {[ StoreScenario.key := str "ab" ]} [104%N].
Definition old_events : list TranscriptEvent := [StoreScenario.e1; StoreScenario.e2; StoreScenario.e3].
Definition old_file : File :=
  MkFile (MkDb (underived (event_rows old_events)) eq_refl) (MkDb (underived (bus_rows [b1])) eq_refl) (take 20 migrations).
Definition newer : rstring := str "m20270101_000023_newer".

Lemma event_rows_elem l r : r ∈ event_rows l → ∃ e, e ∈ l ∧ event_to_active_model e = Ok r.
Proof.
  unfold event_rows. destruct (collect _ l) as [rows|] eqn:Hc; [|by intros ?%elem_of_nil].
  intros [i Hi]%list_elem_of_lookup. apply collect_Forall2 in Hc.
  destruct (Forall2_lookup_r _ _ _ _ _ Hc Hi) as (e & He & Hr). exists e. split; [by eapply list_elem_of_lookup_2|done].
Qed.
Lemma ascii_str (s : rstring) : forallb (λ c, (c <? 128)%N) s = true → is_str s.
Proof.
  intros Hs. unfold is_str. apply list.Forall_forall. intros c Hc%list_elem_of_In.
  pose proof (proj1 (List.forallb_forall _ _) Hs c Hc) as Hlt. apply N.ltb_lt in Hlt. unfold is_scalar. lia.
Qed.
Lemma headers_text (hs : Headers) :
  bool_decide (map_Forall (λ (_ v : rstring), forallb (λ c, (c <? 128)%N) v = true) hs) = true →
  ∀ k v, hs !! k = Some v → is_str v.
Proof. intros Hb%bool_decide_eq_true_1 k v Hv. apply ascii_str. exact (Hb k v Hv). Qed.
Lemma event_rows_written l :
  Forall (λ e, event_fits e ∧ ∀ k v, te_headers e !! k = Some v → is_str v) l → tables_written (underived (event_rows l)).
Proof.
  intros Hl. apply underived_written. intros r Hr. apply event_rows_elem in Hr as (e & He & Hr).
  destruct (proj1 (list.Forall_forall _ _) Hl e He) as [Hf Ht]. split; [by exists e|].
  intros k v. cbn. rewrite (event_of_encoded e r Hf Hr). apply Ht.
Qed.
Lemma bus_rows_written l :
  Forall (λ e, ∀ k v, BusEnvelope.headers e !! k = Some v → is_str v) l → tables_written (underived (bus_rows l)).
Proof.
  intros Hl. apply underived_written. intros r Hr. unfold bus_rows in Hr.
  destruct (collect _ l) as [rows|] eqn:Hc; [|by apply elem_of_nil in Hr].
  apply list_elem_of_lookup in Hr as [i Hi]. apply collect_Forall2 in Hc.
  destruct (Forall2_lookup_r _ _ _ _ _ Hc Hi) as (e & He & Hr). split; [by exists e|].
  intros k v. cbn. rewrite (env_of_encoded e r Hr). eapply (proj1 (list.Forall_forall _ _) Hl e). by eapply list_elem_of_lookup_2.
Qed.
Lemma old_file_written : tables_written (db_tables (R:=EventRow) old_file) ∧ tables_written (db_tables (R:=BusRow) old_file).
Proof.
  split; [apply event_rows_written|apply bus_rows_written];
    repeat (apply list.Forall_cons; split; [|]); try apply list.Forall_nil; try done;
    try (split; [by vm_compute|]); apply headers_text; vm_compute; reflexivity.
Qed.

Lemma open_store_exact_witness :
  owed (db_tables (R:=EventRow) old_file) = 3%nat ∧ owed (db_tables (R:=BusRow) old_file) = 1%nat ∧
  (apply_migrations 5 old_file).1 = Ok true ∧
  tables_ok (db_tables (R:=EventRow) (apply_migrations 5 old_file).2) ∧
  tables_ok (db_tables (R:=BusRow) (apply_migrations 5 old_file).2).
Proof.
  assert (owed (db_tables (R:=EventRow) old_file) = 3%nat) as He by (vm_compute; reflexivity).
  assert (owed (db_tables (R:=BusRow) old_file) = 1%nat) as Hb by (vm_compute; reflexivity).
  assert ((apply_migrations 5 old_file).1 = Ok true) as Hok by (vm_compute; reflexivity).
  destruct (open_store_exact 5 old_file) as (_ & _ & Hr);
    [apply old_file_written|apply old_file_written|rewrite He, Hb; lia|].
  rewrite Hok in Hr. rewrite He, Hb. tauto.
Defined.

Definition opened : File := (apply_migrations 5 old_file).2.
Lemma stale_writer_refused_witness :
  (refuse_if_ahead opened).1 = Ok tt ∧
  let now := MkFile (f_events opened) (f_bus opened) (f_versions opened ++ [newer]) in
  (refuse_if_ahead now).1 = Err (AheadOfBinary [newer]) ∧
  ∀ v, v ∈ [newer] ↔ v ∈ db_versions now ∧ v ∉ migrations.
Proof.
  split; [vm_compute; reflexivity|]. set (now := MkFile _ _ _). cbv zeta.
  assert ((refuse_if_ahead now).1 = Err (AheadOfBinary [newer])) as Hr by (vm_compute; reflexivity).
  split; [exact Hr|]. destruct (stale_writer_refused 5 old_file now) as (_ & _ & _ & Hres).
  - apply old_file_written.
  - apply old_file_written.
  - assert (owed (db_tables (R:=EventRow) old_file) = 3%nat) as -> by (vm_compute; reflexivity).
    assert (owed (db_tables (R:=BusRow) old_file) = 1%nat) as -> by (vm_compute; reflexivity). lia.
  - vm_compute. reflexivity.
  - intros v Hv. change (v ∈ remove_dups (f_versions opened)) in Hv. change (v ∈ remove_dups (f_versions opened ++ [newer])).
    rewrite elem_of_remove_dups in Hv. rewrite elem_of_remove_dups, elem_of_app. by left.
  - rewrite Hr in Hres. apply Hres.
Defined.
End OpenScenario.
