(* ===== verification/StoreDrain.v ===== *)
(** The drain: [airc-store/src/retention.rs].  Dead rows are deleted one rowid window
    at a time; the freed pages are given back.

    SQLite's rowids and pragmas are [RowIds] and [Pragmas].  While the pass yields
    between windows, other tasks run: [others]. *)
From stdpp Require Import base gmap strings list sorting numbers pretty.
From S2P Require Import Prelude.
From S2P Require Import Sorted.
From S2P Require Import WorkModel.
From S2P Require Import CoreTranscript.
From S2P Require Import CoreHistory.
From S2P Require Import StoreBase.
From S2P Require Import StoreTable.
From S2P Require Import StoreTableThms.
From S2P Require Import StoreSink.
From S2P Require Import StoreEvents.

Definition heartbeat_row : HeaderFilter := HfHas (str "airc.heartbeat.kind").
Definition non_durable_row : HeaderFilter :=
  let key := str "airc.delivery_class" in
  HfAll [HfHas key; HfNot (HfExact key (str "durable"))].
Definition DRAIN_WINDOW_ROWS : Z := 10000.
Definition RECLAIM_STEP_PAGES : N := 2048.

(** [i64::saturating_add] of what is not negative. *)
Definition i64_saturating_add (a b : Z) : Z := Z.min (a + b) i64_max.

Record StoreFootprint := MkStoreFootprint { file_bytes : N; free_bytes : N }.
Definition free_percent (self : StoreFootprint) : N :=
  if (file_bytes self =? 0)%N then 0%N else (saturating_mul (free_bytes self) 100 / file_bytes self)%N.
Record DrainReport := MkDrainReport { heartbeat_rows : N; non_durable_rows : N; after : StoreFootprint }.
Inductive Reclaim := Full | Incremental.

(** ** The database *)
Class RowIds (R S : Type) `{!JsonValue, !EventTable R} := {
  db_max_rowid : ST S DbErr (option Z);
  (* the ids of the rows above [low], at or below [high], that satisfy the condition *)
  db_window : Z → Z → Expr R → ST S DbErr (list N);
}.
Inductive Pragma := PageSize | PageCount | FreelistCount | AutoVacuum.
Inductive SqliteOnly :=
| Read (pragma : Pragma)
| AutoVacuumIncremental
| Vacuum
| WalCheckpointTruncate
| IncrementalVacuum (pages : N).
(** The statements with no ORM expression; the rows of a [Read] hold one integer. *)
Class Pragmas (S : Type) := { db_only : SqliteOnly → ST S DbErr (list Z) }.

(** ** sqlite_only.rs *)
Section only.
Context {S : Type} `{!Pragmas S}.
Definition pragma_name (p : Pragma) : rstring :=
  str match p with
      | PageSize => "PageSize" | PageCount => "PageCount" | FreelistCount => "FreelistCount" | AutoVacuum => "AutoVacuum"
      end.
Definition sqlite_only (op : SqliteOnly) : ST S StoreError (list Z) := map_db Database (db_only op).
Definition pragma_u64 (p : Pragma) : ST S StoreError N :=
  rows ← sqlite_only (Read p);
  match rows with
  | [] => st_throw (Migration (str "pragma " ++ pragma_name p ++ str " returned no row"))
  | value :: _ =>
      if (0 <=? value)%Z then mret (Z.to_N value)
      else st_throw (Migration (str "pragma " ++ pragma_name p ++ str " was negative: " ++ str (pretty value)))
  end.
End only.

(** ** Deleting in windows *)
Section windows.
Context {R S : Type} `{!JsonValue, !EventTable R, !TableDb R S, !RowIds R S}.
Variable others : Z → S → S.   (* by the end of the window just done *)

(** The loop from [low]; [None] when the fuel did not suffice. *)
Fixpoint window_loop (dead : HeaderFilter) (window max_rowid : Z) (fuel : nat) (low : Z) (removed : N)
    : ST S StoreError (option N) :=
  if (low <? max_rowid)%Z then
    match fuel with
    | O => mret None
    | Datatypes.S fuel =>
        let high := i64_saturating_add low (Z.max window 1) in
        ids ← map_db Database (db_window low high (predicate (R:=R) dead));
        removed ←
          match ids with
          | [] => mret removed
          | _ =>
              _ ← db_admit;
              ns ← map_db Database (db_transaction [DeleteHeaders ids; DeleteRows ids]);
              mret (removed +w unwrap_or (ns !! 1%nat) 0%N)
          end;
        _ ← st_modify (others high);
        window_loop dead window max_rowid fuel high removed
    end
  else mret (Some removed).
Definition delete_in_windows (dead : HeaderFilter) (window : Z) (fuel : nat) : ST S StoreError (option N) :=
  max_rowid ← map_db Database db_max_rowid;
  match max_rowid with
  | None => mret (Some 0%N)
  | Some max_rowid => window_loop dead window max_rowid fuel 0 0
  end.
End windows.

(** ** The pass, the footprint and the reclaim *)
Section store.
Context {S : Type} `{!Pragmas S}.
Definition footprint : ST S StoreError StoreFootprint :=
  page_size ← pragma_u64 PageSize;
  count ← pragma_u64 PageCount;
  free ← pragma_u64 FreelistCount;
  mret (MkStoreFootprint (saturating_mul page_size count) (saturating_mul page_size free)).
Definition drain_dead_rows_windowed `{!JsonValue, !TextEnv, !HeadersJson, !BusCodec, !EventCodec}
    `{!TableDb EventRow S, !TableDb BusRow S, !RowIds EventRow S, !RowIds BusRow S}
    (others : Z → S → S) (window : Z) (fuel : nat) : ST S StoreError (option DrainReport) :=
  heartbeats ← delete_in_windows (R:=BusRow) others heartbeat_row window fuel;
  non_durable ← delete_in_windows (R:=EventRow) others non_durable_row window fuel;
  after ← footprint;
  mret (h ← heartbeats; n ← non_durable; Some (MkDrainReport h n after)).
Definition drain_dead_rows `{!JsonValue, !TextEnv, !HeadersJson, !BusCodec, !EventCodec}
    `{!TableDb EventRow S, !TableDb BusRow S, !RowIds EventRow S, !RowIds BusRow S}
    (others : Z → S → S) (fuel : nat) : ST S StoreError (option DrainReport) :=
  drain_dead_rows_windowed others DRAIN_WINDOW_ROWS fuel.

(** The [while] of an incremental reclaim; the answer says whether the fuel sufficed. *)
Fixpoint incremental_loop (others : S → S) (fuel : nat) (free : N) : ST S StoreError bool :=
  if (0 <? free)%N then
    match fuel with
    | O => mret false
    | Datatypes.S fuel =>
        _ ← sqlite_only (IncrementalVacuum RECLAIM_STEP_PAGES);
        now ← pragma_u64 FreelistCount;
        if (free <=? now)%N then mret true
        else (_ ← st_modify others; incremental_loop others fuel now)
    end
  else mret true.
Definition reclaim (admit_write : ST S StoreError unit) (others : S → S) (mode : Reclaim) (fuel : nat)
    : ST S StoreError (option StoreFootprint) :=
  _ ← admit_write;
  ended ←
    match mode with
    | Full =>
        _ ← sqlite_only AutoVacuumIncremental;
        _ ← sqlite_only Vacuum;
        _ ← sqlite_only WalCheckpointTruncate;
        mret true
    | Incremental =>
        free ← pragma_u64 FreelistCount;
        incremental_loop others fuel free
    end;
  f ← footprint;
  mret (if (ended : bool) then Some f else None).
Definition is_incremental : ST S StoreError bool :=
  mode ← pragma_u64 AutoVacuum;
  mret (negb (mode =? 0)%N).
End store.
