(* ===== verification/StoreDrainThms.v ===== *)
(** The drain: what one pass over a table deletes, whatever runs between its windows. *)
From stdpp Require Import base gmap strings list sorting numbers.
From Stdlib Require Import Lia.
From S2P Require Import Prelude.
From S2P Require Import Sorted.
From S2P Require Import WorkModel.
From S2P Require Import CoreTranscript.
From S2P Require Import CoreHistory.
From S2P Require Import StoreBase.
From S2P Require Import StoreTable.
From S2P Require Import StoreTableThms.
From S2P Require Import StoreDrain.

(** SQLite's rowids: positive, of the rows there are, kept by a row while it stays.
    Reading moves none. *)
Class RowIdLaws (R S : Type) `{!JsonValue, !EventTable R, !TableDb R S, !TableDbLaws (R:=R) S, !RowIds R S} := {
  rowid : S → N → option Z;
  law_rowid_row s id : is_Some (rowid s id) ↔ is_Some (tb_rows (db_tables s) !! id);
  law_rowid_range s id z : rowid s id = Some z → (0 < z ≤ i64_max)%Z;
  law_max s : db_tables (db_max_rowid s).2 = db_tables s ∧ ∀ id, rowid (db_max_rowid s).2 id = rowid s id;
  law_max_ok s o : (db_max_rowid s).1 = Ok o →
    match o with
    | None => tb_rows (db_tables s) = ∅
    | Some m => ∀ id z, rowid s id = Some z → (z ≤ m)%Z
    end ∧ ∀ m, o = Some m → ∃ id, rowid s id = Some m;
  law_window s low high x :
    db_tables (db_window low high x s).2 = db_tables s ∧ ∀ id, rowid (db_window low high x s).2 id = rowid s id;
  law_window_ok s low high x ids : (db_window low high x s).1 = Ok ids →
    ∀ id, id ∈ ids ↔ ∃ r z, tb_rows (db_tables s) !! id = Some r ∧ rowid s id = Some z ∧
      (low < z ≤ high)%Z ∧ x r (tb_headers (db_tables s)) = true;
  law_rowid_admit s id : rowid (db_admit s).2 id = rowid s id;
  law_rowid_transaction s l id :
    is_Some (tb_rows (db_tables s) !! id) → is_Some (tb_rows (db_tables (db_transaction l s).2) !! id) →
    rowid (db_transaction l s).2 id = rowid s id;
}.

Section drain.
Context {R E S : Type} {JV : JsonValue} {ET : EventTable R} {RM : RowModel R E}.
Context {DB : TableDb R S} {DL : TableDbLaws (R:=R) S} {RI : RowIds R S} {RL : RowIdLaws R S}.
Implicit Types (s : S) (t : Tables R) (r : R).
#[local] Abbreviation rows s := (tb_rows (db_tables (R:=R) s)).

(** ** Deleting rows *)
Definition without (ids : list N) t : Tables R :=
  MkTables (filter (λ kv, kv.1 ∉ ids) (tb_rows t)) (filter (λ kv, kv.1.1 ∉ ids) (tb_headers t)).
Lemma without_lookup ids t id : tb_rows (without ids t) !! id = if decide (id ∈ ids) then None else tb_rows t !! id.
Proof.
  cbn. destruct (decide (id ∈ ids)) as [Hin|Hni].
  - apply map_lookup_filter_None. right. intros r _ Hn. by apply Hn.
  - destruct (tb_rows t !! id) as [r|] eqn:Hr.
    + by apply map_lookup_filter_Some.
    + apply map_lookup_filter_None. by left.
Qed.
Lemma delete_stmts t ids :
  run_stmts t [DeleteHeaders ids; DeleteRows ids] =
    Some (without ids t, [N.of_nat (size (tb_headers t) - size (tb_headers (without ids t)));
                          N.of_nat (size (tb_rows t) - size (tb_rows (without ids t)))]).
Proof. done. Qed.
Lemma without_ok ids t : tables_ok t → tables_ok (without ids t).
Proof.
  intros Hok. split.
  - intros id r. rewrite without_lookup. destruct (decide _); [done|]. apply (t_rows_ok _ Hok).
  - intros id k. rewrite without_lookup. cbn [without tb_headers]. destruct (decide (id ∈ ids)) as [Hin|Hni].
    + apply map_lookup_filter_None. right. intros v _ Hn. by apply Hn.
    + rewrite <- (t_headers_ok _ Hok). destruct (tb_headers t !! (id, k)) as [v|] eqn:Hv.
      * by apply map_lookup_filter_Some.
      * apply map_lookup_filter_None. by left.
  - intros id r k v. rewrite without_lookup. destruct (decide _); [done|]. apply (t_str _ Hok).
Qed.

Lemma without_nil t : without [] t = t.
Proof. destruct t. unfold without. cbn. f_equal; apply map_filter_id; intros; apply not_elem_of_nil. Qed.
Lemma no_rowid s id : rows s !! id = None → rowid s id = None.
Proof. intros Hr. apply eq_None_not_Some. rewrite law_rowid_row, Hr. by intros []. Qed.

(** ** One pass *)
Variable dead : HeaderFilter.
Hypothesis Hdead : str_filter dead.
Variable others : Z → S → S.
Definition is_dead r : bool := filter_matches dead (ev_headers (event_of r)).

(** What other tasks may do from [s] to [s'] in a pass that began on the rows [t0]:
    add rows of events that were not there, and keep the others where they are. *)
Record adds (t0 : Tables R) s s' : Prop := {
  ad_ok : tables_ok (db_tables s) → tables_ok (db_tables s');
  ad_keep id r : rows s !! id = Some r → rows s' !! id = Some r ∧ rowid s' id = rowid s id;
  ad_new id : rows s !! id = None → is_Some (rows s' !! id) → tb_rows t0 !! id = None;
}.
Lemma adds_refl (t0 : Tables R) s : adds t0 s s.
Proof. split; [done|done|]. intros id Hn Hs. rewrite Hn in Hs. by destruct Hs. Qed.
(** No row is changed or gained, and the dead ones below are gone. *)
Record drained_below s0 (low : Z) s : Prop := {
  dr_ok : tables_ok (db_tables s);
  dr_kept id r : rows s0 !! id = Some r →
    rows s !! id = Some r ∧ rowid s id = rowid s0 id ∧
      (is_dead r = false ∨ ∀ z, rowid s0 id = Some z → (low < z)%Z)
    ∨ rows s !! id = None ∧ is_dead r = true;
}.

(** The transaction of a window, on the ids it found. *)
Definition delete_ids (ids : list N) (removed : N) : ST S StoreError N :=
  match ids with
  | [] => mret removed
  | _ =>
      _ ← db_admit;
      ns ← map_db Database (db_transaction [DeleteHeaders ids; DeleteRows ids]);
      mret (removed +w unwrap_or (ns !! 1%nat) 0%N)
  end.
(** The rows in a window that are dead, from the statement's condition. *)
Lemma window_dead s0 low high s ids : drained_below s0 low s →
  (db_window low high (predicate (R:=R) dead) s).1 = Ok ids →
  ∀ id, id ∈ ids ↔ ∃ r z, rows s !! id = Some r ∧ rowid s id = Some z ∧ (low < z ≤ high)%Z ∧ is_dead r = true.
Proof.
  intros Hd Hw id. rewrite (law_window_ok s _ _ _ _ Hw). pose proof (dr_ok _ _ _ Hd) as Hok.
  split; intros (r & z & Hr & Hz & Hlz & Hx); exists r, z; (split; [done|split; [done|split; [done|]]]);
    destruct (t_rows_ok _ Hok _ _ Hr) as [Hrow Hid];
    pose proof (means_predicate _ Hok dead Hdead r) as Hm; rewrite Hid in Hm; specialize (Hm Hr Hrow).
  - unfold is_dead. by rewrite <- Hm.
  - by rewrite Hm.
Qed.

(** What the pass knows of its count while nothing else runs. *)
Definition counted s0 s (removed : N) : Prop :=
  rows s ⊆ rows s0 ∧ removed = N.of_nat (size (rows s0) - size (rows s)).
Lemma drained_same s0 low s s' :
  db_tables s' = db_tables s → (∀ id, rowid s' id = rowid s id) → drained_below s0 low s → drained_below s0 low s'.
Proof. intros Ht Hi [Hok Hk]. split; rewrite ?Ht; [done|]. intros id r Hr. rewrite Hi. by apply Hk. Qed.
Lemma counted_same s0 s s' n : db_tables s' = db_tables s → counted s0 s n → counted s0 s' n.
Proof. unfold counted. by intros ->. Qed.

Lemma drained_weaken s0 low high s : (low ≤ high)%Z → drained_below s0 high s → drained_below s0 low s.
Proof.
  intros Hle [Hok Hk]. split; [done|]. intros id r Hr. destruct (Hk id r Hr) as [(?&?&[?|Hz])|?]; [left..|by right]; [by auto|].
  split_and!; [done..|]. right. intros z Hz'. specialize (Hz z Hz'). lia.
Qed.

(** The rows deleted are the dead ones of the window. *)
Lemma drained_deleted s0 low high s s' ids :
  drained_below s0 low s →
  (∀ id, id ∈ ids ↔ ∃ r z, rows s !! id = Some r ∧ rowid s id = Some z ∧ (low < z ≤ high)%Z ∧ is_dead r = true) →
  db_tables s' = without ids (db_tables s) →
  (∀ id, is_Some (rows s !! id) → is_Some (rows s' !! id) → rowid s' id = rowid s id) →
  drained_below s0 high s'.
Proof.
  intros [Hok Hk] Hids Ht Hrid. split; [rewrite Ht; by apply without_ok|].
  assert (∀ id, rows s' !! id = if decide (id ∈ ids) then None else rows s !! id) as Hl
    by (intros id; rewrite Ht; apply without_lookup).
  intros id r Hr. destruct (Hk id r Hr) as [(Hs & Hz & Hd)|[Hs Hd]]; [|right; split; [|done]; rewrite Hl; by destruct (decide _)].
  specialize (Hl id). destruct (decide (id ∈ ids)) as [Hin|Hni].
  - right. split; [done|]. apply Hids in Hin as (r' & z & Hr' & _ & _ & Hdead'). congruence.
  - assert (rows s' !! id = Some r) as Hs' by (by rewrite Hl).
    left. split; [done|]. split; [rewrite Hrid by (by eexists); done|].
    destruct (is_dead r) eqn:Hdr; [|by left]. right. intros z Hz0. destruct Hd as [Hd|Hd]; [done|].
    destruct (Z.le_gt_cases z high) as [Hle|]; [|lia]. destruct Hni. apply Hids. exists r, z.
    rewrite Hz. specialize (Hd z Hz0). done.
Qed.
Lemma size_without ids t : tb_rows (without ids t) ⊆ tb_rows t.
Proof. apply map_filter_subseteq. Qed.
Lemma counted_deleted s0 s s' ids n : counted s0 s n → db_tables s' = without ids (db_tables s) →
  counted s0 s' (n +w N.of_nat (size (rows s) - size (tb_rows (without ids (db_tables s))))).
Proof.
  intros [Hsub ->] Ht. assert (rows s' ⊆ rows s) as Hsub' by (rewrite Ht; apply size_without).
  rewrite <- Ht. split; [by transitivity (rows s)|].
  pose proof (map_subseteq_size _ _ Hsub). pose proof (map_subseteq_size _ _ Hsub'). pose proof (law_size s0).
  rewrite wadd_small; unfold i64_max, is_u64, u64_modulus in *; lia.
Qed.

Definition store_failed (e : StoreError) : Prop := admission_error e = true.
Lemma delete_ids_spec s0 low high s ids removed :
  drained_below s0 low s → (low < high)%Z →
  (∀ id, id ∈ ids ↔ ∃ r z, rows s !! id = Some r ∧ rowid s id = Some z ∧ (low < z ≤ high)%Z ∧ is_dead r = true) →
  let (o, s') := delete_ids ids removed s in
  match o with
  | Ok n => drained_below s0 high s' ∧ (counted s0 s removed → counted s0 s' n)
  | Err e => drained_below s0 low s' ∧ store_failed e
  end.
Proof.
  intros Hd Hlow Hids.
  destruct (decide (ids = [])) as [->|Hne].
  { cbn. split; [|done]. apply (drained_deleted s0 low high s s []); [done..| |done]. by rewrite without_nil. }
  assert (delete_ids ids removed s = (_ ← db_admit; ns ← map_db Database (db_transaction [DeleteHeaders ids; DeleteRows ids]);
      mret (removed +w unwrap_or (ns !! 1%nat) 0%N)) s) as -> by (by destruct ids).
  pose proof (law_admit s) as Ha. pose proof (law_admit_err s) as Hae. pose proof (law_rowid_admit s) as Hi.
  destruct (db_admit s) as [[[]|e] s1] eqn:E1; cbn [fst snd] in *.
  2:{ rewrite (st_bind_err _ _ _ _ _ E1). split; [by eapply drained_same|]. by apply Hae. }
  rewrite (st_bind_ok _ _ _ _ _ E1). pose proof (drained_same _ _ _ _ Ha Hi Hd) as Hd1.
  set (l := [DeleteHeaders ids; DeleteRows ids]).
  pose proof (law_rowid_transaction s1 l) as Hti. pose proof (law_transaction_ok s1 l) as Hok.
  pose proof (law_transaction_err s1 l) as Herr.
  destruct (db_transaction l s1) as [[ns|e] s2] eqn:E2; cbn [fst snd] in *.
  - rewrite (st_bind_ok _ _ s1 ns s2) by (unfold map_db; by rewrite E2). cbn -[without].
    specialize (Hok ns eq_refl). unfold l in Hok. rewrite delete_stmts in Hok. injection Hok as Ht <-.
    split; [apply (drained_deleted s0 low high s1 s2 ids Hd1); [|done|done]|].
    + intros id. rewrite Hids, Ha. setoid_rewrite Hi. done.
    + intros Hc. exact (counted_deleted s0 s1 s2 ids removed (counted_same _ s s1 _ Ha Hc) (eq_sym Ht)).
  - rewrite (st_bind_err _ _ s1 (Database e) s2) by (unfold map_db; by rewrite E2). split; [|done].
    destruct (Herr e eq_refl) as [Ht|[ns Ht]].
    + apply (drained_same s0 low s1); [done| |done]. intros id. destruct (rows s1 !! id) as [r|] eqn:Hr.
      * apply Hti; rewrite ?Ht, Hr; by eexists.
      * rewrite (no_rowid s1), (no_rowid s2); [done| |done]. by rewrite Ht.
    + unfold l in Ht. rewrite delete_stmts in Ht. injection Ht as Ht _. apply (drained_weaken s0 low high); [lia|].
      apply (drained_deleted s0 low high s1 s2 ids Hd1); [|done|done].
      intros id. rewrite Hids, Ha. setoid_rewrite Hi. done.
Qed.

(** ** The loop *)
Definition pass_step s0 : Prop := ∀ high s, adds (db_tables s0) s (others high s).
Lemma drained_adds s0 low s s' : adds (db_tables s0) s s' → drained_below s0 low s → drained_below s0 low s'.
Proof.
  intros Ha [Hok Hk]. split; [by apply (ad_ok _ _ _ Ha)|]. intros id r Hr.
  destruct (Hk id r Hr) as [(Hs & Hz & Hd)|[Hs Hd]].
  - destruct (ad_keep _ _ _ Ha id r Hs) as [Hs' Hz']. left. rewrite Hz'. done.
  - right. split; [|done]. destruct (rows s' !! id) as [x|] eqn:Hx; [|done].
    rewrite (ad_new _ _ _ Ha id Hs) in Hr; [done|by eexists].
Qed.
Definition window_size (window : Z) : Z := Z.max window 1.
Lemma window_loop_spec s0 window max_rowid : pass_step s0 → (max_rowid ≤ i64_max)%Z →
  ∀ fuel low s removed,
  drained_below s0 low s → (0 ≤ low)%Z → (max_rowid - low ≤ Z.of_nat fuel * window_size window)%Z →
  let (o, s') := window_loop (R:=R) others dead window max_rowid fuel low removed s in
  match o with
  | Ok (Some n) => drained_below s0 max_rowid s' ∧
      ((∀ h s, others h s = s) → counted s0 s removed → counted s0 s' n)
  | Ok None => False
  | Err e => drained_below s0 low s' ∧ store_failed e
  end.
Proof.
  intros Hstep Hmax fuel. induction fuel as [|fuel IH]; intros low s removed Hd Hlow Hf; cbn [window_loop];
    destruct (Z.ltb_spec low max_rowid) as [Hlt|Hge].
  - unfold window_size in Hf. lia.
  - cbn. split; [by apply (drained_weaken s0 max_rowid low)|done].
  - set (high := i64_saturating_add low (Z.max window 1)).
    assert (low < high)%Z as Hlh by (unfold high, i64_saturating_add, i64_max in *; lia).
    destruct (law_window s low high (predicate (R:=R) dead)) as [Ht Hi].
    pose proof (window_dead s0 low high s) as Hwd.
    destruct (db_window low high (predicate dead) s) as [[ids|e] s1] eqn:Ew; cbn [fst snd] in *.
    2:{ rewrite (st_bind_err _ _ s (Database e) s1) by (unfold map_db; by rewrite Ew).
        split; [by apply (drained_same s0 low s)|done]. }
    rewrite (st_bind_ok _ _ s ids s1) by (unfold map_db; by rewrite Ew). specialize (Hwd ids Hd eq_refl).
    change (match ids with [] => _ | _ => _ end) with (delete_ids ids removed).
    pose proof (delete_ids_spec s0 low high s1 ids removed (drained_same _ _ _ _ Ht Hi Hd) Hlh) as Hdel.
    destruct (delete_ids ids removed s1) as [[n|e] s2] eqn:Edel.
    2:{ rewrite (st_bind_err _ _ _ _ _ Edel). apply Hdel. intros id. rewrite Hwd, Ht. by setoid_rewrite Hi. }
    rewrite (st_bind_ok _ _ _ _ _ Edel). destruct Hdel as [Hd2 Hc2]; [intros id; rewrite Hwd, Ht; by setoid_rewrite Hi|].
    rewrite (st_bind_ok _ _ s2 tt (others high s2)) by done.
    specialize (IH high (others high s2) n (drained_adds _ _ _ _ (Hstep high s2) Hd2)).
    destruct (window_loop _ _ _ _ _ _ _ _) as [[[m|]|e] s3].
    + destruct IH as [H1 H2]; [lia|unfold high, i64_saturating_add, window_size in *; lia|].
      split; [done|]. intros Hq Hc. apply H2; [done|]. rewrite Hq. by apply Hc2, (counted_same _ s).
    + apply IH; [lia|]. unfold high, i64_saturating_add, window_size in *; lia.
    + destruct IH as [H1 H2]; [lia|unfold high, i64_saturating_add, window_size in *; lia|].
      split; [|done]. apply (drained_weaken s0 low high); [lia|done].
  - cbn. split; [by apply (drained_weaken s0 max_rowid low)|done].
Qed.

(** Enough fuel: a window for every window of the rowids there are. *)
Definition fuel_covers (window : Z) (fuel : nat) s : Prop :=
  ∀ id z, rowid s id = Some z → (z ≤ Z.of_nat fuel * window_size window)%Z.
(** What a pass may have done when it fails, and has done when it ends. *)
Definition only_dead_gone s0 s : Prop := tables_ok (db_tables s) ∧
  ∀ id r, rows s0 !! id = Some r → rows s !! id = Some r ∨ rows s !! id = None ∧ is_dead r = true.
Definition dead_gone s0 s : Prop := tables_ok (db_tables s) ∧
  ∀ id r, rows s0 !! id = Some r → rows s !! id = if is_dead r then None else Some r.
(** [s] still has the rows of [s0], where they were. *)
Definition still_has s0 s : Prop :=
  ∀ id r, rows s0 !! id = Some r → rows s !! id = Some r ∧ rowid s id = rowid s0 id.
(** A pass from [s1], for the rows [s0] had. *)
Lemma delete_in_windows_spec window fuel s0 s1 :
  tables_ok (db_tables s1) → still_has s0 s1 → pass_step s0 → fuel_covers window fuel s1 →
  let (o, s') := delete_in_windows (R:=R) others dead window fuel s1 in
  match o with
  | Ok (Some n) => dead_gone s0 s' ∧ ((∀ h s, others h s = s) → counted s0 s1 0 → counted s0 s' n)
  | Ok None => False
  | Err e => only_dead_gone s0 s' ∧ store_failed e
  end.
Proof.
  intros Hok Hhas Hstep Hf. unfold delete_in_windows. destruct (law_max s1) as [Ht Hi]. pose proof (law_max_ok s1) as Hm.
  destruct (db_max_rowid s1) as [[[m|]|e] s2] eqn:Em; cbn [fst snd] in *.
  - rewrite (st_bind_ok _ _ s1 (Some m) s2) by (unfold map_db; by rewrite Em).
    destruct (Hm _ eq_refl) as [Hall Hex]. destruct (Hex m eq_refl) as [idm Hidm].
    assert (drained_below s0 0 s2) as Hd.
    { split; rewrite ?Ht; [done|]. intros id r Hr. destruct (Hhas id r Hr) as [Hr1 Hz1]. left. rewrite Hi.
      split; [done|]. split; [done|]. right. intros z Hz. by apply (law_rowid_range s0 id). }
    pose proof (window_loop_spec s0 window m Hstep ltac:(by apply (law_rowid_range s1 idm)) fuel 0 s2 0 Hd ltac:(done)) as Hl.
    rewrite Z.sub_0_r in Hl. specialize (Hl (Hf _ _ Hidm)).
    destruct (window_loop _ _ _ _ _ _ _ _) as [[[n|]|e] s3]; [|done|].
    + destruct Hl as [[Hok2 Hk] Hc]. split; [|intros Hq Hc1; apply Hc; [done|by apply (counted_same _ s1)]].
      split; [done|]. intros id r Hr. destruct (Hk id r Hr) as [(Hs & _ & [->|Hz])|[Hs ->]]; [done| |done].
      destruct (Hhas id r Hr) as [Hr1 Hz1].
      assert (is_Some (rowid s1 id)) as [z Hz0] by (apply law_rowid_row; by rewrite Hr1).
      specialize (Hz z ltac:(by rewrite <- Hz1)). specialize (Hall id z Hz0). lia.
    + destruct Hl as [[Hok2 Hk] He]. split; [|done]. split; [done|]. intros id r Hr.
      destruct (Hk id r Hr) as [(? & _)|?]; [by left|by right].
  - rewrite (st_bind_ok _ _ s1 None s2) by (unfold map_db; by rewrite Em). destruct (Hm _ eq_refl) as [He _]. cbn.
    split; [|intros _; by apply counted_same]. split; [by rewrite Ht|]. intros id r [Hr _]%Hhas. by rewrite He in Hr.
  - rewrite (st_bind_err _ _ s1 (Database e) s2) by (unfold map_db; by rewrite Em).
    split; [|done]. split; rewrite Ht; [done|]. intros id r Hr. left. by apply Hhas.
Qed.
End drain.
