(* ===== verification/StoreDrainPass.v ===== *)
(** The drain over both event tables, and the reclaim: the theorems, and a database
    with rowids and pragmas. *)
From stdpp Require Import base gmap strings list sorting numbers.
From Stdlib Require Import Lia.
From S2P Require Import Prelude.
From S2P Require Import WorkModel.
From S2P Require Import CoreTranscript.
From S2P Require Import CoreHistory.
From S2P Require BusEnvelope.
From S2P Require Import StoreBase.
From S2P Require Import StoreTable.
From S2P Require Import StoreTableThms.
From S2P Require Import StoreSink.
From S2P Require Import StoreSinkRows.
From S2P Require Import StoreEvents.
From S2P Require Import StoreEventRows.
From S2P Require Import StoreEventThms.
From S2P Require Import StoreDerive.
From S2P Require Import StoreDeriveThms.
From S2P Require Import StoreOpen.
From S2P Require Import StoreOpenThms.
From S2P Require Import StoreDrain.
From S2P Require Import StoreDrainThms.

(** ** A pass over one table, seen from the rest of the state *)
Section keeps.
Context {R S : Type} `{!JsonValue, !EventTable R} {DB : TableDb R S} {RI : RowIds R S}.
(** Whatever each call keeps, the pass keeps. *)
Lemma delete_in_windows_keeps (I : S → Prop) (others : Z → S → S) dead window fuel s :
  (∀ s, I s → I (db_max_rowid s).2) → (∀ s low high x, I s → I (db_window low high x s).2) →
  (∀ s, I s → I (db_admit s).2) → (∀ s l, I s → I (db_transaction l s).2) → (∀ high s, I s → I (others high s)) →
  I s → I (delete_in_windows (R:=R) others dead window fuel s).2.
Proof.
  intros Hmax Hwin Hadm Htx Hoth HI. unfold delete_in_windows, mbind, st_bind, map_db. specialize (Hmax s HI).
  destruct (db_max_rowid s) as [[[m|]|e] s1]; cbn [fst snd] in *; [|done..].
  generalize 0%Z as low, 0%N as removed. clear HI. revert s1 Hmax. induction fuel as [|fuel IH]; intros s1 HI low removed; cbn [window_loop].
  { by destruct (low <? m)%Z. }
  destruct (low <? m)%Z; [|done]. unfold mbind, st_bind, map_db.
  specialize (Hwin s1 low (i64_saturating_add low (Z.max window 1)) (predicate dead) HI).
  destruct (db_window _ _ _ s1) as [[ids|e] s2]; cbn [fst snd] in *; [|done].
  assert (I (delete_ids (R:=R) ids removed s2).2) as Hdel.
  { destruct ids as [|i ids]; [done|]. cbn -[db_transaction db_admit]. unfold mbind, st_bind, map_db.
    specialize (Hadm s2 Hwin). destruct (db_admit s2) as [[?|?] s3]; cbn [fst snd] in *; [|done].
    specialize (Htx s3 [DeleteHeaders (i :: ids); DeleteRows (i :: ids)] Hadm).
    by destruct (db_transaction _ s3) as [[?|?] s4]. }
  change (match ids with [] => _ | _ => _ end) with (delete_ids (R:=R) (S:=S) ids removed).
  destruct (delete_ids ids removed s2) as [[n|e] s3]; cbn [fst snd] in *; [|done].
  apply IH. by apply Hoth.
Qed.
End keeps.

(** What the other tables of a database do not notice of one table's calls. *)
Class Apart (R R' S : Type) `{!JsonValue, !EventTable R, !EventTable R', !TableDb R S, !TableDb R' S,
    !TableDbLaws (R:=R) S, !TableDbLaws (R:=R') S, !RowIds R S, !RowIds R' S, !RowIdLaws R' S} := {
  apart s s' : s' ∈ [(db_max_rowid (R:=R) s).2; (db_admit (R:=R) s).2]
      ∨ (∃ low high x, s' = (db_window (R:=R) low high x s).2) ∨ (∃ l, s' = (db_transaction (R:=R) l s).2) →
    db_tables (R:=R') s' = db_tables (R:=R') s ∧ ∀ id, rowid (R:=R') s' id = rowid (R:=R') s id;
}.

Lemma str_filter_drain : str_filter heartbeat_row ∧ str_filter non_durable_row.
Proof. done. Qed.

Section pass.
Context {JV : JsonValue} {TE : TextEnv} {HJ : HeadersJson} {HL : HeadersJsonLaws}.
Context {BC : BusCodec} {BL : BusCodecLaws} {EC : EventCodec} {EL : EventCodecLaws}.
Context {S : Type} {DBE : TableDb EventRow S} {DBB : TableDb BusRow S}.
Context {DLE : TableDbLaws (R:=EventRow) S} {DLB : TableDbLaws (R:=BusRow) S}.
Context {RIE : RowIds EventRow S} {RIB : RowIds BusRow S} {RLE : RowIdLaws EventRow S} {RLB : RowIdLaws BusRow S}.
Context {EB : Apart EventRow BusRow S} {BE : Apart BusRow EventRow S} {PG : Pragmas S}.
(* pragmas change no row *)
Hypothesis only_keeps : ∀ op s, db_tables (R:=EventRow) (db_only op s).2 = db_tables (R:=EventRow) s ∧
  db_tables (R:=BusRow) (db_only op s).2 = db_tables (R:=BusRow) s.
#[local] Abbreviation events_in s := (db_tables (R:=EventRow) s).
#[local] Abbreviation bus s := (db_tables (R:=BusRow) s).

Definition keeps_tables {A} (m : ST S StoreError A) : Prop :=
  ∀ s, events_in (m s).2 = events_in s ∧ bus (m s).2 = bus s ∧ ∀ e, (m s).1 = Err e → store_failed e.
Lemma keeps_bind {A B} (m : ST S StoreError A) (k : A → ST S StoreError B) :
  keeps_tables m → (∀ a, keeps_tables (k a)) → keeps_tables (m ≫= k).
Proof.
  intros Hm Hk s. destruct (Hm s) as (He & Hb & Hr). unfold mbind, st_bind. destruct (m s) as [[a|e] s1]; cbn [fst snd] in *.
  - destruct (Hk a s1) as (He1 & Hb1 & Hr1). split_and!; [congruence..|done].
  - split_and!; [done..|]. intros e' [= <-]. by apply Hr.
Qed.
Lemma keeps_ret {A} (a : A) : keeps_tables (mret a).
Proof. by intros s. Qed.
Lemma keeps_only op : keeps_tables (sqlite_only op).
Proof using only_keeps.
  intros s. unfold sqlite_only, map_db. destruct (only_keeps op s) as [He Hb].
  destruct (db_only op s) as [[v|e] s1]; cbn [fst snd] in *; (split_and!; [done..|]); by intros ? [= <-].
Qed.
Lemma keeps_pragma p : keeps_tables (pragma_u64 p).
Proof using only_keeps.
  apply keeps_bind; [apply keeps_only|]. intros [|v rows]; [by intros s; split_and!; [..|intros ? [= <-]]|].
  destruct (0 <=? v)%Z; [apply keeps_ret|]. by intros s; split_and!; [..|intros ? [= <-]].
Qed.
Lemma keeps_footprint : keeps_tables footprint.
Proof using only_keeps. by repeat first [apply keeps_ret|apply keeps_bind; [apply keeps_pragma|intros ?]]. Qed.

(** The reclaim ends, and touches no row but what other tasks do. *)
Lemma incremental_loop_ends (others : S → S) fuel free s :
  (N.to_nat free ≤ fuel)%nat → (incremental_loop others fuel free s).1 ≠ Ok false.
Proof.
  revert free s. induction fuel as [|fuel IH]; intros free s Hf; cbn [incremental_loop];
    (destruct (N.ltb_spec 0 free); [|by cbn]); [lia|].
  unfold mbind, st_bind. destruct (sqlite_only _ s) as [[_v|e] s1]; [|done].
  destruct (pragma_u64 _ s1) as [[now|e] s2]; [|done]. destruct (N.leb_spec free now); [done|]. cbn. apply IH. lia.
Qed.

(** ** The pass *)
Variables (others : Z → S → S) (window : Z) (fuel : nat).
(** What other tasks do between windows: add events of both tables, on rowids the
    fuel covers. *)
Record rely (s0 : S) : Prop := {
  rl_events : pass_step (R:=EventRow) others s0;
  rl_bus : pass_step (R:=BusRow) others s0;
  rl_fuel high s : fuel_covers (R:=EventRow) window fuel s → fuel_covers (R:=EventRow) window fuel (others high s);
}.
Definition quiet : Prop := ∀ high s, others high s = s.

Lemma dead_gone_adds {R E} `{!EventTable R, !RowModel R E, !TableDb R S, !TableDbLaws (R:=R) S, !RowIds R S, !RowIdLaws R S}
    dead (s0 s s' : S) : adds (db_tables (R:=R) s0) s s' → dead_gone (R:=R) dead s0 s → dead_gone (R:=R) dead s0 s'.
Proof.
  intros Ha [Hok Hk]. split; [by apply (ad_ok _ _ _ Ha)|]. intros id r Hr. specialize (Hk id r Hr).
  destruct (is_dead dead r).
  - destruct (tb_rows (db_tables s') !! id) eqn:Hs'; [|done]. by rewrite (ad_new _ _ _ Ha id Hk) in Hr.
  - by apply (ad_keep _ _ _ Ha).
Qed.
(** How many of the rows are dead. *)
Definition dead_count {R E} `{!EventTable R, !RowModel R E} (dead : HeaderFilter) (t : Tables R) : N :=
  N.of_nat (size (filter (λ kv, is_dead dead kv.2 = true) (tb_rows t))).
Lemma counted_dead {R E} `{!EventTable R, !RowModel R E, !TableDb R S, !TableDbLaws (R:=R) S} dead (s0 s : S) n :
  dead_gone (R:=R) dead s0 s → counted (R:=R) s0 s n → n = dead_count (R:=R) dead (db_tables s0).
Proof.
  intros [_ Hk] [Hsub ->]. unfold dead_count. f_equal.
  assert (tb_rows (db_tables s) = filter (λ kv, ¬ is_dead dead kv.2 = true) (tb_rows (db_tables s0))) as ->.
  { apply map_eq. intros id. apply option_eq. intros r. rewrite map_lookup_filter_Some. cbn [snd]. split.
    - intros Hs. pose proof (lookup_weaken _ _ _ _ Hs Hsub) as Hr. split; [done|]. rewrite (Hk id r Hr) in Hs. by destruct (is_dead dead r).
    - intros [Hr Hd]. rewrite (Hk id r Hr). by destruct (is_dead dead r). }
  set (m := tb_rows (db_tables s0)).
  rewrite <- (map_filter_union_complement (λ kv, is_dead dead kv.2 = true) m) at 1.
  rewrite map_size_disj_union by apply map_disjoint_filter_complement. lia.
Qed.

(** The bus pass, as the event table sees it. *)
Definition undisturbed s0 s : Prop :=
  tables_ok (events_in s) ∧ still_has (R:=EventRow) s0 s ∧ fuel_covers (R:=EventRow) window fuel s ∧
  (quiet → events_in s = events_in s0).
Lemma undisturbed_apart s0 s s' :
  db_tables (R:=EventRow) s' = db_tables (R:=EventRow) s ∧ (∀ id, rowid (R:=EventRow) s' id = rowid (R:=EventRow) s id) →
  undisturbed s0 s → undisturbed s0 s'.
Proof.
  intros [Ht Hi] (Hok & Hh & Hf & Hq). unfold undisturbed, still_has, fuel_covers. rewrite Ht. setoid_rewrite Hi. done.
Qed.
Lemma undisturbed_others s0 high s : rely s0 → undisturbed s0 s → undisturbed s0 (others high s).
Proof.
  intros Hr (Hok & Hh & Hf & Hq). pose proof (rl_events _ Hr high s) as Ha. split_and!.
  - by apply (ad_ok _ _ _ Ha).
  - intros id r Hid. destruct (Hh id r Hid) as [H1 H2]. destruct (ad_keep _ _ _ Ha id r H1) as [H3 H4]. by rewrite H4.
  - by apply (rl_fuel _ Hr).
  - intros Hquiet. rewrite Hquiet. by apply Hq.
Qed.
Lemma dead_gone_apart dead s0 s s' :
  db_tables (R:=BusRow) s' = db_tables (R:=BusRow) s ∧ (∀ id, rowid (R:=BusRow) s' id = rowid (R:=BusRow) s id) →
  dead_gone (R:=BusRow) dead s0 s → dead_gone (R:=BusRow) dead s0 s'.
Proof. intros [Ht _] [Hok Hk]. by split; rewrite Ht. Qed.
Lemma dead_only {R E} `{!EventTable R, !RowModel R E, !TableDb R S, !TableDbLaws (R:=R) S} dead (s0 s : S) :
  dead_gone (R:=R) dead s0 s → only_dead_gone (R:=R) dead s0 s.
Proof.
  intros [Hok Hk]. split; [done|]. intros id r Hr. rewrite (Hk id r Hr). destruct (is_dead dead r); [by right|by left].
Qed.
(** The drain ends and deletes exactly the dead rows.  A pass that succeeds leaves
    no row it found that is dead (heartbeats of the bus, events of a non-durable class
    of the transcript) and every row it found that is live, in both tables, with their
    header rows, whatever events other tasks store between its windows; run alone, it
    reports the number of the dead rows.  A pass that fails, because the database or
    the admission failed, deleted only dead rows. *)
Theorem drain_exact s :
  tables_ok (events_in s) → tables_ok (bus s) → rely s →
  fuel_covers (R:=EventRow) window fuel s → fuel_covers (R:=BusRow) window fuel s →
  let r := drain_dead_rows_windowed others window fuel s in
  match r.1 with
  | Ok (Some report) =>
      dead_gone (R:=BusRow) heartbeat_row s r.2 ∧ dead_gone (R:=EventRow) non_durable_row s r.2 ∧
      (quiet → heartbeat_rows report = dead_count (R:=BusRow) heartbeat_row (bus s) ∧
        non_durable_rows report = dead_count (R:=EventRow) non_durable_row (events_in s))
  | Ok None => False
  | Err e =>
      only_dead_gone (R:=BusRow) heartbeat_row s r.2 ∧ only_dead_gone (R:=EventRow) non_durable_row s r.2 ∧ store_failed e
  end.
Proof using EB BE only_keeps EL BL HL.
  intros Hoke Hokb Hrely Hfe Hfb. cbv zeta. unfold drain_dead_rows_windowed.
  pose proof (delete_in_windows_spec (R:=BusRow) heartbeat_row (proj1 str_filter_drain) others window fuel s s Hokb
    ltac:(done) (rl_bus _ Hrely) Hfb) as H1.
  assert (undisturbed s (delete_in_windows (R:=BusRow) others heartbeat_row window fuel s).2) as Hu.
  { apply delete_in_windows_keeps.
    - intros s'. apply undisturbed_apart, apart. left. by left.
    - intros s' low high x. apply undisturbed_apart, apart. right. left. by eexists _, _, _.
    - intros s'. apply undisturbed_apart, apart. left. right. by left.
    - intros s' l. apply undisturbed_apart, apart. right. right. by eexists.
    - intros high s'. by apply undisturbed_others.
    - done. }
  destruct (delete_in_windows (R:=BusRow) others heartbeat_row window fuel s) as [[[n|]|e] s1] eqn:E1; cbn [fst snd] in *; [|done|].
  2:{ rewrite (st_bind_err _ _ _ _ _ E1). cbn [fst snd]. split_and!; [apply H1| |apply H1].
      destruct Hu as (? & Hh & _). split; [done|]. left. by apply Hh. }
  rewrite (st_bind_ok _ _ _ _ _ E1). destruct Hu as (Hok1 & Hh1 & Hf1 & Hq1). destruct H1 as [Hb1 Hc1].
  pose proof (delete_in_windows_spec (R:=EventRow) non_durable_row (proj2 str_filter_drain) others window fuel s s1 Hok1
    Hh1 (rl_events _ Hrely) Hf1) as H2.
  assert (dead_gone (R:=BusRow) heartbeat_row s (delete_in_windows (R:=EventRow) others non_durable_row window fuel s1).2) as Hb2.
  { apply (delete_in_windows_keeps (λ s', dead_gone (R:=BusRow) heartbeat_row s s')).
    - intros s'. apply dead_gone_apart, apart. left. by left.
    - intros s' low high x. apply dead_gone_apart, apart. right. left. by eexists _, _, _.
    - intros s'. apply dead_gone_apart, apart. left. right. by left.
    - intros s' l. apply dead_gone_apart, apart. right. right. by eexists.
    - intros high s'. apply dead_gone_adds, (rl_bus _ Hrely).
    - done. }
  destruct (delete_in_windows (R:=EventRow) others non_durable_row window fuel s1) as [[[m|]|e] s2] eqn:E2; cbn [fst snd] in *; [|done|].
  2:{ rewrite (st_bind_err _ _ _ _ _ E2). cbn [fst snd]. split_and!; [by apply dead_only|apply H2..]. }
  rewrite (st_bind_ok _ _ _ _ _ E2). destruct H2 as [He2 Hc2].
  destruct (keeps_footprint s2) as (Hfe2 & Hfb2 & Hferr).
  assert (dead_gone (R:=BusRow) heartbeat_row s (footprint s2).2 ∧ dead_gone (R:=EventRow) non_durable_row s (footprint s2).2)
    as [Hb3 He3] by (unfold dead_gone; rewrite Hfe2, Hfb2; done).
  destruct (footprint s2) as [[f|e] s3] eqn:E3; cbn [fst snd] in *.
  - rewrite (st_bind_ok _ _ _ _ _ E3). cbn. split; [done|split; [done|]]. intros Hquiet. specialize (Hc1 Hquiet). specialize (Hc2 Hquiet). specialize (Hq1 Hquiet). split.
    + apply (counted_dead heartbeat_row s s1 n); [done|]. apply Hc1. split; [done|lia].
    + apply (counted_dead non_durable_row s s2 m); [done|]. apply Hc2. split; rewrite Hq1; [done|lia].
  - rewrite (st_bind_err _ _ _ _ _ E3). split_and!; [by apply dead_only..|]. by apply Hferr.
Qed.
End pass.

Module DrainScenario.
Import OpenScenario.
#[local] Existing Instance StoreScenario.json_tree.
#[local] Existing Instance StoreScenario.text.
#[local] Existing Instance StoreScenario.headers_json.
#[local] Existing Instance StoreScenario.headers_json_laws.
#[local] Existing Instance StoreScenario.event_codec.
#[local] Existing Instance StoreScenario.event_codec_laws.

(** Rowids computed from the ids; pragmas of a file of a hundred pages. *)
Section rowids.
Context {R S : Type} `{!EventTable R} {DB : TableDb R S} {DL : TableDbLaws (R:=R) S}.
Definition row_number (id : N) : Z := Z.of_N (id mod 4611686018427387904) + 1.
#[local] Abbreviation ids s := (map_to_list (tb_rows (db_tables (R:=R) s))).*1.
Definition max_number (l : list N) : option Z :=
  foldr (λ id o, Some (from_option (Z.max (row_number id)) (row_number id) o)) None l.
Definition in_window (low high : Z) (x : Expr R) (t : Tables R) (id : N) : bool :=
  (low <? row_number id)%Z && (row_number id <=? high)%Z &&
    is_some_and (tb_rows t !! id) (λ r, x r (tb_headers t)).
Definition numbered : RowIds R S := {|
  db_max_rowid s := (Ok (max_number (ids s)), s);
  db_window low high x s := (Ok (filter (λ id, in_window low high x (db_tables s) id = true) (ids s)), s);
|}.
Definition number_of (s : S) (id : N) : option Z := (λ _, row_number id) <$> tb_rows (db_tables (R:=R) s) !! id.
Lemma row_number_range id : (0 < row_number id ≤ i64_max)%Z.
Proof.
  unfold row_number, i64_max. pose proof (N.mod_lt id 4611686018427387904 ltac:(done)) as Hlt. revert Hlt.
  generalize (id mod 4611686018427387904)%N. intros n Hn. lia.
Qed.
Lemma elem_ids (s : S) id : id ∈ ids s ↔ is_Some (tb_rows (db_tables (R:=R) s) !! id).
Proof.
  rewrite list_elem_of_fmap. split.
  - intros ([j r] & -> & Hin%elem_of_map_to_list). by eexists.
  - intros [r Hr]. exists (id, r). by rewrite elem_of_map_to_list.
Qed.
Lemma max_number_spec l :
  match max_number l with
  | None => l = []
  | Some m => (∀ id, id ∈ l → (row_number id ≤ m)%Z) ∧ ∃ id, id ∈ l ∧ row_number id = m
  end.
Proof.
  induction l as [|i l IH]; [done|].
  change (max_number (i :: l)) with (Some (from_option (Z.max (row_number i)) (row_number i) (max_number l))).
  destruct (max_number l) as [m|]; cbn [from_option].
  - destruct IH as [Hall (j & Hj & Hm)]. split.
    + intros id [->|Hin]%elem_of_cons; [lia|]. specialize (Hall id Hin). lia.
    + destruct (Z.max_spec (row_number i) m) as [[_ ->]|[_ ->]]; [exists j|exists i]; (split; [|done]); [by right|by left].
  - subst l. split; [|exists i; split; [by left|done]]. by intros id ->%list_elem_of_singleton.
Qed.
Definition numbered_laws : @RowIdLaws R S _ _ _ _ numbered.
Proof.
  refine {| rowid := number_of |}; unfold number_of.
  - intros s id. by rewrite fmap_is_Some.
  - intros s id z. rewrite fmap_Some. intros (r & _ & ->). apply row_number_range.
  - done.
  - intros s o [= <-]. pose proof (max_number_spec (ids s)) as Hm. destruct (max_number (ids s)) as [m|].
    + destruct Hm as [Hall (j & Hj & Hm)]. split.
      * intros id z. rewrite fmap_Some. intros (r & Hr & ->). apply Hall, elem_ids. by eexists.
      * intros m' [= <-]. exists j. apply elem_ids in Hj as [r ->]. by rewrite <- Hm.
    + split; [|done]. apply fmap_nil_inv in Hm. by apply map_to_list_empty_iff.
  - done.
  - intros s low high x l [= <-] id. rewrite list_elem_of_filter, elem_ids. unfold in_window. split.
    + intros [Hw [r Hr]]. rewrite Hr in Hw. cbn in Hw. exists r, (row_number id). rewrite Hr.
      apply andb_true_iff in Hw as [[H1 H2]%andb_true_iff Hx]. split_and!; [done|done|lia..|done].
    + intros (r & z & Hr & Hz & Hlz & Hx). rewrite Hr in Hz |- *. cbn in *. injection Hz as <-. rewrite Hx.
      split; [|by eexists]. apply andb_true_iff. split; [|done]. apply andb_true_iff. lia.
  - intros s id. by rewrite law_admit.
  - intros s l id [r Hr] [r' Hr']. by rewrite Hr, Hr'.
Defined.
End rowids.

#[export] Instance file_event_ids : RowIds EventRow File := numbered.
#[export] Instance file_bus_ids : RowIds BusRow File := numbered.
#[export] Instance file_event_id_laws : RowIdLaws EventRow File := numbered_laws.
#[export] Instance file_bus_id_laws : RowIdLaws BusRow File := numbered_laws.
#[export] Instance file_apart : Apart EventRow BusRow File.
Proof.
  split. intros s s' Hs. assert (db_tables (R:=BusRow) s' = db_tables (R:=BusRow) s) as Ht.
  { destruct Hs as [Hs|[(low & high & x & ->)|[l ->]]].
    - rewrite !elem_of_cons, elem_of_nil in Hs. by destruct Hs as [->|[->|[]]].
    - done.
    - apply other_transaction. }
  split; [done|]. intros id. cbn. unfold number_of. by rewrite Ht.
Qed.
#[export] Instance file_apart' : Apart BusRow EventRow File.
Proof.
  split. intros s s' Hs. assert (db_tables (R:=EventRow) s' = db_tables (R:=EventRow) s) as Ht.
  { destruct Hs as [Hs|[(low & high & x & ->)|[l ->]]].
    - rewrite !elem_of_cons, elem_of_nil in Hs. by destruct Hs as [->|[->|[]]].
    - done.
    - apply other_transaction. }
  split; [done|]. intros id. cbn. unfold number_of. by rewrite Ht.
Qed.
#[export] Instance file_pragmas : Pragmas File := {|
  db_only op := match op with
    | Read PageSize => mret [4096%Z] | Read PageCount => mret [100%Z] | Read FreelistCount => mret [3%Z]
    | Read AutoVacuum => mret [2%Z] | _ => mret [] end
|}.

Definition paging : TranscriptEvent :=
  StoreScenario.said 15 3 ToAll "paging" {[ str "airc.delivery_class" := str "request_response" ]}.
Definition spoken : TranscriptEvent :=
  StoreScenario.said 16 4 ToAll "hello" {[ str "airc.delivery_class" := str "durable" ]}.
Definition beat : BusEnvelope.Envelope :=
  BusEnvelope.MkEnvelope (MkId 22) (MkId 1) (MkId 2, MkId 3) BusEnvelope.TargetAll BusEnvelope.KMessage
    BusEnvelope.Durable (BusEnvelope.MkSeq 1 2) 11 None None {[ str "airc.heartbeat.kind" := str "alive" ]} [104%N].
Definition heavy_events : list TranscriptEvent := [StoreScenario.e1; paging; StoreScenario.e3; spoken].
Definition unopened : File :=
  MkFile (MkDb (underived (event_rows heavy_events)) eq_refl) (MkDb (underived (bus_rows [b1; beat])) eq_refl) migrations.
Definition heavy : File := (apply_migrations 8 unopened).2.
Definition alone : Z → File → File := λ _ s, s.
Lemma heavy_ok : tables_ok (db_tables (R:=EventRow) heavy) ∧ tables_ok (db_tables (R:=BusRow) heavy).
Proof.
  assert (tables_written (db_tables (R:=EventRow) unopened) ∧ tables_written (db_tables (R:=BusRow) unopened)) as [He Hb].
  { split; [apply event_rows_written|apply bus_rows_written];
      repeat (apply list.Forall_cons; split; [|]); try apply list.Forall_nil; try done;
      try (split; [by vm_compute|]); apply headers_text; vm_compute; reflexivity. }
  destruct (apply_migrations_spec 8 unopened He Hb) as (Hd1 & Hd2 & Hr).
  { assert (owed (db_tables (R:=EventRow) unopened) = 4%nat) as -> by (vm_compute; reflexivity).
    assert (owed (db_tables (R:=BusRow) unopened) = 2%nat) as -> by (vm_compute; reflexivity). lia. }
  assert (is_ok (apply_migrations 8 unopened).1 = true) as Hok by (vm_compute; reflexivity).
  unfold heavy. destruct (apply_migrations 8 unopened) as [[b|e] s]; [|done]. cbn [fst snd] in *.
  destruct Hr as (_ & H1 & H2 & _). split; apply written_ok; [apply Hd1|done|apply Hd2|done].
Qed.
(** Whatever rows a concrete file has, their rowids are as small as their ids. *)
Lemma covered {R} `{!EventTable R} {DB : TableDb R File} {DL : TableDbLaws (R:=R) File} (s : File) :
  forallb (λ id, row_number id <=? 32)%Z (map_to_list (tb_rows (db_tables (R:=R) s))).*1 = true →
  fuel_covers (R:=R) (RI:=numbered) (RL:=numbered_laws) 8 4 s.
Proof.
  intros Hs id z. cbn. unfold number_of. rewrite fmap_Some. intros (r & Hr & ->).
  assert (id ∈ (map_to_list (tb_rows (db_tables (R:=R) s))).*1) as Hin by (apply elem_ids; by eexists).
  rewrite List.forallb_forall in Hs. specialize (Hs id). rewrite <- list_elem_of_In in Hs. specialize (Hs Hin).
  apply Z.leb_le in Hs. unfold window_size. lia.
Qed.
Lemma file_only_keeps op (s : File) : db_tables (R:=EventRow) (db_only op s).2 = db_tables (R:=EventRow) s ∧
  db_tables (R:=BusRow) (db_only op s).2 = db_tables (R:=BusRow) s.
Proof. destruct op as [[]| | | |]; split; reflexivity. Qed.
Lemma alone_relies s0 : rely alone 8 4 s0.
Proof. split; [intros h s; apply adds_refl..|]. by intros h s. Qed.
Lemma drain_exact_witness :
  let r := drain_dead_rows_windowed alone 8 4 heavy in
  r.1 = Ok (Some (MkDrainReport 1 1 (MkStoreFootprint 409600 12288))) ∧
  dead_gone (R:=BusRow) heartbeat_row heavy r.2 ∧ dead_gone (R:=EventRow) non_durable_row heavy r.2 ∧
  dead_count (R:=BusRow) heartbeat_row (db_tables heavy) = 1%N ∧
  dead_count (R:=EventRow) non_durable_row (db_tables heavy) = 1%N.
Proof.
  cbv zeta. assert ((drain_dead_rows_windowed alone 8 4 heavy).1 = Ok (Some (MkDrainReport 1 1 (MkStoreFootprint 409600 12288)))) as Hr
    by (vm_compute; reflexivity).
  split; [exact Hr|]. pose proof heavy_ok as [He Hb].
  pose proof (drain_exact (S:=File) file_only_keeps alone 8 4) as Hall.
  specialize (Hall heavy He Hb). cbv zeta in Hall. rename Hall into H. rewrite Hr in H.
  destruct H as (H1 & H2 & Hq).
  - apply alone_relies.
  - apply covered. vm_compute. reflexivity.
  - apply covered. vm_compute. reflexivity.
  - destruct Hq as [Hh Hn]; [intros ? ?; reflexivity|].
    split; [exact H1|]. split; [exact H2|]. split; [exact (eq_sym Hh)|exact (eq_sym Hn)].
Defined.
End DrainScenario.
