(* ===== verification/StoreRegisters.v ===== *)
(** The registers of a store: runtime cursors, subscriptions, mesh identities, scoped
    state, presence beacons, refresh locks, local identities, account registries and
    the bus epoch: [airc-store/src/{sqlite,sqlite/event_store,bus_epoch_store}.rs].

    A table is a finite map by primary key ([Table]); a statement is a function on the
    tables that may fail, and what runs in one transaction is their composition ([Tx]).
    The database that runs transactions is the class [RegisterDb].  The second part is
    the in-memory store, [airc-store/src/memory.rs]: each of its maps is behind a mutex,
    which only a panic poisons; none is modelled. *)
From stdpp Require Import base gmap strings list sorting numbers.
From S2P Require Import Prelude.
From S2P Require Import Sorted.
From S2P Require Import WorkModel.
From S2P Require Import CoreTranscript.
From S2P Require Import CoreHistory.
From S2P Require Import StoreBase.
From S2P Require Import StoreTable.

(** ** What callers see *)
Record StoredSubscription := MkStoredSubscription {
  ss_channel_name : rstring;
  ss_room_id : RoomId;
  ss_wire : rstring;
  ss_joined_at_ms : N;
  ss_is_default : bool;
  ss_parted : bool;
}.
Record StoredMeshIdentity := MkStoredMeshIdentity {
  mi_scope : rstring;
  mi_identity : rstring;
  mi_source : rstring;
  mi_resolved_at_ms : N;
  mi_ttl_ms : N;
}.
(** The same record is the row: [scoped_state_row_to_stored] copies the columns. *)
Record StoredScopedState := MkStoredScopedState {
  sc_scope_key : rstring;
  sc_key : rstring;
  sc_value_json : rstring;
  sc_version : Z;
  sc_updated_at_ms : Z;
  sc_updated_by : option rstring;
}.
Record StoredBeacon := MkStoredBeacon {
  sb_mesh_identity : rstring;
  sb_peer_id : PeerId;
  sb_scope_home : rstring;
  sb_subscribed_channels : list rstring;
  sb_pid : N;
  sb_published_at_ms : N;
  sb_heartbeat_at_ms : N;
}.
Record StoredRefreshLock := MkStoredRefreshLock { rl_mesh_identity : rstring; rl_held_at_ms : N; rl_holder_pid : N }.
Inductive StoredRefreshLockOutcome := LockAcquired | HeldFresh (held_at_ms : N).
Record Identity := MkIdentity {
  id_name : rstring;
  id_pronouns : rstring;
  id_role : rstring;
  id_bio : rstring;
  id_status : rstring;
  id_fingerprint : rstring;
  id_integrations : gmap rstring rstring;
}.
Record StoredLocalIdentity := MkStoredLocalIdentity {
  li_peer_id : PeerId;
  li_client_id : ClientId;
  li_version : N;
  li_created_at_ms : N;
  li_identity : Identity;
  li_agent_name : rstring;
}.
Record StoredAccountRegistry := MkStoredAccountRegistry {
  sa_mesh_identity : rstring;
  sa_schema_version : N;
  sa_generated_at_ms : N;
  sa_document_json : rstring;
  sa_updated_at_ms : N;
}.
Record StoredAccountRegistryGistSentinel := MkSentinel {
  gs_mesh_identity : rstring;
  gs_gist_id : rstring;
  gs_updated_at_ms : N;
}.

(** ** Rows *)
Record CursorRow := MkCursorRow { cr_consumer_id : rstring; cr_lamport : Z; cr_event_id : N; cr_updated_at_ms : Z }.
Record SubscriptionRow := MkSubscriptionRow {
  sr_channel_name : rstring;
  sr_room_id : N;
  sr_wire : rstring;
  sr_joined_at_ms : Z;
  sr_is_default : bool;
  sr_parted : bool;
}.
Record MeshRow := MkMeshRow {
  mr_scope : rstring;
  mr_identity : rstring;
  mr_source : rstring;
  mr_resolved_at_ms : Z;
  mr_ttl_ms : Z;
}.
Record BeaconRow := MkBeaconRow {
  br_mesh_identity : rstring;
  br_peer_id : N;
  br_scope_home : rstring;
  br_pid : Z;
  br_published_at_ms : Z;
  br_heartbeat_at_ms : Z;
}.
Record BeaconChannelRow := MkBeaconChannelRow { bc_mesh_identity : rstring; bc_peer_id : N; bc_channel_name : rstring }.
Record LockRow := MkLockRow { lr_mesh_identity : rstring; lr_held_at_ms : Z; lr_holder_pid : Z }.
Record IdentityRow `{!JsonValue} := MkIdentityRow {
  ir_id : Z;
  ir_peer_id : N;
  ir_client_id : N;
  ir_version : Z;
  ir_created_at_ms : Z;
  ir_name : rstring;
  ir_pronouns : rstring;
  ir_role : rstring;
  ir_bio : rstring;
  ir_status : rstring;
  ir_fingerprint : rstring;
  ir_integrations_json : Json;
  ir_agent_name : rstring;
}.
Record RegistryRow := MkRegistryRow {
  rr_mesh_identity : rstring;
  rr_schema_version : Z;
  rr_generated_at_ms : Z;
  rr_document_json : rstring;
  rr_updated_at_ms : Z;
}.
Record SentinelRow := MkSentinelRow { sn_mesh_identity : rstring; sn_gist_id : rstring; sn_updated_at_ms : Z }.

Definition SINGLETON_ID : Z := 1.
Definition DEFAULT_AGENT_NAME : rstring := str "default".
Definition i32_max : Z := 2147483647.
Definition u32_max : Z := 4294967295.

(** ** Tables, and the statements on one *)
Record Registers `{!JsonValue} := MkRegisters {
  r_cursors : gmap rstring CursorRow;
  r_subscriptions : gmap rstring SubscriptionRow;
  r_mesh : gmap rstring MeshRow;
  r_scoped : gmap (rstring * rstring) StoredScopedState;
  r_beacons : gmap (rstring * N) BeaconRow;
  r_beacon_channels : gmap (rstring * N * rstring) BeaconChannelRow;
  r_locks : gmap rstring LockRow;
  r_identities : gmap Z IdentityRow;
  r_registry : gmap rstring RegistryRow;
  r_sentinels : gmap rstring SentinelRow;
  r_epoch : gmap Z Z;
}.
Arguments MkRegisters {_}.
Arguments MkIdentityRow {_}.
#[export] Instance eta_Registers `{!JsonValue} : Eta Registers :=
  λ r, MkRegisters (r_cursors r) (r_subscriptions r) (r_mesh r) (r_scoped r) (r_beacons r) (r_beacon_channels r)
         (r_locks r) (r_identities r) (r_registry r) (r_sentinels r) (r_epoch r).

Section statements.
Context `{!JsonValue}.
(** What runs in a transaction. *)
Definition Tx (A : Type) : Type := ST Registers StoreError A.
Record Table (K R : Type) `{Countable K} := MkTable {
  tab_get : Registers → gmap K R;
  tab_put : gmap K R → Registers → Registers;
  tab_key : R → K;
}.
Arguments MkTable {_ _ _ _}.
Arguments tab_get {_ _ _ _}.
Arguments tab_put {_ _ _ _}.
Arguments tab_key {_ _ _ _}.
Definition unique_violation : StoreError := Database (DbError (str "UNIQUE constraint failed")).

Section table.
Context {K R : Type} `{Countable K} `{!OrdKey K} (t : Table K R).
Definition find_by_id (k : K) : Tx (option R) := st_gets (λ r, tab_get t r !! k).
(** The rows that satisfy the condition, in the order of the primary key. *)
Definition select_where (p : R → bool) : Tx (list R) := st_gets (λ r, List.filter p (bt_values (tab_get t r))).
(** Writes answer the number of rows they affected. *)
Definition insert_on_conflict (row : R) (update : R → option R) : Tx N := λ r,
  let m := tab_get t r in
  match m !! tab_key t row with
  | None => (Ok 1%N, tab_put t (<[tab_key t row := row]> m) r)
  | Some stored =>
      match update stored with
      | Some new => (Ok 1%N, tab_put t (<[tab_key t row := new]> m) r)
      | None => (Ok 0%N, r)
      end
  end.
Definition insert_row (row : R) : Tx N := λ r,
  let m := tab_get t r in
  match m !! tab_key t row with
  | None => (Ok 1%N, tab_put t (<[tab_key t row := row]> m) r)
  | Some _ => (Err unique_violation, r)
  end.
Definition update_many (p : R → bool) (f : R → R) : Tx N := λ r,
  let m := tab_get t r in
  (Ok (N.of_nat (size (filter (λ kv, p kv.2 = true) m))), tab_put t ((λ row, if p row then f row else row) <$> m) r).
Definition delete_many (p : R → bool) : Tx N := λ r,
  let m := tab_get t r in
  (Ok (N.of_nat (size (filter (λ kv, p kv.2 = true) m))), tab_put t (filter (λ kv, p kv.2 = false) m) r).
Definition delete_by_id (k : K) : Tx N := λ r,
  let m := tab_get t r in
  (Ok (if bool_decide (is_Some (m !! k)) then 1%N else 0%N), tab_put t (delete k m) r).
End table.
(** [Insert::exec]: an insert that affected no row is an error. *)
Definition insert_exec (statement : Tx N) : Tx unit :=
  affected ← statement;
  if (affected =? 0)%N then st_throw (Database RecordNotInserted) else mret tt.

Definition cursors := MkTable r_cursors (λ m r, r <| r_cursors := m |>) cr_consumer_id.
Definition subscriptions := MkTable r_subscriptions (λ m r, r <| r_subscriptions := m |>) sr_channel_name.
Definition mesh_identities := MkTable r_mesh (λ m r, r <| r_mesh := m |>) mr_scope.
Definition scoped_states :=
  MkTable r_scoped (λ m r, r <| r_scoped := m |>) (λ e, (sc_scope_key e, sc_key e)).
Definition beacons :=
  MkTable r_beacons (λ m r, r <| r_beacons := m |>) (λ b, (br_mesh_identity b, br_peer_id b)).
Definition beacon_channels :=
  MkTable r_beacon_channels (λ m r, r <| r_beacon_channels := m |>)
    (λ c, (bc_mesh_identity c, bc_peer_id c, bc_channel_name c)).
Definition refresh_locks := MkTable r_locks (λ m r, r <| r_locks := m |>) lr_mesh_identity.
Definition local_identities := MkTable r_identities (λ m r, r <| r_identities := m |>) ir_id.
Definition account_registries := MkTable r_registry (λ m r, r <| r_registry := m |>) rr_mesh_identity.
Definition gist_sentinels := MkTable r_sentinels (λ m r, r <| r_sentinels := m |>) sn_mesh_identity.
End statements.
Arguments MkTable {_ _ _ _ _}.
Arguments tab_get {_ _ _ _ _}.
Arguments tab_put {_ _ _ _ _}.
Arguments tab_key {_ _ _ _ _}.

(** The database: admission of a write, and one transaction (a statement outside of
    one is its own). *)
Class RegisterDb (S : Type) `{!JsonValue} := {
  rd_admit : ST S StoreError unit;
  rd_run {A} : Tx A → ST S StoreError A;
}.

Section store.
Context `{!JsonValue, !HeadersJson} {S : Type} `{!RegisterDb S}.

(** ** event_store.rs *)
Definition cursor_of_row (m : CursorRow) : TranscriptCursor :=
  MkTranscriptCursor (as_u64 (cr_lamport m)) (MkId (cr_event_id m)).
Definition sql_load_runtime_cursor (consumer_id : rstring) : ST S StoreError (option TranscriptCursor) :=
  row ← rd_run (find_by_id cursors consumer_id);
  mret (cursor_of_row <$> row).
(** Negative stored lamports are the upper half of the unsigned ones. *)
Definition older_lamport (lamport stored : Z) : bool :=
  if (lamport <? 0)%Z then (0 <=? stored)%Z || (stored <? lamport)%Z
  else (0 <=? stored)%Z && (stored <? lamport)%Z.
Definition older_cursor (row stored : CursorRow) : bool :=
  older_lamport (cr_lamport row) (cr_lamport stored)
  || (cr_lamport stored =? cr_lamport row)%Z && (cr_event_id stored <? cr_event_id row)%N.
(** [RecordNotInserted] is no error here. *)
Definition inserted_or_not (m : ST S StoreError unit) : ST S StoreError unit := λ s,
  match m s with
  | (Err (Database RecordNotInserted), s) => (Ok tt, s)
  | r => r
  end.
Definition sql_save_runtime_cursor (consumer_id : rstring) (cursor : TranscriptCursor) (updated_at_ms : N)
    : ST S StoreError unit :=
  _ ← rd_admit;
  let row := MkCursorRow consumer_id (as_i64 (cur_lamport cursor)) (uuid (cur_event_id cursor)) (as_i64 updated_at_ms) in
  inserted_or_not (rd_run (insert_exec (insert_on_conflict cursors row
    (λ stored, if older_cursor row stored then Some row else None)))).

Definition subscription_of_row (row : SubscriptionRow) : result StoreError StoredSubscription :=
  joined ← i64_to_u64 (str "subscriptions.joined_at_ms") (sr_joined_at_ms row);
  Ok (MkStoredSubscription (sr_channel_name row) (MkId (sr_room_id row)) (sr_wire row) joined
        (sr_is_default row) (sr_parted row)).
Definition sql_load_subscriptions : ST S StoreError (list StoredSubscription) :=
  rows ← rd_run (select_where subscriptions (λ _, true));
  st_lift (collect subscription_of_row rows).
Definition insert_subscription (row : StoredSubscription) : Tx unit :=
  joined ← st_lift (u64_to_i64 (str "subscriptions.joined_at_ms") (ss_joined_at_ms row));
  insert_exec (insert_row subscriptions (MkSubscriptionRow (ss_channel_name row) (uuid (ss_room_id row)) (ss_wire row)
    joined (ss_is_default row) (ss_parted row))).
Definition sql_replace_subscriptions (rows : list StoredSubscription) : ST S StoreError unit :=
  _ ← rd_admit;
  rd_run (_ ← delete_many subscriptions (λ _, true); st_iter insert_subscription rows).

Definition mesh_of_row (row : MeshRow) : result StoreError StoredMeshIdentity :=
  resolved ← i64_to_u64 (str "mesh_identity.resolved_at_ms") (mr_resolved_at_ms row);
  ttl ← i64_to_u64 (str "mesh_identity.ttl_ms") (mr_ttl_ms row);
  Ok (MkStoredMeshIdentity (mr_scope row) (mr_identity row) (mr_source row) resolved ttl).
Definition sql_load_mesh_identity (scope : rstring) : ST S StoreError (option StoredMeshIdentity) :=
  row ← rd_run (find_by_id mesh_identities scope);
  st_lift (optional mesh_of_row row).
Definition sql_save_mesh_identity (entry : StoredMeshIdentity) : ST S StoreError unit :=
  _ ← rd_admit;
  resolved ← st_lift (u64_to_i64 (str "mesh_identity.resolved_at_ms") (mi_resolved_at_ms entry));
  ttl ← st_lift (u64_to_i64 (str "mesh_identity.ttl_ms") (mi_ttl_ms entry));
  let row := MkMeshRow (mi_scope entry) (mi_identity entry) (mi_source entry) resolved ttl in
  rd_run (insert_exec (insert_on_conflict mesh_identities row (λ _, Some row))).

Definition sql_get_scoped_state (scope_key key : rstring) : ST S StoreError (option StoredScopedState) :=
  rd_run (find_by_id scoped_states (scope_key, key)).
Definition sql_set_scoped_state (entry : StoredScopedState) : ST S StoreError unit :=
  _ ← rd_admit;
  rd_run (insert_exec (insert_on_conflict scoped_states entry (λ _, Some entry))).
(** Text columns compare by their UTF-8 bytes. *)
Definition sql_advance_scoped_state (entry : StoredScopedState) : ST S StoreError bool :=
  _ ← rd_admit;
  advanced ← rd_run (insert_on_conflict scoped_states entry
    (λ stored, if text_lt (sc_value_json stored) (sc_value_json entry) then Some entry else None));
  mret (0 <? advanced)%N.
Definition sql_list_scoped_state (scope_key : rstring) : ST S StoreError (list StoredScopedState) :=
  rd_run (select_where scoped_states (λ e, bool_decide (sc_scope_key e = scope_key))).
Definition sql_delete_scoped_state (scope_key key : rstring) : ST S StoreError unit :=
  _ ← rd_admit;
  _ ← rd_run (delete_by_id scoped_states (scope_key, key));
  mret tt.

(** *** Beacons *)
Definition u32_from (field : rstring) (value : Z) : result StoreError N :=
  if (0 <=? value)%Z && (value <=? u32_max)%Z then Ok (Z.to_N value) else Err (InvalidStoredValue field value).
Definition channels_of (mesh_identity : rstring) (peer_id : N) (c : BeaconChannelRow) : bool :=
  bool_decide (bc_mesh_identity c = mesh_identity) && (bc_peer_id c =? peer_id)%N.
Definition beacon_from_model (row : BeaconRow) : ST S StoreError StoredBeacon :=
  channels ← rd_run (select_where beacon_channels (channels_of (br_mesh_identity row) (br_peer_id row)));
  st_lift (
    pid ← u32_from (str "beacons.pid") (br_pid row);
    published ← i64_to_u64 (str "beacons.published_at_ms") (br_published_at_ms row);
    heartbeat ← i64_to_u64 (str "beacons.heartbeat_at_ms") (br_heartbeat_at_ms row);
    Ok (MkStoredBeacon (br_mesh_identity row) (MkId (br_peer_id row)) (br_scope_home row) (bc_channel_name <$> channels)
          pid published heartbeat)).
Fixpoint st_collect {A B} (f : A → ST S StoreError B) (l : list A) : ST S StoreError (list B) :=
  match l with
  | [] => mret []
  | x :: l => y ← f x; ys ← st_collect f l; mret (y :: ys)
  end.
Definition sql_load_beacon (mesh_identity : rstring) (peer_id : PeerId) : ST S StoreError (option StoredBeacon) :=
  row ← rd_run (find_by_id beacons (mesh_identity, uuid peer_id));
  match row with
  | Some row => b ← beacon_from_model row; mret (Some b)
  | None => mret None
  end.
Definition sql_list_beacons (mesh_identity : rstring) : ST S StoreError (list StoredBeacon) :=
  rows ← rd_run (select_where beacons (λ b, bool_decide (br_mesh_identity b = mesh_identity)));
  st_collect beacon_from_model rows.
(** [sort], then [dedup]. *)
Definition sorted_channels (channels : list rstring) : list rstring := dedup_key id (merge_sort key_le channels).
Definition sql_save_beacon (entry : StoredBeacon) : ST S StoreError unit :=
  _ ← rd_admit;
  let mesh := sb_mesh_identity entry in
  let peer_uuid := uuid (sb_peer_id entry) in
  rd_run (
    published ← st_lift (u64_to_i64 (str "beacons.published_at_ms") (sb_published_at_ms entry));
    heartbeat ← st_lift (u64_to_i64 (str "beacons.heartbeat_at_ms") (sb_heartbeat_at_ms entry));
    let row := MkBeaconRow mesh peer_uuid (sb_scope_home entry) (Z.of_N (sb_pid entry)) published heartbeat in
    _ ← insert_exec (insert_on_conflict beacons row (λ _, Some row));
    _ ← delete_many beacon_channels (channels_of mesh peer_uuid);
    st_iter (λ channel_name, insert_exec (insert_row beacon_channels (MkBeaconChannelRow mesh peer_uuid channel_name)))
      (sorted_channels (sb_subscribed_channels entry))).
Fixpoint delete_beacon_rows (mesh_identity : rstring) (peer_ids : list PeerId) (removed : N) : Tx N :=
  match peer_ids with
  | [] => mret removed
  | peer_id :: peer_ids =>
      _ ← delete_many beacon_channels (channels_of mesh_identity (uuid peer_id));
      affected ← delete_many beacons
        (λ b, bool_decide (br_mesh_identity b = mesh_identity) && (br_peer_id b =? uuid peer_id)%N);
      delete_beacon_rows mesh_identity peer_ids (removed +w affected)
  end.
Definition sql_delete_beacons (mesh_identity : rstring) (peer_ids : list PeerId) : ST S StoreError N :=
  _ ← rd_admit;
  rd_run (delete_beacon_rows mesh_identity peer_ids 0).

(** ** sqlite.rs *)
(** *** The refresh lock.  Other processes run between the statements: [others]. *)
Section lock.
Variable others : S → S.
Definition MAX_ATTEMPTS : nat := 8.
Fixpoint takeover (mesh_identity : rstring) (now_ms refresh_interval_ms : N) (row : LockRow) (attempts : nat)
    : ST S StoreError StoredRefreshLockOutcome :=
  match attempts with
  | O => mret (HeldFresh now_ms)
  | Datatypes.S attempts =>
      _ ← st_modify others;
      existing ← rd_run (find_by_id refresh_locks mesh_identity);
      match existing with
      | None => takeover mesh_identity now_ms refresh_interval_ms row attempts
      | Some existing =>
          existing_held_at ← st_lift (i64_to_u64 (str "refresh_locks.held_at_ms") (lr_held_at_ms existing));
          if (now_ms - existing_held_at <? refresh_interval_ms)%N then mret (HeldFresh existing_held_at)
          else
            _ ← st_modify others;
            affected ← rd_run (update_many refresh_locks
              (λ r, bool_decide (lr_mesh_identity r = mesh_identity) && (lr_held_at_ms r =? lr_held_at_ms existing)%Z)
              (λ r, MkLockRow (lr_mesh_identity r) (lr_held_at_ms row) (lr_holder_pid row)));
            if (affected =? 1)%N then mret LockAcquired
            else takeover mesh_identity now_ms refresh_interval_ms row attempts
      end
  end.
(** Whether the insert inserted; [RecordNotInserted] says it did not. *)
Definition inserted (m : ST S StoreError unit) : ST S StoreError bool := λ s,
  match m s with
  | (Ok _, s) => (Ok true, s)
  | (Err (Database RecordNotInserted), s) => (Ok false, s)
  | (Err e, s) => (Err e, s)
  end.
Definition sql_try_acquire_refresh_lock (mesh_identity : rstring) (now_ms refresh_interval_ms holder_pid : N)
    : ST S StoreError StoredRefreshLockOutcome :=
  _ ← rd_admit;
  held_at_ms ← st_lift (u64_to_i64 (str "refresh_locks.held_at_ms") now_ms);
  holder_pid ← st_lift (u64_to_i64 (str "refresh_locks.holder_pid") holder_pid);
  let row := MkLockRow mesh_identity held_at_ms holder_pid in
  _ ← st_modify others;
  ok ← inserted (rd_run (insert_exec (insert_on_conflict refresh_locks row (λ _, None))));
  if (ok : bool) then mret LockAcquired
  else takeover mesh_identity now_ms refresh_interval_ms row MAX_ATTEMPTS.
End lock.
Definition sql_release_refresh_lock (mesh_identity : rstring) : ST S StoreError unit :=
  _ ← rd_admit;
  _ ← rd_run (delete_by_id refresh_locks mesh_identity);
  mret tt.

(** *** Local identities *)
Definition identity_from_row (row : IdentityRow) : Identity :=
  MkIdentity (ir_name row) (ir_pronouns row) (ir_role row) (ir_bio row) (ir_status row) (ir_fingerprint row)
    (match headers_from_json (ir_integrations_json row) with Ok m => m | Err _ => ∅ end).
Definition local_identity_of_row (m : IdentityRow) : result StoreError StoredLocalIdentity :=
  version ← u32_from (str "local_identity.version") (ir_version m);
  created ← i64_to_u64 (str "local_identity.created_at_ms") (ir_created_at_ms m);
  Ok (MkStoredLocalIdentity (MkId (ir_peer_id m)) (MkId (ir_client_id m)) version created (identity_from_row m)
        (ir_agent_name m)).
Definition sql_load_local_identity_by_agent_name (agent_name : rstring) : ST S StoreError (option StoredLocalIdentity) :=
  rows ← rd_run (select_where local_identities (λ r, bool_decide (ir_agent_name r = agent_name)));
  st_lift (optional local_identity_of_row (list.head rows)).
Definition sql_load_local_identity : ST S StoreError (option StoredLocalIdentity) :=
  sql_load_local_identity_by_agent_name DEFAULT_AGENT_NAME.
Definition has_local_identity_rows : ST S StoreError bool :=
  rows ← rd_run (select_where local_identities (λ _, true));
  mret (match rows with [] => false | _ => true end).
(** The id is left to the database, which numbers an [INTEGER PRIMARY KEY] one past the
    largest; the agent name has a unique index. *)
Definition next_id (m : gmap Z IdentityRow) : Z := map_fold (λ id _ acc, Z.max id acc) 0%Z m + 1.
Definition insert_identity (row : Z → IdentityRow) : Tx unit := λ r,
  let id := next_id (r_identities r) in
  if bool_decide (map_Forall (λ _ stored, ir_agent_name stored ≠ ir_agent_name (row id)) (r_identities r))
  then insert_exec (insert_row local_identities (row id)) r
  else (Err unique_violation, r).
Definition sql_insert_local_identity (identity : StoredLocalIdentity) : ST S StoreError unit :=
  _ ← rd_admit;
  version ← st_lift (if (Z.of_N (li_version identity) <=? i32_max)%Z then Ok (Z.of_N (li_version identity))
    else Err (InvalidStoredValue (str "local_identity.version") (Z.of_N (li_version identity))));
  created ← st_lift (u64_to_i64 (str "local_identity.created_at_ms") (li_created_at_ms identity));
  let card := li_identity identity in
  integrations ← st_lift (match headers_to_json (id_integrations card) with Ok j => Ok j | Err e => Err (Codec e) end);
  rd_run (insert_identity (λ id, MkIdentityRow id (uuid (li_peer_id identity)) (uuid (li_client_id identity)) version created
    (id_name card) (id_pronouns card) (id_role card) (id_bio card) (id_status card) (id_fingerprint card)
    integrations (li_agent_name identity))).
Definition with_card (identity : Identity) (integrations : Json) (r : IdentityRow) : IdentityRow :=
  MkIdentityRow (ir_id r) (ir_peer_id r) (ir_client_id r) (ir_version r) (ir_created_at_ms r)
    (id_name identity) (id_pronouns identity) (id_role identity) (id_bio identity) (id_status identity)
    (id_fingerprint identity) integrations (ir_agent_name r).
(** [Entity::update] of a row that is gone fails. *)
Definition update_row (id : Z) (new : IdentityRow) : Tx unit :=
  affected ← update_many local_identities (λ r, (ir_id r =? id)%Z) (λ _, new);
  if (affected =? 0)%N then st_throw (Database (DbError (str "RecordNotUpdated"))) else mret tt.
Definition sql_save_local_identity_card (identity : Identity) : ST S StoreError unit :=
  _ ← rd_admit;
  row ← rd_run (find_by_id local_identities SINGLETON_ID);
  match row with
  | None => st_throw (NotFound (str "local_identity"))
  | Some row =>
      integrations ← st_lift (match headers_to_json (id_integrations identity) with Ok j => Ok j | Err e => Err (Codec e) end);
      rd_run (update_row SINGLETON_ID (with_card identity integrations row))
  end.

(** *** Account registries *)
Definition u16_from (field : rstring) (value : Z) : result StoreError N :=
  if (0 <=? value)%Z && (value <? 65536)%Z then Ok (Z.to_N value) else Err (InvalidStoredValue field value).
Definition registry_of_row (m : RegistryRow) : result StoreError StoredAccountRegistry :=
  version ← u16_from (str "account_registry.schema_version") (rr_schema_version m);
  generated ← i64_to_u64 (str "account_registry.generated_at_ms") (rr_generated_at_ms m);
  updated ← i64_to_u64 (str "account_registry.updated_at_ms") (rr_updated_at_ms m);
  Ok (MkStoredAccountRegistry (rr_mesh_identity m) version generated (rr_document_json m) updated).
Definition load_account_registry (mesh_identity : rstring) : ST S StoreError (option StoredAccountRegistry) :=
  row ← rd_run (find_by_id account_registries mesh_identity);
  st_lift (optional registry_of_row row).
Definition save_account_registry (document : StoredAccountRegistry) : ST S StoreError unit :=
  _ ← rd_admit;
  generated ← st_lift (u64_to_i64 (str "account_registry.generated_at_ms") (sa_generated_at_ms document));
  updated ← st_lift (u64_to_i64 (str "account_registry.updated_at_ms") (sa_updated_at_ms document));
  let row := MkRegistryRow (sa_mesh_identity document) (Z.of_N (sa_schema_version document)) generated
    (sa_document_json document) updated in
  rd_run (insert_exec (insert_on_conflict account_registries row (λ _, Some row))).
Definition sentinel_of_row (m : SentinelRow) : result StoreError StoredAccountRegistryGistSentinel :=
  updated ← i64_to_u64 (str "account_registry_gist_sentinel.updated_at_ms") (sn_updated_at_ms m);
  Ok (MkSentinel (sn_mesh_identity m) (sn_gist_id m) updated).
Definition load_account_registry_gist_sentinel (mesh_identity : rstring)
    : ST S StoreError (option StoredAccountRegistryGistSentinel) :=
  row ← rd_run (find_by_id gist_sentinels mesh_identity);
  st_lift (optional sentinel_of_row row).
Definition clear_account_registry_gist_sentinel (mesh_identity : rstring) : ST S StoreError unit :=
  _ ← rd_admit;
  _ ← rd_run (delete_by_id gist_sentinels mesh_identity);
  mret tt.
Definition save_account_registry_gist_sentinel (sentinel : StoredAccountRegistryGistSentinel) : ST S StoreError unit :=
  _ ← rd_admit;
  updated ← st_lift (u64_to_i64 (str "account_registry_gist_sentinel.updated_at_ms") (gs_updated_at_ms sentinel));
  let row := MkSentinelRow (gs_mesh_identity sentinel) (gs_gist_id sentinel) updated in
  rd_run (insert_exec (insert_on_conflict gist_sentinels row (λ _, Some row))).

(** ** bus_epoch_store.rs: insert the cell, or add one to it, and read it back.  Past
    the largest [i64], SQLite's sum is no integer and does not decode. *)
Definition epoch_cell : Tx Z := λ r,
  let epoch := match r_epoch r !! 0%Z with None => 1%Z | Some stored => (stored + 1)%Z end in
  if (epoch <=? i64_max)%Z then (Ok epoch, r <| r_epoch := <[0%Z := epoch]> (r_epoch r) |>)
  else (Err (Database (DbError (str "mismatched types: an INTEGER column holds a REAL"))), r).
Definition bump : ST S StoreError N :=
  epoch ← rd_run epoch_cell;
  st_lift (i64_to_u64 (str "bus_epoch") epoch).
End store.

(** ** memory.rs *)
Record MemRegisters := MkMemRegisters {
  m_local_identities : gmap rstring StoredLocalIdentity;
  m_runtime_cursors : gmap rstring TranscriptCursor;
  m_subscriptions : list StoredSubscription;
  m_mesh_identities : gmap rstring StoredMeshIdentity;
  m_beacons : gmap (rstring * N) StoredBeacon;
  m_refresh_locks : gmap rstring StoredRefreshLock;
  m_scoped_state : gmap (rstring * rstring) StoredScopedState;
}.
#[export] Instance eta_MemRegisters : Eta MemRegisters :=
  λ m, MkMemRegisters (m_local_identities m) (m_runtime_cursors m) (m_subscriptions m) (m_mesh_identities m)
         (m_beacons m) (m_refresh_locks m) (m_scoped_state m).
Definition new_mem : MemRegisters := MkMemRegisters ∅ ∅ [] ∅ ∅ ∅ ∅.
#[local] Abbreviation Mem := (ST MemRegisters StoreError).

Definition mem_load_local_identity_by_agent_name (agent_name : rstring) : Mem (option StoredLocalIdentity) :=
  st_gets (λ m, m_local_identities m !! agent_name).
Definition mem_load_local_identity : Mem (option StoredLocalIdentity) :=
  mem_load_local_identity_by_agent_name DEFAULT_AGENT_NAME.
Definition mem_insert_local_identity (identity : StoredLocalIdentity) : Mem unit := λ m,
  match m_local_identities m !! li_agent_name identity with
  | Some _ => (Err (Database RecordNotInserted), m)
  | None => (Ok tt, m <| m_local_identities := <[li_agent_name identity := identity]> (m_local_identities m) |>)
  end.
#[export] Instance eta_StoredLocalIdentity : Eta StoredLocalIdentity :=
  λ i, MkStoredLocalIdentity (li_peer_id i) (li_client_id i) (li_version i) (li_created_at_ms i) (li_identity i)
         (li_agent_name i).
Definition mem_save_local_identity_card (identity : Identity) : Mem unit := λ m,
  match m_local_identities m !! DEFAULT_AGENT_NAME with
  | None => (Err (NotFound (str "local_identity")), m)
  | Some row =>
      (Ok tt, m <| m_local_identities :=
        <[DEFAULT_AGENT_NAME := row <| li_identity := identity |>]> (m_local_identities m) |>)
  end.

Definition mem_load_runtime_cursor (consumer_id : rstring) : Mem (option TranscriptCursor) :=
  st_gets (λ m, m_runtime_cursors m !! consumer_id).
(** [(lamport, event_id)], as tuples order. *)
Definition tuple_before (a b : TranscriptCursor) : bool :=
  (cur_lamport a <? cur_lamport b)%N
  || (cur_lamport a =? cur_lamport b)%N && (uuid (cur_event_id a) <? uuid (cur_event_id b))%N.
Definition mem_save_runtime_cursor (consumer_id : rstring) (cursor : TranscriptCursor) : Mem unit :=
  st_modify (λ m,
    let kept := match m_runtime_cursors m !! consumer_id with
                | Some previous => if tuple_before previous cursor then cursor else previous
                | None => cursor
                end in
    m <| m_runtime_cursors := <[consumer_id := kept]> (m_runtime_cursors m) |>).
Definition mem_load_subscriptions : Mem (list StoredSubscription) := st_gets m_subscriptions.
Definition mem_replace_subscriptions (rows : list StoredSubscription) : Mem unit :=
  st_modify (λ m, m <| m_subscriptions := rows |>).
Definition mem_load_mesh_identity (scope : rstring) : Mem (option StoredMeshIdentity) :=
  st_gets (λ m, m_mesh_identities m !! scope).
Definition mem_save_mesh_identity (entry : StoredMeshIdentity) : Mem unit :=
  st_modify (λ m, m <| m_mesh_identities := <[mi_scope entry := entry]> (m_mesh_identities m) |>).

Definition mem_get_scoped_state (scope_key key : rstring) : Mem (option StoredScopedState) :=
  st_gets (λ m, m_scoped_state m !! (scope_key, key)).
Definition mem_set_scoped_state (entry : StoredScopedState) : Mem unit :=
  st_modify (λ m, m <| m_scoped_state := <[(sc_scope_key entry, sc_key entry) := entry]> (m_scoped_state m) |>).
Definition mem_advance_scoped_state (entry : StoredScopedState) : Mem bool := λ m,
  let slot := (sc_scope_key entry, sc_key entry) in
  if is_some_and (m_scoped_state m !! slot) (λ stored, text_ge (sc_value_json stored) (sc_value_json entry))
  then (Ok false, m)
  else (Ok true, m <| m_scoped_state := <[slot := entry]> (m_scoped_state m) |>).
Definition mem_list_scoped_state (scope_key : rstring) : Mem (list StoredScopedState) :=
  st_gets (λ m, (filter (λ kv, kv.1.1 = scope_key) (bt_entries (m_scoped_state m))).*2).
Definition mem_delete_scoped_state (scope_key key : rstring) : Mem unit :=
  st_modify (λ m, m <| m_scoped_state := delete (scope_key, key) (m_scoped_state m) |>).

Definition mem_load_beacon (mesh_identity : rstring) (peer_id : PeerId) : Mem (option StoredBeacon) :=
  st_gets (λ m, m_beacons m !! (mesh_identity, uuid peer_id)).
Definition mem_list_beacons (mesh_identity : rstring) : Mem (list StoredBeacon) :=
  st_gets (λ m, sort_by (row_le (λ b, show_uuid (uuid (sb_peer_id b))))
    (filter (λ b, sb_mesh_identity b = mesh_identity) (bt_values (m_beacons m)))).
Definition mem_save_beacon (beacon : StoredBeacon) : Mem unit :=
  st_modify (λ m, m <| m_beacons := <[(sb_mesh_identity beacon, uuid (sb_peer_id beacon)) := beacon]> (m_beacons m) |>).
Fixpoint remove_beacons (mesh_identity : rstring) (peer_ids : list PeerId) (m : gmap (rstring * N) StoredBeacon)
    (removed : N) : gmap (rstring * N) StoredBeacon * N :=
  match peer_ids with
  | [] => (m, removed)
  | peer_id :: peer_ids =>
      let slot := (mesh_identity, uuid peer_id) in
      remove_beacons mesh_identity peer_ids (delete slot m)
        (if bool_decide (is_Some (m !! slot)) then removed +w 1 else removed)
  end.
Definition mem_delete_beacons (mesh_identity : rstring) (peer_ids : list PeerId) : Mem N := λ m,
  let (beacons, removed) := remove_beacons mesh_identity peer_ids (m_beacons m) 0 in
  (Ok removed, m <| m_beacons := beacons |>).

Definition mem_try_acquire_refresh_lock (mesh_identity : rstring) (now_ms refresh_interval_ms holder_pid : N)
    : Mem StoredRefreshLockOutcome := λ m,
  let acquire :=
    (Ok LockAcquired, m <| m_refresh_locks :=
      <[mesh_identity := MkStoredRefreshLock mesh_identity now_ms holder_pid]> (m_refresh_locks m) |>) in
  match m_refresh_locks m !! mesh_identity with
  | Some existing =>
      if (now_ms - rl_held_at_ms existing <? refresh_interval_ms)%N then (Ok (HeldFresh (rl_held_at_ms existing)), m)
      else acquire
  | None => acquire
  end.
Definition mem_release_refresh_lock (mesh_identity : rstring) : Mem unit :=
  st_modify (λ m, m <| m_refresh_locks := delete mesh_identity (m_refresh_locks m) |>).
