(* ===== verification/StoreRegisterThms.v ===== *)
(** The registers on SQLite refine those in memory: the database's laws, the refinement
    of one program by another, and the correspondence of tables and maps. *)
From stdpp Require Import base gmap strings list sorting numbers.
From Stdlib Require Import Lia.
From S2P Require Import Prelude.
From S2P Require Import Sorted.
From S2P Require Import WorkModel.
From S2P Require Import CoreTranscript.
From S2P Require Import CoreHistory.
From S2P Require Import StoreBase.
From S2P Require Import StoreTable.
From S2P Require Import StoreRegisters.

(** The database failed: not an insert that inserted nothing. *)
Definition db_failed (e : StoreError) : Prop := ∃ d, e = Database d ∧ d ≠ RecordNotInserted.
(** A transaction that reports success committed; one that fails left the tables as
    they were, or committed and the report was lost. *)
Class RegisterDbLaws (S : Type) `{!JsonValue, !RegisterDb S} := {
  rd_tables : S → Registers;
  law_rd_admit s : rd_tables (rd_admit s).2 = rd_tables s;
  law_rd_admit_err s e : (rd_admit s).1 = Err e → admission_error e = true;
  law_rd_ok {A} s (tx : Tx A) a : (rd_run tx s).1 = Ok a → tx (rd_tables s) = (Ok a, rd_tables (rd_run tx s).2);
  law_rd_err {A} s (tx : Tx A) e : (rd_run tx s).1 = Err e →
    rd_tables (rd_run tx s).2 = rd_tables s ∧ ((tx (rd_tables s)).1 = Err e ∨ db_failed e) ∨
    db_failed e ∧ ∃ a, tx (rd_tables s) = (Ok a, rd_tables (rd_run tx s).2);
}.

(** A call may fail on SQLite where it does not in memory: the database, the admission,
    or JSON that does not encode. *)
Definition register_fault (e : StoreError) : Prop := admission_error e = true ∨ ∃ t, e = Codec t.
Lemma db_failed_fault e : db_failed e → register_fault e.
Proof. intros (d & -> & _). by left. Qed.

(** ** Programs *)
Section programs.
Context `{!JsonValue} {S : Type} {DB : RegisterDb S} {DL : RegisterDbLaws S}.
Variable R : Registers → MemRegisters → Prop.
Implicit Types (s : S) (m : MemRegisters).

(** [p] from [s] does what [q] does from [m], up to faults. *)
Definition refines {A B} (agree : A → B → Prop) (p : ST S StoreError A) (q : ST MemRegisters StoreError B) s m : Prop :=
  match (p s).1 with
  | Ok a => ∃ b, (q m).1 = Ok b ∧ agree a b ∧ R (rd_tables (p s).2) (q m).2
  | Err e =>
      (q m).1 = Err e ∧ R (rd_tables (p s).2) (q m).2 ∨
      register_fault e ∧ (R (rd_tables (p s).2) m ∨ R (rd_tables (p s).2) (q m).2)
  end.

Lemma refines_admit {A B} agree (p : ST S StoreError A) (q : ST MemRegisters StoreError B) s m :
  R (rd_tables s) m → (∀ s', rd_tables s' = rd_tables s → refines agree p q s' m) →
  refines agree (_ ← rd_admit; p) q s m.
Proof.
  intros Hr Hp. unfold refines. pose proof (law_rd_admit s) as Ht. pose proof (law_rd_admit_err s) as He.
  destruct (rd_admit s) as [[[]|e] s1] eqn:E; cbn [fst snd] in *.
  - rewrite (st_bind_ok _ _ _ _ _ E). by apply Hp.
  - rewrite (st_bind_err _ _ _ _ _ E). right. split; [left; by apply He|left; cbn [snd]; by rewrite Ht].
Qed.
(** A transaction that only reads. *)
Lemma refines_read {A B C} agree (tx : Tx A) (k : A → ST S StoreError B) (q : ST MemRegisters StoreError C) a s m :
  R (rd_tables s) m → tx (rd_tables s) = (Ok a, rd_tables s) →
  (∀ s', rd_tables s' = rd_tables s → refines agree (k a) q s' m) →
  refines agree (x ← rd_run tx; k x) q s m.
Proof.
  intros Hr Htx Hk. unfold refines. pose proof (law_rd_ok s tx) as Hok. pose proof (law_rd_err s tx) as He.
  destruct (rd_run tx s) as [[x|e] s1] eqn:E; cbn [fst snd] in *.
  - rewrite (st_bind_ok _ _ _ _ _ E). specialize (Hok x eq_refl). rewrite Htx in Hok. injection Hok as <- Hs. by apply Hk.
  - rewrite (st_bind_err _ _ _ _ _ E). right. specialize (He e eq_refl). rewrite Htx in He. cbn [fst snd] in *.
    destruct He as [[Hs [[=]|Hf]]|[Hf (x & [= _ Hs])]]; (split; [by apply db_failed_fault|left]); [by rewrite Hs|by rewrite <- Hs].
Qed.
(** A transaction that does what the call does in memory. *)
Lemma refines_run {A B} (agree : A → B → Prop) (tx : Tx A) (q : ST MemRegisters StoreError B) a b t' s m :
  R (rd_tables s) m → tx (rd_tables s) = (Ok a, t') → (q m).1 = Ok b → agree a b → R t' (q m).2 →
  refines agree (rd_run tx) q s m.
Proof.
  intros Hr Htx Hq Hab Hr'. unfold refines. pose proof (law_rd_ok s tx) as Hok. pose proof (law_rd_err s tx) as He.
  destruct (rd_run tx s) as [[x|e] s1]; cbn [fst snd] in *.
  - specialize (Hok x eq_refl). rewrite Htx in Hok. injection Hok as <- Hs. exists b. rewrite <- Hs. done.
  - right. specialize (He e eq_refl). rewrite Htx in He. cbn [fst snd] in *.
    destruct He as [[Hs [[=]|Hf]]|[Hf (x & [= _ Hs])]]; (split; [by apply db_failed_fault|]); [left; by rewrite Hs|right; by rewrite <- Hs].
Qed.
(** A transaction that does the work, before the answer is made of what it answered. *)
Lemma refines_write {A B C} (agree : A → C → Prop) (tx : Tx B) (k : B → ST S StoreError A) (q : ST MemRegisters StoreError C)
    b t' s m :
  R (rd_tables s) m → tx (rd_tables s) = (Ok b, t') → R t' (q m).2 →
  (∀ s', rd_tables s' = t' → refines agree (k b) q s' m) → refines agree (x ← rd_run tx; k x) q s m.
Proof.
  intros Hr Htx Hr' Hk. unfold refines. pose proof (law_rd_ok s tx) as Hok. pose proof (law_rd_err s tx) as He.
  destruct (rd_run tx s) as [[x|e] s1] eqn:E; cbn [fst snd] in *.
  - rewrite (st_bind_ok _ _ _ _ _ E). specialize (Hok x eq_refl). rewrite Htx in Hok. injection Hok as <- Hs. by apply Hk.
  - rewrite (st_bind_err _ _ _ _ _ E). right. specialize (He e eq_refl). rewrite Htx in He. cbn [fst snd] in *.
    destruct He as [[Hs [[=]|Hf]]|[Hf (x & [= _ Hs])]]; (split; [by apply db_failed_fault|]); [left; by rewrite Hs|right; by rewrite <- Hs].
Qed.
(** A transaction that fails as the call fails in memory, or as a fault. *)
Lemma refines_run_err {A B} (agree : A → B → Prop) (tx : Tx A) (q : ST MemRegisters StoreError B) e s m :
  R (rd_tables s) m → (tx (rd_tables s)).1 = Err e → register_fault e → refines agree (rd_run tx) q s m.
Proof.
  intros Hr Htx Hf. unfold refines. pose proof (law_rd_ok s tx) as Hok. pose proof (law_rd_err s tx) as He.
  destruct (rd_run tx s) as [[x|e'] s1]; cbn [fst snd] in *.
  - specialize (Hok x eq_refl). by rewrite Hok in Htx.
  - right. specialize (He e' eq_refl). destruct He as [[Hs He]|[Hd (x & Hx)]]; [|by rewrite Hx in Htx].
    rewrite Hs. split; [|by left]. destruct He as [He|Hd]; [|by apply db_failed_fault]. congruence.
Qed.
Lemma refines_ret {A B} (agree : A → B → Prop) a (q : ST MemRegisters StoreError B) b s m :
  (q m).1 = Ok b → agree a b → R (rd_tables s) (q m).2 → refines agree (mret a) q s m.
Proof. intros. unfold refines. cbn. by exists b. Qed.
Lemma refines_throw {A B} (agree : A → B → Prop) e (q : ST MemRegisters StoreError B) s m :
  (q m).1 = Err e → R (rd_tables s) (q m).2 → refines agree (st_throw e) q s m.
Proof. intros. unfold refines. cbn. by left. Qed.
Lemma refines_lift {A B C} (agree : B → C → Prop) (r : result StoreError A) x (k : A → ST S StoreError B)
    (q : ST MemRegisters StoreError C) s m :
  r = Ok x → refines agree (k x) q s m → refines agree (y ← st_lift r; k y) q s m.
Proof. by intros ->. Qed.
Lemma refines_lift_ret {A C} (agree : A → C → Prop) (r : result StoreError A) x (q : ST MemRegisters StoreError C) s m :
  r = Ok x → refines agree (mret x) q s m → refines agree (st_lift r) q s m.
Proof. by intros ->. Qed.
(** What is done with the answers. *)
Lemma refines_map {A B A' B'} (agree : A → B → Prop) (agree' : A' → B' → Prop) (f : A → A') (g : B → B') p q s m :
  (∀ a b, agree a b → agree' (f a) (g b)) → refines agree p q s m →
  refines agree' (a ← p; mret (f a)) (b ← q; mret (g b)) s m.
Proof.
  intros Hf. unfold refines, mbind, st_bind. destruct (p s) as [[a|e] s1], (q m) as [[b|e'] m1]; cbn.
  - intros (? & [= <-] & Ha & Hr). exists (g b). auto.
  - by intros (? & ? & _).
  - intros [[[=] _]|Hfault]; by right.
  - intros [[[= ->] ?]|?]; [by left|by right].
Qed.
Lemma refines_fmap {A B A'} (agree : A' → B → Prop) (f : A → A') p (q : ST MemRegisters StoreError B) s m :
  refines (λ a b, agree (f a) b) p q s m → refines agree (a ← p; mret (f a)) q s m.
Proof. unfold refines, mbind, st_bind. by destruct (p s) as [[a|e] s1]. Qed.
(** An insert whose conflict is no error. *)
Lemma refines_inserted_or_not {B} (agree : unit → B → Prop) (tx : Tx unit) (q : ST MemRegisters StoreError B) s m :
  R (rd_tables s) m →
  (tx (rd_tables s)).1 = Err (Database RecordNotInserted) → (∃ b, (q m).1 = Ok b ∧ agree tt b ∧ R (rd_tables s) (q m).2) →
  refines agree (inserted_or_not (rd_run tx)) q s m.
Proof.
  intros Hr Htx Hq. unfold refines, inserted_or_not. pose proof (law_rd_ok s tx) as Hok. pose proof (law_rd_err s tx) as He.
  destruct (rd_run tx s) as [[x|e] s1]; cbn [fst snd] in *.
  { specialize (Hok x eq_refl). by rewrite Hok in Htx. }
  destruct (He e eq_refl) as [[Hs Hd]|[_ (x & Hx)]]; [|by rewrite Hx in Htx].
  destruct Hd as [Hd|(d & -> & Hd)].
  - rewrite Htx in Hd. injection Hd as <-. cbn. rewrite Hs. done.
  - destruct d; [done|]. cbn. right. rewrite Hs. split; [by left|by left].
Qed.
Lemma refines_inserted_ok {B} (agree : unit → B → Prop) (tx : Tx unit) (q : ST MemRegisters StoreError B) b t' s m :
  R (rd_tables s) m → tx (rd_tables s) = (Ok tt, t') → (q m).1 = Ok b → agree tt b → R t' (q m).2 →
  refines agree (inserted_or_not (rd_run tx)) q s m.
Proof.
  intros Hr Htx Hq Hab Hr'. unfold refines, inserted_or_not. pose proof (law_rd_ok s tx) as Hok. pose proof (law_rd_err s tx) as He.
  destruct (rd_run tx s) as [[[]|e] s1]; cbn [fst snd] in *.
  - specialize (Hok tt eq_refl). rewrite Htx in Hok. injection Hok as Hs. cbn. exists b. rewrite <- Hs. done.
  - specialize (He e eq_refl). rewrite Htx in He. cbn [fst snd] in *.
    assert (∃ d, e = Database d ∧ d ≠ RecordNotInserted ∧ (rd_tables s1 = rd_tables s ∨ rd_tables s1 = t')) as (d & -> & Hd & Hs).
    { destruct He as [[Hs [[=]|(d & -> & Hd)]]|[(d & -> & Hd) (x & [= _ Hs])]]; exists d; auto. }
    destruct d; [done|]. cbn. right. split; [by left|]. destruct Hs as [-> | ->]; [by left|by right].
Qed.
(** An insert that says whether it inserted: [b], and the tables after it. *)
Lemma refines_inserted {A C} (agree : A → C → Prop) (tx : Tx unit) (k : bool → ST S StoreError A)
    (q : ST MemRegisters StoreError C) (b : bool) t' s m :
  R (rd_tables s) m →
  (if b then tx (rd_tables s) = (Ok tt, t') ∧ R t' (q m).2
   else (tx (rd_tables s)).1 = Err (Database RecordNotInserted) ∧ t' = rd_tables s) →
  (∀ s', rd_tables s' = t' → refines agree (k b) q s' m) →
  refines agree (ok ← inserted (rd_run tx); k ok) q s m.
Proof.
  intros Hr Htx Hk. pose proof (law_rd_ok s tx) as Hok. pose proof (law_rd_err s tx) as He.
  destruct (rd_run tx s) as [[[]|e] s1] eqn:E; cbn [fst snd] in *.
  - specialize (Hok tt eq_refl). destruct b; [|by rewrite Hok in Htx; destruct Htx].
    destruct Htx as [Htx _]. rewrite Htx in Hok. injection Hok as Hs. unfold refines.
    rewrite (st_bind_ok _ _ s true s1) by (unfold inserted; by rewrite E). by apply Hk.
  - assert (db_failed e ∧ (R (rd_tables s1) m ∨ R (rd_tables s1) (q m).2) ∨
      b = false ∧ e = Database RecordNotInserted ∧ rd_tables s1 = rd_tables s) as Hcase.
    { destruct (He e eq_refl) as [[Hs [Htx'|Hd]]|[Hd (x & Hx)]].
      - destruct b; destruct Htx as [Htx ?]; [by rewrite Htx in Htx'|]. right. split_and!; [done| |done]. congruence.
      - left. split; [done|]. left. by rewrite Hs.
      - destruct b; destruct Htx as [Htx Hr']; rewrite Hx in Htx; [|done]. injection Htx as _ <-. left. by split; [|right]. }
    destruct Hcase as [[(d & -> & Hd) Hr']|(-> & -> & Hs)].
    + unfold refines. rewrite (st_bind_err _ _ s (Database d) s1) by (unfold inserted; rewrite E; by destruct d).
      right. split; [by left|done].
    + unfold refines. rewrite (st_bind_ok _ _ s false s1) by (unfold inserted; by rewrite E). apply Hk. destruct Htx as [_ ->]. done.
Qed.
End programs.

(** ** Tables and maps *)
Section agree.
Context {K R V : Type} `{Countable K} (P : K → R → V → Prop).
Definition tables_agree (t : gmap K R) (m : gmap K V) : Prop := ∀ k, option_Forall2 (P k) (t !! k) (m !! k).
Lemma agree_insert t m k r v : tables_agree t m → P k r v → tables_agree (<[k := r]> t) (<[k := v]> m).
Proof.
  intros Ha Hp j. destruct (decide (k = j)) as [<-|Hne]; [rewrite !lookup_insert_eq; by constructor|].
  rewrite !lookup_insert_ne by done. apply Ha.
Qed.
Lemma agree_delete t m k : tables_agree t m → tables_agree (delete k t) (delete k m).
Proof.
  intros Ha j. destruct (decide (k = j)) as [<-|Hne]; [rewrite !lookup_delete_eq; constructor|].
  rewrite !lookup_delete_ne by done. apply Ha.
Qed.
Lemma agree_some t m k r : tables_agree t m → t !! k = Some r → ∃ v, m !! k = Some v ∧ P k r v.
Proof. intros Ha Hr. specialize (Ha k). rewrite Hr in Ha. inversion Ha; subst. eauto. Qed.
Lemma agree_none t m k : tables_agree t m → t !! k = None → m !! k = None.
Proof. intros Ha Hr. specialize (Ha k). rewrite Hr in Ha. by inversion Ha. Qed.
End agree.
Lemma insert_exec_put `{!JsonValue} {K R} `{Countable K} (t : Table K R) row (update : R → option R) new (r : Registers) :
  match tab_get t r !! tab_key t row with Some stored => update stored = Some new | None => new = row end →
  insert_exec (insert_on_conflict t row update) r = (Ok tt, tab_put t (<[tab_key t row := new]> (tab_get t r)) r).
Proof.
  unfold insert_exec, insert_on_conflict, mbind, st_bind. destruct (_ !! _) as [stored|]; [by intros ->|by intros ->].
Qed.
Lemma insert_exec_kept `{!JsonValue} {K R} `{Countable K} (t : Table K R) row (update : R → option R) stored (r : Registers) :
  tab_get t r !! tab_key t row = Some stored → update stored = None →
  insert_exec (insert_on_conflict t row update) r = (Err (Database RecordNotInserted), r).
Proof. intros Hs Hu. unfold insert_exec, insert_on_conflict, mbind, st_bind. by rewrite Hs, Hu. Qed.
(** An update whose condition picks the row of one key. *)
Lemma update_many_one `{!JsonValue} {K R} `{Countable K} (t : Table K R) (p : R → bool) (f : R → R) k r0 (r : Registers) :
  tab_get t r !! k = Some r0 → p r0 = true → (∀ j x, tab_get t r !! j = Some x → j ≠ k → p x = false) →
  update_many t p f r = (Ok 1%N, tab_put t (<[k := f r0]> (tab_get t r)) r).
Proof.
  intros Hk Hp Hother. unfold update_many. set (m := tab_get t r) in *.
  assert (filter (λ kv : K * R, p kv.2 = true) m = {[k := r0]}) as ->.
  { apply map_eq. intros j. apply option_eq. intros x. rewrite map_lookup_filter_Some, lookup_singleton_Some. cbn. split.
    - intros [Hx Hpx]. destruct (decide (j = k)) as [->|Hj]; [|by rewrite (Hother j x Hx Hj) in Hpx]. split; [done|]. congruence.
    - by intros [<- <-]. }
  rewrite map_size_singleton.
  assert ((λ row, if p row then f row else row) <$> m = <[k := f r0]> m) as ->; [|done].
  apply map_eq. intros j. rewrite lookup_fmap. destruct (decide (j = k)) as [->|Hj].
  - rewrite Hk, lookup_insert_eq. cbn. by rewrite Hp.
  - rewrite lookup_insert_ne by done. destruct (m !! j) as [x|] eqn:Hx; [|done]. cbn. by rewrite (Hother j x Hx Hj).
Qed.
Lemma update_many_none `{!JsonValue} {K R} `{Countable K} (t : Table K R) (p : R → bool) (f : R → R) (r : Registers) n r' :
  (∀ m, tab_put t (tab_get t m) m = m) → (∀ j x, tab_get t r !! j = Some x → p x = false) →
  update_many t p f r = (Ok n, r') → n = 0%N ∧ r' = r.
Proof.
  intros Hput Hnone. unfold update_many. set (m := tab_get t r) in *.
  assert (filter (λ kv : K * R, p kv.2 = true) m = ∅) as ->.
  { apply map_empty. intros j. apply map_lookup_filter_None. right. intros x Hx. cbn. by rewrite (Hnone j x Hx). }
  assert ((λ row, if p row then f row else row) <$> m = m) as ->.
  { apply map_eq. intros j. rewrite lookup_fmap. destruct (m !! j) as [x|] eqn:Hx; [|done]. cbn. by rewrite (Hnone j x Hx). }
  rewrite map_size_empty. intros [= <- <-]. split; [done|apply Hput].
Qed.
Lemma elem_bt_perm {K V} `{Countable K} `{!OrdKey K} (m : gmap K V) : bt_values m ≡ₚ (map_to_list m).*2.
Proof. unfold bt_values. by rewrite bt_entries_perm. Qed.
Lemma list_filter_eq {A} (p : A → bool) l : List.filter p l = filter (λ x, p x = true) l.
Proof.
  induction l as [|x l IH]; [done|]. cbn [List.filter]. rewrite filter_cons. destruct (p x) eqn:Hp.
  - rewrite decide_True by done. by rewrite IH.
  - rewrite decide_False by congruence. done.
Qed.
Lemma i64_fits field n : (Z.of_N n ≤ i64_max)%Z → u64_to_i64 field n = Ok (Z.of_N n).
Proof. unfold u64_to_i64. intros Hn. by destruct (Z.leb_spec (Z.of_N n) i64_max); [|lia]. Qed.
Lemma u64_back field n : i64_to_u64 field (Z.of_N n) = Ok n.
Proof. unfold i64_to_u64. destruct (Z.leb_spec 0 (Z.of_N n)); [by rewrite N2Z.id|lia]. Qed.
Lemma u32_back field n : (Z.of_N n ≤ u32_max)%Z → u32_from field (Z.of_N n) = Ok n.
Proof.
  unfold u32_from. intros Hn. destruct (Z.leb_spec 0 (Z.of_N n)), (Z.leb_spec (Z.of_N n) u32_max); try lia.
  cbn. by rewrite N2Z.id.
Qed.
#[local] Abbreviation fits n := (Z.of_N n ≤ i64_max)%Z.

(** ** The correspondence *)
Section registers.
Context `{!JsonValue} {HJ : HeadersJson} {HL : HeadersJsonLaws}.
Implicit Types (T : Registers) (m : MemRegisters).

Definition cursor_row (k : rstring) (r : CursorRow) (c : TranscriptCursor) : Prop :=
  cr_lamport r = as_i64 (cur_lamport c) ∧ cr_event_id r = uuid (cur_event_id c) ∧ is_u64 (cur_lamport c).
Definition subscription_row (s : StoredSubscription) : SubscriptionRow :=
  MkSubscriptionRow (ss_channel_name s) (uuid (ss_room_id s)) (ss_wire s) (Z.of_N (ss_joined_at_ms s))
    (ss_is_default s) (ss_parted s).
Definition mesh_row (e : StoredMeshIdentity) : MeshRow :=
  MkMeshRow (mi_scope e) (mi_identity e) (mi_source e) (Z.of_N (mi_resolved_at_ms e)) (Z.of_N (mi_ttl_ms e)).
Definition beacon_row (b : StoredBeacon) : BeaconRow :=
  MkBeaconRow (sb_mesh_identity b) (uuid (sb_peer_id b)) (sb_scope_home b) (Z.of_N (sb_pid b))
    (Z.of_N (sb_published_at_ms b)) (Z.of_N (sb_heartbeat_at_ms b)).
Definition lock_row (l : StoredRefreshLock) : LockRow :=
  MkLockRow (rl_mesh_identity l) (Z.of_N (rl_held_at_ms l)) (Z.of_N (rl_holder_pid l)).
(** The row of an identity under an id, when its integrations encode. *)
Definition identity_row (id : Z) (r : IdentityRow) (i : StoredLocalIdentity) : Prop :=
  ∃ integrations, headers_to_json (id_integrations (li_identity i)) = Ok integrations ∧
  (Z.of_N (li_version i) ≤ i32_max)%Z ∧ fits (li_created_at_ms i) ∧
  r = MkIdentityRow id (uuid (li_peer_id i)) (uuid (li_client_id i)) (Z.of_N (li_version i)) (Z.of_N (li_created_at_ms i))
    (id_name (li_identity i)) (id_pronouns (li_identity i)) (id_role (li_identity i)) (id_bio (li_identity i))
    (id_status (li_identity i)) (id_fingerprint (li_identity i)) integrations (li_agent_name i).

Definition subscription_fits (s : StoredSubscription) : Prop := fits (ss_joined_at_ms s).
Definition beacon_fits (b : StoredBeacon) : Prop :=
  (Z.of_N (sb_pid b) ≤ u32_max)%Z ∧ fits (sb_published_at_ms b) ∧ fits (sb_heartbeat_at_ms b).
Definition beacon_key (b : StoredBeacon) : rstring * N := (sb_mesh_identity b, uuid (sb_peer_id b)).

(** The identities: one row per agent name, the default agent's the first. *)
Record identities_agree (t : gmap Z IdentityRow) (m : gmap rstring StoredLocalIdentity) : Prop := {
  ia_row id r : t !! id = Some r → ∃ i, m !! ir_agent_name r = Some i ∧ identity_row id r i;
  ia_map name i : m !! name = Some i → li_agent_name i = name ∧ ∃ id r, t !! id = Some r ∧ ir_agent_name r = name;
  ia_unique id id' r r' : t !! id = Some r → t !! id' = Some r' → ir_agent_name r = ir_agent_name r' → id = id';
  ia_default : ∃ r, t !! SINGLETON_ID = Some r ∧ ir_agent_name r = DEFAULT_AGENT_NAME;
}.
Record registers_agree T m : Prop := {
  ra_cursors : tables_agree cursor_row (r_cursors T) (m_runtime_cursors m);
  ra_subscriptions : NoDup (ss_channel_name <$> m_subscriptions m) ∧ Forall subscription_fits (m_subscriptions m) ∧
    r_subscriptions T = list_to_map ((λ s, (ss_channel_name s, subscription_row s)) <$> m_subscriptions m);
  ra_mesh : tables_agree (λ k r e, r = mesh_row e ∧ k = mi_scope e ∧ fits (mi_resolved_at_ms e) ∧ fits (mi_ttl_ms e))
    (r_mesh T) (m_mesh_identities m);
  ra_scoped : r_scoped T = m_scoped_state m ∧ map_Forall (λ k e, k = (sc_scope_key e, sc_key e)) (m_scoped_state m);
  ra_beacons : tables_agree (λ k r b, r = beacon_row b ∧ k = beacon_key b ∧ beacon_fits b) (r_beacons T) (m_beacons m);
  ra_channels k c : r_beacon_channels T !! k = Some c ↔
    k = (bc_mesh_identity c, bc_peer_id c, bc_channel_name c) ∧
    ∃ b, m_beacons m !! (bc_mesh_identity c, bc_peer_id c) = Some b ∧ bc_channel_name c ∈ sb_subscribed_channels b;
  ra_locks : tables_agree (λ k r l, r = lock_row l ∧ k = rl_mesh_identity l ∧ fits (rl_held_at_ms l)) (r_locks T) (m_refresh_locks m);
  ra_identities : identities_agree (r_identities T) (m_local_identities m);
}.

Context {S : Type} {DB : RegisterDb S} {DL : RegisterDbLaws S}.
Implicit Types (s : S).
#[local] Abbreviation agrees s m := (registers_agree (rd_tables s) m).
#[local] Abbreviation same := (refines registers_agree eq).
Lemma agrees_eq s s' m : agrees s m → rd_tables s' = rd_tables s → agrees s' m.
Proof. by intros ? ->. Qed.

(** ** Runtime cursors *)
Lemma as_i64_inj a b : is_u64 a → is_u64 b → (as_i64 a =? as_i64 b)%Z = (a =? b)%N.
Proof.
  intros Ha Hb. destruct (Z.eqb_spec (as_i64 a) (as_i64 b)) as [He|Hn], (N.eqb_spec a b) as [->|Hne]; try done.
  destruct Hne. by rewrite <- (as_u64_i64 a), <- (as_u64_i64 b), He.
Qed.
(** The comparison in the upsert orders all of [u64]. *)
Lemma older_lamport_spec a b : is_u64 a → is_u64 b → older_lamport (as_i64 a) (as_i64 b) = (b <? a)%N.
Proof.
  unfold is_u64, u64_modulus, older_lamport, as_i64. intros Ha Hb.
  destruct (N.ltb_spec a 9223372036854775808), (N.ltb_spec b 9223372036854775808), (N.ltb_spec b a);
    repeat (match goal with |- context [(?x <? ?y)%Z] => destruct (Z.ltb_spec x y) | |- context [(?x <=? ?y)%Z] => destruct (Z.leb_spec x y) end);
    cbn; try reflexivity; lia.
Qed.
Lemma older_cursor_spec k r c c' id ms : cursor_row k r c → is_u64 (cur_lamport c') →
  older_cursor (MkCursorRow id (as_i64 (cur_lamport c')) (uuid (cur_event_id c')) (as_i64 ms)) r = tuple_before c c'.
Proof.
  intros (Hl & He & Hu) Hu'. unfold older_cursor, tuple_before. cbn. rewrite Hl, He, older_lamport_spec, as_i64_inj by done. done.
Qed.
Lemma cursor_of_cursor_row k r c : cursor_row k r c → cursor_of_row r = c.
Proof.
  destruct c as [l [u]]. intros (Hl & He & Hu). unfold cursor_of_row. rewrite Hl, He. cbn in *. by rewrite as_u64_i64.
Qed.
Lemma load_runtime_cursor_same k s m : agrees s m → same (sql_load_runtime_cursor k) (mem_load_runtime_cursor k) s m.
Proof.
  intros Ha. eapply refines_read; [done|done|]. intros s' Hs'. eapply refines_ret; [done| |cbn; by rewrite Hs'].
  pose proof (ra_cursors _ _ Ha k) as Hk. cbn. destruct Hk as [r c Hrc|]; [|done]. cbn. f_equal. by eapply cursor_of_cursor_row.
Qed.
Lemma save_runtime_cursor_same k c now s m : agrees s m → is_u64 (cur_lamport c) →
  same (sql_save_runtime_cursor k c now) (mem_save_runtime_cursor k c) s m.
Proof.
  intros Ha Hc. apply refines_admit; [done|]. intros s' Hs'. pose proof (agrees_eq _ _ _ Ha Hs') as Ha'. clear s Ha Hs'.
  unfold sql_save_runtime_cursor. cbv zeta.
  set (row := MkCursorRow k (as_i64 (cur_lamport c)) (uuid (cur_event_id c)) (as_i64 now)).
  assert (cr_consumer_id row = k) as Hkey by done.
  assert (∀ r c0, cursor_row k r c0 → older_cursor row r = tuple_before c0 c) as Hold by (intros; by eapply older_cursor_spec).
  assert (cursor_row k row c) as Hrow by done. clearbody row.
  assert (tab_get cursors (rd_tables s') !! tab_key cursors row = r_cursors (rd_tables s') !! k) as Htab by (cbn; by rewrite Hkey).
  assert (∀ v, (mem_save_runtime_cursor k c m).2 = m <| m_runtime_cursors := <[k := v]> (m_runtime_cursors m) |> →
    cursor_row k row v → registers_agree (tab_put cursors (<[tab_key cursors row := row]> (tab_get cursors (rd_tables s'))) (rd_tables s'))
      (mem_save_runtime_cursor k c m).2) as Hput.
  { intros v -> Hv. cbn. rewrite Hkey. destruct Ha'. split; cbn; try done. by apply agree_insert. }
  destruct (r_cursors (rd_tables s') !! k) as [r|] eqn:Hr.
  - destruct (agree_some _ _ _ _ _ (ra_cursors _ _ Ha') Hr) as (c0 & Hm & Hrc). specialize (Hold r c0 Hrc).
    destruct (tuple_before c0 c) eqn:Hlt.
    + eapply refines_inserted_ok; [done| |done|done|].
      * apply (insert_exec_put cursors row _ row). by rewrite Htab, Hold.
      * apply (Hput c); [|done]. cbn. by rewrite Hm, Hlt.
    + apply refines_inserted_or_not; [done| |exists tt; split_and!; [done..|]].
      * by rewrite (insert_exec_kept cursors row _ r) by (by rewrite ?Htab, ?Hold).
      * cbn. rewrite Hm, Hlt, insert_id by done. by destruct m.
  - pose proof (agree_none _ _ _ _ (ra_cursors _ _ Ha') Hr) as Hm.
    eapply refines_inserted_ok; [done| |done|done|].
    + apply (insert_exec_put cursors row _ row). by rewrite Htab.
    + apply (Hput c); [|done]. cbn. by rewrite Hm.
Qed.

(** ** Mesh identities and scoped state *)
Lemma load_mesh_identity_same k s m : agrees s m → same (sql_load_mesh_identity k) (mem_load_mesh_identity k) s m.
Proof.
  intros Ha. eapply refines_read; [done|done|]. intros s' Hs'.
  eapply refines_lift_ret; [|eapply refines_ret; [done|reflexivity|cbn; by rewrite Hs']]. cbn.
  pose proof (ra_mesh _ _ Ha k) as Hk. destruct Hk as [r e (-> & _ & _ & _)|]; [|done].
  cbn. unfold mesh_of_row, mesh_row. cbn -[i64_to_u64]. rewrite !u64_back. cbn. by destruct e.
Qed.
Lemma save_mesh_identity_same e s m : agrees s m → fits (mi_resolved_at_ms e) → fits (mi_ttl_ms e) →
  same (sql_save_mesh_identity e) (mem_save_mesh_identity e) s m.
Proof.
  intros Ha Hr Ht. apply refines_admit; [done|]. intros s' Hs'. pose proof (agrees_eq _ _ _ Ha Hs') as Ha'.
  eapply refines_lift; [by apply i64_fits|]. eapply refines_lift; [by apply i64_fits|].
  eapply refines_run; [done| |done|done|].
  - apply (insert_exec_put mesh_identities (mesh_row e) _ (mesh_row e)). by destruct (_ !! _).
  - destruct Ha'. split; cbn; try done. by apply agree_insert.
Qed.
Lemma get_scoped_state_same a b s m : agrees s m → same (sql_get_scoped_state a b) (mem_get_scoped_state a b) s m.
Proof.
  intros Ha. eapply refines_run; [done|done|done| |done]. cbn. by rewrite (proj1 (ra_scoped _ _ Ha)).
Qed.
Lemma scoped_put T m e : registers_agree T m →
  registers_agree (tab_put scoped_states (<[(sc_scope_key e, sc_key e) := e]> (m_scoped_state m)) T)
    (m <| m_scoped_state := <[(sc_scope_key e, sc_key e) := e]> (m_scoped_state m) |>).
Proof.
  intros Ha. destruct (ra_scoped _ _ Ha) as [_ Hk]. destruct Ha. split; cbn; try done. split; [done|].
  by apply map_Forall_insert_2.
Qed.
Lemma set_scoped_state_same e s m : agrees s m → same (sql_set_scoped_state e) (mem_set_scoped_state e) s m.
Proof.
  intros Ha. apply refines_admit; [done|]. intros s' Hs'. pose proof (agrees_eq _ _ _ Ha Hs') as Ha'.
  eapply refines_run; [done| |done|done|].
  - apply (insert_exec_put scoped_states e _ e). by destruct (_ !! _).
  - cbn [tab_get scoped_states tab_key]. rewrite (proj1 (ra_scoped _ _ Ha')). by apply scoped_put.
Qed.
Lemma advance_scoped_state_same e s m : agrees s m → same (sql_advance_scoped_state e) (mem_advance_scoped_state e) s m.
Proof.
  intros Ha. apply refines_admit; [done|]. intros s' Hs'. pose proof (agrees_eq _ _ _ Ha Hs') as Ha'.
  pose proof (ra_scoped _ _ Ha') as [Hsc _].
  assert (∃ n t' b, insert_on_conflict scoped_states e
    (λ stored, if text_lt (sc_value_json stored) (sc_value_json e) then Some e else None) (rd_tables s') = (Ok n, t') ∧
    (mem_advance_scoped_state e m).1 = Ok b ∧ b = (0 <? n)%N ∧ registers_agree t' (mem_advance_scoped_state e m).2)
    as (n & t' & b & Hi & Hm & -> & Hr).
  { unfold insert_on_conflict, mem_advance_scoped_state. cbn. rewrite Hsc. unfold text_ge.
    destruct (m_scoped_state m !! (sc_scope_key e, sc_key e)) as [stored|] eqn:Hst; cbn.
    - destruct (text_lt _ _); cbn; eexists _, _, _; (split_and!; [reflexivity..|]); [|done].
      by apply scoped_put.
    - eexists _, _, _. split_and!; [reflexivity..|]. by apply scoped_put. }
  apply refines_fmap. by eapply refines_run.
Qed.
End registers.
