(* ===== verification/StoreRegisterLists.v ===== *)
(** The registers, call by call: listings, subscriptions, refresh locks,
    identities and beacons. *)
From stdpp Require Import base gmap strings list sorting numbers.
From Stdlib Require Import Lia.
From S2P Require Import Prelude.
From S2P Require Import Sorted.
From S2P Require Import WorkModel.
From S2P Require Import CoreTranscript.
From S2P Require Import CoreHistory.
From S2P Require Import StoreBase.
From S2P Require Import StoreTable.
From S2P Require Import StoreTableThms.
From S2P Require Import StoreRegisters.
From S2P Require Import StoreRegisterThms.

#[local] Abbreviation fits n := (Z.of_N n ≤ i64_max)%Z.
Section calls.
Context `{!JsonValue} {HJ : HeadersJson} {HL : HeadersJsonLaws}.
Context {S : Type} {DB : RegisterDb S} {DL : RegisterDbLaws S}.
Implicit Types (T : Registers) (m : MemRegisters) (s : S).
#[local] Abbreviation agrees s m := (registers_agree (rd_tables s) m).
#[local] Abbreviation same := (refines registers_agree eq).

(** ** Scoped state *)
Lemma filter_values (l : list (rstring * rstring * StoredScopedState)) scope :
  (∀ k e, (k, e) ∈ l → k = (sc_scope_key e, sc_key e)) →
  List.filter (λ e, bool_decide (sc_scope_key e = scope)) l.*2 = (filter (λ kv, kv.1.1 = scope) l).*2.
Proof.
  induction l as [|[k e] l IH]; intros Hl; [done|]. cbn [fmap list_fmap List.filter snd]. rewrite filter_cons. cbn [fst snd].
  rewrite (IH ltac:(intros; apply Hl; by right)). rewrite (Hl k e ltac:(by left)). cbn [fst].
  case_bool_decide; [by rewrite decide_True|by rewrite decide_False].
Qed.
Lemma list_scoped_state_same scope s m : agrees s m → same (sql_list_scoped_state scope) (mem_list_scoped_state scope) s m.
Proof.
  intros Ha. eapply refines_run; [done|done|done| |done]. destruct (ra_scoped _ _ Ha) as [Hs Hk].
  unfold bt_values. cbn. rewrite Hs. apply filter_values. intros k e Hin%elem_of_bt_entries. exact (Hk k e Hin).
Qed.
Lemma delete_scoped_state_same a b s m : agrees s m → same (sql_delete_scoped_state a b) (mem_delete_scoped_state a b) s m.
Proof.
  intros Ha. apply refines_admit; [done|]. intros s' Hs'. pose proof (agrees_eq _ _ _ Ha Hs') as Ha'.
  apply (refines_fmap _ eq (λ _, tt)). eapply refines_run; [done|reflexivity|done|done|].
  destruct (ra_scoped _ _ Ha') as [Hs Hk]. destruct Ha'. split; cbn; try done. rewrite Hs. split; [done|].
  by apply map_Forall_delete.
Qed.

(** ** Subscriptions *)
Lemma list_filter_all {A} (l : list A) : List.filter (λ _, true) l = l.
Proof. induction l as [|x l IH]; [done|]. cbn. by rewrite IH. Qed.
Definition sub_entries (rows : list StoredSubscription) : list (rstring * SubscriptionRow) :=
  (λ x, (ss_channel_name x, subscription_row x)) <$> rows.
Lemma sub_entries_keys rows : (sub_entries rows).*1 = ss_channel_name <$> rows.
Proof. unfold sub_entries. by rewrite <- list_fmap_compose. Qed.
Lemma insert_subscriptions rows : NoDup (ss_channel_name <$> rows) → Forall subscription_fits rows →
  ∀ T, (∀ x, x ∈ rows → r_subscriptions T !! ss_channel_name x = None) →
  st_iter insert_subscription rows T =
    (Ok tt, T <| r_subscriptions := list_to_map (sub_entries rows) ∪ r_subscriptions T |>).
Proof.
  induction rows as [|x rows IH]; intros Hn Hf T Hfresh.
  { cbn. rewrite map_empty_union. by destruct T. }
  rewrite fmap_cons in Hn. apply list.NoDup_cons in Hn as [Hx Hn]. apply list.Forall_cons in Hf as [Hxf Hf].
  assert (insert_subscription x T = (Ok tt, T <| r_subscriptions := <[ss_channel_name x := subscription_row x]> (r_subscriptions T) |>)) as E.
  { unfold insert_subscription. rewrite i64_fits by done. unfold insert_exec, insert_row, mbind, st_bind, st_lift. cbn.
    by rewrite (Hfresh x ltac:(by left)). }
  cbn [st_iter]. rewrite (st_bind_ok _ _ _ _ _ E), IH; [|done|done|].
  - cbn. do 2 f_equal. rewrite <- insert_union_l, <- insert_union_r; [done|].
    apply not_elem_of_list_to_map_1. by rewrite sub_entries_keys.
  - intros y Hy. cbn. rewrite lookup_insert_ne; [apply Hfresh; by right|]. intros Heq. apply Hx. rewrite Heq.
    by apply list_elem_of_fmap_2.
Qed.
Lemma replace_subscriptions_same rows s m : agrees s m → NoDup (ss_channel_name <$> rows) → Forall subscription_fits rows →
  same (sql_replace_subscriptions rows) (mem_replace_subscriptions rows) s m.
Proof.
  intros Ha Hn Hf. apply refines_admit; [done|]. intros s' Hs'. pose proof (agrees_eq _ _ _ Ha Hs') as Ha'.
  eapply refines_run; [done| |done|done|].
  - unfold mbind at 1, st_bind. cbn. rewrite insert_subscriptions; [reflexivity|done|done|].
    intros x _. cbn. apply map_lookup_filter_None. by right.
  - destruct Ha'. split; cbn; try done. split_and!; [done..|].
    assert (filter (λ kv : rstring * SubscriptionRow, true = false) (r_subscriptions (rd_tables s')) = ∅) as ->
      by (apply map_empty; intros k; apply map_lookup_filter_None; by right).
    by rewrite map_union_empty.
Qed.
Lemma load_subscriptions_same s m : agrees s m →
  refines registers_agree (≡ₚ) sql_load_subscriptions mem_load_subscriptions s m.
Proof.
  intros Ha. destruct (ra_subscriptions _ _ Ha) as (Hn & Hf & Ht).
  eapply refines_read; [done|done|]. intros s' Hs'.
  assert (bt_values (r_subscriptions (rd_tables s)) ≡ₚ subscription_row <$> m_subscriptions m) as Hp.
  { rewrite elem_bt_perm, Ht. rewrite map_to_list_to_map by (by rewrite sub_entries_keys).
    unfold sub_entries. by rewrite <- list_fmap_compose. }
  set (back := λ r, MkStoredSubscription (sr_channel_name r) (MkId (sr_room_id r)) (sr_wire r) (Z.to_N (sr_joined_at_ms r))
    (sr_is_default r) (sr_parted r)).
  eapply (refines_lift_ret _ _ _ (back <$> bt_values (r_subscriptions (rd_tables s)))).
  - rewrite list_filter_all. apply collect_ok. intros r Hr. rewrite Hp in Hr.
    apply list_elem_of_fmap in Hr as (x & -> & _). unfold subscription_of_row. cbn -[i64_to_u64]. rewrite u64_back. cbn.
    unfold back. cbn. by rewrite N2Z.id.
  - eapply refines_ret; [done| |cbn; by rewrite Hs']. rewrite Hp, <- list_fmap_compose.
    rewrite <- (list_fmap_id (m_subscriptions m)) at 2. rewrite (list_fmap_ext _ id (m_subscriptions m)); [done|]. intros i [? [] ? ? ? ?] _.
    unfold back. cbn. by rewrite N2Z.id.
Qed.

(** ** The refresh lock, when nothing runs between the statements *)
Definition idle : S → S := λ s, s.
Lemma refines_idle {A B} (agree : A → B → Prop) (k : unit → ST S StoreError A) (q : ST MemRegisters StoreError B) s m :
  refines registers_agree agree (k tt) q s m → refines registers_agree agree (x ← st_modify idle; k x) q s m.
Proof. done. Qed.
Lemma locks_put T m l : registers_agree T m → fits (rl_held_at_ms l) →
  registers_agree (T <| r_locks := <[rl_mesh_identity l := lock_row l]> (r_locks T) |>)
    (m <| m_refresh_locks := <[rl_mesh_identity l := l]> (m_refresh_locks m) |>).
Proof. intros Ha Hf. destruct Ha. split; cbn; try done. by apply agree_insert. Qed.
Lemma takeover_update T m l e : registers_agree T m → r_locks T !! rl_mesh_identity l = Some (lock_row e) →
  update_many refresh_locks
    (λ r, bool_decide (lr_mesh_identity r = rl_mesh_identity l) && (lr_held_at_ms r =? Z.of_N (rl_held_at_ms e))%Z)
    (λ r, MkLockRow (lr_mesh_identity r) (Z.of_N (rl_held_at_ms l)) (Z.of_N (rl_holder_pid l))) T =
  (Ok 1%N, T <| r_locks := <[rl_mesh_identity l := lock_row l]> (r_locks T) |>).
Proof.
  intros Ha He. assert (∀ j r, r_locks T !! j = Some r → lr_mesh_identity r = j) as Hkey.
  { intros j r Hr. by destruct (agree_some _ _ _ _ _ (ra_locks _ _ Ha) Hr) as (v & _ & -> & -> & _). }
  rewrite (update_many_one refresh_locks _ _ (rl_mesh_identity l) (lock_row e)); [|done| |].
  - by rewrite (Hkey _ _ He).
  - rewrite (Hkey _ _ He). cbn. by rewrite bool_decide_eq_true_2, Z.eqb_refl.
  - intros j r Hr Hj. rewrite (Hkey j r Hr). by rewrite bool_decide_eq_false_2.
Qed.
Lemma try_acquire_lock l interval s m : agrees s m → fits (rl_held_at_ms l) → fits (rl_holder_pid l) →
  same (sql_try_acquire_refresh_lock idle (rl_mesh_identity l) (rl_held_at_ms l) interval (rl_holder_pid l))
    (mem_try_acquire_refresh_lock (rl_mesh_identity l) (rl_held_at_ms l) interval (rl_holder_pid l)) s m.
Proof.
  intros Ha Hnow Hpid. apply refines_admit; [done|]. intros s' Hs'. pose proof (agrees_eq _ _ _ Ha Hs') as Ha'. clear s Ha Hs'.
  eapply refines_lift; [by apply i64_fits|]. eapply refines_lift; [by apply i64_fits|]. apply refines_idle.
  change (MkLockRow (rl_mesh_identity l) (Z.of_N (rl_held_at_ms l)) (Z.of_N (rl_holder_pid l))) with (lock_row l).
  unfold mem_try_acquire_refresh_lock. cbv zeta.
  assert (MkStoredRefreshLock (rl_mesh_identity l) (rl_held_at_ms l) (rl_holder_pid l) = l) as -> by (by destruct l).
  destruct (r_locks (rd_tables s') !! rl_mesh_identity l) as [r|] eqn:Hr.
  - destruct (agree_some _ _ _ _ _ (ra_locks _ _ Ha') Hr) as (e & Hm & -> & Hk & Hfe).
    apply (refines_inserted _ _ _ _ _ false (rd_tables s')); [done| |].
    { split; [|done]. by rewrite (insert_exec_kept refresh_locks (lock_row l) _ (lock_row e)). }
    intros s1 Hs1. cbn [MAX_ATTEMPTS takeover]. apply refines_idle.
    apply (refines_read _ _ _ _ _ (Some (lock_row e))); [by eapply agrees_eq| |].
    { unfold find_by_id, st_gets. cbn [tab_get refresh_locks]. by rewrite Hs1, Hr. }
    intros s2 Hs2. cbn [lock_row lr_held_at_ms].
    eapply refines_lift; [apply u64_back|]. rewrite Hs1 in Hs2.
    pose proof (agrees_eq _ _ _ Ha' Hs2) as Ha2. rewrite <- Hs2 in Hr.
    destruct (rl_held_at_ms l - rl_held_at_ms e <? interval)%N eqn:Hfresh.
    + eapply refines_ret; [rewrite Hm, Hfresh; reflexivity|done|]. by rewrite Hm, Hfresh.
    + apply refines_idle. pose proof (takeover_update _ _ l e Ha2 Hr) as Hu.
      eapply (refines_write _ _ _ _ _ 1%N _ s2); [done|exact Hu| |].
      * rewrite Hm, Hfresh. by apply locks_put.
      * intros s3 Hs3. eapply refines_ret; [by rewrite Hm, Hfresh|done|]. rewrite Hm, Hfresh, Hs3. by apply locks_put.
  - pose proof (agree_none _ _ _ _ (ra_locks _ _ Ha') Hr) as Hm.
    apply (refines_inserted _ _ _ _ _ true ((rd_tables s') <| r_locks := <[rl_mesh_identity l := lock_row l]> (r_locks (rd_tables s')) |>)); [done| |].
    { split; [apply (insert_exec_put refresh_locks (lock_row l) _ (lock_row l)); change (tab_get refresh_locks (rd_tables s') !! tab_key refresh_locks (lock_row l)) with (r_locks (rd_tables s') !! rl_mesh_identity l); by rewrite Hr|].
      rewrite Hm. by apply locks_put. }
    intros s1 Hs1. eapply refines_ret; [by rewrite Hm|done|]. rewrite Hm, Hs1. by apply locks_put.
Qed.
Lemma try_acquire_refresh_lock_same k now interval pid s m : agrees s m → fits now → fits pid →
  same (sql_try_acquire_refresh_lock idle k now interval pid) (mem_try_acquire_refresh_lock k now interval pid) s m.
Proof. intros Ha Hn Hp. exact (try_acquire_lock (MkStoredRefreshLock k now pid) interval s m Ha Hn Hp). Qed.
Lemma release_refresh_lock_same k s m : agrees s m → same (sql_release_refresh_lock k) (mem_release_refresh_lock k) s m.
Proof.
  intros Ha. apply refines_admit; [done|]. intros s' Hs'. pose proof (agrees_eq _ _ _ Ha Hs') as Ha'.
  apply (refines_fmap _ eq (λ _, tt)). eapply refines_run; [done|reflexivity|done|done|].
  destruct Ha'. split; cbn; try done. by apply agree_delete.
Qed.

(** ** Local identities *)
Lemma identity_of_row id r i : identity_row id r i → local_identity_of_row r = Ok i.
Proof.
  destruct i as [[p] [c] v cr [na pr ro bi st fi ig] ag]. intros (j & Hj & Hv & Hc & ->).
  unfold local_identity_of_row, identity_from_row. cbn -[u32_from i64_to_u64] in *.
  rewrite u32_back by (unfold i32_max, u32_max in *; lia). cbn -[i64_to_u64]. rewrite u64_back. cbn. by rewrite (law_headers _ _ Hj).
Qed.
Lemma named_row t im name : identities_agree t im →
  list.head (List.filter (λ r, bool_decide (ir_agent_name r = name)) (bt_values t)) ≫= (λ r, Some (local_identity_of_row r)) =
  im !! name ≫= λ i, Some (Ok i).
Proof.
  intros Ha. rewrite list_filter_eq.
  assert (∀ r, r ∈ filter (λ r, bool_decide (ir_agent_name r = name) = true) (bt_values t) ↔
    ir_agent_name r = name ∧ ∃ id, t !! id = Some r) as Hin.
  { intros r. rewrite list_elem_of_filter, bool_decide_eq_true, elem_of_bt_values. done. }
  destruct (filter _ _) as [|r l]; cbn.
  - destruct (im !! name) as [i|] eqn:Hm; [|done]. destruct (ia_map _ _ Ha _ _ Hm) as (_ & id & r & Hr & Hn).
    exfalso. apply (not_elem_of_nil r), Hin. eauto.
  - destruct (proj1 (Hin r) ltac:(by left)) as (<- & id & Hr). destruct (ia_row _ _ Ha _ _ Hr) as (i & -> & Hi).
    cbn. by rewrite (identity_of_row _ _ _ Hi).
Qed.
Lemma load_local_identity_same name s m : agrees s m →
  same (sql_load_local_identity_by_agent_name name) (mem_load_local_identity_by_agent_name name) s m.
Proof.
  intros Ha. eapply refines_read; [done|done|]. intros s' Hs'. pose proof (named_row _ _ name (ra_identities _ _ Ha)) as Hn.
  eapply refines_lift_ret; [|eapply refines_ret; [done|reflexivity|cbn; by rewrite Hs']]. cbn [tab_get local_identities].
  destruct (list.head _) as [r|], (m_local_identities m !! name) as [i|]; cbn in Hn |- *; [|done..].
  injection Hn as ->. done.
Qed.
Lemma next_id_above t id r : t !! id = Some r → (id < next_id t)%Z.
Proof.
  unfold next_id. enough (∀ id r, t !! id = Some r → (id ≤ map_fold (λ id _ acc, Z.max id acc) 0 t)%Z) as Hall
    by (intros Hr; specialize (Hall id r Hr); lia).
  apply (map_fold_weak_ind (λ acc t, ∀ id r, t !! id = Some r → (id ≤ acc)%Z)); [done|].
  intros i x m acc Hi IH j y. destruct (decide (i = j)) as [->|Hne]; [intros _; lia|].
  rewrite lookup_insert_ne by done. intros Hy. specialize (IH j y Hy). lia.
Qed.
Lemma identities_insert t im r i : identities_agree t im → identity_row (next_id t) r i → im !! li_agent_name i = None →
  identities_agree (<[next_id t := r]> t) (<[li_agent_name i := i]> im).
Proof.
  intros Ha Hi Hm. assert (ir_agent_name r = li_agent_name i) as Hn by (by destruct Hi as (j & _ & _ & _ & ->)).
  assert (t !! next_id t = None) as Hfresh.
  { destruct (t !! next_id t) as [x|] eqn:Hx; [|done]. apply next_id_above in Hx. lia. }
  assert (∀ id x, t !! id = Some x → ir_agent_name x ≠ li_agent_name i) as Hother.
  { intros id x Hx Heq. destruct (ia_row _ _ Ha _ _ Hx) as (i' & Hi' & _). rewrite Heq in Hi'. congruence. }
  split.
  - intros id x. rewrite lookup_insert_Some. intros [[<- <-]|[Hne Hx]].
    + exists i. by rewrite Hn, lookup_insert_eq.
    + destruct (ia_row _ _ Ha _ _ Hx) as (i' & Hi' & Hrow). exists i'. split; [|done].
      rewrite lookup_insert_ne; [done|]. apply not_eq_sym. by eapply Hother.
  - intros name i'. rewrite lookup_insert_Some. intros [[<- <-]|[Hne Hi']].
    + split; [done|]. exists (next_id t), r. by rewrite lookup_insert_eq.
    + destruct (ia_map _ _ Ha _ _ Hi') as (? & id & x & Hx & Hxn). split; [done|]. exists id, x.
      rewrite lookup_insert_ne; [done|]. intros <-. congruence.
  - intros id id' x x'. rewrite !lookup_insert_Some.
    intros [[<- <-]|[Hne Hx]] [[<- <-]|[Hne' Hx']] Heq; try done.
    + rewrite Hn in Heq. by destruct (Hother id' x').
    + rewrite Hn in Heq. by destruct (Hother id x).
    + by eapply (ia_unique _ _ Ha).
  - destruct (ia_default _ _ Ha) as (x & Hx & Hxn). exists x. rewrite lookup_insert_ne; [done|].
    apply next_id_above in Hx. lia.
Qed.
(** JSON that does not encode. *)
Lemma refines_codec {A B C} (agree : B → C → Prop) (r : result rstring A) (k : A → ST S StoreError B)
    (q : ST MemRegisters StoreError C) s m :
  agrees s m → (∀ j, r = Ok j → refines registers_agree agree (k j) q s m) →
  refines registers_agree agree (x ← st_lift (match r with Ok j => Ok j | Err e => Err (Codec e) end); k x) q s m.
Proof.
  intros Ha Hk. destruct r as [j|e]; [by apply Hk|]. unfold refines. cbn. right. split; [right; by eexists|by left].
Qed.
Lemma insert_local_identity_same i s m : agrees s m → (Z.of_N (li_version i) ≤ i32_max)%Z → fits (li_created_at_ms i) →
  same (sql_insert_local_identity i) (mem_insert_local_identity i) s m.
Proof.
  intros Ha Hv Hc. apply refines_admit; [done|]. intros s' Hs'. pose proof (agrees_eq _ _ _ Ha Hs') as Ha'. clear s Ha Hs'.
  eapply refines_lift; [by destruct (Z.leb_spec (Z.of_N (li_version i)) i32_max); [|lia]|].
  eapply refines_lift; [by apply i64_fits|]. apply refines_codec; [done|]. intros j Hj.
  set (row := λ id, MkIdentityRow id _ _ _ _ _ _ _ _ _ _ _ _).
  assert (∀ id, ir_agent_name (row id) = li_agent_name i) as Hn by done.
  assert (∀ id, identity_row id (row id) i) as Hrow by (intros id; by exists j).
  assert (∀ id, ir_id (row id) = id) as Hid by done. clearbody row.
  pose proof (ra_identities _ _ Ha') as Hi. set (t := r_identities (rd_tables s')) in Hi.
  destruct (m_local_identities m !! li_agent_name i) as [i'|] eqn:Hm.
  - apply (refines_run_err _ _ _ _ unique_violation); [done| |by left].
    unfold insert_identity. rewrite bool_decide_eq_false_2; [done|]. intros Hall.
    destruct (ia_map _ _ Hi _ _ Hm) as (_ & id & r & Hr & Hrn). apply (Hall id r Hr). by rewrite Hn.
  - eapply refines_run; [done| |unfold mem_insert_local_identity; by rewrite Hm|done|].
    + unfold insert_identity. rewrite bool_decide_eq_true_2.
      * unfold insert_exec, insert_row, mbind, st_bind. cbn [tab_get tab_key local_identities]. rewrite Hid.
        destruct (r_identities (rd_tables s') !! next_id _) as [x|] eqn:Hx; [apply next_id_above in Hx; lia|reflexivity].
      * intros id r Hr. rewrite Hn. intros Heq. destruct (ia_row _ _ Hi _ _ Hr) as (i' & Hi' & _). rewrite Heq in Hi'. congruence.
    + unfold mem_insert_local_identity. rewrite Hm. destruct Ha'. split; cbn; try done. by apply identities_insert.
Qed.
Lemma identities_card t im r i card j : identities_agree t im → t !! SINGLETON_ID = Some r → ir_agent_name r = DEFAULT_AGENT_NAME →
  im !! DEFAULT_AGENT_NAME = Some i → headers_to_json (id_integrations card) = Ok j →
  identities_agree (<[SINGLETON_ID := with_card card j r]> t) (<[DEFAULT_AGENT_NAME := i <| li_identity := card |>]> im).
Proof.
  intros Ha Hr Hrn Hi Hj. destruct (ia_row _ _ Ha _ _ Hr) as (i0 & Hi0 & Hrow). rewrite Hrn in Hi0.
  assert (i0 = i) as -> by congruence.
  assert (identity_row SINGLETON_ID (with_card card j r) (i <| li_identity := card |>)) as Hnew.
  { destruct Hrow as (j0 & _ & Hv & Hc & ->). exists j. done. }
  assert (ir_agent_name (with_card card j r) = DEFAULT_AGENT_NAME) as Hnn by done.
  assert (li_agent_name (i <| li_identity := card |>) = DEFAULT_AGENT_NAME) as Hin by (destruct (ia_map _ _ Ha _ _ Hi) as [? _]; done).
  set (r' := with_card card j r) in *. set (i' := i <| li_identity := card |>) in *. clearbody r' i'.
  assert (∀ id x, t !! id = Some x → id ≠ SINGLETON_ID → ir_agent_name x ≠ DEFAULT_AGENT_NAME) as Hother.
  { intros id x Hx Hne Heq. apply Hne. eapply (ia_unique _ _ Ha); [done|done|]. by rewrite Hrn. }
  split.
  - intros id x. rewrite lookup_insert_Some. intros [[<- <-]|[Hne Hx]].
    + exists i'. by rewrite Hnn, lookup_insert_eq.
    + destruct (ia_row _ _ Ha _ _ Hx) as (ix & Hix & Hxr). exists ix. split; [|done].
      rewrite lookup_insert_ne; [done|]. apply not_eq_sym. by eapply Hother.
  - intros name ix. rewrite lookup_insert_Some. intros [[<- <-]|[Hne Hix]].
    + split; [done|]. exists SINGLETON_ID, r'. by rewrite lookup_insert_eq.
    + destruct (ia_map _ _ Ha _ _ Hix) as (? & id & x & Hx & Hxn). split; [done|]. exists id, x.
      rewrite lookup_insert_ne; [done|]. intros <-. congruence.
  - intros id id' x x'. rewrite !lookup_insert_Some.
    intros [[<- <-]|[Hne Hx]] [[<- <-]|[Hne' Hx']] Heq; try done.
    + rewrite Hnn in Heq. by destruct (Hother id' x').
    + rewrite Hnn in Heq. by destruct (Hother id x).
    + by eapply (ia_unique _ _ Ha).
  - exists r'. by rewrite lookup_insert_eq.
Qed.
Lemma save_local_identity_card_same card s m : agrees s m →
  same (sql_save_local_identity_card card) (mem_save_local_identity_card card) s m.
Proof.
  intros Ha. apply refines_admit; [done|]. intros s' Hs'. pose proof (agrees_eq _ _ _ Ha Hs') as Ha'. clear s Ha Hs'.
  pose proof (ra_identities _ _ Ha') as Hi. destruct (ia_default _ _ Hi) as (r & Hr & Hrn).
  destruct (ia_row _ _ Hi _ _ Hr) as (i & Hm & _). rewrite Hrn in Hm.
  apply (refines_read _ _ _ _ _ (Some r)); [done|unfold find_by_id, st_gets; cbn [tab_get local_identities]; by rewrite Hr|].
  intros s1 Hs1. pose proof (agrees_eq _ _ _ Ha' Hs1) as Ha1. rewrite <- Hs1 in *. apply refines_codec; [done|]. intros j Hj.
  assert (∀ id x, r_identities (rd_tables s1) !! id = Some x → ir_id x = id) as Hkey.
  { intros id x Hx. by destruct (ia_row _ _ Hi _ _ Hx) as (ix & _ & jx & _ & _ & _ & ->). }
  eapply refines_run; [done| |unfold mem_save_local_identity_card; by rewrite Hm|done|].
  - unfold update_row, mbind, st_bind.
    rewrite (update_many_one local_identities _ _ SINGLETON_ID r); [reflexivity|done|by rewrite (Hkey _ _ Hr)|].
    intros id x Hx Hne. rewrite (Hkey id x Hx). by apply Z.eqb_neq.
  - unfold mem_save_local_identity_card. rewrite Hm. destruct Ha1. split; cbn; try done. by apply identities_card.
Qed.
End calls.

Section beacons.
Context `{!JsonValue} {HJ : HeadersJson} {HL : HeadersJsonLaws}.
Context {S : Type} {DB : RegisterDb S} {DL : RegisterDbLaws S}.
Implicit Types (T : Registers) (m : MemRegisters) (s : S) (b : StoredBeacon).
#[local] Abbreviation agrees s m := (registers_agree (rd_tables s) m).

(** The same beacon, its channels as a set: SQLite keeps them sorted, once each. *)
Definition beacon_agrees (a b : StoredBeacon) : Prop :=
  a = MkStoredBeacon (sb_mesh_identity b) (sb_peer_id b) (sb_scope_home b) (sb_subscribed_channels a) (sb_pid b)
        (sb_published_at_ms b) (sb_heartbeat_at_ms b) ∧
  ∀ name, name ∈ sb_subscribed_channels a ↔ name ∈ sb_subscribed_channels b.
(** The same beacons, in some order. *)
Definition beacons_agree (l l' : list StoredBeacon) : Prop := ∃ l0, l0 ≡ₚ l' ∧ Forall2 beacon_agrees l l0.

(** ** Reading *)
(** [p] reads from [s] an answer that satisfies [P], or faults. *)
Definition reads_ok {A} (p : ST S StoreError A) s (P : A → Prop) : Prop :=
  rd_tables (p s).2 = rd_tables s ∧ match (p s).1 with Ok a => P a | Err e => register_fault e end.
Lemma reads_run {A} (tx : Tx A) a s : tx (rd_tables s) = (Ok a, rd_tables s) → reads_ok (rd_run tx) s (λ x, x = a).
Proof.
  intros Htx. unfold reads_ok. pose proof (law_rd_ok s tx) as Hok. pose proof (law_rd_err s tx) as He.
  destruct (rd_run tx s) as [[x|e] s1]; cbn [fst snd] in *.
  - specialize (Hok x eq_refl). rewrite Htx in Hok. by injection Hok as <- <-.
  - specialize (He e eq_refl). rewrite Htx in He. cbn in He.
    destruct He as [[Hs [[=]|Hf]]|[Hf (x & [= _ Hs])]]; (split; [done|by apply db_failed_fault]).
Qed.
Lemma reads_bind {A B} (p : ST S StoreError A) (k : A → ST S StoreError B) s (P : A → Prop) Q :
  reads_ok p s P → (∀ a s', P a → rd_tables s' = rd_tables s → reads_ok (k a) s' Q) → reads_ok (p ≫= k) s Q.
Proof.
  unfold reads_ok, mbind, st_bind. intros [Ht Hp] Hk. destruct (p s) as [[a|e] s1]; cbn [fst snd] in *; [|done].
  destruct (Hk a s1 Hp Ht) as [Ht' Hq]. split; [by rewrite Ht'|done].
Qed.
Lemma reads_ret {A} (a : A) s (P : A → Prop) : P a → reads_ok (mret a) s P.
Proof. done. Qed.
Lemma refines_reads {A B} (agree : A → B → Prop) (p : ST S StoreError A) (q : ST MemRegisters StoreError B) (x : B) s m :
  agrees s m → reads_ok p s (λ a, agree a x) → q m = (Ok x, m) → refines registers_agree agree p q s m.
Proof.
  intros Ha [Ht Hp] Hq. unfold refines. destruct (p s).1 as [a|e].
  - exists x. rewrite Hq, Ht. done.
  - right. split; [done|]. left. by rewrite Ht.
Qed.

Lemma beacon_channels_of T m b name : registers_agree T m → m_beacons m !! beacon_key b = Some b →
  name ∈ bc_channel_name <$> List.filter (channels_of (sb_mesh_identity b) (uuid (sb_peer_id b))) (bt_values (r_beacon_channels T))
  ↔ name ∈ sb_subscribed_channels b.
Proof.
  intros Ha Hb. rewrite list_filter_eq, list_elem_of_fmap. setoid_rewrite list_elem_of_filter. setoid_rewrite elem_of_bt_values.
  unfold channels_of. split.
  - intros (c & -> & Hc & k & Hk). apply andb_true_iff in Hc as [Hm%bool_decide_eq_true Hp%N.eqb_eq].
    apply (ra_channels _ _ Ha) in Hk as (_ & b' & Hb' & Hin). rewrite Hm, Hp in Hb'. unfold beacon_key in Hb. congruence.
  - intros Hin. exists (MkBeaconChannelRow (sb_mesh_identity b) (uuid (sb_peer_id b)) name). cbn. split; [done|].
    rewrite bool_decide_eq_true_2, N.eqb_refl by done. split; [done|]. eexists. apply (ra_channels _ _ Ha). cbn.
    split; [done|]. by exists b.
Qed.
Lemma beacon_from_model_ok s m b : agrees s m → m_beacons m !! beacon_key b = Some b → beacon_fits b →
  reads_ok (beacon_from_model (beacon_row b)) s (λ a, beacon_agrees a b).
Proof.
  intros Ha Hb (Hp & Hpub & Hhb). unfold beacon_from_model. eapply reads_bind; [by apply reads_run|].
  intros channels s' -> Hs'. cbn -[u32_from i64_to_u64]. rewrite u32_back by done. cbn -[i64_to_u64]. rewrite !u64_back.
  apply reads_ret. split; cbn; [by destruct (sb_peer_id b)|]. intros name. by apply (beacon_channels_of _ m).
Qed.
Lemma beacons_from_model_ok s m bs : agrees s m → (∀ b, b ∈ bs → m_beacons m !! beacon_key b = Some b ∧ beacon_fits b) →
  reads_ok (st_collect beacon_from_model (beacon_row <$> bs)) s (λ l, Forall2 beacon_agrees l bs).
Proof.
  revert s. induction bs as [|b bs IH]; intros s Ha Hb; [apply reads_ret; constructor|]. cbn [fmap list_fmap st_collect].
  destruct (Hb b ltac:(by left)). eapply reads_bind; [by apply (beacon_from_model_ok s m)|]. intros a s1 Hab Hs1.
  eapply reads_bind; [apply IH; [by rewrite Hs1|intros; apply Hb; by right]|]. intros l s2 Hl _. apply reads_ret. by constructor.
Qed.
Lemma load_beacon_same mesh peer s m : agrees s m →
  refines registers_agree (option_Forall2 beacon_agrees) (sql_load_beacon mesh peer) (mem_load_beacon mesh peer) s m.
Proof.
  intros Ha. eapply refines_reads; [done| |done]. eapply reads_bind; [by apply reads_run|].
  intros o s' -> Hs'. cbn [tab_get beacons]. pose proof (ra_beacons _ _ Ha (mesh, uuid peer)) as Hk.
  destruct (m_beacons m !! (mesh, uuid peer)) as [b|] eqn:Hb; inversion Hk as [r b' (-> & Hkey & Hf) Hr|Hr].
  - subst b'. eapply reads_bind; [apply (beacon_from_model_ok s' m); [by rewrite Hs'|by rewrite <- Hkey|done]|].
    intros a s2 Hab _. apply reads_ret. by constructor.
  - apply reads_ret. constructor.
Qed.
Lemma list_beacons_same mesh s m : agrees s m →
  refines registers_agree beacons_agree (sql_list_beacons mesh) (mem_list_beacons mesh) s m.
Proof.
  intros Ha. eapply refines_reads; [done| |done].
  set (mine := filter (λ b, sb_mesh_identity b = mesh) (bt_values (m_beacons m))).
  assert (∃ bs, bs ≡ₚ mine ∧
    List.filter (λ r, bool_decide (br_mesh_identity r = mesh)) (bt_values (r_beacons (rd_tables s))) = beacon_row <$> bs) as (bs & Hbs & Hrows).
  { assert (r_beacons (rd_tables s) = beacon_row <$> m_beacons m) as ->.
    { apply map_eq. intros k. rewrite lookup_fmap. pose proof (ra_beacons _ _ Ha k) as Hk. by destruct Hk as [r b (-> & _)|]. }
    assert (List.filter (λ r, bool_decide (br_mesh_identity r = mesh)) (bt_values (beacon_row <$> m_beacons m)) ≡ₚ beacon_row <$> mine) as Hp.
    { rewrite list_filter_eq, elem_bt_perm, map_to_list_fmap. unfold mine. rewrite elem_bt_perm.
      rewrite (filter_fmap_ext beacon_row _ (λ r, bool_decide (br_mesh_identity r = mesh) = true))
        by (intros b _; by rewrite bool_decide_eq_true).
      rewrite <- !list_fmap_compose. done. }
    apply Permutation_map_inv in Hp as (bs & Hbs & Hp). by exists bs. }
  eapply reads_bind; [by apply reads_run|]. intros rows s' -> Hs'. cbn [tab_get beacons]. rewrite Hrows.
  assert (∀ b, b ∈ bs → m_beacons m !! beacon_key b = Some b ∧ beacon_fits b) as Hall.
  { intros b Hin. rewrite Hbs in Hin. apply list_elem_of_filter in Hin as [_ [k Hk]%elem_of_bt_values].
    pose proof (ra_beacons _ _ Ha k) as Hr. rewrite Hk in Hr. inversion Hr as [r b0 (-> & -> & Hf) Heq|]; subst. done. }
  destruct (beacons_from_model_ok s' m bs) as [Ht Hl]; [by rewrite Hs'|done|]. split; [done|].
  destruct (st_collect _ _ s').1 as [l|e]; [|done]. exists bs. split; [|done]. by rewrite sort_by_perm.
Qed.

(** ** Writing *)
Lemma sorted_channels_spec (l : list rstring) : NoDup (sorted_channels l) ∧ ∀ x, x ∈ sorted_channels l ↔ x ∈ l.
Proof.
  unfold sorted_channels. destruct (dedup_key_sorted id (merge_sort key_le l)) as [Hs Hin].
  - exact (StronglySorted_merge_sort key_le l).
  - by intros x y _ _.
  - split; [by apply (strict_NoDup (row_lt id))|]. intros x. by rewrite Hin, merge_sort_Permutation.
Qed.
Definition channel_key (c : BeaconChannelRow) : rstring * N * rstring := (bc_mesh_identity c, bc_peer_id c, bc_channel_name c).
Lemma insert_channels mesh peer names : NoDup names →
  ∀ T, (∀ name, name ∈ names → r_beacon_channels T !! (mesh, peer, name) = None) →
  ∃ ch, st_iter (λ name, insert_exec (insert_row beacon_channels (MkBeaconChannelRow mesh peer name))) names T =
      (Ok tt, T <| r_beacon_channels := ch |>) ∧
    ∀ k c, ch !! k = Some c ↔ r_beacon_channels T !! k = Some c ∨
      k = channel_key c ∧ ∃ name, name ∈ names ∧ c = MkBeaconChannelRow mesh peer name.
Proof.
  induction names as [|x names IH]; intros Hn T Hfresh.
  { exists (r_beacon_channels T). split; [by destruct T|]. intros k c. split; [by left|]. intros [?|(_ & y & Hy & _)]; [done|set_solver]. }
  apply list.NoDup_cons in Hn as [Hx Hn]. set (row := MkBeaconChannelRow mesh peer x).
  set (T1 := T <| r_beacon_channels := <[(mesh, peer, x) := row]> (r_beacon_channels T) |>).
  assert (insert_exec (insert_row beacon_channels row) T = (Ok tt, T1)) as E.
  { unfold insert_exec, insert_row, mbind, st_bind. cbn. by rewrite (Hfresh x ltac:(by left)). }
  destruct (IH Hn T1) as (ch & Hch & Hl).
  { intros name Hin. cbn. rewrite lookup_insert_ne; [apply Hfresh; by right|]. congruence. }
  exists ch. cbn [st_iter]. rewrite (st_bind_ok _ _ _ _ _ E), Hch. split; [done|]. intros k c. rewrite Hl. cbn.
  rewrite lookup_insert_Some. split.
  - intros [[[<- <-]|[_ Hc]]|(Hk & y & Hy & Hc)]; [right|by left|right].
    + split; [done|]. exists x. split; [by left|done].
    + split; [done|]. exists y. split; [by right|done].
  - intros [Hc|(Hk & y & Hy & Hc)].
    + left. right. split; [|done]. intros <-. by rewrite (Hfresh x ltac:(by left)) in Hc.
    + apply elem_of_cons in Hy as [->|Hy]; [left; left; by subst|right; eauto].
Qed.
(** The channels of one beacon, deleted. *)
Lemma delete_channels mesh peer T k c :
  filter (λ kv : rstring * N * rstring * BeaconChannelRow, channels_of mesh peer kv.2 = false) (r_beacon_channels T) !! k = Some c ↔
  r_beacon_channels T !! k = Some c ∧ (bc_mesh_identity c, bc_peer_id c) ≠ (mesh, peer).
Proof.
  rewrite map_lookup_filter_Some. cbn. unfold channels_of. rewrite andb_false_iff, bool_decide_eq_false, N.eqb_neq.
  split; intros [Hc Hne]; (split; [done|]); [intros [= <- <-]; tauto|].
  destruct (decide (bc_mesh_identity c = mesh)) as [<-|]; [|by left]. right. congruence.
Qed.
Lemma save_beacon_same b s m : agrees s m → beacon_fits b → refines registers_agree eq (sql_save_beacon b) (mem_save_beacon b) s m.
Proof.
  intros Ha Hf. apply refines_admit; [done|]. intros s' Hs'. pose proof (agrees_eq _ _ _ Ha Hs') as Ha'. clear s Ha Hs'.
  pose proof Hf as (Hp & Hpub & Hhb). set (T := rd_tables s') in *.
  set (mesh := sb_mesh_identity b). set (peer := uuid (sb_peer_id b)).
  set (T1 := T <| r_beacons := <[beacon_key b := beacon_row b]> (r_beacons T) |>).
  set (T2 := T1 <| r_beacon_channels := filter (λ kv, channels_of mesh peer kv.2 = false) (r_beacon_channels T) |>).
  destruct (sorted_channels_spec (sb_subscribed_channels b)) as [Hnd Hin].
  destruct (insert_channels mesh peer (sorted_channels (sb_subscribed_channels b)) Hnd T2) as (ch & Hch & Hl).
  { intros name _. cbn. destruct (_ !! _) as [c|] eqn:Hc; [|done]. apply delete_channels in Hc as [Hc Hne].
    apply (ra_channels _ _ Ha') in Hc as ([= Hm Hq _] & _). destruct Hne. by rewrite <- Hm, <- Hq. }
  eapply refines_run; [done| |done|done|].
  - rewrite (st_bind_ok _ _ T (Z.of_N (sb_published_at_ms b)) T) by (unfold st_lift; by rewrite i64_fits).
    rewrite (st_bind_ok _ _ T (Z.of_N (sb_heartbeat_at_ms b)) T) by (unfold st_lift; by rewrite i64_fits). cbv zeta.
    rewrite (st_bind_ok _ _ T tt T1).
    2:{ apply (insert_exec_put beacons (beacon_row b) _ (beacon_row b)). by destruct (_ !! _). }
    unfold delete_many at 1. rewrite (st_bind_ok _ _ T1 _ T2) by reflexivity. exact Hch.
  - pose proof (ra_channels _ _ Ha') as Hch0. destruct Ha'. split; cbn; try done.
    + by apply agree_insert.
    + intros k c. rewrite Hl. cbn. rewrite delete_channels, (Hch0 k c). split.
      * intros [[(-> & b' & Hb' & Hn) Hne]|(-> & name & Hname & ->)].
        -- split; [done|]. exists b'. rewrite lookup_insert_ne; [done|]. intros Heq. apply Hne. by rewrite <- Heq.
        -- split; [done|]. exists b. cbn. rewrite lookup_insert_eq. split; [done|]. by apply Hin.
      * intros (-> & b' & Hb' & Hn). rewrite lookup_insert_Some in Hb'. destruct Hb' as [[Hk <-]|[Hne Hb']].
        -- right. split; [done|]. exists (bc_channel_name c). rewrite Hin. split; [done|]. destruct c as [c1 c2 c3]. cbn in *. injection Hk as <- <-. done.
        -- left. split; [|by apply not_eq_sym]. split; [done|]. by exists b'.
Qed.

(** Deleting one beacon, in the two tables. *)
Definition drop_beacon (mesh : rstring) (peer : N) T : Registers :=
  T <| r_beacon_channels := filter (λ kv, channels_of mesh peer kv.2 = false) (r_beacon_channels T) |>
    <| r_beacons := filter (λ kv, bool_decide (br_mesh_identity kv.2 = mesh) && (br_peer_id kv.2 =? peer)%N = false) (r_beacons T) |>.
Lemma drop_beacon_agrees mesh peer T m : registers_agree T m →
  registers_agree (drop_beacon mesh peer T) (m <| m_beacons := delete (mesh, peer) (m_beacons m) |>) ∧
  size (filter (λ kv, bool_decide (br_mesh_identity kv.2 = mesh) && (br_peer_id kv.2 =? peer)%N = true) (r_beacons T)) =
    (if bool_decide (is_Some (m_beacons m !! (mesh, peer))) then 1 else 0)%nat.
Proof.
  intros Ha. assert (∀ k r, r_beacons T !! k = Some r →
    bool_decide (br_mesh_identity r = mesh) && (br_peer_id r =? peer)%N = bool_decide (k = (mesh, peer))) as Hkey.
  { intros k r Hr. destruct (agree_some _ _ _ _ _ (ra_beacons _ _ Ha) Hr) as (b & _ & -> & -> & _). unfold beacon_key. cbn.
    destruct (N.eqb_spec (uuid (sb_peer_id b)) peer) as [<-|Hn]; [rewrite andb_true_r|rewrite andb_false_r].
    - apply bool_decide_ext. split; [by intros ->|by intros [= ->]].
    - rewrite bool_decide_eq_false_2; [done|]. congruence. }
  split.
  - pose proof (ra_channels _ _ Ha) as Hch. pose proof (ra_beacons _ _ Ha) as Hb. destruct Ha. split; cbn; try done.
    + intros k. destruct (decide (k = (mesh, peer))) as [->|Hne].
      * rewrite lookup_delete_eq. rewrite (proj2 (map_lookup_filter_None _ _ _)); [constructor|].
        right. intros r Hr. cbn. rewrite (Hkey _ _ Hr), bool_decide_eq_true_2; done.
      * rewrite lookup_delete_ne by done. specialize (Hb k). inversion Hb as [r b Hrb Hr Hbm|Hr Hbm].
        -- rewrite (proj2 (map_lookup_filter_Some _ _ _ r)); [by constructor|]. split; [done|]. cbn.
           by rewrite (Hkey k r (eq_sym Hr)), bool_decide_eq_false_2.
        -- rewrite (proj2 (map_lookup_filter_None _ _ _)); [constructor|]. by left.
    + intros k c. rewrite delete_channels, Hch. setoid_rewrite lookup_delete_Some. split.
      * intros [(-> & b & Hbm & Hn) Hne]. split; [done|]. exists b. split; [|done]. split; [by apply not_eq_sym|done].
      * intros (-> & b & [Hne Hbm] & Hn). split; [|by apply not_eq_sym]. split; [done|]. by exists b.
  - case_bool_decide as Hs.
    + pose proof (ra_beacons _ _ Ha (mesh, peer)) as Hb. destruct Hs as [b Hbm]. rewrite Hbm in Hb. inversion Hb as [r b' _ Hr|]. subst b'.
      assert (filter (λ kv : rstring * N * BeaconRow, bool_decide (br_mesh_identity kv.2 = mesh) && (br_peer_id kv.2 =? peer)%N = true)
        (r_beacons T) = {[(mesh, peer) := r]}) as ->; [|by rewrite map_size_singleton].
      apply map_eq. intros k. apply option_eq. intros x. rewrite map_lookup_filter_Some, lookup_singleton_Some. cbn. split.
      * intros [Hx Hp]. rewrite (Hkey k x Hx) in Hp. apply bool_decide_eq_true in Hp as ->. split; [done|]. congruence.
      * intros [<- <-]. split; [done|]. by rewrite (Hkey _ r (eq_sym Hr)), bool_decide_eq_true_2.
    + apply map_size_empty_iff, map_empty. intros k. apply map_lookup_filter_None. right. intros r Hr. cbn.
      rewrite (Hkey k r Hr), bool_decide_eq_true. intros ->. apply Hs.
      destruct (agree_some _ _ _ _ _ (ra_beacons _ _ Ha) Hr) as (b & -> & _). by eexists.
Qed.
Lemma delete_beacon_rows_agrees mesh peers n : is_u64 n → ∀ T m, registers_agree T m →
  ∃ T', delete_beacon_rows mesh peers n T = (Ok (remove_beacons mesh peers (m_beacons m) n).2, T') ∧
    registers_agree T' (m <| m_beacons := (remove_beacons mesh peers (m_beacons m) n).1 |>).
Proof.
  revert n. induction peers as [|peer peers IH]; intros n Hn T m Ha; [exists T; split; [done|by destruct m]|].
  destruct (drop_beacon_agrees mesh (uuid peer) T m Ha) as [Ha' Hsize].
  set (gone := bool_decide (is_Some (m_beacons m !! (mesh, uuid peer)))) in *.
  assert (n +w N.of_nat (if gone then 1 else 0) = if gone then n +w 1 else n) as Hadd.
  { destruct gone; [done|]. rewrite wadd_small; [lia|]. by rewrite N.add_0_r. }
  assert (is_u64 (if gone then n +w 1 else n)) as Hn' by (destruct gone; [apply wadd_lt|done]).
  destruct (IH _ Hn' _ _ Ha') as (T' & HT' & Hr). exists T'. cbn [delete_beacon_rows remove_beacons].
  unfold mbind, st_bind. cbn [delete_many tab_get tab_put beacons beacon_channels].
  match goal with |- context [size ?x] => change (size x) with
    (size (filter (λ kv, bool_decide (br_mesh_identity kv.2 = mesh) && (br_peer_id kv.2 =? uuid peer)%N = true) (r_beacons T))) end.
  rewrite Hsize, Hadd. split; [exact HT'|exact Hr].
Qed.
Lemma delete_beacons_same mesh peers s m : agrees s m →
  refines registers_agree eq (sql_delete_beacons mesh peers) (mem_delete_beacons mesh peers) s m.
Proof.
  intros Ha. apply refines_admit; [done|]. intros s' Hs'. pose proof (agrees_eq _ _ _ Ha Hs') as Ha'.
  destruct (delete_beacon_rows_agrees mesh peers 0 ltac:(done) _ _ Ha') as (T' & HT' & Hr).
  unfold mem_delete_beacons. destruct (remove_beacons mesh peers (m_beacons m) 0) as [bs n] eqn:E. cbn [fst snd] in *.
  eapply refines_run; [done|exact HT'|by rewrite E|done|]. by rewrite E.
Qed.
End beacons.
