(* ===== verification/StoreRegisterCalls.v ===== *)
(** The registers: runs of calls, the refresh lock among other processes, the epoch cell,
    and a database to run them on. *)
From stdpp Require Import base gmap strings list sorting numbers.
From Stdlib Require Import Lia.
From S2P Require Import Prelude.
From S2P Require Import Sorted.
From S2P Require Import WorkModel.
From S2P Require Import CoreTranscript.
From S2P Require Import CoreHistory.
From S2P Require Import StoreBase.
From S2P Require Import StoreTable.
From S2P Require Import StoreEventThms.
From S2P Require Import StoreRegisters.
From S2P Require Import StoreRegisterThms.
From S2P Require Import StoreRegisterLists.

#[local] Abbreviation fits n := (Z.of_N n ≤ i64_max)%Z.

(** ** The calls *)
Inductive RegisterCall :=
| LoadRuntimeCursor (consumer_id : rstring)
| SaveRuntimeCursor (consumer_id : rstring) (cursor : TranscriptCursor) (updated_at_ms : N)
| LoadSubscriptions
| ReplaceSubscriptions (rows : list StoredSubscription)
| LoadMeshIdentity (scope : rstring)
| SaveMeshIdentity (entry : StoredMeshIdentity)
| GetScopedState (scope_key key : rstring)
| SetScopedState (entry : StoredScopedState)
| AdvanceScopedState (entry : StoredScopedState)
| ListScopedState (scope_key : rstring)
| DeleteScopedState (scope_key key : rstring)
| LoadBeacon (mesh_identity : rstring) (peer_id : PeerId)
| ListBeacons (mesh_identity : rstring)
| SaveBeacon (beacon : StoredBeacon)
| DeleteBeacons (mesh_identity : rstring) (peer_ids : list PeerId)
| TryAcquireRefreshLock (mesh_identity : rstring) (now_ms refresh_interval_ms holder_pid : N)
| ReleaseRefreshLock (mesh_identity : rstring)
| LoadLocalIdentity (agent_name : rstring)
| InsertLocalIdentity (identity : StoredLocalIdentity)
| SaveLocalIdentityCard (identity : Identity).
Inductive RegisterAnswer :=
| RDone
| RCursor (cursor : option TranscriptCursor)
| RSubscriptions (rows : list StoredSubscription)
| RMesh (entry : option StoredMeshIdentity)
| RScoped (entry : option StoredScopedState)
| RAdvanced (advanced : bool)
| RScopedList (entries : list StoredScopedState)
| RBeacon (beacon : option StoredBeacon)
| RBeacons (beacons : list StoredBeacon)
| RRemoved (removed : N)
| RLock (outcome : StoredRefreshLockOutcome)
| RIdentity (identity : option StoredLocalIdentity).
(** Subscriptions and beacons are listed in some order, the channels of a beacon once each. *)
Definition register_answers_agree (sql mem : RegisterAnswer) : Prop :=
  match sql, mem with
  | RSubscriptions l, RSubscriptions l' => l ≡ₚ l'
  | RBeacon b, RBeacon b' => option_Forall2 beacon_agrees b b'
  | RBeacons l, RBeacons l' => beacons_agree l l'
  | a, a' => a = a'
  end.
Section calls.
Context `{!JsonValue} {HJ : HeadersJson}.
Definition sql_register {S} `{!RegisterDb S} (k : RegisterCall) : ST S StoreError RegisterAnswer :=
  match k with
  | LoadRuntimeCursor c => a ← sql_load_runtime_cursor c; mret (RCursor a)
  | SaveRuntimeCursor c cursor now => _ ← sql_save_runtime_cursor c cursor now; mret RDone
  | LoadSubscriptions => a ← sql_load_subscriptions; mret (RSubscriptions a)
  | ReplaceSubscriptions rows => _ ← sql_replace_subscriptions rows; mret RDone
  | LoadMeshIdentity scope => a ← sql_load_mesh_identity scope; mret (RMesh a)
  | SaveMeshIdentity e => _ ← sql_save_mesh_identity e; mret RDone
  | GetScopedState a b => e ← sql_get_scoped_state a b; mret (RScoped e)
  | SetScopedState e => _ ← sql_set_scoped_state e; mret RDone
  | AdvanceScopedState e => b ← sql_advance_scoped_state e; mret (RAdvanced b)
  | ListScopedState scope => l ← sql_list_scoped_state scope; mret (RScopedList l)
  | DeleteScopedState a b => _ ← sql_delete_scoped_state a b; mret RDone
  | LoadBeacon mesh peer => b ← sql_load_beacon mesh peer; mret (RBeacon b)
  | ListBeacons mesh => l ← sql_list_beacons mesh; mret (RBeacons l)
  | SaveBeacon b => _ ← sql_save_beacon b; mret RDone
  | DeleteBeacons mesh peers => n ← sql_delete_beacons mesh peers; mret (RRemoved n)
  | TryAcquireRefreshLock mesh now interval pid => o ← sql_try_acquire_refresh_lock idle mesh now interval pid; mret (RLock o)
  | ReleaseRefreshLock mesh => _ ← sql_release_refresh_lock mesh; mret RDone
  | LoadLocalIdentity name => i ← sql_load_local_identity_by_agent_name name; mret (RIdentity i)
  | InsertLocalIdentity i => _ ← sql_insert_local_identity i; mret RDone
  | SaveLocalIdentityCard card => _ ← sql_save_local_identity_card card; mret RDone
  end.
Definition mem_register (k : RegisterCall) : ST MemRegisters StoreError RegisterAnswer :=
  match k with
  | LoadRuntimeCursor c => a ← mem_load_runtime_cursor c; mret (RCursor a)
  | SaveRuntimeCursor c cursor _ => _ ← mem_save_runtime_cursor c cursor; mret RDone
  | LoadSubscriptions => a ← mem_load_subscriptions; mret (RSubscriptions a)
  | ReplaceSubscriptions rows => _ ← mem_replace_subscriptions rows; mret RDone
  | LoadMeshIdentity scope => a ← mem_load_mesh_identity scope; mret (RMesh a)
  | SaveMeshIdentity e => _ ← mem_save_mesh_identity e; mret RDone
  | GetScopedState a b => e ← mem_get_scoped_state a b; mret (RScoped e)
  | SetScopedState e => _ ← mem_set_scoped_state e; mret RDone
  | AdvanceScopedState e => b ← mem_advance_scoped_state e; mret (RAdvanced b)
  | ListScopedState scope => l ← mem_list_scoped_state scope; mret (RScopedList l)
  | DeleteScopedState a b => _ ← mem_delete_scoped_state a b; mret RDone
  | LoadBeacon mesh peer => b ← mem_load_beacon mesh peer; mret (RBeacon b)
  | ListBeacons mesh => l ← mem_list_beacons mesh; mret (RBeacons l)
  | SaveBeacon b => _ ← mem_save_beacon b; mret RDone
  | DeleteBeacons mesh peers => n ← mem_delete_beacons mesh peers; mret (RRemoved n)
  | TryAcquireRefreshLock mesh now interval pid => o ← mem_try_acquire_refresh_lock mesh now interval pid; mret (RLock o)
  | ReleaseRefreshLock mesh => _ ← mem_release_refresh_lock mesh; mret RDone
  | LoadLocalIdentity name => i ← mem_load_local_identity_by_agent_name name; mret (RIdentity i)
  | InsertLocalIdentity i => _ ← mem_insert_local_identity i; mret RDone
  | SaveLocalIdentityCard card => _ ← mem_save_local_identity_card card; mret RDone
  end.
(** The integers fit their columns; a subscription set names each channel once. *)
Definition register_call_fits (k : RegisterCall) : Prop :=
  match k with
  | SaveRuntimeCursor _ cursor _ => is_u64 (cur_lamport cursor)
  | ReplaceSubscriptions rows => NoDup (ss_channel_name <$> rows) ∧ Forall subscription_fits rows
  | SaveMeshIdentity e => fits (mi_resolved_at_ms e) ∧ fits (mi_ttl_ms e)
  | SaveBeacon b => beacon_fits b
  | TryAcquireRefreshLock _ now _ pid => fits now ∧ fits pid
  | InsertLocalIdentity i => (Z.of_N (li_version i) ≤ i32_max)%Z ∧ fits (li_created_at_ms i)
  | _ => True
  end.

Context {HL : HeadersJsonLaws} {S : Type} {DB : RegisterDb S} {DL : RegisterDbLaws S}.
Lemma register_call_agrees k (s : S) m : register_call_fits k → registers_agree (rd_tables s) m →
  call_refines sql_register mem_register register_fault register_answers_agree
    (λ s m, registers_agree (rd_tables s) m) k s m.
Proof.
  intros Hk Ha. change (refines registers_agree register_answers_agree (sql_register k) (mem_register k) s m).
  destruct k; cbn [sql_register mem_register register_call_fits] in *; destruct_and?;
    (eapply refines_map; [|first
      [by apply load_runtime_cursor_same | by apply save_runtime_cursor_same | by apply load_subscriptions_same
      |by apply replace_subscriptions_same | by apply load_mesh_identity_same | by apply save_mesh_identity_same
      |by apply get_scoped_state_same | by apply set_scoped_state_same | by apply advance_scoped_state_same
      |by apply list_scoped_state_same | by apply delete_scoped_state_same | by apply load_beacon_same
      |by apply list_beacons_same | by apply save_beacon_same | by apply delete_beacons_same
      |by apply try_acquire_refresh_lock_same | by apply release_refresh_lock_same | by apply load_local_identity_same
      |by apply insert_local_identity_same | by apply save_local_identity_card_same]]);
    cbn; try done; by intros ? ? ->.
Qed.
End calls.

(** C18: The registers of the SQLite store refine those of the in-memory store.  Run any
    calls on SQLite (runtime cursors, subscriptions, mesh identities, scoped state,
    beacons, the refresh lock, local identities), any of which the database may fail,
    from tables that stand for the maps of the in-memory store.  Then the in-memory
    store gives the same answers, a faulted call having done nothing or all of its work,
    and the tables still stand for its maps.  In particular a runtime cursor only
    advances, in the order of all of [u64], and a scoped state moves only to a greater
    value.  Nothing runs between the statements of a call; the default agent's identity
    is the first row of its table. *)
Theorem registers_refine_memory `{!JsonValue} {HJ : HeadersJson} {HL : HeadersJsonLaws}
    {S : Type} {DB : RegisterDb S} {DL : RegisterDbLaws S} (ks : list RegisterCall) (s : S) (m : MemRegisters) :
  registers_agree (rd_tables s) m → Forall register_call_fits ks →
  let run := run_calls sql_register ks s in
  ∃ m', explains mem_register register_fault register_answers_agree m run.1 m' ∧ registers_agree (rd_tables run.2) m'.
Proof.
  intros Ha Hk.
  exact (run_refines sql_register mem_register register_fault register_answers_agree
    (λ s m, registers_agree (rd_tables s) m) register_call_fits ks s m (λ k s m, register_call_agrees k s m) Ha Hk).
Qed.

(** ** The refresh lock among other processes *)
Section lock.
Context `{!JsonValue} {S : Type} {DB : RegisterDb S} {DL : RegisterDbLaws S}.
Variable others : S → S.
Definition locks_keyed (T : Registers) : Prop := map_Forall (λ k r, lr_mesh_identity r = k) (r_locks T).
Hypothesis others_keyed : ∀ s, locks_keyed (rd_tables (others s)).

(** The lock may be taken at [now] when nobody holds it, or the holder's time is stale. *)
Definition may_take (o : option LockRow) (now interval : N) : Prop :=
  match o with None => True | Some r => (0 ≤ lr_held_at_ms r)%Z ∧ (interval ≤ now - Z.to_N (lr_held_at_ms r))%N end.
(** The last thing a call does to the tables, after others did what they did. *)
Definition took k now interval pid (s' : S) : Prop :=
  ∃ s1, let T := rd_tables (others s1) in may_take (r_locks T !! k) now interval ∧
  rd_tables s' = T <| r_locks := <[k := MkLockRow k (Z.of_N now) (Z.of_N pid)]> (r_locks T) |>.
Definition left_alone k now interval held (s' : S) : Prop :=
  ∃ s1, let T := rd_tables (others s1) in rd_tables s' = T ∧
  (held = now ∨ ∃ r, r_locks T !! k = Some r ∧ lr_held_at_ms r = Z.of_N held ∧ (now - held < interval)%N).

Lemma rd_run_ok {A} (tx : Tx A) (s s' : S) a : rd_run tx s = (Ok a, s') → tx (rd_tables s) = (Ok a, rd_tables s').
Proof. intros E. pose proof (law_rd_ok s tx a) as Hok. rewrite E in Hok. by apply Hok. Qed.
(** The rows an attempt updates: the lock's, if its time is still the one read. *)
Lemma update_lock_ok k held row (T : Registers) n T' : locks_keyed T →
  update_many refresh_locks (λ r, bool_decide (lr_mesh_identity r = k) && (lr_held_at_ms r =? held)%Z)
    (λ r, MkLockRow (lr_mesh_identity r) (lr_held_at_ms row) (lr_holder_pid row)) T = (Ok n, T') →
  n = 1%N ∧ (∃ r, r_locks T !! k = Some r ∧ lr_held_at_ms r = held) ∧
    T' = T <| r_locks := <[k := MkLockRow k (lr_held_at_ms row) (lr_holder_pid row)]> (r_locks T) |>
  ∨ n = 0%N ∧ T' = T.
Proof.
  intros Hkey Hu. set (p := λ r, bool_decide (lr_mesh_identity r = k) && (lr_held_at_ms r =? held)%Z) in Hu.
  assert (∀ j r, r_locks T !! j = Some r → p r = true → j = k ∧ lr_held_at_ms r = held) as Hp.
  { intros j r Hr Hpr. apply andb_true_iff in Hpr as [Hm%bool_decide_eq_true Hh%Z.eqb_eq]. by rewrite <- (Hkey j r Hr). }
  destruct (r_locks T !! k) as [r|] eqn:Hr; [destruct (p r) eqn:Hpr|].
  - left. destruct (Hp k r Hr Hpr) as [_ Hh]. rewrite (update_many_one refresh_locks p _ k r) in Hu; [|done|done|].
    + injection Hu as <- <-. rewrite (Hkey k r Hr). split; [done|]. split; [by exists r|done].
    + intros j x Hx Hj. destruct (p x) eqn:Hpx; [|done]. by destruct (Hp j x Hx Hpx).
  - right. assert (∀ j x, r_locks T !! j = Some x → p x = false) as Hnone.
    { intros j x Hx. destruct (p x) eqn:Hpx; [|done]. destruct (Hp j x Hx Hpx) as [-> _]. congruence. }
    by apply (update_many_none refresh_locks p) in Hu; [|intros []|].
  - right. assert (∀ j x, r_locks T !! j = Some x → p x = false) as Hnone.
    { intros j x Hx. destruct (p x) eqn:Hpx; [|done]. destruct (Hp j x Hx Hpx) as [-> _]. congruence. }
    by apply (update_many_none refresh_locks p) in Hu; [|intros []|].
Qed.
Definition untouched (s' : S) : Prop := ∃ s1, rd_tables s' = rd_tables (others s1).
Definition ended k now interval pid (r : result StoreError StoredRefreshLockOutcome * S) : Prop :=
  match r with
  | (Ok LockAcquired, s') => took k now interval pid s'
  | (Ok (HeldFresh held), s') => left_alone k now interval held s'
  | (Err _, _) => True
  end.
Lemma takeover_spec k now interval pid n : ∀ s, untouched s →
  ended k now interval pid (takeover others k now interval (MkLockRow k (Z.of_N now) (Z.of_N pid)) n s).
Proof.
  induction n as [|n IH]; intros s Hs; cbn [takeover].
  { destruct Hs as [s1 Hs]. exists s1. split; [done|by left]. }
  rewrite (st_bind_ok _ _ s tt (others s)) by done.
  destruct (rd_run (find_by_id refresh_locks k) (others s)) as [[o|e] s1] eqn:Ef;
    [rewrite (st_bind_ok _ _ _ _ _ Ef)|by rewrite (st_bind_err _ _ _ _ _ Ef)].
  apply rd_run_ok in Ef. injection Ef as Ho Hs1. cbn [tab_get refresh_locks] in Ho. destruct o as [r|]; cbv beta iota; [|apply IH; by exists s].
  destruct (i64_to_u64 (str "refresh_locks.held_at_ms") (lr_held_at_ms r)) as [held|e] eqn:Eh.
  2:{ by rewrite (st_bind_err _ _ s1 e s1). }
  rewrite (st_bind_ok _ _ s1 held s1) by done.
  assert ((0 ≤ lr_held_at_ms r)%Z ∧ held = Z.to_N (lr_held_at_ms r)) as [Hpos ->].
  { unfold i64_to_u64 in Eh. destruct (Z.leb_spec 0 (lr_held_at_ms r)); [by injection Eh as <-|done]. }
  destruct (N.ltb_spec (now - Z.to_N (lr_held_at_ms r)) interval) as [Hfresh|Hstale].
  { exists s. split; [by symmetry|]. right. exists r. rewrite Z2N.id by done. done. }
  rewrite (st_bind_ok _ _ s1 tt (others s1)) by done.
  lazymatch goal with |- context [rd_run ?tx ≫= _] => set (update := tx) end.
  destruct (rd_run update (others s1)) as [[affected|e] s2] eqn:Eu;
    [rewrite (st_bind_ok _ _ _ _ _ Eu)|by rewrite (st_bind_err _ _ _ _ _ Eu)].
  apply rd_run_ok, update_lock_ok in Eu; [|apply others_keyed].
  destruct Eu as [(-> & (r2 & Hr2 & Hh2) & HT)|(-> & HT)].
  - exists s1. split; [|exact HT]. rewrite Hr2. unfold may_take. rewrite Hh2. done.
  - cbn [N.eqb]. apply IH. by exists s1.
Qed.
(** The refresh lock is taken over atomically, whatever other processes do between
    the statements of a call.  A call that answers Acquired wrote, as its last step,
    its own time and pid over a lock that nobody held at that moment or whose holder's
    time was then at least the refresh interval ago, and wrote nothing else; so of two
    calls that acquire with no release between them, the later one comes at least the
    interval after the earlier.  A call that answers HeldFresh wrote nothing, and
    names the time of a fresh holder or, having lost every race, its own. *)
Theorem refresh_lock_atomic k now interval pid (s : S) :
  match sql_try_acquire_refresh_lock others k now interval pid s with
  | (Ok LockAcquired, s') => took k now interval pid s'
  | (Ok (HeldFresh held), s') => left_alone k now interval held s'
  | (Err _, _) => True
  end.
Proof using others_keyed.
  unfold sql_try_acquire_refresh_lock. destruct (rd_admit s) as [[[]|e] s0] eqn:E0;
    [rewrite (st_bind_ok _ _ _ _ _ E0)|by rewrite (st_bind_err _ _ _ _ _ E0)].
  destruct (u64_to_i64 (str "refresh_locks.held_at_ms") now) as [h|e] eqn:Eh.
  2:{ by rewrite (st_bind_err _ _ s0 e s0). }
  rewrite (st_bind_ok _ _ s0 h s0) by done.
  destruct (u64_to_i64 (str "refresh_locks.holder_pid") pid) as [q|e] eqn:Ep.
  2:{ by rewrite (st_bind_err _ _ s0 e s0). }
  rewrite (st_bind_ok _ _ s0 q s0) by done.
  assert (h = Z.of_N now ∧ q = Z.of_N pid) as [-> ->].
  { unfold u64_to_i64 in *. destruct (_ <=? _)%Z; [|done]. destruct (_ <=? _)%Z; [|done]. by injection Eh as <-; injection Ep as <-. }
  cbv zeta. set (row := MkLockRow k (Z.of_N now) (Z.of_N pid)). rewrite (st_bind_ok _ _ s0 tt (others s0)) by done.
  set (tx := insert_exec (insert_on_conflict refresh_locks row (λ _, None))).
  pose proof (law_rd_ok (others s0) tx) as Hok. pose proof (law_rd_err (others s0) tx) as Herr.
  destruct (rd_run tx (others s0)) as [[[]|e] s1] eqn:Er; cbn [fst snd] in *.
  - rewrite (st_bind_ok _ _ (others s0) true s1) by (unfold inserted; by rewrite Er). cbn.
    specialize (Hok tt eq_refl). exists s0. unfold tx, insert_exec, insert_on_conflict, mbind, st_bind in Hok.
    change (tab_get refresh_locks (rd_tables (others s0)) !! tab_key refresh_locks row)
      with (r_locks (rd_tables (others s0)) !! k) in Hok.
    cbv zeta. destruct (r_locks (rd_tables (others s0)) !! k); cbn in Hok; [by unfold st_throw in Hok|]. split; [done|]. by injection Hok as <-.
  - assert (e = Database RecordNotInserted ∧ rd_tables s1 = rd_tables (others s0) ∨ db_failed e) as [[-> Hs]|(d & -> & Hd)].
    { destruct (Herr e eq_refl) as [[Hs [Htx|Hf]]|[Hf _]]; [left|by right..]. split; [|done]. revert Htx.
      unfold tx, insert_exec, insert_on_conflict, mbind, st_bind. destruct (_ !! _); cbn; [|done]. unfold st_throw. by intros [= <-]. }
    + rewrite (st_bind_ok _ _ (others s0) false s1) by (unfold inserted; by rewrite Er).
      apply takeover_spec. by exists s0.
    + by rewrite (st_bind_err _ _ (others s0) (Database d) s1) by (unfold inserted; rewrite Er; by destruct d).
Qed.
End lock.

(** * The epoch of a start, the account registries, and the witnesses *)
Section starts.
Context `{!JsonValue} {S : Type} {DB : RegisterDb S} {DL : RegisterDbLaws S}.
Implicit Types s : S.

(** ** The epoch of a daemon start *)
Definition cell s : N := match r_epoch (rd_tables s) !! 0%Z with None => 0%N | Some e => Z.to_N e end.
Definition cell_ok s : Prop := ∀ e, r_epoch (rd_tables s) !! 0%Z = Some e → (0 < e)%Z.
Lemma bump_spec s : cell_ok s →
  cell_ok (bump s).2 ∧ (cell s ≤ cell (bump s).2)%N ∧ ∀ e, (bump s).1 = Ok e → (e = cell s + 1 ∧ cell (bump s).2 = e)%N.
Proof.
  intros Hs. set (T' := (rd_tables s) <| r_epoch := <[0%Z := (Z.of_N (cell s) + 1)%Z]> (r_epoch (rd_tables s)) |>).
  assert (epoch_cell (rd_tables s) = (Ok (Z.of_N (cell s) + 1)%Z, T') ∨ ∃ e, epoch_cell (rd_tables s) = (Err e, rd_tables s)) as Htx.
  { unfold epoch_cell. assert (match r_epoch (rd_tables s) !! 0%Z with None => 1 | Some stored => stored + 1 end = Z.of_N (cell s) + 1)%Z as ->.
    { unfold cell. destruct (r_epoch _ !! 0%Z) as [e|] eqn:He; [|done]. specialize (Hs e He). lia. }
    destruct (_ <=? _)%Z; [by left|right; by eexists]. }
  assert (∀ s', rd_tables s' = T' → cell_ok s' ∧ cell s' = (cell s + 1)%N) as HT'.
  { intros s' Hs'. unfold cell_ok, cell at 1. rewrite Hs'. cbn. rewrite lookup_insert_eq. split; [|lia].
    intros e [= <-]. lia. }
  assert (∀ s', rd_tables s' = rd_tables s → cell_ok s' ∧ cell s' = cell s) as HT.
  { intros s' Hs'. unfold cell_ok, cell. by rewrite Hs'. }
  unfold bump. pose proof (law_rd_ok s epoch_cell) as Hok. pose proof (law_rd_err s epoch_cell) as Herr.
  destruct (rd_run epoch_cell s) as [[z|e] s1] eqn:E; cbn [fst snd] in *.
  - rewrite (st_bind_ok _ _ _ _ _ E). specialize (Hok z eq_refl). destruct Htx as [Htx|[e Htx]]; rewrite Htx in Hok; [|done].
    injection Hok as <- Hs1. destruct (HT' s1 (eq_sym Hs1)) as [Hc Hn]. cbn [st_lift fst snd]. split_and!; [done|lia|].
    intros e He. unfold i64_to_u64 in He. destruct (Z.leb_spec 0 (Z.of_N (cell s) + 1)); [|lia]. injection He as <-. lia.
  - rewrite (st_bind_err _ _ _ _ _ E). cbn [fst snd]. destruct (Herr e eq_refl) as [[Hs1 _]|[_ (z & Hz)]].
    + destruct (HT s1 Hs1) as [Hc ->]. done.
    + destruct Htx as [Htx|[e' Htx]]; rewrite Htx in Hz; [|done]. injection Hz as _ Hs1.
      destruct (HT' s1 (eq_sym Hs1)) as [Hc ->]. split_and!; [done|lia|done].
Qed.
(** Over any number of daemon starts, any of which the database may fail, each epoch is
    greater than all before it. *)
Theorem epochs_increase n s : cell_ok s →
  StronglySorted N.lt (omap (λ kr, match kr.2 with Ok e => Some e | Err _ => None end)
    (run_calls (λ _ : unit, bump) (replicate n ()) s).1).
Proof.
  enough (∀ n s, cell_ok s → StronglySorted N.lt (omap (λ kr, match kr.2 with Ok e => Some e | Err _ => None end)
    (run_calls (λ _ : unit, bump) (replicate n ()) s).1) ∧
    Forall (λ e, (cell s < e)%N) (omap (λ kr, match kr.2 with Ok e => Some e | Err _ => None end)
    (run_calls (λ _ : unit, bump) (replicate n ()) s).1)) as Hall by (intros Hs; by apply Hall).
  clear n s. intros n. induction n as [|n IH]; intros s Hs; [split; constructor|].
  cbn [replicate run_calls]. destruct (bump_spec s Hs) as (Hs1 & Hle & He). destruct (bump s) as [r s1]. cbn [fst snd] in *.
  destruct (IH s1 Hs1) as [Hsort Hall]. destruct (run_calls (λ _ : unit, bump) (replicate n ()) s1) as [trace s2]. cbn [fst snd] in *.
  assert (Forall (λ e, (cell s < e)%N) (omap (λ kr, match kr.2 with Ok e => Some e | Err _ => None end) trace)) as Hall'.
  { eapply list.Forall_impl; [exact Hall|]. intros e He'. cbn in He'. lia. }
  destruct r as [e|e]; cbn [omap list_omap snd]; [|done]. destruct (He e eq_refl) as [-> Hc]. rewrite Hc in Hall.
  split; [by constructor|]. constructor; [lia|done].
Qed.

(** ** Account registries *)
Definition registry_row (d : StoredAccountRegistry) : RegistryRow :=
  MkRegistryRow (sa_mesh_identity d) (Z.of_N (sa_schema_version d)) (Z.of_N (sa_generated_at_ms d))
    (sa_document_json d) (Z.of_N (sa_updated_at_ms d)).
Lemma registry_round d : (sa_schema_version d < 65536)%N → registry_of_row (registry_row d) = Ok d.
Proof.
  intros Hv. unfold registry_of_row, u16_from. cbn -[i64_to_u64]. destruct (Z.leb_spec 0 (Z.of_N (sa_schema_version d))); [|lia].
  destruct (Z.ltb_spec (Z.of_N (sa_schema_version d)) 65536); [|lia]. cbn -[i64_to_u64].
  rewrite !u64_back, N2Z.id. cbn. by destruct d.
Qed.
(** What a save stored, a load gives back, whatever the time it was loaded. *)
Lemma load_saved_registry d s s1 s2 r : (sa_schema_version d < 65536)%N →
  save_account_registry d s = (Ok tt, s1) → rd_tables s2 = rd_tables s1 →
  (load_account_registry (sa_mesh_identity d) s2).1 = Ok r → r = Some d.
Proof.
  intros Hv Hsave Hs2. unfold save_account_registry in Hsave.
  destruct (rd_admit s) as [[[]|e] s0] eqn:E0; [rewrite (st_bind_ok _ _ _ _ _ E0) in Hsave|by rewrite (st_bind_err _ _ _ _ _ E0) in Hsave].
  unfold u64_to_i64 in Hsave. destruct (Z.leb_spec (Z.of_N (sa_generated_at_ms d)) i64_max); [|done].
  destruct (Z.leb_spec (Z.of_N (sa_updated_at_ms d)) i64_max); [|done].
  set (row := registry_row d).
  change (rd_run (insert_exec (insert_on_conflict account_registries row (λ _, Some row))) s0 = (Ok tt, s1)) in Hsave.
  apply rd_run_ok in Hsave. rewrite (insert_exec_put account_registries row _ row) in Hsave by (by destruct (_ !! _)).
  injection Hsave as Hs1. unfold load_account_registry.
  destruct (rd_run (find_by_id account_registries (sa_mesh_identity d)) s2) as [[o|e] s3] eqn:Ef;
    [rewrite (st_bind_ok _ _ _ _ _ Ef)|by rewrite (st_bind_err _ _ _ _ _ Ef)].
  apply rd_run_ok in Ef. injection Ef as Ho _. cbn [tab_get account_registries] in Ho. rewrite Hs2, <- Hs1 in Ho. cbn in Ho.
  rewrite lookup_insert_eq in Ho. subst o. fold row. cbn [st_lift fst optional]. unfold row at 1. rewrite registry_round by done. by intros [= <-].
Qed.
End starts.

(** ** A store in memory *)
Module RegisterScenario.
#[local] Existing Instance StoreScenario.json_tree.
#[local] Existing Instance StoreScenario.headers_json.
#[local] Existing Instance StoreScenario.headers_json_laws.

#[export] Instance register_db : RegisterDb Registers := {|
  rd_admit := mret tt;
  rd_run A tx s := match tx s with (Ok a, s') => (Ok a, s') | (Err e, _) => (Err e, s) end;
|}.
#[export] Instance register_db_laws : RegisterDbLaws Registers.
Proof.
  refine {| rd_tables s := s |}; cbn; [done|done|..].
  - intros A s tx a. destruct (tx s) as [[b|e] s']; [by intros [= <-]|done].
  - intros A s tx e. destruct (tx s) as [[b|e'] s']; [done|]. intros [= <-]. left. split; [done|by left].
Defined.

Definition mesh : rstring := str "alice".
Definition default_agent : StoredLocalIdentity :=
  MkStoredLocalIdentity (MkId 7) (MkId 3) 1 100 (MkIdentity (str "alice") [] [] [] [] [] ∅) DEFAULT_AGENT_NAME.
Definition codex_agent : StoredLocalIdentity :=
  MkStoredLocalIdentity (MkId 7) (MkId 4) 1 200 (MkIdentity (str "codex") [] [] [] [] [] ∅) (str "codex").
Definition default_row : IdentityRow :=
  MkIdentityRow 1 7 3 1 100 (str "alice") [] [] [] [] [] (StoreScenario.JHeaders ∅) DEFAULT_AGENT_NAME.
Definition fresh : Registers := MkRegisters ∅ ∅ ∅ ∅ ∅ ∅ ∅ {[ 1%Z := default_row ]} ∅ ∅ ∅.
Definition fresh_mem : MemRegisters := new_mem <| m_local_identities := {[ DEFAULT_AGENT_NAME := default_agent ]} |>.
Lemma fresh_agrees : registers_agree (rd_tables fresh) fresh_mem.
Proof.
  split; cbn; [intros ?; rewrite !lookup_empty; constructor| |intros ?; rewrite !lookup_empty; constructor| |intros ?; rewrite !lookup_empty; constructor| |intros ?; rewrite !lookup_empty; constructor|].
  - split_and!; [constructor|constructor|done].
  - split; [done|]. apply map_Forall_empty.
  - intros k c. rewrite lookup_empty. split; [done|]. intros (_ & b & Hb & _). by rewrite lookup_empty in Hb.
  - split.
    + intros id r [<- <-]%lookup_singleton_Some. exists default_agent. split; [by vm_compute|].
      exists (StoreScenario.JHeaders ∅). by vm_compute.
    + intros name i [<- <-]%lookup_singleton_Some. split; [done|]. exists 1%Z, default_row. by rewrite lookup_singleton_eq.
    + by intros id id' r r' [<- _]%lookup_singleton_Some [<- _]%lookup_singleton_Some.
    + exists default_row. by rewrite lookup_singleton_eq.
Qed.

Definition at_ (lamport id : N) : TranscriptCursor := MkTranscriptCursor lamport (MkId id).
Definition note (value : string) : StoredScopedState := MkStoredScopedState (str "user:7") (str "mode") (str value) 1 1 None.
Definition beacon (channels : list rstring) : StoredBeacon := MkStoredBeacon mesh (MkId 7) (str "/home") channels 42 10 20.
Definition calls : list RegisterCall :=
  [SaveRuntimeCursor mesh (at_ 5 1) 0; SaveRuntimeCursor mesh (at_ 18446744073709551615 1) 0;
   SaveRuntimeCursor mesh (at_ 6 1) 0; LoadRuntimeCursor mesh;
   AdvanceScopedState (note "b"); AdvanceScopedState (note "a"); ListScopedState (str "user:7");
   SaveBeacon (beacon [str "b"; str "a"; str "b"]); LoadBeacon mesh (MkId 7); DeleteBeacons mesh [MkId 7; MkId 8];
   TryAcquireRefreshLock mesh 100 10 1; TryAcquireRefreshLock mesh 105 10 2; TryAcquireRefreshLock mesh 110 10 2;
   InsertLocalIdentity codex_agent; InsertLocalIdentity codex_agent; LoadLocalIdentity (str "codex")].
Definition answers_given : list (result StoreError RegisterAnswer) :=
  [Ok RDone; Ok RDone; Ok RDone; Ok (RCursor (Some (at_ 18446744073709551615 1)));
   Ok (RAdvanced true); Ok (RAdvanced false); Ok (RScopedList [note "b"]);
   Ok RDone; Ok (RBeacon (Some (beacon [str "a"; str "b"]))); Ok (RRemoved 1);
   Ok (RLock LockAcquired); Ok (RLock (HeldFresh 100)); Ok (RLock LockAcquired);
   Ok RDone; Err unique_violation; Ok (RIdentity (Some codex_agent))].
Lemma registers_refine_memory_witness :
  (run_calls sql_register calls fresh).1.*2 = answers_given ∧
  ∃ m', explains mem_register register_fault register_answers_agree fresh_mem (run_calls sql_register calls fresh).1 m' ∧
    registers_agree (rd_tables (run_calls sql_register calls fresh).2) m'.
Proof.
  split; [vm_compute; reflexivity|].
  refine (registers_refine_memory calls fresh fresh_mem fresh_agrees _).
  unfold calls. rewrite !list.Forall_cons, list.Forall_nil. by vm_compute.
Defined.

(** Another process takes the lock while it is looked at. *)
Definition row (now pid : N) : LockRow := MkLockRow mesh (Z.of_N now) (Z.of_N pid).
Definition rival_row (o : option LockRow) : LockRow :=
  match o with
  | Some r => if (lr_held_at_ms r =? 5)%Z then row 90 9 else MkLockRow mesh (lr_held_at_ms r) (lr_holder_pid r)
  | None => row 5 9
  end.
Definition rival (s : Registers) : Registers := s <| r_locks := {[ mesh := rival_row (r_locks s !! mesh) ]} |>.
Lemma rival_keyed s : locks_keyed (rd_tables (rival s)).
Proof.
  intros k r Hr. change (({[ mesh := rival_row (r_locks s !! mesh) ]} : gmap rstring LockRow) !! k = Some r) in Hr.
  apply lookup_singleton_Some in Hr as [<- <-]. unfold rival_row. by repeat case_match.
Qed.
Lemma refresh_lock_atomic_witness :
  (sql_try_acquire_refresh_lock rival mesh 100 10 1 fresh).1 = Ok LockAcquired ∧
  took rival mesh 100 10 1 (sql_try_acquire_refresh_lock rival mesh 100 10 1 fresh).2 ∧
  (sql_try_acquire_refresh_lock rival mesh 95 10 1 fresh).1 = Ok (HeldFresh 90).
Proof.
  assert ((sql_try_acquire_refresh_lock rival mesh 100 10 1 fresh).1 = Ok LockAcquired) as Hr by (vm_compute; reflexivity).
  split; [exact Hr|]. split; [|vm_compute; reflexivity].
  pose proof (refresh_lock_atomic rival rival_keyed mesh 100 10 1 fresh) as Hthm.
  destruct (sql_try_acquire_refresh_lock rival mesh 100 10 1 fresh) as [r s']. cbn [fst snd] in *. by rewrite Hr in Hthm.
Defined.

(** A holder whose lock was taken over releases the lock of the one who took it: a third
    process acquires it while the second holds it. *)
Example release_drops_anothers_lock :
  (run_calls sql_register
    [TryAcquireRefreshLock mesh 100 10 1; TryAcquireRefreshLock mesh 110 10 2; ReleaseRefreshLock mesh;
     TryAcquireRefreshLock mesh 111 10 3] fresh).1.*2 =
  [Ok (RLock LockAcquired); Ok (RLock LockAcquired); Ok RDone; Ok (RLock LockAcquired)].
Proof. vm_compute. reflexivity. Qed.
(** The identity card goes to the first row, whoever's it is: with the agent codex
    installed first, saving the default agent's card renames codex. *)
Definition codex_first : Registers := fresh <| r_identities := ∅ |>.
Definition card_name (r : result StoreError RegisterAnswer) : option rstring :=
  match r with Ok (RIdentity (Some i)) => Some (id_name (li_identity i)) | _ => None end.
Example card_goes_to_the_first_row :
  card_name <$> (run_calls sql_register
    [InsertLocalIdentity codex_agent; InsertLocalIdentity default_agent;
     SaveLocalIdentityCard (MkIdentity (str "bob") [] [] [] [] [] ∅);
     LoadLocalIdentity (str "codex"); LoadLocalIdentity DEFAULT_AGENT_NAME] codex_first).1.*2 =
  [None; None; None; Some (str "bob"); Some (str "alice")].
Proof. vm_compute. reflexivity. Qed.
(** Subscriptions come back in the order of their names from SQLite, in the order they
    were given from memory. *)
Definition sub (name : string) : StoredSubscription := MkStoredSubscription (str name) (MkId 1) [] 0 false false.
Example subscriptions_are_reordered :
  (sql_load_subscriptions (sql_replace_subscriptions [sub "b"; sub "a"] fresh).2).1 = Ok [sub "a"; sub "b"] ∧
  (mem_load_subscriptions (mem_replace_subscriptions [sub "b"; sub "a"] fresh_mem).2).1 = Ok [sub "b"; sub "a"].
Proof. split; vm_compute; reflexivity. Qed.
End RegisterScenario.
