(* ===== verification/RouteHealth.v ===== *)
(** What a node remembers of its routes: the dial quarantine
    ([airc-lib/src/route/dial_quarantine.rs]), the walk over a peer's endpoints that
    consults it ([dial_one_peer] of [airc-lib/src/route/discovery.rs]), and the
    delivery ledger ([airc-lib/src/route/delivery_ledger.rs]).

    Clocks and stamps are arguments.  The network is the class [Dialer]: what a
    connect answers, who is connected, who is enrolled. *)
From stdpp Require Import base gmap strings list numbers.
From Stdlib Require Import Lia.
From S2P Require Import Prelude.
From S2P Require Import WorkModel.

Definition u32_add (a b : N) : N := N.min (a + b) 4294967295.   (* [u32::saturating_add] *)

(** ** Addresses *)
Inductive IpAddr := V4 (bits : N) | V6 (bits : N).
#[export] Instance IpAddr_eq : EqDecision IpAddr.
Proof. solve_decision. Defined.
#[export] Instance IpAddr_countable : Countable IpAddr.
Proof.
  apply (inj_countable' (λ i, match i with V4 n => inl n | V6 n => inr n end)
    (λ s, match s with inl n => V4 n | inr n => V6 n end)). by intros [].
Defined.
(** IPv6 flow labels and scopes are left out: nothing here sets them. *)
Record SocketAddr := MkSocketAddr { sa_ip : IpAddr; sa_port : N }.
#[export] Instance SocketAddr_eq : EqDecision SocketAddr.
Proof. solve_decision. Defined.
#[export] Instance SocketAddr_countable : Countable SocketAddr.
Proof.
  apply (inj_countable' (λ a, (sa_ip a, sa_port a)) (λ t, MkSocketAddr t.1 t.2)). by intros [].
Defined.

(** ** dial_quarantine.rs *)
Definition INITIAL_BACKOFF_MS : N := 15000.
Definition MAX_BACKOFF_MS : N := 120000.
Definition QUARANTINE_RETENTION_MS : N := 600000.
Definition DEAD_AFTER_CONSECUTIVE_FAILURES : N := 5.
Inductive DialGate := Dial | Backoff (remaining_ms : N) | Dead (consecutive : N).
Record QuarantineEntry := MkQuarantineEntry {
  failed_at_ms : N;
  backoff_ms : N;
  consecutive_failures : N;
  advert_stamp_ms : N;
  terminal : bool;
}.
Definition entry_remaining_ms (self : QuarantineEntry) (now_ms : N) : option N :=
  let elapsed := saturating_sub now_ms (failed_at_ms self) in
  if (elapsed <=? backoff_ms self)%N then
    let left := (backoff_ms self - elapsed)%N in
    if (0 <? left)%N then Some left else None
  else None.

Abbreviation QuarantineKey := (PeerId * SocketAddr)%type.
Abbreviation DialQuarantine := (@gmap QuarantineKey prod_eq_dec prod_countable QuarantineEntry).

Definition remaining_ms (q : DialQuarantine) (key : QuarantineKey) (now_ms : N) : option N :=
  e ← q !! key; entry_remaining_ms e now_ms.
Definition gate (q : DialQuarantine) (key : QuarantineKey) (now_ms current_advert_stamp_ms proof_of_life_ms : N)
    : DialGate :=
  match q !! key with
  | None => Dial
  | Some entry =>
      let advert_fresher := (advert_stamp_ms entry <? current_advert_stamp_ms)%N in
      let alive_since_failure := negb (terminal entry) && (failed_at_ms entry <? proof_of_life_ms)%N in
      if (DEAD_AFTER_CONSECUTIVE_FAILURES <=? consecutive_failures entry)%N
         && negb advert_fresher && negb alive_since_failure
      then Dead (consecutive_failures entry)
      else match entry_remaining_ms entry now_ms with
           | Some remaining_ms => Backoff remaining_ms
           | None => Dial
           end
  end.
(** The sweep in both records of a failure. *)
Definition sweep_entries (now_ms : N) (q : DialQuarantine) : DialQuarantine :=
  filter (λ kv, (saturating_sub now_ms (failed_at_ms kv.2) <=? QUARANTINE_RETENTION_MS)%N = true) q.
Definition record_failure (key : QuarantineKey) (now_ms stamp : N) (q : DialQuarantine) : DialQuarantine :=
  let q := sweep_entries now_ms q in
  let '(backoff, failures, prev_stamp) :=
    match q !! key with
    | Some prev =>
        (N.min (saturating_mul (backoff_ms prev) 2) MAX_BACKOFF_MS, u32_add (consecutive_failures prev) 1,
         advert_stamp_ms prev)
    | None => (INITIAL_BACKOFF_MS, 1%N, 0%N)
    end in
  <[key := MkQuarantineEntry now_ms backoff failures (N.max prev_stamp stamp) false]> q.
Definition record_terminal_failure (key : QuarantineKey) (now_ms stamp : N) (q : DialQuarantine) : DialQuarantine :=
  let q := sweep_entries now_ms q in
  let prev_stamp := default 0%N (advert_stamp_ms <$> q !! key) in
  <[key := MkQuarantineEntry now_ms MAX_BACKOFF_MS DEAD_AFTER_CONSECUTIVE_FAILURES (N.max prev_stamp stamp) true]> q.
Definition record_success (key : QuarantineKey) (q : DialQuarantine) : DialQuarantine := delete key q.


(** ** Text *)
(** [find] with what comes before and after the pattern, at its first occurrence. *)
Fixpoint split_at_pattern (p s : rstring) : option (rstring * rstring) :=
  match strip_prefix p s with
  | Some rest => Some ([], rest)
  | None => match s with
            | [] => None
            | c :: s => '(before, rest) ← split_at_pattern p s; Some (c :: before, rest)
            end
  end.
(** [rsplit_once] at a character. *)
Fixpoint rsplit_once (d : N) (s : rstring) : option (rstring * rstring) :=
  match s with
  | [] => None
  | c :: s =>
      match rsplit_once d s with
      | Some (a, b) => Some (c :: a, b)
      | None => if (c =? d)%N then Some ([], s) else None
      end
  end.

(** ** route/invite.rs, and the mismatch error of airc-transport *)
Inductive RouteEndpoint :=
| LanTcp (addr : SocketAddr)
| TailscaleTcp (addr : SocketAddr)
| Udp (addr : SocketAddr)
| Relay (url : rstring)
| Reticulum (destination : rstring)
| WebRtcSignaling (url : rstring).
#[export] Instance RouteEndpoint_eq : EqDecision RouteEndpoint.
Proof. solve_decision. Defined.
(** Parsing and printing of uuids and addresses: the uuid crate and the standard library. *)
Class NetText := {
  parse_uuid : rstring → option N;
  parse_addr : rstring → option SocketAddr;
  show_addr : SocketAddr → rstring;
}.
Class NetTextLaws `{!NetText} := {
  law_uuid_round u : (u < 2 ^ 128)%N → parse_uuid (show_uuid u) = Some u;
  law_addr_round a : parse_addr (show_addr a) = Some a;
  law_addr_plain a : 64%N ∉ show_addr a;   (* no '@' *)
}.

Definition AIRC_RELAY : rstring := str "airc-relay://".
Definition relay `{!NetText} (relay_peer : PeerId) (relay_addr : SocketAddr) : RouteEndpoint :=
  Relay (AIRC_RELAY ++ show_id relay_peer ++ str "@" ++ show_addr relay_addr).
Definition connectable_relay `{!NetText} (self : RouteEndpoint) : option (PeerId * SocketAddr) :=
  match self with
  | Relay url =>
      rest ← strip_prefix AIRC_RELAY url;
      '(peer, addr) ← rsplit_once 64 rest;
      peer ← parse_uuid peer;
      addr ← parse_addr addr;
      Some (MkId peer, addr)
  | _ => None
  end.
Definition MISMATCH_ERROR_PREFIX : rstring := str "server cert is for peer ".
Definition MISMATCH_ERROR_INFIX : rstring := str ", expected ".
Definition peer_identity_mismatch_error (presented expected : PeerId) : rstring :=
  MISMATCH_ERROR_PREFIX ++ show_id presented ++ MISMATCH_ERROR_INFIX ++ show_id expected.
Definition presented_peer_from_mismatch_error `{!NetText} (message : rstring) : option PeerId :=
  '(_, rest) ← split_at_pattern MISMATCH_ERROR_PREFIX message;
  '(peer, _) ← split_at_pattern MISMATCH_ERROR_INFIX rest;
  MkId <$> parse_uuid peer.

(** ** discovery.rs: one peer's endpoints, in cost order *)
Definition resolve_dial_pin (record_peer : PeerId) (declared_host : option PeerId) (host_is_enrolled : bool) : PeerId :=
  match declared_host with
  | Some host => if bool_decide (host ≠ record_peer) && host_is_enrolled then host else record_peer
  | None => record_peer
  end.
Definition learned_candidate (learned_ip : IpAddr) (e : RouteEndpoint) : option RouteEndpoint :=
  match e with
  | LanTcp addr | TailscaleTcp addr => Some (LanTcp (MkSocketAddr learned_ip (sa_port addr)))
  | _ => None
  end.
Definition learned_lan_candidates (existing : list RouteEndpoint) (learned_ip : IpAddr) : list RouteEndpoint :=
  foldl (λ candidates e,
    match learned_candidate learned_ip e with
    | Some c => if bool_decide (c ∈ existing) || bool_decide (c ∈ candidates) then candidates else candidates ++ [c]
    | None => candidates
    end) [] existing.
Definition substitute_self_relay_port (recorded : SocketAddr) (live_self_port : option N) : SocketAddr :=
  match live_self_port with
  | Some port => MkSocketAddr (sa_ip recorded) port
  | None => recorded
  end.

Record PeerDialFailure := MkDialFailure { df_peer : PeerId; df_endpoint : RouteEndpoint; df_error : rstring }.
Record PeerDialSkip := MkDialSkip { ds_peer : PeerId; ds_endpoint : RouteEndpoint; ds_remaining_ms : N; ds_dead : bool }.
(** How a connect under [PEER_DIAL_TIMEOUT] ends. *)
Inductive DialResult := Connected | Refused (error : rstring) | TimedOut.
(** The network under the dialer, in the state [W]. *)
Class Dialer (W : Type) := {
  connect_lan : SocketAddr → PeerId → W → DialResult * W;
  connect_relay : SocketAddr → PeerId → W → DialResult * W;
  connected_lan_peers : W → gset PeerId;
  has_peer : W → PeerId → bool;
  self_peer : PeerId;
  relay_server_port : W → option N;
}.

Section dial.
Context {W : Type} `{!NetText, !Dialer W}.
Notation Dials := (DialQuarantine * W)%type.
Definition on_quarantine (f : DialQuarantine → DialQuarantine) (s : Dials) : Dials := (f s.1, s.2).
Definition on_net {A} (f : W → A * W) (s : Dials) : A * Dials := let (a, w) := f s.2 in (a, (s.1, w)).
Definition connected (s : Dials) (p : PeerId) : bool := bool_decide (p ∈ connected_lan_peers s.2).

Definition retry_dial_pinning_presented_identity (addr : SocketAddr) (pinned : PeerId) (error_text : rstring) (s : Dials)
    : bool * Dials :=
  match presented_peer_from_mismatch_error error_text with
  | None => (false, s)
  | Some presented =>
      if bool_decide (presented = pinned) then (false, s)
      else if negb (has_peer s.2 presented) then (false, s)
      else if connected s presented then (true, s)
      else match on_net (connect_lan addr presented) s with
           | (Connected, s) => (true, on_quarantine (record_success (presented, addr)) s)
           | (_, s) => (false, s)
           end
  end.
(** What a failed connect leaves in the quarantine. *)
Definition record_dial_failure (key : QuarantineKey) (now_ms stamp : N) (error_text : rstring) (s : Dials) : Dials :=
  if is_some (presented_peer_from_mismatch_error error_text)
  then on_quarantine (record_terminal_failure key now_ms stamp) s
  else on_quarantine (record_failure key now_ms stamp) s.
(** The outcome of one endpoint: go on with a failure or a skip, or stop. *)
Inductive Walk := Failed (error : rstring) | Skipped (remaining_ms : N) (dead : bool) | Passed | Reached.
Definition dial_direct (peer_id pin : PeerId) (addr : SocketAddr) (now_ms stamp life : N) (s : Dials) : Walk * Dials :=
  match gate s.1 (peer_id, addr) now_ms stamp life with
  | Backoff wait => (Skipped wait false, s)
  | Dead _ => (Skipped 0 true, s)
  | Dial =>
      match on_net (connect_lan addr pin) s with
      | (Connected, s) => (Reached, on_quarantine (record_success (peer_id, addr)) s)
      | (Refused error_text, s) =>
          if bool_decide (pin ≠ peer_id) && connected s pin
          then (Reached, on_quarantine (record_success (peer_id, addr)) s)
          else
            let (healed, s) := retry_dial_pinning_presented_identity addr pin error_text s in
            if (healed : bool) then (Reached, on_quarantine (record_success (peer_id, addr)) s)
            else (Failed error_text, record_dial_failure (peer_id, addr) now_ms stamp error_text s)
      | (TimedOut, s) =>
          (Failed (str "dial timed out after 3s (endpoint unreachable or firewall drops SYN)"),
           on_quarantine (record_failure (peer_id, addr) now_ms stamp) s)
      end
  end.
Definition dial_relay (endpoint : RouteEndpoint) (now_ms stamp life : N) (s : Dials) : Walk * Dials :=
  match connectable_relay endpoint with
  | None => (Passed, s)
  | Some (relay_peer, relay_addr) =>
      let live_self_port := if bool_decide (relay_peer = self_peer) then relay_server_port s.2 else None in
      let relay_addr := substitute_self_relay_port relay_addr live_self_port in
      match gate s.1 (relay_peer, relay_addr) now_ms stamp life with
      | Backoff wait => (Skipped wait false, s)
      | Dead _ => (Skipped 0 true, s)
      | Dial =>
          match on_net (connect_relay relay_addr relay_peer) s with
          | (Connected, s) => (Reached, on_quarantine (record_success (relay_peer, relay_addr)) s)
          | (Refused error_text, s) =>
              (Failed (str "relay connect: " ++ error_text),
               record_dial_failure (relay_peer, relay_addr) now_ms stamp error_text s)
          | (TimedOut, s) =>
              (Failed (str "relay dial timed out after 3s (relay unreachable or firewall drops SYN)"),
               on_quarantine (record_failure (relay_peer, relay_addr) now_ms stamp) s)
          end
      end
  end.
Definition dial_endpoint (peer_id pin : PeerId) (now_ms stamp life : N) (endpoint : RouteEndpoint) (s : Dials) : Walk * Dials :=
  match endpoint with
  | LanTcp addr | TailscaleTcp addr => dial_direct peer_id pin addr now_ms stamp life s
  | Relay _ => dial_relay endpoint now_ms stamp life s
  | Udp _ | Reticulum _ | WebRtcSignaling _ => (Passed, s)
  end.
Fixpoint dial_walk (peer_id pin : PeerId) (now_ms stamp life : N) (endpoints : list RouteEndpoint) (s : Dials)
    : list PeerDialFailure * list PeerDialSkip * Dials :=
  match endpoints with
  | [] => ([], [], s)
  | endpoint :: endpoints =>
      let (walk, s) := dial_endpoint peer_id pin now_ms stamp life endpoint s in
      match walk with
      | Reached => ([], [], s)
      | Passed => dial_walk peer_id pin now_ms stamp life endpoints s
      | Failed error =>
          let '(failures, skips, s) := dial_walk peer_id pin now_ms stamp life endpoints s in
          (MkDialFailure peer_id endpoint error :: failures, skips, s)
      | Skipped wait dead =>
          let '(failures, skips, s) := dial_walk peer_id pin now_ms stamp life endpoints s in
          (failures, MkDialSkip peer_id endpoint wait dead :: skips, s)
      end
  end.
Definition dial_one_peer (peer_id pin : PeerId) (endpoints : list RouteEndpoint) (now_ms stamp life : N) (s : Dials)
    : list PeerDialFailure * list PeerDialSkip * Dials :=
  if bool_decide (pin ≠ peer_id) && connected s pin then ([], [], s)
  else dial_walk peer_id pin now_ms stamp life endpoints s.
End dial.

(** ** delivery_ledger.rs *)
Definition SUSPECT_UNACKED_ATTEMPTS : N := 2.
Record PeerDeliveryStats := MkPeerDeliveryStats {
  attempts : N;
  acked : N;
  attempts_since_ack : N;
  last_attempt_ms : option N;
  last_ack_ms : option N;
  rtt_ema_ms : option N;
}.
#[export] Instance eta_PeerDeliveryStats : Eta PeerDeliveryStats := λ s,
  MkPeerDeliveryStats (attempts s) (acked s) (attempts_since_ack s) (last_attempt_ms s) (last_ack_ms s) (rtt_ema_ms s).
Definition PeerDeliveryStats_default : PeerDeliveryStats := MkPeerDeliveryStats 0 0 0 None None None.
Definition suspect (self : PeerDeliveryStats) : bool := (SUSPECT_UNACKED_ATTEMPTS <=? attempts_since_ack self)%N.
Record DeliveryAggregate := MkDeliveryAggregate {
  ag_attempts : N;
  ag_acked : N;
  ag_success_ppm : N;
  ag_best_rtt_ms : option N;
  ag_all_suspect : bool;
}.
Abbreviation DeliveryLedger := (gmap PeerId PeerDeliveryStats).
Definition stats_of (l : DeliveryLedger) (peer : PeerId) : PeerDeliveryStats := default PeerDeliveryStats_default (l !! peer).
Definition record_attempt (peer : PeerId) (now_ms : N) (l : DeliveryLedger) : DeliveryLedger :=
  let stats := stats_of l peer in
  <[peer := stats <| attempts := attempts stats +w 1 |>
              <| attempts_since_ack := u32_add (attempts_since_ack stats) 1 |>
              <| last_attempt_ms := Some now_ms |>]> l.
(** The moving average; [u32]. *)
Definition rtt_blend (ema sample : N) : N := u32_add (N.min (ema / 4 * 3) 4294967295) (sample / 4).
Definition record_ack (peer : PeerId) (now_ms : N) (rtt_ms : option N) (l : DeliveryLedger) : DeliveryLedger :=
  let stats := stats_of l peer in
  let stats := stats <| acked := acked stats +w 1 |> <| attempts_since_ack := 0%N |> <| last_ack_ms := Some now_ms |> in
  <[peer :=
      match rtt_ms with
      | Some sample =>
          stats <| rtt_ema_ms := Some (match rtt_ema_ms stats with Some ema => rtt_blend ema sample | None => sample end) |>
      | None => stats
      end]> l.
Definition is_suspect (l : DeliveryLedger) (peer : PeerId) : bool :=
  match l !! peer with Some stats => suspect stats | None => false end.
Definition note_purged (peer : PeerId) (l : DeliveryLedger) : DeliveryLedger :=
  match l !! peer with
  | Some stats => <[peer := stats <| attempts_since_ack := 0%N |>]> l
  | None => l
  end.
(** The loop of [aggregate] over the peers: the totals, the best round trip, and how
    many peers were attempted and are suspect. *)
Definition min_rtt (best : option N) (rtt : option N) : option N :=
  match rtt with
  | Some rtt => Some (match best with Some best => N.min best rtt | None => rtt end)
  | None => best
  end.
Definition add_stats (stats : PeerDeliveryStats) (acc : N * N * option N * N * N) : N * N * option N * N * N :=
  if (attempts stats =? 0)%N then acc
  else
    let '(tried, acks, best, peers, suspects) := acc in
    (tried +w attempts stats, acks +w acked stats, min_rtt best (rtt_ema_ms stats), (peers + 1)%N,
     if suspect stats then (suspects + 1)%N else suspects).
Definition aggregate_of (rows : list PeerDeliveryStats) : option DeliveryAggregate :=
  let '(tried, acks, best, peers, suspects) := foldl (λ acc stats, add_stats stats acc) (0%N, 0%N, None, 0%N, 0%N) rows in
  if (tried =? 0)%N then None
  else
    let ppm := (saturating_mul acks 1000000 / tried)%N in
    let ppm := if (ppm <=? 4294967295)%N then ppm else 1000000%N in
    Some (MkDeliveryAggregate tried acks (N.min ppm 1000000) best ((0 <? peers)%N && (suspects =? peers)%N)).
Definition aggregate (l : DeliveryLedger) : option DeliveryAggregate := aggregate_of (map_to_list l).*2.
(** [purge_suspect_connections] over the connected peers: [drop] says whether the
    adapter dropped a connection. *)
Fixpoint purge_suspect_connections (drop : PeerId → bool) (connected : list PeerId) (l : DeliveryLedger)
    : list PeerId * DeliveryLedger :=
  match connected with
  | [] => ([], l)
  | peer :: connected =>
      if is_suspect l peer && drop peer
      then let (dropped, l) := purge_suspect_connections drop connected (note_purged peer l) in (peer :: dropped, l)
      else purge_suspect_connections drop connected l
  end.
Inductive TransportHealthState := Healthy | Degraded | Down.
(** Of a direct LAN route: [kind] and [role] are fixed. *)
Record TransportHealthSample := MkHealthSample { hs_state : TransportHealthState; hs_rtt_ms : option N; hs_success_ppm : option N }.
Definition lan_health_sample (a : option DeliveryAggregate) : TransportHealthSample :=
  match a with
  | None => MkHealthSample Healthy None None
  | Some a => MkHealthSample (if ag_all_suspect a then Degraded else Healthy) (ag_best_rtt_ms a) (Some (ag_success_ppm a))
  end.
