(* ===== verification/RouteHealthThms.v ===== *)
(** The dial quarantine and the delivery ledger: how often an unreachable endpoint is
    dialed, whom a dial may reach, when a connection is suspect. *)
From stdpp Require Import base gmap strings list numbers.
From Stdlib Require Import Lia.
From S2P Require Import Prelude.
From S2P Require Import WorkModel.
From S2P Require Import RouteHealth.

(** ** The quarantine, key by key *)
Section quarantine.
Implicit Types (q : DialQuarantine) (key : QuarantineKey).

Lemma sweep_lookup now q key :
  sweep_entries now q !! key =
    (e ← q !! key; if (saturating_sub now (failed_at_ms e) <=? QUARANTINE_RETENTION_MS)%N then Some e else None).
Proof.
  unfold sweep_entries. rewrite map_lookup_filter. destruct (q !! key) as [e|]; [|done]. cbn.
  destruct (_ <=? _)%N; cbn; by simplify_option_eq.
Qed.
Lemma sweep_keeps now q key e : q !! key = Some e →
  (now ≤ failed_at_ms e + QUARANTINE_RETENTION_MS)%N → sweep_entries now q !! key = Some e.
Proof.
  intros Hq Hn. rewrite sweep_lookup, Hq. cbn. destruct (N.leb_spec (saturating_sub now (failed_at_ms e)) QUARANTINE_RETENTION_MS); [done|].
  unfold saturating_sub in *. lia.
Qed.
Lemma sweep_none now q key : q !! key = None → sweep_entries now q !! key = None.
Proof. intros Hq. by rewrite sweep_lookup, Hq. Qed.
(** What recording a failure does, terminal or not: the others are swept. *)
Definition next_streak (o : option QuarantineEntry) : N :=
  match o with Some prev => u32_add (consecutive_failures prev) 1 | None => 1%N end.
Record fails key (now stamp : N) q q' : Prop := {
  fl_entry : ∃ e, q' !! key = Some e ∧ failed_at_ms e = now ∧
    advert_stamp_ms e = N.max (default 0%N (advert_stamp_ms <$> sweep_entries now q !! key)) stamp ∧
    (consecutive_failures e = next_streak (sweep_entries now q !! key) ∨ consecutive_failures e = DEAD_AFTER_CONSECUTIVE_FAILURES);
  fl_other key' : key' ≠ key → q' !! key' = sweep_entries now q !! key';
}.
Lemma failure_fails key now stamp q : fails key now stamp q (record_failure key now stamp q).
Proof.
  unfold record_failure. destruct (sweep_entries now q !! key) as [prev|] eqn:E; (split; [|intros; by rewrite lookup_insert_ne]);
    eexists; rewrite lookup_insert_eq, E; split_and!; try done; by left.
Qed.
Lemma terminal_fails key now stamp q : fails key now stamp q (record_terminal_failure key now stamp q).
Proof.
  unfold record_terminal_failure. split; [|intros; by rewrite lookup_insert_ne].
  eexists. rewrite lookup_insert_eq. split_and!; try done. by right.
Qed.
Lemma success_other key key' q : key ≠ key' → record_success key' q !! key = q !! key.
Proof. intros Hk. unfold record_success. by rewrite lookup_delete_ne. Qed.
(** A dead entry is dialed only for a sign of life since. *)
Lemma dead_gate q key now stamp life e : q !! key = Some e →
  (DEAD_AFTER_CONSECUTIVE_FAILURES ≤ consecutive_failures e)%N → gate q key now stamp life = Dial →
  (advert_stamp_ms e < stamp)%N ∨ (failed_at_ms e < life)%N.
Proof.
  intros Hq Hc Hg. unfold gate in Hg. rewrite Hq in Hg.
  destruct (N.leb_spec DEAD_AFTER_CONSECUTIVE_FAILURES (consecutive_failures e)); [|lia].
  destruct (N.ltb_spec (advert_stamp_ms e) stamp); [by left|]. destruct (N.ltb_spec (failed_at_ms e) life); [by right|].
  by destruct (terminal e).
Qed.
End quarantine.

(** ** A logged network *)
(** The network [W], with the connects made on it. *)
Section logged.
Context {W : Type} `{!NetText, !Dialer W}.
Inductive Connect := ConnectLan (addr : SocketAddr) (pin : PeerId) | ConnectRelay (addr : SocketAddr) (pin : PeerId).
#[export] Instance Connect_eq : EqDecision Connect.
Proof. solve_decision. Defined.
Definition Logged : Type := W * list Connect.
Definition log_connect (what : SocketAddr → PeerId → Connect) (f : SocketAddr → PeerId → W → DialResult * W)
    (addr : SocketAddr) (pin : PeerId) (w : Logged) : DialResult * Logged :=
  let (r, w') := f addr pin w.1 in (r, (w', w.2 ++ [what addr pin])).
#[export] Instance logged : Dialer Logged := {|
  connect_lan := log_connect ConnectLan connect_lan;
  connect_relay := log_connect ConnectRelay connect_relay;
  connected_lan_peers w := connected_lan_peers w.1;
  has_peer w := has_peer w.1;
  self_peer := self_peer;
  relay_server_port w := relay_server_port w.1;
|}.
End logged.
Arguments Logged : clear implicits.

(** ** How often an unreachable endpoint is dialed *)
(** One refresh of one peer, as [dial_one_peer] is called. *)
Record Refresh := MkRefresh {
  rf_peer : PeerId; rf_pin : PeerId; rf_endpoints : list RouteEndpoint; rf_now : N; rf_stamp : N; rf_life : N;
}.
Section runs.
Context {W : Type} `{!NetText, !Dialer W}.
Notation Logs := (Logged W).
Implicit Types (t T A L r n now stamp life : N).
Definition refresh (s : DialQuarantine * Logs) (r : Refresh) : DialQuarantine * Logs :=
  (dial_one_peer (rf_peer r) (rf_pin r) (rf_endpoints r) (rf_now r) (rf_stamp r) (rf_life r) s).2.
Definition refreshes (l : list Refresh) (s : DialQuarantine * Logs) : DialQuarantine * Logs := foldl refresh s l.
Variables (peer : PeerId) (addr : SocketAddr).
(** The dials of the endpoint, as pinned to its peer. *)
Definition dials (s : DialQuarantine * Logs) : N := N.of_nat (length (filter (λ c, c = ConnectLan addr peer) s.2.2)).
(** Nothing answers there as the peer, over the LAN or as a relay; no refusal there names
    the peer, or, when the peer was expected, another that is enrolled. *)
Definition unreachable : Prop := ∀ w : W, (connect_relay addr peer w).1 ≠ Connected ∧ ∀ pin,
  match connect_lan addr pin w with
  | (Connected, _) => pin ≠ peer
  | (Refused e, w') => presented_peer_from_mismatch_error e ≠ Some peer ∧
      (pin = peer → ∀ p, presented_peer_from_mismatch_error e = Some p → has_peer w' p = false)
  | (TimedOut, _) => True
  end.
(** The refreshes of any peers, in the order of the clock from [T] on, within the time
    the quarantine remembers what it saw at [t0].  The peer, and nobody else, is pinned to
    itself; its
    advertisements ([A]) and signs of life ([L]) do not go back, and none is from the
    future. *)
Fixpoint schedule (t0 T A L : N) (l : list Refresh) : Prop :=
  match l with
  | [] => True
  | r :: l =>
      (T ≤ rf_now r)%N ∧ (rf_now r ≤ t0 + QUARANTINE_RETENTION_MS)%N ∧
      if decide (rf_peer r = peer)
      then rf_pin r = peer ∧ (A ≤ rf_stamp r)%N ∧ (L ≤ rf_life r)%N ∧ (rf_life r ≤ rf_now r)%N ∧
        schedule t0 (rf_now r) (rf_stamp r) (rf_life r) l
      else rf_pin r ≠ peer ∧ schedule t0 (rf_now r) A L l
  end.
(** The refreshes of the peer that bring a fresher advertisement or sign of life. *)
Fixpoint news (A L : N) (l : list Refresh) : N :=
  match l with
  | [] => 0
  | r :: l =>
      if decide (rf_peer r = peer)
      then (if (A <? rf_stamp r)%N || (L <? rf_life r)%N then 1 else 0) + news (rf_stamp r) (rf_life r) l
      else news A L l
  end%N.

(** The budget of the endpoint: while it is dead, one more dial only if there is news
    its entry has not seen. *)
Definition pending_dial (A L : N) (e : QuarantineEntry) : N :=
  if (advert_stamp_ms e <? A)%N || (failed_at_ms e <? L)%N then 1%N else 0%N.
Definition budget (t0 A L r : N) (o : option QuarantineEntry) (n : N) : Prop :=
  match o with
  | None => n = 0%N
  | Some e =>
      (t0 ≤ failed_at_ms e)%N ∧
      if (DEAD_AFTER_CONSECUTIVE_FAILURES <=? consecutive_failures e)%N
      then (n + pending_dial A L e ≤ DEAD_AFTER_CONSECUTIVE_FAILURES + r)%N
      else (n ≤ consecutive_failures e)%N
  end.
Lemma pending_le A L e : (pending_dial A L e ≤ 1)%N.
Proof. unfold pending_dial. destruct (_ || _); lia. Qed.
Lemma budget_swept t0 A L r q key n now : (now ≤ t0 + QUARANTINE_RETENTION_MS)%N →
  budget t0 A L r (q !! key) n → sweep_entries now q !! key = q !! key.
Proof.
  intros Hnow Hb. destruct (q !! key) as [e|] eqn:E; [|by apply sweep_none].
  apply sweep_keeps; [done|]. destruct Hb as [Ht _]. unfold QUARANTINE_RETENTION_MS in *. lia.
Qed.
(** A failure that was not a dial of the endpoint. *)
Lemma budget_touched t0 A L r q q' key now stamp n : (t0 ≤ now)%N → (now ≤ t0 + QUARANTINE_RETENTION_MS)%N → (L ≤ now)%N →
  fails key now stamp q q' → budget t0 A L r (q !! key) n → budget t0 A L r (q' !! key) n.
Proof.
  intros Ht Hnow HL [(e & -> & Hf & Hs & Hc) _] Hb. rewrite (budget_swept _ _ _ _ _ _ _ _ Hnow Hb) in Hs, Hc.
  split; [lia|]. unfold DEAD_AFTER_CONSECUTIVE_FAILURES, next_streak, u32_add in *. pose proof (pending_le A L e).
  destruct (N.leb_spec 5 (consecutive_failures e)); destruct (q !! key) as [e0|]; cbn [budget default fmap option_fmap option_map] in Hb, Hs;
    unfold DEAD_AFTER_CONSECUTIVE_FAILURES, default, id in *.
  - destruct Hb as [_ Hb]. destruct (N.leb_spec 5 (consecutive_failures e0)); [|lia].
    enough (pending_dial A L e ≤ pending_dial A L e0)%N by lia. unfold pending_dial.
    destruct (N.ltb_spec (advert_stamp_ms e) A), (N.ltb_spec (failed_at_ms e) L), (N.ltb_spec (advert_stamp_ms e0) A),
      (N.ltb_spec (failed_at_ms e0) L); cbn; lia.
  - lia.
  - destruct Hb as [_ Hb]. destruct (N.leb_spec 5 (consecutive_failures e0)); lia.
  - lia.
Qed.
(** A dial of the endpoint that failed. *)
Lemma budget_dialed t0 A L r q q' key now n : (t0 ≤ now)%N → (now ≤ t0 + QUARANTINE_RETENTION_MS)%N → (L ≤ now)%N →
  gate q key now A L = Dial → fails key now A q q' → budget t0 A L r (q !! key) n → budget t0 A L r (q' !! key) (n + 1).
Proof.
  intros Ht Hnow HL Hg [(e & -> & Hf & Hs & Hc) _] Hb. rewrite (budget_swept _ _ _ _ _ _ _ _ Hnow Hb) in Hs, Hc.
  split; [lia|]. assert (pending_dial A L e = 0%N) as ->.
  { unfold pending_dial. destruct (N.ltb_spec (advert_stamp_ms e) A); [lia|]. by destruct (N.ltb_spec (failed_at_ms e) L); [lia|]. }
  destruct (q !! key) as [e0|] eqn:E; cbn [budget] in Hb; unfold next_streak, u32_add in Hc;
    [|cbv iota in Hc; unfold DEAD_AFTER_CONSECUTIVE_FAILURES in *; destruct (N.leb_spec 5 (consecutive_failures e)); lia].
  destruct Hb as [_ Hb]. pose proof (dead_gate q key now A L e0 E) as Hd. unfold DEAD_AFTER_CONSECUTIVE_FAILURES in *.
  destruct (N.leb_spec 5 (consecutive_failures e0)).
  - destruct (N.leb_spec 5 (consecutive_failures e)); [|lia].
    enough (pending_dial A L e0 = 1%N) by lia. unfold pending_dial.
    destruct (Hd ltac:(done) Hg); destruct (N.ltb_spec (advert_stamp_ms e0) A), (N.ltb_spec (failed_at_ms e0) L); cbn; lia.
  - destruct (N.leb_spec 5 (consecutive_failures e)); lia.
Qed.

(** What one endpoint does to the budget. *)
Definition within (t0 A L r : N) (s : DialQuarantine * Logs) : Prop := budget t0 A L r (s.1 !! (peer, addr)) (dials s).
Lemma on_net_dials (what : SocketAddr → PeerId → Connect) (f : SocketAddr → PeerId → W → DialResult * W) (a : SocketAddr) (p : PeerId) (s : DialQuarantine * Logs) :
  let s' := (on_net (log_connect what f a p) s).2 in
  s'.1 = s.1 ∧ dials s' = (dials s + if decide (what a p = ConnectLan addr peer) then 1 else 0)%N.
Proof.
  unfold on_net, log_connect, dials. destruct s as [q [w l]]. cbn. destruct (f a p w) as [x w']. cbn. split; [done|].
  rewrite list.filter_app, length_app, filter_cons, filter_nil. destruct (decide _); cbn; lia.
Qed.
Lemma within_net t0 A L r (what : SocketAddr → PeerId → Connect) (f : SocketAddr → PeerId → W → DialResult * W) (a : SocketAddr) (p : PeerId) (s s' : DialQuarantine * Logs) x : on_net (log_connect what f a p) s = (x, s') → what a p ≠ ConnectLan addr peer →
  within t0 A L r s → within t0 A L r s'.
Proof.
  intros E Hne. pose proof (on_net_dials what f a p s) as [Hq Hd]. rewrite E in Hq, Hd. cbn [snd] in Hq, Hd.
  unfold within. rewrite Hq, Hd. destruct (decide _); [done|]. by rewrite N.add_0_r.
Qed.
Lemma within_success t0 A L r key s : key ≠ (peer, addr) → within t0 A L r s →
  within t0 A L r (on_quarantine (record_success key) s).
Proof. intros Hk. unfold within, on_quarantine. cbn [fst]. by rewrite success_other. Qed.
Lemma within_fails t0 A L r key now stamp q' (s : DialQuarantine * Logs) : (t0 ≤ now)%N → (now ≤ t0 + QUARANTINE_RETENTION_MS)%N →
  (L ≤ now)%N → fails key now stamp s.1 q' → within t0 A L r s → within t0 A L r (q', s.2).
Proof.
  intros Ht Hnow HL Hf Hw. unfold within, dials in *. cbn [fst snd] in *. destruct (decide (key = (peer, addr))) as [->|Hne].
  - by eapply budget_touched.
  - rewrite (fl_other _ _ _ _ _ Hf) by congruence. by rewrite (budget_swept _ _ _ _ _ _ _ _ Hnow Hw).
Qed.
Lemma dial_failure_fails key now stamp e (s : DialQuarantine * Logs) :
  ∃ q', record_dial_failure key now stamp e s = (q', s.2) ∧ fails key now stamp s.1 q'.
Proof.
  unfold record_dial_failure, on_quarantine. destruct (is_some _); eexists; (split; [done|]); [apply terminal_fails|apply failure_fails].
Qed.

Hypothesis nobody : unreachable.
Lemma refused_lan (s : DialQuarantine * Logs) a pin :
  match on_net (connect_lan a pin) s with
  | (Connected, _) => a = addr → pin ≠ peer
  | (Refused e, s') => a = addr → presented_peer_from_mismatch_error e ≠ Some peer ∧
      (pin = peer → ∀ p, presented_peer_from_mismatch_error e = Some p → has_peer s'.2 p = false)
  | (TimedOut, _) => True
  end.
Proof.
  destruct s as [q [w l]]. unfold on_net. cbn. unfold log_connect. cbn.
  destruct (nobody w) as [_ Hn]. specialize (Hn pin). destruct (connect_lan a pin w) as [[|e|] w'] eqn:E; cbn; try done;
    intros ->; by rewrite E in Hn.
Qed.
Lemma refused_relay (s : DialQuarantine * Logs) : (on_net (connect_relay addr peer) s).1 ≠ Connected.
Proof.
  destruct s as [q [w l]]. unfold on_net. cbn. unfold log_connect. cbn. destruct (nobody w) as [Hn _].
  destruct (connect_relay addr peer w) as [x w']. done.
Qed.

(** A retry dials the endpoint for the peer only if a refusal there named it. *)
Lemma within_retry t0 A L r a pinned e s : (a = addr → presented_peer_from_mismatch_error e ≠ Some peer) → within t0 A L r s →
  within t0 A L r (retry_dial_pinning_presented_identity a pinned e s).2.
Proof.
  intros Ha Hw. unfold retry_dial_pinning_presented_identity.
  destruct (presented_peer_from_mismatch_error e) as [p|]; [|done].
  destruct (bool_decide _); [done|]. destruct (negb _); [done|]. destruct (connected s p); [done|].
  assert (∀ x s', on_net (connect_lan a p) s = (x, s') → within t0 A L r s') as Hnet.
  { intros x s' E. eapply within_net; [exact E| |done]. intros [= -> ->]. by apply Ha. }
  destruct (on_net (connect_lan a p) s) as [[|e'|] s'] eqn:E; try by eapply Hnet.
  apply within_success; [|by eapply Hnet]. intros [= -> ->]. by apply Ha.
Qed.
Lemma within_direct t0 A L r p pin a now stamp life s : (t0 ≤ now)%N → (now ≤ t0 + QUARANTINE_RETENTION_MS)%N → (L ≤ now)%N →
  (if decide (p = peer) then pin = peer ∧ stamp = A ∧ life = L else pin ≠ peer) →
  within t0 A L r s → within t0 A L r (dial_direct p pin a now stamp life s).2.
Proof.
  intros Ht Hnow HL Hp Hw. unfold dial_direct. destruct (gate s.1 (p, a) now stamp life) eqn:Hg; [|done|done].
  pose proof (refused_lan s a pin) as Hr. destruct (on_net (connect_lan a pin) s) as [x s1] eqn:E.
  destruct (decide ((p, a) = (peer, addr))) as [[= -> ->]|Hne].
  - destruct (decide _) as [_|]; [|done]. destruct Hp as (-> & -> & ->).
    pose proof (on_net_dials ConnectLan connect_lan addr peer s) as [Hq Hd].
    change (on_net (log_connect ConnectLan connect_lan addr peer) s) with (on_net (connect_lan addr peer) s) in Hq, Hd.
    rewrite E in Hq, Hd. cbn [snd] in Hq, Hd.
    assert (∀ q', fails (peer, addr) now A s1.1 q' → within t0 A L r (q', s1.2)) as Hf.
    { intros q' Hf. unfold within, dials in *. cbn [fst snd] in *.
      rewrite Hq in Hf. rewrite Hd.
      destruct (decide _); [|done]. by eapply budget_dialed. }
    destruct x as [|e|].
    + by destruct (Hr eq_refl).
    + destruct (Hr eq_refl) as [_ Hn]. rewrite bool_decide_false by auto. cbn [andb].
      assert (retry_dial_pinning_presented_identity addr peer e s1 = (false, s1)) as ->.
      { unfold retry_dial_pinning_presented_identity. destruct (presented_peer_from_mismatch_error e) as [p|]; [|done].
        destruct (bool_decide _); [done|]. by rewrite (Hn eq_refl p eq_refl). }
      destruct (dial_failure_fails (peer, addr) now A e s1) as (q' & -> & Hq'). by apply Hf.
    + apply Hf, failure_fails.
  - assert (within t0 A L r s1) as Hw1.
    { eapply within_net; [exact E| |done]. intros [= -> ->]. destruct (decide _) as [->|]; [done|]. by destruct Hp. }
    destruct x as [|e|].
    + by apply within_success.
    + destruct (bool_decide _ && _); [by apply within_success|].
      pose proof (within_retry t0 A L r a pin e s1 (λ Ha, proj1 (Hr Ha)) Hw1) as Hw2.
      destruct (retry_dial_pinning_presented_identity a pin e s1) as [[] s2]; [by apply within_success|].
      destruct (dial_failure_fails (p, a) now stamp e s2) as (q' & -> & Hq'). by eapply within_fails.
    + eapply within_fails; [done..|apply failure_fails|done].
Qed.
Lemma within_relay t0 A L r ep now stamp life s : (t0 ≤ now)%N → (now ≤ t0 + QUARANTINE_RETENTION_MS)%N → (L ≤ now)%N →
  within t0 A L r s → within t0 A L r (dial_relay ep now stamp life s).2.
Proof.
  intros Ht Hnow HL Hw. unfold dial_relay. destruct (connectable_relay ep) as [[p a0]|]; [|done].
  set (a := substitute_self_relay_port _ _). destruct (gate s.1 (p, a) now stamp life); [|done|done].
  destruct (on_net (connect_relay a p) s) as [x s1] eqn:E.
  assert (within t0 A L r s1) as Hw1 by (by eapply within_net; [exact E| |]).
  destruct x as [|e|].
  - apply within_success; [|done]. intros [= -> Ha]. rewrite Ha in E. pose proof (refused_relay s) as Hr. by rewrite E in Hr.
  - destruct (dial_failure_fails (p, a) now stamp e s1) as (q' & -> & Hq'). by eapply within_fails.
  - eapply within_fails; [done..|apply failure_fails|done].
Qed.
Lemma within_walk t0 A L r p pin now stamp life l : (t0 ≤ now)%N → (now ≤ t0 + QUARANTINE_RETENTION_MS)%N → (L ≤ now)%N →
  (if decide (p = peer) then pin = peer ∧ stamp = A ∧ life = L else pin ≠ peer) →
  ∀ s, within t0 A L r s → within t0 A L r (dial_walk p pin now stamp life l s).2.
Proof.
  intros Ht Hnow HL Hp. induction l as [|ep l IH]; intros s Hw; [done|]. cbn [dial_walk].
  assert (within t0 A L r (dial_endpoint p pin now stamp life ep s).2) as Hep.
  { destruct ep; cbn [dial_endpoint]; try done; [by apply within_direct..|by apply within_relay]. }
  destruct (dial_endpoint p pin now stamp life ep s) as [[e|wait dead| |] s1]; cbn [snd] in Hep; specialize (IH s1 Hep);
    destruct (dial_walk p pin now stamp life l s1) as [[fs sk] s2]; done.
Qed.
Lemma budget_news t0 A L A' L' r o n : (A ≤ A')%N → (L ≤ L')%N → budget t0 A L r o n →
  budget t0 A' L' (r + if (A <? A')%N || (L <? L')%N then 1 else 0) o n.
Proof.
  intros HA HL Hb. destruct o as [e|]; [|done]. destruct Hb as [Ht Hb]. split; [done|].
  destruct (_ <=? _)%N; [|done]. unfold pending_dial in *.
  destruct (N.ltb_spec A A'), (N.ltb_spec L L'), (N.ltb_spec (advert_stamp_ms e) A), (N.ltb_spec (failed_at_ms e) L),
    (N.ltb_spec (advert_stamp_ms e) A'), (N.ltb_spec (failed_at_ms e) L'); cbn in *; lia.
Qed.
Lemma within_refreshes t0 l : ∀ T A L r s, (t0 ≤ T)%N → (L ≤ T)%N → schedule t0 T A L l → within t0 A L r s →
  (dials (refreshes l s) ≤ DEAD_AFTER_CONSECUTIVE_FAILURES + r + news A L l)%N.
Proof.
  induction l as [|[p pin eps now stamp life] l IH]; intros T A L r s Ht HL Hs Hw; cbn [schedule news refreshes foldl] in *.
  - rewrite N.add_0_r. unfold within, budget in Hw. destruct (s.1 !! _) as [e|]; [|lia]. destruct Hw as [_ Hw].
    destruct (N.leb_spec DEAD_AFTER_CONSECUTIVE_FAILURES (consecutive_failures e)); lia.
  - cbn in Hs. destruct Hs as (HT & Hnow & Hs). fold (refreshes l). cbn [rf_peer rf_stamp rf_life].
    assert (∀ A' L' r', (L' ≤ now)%N → within t0 A' L' r' s →
      (if decide (p = peer) then pin = peer ∧ stamp = A' ∧ life = L' else pin ≠ peer) →
      within t0 A' L' r' (refresh s (MkRefresh p pin eps now stamp life))) as Hone.
    { intros A' L' r' HL' Hw' Hp. unfold refresh, dial_one_peer. cbn. destruct (bool_decide _ && _); [done|].
      apply within_walk; [lia..|done|done]. }
    destruct (decide (p = peer)) as [->|Hne].
    + destruct Hs as (-> & HA & HLL & Hlife & Hs). rewrite N.add_assoc, <- (N.add_assoc _ r).
      eapply (IH now stamp life); [lia|done|done|]. apply Hone; [done| |done]. by apply budget_news.
    + destruct Hs as [Hpin Hs]. eapply (IH now A L r); [lia|lia|done|]. by apply Hone; [lia| |].
Qed.
End runs.

Section bound.
Context {W : Type} `{!NetText, !Dialer W}.
(** C26: An endpoint nobody answers at is dialed seldom for its own record.  Take the
    refreshes of one ten-minute window in which the clock does not step back, the peer's
    record is dialed under the peer's own identity, no other record is pinned to the peer
    as its transport host, advertisements and signs of life of the peer only get fresher,
    and none is later than the refresh that brings it ([schedule]).  With whatever else
    connects or fails, the node makes at most five LAN connection attempts to the address
    for that peer, and one more for each refresh that brings a fresher advertisement or
    sign of life.  Without the quarantine every refresh would dial it. *)
Theorem unreachable_dials_bounded (peer : PeerId) (addr : SocketAddr) (t0 A L : N) (l : list Refresh)
    (s : DialQuarantine * Logged W) :
  unreachable (W:=W) peer addr → s.1 !! (peer, addr) = None → dials peer addr s = 0%N → (L ≤ t0)%N →
  schedule peer t0 t0 A L l →
  (dials peer addr (refreshes l s) ≤ DEAD_AFTER_CONSECUTIVE_FAILURES + news peer A L l)%N.
Proof.
  intros Hn Hq Hd HL Hs. rewrite <- (N.add_0_r DEAD_AFTER_CONSECUTIVE_FAILURES).
  eapply within_refreshes; [done| |exact HL|exact Hs|]; [done|]. unfold within. by rewrite Hq.
Qed.
End bound.

(** ** Whom a dial may reach *)
Section trust.
Context {W : Type} `{!NetText, !Dialer W}.
Variables (enrolled : PeerId → Prop) (pin : PeerId) (endpoints : list RouteEndpoint).
Hypothesis only_enrolled : ∀ (w : W) p, has_peer w p = true → enrolled p.
(** A connect this record's endpoints justify. *)
Definition justified (c : Connect) : Prop :=
  match c with
  | ConnectLan a p => (LanTcp a ∈ endpoints ∨ TailscaleTcp a ∈ endpoints) ∧ (p = pin ∨ enrolled p)
  | ConnectRelay a p => ∃ ep a', ep ∈ endpoints ∧ connectable_relay ep = Some (p, a') ∧ (a = a' ∨ p = self_peer)
  end.
Implicit Types s : DialQuarantine * Logged W.
Definition log_of s : list Connect := s.2.2.
Lemma log_net what (f : SocketAddr → PeerId → W → DialResult * W) (a : SocketAddr) (p : PeerId) s x s' :
  on_net (log_connect what f a p) s = (x, s') → log_of s' = log_of s ++ [what a p].
Proof.
  unfold on_net, log_connect, log_of. destruct s as [q [w l]]. cbn. destruct (f a p w) as [y w']. by intros [= <- <-].
Qed.
Lemma justified_retry a e s : LanTcp a ∈ endpoints ∨ TailscaleTcp a ∈ endpoints → Forall justified (log_of s) →
  Forall justified (log_of (retry_dial_pinning_presented_identity a pin e s).2).
Proof.
  intros Ha Hs. unfold retry_dial_pinning_presented_identity.
  destruct (presented_peer_from_mismatch_error e) as [p|]; [|done]. destruct (bool_decide _); [done|].
  destruct (has_peer s.2 p) eqn:Hp; [|done]. cbn [negb]. destruct (connected s p); [done|].
  destruct (on_net (connect_lan a p) s) as [x s1] eqn:E. apply log_net in E.
  assert (Forall justified (log_of s1)) as H1.
  { rewrite E. apply list.Forall_app. split; [done|]. apply list.Forall_singleton. split; [done|]. right. exact (only_enrolled _ _ Hp). }
  by destruct x.
Qed.
Lemma log_failure key now stamp e s : log_of (record_dial_failure key now stamp e s) = log_of s.
Proof. unfold record_dial_failure, on_quarantine. by destruct (is_some _). Qed.
Lemma justified_direct peer a now stamp life s : LanTcp a ∈ endpoints ∨ TailscaleTcp a ∈ endpoints →
  Forall justified (log_of s) → Forall justified (log_of (dial_direct peer pin a now stamp life s).2).
Proof.
  intros Ha Hs. unfold dial_direct. destruct (gate _ _ _ _ _); [|done|done].
  destruct (on_net (connect_lan a pin) s) as [x s1] eqn:E. apply log_net in E.
  assert (Forall justified (log_of s1)) as H1.
  { rewrite E. apply list.Forall_app. split; [done|]. apply list.Forall_singleton. split; [done|]. by left. }
  destruct x as [|e|]; [done| |done]. destruct (bool_decide _ && _); [done|].
  pose proof (justified_retry a e s1 Ha H1) as H2.
  destruct (retry_dial_pinning_presented_identity a pin e s1) as [[] s2]; [done|]. cbn [snd]. by rewrite log_failure.
Qed.
Lemma justified_relay ep now stamp life s : ep ∈ endpoints →
  Forall justified (log_of s) → Forall justified (log_of (dial_relay ep now stamp life s).2).
Proof.
  intros Hep Hs. unfold dial_relay. destruct (connectable_relay ep) as [[p a0]|] eqn:Hc; [|done].
  set (a := substitute_self_relay_port _ _). destruct (gate _ _ _ _ _); [|done|done].
  destruct (on_net (connect_relay a p) s) as [x s1] eqn:E. apply log_net in E.
  assert (Forall justified (log_of s1)) as H1.
  { rewrite E. apply list.Forall_app. split; [done|]. apply list.Forall_singleton. exists ep, a0. split_and!; [done..|].
    destruct (decide (p = self_peer)) as [|Hne]; [by right|left]. subst a. by rewrite bool_decide_false by exact Hne. }
  destruct x as [|e|]; [done| |done]. cbn [snd]. by rewrite log_failure.
Qed.
Lemma justified_walk peer now stamp life l : ∀ s, l ⊆ endpoints → Forall justified (log_of s) →
  Forall justified (log_of (dial_walk peer pin now stamp life l s).2).
Proof.
  induction l as [|ep l IH]; intros s Hl Hs; [done|]. cbn [dial_walk].
  assert (ep ∈ endpoints) as Hep by (apply Hl; left).
  assert (Forall justified (log_of (dial_endpoint peer pin now stamp life ep s).2)) as H1.
  { destruct ep; cbn [dial_endpoint]; try done; [apply justified_direct; [by left|done]|apply justified_direct; [by right|done]|by apply justified_relay]. }
  assert (l ⊆ endpoints) as Hl' by (intros x Hx; apply Hl; by right).
  destruct (dial_endpoint peer pin now stamp life ep s) as [[e|wait dead| |] s1]; cbn [snd] in H1; specialize (IH s1 Hl' H1);
    destruct (dial_walk peer pin now stamp life l s1) as [[fs sk] s2]; done.
Qed.
End trust.

Section trusted.
Context {W : Type} `{!NetText, !Dialer W}.
(** A walk over a peer's endpoints reaches for nobody it does not trust.  Every connect it
    makes is to an address of the list; over the LAN it expects the identity of the
    record (its enrolled transport host, or the peer itself), or one that is enrolled and
    answered there before, and a relay the identity its url names. *)
Theorem dials_only_trusted (enrolled : PeerId → Prop) (peer : PeerId) (host : option PeerId) (endpoints : list RouteEndpoint)
    (now stamp life : N) (q : DialQuarantine) (w : W) :
  (∀ w p, has_peer w p = true → enrolled p) →
  let pin := resolve_dial_pin peer host (is_some_and host (has_peer w)) in
  let s := (dial_one_peer peer pin endpoints now stamp life (q, (w, []))).2 in
  (pin = peer ∨ enrolled pin) ∧ Forall (justified enrolled pin endpoints) (log_of s).
Proof.
  intros He pin s. split.
  - unfold pin, resolve_dial_pin. destruct host as [h|]; [|by left]. cbn. destruct (has_peer w h) eqn:Hh; [|rewrite andb_false_r; by left].
    destruct (bool_decide _); [|by left]. right. by eapply He.
  - unfold s, dial_one_peer. destruct (bool_decide _ && _); [by apply list.Forall_nil|].
    by apply justified_walk; [|done|apply list.Forall_nil].
Qed.
End trusted.

(** ** The delivery ledger *)
Inductive LedgerOp :=
| Attempt (peer : PeerId) (now_ms : N)
| Ack (peer : PeerId) (now_ms : N) (rtt_ms : option N)
| Purged (peer : PeerId).
Definition ledger_step (l : DeliveryLedger) (op : LedgerOp) : DeliveryLedger :=
  match op with
  | Attempt p t => record_attempt p t l
  | Ack p t rtt => record_ack p t rtt l
  | Purged p => note_purged p l
  end.
Definition ledger_after (ops : list LedgerOp) : DeliveryLedger := foldl ledger_step ∅ ops.
Definition attempted (p : PeerId) (ops : list LedgerOp) : Prop := ∃ t, Attempt p t ∈ ops.
(** The frames flushed to the peer since it was last heard of or dropped. *)
Definition unacked (p : PeerId) (ops : list LedgerOp) : N :=
  foldl (λ n op,
    match op with
    | Attempt p' _ => if decide (p' = p) then n + 1 else n
    | Ack p' _ _ | Purged p' => if decide (p' = p) then 0 else n
    end)%N 0%N ops.

Lemma ledger_snoc ops op : ledger_after (ops ++ [op]) = ledger_step (ledger_after ops) op.
Proof. unfold ledger_after. by rewrite foldl_app. Qed.
Lemma unacked_snoc p ops op : unacked p (ops ++ [op]) =
  match op with
  | Attempt p' _ => if decide (p' = p) then (unacked p ops + 1)%N else unacked p ops
  | Ack p' _ _ | Purged p' => if decide (p' = p) then 0%N else unacked p ops
  end.
Proof. unfold unacked. by rewrite foldl_app. Qed.

(** What the ledger knows of a peer. *)
Record knows (ops : list LedgerOp) (p : PeerId) (o : option PeerDeliveryStats) : Prop := {
  kn_unacked : (N.of_nat (length ops) < 4294967296)%N →
    unacked p ops = match o with Some st => attempts_since_ack st | None => 0%N end;
  kn_attempts : (N.of_nat (length ops) < u64_modulus)%N →
    match o with Some st => attempts st ≠ 0%N | None => False end ↔ attempted p ops;
  kn_le : (match o with Some st => attempts st | None => 0 end ≤ N.of_nat (length ops))%N;
  kn_unacked_le : (unacked p ops ≤ N.of_nat (length ops))%N;
}.
Lemma attempted_snoc p ops op : attempted p (ops ++ [op]) ↔ attempted p ops ∨ ∃ t, op = Attempt p t.
Proof. unfold attempted. setoid_rewrite elem_of_app. setoid_rewrite list_elem_of_singleton. naive_solver. Qed.
Lemma ledger_other p op l :
  match op with Attempt p' _ | Ack p' _ _ | Purged p' => p' ≠ p end → ledger_step l op !! p = l !! p.
Proof.
  destruct op as [q t|q t r|q]; intros Hne; cbn.
  - unfold record_attempt. by rewrite lookup_insert_ne.
  - unfold record_ack. by rewrite lookup_insert_ne.
  - unfold note_purged. destruct (l !! q); [by rewrite lookup_insert_ne|done].
Qed.
Lemma knows_all ops p : knows ops p (ledger_after ops !! p).
Proof.
  induction ops as [|op ops [H1 H2 H3 H4]] using rev_ind.
  { split; cbn; try done. split; [done|]. by intros [t Ht%elem_of_nil]. }
  assert (length (ops ++ [op]) = S (length ops)) as Hlen by (rewrite length_app; cbn; lia).
  destruct (decide (match op with Attempt p' _ | Ack p' _ _ | Purged p' => p' end = p)) as [Hp|Hp].
  2:{ split; rewrite ?ledger_snoc, ?(ledger_other p), ?unacked_snoc, ?attempted_snoc, ?Hlen by (by destruct op).
    - intros Hb. rewrite <- H1 by lia. by destruct op; rewrite ?decide_False by done.
    - intros Hb. rewrite H2 by lia. split; [by left|]. intros [?|[t ->]]; [done|]. by destruct Hp.
    - lia.
    - destruct op; rewrite ?decide_False by done; lia. }
  unfold ledger_step in *. destruct op as [q t|q t rtt|q]; subst q.
  - split; rewrite ?ledger_snoc, ?unacked_snoc, ?attempted_snoc, ?decide_True, ?Hlen by done; cbn [ledger_step];
      unfold record_attempt, stats_of; rewrite ?lookup_insert_eq; destruct (ledger_after ops !! p) as [st|] eqn:E; cbn in *;
      unfold u32_add, wadd in *; pose proof (N.Div0.mod_le (0 + 1) u64_modulus);
      try (try pose proof (N.Div0.mod_le (attempts st + 1) u64_modulus); lia);
      intros Hb; try rewrite H1 in * by lia; try lia.
    + rewrite N.mod_small by lia. split; [by right; eauto|lia].
    + split; [by right; eauto|done].
  - split; rewrite ?ledger_snoc, ?unacked_snoc, ?attempted_snoc, ?decide_True, ?Hlen by done; cbn [ledger_step];
      unfold record_ack, stats_of; rewrite ?lookup_insert_eq; destruct rtt; destruct (ledger_after ops !! p) as [st|] eqn:E; cbn in *;
      try done; try lia; intros Hb; rewrite <- H2 by lia; naive_solver.
  - split; rewrite ?ledger_snoc, ?unacked_snoc, ?attempted_snoc, ?decide_True, ?Hlen by done; cbn [ledger_step];
      unfold note_purged; destruct (ledger_after ops !! p) as [st|] eqn:E; rewrite ?lookup_insert_eq, ?E; cbn in *;
      try done; try lia; intros Hb; rewrite <- H2 by lia; naive_solver.
Qed.
Lemma suspect_unacked ops p : (N.of_nat (length ops) < 4294967296)%N →
  is_suspect (ledger_after ops) p = (SUSPECT_UNACKED_ATTEMPTS <=? unacked p ops)%N.
Proof.
  intros Hl. pose proof (kn_unacked _ _ _ (knows_all ops p) Hl) as Hu. unfold is_suspect, suspect. rewrite Hu.
  by destruct (ledger_after ops !! p).
Qed.

(** The totals of the aggregate. *)
Definition total (rows : list PeerDeliveryStats) : N := foldr (λ st n, attempts st + n)%N 0%N rows.
Definition tried (rows : list PeerDeliveryStats) : list PeerDeliveryStats := filter (λ st, attempts st ≠ 0%N) rows.
Lemma aggregate_fold rows : ∀ t a b n m, (t + total rows < u64_modulus)%N →
  let '(t', _, _, n', m') := foldl (λ acc st, add_stats st acc) (t, a, b, n, m) rows in
  t' = (t + total rows)%N ∧ n' = (n + N.of_nat (length (tried rows)))%N ∧
  m' = (m + N.of_nat (length (filter (λ st, suspect st = true) (tried rows))))%N.
Proof.
  induction rows as [|st rows IH]; intros t a b n m Ht; cbn [foldl total foldr] in *.
  { cbn. split_and!; lia. }
  fold (total rows) in *.
  unfold add_stats at 2. unfold tried in *. destruct (N.eqb_spec (attempts st) 0) as [H0|H0].
  - rewrite filter_cons_False by auto. specialize (IH t a b n m ltac:(lia)). destruct (foldl _ _ _) as [[[[? ?] ?] ?] ?].
    destruct IH as (-> & -> & ->). split_and!; lia.
  - rewrite filter_cons_True by done. cbv beta iota. unfold wadd at 1. rewrite (N.mod_small (t + attempts st)) by lia.
    specialize (IH (t + attempts st)%N (a +w acked st) (min_rtt b (rtt_ema_ms st)) (n + 1)%N
      (if suspect st then (m + 1)%N else m) ltac:(lia)).
    destruct (foldl _ _ _) as [[[[? ?] ?] ?] ?]. destruct IH as (-> & -> & ->).
    rewrite (filter_cons _ st). cbn [length]. destruct (suspect st); [rewrite decide_True by done|rewrite decide_False by done];
      cbn [length]; split_and!; lia.
Qed.
Lemma total_perm rows rows' : rows ≡ₚ rows' → total rows = total rows'.
Proof. unfold total. induction 1; cbn; lia. Qed.
Definition all_rows (l : DeliveryLedger) : list PeerDeliveryStats := (map_to_list l).*2.
Lemma total_insert l p st : (total (all_rows (<[p := st]> l)) + attempts (stats_of l p) = total (all_rows l) + attempts st)%N.
Proof.
  assert (∀ (l : DeliveryLedger) st, l !! p = None → total (all_rows (<[p := st]> l)) = (attempts st + total (all_rows l))%N) as Hnew.
  { intros l' st' Hp. unfold all_rows. by rewrite (total_perm _ ((p, st') :: map_to_list l').*2)
      by (by apply fmap_Permutation, map_to_list_insert). }
  unfold stats_of. destruct (l !! p) as [st0|] eqn:E.
  - change (default _ (Some st0)) with st0. rewrite <- (insert_delete_eq l p st), Hnew by apply lookup_delete_eq.
    pose proof (Hnew (delete p l) st0 (lookup_delete_eq _ _)) as H0. rewrite insert_delete_id in H0 by done. lia.
  - rewrite Hnew by done. cbn. lia.
Qed.
Lemma total_le ops : (total (all_rows (ledger_after ops)) ≤ N.of_nat (length ops))%N.
Proof.
  induction ops as [|op ops IH] using rev_ind; [done|]. rewrite ledger_snoc, length_app. cbn [length].
  destruct op as [p t|p t rtt|p]; cbn [ledger_step].
  - unfold record_attempt. cbv zeta. match goal with |- context [<[p := ?st]> _] =>
      pose proof (total_insert (ledger_after ops) p st) as Hi;
      assert (attempts st ≤ attempts (stats_of (ledger_after ops) p) + 1)%N by apply N.Div0.mod_le
    end. lia.
  - unfold record_ack. cbv zeta. match goal with |- context [<[p := ?st]> _] =>
      pose proof (total_insert (ledger_after ops) p st) as Hi;
      assert (attempts st = attempts (stats_of (ledger_after ops) p)) by (by destruct rtt)
    end. lia.
  - unfold note_purged. destruct (ledger_after ops !! p) as [st|] eqn:E; [|lia].
    pose proof (total_insert (ledger_after ops) p (st <| attempts_since_ack := 0%N |>)) as Hi. unfold stats_of in Hi. rewrite E in Hi.
    change (default _ (Some st)) with st in Hi.
    change (attempts (st <| attempts_since_ack := 0%N |>)) with (attempts st) in Hi. lia.
Qed.
Lemma row_elem (l : DeliveryLedger) st : st ∈ all_rows l ↔ ∃ p, l !! p = Some st.
Proof.
  unfold all_rows. rewrite list_elem_of_fmap. split.
  - intros ([p st'] & -> & Hp%elem_of_map_to_list). by exists p.
  - intros [p Hp]. exists (p, st). split; [done|]. by apply elem_of_map_to_list.
Qed.
Lemma tried_elem ops st : (N.of_nat (length ops) < u64_modulus)%N →
  st ∈ tried (all_rows (ledger_after ops)) ↔ ∃ p, attempted p ops ∧ ledger_after ops !! p = Some st.
Proof.
  intros Hl. unfold tried. rewrite list_elem_of_filter, row_elem. split.
  - intros [Ha [p Hp]]. exists p. split; [|done]. pose proof (kn_attempts _ _ _ (knows_all ops p) Hl) as Hk. rewrite Hp in Hk. by apply Hk.
  - intros (p & Ha & Hp). split; [|by exists p]. pose proof (kn_attempts _ _ _ (knows_all ops p) Hl) as Hk. rewrite Hp in Hk. by apply Hk.
Qed.

Lemma total_zero rows : total rows = 0%N ↔ tried rows = [].
Proof.
  unfold tried. induction rows as [|st rows IH]; [done|]. cbn [total foldr]. fold (total rows). rewrite filter_cons.
  destruct (decide (attempts st ≠ 0%N)) as [Ha|Ha]; [split; [lia|done]|].
  rewrite <- IH. split; [lia|]. intros ->. destruct (decide (attempts st = 0%N)); [lia|done].
Qed.
Lemma filter_full {A} (P : A → Prop) `{∀ x, Decision (P x)} l : length (filter P l) = length l ↔ Forall P l.
Proof.
  induction l as [|x l IH]; [done|]. rewrite filter_cons, list.Forall_cons. destruct (decide (P x)); cbn [length].
  - rewrite <- IH. split; [intros [= ?]; done|]. by intros [_ ->].
  - split; [|naive_solver]. pose proof (length_filter P l). lia.
Qed.
Lemma tried_none ops : (N.of_nat (length ops) < u64_modulus)%N →
  tried (all_rows (ledger_after ops)) = [] ↔ ∀ p, ¬ attempted p ops.
Proof.
  intros Hl. split.
  - intros E p Hp. pose proof (kn_attempts _ _ _ (knows_all ops p) Hl) as Hk.
    destruct (ledger_after ops !! p) as [st|] eqn:Hst; [|by apply Hk].
    assert (st ∈ tried (all_rows (ledger_after ops))) as Hin by (apply tried_elem; eauto). rewrite E in Hin. by apply elem_of_nil in Hin.
  - intros Hn. destruct (tried _) as [|st l] eqn:E; [done|]. destruct (tried_elem ops st Hl) as [Ht _].
    destruct Ht as (p & Hp & _); [rewrite E; left|]. by destruct (Hn p).
Qed.
Lemma all_suspect_iff ops : (N.of_nat (length ops) < 4294967296)%N →
  Forall (λ st, suspect st = true) (tried (all_rows (ledger_after ops))) ↔
    ∀ p, attempted p ops → (SUSPECT_UNACKED_ATTEMPTS ≤ unacked p ops)%N.
Proof.
  intros Hl. assert (N.of_nat (length ops) < u64_modulus)%N as Hl' by (unfold u64_modulus; lia). rewrite list.Forall_forall. split.
  - intros Hs p Hp. apply N.leb_le. rewrite <- suspect_unacked by done. unfold is_suspect.
    pose proof (kn_attempts _ _ _ (knows_all ops p) Hl') as Hk.
    destruct (ledger_after ops !! p) as [st|] eqn:Hst; [|by apply Hk in Hp]. apply Hs, tried_elem; eauto.
  - intros Hs st (p & Hp & Hst)%(tried_elem ops st Hl'). pose proof (suspect_unacked ops p Hl) as Hu. unfold is_suspect in Hu.
    rewrite Hst in Hu. rewrite Hu. apply N.leb_le. by apply Hs.
Qed.

(** The health of the LAN route is measured by delivery.  After any frames, answers and
    dropped connections, it is unmeasured just if no frame was ever sent; it is degraded
    just if frames were sent and every peer they went to has two or more of them
    unanswered since it was last heard of or dropped; and the success rate is a rate. *)
Theorem lan_health_exact (ops : list LedgerOp) :
  (N.of_nat (length ops) < 4294967296)%N →
  let h := lan_health_sample (aggregate (ledger_after ops)) in
  (hs_success_ppm h = None ↔ ∀ p, ¬ attempted p ops) ∧
  (hs_state h = Degraded ↔
    (¬ ∀ p, ¬ attempted p ops) ∧ ∀ p, attempted p ops → (SUSPECT_UNACKED_ATTEMPTS ≤ unacked p ops)%N) ∧
  hs_state h ≠ Down ∧
  (∀ ppm, hs_success_ppm h = Some ppm → (ppm ≤ 1000000)%N).
Proof.
  intros Hl h. assert (N.of_nat (length ops) < u64_modulus)%N as Hl' by (unfold u64_modulus; lia).
  pose proof (total_le ops) as Ht. unfold h, aggregate, aggregate_of. fold (all_rows (ledger_after ops)).
  rewrite <- (tried_none ops Hl'), <- (all_suspect_iff ops Hl), <- (filter_full (λ st, suspect st = true)).
  pose proof (aggregate_fold (all_rows (ledger_after ops)) 0 0 None 0 0 ltac:(lia)) as Hf.
  destruct (foldl _ _ _) as [[[[t acks] best] n] m]. destruct Hf as (-> & -> & ->). rewrite !N.add_0_l.
  pose proof (total_zero (all_rows (ledger_after ops))) as Hz.
  destruct (N.eqb_spec (total (all_rows (ledger_after ops))) 0) as [H0|H0]; cbn.
  - apply Hz in H0. rewrite H0. split_and!; try done; naive_solver.
  - assert (tried (all_rows (ledger_after ops)) ≠ []) as Hne by (by intros ?%Hz).
    split; [naive_solver|]. split; [|split; [by destruct (_ && _)|intros ppm [= <-]; lia]].
    destruct (tried _) as [|st l] eqn:E; [done|]. destruct (N.ltb_spec 0 (N.of_nat (length (st :: l)))); [|cbn in *; lia]. cbn [andb].
    match goal with |- context [(?a =? ?b)%N] => destruct (N.eqb_spec a b) as [Hab|Hab] end; split; try done.
    + intros _. split; [done|]. lia.
    + intros [_ Hall]. destruct Hab. by rewrite Hall.
Qed.

(** ** Text *)
Lemma strip_prefix_app p s : strip_prefix p (p ++ s) = Some s.
Proof. induction p as [|c p IH]; [done|]. cbn. by rewrite N.eqb_refl. Qed.
Lemma split_here p s : split_at_pattern p (p ++ s) = Some ([], s).
Proof. destruct (p ++ s) as [|c l] eqn:E; cbn; rewrite <- E, strip_prefix_app; done. Qed.
(** A pattern is found after a text without its first character. *)
Lemma split_after c p a s : c ∉ a → split_at_pattern (c :: p) (a ++ (c :: p) ++ s) = Some (a, s).
Proof.
  induction a as [|x a IH]; intros Hc; [exact (split_here (c :: p) s)|]. apply not_elem_of_cons in Hc as [Hx Ha].
  change ((x :: a) ++ (c :: p) ++ s) with (x :: (a ++ (c :: p) ++ s)). cbn [split_at_pattern strip_prefix].
  destruct (N.eqb_spec c x); [done|]. by rewrite IH.
Qed.
Lemma rsplit_last d a b : d ∉ b → rsplit_once d (a ++ d :: b) = Some (a, b).
Proof.
  intros Hb. assert (rsplit_once d b = None) as Hn.
  { induction b as [|x b IH]; [done|]. apply not_elem_of_cons in Hb as [Hx Hb]. cbn. rewrite IH by done. by destruct (N.eqb_spec x d). }
  induction a as [|x a IH]; cbn; [by rewrite Hn, N.eqb_refl|by rewrite IH].
Qed.
Section text.
Context `{!NetText, !NetTextLaws}.
(** The dialer reads the presented identity back from the verifier's message. *)
Lemma presented_round presented expected post : (uuid presented < 2 ^ 128)%N →
  presented_peer_from_mismatch_error (peer_identity_mismatch_error presented expected ++ post) = Some presented.
Proof.
  intros Hp. unfold presented_peer_from_mismatch_error, peer_identity_mismatch_error. rewrite <- app_assoc, split_here. cbn [mbind option_bind].
  rewrite <- !app_assoc. unfold show_id. change MISMATCH_ERROR_INFIX with (44%N :: str " expected ").
  rewrite (split_after 44); [cbn [mbind option_bind]; rewrite law_uuid_round by done; by destruct presented|]. intros Hc%show_uuid_chars. lia.
Qed.
(** A relay advertised with its identity and address is connectable as advertised. *)
Lemma relay_round p a : (uuid p < 2 ^ 128)%N → connectable_relay (relay p a) = Some (p, a).
Proof.
  intros Hp. unfold connectable_relay, relay. rewrite strip_prefix_app. cbn [mbind option_bind].
  change (str "@" ++ show_addr a) with (64%N :: show_addr a). rewrite rsplit_last by apply law_addr_plain. cbn [mbind option_bind].
  unfold show_id. rewrite law_uuid_round by done. cbn [mbind option_bind]. rewrite law_addr_round. by destruct p.
Qed.
End text.

(** ** Where the code and its comments part *)
(** A clock set back holds an endpoint in its whole window until it has caught up. *)
Lemma backward_clock_extends q key e now stamp life : q !! key = Some e → (now ≤ failed_at_ms e)%N → (0 < backoff_ms e)%N →
  (consecutive_failures e < DEAD_AFTER_CONSECUTIVE_FAILURES)%N → gate q key now stamp life = Backoff (backoff_ms e).
Proof.
  intros Hq Hn Hb Hc. unfold gate, entry_remaining_ms, saturating_sub. rewrite Hq.
  destruct (N.leb_spec DEAD_AFTER_CONSECUTIVE_FAILURES (consecutive_failures e)); [lia|]. cbn [andb].
  replace (now - failed_at_ms e)%N with 0%N by lia. rewrite N.sub_0_r. destruct (N.leb_spec 0 (backoff_ms e)); [|lia].
  by destruct (N.ltb_spec 0 (backoff_ms e)); [|lia].
Qed.
(** Time alone never revives a dead endpoint: its verdict does not depend on the clock. *)
Lemma dead_at_any_time q key now now' stamp life n : gate q key now stamp life = Dead n → gate q key now' stamp life = Dead n.
Proof.
  unfold gate. destruct (q !! key) as [e|]; [|done]. destruct (_ && _); [done|]. by destruct (entry_remaining_ms e now).
Qed.
(** The average of round trips of three milliseconds is zero. *)
Example rtt_average_decays : rtt_blend 3 3 = 0%N.
Proof. reflexivity. Qed.

(** ** A peer that went away *)
Module DialScenario.
#[export] Instance no_text : NetText := {| parse_uuid _ := None; parse_addr _ := None; show_addr _ := [] |}.
(** A network that drops every packet. *)
#[export] Instance silent : Dialer unit := {|
  connect_lan _ _ w := (TimedOut, w); connect_relay _ _ w := (TimedOut, w);
  connected_lan_peers _ := ∅; has_peer _ p := bool_decide (p = MkId 8); self_peer := MkId 1; relay_server_port _ := None;
|}.
Definition gone : PeerId := MkId 7.
Definition port : SocketAddr := MkSocketAddr (V4 3232235777) 7717.
Definition at_time (now life : N) : Refresh := MkRefresh gone gone [LanTcp port] now 1 life.
Definition day : list Refresh :=
  [at_time 1000 900; at_time 20000 900; at_time 60000 900; at_time 130000 900; at_time 260000 900;
   at_time 400000 900; at_time 410000 405000; at_time 540000 405000; at_time 590000 405000].
Definition fresh_net : DialQuarantine * Logged unit := (∅, (tt, [])).

Lemma unreachable_dials_bounded_witness :
  dials gone port (refreshes day fresh_net) = 6%N ∧ news gone 1 900 day = 1%N ∧
  (dials gone port (refreshes day fresh_net) ≤ DEAD_AFTER_CONSECUTIVE_FAILURES + news gone 1 900 day)%N.
Proof.
  split; [vm_compute; reflexivity|]. split; [vm_compute; reflexivity|].
  apply (unreachable_dials_bounded gone port 1000 1 900 day fresh_net).
  - intros w. split; [done|]. by intros pin.
  - reflexivity.
  - reflexivity.
  - lia.
  - vm_compute. repeat (split; [done|]). done.
Defined.

Lemma dials_only_trusted_witness :
  Forall (justified (λ p, p = MkId 8) (MkId 8) [LanTcp port])
    (log_of (dial_one_peer gone (MkId 8) [LanTcp port] 1000 1 900 (∅, (tt, []))).2) ∧
  log_of (dial_one_peer gone (MkId 8) [LanTcp port] 1000 1 900 (∅, (tt, []))).2 = [ConnectLan port (MkId 8)].
Proof.
  split; [|vm_compute; reflexivity].
  assert (∀ (w : unit) p, has_peer w p = true → p = MkId 8) as He by (intros w p Hp; exact (bool_decide_unpack _ (Is_true_true_2 _ Hp))).
  destruct (dials_only_trusted (W:=unit) (λ p, p = MkId 8) gone (Some (MkId 8)) [LanTcp port] 1000 1 900 ∅ tt He) as [_ H].
  exact H.
Defined.

Definition traffic : list LedgerOp :=
  [Attempt (MkId 3) 1000; Ack (MkId 3) 1050 (Some 50%N); Attempt (MkId 4) 1000; Attempt (MkId 4) 2000;
   Attempt (MkId 3) 3000; Attempt (MkId 3) 4000].
Lemma lan_health_exact_witness :
  hs_state (lan_health_sample (aggregate (ledger_after traffic))) = Degraded ∧
  ∀ p, attempted p traffic → (SUSPECT_UNACKED_ATTEMPTS ≤ unacked p traffic)%N.
Proof.
  assert (hs_state (lan_health_sample (aggregate (ledger_after traffic))) = Degraded) as E by (vm_compute; reflexivity).
  split; [exact E|]. destruct (lan_health_exact traffic) as (_ & H & _); [vm_compute; reflexivity|].
  apply H in E as [_ E]. exact E.
Defined.
End DialScenario.
