(* ===== verification/Blobs.v ===== *)
(** The blob store: [airc-blobs/src/{lib,hash,fs,gc}.rs], content-addressed files and
    their collection.

    An operation is the sequence of file-system calls its function makes ([Prog]),
    with its early returns.  The file system ([Disk]) has names, inodes and a clock;
    any call may fail, a failed write leaves what it wrote, a thread may die between
    two calls, and a power loss loses what was not synced. *)
From stdpp Require Import base gmap strings list sorting numbers.
From Stdlib Require Import Lia.
From S2P Require Import Prelude.
From S2P Require Import WorkModel.

(** SHA-256. *)
Class Sha2 := { from_bytes : list N → ContentHash }.
Definition hash_ok (h : ContentHash) : Prop := length (digest h) = 32%nat ∧ Forall (λ b, (b < 256)%N) (digest h).
Class Sha2Laws `{!Sha2} := { law_hash_ok b : hash_ok (from_bytes b) }.

(** ** hash.rs *)
Definition hex_nibble (c : N) : option N :=
  if (48 <=? c)%N && (c <=? 57)%N then Some (c - 48)%N
  else if (97 <=? c)%N && (c <=? 102)%N then Some (c - 97 + 10)%N
  else if (65 <=? c)%N && (c <=? 70)%N then Some (c - 65 + 10)%N
  else None.
Definition nibble_char (n : N) : N :=
  if (n <=? 9)%N then (48 + n)%N else if (n <=? 15)%N then (97 + n - 10)%N else 63%N.
Fixpoint hex_chunks (s : list N) : option (list N) :=
  match s with
  | [] => Some []
  | a :: b :: s =>
      hi ← hex_nibble a; lo ← hex_nibble b; out ← hex_chunks s;
      Some (N.lor (N.shiftl hi 4 mod 256) lo :: out)
  | [_] => None
  end.
Definition from_hex (s : rstring) : option ContentHash :=
  if (str_len s =? 64)%N then MkContentHash <$> hex_chunks (as_bytes s) else None.
Definition to_hex (h : ContentHash) : rstring :=
  digest h ≫= λ byte, [nibble_char (N.shiftr byte 4); nibble_char (N.land byte 15)].

(** ** lib.rs *)
Inductive IoKind := KNotFound | KInterrupted | KOther.
#[export] Instance IoKind_eq : EqDecision IoKind. Proof. solve_decision. Defined.
(** An [Io] message is the call that failed and how. *)
Inductive BlobError :=
| NotFound (hash : ContentHash)
| HashMismatch (expected actual : ContentHash)
| CapacityExceeded (needed_bytes : N)
| ReadLimitExceeded (actual_bytes limit_bytes : N)
| SizeMismatch (expected_bytes actual_bytes : N)
| BlobIo (call : rstring) (kind : IoKind).
Definition check_read_limit (self : MediaRef) (limit_bytes : N) : result BlobError unit :=
  if (limit_bytes <? mr_size_bytes self)%N then Err (ReadLimitExceeded (mr_size_bytes self) limit_bytes) else Ok tt.
Definition MediaRef_verify `{!Sha2} (self : MediaRef) (bytes : list N) (limit_bytes : N) : result BlobError unit :=
  _ ← check_read_limit self limit_bytes;
  let actual_bytes := N.of_nat (length bytes) in
  if (limit_bytes <? actual_bytes)%N then Err (ReadLimitExceeded actual_bytes limit_bytes)
  else if negb (actual_bytes =? mr_size_bytes self)%N then Err (SizeMismatch (mr_size_bytes self) actual_bytes)
  else
    let actual := from_bytes bytes in
    if bool_decide (actual ≠ mr_hash self) then Err (HashMismatch (mr_hash self) actual) else Ok tt.

(** ** File-system calls *)
(** A file under the root: its directory and its name. *)
Definition Path : Type := rstring * rstring.
Definition path_for (h : ContentHash) : Path := (take 2 (to_hex h), drop 2 (to_hex h) ++ str ".blob").
(** [with_extension]: what follows the last dot of the name, replaced. *)
Definition tmp_path (h : ContentHash) (pid nanos : N) : Path :=
  (take 2 (to_hex h), drop 2 (to_hex h) ++ str ".blob.tmp." ++ show_N pid ++ str "." ++ show_N nanos).
(** [Path::extension]: after the last dot, unless the name starts with it. *)
Fixpoint after_last_dot (name : rstring) : option rstring :=
  match name with
  | [] => None
  | c :: name =>
      match after_last_dot name with
      | Some e => Some e
      | None => if (c =? 46)%N then Some name else None
      end
  end.
Definition extension (name : rstring) : option rstring :=
  match name with [] => None | _ :: rest => after_last_dot rest end.

Definition Ino : Type := N.
Notation Io A := (result IoKind A).
Inductive Act : Type → Type :=
| Exists (p : Path) : Act bool
| CreateDirAll (d : rstring) : Act (Io unit)
| Now : Act N
| CreateFile (p : Path) : Act (Io Ino)                  (* truncates *)
| WriteAll (i : Ino) (bytes : list N) : Act (Io unit)   (* at the end of what was written *)
| SyncAll (i : Ino) : Act (Io unit)
| Rename (a b : Path) : Act (Io unit)
| RemoveFile (p : Path) : Act (Io unit)
| OpenRead (p : Path) : Act (Io Ino)
| Len (i : Ino) : Act (Io N)
| Read (i : Ino) (offset max : N) : Act (Io (list N))   (* [] is the end of the file *)
| ReadToEnd (i : Ino) : Act (Io (list N))
| ListDirs : Act (Io (list rstring))                    (* the directories in the root *)
| ListFiles (d : rstring) : Act (Io (list rstring))
| Stat (p : Path) : Act (Io (N * N)).                   (* size, and [modified] time *)
Notation Prog := (Prelude.Prog Act).
Notation IO := (IO_of Act BlobError).
Definition run {A} (a : Act A) : IO A := Vis a (λ x, Ret (Ok x)).
Definition call {A} (what : rstring) (a : Act (Io A)) : IO A :=
  Vis a (λ r, match r with Ok x => Ret (Ok x) | Err k => io_throw (BlobIo what k) end).

(** ** fs.rs *)
Section store.
Context `{!Sha2}.
Definition verify_digest (reference : MediaRef) (bytes : list N) : IO (list N) :=
  let received := N.of_nat (length bytes) in
  if negb (received =? mr_size_bytes reference)%N then io_throw (SizeMismatch (mr_size_bytes reference) received)
  else
    let actual := from_bytes bytes in
    if bool_decide (actual ≠ mr_hash reference) then io_throw (HashMismatch (mr_hash reference) actual) else mret bytes.
(** The loop over a reader of at most one byte more than the reference's size; [None]
    when the fuel did not suffice. *)
Fixpoint read_loop (i : Ino) (reference : MediaRef) (limit_bytes : N) (fuel : nat) (output : list N)
    : IO (option (list N)) :=
  match fuel with
  | O => mret None
  | S fuel =>
      let received := N.of_nat (length output) in
      let left := (saturating_add (mr_size_bytes reference) 1 - received)%N in
      r ← (if (left =? 0)%N then mret (Ok []) else run (Read i received (N.min 8192 left)));
      match r with
      | Err KInterrupted => read_loop i reference limit_bytes fuel output
      | Err k => io_throw (BlobIo (str "read") k)
      | Ok [] => bytes ← verify_digest reference output; mret (Some bytes)
      | Ok chunk =>
          let received := (received + N.of_nat (length chunk))%N in
          if (limit_bytes <? received)%N then io_throw (ReadLimitExceeded received limit_bytes)
          else if (mr_size_bytes reference <? received)%N then io_throw (SizeMismatch (mr_size_bytes reference) received)
          else read_loop i reference limit_bytes fuel (output ++ chunk)
      end
  end.
Definition read_verified_into (reference : MediaRef) (limit_bytes : N) (fuel : nat) : IO (option (list N)) :=
  _ ← Ret (check_read_limit reference limit_bytes);
  opened ← run (OpenRead (path_for (mr_hash reference)));
  i ← match opened with
      | Ok i => mret i
      | Err KNotFound => io_throw (NotFound (mr_hash reference))
      | Err k => io_throw (BlobIo (str "open") k)
      end;
  actual_bytes ← call (str "stat") (Len i);
  if (limit_bytes <? actual_bytes)%N then io_throw (ReadLimitExceeded actual_bytes limit_bytes)
  else if negb (actual_bytes =? mr_size_bytes reference)%N then io_throw (SizeMismatch (mr_size_bytes reference) actual_bytes)
  else read_loop i reference limit_bytes fuel [].
Definition get_verified (reference : MediaRef) (limit_bytes : N) (fuel : nat) : IO (option (list N)) :=
  read_verified_into reference limit_bytes fuel.
(** [pid] is the process's; [None] when the fuel of the verification did not suffice. *)
Definition put (pid : N) (bytes : list N) (fuel : nat) : IO (option ContentHash) :=
  let hash := from_bytes bytes in
  let final_path := path_for hash in
  present ← run (Exists final_path);
  if (present : bool) then
    let size := N.of_nat (length bytes) in
    checked ← read_verified_into (MkMediaRef hash size None) size fuel;
    mret ((λ _, hash) <$> checked)
  else
    _ ← call (str "create_dir_all") (CreateDirAll final_path.1);
    nanos ← run Now;
    let tmp := tmp_path hash pid nanos in
    i ← call (str "create") (CreateFile tmp);
    _ ← call (str "write") (WriteAll i bytes);
    _ ← call (str "fsync") (SyncAll i);
    renamed ← run (Rename tmp final_path);
    match renamed with
    | Ok _ => mret (Some hash)
    | Err k => _ ← run (RemoveFile tmp); io_throw (BlobIo (str "rename") k)
    end.
Definition get (hash : ContentHash) : IO (list N) :=
  opened ← run (OpenRead (path_for hash));
  i ← match opened with
      | Ok i => mret i
      | Err KNotFound => io_throw (NotFound hash)
      | Err k => io_throw (BlobIo (str "open") k)
      end;
  bytes ← call (str "read") (ReadToEnd i);
  let actual := from_bytes bytes in
  if bool_decide (actual ≠ hash) then io_throw (HashMismatch hash actual) else mret bytes.
Definition exists_ (hash : ContentHash) : IO bool := run (Exists (path_for hash)).
Definition delete_blob (hash : ContentHash) : IO unit :=
  removed ← run (RemoveFile (path_for hash));
  match removed with
  | Ok _ | Err KNotFound => mret tt
  | Err k => io_throw (BlobIo (str "remove") k)
  end.
End store.

(** ** gc.rs *)
Record RetentionPolicy := MkRetentionPolicy { max_age : option N; max_bytes : option N }.
Record GcReport := MkGcReport { scanned : N; deleted : N; bytes_freed : N; bytes_remaining : N }.
#[export] Instance eta_GcReport : Eta GcReport :=
  λ r, MkGcReport (scanned r) (deleted r) (bytes_freed r) (bytes_remaining r).
Record BlobMeta := MkBlobMeta { bm_path : Path; bm_size : N; bm_mtime : N }.
Definition sizes (l : list BlobMeta) : N := foldr (λ b n, bm_size b +w n) 0%N l.
Definition delete_one (path : Path) (report : GcReport) : IO (bool * GcReport) :=
  meta ← run (Stat path);
  let size := match meta with Ok (size, _) => size | Err _ => 0%N end in
  removed ← run (RemoveFile path);
  match removed with
  | Ok _ => mret (true, report <| deleted := deleted report +w 1 |> <| bytes_freed := bytes_freed report +w size |>)
  | Err KNotFound => mret (true, report)
  | Err _ => mret (false, report)
  end.
(** Phase 1: the blobs of one directory, and of all. *)
Fixpoint scan_files (d : rstring) (names : list rstring) : IO (list BlobMeta) :=
  match names with
  | [] => mret []
  | name :: names =>
      if bool_decide (extension name = Some (str "blob")) then
        '(size, mtime) ← call (str "metadata") (Stat (d, name));
        rest ← scan_files d names;
        mret (MkBlobMeta (d, name) size mtime :: rest)
      else scan_files d names
  end.
Fixpoint scan_dirs (dirs : list rstring) : IO (list BlobMeta) :=
  match dirs with
  | [] => mret []
  | d :: dirs =>
      inner ← call (str "read_dir") (ListFiles d);
      blobs ← scan_files d inner;
      rest ← scan_dirs dirs;
      mret (blobs ++ rest)
  end.
(** Phase 2: [retain]. *)
Fixpoint retain_young (cutoff : N) (blobs : list BlobMeta) (report : GcReport) : IO (list BlobMeta * GcReport) :=
  match blobs with
  | [] => mret ([], report)
  | b :: blobs =>
      '(gone, report) ← (if (bm_mtime b <? cutoff)%N then delete_one (bm_path b) report else mret (false, report));
      '(kept, report) ← retain_young cutoff blobs report;
      mret (if (gone : bool) then kept else b :: kept, report)
  end.
Definition age_phase (policy : RetentionPolicy) (blobs : list BlobMeta) (report : GcReport)
    : IO (list BlobMeta * GcReport) :=
  match max_age policy with
  | Some max_age =>
      now ← run Now;
      retain_young (now - max_age) blobs report   (* no file is older than the epoch *)
  | None => mret (blobs, report)
  end.
(** Phase 3: oldest first, until the total is under the cap. *)
Fixpoint delete_oldest (cap : N) (blobs : list BlobMeta) (remaining : N) (report : GcReport) : IO (N * GcReport) :=
  match blobs with
  | [] => mret (remaining, report)
  | b :: blobs =>
      if (remaining <=? cap)%N then mret (remaining, report)
      else
        '(gone, report) ← delete_one (bm_path b) report;
        delete_oldest cap blobs (if (gone : bool) then saturating_sub remaining (bm_size b) else remaining) report
  end.
Definition older (a b : BlobMeta) : Prop := (bm_mtime a ≤ bm_mtime b)%N.
#[export] Instance older_dec : RelDecision older := λ a b, decide (bm_mtime a ≤ bm_mtime b)%N.
Definition by_mtime : list BlobMeta → list BlobMeta := sort_by older.
Definition capacity_phase (policy : RetentionPolicy) (blobs : list BlobMeta) (report : GcReport) : IO GcReport :=
  let total := sizes blobs in
  match max_bytes policy with
  | Some cap =>
      if (cap <? total)%N then
        '(remaining, report) ← delete_oldest cap (by_mtime blobs) total report;
        mret (report <| bytes_remaining := remaining |>)
      else mret (report <| bytes_remaining := total |>)
  | None => mret (report <| bytes_remaining := total |>)
  end.
Definition gc_run (policy : RetentionPolicy) : IO GcReport :=
  let report := MkGcReport 0 0 0 0 in
  entries ← run ListDirs;
  match entries with
  | Err KNotFound => mret report
  | Err k => io_throw (BlobIo (str "read_dir") k)
  | Ok dirs =>
      blobs ← scan_dirs dirs;
      let report := report <| scanned := N.of_nat (length blobs) |> in
      '(blobs, report) ← age_phase policy blobs report;
      capacity_phase policy blobs report
  end.

(** ** The file system *)
Record File := MkFile { f_bytes : list N; f_mtime : N; f_synced : bool }.
(** [links] are the directory entries there ever were: a power loss may lose or undo a
    change of the directories, which the code does not sync.  [created] are the paths that
    were opened with [File::create], once for each time; [clock] is the last reading. *)
Record Disk := MkDisk {
  names : gmap Path Ino; files : gmap Ino File; subdirs : gset rstring;
  links : list (Path * Ino); created : list Path; next : Ino; clock : N }.
#[export] Instance eta_Disk : Eta Disk :=
  λ d, MkDisk (names d) (files d) (subdirs d) (links d) (created d) (next d) (clock d).
Definition Disk_init : Disk := MkDisk ∅ ∅ ∅ [] [] 0%N 0%N.
Definition set_file (i : Ino) (f : File) (d : Disk) : Disk := d <| files := <[i := f]> (files d) |>.
Definition link (p : Path) (i : Ino) (d : Disk) : Disk :=
  d <| names := <[p := i]> (names d) |> <| links := (p, i) :: links d |>.
Definition unlink (p : Path) (d : Disk) : Disk := d <| names := delete p (names d) |>.
Definition made (p : Path) (d : Disk) : Disk := d <| created := p :: created d |>.
Definition create (p : Path) (mtime : N) (d : Disk) : Disk :=
  link p (next d) (set_file (next d) (MkFile [] mtime false) (made p d <| next := (next d + 1)%N |>)).
Definition failed {A} (r : Io A) (d d' : Disk) : Prop := (∃ k, r = Err k) ∧ d' = d.

(** What a call may return and the disk it leaves.  The clock may read anything.  A listing
    may have missed or outlived any change. *)
Definition act_step {B} (a : Act B) (d : Disk) : B → Disk → Prop :=
  match a in Act B return B → Disk → Prop with
  | Exists p => λ r d', d' = d ∧ (r = true → is_Some (names d !! p))
  | CreateDirAll s => λ r d', r = Ok tt ∧ d' = d <| subdirs := {[s]} ∪ subdirs d |> ∨ failed r d d'
  | Now => λ r d', d' = d <| clock := r |>
  | CreateFile p => λ r d',
      (∃ m, match names d !! p with
            | Some i => r = Ok i ∧ d' = set_file i (MkFile [] m false) (made p d)
            | None => r = Ok (next d) ∧ p.1 ∈ subdirs d ∧ d' = create p m d
            end) ∨ failed r d d'
  | WriteAll i b => λ r d',
      (∃ f written m, files d !! i = Some f ∧ written `prefix_of` b ∧
         d' = set_file i (MkFile (f_bytes f ++ written) m false) d ∧ (r = Ok tt ∧ written = b ∨ ∃ k, r = Err k))
      ∨ failed r d d'
  | SyncAll i => λ r d',
      (∃ f, r = Ok tt ∧ files d !! i = Some f ∧ d' = set_file i (MkFile (f_bytes f) (f_mtime f) true) d)
      ∨ failed r d d'
  | Rename p q => λ r d', (∃ i, r = Ok tt ∧ names d !! p = Some i ∧ d' = link q i (unlink p d)) ∨ failed r d d'
  | RemoveFile p => λ r d',
      if decide (is_Some (names d !! p)) then r = Ok tt ∧ d' = unlink p d ∨ failed r d d' ∧ r ≠ Err KNotFound
      else failed r d d'
  | OpenRead p => λ r d', d' = d ∧
      match names d !! p with Some i => r = Ok i ∨ ∃ k, r = Err k ∧ k ≠ KNotFound | None => ∃ k, r = Err k end
  | Len i => λ r d', (∃ f, r = Ok (N.of_nat (length (f_bytes f))) ∧ files d !! i = Some f ∧ d' = d) ∨ failed r d d'
  | Read i offset max => λ r d',
      (∃ f chunk, r = Ok chunk ∧ files d !! i = Some f ∧ d' = d ∧
         chunk `prefix_of` drop (N.to_nat offset) (f_bytes f) ∧ (N.of_nat (length chunk) ≤ max)%N ∧
         (chunk = [] → max = 0%N ∨ (N.of_nat (length (f_bytes f)) ≤ offset)%N)) ∨ failed r d d'
  | ReadToEnd i => λ r d', (∃ f, r = Ok (f_bytes f) ∧ files d !! i = Some f ∧ d' = d) ∨ failed r d d'
  | ListDirs => λ _ d', d' = d
  | ListFiles _ => λ _ d', d' = d
  | Stat p => λ r d',
      (∃ i f, r = Ok (N.of_nat (length (f_bytes f)), f_mtime f) ∧ names d !! p = Some i ∧ files d !! i = Some f ∧ d' = d)
      ∨ failed r d d'
  end.
Definition prog_step {A} (p : Prog A) (d : Disk) (p' : Prog A) (d' : Disk) : Prop :=
  match p with Ret _ => False | Vis a k => ∃ x, act_step a d x d' ∧ p' = k x end.
(** A run alone on the disk. *)
Fixpoint runs {A} (p : Prog A) (d : Disk) (r : A) (d' : Disk) : Prop :=
  match p with Ret a => r = a ∧ d' = d | Vis a k => ∃ x d1, act_step a d x d1 ∧ runs (k x) d1 r d' end.
(** What a program may return whatever its calls answer. *)
Fixpoint returns {A} (p : Prog A) (r : A) : Prop :=
  match p with Ret a => r = a | Vis a k => ∃ x, returns (k x) r end.

(** Threads of any number of processes. *)
Inductive Op :=
| Put (pid : N) (bytes : list N) (fuel : nat)
| Get (h : ContentHash)
| GetVerified (reference : MediaRef) (limit_bytes : N) (fuel : nat)
| ExistsOp (h : ContentHash)
| Delete (h : ContentHash)
| Gc (policy : RetentionPolicy).
Section machine.
Context `{!Sha2}.
Definition op_prog (op : Op) : Prog unit :=
  match op with
  | Put pid bytes fuel => prog_bind (put pid bytes fuel) (λ _, Ret tt)
  | Get h => prog_bind (get h) (λ _, Ret tt)
  | GetVerified r l fuel => prog_bind (get_verified r l fuel) (λ _, Ret tt)
  | ExistsOp h => prog_bind (exists_ h) (λ _, Ret tt)
  | Delete h => prog_bind (delete_blob h) (λ _, Ret tt)
  | Gc policy => prog_bind (gc_run policy) (λ _, Ret tt)
  end.
Record Machine := MkMachine { threads : gmap N (Prog unit); disk : Disk }.
Definition Machine_init : Machine := MkMachine ∅ Disk_init.
(** A power loss: synced files keep their bytes; a directory entry is any there was. *)
Definition power_loss (d d' : Disk) : Prop :=
  (∀ p i, names d' !! p = Some i → (p, i) ∈ links d) ∧
  (∀ i f, files d !! i = Some f → ∃ f', files d' !! i = Some f' ∧ (f_synced f = true → f' = f)) ∧
  links d' = links d ∧ created d' = created d ∧ next d' = next d.
Inductive step (σ : Machine) : Machine → Prop :=
| step_start t op : threads σ !! t = None → step σ (MkMachine (<[t := op_prog op]> (threads σ)) (disk σ))
| step_call t p p' d' : threads σ !! t = Some p → prog_step p (disk σ) p' d' →
    step σ (MkMachine (<[t := p']> (threads σ)) d')
| step_exit t : step σ (MkMachine (delete t (threads σ)) (disk σ))
| step_power d' : power_loss (disk σ) d' → step σ (MkMachine ∅ d').
End machine.
Arguments Machine : clear implicits.

(** ** The calls on a disk at rest, none failing *)
Definition exec_act {B} (a : Act B) (d : Disk) : B * Disk :=
  match a in Act B return B * Disk with
  | Exists p => (bool_decide (is_Some (names d !! p)), d)
  | CreateDirAll s => (Ok tt, d <| subdirs := {[s]} ∪ subdirs d |>)
  | Now => let t := (clock d + 1)%N in (t, d <| clock := t |>)
  | CreateFile p =>
      match names d !! p with
      | Some i => (Ok i, set_file i (MkFile [] (clock d) false) (made p d))
      | None => if decide (p.1 ∈ subdirs d) then (Ok (next d), create p (clock d) d) else (Err KNotFound, d)
      end
  | WriteAll i b =>
      match files d !! i with
      | Some f => (Ok tt, set_file i (MkFile (f_bytes f ++ b) (clock d) false) d)
      | None => (Err KOther, d)
      end
  | SyncAll i =>
      match files d !! i with
      | Some f => (Ok tt, set_file i (MkFile (f_bytes f) (f_mtime f) true) d)
      | None => (Err KOther, d)
      end
  | Rename p q =>
      match names d !! p with Some i => (Ok tt, link q i (unlink p d)) | None => (Err KNotFound, d) end
  | RemoveFile p =>
      match names d !! p with Some _ => (Ok tt, unlink p d) | None => (Err KNotFound, d) end
  | OpenRead p => (match names d !! p with Some i => Ok i | None => Err KNotFound end, d)
  | Len i => (match files d !! i with Some f => Ok (N.of_nat (length (f_bytes f))) | None => Err KOther end, d)
  | Read i offset max =>
      (match files d !! i with
       | Some f => Ok (take (N.to_nat max) (drop (N.to_nat offset) (f_bytes f)))
       | None => Err KOther
       end, d)
  | ReadToEnd i => (match files d !! i with Some f => Ok (f_bytes f) | None => Err KOther end, d)
  | ListDirs => (Ok (elements (subdirs d)), d)
  | ListFiles s => (Ok ((map_to_list (names d)).*1 ≫= λ p, if decide (p.1 = s) then [p.2] else []), d)
  | Stat p =>
      (match i ← names d !! p; files d !! i with
       | Some f => Ok (N.of_nat (length (f_bytes f)), f_mtime f)
       | None => Err KNotFound
       end, d)
  end.
Fixpoint exec {A} (p : Prog A) (d : Disk) : A * Disk :=
  match p with Ret a => (a, d) | Vis a k => let '(x, d) := exec_act a d in exec (k x) d end.
