(* ===== verification/BlobsThms.v ===== *)
(** The blob store: the names of blobs, what every reader may trust, and that
    no interleaving, failure, crash or power loss leaves a blob whose name does not
    match its bytes, while no two temporary names are the same. *)
From stdpp Require Import base gmap strings list numbers relations.
From Stdlib Require Import Lia.
From S2P Require Import Prelude.
From S2P Require Import WorkModel.
From S2P Require Import Blobs.

(** ** Hexadecimal digests *)
Lemma seqN_elem (n : nat) b : (b < N.of_nat n)%N → b ∈ N.of_nat <$> seq 0 n.
Proof. intros Hb. apply list_elem_of_fmap. exists (N.to_nat b). split; [lia|]. apply elem_of_seq. lia. Qed.
Definition hex_byte_ok (b : N) : bool :=
  let hi := nibble_char (N.shiftr b 4) in
  let lo := nibble_char (N.land b 15) in
  bool_decide (hex_chunks [hi; lo] = Some [b]) && (hi <? 103)%N && (lo <? 103)%N
  && (48 <=? hi)%N && (48 <=? lo)%N.
Lemma hex_bytes_ok : forallb hex_byte_ok (N.of_nat <$> seq 0 256) = true.
Proof. vm_compute. done. Qed.
Lemma hex_byte b : (b < 256)%N → hex_byte_ok b = true.
Proof. intros Hb. pose proof hex_bytes_ok as Hall. rewrite forallb_forall in Hall. apply Hall, list_elem_of_In. by apply (seqN_elem 256). Qed.
Lemma hex_chunks_byte b l : (b < 256)%N →
  hex_chunks (nibble_char (N.shiftr b 4) :: nibble_char (N.land b 15) :: l) = cons b <$> hex_chunks l.
Proof.
  intros Hb%hex_byte. unfold hex_byte_ok in Hb. rewrite !andb_true_iff, bool_decide_eq_true in Hb.
  destruct Hb as [[[[Hb _] _] _] _]. cbn [hex_chunks] in *.
  destruct (hex_nibble (nibble_char (N.shiftr b 4))), (hex_nibble (nibble_char (N.land b 15)));
    cbn in *; try done. simplify_eq. by destruct (hex_chunks l).
Qed.
Lemma hex_chunks_digest l : Forall (λ b, (b < 256)%N) l →
  hex_chunks (l ≫= λ b, [nibble_char (N.shiftr b 4); nibble_char (N.land b 15)]) = Some l.
Proof.
  induction 1 as [|b l Hb Hl IH]; [done|]. cbn [mbind list_bind app].
  rewrite hex_chunks_byte by done. setoid_rewrite IH. done.
Qed.
Lemma to_hex_chars h c : hash_ok h → c ∈ to_hex h → (48 ≤ c < 103)%N.
Proof.
  intros [_ Hb]. unfold to_hex. rewrite list_elem_of_bind. intros (b & Hc & Hin).
  rewrite Forall_forall in Hb. pose proof (hex_byte b (Hb b Hin)) as Hok.
  unfold hex_byte_ok in Hok. cbv zeta in Hok. rewrite !andb_true_iff, !N.ltb_lt, !N.leb_le in Hok.
  rewrite !elem_of_cons, elem_of_nil in Hc. destruct Hc as [->|[->|[]]]; lia.
Qed.
Lemma to_hex_length h : length (to_hex h) = (2 * length (digest h))%nat.
Proof. unfold to_hex. induction (digest h) as [|b l IH]; [done|]. cbn. cbn in IH. lia. Qed.
Lemma as_bytes_ascii s : (∀ c, c ∈ s → (c < 128)%N) → as_bytes s = s.
Proof.
  unfold as_bytes. induction s as [|c s IH]; intros Hs; [done|]. cbn [mbind list_bind].
  setoid_rewrite IH; [|intros; apply Hs; set_solver]. unfold char_utf8.
  assert (c < 128)%N by (apply Hs; set_solver). by destruct (N.ltb_spec c 128); [|lia].
Qed.
Lemma from_to_hex h : hash_ok h → from_hex (to_hex h) = Some h.
Proof.
  intros Hh. assert (as_bytes (to_hex h) = to_hex h) as Has.
  { apply as_bytes_ascii. intros c Hc%to_hex_chars; [lia|done]. }
  unfold from_hex. rewrite <- str_len_as_bytes, Has, to_hex_length. destruct Hh as [Hl Hb]. rewrite Hl.
  cbn [Nat.mul Nat.add N.of_nat N.eqb Pos.eqb Pos.of_succ_nat Pos.succ]. unfold to_hex.
  rewrite hex_chunks_digest by done. by destruct h.
Qed.
Lemma to_hex_inj h1 h2 : hash_ok h1 → hash_ok h2 → to_hex h1 = to_hex h2 → h1 = h2.
Proof. intros H1 H2 He. apply from_to_hex in H1, H2. congruence. Qed.

(** ** The names of blobs and of temporary files *)
Lemma take_drop_inj {A} (n : nat) (l1 l2 : list A) : take n l1 = take n l2 → drop n l1 = drop n l2 → l1 = l2.
Proof. intros Ht Hd. rewrite <- (take_drop n l1), <- (take_drop n l2). congruence. Qed.
Lemma path_for_inj h1 h2 : hash_ok h1 → hash_ok h2 → path_for h1 = path_for h2 → h1 = h2.
Proof.
  intros H1 H2. unfold path_for. intros He. apply pair_equal_spec in He as [Ht Hd].
  apply app_inj_2 in Hd as [Hd _]; [|done]. by apply to_hex_inj, take_drop_inj with 2%nat.
Qed.
(** The characters after the last dot of a name tell the two kinds apart. *)
Lemma after_last_dot_digits s t : (∀ c, c ∈ t → c ≠ 46%N) → after_last_dot (s ++ 46%N :: t) = Some t.
Proof.
  intros Ht. assert (after_last_dot t = None) as Hn.
  { induction t as [|c t IH]; [done|]. cbn. rewrite IH by set_solver.
    assert (c ≠ 46%N) by set_solver. by destruct (N.eqb_spec c 46). }
  induction s as [|c s IH]; cbn.
  - by rewrite Hn.
  - by rewrite IH.
Qed.
Lemma after_last_dot_path h : after_last_dot (path_for h).2 = Some (str "blob").
Proof. cbn [path_for snd]. apply (after_last_dot_digits _ (str "blob")). vm_compute. set_solver by lia. Qed.
Lemma after_last_dot_tmp h pid n : after_last_dot (tmp_path h pid n).2 = Some (show_N n).
Proof.
  cbn [tmp_path snd]. rewrite !app_assoc. change (str ".") with [46%N]. rewrite <- app_assoc.
  apply after_last_dot_digits. intros c Hc%show_N_digits. lia.
Qed.
Lemma tmp_not_final h1 p n h2 : tmp_path h1 p n ≠ path_for h2.
Proof.
  intros He. pose proof (after_last_dot_tmp h1 p n) as H1. rewrite He, after_last_dot_path in H1.
  assert (98%N ∈ show_N n) as Hin by (injection H1 as <-; vm_compute; set_solver).
  apply show_N_digits in Hin. lia.
Qed.

(** ** What a thread holds *)
(** Nothing, or the temporary file it made and what it wrote there. *)
Inductive Tmp := Idle | Owns (p : Path) (i : Ino) (bytes : list N) (synced : bool).
Definition tmp_name (t : Tmp) : option Path := match t with Idle => None | Owns p _ _ _ => Some p end.

Section integrity.
Context `{!Sha2, !Sha2Laws}.
Implicit Types (d : Disk) (t : Tmp) (p q : Path) (i : Ino) (h : ContentHash).

(** The discipline of the code: it makes files under temporary names only, writes only the
    file it made, and renames it to the name of its bytes once synced. *)
Definition allowed t {B} (a : Act B) : Prop :=
  match a with
  | CreateFile p => t = Idle ∧ ∃ h pid n, p = tmp_path h pid n
  | WriteAll i b => ∃ p, t = Owns p i [] false
  | SyncAll i => ∃ p b s, t = Owns p i b s
  | Rename p q => ∃ i b, t = Owns p i b true ∧ q = path_for (from_bytes b)
  | _ => True
  end.
Definition after t {B} (a : Act B) : B → Tmp :=
  match a in Act B return B → Tmp with
  | CreateFile p => λ r, match r with Ok i => Owns p i [] false | Err _ => Idle end
  | WriteAll _ b => λ r,
      match r, t with Ok _, Owns p i _ _ => Owns p i b false | _, _ => Idle end
  | SyncAll _ => λ r,
      match r, t with Ok _, Owns p i b _ => Owns p i b true | _, _ => Idle end
  | Rename _ _ => λ _, Idle
  | _ => λ _, t
  end.
Fixpoint wp {A} t (c : Prog A) (Q : Tmp → A → Prop) : Prop :=
  match c with
  | Ret a => Q t a
  | Vis a k => allowed t a ∧ ∀ x, wp (after t a x) (k x) Q
  end.

Lemma blob_wp_mono {A} t (c : Prog A) (Q R : Tmp → A → Prop) : (∀ t a, Q t a → R t a) → wp t c Q → wp t c R.
Proof. intros HQR. revert t. induction c as [a|B a k IH]; intros t; cbn; [auto|]. intros [Ha Hk]. eauto. Qed.
Lemma blob_wp_bind {A C} t (c : Prog A) (f : A → Prog C) Q :
  wp t c (λ t a, wp t (f a) Q) → wp t (prog_bind c f) Q.
Proof. revert t. induction c as [a|B a k IH]; intros t; cbn; [done|]. intros [Ha Hk]. eauto. Qed.
Lemma wp_io_bind {A C} t (c : IO A) (f : A → IO C) (Q : Tmp → Prop) :
  wp t c (λ t _, Q t) → (∀ t a, Q t → wp t (f a) (λ t _, Q t)) → wp t (c ≫= f) (λ t _, Q t).
Proof.
  intros Hc Hf. apply blob_wp_bind. eapply blob_wp_mono, Hc. intros t' [a|e] HQ; cbn; auto.
Qed.

(** A call that leaves files and names to their owners. *)
Definition reading {B} (a : Act B) : bool :=
  match a with CreateFile _ | WriteAll _ _ | SyncAll _ | Rename _ _ => false | _ => true end.
Fixpoint reads_only {A} (c : Prog A) : Prop :=
  match c with Ret _ => True | Vis a k => reading a = true ∧ ∀ x, reads_only (k x) end.
Lemma reads_only_wp {A} t (c : Prog A) : reads_only c → wp t c (λ _ _, True).
Proof.
  revert t. induction c as [a|B a k IH]; intros t; cbn; [done|]. intros [Ha Hk].
  split; [by destruct a|]. intros x. by apply IH.
Qed.
Lemma reads_only_bind {A C} (c : Prog A) (f : A → Prog C) :
  reads_only c → (∀ a, reads_only (f a)) → reads_only (prog_bind c f).
Proof. intros Hc Hf. induction c as [a|B a k IH]; cbn in *; [done|]. destruct Hc. eauto. Qed.
Lemma reads_only_io {A C} (c : IO A) (f : A → IO C) :
  reads_only c → (∀ a, reads_only (f a)) → reads_only (c ≫= f).
Proof. intros Hc Hf. apply reads_only_bind; [done|]. by intros [a|e]; cbn. Qed.
End integrity.

#[local] Ltac reads :=
  repeat (first
    [ assumption | exact I | progress intros | apply reads_only_io | apply reads_only_bind
    | match goal with
      | |- reads_only (Vis _ _) => split; [reflexivity|]
      | |- reads_only (mret _) => exact I
      | |- reads_only (io_throw _) => exact I
      | |- reads_only (run _) => split; [reflexivity|]
      | |- reads_only (call _ _) => split; [reflexivity|]
      | |- reads_only (match ?x with _ => _ end) => destruct x
      end ]).
Section operations.
Context `{!Sha2, !Sha2Laws}.
Lemma read_loop_reads i r l fuel out : reads_only (read_loop i r l fuel out).
Proof. revert out. induction fuel as [|fuel IH]; intros out; cbn [read_loop]; unfold verify_digest; [exact I|]. reads; apply IH. Qed.
Lemma read_verified_reads r l fuel : reads_only (read_verified_into r l fuel).
Proof. unfold read_verified_into. reads; apply read_loop_reads. Qed.
Lemma delete_one_reads p r : reads_only (delete_one p r).
Proof. unfold delete_one. reads. Qed.
Lemma scan_files_reads s l : reads_only (scan_files s l).
Proof. induction l; cbn [scan_files]; reads. Qed.
Lemma scan_dirs_reads l : reads_only (scan_dirs l).
Proof. induction l; cbn [scan_dirs]; reads. apply scan_files_reads. Qed.
Lemma retain_young_reads n l r : reads_only (retain_young n l r).
Proof. revert r. induction l; intros r; cbn [retain_young]; reads; try apply delete_one_reads; auto. Qed.
Lemma delete_oldest_reads cap l n r : reads_only (delete_oldest cap l n r).
Proof. revert n r. induction l; intros n r; cbn [delete_oldest]; reads; try apply delete_one_reads; auto. Qed.
Lemma gc_run_reads policy : reads_only (gc_run policy).
Proof.
  unfold gc_run, age_phase, capacity_phase. reads; try apply scan_dirs_reads; try apply retain_young_reads; apply delete_oldest_reads.
Qed.
Lemma delete_blob_reads h : reads_only (delete_blob h).
Proof. unfold delete_blob. reads. Qed.
Lemma put_wp pid bytes fuel : wp Idle (put pid bytes fuel) (λ _ _, True).
Proof.
  unfold put. split; [done|]. intros []; cbn [after].
  - change (wp Idle (read_verified_into (MkMediaRef (from_bytes bytes) (N.of_nat (length bytes)) None)
      (N.of_nat (length bytes)) fuel ≫= λ checked, mret ((λ _, from_bytes bytes) <$> checked)) (λ _ _, True)).
    apply reads_only_wp, reads_only_io; [apply read_verified_reads|]. done.
  - split; [done|]. intros [[]|k]; cbn; [|done]. split; [done|]. intros n.
    split; [by eauto|]. intros [i|k]; cbn; [|done].
    split; [by eauto|]. intros [[]|k]; cbn; [|done].
    split; [by eauto 6|]. intros [[]|k]; cbn; [|done].
    split; [by eauto 6|]. intros [[]|k]; cbn; done.
Qed.
Lemma op_wp op : wp Idle (op_prog op) (λ _ _, True).
Proof.
  destruct op; cbn [op_prog]; apply blob_wp_bind.
  - eapply blob_wp_mono; [|apply put_wp]. done.
  - apply reads_only_wp. unfold get. reads.
  - apply reads_only_wp, read_verified_reads.
  - apply reads_only_wp. unfold exists_. reads.
  - apply reads_only_wp, delete_blob_reads.
  - apply reads_only_wp, gc_run_reads.
Qed.
End operations.

(** ** The invariant of the file system *)
Section invariant.
Context `{!Sha2, !Sha2Laws}.
Implicit Types (d : Disk) (t : Tmp) (p q : Path) (i : Ino) (h : ContentHash) (σ : Machine).

Definition sealed d i h : Prop := ∃ f, files d !! i = Some f ∧ f_synced f = true ∧ from_bytes (f_bytes f) = h.
Definition link_ok d q i : Prop :=
  (i < next d)%N ∧ is_Some (files d !! i) ∧
  ((∃ h pid n, q = tmp_path h pid n ∧ q ∈ created d) ∨ (∃ h, hash_ok h ∧ q = path_for h ∧ sealed d i h)).
Record disk_ok d : Prop := {
  k_names p i : names d !! p = Some i → (p, i) ∈ links d;
  k_links q i : (q, i) ∈ links d → link_ok d q i;
}.
Definition tmp_ok d t : Prop :=
  match t with
  | Idle => True
  | Owns p i b s =>
      p ∈ created d ∧ (∃ h pid n, p = tmp_path h pid n) ∧ (p, i) ∈ links d ∧
      (∀ q, (q, i) ∈ links d → q = p) ∧ (∀ j, (p, j) ∈ links d → j = i) ∧
      ∃ f, files d !! i = Some f ∧ f_bytes f = b ∧ (s = true → f_synced f = true)
  end.
Definition apart t t' : Prop := ∀ p, tmp_name t = Some p → tmp_name t' = Some p → False.

(** A call of the thread that holds [t]: the disk stays well formed, the thread's claim
    moves on, and a claim to another name is kept. *)
Record effect t d t' d' : Prop := {
  e_disk : disk_ok d';
  e_tmp : tmp_ok d' t';
  e_name : ∀ p, tmp_name t' = Some p → tmp_name t = Some p ∨ p ∉ created d;
  e_other u : tmp_ok d u → apart t u → tmp_ok d' u;
}.
Lemma effect_none t d : disk_ok d → tmp_ok d t → effect t d t d.
Proof. split; auto. Qed.
Lemma effect_idle t d : disk_ok d → effect t d Idle d.
Proof. split; cbn; auto; done. Qed.
(** A step that keeps links, files and inodes. *)
Lemma tmp_ok_ext d d' u : links d' = links d → files d' = files d → created d' = created d → tmp_ok d u → tmp_ok d' u.
Proof. intros Hl Hf Hc. destruct u; cbn; by rewrite ?Hl, ?Hf, ?Hc. Qed.
Lemma disk_ok_ext d d' : disk_ok d → links d' = links d → files d' = files d → next d' = next d →
  created d' = created d → (∀ p i, names d' !! p = Some i → names d !! p = Some i) → disk_ok d'.
Proof.
  intros Hd Hl Hf Hn Hc Hs. split.
  - intros p i Hp%Hs. rewrite Hl. by apply k_names.
  - intros q i. rewrite Hl. intros Hq%(k_links _ Hd). revert Hq. unfold link_ok, sealed. by rewrite Hn, Hf, Hc.
Qed.
Lemma effect_ext t d d' : disk_ok d → tmp_ok d t → links d' = links d → files d' = files d → next d' = next d →
  created d' = created d → (∀ p i, names d' !! p = Some i → names d !! p = Some i) → effect t d t d'.
Proof.
  intros Hd Ht ?????. split; [by eapply disk_ok_ext|by eapply tmp_ok_ext|auto|].
  intros u Hu _. by eapply tmp_ok_ext.
Qed.
(** The bytes of a file owned by nobody else change. *)
Lemma effect_write p i b s d f b' s' : disk_ok d → tmp_ok d (Owns p i b s) →
  f_bytes f = b' → (s' = true → f_synced f = true) →
  effect (Owns p i b s) d (Owns p i b' s') (set_file i f d).
Proof.
  intros Hd (Hn & (h & pid & n & ->) & Hl & Hq & Hj & g & Hg & _) Hb Hs.
  assert (disk_ok (set_file i f d)) as Hd'.
  { split; cbn.
    - apply (k_names _ Hd).
    - intros q j Hin. destruct (k_links _ Hd _ _ Hin) as (Hlt & Hsome & Hk). split_and!; [done| |].
      + cbn. destruct (decide (i = j)) as [->|]; [by rewrite lookup_insert_eq|by rewrite lookup_insert_ne].
      + destruct Hk as [Hk|(h' & Hh & -> & Hseal)]; [by left|right]. exists h'. split_and!; [done..|].
        destruct Hseal as (f' & Hf' & Hf''). exists f'. cbn. rewrite lookup_insert_ne; [done|].
        intros <-. apply Hq in Hin. by eapply tmp_not_final. }
  split; [done| |auto|].
  - cbn. split_and!; [done|by eauto|done..|]. exists f. by rewrite lookup_insert_eq.
  - intros u Hu Hap. destruct u as [|p' i' b0 s0]; cbn in *; [done|].
    destruct Hu as (Hm & Hp' & Hl' & Hq' & Hj' & f' & Hf' & ?).
    split_and!; [done..|]. exists f'. rewrite lookup_insert_ne; [done|]. intros <-.
    apply Hq in Hl' as Heq. by eapply Hap; [|rewrite Heq].
Qed.
Lemma effect_forget t d t' d' : effect t d t' d' → effect t d Idle d'.
Proof. intros []. by split. Qed.

Lemma owner_apart p i b s d u : tmp_ok d (Owns p i b s) → tmp_ok d u → apart (Owns p i b s) u →
  match u with Owns p' i' _ _ => p' ≠ p ∧ i' ≠ i | _ => True end.
Proof.
  intros (_ & _ & _ & Hq & _) Hu Hap. destruct u as [|p' i' b' s']; cbn in *; [done|].
  destruct Hu as (_ & _ & Hl' & _). assert (p' ≠ p) as Hne by (intros ->; by eapply Hap).
  split; [done|]. intros ->. by apply Hne, Hq.
Qed.
Lemma effect_create h pid n d m : disk_ok d →
  let p := tmp_path h pid n in p ∉ created d →
  effect Idle d (Owns p (next d) [] false) (create p m d).
Proof.
  intros Hd p Hfree. unfold create, link, set_file, made. cbn.
  assert (∀ q i, (q, i) ∈ links d → i ≠ next d) as Hnew.
  { intros q i (Hi & _)%(k_links _ Hd). lia. }
  assert (∀ i, (p, i) ∉ links d) as Hp.
  { intros i (_ & _ & [(? & ? & ? & _ & ?)|(h' & _ & Heq & _)])%(k_links _ Hd); [done|]. by apply tmp_not_final in Heq. }
  split.
  - split; cbn.
    + intros q i. destruct (decide (q = p)) as [->|Hq].
      * rewrite lookup_insert_eq. intros [= <-]. by left.
      * rewrite lookup_insert_ne by done. intros Hin%(k_names _ Hd). by right.
    + intros q i [[= -> ->]|Hin]%elem_of_cons; unfold link_ok; cbn.
      * split_and!; [lia|by rewrite lookup_insert_eq|]. left. exists h, pid, n. split; [done|by left].
      * pose proof (Hnew _ _ Hin). apply (k_links _ Hd) in Hin as (Hi & Hsome & Hk).
        split_and!; [lia|by rewrite lookup_insert_ne|]. destruct Hk as [(h' & pid' & n' & ? & ?)|(h' & ? & ? & f & Hf & ?)].
        -- left. exists h', pid', n'. split; [done|by right].
        -- right. exists h'. split_and!; [done..|]. exists f. cbn. by rewrite lookup_insert_ne.
  - cbn. split_and!; [by left|by exists h, pid, n|by left| | |].
    + intros q [[= -> ]|Hin]%elem_of_cons; [done|]. by apply Hnew in Hin.
    + intros j [[= ->]|Hin]%elem_of_cons; [done|]. by apply Hp in Hin.
    + eexists. by rewrite lookup_insert_eq.
  - cbn. intros x [= <-]. by right.
  - intros u Hu Hap. destruct u as [|p' i b s]; cbn in *; [done|].
    destruct Hu as (Hk & Hp' & Hl & Hq & Hj & f & Hf & ?). pose proof (Hnew _ _ Hl) as Hi.
    split_and!; [by right|done|by right| | |exists f; by rewrite lookup_insert_ne].
    + intros q [[= -> ->]|Hin]%elem_of_cons; [done|]. by apply Hq.
    + intros j [Heq%(f_equal fst)|Hin]%elem_of_cons; [|by apply Hj]. cbn in Heq. by subst p'.
Qed.
Lemma effect_rename p i b d : disk_ok d → tmp_ok d (Owns p i b true) →
  effect (Owns p i b true) d Idle (link (path_for (from_bytes b)) i (unlink p d)).
Proof.
  intros Hd Ht. pose proof Ht as (Hn & (h & pid & n & ->) & Hl & Hq & Hj & f & Hf & Hb & Hs).
  unfold link, unlink. cbn. split.
  - split; cbn.
    + intros q j. destruct (decide (q = path_for (from_bytes b))) as [->|Hne].
      * rewrite lookup_insert_eq. intros [= <-]. by left.
      * rewrite lookup_insert_ne by done. intros [_ Hin]%lookup_delete_Some. right. by apply (k_names _ Hd).
    + intros q j [[= -> ->]|Hin]%elem_of_cons; [|by apply (k_links _ Hd)].
      destruct (k_links _ Hd _ _ Hl) as (Hi & Hsome & _). split_and!; [done..|]. right.
      exists (from_bytes b). split_and!; [apply law_hash_ok|done|]. exists f. split_and!; auto. by rewrite Hb.
  - done.
  - done.
  - intros u Hu Hap. pose proof (owner_apart _ _ _ _ _ _ Ht Hu Hap) as Hu'.
    destruct u as [|p' i' b' s']; cbn in *; [done|].
    destruct Hu as (Hm & (h' & pid' & n' & ->) & Hl' & Hq' & Hj' & Hf'), Hu' as [Hp Hi].
    split_and!; [done|by exists h', pid', n'|by right| | |done].
    + intros q [[= -> ->]|Hin]%elem_of_cons; [done|by apply Hq'].
    + intros j [Heq%(f_equal fst)|Hin]%elem_of_cons; [by apply tmp_not_final in Heq|by apply Hj'].
Qed.

(** The call makes no temporary file, or one with a new name. *)
Definition fresh_name {B} (a : Act B) d d' : Prop :=
  match a with CreateFile p => created d' = p :: created d → p ∉ created d | _ => True end.
(** Every call the discipline allows. *)
Lemma act_effect t {B} (a : Act B) d x d' : disk_ok d → tmp_ok d t → allowed t a → act_step a d x d' →
  fresh_name a d d' → effect t d (after t a x) d'.
Proof.
  intros Hd Ht Ha Hs Hfresh. destruct a; cbn in Ha, Hs, Hfresh |- *.
  - destruct Hs as [-> _]. by apply effect_none.
  - destruct Hs as [[_ ->]|[_ ->]]; [|by apply effect_none]. by apply effect_ext.
  - subst d'. by apply effect_ext.
  - destruct Ha as (-> & h & pid & n & ->). destruct Hs as [[m Hm]|[[k ->] ->]]; [|by apply effect_idle].
    destruct (names d !! tmp_path h pid n) as [j|] eqn:Hj.
    + destruct Hm as [-> ->]. specialize (Hfresh eq_refl). apply (k_names _ Hd) in Hj.
      destruct (k_links _ Hd _ _ Hj) as (_ & _ & [(? & ? & ? & _ & ?)|(h' & _ & Heq & _)]); [done|]. by apply tmp_not_final in Heq.
    + destruct Hm as (-> & _ & ->). apply effect_create; [done|]. by apply Hfresh.
  - destruct Ha as (p & ->). destruct Hs as [(f & w & m & Hf & Hw & -> & Hr)|[[k ->] ->]]; [|by apply effect_idle].
    pose proof Ht as (_ & _ & _ & _ & _ & f' & Hf' & Hb & _). simplify_eq. rewrite Hb.
    destruct Hr as [[-> ->]|[k ->]]; [by eapply effect_write|].
    by eapply effect_forget, (effect_write _ _ _ _ _ _ w false).
  - destruct Ha as (p & b & s & ->). destruct Hs as [(f & -> & Hf & ->)|[[k ->] ->]]; [|by apply effect_idle].
    pose proof Ht as (_ & _ & _ & _ & _ & f' & Hf' & Hb & _). simplify_eq. by eapply effect_write.
  - destruct Ha as (i & b' & -> & ->). destruct Hs as [(j & -> & Hj & ->)|[[k ->] ->]]; [|by apply effect_idle].
    pose proof Ht as (_ & _ & _ & _ & Hij & _). apply (k_names _ Hd), Hij in Hj as ->. by apply effect_rename.
  - assert (d' = d ∨ d' = unlink p d) as [-> | ->] by (case_decide; unfold failed in Hs; naive_solver).
    + by apply effect_none.
    + apply effect_ext; cbn; try done. by intros q i [_ ?]%lookup_delete_Some.
  - destruct Hs as [-> _]. by apply effect_none.
  - assert (d' = d) as -> by (unfold failed in Hs; naive_solver). by apply effect_none.
  - assert (d' = d) as -> by (unfold failed in Hs; naive_solver). by apply effect_none.
  - assert (d' = d) as -> by (unfold failed in Hs; naive_solver). by apply effect_none.
  - subst. by apply effect_none.
  - subst. by apply effect_none.
  - assert (d' = d) as -> by (unfold failed in Hs; naive_solver). by apply effect_none.
Qed.
(** Names made are only added to. *)
Lemma act_created {B} (a : Act B) d x d' : act_step a d x d' → ∃ l, created d' = l ++ created d.
Proof.
  assert (∃ l, created d = l ++ created d) as Hid by by exists [].
  intros Hs. destruct a; cbn in Hs; unfold failed in Hs; try (assert (created d' = created d) as -> by naive_solver; done).
  - destruct Hs as [[m Hm]|[_ ->]]; [|done]. exists [p]. destruct (names d !! p); [by destruct Hm as [_ ->]|by destruct Hm as (_ & _ & ->)].
  - assert (created d' = created d) as -> by (case_decide; naive_solver). done.
Qed.
Lemma fresh_created {B} (a : Act B) d d' : NoDup (created d') → fresh_name a d d'.
Proof. destruct a; try done. cbn. intros Hn Hc. rewrite Hc in Hn. by apply list.NoDup_cons in Hn as [? _]. Qed.

Record machine_ok σ (T : N → Tmp) : Prop := {
  m_disk : disk_ok (disk σ);
  m_tmp (t : N) : tmp_ok (disk σ) (T t);
  m_apart (t t' : N) : t ≠ t' → apart (T t) (T t');
  m_wp (t : N) c : threads σ !! t = Some c → wp (T t) c (λ _ _, True);
}.
Lemma machine_ok_idle d : disk_ok d → machine_ok (MkMachine ∅ d) (λ _, Idle).
Proof. intros Hd. by split; [|intros t|intros t t' _ n|intros t c]. Qed.
Lemma disk_ok_power d d' : disk_ok d → power_loss d d' → disk_ok d'.
Proof.
  intros Hd (Hn & Hf & Hl & Hc & Hx). split.
  - intros p i Hp%Hn. by rewrite Hl.
  - intros q i. rewrite Hl. intros (Hi & [g Hg] & Hk)%(k_links _ Hd). unfold link_ok. rewrite Hx, Hc.
    destruct (Hf _ _ Hg) as (g' & Hg' & _). split_and!; [done|by exists g'|].
    destruct Hk as [Hk|(h & ? & ? & f & Hfi & Hs & ?)].
    + by left.
    + right. exists h. split_and!; [done..|]. destruct (Hf _ _ Hfi) as (f' & Hf' & Heq).
      pose proof (Heq Hs) as ->. by exists f.
Qed.
Lemma name_created d t p : tmp_ok d t → tmp_name t = Some p → p ∈ created d.
Proof. destruct t; cbn; [done|by intros [? _] [= <-]]. Qed.
Lemma machine_ok_call σ T (t : N) c c' d' : machine_ok σ T → threads σ !! t = Some c → prog_step c (disk σ) c' d' →
  NoDup (created d') → ∃ T', machine_ok (MkMachine (<[t := c']> (threads σ)) d') T'.
Proof.
  intros Hm Ht Hs Hnd. destruct c as [|B a k]; [done|]. destruct Hs as (x & Hs & ->).
  destruct (m_wp _ _ Hm _ _ Ht) as [Ha Hk].
  destruct (act_effect _ _ _ _ _ (m_disk _ _ Hm) (m_tmp _ _ Hm t) Ha Hs (fresh_created a _ _ Hnd)) as [Hd Hn Hst Ho].
  assert (∀ u, u ≠ t → apart (T u) (after (T t) a x)) as Hap.
  { intros u Hu n Hun Htn. apply Hst in Htn as [Htn|Hnew]; [by eapply (m_apart _ _ Hm u t)|].
    by apply (name_created _ _ _ (m_tmp _ _ Hm u)) in Hun. }
  exists (λ u, if decide (u = t) then after (T t) a x else T u). split; cbn.
  - done.
  - intros u. case_decide as Hu; [done|]. apply Ho; [apply Hm|]. by apply (m_apart _ _ Hm).
  - intros u v Huv. repeat case_decide; subst; [done|intros n Hu Hv; by eapply (Hap v)|by apply Hap|by apply (m_apart _ _ Hm)].
  - intros u c. case_decide as Hu; [subst; rewrite lookup_insert_eq; intros [= <-]; apply Hk|].
    rewrite lookup_insert_ne by done. apply (m_wp _ _ Hm).
Qed.
Lemma machine_ok_forget σ T (t : N) (ts : gmap N (Prog unit)) : machine_ok σ T →
  (∀ u c, ts !! u = Some c → u = t ∧ wp Idle c (λ _ _, True) ∨ u ≠ t ∧ threads σ !! u = Some c) →
  machine_ok (MkMachine ts (disk σ)) (λ u, if decide (u = t) then Idle else T u).
Proof.
  intros Hm Hts. split; cbn.
  - apply Hm.
  - intros u. case_decide; [done|apply Hm].
  - intros u v Huv. repeat case_decide; subst; try (by intros n ? ?). by apply (m_apart _ _ Hm).
  - intros u c Hc. case_decide as Hu.
    + destruct (Hts _ _ Hc) as [[_ Hw]|[? _]]; done.
    + destruct (Hts _ _ Hc) as [[? _]|[_ Hw]]; [done|]. by apply (m_wp _ _ Hm).
Qed.
Lemma step_created σ σ' : step σ σ' → ∃ l, created (disk σ') = l ++ created (disk σ).
Proof.
  destruct 1 as [t op Ht|t c c' d' Ht Hs|t|d' (_ & _ & _ & Hc & _)]; cbn; [by exists []| |by exists []|exists []; by rewrite Hc].
  destruct c as [|B a k]; [done|]. destruct Hs as (x & Hs & _). by apply act_created in Hs.
Qed.
Lemma machine_ok_step σ T σ' : machine_ok σ T → step σ σ' → NoDup (created (disk σ')) → ∃ T', machine_ok σ' T'.
Proof.
  intros Hm Hs Hnd. destruct Hs as [t op Ht|t c c' d' Ht Hs|t|d' Hp].
  - eexists. eapply (machine_ok_forget _ _ t); [done|]. intros u c [[<- <-]|[? ?]]%lookup_insert_Some; [left|by right].
    split; [done|]. apply op_wp.
  - by eapply machine_ok_call.
  - eexists. eapply (machine_ok_forget _ _ t); [done|]. intros u c [? ?]%lookup_delete_Some. by right.
  - eexists. apply machine_ok_idle. by eapply disk_ok_power, Hp; apply Hm.
Qed.
Lemma disk_ok_init : disk_ok Disk_init.
Proof. split; cbn; [intros p i Hp; by rewrite lookup_empty in Hp|intros q i Hq; by apply not_elem_of_nil in Hq]. Qed.
Lemma machine_ok_reachable σ : rtc step Machine_init σ → NoDup (created (disk σ)) → ∃ T, machine_ok σ T.
Proof.
  apply (rtc_ind_r (λ σ, NoDup (created (disk σ)) → ∃ T, machine_ok σ T)).
  - intros _. eexists. apply machine_ok_idle, disk_ok_init.
  - intros σ1 σ2 _ Hs IH Hnd. destruct (step_created _ _ Hs) as [l Hl].
    destruct IH as [T HT]; [|by eapply machine_ok_step]. rewrite Hl in Hnd. by apply NoDup_app in Hnd as (_ & _ & ?).
Qed.

(** C16: whatever threads of whatever processes put, read, delete and collect, however
    their calls interleave and fail, whatever the clocks read, and wherever one of them
    dies or the power is lost: as long as no two puts drew the same temporary name (one
    process, the same bytes and the same reading of the clock), the file at the path of a
    hash holds bytes of that hash, and they are on stable storage; a reader never finds a
    partial blob there. *)
Theorem blob_integrity σ h i : rtc step Machine_init σ → NoDup (created (disk σ)) →
  hash_ok h → names (disk σ) !! path_for h = Some i →
  ∃ f, files (disk σ) !! i = Some f ∧ f_synced f = true ∧ from_bytes (f_bytes f) = h.
Proof.
  intros Hr Hnd. destruct (machine_ok_reachable _ Hr Hnd) as [T [Hd _ _ _]]. intros Hh Hn.
  destruct (k_links _ Hd _ _ (k_names _ Hd _ _ Hn)) as (_ & _ & [(h' & pid & n & Heq & _)|(h' & Hh' & Heq & Hs)]).
  - symmetry in Heq. by apply tmp_not_final in Heq.
  - by apply path_for_inj in Heq as ->.
Qed.

(** ** What a reader may trust, whatever the disk answers *)
Lemma returns_bind {A C} (c : Prog A) (f : A → Prog C) r : returns (prog_bind c f) r → ∃ a, returns c a ∧ returns (f a) r.
Proof. induction c as [a|B a k IH]; cbn; [by eauto|]. intros (x & (a' & ? & ?)%IH). eauto. Qed.
Lemma returns_io {A C} (c : IO A) (f : A → IO C) r : returns (c ≫= f) (Ok r) → ∃ a, returns c (Ok a) ∧ returns (f a) (Ok r).
Proof. intros ([a|e] & Hc & Hf)%returns_bind; [by eauto|done]. Qed.
Lemma verify_digest_ok r bytes b : returns (verify_digest r bytes) (Ok b) →
  b = bytes ∧ N.of_nat (length bytes) = mr_size_bytes r ∧ from_bytes bytes = mr_hash r.
Proof.
  unfold verify_digest. destruct (N.eqb_spec (N.of_nat (length bytes)) (mr_size_bytes r)); cbn; [|done].
  case_bool_decide as He; cbn; [done|]. intros [= ->]. done.
Qed.
Lemma read_loop_ok i r l fuel out b : returns (read_loop i r l fuel out) (Ok (Some b)) →
  N.of_nat (length b) = mr_size_bytes r ∧ from_bytes b = mr_hash r.
Proof.
  revert out. induction fuel as [|fuel IH]; intros out; cbn [read_loop]; [done|].
  intros ([[|x chunk]|[]] & _ & Hf)%returns_io; try done; [|revert Hf|by apply IH in Hf].
  - apply returns_io in Hf as (a & (-> & ? & ?)%verify_digest_ok & [= ->]). done.
  - repeat case_match; try done. apply IH.
Qed.

(** Bytes that [get_verified] returns satisfy the reference within the limit, and
    bytes that [get] returns have the hash asked for, whatever the disk answers. *)
Theorem verified_reads :
  (∀ r l fuel b, returns (get_verified r l fuel) (Ok (Some b)) → MediaRef_verify r b l = Ok tt) ∧
  (∀ h b, returns (get h) (Ok b) → from_bytes b = h).
Proof.
  split.
  - intros r l fuel b ([] & Hl & (o & _ & (i & _ & (n & _ & Hf)%returns_io)%returns_io)%returns_io)%returns_io.
    cbn in Hl. repeat case_match; try done. apply read_loop_ok in Hf as [Hb Hh].
    unfold MediaRef_verify, check_read_limit in *. destruct (N.ltb_spec l (mr_size_bytes r)) as [|Hle]; [done|]. cbn.
    rewrite Hb, Hh, N.eqb_refl. destruct (N.ltb_spec l (mr_size_bytes r)); [lia|]. cbn. rewrite bool_decide_false; [done|]. auto.
  - intros h b (o & _ & (i & _ & (n & _ & Hf)%returns_io)%returns_io)%returns_io.
    cbv zeta in Hf. destruct (decide (from_bytes n = h)) as [He|He].
    + rewrite bool_decide_false in Hf by auto. by injection Hf as ->.
    + by rewrite bool_decide_true in Hf.
Qed.
End invariant.
