(* ===== verification/BlobsRef.v ===== *)
(** The blob store as a map from hashes to bytes: each operation, alone on the disk,
    does to the map what its name says, and a put is read back. *)
From stdpp Require Import base gmap strings list numbers relations.
From Stdlib Require Import Lia.
From S2P Require Import Prelude.
From S2P Require Import WorkModel.
From S2P Require Import Blobs.
From S2P Require Import BlobsThms.

(** The bytes at the path of a hash. *)
Definition view (d : Disk) (h : ContentHash) : option (list N) :=
  i ← names d !! path_for h; f_bytes <$> files d !! i.
Definition same_blobs (d d' : Disk) : Prop := ∀ h, hash_ok h → view d' h = view d h.
(** The map with [h] bound to [b], or to nothing. *)
Definition blobs_set (h : ContentHash) (b : option (list N)) (d d' : Disk) : Prop :=
  ∀ h', hash_ok h' → view d' h' = if decide (h' = h) then b else view d h'.

Section runs.
Context `{!Sha2, !Sha2Laws}.
Implicit Types (d : Disk) (h : ContentHash) (i : Ino).

Lemma runs_bind {A C} (c : Prog A) (f : A → Prog C) d r d' :
  runs (prog_bind c f) d r d' ↔ ∃ a d1, runs c d a d1 ∧ runs (f a) d1 r d'.
Proof.
  revert d. induction c as [a|B a k IH]; intros d; cbn; [naive_solver|].
  split.
  - intros (x & d1 & Hs & (a' & d2 & ? & ?)%IH). exists a', d2. naive_solver.
  - intros (a' & d2 & (x & d1 & ? & ?) & ?). exists x, d1. split; [done|]. apply IH. eauto.
Qed.
Lemma runs_io {A C} (c : IO A) (f : A → IO C) d r d' : runs (c ≫= f) d r d' →
  (∃ a d1, runs c d (Ok a) d1 ∧ runs (f a) d1 r d') ∨ (∃ e, runs c d (Err e) d' ∧ r = Err e).
Proof. intros ([a|e] & d1 & Hc & Hf)%runs_bind; [left; eauto|right]. destruct Hf as [-> ->]. eauto. Qed.
Lemma runs_run {B} (a : Act B) d r d' : runs (run a) d r d' → ∃ x, r = Ok x ∧ act_step a d x d'.
Proof. intros (x & d1 & ? & -> & ->). eauto. Qed.
Lemma runs_call {B} w (a : Act (Io B)) d r d' : runs (call w a) d r d' →
  ∃ x, act_step a d x d' ∧ r = match x with Ok x => Ok x | Err k => Err (BlobIo w k) end.
Proof. intros (x & d1 & ? & Hr). exists x. destruct x; by destruct Hr as [-> ->]. Qed.
Lemma runs_run_bind {B C} (a : Act B) (f : B → IO C) d r d' : runs (run a ≫= f) d r d' →
  ∃ x d1, act_step a d x d1 ∧ runs (f x) d1 r d'.
Proof. intros [(x & d1 & (y & [= ->] & ?)%runs_run & ?)|(e & (y & ? & ?)%runs_run & ?)]%runs_io; [eauto|done]. Qed.
Lemma runs_call_bind {B C} w (a : Act (Io B)) (f : B → IO C) d r d' : runs (call w a ≫= f) d r d' →
  (∃ x d1, act_step a d (Ok x) d1 ∧ runs (f x) d1 r d') ∨ (∃ k, act_step a d (Err k) d' ∧ r = Err (BlobIo w k)).
Proof.
  intros [(x & d1 & ([y|k] & ? & ?) %runs_call & ?)|(e & ([y|k] & ? & ?)%runs_call & ?)]%runs_io; simplify_eq; eauto.
Qed.

(** A run keeps the disk well formed, when the temporary names it made are new. *)
Lemma runs_created {A} (c : Prog A) d r d' : runs c d r d' → ∃ l, created d' = l ++ created d.
Proof.
  revert d. induction c as [a|B a k IH]; intros d; cbn; [intros [_ ->]; by exists []|].
  intros (x & d1 & Hs & Hr). apply act_created in Hs as [l1 H1]. apply IH in Hr as [l2 H2].
  exists (l2 ++ l1). by rewrite H2, H1, app_assoc.
Qed.
Lemma runs_disk_ok {A} t (c : Prog A) Q d r d' : wp t c Q → disk_ok d → tmp_ok d t → runs c d r d' →
  NoDup (created d') → disk_ok d'.
Proof.
  revert t d. induction c as [a|B a k IH]; intros t d; cbn; [by intros ? ? ? [_ ->]|].
  intros [Ha Hk] Hd Ht (x & d1 & Hs & Hr) Hnd. assert (NoDup (created d1)) as Hnd1.
  { apply runs_created in Hr as [l Hl]. rewrite Hl in Hnd. by apply NoDup_app in Hnd as (_ & _ & ?). }
  destruct (act_effect _ _ _ _ _ Hd Ht Ha Hs (fresh_created a _ _ Hnd1)). by eapply (IH x).
Qed.
Lemma runs_reads_ok {A} (c : Prog A) d r d' : reads_only c → disk_ok d → runs c d r d' → disk_ok d'.
Proof.
  revert d. induction c as [a|B a k IH]; intros d; cbn; [by intros ? ? [_ ->]|].
  intros [Ha Hk] Hd (x & d1 & Hs & Hr). eapply (IH x); [done| |done].
  assert (allowed Idle a ∧ fresh_name a d d1) as [Hal Hfr] by by destruct a.
  by destruct (act_effect Idle a d x d1 Hd I Hal Hs Hfr).
Qed.

Lemma view_sealed d h : disk_ok d → hash_ok h → ∀ b, view d h = Some b → from_bytes b = h.
Proof.
  intros Hd Hh b. unfold view. destruct (names d !! path_for h) as [i|] eqn:Hn; [cbn|done].
  destruct (k_links _ Hd _ _ (k_names _ Hd _ _ Hn)) as (_ & _ & [(h' & pid & n & Heq & _)|(h' & Hh' & Heq & f & Hf & _ & Hfb)]).
  - symmetry in Heq. by apply tmp_not_final in Heq.
  - apply path_for_inj in Heq as ->; [|done..]. rewrite Hf. by intros [= <-].
Qed.
Lemma view_name d h : disk_ok d → is_Some (names d !! path_for h) ↔ is_Some (view d h).
Proof.
  intros Hd. unfold view. split; intros [i Hi].
  - destruct (k_links _ Hd _ _ (k_names _ Hd _ _ Hi)) as (_ & [f Hf] & _). rewrite Hi. cbn. rewrite Hf. by eexists.
  - by destruct (names d !! path_for h).
Qed.

(** The part of the disk a view depends on. *)
Lemma view_ext d d' h h' : disk_ok d → names d' !! path_for h' = names d !! path_for h →
  (∀ i, (i < next d)%N → files d' !! i = files d !! i) → view d' h' = view d h.
Proof.
  intros Hd Hn Hf. unfold view. rewrite Hn. destruct (names d !! path_for h) as [i|] eqn:Hi; [cbn|done].
  destruct (k_links _ Hd _ _ (k_names _ Hd _ _ Hi)) as (Hlt & _). by rewrite Hf.
Qed.
Lemma blobs_unlink d h : disk_ok d → hash_ok h → blobs_set h None d (unlink (path_for h) d).
Proof.
  intros Hd Hh h' Hh'. case_decide as He.
  - subst. unfold view. cbn. by rewrite lookup_delete_eq.
  - apply view_ext; [done|cbn|done]. rewrite lookup_delete_ne; [done|]. intros Heq%path_for_inj; auto.
Qed.
Lemma unlink_absent d h : view d h = None → blobs_set h None d d.
Proof. intros Hn h' _. case_decide; [by subst|done]. Qed.
Lemma failed_ok {A} (x : A) d d' : ¬ failed (Ok x) d d'.
Proof. by intros [[k Hk] _]. Qed.
Lemma failed_err {A} (r : Io A) d d' : failed r d d' → d' = d.
Proof. by intros [_ ?]. Qed.

(** *** [delete], [exists] and [get] *)
Lemma delete_runs d h r d' : disk_ok d → hash_ok h → runs (delete_blob h) d r d' →
  match r with Ok _ => blobs_set h None d d' | Err _ => same_blobs d d' end.
Proof.
  intros Hd Hh (x & d1 & Hs & Hr)%runs_run_bind. cbn in Hs.
  destruct (decide (is_Some (names d !! path_for h))) as [Hi|Hi].
  - destruct Hs as [[-> ->]|[[[k ->] ->] Hk]].
    + destruct Hr as [-> ->]. by apply blobs_unlink.
    + destruct k; [done| |]; by destruct Hr as [-> ->].
  - destruct Hs as [[k ->] ->]. rewrite (view_name _ _ Hd) in Hi. apply eq_None_not_Some in Hi.
    destruct k; destruct Hr as [-> ->]; [by apply unlink_absent|done..].
Qed.
Lemma exists_runs d h r d' : disk_ok d → runs (exists_ h) d r d' →
  d' = d ∧ ∃ b, r = Ok b ∧ (b = true → is_Some (view d h)).
Proof.
  intros Hd (x & -> & -> & Hx)%runs_run. split; [done|]. exists x. split; [done|].
  by rewrite <- (view_name _ _ Hd).
Qed.
Lemma open_runs {C} d h (f : Ino → IO C) r d' : disk_ok d →
  runs (opened ← run (OpenRead (path_for h));
        i ← match opened with
            | Ok i => mret i
            | Err KNotFound => io_throw (NotFound h)
            | Err k => io_throw (BlobIo (str "open") k)
            end; f i) d r d' →
  (∃ i g, names d !! path_for h = Some i ∧ files d !! i = Some g ∧ runs (f i) d r d') ∨
  d' = d ∧ (r = Err (NotFound h) ∧ view d h = None ∨ ∃ k, r = Err (BlobIo (str "open") k)).
Proof.
  intros Hd (x & d1 & [-> Hx] & Hr)%runs_run_bind.
  destruct (names d !! path_for h) as [i|] eqn:Hi.
  - destruct (k_links _ Hd _ _ (k_names _ Hd _ _ Hi)) as (_ & [g Hg] & _).
    destruct Hx as [->|(k & -> & Hk)].
    + apply runs_io in Hr as [(j & d2 & [[= ->] ->] & Hf)|(e & [? _] & _)]; [|done]. left. eauto.
    + right. destruct k; [done| |]; destruct Hr as [-> ->]; eauto.
  - right. destruct Hx as [k ->]. destruct k; destruct Hr as [-> ->]; eauto. split; [done|]. left.
    split; [done|]. unfold view. by rewrite Hi.
Qed.
Lemma get_runs d h r d' : disk_ok d → hash_ok h → runs (get h) d r d' →
  d' = d ∧ match r with
           | Ok b => view d h = Some b
           | Err (NotFound h') => h' = h ∧ view d h = None
           | Err (BlobIo _ _) => True
           | Err _ => False
           end.
Proof.
  intros Hd Hh [(i & g & Hi & Hg & Hr)|(-> & [[-> Hv]|[k ->]])]%open_runs; [|done..].
  assert (view d h = Some (f_bytes g)) as Hv by (unfold view; rewrite Hi; cbn; by rewrite Hg).
  pose proof (view_sealed _ _ Hd Hh _ Hv) as Hb.
  apply runs_call_bind in Hr as [(x & d1 & Hs & Hr)|(k & Hs & ->)]; cbn in Hs.
  - destruct Hs as [(f & [= ->] & Hf & ->)|Hs]; [|by apply failed_ok in Hs]. simplify_eq.
    cbv zeta in Hr. rewrite bool_decide_false in Hr by auto. by destruct Hr as [-> ->].
  - destruct Hs as [(f & ? & _)|Hs]; [done|]. by apply failed_err in Hs as ->.
Qed.

(** *** [get_verified] *)
Lemma runs_throw {A} (e : BlobError) d (r : result BlobError A) d' : runs (io_throw e) d r d' → r = Err e ∧ d' = d.
Proof. done. Qed.
Lemma runs_ret {A} (a : A) d (r : result BlobError A) d' : runs (mret a : IO A) d r d' → r = Ok a ∧ d' = d.
Proof. done. Qed.
Lemma verify_digest_runs g ref out d r d' : out `prefix_of` f_bytes g →
  N.of_nat (length (f_bytes g)) = mr_size_bytes ref → from_bytes (f_bytes g) = mr_hash ref →
  (mr_size_bytes ref ≤ N.of_nat (length out))%N →
  runs (bytes ← verify_digest ref out; mret (Some bytes)) d r d' → d' = d ∧ r = Ok (Some (f_bytes g)).
Proof.
  intros [rest Hp] Hsize Hash Hout. assert (rest = []) as ->.
  { destruct rest; [done|]. rewrite Hp, length_app in Hsize. cbn in Hsize. lia. }
  rewrite app_nil_r in Hp. rewrite <- Hp. unfold verify_digest. rewrite Hsize, N.eqb_refl. cbv zeta.
  rewrite bool_decide_false by auto. cbn. by intros [-> ->].
Qed.
Lemma saturating_succ_le n m : (n < u64_modulus)%N → (saturating_add n 1 - m = 0)%N → (n ≤ m)%N.
Proof. unfold saturating_add, u64_max, u64_modulus. lia. Qed.
Lemma read_loop_runs i g ref limit fuel out d r d' : files d !! i = Some g →
  out `prefix_of` f_bytes g → (mr_size_bytes ref < u64_modulus)%N →
  N.of_nat (length (f_bytes g)) = mr_size_bytes ref → from_bytes (f_bytes g) = mr_hash ref →
  runs (read_loop i ref limit fuel out) d r d' →
  d' = d ∧ match r with
           | Ok (Some b) => b = f_bytes g
           | Ok None | Err (BlobIo _ _) | Err (ReadLimitExceeded _ _) => True
           | Err _ => False
           end.
Proof.
  intros Hg Hp Hu Hsize Hash. revert out Hp. induction fuel as [|fuel IH]; intros out Hp; cbn [read_loop].
  { by intros [-> ->]. }
  assert (N.of_nat (length out) ≤ mr_size_bytes ref)%N as Hle by (apply prefix_length in Hp; lia).
  set (left := (saturating_add (mr_size_bytes ref) 1 - N.of_nat (length out))%N).
  intros [(x & d1 & Hx & Hr)|(e & Hx & ->)]%runs_io; destruct (N.eqb_spec left 0) as [Hz|Hz].
  - apply runs_ret in Hx as [[= ->] ->]. eapply verify_digest_runs in Hr as [-> ->]; try done. by apply saturating_succ_le.
  - apply runs_run in Hx as (y & [= ->] & [(f & chunk & -> & Hf & -> & [rest Hc] & _ & Hend)|[[k ->] ->]]).
    + assert (f = g) as -> by congruence. clear Hf. destruct chunk as [|c chunk].
      * eapply verify_digest_runs in Hr as [-> ->]; try done. destruct Hend as [?|?]; [done|lia|lia].
      * assert (out ++ c :: chunk `prefix_of` f_bytes g) as Hp'.
        { destruct Hp as [rest' Hp]. rewrite Hp in Hc |- *. rewrite Nat2N.id, drop_app_length in Hc. exists rest.
          by rewrite Hc, <- app_assoc. }
        apply prefix_length in Hp' as Hl. rewrite length_app in Hl.
        destruct (limit <? _)%N; [by apply runs_throw in Hr as [-> ->]|].
        destruct (N.ltb_spec (mr_size_bytes ref) (N.of_nat (length out) + N.of_nat (length (c :: chunk)))); [lia|].
        by apply IH in Hr.
    + destruct k; [by apply runs_throw in Hr as [-> ->]|by apply IH in Hr|by apply runs_throw in Hr as [-> ->]].
  - by apply runs_ret in Hx as [? _].
  - by apply runs_run in Hx as (? & ? & _).
Qed.
Lemma digest_verified ref b limit : N.of_nat (length b) = mr_size_bytes ref → from_bytes b = mr_hash ref →
  (mr_size_bytes ref ≤ limit)%N → MediaRef_verify ref b limit = Ok tt.
Proof.
  intros Hs Hh Hl. unfold MediaRef_verify, check_read_limit. rewrite Hs, Hh, N.eqb_refl.
  destruct (N.ltb_spec limit (mr_size_bytes ref)); [lia|]. cbn. rewrite bool_decide_false; [done|]. auto.
Qed.
Definition read_spec d (ref : MediaRef) (limit : N) (r : result BlobError (option (list N))) : Prop :=
  match r with
  | Ok (Some b) => view d (mr_hash ref) = Some b ∧ MediaRef_verify ref b limit = Ok tt
  | Ok None => True
  | Err (NotFound h) => h = mr_hash ref ∧ view d (mr_hash ref) = None
  | Err (SizeMismatch m n) =>
      ∃ b, view d (mr_hash ref) = Some b ∧ n = N.of_nat (length b) ∧ m = mr_size_bytes ref ∧ m ≠ n
  | Err (HashMismatch _ _) | Err (CapacityExceeded _) => False
  | Err (ReadLimitExceeded _ _) | Err (BlobIo _ _) => True
  end.
Lemma get_verified_runs ref limit fuel d r d' : disk_ok d → hash_ok (mr_hash ref) →
  (mr_size_bytes ref < u64_modulus)%N → runs (get_verified ref limit fuel) d r d' →
  d' = d ∧ read_spec d ref limit r.
Proof.
  intros Hd Hh Hu Hr. apply runs_io in Hr as [([] & d1 & [Hc ->] & Hr)|(e & [Hc ->] & ->)].
  2:{ unfold check_read_limit in Hc. by destruct (limit <? _)%N; [injection Hc as ->|]. }
  unfold check_read_limit in Hc. destruct (N.ltb_spec limit (mr_size_bytes ref)) as [|Hlim]; [done|]. clear Hc.
  apply open_runs in Hr as [(i & g & Hi & Hg & Hr)|(-> & [[-> Hv]|[k ->]])]; [|done..].
  assert (view d (mr_hash ref) = Some (f_bytes g)) as Hv by (unfold view; rewrite Hi; cbn; by rewrite Hg).
  pose proof (view_sealed _ _ Hd Hh _ Hv) as Hb.
  apply runs_call_bind in Hr as [(n & d1 & [(f & [= ->] & Hf & ->)|Hs] & Hr)|(k & [(f & ? & _)|Hs] & ->)];
    [|by apply failed_ok in Hs|done|by apply failed_err in Hs as ->].
  assert (f = g) as -> by congruence. clear Hf.
  destruct (limit <? _)%N; [by apply runs_throw in Hr as [-> ->]|].
  destruct (N.eqb_spec (N.of_nat (length (f_bytes g))) (mr_size_bytes ref)) as [Hs|Hs].
  - eapply read_loop_runs in Hr as [-> Hr]; [|done|apply prefix_nil|done..]. split; [done|].
    destruct r as [[b|]|[]]; try done. subst b. split; [done|]. by apply digest_verified.
  - apply runs_throw in Hr as [-> ->]. split; [done|]. exists (f_bytes g). naive_solver.
Qed.

(** *** [put] *)
Lemma put_created_runs d h i b n pid m f : disk_ok d → hash_ok h → (i = next d)%N →
  let tmp := tmp_path h pid n in
  f_bytes f = b →
  blobs_set h (Some b) d (link (path_for h) i (unlink tmp (set_file i f (create tmp m d)))).
Proof.
  intros Hd Hh -> tmp Hb h' Hh'. case_decide as He.
  - subst h'. unfold view. cbn. rewrite lookup_insert_eq. cbn. by rewrite lookup_insert_eq; cbn; rewrite Hb.
  - apply view_ext; [done| |].
    + cbn. rewrite lookup_insert_ne by (intros Hq%path_for_inj; auto).
      rewrite lookup_delete_ne by apply tmp_not_final. rewrite lookup_insert_ne by apply tmp_not_final. done.
    + intros i Hi. cbn. by rewrite !lookup_insert_ne by lia.
Qed.
Lemma tmp_free d h pid n : disk_ok d → tmp_path h pid n ∉ created d → names d !! tmp_path h pid n = None.
Proof.
  intros Hd Hn. destruct (names d !! tmp_path h pid n) as [i|] eqn:Hi; [|done].
  destruct (k_links _ Hd _ _ (k_names _ Hd _ _ Hi)) as (_ & _ & [(h' & pid' & m & _ & Hm)|(h' & _ & Heq & _)]).
  - done.
  - by apply tmp_not_final in Heq.
Qed.
(** What [put] leaves when it gives up before the rename: its temporary file. *)
Lemma put_partial_runs d h pid n m f : disk_ok d →
  same_blobs d (set_file (next d) f (create (tmp_path h pid n) m d)).
Proof.
  intros Hd h' _. apply view_ext; [done| |].
  - cbn. rewrite lookup_insert_ne by apply tmp_not_final. done.
  - intros i Hi. cbn. by rewrite !lookup_insert_ne by lia.
Qed.
Lemma create_set d p m : create p m d = set_file (next d) (MkFile [] m false) (create p m d).
Proof. unfold create, link, set_file. cbn. by rewrite insert_insert_eq. Qed.
Lemma set_set i f g d : set_file i g (set_file i f d) = set_file i g d.
Proof. unfold set_file. cbn. by rewrite insert_insert_eq. Qed.
Lemma put_write_runs d h pid n m b r d' : disk_ok d → hash_ok h → h = from_bytes b →
  let tmp := tmp_path h pid n in
  runs (_ ← call (str "write") (WriteAll (next d) b);
        _ ← call (str "fsync") (SyncAll (next d));
        renamed ← run (Rename tmp (path_for h));
        match renamed with
        | Ok _ => mret (Some h)
        | Err k => _ ← run (RemoveFile tmp); io_throw (BlobIo (str "rename") k)
        end) (create tmp m d) r d' →
  match r with Ok (Some h') => h' = h ∧ blobs_set h (Some b) d d' | _ => same_blobs d d' end.
Proof.
  intros Hd Hh He tmp. rewrite create_set. set (c := create tmp m d).
  intros [([] & d1 & Hs & Hr)|(k & Hs & ->)]%runs_call_bind.
  2:{ destruct Hs as [(f & w & m' & Hf & Hw & -> & _)|Hs%failed_err]; [|subst d'; by apply put_partial_runs].
      rewrite set_set. by apply put_partial_runs. }
  destruct Hs as [(f & w & m' & Hf & _ & -> & [[_ ->]|[k ?]])|Hs]; [|done|by apply failed_ok in Hs].
  cbn in Hf. rewrite lookup_insert_eq in Hf. injection Hf as <-. rewrite set_set in Hr. cbn [f_bytes app] in Hr.
  apply runs_call_bind in Hr as [([] & d1 & Hs & Hr)|(k & Hs & ->)].
  2:{ destruct Hs as [(f & ? & _)|Hs%failed_err]; [done|]. subst d'. by apply put_partial_runs. }
  destruct Hs as [(f & _ & Hf & ->)|Hs]; [|by apply failed_ok in Hs].
  cbn in Hf. rewrite lookup_insert_eq in Hf. injection Hf as <-. rewrite set_set in Hr. cbn [f_bytes f_mtime] in Hr.
  apply runs_run_bind in Hr as (x & d1 & Hs & Hr).
  destruct Hs as [(j & -> & Hj & ->)|[[k ->] ->]].
  - cbn in Hj. rewrite lookup_insert_eq in Hj. injection Hj as <-. apply runs_ret in Hr as [-> ->]. split; [done|].
    by apply put_created_runs.
  - apply runs_run_bind in Hr as (y & d1 & Hs & [-> ->]%runs_throw). cbn in Hs.
    destruct (decide _); [destruct Hs as [[_ ->]|[Hs%failed_err _]]|apply failed_err in Hs];
      try (subst d1; by apply put_partial_runs).
    intros h' Hh'. transitivity (view (set_file (next d) (MkFile b m' true) c) h'); [|by apply put_partial_runs].
    unfold view. cbn. by rewrite lookup_delete_ne by apply tmp_not_final.
Qed.
Lemma put_runs pid b fuel d r d' : disk_ok d → (N.of_nat (length b) < u64_modulus)%N → runs (put pid b fuel) d r d' → NoDup (created d') →
  match r with
  | Ok (Some h) => h = from_bytes b ∧
      ∃ b', blobs_set h (Some b') d d' ∧ from_bytes b' = h ∧ (b' = b ∨ view d h = Some b')
  | _ => same_blobs d d'
  end.
Proof.
  intros Hd Hb Hput Hnd. revert Hput. intros (x & d1 & [-> Hx] & Hr)%runs_run_bind. pose proof (law_hash_ok b) as Hh. destruct x.
  - apply runs_io in Hr as [(o & d1 & Hc & [-> ->]%runs_ret)|(e & Hc & ->)];
      apply get_verified_runs in Hc as [-> Hc]; try done.
    destruct o as [b'|]; [|done]. destruct Hc as [Hv _]. split; [done|]. exists b'. split_and!; [|by eapply view_sealed|by right].
    intros h' _. by case_decide as He; [rewrite He|].
  - apply runs_call_bind in Hr as [([] & d1 & Hs & Hr)|(k & Hs & ->)].
    2:{ destruct Hs as [[? _]|Hs%failed_err]; [done|by subst d']. }
    destruct Hs as [[_ ->]|Hs]; [|by apply failed_ok in Hs].
    set (d1 := d <| subdirs := _ |>) in *.
    apply runs_run_bind in Hr as (n & d2 & -> & Hr). set (d2 := d1 <| clock := n |>) in *.
    assert (disk_ok d2) as Hd2 by (by eapply disk_ok_ext; [exact Hd|..]).
    apply runs_call_bind in Hr as [(i & d3 & Hs & Hr)|(k & Hs & ->)].
    + destruct Hs as [(m & Hs)|Hs]; [|by apply failed_ok in Hs].
      change (names d2) with (names d) in Hs. assert (tmp_path (from_bytes b) pid n ∉ created d) as Hn.
      { apply runs_created in Hr as [l Hl]. rewrite Hl in Hnd. apply NoDup_app in Hnd as (_ & _ & Hnd).
        assert (created d3 = tmp_path (from_bytes b) pid n :: created d) as Hc
          by (destruct (names d !! tmp_path (from_bytes b) pid n); [by destruct Hs as [_ ->]|by destruct Hs as (_ & _ & ->)]).
        rewrite Hc in Hnd. by apply list.NoDup_cons in Hnd as [? _]. }
      rewrite (tmp_free _ _ _ _ Hd Hn) in Hs.
      destruct Hs as ([= ->] & _ & ->).
      apply (put_write_runs d2 (from_bytes b) pid n m b) in Hr; [|done..].
      destruct r as [[h|]|]; try done. destruct Hr as [-> Hr]. split; [done|]. exists b. split_and!; [done..|by left].
    + assert (d' = d2) as ->; [|done]. destruct Hs as [(m & Hs)|Hs%failed_err]; [|done].
      by destruct (names d2 !! _); destruct Hs as (? & _).
Qed.

(** *** [gc] only removes *)
Lemma reading_act_runs {B} (a : Act B) d x d' : reading a = true → act_step a d x d' →
  files d' = files d ∧ ∀ p, names d' !! p = names d !! p ∨ names d' !! p = None.
Proof.
  assert (files d = files d ∧ ∀ p, names d !! p = names d !! p ∨ names d !! p = None) as Hid by auto.
  intros Hr Hs. destruct a; try done; cbn in Hs; unfold failed in Hs;
    try (assert (d' = d) as -> by naive_solver; done).
  - by destruct Hs as [[_ ->]|[_ ->]].
  - by subst d'.
  - assert (d' = d ∨ d' = unlink p d) as [-> | ->] by (case_decide; naive_solver); [done|]. split; [done|].
    intros q. cbn. destruct (decide (q = p)) as [->|]; [right; by rewrite lookup_delete_eq|left; by rewrite lookup_delete_ne].
Qed.
Lemma reads_only_runs {A} (c : Prog A) d r d' : reads_only c → runs c d r d' →
  files d' = files d ∧ ∀ p, names d' !! p = names d !! p ∨ names d' !! p = None.
Proof.
  revert d. induction c as [a|B a k IH]; intros d; cbn; [intros _ [_ ->]; auto|].
  intros [Ha Hk] (x & d1 & Hs & Hr). apply reading_act_runs in Hs as [Hf1 Hn1]; [|done].
  apply IH in Hr as [Hf2 Hn2]; [|done]. split; [congruence|]. intros p.
  destruct (Hn2 p) as [->|]; [apply Hn1|by right].
Qed.
Lemma view_shrinks d d' h : files d' = files d → (∀ p, names d' !! p = names d !! p ∨ names d' !! p = None) →
  view d' h = view d h ∨ view d' h = None.
Proof. intros Hf Hn. unfold view. rewrite Hf. destruct (Hn (path_for h)) as [->| ->]; [by left|by right]. Qed.

(** C21: an operation alone on the disk, with any of its calls failing, acts on the map
    from hashes to bytes: [put] binds the hash of its bytes to bytes of that hash
    (these, unless the hash was bound) or changes nothing and fails, as long as the
    temporary name it draws was not drawn before; [get] and
    [get_verified] return the bytes bound, say [NotFound] only of a hash that is not, and
    never meet a blob that is not of its hash; [delete] unbinds; collection only unbinds;
    each leaves a well-formed store. *)
Theorem store_refines_map d : disk_ok d →
  (∀ pid b fuel r d', (N.of_nat (length b) < u64_modulus)%N → runs (put pid b fuel) d r d' → NoDup (created d') →
     disk_ok d' ∧
     match r with
     | Ok (Some h) => h = from_bytes b ∧
         ∃ b', blobs_set h (Some b') d d' ∧ from_bytes b' = h ∧ (b' = b ∨ view d h = Some b')
     | _ => same_blobs d d'
     end) ∧
  (∀ h r d', hash_ok h → runs (get h) d r d' →
     d' = d ∧
     match r with
     | Ok b => view d h = Some b
     | Err (NotFound h') => h' = h ∧ view d h = None
     | Err (BlobIo _ _) => True
     | Err _ => False
     end) ∧
  (∀ ref limit fuel r d', hash_ok (mr_hash ref) → (mr_size_bytes ref < u64_modulus)%N →
     runs (get_verified ref limit fuel) d r d' → d' = d ∧ read_spec d ref limit r) ∧
  (∀ h r d', hash_ok h → runs (exists_ h) d r d' → d' = d ∧ ∃ b, r = Ok b ∧ (b = true → is_Some (view d h))) ∧
  (∀ h r d', hash_ok h → runs (delete_blob h) d r d' →
     disk_ok d' ∧ match r with Ok _ => blobs_set h None d d' | Err _ => same_blobs d d' end) ∧
  (∀ policy r d', runs (gc_run policy) d r d' →
     disk_ok d' ∧ ∀ h, view d' h = view d h ∨ view d' h = None).
Proof.
  intros Hd. split_and!.
  - intros pid b fuel r d' Hb Hr Hnd. split; [|by eapply put_runs].
    by eapply (runs_disk_ok Idle); [apply put_wp|..].
  - intros h r d' Hh Hr. by apply get_runs.
  - intros ref limit fuel r d' Hh Hu Hr. by eapply get_verified_runs.
  - intros h r d' Hh Hr. by apply exists_runs.
  - intros h r d' Hh Hr. split; [|by apply delete_runs].
    eapply runs_reads_ok, Hr; [apply delete_blob_reads|done].
  - intros policy r d' Hr. pose proof (gc_run_reads policy) as Hg.
    split; [by eapply runs_reads_ok, Hr|].
    intros h. apply reads_only_runs in Hr as [? ?]; [|done]. by apply view_shrinks.
Qed.
End runs.
