(* ===== verification/BlobsGc.v ===== *)
(** The blob store on a disk at rest: a put is read back, collection removes what its
    policy says and nothing else; and the runs that show the hypotheses can hold. *)
From stdpp Require Import base gmap strings list numbers relations sorting.
From Stdlib Require Import Lia.
From S2P Require Import Prelude.
From S2P Require Import WorkModel.
From S2P Require Import Blobs.
From S2P Require Import BlobsThms.
From S2P Require Import BlobsRef.

(** ** Runs at rest are runs *)
Lemma blob_exec_act {B} (a : Act B) d : act_step a d (exec_act a d).1 (exec_act a d).2.
Proof.
  destruct a; cbn.
  - split; [done|]. apply bool_decide_eq_true.
  - by left.
  - done.
  - destruct (names d !! p) eqn:Hp; cbn; [left; by eexists|].
    case_decide; [left; by eexists|right; split; [by eexists|done]].
  - destruct (files d !! i) eqn:Hi; cbn; [left|right; split; [by eexists|done]].
    eexists _, bytes, _. split_and!; [done|done|done|]. by left.
  - destruct (files d !! i) eqn:Hi; cbn; [left; by eexists|right; split; [by eexists|done]].
  - destruct (names d !! a) eqn:Hi; cbn; [left; by eexists|right; split; [by eexists|done]].
  - destruct (names d !! p) eqn:Hi; cbn; [by left|split; [by eexists|done]].
  - split; [done|]. destruct (names d !! p); [by left|by eexists].
  - destruct (files d !! i) eqn:Hi; cbn; [left; by eexists|right; split; [by eexists|done]].
  - destruct (files d !! i) as [f|] eqn:Hi; cbn; [left|right; split; [by eexists|done]].
    eexists f, _. split_and!; [done..| | |].
    + eexists. symmetry. apply take_drop.
    + rewrite length_take. lia.
    + intros Hn%(f_equal length). rewrite length_take, length_drop in Hn. cbn in Hn. lia.
  - destruct (files d !! i) eqn:Hi; cbn; [left; by eexists|right; split; [by eexists|done]].
  - done.
  - done.
  - destruct (names d !! p) as [i|] eqn:Hi; cbn; [|right; split; [by eexists|done]].
    destruct (files d !! i) eqn:Hf; cbn; [left; by eexists _, _|right; split; [by eexists|done]].
Qed.
Lemma exec_runs {A} (c : Prog A) d : runs c d (exec c d).1 (exec c d).2.
Proof.
  revert d. induction c as [a|B a k IH]; intros d; [done|]. cbn.
  pose proof (blob_exec_act a d) as Hs. destruct (exec_act a d) as [x d1]. cbn in Hs. exists x, d1. split; [done|apply IH].
Qed.
Lemma exec_bind {A C} (c : Prog A) (f : A → Prog C) d :
  exec (prog_bind c f) d = exec (f (exec c d).1) (exec c d).2.
Proof. revert d. induction c as [a|B a k IH]; intros d; cbn; [done|]. by destruct (exec_act a d). Qed.
Lemma exec_io {A C} (c : IO A) (f : A → IO C) d a d1 : exec c d = (Ok a, d1) → exec (c ≫= f) d = exec (f a) d1.
Proof. intros He. unfold mbind, io_bind. rewrite exec_bind, He. done. Qed.
Lemma exec_run_bind {B C} (a : Act B) (f : B → IO C) d : exec (run a ≫= f) d = exec (f (exec_act a d).1) (exec_act a d).2.
Proof. unfold mbind, io_bind. rewrite exec_bind. cbn. by destruct (exec_act a d). Qed.
Lemma exec_call_bind {B C} w (a : Act (Io B)) (f : B → IO C) d x d1 : exec_act a d = (Ok x, d1) →
  exec (call w a ≫= f) d = exec (f x) d1.
Proof. intros He. unfold mbind, io_bind. rewrite exec_bind. cbn. by rewrite He. Qed.

Section rest.
Context `{!Sha2, !Sha2Laws}.
Implicit Types (d : Disk) (h : ContentHash) (i : Ino).

Lemma exec_get d h b : disk_ok d → hash_ok h → view d h = Some b → exec (get h) d = (Ok b, d).
Proof.
  intros Hd Hh Hv. pose proof (view_sealed _ _ Hd Hh _ Hv) as Hb. unfold view in Hv.
  destruct (names d !! path_for h) as [i|] eqn:Hi; [cbn in Hv|done].
  destruct (files d !! i) as [g|] eqn:Hg; [|done]. injection Hv as <-.
  unfold get. rewrite exec_run_bind. cbn [exec_act fst snd]. rewrite Hi.
  erewrite exec_io by reflexivity. erewrite exec_call_bind by (cbn; rewrite Hg; reflexivity).
  cbv zeta. rewrite bool_decide_false by auto. done.
Qed.
Lemma exec_verify ref b d : N.of_nat (length b) = mr_size_bytes ref → from_bytes b = mr_hash ref →
  exec (bytes ← verify_digest ref b; mret (Some bytes)) d = (Ok (Some b), d).
Proof.
  intros Hs Hh. rewrite (exec_io (verify_digest ref b) _ d b d); [done|]. unfold verify_digest. rewrite Hs, N.eqb_refl. cbv zeta.
  rewrite bool_decide_false by auto. done.
Qed.
Lemma prefix_extend {A} (out l : list A) n : out `prefix_of` l → out ++ take n (drop (length out) l) `prefix_of` l.
Proof. intros [k ->]. rewrite drop_app_length. exists (drop n k). by rewrite <- app_assoc, take_drop. Qed.
Lemma exec_read_loop i g ref limit fuel out d : files d !! i = Some g →
  out `prefix_of` f_bytes g → (mr_size_bytes ref < u64_modulus)%N → (mr_size_bytes ref ≤ limit)%N →
  N.of_nat (length (f_bytes g)) = mr_size_bytes ref → from_bytes (f_bytes g) = mr_hash ref →
  (length (f_bytes g) - length out < fuel)%nat →
  exec (read_loop i ref limit fuel out) d = (Ok (Some (f_bytes g)), d).
Proof.
  intros Hg Hp Hu Hl Hsize Hash Hfuel. revert out Hp Hfuel. induction fuel as [|fuel IH]; intros out Hp Hfuel; [lia|].
  cbn [read_loop]. set (left := (saturating_add (mr_size_bytes ref) 1 - N.of_nat (length out))%N).
  assert ((mr_size_bytes ref ≤ N.of_nat (length out))%N → out = f_bytes g) as Hend.
  { intros Hle. apply prefix_length_eq; [done|]. lia. }
  destruct (N.eqb_spec left 0) as [Hz|Hz].
  { erewrite exec_io by reflexivity. rewrite (Hend (saturating_succ_le _ _ Hu Hz)). by apply exec_verify. }
  erewrite exec_io by (cbn; rewrite Hg; reflexivity). rewrite Nat2N.id.
  destruct (take _ _) as [|c chunk] eqn:Hc.
  - rewrite Hend; [by apply exec_verify|]. apply (f_equal length) in Hc. rewrite length_take, length_drop in Hc. cbn in Hc. lia.
  - pose proof (prefix_extend out (f_bytes g) (N.to_nat (N.min 8192 left)) Hp) as Hp'. rewrite Hc in Hp'.
    apply prefix_length in Hp' as Hlen. rewrite length_app in Hlen.
    assert (N.of_nat (length out) + N.of_nat (length (c :: chunk)) ≤ mr_size_bytes ref)%N as Hle by lia.
    destruct (N.ltb_spec limit (N.of_nat (length out) + N.of_nat (length (c :: chunk)))); [lia|].
    destruct (N.ltb_spec (mr_size_bytes ref) (N.of_nat (length out) + N.of_nat (length (c :: chunk)))); [lia|].
    apply IH; [done|]. rewrite length_app. cbn in *. lia.
Qed.
Lemma exec_get_verified ref limit fuel d b : disk_ok d → hash_ok (mr_hash ref) → view d (mr_hash ref) = Some b →
  N.of_nat (length b) = mr_size_bytes ref → (mr_size_bytes ref < u64_modulus)%N → (mr_size_bytes ref ≤ limit)%N →
  (length b < fuel)%nat → exec (get_verified ref limit fuel) d = (Ok (Some b), d).
Proof.
  intros Hd Hh Hv Hsize Hu Hl Hfuel. pose proof (view_sealed _ _ Hd Hh _ Hv) as Hb. unfold view in Hv.
  destruct (names d !! path_for (mr_hash ref)) as [i|] eqn:Hi; [cbn in Hv|done].
  destruct (files d !! i) as [g|] eqn:Hg; [|done]. injection Hv as <-.
  assert ((limit <? mr_size_bytes ref)%N = false) as Hlim by (by apply N.ltb_ge).
  unfold get_verified, read_verified_into. rewrite (exec_io _ _ d tt d); [|cbn; unfold check_read_limit; by rewrite Hlim].
  rewrite exec_run_bind. cbn [exec_act fst snd]. rewrite Hi.
  erewrite exec_io by reflexivity. erewrite exec_call_bind by (cbn; rewrite Hg; reflexivity).
  rewrite Hsize, Hlim, N.eqb_refl. cbn [negb]. apply (exec_read_loop i g); try done; [apply prefix_nil|cbn; lia].
Qed.
(** The temporary name a [put] at rest would draw. *)
Definition next_tmp (d : Disk) (pid : N) (b : list N) : Path := tmp_path (from_bytes b) pid (clock d + 1).
Lemma exec_put d pid b fuel : disk_ok d → next_tmp d pid b ∉ created d → (N.of_nat (length b) < u64_modulus)%N → (length b < fuel)%nat →
  (view d (from_bytes b) = None ∨ view d (from_bytes b) = Some b) →
  (exec (put pid b fuel) d).1 = Ok (Some (from_bytes b)) ∧
  view (exec (put pid b fuel) d).2 (from_bytes b) = Some b ∧
  (NoDup (created d) → NoDup (created (exec (put pid b fuel) d).2)).
Proof.
  intros Hd Hnew Hb Hfuel Hv. pose proof (law_hash_ok b) as Hh. unfold put. cbv zeta.
  rewrite exec_run_bind. cbn [exec_act fst snd].
  destruct (bool_decide_reflect (is_Some (names d !! path_for (from_bytes b)))) as [Hs|Hs]; rewrite (view_name _ _ Hd) in Hs.
  - destruct Hv as [Hv|Hv]; [rewrite Hv in Hs; by destruct Hs|].
    rewrite (exec_io _ _ d (Some b) d); [done|]. by apply (exec_get_verified _ _ _ d b).
  - erewrite exec_call_bind by reflexivity. rewrite exec_run_bind. cbn [exec_act fst snd].
    set (tmp := tmp_path _ _ _). set (d2 := _ <| clock := _ |>).
    assert (names d2 !! tmp = None) as Hfree by (by apply (tmp_free d)).
    rewrite (exec_call_bind _ _ _ d2 (next d2) (create tmp (clock d2) d2))
      by (cbn [exec_act]; rewrite Hfree, decide_True; [done|cbn; set_solver]).
    erewrite exec_call_bind by (cbn; rewrite lookup_insert_eq; reflexivity).
    erewrite exec_call_bind by (cbn; rewrite lookup_insert_eq; reflexivity).
    rewrite exec_run_bind. cbn. rewrite lookup_insert_eq. cbn. split; [done|]. split.
    + unfold view. cbn. rewrite lookup_insert_eq. cbn. by rewrite lookup_insert_eq.
    + intros Hnd. by apply list.NoDup_cons.
Qed.

(** On a disk at rest a [put] succeeds and its bytes are read back, by [get] and,
    within the limit, by [get_verified], whose loop ends within one read a byte; the
    hypothesis excludes two contents of one hash. *)
Theorem put_get d pid b fuel : disk_ok d → NoDup (created d) → next_tmp d pid b ∉ created d → (N.of_nat (length b) < u64_modulus)%N → (length b < fuel)%nat →
  (∀ b', view d (from_bytes b) = Some b' → b' = b) →
  let h := from_bytes b in
  let d' := (exec (put pid b fuel) d).2 in
  (exec (put pid b fuel) d).1 = Ok (Some h) ∧ exec (get h) d' = (Ok b, d') ∧
  ∀ mime limit, (N.of_nat (length b) ≤ limit)%N →
    exec (get_verified (MkMediaRef h (N.of_nat (length b)) mime) limit fuel) d' = (Ok (Some b), d').
Proof.
  intros Hd Hnd Hnew Hb Hfuel Hv h d'. destruct (exec_put d pid b fuel) as (Hr & Hview & Hnames); [done..| |].
  { destruct (view d (from_bytes b)) as [b'|]; [right|by left]. by rewrite (Hv b'). }
  assert (disk_ok d') as Hd'.
  { pose proof (exec_runs (put pid b fuel) d) as Hrun. eapply (runs_disk_ok Idle); [apply put_wp|done|done|exact Hrun|by apply Hnames]. }
  split_and!; [done|by apply exec_get; [|apply law_hash_ok|]|]. intros mime limit Hl.
  by apply exec_get_verified; [|apply law_hash_ok|..].
Qed.
End rest.

(** ** Collection *)
Section gc.
Context `{!Sha2, !Sha2Laws}.
Implicit Types (d : Disk) (p : Path) (b : BlobMeta) (l : list BlobMeta) (r : GcReport).

Definition present d b : Prop :=
  ∃ i f, names d !! bm_path b = Some i ∧ files d !! i = Some f ∧
    bm_size b = N.of_nat (length (f_bytes f)) ∧ bm_mtime b = f_mtime f.
Definition paths l : list Path := bm_path <$> l.
Definition unlink_all l d : Disk := foldl (λ d b, unlink (bm_path b) d) d l.
Definition count r b : GcReport :=
  r <| deleted := deleted r +w 1 |> <| bytes_freed := bytes_freed r +w bm_size b |>.
Lemma present_unlink d b p : bm_path b ≠ p → present d b → present (unlink p d) b.
Proof. intros Hne (i & f & Hi & Hf & ?). exists i, f. cbn. by rewrite lookup_delete_ne. Qed.
Lemma present_all_unlink d b l : bm_path b ∉ paths l → Forall (present d) l → Forall (present (unlink (bm_path b) d)) l.
Proof.
  intros Hb Hl. apply list.Forall_forall. intros x Hx. apply present_unlink.
  - intros He. apply Hb. rewrite <- He. by apply list_elem_of_fmap_2.
  - rewrite list.Forall_forall in Hl. auto.
Qed.
Lemma exec_delete_one d b r : present d b → exec (delete_one (bm_path b) r) d = (Ok (true, count r b), unlink (bm_path b) d).
Proof.
  intros (i & f & Hi & Hf & Hs & _). unfold delete_one. rewrite exec_run_bind. cbn [exec_act fst snd].
  rewrite Hi. cbn [mbind option_bind]. rewrite Hf. rewrite exec_run_bind. cbn [exec_act]. rewrite Hi. cbn.
  unfold count. by rewrite Hs.
Qed.
Definition old (cutoff : N) b : Prop := (bm_mtime b < cutoff)%N.
#[local] Instance old_dec cutoff b : Decision (old cutoff b) := decide (bm_mtime b < cutoff)%N.
Lemma exec_retain_young cutoff l r d : NoDup (paths l) → Forall (present d) l →
  let gone := filter (old cutoff) l in
  exec (retain_young cutoff l r) d = (Ok (filter (λ b, ¬ old cutoff b) l, foldl count r gone), unlink_all gone d).
Proof.
  revert r d. induction l as [|b l IH]; intros r d Hnd Hp; [done|]. cbn [paths fmap list_fmap] in Hnd.
  apply NoDup_cons in Hnd as [Hb Hnd]. apply Forall_cons in Hp as [Hpb Hp]. cbn [retain_young].
  rewrite !filter_cons. destruct (N.ltb_spec (bm_mtime b) cutoff) as [Hlt|Hge].
  - rewrite (decide_True (P := old cutoff b)) by done. rewrite (decide_False (P := ¬ old cutoff b)) by auto.
    rewrite (exec_io _ _ _ _ _ (exec_delete_one d b r Hpb)).
    erewrite exec_io by (apply IH; [done|by apply present_all_unlink]). done.
  - assert (¬ old cutoff b) as Hn by (unfold old; lia).
    rewrite (decide_False (P := old cutoff b)) by done. rewrite (decide_True (P := ¬ old cutoff b)) by done.
    rewrite (exec_io _ _ d (false, r) d) by done. cbv beta iota. erewrite exec_io by (apply IH; done). done.
Qed.
(** What the capacity phase removes of a sorted list. *)
Fixpoint over (cap remaining : N) l : list BlobMeta :=
  match l with
  | [] => []
  | b :: l => if (remaining <=? cap)%N then [] else b :: over cap (saturating_sub remaining (bm_size b)) l
  end.
Lemma exec_delete_oldest cap l remaining r d : NoDup (paths l) → Forall (present d) l →
  let gone := over cap remaining l in
  exec (delete_oldest cap l remaining r) d =
    (Ok (foldl (λ n b, saturating_sub n (bm_size b)) remaining gone, foldl count r gone), unlink_all gone d).
Proof.
  revert remaining r d. induction l as [|b l IH]; intros remaining r d Hnd Hp; [done|]. cbn [paths fmap list_fmap] in Hnd.
  apply NoDup_cons in Hnd as [Hb Hnd]. apply Forall_cons in Hp as [Hpb Hp]. cbn [delete_oldest over].
  destruct (N.leb_spec remaining cap); [done|].
  rewrite (exec_io _ _ _ _ _ (exec_delete_one d b r Hpb)). apply IH; [done|]. by apply present_all_unlink.
Qed.

(** *** What collection sees *)
Definition meta d p : BlobMeta :=
  match i ← names d !! p; files d !! i with
  | Some f => MkBlobMeta p (N.of_nat (length (f_bytes f))) (f_mtime f)
  | None => MkBlobMeta p 0 0
  end.
Definition names_in d (s : rstring) : list rstring :=
  (map_to_list (names d)).*1 ≫= λ p, if decide (p.1 = s) then [p.2] else [].
Definition blob_names (l : list rstring) : list rstring := filter (λ n, extension n = Some (str "blob")) l.
Definition blobs_in d (s : rstring) : list BlobMeta := (λ n, meta d (s, n)) <$> blob_names (names_in d s).
Definition blobs d : list BlobMeta := elements (subdirs d) ≫= blobs_in d.

Lemma meta_path d p : bm_path (meta d p) = p.
Proof. unfold meta. by destruct (_ ≫= _). Qed.
Lemma meta_present d p : disk_ok d → is_Some (names d !! p) → present d (meta d p).
Proof.
  intros Hd [i Hi]. destruct (k_links _ Hd _ _ (k_names _ Hd _ _ Hi)) as (_ & [f Hf] & _).
  exists i, f. unfold meta. rewrite Hi. cbn [mbind option_bind]. by rewrite Hf.
Qed.
Lemma present_meta d b : present d b → b = meta d (bm_path b).
Proof.
  intros (i & f & Hi & Hf & Hs & Hm). unfold meta. rewrite Hi. cbn [mbind option_bind]. rewrite Hf.
  destruct b; cbn in *; congruence.
Qed.
Lemma elem_of_names_in d s n : n ∈ names_in d s ↔ is_Some (names d !! (s, n)).
Proof.
  unfold names_in. rewrite list_elem_of_bind. split.
  - intros ([s' n'] & Hn & Hin). apply list_elem_of_fmap in Hin as ([p i] & Heq & Hin%elem_of_map_to_list).
    cbn in Hn, Heq. subst p. case_decide; [subst|by apply not_elem_of_nil in Hn].
    apply list_elem_of_singleton in Hn as ->. by exists i.
  - intros [i Hi]. exists (s, n). cbn. rewrite decide_True by done. split; [by left|].
    apply list_elem_of_fmap. exists ((s, n), i). split; [done|]. by apply elem_of_map_to_list.
Qed.
Lemma NoDup_names_in d s : NoDup (names_in d s).
Proof.
  unfold names_in. pose proof (NoDup_fst_map_to_list (names d)) as Hnd.
  induction (map_to_list (names d)).*1 as [|p l IH]; [constructor|].
  apply NoDup_cons in Hnd as [Hp Hnd]. cbn [mbind list_bind]. case_decide as Hs; [|by apply IH].
  cbn. constructor; [|by apply IH]. intros ([s' n'] & Hn & Hin)%list_elem_of_bind. case_decide as Hs'; cbn in *.
  - apply list_elem_of_singleton in Hn. apply Hp. destruct p as [s0 n0]; cbn in *; by subst.
  - by apply not_elem_of_nil in Hn.
Qed.
Lemma elem_of_blobs_in d s b : disk_ok d →
  b ∈ blobs_in d s ↔ (bm_path b).1 = s ∧ extension (bm_path b).2 = Some (str "blob") ∧ present d b.
Proof.
  intros Hd. unfold blobs_in, blob_names. rewrite list_elem_of_fmap. split.
  - intros (n & -> & [He Hn]%list_elem_of_filter). rewrite meta_path. split_and!; [done..|].
    apply meta_present; [done|]. by apply elem_of_names_in.
  - intros (<- & He & Hp). exists (bm_path b).2. rewrite <- surjective_pairing. split; [by apply present_meta|].
    apply list_elem_of_filter. split; [done|]. apply elem_of_names_in. rewrite <- surjective_pairing.
    destruct Hp as (i & f & Hi & _). by exists i.
Qed.
Lemma elem_of_blobs d b : disk_ok d →
  b ∈ blobs d ↔ (bm_path b).1 ∈ subdirs d ∧ extension (bm_path b).2 = Some (str "blob") ∧ present d b.
Proof.
  intros Hd. unfold blobs. rewrite list_elem_of_bind. setoid_rewrite elem_of_blobs_in; [|done].
  setoid_rewrite elem_of_elements. naive_solver.
Qed.
Lemma NoDup_blobs d : NoDup (paths (blobs d)).
Proof.
  unfold paths, blobs. pose proof (NoDup_elements (subdirs d)) as Hnd.
  induction (elements (subdirs d)) as [|s l IH]; [constructor|]. apply NoDup_cons in Hnd as [Hs Hnd].
  cbn [mbind list_bind]. rewrite fmap_app. apply list.NoDup_app. split_and!; [| |by apply IH].
  - assert (bm_path <$> blobs_in d s = pair s <$> blob_names (names_in d s)) as ->.
    { unfold blobs_in. rewrite <- list_fmap_compose. apply list_fmap_ext. intros; apply meta_path. }
    apply NoDup_fmap_2; [by intros ?? [= ]|].
    apply NoDup_filter, NoDup_names_in.
  - intros p Hp Hp'. apply Hs. apply list_elem_of_fmap in Hp as (b & -> & Hb), Hp' as (b' & Heq & Hb').
    apply list_elem_of_fmap in Hb as (n & -> & _). apply list_elem_of_bind in Hb' as (s' & Hb' & Hin).
    apply list_elem_of_fmap in Hb' as (n' & -> & _). rewrite !meta_path in Heq. by injection Heq as -> ->.
Qed.
Lemma exec_scan_files d s (l : list rstring) : disk_ok d → Forall (λ n, is_Some (names d !! (s, n))) l →
  exec (scan_files s l) d = (Ok ((λ n, meta d (s, n)) <$> blob_names l), d).
Proof.
  intros Hd. induction 1 as [|n l Hn Hl IH]; [done|]. cbn [scan_files]. unfold blob_names. rewrite filter_cons.
  case_bool_decide as He; [rewrite decide_True by done|by rewrite decide_False by done].
  destruct (meta_present d (s, n) Hd Hn) as (i & f & Hi & Hf & Hs & Hm). rewrite meta_path in Hi.
  erewrite exec_call_bind by (cbn [exec_act]; rewrite Hi; cbn [mbind option_bind]; rewrite Hf; reflexivity).
  cbv beta iota. rewrite (exec_io _ _ _ _ _ IH). rewrite fmap_cons. unfold meta at 2. rewrite Hi. cbn [mbind option_bind].
  by rewrite Hf.
Qed.
Lemma exec_scan_dirs d (l : list rstring) : disk_ok d → exec (scan_dirs l) d = (Ok (l ≫= blobs_in d), d).
Proof.
  intros Hd. induction l as [|s l IH]; [done|]. cbn [scan_dirs].
  rewrite (exec_call_bind _ _ _ _ (names_in d s) d) by done.
  erewrite exec_io by (apply exec_scan_files; [done|]; apply list.Forall_forall; intros n; apply elem_of_names_in).
  by rewrite (exec_io _ _ _ _ _ IH).
Qed.

(** *** Counting *)
Definition total l : N := foldr (λ b n, bm_size b + n)%N 0%N l.
Lemma total_cons b l : total (b :: l) = (bm_size b + total l)%N.
Proof. done. Qed.
Lemma total_app l1 l2 : total (l1 ++ l2) = (total l1 + total l2)%N.
Proof. induction l1 as [|b l1 IH]; [done|]. cbn [app]. rewrite !total_cons, IH. lia. Qed.
#[local] Instance total_perm : Proper ((≡ₚ) ==> (=)) total.
Proof. induction 1; rewrite ?total_cons; lia. Qed.
Lemma sizes_total l : (total l < u64_modulus)%N → sizes l = total l.
Proof.
  induction l as [|b l IH]; [done|]. rewrite total_cons. intros Hl. change (bm_size b +w sizes l = (bm_size b + total l)%N).
  rewrite IH by lia. by apply wadd_small.
Qed.
Lemma count_all l r : (deleted r + N.of_nat (length l) < u64_modulus)%N → (bytes_freed r + total l < u64_modulus)%N →
  foldl count r l =
    MkGcReport (scanned r) (deleted r + N.of_nat (length l)) (bytes_freed r + total l) (bytes_remaining r).
Proof.
  revert r. induction l as [|b l IH]; intros r; cbn [foldl length]; [change (total []) with 0%N|rewrite total_cons].
  - intros _ _. destruct r; cbn. f_equal; lia.
  - intros Hd Hb. unfold count at 2. rewrite (wadd_small (deleted r)), (wadd_small (bytes_freed r)) by (unfold is_u64; lia).
    rewrite IH by (cbn; lia). cbn. f_equal; lia.
Qed.
Lemma over_spec cap l : ∃ kept,
  let gone := over cap (total l) l in
  l = gone ++ kept ∧ foldl (λ n b, saturating_sub n (bm_size b)) (total l) gone = total kept ∧
  (total kept ≤ cap)%N ∧ ∀ o b, gone = o ++ [b] → (cap < total (b :: kept))%N.
Proof.
  induction l as [|b l (kept & IHl & IHr & IHt & IHm)]; cbn [over].
  - exists []. cbn. split_and!; [done..|lia|]. by intros [] ?.
  - destruct (N.leb_spec (total (b :: l)) cap) as [Hle|Hgt].
    + exists (b :: l). split_and!; [done..|]. by intros [] ?.
    + change (total (b :: l)) with (bm_size b + total l)%N in *.
      assert (saturating_sub (bm_size b + total l) (bm_size b) = total l) as Hs by (unfold saturating_sub; lia).
      exists kept. cbv zeta in *. rewrite Hs. split_and!; [cbn; by f_equal|cbn; by rewrite Hs|done|].
      intros [|x o] b'; cbn; [|intros [= -> Ho]; by eapply IHm].
      intros [= -> Ho]. rewrite Ho in IHl. cbn in IHl. by rewrite <- IHl.
Qed.
Lemma names_unlink_all l d p : names (unlink_all l d) !! p = if decide (p ∈ paths l) then None else names d !! p.
Proof.
  revert d. induction l as [|b l IH]; intros d; [done|]. cbn [unlink_all foldl]. fold (unlink_all l (unlink (bm_path b) d)).
  rewrite IH. cbn [paths fmap list_fmap]. fold (paths l). destruct (decide (p ∈ paths l)) as [Hp|Hp].
  - by rewrite decide_True by set_solver.
  - cbn. destruct (decide (p = bm_path b)) as [->|Hne].
    + by rewrite lookup_delete_eq, decide_True by set_solver.
    + by rewrite lookup_delete_ne, decide_False by set_solver.
Qed.
Lemma unlink_all_files l d : files (unlink_all l d) = files d.
Proof. revert d. induction l as [|b l IH]; intros d; [done|]. exact (IH (unlink (bm_path b) d)). Qed.
Lemma present_unlink_all l d b : bm_path b ∉ paths l → present d b → present (unlink_all l d) b.
Proof.
  intros Hb (i & f & Hi & Hf & ?). exists i, f. rewrite names_unlink_all, unlink_all_files. by rewrite decide_False.
Qed.
#[local] Instance older_trans : Transitive older.
Proof. intros a b c. unfold older. lia. Qed.
#[local] Instance older_total : Total older.
Proof. intros a b. unfold older. lia. Qed.
Lemma sorted_split l1 l2 b b' : StronglySorted older (l1 ++ l2) → b ∈ l1 → b' ∈ l2 → older b b'.
Proof.
  induction l1 as [|x l1 IH]; cbn; intros Hs Hb Hb'; [by apply not_elem_of_nil in Hb|].
  apply StronglySorted_inv in Hs as [Hs Hx]. apply elem_of_cons in Hb as [->|Hb]; [|by apply IH].
  rewrite list.Forall_forall in Hx. apply Hx. set_solver.
Qed.

(** What the policy keeps of [l], and what its capacity removes. *)
Definition capped (policy : RetentionPolicy) l (gone kept : list BlobMeta) : Prop :=
  l ≡ₚ gone ++ kept ∧ (∀ b b', b ∈ gone → b' ∈ kept → older b b') ∧
  match max_bytes policy with
  | None => gone = []
  | Some cap => (total kept ≤ cap)%N ∧ ∀ o b, gone = o ++ [b] → (cap < total (b :: kept))%N
  end.
Lemma exec_capacity policy l r d : NoDup (paths l) → Forall (present d) l → (total l < u64_modulus)%N →
  ∃ gone kept, capped policy l gone kept ∧
    exec (capacity_phase policy l r) d = (Ok ((foldl count r gone) <| bytes_remaining := total kept |>), unlink_all gone d).
Proof.
  intros Hnd Hp Ht. unfold capacity_phase, capped. rewrite sizes_total by done. cbv zeta.
  destruct (max_bytes policy) as [cap|] eqn:Hcap.
  - destruct (N.ltb_spec cap (total l)) as [Hlt|Hge].
    + pose proof (sort_by_perm older l : by_mtime l ≡ₚ l) as Hperm.
      pose proof (sort_by_sorted older l : StronglySorted older (by_mtime l)) as Hs.
      assert (NoDup (paths (by_mtime l))) as Hnd' by (unfold paths; by rewrite Hperm).
      assert (Forall (present d) (by_mtime l)) as Hp' by (by rewrite Hperm).
      assert (total l = total (by_mtime l)) as Heq by (by rewrite Hperm).
      destruct (over_spec cap (by_mtime l)) as (kept & Hl & Hr & Hle & Hm). cbv zeta in *.
      exists (over cap (total (by_mtime l)) (by_mtime l)), kept. split_and!; [by rewrite <- Hl|..].
      * intros b b'. apply sorted_split. by rewrite <- Hl.
      * done.
      * done.
      * erewrite exec_io by (apply exec_delete_oldest; done). cbv zeta. rewrite Heq, Hr. done.
    + exists [], l. split_and!; [done|by intros ?? ?%not_elem_of_nil|done|by intros []|done].
  - exists [], l. split_and!; [done|by intros ?? ?%not_elem_of_nil|done|done].
Qed.
Lemma NoDup_paths_sub l l' : NoDup (paths l) → l' `sublist_of` l → NoDup (paths l').
Proof. intros Hnd Hs. eapply sublist_NoDup; [exact Hnd|]. by apply fmap_sublist. Qed.

Definition aged policy d b : Prop :=
  match max_age policy with Some age => old (clock d + 1 - age) b | None => False end.
Lemma exec_age policy l r d : NoDup (paths l) → Forall (present d) l →
  ∃ expired young d1, l ≡ₚ expired ++ young ∧ Forall (aged policy d) expired ∧ Forall (λ b, ¬ aged policy d b) young ∧
    (∀ b, present (unlink_all expired d) b → present d1 b) ∧ files d1 = files d ∧
    names d1 = names (unlink_all expired d) ∧
    exec (age_phase policy l r) d = (Ok (young, foldl count r expired), d1).
Proof.
  intros Hnd Hp. unfold age_phase, aged. destruct (max_age policy) as [age|].
  - set (cutoff := (clock d + 1 - age)%N). exists (filter (old cutoff) l), (filter (λ b, ¬ old cutoff b) l).
    eexists. split_and!.
    + symmetry. apply filter_app_complement.
    + apply list.Forall_forall. by intros b [? _]%list_elem_of_filter.
    + apply list.Forall_forall. by intros b [? _]%list_elem_of_filter.
    + shelve.
    + shelve.
    + shelve.
    + rewrite exec_run_bind. cbn [exec_act fst snd]. apply exec_retain_young; [done|].
      eapply list.Forall_impl; [exact Hp|]. by intros b (i & f & ?); exists i, f.
    Unshelve.
    * intros b (i & f & Hi & Hf & ?). exists i, f. rewrite names_unlink_all, unlink_all_files in *. done.
    * by rewrite unlink_all_files.
    * apply map_eq. intros p. by rewrite !names_unlink_all.
  - exists [], l, d. split_and!; try done. apply list.Forall_forall. by intros b _ [].
Qed.

(** C27: on a disk at rest collection sees the [.blob] files of the fan-out directories and
    deletes of them those older than the policy's age and then, of the others, the
    oldest, only as many as bring the total under the cap; no other file is touched, and
    the report counts what was seen, deleted, freed and kept. *)
Theorem gc_exact policy d : disk_ok d → (total (blobs d) < u64_modulus)%N →
  (N.of_nat (length (blobs d)) < u64_modulus)%N →
  (∀ b, b ∈ blobs d ↔ (bm_path b).1 ∈ subdirs d ∧ extension (bm_path b).2 = Some (str "blob") ∧ present d b) ∧
  ∃ expired young gone kept d',
    blobs d ≡ₚ expired ++ young ∧ Forall (aged policy d) expired ∧ Forall (λ b, ¬ aged policy d b) young ∧
    capped policy young gone kept ∧
    exec (gc_run policy) d =
      (Ok (MkGcReport (N.of_nat (length (blobs d))) (N.of_nat (length (expired ++ gone)))
             (total (expired ++ gone)) (total kept)), d') ∧
    files d' = files d ∧
    ∀ p, names d' !! p = if decide (p ∈ paths (expired ++ gone)) then None else names d !! p.
Proof.
  intros Hd Ht Hlen. split; [intros b; by apply elem_of_blobs|].
  assert (Forall (present d) (blobs d)) as Hp
    by (apply list.Forall_forall; intros b Hb; by apply elem_of_blobs in Hb as (_ & _ & ?)).
  pose proof (NoDup_blobs d) as Hnd. set (r0 := MkGcReport (N.of_nat (length (blobs d))) 0 0 0).
  destruct (exec_age policy (blobs d) r0 d Hnd Hp) as (expired & young & d1 & Hl & Hexp & Hyoung & Hd1 & Hf1 & Hn1 & Hage).
  assert (NoDup (paths expired ++ paths young)) as Hnd' by (unfold paths; by rewrite <- fmap_app, <- Hl).
  apply list.NoDup_app in Hnd' as (_ & Hdis & Hndy).
  rewrite Hl, Forall_app in Hp. destruct Hp as [_ Hpy]. rewrite Hl, total_app in Ht. rewrite Hl, length_app in Hlen.
  destruct (exec_capacity policy young (foldl count r0 expired) d1) as (gone & kept & Hcap & Hex).
  { done. }
  { apply list.Forall_forall. intros b Hb. apply Hd1, present_unlink_all.
    - intros Hin. apply (Hdis _ Hin). by apply list_elem_of_fmap_2.
    - rewrite list.Forall_forall in Hpy. auto. }
  { lia. }
  exists expired, young, gone, kept, (unlink_all gone d1). split_and!; [done..| | |].
  - unfold gc_run. rewrite exec_run_bind. cbn [exec_act fst snd].
    rewrite (exec_io _ _ _ _ _ (exec_scan_dirs d _ Hd)). fold (blobs d). cbv beta.
    rewrite (exec_io _ _ _ _ _ Hage). rewrite Hex. rewrite <- foldl_app.
    destruct Hcap as (Hy & _). rewrite Hy, total_app in Ht. rewrite Hy, length_app in Hlen.
    rewrite count_all; cbn [scanned deleted bytes_freed bytes_remaining]; subst r0; cbn [scanned deleted bytes_freed bytes_remaining];
      rewrite ?total_app, ?length_app; [|lia..].
    done.
  - by rewrite unlink_all_files.
  - intros p. rewrite names_unlink_all, Hn1, names_unlink_all. unfold paths. rewrite fmap_app.
    repeat case_decide; set_solver.
Qed.
End gc.

(** ** What the code does not do *)
Section gaps.
Context `{!Sha2, !Sha2Laws}.
(** A blob removed between the listing and its [metadata] fails the whole collection. *)
Lemma scan_absent_fails d s n l r d' : extension n = Some (str "blob") → names d !! (s, n) = None →
  runs (scan_files s (n :: l)) d r d' → ∃ k, r = Err (BlobIo (str "metadata") k).
Proof.
  intros He Hn. cbn [scan_files]. rewrite bool_decide_true by done.
  intros [([z m] & d1 & Hs & _)|(k & _ & ->)]%runs_call_bind; [|by eexists]. cbn in Hs.
  destruct Hs as [(i & f & _ & Hi & _)|Hs]; [|by apply failed_ok in Hs].
  pose proof (eq_trans (eq_sym Hn) Hi) as Hx. done.
Qed.
Lemma extension_tmp h pid n : extension (tmp_path h pid n).2 = Some (show_N n).
Proof.
  cbn [tmp_path snd]. rewrite !app_assoc. change (str ".") with [46%N]. rewrite <- app_assoc.
  set (s := (_ ++ _) ++ show_N pid). assert (s ≠ []) as Hs by (intros [[_ ?]%app_nil _]%app_nil; done).
  destruct s as [|c s]; [done|]. apply after_last_dot_digits. intros x Hx%show_N_digits. lia.
Qed.
(** A [put] whose write fails leaves its temporary file, which no listing shows. *)
Lemma put_failed_leaves_tmp d pid b fuel n : disk_ok d → NoDup (created d) → tmp_path (from_bytes b) pid n ∉ created d →
  view d (from_bytes b) = None → ∃ d',
  runs (put pid b fuel) d (Err (BlobIo (str "write") KOther)) d' ∧
  is_Some (names d' !! tmp_path (from_bytes b) pid n) ∧
  ∀ x, x ∈ blobs d' → bm_path x ≠ tmp_path (from_bytes b) pid n.
Proof.
  intros Hd Hnd Hnew Hv. set (tmp := tmp_path (from_bytes b) pid n).
  assert (names d !! tmp = None) as Hfree by (by apply tmp_free).
  set (d1 := d <| subdirs := {[(path_for (from_bytes b)).1]} ∪ subdirs d |> <| clock := n |>).
  exists (create tmp 0 d1).
  assert (runs (put pid b fuel) d (Err (BlobIo (str "write") KOther)) (create tmp 0 d1)) as Hr.
  { exists false, d. split; [by split|]. exists (Ok tt). eexists. split; [by left|].
    exists n. eexists. split; [done|].
    exists (Ok (next d)), (create tmp 0 d1). split.
    - left. exists 0%N. match goal with |- match ?x with _ => _ end => change x with (names d !! tmp) end.
      rewrite Hfree. split_and!; [done| |done]. cbn. set_solver.
    - exists (Err KOther), (create tmp 0 d1). split; [by right; split; [eexists|]|]. done. }
  split_and!; [done|cbn; rewrite lookup_insert_eq; by eexists|].
  intros x (_ & He & _)%elem_of_blobs Hx; [|by eapply (runs_disk_ok Idle); [apply put_wp|done|done|exact Hr|by apply list.NoDup_cons]].
  rewrite Hx in He. unfold tmp in He. rewrite extension_tmp in He. assert (98%N ∈ show_N n) as Hin by (injection He as ->; vm_compute; set_solver).
  apply show_N_digits in Hin. lia.
Qed.
End gaps.

(** ** A store that runs *)
Module BlobScenario.
(** The first 32 bytes, for the digest. *)
#[local] Instance first32 : Sha2 :=
  { from_bytes b := MkContentHash (take 32 (((λ x, x mod 256)%N <$> b) ++ replicate 32 0%N)) }.
#[local] Instance first32_laws : Sha2Laws.
Proof.
  constructor. intros b. split; cbn [from_bytes first32 digest].
  - rewrite length_take, length_app, length_replicate. lia.
  - apply Forall_take, Forall_app. split; [|by apply Forall_replicate].
    apply Forall_fmap, list.Forall_forall. intros x _. cbn. by apply N.mod_lt.
Defined.
Definition text : list N := str "hello".
Definition stored : Disk := (exec (op_prog (Put 7 text 10)) Disk_init).2.
Lemma runs_steps t (c : Prog unit) d d' ts : runs c d tt d' →
  rtc step (MkMachine (<[t := c]> ts) d) (MkMachine (<[t := Ret tt]> ts) d').
Proof.
  revert d. induction c as [[]|B a k IH]; intros d; cbn.
  - intros [_ ->]. apply rtc_refl.
  - intros (x & d1 & Hs & Hr). eapply rtc_l; [|by apply (IH x d1)].
    pose proof (step_call (MkMachine (<[t := Vis a k]> ts) d) t (Vis a k) (k x) d1) as Hc. cbn in Hc.
    rewrite insert_insert_eq in Hc. apply Hc; [by rewrite lookup_insert_eq|by exists x].
Qed.
Lemma stored_reachable : rtc step Machine_init (MkMachine {[0%N := Ret tt]} stored).
Proof.
  eapply rtc_l; [by apply (step_start _ 0%N (Put 7 text 10)), lookup_empty|].
  apply (runs_steps 0%N _ Disk_init stored ∅). exact (exec_runs (op_prog (Put 7 text 10)) Disk_init).
Qed.
Lemma text_hash_ok : hash_ok (from_bytes text).
Proof. apply law_hash_ok. Qed.
Lemma stored_names : NoDup (created stored).
Proof. apply (bool_decide_unpack _). vm_compute. exact I. Qed.
Lemma stored_ok : disk_ok stored.
Proof. destruct (machine_ok_reachable _ stored_reachable stored_names) as [T [Hd _ _ _]]. exact Hd. Qed.
Definition text_ref : MediaRef := MkMediaRef (from_bytes text) 5 None.

Example put_lists : blobs stored = [MkBlobMeta (path_for (from_bytes text)) 5 1].
Proof. vm_compute. reflexivity. Qed.
(** A blob put a second time keeps the time of the first: collection by age deletes it
    at once. *)
Example put_again_expires :
  let late := stored <| clock := 1000%N |> in
  let again := (exec (put 8 text 10) late).2 in
  let '(report, swept) := exec (gc_run (MkRetentionPolicy (Some 500%N) None)) again in
  (exec (put 8 text 10) late).1 = Ok (Some (from_bytes text)) ∧
  report = Ok (MkGcReport 1 1 5 0) ∧ (exec (get (from_bytes text)) swept).1 = Err (NotFound (from_bytes text)).
Proof. vm_compute. done. Qed.

(** One call of a thread on a machine at rest, and a reading of the clock. *)
Definition turn (t : N) (σ : Machine) : Machine :=
  match threads σ !! t with
  | Some (Vis a k) => let '(x, d) := exec_act a (disk σ) in MkMachine (<[t := k x]> (threads σ)) d
  | _ => σ
  end.
Definition read_clock (n : N) (c : Prog unit) : option (Prog unit) :=
  match c with
  | Vis a k => (match a in Act B return (B → Prog unit) → option (Prog unit) with Now => λ k, Some (k n) | _ => λ _, None end) k
  | Ret _ => None
  end.
Definition turn_clock (t n : N) (σ : Machine) : Machine :=
  match threads σ !! t ≫= read_clock n with
  | Some c => MkMachine (<[t := c]> (threads σ)) ((disk σ) <| clock := n |>)
  | None => σ
  end.
Lemma turn_step t σ : rtc step σ (turn t σ).
Proof.
  unfold turn. destruct (threads σ !! t) as [[u|B a k]|] eqn:Ht; [apply rtc_refl| |apply rtc_refl].
  pose proof (blob_exec_act a (disk σ)) as Hs. destruct (exec_act a (disk σ)) as [x d]. cbn in Hs.
  apply rtc_once. apply (step_call σ t (Vis a k)); [done|]. by exists x.
Qed.
Lemma turn_clock_step t n σ : rtc step σ (turn_clock t n σ).
Proof.
  unfold turn_clock. destruct (threads σ !! t) as [c|] eqn:Ht; [|apply rtc_refl]. cbn.
  destruct (read_clock n c) as [c'|] eqn:Hc; [|apply rtc_refl]. apply rtc_once. apply (step_call σ t c); [done|].
  destruct c as [u|B a k]; [done|]. cbn in Hc. destruct a; try done. injection Hc as <-. exists n. by split.
Qed.
(** Two threads of process 7 put the same bytes and read the same nanosecond: the second
    truncates the file the first has synced and is about to rename. *)
Definition one_put : Machine := MkMachine (<[0%N := op_prog (Put 7 text 10)]> ∅) Disk_init.
Definition two_puts : Machine := MkMachine (<[1%N := op_prog (Put 7 text 10)]> (threads one_put)) Disk_init.
Definition first_synced : Machine := turn 0 (turn 0 (turn 0 (turn_clock 0 1 (turn 0 (turn 0 two_puts))))).
Definition collided : Machine := turn 0 (turn 1 (turn_clock 1 1 (turn 1 (turn 1 first_synced)))).
Lemma same_nanosecond_truncates_a_blob :
  rtc step Machine_init collided ∧ names (disk collided) !! path_for (from_bytes text) = Some 0%N ∧
  f_bytes <$> files (disk collided) !! 0%N = Some [] ∧ ¬ NoDup (created (disk collided)).
Proof.
  split; [|split; [vm_compute; reflexivity|split; [vm_compute; reflexivity|]]].
  - apply (rtc_l _ _ one_put); [by apply (step_start Machine_init 0%N (Put 7 text 10))|].
    apply (rtc_l _ _ two_puts); [by apply (step_start one_put 1%N (Put 7 text 10))|].
    unfold collided, first_synced. repeat first [apply rtc_refl | etrans; [|first [apply turn_step|apply turn_clock_step]]].
  - intros Hnd. apply (bool_decide_pack (NoDup _)) in Hnd. vm_compute in Hnd. exact Hnd.
Qed.

Lemma blob_integrity_witness :
  ∃ f, files stored !! 0%N = Some f ∧ f_synced f = true ∧ from_bytes (f_bytes f) = from_bytes text.
Proof.
  apply (blob_integrity (MkMachine {[0%N := Ret tt]} stored)); [exact stored_reachable|exact stored_names|exact text_hash_ok|].
  vm_compute. reflexivity.
Defined.
Lemma store_refines_map_witness :
  disk_ok (exec (delete_blob (from_bytes text)) stored).2 ∧
  blobs_set (from_bytes text) None stored (exec (delete_blob (from_bytes text)) stored).2.
Proof.
  destruct (store_refines_map stored stored_ok) as (_ & _ & _ & _ & Hdel & _).
  apply (Hdel (from_bytes text) (Ok tt)); [exact text_hash_ok|].
  exact (exec_runs (delete_blob (from_bytes text)) stored).
Defined.
Lemma put_get_witness :
  (exec (put 9 (str "other") 10) stored).1 = Ok (Some (from_bytes (str "other"))) ∧
  let d' := (exec (put 9 (str "other") 10) stored).2 in
  exec (get (from_bytes (str "other"))) d' = (Ok (str "other"), d').
Proof.
  destruct (put_get stored 9 (str "other") 10 stored_ok stored_names) as (Hput & Hget & _).
  - intros Hin. vm_compute in Hin. by repeat (apply elem_of_cons in Hin as [Hin|Hin]; [discriminate Hin|]); apply elem_of_nil in Hin.
  - vm_compute. reflexivity.
  - cbn. lia.
  - intros b' Hb'. vm_compute in Hb'. discriminate.
  - split; [exact Hput|exact Hget].
Defined.
Lemma gc_exact_witness :
  exec (gc_run (MkRetentionPolicy None (Some 4%N))) stored =
    (Ok (MkGcReport 1 1 5 0), unlink (path_for (from_bytes text)) stored) ∧
  ∃ expired young gone kept, blobs stored ≡ₚ expired ++ young ∧
    capped (MkRetentionPolicy None (Some 4%N)) young gone kept.
Proof.
  split; [vm_compute; reflexivity|].
  destruct (gc_exact (MkRetentionPolicy None (Some 4%N)) stored stored_ok)
    as (_ & expired & young & gone & kept & d' & Hl & _ & _ & Hcap & _).
  - vm_compute. reflexivity.
  - vm_compute. reflexivity.
  - by exists expired, young, gone, kept.
Defined.
End BlobScenario.
