(* ===== verification/WorkObserve.v ===== *)
(** The observers of a git worktree and of pull requests ([airc-work/src/local_git.rs],
    [pull_requests/mod.rs]): a snapshot, and the events between two snapshots. *)
From stdpp Require Import base gmap strings list sorting numbers.
From Stdlib Require Import Lia.
From S2P Require Import Prelude.
From S2P Require Import WorkModel.
From S2P Require Import WorkBoard.
From S2P Require Import WorkBoardThms.

#[export] Instance DirtyState_eq_dec : EqDecision DirtyState.
Proof. solve_decision. Defined.
#[export] Instance PrCheckState_eq_dec : EqDecision PrCheckState.
Proof. solve_decision. Defined.
#[export] Instance PrReviewState_eq_dec : EqDecision PrReviewState.
Proof. solve_decision. Defined.
#[export] Instance PrMergeState_eq_dec : EqDecision PrMergeState.
Proof. solve_decision. Defined.

(** ** local_git.rs *)
Record LocalGitWorkspace := MkLocalGitWorkspace { lw_repo : RepoId; lw_workspace_id : option WorkspaceId; lw_path : rstring }.
Record LocalGitSnapshot := MkLocalGitSnapshot {
  lg_branch : BranchName; lg_head : GitObjectId; lg_summary : option rstring;
  lg_dirty_state : DirtyState; lg_dirty_paths : N; lg_untracked_paths : N }.
Inductive LocalGitError :=
| GitSpawn (message : rstring) | GitCommand (message : rstring)
| LocalBranchName (e : BranchNameError) | LocalGitObjectId (e : GitObjectIdError).
Definition parse_branch (value : rstring) : result LocalGitError BranchName :=
  match BranchName_new value with Ok b => Ok b | Err e => Err (LocalBranchName e) end.
Definition optional_summary (value : rstring) : option rstring := match value with [] => None | _ => Some value end.
(** [str::lines]: at line feeds, a carriage return before one dropped, no empty last line. *)
Definition chomp (line : rstring) : rstring := match line with 13%N :: line => reverse line | _ => reverse line end.
Fixpoint split_lines (line s : rstring) : list rstring :=
  match s with
  | [] => match line with [] => [] | _ => [reverse line] end
  | c :: s => if (c =? 10)%N then chomp line :: split_lines [] s else split_lines (c :: line) s
  end.
Definition untracked (line : rstring) : bool := match line with 63%N :: 63%N :: _ => true | _ => false end.
Definition parse_status_porcelain (value : rstring) : DirtyState * N * N :=
  let lines := filter (λ line, trim line ≠ []) (split_lines [] value) in
  let untracked_paths := N.of_nat (length (filter (λ l, untracked l = true) lines)) in
  let dirty_paths := N.of_nat (length (filter (λ l, untracked l = false) lines)) in
  (if (dirty_paths =? 0)%N && (untracked_paths =? 0)%N then Clean else Dirty, dirty_paths, untracked_paths).
(** What a git command prints in a repository, the [GitCommandRunner]. *)
Class GitCommandRunner := { run_git : rstring → list rstring → result LocalGitError rstring }.
Definition observe `{!GitCommandRunner} (workspace : LocalGitWorkspace) : result LocalGitError LocalGitSnapshot :=
  branch ← run_git (lw_path workspace) [str "rev-parse"; str "--abbrev-ref"; str "HEAD"];
  branch ← parse_branch branch;
  head ← run_git (lw_path workspace) [str "rev-parse"; str "HEAD"];
  head ← match GitObjectId_new head with Ok h => Ok h | Err e => Err (LocalGitObjectId e) end;
  summary ← run_git (lw_path workspace) [str "log"; str "-1"; str "--pretty=%s"];
  status ← run_git (lw_path workspace) [str "status"; str "--porcelain=v1"];
  let '(dirty_state, dirty_paths, untracked_paths) := parse_status_porcelain status in
  Ok (MkLocalGitSnapshot branch head (optional_summary summary) dirty_state dirty_paths untracked_paths).
Definition dirty_changed (previous current : LocalGitSnapshot) : bool :=
  bool_decide (lg_dirty_state previous ≠ lg_dirty_state current)
  || negb (lg_dirty_paths previous =? lg_dirty_paths current)%N
  || negb (lg_untracked_paths previous =? lg_untracked_paths current)%N.
Definition local_git_events_since (workspace : LocalGitWorkspace) (previous : option LocalGitSnapshot)
    (current : LocalGitSnapshot) (observed_by : PeerId) (observed_at_ms : N) : list WorkEvent :=
  (if is_none_or previous (λ p, bool_decide (lg_head p ≠ lg_head current))
   then [EvGitCommitObserved (MkGitCommitObserved (lw_repo workspace) (lg_head current) (Some (lg_branch current))
           (lg_summary current) observed_by observed_at_ms)] else []) ++
  (if is_none_or previous (λ p, bool_decide (lg_branch p ≠ lg_branch current) || bool_decide (lg_head p ≠ lg_head current))
   then [EvGitBranchMoved (MkGitBranchMoved (lw_repo workspace) (lg_branch current) (lg_head <$> previous)
           (lg_head current) observed_by observed_at_ms)] else []) ++
  (if is_none_or previous (λ p, dirty_changed p current)
   then [EvGitDirtyStateChanged (MkGitDirtyStateChanged (lw_repo workspace) (lw_workspace_id workspace) (lw_path workspace)
           (lg_dirty_state current) (lg_dirty_paths current) (lg_untracked_paths current) observed_by observed_at_ms)] else []).

(** ** pull_requests/mod.rs *)
Record PullRequestSnapshot := MkPullRequestSnapshot {
  ps_pull_request : PullRequestRef; ps_check_state : PrCheckState; ps_merge_state : PrMergeState;
  ps_reviews : gmap PeerId PrReviewState }.
Record RepoPullRequestSnapshot := MkRepoPullRequestSnapshot { rs_repo : RepoId; rs_pulls : gmap N PullRequestSnapshot }.
Inductive PullRequestSourceError := PrSource (message : rstring).
Class PullRequestSource := { pr_snapshot : RepoId → result PullRequestSourceError RepoPullRequestSnapshot }.
(** The in-memory source of the tests. *)
Definition InMemoryPullRequestSource := gmap RepoId RepoPullRequestSnapshot.
Definition set_snapshot (snapshot : RepoPullRequestSnapshot) (self : InMemoryPullRequestSource) : InMemoryPullRequestSource :=
  <[rs_repo snapshot := snapshot]> self.
Definition in_memory_snapshot (self : InMemoryPullRequestSource) (repo : RepoId) :
    result PullRequestSourceError RepoPullRequestSnapshot :=
  match self !! repo with Some s => Ok s | None => Ok (MkRepoPullRequestSnapshot repo ∅) end.
Definition in_memory_source (self : InMemoryPullRequestSource) : PullRequestSource :=
  {| pr_snapshot := in_memory_snapshot self |}.
Definition observe_pulls `{!PullRequestSource} (repo : RepoId) := pr_snapshot repo.
Definition by_text : relation (PeerId * PrReviewState) := λ a b, key_le (show_id a.1) (show_id b.1).
#[export] Instance by_text_dec : RelDecision by_text := λ a b, key_le_dec (show_id a.1) (show_id b.1).
Definition review_events (previous_pr : option PullRequestSnapshot) (current_pr : PullRequestSnapshot) (observed_at_ms : N)
    (review : PeerId * PrReviewState) : list WorkEvent :=
  if bool_decide (previous_pr ≫= (λ p, ps_reviews p !! review.1) ≠ Some review.2)
  then [EvPullRequestReviewSubmitted (MkPullRequestReviewSubmitted (ps_pull_request current_pr) review.1 review.2 observed_at_ms)]
  else [].
Definition pr_events (previous_pr : option PullRequestSnapshot) (current_pr : PullRequestSnapshot) (observed_by : PeerId)
    (observed_at_ms : N) : list WorkEvent :=
  (if is_none_or previous_pr (λ p, bool_decide (ps_check_state p ≠ ps_check_state current_pr))
   then [EvPullRequestCheckSuiteChanged (MkPullRequestCheckSuiteChanged (ps_pull_request current_pr)
           (ps_check_state current_pr) observed_by observed_at_ms)] else []) ++
  (if is_none_or previous_pr (λ p, bool_decide (ps_merge_state p ≠ ps_merge_state current_pr))
   then [EvPullRequestMergeStateChanged (MkPullRequestMergeStateChanged (ps_pull_request current_pr)
           (ps_merge_state current_pr) observed_by observed_at_ms)] else []) ++
  (sort_by by_text (map_to_list (ps_reviews current_pr)) ≫= review_events previous_pr current_pr observed_at_ms).
Definition pull_request_events_since (previous : option RepoPullRequestSnapshot) (current : RepoPullRequestSnapshot)
    (observed_by : PeerId) (observed_at_ms : N) : list WorkEvent :=
  let prev_pulls := match previous with Some p => rs_pulls p | None => ∅ end in
  bt_entries (rs_pulls current) ≫= λ entry, pr_events (prev_pulls !! entry.1) entry.2 observed_by observed_at_ms.

(** ** pull_requests/gh.rs *)
(** What the GitHub command line prints, and [serde_json] makes of it. *)
Class GhCommandRunner := { run_gh : list rstring → result rstring rstring }.
Record GhCheckRow := MkGhCheckRow { gc_status : option rstring; gc_conclusion : option rstring; gc_state : option rstring }.
Record GhPullRequestRow := MkGhPullRequestRow {
  gr_number : N; gr_head_ref_name : rstring; gr_base_ref_name : rstring; gr_state : rstring; gr_is_draft : bool;
  gr_merge_state_status : option rstring; gr_status_check_rollup : list GhCheckRow }.
Class GhJson := { rows_of_json : rstring → result rstring (list GhPullRequestRow) }.
Definition GH_JSON_FIELDS : rstring :=
  str "number,headRefName,baseRefName,state,isDraft,mergeStateStatus,statusCheckRollup".
Definition is_one_of (s : option rstring) (names : list rstring) : bool :=
  is_some_and s (λ s, bool_decide (s ∈ names)).
Definition derive_merge_state (state : rstring) (is_draft : bool) (merge_state_status : option rstring) : PrMergeState :=
  if bool_decide (state = str "MERGED") then MergeMerged
  else if bool_decide (state = str "CLOSED") then MergeClosed
  else if bool_decide (state = str "OPEN") then
    if is_draft then MergeDraft
    else if is_one_of merge_state_status [str "CLEAN"; str "HAS_HOOKS"] then MergeReady else MergeOpen
  else MergeOpen.
(** The four flags of the loop over the checks. *)
Record CheckFlags := MkCheckFlags { any_running : bool; any_failed : bool; any_cancelled : bool; all_skipped : bool }.
Definition fold_check (fl : CheckFlags) (row : GhCheckRow) : CheckFlags :=
  let running := MkCheckFlags true (any_failed fl) (any_cancelled fl) false in
  let failed := MkCheckFlags (any_running fl) true (any_cancelled fl) false in
  let cancelled := MkCheckFlags (any_running fl) (any_failed fl) true false in
  let other := MkCheckFlags (any_running fl) (any_failed fl) (any_cancelled fl) false in
  if is_one_of (gc_status row) [str "QUEUED"; str "IN_PROGRESS"] then running
  else if is_one_of (gc_status row) [str "COMPLETED"] then
    if is_one_of (gc_conclusion row) [str "FAILURE"; str "TIMED_OUT"; str "STARTUP_FAILURE"; str "ACTION_REQUIRED"] then failed
    else if is_one_of (gc_conclusion row) [str "CANCELLED"] then cancelled
    else if is_one_of (gc_conclusion row) [str "SKIPPED"] then fl
    else other
  else if is_one_of (gc_state row) [str "PENDING"] then running
  else if is_one_of (gc_state row) [str "FAILURE"; str "ERROR"] then failed
  else other.
Definition derive_check_state (rollup : list GhCheckRow) : PrCheckState :=
  match rollup with
  | [] => CheckQueued
  | _ =>
      let fl := foldl fold_check (MkCheckFlags false false false true) rollup in
      if any_running fl then CheckRunning else if any_failed fl then CheckFailed
      else if any_cancelled fl then CheckCancelled else if all_skipped fl then CheckSkipped else CheckPassed
  end.
Definition branch_error_text (e : BranchNameError) : rstring :=
  match e with
  | BranchEmpty => str "branch name cannot be empty"
  | BranchContainsWhitespace => str "branch name cannot contain whitespace"
  end.
Definition branch_or (what : rstring) (name : rstring) : result PullRequestSourceError BranchName :=
  match BranchName_new name with Ok b => Ok b | Err e => Err (PrSource (what ++ str ": " ++ branch_error_text e)) end.
Definition into_snapshot (repo : RepoId) (self : GhPullRequestRow) : result PullRequestSourceError PullRequestSnapshot :=
  head ← branch_or (str "head ref") (gr_head_ref_name self);
  base ← branch_or (str "base ref") (gr_base_ref_name self);
  Ok (MkPullRequestSnapshot (MkPullRequestRef repo (gr_number self) head base)
        (derive_check_state (gr_status_check_rollup self))
        (derive_merge_state (gr_state self) (gr_is_draft self) (gr_merge_state_status self)) ∅).
Fixpoint pulls_of (repo : RepoId) (rows : list GhPullRequestRow) (pulls : gmap N PullRequestSnapshot)
    : result PullRequestSourceError (gmap N PullRequestSnapshot) :=
  match rows with
  | [] => Ok pulls
  | row :: rows =>
      snapshot ← into_snapshot repo row;
      pulls_of repo rows (<[pr_number (ps_pull_request snapshot) := snapshot]> pulls)
  end.
Definition gh_snapshot `{!GhCommandRunner, !GhJson} (repo : RepoId) : result PullRequestSourceError RepoPullRequestSnapshot :=
  match run_gh [str "pr"; str "list"; str "--repo"; repo_str repo; str "--state"; str "all"; str "--json"; GH_JSON_FIELDS] with
  | Err error => Err (PrSource error)
  | Ok stdout =>
      match rows_of_json stdout with
      | Err error => Err (PrSource (str "gh json: " ++ error))
      | Ok rows => pulls ← pulls_of repo rows ∅; Ok (MkRepoPullRequestSnapshot repo pulls)
      end
  end.
(** [GhPullRequestSource]. *)
Definition gh_source `{!GhCommandRunner, !GhJson} : PullRequestSource := {| pr_snapshot := gh_snapshot |}.

(** ** The board follows the snapshots *)
Definition key_of (p : PullRequestRef) : rstring := pull_request_key (pr_repo p) (pr_number p).
(** A snapshot lists the pull requests of its repository by their numbers. *)
Definition snapshot_wf (s : RepoPullRequestSnapshot) : Prop := ∀ n p, rs_pulls s !! n = Some p →
  pr_repo (ps_pull_request p) = rs_repo s ∧ pr_number (ps_pull_request p) = n.
Definition record_shows (p : PullRequestSnapshot) (r : option PullRequestRecord) : Prop :=
  ∃ rec, r = Some rec ∧ pq_check_state rec = Some (ps_check_state p) ∧ pq_merge_state rec = Some (ps_merge_state p).
Definition pulls_shown (b : Board) (s : RepoPullRequestSnapshot) : Prop := ∀ n p, rs_pulls s !! n = Some p →
  record_shows p (pull_request_of b (rs_repo s) n).
Definition tracking_shows (w : LocalGitWorkspace) (s : LocalGitSnapshot) (t : RepoTrackingRecord) : Prop :=
  bt_head <$> rt_branches t !! lg_branch s = Some (lg_head s) ∧
  ∃ e, last (filter (λ e, gds_path e = lw_path w) (rt_dirty_states t)) = Some e ∧
    gds_state e = lg_dirty_state s ∧ gds_dirty_paths e = lg_dirty_paths s ∧ gds_untracked_paths e = lg_untracked_paths s.
Definition git_shown (b : Board) (w : LocalGitWorkspace) (s : LocalGitSnapshot) : Prop :=
  ∃ t, repo_tracking b !! lw_repo w = Some t ∧ tracking_shows w s t.

(** ** What the GitHub source makes of its rows *)
Definition no_checks : CheckFlags := MkCheckFlags false false false true.
Definition join_flags (a b : CheckFlags) : CheckFlags :=
  MkCheckFlags (any_running a || any_running b) (any_failed a || any_failed b) (any_cancelled a || any_cancelled b)
    (all_skipped a && all_skipped b).
Lemma fold_check_join fl row : fold_check fl row = join_flags fl (fold_check no_checks row).
Proof. destruct fl. unfold fold_check, join_flags. repeat case_match; cbn; by rewrite ?orb_true_r, ?orb_false_r, ?andb_true_r, ?andb_false_r. Qed.
Lemma flags_of_rows rows fl : foldl fold_check fl rows = join_flags fl (MkCheckFlags
  (existsb (any_running ∘ fold_check no_checks) rows) (existsb (any_failed ∘ fold_check no_checks) rows)
  (existsb (any_cancelled ∘ fold_check no_checks) rows) (forallb (all_skipped ∘ fold_check no_checks) rows)).
Proof.
  revert fl. induction rows as [|row rows IH]; intros fl; cbn [foldl existsb forallb].
  - destruct fl. unfold join_flags. cbn. by rewrite !orb_false_r, andb_true_r.
  - rewrite IH, fold_check_join. unfold join_flags, compose. cbn [any_running any_failed any_cancelled all_skipped].
    by rewrite !orb_assoc, andb_assoc.
Qed.
(** A running check comes first, then a failed one, then a cancelled one; the order of the rows does not matter. *)
Lemma check_state_exact row rows :
  let some (flag : CheckFlags → bool) := existsb (flag ∘ fold_check no_checks) (row :: rows) in
  derive_check_state (row :: rows) =
    if some any_running then CheckRunning else if some any_failed then CheckFailed
    else if some any_cancelled then CheckCancelled
    else if forallb (all_skipped ∘ fold_check no_checks) (row :: rows) then CheckSkipped else CheckPassed.
Proof. intros some. unfold derive_check_state. fold no_checks. rewrite flags_of_rows. reflexivity. Qed.
(** A status the code does not list, [WAITING] for instance, counts as a check that passed. *)
Lemma waiting_check_passes : derive_check_state [MkGhCheckRow (Some (str "WAITING")) None None] = CheckPassed.
Proof. vm_compute. reflexivity. Qed.

Lemma pulls_of_wf repo rows pulls pulls' : pulls_of repo rows pulls = Ok pulls' →
  snapshot_wf (MkRepoPullRequestSnapshot repo pulls) → snapshot_wf (MkRepoPullRequestSnapshot repo pulls').
Proof.
  revert pulls. induction rows as [|row rows IH]; cbn; intros pulls; [by intros [= <-]|].
  unfold mbind, result_bind. destruct (into_snapshot repo row) as [s|] eqn:Hs; [|done]. intros H Hwf. apply (IH _ H).
  assert (pr_repo (ps_pull_request s) = repo) as Hr.
  { unfold into_snapshot, mbind, result_bind in Hs. destruct (branch_or _ _); [|done]. destruct (branch_or _ _); [|done].
    by injection Hs as <-. }
  intros n p. cbn. intros [[<- <-]|[_ Hp]]%lookup_insert_Some; [done|by apply Hwf].
Qed.
Lemma gh_snapshot_wf `{!GhCommandRunner, !GhJson} repo s : gh_snapshot repo = Ok s → snapshot_wf s ∧ rs_repo s = repo.
Proof.
  unfold gh_snapshot. destruct (run_gh _) as [out|]; [|done]. destruct (rows_of_json out) as [rows|]; [|done].
  unfold mbind, result_bind. destruct (pulls_of repo rows ∅) as [pulls|] eqn:Hp; [|done]. intros [= <-]. split; [|done].
  apply (pulls_of_wf _ _ _ _ Hp). intros n p. cbn. by rewrite lookup_empty.
Qed.

Lemma bind_nil {A B} (f : A → list B) l : (∀ x, x ∈ l → f x = []) → l ≫= f = [].
Proof.
  induction l as [|x l IH]; intros H; [done|]. cbn. rewrite (H x) by left. apply IH. intros; apply H; by right.
Qed.
Section follow.
Context {ENV : WorkEnv}.
(** What one event makes of the record of its pull request. *)
Definition pr_upd (ev : WorkEvent) (r : option PullRequestRecord) : option PullRequestRecord :=
  Some match ev with
  | EvPullRequestCheckSuiteChanged e => match r with Some r => apply_check e r | None => from_check e end
  | EvPullRequestMergeStateChanged e => match r with Some r => apply_merge e r | None => from_merge e end
  | EvPullRequestReviewSubmitted e => match r with Some r => apply_review e r | None => from_review e end
  | _ => default (MkPullRequestRecord (MkPullRequestRef (MkRepoId []) 0 (MkBranchName []) (MkBranchName [])) None None None 0) r
  end.
Definition about_pull (k : rstring) (ev : WorkEvent) : Prop :=
  match ev with
  | EvPullRequestCheckSuiteChanged e => key_of (pc_pull_request e) = k
  | EvPullRequestMergeStateChanged e => key_of (pm_pull_request e) = k
  | EvPullRequestReviewSubmitted e => key_of (pv_pull_request e) = k
  | _ => False
  end.
Lemma apply_about k ev b : about_pull k ev → ∃ b', apply ev b = (Ok tt, b') ∧ cards b' = cards b ∧
  pull_requests b' !! k = pr_upd ev (pull_requests b !! k) ∧ ∀ k', k' ≠ k → pull_requests b' !! k' = pull_requests b !! k'.
Proof.
  destruct ev; try done; intros <-; eexists; (split; [done|]); split; try done; cbn;
    (split; [by rewrite lookup_insert_eq|intros k' Hk; by rewrite lookup_insert_ne]).
Qed.
Lemma run_about k evs : Forall (about_pull k) evs → ∀ b, ∃ b', st_iter apply evs b = (Ok tt, b') ∧ cards b' = cards b ∧
  pull_requests b' !! k = foldl (λ r ev, pr_upd ev r) (pull_requests b !! k) evs ∧
  ∀ k', k' ≠ k → pull_requests b' !! k' = pull_requests b !! k'.
Proof.
  induction 1 as [|ev evs Hev _ IH]; intros b; [by exists b|]. cbn. unfold mbind, st_bind.
  destruct (apply_about k ev b Hev) as (b1 & -> & Hc1 & Hk1 & Ho1). destruct (IH b1) as (b' & -> & Hc & Hk & Ho).
  exists b'. rewrite <- Hk1. split_and!; [done|congruence|done|]. intros k' Hne. by rewrite Ho, Ho1.
Qed.
Lemma pr_events_about prev p by_ at_ : Forall (about_pull (key_of (ps_pull_request p))) (pr_events prev p by_ at_).
Proof.
  unfold pr_events. rewrite !Forall_app. split_and!; try (case_match; repeat constructor).
  apply Forall_bind, Forall_true. intros r. unfold compose, review_events. case_match; repeat constructor.
Qed.
Lemma reviews_keep p evs r : Forall (λ ev, match ev with EvPullRequestReviewSubmitted _ => True | _ => False end) evs →
  record_shows p r → record_shows p (foldl (λ r ev, pr_upd ev r) r evs).
Proof.
  intros H. revert r. induction H as [|ev evs Hev _ IH]; intros r; [done|]. intros (rec & -> & Hc & Hm). cbn. apply IH.
  destruct ev; try done. by eexists.
Qed.
Lemma pr_events_show prev p by_ at_ r : (∀ q, prev = Some q → record_shows q r) →
  record_shows p (foldl (λ r ev, pr_upd ev r) r (pr_events prev p by_ at_)).
Proof.
  intros Hprev. unfold pr_events. rewrite app_assoc, foldl_app. apply reviews_keep.
  - apply Forall_bind, Forall_true. intros rv. unfold compose, review_events. case_match; repeat constructor.
  - rewrite foldl_app. destruct prev as [q|]; cbn [is_none_or].
    + destruct (Hprev q eq_refl) as (rec & -> & Hc & Hm).
      destruct (bool_decide_reflect (ps_check_state q ≠ ps_check_state p)) as [|E1%dec_stable];
        destruct (bool_decide_reflect (ps_merge_state q ≠ ps_merge_state p)) as [|E2%dec_stable]; eexists; repeat split; cbn; congruence.
    + destruct r as [rec|]; by eexists.
Qed.

Lemma entries_show (prev : gmap N PullRequestSnapshot) R by_ at_ l : NoDup l.*1 →
  (∀ n p, (n, p) ∈ l → pr_repo (ps_pull_request p) = R ∧ pr_number (ps_pull_request p) = n) →
  ∀ b, (∀ n q, n ∈ l.*1 → prev !! n = Some q → record_shows q (pull_request_of b R n)) →
  ∃ b', st_iter apply (l ≫= λ entry : N * PullRequestSnapshot, pr_events (prev !! entry.1) entry.2 by_ at_) b = (Ok tt, b') ∧
    cards b' = cards b ∧ (∀ n p, (n, p) ∈ l → record_shows p (pull_request_of b' R n)) ∧
    ∀ n, n ∉ l.*1 → pull_request_of b' R n = pull_request_of b R n.
Proof.
  induction l as [|[n p] l IH]; intros Hnd Hwf b Hprev.
  { exists b. split_and!; try done. by intros ?? ?%not_elem_of_nil. }
  cbn in Hnd. apply list.NoDup_cons in Hnd as [Hn Hnd]. destruct (Hwf n p ltac:(left)) as [HR Hnum].
  destruct (run_about _ _ (pr_events_about (prev !! n) p by_ at_) b) as (b1 & E1 & Hc1 & Hk1 & Ho1).
  assert (Hother : ∀ m, m ≠ n → pull_request_of b1 R m = pull_request_of b R m).
  { intros m Hm. apply Ho1. unfold key_of. rewrite HR, Hnum. by intros [_ ?]%pull_request_key_inj. }
  destruct (IH Hnd ltac:(intros; apply Hwf; by right) b1) as (b' & E & Hc & Hin & Hout).
  { intros m q Hm Hq. rewrite Hother by (by intros ->). apply Hprev; [by right|done]. }
  exists b'. cbn. rewrite st_iter_app. unfold mbind, st_bind. rewrite E1. split_and!; [done|congruence| |].
  - intros m q [[= -> ->]|Hm]%elem_of_cons; [|by apply Hin].
    rewrite Hout by done. unfold pull_request_of. unfold key_of in Hk1; rewrite HR, Hnum in Hk1. rewrite Hk1.
    apply pr_events_show. intros q Hq. apply Hprev; [left|done].
  - intros m [Hm ?]%not_elem_of_cons. by rewrite Hout, Hother.
Qed.
Lemma pr_events_same p by_ at_ : pr_events (Some p) p by_ at_ = [].
Proof.
  unfold pr_events. cbn. rewrite !bool_decide_eq_false_2 by (intros H; by apply H). cbn.
  apply bind_nil. intros [r st] Hin. rewrite sort_by_perm, elem_of_map_to_list in Hin.
  unfold review_events. cbn. rewrite Hin. by rewrite bool_decide_eq_false_2 by (intros H; by apply H).
Qed.
Lemma review_announced prev p by_ at_ reviewer st : ps_reviews p !! reviewer = Some st →
  EvPullRequestReviewSubmitted (MkPullRequestReviewSubmitted (ps_pull_request p) reviewer st at_) ∈ pr_events prev p by_ at_ ↔
  (prev ≫= λ q, ps_reviews q !! reviewer) ≠ Some st.
Proof.
  intros Hr. unfold pr_events. rewrite !elem_of_app, list_elem_of_bind. split.
  - intros [H|[H|(rv & Hrv & _)]].
    1,2: case_match; [by apply list_elem_of_singleton in H|by apply not_elem_of_nil in H].
    unfold review_events in Hrv. case_bool_decide as Hne; [|by apply not_elem_of_nil in Hrv].
    apply list_elem_of_singleton in Hrv as [= -> ->]. done.
  - intros Hne. right. right. exists (reviewer, st). rewrite sort_by_perm, elem_of_map_to_list. split; [|done].
    unfold review_events. rewrite bool_decide_eq_true_2 by done. by left.
Qed.

(** The same for a git worktree. *)
Definition git_upd (ev : WorkEvent) (r : RepoTrackingRecord) : RepoTrackingRecord :=
  match ev with
  | EvGitCommitObserved e =>
      let r1 := r <| rt_observed_commits := rt_observed_commits r ++ [e] |> in
      match gco_branch e with
      | Some branch => r1 <| rt_branches := <[branch := MkBranchTrackingRecord branch (gco_commit e) (gco_observed_at_ms e)]>
                                              (rt_branches r1) |>
      | None => r1
      end
  | EvGitBranchMoved e => r <| rt_branches := <[gbm_branch e := MkBranchTrackingRecord (gbm_branch e) (gbm_new_head e)
                                                                  (gbm_moved_at_ms e)]> (rt_branches r) |>
  | EvGitDirtyStateChanged e => r <| rt_dirty_states := rt_dirty_states r ++ [e] |>
  | _ => r
  end.
Definition of_repo (repo : RepoId) (ev : WorkEvent) : Prop :=
  match ev with
  | EvGitCommitObserved e => gco_repo e = repo
  | EvGitBranchMoved e => gbm_repo e = repo
  | EvGitDirtyStateChanged e => gds_repo e = repo
  | _ => False
  end.
Lemma run_git_events repo evs : Forall (of_repo repo) evs → ∀ b, ∃ b', st_iter apply evs b = (Ok tt, b') ∧ cards b' = cards b ∧
  (repo_tracking b' !! repo = repo_tracking b !! repo ∧ evs = [] ∨
   repo_tracking b' !! repo =
     Some (foldl (λ r ev, git_upd ev r) (default (RepoTrackingRecord_new repo) (repo_tracking b !! repo)) evs)).
Proof.
  induction 1 as [|ev evs Hev _ IH]; intros b; [exists b; auto|].
  assert (∃ b1, apply ev b = (Ok tt, b1) ∧ cards b1 = cards b ∧ repo_tracking b1 !! repo =
    Some (git_upd ev (default (RepoTrackingRecord_new repo) (repo_tracking b !! repo)))) as (b1 & E1 & Hc1 & H1).
  { destruct ev; try done; cbn in Hev; subst repo; eexists; (split; [done|]); split; try done; cbn;
      by rewrite lookup_insert_eq. }
  destruct (IH b1) as (b' & E & Hc & H'). exists b'. cbn. unfold mbind, st_bind. rewrite E1.
  split_and!; [done|congruence|right]. destruct H' as [[H' ->]|H']; rewrite H', H1; done.
Qed.

Lemma dirty_changed_false p s : dirty_changed p s = false →
  lg_dirty_state p = lg_dirty_state s ∧ lg_dirty_paths p = lg_dirty_paths s ∧ lg_untracked_paths p = lg_untracked_paths s.
Proof.
  unfold dirty_changed. intros H. apply orb_false_iff in H as [H H3]. apply orb_false_iff in H as [H1 H2].
  apply bool_decide_eq_false, dec_stable in H1. apply negb_false_iff, N.eqb_eq in H2, H3. done.
Qed.
Lemma worktree_shown w previous current by_ at_ t : (∀ p, previous = Some p → tracking_shows w p t) →
  tracking_shows w current (foldl (λ r ev, git_upd ev r) t (local_git_events_since w previous current by_ at_)).
Proof.
  intros Hprev. unfold local_git_events_since. rewrite !foldl_app.
  assert (∀ e l, gds_path e = lw_path w → last (filter (λ e, gds_path e = lw_path w) (l ++ [e])) = Some e) as Hlast.
  { intros e l He. rewrite list.filter_app, filter_cons_True, filter_nil by done. apply last_snoc. }
  destruct previous as [p|]; cbn [is_none_or].
  - destruct (Hprev p eq_refl) as (Hb & e & He & Hs1 & Hs2 & Hs3).
    destruct (bool_decide_reflect (lg_head p ≠ lg_head current)) as [E1|E1%dec_stable];
      destruct (bool_decide_reflect (lg_branch p ≠ lg_branch current)) as [E2|E2%dec_stable];
      destruct (dirty_changed p current) eqn:E3; cbn; unfold tracking_shows; cbn;
      rewrite ?lookup_insert_eq; cbn.
    all: split; [done || congruence|].
    all: try (eexists; split; [by apply Hlast|done]).
    all: apply dirty_changed_false in E3 as (?&?&?); exists e; split_and!; congruence.
  - cbn. unfold tracking_shows. cbn. rewrite lookup_insert_eq. split; [done|]. eexists. split; [by apply Hlast|done].
Qed.
Lemma git_events_of_repo w previous current by_ at_ :
  Forall (of_repo (lw_repo w)) (local_git_events_since w previous current by_ at_).
Proof. unfold local_git_events_since. rewrite !Forall_app. split_and!; case_match; repeat constructor. Qed.
(** The board follows the worktree observed, as it follows the pull requests below. *)
Lemma worktree_followed w previous current by_ at_ b : (∀ p, previous = Some p → git_shown b w p) →
  let events := local_git_events_since w previous current by_ at_ in
  (∃ b', st_iter apply events b = (Ok tt, b') ∧ cards b' = cards b ∧ git_shown b' w current) ∧
  (previous = Some current → events = []).
Proof.
  intros Hprev events. split.
  - destruct (run_git_events _ events (git_events_of_repo w previous current by_ at_) b) as (b' & E & Hc & H'). exists b'. split_and!; [done..|].
    destruct H' as [[H' Hnil]|H'].
    + destruct previous as [p|]; [|done]. destruct (Hprev p eq_refl) as (t & Ht & Hp). exists t. split; [congruence|].
      assert (tracking_shows w current (foldl (λ r ev, git_upd ev r) t events)) as Hs
        by (apply worktree_shown; by intros ? [= <-]). by rewrite Hnil in Hs.
    + eexists. split; [done|]. apply worktree_shown. intros p ->. destruct (Hprev p eq_refl) as (t & -> & Hp). done.
  - intros ->. unfold events, local_git_events_since, dirty_changed. cbn.
    by rewrite !bool_decide_eq_false_2, !N.eqb_refl by (intros H; by apply H).
Qed.

(** The board follows the pull requests observed: the events between the two snapshots
    apply, touch no card, and leave a board that shows the current one. *)
Lemma pulls_followed previous current by_ at_ b : snapshot_wf current →
  (∀ p, previous = Some p → snapshot_wf p ∧ rs_repo p = rs_repo current ∧ pulls_shown b p) →
  let events := pull_request_events_since previous current by_ at_ in
  (∃ b', st_iter apply events b = (Ok tt, b') ∧ cards b' = cards b ∧ pulls_shown b' current) ∧
  (previous = Some current → events = []).
Proof.
  intros Hwf Hprev events. set (prev := match previous with Some p => rs_pulls p | None => ∅ end). split.
  - destruct (entries_show prev (rs_repo current) by_ at_ (bt_entries (rs_pulls current)) (bt_keys_NoDup _)) with (b := b)
      as (b' & E & Hc & Hin & _).
    + intros n p Hin%elem_of_bt_entries. by apply Hwf.
    + intros n q _ Hq. unfold prev in Hq. destruct previous as [s|]; [|by rewrite lookup_empty in Hq].
      destruct (Hprev s eq_refl) as (_ & <- & Hs). by apply Hs.
    + exists b'. split_and!; [done..|]. intros n p Hp. by apply Hin, elem_of_bt_entries.
  - intros ->. apply bind_nil. intros [n p] Hin%elem_of_bt_entries. cbn. rewrite Hin. apply pr_events_same.
Qed.
(** A review is announced just for each reviewer whose state is new. *)
Lemma reviews_announced previous current by_ at_ n p reviewer st :
  snapshot_wf current → rs_pulls current !! n = Some p → ps_reviews p !! reviewer = Some st →
  EvPullRequestReviewSubmitted (MkPullRequestReviewSubmitted (ps_pull_request p) reviewer st at_)
    ∈ pull_request_events_since previous current by_ at_ ↔
  (previous ≫= λ s, rs_pulls s !! n ≫= λ q, ps_reviews q !! reviewer) ≠ Some st.
Proof.
  intros Hwf Hp Hr. unfold pull_request_events_since.
  set (prev := match previous with Some p => rs_pulls p | None => ∅ end). rewrite list_elem_of_bind.
  transitivity ((prev !! n ≫= λ q, ps_reviews q !! reviewer) ≠ Some st).
  2: { subst prev. destruct previous; [done|by rewrite lookup_empty]. }
  rewrite <- (review_announced (prev !! n) p by_ at_ reviewer st Hr). split.
  - intros ([n' p'] & Hin & Hn'%elem_of_bt_entries). cbn in Hin.
    destruct (Hwf n p Hp) as [HR Hnum]. destruct (Hwf n' p' Hn') as [HR' Hnum'].
    pose proof (proj1 (list.Forall_forall _ _) (pr_events_about (prev !! n') p' by_ at_) _ Hin) as Hk. cbn in Hk.
    unfold key_of in Hk. rewrite HR, HR', Hnum, Hnum' in Hk. apply pull_request_key_inj in Hk as [_ <-]. by simplify_eq.
  - intros H. exists (n, p). split; [done|by apply elem_of_bt_entries].
Qed.
End follow.

(** The status of the test of the source: two dirty paths, one untracked. *)
Example status_counted : parse_status_porcelain
  (str " M a.rs" ++ [10%N] ++ str "?? docs/new.md" ++ [10%N] ++ str "A  src/lib.rs" ++ [10%N]) = (Dirty, 2%N, 1%N).
Proof. vm_compute. reflexivity. Qed.
