(* ===== verification/WorkStore.v ===== *)
(** How a client reads a room's work board: [airc-work-store/src/lib.rs],
    [airc-lib/src/work_board_cache.rs] and the reads of [airc-lib/src/work.rs].

    A read is the sequence of calls its function makes ([Prog]).  Below it, the world the
    calls act on: the log of each room, the snapshots in the scope's home, the clock. *)
From stdpp Require Import base gmap strings list sorting numbers.
From Stdlib Require Import Lia.
From S2P Require Import Prelude.
From S2P Require Import WorkModel.
From S2P Require Import WorkObserve.
From S2P Require Import WorkBoard.
From S2P Require Import CoreTranscript.
From S2P Require Import WorkCodec.

Record Room := MkRoom {
  rm_version : N; rm_name : rstring; rm_wire : rstring; rm_channel : RoomId; rm_joined_at_ms : N }.

Section store.
Context {J : JsonValue} {S : Serde} {ENV : WorkEnv}.

(** ** airc-work-store *)
Inductive WorkStoreError := WsReplay (e : WorkReplayError) | WsProjection (e : ProjectionError).
Record WorkEventPage := MkWorkEventPage { wep_events : list WorkEvent; wep_newest_cursor : option TranscriptCursor }.
Fixpoint decode_events (transcripts : list TranscriptEvent) : result WorkStoreError (list WorkEvent) :=
  match transcripts with
  | [] => Ok []
  | transcript :: transcripts =>
      if negb (transcript_is_work_event transcript) then decode_events transcripts
      else match decode_transcript_work_event transcript with
           | Ok item => rest ← decode_events transcripts; Ok (ri_event item :: rest)
           | Err (RejectedSubmissionErr _ _ | RejectedReview _ _) => decode_events transcripts
           | Err error => Err (WsReplay error)
           end
  end.
Definition decode_page (transcripts : list TranscriptEvent) : result WorkStoreError WorkEventPage :=
  events ← decode_events transcripts;
  Ok (MkWorkEventPage events (te_cursor <$> last transcripts)).
Definition apply_transcripts (transcripts : list TranscriptEvent) : ST Board WorkStoreError (option TranscriptCursor) :=
  λ projection,
    match decode_page transcripts with
    | Err e => (Err e, projection)
    | Ok page =>
        match st_iter apply_windowed (wep_events page) projection with
        | (Ok _, projection) => (Ok (wep_newest_cursor page), projection)
        | (Err e, projection) => (Err (WsProjection e), projection)
        end
    end.
Definition project_transcripts (transcripts : list TranscriptEvent) : result WorkStoreError Board :=
  match apply_transcripts transcripts Board_new with
  | (Ok _, projection) => Ok projection
  | (Err e, _) => Err e
  end.

(** ** work_board_cache.rs *)
Definition WORK_BOARD_CACHE_FORMAT_VERSION : N := 6.
Definition zero_transcript_cursor : TranscriptCursor := MkTranscriptCursor 0 (MkId 0).
Definition cursor_strictly_before (left right : TranscriptCursor) : bool :=
  (cur_lamport left <? cur_lamport right)%N
  || (cur_lamport left =? cur_lamport right)%N && (uuid (cur_event_id left) <? uuid (cur_event_id right))%N.
Inductive WorkBoardCacheSource := FromDaemon | FromStore.
#[export] Instance WorkBoardCacheSource_eq : EqDecision WorkBoardCacheSource.
Proof. solve_decision. Defined.
#[export] Instance WorkBoardCacheSource_countable : Countable WorkBoardCacheSource.
Proof.
  apply (inj_countable' (λ s, match s with FromDaemon => true | FromStore => false end)
    (λ b : bool, if b then FromDaemon else FromStore)). by intros [].
Defined.
Record ProjectionCache := MkProjectionCache {
  pc_version : N;
  pc_channel : RoomId;
  pc_source : WorkBoardCacheSource;
  pc_cursor : TranscriptCursor;
  pc_projection : Board;
}.
(** The file of a snapshot: none, one that does not parse, or one that does. *)
Inductive SnapshotFile := Missing | Unreadable | Snapshot (cache : ProjectionCache).
Definition accept_snapshot (file : SnapshotFile) (channel : RoomId) (source : WorkBoardCacheSource)
    : option ProjectionCache :=
  match file with
  | Missing | Unreadable => None
  | Snapshot cache =>
      if negb (pc_version cache =? WORK_BOARD_CACHE_FORMAT_VERSION)%N then None
      else if bool_decide (pc_channel cache ≠ channel) then None
      else if bool_decide (pc_source cache ≠ source) then None
      else Some cache
  end.

(** ** Calls *)
Inductive AircError :=
| AircText (message : rstring)                          (* a transport, store or clock error *)
| WorkStoreFailed (e : WorkStoreError)
| LocalGitFailed (e : LocalGitError)
| PullRequestSourceFailed (e : PullRequestSourceError)
| EncodeFailed (e : WorkEventCodecError)
| WorkCardNotInCurrentRoom (card_id : WorkCardId) (room : Room)
| WorkCardNotClaimable (card_id : WorkCardId) (state : CardState)
| WorkClaimNotCurrent (card_id : WorkCardId) (claim_id : ClaimId)
| WorkCardRelinkTerminalState (card_id : WorkCardId) (state : CardState)
| WorkCardHasNoLinkedPullRequest (card_id : WorkCardId)
| WorkCardRelinkSamePullRequest (card_id : WorkCardId) (repo : RepoId) (number : N)
| SubmissionRejectedFor (reason : SubmissionRejectionReason)
| ReviewRejectedFor (reason : WorkReviewRejectionReason)
| ProjectionFailed (e : ProjectionError)
| OutOfFuel.                                            (* the loop over pages did not end *)
(** Which log, read how: a scope reads and writes all rooms through one source. *)
Definition Key : Type := WorkBoardCacheSource * RoomId.
(** An answer of the daemon: each envelope as [decode_wire_event] finds it. *)
Record InboxResponse := MkInboxResponse {
  in_envelopes : list (result rstring TranscriptEvent);
  in_newest : option TranscriptCursor;
  in_has_more : bool;
}.
Inductive Act : Type → Type :=
| CurrentRoom : Act (result rstring Room)
| ResumeFrom (k : Key) (cursor : TranscriptCursor) (limit : nat) : Act (result rstring (list TranscriptEvent))
| Inbox (k : Key) (since : TranscriptCursor) (limit : nat) : Act (result rstring InboxResponse)
| LatestCursor (k : Key) : Act (result rstring (option TranscriptCursor))
| ReadSnapshot (k : Key) : Act SnapshotFile
| SaveSnapshot (k : Key) (cache : ProjectionCache) : Act unit
| NowMs : Act (result rstring N)
| NewUuid : Act N
| SendFrame (k : Key) (headers : Headers) (body : Body) : Act (result rstring EventId).
Notation Prog := (Prelude.Prog Act).
Notation IO := (IO_of Act AircError).
Definition run {A} (a : Act A) : IO A := Vis a (λ x, Ret (Ok x)).
Definition call {A} (a : Act (result rstring A)) : IO A :=
  Vis a (λ r, match r with Ok x => Ret (Ok x) | Err e => io_throw (AircText e) end).
Definition lift {E A} (f : E → AircError) (r : result E A) : IO A :=
  Ret (match r with Ok a => Ok a | Err e => Err (f e) end).

(** ** work.rs and daemon.rs: reading a room *)
Fixpoint resume_pages (k : Key) (page_size fuel : nat) (cursor : TranscriptCursor) (all : list TranscriptEvent)
    : IO (list TranscriptEvent) :=
  match fuel with
  | O => io_throw OutOfFuel
  | Datatypes.S fuel =>
      page ← call (ResumeFrom k cursor page_size);
      match last page with
      | None => mret all
      | Some newest =>
          if (length page <? page_size)%nat then mret (all ++ page)
          else resume_pages k page_size fuel (te_cursor newest) (all ++ page)
      end
  end.
Fixpoint decode_envelopes (envelopes : list (result rstring TranscriptEvent)) : result rstring (list TranscriptEvent) :=
  match envelopes with
  | [] => Ok []
  | bytes :: envelopes => event ← bytes; rest ← decode_envelopes envelopes; Ok (event :: rest)
  end.
Fixpoint inbox_pages (k : Key) (page_size fuel : nat) (since : TranscriptCursor) (all : list TranscriptEvent)
    : IO (list TranscriptEvent) :=
  match fuel with
  | O => io_throw OutOfFuel
  | Datatypes.S fuel =>
      response ← call (Inbox k since page_size);
      page ← lift AircText (decode_envelopes (in_envelopes response));
      let all := all ++ page in
      if negb (in_has_more response) && (length (in_envelopes response) <? page_size)%nat then mret all
      else match in_newest response with
           | Some cursor => inbox_pages k page_size fuel cursor all
           | None => mret all
           end
  end.
Definition daemon_room_transcripts_since (k : Key) (cursor : TranscriptCursor) (page_size fuel : nat)
    : IO (list TranscriptEvent) :=
  inbox_pages k (Nat.max page_size 1) fuel cursor [].
Definition room_transcripts_since (k : Key) (cursor : TranscriptCursor) (page_size fuel : nat)
    : IO (list TranscriptEvent) :=
  match k.1 with
  | FromDaemon => daemon_room_transcripts_since k cursor page_size fuel
  | FromStore => resume_pages k (Nat.max page_size 1) fuel cursor []
  end.
Definition snapshot_of (k : Key) (cursor : TranscriptCursor) (projection : Board) : ProjectionCache :=
  MkProjectionCache WORK_BOARD_CACHE_FORMAT_VERSION k.2 k.1 cursor projection.
Definition resume_projection (k : Key) (cache : ProjectionCache) (page_size fuel : nat) : IO (option Board) :=
  new_transcripts ← room_transcripts_since k (pc_cursor cache) page_size fuel;
  match head new_transcripts with
  | None =>
      tip ← call (LatestCursor k);
      if bool_decide (tip = Some (pc_cursor cache)) then mret (Some (pc_projection cache)) else mret None
  | Some first =>
      let first_cursor := te_cursor first in
      if negb (cursor_strictly_before (pc_cursor cache) first_cursor) then mret None
      else
        let newest := match last new_transcripts with Some e => te_cursor e | None => first_cursor end in
        match apply_transcripts new_transcripts (pc_projection cache) with
        | (Err e, _) => io_throw (WorkStoreFailed e)
        | (Ok _, projection) =>
            _ ← run (SaveSnapshot k (snapshot_of k newest projection));
            mret (Some projection)
        end
  end.
Definition project_room_work_board (k : Key) (page_size fuel : nat) : IO Board :=
  file ← run (ReadSnapshot k);
  resumed ← match accept_snapshot file k.2 k.1 with
            | Some cache => resume_projection k cache page_size fuel
            | None => mret None
            end;
  match resumed with
  | Some projection => mret projection
  | None =>
      transcripts ← room_transcripts_since k zero_transcript_cursor page_size fuel;
      projection ← lift WorkStoreFailed (project_transcripts transcripts);
      _ ← match last transcripts with
          | Some e => run (SaveSnapshot k (snapshot_of k (te_cursor e) projection))
          | None => mret tt
          end;
      mret projection
  end.

(** ** The world *)
(** [w_lamport] is the process's own lamport clock, [w_router] the last sequence that the
    router of its daemon gave out, epoch and counter packed. *)
Record World := MkWorld {
  w_room : Room; w_logs : gmap Key (list TranscriptEvent); w_snaps : gmap Key SnapshotFile; w_clock : N; w_uuid : N;
  w_lamport : N; w_router : N }.
#[export] Instance eta_World : Eta World := λ w,
  MkWorld (w_room w) (w_logs w) (w_snaps w) (w_clock w) (w_uuid w) (w_lamport w) (w_router w).
Definition log_of (w : World) (k : Key) : list TranscriptEvent := default [] (w_logs w !! k).
Definition snap_of (w : World) (k : Key) : SnapshotFile := default Missing (w_snaps w !! k).
Definition set_log (k : Key) (l : list TranscriptEvent) (w : World) : World := w <| w_logs := <[k := l]> (w_logs w) |>.
Definition set_snap (k : Key) (c : ProjectionCache) (w : World) : World :=
  w <| w_snaps := <[k := Snapshot c]> (w_snaps w) |>.
Definition after (c : TranscriptCursor) (l : list TranscriptEvent) : list TranscriptEvent :=
  filter (λ t, cursor_strictly_before c (te_cursor t) = true) l.
Definition tip (l : list TranscriptEvent) : option TranscriptCursor := te_cursor <$> last l.
Definition log_end (l : list TranscriptEvent) : TranscriptCursor := default zero_transcript_cursor (tip l).
Definition before (a b : TranscriptEvent) : Prop := cursor_strictly_before (te_cursor a) (te_cursor b) = true.
(** A log is in cursor order and starts after zero. *)
Definition log_ok (l : list TranscriptEvent) : Prop :=
  StronglySorted before l ∧ Forall (λ t, cursor_strictly_before zero_transcript_cursor (te_cursor t) = true) l.
(** What the process [me] publishes. *)
Definition published (me : PeerId) (k : Key) (headers : Headers) (body : Body) (t : TranscriptEvent) : Prop :=
  te_peer_id t = me ∧ te_room_id t = k.2 ∧ te_headers t = headers ∧ te_body t = Some body.
Definition unavailable {A} (r : result rstring A) (w w' : World) : Prop := (∃ e, r = Err e) ∧ w' = w.
(** What a call of the process [me] may return and the world it leaves.  A page of the
    daemon ends at the limit, or is cut and says so.  A send that fails may have reached
    the log. *)
Definition act_step (me : PeerId) {B} (a : Act B) (w : World) : B → World → Prop :=
  match a in Act B return B → World → Prop with
  | CurrentRoom => λ r w', r = Ok (w_room w) ∧ w' = w ∨ unavailable r w w'
  | ResumeFrom k c n => λ r w', r = Ok (take n (after c (log_of w k))) ∧ w' = w ∨ unavailable r w w'
  | Inbox k c n => λ r w',
      (∃ page rest envelopes has_more,
         after c (log_of w k) = page ++ rest ∧ (length page ≤ n)%nat ∧
         Forall2 (λ bytes t, ∀ t', bytes = Ok t' → t' = t) envelopes page ∧
         (has_more = true → page ≠ []) ∧ (has_more = false → (length page < n)%nat → rest = []) ∧
         r = Ok (MkInboxResponse envelopes (tip page) has_more) ∧ w' = w) ∨ unavailable r w w'
  | LatestCursor k => λ r w', r = Ok (tip (log_of w k)) ∧ w' = w ∨ unavailable r w w'
  | ReadSnapshot k => λ r w', (r = snap_of w k ∨ r = Unreadable) ∧ w' = w
  | SaveSnapshot k c => λ _ w', w' = set_snap k c w ∨ w' = w
  | NowMs => λ r w', (∃ t, (w_clock w ≤ t)%N ∧ r = Ok t ∧ w' = w <| w_clock := t |>) ∨ unavailable r w w'
  | NewUuid => λ _ w', ∃ u, w' = w <| w_uuid := u |>
  | SendFrame k h b => λ r w',
      (∃ t, published me k h b t ∧ log_ok (log_of w k ++ [t]) ∧ w' = set_log k (log_of w k ++ [t]) w ∧
         (r = Ok (te_event_id t) ∨ ∃ e, r = Err e)) ∨ unavailable r w w'
  end.
Definition snap_ok (l : list TranscriptEvent) (k : Key) (f : SnapshotFile) : Prop :=
  ∀ c, accept_snapshot f k.2 k.1 = Some c →
    ∃ pre, pre `prefix_of` l ∧ tip pre = Some (pc_cursor c) ∧ project_transcripts pre = Ok (pc_projection c).
Definition world_ok (w : World) : Prop := ∀ k, log_ok (log_of w k) ∧ snap_ok (log_of w k) k (snap_of w k).
(** Between two calls others append to the logs, save snapshots of what they read, move
    the current room. *)
Definition grows (w w' : World) : Prop :=
  (∀ k, log_of w k `prefix_of` log_of w' k) ∧ world_ok w' ∧ (w_clock w ≤ w_clock w')%N.
Definition others (w w' : World) : Prop := w' = w ∨ grows w w'.
(** A run of [me], others acting as [E] lets them. *)
Fixpoint runs (me : PeerId) (E : World → World → Prop) {A} (p : Prog A) (w : World) (r : A) (w' : World) : Prop :=
  match p with
  | Ret a => r = a ∧ w' = w
  | Vis a k => ∃ w1 x w2, E w w1 ∧ act_step me a w1 x w2 ∧ runs me E (k x) w2 r w'
  end.
(** Every call is made only when [P] holds of it. *)
Fixpoint guarded (me : PeerId) (E : World → World → Prop) (P : ∀ B, Act B → World → Prop) {A} (p : Prog A) (w : World)
    : Prop :=
  match p with
  | Ret _ => True
  | Vis a k => ∀ w1, E w w1 → P _ a w1 ∧ ∀ x w2, act_step me a w1 x w2 → guarded me E P (k x) w2
  end.

(** ** The calls in a world at rest, none failing *)
(** The stamp of an own frame does not look at the log, so a frame may sort before frames
    that others stamped with clocks ahead of this one. *)
Definition next_lamport (wall_ms current : N) : N := N.max wall_ms (saturating_add current 1).
Definition own_stamp (source : WorkBoardCacheSource) (w : World) : N :=
  match source with
  | FromStore => next_lamport (w_clock w) (w_lamport w)
  | FromDaemon => w_router w + 1
  end.
Definition set_stamp (source : WorkBoardCacheSource) (lamport : N) (w : World) : World :=
  match source with
  | FromStore => w <| w_lamport := lamport |>
  | FromDaemon => w <| w_router := lamport |>
  end.
Definition in_order (t : TranscriptEvent) (l : list TranscriptEvent) : list TranscriptEvent :=
  filter (λ u, cursor_strictly_before (te_cursor u) (te_cursor t) = true) l ++
  t :: filter (λ u, cursor_strictly_before (te_cursor u) (te_cursor t) = false) l.
Definition exec_act (me : PeerId) (metadata : Json) {B} (a : Act B) (w : World) : B * World :=
  match a in Act B return B * World with
  | CurrentRoom => (Ok (w_room w), w)
  | ResumeFrom k c n => (Ok (take n (after c (log_of w k))), w)
  | Inbox k c n => let page := take n (after c (log_of w k)) in
      (Ok (MkInboxResponse (Ok <$> page) (tip page) false), w)
  | LatestCursor k => (Ok (tip (log_of w k)), w)
  | ReadSnapshot k => (snap_of w k, w)
  | SaveSnapshot k c => (tt, set_snap k c w)
  | NowMs => (Ok (w_clock w), w)
  | NewUuid => (w_uuid w, w <| w_uuid := (w_uuid w + 1)%N |>)
  | SendFrame k h b =>
      let l := log_of w k in
      let t := MkTranscriptEvent (MkId (w_uuid w)) k.2 me (MkId 0) Message (w_clock w)
                 (own_stamp k.1 w) ToAll h (Some b) None None metadata in
      (Ok (te_event_id t), set_stamp k.1 (te_lamport t) (set_log k (in_order t l) w) <| w_uuid := (w_uuid w + 1)%N |>)
  end.
Fixpoint exec (me : PeerId) (metadata : Json) {A} (p : Prog A) (w : World) : A * World :=
  match p with
  | Ret a => (a, w)
  | Vis a k => let '(x, w) := exec_act me metadata a w in exec me metadata (k x) w
  end.
(** The frames the process sends next, [n] of them, sort after all that is in the logs. *)
Definition own_last (n : nat) (w : World) : Prop :=
  (∀ k t, t ∈ log_of w k → (te_lamport t < own_stamp k.1 w)%N) ∧ (own_stamp FromStore w + N.of_nat n ≤ u64_max)%N.
End store.
