(* ===== verification/WorkStoreThms.v ===== *)
(** A board that is read through the snapshot cache is the replay of a log, while logs
    grow at the end. *)
From stdpp Require Import base gmap strings list sorting numbers.
From Stdlib Require Import Lia.
From S2P Require Import Prelude.
From S2P Require Import WorkModel.
From S2P Require Import WorkBoard.
From S2P Require Import CoreTranscript.
From S2P Require Import WorkCodec.
From S2P Require Import WorkScenario.
From S2P Require Import WorkReplayThms.
From S2P Require Import WorkStore.

Notation Prog := (Prelude.Prog Act).
Notation IO := (IO_of Act AircError).

(** ** Cursors *)
Lemma csb_spec a b : cursor_strictly_before a b = true ↔
  (cur_lamport a < cur_lamport b)%N ∨ cur_lamport a = cur_lamport b ∧ (uuid (cur_event_id a) < uuid (cur_event_id b))%N.
Proof. unfold cursor_strictly_before. rewrite orb_true_iff, andb_true_iff, !N.ltb_lt, N.eqb_eq. done. Qed.
Lemma csb_trans a b c : cursor_strictly_before a b = true → cursor_strictly_before b c = true → cursor_strictly_before a c = true.
Proof. rewrite !csb_spec. lia. Qed.
Lemma csb_irrefl a : cursor_strictly_before a a = false.
Proof. apply not_true_is_false. rewrite csb_spec. lia. Qed.

Section store.
Context {J : JsonValue} {S : Serde} {ENV : WorkEnv}.

(** ** Logs *)
Lemma log_ok_app (l1 l2 : list TranscriptEvent) :
  log_ok (l1 ++ l2) → log_ok l1 ∧ log_ok l2 ∧ ∀ t u, t ∈ l1 → u ∈ l2 → before t u.
Proof. intros [(? & ? & ?)%StronglySorted_app [? ?]%Forall_app]. split_and!; try done; by split. Qed.
Lemma log_ok_prefix l1 l2 : l1 `prefix_of` l2 → log_ok l2 → log_ok l1.
Proof. intros [? ->]. intros (? & _)%log_ok_app. done. Qed.
Lemma after_start pre rest : log_ok (pre ++ rest) → after (log_end pre) (pre ++ rest) = rest.
Proof.
  intros H. apply log_ok_app in H as (Hpre & [_ Hz] & Hb). unfold log_end, tip, after.
  destruct (last pre) as [t|] eqn:Ht; cbn.
  - apply last_Some in Ht as [pre0 ->]. apply log_ok_app in Hpre as (_ & _ & Hlt).
    rewrite list.filter_app, filter_none, filter_all; [done| |].
    + intros u Hu. apply Hb; [|done]. rewrite elem_of_app, list_elem_of_singleton. by right.
    + intros u [Hu| ->%list_elem_of_singleton]%elem_of_app Hc; [|by rewrite csb_irrefl in Hc].
      pose proof (csb_trans _ _ _ (Hlt u t Hu ltac:(by apply list_elem_of_singleton)) Hc) as E. by rewrite csb_irrefl in E.
  - apply last_None in Ht as ->. rewrite filter_all; [done|]. by apply list.Forall_forall.
Qed.
Lemma tip_app l1 l2 : tip (l1 ++ l2) = match tip l2 with Some c => Some c | None => tip l1 end.
Proof. unfold tip. rewrite last_app. by destruct (last l2). Qed.
Lemma start_app l1 l2 c : tip l2 = Some c → log_end (l1 ++ l2) = c.
Proof. unfold log_end. rewrite tip_app. by intros ->. Qed.
Lemma tip_None l : tip l = None → l = [].
Proof. unfold tip. intros H%fmap_None. by apply last_None. Qed.
(** The event under a cursor ends one prefix of the log. *)
Lemma tip_determines pre rest : log_ok (pre ++ rest) → tip (pre ++ rest) = tip pre → pre ≠ [] → rest = [].
Proof.
  intros H E Hne. rewrite tip_app in E. destruct (tip rest) as [c|] eqn:Hr; [|by apply tip_None].
  apply log_ok_app in H as (_ & _ & Hb). unfold tip in *.
  destruct (last pre) as [t|] eqn:Ht; [|by apply last_None in Ht]. destruct (last rest) as [u|] eqn:Hu; [|done].
  apply last_Some_elem_of in Ht, Hu.
  specialize (Hb _ _ Ht Hu). unfold before in Hb.
  change (Some (te_cursor u) = Some c) in Hr. change (Some c = Some (te_cursor t)) in E.
  replace (te_cursor t) with (te_cursor u) in Hb by congruence. by rewrite csb_irrefl in Hb.
Qed.

(** ** Replaying a prefix and then the rest *)
Lemma decode_events_app l1 l2 : decode_events (l1 ++ l2) =
  (e1 ← decode_events l1; e2 ← decode_events l2; Ok (e1 ++ e2)).
Proof.
  induction l1 as [|t l1 IH]; cbn; [by destruct (decode_events l2)|].
  destruct (negb _); [done|]. destruct (decode_transcript_work_event t) as [item|[]]; try done.
  rewrite IH. destruct (decode_events l1); [|done]. cbn. by destruct (decode_events l2).
Qed.
Lemma project_app l1 l2 b : project_transcripts l1 = Ok b →
  project_transcripts (l1 ++ l2) =
    match apply_transcripts l2 b with (Ok _, p) => Ok p | (Err e, _) => Err e end.
Proof.
  unfold project_transcripts, apply_transcripts, decode_page. rewrite decode_events_app.
  destruct (decode_events l1) as [e1|e1]; [|done]. cbn.
  destruct (st_iter apply_windowed e1 Board_new) as [[[]|e] b1] eqn:E1; [|done]. intros [= ->].
  destruct (decode_events l2) as [e2|e2]; [|done]. cbn. rewrite st_iter_app. unfold mbind, st_bind. rewrite E1.
  by destruct (st_iter apply_windowed e2 b) as [[[]|] ?].
Qed.

(** ** Growth of the world *)
Lemma grows_refl w : world_ok w → grows w w.
Proof. split; [done|]. split; [done|lia]. Qed.
Lemma grows_trans w1 w2 w3 : grows w1 w2 → grows w2 w3 → grows w1 w3.
Proof.
  intros (P1 & _ & C1) (P2 & O2 & C2). split; [intros k; exact (transitivity (P1 k) (P2 k))|]. split; [done|by etrans].
Qed.
Lemma grows_ok w w' : grows w w' → world_ok w'.
Proof. by intros (_ & ? & _). Qed.
Lemma grows_log w w' k : grows w w' → log_of w k `prefix_of` log_of w' k.
Proof. by intros (? & _). Qed.
Lemma snap_ok_grow l l' k f : l `prefix_of` l' → snap_ok l k f → snap_ok l' k f.
Proof. intros Hl H c Hc. destruct (H c Hc) as (pre & ? & ? & ?). exists pre. split_and!; try done. by etrans. Qed.
Lemma log_of_set k l w k' : log_of (set_log k l w) k' = if decide (k' = k) then l else log_of w k'.
Proof.
  unfold log_of, set_log. cbn. case_decide; subst; [by rewrite lookup_insert_eq|by rewrite lookup_insert_ne].
Qed.
Lemma snap_of_set k c w k' : snap_of (set_snap k c w) k' = if decide (k' = k) then Snapshot c else snap_of w k'.
Proof.
  unfold snap_of, set_snap. cbn. case_decide; subst; [by rewrite lookup_insert_eq|by rewrite lookup_insert_ne].
Qed.
Lemma set_log_grows k t w : world_ok w → log_ok (log_of w k ++ [t]) → grows w (set_log k (log_of w k ++ [t]) w).
Proof.
  intros Hw Hl. split; [|split; [|done]].
  - intros k'. rewrite log_of_set. case_decide; [subst; by eexists|done].
  - intros k'. rewrite log_of_set. destruct (Hw k') as [Hk Hs]. change (snap_of (set_log _ _ w) k') with (snap_of w k').
    case_decide; [subst|done]. split; [done|]. eapply snap_ok_grow; [by eexists|done].
Qed.
Lemma set_snap_grows k c w : world_ok w → snap_ok (log_of w k) k (Snapshot c) → grows w (set_snap k c w).
Proof.
  intros Hw Hc. split; [done|split; [|done]]. intros k'. destruct (Hw k') as [Hk Hs].
  change (log_of (set_snap _ _ w) k') with (log_of w k'). rewrite snap_of_set. split; [done|]. by case_decide; subst.
Qed.
Definition saves {B} (a : Act B) (w : World) : Prop :=
  match a with SaveSnapshot k c => snap_ok (log_of w k) k (Snapshot c) | _ => True end.
Lemma act_grows me {B} (a : Act B) w x w' : world_ok w → saves a w → act_step me a w x w' → grows w w'.
Proof.
  intros Hw Ha Hs. pose proof (grows_refl w Hw) as Hr. destruct a; cbn in *; unfold unavailable in *.
  - by destruct Hs as [[_ ->]|[_ ->]].
  - by destruct Hs as [[_ ->]|[_ ->]].
  - by destruct Hs as [(? & ? & ? & ? & _ & _ & _ & _ & _ & _ & ->)|[_ ->]].
  - by destruct Hs as [[_ ->]|[_ ->]].
  - by destruct Hs as [_ ->].
  - destruct Hs as [->| ->]; [by apply set_snap_grows|done].
  - destruct Hs as [(t & ? & _ & ->)|[_ ->]]; [|done]. split; [intros k; exact (reflexivity _)|by split].
  - destruct Hs as [u ->]. split; [intros k; exact (reflexivity _)|by split].
  - destruct Hs as [(t & _ & ? & -> & _)|[_ ->]]; [by apply set_log_grows|done].
Qed.

Lemma others_grow w w' : world_ok w → others w w' → grows w w'.
Proof. intros Hw [->|]; [by apply grows_refl|done]. Qed.

(** ** Runs *)
Lemma client_runs_bind me E {A B} (p : Prog A) (k : A → Prog B) w r w' :
  runs me E (prog_bind p k) w r w' ↔ ∃ a w1, runs me E p w a w1 ∧ runs me E (k a) w1 r w'.
Proof.
  revert w. induction p as [a|B' a c IH]; intros w; cbn.
  - split; [by eauto|]. by intros (? & ? & (-> & ->) & ?).
  - setoid_rewrite IH. naive_solver.
Qed.
Lemma client_runs_io me E {A B} (p : IO A) (k : A → IO B) w r w' :
  runs me E (p ≫= k) w r w' → ∃ ra w1, runs me E p w ra w1 ∧
    match ra with Ok a => runs me E (k a) w1 r w' | Err e => r = Err e ∧ w' = w1 end.
Proof. unfold mbind, io_bind. intros ([a|e] & w1 & ? & ?)%client_runs_bind; eexists _, w1; split; eauto. Qed.
Lemma client_runs_call me E {A} (a : Act (result rstring A)) w r w' :
  runs me E (call a) w r w' → ∃ w1 x, E w w1 ∧ act_step me a w1 x w' ∧
    r = match x with Ok a => Ok a | Err e => Err (AircText e) end.
Proof. cbn. intros (w1 & x & w2 & ? & ? & Hr). exists w1, x. destruct x; by destruct Hr as [-> ->]. Qed.
Lemma client_runs_run me E {A} (a : Act A) w r w' :
  runs me E (run a) w r w' → ∃ w1 x, E w w1 ∧ act_step me a w1 x w' ∧ r = Ok x.
Proof. cbn. intros (w1 & x & w2 & ? & ? & -> & ->). eauto. Qed.
Lemma runs_lift me E {X A} (f : X → AircError) (r0 : result X A) w r w' :
  runs me E (lift f r0) w r w' → r = match r0 with Ok a => Ok a | Err e => Err (f e) end ∧ w' = w.
Proof. done. Qed.
Lemma runs_call_grows me {A} (a : Act (result rstring A)) w r w' :
  world_ok w → (∀ w, saves a w) → runs me others (call a) w r w' →
  grows w w' ∧ ∃ w1 x, grows w w1 ∧ act_step me a w1 x w' ∧
    r = match x with Ok a => Ok a | Err e => Err (AircText e) end.
Proof.
  intros Hw Hs (w1 & x & H1%others_grow & Ha & ->)%client_runs_call; [|done]. split; [|eauto 6].
  eapply grows_trans; [done|]. eapply act_grows; [by eapply grows_ok| |done]. apply Hs.
Qed.

(** ** Pages *)
Definition paged k pre all fuel w (r : result AircError (list TranscriptEvent)) w' : Prop :=
  grows w w' ∧
  match r with
  | Ok new => ∃ rest, new = all ++ rest ∧ log_of w k `prefix_of` pre ++ new ∧ pre ++ new `prefix_of` log_of w' k
  | Err OutOfFuel => (fuel + length all ≤ length (log_of w' k))%nat
  | Err (AircText _) => True
  | Err _ => False
  end.
Lemma after_prefix l0 l : log_ok l → l0 `prefix_of` l → ∃ rest, l = l0 ++ rest ∧ after (log_end l0) l = rest.
Proof. intros Hl [rest ->]. exists rest. split; [done|]. by apply after_start. Qed.
Lemma resume_pages_spec me k n fuel : (0 < n)%nat → ∀ pre all w r w', world_ok w →
  pre ++ all `prefix_of` log_of w k →
  runs me others (resume_pages k n fuel (log_end (pre ++ all)) all) w r w' → paged k pre all fuel w r w'.
Proof.
  intros Hn. induction fuel as [|fuel IH]; intros pre all w r w' Hw Hpre Hr.
  { destruct Hr as [-> ->]. split; [by apply grows_refl|]. apply prefix_length in Hpre. rewrite length_app in Hpre. lia. }
  cbn [resume_pages] in Hr. apply client_runs_io in Hr as (page & w2 & Hcall & Hr).
  apply runs_call_grows in Hcall as (Hg & w1 & x & Hg1 & Hx & ->); [|done|done].
  destruct Hx as [[-> ->]|[[e ->] ->]]; [|by destruct Hr as [-> ->]].
  destruct (after_prefix (pre ++ all) (log_of w1 k)) as (rest & El & Ea).
  { by apply (grows_ok _ _ Hg). } { etrans; [done|by apply grows_log]. }
  rewrite Ea in Hr. clear Ea. pose proof (grows_log _ _ k Hg1) as Hl. rewrite El in Hl.
  set (page := take n rest) in *.
  assert (length page < n → page = rest)%nat as Hshort.
  { intros H. unfold page in *. rewrite length_take in H. apply take_ge. lia. }
  destruct (last page) as [newest|] eqn:Hlast.
  - destruct (Nat.ltb_spec (length page) n) as [Hlt|Hge].
    + destruct Hr as [-> ->]. split; [done|]. exists page. rewrite El. rewrite (Hshort Hlt), app_assoc. done.
    + assert (te_cursor newest = log_end (pre ++ (all ++ page))) as Ec.
      { rewrite app_assoc. symmetry. apply start_app. unfold tip. by rewrite Hlast. }
      rewrite Ec in Hr. apply IH in Hr as [Hg2 Hr]; [|by apply (grows_ok _ _ Hg)|].
      * split; [by eapply grows_trans|]. destruct r as [new|[]]; try done.
        -- destruct Hr as (more & -> & H1 & H2). exists (page ++ more). rewrite <- app_assoc.
           rewrite <- app_assoc in H1, H2. split; [done|]. split; [|done]. etrans; [|exact H1]. by apply grows_log.
        -- rewrite length_app in Hr. lia.
      * rewrite El, app_assoc. apply prefix_app, prefix_take.
  - apply last_None in Hlast. rewrite Hlast in Hshort. destruct Hr as [-> ->]. split; [done|].
    exists []. rewrite El, <- Hshort, !app_nil_r by (cbn; lia). rewrite <- Hshort, app_nil_r in Hl by (cbn; lia). done.
Qed.
Lemma decode_envelopes_page envelopes page l :
  Forall2 (λ bytes t, ∀ t' : TranscriptEvent, bytes = Ok t' → t' = t) envelopes page →
  decode_envelopes envelopes = Ok l → l = page.
Proof.
  intros H. revert l. induction H as [|bytes t envelopes page Ht H IH]; intros l; cbn; [by intros [= <-]|].
  destruct bytes as [t'|]; [|done]. cbn. destruct (decode_envelopes envelopes) as [l'|]; [|done].
  intros [= <-]. by rewrite (Ht t'), (IH l').
Qed.
Lemma inbox_pages_spec me k n fuel : (0 < n)%nat → ∀ pre all w r w', world_ok w →
  pre ++ all `prefix_of` log_of w k →
  runs me others (inbox_pages k n fuel (log_end (pre ++ all)) all) w r w' → paged k pre all fuel w r w'.
Proof.
  intros Hn. induction fuel as [|fuel IH]; intros pre all w r w' Hw Hpre Hr.
  { destruct Hr as [-> ->]. split; [by apply grows_refl|]. apply prefix_length in Hpre. rewrite length_app in Hpre. lia. }
  cbn [inbox_pages] in Hr. apply client_runs_io in Hr as (response & w2 & Hcall & Hr).
  apply runs_call_grows in Hcall as (Hg & w1 & x & Hg1 & Hx & ->); [|done|done].
  destruct Hx as [(page & rest & envelopes & has_more & Ea & Hlen & Hdec & Hmore & Hend & -> & ->)|[[e ->] ->]];
    [|by destruct Hr as [-> ->]].
  destruct (after_prefix (pre ++ all) (log_of w1 k)) as (rest' & El & Ea').
  { by apply (grows_ok _ _ Hg). } { etrans; [done|by apply grows_log]. }
  rewrite Ea in Ea'. subst rest'. pose proof (grows_log _ _ k Hg1) as Hl. rewrite El in Hl.
  apply client_runs_io in Hr as (ra & w2 & Hlift & Hr). apply runs_lift in Hlift as [-> ->]. cbn [in_envelopes in_newest in_has_more] in Hr.
  destruct (decode_envelopes envelopes) as [page'|] eqn:Edec; [|by destruct Hr as [-> ->]].
  apply (decode_envelopes_page _ _ _ Hdec) in Edec as ->. rewrite (Forall2_length Hdec) in Hr.
  assert (pre ++ all ++ page `prefix_of` log_of w1 k) as Hpre'. { rewrite El, !app_assoc. by apply prefix_app_r. }
  assert (rest = [] → paged k pre all (Datatypes.S fuel) w (Ok (all ++ page)) w1) as Hdone.
  { intros ->. split; [done|]. exists page. rewrite El. rewrite app_nil_r, app_assoc in *. done. }
  destruct (negb has_more && _) eqn:Elast.
  - destruct Hr as [-> ->]. apply Hdone. destruct has_more; [done|]. apply Nat.ltb_lt in Elast. auto.
  - destruct (tip page) as [cursor|] eqn:Htip.
    + rewrite <- (start_app (pre ++ all) page cursor Htip), <- app_assoc in Hr.
      apply IH in Hr as [Hg2 Hr]; [|by apply (grows_ok _ _ Hg)|done].
      split; [by eapply grows_trans|]. destruct r as [new|[]]; try done.
      * destruct Hr as (more & -> & H1 & H2). exists (page ++ more). rewrite <- app_assoc.
        rewrite <- app_assoc in H1, H2. split; [done|]. split; [|done]. etrans; [|exact H1]. by apply grows_log.
      * rewrite length_app in Hr. assert (length page ≠ 0%nat); [|lia]. by destruct page.
    + apply tip_None in Htip as ->. destruct Hr as [-> ->]. apply Hdone.
      destruct has_more; [by destruct (Hmore eq_refl)|]. by destruct n; [lia|].
Qed.
(** All of a room after a prefix of its log. *)
Lemma transcripts_since_spec me k page_size fuel pre w r w' : world_ok w → pre `prefix_of` log_of w k →
  runs me others (room_transcripts_since k (log_end pre) page_size fuel) w r w' → paged k pre [] fuel w r w'.
Proof.
  intros Hw Hpre. unfold room_transcripts_since, daemon_room_transcripts_since.
  replace (log_end pre) with (log_end (pre ++ [])) by by rewrite app_nil_r.
  destruct k.1; [apply inbox_pages_spec|apply resume_pages_spec]; rewrite ?app_nil_r; try done; lia.
Qed.

(** ** Boards *)
(** [b] is the replay of the room's log as it was at some moment of the run. *)
Definition replayed (k : Key) (w w' : World) (b : result WorkStoreError Board) : Prop :=
  ∃ l, log_of w k `prefix_of` l ∧ l `prefix_of` log_of w' k ∧ project_transcripts l = b.
Definition read_ok (k : Key) (fuel : nat) (w : World) (r : result AircError Board) (w' : World) : Prop :=
  match r with
  | Ok b => replayed k w w' (Ok b)
  | Err (WorkStoreFailed e) => replayed k w w' (Err e)
  | Err OutOfFuel => (fuel ≤ length (log_of w' k))%nat
  | Err (AircText _) => True
  | Err _ => False
  end.
Lemma replayed_grow k w w1 w2 w' b : grows w w1 → grows w2 w' → replayed k w1 w2 b → replayed k w w' b.
Proof.
  intros H1 H2 (l & ? & ? & ?). exists l. split_and!; [|by etrans; [|by apply grows_log]|done].
  etrans; [by apply grows_log|done].
Qed.
Lemma snapshot_of_ok k l pre c b : pre `prefix_of` l → tip pre = Some c → project_transcripts pre = Ok b →
  snap_ok l k (Snapshot (snapshot_of k c b)).
Proof.
  intros ???. intros cache. unfold accept_snapshot, snapshot_of. cbn [pc_version pc_channel pc_source].
  rewrite N.eqb_refl, !bool_decide_false by by intros []. intros [= <-]. eauto.
Qed.
Lemma save_spec me k pre c b w r w' : world_ok w →
  pre `prefix_of` log_of w k → tip pre = Some c → project_transcripts pre = Ok b →
  runs me others (run (SaveSnapshot k (snapshot_of k c b))) w r w' → r = Ok tt ∧ grows w w'.
Proof.
  intros Hw Hp Ht Hb (w1 & [] & Hg%others_grow & Ha & ->)%client_runs_run; [|done]. split; [done|]. eapply grows_trans; [done|].
  eapply act_grows; [by eapply grows_ok| |done]. eapply snapshot_of_ok; [|done..]. etrans; [done|by apply grows_log].
Qed.
Lemma project_grow pre new b : project_transcripts pre = Ok b →
  match apply_transcripts new b with
  | (Ok _, p) => project_transcripts (pre ++ new) = Ok p
  | (Err e, _) => project_transcripts (pre ++ new) = Err e
  end.
Proof. intros H. rewrite (project_app _ _ _ H). by destruct (apply_transcripts new b) as [[]]. Qed.
Lemma resume_spec me k cache page_size fuel w r w' : world_ok w → snap_ok (log_of w k) k (Snapshot cache) →
  accept_snapshot (Snapshot cache) k.2 k.1 = Some cache →
  runs me others (resume_projection k cache page_size fuel) w r w' →
  grows w w' ∧ match r with Ok None => True | Ok (Some b) => read_ok k fuel w (Ok b) w' | Err e => read_ok k fuel w (Err e) w' end.
Proof.
  intros Hw Hs Hacc Hr. destruct (Hs _ Hacc) as (pre & Hpre & Htip & Hb).
  unfold resume_projection in Hr. apply client_runs_io in Hr as (ra & w1 & Hpages & Hr).
  assert (pc_cursor cache = log_end pre) as Ecur by (unfold log_end; by rewrite Htip).
  rewrite Ecur in Hpages. apply transcripts_since_spec in Hpages as [Hg1 Hpages]; [|done|done].
  destruct ra as [new|e].
  2: { destruct Hr as [-> ->]. split; [done|]. destruct e; try done. cbn in Hpages. cbn. lia. }
  destruct Hpages as (new' & E & Hl1 & Hl2). clear new' E. pose proof (grows_ok _ _ Hg1) as Hw1.
  destruct (head new) as [first|] eqn:Hhead.
  - destruct (negb _); [by destruct Hr as [-> ->]|].
    assert (∃ c, tip new = Some c ∧ match last new with Some e => te_cursor e | None => te_cursor first end = c) as (c & Hc & Ec).
    { unfold tip. destruct new; [done|]. destruct (last (_ :: _)) eqn:E; [by eexists|by apply last_None in E]. }
    rewrite Ec in Hr. pose proof (project_grow pre new _ Hb) as Hproj.
    destruct (apply_transcripts new (pc_projection cache)) as [[o|e] p].
    + apply client_runs_io in Hr as (rs & w2 & Hsave & Hr).
      eapply save_spec in Hsave as [-> Hg2]; [|done|exact Hl2| |done].
      2: { by rewrite tip_app, Hc. }
      destruct Hr as [-> ->]. split; [by eapply grows_trans|]. exists (pre ++ new). split_and!; [done| |done].
      etrans; [done|by apply grows_log].
    + destruct Hr as [-> ->]. split; [done|]. by exists (pre ++ new).
  - destruct new as [|]; [|done]. rewrite app_nil_r in *.
    apply client_runs_io in Hr as (rt & w2 & Hcall & Hr).
    apply runs_call_grows in Hcall as (Hg2 & w3 & x & Hg3 & Hx & ->); [|done|done].
    assert (grows w w2) as Hg by by eapply grows_trans.
    destruct Hx as [[-> ->]|[[e ->] ->]]; [|by destruct Hr as [-> ->]].
    case_bool_decide as Et; destruct Hr as [-> ->]; [|done]. split; [done|]. exists pre. split_and!; [done| |done].
    etrans; [done|by apply grows_log].
Qed.
Lemma board_read_spec me k page_size fuel w r w' : world_ok w →
  runs me others (project_room_work_board k page_size fuel) w r w' → grows w w' ∧ read_ok k fuel w r w'.
Proof.
  intros Hw Hr. unfold project_room_work_board in Hr. apply client_runs_io in Hr as (rf & w1 & Hfile & Hr).
  apply client_runs_run in Hfile as (w0 & file & Hg0%others_grow & [Hfile ->] & ->); [|done]. pose proof (grows_ok _ _ Hg0) as Hw0.
  apply client_runs_io in Hr as (rr & w1 & Hres & Hr).
  assert (grows w0 w1 ∧ match rr with
    | Ok None => True | Ok (Some b) => read_ok k fuel w0 (Ok b) w1 | Err e => read_ok k fuel w0 (Err e) w1 end) as [Hg1 Hrr].
  { destruct (accept_snapshot file k.2 k.1) as [cache|] eqn:Hacc.
    - assert (file = Snapshot cache) as ->. { destruct file; try done. cbn in Hacc. repeat case_match; congruence. }
      eapply resume_spec; [done| |done|done]. destruct Hfile as [->|]; [|done]. apply Hw0.
    - destruct Hres as [-> ->]. split; [by apply grows_refl|done]. }
  assert (grows w w1) as Hg by by eapply grows_trans. pose proof (grows_ok _ _ Hg1) as Hw1.
  destruct rr as [[b|]|e].
  - destruct Hr as [-> ->]. split; [done|]. eapply replayed_grow; [exact Hg0| |exact Hrr]. by apply grows_refl.
  - clear Hrr. apply client_runs_io in Hr as (rt & w2 & Hpages & Hr).
    change zero_transcript_cursor with (log_end []) in Hpages.
    apply transcripts_since_spec in Hpages as [Hg2 Hpages]; [|done|by apply prefix_nil].
    pose proof (grows_ok _ _ Hg2) as Hw2. assert (grows w w2) as Hgw by by eapply grows_trans.
    destruct rt as [l|e]; [|by destruct Hr as [-> ->]; split; [done|]; destruct e; try done; cbn in *; lia].
    destruct Hpages as (new' & E & Hl1 & Hl2). clear new' E. cbn in Hl1, Hl2.
    assert (replayed k w w2 (project_transcripts l)) as Hrep.
    { exists l. split_and!; [|done|done]. etrans; [by apply (grows_log _ _ k Hg)|done]. }
    apply client_runs_io in Hr as (rb & w2' & Hlift & Hr). apply runs_lift in Hlift as [-> ->].
    destruct (project_transcripts l) as [b|e] eqn:Hb; [|by destruct Hr as [-> ->]].
    apply client_runs_io in Hr as (rs & w3 & Hsave & Hr).
    assert (rs = Ok tt ∧ grows w2 w3) as [-> Hg3].
    { destruct (last l) as [t|] eqn:Hlast; [|destruct Hsave as [-> ->]; split; [done|by apply grows_refl]].
      eapply save_spec; [done|done| |done|done]. unfold tip. by rewrite Hlast. }
    destruct Hr as [-> ->]. split; [by eapply grows_trans|].
    eapply replayed_grow; [by apply grows_refl, (grows_ok _ _ (grows_refl _ Hw))|exact Hg3|done].
  - destruct Hr as [-> ->]. split; [done|]. destruct e; try done; cbn in *.
    eapply replayed_grow; [exact Hg0| |exact Hrr]. by apply grows_refl.
Qed.

(** ** Programs that send nothing *)
Definition sends {B} (a : Act B) : bool := match a with SendFrame _ _ _ => true | _ => false end.
Fixpoint quiet {A} (p : Prog A) : Prop :=
  match p with Ret _ => True | Vis a k => sends a = false ∧ ∀ x, quiet (k x) end.
Lemma sendless_bind {A B} (p : Prog A) (k : A → Prog B) : quiet p → (∀ a, quiet (k a)) → quiet (prog_bind p k).
Proof. induction p as [a|B' a c IH]; cbn; [auto|]. intros [? ?] ?. split; auto. Qed.
Lemma sendless_io {A B} (p : IO A) (k : A → IO B) : quiet p → (∀ a, quiet (k a)) → quiet (p ≫= k).
Proof. intros ??. apply sendless_bind; [done|]. by intros []. Qed.
Lemma quiet_call {A} (a : Act (result rstring A)) : sends a = false → quiet (call a).
Proof. intros ?. split; [done|]. by intros []. Qed.
Lemma quiet_resume_pages k n fuel c all : quiet (resume_pages k n fuel c all).
Proof.
  revert c all. induction fuel as [|fuel IH]; intros c all; [done|]. cbn. split; [done|]. intros [page|e]; [|done]. cbn.
  destruct (last page); [|done]. case_match; [done|]. apply IH.
Qed.
Lemma quiet_inbox_pages k n fuel c all : quiet (inbox_pages k n fuel c all).
Proof.
  revert c all. induction fuel as [|fuel IH]; intros c all; [done|]. cbn. split; [done|]. intros [r|e]; [|done]. cbn.
  destruct (decode_envelopes _); [|done]. cbn. destruct (_ && _); [done|]. destruct (in_newest r); [apply IH|done].
Qed.
Lemma quiet_read k n fuel : quiet (project_room_work_board k n fuel).
Proof.
  assert (∀ c, quiet (room_transcripts_since k c n fuel)) as Hp.
  { intros c. unfold room_transcripts_since, daemon_room_transcripts_since.
    destruct k.1; [apply quiet_inbox_pages|apply quiet_resume_pages]. }
  unfold project_room_work_board. apply sendless_io; [by split|]. intros file. apply sendless_io.
  - case_match; [|done]. unfold resume_projection. apply sendless_io; [done|]. intros new. case_match.
    + case_match; [done|]. case_match. case_match; [|done]. apply sendless_io; [by split|done].
    + apply sendless_io; [by apply quiet_call|]. intros tip. by case_match.
  - intros [b|]; [done|]. apply sendless_io; [done|]. intros l. apply sendless_io; [done|]. intros b. apply sendless_io; [|done].
    case_match; [by split|done].
Qed.

Lemma client_act_step me metadata {B} (a : Act B) w : sends a = false →
  act_step me a w (exec_act me metadata a w).1 (exec_act me metadata a w).2.
Proof.
  destruct a as [|k c n|k c n| | | | | |]; intros Hs; cbn; try (by left); try (by auto).
  - left. eexists (take n _), (drop n _), _, false. rewrite take_drop. split_and!; try done.
    + rewrite length_take. lia.
    + apply Forall2_fmap_l, Forall_Forall2_diag, Forall_true. intros t t' [=]. congruence.
    + intros _ Hlt. rewrite length_take in Hlt. apply drop_ge. lia.
  - left. exists (w_clock w). split_and!; [lia|done|by destruct w].
  - by eexists.
Qed.
(** An execution in which nothing is sent is a run. *)
Lemma quiet_exec_runs me metadata {A} (p : Prog A) w : quiet p →
  runs me others p w (exec me metadata p w).1 (exec me metadata p w).2.
Proof.
  revert w. induction p as [a|B a k IH]; intros w; [done|]. intros [Hs Hq]. cbn.
  pose proof (client_act_step me metadata a w Hs) as Ha. destruct (exec_act me metadata a w) as [x w1].
  exists w, x, w1. split; [by left|]. split; [done|]. by apply IH.
Qed.

(** C4: a board read through a cache is the board of a replay, as long as the room's log
    grows only at its end and the cached snapshots are replays of a beginning of it
    ([world_ok]); both are kept by whatever this process does and assumed of the others
    ([grows]).  A snapshot may be missing, unreadable, of another format, source or room,
    or saved by an earlier or a concurrent read, and others may append at the end during
    the call.  The board a read returns is then the replay from event zero of the room's
    log as it stood at some moment of the call; a replay error is that of such a log; the
    loop over the pages ends once it may take more steps than the log has events; what is
    saved on the way is again a replay of the log.  An event that sorts before a saved
    cursor, and a log that was wiped and grew again, are outside it: see
    [late_event_hidden] and [regrown_log_resumed] in WorkClientThms. *)
Theorem cached_board_is_replay me k page_size fuel w r w' :
  world_ok w → runs me others (project_room_work_board k page_size fuel) w r w' →
  world_ok w' ∧
  match r with
  | Ok b => ∃ l, log_of w k `prefix_of` l ∧ l `prefix_of` log_of w' k ∧ project_transcripts l = Ok b
  | Err (WorkStoreFailed e) => ∃ l, log_of w k `prefix_of` l ∧ l `prefix_of` log_of w' k ∧ project_transcripts l = Err e
  | Err OutOfFuel => (fuel ≤ length (log_of w' k))%nat
  | Err (AircText _) => True
  | Err _ => False
  end.
Proof. intros Hw Hr. destruct (board_read_spec _ _ _ _ _ _ _ Hw Hr) as [Hg Hread]. split; [by eapply grows_ok|done]. Qed.
End store.

(** ** A room for the witnesses *)
Module BoardWorld.
Import Scenario ReplayScenario.
Definition room : Room := MkRoom 1 (str "general") [] (MkId 9) 0.
Definition key : Key := (FromStore, MkId 9).
Definition frame (n : N) (e : WorkEvent) : TranscriptEvent :=
  packet n match e with EvCardClaimed c => cl_owner c | EvWorkSubmissionReviewed v => wr_reviewer v | _ => alice end e.
Fixpoint frames (n : N) (events : list WorkEvent) : list TranscriptEvent :=
  match events with [] => [] | e :: events => frame n e :: frames (n + 1) events end.
Definition log : list TranscriptEvent := frames 1 upto_review.
(** The scope's snapshot is older than the log. *)
Definition old : list TranscriptEvent := frames 1 upto_claim.
Definition claimed_projection : Board := match project_transcripts old with Ok b => b | Err _ => Board_new end.
Definition cache : ProjectionCache := snapshot_of key (MkTranscriptCursor 3 (MkId 3)) claimed_projection.
Definition world : World := MkWorld room {[key := log]} {[key := Snapshot cache]} 60 2000 0 0.
Lemma log_ok_log : log_ok log.
Proof. split; repeat constructor. Qed.
Lemma world_ok_world : world_ok world.
Proof.
  intros k. destruct (decide (k = key)) as [->|Hk].
  - split; [exact log_ok_log|]. intros c Hc. exists old. split; [by exists (drop 3 log)|].
    assert (c = cache) as -> by (vm_compute in Hc |- *; by injection Hc as <-). split; by vm_compute.
  - unfold log_of, snap_of. cbn [w_logs w_snaps world]. rewrite !lookup_singleton_ne by done. split; [by split; constructor|]. by intros c [=].
Qed.
End BoardWorld.
Import Scenario ReplayScenario BoardWorld.
Lemma cached_board_is_replay_witness :
  world_ok world ∧ ∃ l, log `prefix_of` l ∧ l `prefix_of` log ∧ project_transcripts l = Ok review_board.
Proof.
  split; [exact world_ok_world|].
  refine (proj2 (cached_board_is_replay alice key 2 8 world (Ok review_board)
    (exec alice (EvCardClaimed claimed) (project_room_work_board key 2 8) world).2 world_ok_world _)).
  pose proof (quiet_exec_runs alice (EvCardClaimed claimed) (project_room_work_board key 2 8) world (quiet_read key 2 8)) as Hr.
  assert ((exec alice (EvCardClaimed claimed) (project_room_work_board key 2 8) world).1 = Ok review_board) as E by (vm_compute; reflexivity).
  by rewrite E in Hr.
Defined.
