(* ===== verification/WorkClient.v ===== *)
(** The work coordination API of a client: [airc-lib/src/work.rs].  Each method is the
    calls it makes, in its order; [peer_id] and [source] are the scope's. *)
From stdpp Require Import base gmap strings list sorting numbers.
From S2P Require Import Prelude.
From S2P Require Import WorkModel.
From S2P Require Import WorkBoard.
From S2P Require Import CoreTranscript.
From S2P Require Import WorkCodec.
From S2P Require Import WorkObserve.
From S2P Require Import WorkStore.

Notation Prog := (Prelude.Prog Act).
Notation IO := (IO_of Act AircError).

Definition WORK_MUTATION_PAGE_SIZE : nat := 512.
Definition WORK_BOARD_PROJECTION_PAGE_SIZE : nat := 1024.

(** ** Requests *)
Record SubmitWork := MkSubmitWork {
  sw_submission_id : SubmissionId; sw_card_id : WorkCardId; sw_claim_id : ClaimId; sw_instance : rstring;
  sw_base_sha : GitObjectId; sw_artifact : MediaRef }.
Record ReviewWorkSubmission := MkReviewWorkSubmission {
  rw_review_id : WorkReviewId; rw_card_id : WorkCardId; rw_submission_id : SubmissionId; rw_artifact : MediaRef;
  rw_review_card_id : WorkCardId; rw_review_claim_id : ClaimId; rw_outcome : WorkReviewOutcome;
  rw_evidence : MediaRef; rw_evidence_text : option rstring }.
Record CreateWorkCard := MkCreateWorkCard {
  cw_repo : RepoId; cw_title : rstring; cw_body : option rstring; cw_priority : Priority;
  cw_lane_id : option LaneId; cw_reviews : option WorkCardId }.
Definition CreateWorkCard_new (repo : RepoId) (title : rstring) (priority : Priority) : CreateWorkCard :=
  MkCreateWorkCard repo title None priority None None.
Definition reviewing (parent : WorkCardId) (self : CreateWorkCard) : CreateWorkCard :=
  MkCreateWorkCard (cw_repo self) (cw_title self) (cw_body self) (cw_priority self) (cw_lane_id self) (Some parent).
Record ClaimWorkCard := MkClaimWorkCard { cq_card_id : WorkCardId; cq_ttl_ms : N }.
Record ReleaseWorkClaim := MkReleaseWorkClaim { rc_card_id : WorkCardId; rc_claim_id : ClaimId; rc_reason : option rstring }.
Record ChangeWorkCardState := MkChangeWorkCardState { cs_card_id : WorkCardId; cs_state : CardState }.
Record UpdateWorkCard := MkUpdateWorkCard {
  uw_card_id : WorkCardId; uw_title : option rstring; uw_body : option rstring; uw_priority : option Priority }.
Record LinkCardPullRequest := MkLinkCardPullRequest { lp_card_id : WorkCardId; lp_pull_request : PullRequestRef }.
Record RelinkCardPullRequest := MkRelinkCardPullRequest { rp_card_id : WorkCardId; rp_new_pull_request : PullRequestRef }.
Record MarkPullRequestMerged := MkMarkPullRequestMerged {
  mp_card_id : WorkCardId; mp_pull_request : PullRequestRef; mp_merged_at_ms : N }.
Record HeartbeatWorkClaim := MkHeartbeatWorkClaim { hw_card_id : WorkCardId; hw_claim_id : ClaimId; hw_ttl_ms : N }.
Record CreateWorkLane := MkCreateWorkLane { cn_repo : RepoId; cn_title : rstring; cn_state : LaneState }.
Record ChangeWorkLaneState := MkChangeWorkLaneState { cx_lane_id : LaneId; cx_state : LaneState }.
Record RequestWorkspace := MkRequestWorkspace {
  rq_card_id : WorkCardId; rq_claim_id : ClaimId; rq_repo : RepoId; rq_branch : BranchName; rq_base : BranchName }.
Record AllocateWorkspace := MkAllocateWorkspace { al_workspace_id : WorkspaceId; al_path : rstring }.
Record HeartbeatWorkspace := MkHeartbeatWorkspace { hk_workspace_id : WorkspaceId; hk_disk_bytes : option N }.
Record ClaimManagerHat := MkClaimManagerHat { ch_repo : RepoId; ch_ttl_ms : N }.
Record ReportAgentAvailability := MkReportAgentAvailability {
  ra_repo : RepoId; ra_state : AgentAvailabilityState; ra_note : option rstring; ra_ttl_ms : N }.

(** room.rs *)
Definition HEADER_AIRC_CHANNEL_NAME : rstring := str "airc.channel_name".
Definition stamp_name_header (self : Room) (headers : Headers) : Headers :=
  match rm_name self with
  | [] => headers
  | name => match headers !! HEADER_AIRC_CHANNEL_NAME with
            | Some _ => headers
            | None => <[HEADER_AIRC_CHANNEL_NAME := name]> headers
            end
  end.

(** ** Pure helpers *)
Definition build_operator_card_created (card_id : WorkCardId) (peer_id : PeerId) (now_ms : N) (request : CreateWorkCard)
    : CardCreated :=
  MkCardCreated card_id (cw_repo request) (cw_title request) (cw_body request) (cw_priority request) (cw_lane_id request)
    peer_id now_ms (cw_reviews request) (Some (OriginOperator peer_id)).
Record ObserveLocalGitWorkspace := MkObserveLocalGitWorkspace {
  og_repo : RepoId; og_workspace_id : option WorkspaceId; og_path : rstring; og_previous : option LocalGitSnapshot }.
Record ObservedLocalGitWorkspace := MkObservedLocalGitWorkspace {
  go_snapshot : LocalGitSnapshot; go_emitted_event_ids : list EventId }.
Record ObservePullRequests := MkObservePullRequests { op_repo : RepoId; op_previous : option RepoPullRequestSnapshot }.
Record ObservedPullRequests := MkObservedPullRequests {
  po_snapshot : RepoPullRequestSnapshot; po_emitted_event_ids : list EventId }.
(** What a claim request turns into. *)
Inductive ClaimGate := Fresh | Takeover (prev : ClaimId) (held_by : option PeerId) | Resume (claim : ClaimId).
Definition owner_resumes (card : WorkCard) (me : PeerId) : option ClaimId :=
  if bool_decide (owner card ≠ Some me) || is_terminal (state card) then None else claim_id card.
Section client.
Context {J : JsonValue} {S : Serde} {ENV : WorkEnv}.
Definition claim_gate_for (card : WorkCard) (me : PeerId) : result AircError ClaimGate :=
  match owner_resumes card me with
  | Some claim_id => Ok (Resume claim_id)
  | None =>
      if is_settled (state card) then Err (WorkCardNotClaimable (card_id card) (state card))
      else Ok (match claim_id card with None => Fresh | Some prev => Takeover prev (owner card) end)
  end.
Definition validate_relink_card_pull_request (card : WorkCard) (new_pull_request : PullRequestRef)
    : result AircError PullRequestRef :=
  if is_terminal (state card) then Err (WorkCardRelinkTerminalState (card_id card) (state card))
  else match pull_request card with
       | None => Err (WorkCardHasNoLinkedPullRequest (card_id card))
       | Some old =>
           if bool_decide (pr_repo old = pr_repo new_pull_request) && (pr_number old =? pr_number new_pull_request)%N
           then Err (WorkCardRelinkSamePullRequest (card_id card) (pr_repo old) (pr_number old))
           else Ok old
       end.
Variables (peer_id : PeerId) (source : WorkBoardCacheSource) (fuel : nat).
Definition call_now_ms : IO N := call NowMs.
Definition current_room : IO Room := call CurrentRoom.
Definition room_key (room : Room) : Key := (source, rm_channel room).
(** ** Publishing *)
Definition send_frame_to_room (body : Body) (headers : Headers) (room : Room) : IO EventId :=
  call (SendFrame (room_key room) (stamp_name_header room headers) body).
Definition send_frame (body : Body) (headers : Headers) : IO EventId :=
  room ← current_room; send_frame_to_room body headers room.
Definition publish_work_event (event : WorkEvent) : IO EventId :=
  frame ← lift EncodeFailed (encode_work_event event); send_frame frame.2 frame.1.
Definition publish_work_event_in (room : Room) (event : WorkEvent) : IO EventId :=
  frame ← lift EncodeFailed (encode_work_event event); send_frame_to_room frame.2 frame.1 room.
(** ** Reading *)
Definition room_board (room : Room) (page_size : nat) : IO Board := project_room_work_board (room_key room) page_size fuel.
Definition work_board_in (room : Room) : IO Board := room_board room WORK_BOARD_PROJECTION_PAGE_SIZE.
Definition work_board : IO Board := room ← current_room; work_board_in room.
Definition work_board_complete (page_size : nat) : IO Board := room ← current_room; room_board room page_size.
Definition ensure_work_card_in_room (room : Room) (card_id : WorkCardId) : IO unit :=
  board ← room_board room WORK_MUTATION_PAGE_SIZE;
  if is_some (card board card_id) then mret tt else io_throw (WorkCardNotInCurrentRoom card_id room).
Definition ensure_work_card_in_current_room (card_id : WorkCardId) : IO unit :=
  room ← current_room; ensure_work_card_in_room room card_id.
Definition claim_gate_in (room : Room) (card_id : WorkCardId) : IO ClaimGate :=
  board ← room_board room WORK_MUTATION_PAGE_SIZE;
  match card board card_id with
  | None => io_throw (WorkCardNotInCurrentRoom card_id room)
  | Some card => lift id (claim_gate_for card peer_id)
  end.

(** ** Cards *)
Definition create_work_card_in (room : Room) (request : CreateWorkCard) : IO WorkCardId :=
  u ← run NewUuid;
  let card_id := MkId u in
  now ← call_now_ms;
  _ ← publish_work_event_in room (EvCardCreated (build_operator_card_created card_id peer_id now request));
  mret card_id.
Definition create_work_card (request : CreateWorkCard) : IO WorkCardId :=
  u ← run NewUuid;
  let card_id := MkId u in
  now ← call_now_ms;
  _ ← publish_work_event (EvCardCreated (build_operator_card_created card_id peer_id now request));
  mret card_id.
Definition heartbeat_work_claim_in (room : Room) (request : HeartbeatWorkClaim) : IO unit :=
  _ ← ensure_work_card_in_room room (hw_card_id request);
  now ← call_now_ms;
  _ ← publish_work_event_in room
        (EvClaimHeartbeat (MkClaimHeartbeat (hw_card_id request) (hw_claim_id request) peer_id (hw_ttl_ms request) now));
  mret tt.
Definition heartbeat_work_claim (request : HeartbeatWorkClaim) : IO unit :=
  room ← current_room; heartbeat_work_claim_in room request.
Definition claim_fresh (room : Room) (request : ClaimWorkCard) (origin : ClaimOrigin) (selected_at_ms : option N)
    : IO ClaimId :=
  u ← run NewUuid;
  let claim_id := MkId u in
  now ← call_now_ms;
  _ ← publish_work_event_in room
        (EvCardClaimed (MkWorkCardClaimed selected_at_ms (cq_card_id request) claim_id peer_id (cq_ttl_ms request) now origin));
  mret claim_id.
Definition claim_work_card_with_provenance_in (room : Room) (request : ClaimWorkCard) (origin : ClaimOrigin)
    (selected_at_ms : option N) : IO ClaimId :=
  _ ← ensure_work_card_in_room room (cq_card_id request);
  gate ← claim_gate_in room (cq_card_id request);
  match gate with
  | Resume claim_id =>
      _ ← heartbeat_work_claim_in room (MkHeartbeatWorkClaim (cq_card_id request) claim_id (cq_ttl_ms request));
      mret claim_id
  | Takeover prev owner =>
      now ← call_now_ms;
      _ ← publish_work_event_in room
            (EvClaimReleased (MkClaimReleased (cq_card_id request) prev peer_id (Some (str "taken over")) now owner));
      claim_fresh room request origin selected_at_ms
  | Fresh => claim_fresh room request origin selected_at_ms
  end.
Definition claim_work_card_with_provenance (request : ClaimWorkCard) (origin : ClaimOrigin) (selected_at_ms : option N)
    : IO ClaimId :=
  room ← current_room; claim_work_card_with_provenance_in room request origin selected_at_ms.
Definition claim_work_card_with_origin (request : ClaimWorkCard) (origin : ClaimOrigin) : IO ClaimId :=
  claim_work_card_with_provenance request origin None.
Definition claim_work_card (request : ClaimWorkCard) : IO ClaimId := claim_work_card_with_origin request ClaimUnknown.
Definition select_work_claim (card_id : WorkCardId) (claim : ClaimId) : IO unit :=
  _ ← ensure_work_card_in_current_room card_id;
  room ← current_room;
  board ← room_board room WORK_MUTATION_PAGE_SIZE;
  at_ms ← call_now_ms;
  let valid := is_some_and (card board card_id) (λ card,
    bool_decide (owner card = Some peer_id) && bool_decide (claim_id card = Some claim)
    && is_some_and (claim_expires_at_ms card) (λ stop, (at_ms <? stop)%N) && negb (is_settled (state card))) in
  if negb valid then io_throw (WorkClaimNotCurrent card_id claim)
  else
    _ ← publish_work_event_in room (EvCardUpdated
          (MkCardUpdated (Some (MkClaimSelection claim peer_id at_ms)) card_id None None None peer_id at_ms));
    mret tt.
Definition release_work_claim_in (room : Room) (request : ReleaseWorkClaim) : IO unit :=
  _ ← ensure_work_card_in_room room (rc_card_id request);
  now ← call_now_ms;
  _ ← publish_work_event_in room
        (EvClaimReleased (MkClaimReleased (rc_card_id request) (rc_claim_id request) peer_id (rc_reason request) now None));
  mret tt.
Definition release_work_claim (request : ReleaseWorkClaim) : IO unit :=
  room ← current_room; release_work_claim_in room request.
Definition update_work_card_in (room : Room) (request : UpdateWorkCard) : IO unit :=
  _ ← ensure_work_card_in_room room (uw_card_id request);
  now ← call_now_ms;
  _ ← publish_work_event_in room (EvCardUpdated
        (MkCardUpdated None (uw_card_id request) (uw_title request) (uw_body request) (uw_priority request) peer_id now));
  mret tt.
Definition update_work_card (request : UpdateWorkCard) : IO unit :=
  room ← current_room; update_work_card_in room request.
Definition change_work_card_state_in (room : Room) (request : ChangeWorkCardState) : IO unit :=
  _ ← ensure_work_card_in_room room (cs_card_id request);
  now ← call_now_ms;
  _ ← publish_work_event_in room
        (EvCardStateChanged (MkCardStateChanged (cs_card_id request) (cs_state request) peer_id now));
  mret tt.
Definition change_work_card_state (request : ChangeWorkCardState) : IO unit :=
  room ← current_room; change_work_card_state_in room request.
Definition link_card_pull_request_in (room : Room) (request : LinkCardPullRequest) : IO unit :=
  _ ← ensure_work_card_in_room room (lp_card_id request);
  now ← call_now_ms;
  _ ← publish_work_event_in room
        (EvPullRequestLinked (MkPullRequestLinked (lp_card_id request) (lp_pull_request request) peer_id now));
  mret tt.
Definition link_card_pull_request (request : LinkCardPullRequest) : IO unit :=
  room ← current_room; link_card_pull_request_in room request.
Definition relink_card_pull_request (request : RelinkCardPullRequest) : IO PullRequestRef :=
  room ← current_room;
  board ← room_board room WORK_MUTATION_PAGE_SIZE;
  match card board (rp_card_id request) with
  | None => io_throw (WorkCardNotInCurrentRoom (rp_card_id request) room)
  | Some card =>
      old ← lift id (validate_relink_card_pull_request card (rp_new_pull_request request));
      now ← call_now_ms;
      _ ← publish_work_event (EvPullRequestRelinked
            (MkPullRequestRelinked (rp_card_id request) old (rp_new_pull_request request) peer_id now));
      mret old
  end.
Definition mark_pull_request_merged_in (room : Room) (request : MarkPullRequestMerged) : IO unit :=
  _ ← ensure_work_card_in_room room (mp_card_id request);
  _ ← publish_work_event_in room (EvPullRequestMerged
        (MkPullRequestMerged (mp_card_id request) (mp_pull_request request) peer_id (mp_merged_at_ms request)));
  mret tt.
Definition mark_pull_request_merged (request : MarkPullRequestMerged) : IO unit :=
  room ← current_room; mark_pull_request_merged_in room request.

(** ** Submissions and reviews *)
Definition ensure_submission_review_in (room : Room) (parent : WorkCardId) (submission : SubmissionId)
    (request : CreateWorkCard) : IO WorkCardId :=
  board ← work_board_in room;
  let card_id := submission_review_card_id parent submission in
  match review_request board card_id with
  | Some recorded => _ ← lift ReviewRejectedFor (request_validate_for_board recorded board); mret card_id
  | None =>
      now ← call_now_ms;
      let handoff := MkSubmissionReviewRequested
        (build_operator_card_created card_id peer_id now (reviewing parent request)) submission in
      _ ← lift ReviewRejectedFor (request_validate_for_board handoff board);
      _ ← publish_work_event_in room (EvSubmissionReviewRequested handoff);
      mret card_id
  end.
Definition review_work_submission_in (room : Room) (request : ReviewWorkSubmission) : IO WorkSubmissionReview :=
  board ← work_board_in room;
  now ← call_now_ms;
  let review := MkWorkSubmissionReview (rw_review_id request) (rw_card_id request) (rw_submission_id request)
    (rw_artifact request) (rw_review_card_id request) (rw_review_claim_id request) peer_id (rw_outcome request)
    (rw_evidence request) (rw_evidence_text request) now in
  _ ← lift ReviewRejectedFor (review_validate_for_board review board);
  match submission_review board (wr_review_id review) with
  | Some prior => mret prior
  | None => _ ← publish_work_event_in room (EvWorkSubmissionReviewed review); mret review
  end.
Definition submission_of (request : SubmitWork) (submitted_at_ms : N) : WorkSubmission :=
  MkWorkSubmission (sw_submission_id request) (sw_card_id request) (sw_claim_id request) (sw_instance request)
    (sw_base_sha request) (sw_artifact request) peer_id submitted_at_ms.
Definition submit_work_in (room : Room) (request : SubmitWork) : IO WorkSubmission :=
  board ← work_board_in room;
  card ← lift ProjectionFailed (ok_or (UnknownCard (sw_card_id request)) (card board (sw_card_id request)));
  now ← call_now_ms;
  let submission := submission_of request now in
  match List.find (λ s, bool_decide (ws_submission_id s = ws_submission_id submission)) (submissions card) with
  | Some prior =>
      _ ← lift SubmissionRejectedFor (validate_for_card (submission_of request (ws_submitted_at_ms prior)) card);
      mret prior
  | None =>
      _ ← lift SubmissionRejectedFor (validate_for_card submission card);
      _ ← publish_work_event_in room (EvWorkSubmitted submission);
      mret submission
  end.

(** ** Lanes, workspaces, the manager hat, availability *)
Definition create_work_lane (request : CreateWorkLane) : IO LaneId :=
  u ← run NewUuid;
  let lane_id := MkId u in
  now ← call_now_ms;
  _ ← publish_work_event
        (EvLaneCreated (MkLaneCreated lane_id (cn_repo request) (cn_title request) (cn_state request) peer_id now));
  mret lane_id.
Definition change_work_lane_state (request : ChangeWorkLaneState) : IO unit :=
  now ← call_now_ms;
  _ ← publish_work_event (EvLaneStateChanged (MkLaneStateChanged (cx_lane_id request) (cx_state request) peer_id now));
  mret tt.
Definition request_workspace (request : RequestWorkspace) : IO WorkspaceId :=
  u ← run NewUuid;
  let workspace_id := MkId u in
  now ← call_now_ms;
  _ ← publish_work_event (EvWorkspaceRequested (MkWorkspaceRequested workspace_id (rq_card_id request)
        (rq_claim_id request) peer_id (rq_repo request) (rq_branch request) (rq_base request) now));
  mret workspace_id.
Definition allocate_workspace (request : AllocateWorkspace) : IO unit :=
  now ← call_now_ms;
  _ ← publish_work_event (EvWorkspaceAllocated (MkWorkspaceAllocated (al_workspace_id request) (al_path request) now));
  mret tt.
Definition heartbeat_workspace (request : HeartbeatWorkspace) : IO unit :=
  now ← call_now_ms;
  _ ← publish_work_event
        (EvWorkspaceHeartbeat (MkWorkspaceHeartbeat (hk_workspace_id request) (hk_disk_bytes request) now));
  mret tt.
Definition release_workspace (workspace_id : WorkspaceId) : IO unit :=
  now ← call_now_ms;
  _ ← publish_work_event (EvWorkspaceReleased (MkWorkspaceReleased workspace_id now));
  mret tt.
Definition claim_manager_hat (request : ClaimManagerHat) : IO unit :=
  now ← call_now_ms;
  _ ← publish_work_event (EvManagerHatClaimed (MkManagerHatClaimed (ch_repo request) peer_id (ch_ttl_ms request) now));
  mret tt.
Definition release_manager_hat (repo : RepoId) : IO unit :=
  now ← call_now_ms;
  _ ← publish_work_event (EvManagerHatReleased (MkManagerHatReleased repo peer_id now));
  mret tt.
Definition report_agent_availability (request : ReportAgentAvailability) : IO unit :=
  now ← call_now_ms;
  _ ← publish_work_event (EvAgentAvailabilityReported (MkAgentAvailabilityReported (ra_repo request) peer_id
        (ra_state request) (ra_note request) (ra_ttl_ms request) now));
  mret tt.
(** ** The observers: the events go to the current room, one by one *)
Fixpoint publish_each (events : list WorkEvent) : IO (list EventId) :=
  match events with
  | [] => mret []
  | event :: events => id ← publish_work_event event; ids ← publish_each events; mret (id :: ids)
  end.
Definition observe_local_git_workspace `{!GitCommandRunner} (request : ObserveLocalGitWorkspace) : IO ObservedLocalGitWorkspace :=
  let workspace := MkLocalGitWorkspace (og_repo request) (og_workspace_id request) (og_path request) in
  snapshot ← lift LocalGitFailed (observe workspace);
  now ← call_now_ms;
  ids ← publish_each (local_git_events_since workspace (og_previous request) snapshot peer_id now);
  mret (MkObservedLocalGitWorkspace snapshot ids).
Definition observe_pull_requests `{!PullRequestSource} (request : ObservePullRequests) : IO ObservedPullRequests :=
  snapshot ← lift PullRequestSourceFailed (observe_pulls (op_repo request));
  now ← call_now_ms;
  ids ← publish_each (pull_request_events_since (op_previous request) snapshot peer_id now);
  mret (MkObservedPullRequests snapshot ids).
End client.
