(* ===== verification/WorkClientThms.v ===== *)
(** What the client's calls do to a room's board: others acting at the same time, and
    alone, no call failing. *)
From stdpp Require Import base gmap strings list sorting numbers.
From Stdlib Require Import Lia.
From S2P Require Import Prelude.
From S2P Require Import WorkModel.
From S2P Require Import WorkBoard.
From S2P Require Import WorkBoardFacts.
From S2P Require Import WorkBoardInv.
From S2P Require Import WorkBoardSpec.
From S2P Require Import WorkScenario.
From S2P Require Import CoreTranscript.
From S2P Require Import WorkCodec.
From S2P Require Import WorkReplayThms.
From S2P Require Import WorkObserve.
From S2P Require Import WorkStore.
From S2P Require Import WorkStoreThms.
From S2P Require Import WorkClient.

Notation Prog := (Prelude.Prog Act).
Notation IO := (IO_of Act AircError).

Section client.
Context {J : JsonValue} {S : Serde} {ENV : WorkEnv}.

(** ** Replaying what was published *)
Lemma stamp_hint room headers :
  stamp_name_header room headers !! HEADER_FORGE_BODY_HINT = headers !! HEADER_FORGE_BODY_HINT.
Proof.
  unfold stamp_name_header. repeat case_match; try done. by rewrite lookup_insert_ne by (vm_compute; congruence).
Qed.
(** [me]'s own event: no reader rewrites or refuses it. *)
Definition own_event (me : PeerId) (ev : WorkEvent) : Prop :=
  wire_event ev = true ∧
  authenticate_review me (authenticate_submission me (authenticate_selection me ev)) = ev ∧
  match ev with EvSubmissionReviewRequested q => cc_created_by (srr_card q) = me | _ => True end.
Lemma decode_published me k room ev headers body t :
  SerdeLaws S → own_event me ev → encode_work_event ev = Ok (headers, body) →
  published me k (stamp_name_header room headers) body t →
  decode_transcript_work_event t = Ok (MkWorkReplayItem (te_cursor t) ev) ∧ transcript_is_work_event t = true.
Proof.
  intros L (Hwire & Hauth & Hreq) Henc (Hpeer & _ & Hh & Hb).
  destruct (serde_round_trip ev Hwire) as (v & Hto & Hfrom).
  unfold encode_work_event in Henc. rewrite Hto in Henc. cbn in Henc. injection Henc as <- <-.
  assert (te_headers t !! HEADER_FORGE_BODY_HINT = Some (work_event_body_hint ev)) as Hhint.
  { by rewrite Hh, stamp_hint, work_event_headers_hint. }
  assert (transcript_is_work_event t = true) as Hwork.
  { unfold transcript_is_work_event. rewrite Hhint. apply body_hint_is_work. }
  split; [|done]. unfold decode_transcript_work_event, decode_work_event, require_work_event_hint.
  rewrite Hwork, Hhint, body_hint_is_work, Hb. cbn. rewrite Hfrom. cbn. rewrite bool_decide_false by naive_solver.
  cbn. rewrite Hpeer, Hauth. destruct ev; try done. cbn in Hreq. rewrite Hreq. by rewrite bool_decide_false by naive_solver.
Qed.
Lemma project_prefix l1 l2 b : project_transcripts (l1 ++ l2) = Ok b → ∃ b1, project_transcripts l1 = Ok b1.
Proof.
  unfold project_transcripts, apply_transcripts, decode_page. rewrite decode_events_app.
  destruct (decode_events l1) as [e1|]; [|done]. destruct (decode_events l2) as [e2|]; [|done]. cbn.
  rewrite st_iter_app. unfold mbind, st_bind. destruct (st_iter apply_windowed e1 Board_new) as [[[]|] b1]; [eauto|done].
Qed.
Lemma project_snoc l b t ev : project_transcripts l = Ok b →
  decode_transcript_work_event t = Ok (MkWorkReplayItem (te_cursor t) ev) → transcript_is_work_event t = true →
  project_transcripts (l ++ [t]) =
    match apply_windowed ev b with (Ok _, b') => Ok b' | (Err e, _) => Err (WsProjection e) end.
Proof.
  intros Hb Hd Hw. rewrite (project_app _ _ _ Hb). unfold apply_transcripts, decode_page. cbn. rewrite Hw, Hd. cbn.
  unfold mbind, st_bind. by destruct (apply_windowed ev b) as [[[]|] ?].
Qed.
(** A card stays on the board as the log grows. *)
Lemma project_board_le l1 l2 b1 b2 : l1 `prefix_of` l2 →
  project_transcripts l1 = Ok b1 → project_transcripts l2 = Ok b2 → board_le b1 b2.
Proof.
  intros [l ->] H1. rewrite (project_app _ _ _ H1). unfold apply_transcripts.
  destruct (decode_page l) as [page|]; [|done].
  pose proof (run_inv (board_le b1) (wep_events page) b1) as [_ Hle].
  { intros ev b H. eapply board_le_trans; [done|apply apply_board_le]. } { apply board_le_refl. }
  destruct (st_iter apply_windowed _ b1) as [[[]|e] b']; [|done]. by intros [= <-].
Qed.
Lemma project_wf l b : project_transcripts l = Ok b → board_wf b.
Proof.
  unfold project_transcripts, apply_transcripts. destruct (decode_page l) as [page|]; [|done].
  pose proof (run_inv board_wf (wep_events page) Board_new (λ ev b, apply_board_wf ev b) Board_new_wf) as [_ Hwf].
  destruct (st_iter apply_windowed _ Board_new) as [[[]|e] b']; [|done]. by intros [= <-].
Qed.
(** A frame about a card that was on the board moves that card, and later events find it moved. *)
Lemma published_takes_effect me k room l0 l ev headers body t later b0 b' i f c0 :
  SerdeLaws S → own_event me ev → card_event ev = Some (i, f) → encode_work_event ev = Ok (headers, body) →
  published me k (stamp_name_header room headers) body t →
  l0 `prefix_of` l → project_transcripts l0 = Ok b0 → cards b0 !! i = Some c0 →
  project_transcripts (l ++ t :: later) = Ok b' →
  ∃ b1 c b2, project_transcripts l = Ok b1 ∧ cards b1 !! i = Some c ∧
    project_transcripts (l ++ [t]) = Ok b2 ∧ cards b2 !! i = Some (f c).
Proof.
  intros L Hown Hev Henc Hpub Hl Hb0 Hc0 Hb'.
  destruct (decode_published _ _ _ _ _ _ _ L Hown Henc Hpub) as [Hd Hw].
  destruct (project_prefix _ _ _ Hb') as [b1 Hb1].
  destruct (project_board_le _ _ _ _ Hl Hb0 Hb1 _ _ Hc0) as (c & Hc & _).
  exists b1, c. eexists. split; [done|]. split; [done|]. rewrite (project_snoc _ _ _ _ Hb1 Hd Hw).
  unfold apply_windowed. rewrite (apply_card_event _ _ _ _ Hev). unfold card_mut. rewrite Hc.
  split; [done|]. cbn. by rewrite lookup_insert_eq.
Qed.

(** ** Guarded calls *)
Section guarded.
Variables (me : PeerId) (P : ∀ B, Act B → World → Prop).
Notation guard := (guarded me others P).
Lemma guarded_bind {A B} (p : Prog A) (k : A → Prog B) w :
  guard p w → (∀ a w', runs me others p w a w' → guard (k a) w') → guard (prog_bind p k) w.
Proof.
  revert w. induction p as [a|B' a c IH]; intros w Hp Hk; cbn in *; [by apply Hk|].
  intros w1 H1. destruct (Hp w1 H1) as [? Hp2]. split; [done|]. intros x w2 H2. apply IH; [auto|].
  intros a' w' Hr. apply Hk. eauto 6.
Qed.
Lemma guarded_io {A B} (p : IO A) (k : A → IO B) w :
  guard p w → (∀ a w', runs me others p w (Ok a) w' → guard (k a) w') → guard (p ≫= k) w.
Proof. intros Hp Hk. apply guarded_bind; [done|]. intros [a|e] w' Hr; [auto|done]. Qed.
Hypothesis HP : ∀ B (a : Act B) w, sends a = false → P _ a w.
Lemma guarded_quiet {A} (p : Prog A) w : quiet p → guard p w.
Proof. revert w. induction p as [|B a k IH]; intros w; cbn; [done|]. intros [? ?] w1 _. split; [auto|]. auto. Qed.
Lemma guarded_send k h b w : (∀ w1, others w w1 → P _ (SendFrame k h b) w1) → guard (call (SendFrame k h b)) w.
Proof. intros H w1 H1. split; [auto|]. by intros [] ? _. Qed.
End guarded.

(** ** What the card operations send *)
Section ops.
Variables (peer_id : PeerId) (source : WorkBoardCacheSource) (fuel : nat).
Notation runs := (WorkStore.runs peer_id others).
Notation room_key := (room_key source).
Inductive CardOp :=
| OpClaim (room : Room) (request : ClaimWorkCard) (origin : ClaimOrigin) (selected_at_ms : option N)
| OpSelect (card_id : WorkCardId) (claim : ClaimId)
| OpRelease (room : Room) (request : ReleaseWorkClaim)
| OpUpdate (room : Room) (request : UpdateWorkCard)
| OpState (room : Room) (request : ChangeWorkCardState)
| OpLink (room : Room) (request : LinkCardPullRequest)
| OpMerged (room : Room) (request : MarkPullRequestMerged)
| OpHeartbeat (room : Room) (request : HeartbeatWorkClaim)
| OpSubmit (room : Room) (request : SubmitWork).
Definition op_card (op : CardOp) : WorkCardId :=
  match op with
  | OpClaim _ r _ _ => cq_card_id r | OpSelect c _ => c | OpRelease _ r => rc_card_id r | OpUpdate _ r => uw_card_id r
  | OpState _ r => cs_card_id r | OpLink _ r => lp_card_id r | OpMerged _ r => mp_card_id r
  | OpHeartbeat _ r => hw_card_id r | OpSubmit _ r => sw_card_id r
  end.
(** The room a caller named; [select_work_claim] acts on the current one. *)
Definition op_room (op : CardOp) : option Room :=
  match op with
  | OpSelect _ _ => None
  | OpClaim r _ _ _ | OpRelease r _ | OpUpdate r _ | OpState r _ | OpLink r _ | OpMerged r _ | OpHeartbeat r _
  | OpSubmit r _ => Some r
  end.
Definition op_prog (op : CardOp) : IO unit :=
  match op with
  | OpClaim room r o s => _ ← claim_work_card_with_provenance_in peer_id source fuel room r o s; mret tt
  | OpSelect c cl => select_work_claim peer_id source fuel c cl
  | OpRelease room r => release_work_claim_in peer_id source fuel room r
  | OpUpdate room r => update_work_card_in peer_id source fuel room r
  | OpState room r => change_work_card_state_in peer_id source fuel room r
  | OpLink room r => link_card_pull_request_in peer_id source fuel room r
  | OpMerged room r => mark_pull_request_merged_in peer_id source fuel room r
  | OpHeartbeat room r => heartbeat_work_claim_in peer_id source fuel room r
  | OpSubmit room r => _ ← submit_work_in peer_id source fuel room r; mret tt
  end.
(** Sent now, the frame moves card [i] of the room it is sent to: any replay of the log
    with it finds the card there and changes it as the frame's event says. *)
Definition takes_effect (named : option Room) (i : WorkCardId) {B} (a : Act B) (w : World) : Prop :=
  match a with
  | SendFrame k h body =>
      ∃ room ev f headers, k = room_key room ∧ (∀ r, named = Some r → room = r) ∧ card_event ev = Some (i, f) ∧
        encode_work_event ev = Ok (headers, body) ∧ h = stamp_name_header room headers ∧
        ∀ t later b', published peer_id k h body t → project_transcripts (log_of w k ++ t :: later) = Ok b' →
          ∃ b1 c b2, project_transcripts (log_of w k) = Ok b1 ∧ cards b1 !! i = Some c ∧
            project_transcripts (log_of w k ++ [t]) = Ok b2 ∧ cards b2 !! i = Some (f c)
  | _ => True
  end.
Definition on_board (room : Room) (i : WorkCardId) (w : World) : Prop :=
  ∃ l b c, l `prefix_of` log_of w (room_key room) ∧ project_transcripts l = Ok b ∧ cards b !! i = Some c.
Lemma on_board_grows room i w w' : grows w w' → on_board room i w → on_board room i w'.
Proof. intros Hg (l & b & c & ? & ? & ?). exists l, b, c. split_and!; try done. etrans; [done|by apply grows_log]. Qed.
Lemma read_on_board room n i w w' b c : world_ok w → runs (room_board source fuel room n) w (Ok b) w' →
  card b i = Some c → grows w w' ∧ on_board room i w'.
Proof. intros Hw (Hg & l & ? & ? & ?)%board_read_spec Hc; [|done]. split; [done|]. by exists l, b, c. Qed.
Lemma ensure_spec room i w w' : world_ok w → runs (ensure_work_card_in_room source fuel room i) w (Ok tt) w' →
  grows w w' ∧ on_board room i w'.
Proof.
  intros Hw (ra & w1 & Hread & Hr)%client_runs_io. destruct ra as [b|]; [|by destruct Hr].
  destruct (card b i) as [c|] eqn:Hc; [|by destruct Hr]. destruct Hr as [_ ->]. by eapply read_on_board.
Qed.
Lemma run_grows {A} (a : Act A) w r w' : world_ok w → (∀ w, saves a w) → runs (run a) w r w' → grows w w'.
Proof.
  intros Hw Hs (w1 & x & H1%others_grow & Ha & ->)%client_runs_run; [|done].
  eapply grows_trans; [done|]. eapply act_grows; [by eapply grows_ok|apply Hs|done].
Qed.
Lemma call_grows {A} (a : Act (result rstring A)) w r w' : world_ok w → (∀ w, saves a w) → runs (call a) w r w' → grows w w'.
Proof. intros ?? Hr. by apply runs_call_grows in Hr as [? _]. Qed.
Lemma publish_grows room ev w r w' : world_ok w → runs (publish_work_event_in source room ev) w r w' → grows w w'.
Proof.
  intros Hw (ra & w1 & Hl & Hr)%client_runs_io. apply runs_lift in Hl as [-> ->].
  destruct (encode_work_event ev); [|destruct Hr as [_ ->]; by apply grows_refl]. by apply call_grows in Hr.
Qed.

Notation guard named i := (guarded peer_id others (λ B a w, takes_effect named i a w)).
Lemma effect_quiet named i B (a : Act B) w : sends a = false → takes_effect named i a w.
Proof. by destruct a. Qed.
Lemma guard_quiet named i {A} (p : Prog A) w : quiet p → guard named i p w.
Proof. apply guarded_quiet. apply effect_quiet. Qed.
Lemma guard_publish named room ev i f w : SerdeLaws S → own_event peer_id ev → card_event ev = Some (i, f) →
  (∀ r, named = Some r → room = r) → world_ok w → on_board room i w → guard named i (publish_work_event_in source room ev) w.
Proof.
  intros L Hown Hev Hr Hw Hon. unfold publish_work_event_in.
  destruct (encode_work_event ev) as [[headers body]|] eqn:Henc; [|done].
  apply guarded_io; [done|]. intros frame w' [Ef ->]. cbn in Ef. injection Ef as ->. unfold send_frame_to_room. apply guarded_send.
  intros w1 Hg%others_grow; [|done]. exists room, ev, f, headers. split_and!; try done.
  intros t later b' Hpub Hb'. destruct (on_board_grows _ _ _ _ Hg Hon) as (l & b0 & c0 & ? & ? & ?).
  by eapply published_takes_effect.
Qed.
(** [ensure; now; publish]: what most operations are. *)
Lemma guard_stamped room i f (mk : N → WorkEvent) w : SerdeLaws S → world_ok w → on_board room i w →
  (∀ now, own_event peer_id (mk now) ∧ card_event (mk now) = Some (i, f now)) →
  guard (Some room) i (now ← call_now_ms; _ ← publish_work_event_in source room (mk now); mret tt) w.
Proof.
  intros L Hw Hon Hmk. apply guarded_io; [apply guard_quiet; by apply quiet_call|]. intros now w1 Hnow.
  apply call_grows in Hnow; [|done|done]. apply guarded_io; [|done]. destruct (Hmk now).
  eapply guard_publish; try done. { by intros ? [= <-]. } { by eapply grows_ok. } by eapply on_board_grows.
Qed.
Lemma quiet_ensure room i : quiet (ensure_work_card_in_room source fuel room i).
Proof. apply sendless_io; [apply quiet_read|]. intros b. by case_match. Qed.
Lemma guard_ensured {A} named room i (k : IO A) w : world_ok w →
  (∀ w, world_ok w → on_board room i w → guard named i k w) →
  guard named i (_ ← ensure_work_card_in_room source fuel room i; k) w.
Proof.
  intros Hw Hk. apply guarded_io; [apply guard_quiet, quiet_ensure|]. intros [] w1 Hr.
  apply ensure_spec in Hr as [??]; [|done]. apply Hk; [by eapply grows_ok|done].
Qed.

Lemma guard_fresh room r o s w : SerdeLaws S → world_ok w → on_board room (cq_card_id r) w →
  guard (Some room) (cq_card_id r) (claim_fresh peer_id source room r o s) w.
Proof.
  intros L Hw Hon. apply guarded_io; [apply guard_quiet; by split|]. intros u w1 Hu%run_grows; [|done|done].
  apply guarded_io; [apply guard_quiet; by apply quiet_call|]. intros now w2 Hnow%call_grows; [|by eapply grows_ok|done].
  apply guarded_io; [|done]. eapply guard_publish; try done.
  { by intros ? [= <-]. } { by eapply grows_ok. } do 2 (eapply on_board_grows; [done|]). done.
Qed.
Lemma guard_heartbeat room r w : SerdeLaws S → world_ok w →
  guard (Some room) (hw_card_id r) (heartbeat_work_claim_in peer_id source fuel room r) w.
Proof. intros L Hw. apply guard_ensured; [done|]. intros w1 Hw1 Hon. by eapply guard_stamped. Qed.
Lemma guard_claim room r o s w : SerdeLaws S → world_ok w →
  guard (Some room) (cq_card_id r) (claim_work_card_with_provenance_in peer_id source fuel room r o s) w.
Proof.
  intros L Hw. apply guard_ensured; [done|]. intros w1 Hw1 Hon. apply guarded_io.
  { apply guard_quiet, sendless_io; [apply quiet_read|]. intros b. by case_match. }
  intros gate w2 Hgate. apply client_runs_io in Hgate as (rb & w3 & Hread & Hgate).
  destruct rb as [b|]; [|by destruct Hgate].
  destruct (card b (cq_card_id r)) as [c|] eqn:Hc; [|by destruct Hgate].
  apply runs_lift in Hgate as [_ ->]. eapply read_on_board in Hread as [Hg3 Hon3]; [|done|done].
  pose proof (grows_ok _ _ Hg3) as Hw3. destruct gate as [|prev held|claim].
  - by apply guard_fresh.
  - apply guarded_io; [apply guard_quiet; by apply quiet_call|]. intros now w4 Hnow%call_grows; [|done|done].
    pose proof (grows_ok _ _ Hnow) as Hw4. apply (on_board_grows _ _ _ _ Hnow) in Hon3. apply guarded_io.
    + eapply guard_publish; try done. by intros ? [= <-].
    + intros e w5 Hp%publish_grows; [|done]. apply guard_fresh; [done|by eapply grows_ok|by eapply on_board_grows].
  - apply guarded_io; [|done]. by apply (guard_heartbeat room (MkHeartbeatWorkClaim (cq_card_id r) claim (cq_ttl_ms r))).
Qed.
Lemma own_update cu : cu_updated_by cu = peer_id → (∀ s, cu_claim_selection cu = Some s → cs_owner s = peer_id) →
  own_event peer_id (EvCardUpdated cu).
Proof.
  intros Hu Hs. split; [done|]. split; [|done]. unfold authenticate_selection.
  destruct (cu_claim_selection cu) as [s|]; [|done]. cbn. by rewrite (Hs s), Hu, !bool_decide_false by naive_solver.
Qed.
Lemma guard_select i cl w : SerdeLaws S → world_ok w → guard None i (select_work_claim peer_id source fuel i cl) w.
Proof.
  intros L Hw. unfold select_work_claim. apply guarded_io.
  { apply guard_quiet, sendless_io; [by apply quiet_call|intros r; apply quiet_ensure]. }
  intros [] w1 He. assert (world_ok w1) as Hw1.
  { apply client_runs_io in He as (rr & w0 & Hcall & He). apply call_grows in Hcall; [|done|done].
    destruct rr as [room|]; [|by destruct He]. apply ensure_spec in He as [Hg _]; by eapply grows_ok. }
  apply guarded_io; [apply guard_quiet; by apply quiet_call|]. intros room w2 Hr%call_grows; [|done|done].
  apply guarded_io; [apply guard_quiet, quiet_read|]. intros b w3 Hread. pose proof (grows_ok _ _ Hr) as Hw2.
  assert (world_ok w3) as Hw3 by (apply board_read_spec in Hread as [Hg _]; [by eapply grows_ok|done]).
  apply guarded_io; [apply guard_quiet; by apply quiet_call|]. intros now w4 Hnow%call_grows; [|done|done].
  destruct (negb _) eqn:Hv; [done|]. apply negb_false_iff, is_some_and_true in Hv as (c & Hc & _).
  eapply read_on_board in Hread as [_ Hon]; [|done|done]. apply guarded_io; [|done].
  eapply guard_publish; try done.
  - apply own_update; [done|]. by intros s [= <-].
  - by eapply grows_ok.
  - by eapply on_board_grows.
Qed.
Lemma own_submission s : ws_publisher s = peer_id → submission_validate s = Ok tt → own_event peer_id (EvWorkSubmitted s).
Proof.
  intros Hp Hv. split; [done|]. split; [|done]. cbn [authenticate_selection]. unfold authenticate_submission.
  by rewrite bool_decide_false, Hv by naive_solver.
Qed.
Lemma guard_submit room r w : SerdeLaws S → world_ok w →
  guard (Some room) (sw_card_id r) (submit_work_in peer_id source fuel room r) w.
Proof.
  intros L Hw. unfold submit_work_in, work_board_in. apply guarded_io; [apply guard_quiet, quiet_read|].
  intros b w1 Hread. apply guarded_io; [done|]. intros c w2 [Hc ->]. unfold ok_or in Hc.
  destruct (card b (sw_card_id r)) as [c'|] eqn:Hcard; [|done]. injection Hc as ->.
  eapply read_on_board in Hread as [Hg1 Hon]; [|done|done]. pose proof (grows_ok _ _ Hg1) as Hw1.
  apply guarded_io; [apply guard_quiet; by apply quiet_call|]. intros now w3 Hnow%call_grows; [|done|done].
  destruct (List.find _ _) as [prior|] eqn:Hfind; [apply guarded_io; done|].
  apply guarded_io; [done|]. intros [] w4 [Hv ->]. apply guarded_io; [|done]. eapply guard_publish; try done.
  - apply own_submission; [done|]. unfold validate_for_card in Hv. rewrite Hfind in Hv.
    destruct (submission_validate _) as [[]|]; [done|]. cbn in Hv. done.
  - by intros ? [= <-].
  - by eapply grows_ok.
  - by eapply on_board_grows.
Qed.
End ops.

End client.

Import Scenario ReplayScenario BoardWorld.

(** ** The client alone, no call failing *)
Section rest.
Context {J : JsonValue} {S : Serde} {ENV : WorkEnv}.
Variables (peer_id : PeerId) (metadata : Json).
Notation exec := (WorkStore.exec peer_id metadata).

Lemma client_exec_bind {A B} (p : Prog A) (k : A → Prog B) w :
  exec (prog_bind p k) w = let '(a, w1) := exec p w in exec (k a) w1.
Proof. revert w. induction p as [a|B' a c IH]; intros w; [done|]. cbn. destruct (exec_act _ _ a w) as [x w1]. apply IH. Qed.
Lemma client_exec_io {A B} (p : IO A) (k : A → IO B) w :
  exec (p ≫= k) w = match exec p w with (Ok a, w1) => exec (k a) w1 | (Err e, w1) => (Err e, w1) end.
Proof. unfold mbind, io_bind. rewrite client_exec_bind. by destruct (exec p w) as [[]]. Qed.

(** ** Reading *)
Lemma exec_resume_pages k n fuel : (0 < n)%nat → ∀ pre all rest w, world_ok w → log_of w k = pre ++ all ++ rest →
  (length rest < fuel)%nat → exec (resume_pages k n fuel (log_end (pre ++ all)) all) w = (Ok (all ++ rest), w).
Proof.
  intros Hn. induction fuel as [|fuel IH]; intros pre all rest w Hw Hlog Hlen; [lia|].
  cbn [resume_pages]. rewrite client_exec_io. cbn [call WorkStore.exec exec_act].
  rewrite Hlog, app_assoc, after_start by (rewrite <- app_assoc, <- Hlog; apply Hw). cbn [WorkStore.exec].
  destruct (last (take n rest)) as [newest|] eqn:Hlast.
  - rewrite length_take. destruct (Nat.ltb_spec (n `min` length rest) n) as [Hlt|Hge].
    + cbn. by rewrite take_ge by lia.
    + assert (te_cursor newest = log_end (pre ++ (all ++ take n rest))) as ->.
      { rewrite app_assoc. symmetry. apply start_app. unfold tip. by rewrite Hlast. }
      rewrite (IH pre (all ++ take n rest) (drop n rest) w Hw).
      * by rewrite <- app_assoc, take_drop.
      * by rewrite <- app_assoc, take_drop.
      * rewrite length_drop. lia.
  - apply last_None in Hlast. destruct rest; [by rewrite app_nil_r|]. destruct n; [lia|done].
Qed.
Lemma decode_ok_page (l : list TranscriptEvent) : decode_envelopes (Ok <$> l) = Ok l.
Proof. induction l as [|t l IH]; [done|]. cbn. by rewrite IH. Qed.
Lemma exec_inbox_pages k n fuel : (0 < n)%nat → ∀ pre all rest w, world_ok w → log_of w k = pre ++ all ++ rest →
  (length rest < fuel)%nat → exec (inbox_pages k n fuel (log_end (pre ++ all)) all) w = (Ok (all ++ rest), w).
Proof.
  intros Hn. induction fuel as [|fuel IH]; intros pre all rest w Hw Hlog Hlen; [lia|].
  cbn [inbox_pages]. rewrite client_exec_io. cbn [call WorkStore.exec exec_act].
  rewrite Hlog, app_assoc, after_start by (rewrite <- app_assoc, <- Hlog; apply Hw).
  cbn [WorkStore.exec in_envelopes in_newest in_has_more]. rewrite client_exec_io, decode_ok_page. cbn [lift WorkStore.exec].
  rewrite length_fmap, length_take. cbn [negb andb].
  destruct (Nat.ltb_spec (n `min` length rest) n) as [Hlt|Hge]; [cbn; by rewrite take_ge by lia|].
  destruct (tip (take n rest)) as [cursor|] eqn:Htip.
  - rewrite <- (start_app (pre ++ all) _ cursor Htip), <- app_assoc.
    rewrite (IH pre (all ++ take n rest) (drop n rest) w Hw); rewrite ?length_drop, <- ?app_assoc, ?take_drop; try done. lia.
  - apply tip_None in Htip. destruct rest; [cbn in Hge; lia|]. destruct n; [lia|done].
Qed.
Lemma exec_transcripts_since k n fuel pre rest w : world_ok w → log_of w k = pre ++ rest → (length rest < fuel)%nat →
  exec (room_transcripts_since k (log_end pre) n fuel) w = (Ok rest, w).
Proof.
  intros Hw Hlog Hlen. unfold room_transcripts_since, daemon_room_transcripts_since.
  replace (log_end pre) with (log_end (pre ++ [])) by by rewrite app_nil_r.
  destruct k.1; [apply (exec_inbox_pages k _ fuel) with (all := []) (rest := rest)|apply (exec_resume_pages k _ fuel) with (all := []) (rest := rest)]; done || lia.
Qed.
(** The world but for the snapshots in the home. *)
Definition same (w w' : World) : Prop := world_ok w' ∧ ∃ s, w' = w <| w_snaps := s |>.
Lemma same_refl w : world_ok w → same w w.
Proof. split; [done|]. exists (w_snaps w). by destruct w. Qed.
Lemma same_trans w1 w2 w3 : same w1 w2 → same w2 w3 → same w1 w3.
Proof. intros [_ [s1 ->]] [? [s2 ->]]. split; [done|]. by exists s2. Qed.
Lemma same_log w w' k : same w w' → log_of w' k = log_of w k.
Proof. by intros [_ [s ->]]. Qed.
Lemma save_same k c w : world_ok w → snap_ok (log_of w k) k (Snapshot c) → same w (set_snap k c w).
Proof. intros Hw Hc. split; [apply (grows_ok w), set_snap_grows; done|]. by eexists. Qed.
Lemma exec_resume k cache n fuel w b : world_ok w → snap_ok (log_of w k) k (Snapshot cache) →
  accept_snapshot (Snapshot cache) k.2 k.1 = Some cache → project_transcripts (log_of w k) = Ok b →
  (length (log_of w k) < fuel)%nat →
  ∃ w', exec (resume_projection k cache n fuel) w = (Ok (Some b), w') ∧ same w w'.
Proof.
  intros Hw Hs Hacc Hb Hfuel. destruct (Hs _ Hacc) as (pre & [rest Hlog] & Htip & Hpre).
  unfold resume_projection. rewrite client_exec_io. replace (pc_cursor cache) with (log_end pre) by (unfold log_end; by rewrite Htip).
  rewrite Hlog, length_app in Hfuel. rewrite (exec_transcripts_since _ _ _ _ rest) by (done || lia).
  rewrite Hlog in Hb. rewrite (project_app _ _ _ Hpre) in Hb.
  destruct rest as [|t rest]; cbn [head].
  - rewrite client_exec_io. cbn [call WorkStore.exec exec_act]. rewrite Hlog, app_nil_r, Htip.
    replace (log_end pre) with (pc_cursor cache) by (unfold log_end; by rewrite Htip). rewrite bool_decide_true by done.
    exists w. split; [|by apply same_refl]. cbn in Hb. by injection Hb as ->.
  - assert (cursor_strictly_before (log_end pre) (te_cursor t) = true) as ->.
    { unfold log_end. rewrite Htip. cbn. unfold tip in Htip. destruct (last pre) as [u|] eqn:Hu; [|done]. injection Htip as <-.
      destruct (Hw k) as [Hok _]. rewrite Hlog in Hok. apply log_ok_app in Hok as (_ & _ & Hlt).
      apply Hlt; [by apply last_Some_elem_of|by left]. }
    cbn [negb]. destruct (apply_transcripts (t :: rest) (pc_projection cache)) as [[o|e] p] eqn:Eapp; [|done].
    injection Hb as ->. destruct (last (t :: rest)) as [newest|] eqn:Hlast; [|by apply last_None in Hlast].
    rewrite client_exec_io. cbn [run WorkStore.exec exec_act]. eexists. split; [done|]. apply save_same; [done|].
    eapply (snapshot_of_ok _ _ (pre ++ t :: rest)); [by rewrite Hlog| |by rewrite (project_app _ _ _ Hpre), Eapp].
    rewrite tip_app. unfold tip. by rewrite Hlast.
Qed.
Lemma exec_read k n fuel w b : world_ok w → project_transcripts (log_of w k) = Ok b → (length (log_of w k) < fuel)%nat →
  ∃ w', exec (project_room_work_board k n fuel) w = (Ok b, w') ∧ same w w'.
Proof.
  intros Hw Hb Hfuel. unfold project_room_work_board. rewrite client_exec_io. cbn [run WorkStore.exec exec_act].
  rewrite client_exec_io. destruct (accept_snapshot _ _ _) as [cache|] eqn:Hacc.
  - destruct (Hw k) as [_ Hs]. assert (snap_of w k = Snapshot cache) as E.
    { destruct (snap_of w k); try done. cbn in Hacc. repeat case_match; congruence. }
    rewrite E in Hs, Hacc. destruct (exec_resume _ _ n _ _ _ Hw Hs Hacc Hb Hfuel) as (w' & -> & ?). by exists w'.
  - cbn [WorkStore.exec mret io_ret]. rewrite client_exec_io. change zero_transcript_cursor with (log_end []).
    rewrite (exec_transcripts_since _ _ _ _ (log_of w k)) by done.
    rewrite client_exec_io, Hb. cbn [lift WorkStore.exec]. rewrite client_exec_io. destruct (last (log_of w k)) as [t|] eqn:Hlast.
    + cbn [run WorkStore.exec exec_act]. eexists. split; [done|]. apply save_same; [done|].
      eapply snapshot_of_ok; [done| |done]. unfold tip. by rewrite Hlast.
    + exists w. split; [done|by apply same_refl].
Qed.

(** ** Publishing *)
Section ops.
Variables (source : WorkBoardCacheSource) (fuel : nat) (L : SerdeLaws S).
(** [b] is the board of the room, and a read of it ends. *)
Definition shows (room : Room) (w : World) (b : Board) : Prop :=
  world_ok w ∧ project_transcripts (log_of w (room_key source room)) = Ok b ∧
  (length (log_of w (room_key source room)) < fuel)%nat.
Lemma shows_same room w w' b : same w w' → shows room w b → shows room w' b.
Proof. intros Hs (? & ? & ?). unfold shows. rewrite (same_log _ _ _ Hs). split_and!; [apply Hs|done|done]. Qed.
Lemma exec_board room n w b : shows room w b → ∃ w', exec (room_board source fuel room n) w = (Ok b, w') ∧ same w w'.
Proof. intros (? & ? & ?). by apply exec_read. Qed.
Lemma exec_ensure room i w b : shows room w b → ∃ w',
  exec (ensure_work_card_in_room source fuel room i) w =
    (if is_some (card b i) then Ok tt else Err (WorkCardNotInCurrentRoom i room), w') ∧ same w w'.
Proof.
  intros Hb. unfold ensure_work_card_in_room. rewrite client_exec_io.
  destruct (exec_board room WORK_MUTATION_PAGE_SIZE _ _ Hb) as (w' & -> & ?). exists w'. by destruct (card b i).
Qed.
Lemma in_order_last t l : (∀ u, u ∈ l → (te_lamport u < te_lamport t)%N) → in_order t l = l ++ [t].
Proof.
  intros Hlt. assert (∀ u, u ∈ l → cursor_strictly_before (te_cursor u) (te_cursor t) = true) as Hb.
  { intros u Hu. apply csb_spec. left. by apply Hlt. }
  unfold in_order. clear Hlt. induction l as [|u l IH]; [done|].
  rewrite filter_cons_True, filter_cons_False by (rewrite Hb; [done|by left]). cbn.
  rewrite IH; [done|]. intros v Hv. apply Hb. by right.
Qed.
Lemma log_ok_snoc l t : log_ok l → (0 < te_lamport t)%N → (∀ u, u ∈ l → (te_lamport u < te_lamport t)%N) → log_ok (l ++ [t]).
Proof.
  intros [Hs Hz] H0 Hlt. split.
  - apply StronglySorted_app. split_and!; [|done|repeat constructor]. intros u v Hu ->%list_elem_of_singleton.
    apply csb_spec. left. by apply Hlt.
  - apply list.Forall_app. split; [done|]. repeat constructor. apply csb_spec. by left.
Qed.
Lemma stamp_pos src w : (0 < own_stamp src w)%N.
Proof. destruct src; cbn; unfold next_lamport, saturating_add, u64_max; lia. Qed.
Lemma own_last_same n w w' : same w w' → own_last n w → own_last n w'.
Proof. by intros [_ [s ->]]. Qed.
Lemma own_last_le n m w : (m ≤ n)%nat → own_last n w → own_last m w.
Proof. intros ? [? ?]. split; [done|lia]. Qed.
Lemma next_lamport_room wall current : (current + 1 ≤ u64_max)%N → next_lamport wall current = N.max wall (current + 1).
Proof. unfold next_lamport, saturating_add. lia. Qed.
(** Giving out a stamp moves the source's clock past it, and no other clock. *)
Lemma stamp_moves n src src' w w' : (own_stamp FromStore w + N.of_nat (Datatypes.S n) ≤ u64_max)%N →
  w_clock w' = w_clock w → w_lamport w' = w_lamport w → w_router w' = w_router w →
  let w1 := set_stamp src (own_stamp src w) w' in
  (own_stamp src' w ≤ own_stamp src' w1)%N ∧ (src' = src → (own_stamp src w < own_stamp src' w1)%N) ∧
  (own_stamp FromStore w1 + N.of_nat n ≤ u64_max)%N.
Proof.
  intros Hroom Hc Hl Hr. cbv zeta. pose proof (stamp_pos FromStore w).
  assert (w_lamport w + 1 ≤ u64_max)%N as Hl1.
  { cbn [own_stamp] in Hroom. unfold next_lamport, saturating_add in Hroom. lia. }
  assert (own_stamp FromStore w = N.max (w_clock w) (w_lamport w + 1)) as Es by by apply next_lamport_room.
  destruct src; cbn [set_stamp]; cbn [own_stamp] in *.
  - split_and!; [|intros ->; cbn; lia|cbn; rewrite Hc, Hl; lia]. destruct src'; cbn; rewrite ?Hc, ?Hl; lia.
  - assert (next_lamport (w_clock w') (next_lamport (w_clock w) (w_lamport w)) =
      N.max (w_clock w) (next_lamport (w_clock w) (w_lamport w) + 1)) as E by (rewrite Hc; apply next_lamport_room; lia).
    split_and!; [|intros ->; cbn; rewrite E; lia|cbn; rewrite E; lia]. destruct src'; cbn; rewrite ?Hr, ?E; lia.
Qed.
Lemma own_last_send n k t w u : own_last (Datatypes.S n) w → te_lamport t = own_stamp k.1 w →
  own_last n (set_stamp k.1 (te_lamport t) (set_log k (log_of w k ++ [t]) w) <| w_uuid := u |>).
Proof.
  intros [Hlt Hroom] Ht. rewrite Ht. set (w1 := set_log k (log_of w k ++ [t]) w).
  assert (∀ src', own_stamp src' (set_stamp k.1 (own_stamp k.1 w) w1 <| w_uuid := u |>) = own_stamp src' (set_stamp k.1 (own_stamp k.1 w) w1)) as Es
    by by intros []; destruct k.1.
  assert (∀ k', log_of (set_stamp k.1 (own_stamp k.1 w) w1 <| w_uuid := u |>) k' = log_of w1 k') as El by by intros k'; destruct k.1.
  split; rewrite ?Es; [|by apply (stamp_moves n k.1 k.1 w w1)].
  intros k' v. rewrite El, Es. subst w1. rewrite log_of_set.
  destruct (stamp_moves n k.1 k'.1 w (set_log k (log_of w k ++ [t]) w) Hroom) as (Hle & Hmoved & _); [done..|].
  intros Hv. assert (v ∈ log_of w k' ∨ v = t ∧ k' = k) as [Hold%Hlt|[-> ->]]; [|lia|rewrite Ht; by apply Hmoved].
  case_decide as E; [|by left]. subst. apply elem_of_app in Hv as [?| ->%list_elem_of_singleton]; auto.
Qed.
Lemma exec_publish room ev n w b b' : own_event peer_id ev → world_ok w → own_last (Datatypes.S n) w →
  project_transcripts (log_of w (room_key source room)) = Ok b → apply ev b = (Ok tt, b') →
  ∃ e w', exec (publish_work_event_in source room ev) w = (Ok e, w') ∧ grows w w' ∧ own_last n w' ∧ w_clock w' = w_clock w ∧
    project_transcripts (log_of w' (room_key source room)) = Ok b' ∧
    length (log_of w' (room_key source room)) = Datatypes.S (length (log_of w (room_key source room))) ∧
    w_room w' = w_room w ∧ w_uuid w' = (w_uuid w + 1)%N.
Proof.
  intros Hown Hw Hlast Hb Hev. unfold publish_work_event_in. rewrite client_exec_io.
  destruct Hown as (Hwire & Hown). destruct (serde_round_trip ev Hwire) as (v & Hto & _).
  assert (encode_work_event ev = Ok (work_event_headers ev, BodyJson v)) as Henc by (unfold encode_work_event; by rewrite Hto).
  rewrite Henc. cbn [lift WorkStore.exec]. unfold send_frame_to_room. cbn [call WorkStore.exec exec_act fst snd].
  set (k := room_key source room) in *.
  set (t := MkTranscriptEvent _ _ _ _ _ _ _ _ _ _ _ _ _).
  assert (∀ u, u ∈ log_of w k → (te_lamport u < te_lamport t)%N) as Hlt by (intros u; apply Hlast).
  rewrite (in_order_last t) by done.
  assert (log_ok (log_of w k ++ [t])) as Hlog by (apply log_ok_snoc; [apply Hw|apply stamp_pos|done]).
  eexists _, _. split; [done|]. pose proof (set_log_grows k t w Hw Hlog) as Hg.
  set (w1 := set_log k (log_of w k ++ [t]) w) in *.
  assert (∀ k', log_of (set_stamp k.1 (te_lamport t) w1 <| w_uuid := (w_uuid w + 1)%N |>) k' = log_of w1 k' ∧
    snap_of (set_stamp k.1 (te_lamport t) w1 <| w_uuid := (w_uuid w + 1)%N |>) k' = snap_of w1 k') as Hsame
    by by intros k'; destruct k.1.
  split; [|split; [by apply own_last_send|split; [by destruct k.1|]]].
  - destruct Hg as (Hpre & Hok & Hcl). split; [intros k'; by rewrite (proj1 (Hsame k'))|]. split.
    + intros k'. destruct (Hsame k') as [-> ->]. apply Hok.
    + by destruct k.1.
  - rewrite (proj1 (Hsame k)). subst w1. rewrite log_of_set, !decide_True by done.
    split; [|split; [rewrite length_app; cbn; lia|split; by destruct k.1]].
    destruct (decode_published peer_id k room ev (work_event_headers ev) (BodyJson v) t L) as [Hd Hwk]; [by split|done|by repeat split|].
    rewrite (project_snoc _ _ _ _ Hb Hd Hwk). unfold apply_windowed. by rewrite Hev.
Qed.
Lemma exec_publish_card room ev n w b i f c : own_event peer_id ev → card_event ev = Some (i, f) → world_ok w →
  own_last (Datatypes.S n) w →
  project_transcripts (log_of w (room_key source room)) = Ok b → cards b !! i = Some c →
  ∃ e w', exec (publish_work_event_in source room ev) w = (Ok e, w') ∧ grows w w' ∧ own_last n w' ∧ w_clock w' = w_clock w ∧
    project_transcripts (log_of w' (room_key source room)) = Ok (b <| cards := <[i := f c]> (cards b) |>).
Proof.
  intros Hown Hev Hw Hlast Hb Hc. edestruct (exec_publish room ev n w b) as (e & w' & ? & ? & ? & ? & ? & _); [done|done|done|done| |eauto 10].
  rewrite (apply_card_event _ _ _ _ Hev). unfold card_mut. by rewrite Hc.
Qed.

Lemma exec_publish_current ev w :
  exec (publish_work_event source ev) w = exec (publish_work_event_in source (w_room w) ev) w.
Proof. unfold publish_work_event, publish_work_event_in. rewrite !client_exec_io. by destruct (encode_work_event ev). Qed.

(** ** Claiming *)
Lemma claim_free e c : claim_id c = None → claim_expires_at_ms c = None →
  let c' := claimed_card e c in
  state c' = CardClaimed ∧ owner c' = Some (cl_owner e) ∧ claim_id c' = Some (cl_claim_id e) ∧
  claim_expires_at_ms c' = Some (cl_claimed_at_ms e +w cl_ttl_ms e).
Proof. intros Hcl Hx. unfold claimed_card. rewrite Hcl, Hx. cbn. by rewrite andb_false_r. Qed.
Lemma exec_fresh room r o s w b c : world_ok w → own_last 1 w → project_transcripts (log_of w (room_key source room)) = Ok b →
  cards b !! cq_card_id r = Some c → claim_id c = None → claim_expires_at_ms c = None →
  ∃ cl w' b' c', exec (claim_fresh peer_id source room r o s) w = (Ok cl, w') ∧ world_ok w' ∧
    project_transcripts (log_of w' (room_key source room)) = Ok b' ∧ cards b' = <[cq_card_id r := c']> (cards b) ∧
    state c' = CardClaimed ∧ owner c' = Some peer_id ∧ claim_id c' = Some cl ∧
    claim_expires_at_ms c' = Some (w_clock w +w cq_ttl_ms r).
Proof.
  intros Hw Hlast Hb Hc Hcl Hx. unfold claim_fresh. rewrite client_exec_io. cbn [run WorkStore.exec exec_act]. rewrite client_exec_io.
  unfold call_now_ms. cbn [call WorkStore.exec exec_act]. rewrite client_exec_io. set (w1 := w <| w_uuid := _ |>).
  set (ev := MkWorkCardClaimed _ _ _ _ _ _ _).
  edestruct (exec_publish_card room (EvCardClaimed ev) 0 w1 b) as (e & w' & -> & Hg & _ & _ & Hb'); [done|done|done|exact Hlast|exact Hb|exact Hc|].
  destruct (claim_free ev c Hcl Hx) as (? & ? & ? & ?). eexists _, w', _, _.
  split; [done|]. split; [by eapply grows_ok|]. split; [exact Hb'|]. done.
Qed.
Lemma exec_heartbeat room r w b c : shows room w b → own_last 1 w → cards b !! hw_card_id r = Some c → claim_id c = Some (hw_claim_id r) →
  ∃ w' b' c', exec (heartbeat_work_claim_in peer_id source fuel room r) w = (Ok tt, w') ∧ world_ok w' ∧
    project_transcripts (log_of w' (room_key source room)) = Ok b' ∧ cards b' = <[hw_card_id r := c']> (cards b) ∧
    state c' = state c ∧ owner c' = owner c ∧ claim_id c' = Some (hw_claim_id r) ∧
    claim_expires_at_ms c' = Some (w_clock w +w hw_ttl_ms r).
Proof.
  intros Hb Hlast Hc Hcl. unfold heartbeat_work_claim_in. rewrite client_exec_io.
  destruct (exec_ensure room (hw_card_id r) w b Hb) as (w1 & -> & Hs). unfold card. rewrite Hc. cbn [is_some].
  apply (shows_same room w w1) in Hb as (Hw1 & Hb1 & _); [|done]. destruct Hs as [_ [sn ->]].
  rewrite client_exec_io. unfold call_now_ms. cbn [call WorkStore.exec exec_act]. rewrite client_exec_io.
  set (ev := MkClaimHeartbeat _ _ _ _ _).
  edestruct (exec_publish_card room (EvClaimHeartbeat ev) 0 (w <| w_snaps := sn |>) b) as (e & w' & -> & Hg & _ & _ & Hb'); [done|done|done|exact Hlast|exact Hb1|exact Hc|].
  exists w'. eexists _, _. split; [done|]. split; [by eapply grows_ok|]. split; [exact Hb'|]. split; [done|].
  unfold heartbeat_card. subst ev. cbn [hb_claim_id]. by rewrite Hcl, bool_decide_false by naive_solver.
Qed.
Lemma exec_gate room i w b c : shows room w b → cards b !! i = Some c → ∃ w',
  exec (claim_gate_in peer_id source fuel room i) w = (claim_gate_for c peer_id, w') ∧ same w w'.
Proof.
  intros Hb Hc. unfold claim_gate_in. rewrite client_exec_io. destruct (exec_board room WORK_MUTATION_PAGE_SIZE _ _ Hb) as (w' & -> & ?).
  exists w'. unfold card. rewrite Hc. by destruct (claim_gate_for c peer_id).
Qed.
(** A card [c'] that [peer_id] holds under [cl] for the time asked for. *)
Definition held (w : World) (r : ClaimWorkCard) (cl : ClaimId) (c' : WorkCard) : Prop :=
  owner c' = Some peer_id ∧ claim_id c' = Some cl ∧ claim_expires_at_ms c' = Some (w_clock w +w cq_ttl_ms r).
Definition claimed_as (room : Room) (w : World) (r : ClaimWorkCard) (b : Board) (st : CardState) (cl : ClaimId) (w' : World) : Prop :=
  ∃ b' c', project_transcripts (log_of w' (room_key source room)) = Ok b' ∧
    cards b' = <[cq_card_id r := c']> (cards b) ∧ state c' = st ∧ held w r cl c'.
Lemma exec_taken room r o s w b c : world_ok w → own_last 1 w → project_transcripts (log_of w (room_key source room)) = Ok b →
  cards b !! cq_card_id r = Some c → card_wf (cq_card_id r) c → claim_id c = None →
  ∃ cl w', exec (claim_fresh peer_id source room r o s) w = (Ok cl, w') ∧ world_ok w' ∧ claimed_as room w r b CardClaimed cl w'.
Proof.
  intros Hw Hlast Hb Hc Hwf Hcl.
  assert (claim_expires_at_ms c = None) as Hx.
  { destruct (claim_expires_at_ms c) as [x|] eqn:E; [|done]. destruct (cw_expiry _ _ Hwf) as [H _]. rewrite E, Hcl in H.
    by destruct H as [? ?]. }
  destruct (exec_fresh room r o s w b c Hw Hlast Hb Hc Hcl Hx) as (cl & w' & b' & c' & -> & Hw' & Hb' & Hcards & Hst & Ho & Hcl' & Hx').
  exists cl, w'. split; [done|]. split; [done|]. exists b', c'. by repeat split.
Qed.
Lemma exec_takeover room r o s w b c prev held_by : world_ok w → own_last 2 w → project_transcripts (log_of w (room_key source room)) = Ok b →
  cards b !! cq_card_id r = Some c → card_wf (cq_card_id r) c → claim_id c = Some prev →
  ∃ cl w', exec (now ← call_now_ms;
      _ ← publish_work_event_in source room
            (EvClaimReleased (MkClaimReleased (cq_card_id r) prev peer_id (Some (str "taken over")) now held_by));
      claim_fresh peer_id source room r o s) w = (Ok cl, w') ∧ world_ok w' ∧ claimed_as room w r b CardClaimed cl w'.
Proof.
  intros Hw Hlast Hb Hc Hwf Hcl. rewrite client_exec_io. unfold call_now_ms. cbn [call WorkStore.exec exec_act]. rewrite client_exec_io.
  set (ev := MkClaimReleased _ _ _ _ _ _).
  edestruct (exec_publish_card room (EvClaimReleased ev) 1 w b) as (e & w1 & -> & Hg & Hlast1 & Eclock & Hb1); [done|done|done|exact Hlast|exact Hb|exact Hc|].
  edestruct (exec_taken room r o s w1) as (cl & w' & -> & Hw' & Hcl'); [by eapply grows_ok|exact Hlast1|exact Hb1| | | |].
  - cbn. by rewrite lookup_insert_eq.
  - by apply released_card_wf.
  - unfold released_card. subst ev. cbn [rl_claim_id]. by rewrite Hcl, bool_decide_false by naive_solver.
  - exists cl, w'. split; [done|]. split; [done|]. destruct Hcl' as (b' & c' & ? & Hcards & ? & Hheld).
    exists b', c'. unfold held in *. rewrite Eclock in Hheld. split_and!; try apply Hheld; try done.
    rewrite Hcards. cbn. by rewrite insert_insert_eq.
Qed.

(** ** Observing *)
Lemma exec_publish_each evs : Forall (own_event peer_id) evs → ∀ w b b', world_ok w → own_last (length evs) w →
  project_transcripts (log_of w (room_key source (w_room w))) = Ok b → st_iter apply evs b = (Ok tt, b') →
  ∃ ids w', exec (publish_each source evs) w = (Ok ids, w') ∧ world_ok w' ∧
    project_transcripts (log_of w' (room_key source (w_room w))) = Ok b' ∧ length ids = length evs.
Proof.
  induction 1 as [|ev evs Hev _ IH]; intros w b b' Hw Hlast Hb Hrun.
  { injection Hrun as <-. by exists [], w. }
  cbn in Hrun. unfold mbind, st_bind in Hrun. destruct (apply ev b) as [[[]|e] b1] eqn:H1; [|done].
  destruct (exec_publish _ ev _ w b b1 Hev Hw Hlast Hb H1) as (id & w1 & E1 & Hg & Hlast1 & _ & Hb1 & _ & Hr & _).
  rewrite <- Hr in Hb1. destruct (IH w1 b1 b') as (ids & w' & E & Hw' & Hb' & Hlen); [apply Hg|done|done|done|].
  exists (id :: ids), w'. cbn [publish_each]. rewrite client_exec_io, exec_publish_current, E1, client_exec_io, E.
  rewrite <- Hr. split_and!; try done. cbn. by rewrite Hlen.
Qed.
Lemma own_pull_events previous s now :
  Forall (own_event peer_id) (pull_request_events_since previous s peer_id now).
Proof.
  apply Forall_bind, Forall_true. intros [n p]. unfold compose.
  eapply list.Forall_impl; [apply pr_events_about|]. by intros [].
Qed.
Lemma own_git_events w previous s now : Forall (own_event peer_id) (local_git_events_since w previous s peer_id now).
Proof. eapply list.Forall_impl; [apply git_events_of_repo|]. by intros []. Qed.
End ops.

(** C14: observations reach the board, in a quiet room that shows the observation before.
    Nobody else acts, no call fails, the scope's snapshots are replays of the log
    ([world_ok]), own frames sort last ([own_last]), the board of the current room already
    shows the snapshot that the request names as its previous one, if any, and the
    snapshots of pull requests are well formed and of the repository asked for.  Then a
    worktree or a repository that cannot be read is reported and nothing is written;
    otherwise the call publishes the differences, and the board then shows the snapshot it
    returns: the branch at its head and the counts of dirty paths, or each pull request
    with its checks and merge state.  No card changes, and observing what was observed
    before writes nothing. *)
Theorem observations_reach_board {RG : GitCommandRunner} {PS : PullRequestSource} source n w b :
  SerdeLaws S → world_ok w → own_last n w → project_transcripts (log_of w (room_key source (w_room w))) = Ok b →
  let on_board (shown : Board → Prop) w' := world_ok w' ∧
    ∃ b', project_transcripts (log_of w' (room_key source (w_room w))) = Ok b' ∧ cards b' = cards b ∧ shown b' in
  (∀ r, let ws := MkLocalGitWorkspace (og_repo r) (og_workspace_id r) (og_path r) in
     (∀ p, og_previous r = Some p → git_shown b ws p) →
     (∀ s, observe ws = Ok s → length (local_git_events_since ws (og_previous r) s peer_id (w_clock w)) ≤ n)%nat →
     match observe ws, exec (observe_local_git_workspace peer_id source r) w with
     | Err e, (res, w') => res = Err (LocalGitFailed e) ∧ w' = w
     | Ok s, (res, w') => ∃ ids, res = Ok (MkObservedLocalGitWorkspace s ids) ∧ on_board (λ b', git_shown b' ws s) w' ∧
         (og_previous r = Some s → ids = [] ∧ w' = w)
     end) ∧
  ∀ r, (∀ s, pr_snapshot (op_repo r) = Ok s → snapshot_wf s ∧ rs_repo s = op_repo r) →
    (∀ p, op_previous r = Some p → snapshot_wf p ∧ rs_repo p = op_repo r ∧ pulls_shown b p) →
    (∀ s, pr_snapshot (op_repo r) = Ok s → length (pull_request_events_since (op_previous r) s peer_id (w_clock w)) ≤ n)%nat →
    match pr_snapshot (op_repo r), exec (observe_pull_requests peer_id source r) w with
    | Err e, (res, w') => res = Err (PullRequestSourceFailed e) ∧ w' = w
    | Ok s, (res, w') => ∃ ids, res = Ok (MkObservedPullRequests s ids) ∧ on_board (λ b', pulls_shown b' s) w' ∧
        (op_previous r = Some s → ids = [] ∧ w' = w)
    end.
Proof.
  intros L Hw Hlast Hb on_board. split.
  - intros r ws Hprev Hlen. unfold observe_local_git_workspace. fold ws. rewrite client_exec_io.
    destruct (observe ws) as [s|e]; [|done]. specialize (Hlen s eq_refl). cbn [lift WorkStore.exec]. rewrite client_exec_io.
    cbn [call_now_ms call WorkStore.exec exec_act]. rewrite client_exec_io.
    destruct (worktree_followed ws (og_previous r) s peer_id (w_clock w) b Hprev) as [(b' & Hrun & Hc & Hs) Hsame].
    destruct (exec_publish_each source L _ (own_git_events _ _ _ _) w b b' Hw ltac:(by eapply own_last_le) Hb Hrun) as (ids & w' & E & Hw' & Hb' & _).
    rewrite E. exists ids. split; [done|]. split; [by split; [|exists b']|]. intros Hp. rewrite Hsame in E by done. by injection E as <- <-.
  - intros r Hsrc Hprev Hlen. unfold observe_pull_requests, observe_pulls. rewrite client_exec_io.
    destruct (pr_snapshot (op_repo r)) as [s|e]; [|done]. specialize (Hlen s eq_refl). cbn [lift WorkStore.exec]. rewrite client_exec_io.
    cbn [call_now_ms call WorkStore.exec exec_act]. rewrite client_exec_io. destruct (Hsrc s eq_refl) as [Hwf Hrepo].
    destruct (pulls_followed (op_previous r) s peer_id (w_clock w) b Hwf) as [(b' & Hrun & Hc & Hs) Hsame].
    { intros p Hp. rewrite Hrepo. by apply Hprev. }
    destruct (exec_publish_each source L _ (own_pull_events _ _ _) w b b' Hw ltac:(by eapply own_last_le) Hb Hrun) as (ids & w' & E & Hw' & Hb' & _).
    rewrite E. exists ids. split; [done|]. split; [by split; [|exists b']|]. intros Hp. rewrite Hsame in E by done. by injection E as <- <-.
Qed.

(** A claim that meets a live one: the caller is told it holds the card, the board says who does. *)
Lemma late_claim_reported_ok source room r o s w b c expiry : SerdeLaws S → world_ok w → own_last 1 w →
  project_transcripts (log_of w (room_key source room)) = Ok b → cards b !! cq_card_id r = Some c →
  claim_expires_at_ms c = Some expiry → (w_clock w < expiry)%N →
  ∃ cl w' b', exec (claim_fresh peer_id source room r o s) w = (Ok cl, w') ∧
    project_transcripts (log_of w' (room_key source room)) = Ok b' ∧ cards b' = cards b.
Proof.
  intros L Hw Hlast Hb Hc Hx Hlive. unfold claim_fresh. rewrite client_exec_io. cbn [run WorkStore.exec exec_act]. rewrite client_exec_io.
  unfold call_now_ms. cbn [call WorkStore.exec exec_act]. rewrite client_exec_io. set (w1 := w <| w_uuid := _ |>).
  set (ev := MkWorkCardClaimed _ _ _ _ _ _ _).
  edestruct (exec_publish_card source L room (EvCardClaimed ev) 0 w1 b) as (e & w' & -> & _ & _ & _ & Hb'); [done|done|done|exact Hlast|exact Hb|exact Hc|].
  eexists _, w', _. split; [done|]. split; [exact Hb'|]. cbn. rewrite insert_id; [done|]. rewrite Hc. f_equal.
  unfold claimed_card. rewrite Hx. cbn. by apply N.ltb_lt in Hlive as ->.
Qed.
End rest.

(** ** Repeating a submission *)
Section retry.
Context {J : JsonValue} {S : Serde} {ENV : WorkEnv}.
Lemma find_submission (prior : WorkSubmission) l : NoDup (ws_submission_id <$> l) → prior ∈ l →
  List.find (λ s, bool_decide (ws_submission_id s = ws_submission_id prior)) l = Some prior.
Proof.
  intros Hnd Hin. destruct (List.find _ l) as [s|] eqn:Hf.
  - apply List.find_some in Hf as [Hs He%bool_decide_eq_true]. apply list_elem_of_In in Hs. f_equal.
    by eapply NoDup_fmap_inj_on.
  - apply list_elem_of_In in Hin. pose proof (List.find_none _ _ Hf prior Hin) as H. cbn in H. by rewrite bool_decide_true in H.
Qed.

(** A submission may be repeated until it is answered.  When the room's log holds the
    submission as accepted, calling [submit_work_in] again with the same request sends
    nothing, whatever others do meanwhile, and unless a call fails it returns the accepted
    submission, under its first date. *)
Theorem submit_retry_is_read peer_id source fuel room request w l b c prior :
  world_ok w → l `prefix_of` log_of w (room_key source room) → project_transcripts l = Ok b →
  cards b !! sw_card_id request = Some c → prior ∈ submissions c →
  prior = submission_of peer_id request (ws_submitted_at_ms prior) →
  guarded peer_id others (λ B a w, sends a = false) (submit_work_in peer_id source fuel room request) w ∧
  ∀ r w', runs peer_id others (submit_work_in peer_id source fuel room request) w r w' →
    r = Ok prior ∨ (∃ e, r = Err (AircText e)) ∨ (∃ e, r = Err (WorkStoreFailed e)) ∨
    (r = Err OutOfFuel ∧ (fuel ≤ length (log_of w' (room_key source room)))%nat).
Proof.
  intros Hw Hl Hb Hc Hin Hprior.
  assert (∀ b1 w1, runs peer_id others (work_board_in source fuel room) w (Ok b1) w1 → ∃ c1,
    card b1 (sw_card_id request) = Some c1 ∧ ∀ now,
      List.find (λ s, bool_decide (ws_submission_id s = ws_submission_id (submission_of peer_id request now))) (submissions c1) = Some prior ∧
      validate_for_card (submission_of peer_id request (ws_submitted_at_ms prior)) c1 = Ok tt) as Hread.
  { intros b1 w1 (Hg & l1 & Hl1 & _ & Hb1)%board_read_spec; [|done].
    destruct (project_board_le l l1 b b1 ltac:(by etrans) Hb Hb1 _ _ Hc) as (c1 & Hc1 & _ & Hsuf).
    exists c1. split; [done|]. intros now. assert (prior ∈ submissions c1) as Hin1 by by eapply elem_of_suffix.
    assert (card_wf (sw_card_id request) c1) as Hwf by by apply (project_wf _ _ Hb1).
    assert (ws_submission_id prior = sw_submission_id request) as Hid by by rewrite Hprior.
    pose proof (find_submission prior _ (cw_sub_ids _ _ Hwf) Hin1) as Hf. rewrite Hid in Hf. split; [done|].
    unfold validate_for_card. cbn [ws_submission_id submission_of]. rewrite Hf, <- Hprior. by rewrite same_candidate_refl. }
  split.
  - apply guarded_io; [apply guarded_quiet; [done|apply quiet_read]|]. intros b1 w1 Hr. destruct (Hread _ _ Hr) as (c1 & Hc1 & Hf).
    apply guarded_io; [done|]. intros c2 w2 [Ec ->]. rewrite Hc1 in Ec. injection Ec as ->.
    apply guarded_io; [apply guarded_quiet; [done|by apply quiet_call]|]. intros now w3 _.
    destruct (Hf now) as [Hfind _]. cbv zeta beta. rewrite Hfind. by apply guarded_io.
  - intros r w' Hr. apply client_runs_io in Hr as (rb & w1 & Hb1 & Hr). destruct rb as [b1|e].
    2: { destruct Hr as [-> ->]. apply board_read_spec in Hb1 as [_ He]; [|done]. destruct e; try done; eauto 6. }
    pose proof Hb1 as Hg%board_read_spec; [|done]. destruct Hg as [Hg _].
    destruct (Hread _ _ Hb1) as (c1 & Hc1 & Hf). apply client_runs_io in Hr as (rc & w2 & [-> ->] & Hr). rewrite Hc1 in Hr. cbn [ok_or] in Hr.
    apply client_runs_io in Hr as (rn & w2 & Hnow & Hr). apply runs_call_grows in Hnow as (_ & _ & x & _ & _ & ->); [|by eapply grows_ok|done].
    destruct x as [now|e]; [|destruct Hr as [-> _]; eauto]. destruct (Hf now) as [Hfind Hv]. cbv zeta beta in Hr. rewrite Hfind in Hr.
    apply client_runs_io in Hr as (rv & w3 & [-> ->] & Hr). rewrite Hv in Hr. destruct Hr as [-> _]. by left.
Qed.
End retry.

Lemma world_shows : shows FromStore 10 room world review_board.
Proof. split; [exact world_ok_world|]. split; [vm_compute; reflexivity|]. change (length log < 10)%nat. vm_compute. lia. Qed.
Definition own_last_check (n : nat) (w : World) : bool :=
  bool_decide (map_Forall (λ k l, Forall (λ t, te_lamport t < own_stamp k.1 w)%N l) (w_logs w)) &&
  (own_stamp FromStore w + N.of_nat n <=? u64_max)%N.
Lemma own_last_checked n w : own_last_check n w = true → own_last n w.
Proof.
  intros [H1%bool_decide_eq_true H2%N.leb_le]%andb_true_iff. split; [|done]. intros k t. unfold log_of.
  destruct (w_logs w !! k) as [l|] eqn:Hl; cbn; [|by intros ?%elem_of_nil]. intros Ht. specialize (H1 _ _ Hl). cbn in H1. rewrite list.Forall_forall in H1. by apply H1.
Qed.
(** Alice observes pull request 7 twice; the second time its checks passed. *)
Definition gh_says (status : rstring) : GhCommandRunner := {| run_gh := λ _, Ok status |}.
Definition gh_rows : GhJson := {| rows_of_json := λ out, Ok
  [MkGhPullRequestRow 7 (str "feat") (str "main") (str "OPEN") false None [MkGhCheckRow (Some out) (Some (str "SUCCESS")) None]] |}.
Definition gh_at (status : rstring) : PullRequestSource := @gh_source (gh_says status) gh_rows.
Definition git_at : GitCommandRunner := {| run_git := λ _ _, Ok [] |}.
Lemma observations_reach_board_witness : ∃ first second w1 w2 b2,
  exec alice (EvCardClaimed claimed) (@observe_pull_requests _ _ alice FromStore (gh_at (str "IN_PROGRESS"))
    (MkObservePullRequests airc None)) world = (Ok first, w1) ∧
  exec alice (EvCardClaimed claimed) (@observe_pull_requests _ _ alice FromStore (gh_at (str "COMPLETED"))
    (MkObservePullRequests airc (Some (po_snapshot first)))) w1 = (Ok second, w2) ∧
  project_transcripts (log_of w2 key) = Ok b2 ∧ pulls_shown b2 (po_snapshot second).
Proof.
  assert (∀ st (r : ObservePullRequests) s, @pr_snapshot (gh_at st) (op_repo r) = Ok s → snapshot_wf s ∧ rs_repo s = op_repo r)
    as Hwf by (intros ? ? ?; by apply (@gh_snapshot_wf (gh_says _) gh_rows)).
  pose (r1 := MkObservePullRequests airc None).
  pose proof (proj2 (@observations_reach_board _ _ _ alice (EvCardClaimed claimed) git_at (gh_at (str "IN_PROGRESS")) FromStore 9 world
    review_board serde_laws world_ok_world (own_last_checked 9 world ltac:(by vm_compute)) (proj1 (proj2 world_shows))) r1 (Hwf _ _) ltac:(done)
    ltac:(intros s Hs; vm_compute in Hs; injection Hs as <-; vm_compute; lia)) as H1.
  destruct (@pr_snapshot (gh_at (str "IN_PROGRESS")) (op_repo r1)) as [s1|] eqn:Es1; [|by vm_compute in Es1].
  assert (w_room (exec alice (EvCardClaimed claimed) (@observe_pull_requests _ _ alice FromStore (gh_at (str "IN_PROGRESS")) r1) world).2 = room)
    as Hr by (vm_compute; reflexivity).
  assert (own_last 9 (exec alice (EvCardClaimed claimed) (@observe_pull_requests _ _ alice FromStore (gh_at (str "IN_PROGRESS")) r1) world).2)
    as Hlast by (apply own_last_checked; vm_compute; reflexivity).
  destruct (exec alice _ (@observe_pull_requests _ _ alice FromStore (gh_at (str "IN_PROGRESS")) r1) world) as [? w1] eqn:E1.
  cbn in Hr. cbn [snd] in Hlast.
  destruct H1 as (ids1 & -> & [Hw1 (b1 & Hb1 & _ & Hs1)] & _).
  pose (r2 := MkObservePullRequests airc (Some s1)).
  pose proof (proj2 (@observations_reach_board _ _ _ alice (EvCardClaimed claimed) git_at (gh_at (str "COMPLETED")) FromStore 9 w1
    b1 serde_laws Hw1 Hlast ltac:(by rewrite Hr)) r2 (Hwf _ _)) as H2.
  destruct (@pr_snapshot (gh_at (str "COMPLETED")) (op_repo r2)) as [s2|] eqn:Es2; [|by vm_compute in Es2].
  destruct (exec alice _ (@observe_pull_requests _ _ alice FromStore (gh_at (str "COMPLETED")) r2) w1) as [? w2] eqn:E2.
  destruct H2 as (ids2 & -> & [_ (b2 & Hb2 & _ & Hs2)] & _).
  { intros p [= <-]. destruct (Hwf _ r1 _ Es1). by split_and!. }
  { intros s [= <-]. vm_compute in Es1, Es2. injection Es1 as <-. injection Es2 as <-. vm_compute. lia. }
  exists (MkObservedPullRequests s1 ids1), (MkObservedPullRequests s2 ids2), w1, w2, b2. split; [exact E1|].
  split; [exact E2|]. rewrite Hr in Hb2. by split.
Defined.
Lemma submit_retry_is_read_witness :
  let request := MkSubmitWork sub200 card10 claim100 (str "alice/1") base artifact in
  world_ok world ∧
  guarded alice others (λ B a w, sends a = false) (submit_work_in alice FromStore 10 room request) world.
Proof.
  intros request. split; [exact world_ok_world|].
  assert (∃ c, cards review_board !! card10 = Some c ∧ submitted ∈ submissions c) as (c & Hc & Hin).
  { eexists. split; [vm_compute; reflexivity|]. vm_compute. left. }
  exact (proj1 (submit_retry_is_read alice FromStore 10 room request world log review_board c submitted
    world_ok_world (reflexivity _) ltac:(vm_compute; reflexivity) Hc Hin eq_refl)).
Defined.

(** ** Where reads and writes part from what the comments say *)
Definition frame_at (n : N) (e : WorkEvent) : TranscriptEvent := frame n e.
Definition retitled (at_ms : N) (t : rstring) : WorkEvent :=
  EvCardUpdated (MkCardUpdated None card10 (Some t) None None alice at_ms).
Definition title_of (r : result AircError Board) : option rstring :=
  match r with Ok b => title <$> card b card10 | Err _ => None end.
(** A scope that reads its own store: an update from a peer whose clock is behind arrives
    after the snapshot was saved and sorts before its cursor.  It is in the log, a replay
    shows it, the cached read never does. *)
Definition late_log : list TranscriptEvent :=
  [frame 1 (EvCardCreated created); frame 3 (retitled 3 (str "late")); frame 5 (EvCardClaimed claimed)].
Definition snapped (l : list TranscriptEvent) : ProjectionCache :=
  snapshot_of key (log_end l) (match project_transcripts l with Ok b => b | Err _ => Board_new end).
Definition late_world : World :=
  MkWorld room {[key := late_log]} {[key := Snapshot (snapped [frame 1 (EvCardCreated created); frame 5 (EvCardClaimed claimed)])]} 60 2000 0 0.
Lemma late_event_hidden :
  log_ok late_log ∧
  title_of (match project_transcripts late_log with Ok b => Ok b | Err e => Err (WorkStoreFailed e) end) = Some (str "late") ∧
  title_of (exec alice (EvCardClaimed claimed) (project_room_work_board key 512 10) late_world).1 = Some (str "fix it").
Proof. split; [split; repeat constructor|]. split; vm_compute; reflexivity. Qed.
(** The clock of a peer is ahead, and its frame is the last of the room.  The claim that
    alice sends is stamped by her own clock alone and sorts before it: a replay shows the
    claim, her own cached read does not. *)
Definition skewed_log : list TranscriptEvent := [frame 1 (EvCardCreated created); frame 99 (retitled 99 (str "ahead"))].
Definition skewed_world : World := MkWorld room {[key := skewed_log]} {[key := Snapshot (snapped skewed_log)]} 60 2000 0 0.
Lemma own_claim_hidden :
  let w' := (exec alice (EvCardClaimed claimed) (claim_work_card_with_provenance_in alice FromStore 10 room
    (MkClaimWorkCard card10 500) ClaimExplicit None) skewed_world).2 in
  let owner_of (r : result AircError Board) := match r with Ok b => c ← card b card10; owner c | Err _ => None end in
  owner_of (match project_transcripts (log_of w' key) with Ok b => Ok b | Err e => Err (WorkStoreFailed e) end) = Some alice ∧
  owner_of (exec alice (EvCardClaimed claimed) (project_room_work_board key 512 10) w').1 = None.
Proof. split; vm_compute; reflexivity. Qed.
(** A log that was wiped and grew past the snapshot's cursor is taken for its continuation. *)
Definition regrown_world : World :=
  MkWorld room {[key := [frame 9 (EvLaneCreated (MkLaneCreated lane5 airc (str "main") LaneActive alice 0))]]}
    {[key := Snapshot (snapped [frame 1 (EvCardCreated created)])]} 60 2000 0 0.
Lemma regrown_log_resumed :
  title_of (match project_transcripts (log_of regrown_world key) with Ok b => Ok b | Err e => Err (WorkStoreFailed e) end) = None ∧
  title_of (exec alice (EvCardClaimed claimed) (project_room_work_board key 512 10) regrown_world).1 = Some (str "fix it").
Proof. split; vm_compute; reflexivity. Qed.

(** [relink_card_pull_request] checks one room and publishes in another when the current
    room moves in between. *)
Section intro.
Context {J : JsonValue} {S : Serde} {ENV : WorkEnv}.
Lemma runs_io_intro me E {A B} (p : IO A) (k : A → IO B) w a w1 r w' :
  runs me E p w (Ok a) w1 → runs me E (k a) w1 r w' → runs me E (p ≫= k) w r w'.
Proof. intros ??. apply client_runs_bind. by exists (Ok a), w1. Qed.
Lemma runs_exec_bind me metadata {A B} (p : IO A) (k : A → IO B) w a w1 r w' :
  quiet p → exec me metadata p w = (Ok a, w1) → runs me others (k a) w1 r w' → runs me others (p ≫= k) w r w'.
Proof. intros Hq He. apply runs_io_intro. pose proof (quiet_exec_runs me metadata p w Hq) as H. by rewrite He in H. Qed.
Lemma runs_call_intro me (E : World → World → Prop) {A} (a : Act (result rstring A)) w w1 x w' :
  E w w1 → act_step me a w1 (Ok x) w' → runs me E (call a) w (Ok x) w'.
Proof. intros. exists w1, (Ok x), w'. by repeat split. Qed.
End intro.
Definition pr1 : PullRequestRef := MkPullRequestRef airc 1 (MkBranchName (str "a")) (MkBranchName (str "main")).
Definition pr2 : PullRequestRef := MkPullRequestRef airc 2 (MkBranchName (str "b")) (MkBranchName (str "main")).
Definition linked_log : list TranscriptEvent :=
  [frame 1 (EvCardCreated created); frame 2 (EvPullRequestLinked (MkPullRequestLinked card10 pr1 alice 2))].
Definition linked_world : World := MkWorld room {[key := linked_log]} ∅ 60 2000 0 0.
Definition elsewhere : Room := MkRoom 1 (str "other") [] (MkId 8) 0.
Lemma relink_lands_elsewhere :
  ∃ w', runs alice others (relink_card_pull_request alice FromStore 10 (MkRelinkCardPullRequest card10 pr2)) linked_world (Ok pr1) w' ∧
    log_of w' key = linked_log ∧ length (log_of w' (FromStore, MkId 8)) = 1%nat.
Proof.
  pose (md := EvCardClaimed claimed : @Json json). unfold relink_card_pull_request.
  set (w1 := (exec alice md (room_board FromStore 10 room WORK_MUTATION_PAGE_SIZE) linked_world).2).
  set (w2 := w1 <| w_room := elsewhere |>).
  set (ev := EvPullRequestRelinked (MkPullRequestRelinked card10 pr1 pr2 alice 60)).
  set (t := MkTranscriptEvent (MkId 77) (MkId 8) alice (MkId 0) Message 60 60 ToAll
              (stamp_name_header elsewhere (work_event_headers ev)) (Some (BodyJson (J := json) ev)) None None md).
  exists (set_log (FromStore, MkId 8) [t] w2).
  assert (world_ok linked_world) as Hok.
  { intros k. unfold log_of, snap_of, linked_world. cbn [w_logs w_snaps]. destruct (decide (k = key)) as [->|Hk].
    - rewrite lookup_singleton_eq. split; [split; repeat constructor|by intros c [=]].
    - rewrite lookup_singleton_ne by done. split; [by split; constructor|by intros c [=]]. }
  split; [|split; vm_compute; reflexivity].
  eapply (runs_exec_bind alice md); [by apply quiet_call|reflexivity|].
  eapply (runs_exec_bind alice md _ _ _ _ w1); [apply quiet_read|vm_compute; reflexivity|].
  match goal with |- WorkStore.runs _ _ (match ?x with _ => _ end) _ _ _ => assert (∃ c, x = Some c ∧ validate_relink_card_pull_request c pr2 = Ok pr1) as (c & Hc & Hv) end.
  { eexists. split; vm_compute; reflexivity. }
  rewrite Hc. eapply (runs_exec_bind alice md); [done|cbn; rewrite Hv; reflexivity|].
  eapply (runs_exec_bind alice md); [by apply quiet_call|reflexivity|].
  assert (encode_work_event ev = Ok (work_event_headers ev, BodyJson (J := json) ev)) as Henc by reflexivity.
  unfold publish_work_event. change (EvPullRequestRelinked _) with ev. rewrite Henc.
  eapply runs_io_intro; [|by split]. eapply runs_io_intro; [by split|]. cbn [fst snd]. unfold send_frame.
  eapply runs_io_intro; [eapply (runs_call_intro _ _ _ _ w2); [|left; by split]|].
  - right. pose proof (quiet_exec_runs alice md (room_board FromStore 10 room WORK_MUTATION_PAGE_SIZE) linked_world (quiet_read _ _ _)) as Hr.
    apply board_read_spec in Hr as [Hg _]; [|done]. split; [intros k; exact (reflexivity _)|]. split; [by apply (grows_ok _ _ Hg)|done].
  - eapply (runs_call_intro _ _ _ _ w2); [by left|]. left. exists t.
    replace (log_of w2 (room_key FromStore elsewhere)) with (@nil (@TranscriptEvent json)) by (vm_compute; reflexivity).
    split; [by repeat split|]. split; [split; repeat constructor|]. split; [done|by left].
Qed.
