(* ===== verification/WorkQueue.v ===== *)
(** The scheduling views over a board and the backlog seeder: [work_queue_status] of
    [airc-lib/src/work.rs], [work_roster.rs], [work_manager.rs]. *)
From stdpp Require Import base gmap strings list sorting numbers.
From Stdlib Require Import Lia.
From S2P Require Import Prelude.
From S2P Require Import WorkModel.
From S2P Require Import WorkBoard.
From S2P Require Import WorkBoardFacts.
From S2P Require Import WorkBoardInv.
From S2P Require Import WorkBoardThms.
From S2P Require Import WorkScenario.
From S2P Require Import CoreTranscript.
From S2P Require Import WorkCodec.
From S2P Require Import WorkReplayThms.
From S2P Require Import WorkStore.
From S2P Require Import WorkStoreThms.
From S2P Require Import WorkClient.
From S2P Require Import WorkClientThms.

Notation Prog := (Prelude.Prog Act).
Notation IO := (IO_of Act AircError).

(** ** Sorting by a key *)
Definition by_key {A K} `{OrdKey K} (f : A → K) : relation A := λ a b, key_le (f a) (f b).
#[export] Instance by_key_dec {A K} `{OrdKey K} (f : A → K) : RelDecision (by_key f) := λ a b, key_le_dec (f a) (f b).
#[export] Instance by_key_trans {A K} `{OrdKey K} (f : A → K) : Transitive (by_key f).
Proof. intros a b c. apply key_le_trans. Qed.
#[export] Instance by_key_total {A K} `{OrdKey K} (f : A → K) : Total (by_key f).
Proof. intros a b. apply key_le_total. Qed.

(** ** The queue (work.rs) *)
Record WorkQueueStatusQuery := MkWorkQueueStatusQuery {
  qq_repo : option RepoId; qq_max_priority : Priority; qq_include_stale_claims : bool;
  qq_event_limit : nat; qq_limit : nat }.
Definition WorkQueueStatusQuery_default : WorkQueueStatusQuery := MkWorkQueueStatusQuery None P1 true 512 8.
Record ClaimableWorkItem := MkClaimableWorkItem { ci_card : WorkCard; ci_stale_claim : option StaleClaim }.
Definition is_stale_claim (self : ClaimableWorkItem) : bool := is_some (ci_stale_claim self).
Record WorkQueueStatus := MkWorkQueueStatus {
  wq_claimable : list ClaimableWorkItem; wq_agent_availability : list AgentAvailabilityRecord;
  wq_active_claims_for_peer : list WorkCard }.
#[export] Instance AgentAvailabilityState_eq_dec : EqDecision AgentAvailabilityState.
Proof. solve_decision. Defined.
Definition count_state (now_ms : N) (st : AgentAvailabilityState) (records : list AgentAvailabilityRecord) : nat :=
  length (filter (λ r, (now_ms < aa_expires_at_ms r)%N ∧ av_state (aa_report r) = st) records).
Definition ready_count (self : WorkQueueStatus) (now_ms : N) : nat := count_state now_ms AgentReady (wq_agent_availability self).
Definition busy_count (self : WorkQueueStatus) (now_ms : N) : nat := count_state now_ms AgentBusy (wq_agent_availability self).
Definition away_count (self : WorkQueueStatus) (now_ms : N) : nat := count_state now_ms AgentAway (wq_agent_availability self).
Definition stale_availability_count (self : WorkQueueStatus) (now_ms : N) : nat :=
  length (filter (λ r, (aa_expires_at_ms r ≤ now_ms)%N) (wq_agent_availability self)).
Definition priority_rank (p : Priority) : N := match p with P0 => 0 | P1 => 1 | P2 => 2 | P3 => 3 end.
Definition availability_state_rank (st : AgentAvailabilityState) : N :=
  match st with AgentReady => 0 | AgentBusy => 1 | AgentAway => 2 end.
(** The [continue]s at the head of the loop. *)
Definition in_scope (query : WorkQueueStatusQuery) (card : WorkCard) : bool :=
  negb (priority_rank (qq_max_priority query) <? priority_rank (priority card))%N
  && negb (is_some_and (qq_repo query) (λ r, bool_decide (repo card ≠ r))).
Definition queue_item (query : WorkQueueStatusQuery) (stale_claims : list StaleClaim) (card : WorkCard)
    : option ClaimableWorkItem :=
  if negb (in_scope query card) then None
  else
    let stale_claim := List.find (λ claim, bool_decide (sl_card_id claim = card_id card)) stale_claims in
    let open := bool_decide (state card = CardOpen) && is_none (claim_id card) in
    let stale_claimable := qq_include_stale_claims query && is_some stale_claim && negb (is_terminal (state card)) in
    if negb open && negb stale_claimable then None else Some (MkClaimableWorkItem card stale_claim).
Definition queue_item_key (i : ClaimableWorkItem) : N * (N * (N * N)) :=
  (priority_rank (priority (ci_card i)), (if is_stale_claim i then 0 else 1, (updated_at_ms (ci_card i), uuid (card_id (ci_card i)))))%N.
Definition active_for (peer : PeerId) (now_ms : N) (query : WorkQueueStatusQuery) (card : WorkCard) : bool :=
  in_scope query card && bool_decide (owner card = Some peer) && is_some_and (claim_expires_at_ms card) (λ x, (now_ms <? x)%N).
Definition claim_key (c : WorkCard) : N * (N * N) := (priority_rank (priority c), (updated_at_ms c, uuid (card_id c))).
Definition availability_key (r : AgentAvailabilityRecord) : rstring * (N * (N * rstring)) :=
  (repo_str (av_repo (aa_report r)), (availability_state_rank (av_state (aa_report r)),
    (aa_expires_at_ms r, show_id (av_peer (aa_report r))))).
Definition for_repo (r : option RepoId) (record : AgentAvailabilityRecord) : bool :=
  is_none_or r (λ r, bool_decide (av_repo (aa_report record) = r)).
Definition queue_of (board : Board) (now_ms : N) (peer : PeerId) (query : WorkQueueStatusQuery) : WorkQueueStatus :=
  let stale_claims := stale_claims board now_ms in
  let snapshot := snapshot board in
  MkWorkQueueStatus
    (take (qq_limit query) (sort_by (by_key queue_item_key) (omap (queue_item query stale_claims) (bs_cards snapshot))))
    (sort_by (by_key availability_key)
      (filter (λ r, for_repo (qq_repo query) r = true) (bs_agent_availability snapshot)))
    (sort_by (by_key claim_key) (filter (λ c, active_for peer now_ms query c = true) (bs_cards snapshot))).

(** ** The roster (work_roster.rs) *)
Record CoordinationSignal := MkCoordinationSignal {
  co_active_claims : list WorkCardId; co_availability : option AgentAvailabilityState; co_doctrine_version : option rstring }.
Record AgentLiveness := MkAgentLiveness {
  li_peer : PeerId; li_runtime : rstring; li_client_id : option rstring; li_scope : option rstring;
  li_build : option rstring; li_last_seen_ms : N; li_coordination : CoordinationSignal }.
Record WorkRosterRow := MkWorkRosterRow {
  rr_peer : PeerId; rr_client_id : option rstring; rr_liveness : option AgentLiveness;
  rr_availability : option AgentAvailabilityRecord; rr_active_claims : list WorkCard }.
Record WorkRosterStatus := MkWorkRosterStatus { ro_rows : list WorkRosterRow; ro_claimable_count : nat }.
Definition alive_count (self : WorkRosterStatus) : nat := length (filter (λ row, is_Some (rr_liveness row)) (ro_rows self)).
Definition availability_count (self : WorkRosterStatus) (now_ms : N) (st : AgentAvailabilityState) : nat :=
  count_state now_ms st (omap rr_availability (ro_rows self)).
Abbreviation RosterRows := (gmap rstring WorkRosterRow).
Definition roster_row_key (peer : PeerId) (client_id : option rstring) : rstring :=
  match client_id with Some c => show_id peer ++ 0%N :: c | None => show_id peer end.
Definition row_mut_with_key (key : rstring) (peer : PeerId) (client_id : option rstring)
    (f : WorkRosterRow → WorkRosterRow) (rows : RosterRows) : RosterRows :=
  <[key := f (default (MkWorkRosterRow peer client_id None None []) (rows !! key))]> rows.
Definition upsert_liveness (liveness : AgentLiveness) : RosterRows → RosterRows :=
  row_mut_with_key (roster_row_key (li_peer liveness) (li_client_id liveness)) (li_peer liveness) (li_client_id liveness)
    (λ row, MkWorkRosterRow (rr_peer row) (rr_client_id row) (Some liveness) (rr_availability row) (rr_active_claims row)).
Definition upsert_availability (record : AgentAvailabilityRecord) : RosterRows → RosterRows :=
  let peer := av_peer (aa_report record) in
  row_mut_with_key (roster_row_key peer None) peer None
    (λ row, MkWorkRosterRow (rr_peer row) (rr_client_id row) (rr_liveness row) (Some record) (rr_active_claims row)).
Definition claim_row_key (rows : RosterRows) (peer : PeerId) : rstring :=
  match filter (λ kv, rr_peer kv.2 = peer ∧ is_Some (rr_liveness kv.2)) (bt_entries rows) with
  | [(key, _)] => key
  | _ => roster_row_key peer None
  end.
Definition add_active_claim (card : WorkCard) (rows : RosterRows) : RosterRows :=
  match owner card with
  | None => rows
  | Some owner =>
      let key := claim_row_key rows owner in
      row_mut_with_key key owner (rows !! key ≫= rr_client_id)
        (λ row, MkWorkRosterRow (rr_peer row) (rr_client_id row) (rr_liveness row) (rr_availability row)
                  (rr_active_claims row ++ [card])) rows
  end.
Definition is_active_claim (card : WorkCard) (now_ms : N) : bool :=
  is_some (owner card) && is_some (claim_id card) && is_some_and (claim_expires_at_ms card) (λ x, (now_ms <? x)%N)
  && match state card with CardClaimed | CardInProgress | CardBlocked | CardReview => true | _ => false end.
Definition roster_row_rank (row : WorkRosterRow) (now_ms : N) : N :=
  if is_some (rr_liveness row) && is_some_and (rr_availability row) (λ r, (now_ms <? aa_expires_at_ms r)%N)
  then match rr_availability row with Some r => availability_state_rank (av_state (aa_report r)) | None => 3 end
  else if is_some (rr_liveness row) then 3
  else if is_some (rr_availability row) then 4 else 5.
Definition row_sort_key (now_ms : N) (row : WorkRosterRow) : N * ((N * rstring) * (rstring * rstring)) :=
  (roster_row_rank row now_ms,
   (match rr_availability row with Some r => (1%N, repo_str (av_repo (aa_report r))) | None => (0%N, []) end,
    (default [] (rr_client_id row), show_id (rr_peer row)))).
Definition into_sorted_rows (rows : RosterRows) (now_ms : N) : list WorkRosterRow :=
  sort_by (by_key (row_sort_key now_ms))
    ((λ row, MkWorkRosterRow (rr_peer row) (rr_client_id row) (rr_liveness row) (rr_availability row)
               (sort_by (by_key claim_key) (rr_active_claims row))) <$> bt_values rows).
(** [work_roster_status] once the board, the clock and the live agents are read. *)
Definition roster_of (board : Board) (now_ms : N) (active_agents : list AgentLiveness) (wanted : option RepoId) : WorkRosterStatus :=
  let rows := foldl (λ rows l, upsert_liveness l rows) ∅ active_agents in
  let rows := foldl (λ rows a, upsert_availability a rows) rows
    (filter (λ a, for_repo wanted a = true) (bs_agent_availability (snapshot board))) in
  let cards := filter (λ c, is_some_and wanted (λ r, bool_decide (repo c ≠ r)) = false) (bs_cards (snapshot board)) in
  let claimable (c : WorkCard) := bool_decide (state c = CardOpen) && is_none (claim_id c) in
  let rows := foldl (λ rows c, if negb (claimable c) && is_active_claim c now_ms then add_active_claim c rows else rows) rows cards in
  MkWorkRosterStatus (into_sorted_rows rows now_ms) (length (filter (λ c, claimable c = true) cards)).

(** ** The manager (work_manager.rs) *)
Inductive WorkManagerRecommendationKind := ClaimWork | RecoverStaleClaim | PublishAvailability | SeedBacklog | Wait.
Inductive WorkManagerReason :=
| ClaimableCardAvailable | StaleClaimAvailable | LiveAgentHasNoAvailability | LiveIdleAgentsAndNoClaimableWork
| NoLiveAgents | AllLiveAgentsBusyOrClaimed.
Record WorkManagerAgent := MkWorkManagerAgent {
  wm_peer : PeerId; wm_client_id : option rstring; wm_runtime : option rstring; wm_scope : option rstring }.
Record WorkManagerRecommendation := MkWorkManagerRecommendation {
  re_kind : WorkManagerRecommendationKind; re_reason : WorkManagerReason; re_card : option WorkCard;
  re_stale_claim : option StaleClaim; re_agent : option WorkManagerAgent }.
Definition agent_from_row (row : WorkRosterRow) : WorkManagerAgent :=
  MkWorkManagerAgent (rr_peer row) (rr_client_id row) (li_runtime <$> rr_liveness row) (rr_liveness row ≫= li_scope).
Definition lapsed (now_ms : N) (row : WorkRosterRow) : bool :=
  is_none_or (rr_availability row) (λ r, (aa_expires_at_ms r <=? now_ms)%N).
Definition idle_live_agents (now_ms : N) (roster : WorkRosterStatus) : list WorkManagerAgent :=
  agent_from_row <$> filter (λ row, is_Some (rr_liveness row) ∧ rr_active_claims row = [] ∧
    lapsed now_ms row || is_some_and (rr_availability row) (λ r,
      bool_decide (av_state (aa_report r) = AgentReady) && (now_ms <? aa_expires_at_ms r)%N) = true) (ro_rows roster).
Definition live_rows_without_availability (now_ms : N) (roster : WorkRosterStatus) : list WorkRosterRow :=
  filter (λ row, is_Some (rr_liveness row) ∧ lapsed now_ms row = true) (ro_rows roster).
(** The clock is read once for the idle agents and once for the silent ones. *)
Definition evaluate_manager_recommendations (now_idle now_silent : N) (queue : WorkQueueStatus) (roster : WorkRosterStatus)
    : list WorkManagerRecommendation :=
  let idle_agents := idle_live_agents now_idle roster in
  let of_item item :=
    match ci_stale_claim item with
    | Some stale => MkWorkManagerRecommendation RecoverStaleClaim StaleClaimAvailable (Some (ci_card item)) (Some stale) (head idle_agents)
    | None => MkWorkManagerRecommendation ClaimWork ClaimableCardAvailable (Some (ci_card item)) None (head idle_agents)
    end in
  let of_row row := MkWorkManagerRecommendation PublishAvailability LiveAgentHasNoAvailability None None (Some (agent_from_row row)) in
  (of_item <$> wq_claimable queue) ++ (of_row <$> live_rows_without_availability now_silent roster) ++
  match wq_claimable queue with
  | _ :: _ => []
  | [] =>
      if (alive_count roster =? 0)%nat then [MkWorkManagerRecommendation Wait NoLiveAgents None None None]
      else match idle_agents with
           | [] => [MkWorkManagerRecommendation Wait AllLiveAgentsBusyOrClaimed None None None]
           | a :: _ => [MkWorkManagerRecommendation SeedBacklog LiveIdleAgentsAndNoClaimableWork None None (Some a)]
           end
  end.
Record WorkBacklogSeedCandidate := MkWorkBacklogSeedCandidate {
  bc_repo : RepoId; bc_title : rstring; bc_body : option rstring; bc_priority : Priority; bc_lane_id : option LaneId;
  bc_evidence_key : option rstring }.
Inductive WorkBacklogSeedOutcome := Created | AlreadyRepresented | AlreadyCompleted.
Record SeededWorkCard := MkSeededWorkCard {
  sd_candidate : WorkBacklogSeedCandidate; sd_card_id : WorkCardId; sd_outcome : WorkBacklogSeedOutcome }.
(** [split_whitespace], the word read so far reversed. *)
Fixpoint split_whitespace (word s : rstring) : list rstring :=
  let done := match word with [] => [] | _ => [reverse word] end in
  match s with
  | [] => done
  | c :: s => if is_whitespace c then done ++ split_whitespace [] s else split_whitespace (c :: word) s
  end.
Fixpoint join_words (words : list rstring) : rstring :=
  match words with [] => [] | [w] => w | w :: words => w ++ str " " ++ join_words words end.
Definition normalize_seed_title (value : rstring) : rstring := join_words (split_whitespace [] value).
Definition seed_matches (candidate : WorkBacklogSeedCandidate) (card : WorkCard) : bool :=
  bool_decide (repo card = bc_repo candidate) && bool_decide (lane_id card = bc_lane_id candidate)
  && bool_decide (normalize_seed_title (title card) = normalize_seed_title (bc_title candidate)).
Definition find_seed_match (cards : list WorkCard) (candidate : WorkBacklogSeedCandidate) : option WorkCard :=
  List.find (seed_matches candidate) cards.

Section queue.
Context {J : JsonValue} {S : Serde} {ENV : WorkEnv}.
Variables (peer_id : PeerId) (source : WorkBoardCacheSource) (fuel : nat).
Definition work_queue_status (query : WorkQueueStatusQuery) : IO WorkQueueStatus :=
  board ← work_board_complete source fuel (qq_event_limit query);
  now ← call_now_ms;
  mret (queue_of board now peer_id query).
Definition claimable_work (query : WorkQueueStatusQuery) : IO (list ClaimableWorkItem) :=
  status ← work_queue_status query; mret (wq_claimable status).
Definition seed_request (candidate : WorkBacklogSeedCandidate) : CreateWorkCard :=
  MkCreateWorkCard (bc_repo candidate) (bc_title candidate) (bc_body candidate) (bc_priority candidate) (bc_lane_id candidate) None.
Fixpoint seed_from (board : Board) (candidates : list WorkBacklogSeedCandidate) : IO (list SeededWorkCard) :=
  match candidates with
  | [] => mret []
  | candidate :: candidates =>
      match find_seed_match (bs_cards (snapshot board)) candidate with
      | Some card =>
          let outcome := if is_terminal (state card) then AlreadyCompleted else AlreadyRepresented in
          items ← seed_from board candidates;
          mret (MkSeededWorkCard candidate (card_id card) outcome :: items)
      | None =>
          card_id ← create_work_card peer_id source (seed_request candidate);
          board ← work_board_complete source fuel 512;
          items ← seed_from board candidates;
          mret (MkSeededWorkCard candidate card_id Created :: items)
      end
  end.
Definition seed_work_backlog (candidates : list WorkBacklogSeedCandidate) : IO (list SeededWorkCard) :=
  board ← work_board_complete source fuel 512; seed_from board candidates.
End queue.

(** ** The queue is exact *)
Section exact.
Context {J : JsonValue} {S : Serde} {ENV : WorkEnv}.
Lemma elem_of_bs_cards b c : board_wf b → c ∈ bs_cards (snapshot b) ↔ cards b !! card_id c = Some c.
Proof.
  intros Hwf. cbn. rewrite elem_of_bt_values. split; [|eauto]. intros [i Hi].
  by rewrite (cw_id _ _ (bw_cards _ Hwf _ _ Hi)).
Qed.
(** A lease on [c] that ended by [now]. *)
Definition lapsed_claim (now : N) (c : WorkCard) (sc : StaleClaim) : Prop :=
  sl_card_id sc = card_id c ∧ claim_id c = Some (sl_claim_id sc) ∧ owner c = Some (sl_owner sc) ∧
  claim_expires_at_ms c = Some (sl_expired_at_ms sc) ∧ (sl_expired_at_ms sc ≤ now)%N ∧ is_terminal (state c) = false.
Lemma find_stale b now c sc : board_wf b → cards b !! card_id c = Some c →
  List.find (λ claim, bool_decide (sl_card_id claim = card_id c)) (stale_claims b now) = Some sc ↔ lapsed_claim now c sc.
Proof.
  intros Hwf Hc.
  assert (∀ sc, sc ∈ stale_claims b now → sl_card_id sc = card_id c → lapsed_claim now c sc) as Hin.
  { intros sc' (i & c' & Hi & ? & Hid & ? & ? & ? & ?)%elem_of_stale_claims E.
    rewrite (cw_id _ _ (bw_cards _ Hwf _ _ Hi)) in Hid. replace i with (card_id c) in Hi by congruence.
    rewrite Hc in Hi. injection Hi as <-. by repeat split. }
  split.
  - intros Hf. apply List.find_some in Hf as [Hs He%bool_decide_eq_true]. apply list_elem_of_In in Hs. auto.
  - intros Hl. assert (sc ∈ stale_claims b now) as Hs.
    { destruct Hl as (? & ? & ? & ? & ? & ?). apply elem_of_stale_claims. exists (card_id c), c. by repeat split. }
    destruct (List.find _ _) as [sc'|] eqn:Hf.
    + apply List.find_some in Hf as [Hs' He%bool_decide_eq_true]. apply list_elem_of_In in Hs'.
      destruct (Hin _ Hs' He) as (? & ? & ? & ? & _), Hl as (? & ? & ? & ? & _). f_equal. destruct sc, sc'; cbn in *; congruence.
    + apply list_elem_of_In in Hs. pose proof (List.find_none _ _ Hf sc Hs) as E. cbn in E.
      destruct Hl as (Hid & _). by rewrite bool_decide_true in E.
Qed.
Definition offered (query : WorkQueueStatusQuery) (now : N) (c : WorkCard) (sc : option StaleClaim) : Prop :=
  in_scope query c = true ∧
  match sc with
  | None => state c = CardOpen ∧ claim_id c = None
  | Some sc => lapsed_claim now c sc ∧ qq_include_stale_claims query = true
  end.
Lemma queue_item_spec b now query c i : board_wf b → cards b !! card_id c = Some c →
  queue_item query (stale_claims b now) c = Some i ↔ ci_card i = c ∧ offered query now c (ci_stale_claim i).
Proof.
  intros Hwf Hc. unfold queue_item, offered. pose proof (bw_cards _ Hwf _ _ Hc) as Hcw.
  destruct (in_scope query c); cbn [negb]; [|naive_solver].
  set (f := List.find _ _). pose proof (λ sc, find_stale b now c sc Hwf Hc) as Hfind. fold f in Hfind.
  destruct f as [sc|] eqn:Ef.
  - assert (lapsed_claim now c sc) as Hl by by apply Hfind. destruct Hl as (? & Hcl & ? & ? & ? & Ht) eqn:?.
    unfold is_none, is_some. rewrite Hcl, Ht, andb_false_r, andb_true_r, andb_true_r. cbn [negb].
    destruct (qq_include_stale_claims query) eqn:Hq; cbn [negb andb].
    + split; [intros [= <-]; cbn; repeat split; by try apply Hfind|]. destruct i as [c' [sc'|]]; cbn; [|naive_solver].
      intros (-> & _ & Hl' & _). apply Hfind in Hl'. congruence.
    + split; [done|]. destruct i as [c' [sc'|]]; cbn; naive_solver.
  - unfold is_none, is_some. rewrite andb_false_r, andb_false_l. cbn [negb]. rewrite andb_true_r. split.
    + destruct (bool_decide_reflect (state c = CardOpen)); [|done]. destruct (claim_id c) eqn:?; [done|]. by intros [= <-].
    + destruct i as [c' [sc'|]]; cbn; intros (-> & _ & H).
      * destruct H as [Hl _]. apply Hfind in Hl. done.
      * destruct H as [-> ->]. by rewrite bool_decide_true.
Qed.

Lemma queue_item_fst query l c i : queue_item query l c = Some i → card_id (ci_card i) = card_id c.
Proof. unfold queue_item. repeat case_match; try done. by intros [= <-]. Qed.
Lemma elem_of_take_sub {A} (x : A) n l : x ∈ take n l → x ∈ l.
Proof. intros H. eapply elem_of_prefix; [exact H|apply prefix_take]. Qed.

(** C23: the queue offers exactly the work that is free.  The claimable list is the first
    [limit] of a sorted list, by priority, lapsed claims before open cards, then age, that
    holds each card of the board in scope once: the open cards without a claim, and, where
    lapsed claims are included, the unfinished cards whose lease has ended, with that
    claim.  A card under a live lease is never offered.  The peer's active claims are its
    cards in scope with a lease still running. *)
Theorem queue_exact b now peer query : board_wf b →
  let q := queue_of b now peer query in
  (∃ all, wq_claimable q = take (qq_limit query) all ∧ StronglySorted (by_key queue_item_key) all ∧
    NoDup ((λ i, card_id (ci_card i)) <$> all) ∧
    ∀ i, i ∈ all ↔ cards b !! card_id (ci_card i) = Some (ci_card i) ∧ offered query now (ci_card i) (ci_stale_claim i)) ∧
  (∀ i x, i ∈ wq_claimable q → claim_id (ci_card i) ≠ None → claim_expires_at_ms (ci_card i) = Some x → (x ≤ now)%N) ∧
  (∀ c, c ∈ wq_active_claims_for_peer q ↔ cards b !! card_id c = Some c ∧ in_scope query c = true ∧ owner c = Some peer ∧
    ∃ x, claim_expires_at_ms c = Some x ∧ (now < x)%N).
Proof.
  intros Hwf q. set (l := omap (queue_item query (stale_claims b now)) (bs_cards (snapshot b))).
  assert (∀ i, i ∈ l ↔ cards b !! card_id (ci_card i) = Some (ci_card i) ∧ offered query now (ci_card i) (ci_stale_claim i)) as Hl.
  { intros i. unfold l. rewrite list_elem_of_omap. split.
    - intros (c & Hc%elem_of_bs_cards & Hi); [|done]. apply queue_item_spec in Hi as [<- ?]; done.
    - intros [Hc Ho]. exists (ci_card i). rewrite elem_of_bs_cards by done. split; [done|]. by apply queue_item_spec. }
  assert (∀ i, i ∈ sort_by (by_key queue_item_key) l ↔ i ∈ l) as Hsort by (intros i; by rewrite sort_by_perm).
  split_and!.
  - exists (sort_by (by_key queue_item_key) l). split; [done|]. split; [apply sort_by_sorted; apply _|]. split.
    + rewrite sort_by_perm.
      eapply sublist_NoDup; [|by apply (omap_sublist _ card_id); intros c i Hi; apply queue_item_fst in Hi as ->].
      cbn. rewrite bt_values_NoDup_key by apply Hwf. apply bt_keys_NoDup.
    + intros i. by rewrite Hsort, Hl.
  - intros i x Hi%elem_of_take_sub Hcl Hx. apply Hsort, Hl in Hi as (_ & _ & Ho).
    destruct (ci_stale_claim i) as [sc|]; [|by destruct Ho]. destruct Ho as [(_ & _ & _ & E & ? & _) _]. congruence.
  - intros c. unfold q, queue_of. cbn [wq_active_claims_for_peer bs_cards snapshot].
    rewrite sort_by_perm, list_elem_of_filter, elem_of_bt_values. unfold active_for.
    rewrite !andb_true_iff, bool_decide_eq_true, is_some_and_true. split.
    + intros (((? & ?) & (x & ? & ?%N.ltb_lt)) & [i Hi]). rewrite (cw_id _ _ (bw_cards _ Hwf _ _ Hi)). eauto 10.
    + intros (? & ? & ? & x & ? & ?). split; [|eauto]. split; [done|]. exists x. by rewrite N.ltb_lt.
Qed.
End exact.

(** ** Seeding *)
Section seed.
Context {J : JsonValue} {S : Serde} {ENV : WorkEnv}.
Variables (peer_id : PeerId) (metadata : Json) (source : WorkBoardCacheSource) (fuel : nat) (L : SerdeLaws S).
Notation exec := (WorkStore.exec peer_id metadata).
Notation seed_from := (seed_from peer_id source fuel).
(** The current room shows [b], whose ids the random source has passed. *)
Definition ready (w : World) (b : Board) : Prop :=
  shows source fuel (w_room w) w b ∧ ∀ i c, cards b !! i = Some c → (uuid i < w_uuid w)%N.
Definition room_log (w : World) : list TranscriptEvent := log_of w (room_key source (w_room w)).
Lemma exec_board_complete n w b : ready w b → ∃ w',
  exec (work_board_complete source fuel n) w = (Ok b, w') ∧ same w w' ∧ ready w' b.
Proof.
  intros [Hb Hu]. unfold work_board_complete. rewrite client_exec_io. unfold current_room. cbn [call WorkStore.exec exec_act].
  destruct (exec_board peer_id metadata source fuel (w_room w) n _ _ Hb) as (w' & -> & Hs). exists w'. split; [done|]. split; [done|].
  split; [|by destruct Hs as [_ [s ->]]]. replace (w_room w') with (w_room w) by by destruct Hs as [_ [s ->]].
  by eapply shows_same.
Qed.
Lemma exec_create request n w b : ready w b → own_last (Datatypes.S n) w → (Datatypes.S (length (room_log w)) < fuel)%nat →
  ∃ id w' b' c, exec (create_work_card peer_id source request) w = (Ok id, w') ∧ ready w' b' ∧ own_last n w' ∧ w_room w' = w_room w ∧
    length (room_log w') = Datatypes.S (length (room_log w)) ∧ cards b !! id = None ∧ cards b' = <[id := c]> (cards b) ∧
    repo c = cw_repo request ∧ lane_id c = cw_lane_id request ∧ title c = cw_title request.
Proof.
  intros [(Hw & Hb & _) Hu] Hlast Hfuel. unfold create_work_card. rewrite client_exec_io. cbn [run WorkStore.exec exec_act].
  rewrite client_exec_io. unfold call_now_ms. cbn [call WorkStore.exec exec_act]. rewrite client_exec_io.
  set (w1 := w <| w_uuid := _ |>). set (cc := build_operator_card_created _ _ _ _).
  assert (cards b !! MkId (w_uuid w) = None) as Hnone.
  { destruct (cards b !! _) as [c|] eqn:E; [|done]. apply Hu in E. cbn in E. lia. }
  assert (apply (EvCardCreated cc) b = (Ok tt, b <| cards := <[MkId (w_uuid w) := fresh_card cc]> (cards b) |>
            <| lanes := lane_push cc b |>)) as Happ.
  { cbn [apply]. rewrite apply_card_created_run. subst cc. cbn [cc_card_id build_operator_card_created]. by rewrite Hnone. }
  rewrite exec_publish_current.
  edestruct (exec_publish peer_id metadata source L (w_room w1) (EvCardCreated cc) n w1 b) as
    (e & w' & -> & Hg & Hlast' & _ & Hb' & Hlen & Hroom & Huuid); [done|done|exact Hlast|exact Hb|exact Happ|].
  exists (MkId (w_uuid w)), w', (b <| cards := <[MkId (w_uuid w) := fresh_card cc]> (cards b) |> <| lanes := lane_push cc b |>), (fresh_card cc).
  unfold room_log, ready, shows in *. rewrite Hroom, Huuid, Hlen.
  split; [done|]. split; [|split; [exact Hlast'|by split_and!]]. split.
  - split; [by eapply grows_ok|]. split; [exact Hb'|exact Hfuel].
  - intros i c. cbn. rewrite lookup_insert_Some. intros [[<- _]|[_ Hc]]; cbn; [lia|]. apply Hu in Hc. lia.
Qed.
Lemma find_seed b cand : match find_seed_match (bs_cards (snapshot b)) cand with
  | Some c => seed_matches cand c = true ∧ ∃ i, cards b !! i = Some c
  | None => ∀ i c, cards b !! i = Some c → seed_matches cand c = false
  end.
Proof.
  unfold find_seed_match. destruct (List.find _ _) as [c|] eqn:Hf.
  - apply List.find_some in Hf as [Hin ?]. split; [done|]. apply list_elem_of_In in Hin. by apply elem_of_bt_values.
  - intros i c Hc. apply (List.find_none _ _ Hf), list_elem_of_In, elem_of_bt_values. eauto.
Qed.
(** Item [i] answers candidate [c] on board [b]. *)
Definition answers (b : Board) (c : WorkBacklogSeedCandidate) (i : SeededWorkCard) : Prop :=
  sd_candidate i = c ∧ ∃ card, cards b !! sd_card_id i = Some card ∧ seed_matches c card = true.
Lemma answers_grow b b' c i : cards b ⊆ cards b' → answers b c i → answers b' c i.
Proof. intros Hsub (? & card & ? & ?). split; [done|]. exists card. split; [by eapply lookup_weaken|done]. Qed.
(** The items and the cards that were created. *)
Definition created_items (items : list SeededWorkCard) : list SeededWorkCard :=
  filter (λ i, match sd_outcome i with Created => true | _ => false end = true) items.
Definition created_cards (items : list SeededWorkCard) : list WorkCardId := sd_card_id <$> created_items items.
(** What makes two candidates the same work. *)
Definition seed_key (c : WorkBacklogSeedCandidate) : RepoId * (option LaneId * rstring) :=
  (bc_repo c, (bc_lane_id c, normalize_seed_title (bc_title c))).
Lemma seed_matches_key c card : seed_matches c card = true ↔
  (repo card, (lane_id card, normalize_seed_title (title card))) = seed_key c.
Proof.
  unfold seed_matches, seed_key. rewrite !andb_true_iff, !bool_decide_eq_true. split; [by intros [[-> ->] ->]|by intros [= -> -> ->]].
Qed.
(** Only work the board lacked was created, and no work twice. *)
Definition created_once (b : Board) (items : list SeededWorkCard) : Prop :=
  (∀ i j card, i ∈ created_items items → cards b !! j = Some card → seed_matches (sd_candidate i) card = false) ∧
  NoDup (seed_key ∘ sd_candidate <$> created_items items).
Lemma created_once_cons b b1 cand id c items :
  (∀ i c, cards b !! i = Some c → seed_matches cand c = false) → cards b1 = <[id := c]> (cards b) → cards b ⊆ cards b1 →
  seed_matches cand c = true → created_once b1 items → created_once b (MkSeededWorkCard cand id Created :: items).
Proof.
  intros Hf Hcards Hsub Hm [Hnew Hnd]. unfold created_once, created_items. rewrite filter_cons_True by done. split.
  - intros i j card [->|Hi]%elem_of_cons Hj; [by eapply Hf|]. eapply Hnew; [exact Hi|by eapply lookup_weaken].
  - cbn. constructor; [|exact Hnd]. intros (i & Hk & Hi)%list_elem_of_fmap. cbn in Hk.
    specialize (Hnew i id c Hi). rewrite Hcards, lookup_insert_eq in Hnew. specialize (Hnew eq_refl).
    apply seed_matches_key in Hm. rewrite Hk in Hm. apply seed_matches_key in Hm. congruence.
Qed.
Lemma exec_seed cands : ∀ w b, ready w b → own_last (length cands) w → (length (room_log w) + length cands < fuel)%nat →
  ∃ items w' b', exec (seed_from b cands) w = (Ok items, w') ∧ ready w' b' ∧ w_room w' = w_room w ∧
    cards b ⊆ cards b' ∧ dom (cards b') = dom (cards b) ∪ list_to_set (created_cards items) ∧
    length (room_log w') = (length (room_log w) + length (created_cards items))%nat ∧
    created_once b items ∧ Forall2 (answers b') cands items.
Proof.
  induction cands as [|cand cands IH]; intros w b Hr Hlast Hfuel.
  { exists [], w, b. assert (created_once b []) by (split; [by intros ? ? ? ?%elem_of_nil|constructor]). cbn. rewrite union_empty_r_L, Nat.add_0_r. by split_and!. }
  cbn [WorkQueue.seed_from length] in *. pose proof (find_seed b cand) as Hf.
  destruct (find_seed_match _ cand) as [card|].
  - destruct Hf as (Hm & i & Hi). rewrite client_exec_io.
    destruct (IH w b Hr ltac:(by eapply own_last_le; [|exact Hlast]; lia) ltac:(lia)) as (items & w' & b' & -> & Hr' & Hroom & Hsub & Hdom & Hlen & Honce & Hans).
    destruct Hr as [(_ & Hb & _) _]. rewrite (cw_id _ _ (bw_cards _ (project_wf _ _ Hb) _ _ Hi)).
    eexists _, w', b'. split; [done|]. unfold created_once, created_cards, created_items in *.
    rewrite filter_cons_False by by destruct (is_terminal _). split_and!; try apply Honce; try done. constructor; [|done]. split; [done|]. exists card. split; [by eapply lookup_weaken|done].
  - rewrite client_exec_io. destruct (exec_create (seed_request cand) (length cands) w b Hr Hlast ltac:(lia)) as
      (id & w1 & b1 & c & -> & Hr1 & Hlast1 & Hroom1 & Hlen1 & Hnone & Hcards & Hrepo & Hlane & Htitle).
    rewrite client_exec_io. destruct (exec_board_complete 512 w1 b1 Hr1) as (w2 & -> & Hs2 & Hr2).
    assert (w_room w2 = w_room w1 ∧ room_log w2 = room_log w1) as [Hroom2 Hlog2].
    { unfold room_log. destruct Hs2 as [_ [s ->]]. done. }
    rewrite client_exec_io. destruct (IH w2 b1 Hr2 ltac:(by eapply own_last_same)) as (items & w' & b' & -> & Hr' & Hroom & Hsub & Hdom & Hlen & Honce & Hans).
    { rewrite Hlog2, Hlen1. lia. }
    assert (cards b ⊆ cards b1) as Hsub1 by (rewrite Hcards; by apply insert_subseteq).
    eexists _, w', b'. split; [done|]. assert (created_once b (MkSeededWorkCard cand id Created :: items)) as Honce'.
    { eapply created_once_cons; [exact Hf|exact Hcards|exact Hsub1|by apply seed_matches_key; rewrite Hrepo, Hlane, Htitle|exact Honce]. }
    unfold created_cards, created_items in *. rewrite filter_cons_True by done. cbn [fmap list_fmap sd_card_id list_to_set length].
    split_and!; [done|congruence|by etrans| | |exact Honce'|].
    + rewrite Hdom, Hcards, dom_insert_L. set_solver.
    + rewrite Hlen, Hlog2, Hlen1. cbn. lia.
    + constructor; [|done]. split; [done|]. exists c. split.
      * eapply lookup_weaken; [|exact Hsub]. rewrite Hcards. by rewrite lookup_insert_eq.
      * unfold seed_matches. rewrite Hrepo, Hlane, Htitle. by rewrite !bool_decide_true.
Qed.
Lemma exec_seed_answered cands : ∀ items w b, ready w b → Forall2 (answers b) cands items →
  ∃ items', exec (seed_from b cands) w = (Ok items', w) ∧ created_cards items' = [] ∧ Forall2 (answers b) cands items'.
Proof.
  induction cands as [|cand cands IH]; intros items w b Hr Hans.
  { exists []. by repeat split. }
  inversion_clear Hans as [|? ? ? ? Ha Hrest]. destruct Ha as (_ & card & Hc & Hm).
  cbn [WorkQueue.seed_from]. pose proof (find_seed b cand) as Hf. destruct (find_seed_match _ cand) as [card'|].
  2: { specialize (Hf _ _ Hc). congruence. }
  destruct Hf as (Hm' & i & Hi). rewrite client_exec_io. destruct (IH _ w b Hr Hrest) as (items' & -> & Hcr & Hans').
  destruct Hr as [(_ & Hb & _) _]. rewrite (cw_id _ _ (bw_cards _ (project_wf _ _ Hb) _ _ Hi)).
  eexists. split; [done|]. unfold created_cards, created_items in *. rewrite filter_cons_False by by destruct (is_terminal _).
  split; [done|]. constructor; [|done]. split; [done|]. by exists card'.
Qed.

(** C22: seeding a backlog is idempotent in a room at rest.  Nobody else acts, no call
    fails, the room's log is in order and the scope's snapshots are replays of it, the
    random source has passed the ids of the board, and the frames the call sends sort
    after the room's log.  Then it returns one item for each candidate, in order, each
    naming a card of the board that matches it; the cards it created are the only new
    ones, one event each, for work that no card of the board represented and never twice;
    every other card is as it was; and seeding the same candidates again, at once, creates
    nothing and leaves the log alone.  Two peers that seed at once may each create a card. *)
Theorem seed_idempotent candidates w b :
  ready w b → own_last (length candidates) w → (length (room_log w) + length candidates < fuel)%nat →
  ∃ items w' b', exec (seed_work_backlog peer_id source fuel candidates) w = (Ok items, w') ∧
    ready w' b' ∧ w_room w' = w_room w ∧ cards b ⊆ cards b' ∧
    dom (cards b') = dom (cards b) ∪ list_to_set (created_cards items) ∧
    length (room_log w') = (length (room_log w) + length (created_cards items))%nat ∧
    created_once b items ∧ Forall2 (answers b') candidates items ∧
    ∃ items2 w2, exec (seed_work_backlog peer_id source fuel candidates) w' = (Ok items2, w2) ∧
      created_cards items2 = [] ∧ w_logs w2 = w_logs w' ∧ Forall2 (answers b') candidates items2.
Proof.
  intros Hr Hlast Hfuel. unfold seed_work_backlog. rewrite client_exec_io.
  destruct (exec_board_complete 512 w b Hr) as (w1 & -> & Hs1 & Hr1).
  assert (w_room w1 = w_room w ∧ room_log w1 = room_log w) as [Hroom1 Hlog1].
  { unfold room_log. destruct Hs1 as [_ [s ->]]. done. }
  destruct (exec_seed candidates w1 b Hr1 ltac:(by eapply own_last_same) ltac:(by rewrite Hlog1)) as (items & w' & b' & -> & Hr' & Hroom & Hsub & Hdom & Hlen & Honce & Hans).
  exists items, w', b'. rewrite Hlog1 in Hlen. rewrite Hroom1 in Hroom. split_and!; try done.
  rewrite client_exec_io. destruct (exec_board_complete 512 w' b' Hr') as (w2 & -> & Hs2 & Hr2).
  destruct (exec_seed_answered candidates items w2 b' Hr2 Hans) as (items2 & -> & ? & ?).
  exists items2, w2. split_and!; try done. by destruct Hs2 as [_ [s ->]].
Qed.
End seed.

(** ** What the roster and the manager make of an agent *)
Lemma manager_always_recommends t1 t2 queue roster : evaluate_manager_recommendations t1 t2 queue roster ≠ [].
Proof.
  unfold evaluate_manager_recommendations. destruct (wq_claimable queue); [|done].
  intros [_ [_ H]%app_nil]%app_nil. repeat case_match; done.
Qed.
(** A row under a key with a client never has an availability: the reports are filed under
    the peer alone. *)
Definition client_rows (rows : RosterRows) : Prop := ∀ k row, rows !! k = Some row →
  (∀ l c, rr_liveness row = Some l → li_client_id l = Some c → length k ≠ 36%nat) ∧
  (length k ≠ 36%nat → rr_availability row = None).
Lemma row_key_length p c : length (roster_row_key p c) = 36%nat ↔ c = None.
Proof.
  unfold roster_row_key, show_id. destruct c as [c|]; rewrite ?length_app, show_uuid_length; cbn; split; try done; lia.
Qed.
Lemma client_rows_upsert key p c f rows : client_rows rows →
  (∀ row, rr_liveness (f row) = rr_liveness row ∨
     ∃ l, rr_liveness (f row) = Some l ∧ (∀ c, li_client_id l = Some c → length key ≠ 36%nat)) →
  (length key = 36%nat ∨ ∀ row, rr_availability (f row) = rr_availability row) →
  client_rows (row_mut_with_key key p c f rows).
Proof.
  intros Hr Hl Ha k row. unfold row_mut_with_key. rewrite lookup_insert_Some. intros [[<- <-]|[_ Hk]]; [|by apply Hr].
  set (row0 := default _ _).
  assert ((∀ l c, rr_liveness row0 = Some l → li_client_id l = Some c → length key ≠ 36%nat) ∧
          (length key ≠ 36%nat → rr_availability row0 = None)) as [H1 H2].
  { unfold row0. destruct (rows !! key) as [row|] eqn:E; [by apply Hr|]. split; [by intros ?? [=]|done]. }
  split.
  - intros l c' Hl' Hc'. destruct (Hl row0) as [E|(l' & E & H)]; rewrite E in Hl'; [eauto|]. simplify_eq. eauto.
  - intros Hk. destruct Ha as [Ha|Ha]; [by destruct Hk|]. rewrite Ha. auto.
Qed.
Lemma foldl_inv {A X} (P : X → Prop) (f : X → A → X) l : (∀ x a, P x → P (f x a)) → ∀ x, P x → P (foldl f x l).
Proof. intros Hf. induction l; cbn; auto. Qed.
Lemma client_row_unavailable board now agents wanted row l c :
  row ∈ ro_rows (roster_of board now agents wanted) → rr_liveness row = Some l → li_client_id l = Some c →
  rr_availability row = None.
Proof.
  unfold roster_of. cbn [ro_rows]. set (rows := foldl _ (foldl _ (foldl _ ∅ agents) _) _).
  assert (client_rows rows) as Hr.
  { unfold rows. apply foldl_inv; [|apply foldl_inv; [|apply foldl_inv; [|done]]].
    - intros rs card Hrs. destruct (_ && _); [|done]. unfold add_active_claim. destruct (owner card); [|done].
      apply client_rows_upsert; [done|by left|by right].
    - intros rs a Hrs. apply client_rows_upsert; [done|by left|left; by apply row_key_length].
    - intros rs li Hrs. apply client_rows_upsert; [done| |by right]. intros row0. right. exists li. split; [done|].
      intros c' Hc'. rewrite row_key_length, Hc'. done. }
  unfold into_sorted_rows. rewrite sort_by_perm, list_elem_of_fmap. intros (row' & -> & [k Hk]%elem_of_bt_values) Hl Hc.
  cbn in *. destruct (Hr k row' Hk) as [H1 H2]. eauto.
Qed.
(** Whatever it reported, an agent whose heartbeat names a client is asked to report again,
    and counts as idle unless it holds a card. *)
Lemma client_agent_asked_again board now agents wanted row l c t1 t2 queue :
  let roster := roster_of board now agents wanted in
  row ∈ ro_rows roster → rr_liveness row = Some l → li_client_id l = Some c →
  MkWorkManagerRecommendation PublishAvailability LiveAgentHasNoAvailability None None (Some (agent_from_row row))
    ∈ evaluate_manager_recommendations t1 t2 queue roster ∧
  (rr_active_claims row = [] → agent_from_row row ∈ idle_live_agents t1 roster).
Proof.
  intros roster Hrow Hl Hc. pose proof (client_row_unavailable _ _ _ _ _ _ _ Hrow Hl Hc) as Ha. split.
  - unfold evaluate_manager_recommendations. rewrite !elem_of_app. right; left. apply list_elem_of_fmap. exists row.
    split; [done|]. unfold live_rows_without_availability, lapsed. rewrite list_elem_of_filter, Hl, Ha. by repeat split.
  - intros Hcl. unfold idle_live_agents, lapsed. apply list_elem_of_fmap. exists row. split; [done|].
    rewrite list_elem_of_filter, Hl, Ha. by repeat split.
Qed.

Import Scenario ReplayScenario BoardWorld.
Lemma queue_exact_witness :
  let q := queue_of review_board 60 alice WorkQueueStatusQuery_default in
  board_wf review_board ∧
  ∀ c, c ∈ wq_active_claims_for_peer q ↔ cards review_board !! card_id c = Some c ∧
    in_scope WorkQueueStatusQuery_default c = true ∧ owner c = Some alice ∧
    ∃ x, claim_expires_at_ms c = Some x ∧ (60 < x)%N.
Proof.
  intros q. split; [apply board_of_wf|].
  exact (proj2 (proj2 (queue_exact review_board 60 alice WorkQueueStatusQuery_default (board_of_wf upto_review)))).
Defined.
Definition candidates : list WorkBacklogSeedCandidate :=
  [ MkWorkBacklogSeedCandidate airc (str "fix  it ") None P1 (Some lane5) None;
    MkWorkBacklogSeedCandidate airc (str "write docs") None P1 None None;
    MkWorkBacklogSeedCandidate airc (str " write  docs") None P0 None None ].
Lemma world_ready : ready FromStore 12 world review_board.
Proof.
  split.
  - split; [exact world_ok_world|]. split; [vm_compute; reflexivity|]. change (length log < 12)%nat. vm_compute. lia.
  - intros i c Hi%elem_of_dom_2. assert (dom (cards review_board) = {[card10; card1010]}) as E by (vm_compute; reflexivity).
    rewrite E in Hi. cbn. assert (i = card10 ∨ i = card1010) as H by set_solver. by destruct H; subst.
Qed.
Lemma seed_idempotent_witness :
  ∃ items w' b', exec alice (EvCardClaimed claimed) (seed_work_backlog alice FromStore 12 candidates) world = (Ok items, w') ∧
    Forall2 (answers b') candidates items ∧ dom (cards b') = dom (cards review_board) ∪ list_to_set (created_cards items).
Proof.
  destruct (seed_idempotent (J := json) alice (EvCardClaimed claimed) FromStore 12 serde_laws candidates world review_board world_ready
    (own_last_checked 3 world ltac:(by vm_compute)) ltac:(vm_compute; lia)) as (items & w' & b' & He & _ & _ & _ & Hdom & _ & _ & Hans & _).
  exists items, w', b'. split; [exact He|]. split; [exact Hans|exact Hdom].
Defined.
Example seeded_once :
  match (exec alice (EvCardClaimed claimed) (seed_work_backlog alice FromStore 12 candidates) world).1 with
  | Ok items => sd_outcome <$> items
  | Err _ => []
  end = [AlreadyRepresented; Created; AlreadyRepresented].
Proof. vm_compute. reflexivity. Qed.
