(* ===== verification/IpcCodec.v ===== *)
(** The length-framed codec between clients and the daemon ([airc-ipc/src/codec.rs]): frames on
    a byte stream, the hand-written encoder and decoder of event frames, and what they owe
    to the generic CBOR ones. *)
From stdpp Require Import base strings list numbers.
From Stdlib Require Import Lia.
From S2P Require Import Prelude.
From S2P Require Import ProtoSession.
From S2P Require Import ProtoSessionThms.
From S2P Require Import WorkModel.
From S2P Require Import ProtoKeys.
From S2P Require Import ProtoHandshake.

Inductive FrameError := InvalidData (message : rstring) | UnexpectedEof | IoFailed (message : rstring).
Definition MAX_FRAME_BYTES : N := 16 * 1024 * 1024.
Definition EVENT_PREFIX : list N := [162%N; 100%N] ++ str "kind" ++ [101%N] ++ str "event" ++ [104%N] ++ str "envelope".
Definition too_large (len : N) : FrameError :=
  InvalidData (str "ipc frame too large: " ++ show_N len ++ str " bytes exceeds " ++ show_N MAX_FRAME_BYTES).
Definition validate_frame_len (len : N) : result FrameError N :=
  if (2 ^ 32 <=? len)%N then Err (too_large len)
  else if (MAX_FRAME_BYTES <? len)%N then Err (too_large len) else Ok len.

(** ** The event encoder *)
Definition header_len (n : N) : N :=
  if (n <=? 23)%N then 1 else if (n <=? 255)%N then 2 else if (n <=? 65535)%N then 3
  else if (n <? 2 ^ 32)%N then 5 else 9.
Definition usize_add (a b : N) : option N := if (a + b <? u64_modulus)%N then Some (a + b)%N else None.
Definition array_header (n : N) : list N :=
  match header_len n with
  | 1%N => [N.lor 128 (n mod 256)]
  | 2%N => [152%N; (n mod 256)%N]
  | 3%N => 153%N :: be_bytes 2 n
  | 5%N => 154%N :: be_bytes 4 n
  | _ => 155%N :: be_bytes 8 n
  end.
Definition byte_form (byte : N) : list N := if (24 <=? byte)%N then [24%N; byte] else [byte].
Definition event_len (envelope : list N) : option N :=
  let n := N.of_nat (length envelope) in
  usize_add (N.of_nat (length EVENT_PREFIX)) (header_len n) ≫= λ len, usize_add len n ≫= λ len,
  usize_add len (N.of_nat (length (filter (λ byte, 24 ≤ byte)%N envelope))).
Definition encode_event_frame_payload (envelope : list N) : result FrameError (list N) :=
  match event_len envelope with
  | None => Err (InvalidData (str "ipc frame length overflow"))
  | Some len =>
      _ ← validate_frame_len len;
      Ok (EVENT_PREFIX ++ array_header (N.of_nat (length envelope)) ++ (envelope ≫= byte_form))
  end.

(** ** The event decoder *)
(** [from_be_bytes]. *)
Definition be_value (bytes : list N) : N := foldl (λ n b, 256 * n + b)%N 0%N bytes.
Definition get_be (w : nat) (rest : list N) : option (N * list N) :=
  if (w <=? length rest)%nat then Some (be_value (take w rest), drop w rest) else None.
Definition array_count (head : N) (rest : list N) : option (N * list N) :=
  if (128 <=? head)%N && (head <=? 151)%N then Some ((head - 128)%N, rest)
  else if (head =? 152)%N then
    match rest with n :: rest => if (n <? 24)%N then None else Some (n, rest) | [] => None end
  else if (head =? 153)%N then get_be 2 rest ≫= λ '(n, rest), if (n <? 256)%N then None else Some (n, rest)
  else if (head =? 154)%N then get_be 4 rest ≫= λ '(n, rest), if (n <? 65536)%N then None else Some (n, rest)
  else None.
Fixpoint read_bytes (count : nat) (rest : list N) : option (list N * list N) :=
  match count with
  | O => Some ([], rest)
  | S count =>
      match rest with
      | [] => None
      | n :: rest =>
          if (n <=? 23)%N then '(bytes, rest) ← read_bytes count rest; Some (n :: bytes, rest)
          else if (n =? 24)%N then
            match rest with
            | n :: rest => if (n <? 24)%N then None else '(bytes, rest) ← read_bytes count rest; Some (n :: bytes, rest)
            | [] => None
            end
          else None
      end
  end.
Definition canonical_event (payload : list N) : option (list N) :=
  rest ← strip_prefix EVENT_PREFIX payload;
  match rest with
  | [] => None
  | head :: rest =>
      '(count, rest) ← array_count head rest;
      if (N.of_nat (length rest) <? count)%N then None
      else '(bytes, rest) ← read_bytes (N.to_nat count) rest; if decide (rest = []) then Some bytes else None
  end.

(** ciborium and the derived encodings of a [Response]. *)
Class ResponseCbor := {
  Response : Type;
  EventResponse : list N → Response;
  response_to_cbor : Response → result rstring (list N);
  response_of_cbor : list N → result rstring Response;
}.
Definition encode_frame_payload `{!ResponseCbor} (value : Response) : result FrameError (list N) :=
  match response_to_cbor value with
  | Err e => Err (InvalidData e)
  | Ok payload => _ ← validate_frame_len (N.of_nat (length payload)); Ok payload
  end.
Definition from_reader `{!ResponseCbor} (payload : list N) : result FrameError Response :=
  match response_of_cbor payload with Ok r => Ok r | Err e => Err (InvalidData e) end.
Definition decode_response `{!ResponseCbor} (payload : list N) : result FrameError Response :=
  match canonical_event payload with Some envelope => Ok (EventResponse envelope) | None => from_reader payload end.

(** ** Frames on a stream *)
(** What was written, and how much the peer still takes before it is gone. *)
Record Writer := MkWriter { wr_out : list N; wr_left : option nat }.
Definition write_all (bytes : list N) : ST Writer FrameError unit := λ w,
  match wr_left w with
  | None => (Ok tt, MkWriter (wr_out w ++ bytes) None)
  | Some room =>
      if (length bytes <=? room)%nat then (Ok tt, MkWriter (wr_out w ++ bytes) (Some (room - length bytes)%nat))
      else (Err (IoFailed (str "broken pipe")), MkWriter (wr_out w ++ take room bytes) (Some 0%nat))
  end.
Definition write_encoded_frame (payload : list N) : ST Writer FrameError unit :=
  len ← st_lift (validate_frame_len (N.of_nat (length payload)));
  _ ← write_all (be_bytes 4 len);
  write_all payload.
Definition write_frame `{!ResponseCbor} (value : Response) : ST Writer FrameError unit :=
  payload ← st_lift (encode_frame_payload value); write_encoded_frame payload.
(** The reader holds the bytes that will come before the end of the stream. *)
Definition read_exact (n : nat) : ST (list N) FrameError (list N) := λ s,
  if (n <=? length s)%nat then (Ok (take n s), drop n s) else (Err UnexpectedEof, []).
Definition read_payload : ST (list N) FrameError (option (list N)) := λ s,
  match read_exact 4 s with
  | (Err UnexpectedEof, s) => (Ok None, s)
  | (Err e, s) => (Err e, s)
  | (Ok len_bytes, s) =>
      let len := be_value len_bytes in
      if (MAX_FRAME_BYTES <? len)%N then (Err (too_large len), s)
      else match read_exact (N.to_nat len) s with
           | (Ok payload, s) => (Ok (Some payload), s)
           | (Err e, s) => (Err e, s)
           end
  end.
Definition read_response_frame `{!ResponseCbor} : ST (list N) FrameError (option Response) :=
  payload ← read_payload;
  match payload with None => mret None | Some payload => st_lift (match decode_response payload with Ok r => Ok (Some r) | Err e => Err e end) end.

(** ** The generic encoder on an event *)
(** serde's data model of [Response::Event] ([response.rs]): the internal tag [kind], then the
    field [envelope], a [Vec<u8>] and so a sequence of integers. *)
Definition event_items (envelope : list N) : list Item :=
  [MapOf 2; Text (str "kind"); Text (str "event"); Text (str "envelope"); ArrayOf (N.of_nat (length envelope))]
  ++ (Positive <$> envelope).
Definition event_cbor (envelope : list N) : list N := event_items envelope ≫= cbor_item.

(** ** The event forms *)
(** What the hand-written encoder pushes. *)
Definition event_form (envelope : list N) : list N :=
  EVENT_PREFIX ++ array_header (N.of_nat (length envelope)) ++ (envelope ≫= byte_form).

Lemma be_value_acc w n acc : foldl (λ n b, 256 * n + b)%N acc (be_bytes w n) = (acc * 256 ^ N.of_nat w + n mod 256 ^ N.of_nat w)%N.
Proof.
  revert acc. induction w as [|w IH]; intros acc; cbn [be_bytes foldl]; [rewrite N.mod_1_r; cbn; lia|].
  rewrite IH, Nat2N.inj_succ, N.pow_succ_r', (N.mul_comm 256 (256 ^ _)), N.Div0.mod_mul_r. lia.
Qed.
Lemma be_value_bytes w n : (n < 256 ^ N.of_nat w)%N → be_value (be_bytes w n) = n.
Proof. intros Hn. unfold be_value. rewrite be_value_acc, N.mod_small by done. lia. Qed.
Lemma be_value_split l acc : Forall is_byte l → let v := foldl (λ n b, 256 * n + b)%N acc l in
  be_bytes (length l) v = l ∧ ∃ r, v = (acc * 256 ^ N.of_nat (length l) + r)%N ∧ (r < 256 ^ N.of_nat (length l))%N.
Proof.
  revert acc. induction l as [|b l IH]; intros acc Hl; cbn [foldl length be_bytes].
  { split; [done|]. exists 0%N. cbn. lia. }
  apply list.Forall_cons in Hl as [Hb Hl]. destruct (IH (256 * acc + b)%N Hl) as (Htl & r & Hv & Hr). unfold is_byte in Hb.
  rewrite Nat2N.inj_succ, N.pow_succ_r'. set (p := (256 ^ N.of_nat (length l))%N) in *. split.
  - rewrite Htl, Hv. f_equal. rewrite N.div_add_l, (N.div_small r p), N.add_0_r by lia.
    rewrite (N.mul_comm 256 acc), N.add_comm, N.Div0.mod_add. by apply N.mod_small.
  - exists (b * p + r)%N. rewrite Hv. split; nia.
Qed.
Lemma be_bytes_value l : Forall is_byte l → be_bytes (length l) (be_value l) = l.
Proof. intros H. apply (be_value_split l 0 H). Qed.
Lemma be_value_lt l : Forall is_byte l → (be_value l < 256 ^ N.of_nat (length l))%N.
Proof. intros H. destruct (be_value_split l 0 H) as (_ & r & Hv & Hr). unfold be_value. lia. Qed.

Lemma get_be_spec w l n r : Forall is_byte l → get_be w l = Some (n, r) ↔ l = be_bytes w n ++ r ∧ (n < 256 ^ N.of_nat w)%N.
Proof.
  intros Hl. unfold get_be. destruct (Nat.leb_spec w (length l)) as [Hw|Hw]; split.
  - intros [= <- <-]. assert (Forall is_byte (take w l)) as Ht by by apply Forall_take.
    assert (length (take w l) = w) as Hlen by (rewrite length_take; lia).
    pose proof (be_bytes_value _ Ht) as Hv. pose proof (be_value_lt _ Ht) as Hlt. rewrite Hlen in Hv, Hlt.
    by rewrite Hv, take_drop.
  - intros [-> Hn]. rewrite take_app_length', drop_app_length' by by rewrite be_bytes_length. by rewrite be_value_bytes.
  - done.
  - intros [-> _]. rewrite length_app, be_bytes_length in Hw. lia.
Qed.
Lemma read_bytes_spec c l bs r : read_bytes c l = Some (bs, r) ↔ l = (bs ≫= byte_form) ++ r ∧ length bs = c.
Proof.
  revert l bs. induction c as [|c IH]; intros l bs; cbn [read_bytes].
  { split; [by intros [= <- <-]|]. intros [-> ->%nil_length_inv]. done. }
  split.
  - destruct l as [|n l]; [done|]. destruct (N.leb_spec n 23) as [Hn|Hn].
    + destruct (read_bytes c l) as [[bs' r']|] eqn:E; [|done]. cbn. intros [= <- <-]. apply IH in E as [-> <-].
      cbn. unfold byte_form at 2. by rewrite (proj2 (N.leb_gt 24 n)) by lia.
    + destruct (N.eqb_spec n 24) as [->|]; [|done]. destruct l as [|m l]; [done|]. destruct (N.ltb_spec m 24); [done|].
      destruct (read_bytes c l) as [[bs' r']|] eqn:E; [|done]. cbn. intros [= <- <-]. apply IH in E as [-> <-].
      cbn. unfold byte_form at 2. by rewrite (proj2 (N.leb_le 24 m)) by lia.
  - intros [-> Hlen]. destruct bs as [|b bs]; [done|]. cbn. unfold byte_form at 1. injection Hlen as Hlen.
    destruct (N.leb_spec 24 b) as [Hb|Hb]; cbn.
    + rewrite (proj2 (N.ltb_ge b 24)) by done. by rewrite (proj2 (IH _ bs)).
    + rewrite (proj2 (N.leb_le b 23)) by lia. by rewrite (proj2 (IH _ bs)).
Qed.
Lemma small_header n : (n ≤ 23)%N → N.lor 128 (n mod 256) = (128 + n)%N.
Proof.
  intros Hn. assert (forallb (λ k, N.lor 128 (N.of_nat k mod 256) =? 128 + N.of_nat k)%N (seq 0 24) = true) as H by by vm_compute.
  rewrite forallb_forall in H. specialize (H (N.to_nat n)). rewrite N2Nat.id in H. apply N.eqb_eq, H, in_seq. lia.
Qed.
Lemma header_cases n : (n < 2 ^ 32)%N →
  (n ≤ 23 ∧ array_header n = [128 + n])%N ∨ (24 ≤ n ≤ 255 ∧ array_header n = [152; n])%N ∨
  (256 ≤ n ≤ 65535)%N ∧ array_header n = 153%N :: be_bytes 2 n ∨ (65536 ≤ n)%N ∧ array_header n = 154%N :: be_bytes 4 n.
Proof.
  intros Hn. unfold array_header, header_len. destruct (N.leb_spec n 23); [left; by rewrite small_header|].
  destruct (N.leb_spec n 255); [right; left; rewrite N.mod_small by lia; split; [lia|done]|].
  destruct (N.leb_spec n 65535); [right; right; left; split; [lia|done]|].
  rewrite (proj2 (N.ltb_lt _ _) Hn). right; right; right. split; [lia|done].
Qed.
Lemma array_count_spec h l n r : Forall is_byte l →
  array_count h l = Some (n, r) ↔ h :: l = array_header n ++ r ∧ (n < 2 ^ 32)%N.
Proof.
  intros Hl. unfold array_count. split.
  - destruct (N.leb_spec 128 h) as [H1|H1]; [destruct (N.leb_spec h 151) as [H2|H2]|]; cbn [andb].
    { intros [= <- <-]. destruct (header_cases (h - 128)) as [[_ ->]|[[? _]|[[? _]|[? _]]]]; [lia| |lia..].
      split; [|lia]. cbn. f_equal. lia. }
    all: destruct (N.eqb_spec h 152) as [->|]; [|destruct (N.eqb_spec h 153) as [->|]; [|destruct (N.eqb_spec h 154) as [->|]; [|done]]]; try lia.
    + destruct l as [|m l]; [done|]. destruct (N.ltb_spec m 24); [done|]. intros [= <- <-].
      apply list.Forall_cons in Hl as [Hm _]. unfold is_byte in Hm.
      destruct (header_cases m) as [[? _]|[[_ ->]|[[? _]|[? _]]]]; [lia..| |lia|lia]. split; [done|lia].
    + destruct (get_be 2 l) as [[m r']|] eqn:E; [|done]. cbn. destruct (N.ltb_spec m 256); [done|]. intros [= <- <-].
      apply get_be_spec in E as [-> Hm]; [|done]. cbn in Hm.
      destruct (header_cases m) as [[? _]|[[? _]|[[_ ->]|[? _]]]]; [lia..| |lia]. split; [done|lia].
    + destruct (get_be 4 l) as [[m r']|] eqn:E; [|done]. cbn. destruct (N.ltb_spec m 65536); [done|]. intros [= <- <-].
      apply get_be_spec in E as [-> Hm]; [|done]. cbn in Hm.
      destruct (header_cases m) as [[? _]|[[? _]|[[? _]|[_ ->]]]]; [lia..|]. split; [done|lia].
  - intros [Hh Hn]. destruct (header_cases n Hn) as [[Hr E]|[[Hr E]|[[Hr E]|[Hr E]]]]; rewrite E in Hh; cbn in Hh.
    + injection Hh as -> ->. rewrite (proj2 (N.leb_le _ _)), (proj2 (N.leb_le _ _)) by lia. cbn. do 2 f_equal. lia.
    + injection Hh as -> ->. cbn. by rewrite (proj2 (N.ltb_ge _ _)) by lia.
    + injection Hh as -> Hh. change (l = be_bytes 2 n ++ r) in Hh. cbn [N.leb N.compare andb N.eqb].
      rewrite (proj2 (get_be_spec 2 l n r Hl)) by (split; [done|cbn; lia]). cbn. by rewrite (proj2 (N.ltb_ge _ _)) by lia.
    + injection Hh as -> Hh. change (l = be_bytes 4 n ++ r) in Hh.
      rewrite (proj2 (get_be_spec 4 l n r Hl)) by (split; [done|cbn; lia]). cbn. by rewrite (proj2 (N.ltb_ge _ _)) by lia.
Qed.
Lemma byte_forms_length e : (length (e ≫= byte_form) = length e + length (filter (λ byte, 24 ≤ byte)%N e))%nat.
Proof.
  induction e as [|b e IH]; [done|]. cbn [mbind list_bind]. rewrite length_app, filter_cons. change (list_bind _ _ byte_form e) with (e ≫= byte_form).
  rewrite IH. unfold byte_form. destruct (N.leb_spec 24 b); case_decide; cbn; lia.
Qed.
Lemma canonical_event_spec p e : Forall is_byte p →
  canonical_event p = Some e ↔ p = event_form e ∧ (N.of_nat (length e) < 2 ^ 32)%N.
Proof.
  intros Hp. unfold canonical_event, event_form. split.
  - destruct (strip_prefix EVENT_PREFIX p) as [rest|] eqn:E; [|done]. apply strip_prefix_spec in E as ->. cbn [mbind option_bind].
    apply Forall_app in Hp as [_ Hp]. destruct rest as [|h rest]; [done|].
    destruct (array_count h rest) as [[n r]|] eqn:E; [|done]. apply list.Forall_cons in Hp as [_ Hp].
    apply array_count_spec in E as [-> Hn]; [|done]. cbn. destruct (N.ltb_spec (N.of_nat (length r)) n); [done|].
    destruct (read_bytes (N.to_nat n) r) as [[bs r']|] eqn:E; [|done]. apply read_bytes_spec in E as [-> Hlen].
    cbn. case_decide as Hr; [|done]. intros [= <-]. subst r'. rewrite app_nil_r, Hlen, N2Nat.id. done.
  - intros [-> Hn]. rewrite (proj2 (strip_prefix_spec _ _ _) eq_refl). cbn [mbind option_bind].
    apply Forall_app in Hp as [_ Hp]. destruct (array_header (N.of_nat (length e)) ++ (e ≫= byte_form)) as [|h rest] eqn:E.
    { by destruct (header_cases _ Hn) as [[_ E']|[[_ E']|[[_ E']|[_ E']]]]; rewrite E' in E. }
    apply list.Forall_cons in Hp as [_ Hp]. rewrite (proj2 (array_count_spec h rest _ (e ≫= byte_form) Hp)) by done.
    cbn. rewrite (proj2 (N.ltb_ge _ _)) by (rewrite byte_forms_length; lia).
    rewrite Nat2N.id, (proj2 (read_bytes_spec _ _ e [])) by by rewrite app_nil_r. done.
Qed.
Lemma event_len_spec e len : event_len e = Some len → len = N.of_nat (length (event_form e)).
Proof.
  unfold event_len, usize_add, event_form. rewrite !length_app, byte_forms_length.
  assert (N.of_nat (length (array_header (N.of_nat (length e)))) = header_len (N.of_nat (length e))) as Hh.
  { unfold array_header, header_len. repeat case_match; cbn; try lia; by rewrite be_bytes_length. }
  cbn [mbind option_bind]. repeat (case_match; [|done]; cbn [mbind option_bind]). intros [= <-]. change (length EVENT_PREFIX) with 21%nat. lia.
Qed.
Lemma event_len_some e : (N.of_nat (length (event_form e)) < u64_modulus)%N → is_Some (event_len e).
Proof.
  intros H. unfold event_form in H. rewrite !length_app, byte_forms_length in H.
  assert (N.of_nat (length (array_header (N.of_nat (length e)))) = header_len (N.of_nat (length e))) as Hh.
  { unfold array_header, header_len. repeat case_match; cbn; try lia; by rewrite be_bytes_length. }
  unfold event_len, usize_add. cbn [mbind option_bind].
  repeat (rewrite (proj2 (N.ltb_lt _ _)) by lia; cbn [mbind option_bind]). done.
Qed.
Lemma encode_event_spec e p : encode_event_frame_payload e = Ok p ↔
  p = event_form e ∧ (N.of_nat (length (event_form e)) ≤ MAX_FRAME_BYTES)%N.
Proof.
  unfold encode_event_frame_payload, validate_frame_len. split.
  - destruct (event_len e) as [len|] eqn:E; [|done]. apply event_len_spec in E as ->. cbn [mbind result_bind].
    destruct (N.leb_spec (2 ^ 32) (N.of_nat (length (event_form e)))); [done|].
    destruct (N.ltb_spec MAX_FRAME_BYTES (N.of_nat (length (event_form e)))); [done|]. by intros [= <-].
  - intros [-> H]. assert (N.of_nat (length (event_form e)) < u64_modulus)%N as Hu by (unfold MAX_FRAME_BYTES, u64_modulus in *; lia).
    destruct (event_len_some e Hu) as [len E]. rewrite E. apply event_len_spec in E as ->. cbn [mbind result_bind].
    rewrite (proj2 (N.leb_gt _ _)), (proj2 (N.ltb_ge _ _)) by (unfold MAX_FRAME_BYTES in *; lia). done.
Qed.

(** ** The generic codec agrees *)
Lemma cbor_item_byte b : is_byte b → cbor_item (Positive b) = byte_form b.
Proof.
  unfold is_byte. intros Hb. assert (forallb (λ k, bool_decide (cbor_item (Positive (N.of_nat k)) = byte_form (N.of_nat k))) (seq 0 256) = true) as H by by vm_compute.
  rewrite forallb_forall in H. specialize (H (N.to_nat b)). rewrite N2Nat.id in H. apply (bool_decide_eq_true_1 (_ = _)), H, in_seq. lia.
Qed.
Lemma cbor_array n : cbor_item (ArrayOf n) = array_header n.
Proof.
  unfold cbor_item, cbor_head, array_header, header_len.
  destruct (N.ltb_spec n 24) as [H1|H1]; [rewrite (proj2 (N.leb_le n 23)) by lia; cbn -[N.lor N.modulo]; by rewrite N.mod_small by lia|].
  rewrite (proj2 (N.leb_gt n 23)) by lia. destruct (N.ltb_spec n (2 ^ 8)) as [H2|H2]; [rewrite (proj2 (N.leb_le n 255)) by lia; cbn -[N.modulo N.div]; by rewrite N.div_1_r|].
  rewrite (proj2 (N.leb_gt n 255)) by lia. destruct (N.ltb_spec n (2 ^ 16)) as [H3|H3]; [by rewrite (proj2 (N.leb_le n 65535)) by lia|].
  rewrite (proj2 (N.leb_gt n 65535)) by lia. by destruct (n <? 2 ^ 32)%N.
Qed.
(** The generic encoder and the hand-written one write the same bytes. *)
Lemma event_cbor_form e : Forall is_byte e → event_cbor e = event_form e.
Proof.
  intros He. unfold event_cbor, event_items, event_form. rewrite bind_app. cbn [mbind list_bind]. rewrite cbor_array, app_nil_r.
  rewrite <- !app_assoc. change EVENT_PREFIX with (cbor_item (MapOf 2) ++ cbor_item (Text (str "kind")) ++ cbor_item (Text (str "event")) ++ cbor_item (Text (str "envelope"))).
  rewrite <- !app_assoc. do 5 f_equal. induction He as [|b e Hb _ IH]; [done|].
  rewrite fmap_cons. cbn [mbind list_bind]. by rewrite (cbor_item_byte b Hb), <- IH.
Qed.
(** What the derived encodings do on an event: serde's data model of it in CBOR, and back. *)
Class ResponseLaws (R : ResponseCbor) : Prop := {
  event_written e : Forall is_byte e → response_to_cbor (EventResponse e) = Ok (event_cbor e);
  event_read e : Forall is_byte e → (N.of_nat (length e) < 2 ^ 32)%N → response_of_cbor (event_cbor e) = Ok (EventResponse e);
}.
Lemma byte_forms_bytes e : Forall is_byte (e ≫= byte_form) → Forall is_byte e.
Proof.
  induction e as [|b e IH]; [constructor|]. cbn [mbind list_bind]. rewrite Forall_app. intros [Hb He]. constructor; [|by apply IH].
  unfold byte_form in Hb. destruct (24 <=? b)%N; repeat (apply list.Forall_cons in Hb as [? Hb]); done.
Qed.
Lemma event_bytes e : Forall is_byte (event_form e) → Forall is_byte e.
Proof. unfold event_form. rewrite !Forall_app. intros (_ & _ & H). by apply byte_forms_bytes. Qed.

Lemma be_bytes_bytes w n : Forall is_byte (be_bytes w n).
Proof. induction w; cbn; constructor; [|done]. by apply N.mod_lt. Qed.
Lemma event_form_bytes e : Forall is_byte e → (N.of_nat (length e) < 2 ^ 32)%N → Forall is_byte (event_form e).
Proof.
  intros He Hn. unfold event_form. rewrite !Forall_app. split_and!.
  - by repeat constructor.
  - destruct (header_cases _ Hn) as [[? ->]|[[? ->]|[[_ ->]|[_ ->]]]]; repeat (first [apply be_bytes_bytes|constructor; [unfold is_byte; lia|]]); constructor.
  - induction He as [|b e Hb _ IH]; [constructor|]. cbn [mbind list_bind]. apply Forall_app. split; [|apply IH; cbn in Hn; lia].
    unfold byte_form. by destruct (24 <=? b)%N; repeat constructor.
Qed.

(** C24: event frames.  The hand-written encoder answers what the generic one answers, the
    error of an oversized frame included; the decoder answers what the generic one answers
    on every payload, canonical or not; and an event that was encoded is decoded again. *)
Theorem event_codec_exact {R : ResponseCbor} : ResponseLaws R →
  (∀ e, Forall is_byte e → (N.of_nat (length e) < 2 ^ 62)%N → encode_event_frame_payload e = encode_frame_payload (EventResponse e)) ∧
  (∀ p, Forall is_byte p → decode_response p = from_reader p) ∧
  (∀ e p, Forall is_byte e → encode_event_frame_payload e = Ok p → decode_response p = Ok (EventResponse e)).
Proof.
  intros L. split_and!.
  - intros e Hb He. unfold encode_event_frame_payload, encode_frame_payload. rewrite event_written, event_cbor_form by done.
    destruct (event_len_some e) as [len E]; [|by rewrite E, (event_len_spec _ _ E)].
    unfold event_form. rewrite !length_app, byte_forms_length. pose proof (length_filter (λ byte, 24 ≤ byte)%N e) as Hf.
    assert (N.of_nat (length (array_header (N.of_nat (length e)))) ≤ 9)%N as Hh.
    { unfold array_header. repeat case_match; cbn; try lia; rewrite be_bytes_length; lia. }
    change (length EVENT_PREFIX) with 21%nat. unfold u64_modulus. lia.
  - intros p Hp. unfold decode_response, from_reader. destruct (canonical_event p) as [e|] eqn:E; [|done].
    apply canonical_event_spec in E as [-> Hn]; [|done]. pose proof (event_bytes e Hp) as He.
    by rewrite <- (event_cbor_form e He), (event_read e He Hn).
  - intros e p He [-> Hlen]%encode_event_spec. unfold decode_response.
    assert (N.of_nat (length e) < 2 ^ 32)%N as Hn.
    { unfold event_form in Hlen. rewrite !length_app, byte_forms_length in Hlen. unfold MAX_FRAME_BYTES in Hlen. lia. }
    by rewrite (proj2 (canonical_event_spec _ e (event_form_bytes e He Hn)) (conj eq_refl Hn)).
Qed.

(** ** Frames on a stream *)
Definition framed (payload : list N) : list N := be_bytes 4 (N.of_nat (length payload)) ++ payload.
(** Writing until a write fails, and reading until there is no frame. *)
Fixpoint write_each (payloads : list (list N)) (w : Writer) : nat * Writer :=
  match payloads with
  | [] => (0%nat, w)
  | p :: payloads =>
      match write_encoded_frame p w with
      | (Ok _, w) => let '(n, w) := write_each payloads w in (S n, w)
      | (Err _, w) => (0%nat, w)
      end
  end.
Fixpoint read_each (fuel : nat) (s : list N) : list (list N) * option (result FrameError unit) :=
  match fuel with
  | O => ([], None)
  | S fuel =>
      match read_payload s with
      | (Ok (Some p), s) => let '(ps, r) := read_each fuel s in (p :: ps, r)
      | (Ok None, _) => ([], Some (Ok tt))
      | (Err e, _) => ([], Some (Err e))
      end
  end.
Lemma read_framed p s : (N.of_nat (length p) ≤ MAX_FRAME_BYTES)%N → read_payload (framed p ++ s) = (Ok (Some p), s).
Proof.
  intros Hp. unfold read_payload, framed, read_exact. rewrite <- app_assoc.
  rewrite (proj2 (Nat.leb_le 4 _)) by (rewrite length_app, be_bytes_length; lia).
  rewrite take_app_length', drop_app_length' by by rewrite be_bytes_length.
  rewrite be_value_bytes by (unfold MAX_FRAME_BYTES in Hp; cbn; lia). rewrite (proj2 (N.ltb_ge _ _)) by done.
  rewrite Nat2N.id, (proj2 (Nat.leb_le _ _)) by (rewrite length_app; lia). by rewrite take_app_length, drop_app_length.
Qed.
Lemma read_payload_spec s p s' : Forall is_byte s → read_payload s = (Ok (Some p), s') ↔
  s = framed p ++ s' ∧ (N.of_nat (length p) ≤ MAX_FRAME_BYTES)%N.
Proof.
  intros Hs. split; [|intros [-> Hp]; by apply read_framed].
  unfold read_payload, read_exact. destruct (Nat.leb_spec 4 (length s)) as [H4|]; [|done].
  destruct (N.ltb_spec MAX_FRAME_BYTES (be_value (take 4 s))) as [|Hmax]; [done|].
  destruct (Nat.leb_spec (N.to_nat (be_value (take 4 s))) (length (drop 4 s))) as [Hlen|]; [|done]. intros [= <- <-].
  rewrite length_take, Nat.min_l, N2Nat.id by done. split; [|done]. unfold framed.
  rewrite length_take, Nat.min_l, N2Nat.id by done.
  assert (length (take 4 s) = 4%nat) as E4 by (rewrite length_take; lia). rewrite <- E4 at 1.
  rewrite be_bytes_value by by apply Forall_take. by rewrite <- app_assoc, !take_drop.
Qed.
(** What is left of a frame that was cut. *)
Lemma read_cut p s : (N.of_nat (length p) ≤ MAX_FRAME_BYTES)%N → s `prefix_of` framed p → s ≠ framed p →
  ∃ last, (last = Ok tt ∨ last = Err UnexpectedEof) ∧ ∀ k, read_each (S k) s = ([], Some last).
Proof.
  intros Hp [r Hr] Hne. cbn [read_each]. unfold read_payload, read_exact.
  destruct (Nat.leb_spec 4 (length s)) as [H4|]; [|by eexists; split; [left|]].
  eexists. split; [by right|]. intros k. assert (take 4 s = be_bytes 4 (N.of_nat (length p)) ∧ p = drop 4 s ++ r) as [-> Hd].
  { unfold framed in Hr. rewrite <- (take_drop 4 s), <- app_assoc in Hr. apply app_inj_1 in Hr as [-> ->]; [done|].
    rewrite be_bytes_length, length_take. lia. }
  rewrite be_value_bytes by (unfold MAX_FRAME_BYTES in Hp; cbn; lia). rewrite (proj2 (N.ltb_ge _ _)) by done.
  rewrite Nat2N.id. destruct (Nat.leb_spec (length p) (length (drop 4 s))) as [Hlen|]; [|done].
  exfalso. apply Hne. rewrite Hr. assert (length r = 0)%nat as ->%nil_length_inv by (apply (f_equal length) in Hd; rewrite length_app in Hd; lia).
  by rewrite app_nil_r.
Qed.
Lemma write_frame_spec p out room :
  match write_encoded_frame p (MkWriter out room) with
  | (Ok _, w) => (N.of_nat (length p) ≤ MAX_FRAME_BYTES)%N ∧ wr_out w = out ++ framed p
  | (Err _, w) => wr_out w = out ∨ (N.of_nat (length p) ≤ MAX_FRAME_BYTES)%N ∧
      ∃ cut, wr_out w = out ++ cut ∧ cut `prefix_of` framed p ∧ cut ≠ framed p
  end.
Proof.
  unfold write_encoded_frame, mbind, st_bind, st_lift, validate_frame_len. destruct (N.leb_spec (2 ^ 32) (N.of_nat (length p))); [by left|].
  destruct (N.ltb_spec MAX_FRAME_BYTES (N.of_nat (length p))) as [|Hp]; [by left|]. unfold write_all, framed. cbn [wr_left wr_out].
  set (h := be_bytes 4 (N.of_nat (length p))). destruct room as [room|]; [|cbn; by rewrite <- app_assoc].
  destruct (Nat.leb_spec (length h) room) as [Hh|Hh]; cbn [wr_left wr_out].
  - destruct (Nat.leb_spec (length p) (room - length h)) as [Hl|Hl]; cbn [wr_out]; [by rewrite <- app_assoc|]. right. split; [done|].
    exists (h ++ take (room - length h) p). rewrite <- app_assoc. split; [done|]. split.
    + apply prefix_app. exists (drop (room - length h) p). by rewrite take_drop.
    + intros Heq%(f_equal length). rewrite !length_app, length_take in Heq. lia.
  - right. split; [done|]. exists (take room h). split; [done|]. split.
    + apply prefix_app_r. exists (drop room h). by rewrite take_drop.
    + intros Heq%(f_equal length). rewrite length_app, length_take in Heq. lia.
Qed.
Lemma write_each_spec ps : ∀ w, let '(n, w') := write_each ps w in (n ≤ length ps)%nat ∧
  ∃ cut, wr_out w' = wr_out w ++ concat (framed <$> take n ps) ++ cut ∧
    Forall (λ p, N.of_nat (length p) ≤ MAX_FRAME_BYTES)%N (take n ps) ∧
    (cut = [] ∨ (n < length ps)%nat ∧ ∃ p, (N.of_nat (length p) ≤ MAX_FRAME_BYTES)%N ∧ cut `prefix_of` framed p ∧ cut ≠ framed p).
Proof.
  induction ps as [|p ps IH]; intros [out room]; cbn [write_each].
  { split; [done|]. exists []. cbn. rewrite app_nil_r. split_and!; [done|constructor|by left]. }
  pose proof (write_frame_spec p out room) as H. destruct (write_encoded_frame p (MkWriter out room)) as [[[]|e] w].
  - destruct H as [Hp Hw]. specialize (IH w). destruct (write_each ps w) as [n w']. destruct IH as (Hn & cut & E & Hall & Hcut).
    split; [cbn; lia|]. exists cut. cbn. rewrite E, Hw, <- !app_assoc. split_and!; [done|by constructor|].
    destruct Hcut as [|[Hlt Hcut]]; [by left|right]. split; [lia|done].
  - split; [cbn; lia|]. destruct H as [->|(Hp & cut & -> & Hc & Hne)].
    + exists []. cbn. rewrite app_nil_r. split_and!; [done|constructor|by left].
    + exists cut. cbn. split_and!; [done|constructor|]. right. split; [lia|by exists p].
Qed.
Lemma read_each_frames ps s fuel : Forall (λ p, N.of_nat (length p) ≤ MAX_FRAME_BYTES)%N ps →
  read_each (length ps + fuel) (concat (framed <$> ps) ++ s) = let '(qs, r) := read_each fuel s in (ps ++ qs, r).
Proof.
  induction 1 as [|p ps Hp _ IH]; [cbn; by destruct (read_each fuel s)|]. rewrite fmap_cons. cbn [concat length Nat.add read_each]. rewrite <- app_assoc, read_framed by done.
  rewrite IH. by destruct (read_each fuel s).
Qed.

(** C25: frames on a stream.  On any bytes a reader takes a payload just when they begin with
    its frame, within the limit.  However the writer's stream breaks, the other end reads
    exactly the payloads whose writes succeeded, in order, and then a clean end or a cut
    frame; it never reads a payload in part, and the end is clean when no write failed. *)
Theorem frames_delivered :
  (∀ s p s', Forall is_byte s → read_payload s = (Ok (Some p), s') ↔
     s = framed p ++ s' ∧ (N.of_nat (length p) ≤ MAX_FRAME_BYTES)%N) ∧
  ∀ ps room fuel, (length ps < fuel)%nat →
    let '(n, w) := write_each ps (MkWriter [] room) in
    (n ≤ length ps)%nat ∧ ∃ last, read_each fuel (wr_out w) = (take n ps, Some last) ∧
      (last = Ok tt ∨ last = Err UnexpectedEof) ∧ (n = length ps → last = Ok tt).
Proof.
  split; [apply read_payload_spec|]. intros ps room fuel Hfuel.
  pose proof (write_each_spec ps (MkWriter [] room)) as H. destruct (write_each ps (MkWriter [] room)) as [n w].
  destruct H as (Hn & cut & -> & Hall & Hcut). split; [done|]. cbn [wr_out app].
  assert (∃ k, fuel = length (take n ps) + S k)%nat as [k ->].
  { exists (fuel - n - 1)%nat. rewrite length_take. lia. }
  rewrite read_each_frames by done. destruct Hcut as [->|(Hlt & p & Hp & Hpre & Hne)].
  - exists (Ok tt). cbn. rewrite app_nil_r. auto.
  - destruct (read_cut p cut Hp Hpre Hne) as (last & Hlast & E). exists last. rewrite E, app_nil_r. split_and!; [done|done|lia].
Qed.

(** ** Witnesses: responses that are events or text *)
Module IpcScenario.
(** A reader of any CBOR item of the kinds above, with arguments of any width. *)
Definition read_head (l : list N) : option (N * N * list N) :=
  match l with
  | [] => None
  | b :: l =>
      let major := N.shiftr b 5 in
      let arg w := '(n, l) ← get_be w l; Some (major, n, l) in
      let info := N.land b 31 in
      if (info <? 24)%N then Some (major, info, l)
      else if (info =? 24)%N then arg 1%nat else if (info =? 25)%N then arg 2%nat
      else if (info =? 26)%N then arg 4%nat else if (info =? 27)%N then arg 8%nat else None
  end.
Definition read_text (l : list N) : option (list N * list N) :=
  '(major, n, l) ← read_head l;
  if bool_decide (major = 3 ∧ n ≤ N.of_nat (length l))%N then Some (take (N.to_nat n) l, drop (N.to_nat n) l) else None.
Fixpoint read_ints (count : nat) (l : list N) : option (list N * list N) :=
  match count with
  | O => Some ([], l)
  | S count =>
      '(major, n, l) ← read_head l;
      if bool_decide (major = 0 ∧ n < 256)%N then '(ns, l) ← read_ints count l; Some (n :: ns, l) else None
  end.
Definition read_array (l : list N) : option (list N * list N) :=
  '(major, n, l) ← read_head l;
  if bool_decide (major = 4 ∧ n ≤ N.of_nat (length l))%N then read_ints (N.to_nat n) l else None.
Definition read_event (l : list N) : option (list N) :=
  '(major, n, l) ← read_head l;
  if negb (bool_decide (major = 5 ∧ n = 2)%N) then None else
  '(key, l) ← read_text l; if negb (bool_decide (key = str "kind")) then None else
  '(kind, l) ← read_text l; if negb (bool_decide (kind = str "event")) then None else
  '(key, l) ← read_text l; if negb (bool_decide (key = str "envelope")) then None else
  '(bytes, _) ← read_array l; Some bytes.
Definition cbor : ResponseCbor := {|
  Response := list N + list N;
  EventResponse := inl;
  response_to_cbor r := match r with inl e => Ok (event_cbor e) | inr t => Ok (cbor_item (Text t)) end;
  response_of_cbor p := match read_event p with
    | Some e => Ok (inl e)
    | None => match read_text p with Some (t, _) => Ok (inr t) | None => Err (str "not a response") end
    end;
|}.
Lemma get_be_app w n r : (n < 256 ^ N.of_nat w)%N → get_be w (be_bytes w n ++ r) = Some (n, r).
Proof.
  intros Hn. unfold get_be. rewrite (proj2 (Nat.leb_le _ _)) by (rewrite length_app, be_bytes_length; lia).
  rewrite take_app_length', drop_app_length' by by rewrite be_bytes_length. by rewrite be_value_bytes.
Qed.
Lemma read_head_spec major n r : (major < 8)%N → (n < 2 ^ 64)%N → read_head (cbor_head major n ++ r) = Some (major, n, r).
Proof.
  intros Hm Hn. unfold cbor_head.
  repeat match goal with |- context [(?a <? ?b)%N] => destruct (N.ltb_spec a b) end;
    cbn [app]; unfold read_head;
    match goal with |- context [N.lor _ ?info] => destruct (initial_byte major info Hm ltac:(lia)) as [-> ->] end.
  1: by rewrite (proj2 (N.ltb_lt _ _)).
  all: cbn -[be_bytes N.pow get_be]; by rewrite get_be_app by (cbn; lia).
Qed.
Lemma read_text_spec t r : (N.of_nat (length t) < 2 ^ 64)%N → read_text (cbor_item (Text t) ++ r) = Some (t, r).
Proof.
  intros Ht. unfold read_text, cbor_item. rewrite <- app_assoc, read_head_spec by done. cbn [mbind option_bind].
  rewrite bool_decide_eq_true_2 by (rewrite length_app; split; [done|lia]). by rewrite Nat2N.id, take_app_length, drop_app_length.
Qed.
Lemma read_ints_spec e r : Forall is_byte e → read_ints (length e) (((Positive <$> e) ≫= cbor_item) ++ r) = Some (e, r).
Proof.
  induction 1 as [|b e Hb _ IH]; [done|]. rewrite fmap_cons. cbn [mbind list_bind length read_ints]. unfold is_byte in Hb.
  rewrite <- app_assoc. unfold cbor_item at 1. rewrite read_head_spec by lia. cbn [mbind option_bind].
  rewrite bool_decide_eq_true_2 by done. change (list_bind _ _ cbor_item (Positive <$> e)) with ((Positive <$> e) ≫= cbor_item). by rewrite IH.
Qed.
Lemma ints_length e : (length e ≤ length ((Positive <$> e) ≫= cbor_item))%nat.
Proof.
  induction e as [|b e IH]; [done|]. rewrite fmap_cons. cbn [mbind list_bind length]. rewrite length_app.
  assert (1 ≤ length (cbor_item (Positive b)))%nat by (unfold cbor_item, cbor_head; repeat case_match; cbn; lia).
  change (list_bind _ _ cbor_item (Positive <$> e)) with ((Positive <$> e) ≫= cbor_item). lia.
Qed.
Lemma read_event_spec e : Forall is_byte e → (N.of_nat (length e) < 2 ^ 32)%N → read_event (event_cbor e) = Some e.
Proof.
  intros He Hn. unfold read_event, event_cbor, event_items. rewrite bind_app. cbn [mbind list_bind]. rewrite app_nil_r, <- !app_assoc.
  unfold cbor_item at 1. rewrite read_head_spec by done. cbn [mbind option_bind].
  rewrite bool_decide_eq_true_2 by done. cbn [negb].
  rewrite !read_text_spec by done; cbn [mbind option_bind]; rewrite bool_decide_eq_true_2 by done; cbn [negb].
  rewrite !read_text_spec by done; cbn [mbind option_bind]; rewrite bool_decide_eq_true_2 by done; cbn [negb].
  rewrite !read_text_spec by done; cbn [mbind option_bind]; rewrite bool_decide_eq_true_2 by done; cbn [negb].
  unfold read_array. unfold cbor_item at 1. rewrite read_head_spec by lia. cbn [mbind option_bind].
  change (list_bind _ _ cbor_item (Positive <$> e)) with ((Positive <$> e) ≫= cbor_item). pose proof (ints_length e) as Hl.
  rewrite bool_decide_eq_true_2 by (split; [done|lia]). rewrite Nat2N.id.
  pose proof (read_ints_spec e [] He) as H. rewrite app_nil_r in H. by rewrite H.
Qed.
Lemma cbor_laws : ResponseLaws cbor.
Proof. split; [done|]. intros e He Hn. cbn -[read_event event_cbor]. by rewrite read_event_spec. Qed.
(** Nine bytes of envelope, three of them in two bytes each. *)
Definition envelope : list N := [0; 1; 23; 24; 25; 255; 3; 2; 1]%N.
(** The same event with the number of its bytes written in two bytes. *)
Definition long_count : list N := EVENT_PREFIX ++ [153; 0; 9]%N ++ (envelope ≫= byte_form).
End IpcScenario.
Import IpcScenario.
Lemma event_codec_exact_witness :
  encode_event_frame_payload envelope = Ok (event_cbor envelope) ∧
  @decode_response cbor (event_cbor envelope) = Ok (inl envelope) ∧
  canonical_event long_count = None ∧ @decode_response cbor long_count = Ok (inl envelope) ∧
  @decode_response cbor [97; 1]%N = Ok (inr [1%N]).
Proof.
  destruct (event_codec_exact cbor_laws) as (Henc & Hdec & Hround). split_and!.
  - rewrite (Henc envelope) by (first [by repeat constructor|done]). vm_compute. reflexivity.
  - apply (Hround envelope); [repeat constructor|vm_compute; reflexivity].
  - reflexivity.
  - rewrite (Hdec long_count) by repeat constructor. vm_compute. reflexivity.
  - rewrite (Hdec [97; 1]%N) by repeat constructor. vm_compute. reflexivity.
Defined.
(** The peer takes seven bytes: the second frame is cut in its length. *)
Lemma frames_delivered_witness :
  let '(n, w) := write_each [[1; 2]%N; [3]%N] (MkWriter [] (Some 7%nat)) in
  n = 1%nat ∧ ∃ last, read_each 3 (wr_out w) = ([[1; 2]%N], Some last).
Proof.
  pose proof (proj2 frames_delivered [[1; 2]%N; [3]%N] (Some 7%nat) 3%nat ltac:(cbn; lia)) as H.
  destruct (write_each _ _) as [n w] eqn:E. assert (n = 1%nat) as -> by (vm_compute in E; congruence).
  destruct H as (_ & last & H & _). split; [reflexivity|]. exists last. exact H.
Defined.
