(* ===== verification/Addressed.v ===== *)
(** Frames addressed to one peer: their signed expiry ([airc-protocol/src/addressed_deadline.rs],
    [addressed.rs]), the daemon's bounded inboxes ([airc-daemon/src/addressed_switch.rs]) and the
    admission in front of them ([addressed_connection.rs]). *)
From stdpp Require Import base gmap strings list numbers.
From Stdlib Require Import Lia.
From S2P Require Import Prelude.
From S2P Require Import WorkModel.
From S2P Require Import CoreTranscript.
From S2P Require Import ProtoSession.
From S2P Require Import ProtoKeys.

(** ** addressed_deadline.rs *)
(** A [SystemTime] is nanoseconds since the epoch, up to the platform's last; a [Duration]
    and an [Instant] are nanoseconds. *)
Class Platform := { time_max : Z }.
Definition EXPIRY_HEADER : rstring := str "airc.addressed.expires_unix_ms".
Inductive DeadlineError := DlMissing | DlMalformed | DlElapsed | DlClock | DlOutOfRange.
Definition MS : Z := 1000000.
Definition stamp_deadline `{!Platform} (headers : Headers) (now : Z) (remaining : N) : result DeadlineError Headers :=
  if (remaining =? 0)%N then Err DlElapsed
  else if (now <? 0)%Z then Err DlClock
  else
    let expires := (now + Z.of_N remaining)%Z in
    if (time_max <? expires)%Z then Err DlOutOfRange
    else
      let millis := Z.to_N (expires / MS) in
      if (u64_max <? millis)%N then Err DlOutOfRange
      else Ok (<[EXPIRY_HEADER := show_N millis]> headers).
Definition ascii_digit (c : N) : bool := (48 <=? c)%N && (c <=? 57)%N.
Definition remaining `{!Platform} (headers : Headers) (now : Z) : result DeadlineError N :=
  raw ← ok_or DlMissing (headers !! EXPIRY_HEADER);
  if bool_decide (raw = []) || negb (forallb ascii_digit raw) then Err DlMalformed
  else
    millis ← ok_or DlMalformed (parse_u64 raw);
    let expires := (Z.of_N millis * MS)%Z in
    if (time_max <? expires)%Z then Err DlOutOfRange
    else if (now <? 0)%Z then Err DlClock
    else if (expires <? now)%Z then Err DlElapsed
    else let budget := Z.to_N (expires - now) in if (budget =? 0)%N then Err DlElapsed else Ok budget.

(** ** addressed.rs *)
Definition addressed_channel : RoomId := MkId 0.
Definition DOMAIN_AAD : list N := str "airc-addressed-v1-aad".
Definition addressed_aad (from to : PeerId) : list N := DOMAIN_AAD ++ uuid_bytes from ++ uuid_bytes to.

(** ** addressed_switch.rs *)
Inductive RouteError := ReceiverLimit | ReceiverBusy | NoReceiver | RtBackpressure | RtClosed | StatePoisoned | DeadlineElapsed.
Inductive ForwardError :=
| NotInstalled | AlreadyInstalled | UnknownRecipient | UnknownHost | LocalOwnerAbsent | InvalidEndpoints
| FwTrust (message : rstring) | FwTransport (message : rstring) | FwAdmission (e : RouteError).

(** The derived [Debug] of a [RouteError]. *)
Definition route_error_debug (e : RouteError) : rstring :=
  match e with
  | ReceiverLimit => str "ReceiverLimit" | ReceiverBusy => str "ReceiverBusy" | NoReceiver => str "NoReceiver"
  | RtBackpressure => str "Backpressure" | RtClosed => str "Closed" | StatePoisoned => str "StatePoisoned"
  | DeadlineElapsed => str "DeadlineElapsed"
  end.

Section switch.
Context `{!JsonValue}.
Record QueuedFrame := MkQueuedFrame { qf_frame : Frame; qf_deadline : N }.
Inductive LocalAdmission := Delivered | Unowned (frame : Frame).
(** A live [ReceiverLease] with its queue and the frame whose write is under way.  [le_in] and
    [le_got] record the frames queued and taken, [le_sent] those whose write began, and when. *)
Record ReceiverLease := MkLease {
  le_peer : PeerId;
  le_queue : list QueuedFrame;
  le_writing : option QueuedFrame;
  le_in : list QueuedFrame;
  le_got : list QueuedFrame;
  le_sent : list (QueuedFrame * N);
}.
#[export] Instance eta_ReceiverLease : Eta ReceiverLease := λ r,
  MkLease (le_peer r) (le_queue r) (le_writing r) (le_in r) (le_got r) (le_sent r).
(** [sw_entries] holds each entry's generation; the other ends of the entries' channels are
    the leases; [sw_outbound] are the forwards under way. *)
Record AddressedSwitch := MkSwitch {
  sw_entries : gmap PeerId N;
  sw_leases : gmap N ReceiverLease;
  sw_permits : nat;
  sw_outbound : gmap N (PeerId * QueuedFrame);
  sw_forwarder : bool;
  sw_poisoned : bool;
  sw_receiver_limit : nat;
  sw_queue_capacity : nat;
}.
#[export] Instance eta_AddressedSwitch : Eta AddressedSwitch := λ s,
  MkSwitch (sw_entries s) (sw_leases s) (sw_permits s) (sw_outbound s) (sw_forwarder s) (sw_poisoned s)
    (sw_receiver_limit s) (sw_queue_capacity s).
Definition AddressedSwitch_new (receiver_limit frame_limit queue_capacity : nat) : AddressedSwitch :=
  MkSwitch ∅ ∅ frame_limit ∅ false false receiver_limit queue_capacity.
Definition set_forwarder : ST AddressedSwitch ForwardError unit := λ s,
  if sw_forwarder s then (Err AlreadyInstalled, s) else (Ok tt, s <| sw_forwarder := true |>).
Definition release (n : nat) (s : AddressedSwitch) : AddressedSwitch := s <| sw_permits := (sw_permits s + n)%nat |>.
Definition reserve_frame : ST AddressedSwitch RouteError unit := λ s,
  match sw_permits s with S n => (Ok tt, s <| sw_permits := n |>) | O => (Err RtBackpressure, s) end.
(** [generation] is the fresh uuid. *)
Definition register_receiver (peer : PeerId) (generation : N) : ST AddressedSwitch RouteError N := λ s,
  if sw_poisoned s then (Err StatePoisoned, s)
  else if is_some (sw_entries s !! peer) then (Err ReceiverBusy, s)
  else if (sw_receiver_limit s <=? size (sw_entries s))%nat then (Err ReceiverLimit, s)
  else (Ok generation, s <| sw_entries := <[peer := generation]> (sw_entries s) |>
                         <| sw_leases := <[generation := MkLease peer [] None [] [] []]> (sw_leases s) |>).
(** [try_send] on the channel of an entry; an error drops the frame and its permit. *)
Definition queue_send (generation : N) (q : QueuedFrame) : ST AddressedSwitch RouteError unit := λ s,
  match sw_leases s !! generation with
  | None => (Err RtClosed, release 1 s)
  | Some l =>
      if (sw_queue_capacity s <=? length (le_queue l))%nat then (Err RtBackpressure, release 1 s)
      else (Ok tt, s <| sw_leases := <[generation := l <| le_queue := le_queue l ++ [q] |> <| le_in := le_in l ++ [q] |>]> (sw_leases s) |>)
  end.
Definition route_if_owned (peer : PeerId) (frame : Frame) (deadline now : N) : ST AddressedSwitch RouteError LocalAdmission := λ s,
  if (deadline <=? now)%N then (Err DeadlineElapsed, s)
  else if sw_poisoned s then (Err StatePoisoned, s)
  else match sw_entries s !! peer with
       | None => (Ok (Unowned frame), s)
       | Some generation => (_ ← reserve_frame; _ ← queue_send generation (MkQueuedFrame frame deadline); mret Delivered) s
       end.
Definition route (peer : PeerId) (frame : Frame) (deadline now : N) : ST AddressedSwitch RouteError unit :=
  a ← route_if_owned peer frame deadline now;
  match a with Delivered => mret tt | Unowned _ => st_throw NoReceiver end.
(** [forward] up to its await, and once the forwarder has answered or the call was cancelled. *)
Definition forward_begin (id : N) (recipient : PeerId) (frame : Frame) (deadline : N) : ST AddressedSwitch ForwardError unit := λ s,
  if negb (sw_forwarder s) then (Err NotInstalled, s)
  else match reserve_frame s with
       | (Err e, s) => (Err (FwAdmission e), s)
       | (Ok _, s) => (Ok tt, s <| sw_outbound := <[id := (recipient, MkQueuedFrame frame deadline)]> (sw_outbound s) |>)
       end.
Definition forward_end (id : N) (s : AddressedSwitch) : AddressedSwitch :=
  match sw_outbound s !! id with
  | None => s
  | Some _ => release 1 (s <| sw_outbound := delete id (sw_outbound s) |>)
  end.
Definition lease_held (l : ReceiverLease) : nat := (length (le_queue l) + if le_writing l then 1 else 0)%nat.
(** The end of a connection: its queue, its write and its lease are dropped. *)
Definition drop_lease (generation : N) (s : AddressedSwitch) : AddressedSwitch :=
  match sw_leases s !! generation with
  | None => s
  | Some l =>
      let s := release (lease_held l) (s <| sw_leases := delete generation (sw_leases s) |>) in
      if negb (sw_poisoned s) && bool_decide (sw_entries s !! le_peer l = Some generation)
      then s <| sw_entries := delete (le_peer l) (sw_entries s) |> else s
  end.

(** ** addressed_connection.rs *)
Inductive AddressedAdmissionError :=
| WrongKindOrChannel | WrongTarget | SenderMustSign | AdTrust (message : rstring) | AdSignature (e : VerificationError)
| AdQueue (e : RouteError) | AdForward (e : ForwardError) | AdExpiry (e : DeadlineError).
Context `{!Ed25519Crypto, !CanonicalCbor, !Platform}.
Definition DEFAULT_RPC_TIMEOUT : N := 5000000000.
(** [monotonic] and [wall] are the two clocks as the call reads them. *)
Definition sender_deadline (frame : Frame) (local monotonic : N) (wall : Z) : result AddressedAdmissionError N :=
  match remaining (env_headers (fr_envelope frame)) wall with
  | Err e => Err (AdExpiry e)
  | Ok budget => Ok (monotonic + N.min budget (local - monotonic))%N
  end.
(** [registry] is what the trust store holds for the sender. *)
Definition verify_addressed (registry : result rstring PeerKeyRegistry) (frame : Frame) : result AddressedAdmissionError PeerId :=
  let e := fr_envelope frame in
  if bool_decide (fr_kind frame ≠ FkAddressed) || bool_decide (env_channel e ≠ addressed_channel) then Err WrongKindOrChannel
  else match env_target e with
       | ToPeer peer =>
           if match env_signature e with Ed25519 signer _ _ => bool_decide (signer = env_sender e) | Unsigned => false end
           then match registry with
                | Err m => Err (AdTrust m)
                | Ok r => match verify_frame frame Strict r with Ok _ => Ok peer | Err e => Err (AdSignature e) end
                end
           else Err SenderMustSign
       | _ => Err WrongTarget
       end.
(** What a call found: the trust store's answer, unless its time ran out first; the instant
    before it read the wall clock, that reading, and the instant [route_if_owned] compares. *)
Record Reading := MkReading { rd_registry : option (result rstring PeerKeyRegistry); rd_monotonic : N; rd_wall : Z; rd_now : N }.
Definition admitted (frame : Frame) (local : N) (rd : Reading) : result AddressedAdmissionError (PeerId * N) :=
  match rd_registry rd with
  | None => Err (AdQueue DeadlineElapsed)
  | Some registry =>
      peer ← verify_addressed registry frame;
      deadline ← sender_deadline frame local (rd_monotonic rd) (rd_wall rd);
      Ok (peer, deadline)
  end.
Definition st_map_err {E E' A} (f : E → E') (m : ST AddressedSwitch E A) : ST AddressedSwitch E' A := λ s,
  match m s with (Ok a, s) => (Ok a, s) | (Err e, s) => (Err (f e), s) end.
Definition admit_local (frame : Frame) (local : N) (rd : Reading) : ST AddressedSwitch AddressedAdmissionError unit :=
  ad ← st_lift (admitted frame local rd);
  st_map_err AdQueue (route ad.1 frame ad.2 (rd_now rd)).
(** [admit_ipc], up to the await of the forwarder: [false] when it is under way as [id]. *)
Definition admit_ipc (id : N) (frame : Frame) (local : N) (rd : Reading) : ST AddressedSwitch AddressedAdmissionError bool :=
  ad ← st_lift (admitted frame local rd);
  a ← st_map_err AdQueue (route_if_owned ad.1 frame ad.2 (rd_now rd));
  match a with
  | Delivered => mret true
  | Unowned frame => _ ← st_map_err AdForward (forward_begin id ad.1 frame ad.2); mret false
  end.
Definition receive_addressed_frame (frame : Frame) (began : N) (rd : Reading) : ST AddressedSwitch AddressedAdmissionError unit :=
  admit_local frame (began + DEFAULT_RPC_TIMEOUT)%N rd.
(** [route_request]: the caller's deadline becomes a local one, of five seconds at most. *)
Definition request_deadline (deadline_unix_ms : N) (wall : Z) (monotonic : N) : result rstring N :=
  let expires := (Z.of_N deadline_unix_ms * MS)%Z in
  if (time_max <? expires)%Z then Err (str "addressed deadline is out of range")
  else if (expires <? wall)%Z then Err (str "addressed deadline elapsed")
  else let left := Z.to_N (expires - wall) in
       if (left =? 0)%N then Err (str "addressed deadline elapsed") else Ok (monotonic + N.min left DEFAULT_RPC_TIMEOUT)%N.
(** The began of [serve_live]: the proof of the challenge, then the registration. *)
Definition attach_addressed (daemon peer : PeerId) (nonce : N) (proof : option AttachProof) (registry : PeerKeyRegistry) (generation : N)
    : ST AddressedSwitch rstring N := λ s,
  if match proof with Some p => is_ok (attach_verify (MkAttachChallenge daemon peer nonce) p registry) | None => false end
  then match register_receiver peer generation s with
       | (Ok g, s) => (Ok g, s)
       | (Err e, s) => (Err (str "addressed attach_addressed refused"), s)
       end
  else (Err (str "addressed connection authentication refused"), s).
(** One turn of its loop: the next frame is taken, and its write begins if there is time. *)
Definition take_queued (generation now : N) (s : AddressedSwitch) : AddressedSwitch :=
  match sw_leases s !! generation with
  | Some l =>
      match le_writing l, le_queue l with
      | None, q :: queue =>
          let l := l <| le_queue := queue |> <| le_got := le_got l ++ [q] |> in
          if (qf_deadline q <=? now)%N then release 1 (s <| sw_leases := <[generation := l]> (sw_leases s) |>)
          else s <| sw_leases := <[generation := l <| le_writing := Some q |> <| le_sent := le_sent l ++ [(q, now)] |>]> (sw_leases s) |>
      | _, _ => s
      end
  | None => s
  end.
(** The write of [write_queued] is over, whichever way. *)
Definition write_end (generation : N) (s : AddressedSwitch) : AddressedSwitch :=
  match sw_leases s !! generation with
  | Some l =>
      match le_writing l with
      | Some _ => release 1 (s <| sw_leases := <[generation := l <| le_writing := None |>]> (sw_leases s) |>)
      | None => s
      end
  | None => s
  end.

(** ** The daemon at work: its connections and callers in any order *)
(** [wall] is what the wall clock shows at an instant of the monotonic one.  A call that took
    effect by the instant [t] read the clocks in its order. *)
Definition read_by (wall : N → Z) (t : N) (rd : Reading) : Prop :=
  ∃ m, (rd_monotonic rd ≤ m ≤ rd_now rd)%N ∧ (rd_now rd ≤ t)%N ∧ rd_wall rd = wall m.
(** A switch and the instant; every step takes some time. *)
Inductive addressed_step (daemon : PeerId) (wall : N → Z) : N * AddressedSwitch → N * AddressedSwitch → Prop :=
| StAttach peer nonce proof registry generation t t' s :
    (t ≤ t')%N → sw_leases s !! generation = None → (∀ p, sw_entries s !! p ≠ Some generation) →
    addressed_step daemon wall (t, s) (t', (attach_addressed daemon peer nonce proof registry generation s).2)
| StReceive frame began rd t t' s :
    (t ≤ t')%N → read_by wall t' rd → addressed_step daemon wall (t, s) (t', (receive_addressed_frame frame began rd s).2)
| StIpc id frame local rd t t' s :
    (t ≤ t')%N → read_by wall t' rd → sw_outbound s !! id = None →
    addressed_step daemon wall (t, s) (t', (admit_ipc id frame local rd s).2)
| StForwarded id t t' s : (t ≤ t')%N → addressed_step daemon wall (t, s) (t', forward_end id s)
| StForwarder t t' s : (t ≤ t')%N → addressed_step daemon wall (t, s) (t', (set_forwarder s).2)
| StTake generation now t t' s : (t ≤ now ≤ t')%N → addressed_step daemon wall (t, s) (t', take_queued generation now s)
| StWritten generation t t' s : (t ≤ t')%N → addressed_step daemon wall (t, s) (t', write_end generation s)
| StDrop generation t t' s : (t ≤ t')%N → addressed_step daemon wall (t, s) (t', drop_lease generation s)
| StPoison t t' s : (t ≤ t')%N → addressed_step daemon wall (t, s) (t', s <| sw_poisoned := true |>).
End switch.

(** ** What a deadline promises *)
Section deadline.
Context `{!Platform}.
Lemma digits_ascii n : forallb ascii_digit (show_N n) = true.
Proof.
  apply forallb_forall. intros c Hc%list_elem_of_In.  
  specialize (show_N_digits n c Hc) as Hd. unfold ascii_digit. apply andb_true_iff. rewrite !N.leb_le. lia.
Qed.
Lemma show_N_not_nil n : is_u64 n → show_N n ≠ [].
Proof. intros Hn Hs. pose proof (parse_show_u64 n Hn) as Hp. by rewrite Hs in Hp. Qed.
(** A deadline travels in the signed headers and is never extended.  Once stamped, any
    reader whose clock is at or after the epoch finds what is left up to the stamped
    instant rounded down to the millisecond, or that it has elapsed: never more than the
    sender gave less the time that passed, and at most a millisecond less. *)
Theorem deadline_never_extended headers now given headers' :
  stamp_deadline headers now given = Ok headers' →
  ∃ expiry, (now + Z.of_N given - MS < expiry ≤ now + Z.of_N given)%Z ∧ (0 ≤ now)%Z ∧
    (∀ k, k ≠ EXPIRY_HEADER → headers' !! k = headers !! k) ∧
    ∀ later, (0 ≤ later)%Z → remaining headers' later =
      if (expiry <=? later)%Z then Err DlElapsed else Ok (Z.to_N (expiry - later)).
Proof.
  unfold stamp_deadline. destruct (N.eqb_spec given 0); [done|]. destruct (Z.ltb_spec now 0); [done|].
  destruct (Z.ltb_spec time_max (now + Z.of_N given)) as [|Hmax]; [done|].
  destruct (N.ltb_spec u64_max (Z.to_N ((now + Z.of_N given) / MS))) as [|Hu]; [done|]. intros [= <-].
  set (e := (now + Z.of_N given)%Z) in *. set (m := Z.to_N (e / MS)) in *.
  assert (is_u64 m) as Hm by (unfold is_u64, u64_max, u64_modulus in *; lia).
  pose proof (Z.div_mod e MS ltac:(done)) as Hdiv. pose proof (Z.mod_pos_bound e MS ltac:(done)) as Hmod.
  assert (Z.of_N m = e / MS)%Z as Em by (unfold m; rewrite Z2N.id; [done|apply Z.div_pos; lia]).
  exists (Z.of_N m * MS)%Z. split; [lia|]. split; [done|]. split; [intros k Hk; by rewrite lookup_insert_ne|].
  intros later Hl. unfold remaining. rewrite lookup_insert_eq. cbn [ok_or mbind result_bind].
  rewrite bool_decide_false, digits_ascii by by apply show_N_not_nil. cbn [orb negb]. rewrite parse_show_u64 by done.
  cbn [ok_or mbind result_bind]. rewrite (proj2 (Z.ltb_ge _ _)) by lia. rewrite (proj2 (Z.ltb_ge later 0)) by done.
  destruct (Z.ltb_spec (Z.of_N m * MS) later), (Z.leb_spec (Z.of_N m * MS) later); try lia; try done.
  - by replace (Z.of_N m * MS - later)%Z with 0%Z by lia.
  - destruct (N.eqb_spec (Z.to_N (Z.of_N m * MS - later)) 0); [lia|done].
Qed.
End deadline.

(** ** What the switch keeps *)
Section invariant.
Context `{!JsonValue, !Ed25519Crypto, !CanonicalCbor, !Platform}.
Definition held (m : gmap N ReceiverLease) : nat := map_fold (λ _ l n, lease_held l + n)%nat 0%nat m.
(** An addressed frame for [peer] that its sender signed under a key the store had for it. *)
Definition genuine (peer : PeerId) (frame : Frame) : Prop :=
  let e := fr_envelope frame in
  fr_kind frame = FkAddressed ∧ env_channel e = addressed_channel ∧ env_target e = ToPeer peer ∧
  ∃ (registry : PeerKeyRegistry) key_id sig key bytes,
    env_signature e = Ed25519 (env_sender e) key_id sig ∧ registry_lookup registry (env_sender e) key_id = Some key ∧
    canonical_signed_bytes e = Some bytes ∧ ed_verify key bytes sig = true.
(** The instant of the wall clock that the sender signed. *)
Definition signed_expiry (frame : Frame) : option Z :=
  raw ← env_headers (fr_envelope frame) !! EXPIRY_HEADER; millis ← parse_u64 raw; Some (Z.of_N millis * MS)%Z.
Section walls.
Variable wall : N → Z.
(** The deadline is no later than an instant [m] of the admission, up to [t], and what was left
    then until the signed expiry. *)
Definition timely (t : N) (q : QueuedFrame) : Prop := ∃ expiry m,
  signed_expiry (qf_frame q) = Some expiry ∧ (m ≤ t)%N ∧ (wall m < expiry)%Z ∧
  (Z.of_N (qf_deadline q) ≤ Z.of_N m + (expiry - wall m))%Z.
Definition admissible (t : N) (peer : PeerId) (q : QueuedFrame) : Prop := genuine peer (qf_frame q) ∧ timely t q.
Record lease_ok (daemon : PeerId) (capacity : nat) (t : N) (l : ReceiverLease) : Prop := {
  lo_capacity : (length (le_queue l) ≤ capacity)%nat;
  lo_order : le_in l = le_got l ++ le_queue l;
  lo_sent : (le_sent l).*1 `sublist_of` le_got l;
  lo_time : Forall (λ x, (x.2 < qf_deadline x.1)%N ∧ timely x.2 x.1) (le_sent l);
  lo_in : Forall (admissible t (le_peer l)) (le_in l);
  lo_proof : ∃ nonce proof registry, attach_verify (MkAttachChallenge daemon (le_peer l) nonce) proof registry = Ok tt;
}.
(** [owed] permits are held by a call under way. *)
Record switch_ok (daemon : PeerId) (receivers frames capacity : nat) (t : N) (owed : nat) (s : AddressedSwitch) : Prop := {
  so_limits : sw_receiver_limit s = receivers ∧ sw_queue_capacity s = capacity;
  so_budget : (sw_permits s + held (sw_leases s) + size (sw_outbound s) + owed)%nat = frames;
  so_receivers : (size (sw_entries s) ≤ receivers)%nat;
  so_entry p g : sw_entries s !! p = Some g →
    sw_poisoned s = true ∨ ∃ l, sw_leases s !! g = Some l ∧ le_peer l = p;
  so_lease g l : sw_leases s !! g = Some l → sw_entries s !! le_peer l = Some g ∧ lease_ok daemon capacity t l;
  so_outbound id p q : sw_outbound s !! id = Some (p, q) → admissible t p q;
}.

Lemma held_insert m g l : m !! g = None → held (<[g := l]> m) = (lease_held l + held m)%nat.
Proof. intros Hg. unfold held. rewrite map_fold_insert_L; [done|intros; lia|done]. Qed.
Lemma held_delete m g l : m !! g = Some l → held m = (lease_held l + held (delete g m))%nat.
Proof. intros Hg. unfold held. rewrite (map_fold_delete_L _ _ g l m); [done|intros; lia|done]. Qed.
Lemma held_update m g l l' : m !! g = Some l → (held (<[g := l']> m) + lease_held l)%nat = (lease_held l' + held m)%nat.
Proof.
  intros Hg. rewrite (held_delete m g l Hg), <- insert_delete_eq. rewrite held_insert by apply lookup_delete_eq. lia.
Qed.

Lemma verify_genuine registry frame peer : verify_addressed registry frame = Ok peer → genuine peer frame.
Proof.
  unfold verify_addressed. destruct (bool_decide_reflect (fr_kind frame ≠ FkAddressed)) as [|Hk%dec_stable]; [done|].
  destruct (bool_decide_reflect (env_channel (fr_envelope frame) ≠ addressed_channel)) as [|Hc%dec_stable]; [done|]. cbn [orb].
  destruct (env_target (fr_envelope frame)) as [|p|] eqn:Ht; [done| |done].
  destruct (env_signature (fr_envelope frame)) as [signer key_id sig|] eqn:Hs; [|done].
  case_bool_decide as He; [subst signer|done]. destruct registry as [r|]; [|done].
  destruct (verify_frame frame Strict r) as [[]|] eqn:Hv; [|done]. intros [= <-].
  unfold verify_frame in Hv. destruct (check_reply_to_consistency _) as [[]|]; [|done]. cbn in Hv. rewrite Hs in Hv.
  unfold verify_ed25519 in Hv. destruct (registry_lookup r _ key_id) as [key|] eqn:Hl; [|done].
  cbn in Hv. destruct (canonical_signed_bytes _) as [bytes|] eqn:Hb; [|done]. cbn in Hv.
  destruct (ed_verify key bytes sig) eqn:Hed; [|done]. split_and!; try done. by exists r, key_id, sig, key, bytes.
Qed.
Lemma remaining_expiry frame now budget : remaining (env_headers (fr_envelope frame)) now = Ok budget →
  ∃ expiry, signed_expiry frame = Some expiry ∧ (now < expiry)%Z ∧ (Z.of_N budget = expiry - now)%Z.
Proof.
  unfold remaining, signed_expiry. destruct (_ !! EXPIRY_HEADER) as [raw|]; [|done]. cbn. destruct (_ || _); [done|].
  destruct (parse_u64 raw) as [millis|]; [|done]. cbn. destruct (Z.ltb_spec time_max (Z.of_N millis * MS)); [done|].
  destruct (Z.ltb_spec now 0); [done|]. destruct (Z.ltb_spec (Z.of_N millis * MS) now); [done|].
  destruct (N.eqb_spec (Z.to_N (Z.of_N millis * MS - now)) 0); [done|]. intros [= <-]. eexists. split; [done|]. lia.
Qed.
Lemma admitted_admissible t frame local rd ad : read_by wall t rd → admitted frame local rd = Ok ad →
  admissible t ad.1 (MkQueuedFrame frame ad.2).
Proof.
  intros (m & Hm & Ht & Hw). unfold admitted. destruct (rd_registry rd) as [registry|]; [|done].
  destruct (verify_addressed registry frame) as [peer|] eqn:Hv; [|done]. cbn. unfold sender_deadline.
  destruct (remaining _ (rd_wall rd)) as [budget|] eqn:Hr; [|done]. cbn. intros [= <-]. split; [by apply (verify_genuine registry)|].
  apply remaining_expiry in Hr as (expiry & He & Hlt & Hb). exists expiry, m. cbn [qf_frame qf_deadline snd]. rewrite Hw in *.
  split_and!; [done|lia|done|lia].
Qed.
Lemma timely_mono t t' q : (t ≤ t')%N → timely t q → timely t' q.
Proof. intros Ht (e & m & He & Hm & Hw & Hd). exists e, m. split_and!; [done|lia|done|done]. Qed.
Lemma admissible_mono t t' p q : (t ≤ t')%N → admissible t p q → admissible t' p q.
Proof. intros Ht [Hg Hq]. split; [done|]. by apply (timely_mono t). Qed.

Section steps.
Variables (daemon : PeerId) (receivers frames capacity : nat).
Lemma ok_mono t t' k s : (t ≤ t')%N → switch_ok daemon receivers frames capacity t k s → switch_ok daemon receivers frames capacity t' k s.
Proof.
  intros Ht [? ? ? ? Hl Ho]. split; try done.
  - intros g l Hg. destruct (Hl g l Hg) as [Hp [? ? ? ? Hi ?]]. split; [done|]. split; try done.
    eapply list.Forall_impl; [exact Hi|]. intros q. by apply admissible_mono.
  - intros id p q Hq. by eapply admissible_mono, Ho.
Qed.
Variable t : N.
Notation ok := (switch_ok daemon receivers frames capacity t).
Lemma ok_new : ok 0 (AddressedSwitch_new receivers frames capacity).
Proof.
  split; try done; cbn; [unfold held; rewrite map_fold_empty, map_size_empty; lia|rewrite map_size_empty; lia|..];
    intros *; by rewrite lookup_empty.
Qed.
Lemma ok_release n k s : ok (n + k) s → ok k (release n s).
Proof. intros [? Hb ? ? ? ?]. split; try done. cbn. lia. Qed.
Lemma ok_reserve s : ok 0 s → match reserve_frame s with (Ok _, s') => ok 1 s' ∧ sw_leases s' = sw_leases s ∧
  sw_entries s' = sw_entries s ∧ sw_poisoned s' = sw_poisoned s | (Err _, s') => s' = s end.
Proof.
  intros [? Hb ? ? ? ?]. unfold reserve_frame. destruct (sw_permits s) as [|n] eqn:Hp; [done|]. split; [|done].
  split; try done. cbn. lia.
Qed.
(** A lease changed in place. *)
Lemma ok_lease g l l' k k' s : sw_leases s !! g = Some l → le_peer l' = le_peer l → lease_ok daemon capacity t l' →
  (lease_held l' + k')%nat = (lease_held l + k)%nat → ok k s →
  ok k' (s <| sw_leases := <[g := l']> (sw_leases s) |>).
Proof.
  intros Hg Hp Hl' Hk [? Hb ? He Hl ?]. split; cbn; try done.
  - pose proof (held_update _ g l l' Hg). lia.
  - intros p g' Hpg. destruct (He p g' Hpg) as [|(l0 & Hg' & Hp')]; [by left|right].
    destruct (decide (g' = g)) as [->|]; [|rewrite lookup_insert_ne by done; eauto].
    rewrite lookup_insert_eq. eexists. split; [done|]. congruence.
  - intros g' l0. destruct (decide (g' = g)) as [->|]; [|rewrite lookup_insert_ne by done; apply Hl].
    rewrite lookup_insert_eq. intros [= <-]. split; [|done]. rewrite Hp. by apply Hl.
Qed.
Lemma ok_route peer frame deadline now s : admissible t peer (MkQueuedFrame frame deadline) → ok 0 s →
  let '(r, s') := route_if_owned peer frame deadline now s in
  ok 0 s' ∧ r ≠ Err RtClosed ∧ (∀ f, r = Ok (Unowned f) → f = frame ∧ s' = s).
Proof.
  intros Hadm Hok. unfold route_if_owned. destruct (deadline <=? now)%N; [done|].
  destruct (sw_poisoned s) eqn:Hpo; [done|]. destruct (sw_entries s !! peer) as [g|] eqn:He; [|split_and!; [done..|naive_solver]].
  unfold mbind, st_bind. pose proof (ok_reserve s Hok) as Hres. destruct (reserve_frame s) as [[[]|e] s1] eqn:Er.
  2: { subst s1. split_and!; [done| |done]. intros [= ->]. unfold reserve_frame in Er. by case_match. }
  destruct Hres as (Hok1 & Hlv & Hen & Hpo1). destruct (so_entry _ _ _ _ _ _ _ Hok peer g He) as [|(l & Hl & Hp)]; [congruence|].
  destruct (so_lease _ _ _ _ _ _ _ Hok g l Hl) as [_ Hlo]. rewrite <- Hlv in Hl. unfold queue_send. rewrite Hl.
  destruct (Nat.leb_spec (sw_queue_capacity s1) (length (le_queue l))) as [|Hroom]; [split_and!; [by apply (ok_release 1)|done..]|].
  split_and!; [|done..]. apply (ok_lease g l _ 1); [done|done| | |done].
  - destruct Hlo as [Hc Ho Hs Ht Hi Hpr]. split; cbn; try done.
    + destruct (so_limits _ _ _ _ _ _ _ Hok1) as [_ Hcap]. rewrite length_app. cbn. lia.
    + by rewrite Ho, app_assoc.
    + apply Forall_app. split; [done|]. constructor; [by rewrite Hp|done].
  - unfold lease_held. cbn. rewrite length_app. cbn. lia.
Qed.
Lemma ok_receive frame began rd s : read_by wall t rd → ok 0 s → ok 0 (receive_addressed_frame frame began rd s).2.
Proof.
  intros Hrd Hok. unfold receive_addressed_frame, admit_local, mbind at 1, st_bind at 1, st_lift.
  destruct (admitted _ _ rd) as [[p d]|] eqn:Ha; [|done]. apply (admitted_admissible t) in Ha; [|done]. cbn [fst snd] in *.
  unfold st_map_err, route, mbind, st_bind. pose proof (ok_route p frame d (rd_now rd) s Ha Hok) as H'.
  destruct (route_if_owned _ _ _ _ s) as [[[|f]|e] s']; cbn; by destruct H' as [H' _].
Qed.
Lemma ok_ipc id frame local rd s : read_by wall t rd → sw_outbound s !! id = None → ok 0 s → ok 0 (admit_ipc id frame local rd s).2.
Proof.
  intros Hrd Hid Hok. unfold admit_ipc, mbind at 1, st_bind at 1, st_lift.
  destruct (admitted _ _ rd) as [[p d]|] eqn:Ha; [|done]. apply (admitted_admissible t) in Ha; [|done]. cbn [fst snd] in *.
  unfold mbind at 1, st_bind at 1, st_map_err at 1. pose proof (ok_route p frame d (rd_now rd) s Ha Hok) as H'.
  destruct (route_if_owned _ _ _ _ s) as [[[|f]|e] s'] eqn:Er; [by destruct H' as [H' _]| |by destruct H' as [H' _]].
  destruct H' as (_ & _ & H'). destruct (H' f eq_refl) as [-> ->].
  unfold mbind, st_bind, st_map_err, forward_begin. destruct (sw_forwarder s); [|done]. cbn [negb].
  destruct (sw_permits s) as [|n] eqn:Hp; unfold reserve_frame; rewrite Hp; [done|]. cbn.
  destruct Hok as [? Hb ? ? ? Ho]. split; cbn; try done.
  - rewrite map_size_insert_None by done. lia.
  - intros id' p' q'. destruct (decide (id' = id)) as [->|]; [|rewrite lookup_insert_ne by done; apply Ho].
    rewrite lookup_insert_eq. by intros [= <- <-].
Qed.
Lemma ok_forwarded id s : ok 0 s → ok 0 (forward_end id s).
Proof.
  intros Hok. unfold forward_end. destruct (sw_outbound s !! id) as [x|] eqn:Hx; [|done]. apply (ok_release 1).
  destruct Hok as [? Hb ? ? ? Ho]. split; cbn; try done.
  - rewrite map_size_delete_Some by done. assert (size (sw_outbound s) ≠ 0)%nat; [|lia].
    intros Hz%map_size_empty_inv. by rewrite Hz, lookup_empty in Hx.
  - intros id' p' q' [_ Hq]%lookup_delete_Some. by apply (Ho id').
Qed.
Lemma ok_attach peer nonce proof registry g s : sw_leases s !! g = None → (∀ p, sw_entries s !! p ≠ Some g) →
  ok 0 s → ok 0 (attach_addressed daemon peer nonce proof registry g s).2.
Proof.
  intros Hg Hfresh Hok. unfold attach_addressed. destruct proof as [p|]; [|done].
  destruct (attach_verify _ p registry) as [[]|] eqn:Hv; [|done]. cbn [is_ok]. unfold register_receiver.
  destruct (sw_poisoned s); [done|]. destruct (sw_entries s !! peer) as [g0|] eqn:Hp; [done|]. cbn [is_some].
  destruct (Nat.leb_spec (sw_receiver_limit s) (size (sw_entries s))) as [|Hsize]; [done|]. cbn [snd].
  destruct Hok as [[Hr Hc] Hb Hn He Hl Ho]. split; cbn; try done.
  - rewrite held_insert by done. cbn. lia.
  - rewrite map_size_insert_None by done. lia.
  - intros p' g'. destruct (decide (p' = peer)) as [->|]; [rewrite lookup_insert_eq; intros [= <-]; right; rewrite lookup_insert_eq; eauto|].
    rewrite lookup_insert_ne by done. intros Hpg. destruct (He _ _ Hpg) as [|(l & Hgl & Hlp)]; [by left|right].
    exists l. rewrite lookup_insert_ne; [done|]. intros ->. congruence.
  - intros g' l. destruct (decide (g' = g)) as [->|]; [rewrite lookup_insert_eq|rewrite lookup_insert_ne by done].
    + intros [= <-]. cbn. rewrite lookup_insert_eq. split; [done|]. split; cbn; try done; [lia|by constructor..|]. by exists nonce, p, registry.
    + intros Hgl. destruct (Hl _ _ Hgl) as [Hlp Hlo]. split; [|done]. rewrite lookup_insert_ne; [done|]. intros ->. congruence.
Qed.
Lemma ok_take g s : ok 0 s → ok 0 (take_queued g t s).
Proof.
  intros Hok. unfold take_queued. destruct (sw_leases s !! g) as [l|] eqn:Hg; [|done].
  destruct (le_writing l) eqn:Hw; [done|]. destruct (le_queue l) as [|q queue] eqn:Hq; [done|].
  destruct (so_lease _ _ _ _ _ _ _ Hok g l Hg) as [_ [Hc Ho Hs Ht Hi Hp]]. rewrite Hq in Hc, Ho. cbn [length] in Hc.
  destruct (N.leb_spec (qf_deadline q) t).
  - apply (ok_release 1). apply (ok_lease g l _ 0); [done|done| | |done].
    + split; cbn; try done; [lia|by rewrite <- app_assoc|by apply sublist_inserts_r].
    + unfold lease_held. cbn. rewrite Hq, Hw. cbn. lia.
  - apply (ok_lease g l _ 0); [done|done| | |done].
    + split; cbn; try done; [lia|by rewrite <- app_assoc| |].
      * rewrite fmap_app. by apply sublist_app.
      * apply Forall_app. split; [done|]. repeat constructor; [done|]. cbn. rewrite list.Forall_forall in Hi.
        apply Hi. rewrite Ho. apply elem_of_app. right. by left.
    + unfold lease_held. cbn. rewrite Hq, Hw. cbn. lia.
Qed.
Lemma ok_write_end g s : ok 0 s → ok 0 (write_end g s).
Proof.
  intros Hok. unfold write_end. destruct (sw_leases s !! g) as [l|] eqn:Hg; [|done].
  destruct (le_writing l) eqn:Hw; [|done]. apply (ok_release 1). apply (ok_lease g l _ 0); [done|done| | |done].
  - destruct (so_lease _ _ _ _ _ _ _ Hok g l Hg) as [_ []]. by split.
  - unfold lease_held. cbn. rewrite Hw. lia.
Qed.
(** Only the entry of the lease itself is removed, never that of a later one. *)
Lemma ok_drop g s : ok 0 s → ok 0 (drop_lease g s).
Proof.
  intros Hok. unfold drop_lease. destruct (sw_leases s !! g) as [l|] eqn:Hg; [|done].
  pose proof (held_delete _ g l Hg) as Hheld. destruct (so_lease _ _ _ _ _ _ _ Hok g l Hg) as [Hmine _].
  destruct Hok as [? Hb Hn He Hl Ho]. cbn [sw_poisoned sw_entries release upd]. rewrite bool_decide_true by done.
  rewrite andb_true_r. destruct (sw_poisoned s) eqn:Hpo; cbn [negb]; split; cbn; try done; try lia.
  - intros g' l' [Hne Hgl]%lookup_delete_Some. by apply Hl.
  - rewrite map_size_delete_Some by done. lia.
  - intros p g' [Hne Hpg]%lookup_delete_Some. destruct (He p g' Hpg) as [|(l' & Hgl & Hp)]; [congruence|right].
    exists l'. split; [|done]. rewrite lookup_delete_ne; [done|]. intros ->. congruence.
  - intros g' l' [Hne Hgl]%lookup_delete_Some. destruct (Hl g' l' Hgl) as [Hp Hlo]. split; [|done].
    rewrite lookup_delete_ne; [done|]. intros Heq. rewrite <- Heq, Hmine in Hp. congruence.
Qed.
End steps.

Section runs.
Variables (daemon : PeerId) (receivers frames capacity : nat).
Notation ok := (switch_ok daemon receivers frames capacity).
Lemma ok_step c c' : addressed_step daemon wall c c' → ok c.1 0 c.2 → ok c'.1 0 c'.2.
Proof.
  destruct 1 as [? ? ? ? ? t t' s Ht|? ? ? t t' s Ht|? ? ? ? t t' s Ht|? t t' s Ht|t t' s Ht|? now t t' s Ht|? t t' s Ht|? t t' s Ht|t t' s Ht];
    cbn [fst snd]; intros Hok; try apply (ok_mono _ _ _ _ t t' _ _ Ht) in Hok;
    auto using ok_attach, ok_receive, ok_ipc, ok_forwarded, ok_write_end, ok_drop.
  - unfold set_forwarder. destruct (sw_forwarder s); [done|]. destruct Hok. by split.
  - apply (ok_mono _ _ _ _ now); [lia|]. apply ok_take. apply (ok_mono _ _ _ _ t); [lia|done].
  - destruct Hok. split; try done. intros ? ? _. by left.
Qed.
Lemma ok_reachable t0 c : rtc (addressed_step daemon wall) (t0, AddressedSwitch_new receivers frames capacity) c → ok c.1 0 c.2.
Proof.
  intros H'. remember (t0, AddressedSwitch_new receivers frames capacity) as c0 eqn:E.
  assert (ok c0.1 0 c0.2) as Hok by (subst; apply ok_new). clear E. induction H'; [done|]. eauto using ok_step.
Qed.
End runs.
End walls.

(** C15: the daemon's addressed inboxes.  In any order of connections, callers, writes,
    failures and a poisoned lock: every permit is free, queued, being written or forwarded;
    there are no more receivers than allowed and no queue over its capacity; a peer has one
    live receiver at most, which proved the peer's key; it takes just the frames queued for
    it, once and in order, and begins to write each before its deadline.  Every frame
    queued or forwarded is an addressed frame for that peer, signed by its sender under a
    trusted key, whose deadline is no later than an instant of its admission and what the
    wall clock then left until the expiry in its signed headers.  So while the wall clock
    does not run ahead of the monotonic one, no write begins at or after that expiry. *)
Theorem addressed_inboxes daemon wall receivers frames capacity t0 t s :
  rtc (addressed_step daemon wall) (t0, AddressedSwitch_new receivers frames capacity) (t, s) →
  (sw_permits s + held (sw_leases s) + size (sw_outbound s))%nat = frames ∧
  (size (sw_entries s) ≤ receivers)%nat ∧
  (∀ g l, sw_leases s !! g = Some l →
    (∀ g' l', sw_leases s !! g' = Some l' → le_peer l' = le_peer l → g' = g) ∧
    (∃ nonce proof registry, attach_verify (MkAttachChallenge daemon (le_peer l) nonce) proof registry = Ok tt) ∧
    (length (le_queue l) ≤ capacity)%nat ∧ le_in l = le_got l ++ le_queue l ∧ (le_sent l).*1 `sublist_of` le_got l ∧
    (∀ q at_ns, (q, at_ns) ∈ le_sent l → (at_ns < qf_deadline q)%N ∧
      ((∀ a b, (a ≤ b)%N → wall b - wall a ≤ Z.of_N b - Z.of_N a)%Z →
       ∃ expiry, signed_expiry (qf_frame q) = Some expiry ∧ (wall at_ns < expiry)%Z)) ∧
    ∀ q, q ∈ le_in l → genuine (le_peer l) (qf_frame q) ∧ timely wall t q) ∧
  (∀ id p q, sw_outbound s !! id = Some (p, q) → genuine p (qf_frame q) ∧ timely wall t q).
Proof.
  intros H'. apply ok_reachable in H' as [_ Hb Hn _ Hl Ho]. cbn [fst snd] in *. split_and!; [lia|done| |done].
  intros g l Hg. destruct (Hl g l Hg) as [Hp [Hc Hord Hs Ht Hi Hproof]]. split_and!; try done.
  - intros g' l' Hg' Hp'. destruct (Hl g' l' Hg') as [Hp2 _]. congruence.
  - intros q at_ns Hq. rewrite list.Forall_forall in Ht. destruct (Ht (q, at_ns) Hq) as [Hlt (e & m & He & Hm & Hw & Hd)].
    cbn [fst snd] in *. split; [done|]. intros Hsteady. exists e. split; [done|]. specialize (Hsteady m at_ns Hm). lia.
  - intros q Hq. rewrite list.Forall_forall in Hi. by apply Hi.
Qed.
End invariant.

(** A peer whose old connection still holds its lease is refused a new one: nothing
    supersedes a live receiver. *)
Lemma reconnect_refused `{!JsonValue} peer g g' l s : sw_poisoned s = false → sw_entries s !! peer = Some g →
  sw_leases s !! g = Some l → register_receiver peer g' s = (Err ReceiverBusy, s).
Proof. intros Hp He _. unfold register_receiver. by rewrite Hp, He. Qed.

(** ** Witnesses: alice sends bob one frame *)
Module AddressedScenario.
#[export] Instance json : JsonValue := {| Json := unit; json_kind := λ _, None |}.
(** A signature shows the key that made it. *)
Definition mark (key : list N) : list N := replicate 64 (default 0%N (head key)).
#[export] Instance ed : Ed25519Crypto := {|
  ed_valid _ := true; ed_public k := k; ed_sign k _ := mark k;
  ed_verify key _ s := bool_decide (s = mark key); ed_verify_strict key _ s := bool_decide (s = mark key) |}.
#[export] Instance cbor : CanonicalCbor := {| canonical_signed_bytes e := Some [uuid (env_sender e)] |}.
#[export] Instance unix : Platform := {| time_max := 2 ^ 63 * 1000000000 - 1 |}.
Definition alice : PeerId := MkId 1.
Definition bob : PeerId := MkId 2.
Definition home : PeerId := MkId 3.
Definition registry : PeerKeyRegistry := {[(alice, 0%N) := [7%N]; (bob, 0%N) := [9%N]]}.
Definition second : N := 1000000000.
Definition headers : Headers := match stamp_deadline ∅ (10 * Z.of_N second) second with Ok h => h | Err _ => ∅ end.
Definition frame : Frame := MkFrame FkAddressed
  (MkEnvelope (MkId 5) alice (MkId 0) addressed_channel (ToPeer bob) 0 0 None headers None [] (Ed25519 alice 0 (mark [7%N]))).
Definition proof : AttachProof := attach_sign (MkAttachChallenge home bob 77) [9%N] 0.
Definition empty_switch : AddressedSwitch := AddressedSwitch_new 2 4 2.
Definition bob_attached : AddressedSwitch := (attach_addressed home bob 77 (Some proof) registry 1 empty_switch).2.
(** The wall clock shows ten seconds and a half when the monotonic one shows five. *)
Definition wall (t : N) : Z := (Z.of_N t + 5 * Z.of_N second + 500 * MS)%Z.
Definition at_half : Reading := MkReading (Some (Ok registry)) (5 * second) (wall (5 * second)) (5 * second).
Definition queued : AddressedSwitch := (receive_addressed_frame frame (4 * second) at_half bob_attached).2.
Definition writing : AddressedSwitch := take_queued 1 (5 * second + 1) queued.
Lemma reached : rtc (addressed_step home wall) (0%N, empty_switch) (5 * second + 1, writing)%N.
Proof.
  apply (rtc_l _ _ (4 * second, bob_attached)%N); [apply StAttach; [done|done|intros p; cbn; by rewrite lookup_empty]|].
  apply (rtc_l _ _ (5 * second, queued)%N); [apply StReceive; [done|]; by exists (5 * second)%N|].
  apply (rtc_l _ _ (5 * second + 1, writing)%N); [by apply StTake|]. apply rtc_refl.
Qed.
End AddressedScenario.
Import AddressedScenario.

Lemma deadline_never_extended_witness :
  remaining headers (10 * Z.of_N second + 400 * MS) = Ok (600 * 1000000)%N ∧
  remaining headers (11 * Z.of_N second) = Err DlElapsed.
Proof.
  assert (stamp_deadline ∅ (10 * Z.of_N second) second = Ok headers) as Hst by (unfold headers; reflexivity).
  destruct (deadline_never_extended ∅ (10 * Z.of_N second) second headers Hst) as (e & He & _ & _ & H).
  rewrite !H by (vm_compute; congruence). assert (e = 11 * Z.of_N second)%Z as ->.
  { pose proof (H 0%Z ltac:(lia)) as H0. vm_compute in H0. destruct e as [|e|e]; try discriminate. injection H0 as <-. vm_compute. reflexivity. }
  split; vm_compute; reflexivity.
Defined.
(** Half a second is left of the sender's second; the frame is being written under one of the
    four permits, before the expiry alice signed. *)
Lemma addressed_inboxes_witness : ∃ l q,
  sw_leases writing !! 1%N = Some l ∧ le_sent l = [(q, (5 * second + 1)%N)] ∧ qf_deadline q = (5 * second + 500 * 1000000)%N ∧
  sw_permits writing = 3%nat ∧ genuine bob (qf_frame q) ∧ timely wall (5 * second + 1) q ∧
  ∃ expiry, signed_expiry (qf_frame q) = Some expiry ∧ (wall (5 * second + 1) < expiry)%Z.
Proof.
  destruct (addressed_inboxes home wall 2 4 2 0 (5 * second + 1) writing reached) as (_ & _ & H & _).
  exists (MkLease bob [] (Some (MkQueuedFrame frame (5 * second + 500 * 1000000))) [MkQueuedFrame frame (5 * second + 500 * 1000000)]
    [MkQueuedFrame frame (5 * second + 500 * 1000000)] [(MkQueuedFrame frame (5 * second + 500 * 1000000), (5 * second + 1)%N)]).
  eexists. split; [reflexivity|]. split; [reflexivity|]. split; [reflexivity|]. split; [reflexivity|].
  destruct (H 1%N _ ltac:(reflexivity)) as (_ & _ & _ & _ & _ & Hsent & Hin). split; [apply Hin; left|]. split; [apply Hin; left|].
  apply (Hsent _ (5 * second + 1)%N); [left|]. intros a b Hab. unfold wall. lia.
Defined.
