(* ===== verification/Relay.v ===== *)
(** The relay ([airc-relay/src/{server,connection}.rs]): it forwards the bytes of each frame to the
    clients its target names, and knows a client by the key of its certificate. *)
From stdpp Require Import base gmap strings list relations numbers.
From Stdlib Require Import Lia.
From S2P Require Import Prelude.
From S2P Require Import WorkModel.
From S2P Require Import CoreTranscript.
From S2P Require Import ProtoSession.
From S2P Require Import ProtoSessionThms.
From S2P Require Import ProtoKeys.
From S2P Require Import IpcCodec.

Definition RELAY_MAX_FRAME_BYTES : N := 16 * 1024 * 1024.
Definition OUTBOUND_CHANNEL_DEPTH : nat := 256.
(** [serde_json::from_slice] of a frame. *)
Class FrameJson `{!JsonValue} := { frame_of_json : list N → result rstring Frame }.

Section relay.
Context `{!JsonValue, !FrameJson}.
(** What the task that reads a client is doing. *)
Inductive ReadPhase := Reading_ | Routing (payload : list N) (recipients : list PeerId) | ReadDone.
(** A connection.  [rc_sent] is every byte its client sends before the stream ends, [rc_input]
    what is still to be read, [rc_queue] the outbound channel, whose receiver the write task
    holds while [rc_open].  Each message carries the connection it came from; [rc_read] and
    [rc_wrote] record the payloads read and written. *)
Record RelayClient := MkRelayClient {
  rc_peer : PeerId;
  rc_sent : list N;
  rc_input : list N;
  rc_phase : ReadPhase;
  rc_queue : list (N * list N);
  rc_open : bool;
  rc_out : list N;
  rc_read : list (list N);
  rc_wrote : list (N * list N);
}.
#[export] Instance eta_RelayClient : Eta RelayClient := λ r,
  MkRelayClient (rc_peer r) (rc_sent r) (rc_input r) (rc_phase r) (rc_queue r) (rc_open r) (rc_out r) (rc_read r) (rc_wrote r).
Record Relay := MkRelay { rl_connections : gmap PeerId N; rl_clients : gmap N RelayClient }.
#[export] Instance eta_Relay : Eta Relay := λ r, MkRelay (rl_connections r) (rl_clients r).
Definition set_client (c : N) (cl : RelayClient) (s : Relay) : Relay := s <| rl_clients := <[c := cl]> (rl_clients s) |>.

(** [handle_client]: the certificate's key names the peer; [entries] is the registry as
    [find_peer] meets it. *)
Definition handle_client (entries : list (PeerId * N * list N)) (pubkey : list N) (c : N) (sent : list N) (s : Relay) : option Relay :=
  '(peer, _) ← find_peer entries pubkey;
  Some (set_client c (MkRelayClient peer sent sent Reading_ [] true [] [] [])
          (s <| rl_connections := <[peer := c]> (rl_connections s) |>)).
Definition recipients_for (sender : PeerId) (frame : Frame) (s : Relay) : list PeerId :=
  match env_target (fr_envelope frame) with
  | ToPeer target =>
      if decide (target = sender) then []
      else if is_some (rl_connections s !! target) then [target] else []
  | ToAll | ToRoom _ => filter (λ peer, peer ≠ sender) (map_to_list (rl_connections s)).*1
  end.
(** Every way out of [read_loop] removes the entry of the peer. *)
Definition stop_reading (c : N) (cl : RelayClient) (input : list N) (s : Relay) : Relay :=
  set_client c (cl <| rc_input := input |> <| rc_phase := ReadDone |>)
    (s <| rl_connections := delete (rc_peer cl) (rl_connections s) |>).
(** One turn of [read_loop], up to the recipients; a hash map gives them in any [order]. *)
Definition read_frame_from (order : list PeerId → list PeerId) (c : N) (s : Relay) : Relay :=
  match rl_clients s !! c with
  | Some cl =>
      match rc_phase cl with
      | Reading_ =>
          match read_exact 4 (rc_input cl) with
          | (Err _, input) => stop_reading c cl input s
          | (Ok len_bytes, input) =>
              let len := be_value len_bytes in
              if (RELAY_MAX_FRAME_BYTES <? len)%N then stop_reading c cl input s
              else match read_exact (N.to_nat len) input with
                   | (Err _, input) => stop_reading c cl input s
                   | (Ok payload, input) =>
                       match frame_of_json payload with
                       | Err _ => stop_reading c cl input s
                       | Ok frame =>
                           set_client c (cl <| rc_input := input |> <| rc_read := rc_read cl ++ [payload] |>
                             <| rc_phase := Routing payload (order (recipients_for (rc_peer cl) frame s)) |>) s
                       end
                   end
          end
      | _ => s
      end
  | None => s
  end.
(** [tx.try_send]: dropped when the channel is full or its receiver is gone. *)
Definition relay_try_send (d : N) (message : N * list N) (s : Relay) : Relay :=
  match rl_clients s !! d with
  | Some cl =>
      if rc_open cl && (length (rc_queue cl) <? OUTBOUND_CHANNEL_DEPTH)%nat
      then set_client d (cl <| rc_queue := rc_queue cl ++ [message] |>) s else s
  | None => s
  end.
(** One recipient of [route_frame]. *)
Definition route_next (c : N) (s : Relay) : Relay :=
  match rl_clients s !! c with
  | Some cl =>
      match rc_phase cl with
      | Routing payload (recipient :: rest) =>
          let s := set_client c (cl <| rc_phase := Routing payload rest |>) s in
          match rl_connections s !! recipient with Some d => relay_try_send d (c, payload) s | None => s end
      | Routing _ [] => set_client c (cl <| rc_phase := Reading_ |>) s
      | _ => s
      end
  | None => s
  end.
Definition relay_framed (payload : list N) : list N := be_bytes 4 (N.of_nat (length payload) mod 2 ^ 32) ++ payload.
(** One message of [write_loop]; [room] bytes of it are taken when the stream breaks. *)
Definition write_next (room : option nat) (c : N) (s : Relay) : Relay :=
  match rl_clients s !! c with
  | Some cl =>
      match rc_open cl, rc_queue cl with
      | true, (o, p) :: queue =>
          match room with
          | None => set_client c (cl <| rc_queue := queue |> <| rc_out := rc_out cl ++ relay_framed p |> <| rc_wrote := rc_wrote cl ++ [(o, p)] |>) s
          | Some n => set_client c (cl <| rc_queue := [] |> <| rc_open := false |> <| rc_out := rc_out cl ++ take n (relay_framed p) |>) s
          end
      | _, _ => s
      end
  | None => s
  end.
Definition connected_peers (s : Relay) : list PeerId := (map_to_list (rl_connections s)).*1.

(** ** The server at work *)
Inductive relay_step : Relay → Relay → Prop :=
| RlConnect entries pubkey c sent s s' : Forall is_byte sent → rl_clients s !! c = None → (∀ p, rl_connections s !! p ≠ Some c) →
    handle_client entries pubkey c sent s = Some s' → relay_step s s'
| RlRead order c s : (∀ l, order l ≡ₚ l) → relay_step s (read_frame_from order c s)
| RlRoute c s : relay_step s (route_next c s)
| RlWrite room c s : relay_step s (write_next room c s).
Definition Relay_start : Relay := MkRelay ∅ ∅.

(** ** What the relay keeps *)
(** The frame is for that peer, and not its own. *)
Definition meant_for (sender : PeerId) (payload : list N) (peer : PeerId) : Prop := peer ≠ sender ∧ ∃ frame,
  frame_of_json payload = Ok frame ∧
  match env_target (fr_envelope frame) with ToPeer target => target = peer | ToAll | ToRoom _ => True end.
Definition messages (cl : RelayClient) : list (N * list N) := rc_wrote cl ++ rc_queue cl.
Definition messages_from (o : N) (l : list (N * list N)) : list (list N) := (filter (λ x, x.1 = o) l).*2.
(** The payloads of [o] whose routing is over, for a peer that is or is not among those left. *)
Definition routed (cl : RelayClient) (peer : PeerId) : list (list N) :=
  match rc_phase cl with
  | Routing _ rest => if decide (peer ∈ rest) then removelast (rc_read cl) else rc_read cl
  | _ => rc_read cl
  end.
Record client_ok (cl : RelayClient) : Prop := {
  co_bytes : Forall is_byte (rc_sent cl);
  co_depth : (length (rc_queue cl) ≤ OUTBOUND_CHANNEL_DEPTH)%nat;
  co_open : rc_open cl = false → rc_queue cl = [];
  co_input : Forall (λ p, N.of_nat (length p) ≤ RELAY_MAX_FRAME_BYTES)%N (rc_read cl) ∧
    ∃ lost, rc_sent cl = concat (framed <$> rc_read cl) ++ lost ++ rc_input cl ∧ (rc_phase cl ≠ ReadDone → lost = []);
  co_output : ∃ cut, rc_out cl = concat (relay_framed <$> (rc_wrote cl).*2) ++ cut ∧ (rc_open cl = true → cut = []);
  co_phase : match rc_phase cl with
             | Routing p rest => last (rc_read cl) = Some p ∧ NoDup rest ∧ Forall (meant_for (rc_peer cl) p) rest
             | _ => True end;
}.
Record relay_ok (s : Relay) : Prop := {
  ro_conn p c : rl_connections s !! p = Some c → ∃ cl, rl_clients s !! c = Some cl ∧ rc_peer cl = p;
  ro_client c cl : rl_clients s !! c = Some cl → client_ok cl;
  ro_messages d cl o p : rl_clients s !! d = Some cl → (o, p) ∈ messages cl →
    ∃ src, rl_clients s !! o = Some src ∧ p ∈ rc_read src ∧ meant_for (rc_peer src) p (rc_peer cl);
  ro_order d cl o src : rl_clients s !! d = Some cl → rl_clients s !! o = Some src →
    messages_from o (messages cl) `sublist_of` routed src (rc_peer cl);
}.

Lemma messages_from_sublist o l l' : l `sublist_of` l' → messages_from o l `sublist_of` messages_from o l'.
Proof. intros Hsub. apply fmap_sublist. induction Hsub; [done|..]; rewrite ?filter_cons; repeat case_decide; try done; by constructor. Qed.
Lemma messages_from_none o l : (∀ p, (o, p) ∉ l) → messages_from o l = [].
Proof.
  intros Hno. unfold messages_from. rewrite filter_none; [done|]. intros [o' p] Hin Heq. cbn in Heq. subst o'. by apply (Hno p).
Qed.
Lemma messages_from_snoc o l o' p :
  messages_from o (l ++ [(o', p)]) = messages_from o l ++ if decide (o' = o) then [p] else [].
Proof. unfold messages_from. rewrite list.filter_app, fmap_app. f_equal. rewrite filter_cons. cbn. by case_decide. Qed.

(** One client changed, its messages not growing. *)
Lemma ok_update s c cl cl' conn : relay_ok s → rl_clients s !! c = Some cl → rc_peer cl' = rc_peer cl → client_ok cl' →
  (∀ p, p ∈ rc_read cl → p ∈ rc_read cl') → (∀ peer, routed cl peer `sublist_of` routed cl' peer) →
  messages cl' `sublist_of` messages cl → (∀ p x, conn !! p = Some x → rl_connections s !! p = Some x) →
  relay_ok (MkRelay conn (<[c := cl']> (rl_clients s))).
Proof.
  intros [Hc Hcl Hm Ho] Hl Hp Hok Hread Hrouted Hmsg Hconn. split; cbn.
  - intros p x Hx. destruct (Hc p x (Hconn _ _ Hx)) as (cl0 & Hcl0 & Hp0). destruct (decide (x = c)) as [->|].
    + rewrite lookup_insert_eq. exists cl'. split; [done|]. congruence.
    + rewrite lookup_insert_ne by done. eauto.
  - intros x cl0. destruct (decide (x = c)) as [->|]; [rewrite lookup_insert_eq; by intros [= <-]|].
    rewrite lookup_insert_ne by done. apply Hcl.
  - intros d cld o p Hd Hin. assert (∃ cld0, rl_clients s !! d = Some cld0 ∧ (o, p) ∈ messages cld0 ∧ rc_peer cld0 = rc_peer cld)
      as (cld0 & Hd0 & Hin0 & Hpd).
    { destruct (decide (d = c)) as [->|]; [rewrite lookup_insert_eq in Hd; injection Hd as <-|rewrite lookup_insert_ne in Hd by done; eauto].
      exists cl. split_and!; [done|by eapply elem_of_sublist|done]. }
    destruct (Hm d cld0 o p Hd0 Hin0) as (src & Hsrc & Hr & Hmeant). rewrite Hpd in Hmeant.
    destruct (decide (o = c)) as [->|]; [rewrite lookup_insert_eq|rewrite lookup_insert_ne by done; eauto].
    exists cl'. simplify_eq. split_and!; [done|auto|by rewrite Hp].
  - intros d cld o src Hd Hsrc.
    assert (∃ cld0, rl_clients s !! d = Some cld0 ∧ messages cld `sublist_of` messages cld0 ∧ rc_peer cld0 = rc_peer cld)
      as (cld0 & Hd0 & Hsub & Hpd).
    { destruct (decide (d = c)) as [->|]; [rewrite lookup_insert_eq in Hd; injection Hd as <-; eauto|].
      rewrite lookup_insert_ne in Hd by done. eauto. }
    transitivity (messages_from o (messages cld0)); [by apply messages_from_sublist|]. rewrite <- Hpd.
    destruct (decide (o = c)) as [->|]; [rewrite lookup_insert_eq in Hsrc; injection Hsrc as <-|rewrite lookup_insert_ne in Hsrc by done; by apply (Ho d)].
    transitivity (routed cl (rc_peer cld0)); [by apply (Ho d)|]. apply Hrouted.
Qed.
(** One message queued for [d]. *)
Lemma ok_push s d cl o src p : relay_ok s → rl_clients s !! d = Some cl → rl_clients s !! o = Some src → o ≠ d →
  rc_open cl = true → (length (rc_queue cl) < OUTBOUND_CHANNEL_DEPTH)%nat → p ∈ rc_read src →
  meant_for (rc_peer src) p (rc_peer cl) →
  messages_from o (messages cl) ++ [p] `sublist_of` routed src (rc_peer cl) →
  relay_ok (set_client d (cl <| rc_queue := rc_queue cl ++ [(o, p)] |>) s).
Proof.
  intros [Hc Hcl Hm Ho] Hd Hsrc Hne Hopen Hroom Hp Hmeant Hsub. set (cl' := cl <| rc_queue := _ |>).
  assert (messages cl' = messages cl ++ [(o, p)]) as Em by (unfold messages; cbn; by rewrite app_assoc).
  assert (∀ x y, rl_clients s !! x = Some y → ∃ y', <[d := cl']> (rl_clients s) !! x = Some y' ∧ rc_peer y' = rc_peer y ∧
    rc_read y' = rc_read y) as Hsame.
  { intros x y Hx. destruct (decide (x = d)) as [->|]; [rewrite lookup_insert_eq|rewrite lookup_insert_ne by done; eauto].
    eexists. split; [done|]. by simplify_eq. }
  split; cbn.
  - intros q x Hx. destruct (Hc q x Hx) as (y & Hy & <-). destruct (Hsame x y Hy) as (y' & ? & ? & _). eauto.
  - intros x y. destruct (decide (x = d)) as [->|]; [rewrite lookup_insert_eq|rewrite lookup_insert_ne by done; apply Hcl].
    intros [= <-]. destruct (Hcl d cl Hd). split; cbn; try done; [rewrite length_app; cbn; lia|congruence].
  - intros x y o' p' Hx Hin. destruct (decide (x = d)) as [->|].
    + rewrite lookup_insert_eq in Hx. injection Hx as <-. rewrite Em in Hin. apply elem_of_app in Hin as [Hin|Hin%list_elem_of_singleton].
      * destruct (Hm d cl o' p' Hd Hin) as (z & Hz & Hr & Hme). destruct (Hsame o' z Hz) as (z' & Hz' & Ep & Er).
        exists z'. by rewrite Ep, Er.
      * injection Hin as -> ->. destruct (Hsame o src Hsrc) as (z' & Hz' & Ep & Er). exists z'. by rewrite Ep, Er.
    + rewrite lookup_insert_ne in Hx by done. destruct (Hm x y o' p' Hx Hin) as (z & Hz & Hr & Hme).
      destruct (Hsame o' z Hz) as (z' & Hz' & Ep & Er). exists z'. by rewrite Ep, Er.
  - intros x y o' z Hx Hz. assert (∃ z0, rl_clients s !! o' = Some z0 ∧ ∀ peer, routed z peer = routed z0 peer) as (z0 & Hz0 & ->).
    { destruct (decide (o' = d)) as [->|]; [rewrite lookup_insert_eq in Hz; injection Hz as <-; eauto|rewrite lookup_insert_ne in Hz by done; eauto]. }
    destruct (decide (x = d)) as [->|]; [|rewrite lookup_insert_ne in Hx by done; by apply (Ho x)].
    rewrite lookup_insert_eq in Hx. injection Hx as <-. rewrite Em, messages_from_snoc. case_decide as Heq; [subst o'|rewrite app_nil_r; apply (Ho d cl o' z0 Hd Hz0)].
    by simplify_eq.
Qed.
Lemma recipients_meant sender frame payload s : frame_of_json payload = Ok frame →
  NoDup (recipients_for sender frame s) ∧ Forall (meant_for sender payload) (recipients_for sender frame s).
Proof.
  intros Hf. unfold recipients_for. assert (∀ l, NoDup l →
    NoDup (filter (λ peer, peer ≠ sender) l) ∧ Forall (λ peer, peer ≠ sender) (filter (λ peer, peer ≠ sender) l)) as Hfilter.
  { intros l Hl. split; [by apply list.NoDup_filter|]. apply list.Forall_forall. by intros p [? _]%list_elem_of_filter. }
  destruct (env_target (fr_envelope frame)) as [|target|] eqn:Ht.
  2: { case_decide; [split; constructor|]. destruct (is_some _); [|split; constructor]. split; [apply NoDup_singleton|].
       constructor; [|constructor]. split; [done|]. exists frame. by rewrite Ht. }
  all: destruct (Hfilter _ (NoDup_fst_map_to_list (rl_connections s))) as [Hn Hall]; split; [done|];
    eapply list.Forall_impl; [exact Hall|]; intros p Hp; (split; [done|]); exists frame; by rewrite Ht.
Qed.
Lemma removelast_snoc {A} (l : list A) x : removelast (l ++ [x]) = l.
Proof. apply removelast_last. Qed.
Lemma ok_stop c cl consumed input s : relay_ok s → rl_clients s !! c = Some cl → rc_phase cl = Reading_ →
  rc_input cl = consumed ++ input → relay_ok (stop_reading c cl input s).
Proof.
  intros Hok Hc Hph Hin. apply (ok_update s c cl); try done.
  - destruct (ro_client s Hok c cl Hc) as [Hby Hd Ho [Hl (lost & Hs & Hlost)] Hout _]. rewrite Hph in Hlost. rewrite Hlost in Hs by done.
    split; cbn; try done. split; [done|]. exists consumed. rewrite Hs, Hin. split; [done|]. by intros [].
  - intros peer. unfold routed. rewrite Hph. done.
  - intros p x Hx. cbn in Hx. by apply lookup_delete_Some in Hx as [_ Hx].
Qed.
Lemma ok_read order c s : (∀ l, order l ≡ₚ l) → relay_ok s → relay_ok (read_frame_from order c s).
Proof.
  intros Horder Hok. unfold read_frame_from. destruct (rl_clients s !! c) as [cl|] eqn:Hc; [|done].
  destruct (rc_phase cl) eqn:Hph; [|done..]. unfold read_exact at 1.
  destruct (Nat.leb_spec 4 (length (rc_input cl))) as [H4|]; [|apply (ok_stop c cl (rc_input cl)); by rewrite ?app_nil_r].
  destruct (N.ltb_spec RELAY_MAX_FRAME_BYTES (be_value (take 4 (rc_input cl)))) as [|Hmax].
  { apply (ok_stop c cl (take 4 (rc_input cl))); by rewrite ?take_drop. }
  unfold read_exact. destruct (Nat.leb_spec (N.to_nat (be_value (take 4 (rc_input cl)))) (length (drop 4 (rc_input cl)))) as [Hn|];
    [|apply (ok_stop c cl (rc_input cl)); by rewrite ?app_nil_r].
  set (n := N.to_nat (be_value (take 4 (rc_input cl)))) in *. set (payload := take n (drop 4 (rc_input cl))).
  destruct (ro_client s Hok c cl Hc) as [Hby Hd Ho [Hl (lost & Hs & Hlost)] Hout _]. rewrite Hph in Hlost.
  rewrite Hlost in Hs by done. assert (Forall is_byte (rc_input cl)) as Hinput by (rewrite Hs, !Forall_app in Hby; by destruct Hby as (_ & _ & ?)).
  assert (length payload = n) as Hlen by (unfold payload; rewrite length_take; lia).
  assert (rc_input cl = framed payload ++ drop n (drop 4 (rc_input cl))) as Hframed.
  { unfold framed. rewrite Hlen. unfold n. rewrite N2Nat.id. replace 4%nat with (length (take 4 (rc_input cl))) at 1 by (rewrite length_take; lia).
    rewrite be_bytes_value by by apply Forall_take. unfold payload. by rewrite <- app_assoc, !take_drop. }
  destruct (frame_of_json payload) as [frame|] eqn:Hf; [|by apply (ok_stop c cl (framed payload))].
  destruct (recipients_meant (rc_peer cl) frame payload s Hf) as [Hnd Hmeant].
  apply (ok_update s c cl); try done.
  - split; cbn; try done.
    + split; [apply Forall_app; split; [done|]; repeat constructor; rewrite Hlen; unfold n; lia|]. exists [].
      split; [|done]. rewrite Hs, fmap_app, concat_app, <- app_assoc. f_equal. cbn [fmap list_fmap concat app]. by rewrite app_nil_r.
    + rewrite last_snoc. split_and!; [done|by rewrite Horder|]. by rewrite Horder.
  - intros p Hp. apply elem_of_app. by left.
  - intros peer. unfold routed. rewrite Hph. cbn. case_decide; [by rewrite removelast_snoc|by apply sublist_inserts_r].
Qed.
(** The phase moves past a recipient. *)
Lemma ok_pass c cl payload recipient rest s : relay_ok s → rl_clients s !! c = Some cl →
  rc_phase cl = Routing payload (recipient :: rest) → relay_ok (set_client c (cl <| rc_phase := Routing payload rest |>) s).
Proof.
  intros Hok Hc Hph. apply (ok_update s c cl); try done.
  - destruct (ro_client s Hok c cl Hc) as [Hby Hd Ho [Hl (lost & Hs & Hlost)] Hout Hp]. rewrite Hph in Hp, Hlost.
    destruct Hp as (Hlast & Hnd & Hmeant). apply list.NoDup_cons in Hnd as [_ Hnd]. apply list.Forall_cons in Hmeant as [_ Hmeant].
    split; cbn; try done. split; [done|]. exists lost. split; [done|]. intros _. by apply Hlost.
  - intros peer. unfold routed. rewrite Hph. cbn. repeat case_decide; try done; [|set_solver].
    destruct (ro_client s Hok c cl Hc) as [_ _ _ _ _ Hp]. rewrite Hph in Hp. destruct Hp as ((l & ->)%last_Some & _).
    rewrite removelast_snoc. by apply sublist_inserts_r.
Qed.
Lemma ok_route_next c s : relay_ok s → relay_ok (route_next c s).
Proof.
  intros Hok. unfold route_next. destruct (rl_clients s !! c) as [cl|] eqn:Hc; [|done].
  destruct (rc_phase cl) as [|payload [|recipient rest]|] eqn:Hph; [done| | |done].
  { apply (ok_update s c cl); try done; [|by intros peer; unfold routed; rewrite Hph; cbn; case_decide; [set_solver|]].
    destruct (ro_client s Hok c cl Hc) as [Hby Hd Ho [Hl (lost & Hs & Hlost)] Hout _]. rewrite Hph in Hlost.
    split; cbn; try done. split; [done|]. exists lost. split; [done|]. intros _. by apply Hlost. }
  pose proof (ok_pass c cl payload recipient rest s Hok Hc Hph) as Hok1. set (cl1 := cl <| rc_phase := _ |>) in *.
  set (s1 := set_client c cl1 s) in *. destruct (ro_client s Hok c cl Hc) as [_ _ _ _ _ Hp]. rewrite Hph in Hp.
  destruct Hp as (Hlast & Hnd & Hmeant). apply list.NoDup_cons in Hnd as [Hnin _]. apply list.Forall_cons in Hmeant as [Hme _].
  change (rl_connections s1) with (rl_connections s). destruct (rl_connections s !! recipient) as [d|] eqn:Hr; [|done].
  unfold relay_try_send. destruct (rl_clients s1 !! d) as [cld|] eqn:Hd; [|done].
  destruct (rc_open cld) eqn:Hopen; [|done]. destruct (Nat.ltb_spec (length (rc_queue cld)) OUTBOUND_CHANNEL_DEPTH); [|done]. cbn [andb].
  destruct (ro_conn s Hok recipient d Hr) as (cld0 & Hd0 & Hpd0).
  assert (d ≠ c) as Hdc by (intros ->; simplify_eq; by destruct Hme as [[] _]).
  assert (cld0 = cld) as -> by (unfold s1, set_client in Hd; cbn in Hd; rewrite lookup_insert_ne in Hd by done; congruence).
  destruct (proj1 (last_Some _ _) Hlast) as [pre Hread].
  apply (ok_push s1 d cld c cl1 payload Hok1 Hd); try done.
  - unfold s1, set_client. cbn. by rewrite lookup_insert_eq.
  - cbn. rewrite Hread. apply elem_of_app. right. by left.
  - by rewrite Hpd0.
  - rewrite Hpd0. unfold routed. cbn. rewrite decide_False by done. pose proof (ro_order s Hok d cld c cl Hd0 Hc) as Ho.
    unfold routed in Ho. rewrite Hph, Hpd0, decide_True in Ho by by left. rewrite Hread, removelast_snoc in Ho. rewrite Hread. by apply sublist_app.
Qed.
Lemma ok_write room c s : relay_ok s → relay_ok (write_next room c s).
Proof.
  intros Hok. unfold write_next. destruct (rl_clients s !! c) as [cl|] eqn:Hc; [|done].
  destruct (rc_open cl) eqn:Hopen; [|done]. destruct (rc_queue cl) as [|[o p] queue] eqn:Hq; [done|].
  destruct (ro_client s Hok c cl Hc) as [Hby Hd Ho Hin (cut & Hout & Hcut) Hp]. rewrite Hcut, app_nil_r in Hout by done.
  assert (messages cl = rc_wrote cl ++ (o, p) :: queue) as Em by (unfold messages; by rewrite Hq).
  destruct room as [n|]; apply (ok_update s c cl); try done.
  - split; cbn; try done; [lia|]. exists (take n (relay_framed p)). by rewrite Hout.
  - rewrite Em. unfold messages. cbn. rewrite app_nil_r. by apply sublist_inserts_r.
  - rewrite Hq in Hd. cbn in Hd. split; cbn; try done; [lia|by rewrite Hopen|]. exists []. rewrite app_nil_r. split; [|done].
    rewrite Hout, !fmap_app, concat_app. cbn. by rewrite app_nil_r.
  - rewrite Em. unfold messages. cbn. by rewrite <- app_assoc.
Qed.
Lemma ok_connect entries pubkey c sent s s' : Forall is_byte sent → rl_clients s !! c = None →
  (∀ p, rl_connections s !! p ≠ Some c) → handle_client entries pubkey c sent s = Some s' → relay_ok s → relay_ok s'.
Proof.
  intros Hby Hc Hfresh Hh [Hconn Hcl Hm Ho]. unfold handle_client in Hh. destruct (find_peer entries pubkey) as [[peer k]|]; [|done].
  cbn in Hh. injection Hh as <-. set (new := MkRelayClient _ _ _ _ _ _ _ _ _). split; cbn.
  - intros p x. destruct (decide (p = peer)) as [->|]; [rewrite lookup_insert_eq; intros [= <-]|rewrite lookup_insert_ne by done].
    + rewrite lookup_insert_eq. by exists new.
    + intros Hx. destruct (Hconn p x Hx) as (y & Hy & Hpy). exists y. rewrite lookup_insert_ne; [done|]. intros ->. by apply (Hfresh p).
  - intros x y. destruct (decide (x = c)) as [->|]; [rewrite lookup_insert_eq; intros [= <-]|rewrite lookup_insert_ne by done; apply Hcl].
    split; cbn; try done; [lia|split; [constructor|by exists []]|by exists []].
  - intros d y o p. destruct (decide (d = c)) as [->|]; [rewrite lookup_insert_eq; by intros [= <-] ?%not_elem_of_nil|].
    rewrite lookup_insert_ne by done. intros Hd Hin. destruct (Hm d y o p Hd Hin) as (z & Hz & Hr & Hme). exists z.
    rewrite lookup_insert_ne; [done|]. intros ->. congruence.
  - intros d y o z. destruct (decide (d = c)) as [->|]; [rewrite lookup_insert_eq; intros [= <-] _; apply sublist_nil_l|].
    rewrite lookup_insert_ne by done. intros Hd. destruct (decide (o = c)) as [->|]; [|rewrite lookup_insert_ne by done; by apply (Ho d)].
    intros _. rewrite messages_from_none; [apply sublist_nil_l|]. intros p Hin. destruct (Hm d y c p Hd Hin) as (w & Hw & _). congruence.
Qed.
Lemma relay_reachable_ok s : rtc relay_step Relay_start s → relay_ok s.
Proof.
  intros Hr. remember Relay_start as s0 eqn:E. assert (relay_ok s0) as Hok.
  { subst. split; cbn; intros *; rewrite lookup_empty; done. }
  clear E. induction Hr as [|s1 s2 s3 Hstep _ IH]; [done|]. apply IH.
  destruct Hstep; eauto using ok_connect, ok_read, ok_route_next, ok_write.
Qed.

(** C17: what the relay passes on.  In any order of connections, reads, sends, writes and
    failures, everything a client was sent is, byte for byte, whole frames read whole from
    other clients: each is meant for the client's peer and not its own; what comes from one
    client comes in the order it was sent, each frame once at most; a queue holds 256
    frames at most.  What was read of a client is the frames at the front of what it sent,
    none longer than 16 MiB. *)
Theorem relay_passes_frames s d cl : rtc relay_step Relay_start s → rl_clients s !! d = Some cl →
  (∃ cut, rc_out cl = concat (framed <$> (rc_wrote cl).*2) ++ cut ∧ (rc_open cl = true → cut = [])) ∧
  (length (rc_queue cl) ≤ OUTBOUND_CHANNEL_DEPTH)%nat ∧
  (∀ o p, (o, p) ∈ rc_wrote cl ++ rc_queue cl →
     ∃ src, rl_clients s !! o = Some src ∧ p ∈ rc_read src ∧ meant_for (rc_peer src) p (rc_peer cl)) ∧
  (∀ o src, rl_clients s !! o = Some src → messages_from o (rc_wrote cl ++ rc_queue cl) `sublist_of` rc_read src) ∧
  concat (framed <$> rc_read cl) `prefix_of` rc_sent cl ∧
  Forall (λ p, N.of_nat (length p) ≤ RELAY_MAX_FRAME_BYTES)%N (rc_read cl).
Proof.
  intros Hr%relay_reachable_ok Hd. destruct (ro_client s Hr d cl Hd) as [_ Hdep _ [Hlen (lost & Hs & _)] (cut & Hout & Hcut) _].
  split_and!; try done.
  - exists cut. split; [|done]. rewrite Hout. f_equal. f_equal. apply list_fmap_ext. intros i p Hp.
    assert (p ∈ (rc_wrote cl).*2) as ([o p'] & -> & Hin)%list_elem_of_fmap by by eapply list_elem_of_lookup_2.
    destruct (ro_messages s Hr d cl o p' Hd) as (src & Hsrc & Hread & _); [apply elem_of_app; by left|].
    destruct (ro_client s Hr o src Hsrc) as [_ _ _ [Hall _] _ _]. rewrite list.Forall_forall in Hall. specialize (Hall _ Hread).
    unfold relay_framed, framed. cbn [snd]. rewrite N.mod_small; [done|]. unfold RELAY_MAX_FRAME_BYTES in Hall. lia.
  - intros o p Hin. by apply (ro_messages s Hr d cl o p Hd).
  - intros o src Hsrc. transitivity (routed src (rc_peer cl)); [by apply (ro_order s Hr d cl o src)|]. unfold routed.
    destruct (rc_phase src); try done. case_decide; [|done]. destruct (ro_client s Hr o src Hsrc) as [_ _ _ _ _ Hp].
    destruct (rc_read src) as [|x l] using rev_ind; [done|]. rewrite removelast_snoc. by apply sublist_inserts_r.
  - rewrite Hs. by apply prefix_app_r.
Qed.
(** The connection that ends removes the entry of its peer, whoever holds it by then. *)
Lemma late_cleanup_unroutes order c d cl s : rl_clients s !! c = Some cl → rc_phase cl = Reading_ → rc_input cl = [] →
  rl_connections s !! rc_peer cl = Some d → d ≠ c →
  let s' := read_frame_from order c s in
  rl_connections s' !! rc_peer cl = None ∧ rl_clients s' !! d = rl_clients s !! d.
Proof.
  intros Hc Hph Hin Hd Hne s'. unfold s', read_frame_from. rewrite Hc, Hph, Hin. unfold read_exact, stop_reading, set_client. cbn.
  rewrite lookup_delete_eq, lookup_insert_ne by done. done.
Qed.
End relay.

(** ** Witnesses: alice sends bob a frame; bob reconnects *)
Module RelayScenario.
#[export] Instance json : JsonValue := {| Json := unit; json_kind := λ _, None |}.
Definition frame_to (target : MentionTarget) : Frame := MkFrame FkMessage
  (MkEnvelope (MkId 5) (MkId 1) (MkId 0) (MkId 9) target 0 0 None ∅ None [] Unsigned).
#[export] Instance one_byte : FrameJson := {| frame_of_json p := match p with
  | [0%N] => Ok (frame_to ToAll) | [n] => Ok (frame_to (ToPeer (MkId n))) | _ => Err (str "not a frame") end |}.
Definition alice : PeerId := MkId 1.
Definition bob : PeerId := MkId 2.
Definition registry : list (PeerId * N * list N) := [(alice, 0%N, [7%N]); (bob, 0%N, [8%N])].
Definition the (s : Relay) (o : option Relay) : Relay := default s o.
Definition joined (key : list N) (c : N) (sent : list N) (s : Relay) : Relay := the s (handle_client registry key c sent s).
Definition both : Relay := joined [8%N] 2 [] (joined [7%N] 1 (framed [2%N] ++ framed [2%N]) Relay_start).
Definition sent_once : Relay := write_next None 2 (route_next 1 (read_frame_from id 1 both)).
(** Bob is back on connection 3 before connection 2 is found closed. *)
Definition rejoined : Relay := read_frame_from id 2 (joined [8%N] 3 [] both).
Lemma elsewhere (l : list (PeerId * N)) c p : Forall (λ x, x.2 ≠ c) l →
  foldr (λ x (m : gmap PeerId N), <[x.1 := x.2]> m) ∅ l !! p ≠ Some c.
Proof.
  induction 1 as [|[q n] l Hn _ IH]; cbn; [by rewrite lookup_empty|].
  destruct (decide (p = q)) as [->|]; [rewrite lookup_insert_eq; intros [= ->]; by apply Hn|by rewrite lookup_insert_ne].
Qed.
Lemma both_reached : rtc relay_step Relay_start both.
Proof.
  apply (rtc_l _ _ (joined [7%N] 1 (framed [2%N] ++ framed [2%N]) Relay_start)).
  - apply (RlConnect registry [7%N] 1 (framed [2%N] ++ framed [2%N])); [by repeat constructor|done|intros p; cbn; by rewrite lookup_empty|done].
  - apply (rtc_l _ _ both); [|apply rtc_refl]. apply (RlConnect registry [8%N] 2 []); [constructor|done| |done].
    intros p. apply (elsewhere [(alice, 1%N)]). by repeat constructor.
Qed.
Lemma sent_once_reached : rtc relay_step Relay_start sent_once.
Proof.
  transitivity both; [apply both_reached|].
  apply (rtc_l _ _ (read_frame_from id 1 both)); [by apply RlRead|].
  apply (rtc_l _ _ (route_next 1 (read_frame_from id 1 both))); [apply RlRoute|].
  apply (rtc_l _ _ sent_once); [apply RlWrite|apply rtc_refl].
Qed.
(** Bob is connected, reads and writes; no frame for him is passed on. *)
Lemma reconnected_client_gets_nothing : rtc relay_step Relay_start rejoined ∧
  connected_peers rejoined = [alice] ∧
  (rc_phase <$> rl_clients rejoined !! 3%N) = Some Reading_ ∧ (rc_open <$> rl_clients rejoined !! 3%N) = Some true ∧
  (rc_queue <$> rl_clients (route_next 1 (read_frame_from id 1 rejoined)) !! 3%N) = Some [] ∧
  (rc_read <$> rl_clients (route_next 1 (read_frame_from id 1 rejoined)) !! 1%N) = Some [[2%N]].
Proof.
  split; [|repeat split; vm_compute; reflexivity].
  transitivity both; [apply both_reached|]. apply (rtc_l _ _ (joined [8%N] 3 [] both)).
  - apply (RlConnect registry [8%N] 3 []); [constructor|done| |done]. intros p.
    apply (elsewhere [(bob, 2%N); (alice, 1%N)]). by repeat constructor.
  - apply (rtc_l _ _ rejoined); [by apply RlRead|apply rtc_refl].
Qed.
End RelayScenario.
Import RelayScenario.
Lemma relay_passes_frames_witness : ∃ cl src,
  rl_clients sent_once !! 2%N = Some cl ∧ rc_out cl = framed [2%N] ∧
  rl_clients sent_once !! 1%N = Some src ∧ meant_for alice [2%N] bob.
Proof.
  destruct (rl_clients sent_once !! 2%N) as [cl|] eqn:Hd; [|discriminate (eq_trans (eq_sym Hd) eq_refl)].
  assert (rc_peer cl = bob ∧ rc_out cl = framed [2%N] ∧ rc_wrote cl = [(1%N, [2%N])]) as (Hp & Ho & Hw)
    by (vm_compute in Hd; injection Hd as <-; vm_compute; auto).
  destruct (relay_passes_frames sent_once 2 cl sent_once_reached Hd) as (_ & _ & Hin & _).
  destruct (Hin 1%N [2%N]) as (src & Hsrc & _ & Hm); [rewrite Hw; left|].
  assert (rc_peer src = alice) as Hs by (vm_compute in Hsrc; injection Hsrc as <-; reflexivity).
  exists cl, src. rewrite Hs, Hp in Hm. by split_and!.
Defined.
